(* ===== verification/_CoqProject ===== *)
-Q . S2P
Prelude.v
Text.v
Varint.v
Instr.v
Chunk.v
Serialize.v
Verify.v
VerifySound.v
Load.v
LoadSafe.v
LoadChunk.v
RoundTrip.v
ChunkExamples.v
Timers.v
Sched.v
Tags.v
Values.v
Objects.v
EmitReg.v
Strings.v
Lists.v
Strands.v
Unwind.v
Watch.v
Dispatch.v
Collector.v
Ndjson.v
NdjsonOut.v
Regexp.v
Arena.v
Lex.v
LexFacts.v
ParseStr.v
Ast.v
Parse.v
ParseFacts.v
ParseTop.v
Emit.v
EmitExamples.v
