(* ===== verification/Prelude.v ===== *)
(** * urbi-embedded: a verification library

    The program (src/src/) is an embeddable runtime for the urbiscript
    language: source text is lexed, parsed and emitted to 32-bit bytecode, the
    bytecode is serialized or loaded and verified as a chunk, and a
    cooperative scheduler runs it as strands, with tags, timers, watchers,
    prototype objects and a mark-and-sweep collector.  This library models the
    parts below as executable functions and proves what makes them correct.

    ** Conventions

    An unsigned C integer of w bits is a [Z] with its wrap-around written out
    ([u8], [u16], [u32], [u64] below), a byte buffer a [list Z].  Undefined
    behaviour (a read or store outside an array, NULL or a dead cell touched,
    a failed assertion) is [None], or a constructor of its own
    ([RFault], [UVARINT_FAULT]), so a theorem that says a function returns
    [Some] says that it does not happen.  Allocation is a parameter: a
    function that grants or refuses each request in turn, about which nothing
    is assumed, so every theorem holds whichever request fails.  Loops that
    are not structural take fuel, and a theorem shows that the fuel given is
    enough or what happens when no fuel is ([ulist_new]).

    ** The parts, with the code they model

    Bytecode.
    - [Varint]: LEB128 and zig-zag codecs (util/uvarint.c).
    - [Instr]: opcodes, operand shapes, instruction packing (chunk/uopcodes.def,
      uopcode_shape.c, uchunk.h).
    - [Chunk], [Serialize], [Load], [Verify]: prototype trees and their heap
      (chunk/uproto.h), the writer (emit/uemit_serialize.c), the loader with its
      error paths and destruction (chunk/uchunk_io.c), the verifier
      (chunk/uchunk_verify.c).  [Load] calls [Varint] and [Verify];
      [VerifySound] says what the verifier establishes for the dispatch loop;
      [LoadSafe], [LoadChunk] and [RoundTrip] prove the loader;
      [ChunkExamples] holds the concrete chunks.

    Compiling.
    - [Arena]: the bump allocator the syntax tree lives in (util/uarena.c), over a
      backing allocator that is the class [Backing] with the laws [BackingOk].
    - [Lex], [LexFacts]: the lexer, character by character, with its source
      directives (lex/ulex.c); [ParseStr]: the parser's lookahead queue and the
      resolution of string literals (parse/uparse.c, parse/uparse_expr.c).
    - [Ast], [Parse]: the syntax tree (parse/uast.h) and the whole recursive-descent
      grammar with its desugaring, its compile budget, its error nodes and the
      recovery after them (the rest of parse/).  A monad threads the state and the
      three outcomes of a C parsing function (node, NULL, error node); the mutual
      recursion is a record of functions, tied level by level.  [ParseFacts]
      specifies each function and [ParseTop] a run of calls on a source.
    - [EmitReg]: the emitter's register, block, upvalue and stream bookkeeping
      (emit/uemit_reg.c) and the runtime's reading of the line table it writes
      (uproto_line_at of rt/uunwind.c).
    - [Emit]: the code generator, every arm of it, from syntax trees to
      prototypes (emit/uemit.c, uemit_expr.c, uemit_ctrl.c, uemit_scope.c,
      uemit_react.c), in a state monad over the operations of [EmitReg];
      [EmitExamples] takes sources through to the verifier.

    Scheduling.
    - [Timers]: the timer heap; [Sched]: run queue, wait lists, park and wake,
      over a store of strands linked through one intrusive field; [Tags]: block,
      freeze, stop, event emission and death over scheduler, timers and
      watchers together (rt/usched.c, rt/utag.c, rt/uwatch.c).
    - [Strands]: a strand's register stack, frames, cleanup stack and upvalues
      (rt/ustrand.c).
    - [Unwind]: the cleanup-stack walker (rt/uunwind.c) and the instructions that
      throw, return and open and close scopes (rt/uexec_ops.c), over the stacks
      of [Strands].  What it needs of tags and events is the class [ScopeEnv]
      with its laws; the scheduler of [Tags] is an instance.
    - [Dispatch]: the interpreter (rt/uexec_ops.c): every instruction, the fetch
      loop, its entry and its budget, over [Unwind]'s strand and the prototypes
      the loader returns.  What the instructions ask of the rest of the VM (slots,
      natives, strings, forks, watchers, the writes to a strand no frame owns)
      is the class [VmEnv] with its laws [VmLaws], discharged for a concrete VM.
    - [Watch]: the reactive runtime (rt/uwatch.c): conditions, edges, bodies and
      else arms, drains, event fan-out.  Script is a list of calls, each a list
      of the operations of the file; the rest of the VM is the class [WatchEnv].

    Data.
    - [Values], [Objects]: tagged values, slots, prototype walk, and the slot
      cache with its epoch (rt/uvalue.h, rt/uobj.c, rt/uslotcache.h, the slot
      reads of rt/uexec_ops.c).
    - [Strings]: symbol table and strings (rt/ustr.c); [Lists]: lists and
      dictionaries (rt/ulist.c), on the value equality of [Strings].
    - [Collector]: mark, sweep, byte accounting and pacing (rt/ugc.c); the
      hooks of the VM are arguments.

    Outside.
    - [Text]: C string literals as bytes; [Regexp]: the backtracking matcher of
      stdlib/regexp.c.
    - [Ndjson], [NdjsonOut]: the REPL's request scanner with its heap, and the
      reply emitters (repl/urepl_ndjson.c).

    ** What the theorems show

    - Loading is safe on every byte string: no read outside the buffer, no
      leak and no double free on any failure, and what loads has passed the
      verifier, whose acceptance bounds every register, constant, site, jump
      and prelude the dispatch loop will use ([loader_never_faults],
      [verifier_sound], [loaded_code_is_safe], [loader_failure_frees],
      [load_then_destroy]).  Serializing a tree that is well formed and then
      loading it gives it back ([serialize_then_load]).
    - Type soundness of the bytecode: a strand whose frames run verified
      prototypes never gets stuck, whatever instruction comes, so loaded bytes
      run without a read or store out of bounds ([verified_code_runs],
      [loaded_bytes_run_safely]); a call hands its arguments over in place,
      checks their count and returns into its caller's register
      ([call_convention]); backward jumps alone use up the budget, and the last
      one leaves the strand READY ([budget_bounds_backward_jumps]), which a
      backward UNWIND_TO escapes ([unwind_loop_is_not_preempted]).
    - The slot cache is transparent: a read through a cached site answers what
      the uncached prototype walk answers, across any sequence of edits,
      collections and reads ([slot_cache_transparent], [slot_cache_stays_sound]).
    - Tags: a stop reaches exactly the strands in scope, gates take and release
      them, and the gate bits of every strand always equal what its scope
      implies; queues, waits and timers refine first-in first-out queues and
      multisets.
    - The collector keeps every cell reachable from the roots and the pinned
      cells and frees the others, also when its mark stack overflows; an
      allocation that collects first does too.
    - Upvalues keep their value when the register stack moves and when frames
      close; the emitter's resolution of names is lexical, its registers never
      overlap, its jumps land and its line table reads back.
    - The unwinder always ends; a throw reaches its innermost handler and a stop
      its scope, having run nothing in between but the leave events of the
      scopes it crosses; what nothing takes kills the strand and is reported; a
      finally body suspends the unwind that starts it and RESUME takes it up
      ([unwind_lands], [unwind_escapes], [finally_then_resume], [jump_lands]).
    - The watcher lists survive whatever the conditions and bodies do to them
      while they are walked; a drain asks the watchers listed when it starts,
      once each and in order; an else arm follows a body, or a rise of a watcher
      with no body that could run ([watcher_walks_safe], [drain_asks_each_once],
      [else_follows_body]).
    - What the arena hands out is aligned, zeroed and apart; the same requests
      after a reset get the same addresses without a call to malloc; and
      destroying it returns every block ([arena_hands_out_apart],
      [arena_replay], [arena_returns_everything]).
    - The lexer makes progress to the end of any input, its tokens one behind
      the other; decimal literals read
      exactly or are refused; string literals resolve to the bytes their
      escapes denote, and what the lexer accepted the parser can resolve.
    - The parser always comes back, for any source, allocation failures and
      budget, uses up its source, puts its counters back whatever happens inside,
      lets a break or continue stand only inside a loop or switch, and makes no
      more nodes than its budget ([every_call_answers], [source_is_used_up],
      [counters_are_put_back], [jumps_have_targets], [nodes_within_budget]).
    - The regular-expression search decides whether the pattern, read by a
      reader of its own into atoms and quantifiers, occurs in the text, or says
      that its step budget ran out ([search_decides]).
    - The request scanner neither leaks nor overruns on any line, and what the
      escaper writes the scanner reads back.

    ** Bounds and fuel

    Sizes of pointers and structures are those of a 64-bit host.  [decode_proto]
    recurses to the loader's own depth limit; the verifier's loops get one step
    per instruction, list walks one per strand or watcher.  The prototype walk
    gets one step per prototype link and one more: a visit stamp keeps an object
    from being expanded twice.  The collector's drain and its outer loop get one
    step per cell and one more: every step, and every pass that overflowed,
    marks or blackens a cell for good.  Doubling loops get 64 steps, the width of a size.
    The unwinder gets two steps per cleanup entry and frame and two more: each
    pops one, but the one that turns a jump too deep into a failure.  The
    dispatch loop takes its fuel as an argument and says whether it came back: an
    urbiscript program may run on.  The lexer's
    loops get one step per byte left; [int] arithmetic in it wraps.  The parser gets
    a level of recursion per byte of source: a recursive call comes after a token
    of a byte at least, and so do the turns of its loops.  The emitter gets a level
    per level of the tree, and more is no harm.  The matcher
    carries the source's own budgets of 1,000,000 steps and depth 128.  Running
    a watcher's code gets one step per call still to come: a call made inside a
    call is one further down.

    ** Not modelled

    The entry points that run a call or a chunk to its end,
    spawning and firing due timers, slot-change events, realms and the embedding API, the native methods, the ROS bridge and the REPL's
    transports.  The texts of the parser's
    error table are left out; its codes and positions are not.  Diagnostics text, formatting for hosts, board
    ports, tools, vendored and generated code are
    left out for good. *)

From stdpp Require Export base numbers list gmap.
From Stdlib Require Export ZArith Lia.

#[global] Open Scope Z_scope.

(** ** Machine integers

    A w-bit unsigned C integer is a [Z] in [0, 2^w); the wrap-around of the
    conversions and of unsigned arithmetic is written out with these. *)

Definition u8  (x : Z) : Z := x mod 2 ^ 8.
Definition u16 (x : Z) : Z := x mod 2 ^ 16.
Definition u32 (x : Z) : Z := x mod 2 ^ 32.
Definition u64 (x : Z) : Z := x mod 2 ^ 64.

(** Two's-complement reading of a 64-bit pattern: the cast [(int64_t)u]. *)
Definition i64 (x : Z) : Z :=
  let y := u64 x in if y <? 2 ^ 63 then y else y - 2 ^ 64.

Definition SIZE_MAX : Z := 2 ^ 64 - 1.
Definition PTRDIFF_MAX : Z := 2 ^ 63 - 1.
Definition UINT16_MAX : Z := 65535.
Definition UINT32_MAX : Z := 2 ^ 32 - 1.

Definition is_byte (b : Z) : Prop := 0 <= b < 256.
#[global] Instance is_byte_dec b : Decision (is_byte b).
Proof. unfold is_byte; apply _. Defined.

Abbreviation bytes := (list Z).
Abbreviation is_bytes := (Forall is_byte).

(** ** Proof automation *)

Create HintDb urbi.
Create Rewrite HintDb urbi.

(** Case analysis on the boolean comparisons of a goal or hypothesis. *)
Ltac zbool :=
  repeat match goal with
  | H : (_ <? _) = true |- _ => apply Z.ltb_lt in H
  | H : (_ <? _) = false |- _ => apply Z.ltb_ge in H
  | H : (_ <=? _) = true |- _ => apply Z.leb_le in H
  | H : (_ <=? _) = false |- _ => apply Z.leb_gt in H
  | H : (_ =? _) = true |- _ => apply Z.eqb_eq in H
  | H : (_ =? _) = false |- _ => apply Z.eqb_neq in H
  | H : _ && _ = true |- _ => apply andb_prop in H; destruct H
  | H : _ && _ = false |- _ => apply andb_false_iff in H
  | H : _ || _ = false |- _ => apply orb_false_elim in H; destruct H
  | H : _ || _ = true |- _ => apply orb_prop in H
  | H : negb _ = true |- _ => apply negb_true_iff in H
  | H : negb _ = false |- _ => apply negb_false_iff in H
  end.

Ltac zcase :=
  match goal with
  | |- context [if ?b then _ else _] => destruct b eqn:?; zbool
  end.

Ltac zcases := repeat zcase.

(** Case analysis on the scrutinee of a [match]/[if] in a hypothesis. *)
Ltac hcase H :=
  match type of H with
  | context [match ?x with _ => _ end] => destruct x eqn:?
  end.

(** ** Bit-level arithmetic as [mod], [/] and [+] *)

Lemma land_mask x n : 0 <= n -> Z.land x (2 ^ n - 1) = x mod 2 ^ n.
Proof. intros. replace (2 ^ n - 1) with (Z.ones n) by (rewrite Z.ones_equiv; lia). by apply Z.land_ones. Qed.

Lemma land_127 x : Z.land x 127 = x mod 128.
Proof. apply (land_mask x 7); lia. Qed.

Lemma land_255 x : Z.land x 255 = x mod 256.
Proof. apply (land_mask x 8); lia. Qed.

Lemma land_65535 x : Z.land x 65535 = x mod 65536.
Proof. apply (land_mask x 16); lia. Qed.

Lemma land_1 x : Z.land x 1 = x mod 2.
Proof. apply (land_mask x 1); lia. Qed.

Lemma land_3 x : Z.land x 3 = x mod 4.
Proof. apply (land_mask x 2); lia. Qed.

Lemma testbit_small x n i : 0 <= x < 2 ^ n -> n <= i -> Z.testbit x i = false.
Proof.
  intros Hx Hi. destruct (decide (n < 0)) as [|Hn].
  { rewrite Z.pow_neg_r in Hx by lia. lia. }
  rewrite <- (Z.mod_small x (2 ^ n)) by lia. apply Z.mod_pow2_bits_high. lia.
Qed.

(** A disjunction of a low part and a shifted high part is their sum. *)
Lemma lor_shiftl x y n :
  0 <= n -> 0 <= x < 2 ^ n -> Z.lor x (Z.shiftl y n) = x + y * 2 ^ n.
Proof.
  intros Hn Hx. rewrite <- Z.shiftl_mul_pow2 by lia. symmetry. apply Z.add_nocarry_lor.
  apply Z.bits_inj'. intros i Hi. rewrite Z.land_spec, Z.bits_0.
  destruct (decide (i < n)).
  - rewrite Z.shiftl_spec_low by lia. by rewrite andb_false_r.
  - rewrite (testbit_small x n i) by lia. done.
Qed.

(** Complementing the low [n] bits. *)
Lemma lxor_ones x n : 0 <= n -> 0 <= x < 2 ^ n -> Z.lxor x (2 ^ n - 1) = 2 ^ n - 1 - x.
Proof.
  intros Hn Hx. replace (2 ^ n - 1) with (Z.ones n) by (rewrite Z.ones_equiv; lia).
  assert (Hd : Z.ldiff x (Z.ones n) = 0).
  { apply Z.bits_inj'. intros i Hi. rewrite Z.ldiff_spec, Z.bits_0. destruct (decide (i < n)).
    - rewrite Z.ones_spec_low by lia. by rewrite andb_false_r.
    - by rewrite (testbit_small x n i) by lia. }
  rewrite Z.sub_nocarry_ldiff by done. apply Z.bits_inj'. intros i Hi.
  rewrite Z.lxor_spec, Z.ldiff_spec. destruct (decide (i < n)).
  - rewrite Z.ones_spec_low by lia. by destruct (Z.testbit x i).
  - rewrite Z.ones_spec_high, (testbit_small x n i) by lia. done.
Qed.

Lemma shiftr_div x n : 0 <= n -> Z.shiftr x n = x / 2 ^ n.
Proof. apply Z.shiftr_div_pow2. Qed.

Lemma u64_small x : 0 <= x < 2 ^ 64 -> u64 x = x.
Proof. intros; by apply Z.mod_small. Qed.
Lemma u32_small x : 0 <= x < 2 ^ 32 -> u32 x = x.
Proof. intros; by apply Z.mod_small. Qed.
Lemma u16_small x : 0 <= x < 2 ^ 16 -> u16 x = x.
Proof. intros; by apply Z.mod_small. Qed.
Lemma u8_small x : 0 <= x < 256 -> u8 x = x.
Proof. intros; by apply Z.mod_small. Qed.
Lemma u8_byte x : is_byte (u8 x).
Proof. unfold u8, is_byte. pose proof (Z.mod_pos_bound x (2 ^ 8)). lia. Qed.

#[export] Hint Resolve u8_byte : urbi.
#[export] Hint Rewrite u64_small u32_small u16_small u8_small using lia : urbi.

(** ** Byte buffers *)

(** [store buf i b] is the C store [buf[i] = b]; out of range is a fault. *)
Definition store {A} (buf : list A) (i : Z) (b : A) : option (list A) :=
  if (0 <=? i) && (i <? Z.of_nat (length buf)) then Some (<[Z.to_nat i := b]> buf) else None.

(** The buffer [buf] with [bs] written over it from offset [off]. *)
Definition splice {A} (buf : list A) (off : Z) (bs : list A) : list A :=
  take (Z.to_nat off) buf ++ bs ++ drop (Z.to_nat off + length bs) buf.

Lemma splice_nil {A} (buf : list A) off : splice buf off [] = buf.
Proof. unfold splice. cbn. rewrite Nat.add_0_r. apply take_drop. Qed.

Lemma length_splice {A} (buf : list A) off bs :
  0 <= off -> off + Z.of_nat (length bs) <= Z.of_nat (length buf) ->
  length (splice buf off bs) = length buf.
Proof. intros. unfold splice. rewrite !length_app, length_take, length_drop. lia. Qed.

Lemma splice_app {A} (buf : list A) off bs cs :
  0 <= off -> off + Z.of_nat (length bs + length cs) <= Z.of_nat (length buf) ->
  splice (splice buf off bs) (off + Z.of_nat (length bs)) cs = splice buf off (bs ++ cs).
Proof.
  intros H0 H1. unfold splice.
  replace (Z.to_nat (off + Z.of_nat (length bs))) with (Z.to_nat off + length bs)%nat by lia.
  assert (Ht : length (take (Z.to_nat off) buf) = Z.to_nat off) by (rewrite length_take; lia).
  rewrite (assoc_L (++) (take _ buf) bs).
  rewrite take_app_le by (rewrite length_app; lia).
  rewrite take_ge by (rewrite length_app; lia).
  rewrite drop_app_ge by (rewrite length_app; lia).
  rewrite drop_drop, length_app, Ht, <- !(assoc_L (++)), length_app.
  do 4 f_equal. lia.
Qed.

Lemma store_splice {A} (buf : list A) off b :
  0 <= off -> off < Z.of_nat (length buf) -> store buf off b = Some (splice buf off [b]).
Proof.
  intros. unfold store, splice. zcases; [|lia]. f_equal.
  rewrite insert_take_drop by lia. cbn. do 3 f_equal. lia.
Qed.

(** [read buf i] is the C load [buf[i]]. *)
Definition read {A} (buf : list A) (i : Z) : option A :=
  if 0 <=? i then buf !! Z.to_nat i else None.

Lemma read_Some_lt {A} (buf : list A) i x : read buf i = Some x -> 0 <= i < Z.of_nat (length buf).
Proof. unfold read. zcases; [|done]. intros ?%lookup_lt_Some. lia. Qed.

Lemma read_is_Some {A} (buf : list A) i : 0 <= i < Z.of_nat (length buf) -> is_Some (read buf i).
Proof. intros. unfold read. zcases; [|lia]. apply lookup_lt_is_Some. lia. Qed.

Lemma read_byte buf i b : is_bytes buf -> read buf i = Some b -> is_byte b.
Proof. unfold read. zcases; [|done]. intros H. by apply Forall_lookup_1. Qed.

Lemma read_app_r {A} (l k : list A) i :
  Z.of_nat (length l) <= i -> read (l ++ k) i = read k (i - Z.of_nat (length l)).
Proof. intros. unfold read. zcases; try lia. rewrite lookup_app_r by lia. f_equal. lia. Qed.

Lemma store_is_Some {A} (l : list A) i v :
  0 <= i < Z.of_nat (length l) -> exists l', store l i v = Some l' /\ length l' = length l.
Proof. intros. unfold store. zcases; [|lia]. eexists. split; [done|]. apply length_insert. Qed.

Lemma read_store {A} (l l' : list A) i v j :
  store l i v = Some l' -> read l' j = if decide (j = i) then Some v else read l j.
Proof.
  unfold store. destruct (_ && _) eqn:E; [|done]. zbool. intros [= <-]. unfold read.
  destruct (0 <=? j) eqn:Hj; zbool; case_decide; subst; try lia; [| |done].
  - apply list_lookup_insert_eq. lia.
  - apply list_lookup_insert_ne. lia.
Qed.

Lemma store_bytes l l' i v : store l i v = Some l' -> is_bytes l -> is_byte v -> is_bytes l'.
Proof. unfold store. destruct (_ && _); [|done]. intros [= <-] ? ?. by apply Forall_insert. Qed.

(** ** Lengths in [Z] *)

Definition zlen {T} (l : list T) : Z := Z.of_nat (length l).

Lemma zlen_app {T} (l k : list T) : zlen (l ++ k) = zlen l + zlen k.
Proof. unfold zlen. rewrite length_app. lia. Qed.

Lemma zlen_cons {T} (x : T) l : zlen (x :: l) = 1 + zlen l.
Proof. unfold zlen. cbn [length]. lia. Qed.

Lemma zlen_nil_inv {T} (l : list T) : zlen l <= 0 -> l = [].
Proof. unfold zlen. destruct l; cbn [length]; [done|lia]. Qed.

Lemma zlen_nonneg {T} (l : list T) : 0 <= zlen l.
Proof. unfold zlen. lia. Qed.

(** ** Removing one occurrence from a list *)

Fixpoint remove1 (x : nat) (l : list nat) : option (list nat) :=
  match l with
  | [] => None
  | y :: l => if decide (x = y) then Some l else cons y <$> remove1 x l
  end.

Lemma remove1_perm x l l' : remove1 x l = Some l' -> l ≡ₚ x :: l'.
Proof.
  revert l'; induction l as [|y l IH]; intros l'; cbn; [done|]. case_decide; [by intros [= ->]; subst|].
  intros (k & Hk & ->)%fmap_Some. rewrite (IH k) by done. apply Permutation_swap.
Qed.

Lemma remove1_elem x l : x ∈ l -> is_Some (remove1 x l).
Proof.
  induction l as [|y l IH]; cbn; [by intros ?%elem_of_nil|].
  intros [->|H]%elem_of_cons; case_decide; try done; try eauto.
  destruct (IH H) as [k ->]. eauto.
Qed.

(** Removing a block the list is known to contain up to permutation. *)
Lemma remove1_of_perm x l k : l ≡ₚ x :: k -> exists l', remove1 x l = Some l' /\ l' ≡ₚ k.
Proof.
  intros H. destruct (remove1_elem x l) as [l' Hl']; [rewrite H; left|].
  exists l'. split; [done|]. apply remove1_perm in Hl'. apply (Permutation_cons_inv (a := x)). by rewrite <- Hl'.
Qed.

(** Filters that agree on the elements of the list. *)
Lemma list_filter_ext {A} (P Q : A -> Prop) `{forall x, Decision (P x)} `{forall x, Decision (Q x)} (l : list A) :
  (forall x, x ∈ l -> P x <-> Q x) -> filter P l = filter Q l.
Proof.
  induction l as [|x l IH]; intros Hpq; [done|]. rewrite !filter_cons. rewrite IH by (intros y Hy; apply Hpq; by right).
  destruct (decide (P x)) as [Hp|Hp], (decide (Q x)) as [Hq|Hq]; try done; exfalso; pose proof (Hpq x ltac:(left)); tauto.
Qed.

Lemma list_filter_id {A} (P : A -> Prop) `{forall x, Decision (P x)} (l : list A) : (forall x, x ∈ l -> P x) -> filter P l = l.
Proof.
  induction l as [|x l IH]; intros Hp; [done|]. rewrite filter_cons, decide_True by (apply Hp; by left).
  f_equal. apply IH. intros y Hy. apply Hp. by right.
Qed.
