(* ===== verification/Text.v ===== *)
(** * Character data the text components share

    C string literals as bytes, and the characters both the lexer and the
    request scanner classify. *)
From Stdlib Require Import Ascii String.
From S2P Require Import Prelude.

(** A C string literal as bytes, without its NUL; a quotation mark is written
    as an apostrophe, which none of the literals contains. *)
Definition lit (s : string) : bytes :=
  (fun c => let b := Z.of_N (N_of_ascii c) in if b =? 39 then 34 else b) <$> list_ascii_of_string s.

(** What [strlen] and [strcmp] see of a buffer: the bytes up to the first NUL. *)
Fixpoint cstr (b : bytes) : bytes :=
  match b with [] => [] | c :: b => if c =? 0 then [] else c :: cstr b end.
