(* ===== verification/Varint.v ===== *)
(** * LEB128 varints (src/src/util/uvarint.c)

    The encoder and decoder the bytecode writer and loader share. *)
From S2P Require Import Prelude.

(** Outcome of a decode: the three codes of [UVarintError], the success
    carrying the out-parameters [v] and [consumed], and [VFault] for a read
    past the memory behind [buf]. *)
Inductive UVarintResult :=
| UVARINT_OK (v consumed : Z)
| UVARINT_TRUNCATED
| UVARINT_OVERSIZE
| UVARINT_FAULT.

(** A [uint64_t] loses 7 bits per iteration, so ten iterations are enough
    ([size_loop_fuel] below). *)
Definition VARINT_FUEL : nat := 10.

(** ** Encode *)

Fixpoint uvarint_size_loop (fuel : nat) (v n : Z) : Z :=
  match fuel with
  | O => n
  | S fuel => if 128 <=? v then uvarint_size_loop fuel (Z.shiftr v 7) (n + 1) else n
  end.

Definition uvarint_size_u (v : Z) : Z := uvarint_size_loop VARINT_FUEL v 1.

(** [((uint64_t)v << 1) ^ sign] with [sign] all ones exactly for [v < 0]. *)
Definition zigzag (v : Z) : Z :=
  let sign := u64 (- (if v <? 0 then 1 else 0)) in
  Z.lxor (u64 (Z.shiftl (u64 v) 1)) sign.

Definition uvarint_size_zz (v : Z) : Z := uvarint_size_u (zigzag v).

Fixpoint uvarint_write_loop (fuel : nat) (buf : bytes) (off v : Z) : option (bytes * Z) :=
  match fuel with
  | O => None
  | S fuel =>
      if 128 <=? v then
        match store buf off (u8 (Z.lor (Z.land v 127) 128)) with
        | Some buf => uvarint_write_loop fuel buf (off + 1) (Z.shiftr v 7)
        | None => None
        end
      else
        match store buf off (u8 v) with
        | Some buf => Some (buf, off + 1)
        | None => None
        end
  end.

Definition uvarint_write_u (buf : bytes) (off v : Z) : option (bytes * Z) :=
  uvarint_write_loop VARINT_FUEL buf off v.

Definition uvarint_write_zz (buf : bytes) (off v : Z) : option (bytes * Z) :=
  uvarint_write_u buf off (zigzag v).

(** ** Decode

    [rest] is the memory from [buf + i] on; the loop never reads it once
    [i] reaches [size]. *)
Fixpoint uvarint_decode_loop (rest : bytes) (size result i shift : Z) : UVarintResult :=
  if i <? size then
    match rest with
    | [] => UVARINT_FAULT
    | b :: rest =>
        if (shift =? 63) && negb (Z.land b 126 =? 0) then UVARINT_OVERSIZE
        else
          let result := Z.lor result (u64 (Z.shiftl (Z.land b 127) shift)) in
          if Z.land b 128 =? 0 then UVARINT_OK result (i + 1)
          else
            let shift := shift + 7 in
            if 63 <? shift then UVARINT_OVERSIZE
            else uvarint_decode_loop rest size result (i + 1) shift
    end
  else UVARINT_TRUNCATED.

Definition uvarint_decode_u (buf : bytes) (size : Z) : UVarintResult :=
  uvarint_decode_loop buf size 0 0 0.

(** [(int64_t)((u >> 1) ^ (0 - (u & 1)))]. *)
Definition unzigzag (u : Z) : Z :=
  i64 (Z.lxor (Z.shiftr u 1) (u64 (0 - Z.land u 1))).

Definition uvarint_decode_zz (buf : bytes) (size : Z) : UVarintResult :=
  match uvarint_decode_u buf size with
  | UVARINT_OK u consumed => UVARINT_OK (unzigzag u) consumed
  | r => r
  end.

(** ** Reference encoding *)

Fixpoint varint_bytes_fuel (fuel : nat) (v : Z) : bytes :=
  match fuel with
  | O => []
  | S fuel => if 128 <=? v then (v mod 128 + 128) :: varint_bytes_fuel fuel (v / 128) else [v]
  end.

(** The canonical LEB128 encoding of [v]. *)
Definition varint_bytes (v : Z) : bytes := varint_bytes_fuel VARINT_FUEL v.
Definition varint_zz_bytes (v : Z) : bytes := varint_bytes (zigzag v).

Abbreviation is_u64 v := (0 <= v < 2 ^ 64).
Abbreviation is_i64 v := (- 2 ^ 63 <= v < 2 ^ 63).

(** ** The loops against the reference encoding *)

Lemma varint_bytes_fuel_step fuel v :
  128 <= v -> varint_bytes_fuel (S fuel) v = (v mod 128 + 128) :: varint_bytes_fuel fuel (v / 128).
Proof. intros. cbn. zcases; [done|lia]. Qed.

Lemma varint_bytes_fuel_last fuel v : v < 128 -> varint_bytes_fuel (S fuel) v = [v].
Proof. intros. cbn. zcases; [lia|done]. Qed.

Lemma div_128_bound v k : 0 <= v < 2 ^ (7 * Z.of_nat (S k)) -> 0 <= v / 128 < 2 ^ (7 * Z.of_nat k).
Proof.
  intros Hv. replace (7 * Z.of_nat (S k)) with (7 * Z.of_nat k + 7) in Hv by lia.
  rewrite Z.pow_add_r in Hv by lia. change (2 ^ 7) with 128 in Hv.
  split; [apply Z.div_pos; lia|]. apply Z.div_lt_upper_bound; lia.
Qed.

Lemma u64_fuel v : is_u64 v -> 0 <= v < 2 ^ (7 * Z.of_nat VARINT_FUEL).
Proof. change (7 * Z.of_nat VARINT_FUEL) with 70. lia. Qed.

Lemma varint_fuel_length fuel v :
  0 <= v < 2 ^ (7 * Z.of_nat fuel) -> (fuel <> 0)%nat ->
  (1 <= length (varint_bytes_fuel fuel v) <= fuel)%nat.
Proof.
  revert v; induction fuel as [|fuel IH]; intros v Hv Hf; [done|].
  destruct (decide (128 <= v)).
  - rewrite varint_bytes_fuel_step by done. cbn. apply div_128_bound in Hv.
    destruct fuel; [cbn in Hv; assert (1 <= v / 128) by (apply Z.div_le_lower_bound; lia); lia|].
    specialize (IH _ Hv ltac:(done)). lia.
  - rewrite varint_bytes_fuel_last by lia. cbn. lia.
Qed.

Lemma size_loop_spec fuel v n :
  0 <= v < 2 ^ (7 * Z.of_nat fuel) -> (fuel <> 0)%nat ->
  uvarint_size_loop fuel v n = n - 1 + Z.of_nat (length (varint_bytes_fuel fuel v)).
Proof.
  revert v n; induction fuel as [|fuel IH]; intros v n Hv Hf; [done|].
  destruct (decide (128 <= v)).
  - rewrite varint_bytes_fuel_step by done. cbn [uvarint_size_loop length].
    rewrite shiftr_div by lia. change (2 ^ 7) with 128. zcases; [|lia].
    apply div_128_bound in Hv.
    destruct fuel; [cbn in Hv; assert (1 <= v / 128) by (apply Z.div_le_lower_bound; lia); lia|].
    rewrite IH by done. lia.
  - rewrite varint_bytes_fuel_last by lia. cbn [uvarint_size_loop length]. zcases; lia.
Qed.

Lemma uvarint_size_u_length v : is_u64 v -> uvarint_size_u v = Z.of_nat (length (varint_bytes v)).
Proof. intros ?%u64_fuel. unfold uvarint_size_u. rewrite size_loop_spec by done. unfold varint_bytes. lia. Qed.

Lemma length_varint_bytes v : is_u64 v -> (1 <= length (varint_bytes v) <= 10)%nat.
Proof. intros ?%u64_fuel. by apply varint_fuel_length. Qed.

Lemma cont_byte v : 0 <= v -> u8 (Z.lor (Z.land v 127) 128) = v mod 128 + 128.
Proof.
  intros. rewrite land_127. change (Z.lor ?x 128) with (Z.lor x (Z.shiftl 1 7)). rewrite lor_shiftl.
  - change (1 * 2 ^ 7) with 128. pose proof (Z.mod_pos_bound v 128). apply u8_small. lia.
  - lia.
  - change (2 ^ 7) with 128. apply Z.mod_pos_bound. lia.
Qed.

Lemma varint_fuel_bytes fuel v : 0 <= v -> is_bytes (varint_bytes_fuel fuel v).
Proof.
  revert v; induction fuel as [|fuel IH]; intros v Hv; [constructor|]. cbn. zcases.
  - constructor; [|apply IH, Z.div_pos; lia]. pose proof (Z.mod_pos_bound v 128). unfold is_byte. lia.
  - repeat constructor; lia.
Qed.

Lemma is_bytes_varint v : is_u64 v -> is_bytes (varint_bytes v).
Proof. intros. apply varint_fuel_bytes. lia. Qed.

Lemma write_loop_spec fuel buf off v :
  0 <= v < 2 ^ (7 * Z.of_nat fuel) -> (fuel <> 0)%nat -> 0 <= off ->
  off + Z.of_nat (length (varint_bytes_fuel fuel v)) <= Z.of_nat (length buf) ->
  uvarint_write_loop fuel buf off v
  = Some (splice buf off (varint_bytes_fuel fuel v), off + Z.of_nat (length (varint_bytes_fuel fuel v))).
Proof.
  revert buf off v; induction fuel as [|fuel IH]; intros buf off v Hv Hf Hoff Hroom; [done|].
  destruct (decide (128 <= v)).
  - rewrite varint_bytes_fuel_step in * by done. cbn [uvarint_write_loop length] in *.
    rewrite shiftr_div by lia. change (2 ^ 7) with 128. zcases; [|lia].
    rewrite cont_byte by lia. rewrite store_splice by lia.
    apply div_128_bound in Hv.
    destruct fuel; [cbn in Hv; assert (1 <= v / 128) by (apply Z.div_le_lower_bound; lia); lia|].
    rewrite IH; [|done|done|lia|rewrite length_splice by (cbn [length]; lia); lia].
    rewrite (splice_app buf off [v mod 128 + 128]) by (cbn [length]; lia). do 2 f_equal. lia.
  - rewrite varint_bytes_fuel_last in * by lia. cbn [uvarint_write_loop length] in *.
    zcases; [lia|]. rewrite u8_small by lia. rewrite store_splice by lia. done.
Qed.

Lemma uvarint_write_u_splice buf off v :
  is_u64 v -> 0 <= off -> off + Z.of_nat (length (varint_bytes v)) <= Z.of_nat (length buf) ->
  uvarint_write_u buf off v
  = Some (splice buf off (varint_bytes v), off + Z.of_nat (length (varint_bytes v))).
Proof. intros ?%u64_fuel ? ?. by apply write_loop_spec. Qed.

(** ** Decoding *)

Lemma decode_cont_byte b : 0 <= b < 128 ->
  Z.land (b + 128) 127 = b /\ Z.land (b + 128) 128 <> 0.
Proof.
  intros Hb. split.
  - rewrite land_127. rewrite <- (Z.mod_small b 128) at 2 by lia. rewrite <- (Z.mod_add b 1 128) by lia. f_equal.
  - assert (Ht : Z.testbit (Z.land (b + 128) 128) 7 = true).
    { rewrite Z.land_spec. replace (b + 128) with (Z.lor b (Z.shiftl 1 7)) by (rewrite lor_shiftl; lia).
      rewrite Z.lor_spec. change (Z.testbit (Z.shiftl 1 7) 7) with true. by rewrite orb_true_r. }
    intros E. rewrite E in Ht. by rewrite Z.bits_0 in Ht.
Qed.

Lemma land_128_small b : 0 <= b < 128 -> Z.land b 128 = 0.
Proof.
  intros Hb. apply Z.bits_inj'. intros i Hi. rewrite Z.land_spec, Z.bits_0.
  destruct (decide (i = 7)) as [->|].
  - by rewrite (testbit_small b 7 7) by lia.
  - change 128 with (2 ^ 7). rewrite Z.pow2_bits_false by lia. by rewrite andb_false_r.
Qed.

Lemma byte_high_bit b : is_byte b -> Z.land b 128 <> 0 -> 128 <= b.
Proof. unfold is_byte. intros Hb Hl. destruct (decide (b < 128)); [|lia]. by rewrite land_128_small in Hl by lia. Qed.

(** Folding one payload into the accumulator: [result] holds the low
    [shift] bits. *)
Lemma decode_accum result b shift :
  0 <= shift -> 0 <= result < 2 ^ shift -> 0 <= b < 128 -> b * 2 ^ shift < 2 ^ 64 ->
  Z.lor result (u64 (Z.shiftl b shift)) = result + b * 2 ^ shift.
Proof.
  intros. rewrite u64_small by (rewrite Z.shiftl_mul_pow2 by lia; nia). by apply lor_shiftl.
Qed.

Lemma land_126_small b : 0 <= b < 2 -> Z.land b 126 = 0.
Proof. intros. assert (b = 0 \/ b = 1) as [-> | ->] by lia; done. Qed.

(** The decoder inverts the reference encoding, whatever follows it. *)
Lemma decode_loop_encode fuel v tail size result i shift :
  (fuel <> 0)%nat -> shift = 7 * i -> 0 <= i -> i + Z.of_nat fuel <= 10 ->
  0 <= result < 2 ^ shift -> 0 <= v < 2 ^ (7 * Z.of_nat fuel) -> v * 2 ^ shift < 2 ^ 64 ->
  i + Z.of_nat (length (varint_bytes_fuel fuel v)) <= size ->
  uvarint_decode_loop (varint_bytes_fuel fuel v ++ tail) size result i shift
  = UVARINT_OK (result + v * 2 ^ shift) (i + Z.of_nat (length (varint_bytes_fuel fuel v))).
Proof.
  revert v size result i shift; induction fuel as [|fuel IH]; intros v size result i shift Hf Hs Hi Hif Hr Hv Hm Hsz; [done|].
  assert (Hp : 0 < 2 ^ shift) by (apply Z.pow_pos_nonneg; lia).
  destruct (decide (128 <= v)).
  - rewrite varint_bytes_fuel_step in * by done. cbn [app uvarint_decode_loop length] in *.
    apply div_128_bound in Hv.
    destruct fuel; [cbn in Hv; assert (1 <= v / 128) by (apply Z.div_le_lower_bound; lia); lia|].
    pose proof (Z.mod_pos_bound v 128 ltac:(lia)) as Hmod.
    destruct (decode_cont_byte (v mod 128) Hmod) as [E1 E2].
    assert (Hdm : v = v / 128 * 128 + v mod 128) by (pose proof (Z.div_mod v 128); lia).
    assert (H63 : shift <> 63) by lia.
    zcases; try lia.
    rewrite E1, decode_accum by (try lia; nia).
    assert (Hpow : 2 ^ (shift + 7) = 2 ^ shift * 128) by (rewrite Z.pow_add_r by lia; done).
    rewrite IH; [|done|lia|lia|lia|rewrite Hpow; nia|done|rewrite Hpow; nia|lia].
    rewrite Hpow. f_equal; [|lia]. rewrite Hdm at 3. ring.
  - rewrite varint_bytes_fuel_last in * by lia. cbn [app uvarint_decode_loop length] in *.
    assert (Hlow : shift = 63 -> Z.land v 126 = 0).
    { intros ->. apply land_126_small. nia. }
    rewrite (land_128_small v) by lia. rewrite land_127, Z.mod_small by lia.
    zcases; try lia; try (destruct Heqb0; zbool; lia).
    rewrite decode_accum by lia. done.
Qed.

Lemma uvarint_decode_u_encode v tail size :
  is_u64 v -> Z.of_nat (length (varint_bytes v)) <= size ->
  uvarint_decode_u (varint_bytes v ++ tail) size = UVARINT_OK v (Z.of_nat (length (varint_bytes v))).
Proof.
  intros Hv Hsz. unfold uvarint_decode_u, varint_bytes in *.
  rewrite decode_loop_encode; try done; try (by apply u64_fuel); try lia.
  f_equal. change (2 ^ 0) with 1. lia.
Qed.

Lemma land_126_zero b : is_byte b -> Z.land b 126 = 0 -> Z.land b 127 < 2.
Proof.
  intros Hb H. assert (E : Z.land b 127 = Z.land b 1).
  { change 127 with (Z.lor 126 1). rewrite Z.land_lor_distr_r, H. done. }
  rewrite E, land_1. apply Z.mod_pos_bound. lia.
Qed.

(** On arbitrary bytes: no read outside the buffer, a value of 64 bits, at
    most ten bytes consumed. *)
Lemma decode_loop_bounds rest size result i shift :
  is_bytes rest -> size - i <= Z.of_nat (length rest) ->
  0 <= i <= 9 -> shift = 7 * i -> 0 <= result < 2 ^ shift ->
  match uvarint_decode_loop rest size result i shift with
  | UVARINT_OK v c => is_u64 v /\ i < c <= 10 /\ c <= size
  | UVARINT_FAULT => False
  | _ => True
  end.
Proof.
  revert result i shift; induction rest as [|b rest IH]; intros result i shift Hb Hsz Hi Hs Hr;
    cbn [uvarint_decode_loop length] in *; [zcases; lia|].
  apply Forall_cons in Hb as [Hb Hbs].
  destruct (i <? size) eqn:Hlt; [|done]. zbool.
  assert (Hl : 0 <= Z.land b 127 < 128) by (rewrite land_127; apply Z.mod_pos_bound; lia).
  destruct ((shift =? 63) && negb (Z.land b 126 =? 0)) eqn:Hov; [done|].
  assert (Hfit : Z.land b 127 * 2 ^ shift + 2 ^ shift <= 2 ^ 64).
  { destruct (decide (i = 9)) as [->|].
    - assert (Hz : Z.land b 126 = 0) by (zbool; destruct Hov; zbool; lia).
      apply land_126_zero in Hz; [|done]. subst shift. change (2 ^ (7 * 9)) with (2 ^ 63). lia.
    - assert (2 ^ shift <= 2 ^ 56) by (apply Z.pow_le_mono_r; lia). nia. }
  assert (Hp : 0 < 2 ^ shift) by (apply Z.pow_pos_nonneg; lia).
  rewrite decode_accum by lia.
  destruct (Z.land b 128 =? 0); [split; [|lia]; nia|].
  destruct (63 <? shift + 7) eqn:H63; [done|]. zbool.
  specialize (IH (result + Z.land b 127 * 2 ^ shift) (i + 1) (shift + 7) Hbs ltac:(lia) ltac:(lia) ltac:(lia)).
  rewrite Z.pow_add_r in IH by lia. change (2 ^ 7) with 128 in IH. specialize (IH ltac:(nia)).
  destruct (uvarint_decode_loop _ _ _ _ _); naive_solver lia.
Qed.

Lemma uvarint_decode_u_bounds buf size :
  is_bytes buf -> size <= Z.of_nat (length buf) ->
  match uvarint_decode_u buf size with
  | UVARINT_OK v c => is_u64 v /\ 1 <= c <= 10 /\ c <= size
  | UVARINT_FAULT => False
  | _ => True
  end.
Proof.
  intros Hb Hsz. unfold uvarint_decode_u.
  pose proof (decode_loop_bounds buf size 0 0 0 Hb ltac:(lia) ltac:(lia) ltac:(lia) ltac:(cbn; lia)) as H.
  destruct (uvarint_decode_loop _ _ _ _ _); naive_solver lia.
Qed.

(** ** Zigzag *)

Lemma zigzag_spec v : is_i64 v -> zigzag v = if v <? 0 then -2 * v - 1 else 2 * v.
Proof.
  intros Hv. unfold zigzag. rewrite Z.shiftl_mul_pow2 by lia. change (2 ^ 1) with 2. zcases.
  - assert (E : u64 v = v + 2 ^ 64) by (unfold u64; rewrite <- (Z.mod_add v 1 (2 ^ 64)) by lia; rewrite Z.mod_small; lia).
    assert (E2 : u64 (u64 v * 2) = 2 * v + 2 ^ 64).
    { rewrite E. unfold u64. replace ((v + 2 ^ 64) * 2) with (2 * v + 2 ^ 64 + 1 * 2 ^ 64) by lia.
      rewrite Z.mod_add by lia. apply Z.mod_small. lia. }
    rewrite E2. change (u64 (- (1))) with (2 ^ 64 - 1). rewrite lxor_ones by lia. lia.
  - rewrite (u64_small v) by lia. rewrite u64_small by lia. change (u64 (- 0)) with 0.
    rewrite Z.lxor_0_r. lia.
Qed.

Lemma zigzag_u64 v : is_i64 v -> is_u64 (zigzag v).
Proof. intros. rewrite zigzag_spec by done. zcases; lia. Qed.

Lemma unzigzag_zigzag v : is_i64 v -> unzigzag (zigzag v) = v.
Proof.
  intros Hv. rewrite zigzag_spec by done. unfold unzigzag. rewrite land_1, shiftr_div by lia.
  change (2 ^ 1) with 2. zcases.
  - replace ((-2 * v - 1) / 2) with (- v - 1) by (apply (Z.div_unique_pos _ _ _ 1); lia).
    replace ((-2 * v - 1) mod 2) with 1 by (apply (Z.mod_unique_pos _ _ (- v - 1)); lia).
    change (u64 (0 - 1)) with (2 ^ 64 - 1). rewrite lxor_ones by lia.
    unfold i64. rewrite u64_small by lia. zcases; lia.
  - replace (2 * v / 2) with v by (apply (Z.div_unique_pos _ _ _ 0); lia).
    replace ((2 * v) mod 2) with 0 by (apply (Z.mod_unique_pos _ _ v); lia).
    change (u64 (0 - 0)) with 0. rewrite Z.lxor_0_r.
    unfold i64. rewrite u64_small by lia. zcases; lia.
Qed.

Lemma i64_range x : is_i64 (i64 x).
Proof. unfold i64, u64. pose proof (Z.mod_pos_bound x (2 ^ 64)). zcases; lia. Qed.

Lemma uvarint_decode_zz_encode v tail size :
  is_i64 v -> Z.of_nat (length (varint_zz_bytes v)) <= size ->
  uvarint_decode_zz (varint_zz_bytes v ++ tail) size = UVARINT_OK v (Z.of_nat (length (varint_zz_bytes v))).
Proof.
  intros Hv Hsz. unfold uvarint_decode_zz, varint_zz_bytes in *.
  rewrite uvarint_decode_u_encode by (try apply zigzag_u64; done). by rewrite unzigzag_zigzag.
Qed.

Lemma uvarint_decode_zz_bounds buf size :
  is_bytes buf -> size <= Z.of_nat (length buf) ->
  match uvarint_decode_zz buf size with
  | UVARINT_OK v c => is_i64 v /\ 1 <= c <= 10 /\ c <= size
  | UVARINT_FAULT => False
  | _ => True
  end.
Proof.
  intros Hb Hs. pose proof (uvarint_decode_u_bounds buf size Hb Hs) as H. unfold uvarint_decode_zz.
  destruct (uvarint_decode_u buf size); try done. split; [apply i64_range|tauto].
Qed.

Lemma uvarint_write_zz_splice buf off v :
  is_i64 v -> 0 <= off -> off + Z.of_nat (length (varint_zz_bytes v)) <= Z.of_nat (length buf) ->
  uvarint_write_zz buf off v
  = Some (splice buf off (varint_zz_bytes v), off + Z.of_nat (length (varint_zz_bytes v))).
Proof. intros ?%zigzag_u64 ? ?. by apply uvarint_write_u_splice. Qed.

#[export] Hint Resolve zigzag_u64 i64_range is_bytes_varint : urbi.

(** ** Properties *)

Lemma drop_splice {T} (buf : list T) off bs :
  0 <= off -> off + Z.of_nat (length bs) <= Z.of_nat (length buf) ->
  exists tail, drop (Z.to_nat off) (splice buf off bs) = bs ++ tail.
Proof.
  intros H0 H1. eexists. unfold splice. rewrite drop_app_ge by (rewrite length_take; lia).
  rewrite length_take. replace (Z.to_nat off - (Z.to_nat off `min` length buf))%nat with O by lia. by rewrite drop_0.
Qed.

(** unsigned varints round-trip: with room for [uvarint_size_u v] bytes,
    at most ten, the writer fills exactly those, and the decoder, given just
    those bytes, reads back [v] and their number. *)
Theorem uvarint_u_roundtrip buf off v :
  is_u64 v -> 0 <= off -> off + uvarint_size_u v <= Z.of_nat (length buf) ->
  1 <= uvarint_size_u v <= 10 /\
  exists buf', uvarint_write_u buf off v = Some (buf', off + uvarint_size_u v) /\ length buf' = length buf /\
    uvarint_decode_u (drop (Z.to_nat off) buf') (uvarint_size_u v) = UVARINT_OK v (uvarint_size_u v).
Proof.
  intros Hv Hoff Hroom. pose proof (length_varint_bytes v Hv). rewrite uvarint_size_u_length in * by done. split; [lia|].
  exists (splice buf off (varint_bytes v)). rewrite uvarint_write_u_splice by done. split; [done|].
  split; [by apply length_splice|]. destruct (drop_splice buf off (varint_bytes v) Hoff Hroom) as [tail ->].
  by apply uvarint_decode_u_encode.
Qed.

Lemma uvarint_u_roundtrip_witness :
  exists buf', uvarint_write_u [9; 9; 9; 9] 1 300 = Some (buf', 1 + uvarint_size_u 300) /\ length buf' = 4%nat /\
    uvarint_decode_u (drop (Z.to_nat 1) buf') (uvarint_size_u 300) = UVARINT_OK 300 (uvarint_size_u 300).
Proof. apply (uvarint_u_roundtrip [9; 9; 9; 9] 1 300); [lia|lia|vm_compute; discriminate]. Defined.

(** signed varints round-trip over the whole [int64_t] range, the zig-zag
    step included. *)
Theorem uvarint_zz_roundtrip buf off v :
  is_i64 v -> 0 <= off -> off + uvarint_size_zz v <= Z.of_nat (length buf) ->
  1 <= uvarint_size_zz v <= 10 /\
  exists buf', uvarint_write_zz buf off v = Some (buf', off + uvarint_size_zz v) /\ length buf' = length buf /\
    uvarint_decode_zz (drop (Z.to_nat off) buf') (uvarint_size_zz v) = UVARINT_OK v (uvarint_size_zz v).
Proof.
  intros Hv Hoff Hroom. pose proof (zigzag_u64 v Hv) as Hz. pose proof (length_varint_bytes _ Hz). unfold uvarint_size_zz in *.
  rewrite uvarint_size_u_length in * by done. fold (varint_zz_bytes v) in *. split; [lia|].
  exists (splice buf off (varint_zz_bytes v)). rewrite uvarint_write_zz_splice by done. split; [done|].
  split; [by apply length_splice|]. destruct (drop_splice buf off (varint_zz_bytes v) Hoff Hroom) as [tail ->].
  by apply uvarint_decode_zz_encode.
Qed.

Lemma uvarint_zz_roundtrip_witness :
  exists buf', uvarint_write_zz (replicate 10 0) 0 (- 2 ^ 63) = Some (buf', 0 + uvarint_size_zz (- 2 ^ 63)) /\ length buf' = 10%nat /\
    uvarint_decode_zz (drop (Z.to_nat 0) buf') (uvarint_size_zz (- 2 ^ 63)) = UVARINT_OK (- 2 ^ 63) (uvarint_size_zz (- 2 ^ 63)).
Proof. apply (uvarint_zz_roundtrip (replicate 10 0) 0 (- 2 ^ 63)); [lia|lia|vm_compute; discriminate]. Defined.

(** the varint decoder on arbitrary bytes: it never reads past [size], never
    consumes more than ten bytes, and what it returns fits the machine
    word, for the unsigned and the zig-zag reader. *)
Theorem uvarint_decode_bounded buf size :
  is_bytes buf -> size <= Z.of_nat (length buf) ->
  match uvarint_decode_u buf size, uvarint_decode_zz buf size with
  | UVARINT_OK v c, UVARINT_OK w c' => is_u64 v /\ is_i64 w /\ c' = c /\ 1 <= c <= 10 /\ c <= size
  | UVARINT_TRUNCATED, UVARINT_TRUNCATED | UVARINT_OVERSIZE, UVARINT_OVERSIZE => True
  | _, _ => False
  end.
Proof.
  intros Hb Hs. pose proof (uvarint_decode_u_bounds buf size Hb Hs) as Hu. pose proof (uvarint_decode_zz_bounds buf size Hb Hs) as Hz.
  unfold uvarint_decode_zz in *. destruct (uvarint_decode_u buf size); tauto.
Qed.

Lemma uvarint_decode_bounded_witness :
  is_bytes (replicate 12 255) /\ uvarint_decode_u (replicate 12 255) 12 = UVARINT_OVERSIZE /\
  match uvarint_decode_u (replicate 12 255) 12, uvarint_decode_zz (replicate 12 255) 12 with
  | UVARINT_OK v c, UVARINT_OK w c' => is_u64 v /\ is_i64 w /\ c' = c /\ 1 <= c <= 10 /\ c <= 12
  | UVARINT_TRUNCATED, UVARINT_TRUNCATED | UVARINT_OVERSIZE, UVARINT_OVERSIZE => True
  | _, _ => False
  end.
Proof.
  assert (Hb : is_bytes (replicate 12 255)) by (apply Forall_replicate; unfold is_byte; lia).
  split; [exact Hb|]. split; [reflexivity|]. apply (uvarint_decode_bounded (replicate 12 255) 12); [exact Hb|cbn; lia].
Defined.
