(* ===== verification/Instr.v ===== *)
(** * Instructions (src/src/chunk/uopcodes.def, uopcode_shape.c/.h, uchunk.h)

    The opcode set, the per-opcode operand shapes the verifier consumes, and
    the 32-bit instruction encoding. *)
From S2P Require Import Prelude.

(** ** The opcode set, in wire order *)

Inductive UOpcode :=
| OP_LOADK | OP_MOVE | OP_ADD | OP_SUB | OP_MUL
| OP_DIV | OP_NEG | OP_RET | OP_LOADNIL | OP_LOADBOOL
| OP_LOADVOID | OP_GETUPVAL | OP_SETUPVAL | OP_CLOSURE | OP_CLOSE
| OP_CALL | OP_JMP | OP_TEST | OP_TESTSET | OP_EQ
| OP_LT | OP_LE | OP_YIELD | OP_FORK | OP_JOIN_WAIT
| OP_GETSLOT | OP_SETSLOT | OP_SETSLOT_UPDATE | OP_SELF | OP_GETSLOT_CHANGE_EVENT
| OP_EXTARG | OP_THROW | OP_SCOPE_TRY | OP_SCOPE_TAG | OP_SCOPE_POP
| OP_UNWIND_TO | OP_RESUME | OP_LOAD_CATCH_VALUE | OP_INSTALL | OP_LOAD_REALM_GLOBAL
| OP_LOAD_RECV.

#[global] Instance UOpcode_eq_dec : EqDecision UOpcode.
Proof. solve_decision. Defined.

Definition all_opcodes : list UOpcode :=
  [ OP_LOADK; OP_MOVE; OP_ADD; OP_SUB; OP_MUL;
    OP_DIV; OP_NEG; OP_RET; OP_LOADNIL; OP_LOADBOOL;
    OP_LOADVOID; OP_GETUPVAL; OP_SETUPVAL; OP_CLOSURE; OP_CLOSE;
    OP_CALL; OP_JMP; OP_TEST; OP_TESTSET; OP_EQ;
    OP_LT; OP_LE; OP_YIELD; OP_FORK; OP_JOIN_WAIT;
    OP_GETSLOT; OP_SETSLOT; OP_SETSLOT_UPDATE; OP_SELF; OP_GETSLOT_CHANGE_EVENT;
    OP_EXTARG; OP_THROW; OP_SCOPE_TRY; OP_SCOPE_TAG; OP_SCOPE_POP;
    OP_UNWIND_TO; OP_RESUME; OP_LOAD_CATCH_VALUE; OP_INSTALL; OP_LOAD_REALM_GLOBAL;
    OP_LOAD_RECV ].

(** The enumerator's value is its row position. *)
Definition opcode_num (o : UOpcode) : Z :=
  match o with
  | OP_LOADK => 0 | OP_MOVE => 1 | OP_ADD => 2 | OP_SUB => 3 | OP_MUL => 4
  | OP_DIV => 5 | OP_NEG => 6 | OP_RET => 7 | OP_LOADNIL => 8 | OP_LOADBOOL => 9
  | OP_LOADVOID => 10 | OP_GETUPVAL => 11 | OP_SETUPVAL => 12 | OP_CLOSURE => 13 | OP_CLOSE => 14
  | OP_CALL => 15 | OP_JMP => 16 | OP_TEST => 17 | OP_TESTSET => 18 | OP_EQ => 19
  | OP_LT => 20 | OP_LE => 21 | OP_YIELD => 22 | OP_FORK => 23 | OP_JOIN_WAIT => 24
  | OP_GETSLOT => 25 | OP_SETSLOT => 26 | OP_SETSLOT_UPDATE => 27 | OP_SELF => 28 | OP_GETSLOT_CHANGE_EVENT => 29
  | OP_EXTARG => 30 | OP_THROW => 31 | OP_SCOPE_TRY => 32 | OP_SCOPE_TAG => 33 | OP_SCOPE_POP => 34
  | OP_UNWIND_TO => 35 | OP_RESUME => 36 | OP_LOAD_CATCH_VALUE => 37 | OP_INSTALL => 38 | OP_LOAD_REALM_GLOBAL => 39
  | OP_LOAD_RECV => 40
  end.

Definition OP_MAX : Z := 41.

(** [None] is an opcode byte at or above [OP_MAX]. *)
Definition opcode_of (n : Z) : option UOpcode := read all_opcodes n.

(** ** Operand shapes *)

Inductive UOpcodeFormat := UOPF_ABC | UOPF_ABX.

Inductive UOperandKind :=
| UOPK_UNUSED | UOPK_REG | UOPK_IMM_BOOL | UOPK_IMM_FLAGS | UOPK_UPVAL_IDX
| UOPK_REG_OR_NONE | UOPK_IMM_MODE | UOPK_IMM_SITE | UOPK_IMM_DEPTH.

Inductive UBxKind :=
| UBXK_UNUSED | UBXK_POOL_INDEX | UBXK_NESTED_INDEX | UBXK_JUMP_SIGNED
| UBXK_HANDLER_PC | UBXK_SYMBOL_ID | UBXK_EXTARG.

#[global] Instance UOpcodeFormat_eq_dec : EqDecision UOpcodeFormat.
Proof. solve_decision. Defined.
#[global] Instance UOperandKind_eq_dec : EqDecision UOperandKind.
Proof. solve_decision. Defined.
#[global] Instance UBxKind_eq_dec : EqDecision UBxKind.
Proof. solve_decision. Defined.

Record UOpcodeShape := Shape {
  format : UOpcodeFormat;
  a_kind : UOperandKind;
  b_kind : UOperandKind;
  c_kind : UOperandKind;
  bx_kind : UBxKind }.

Definition urbi_opcode_shapes (o : UOpcode) : UOpcodeShape :=
  match o with
  | OP_LOADK => Shape UOPF_ABX UOPK_REG UOPK_UNUSED UOPK_UNUSED UBXK_POOL_INDEX
  | OP_MOVE => Shape UOPF_ABC UOPK_REG UOPK_REG UOPK_UNUSED UBXK_UNUSED
  | OP_ADD => Shape UOPF_ABC UOPK_REG UOPK_REG UOPK_REG UBXK_UNUSED
  | OP_SUB => Shape UOPF_ABC UOPK_REG UOPK_REG UOPK_REG UBXK_UNUSED
  | OP_MUL => Shape UOPF_ABC UOPK_REG UOPK_REG UOPK_REG UBXK_UNUSED
  | OP_DIV => Shape UOPF_ABC UOPK_REG UOPK_REG UOPK_REG UBXK_UNUSED
  | OP_NEG => Shape UOPF_ABC UOPK_REG UOPK_REG UOPK_UNUSED UBXK_UNUSED
  | OP_RET => Shape UOPF_ABC UOPK_REG UOPK_UNUSED UOPK_UNUSED UBXK_UNUSED
  | OP_LOADNIL => Shape UOPF_ABC UOPK_REG UOPK_UNUSED UOPK_UNUSED UBXK_UNUSED
  | OP_LOADBOOL => Shape UOPF_ABC UOPK_REG UOPK_IMM_BOOL UOPK_IMM_BOOL UBXK_UNUSED
  | OP_LOADVOID => Shape UOPF_ABC UOPK_REG UOPK_UNUSED UOPK_UNUSED UBXK_UNUSED
  | OP_GETUPVAL => Shape UOPF_ABC UOPK_REG UOPK_UPVAL_IDX UOPK_UNUSED UBXK_UNUSED
  | OP_SETUPVAL => Shape UOPF_ABC UOPK_REG UOPK_UPVAL_IDX UOPK_UNUSED UBXK_UNUSED
  | OP_CLOSURE => Shape UOPF_ABX UOPK_REG UOPK_UNUSED UOPK_UNUSED UBXK_NESTED_INDEX
  | OP_CLOSE => Shape UOPF_ABC UOPK_REG UOPK_UNUSED UOPK_UNUSED UBXK_UNUSED
  | OP_CALL => Shape UOPF_ABC UOPK_REG UOPK_REG UOPK_UNUSED UBXK_UNUSED
  | OP_JMP => Shape UOPF_ABX UOPK_UNUSED UOPK_UNUSED UOPK_UNUSED UBXK_JUMP_SIGNED
  | OP_TEST => Shape UOPF_ABC UOPK_REG UOPK_UNUSED UOPK_IMM_BOOL UBXK_UNUSED
  | OP_TESTSET => Shape UOPF_ABC UOPK_REG UOPK_REG UOPK_IMM_BOOL UBXK_UNUSED
  | OP_EQ => Shape UOPF_ABC UOPK_IMM_BOOL UOPK_REG UOPK_REG UBXK_UNUSED
  | OP_LT => Shape UOPF_ABC UOPK_IMM_BOOL UOPK_REG UOPK_REG UBXK_UNUSED
  | OP_LE => Shape UOPF_ABC UOPK_IMM_BOOL UOPK_REG UOPK_REG UBXK_UNUSED
  | OP_YIELD => Shape UOPF_ABC UOPK_UNUSED UOPK_UNUSED UOPK_UNUSED UBXK_UNUSED
  | OP_FORK => Shape UOPF_ABC UOPK_REG UOPK_REG_OR_NONE UOPK_IMM_BOOL UBXK_UNUSED
  | OP_JOIN_WAIT => Shape UOPF_ABC UOPK_REG UOPK_UNUSED UOPK_UNUSED UBXK_UNUSED
  | OP_GETSLOT => Shape UOPF_ABC UOPK_REG UOPK_REG UOPK_IMM_SITE UBXK_UNUSED
  | OP_SETSLOT => Shape UOPF_ABC UOPK_REG UOPK_REG UOPK_IMM_SITE UBXK_UNUSED
  | OP_SETSLOT_UPDATE => Shape UOPF_ABC UOPK_REG UOPK_REG UOPK_IMM_SITE UBXK_UNUSED
  | OP_SELF => Shape UOPF_ABC UOPK_REG UOPK_REG UOPK_IMM_SITE UBXK_UNUSED
  | OP_GETSLOT_CHANGE_EVENT => Shape UOPF_ABC UOPK_REG UOPK_REG UOPK_IMM_SITE UBXK_UNUSED
  | OP_EXTARG => Shape UOPF_ABX UOPK_UNUSED UOPK_UNUSED UOPK_UNUSED UBXK_EXTARG
  | OP_THROW => Shape UOPF_ABC UOPK_REG UOPK_UNUSED UOPK_UNUSED UBXK_UNUSED
  | OP_SCOPE_TRY => Shape UOPF_ABX UOPK_IMM_FLAGS UOPK_UNUSED UOPK_UNUSED UBXK_HANDLER_PC
  | OP_SCOPE_TAG => Shape UOPF_ABX UOPK_REG_OR_NONE UOPK_UNUSED UOPK_UNUSED UBXK_HANDLER_PC
  | OP_SCOPE_POP => Shape UOPF_ABC UOPK_IMM_FLAGS UOPK_UNUSED UOPK_UNUSED UBXK_UNUSED
  | OP_UNWIND_TO => Shape UOPF_ABX UOPK_IMM_DEPTH UOPK_UNUSED UOPK_UNUSED UBXK_HANDLER_PC
  | OP_RESUME => Shape UOPF_ABC UOPK_UNUSED UOPK_UNUSED UOPK_UNUSED UBXK_UNUSED
  | OP_LOAD_CATCH_VALUE => Shape UOPF_ABC UOPK_REG UOPK_UNUSED UOPK_UNUSED UBXK_UNUSED
  | OP_INSTALL => Shape UOPF_ABC UOPK_REG UOPK_IMM_MODE UOPK_IMM_FLAGS UBXK_UNUSED
  | OP_LOAD_REALM_GLOBAL => Shape UOPF_ABC UOPK_REG UOPK_UNUSED UOPK_UNUSED UBXK_UNUSED
  | OP_LOAD_RECV => Shape UOPF_ABC UOPK_REG UOPK_UNUSED UOPK_UNUSED UBXK_UNUSED
  end.

(** ** Operand constants *)

Definition USCOPE_F_HAS_CATCH : Z := 1.
Definition USCOPE_F_HAS_FINALLY : Z := 2.
Definition USCOPE_POP_TRY : Z := 1.
Definition USCOPE_POP_TAG : Z := 2.
Definition USCOPE_POP_RUN_FINALLY : Z := 4.
Definition UFORK_DETACH : Z := 0.
Definition UFORK_JOIN : Z := 1.
Definition UINSTALL_AT_COND : Z := 1.
Definition UINSTALL_AT_SYNC_COND : Z := 2.
Definition UINSTALL_WHENEVER_COND : Z := 3.
Definition UINSTALL_AT_EVENT : Z := 4.
Definition UINSTALL_AT_SYNC_EVENT : Z := 5.
Definition UINSTALL_WHENEVER_EVENT : Z := 6.
Definition UINSTALL_WAITUNTIL : Z := 7.
Definition USCOPE_NO_REG : Z := 255.
Definition UCALL_C_METHOD : Z := 128.
Definition UINSTALL_F_HAS_BODY : Z := 1.
Definition UINSTALL_F_HAS_ALT : Z := 2.

(** ** Encoding *)

Definition uinstr_op (i : Z) : Z := Z.land i 255.
Definition uinstr_a  (i : Z) : Z := u8 (Z.land (Z.shiftr i 8) 255).
Definition uinstr_b  (i : Z) : Z := u8 (Z.land (Z.shiftr i 16) 255).
Definition uinstr_c  (i : Z) : Z := u8 (Z.land (Z.shiftr i 24) 255).
Definition uinstr_bx (i : Z) : Z := u16 (Z.land (Z.shiftr i 16) 65535).

Definition uinstr_enc_abc (op : UOpcode) (a b c : Z) : Z :=
  Z.lor (Z.lor (Z.lor (opcode_num op) (Z.shiftl a 8)) (Z.shiftl b 16)) (Z.shiftl c 24).
Definition uinstr_enc_abx (op : UOpcode) (a bx : Z) : Z :=
  Z.lor (Z.lor (opcode_num op) (Z.shiftl a 8)) (Z.shiftl bx 16).

(** The decoded opcode, and the test [uinstr_op(i) == OP_X]. *)
Definition uinstr_opcode (i : Z) : option UOpcode := opcode_of (uinstr_op i).
Definition op_is (i : Z) (o : UOpcode) : bool := bool_decide (uinstr_opcode i = Some o).

(** ** Lemmas *)

Lemma opcode_num_range o : 0 <= opcode_num o < OP_MAX.
Proof. unfold OP_MAX. destruct o; cbn; lia. Qed.

Lemma opcode_of_num o : opcode_of (opcode_num o) = Some o.
Proof. by destruct o. Qed.

Lemma opcode_of_inv n o : opcode_of n = Some o -> opcode_num o = n.
Proof.
  unfold opcode_of. intros H. pose proof (read_Some_lt _ _ _ H) as Hr. cbn in Hr.
  unfold read in H. destruct (0 <=? n); [|done]. rewrite <- (Z2Nat.id n) by lia.
  assert (Hk : (Z.to_nat n < 41)%nat) by lia. revert H Hk. generalize (Z.to_nat n). intros k H Hk.
  do 41 (destruct k; [by injection H as <-|]). lia.
Qed.

Lemma opcode_of_None n : 0 <= n -> opcode_of n = None <-> OP_MAX <= n.
Proof.
  intros Hn. unfold opcode_of, read. zcases; [|lia]. rewrite lookup_ge_None. unfold OP_MAX. cbn. lia.
Qed.

Definition is_u32 (i : Z) : Prop := 0 <= i < 2 ^ 32.

(** Field reads as arithmetic. *)
Lemma uinstr_op_div i : uinstr_op i = i mod 256.
Proof. apply land_255. Qed.
Lemma uinstr_field i n : 0 <= n -> u8 (Z.land (Z.shiftr i n) 255) = i / 2 ^ n mod 256.
Proof.
  intros. rewrite land_255, shiftr_div by done. apply u8_small, Z.mod_pos_bound. lia.
Qed.
Lemma uinstr_bx_div i : uinstr_bx i = i / 2 ^ 16 mod 2 ^ 16.
Proof. unfold uinstr_bx. rewrite land_65535, shiftr_div by lia. apply u16_small, Z.mod_pos_bound. lia. Qed.

Lemma uinstr_a_byte i : is_byte (uinstr_a i).
Proof. apply u8_byte. Qed.
Lemma uinstr_b_byte i : is_byte (uinstr_b i).
Proof. apply u8_byte. Qed.
Lemma uinstr_c_byte i : is_byte (uinstr_c i).
Proof. apply u8_byte. Qed.
Lemma uinstr_bx_range i : 0 <= uinstr_bx i < 2 ^ 16.
Proof. apply Z.mod_pos_bound. lia. Qed.
#[export] Hint Resolve uinstr_a_byte uinstr_b_byte uinstr_c_byte uinstr_bx_range : urbi.

Lemma enc_abc_sum op a b c :
  is_byte a -> is_byte b -> is_byte c ->
  uinstr_enc_abc op a b c = opcode_num op + a * 2 ^ 8 + b * 2 ^ 16 + c * 2 ^ 24.
Proof.
  unfold is_byte. intros. pose proof (opcode_num_range op). unfold OP_MAX in *. unfold uinstr_enc_abc.
  rewrite (lor_shiftl (opcode_num op)), (lor_shiftl (_ + a * _)), lor_shiftl by lia. done.
Qed.

Lemma enc_abx_sum op a bx :
  is_byte a -> 0 <= bx < 2 ^ 16 ->
  uinstr_enc_abx op a bx = opcode_num op + a * 2 ^ 8 + bx * 2 ^ 16.
Proof.
  unfold is_byte. intros. pose proof (opcode_num_range op). unfold OP_MAX in *. unfold uinstr_enc_abx.
  rewrite (lor_shiftl (opcode_num op)), lor_shiftl by lia. done.
Qed.

(** Reading back base-256 digits. *)
Lemma digit_div x y n : 0 <= n -> 0 <= x < 2 ^ n -> (x + y * 2 ^ n) / 2 ^ n = y.
Proof. intros. rewrite Z.div_add by lia. rewrite Z.div_small by lia. lia. Qed.

Lemma digit_mod x y : 0 <= x < 256 -> (x + y * 256) mod 256 = x.
Proof. intros. rewrite Z.mod_add by lia. by apply Z.mod_small. Qed.

(** ** Properties *)

(** decoding an encoded ABC instruction gives back the opcode and the
    three operand bytes, and the word fits 32 bits. *)
Theorem uinstr_abc_roundtrip op a b c :
  is_byte a -> is_byte b -> is_byte c ->
  let i := uinstr_enc_abc op a b c in
  is_u32 i /\ uinstr_opcode i = Some op /\ uinstr_a i = a /\ uinstr_b i = b /\ uinstr_c i = c.
Proof.
  intros Ha Hb Hc i. pose proof (opcode_num_range op) as Ho. unfold OP_MAX in Ho.
  assert (Hi : i = opcode_num op + (a + (b + c * 256) * 256) * 256) by (unfold i; rewrite enc_abc_sum by done; lia).
  unfold is_byte in *. rewrite Hi. unfold uinstr_opcode, uinstr_a, uinstr_b, uinstr_c.
  rewrite uinstr_op_div, !uinstr_field by lia.
  rewrite digit_mod, opcode_of_num by lia.
  change (2 ^ 24) with (2 ^ 8 * 2 ^ 8 * 2 ^ 8). change (2 ^ 16) with (2 ^ 8 * 2 ^ 8).
  rewrite <- !Z.div_div by lia. change 256 with (2 ^ 8). rewrite !digit_div by lia.
  change (2 ^ 8) with 256. rewrite !digit_mod, (Z.mod_small c) by lia. unfold is_u32. repeat split; lia.
Qed.

Lemma uinstr_abx_decode op a bx :
  is_byte a -> 0 <= bx < 2 ^ 16 ->
  let i := uinstr_enc_abx op a bx in
  is_u32 i /\ uinstr_opcode i = Some op /\ uinstr_a i = a /\ uinstr_bx i = bx.
Proof.
  intros Ha Hb i. pose proof (opcode_num_range op) as Ho. unfold OP_MAX in Ho.
  assert (Hi : i = opcode_num op + (a + bx * 256) * 256) by (unfold i; rewrite enc_abx_sum by done; lia).
  unfold is_byte in *. rewrite Hi. unfold uinstr_opcode, uinstr_a.
  rewrite uinstr_op_div, uinstr_bx_div, uinstr_field by lia.
  rewrite digit_mod, opcode_of_num by lia.
  change (?x / 2 ^ 16) with (x / (2 ^ 8 * 2 ^ 8)). rewrite <- Z.div_div by lia. change 256 with (2 ^ 8).
  rewrite !digit_div by lia. change (2 ^ 8) with 256.
  rewrite digit_mod, (Z.mod_small bx) by lia. unfold is_u32. repeat split; lia.
Qed.

Lemma uinstr_abc_roundtrip_witness :
  uinstr_opcode (uinstr_enc_abc OP_CALL 7 2 129) = Some OP_CALL /\ uinstr_c (uinstr_enc_abc OP_CALL 7 2 129) = 129.
Proof.
  destruct (uinstr_abc_roundtrip OP_CALL 7 2 129) as (_ & Ho & _ & _ & Hc); [unfold is_byte; lia..|].
  exact (conj Ho Hc).
Defined.
