(* ===== verification/Chunk.v ===== *)
(** * The chunk data model (src/src/chunk/uproto.h, uchunk.h, uchunk_io.c)

    A function prototype [UProto], the constants it pools, the load errors,
    and the allocator the loader runs on.  Every pointer of a prototype
    names the heap block behind it, so ownership can be stated. *)
From S2P Require Import Prelude.

(** ** Load errors *)

Inductive UChunkLoadError :=
| UCHUNK_LOAD_OK
| UCHUNK_LOAD_BAD_MAGIC
| UCHUNK_LOAD_UNSUPPORTED_VERSION
| UCHUNK_LOAD_FLAVOR_MISMATCH
| UCHUNK_LOAD_TRUNCATED
| UCHUNK_LOAD_CORRUPT_VARINT
| UCHUNK_LOAD_CORRUPT_TAG
| UCHUNK_LOAD_CORRUPT
| UCHUNK_LOAD_OOM
| UCHUNK_LOAD_INVALID_ARG
| UCHUNK_LOAD_OVERSIZED
| UCHUNK_LOAD_TRUNCATED_UPVALUES
| UCHUNK_LOAD_MALFORMED_UPVALUE
| UCHUNK_LOAD_JMP_OUT_OF_BOUNDS
| UCHUNK_LOAD_CALL_NRESULTS_ZERO
| UCHUNK_LOAD_RESERVED_OPCODE
| UCHUNK_LOAD_BAD_EXTARG
| UCHUNK_LOAD_BAD_TARGET.

#[global] Instance UChunkLoadError_eq_dec : EqDecision UChunkLoadError.
Proof. solve_decision. Defined.

(** ** The allocator

    [UChunkAllocFn] is code of the embedder: which requests it serves is a
    parameter, a function of the call's position in the run and its size.
    The laws are what uproto.h documents of it ([NULL] for a zero-byte
    request with a [NULL] pointer) and what every allocator over a C object
    representation obeys (no object is larger than [PTRDIFF_MAX]). *)

Class Allocator := grant : nat -> Z -> bool.

Class AllocatorOk (A : Allocator) : Prop := {
  grant_zero k : grant k 0 = false;
  grant_max k n : PTRDIFF_MAX < n -> grant k n = false }.

(** Block identities are the numbers of the calls that created them. *)
Record heap := Heap { h_calls : nat; h_live : list nat }.

Section Heap.
Context {A : Allocator}.

(** [alloc(NULL, n, ud)]. *)
Definition halloc (n : Z) (h : heap) : option nat * heap :=
  let k := h_calls h in
  if grant k (u64 n)
  then (Some k, Heap (S k) (k :: h_live h))
  else (None, Heap (S k) (h_live h)).

(** [alloc(p, 0, ud)] for a non-NULL [p]; freeing a dead block is a fault. *)
Definition hfree (p : nat) (h : heap) : option heap :=
  match remove1 p (h_live h) with
  | Some live => Some (Heap (h_calls h) live)
  | None => None
  end.

(** [alloc(p, n, ud)], [p] possibly NULL, [n] non-zero: on success the old
    block is gone, on failure it is untouched.  The outer [option] is the
    fault of reallocating a dead block. *)
Definition hrealloc (p : option nat) (n : Z) (h : heap) : option (option nat * heap) :=
  match p with
  | None => Some (halloc n h)
  | Some q =>
      match remove1 q (h_live h) with
      | None => None
      | Some live =>
          let k := h_calls h in
          if grant k (u64 n)
          then Some (Some k, Heap (S k) (k :: live))
          else Some (None, Heap (S k) (h_live h))
      end
  end.

End Heap.

Definition heap_ok (h : heap) : Prop :=
  NoDup (h_live h) /\ Forall (fun b => (b < h_calls h)%nat) (h_live h).

(** ** Prototypes *)

(** A growable C array: pointer, the elements below the count, capacity. *)
Record vec (T : Type) := Vec { v_ptr : option nat; v_items : list T; v_cap : Z }.
Arguments Vec {T} _ _ _.
Arguments v_ptr {T} _.
Arguments v_items {T} _.
Arguments v_cap {T} _.

Definition vnil {T} : vec T := Vec None [] 0.
Definition v_count {T} (v : vec T) : Z := Z.of_nat (length (v_items v)).

(** A pool entry ([UValue] by its kind byte).  A double is its eight bytes;
    a string is its block and the bytes before the terminator the loader
    appends. *)
Inductive UConst :=
| K_INT (i : Z)
| K_FLOAT (f : bytes)
| K_STR (s : option (nat * bytes))
| K_OTHER (kind : Z).

Definition UVAL_INT : Z := 1.
Definition UVAL_FLOAT : Z := 2.
Definition UVAL_STR : Z := 4.

Definition const_kind (k : UConst) : Z :=
  match k with K_INT _ => UVAL_INT | K_FLOAT _ => UVAL_FLOAT | K_STR _ => UVAL_STR | K_OTHER n => n end.

Record UAbsLine := AbsLine { al_pc : Z; al_line : Z }.

(** The struct, less the fields only the runtime writes (site cache,
    refcount, realm links). *)
Record PData := MkPData {
  p_self : nat  ; (* the block holding the struct itself *)
  max_reg : Z;
  nupvals : Z;
  nparams : Z;
  arity_prologue : Z;
  constants : vec UConst;
  constants_owned : bool;
  instructions : vec Z;
  line_deltas : option (nat * bytes);  (* raw [int8_t] patterns *)
  abs_lines : vec UAbsLine;
  site_count : Z;
  site_name_strs : option (nat * list (option (nat * bytes)));
  nested_ptr : option nat;  (* the [nested] array *)
  nested_cap : Z;
  proto_index : Z;
  has_root : bool  (* [root] back-pointer set *) }.

Inductive UProto := MkProto (pdata : PData) (nested : list (option UProto)).

Definition pdata (p : UProto) : PData := let 'MkProto d _ := p in d.
Definition nested (p : UProto) : list (option UProto) := let 'MkProto _ n := p in n.

(** Field assignments. *)
Definition set_header (a b c f : Z) (d : PData) : PData :=
  MkPData (p_self d) a b c f (constants d) (constants_owned d) (instructions d) (line_deltas d) (abs_lines d) (site_count d) (site_name_strs d) (nested_ptr d) (nested_cap d) (proto_index d) (has_root d).
Definition set_constants (v : vec UConst) (d : PData) : PData :=
  MkPData (p_self d) (max_reg d) (nupvals d) (nparams d) (arity_prologue d) v (constants_owned d) (instructions d) (line_deltas d) (abs_lines d) (site_count d) (site_name_strs d) (nested_ptr d) (nested_cap d) (proto_index d) (has_root d).
Definition set_constants_owned (b : bool) (d : PData) : PData :=
  MkPData (p_self d) (max_reg d) (nupvals d) (nparams d) (arity_prologue d) (constants d) b (instructions d) (line_deltas d) (abs_lines d) (site_count d) (site_name_strs d) (nested_ptr d) (nested_cap d) (proto_index d) (has_root d).
Definition set_instructions (v : vec Z) (d : PData) : PData :=
  MkPData (p_self d) (max_reg d) (nupvals d) (nparams d) (arity_prologue d) (constants d) (constants_owned d) v (line_deltas d) (abs_lines d) (site_count d) (site_name_strs d) (nested_ptr d) (nested_cap d) (proto_index d) (has_root d).
Definition set_line_deltas (v : option (nat * bytes)) (d : PData) : PData :=
  MkPData (p_self d) (max_reg d) (nupvals d) (nparams d) (arity_prologue d) (constants d) (constants_owned d) (instructions d) v (abs_lines d) (site_count d) (site_name_strs d) (nested_ptr d) (nested_cap d) (proto_index d) (has_root d).
Definition set_abs_lines (v : vec UAbsLine) (d : PData) : PData :=
  MkPData (p_self d) (max_reg d) (nupvals d) (nparams d) (arity_prologue d) (constants d) (constants_owned d) (instructions d) (line_deltas d) v (site_count d) (site_name_strs d) (nested_ptr d) (nested_cap d) (proto_index d) (has_root d).
Definition set_sites (n : Z) (v : option (nat * list (option (nat * bytes)))) (d : PData) : PData :=
  MkPData (p_self d) (max_reg d) (nupvals d) (nparams d) (arity_prologue d) (constants d) (constants_owned d) (instructions d) (line_deltas d) (abs_lines d) n v (nested_ptr d) (nested_cap d) (proto_index d) (has_root d).
Definition set_nested_arr (q : option nat) (n : Z) (d : PData) : PData :=
  MkPData (p_self d) (max_reg d) (nupvals d) (nparams d) (arity_prologue d) (constants d) (constants_owned d) (instructions d) (line_deltas d) (abs_lines d) (site_count d) (site_name_strs d) q n (proto_index d) (has_root d).
Definition set_root (b : bool) (d : PData) : PData :=
  MkPData (p_self d) (max_reg d) (nupvals d) (nparams d) (arity_prologue d) (constants d) (constants_owned d) (instructions d) (line_deltas d) (abs_lines d) (site_count d) (site_name_strs d) (nested_ptr d) (nested_cap d) (proto_index d) b.

(** A [UProto] zeroed by [urbi_zero] in block [self], with its serial. *)
Definition zero_proto (self : nat) (serial : Z) : UProto :=
  MkProto (MkPData self 0 0 0 0 vnil false vnil None vnil 0 None None 0 serial false) [].

(** ** Induction on prototype trees *)

Section UProto_ind.
Variable P : UProto -> Prop.
Hypothesis step : forall d n, Forall (fun o => forall c, o = Some c -> P c) n -> P (MkProto d n).

Fixpoint UProto_tree_ind (p : UProto) : P p :=
  match p with
  | MkProto d n =>
      step d n
        ((fix go n : Forall (fun o => forall c, o = Some c -> P c) n :=
            match n with
            | [] => Forall_nil_2 _
            | o :: n =>
                Forall_cons_2 _ o n
                  (match o return (forall c, o = Some c -> P c) with
                   | Some c => fun c' E => match E in _ = x return (match x with Some y => P y | None => True end) with eq_refl => UProto_tree_ind c end
                   | None => fun c' E => match E in _ = x return (match x with Some y => P y | None => True end) with eq_refl => I end
                   end) (go n)
            end) n)
  end.
End UProto_ind.

(** ** Ownership: the blocks a prototype holds, its own struct excluded *)

Definition vec_blocks {T} (v : vec T) : list nat := option_list (v_ptr v).

Definition const_blocks (k : UConst) : list nat :=
  match k with K_STR (Some (b, _)) => [b] | _ => [] end.

Definition data_blocks (d : PData) : list nat :=
  vec_blocks (instructions d)
  ++ (if constants_owned d then mjoin (const_blocks <$> v_items (constants d)) else [])
  ++ vec_blocks (constants d)
  ++ option_list (fst <$> line_deltas d)
  ++ vec_blocks (abs_lines d)
  ++ match site_name_strs d with
     | Some (b, l) => mjoin ((fun o => option_list (fst <$> o)) <$> l) ++ [b]
     | None => []
     end.

Fixpoint proto_blocks (p : UProto) : list nat :=
  let 'MkProto d n := p in
  ((fix go (n : list (option UProto)) : list nat :=
      match n with
      | [] => []
      | Some c :: n => proto_blocks c ++ [p_self (pdata c)] ++ go n
      | None :: n => go n
      end) n)
  ++ option_list (nested_ptr d) ++ data_blocks d.

(** ** C strings *)

(** [urbi_strlen] on the bytes [s] followed by a terminator. *)
Fixpoint urbi_strlen (s : bytes) : Z :=
  match s with
  | [] => 0
  | b :: s => if b =? 0 then 0 else 1 + urbi_strlen s
  end.
