(* ===== verification/Serialize.v ===== *)
(** * The chunk writer (src/src/emit/uemit_serialize.c)

    One walker sizes and fills: with a NULL buffer every store is skipped
    and only the offset advances.  A writer takes the buffer (NULL is
    [None]) and the offset, and returns both; its own [None] is a store or a
    load outside the memory behind a pointer. *)
From S2P Require Import Prelude Varint Instr Chunk.

Definition URBI_BYTECODE_VERSION_BYTE : Z := Z.lor (Z.shiftl 2 4) 0.
Definition URBI_BYTECODE_CANARY : bytes := [25; 147; 13; 10; 26; 10].
Definition URBI_INT_WIDTH : Z := 8.
Definition URBI_INSTR_WIDTH : Z := 4.
Definition URBI_ENDIANNESS : Z := 0.

Abbreviation Wr := (option bytes -> Z -> option (option bytes * Z)).

Declare Scope wr_scope.
Delimit Scope wr_scope with wr.

Definition wnil : Wr := fun buf off => Some (buf, off).
Definition wseq (f g : Wr) : Wr := fun buf off =>
  match f buf off with Some (buf, off) => g buf off | None => None end.
Notation "f ;; g" := (wseq f g) (at level 100, g at level 200, right associativity) : wr_scope.
#[local] Open Scope wr_scope.

(** ** Stores *)

(** [put(buf, off++, v)]. *)
Definition put (v : Z) : Wr := fun buf off =>
  match buf with
  | Some m => match store m off v with Some m => Some (Some m, off + 1) | None => None end
  | None => Some (None, off + 1)
  end.

Fixpoint emit_memcpy (m : bytes) (off : Z) (src : bytes) : option bytes :=
  match src with
  | [] => Some m
  | b :: src => match store m off b with Some m => emit_memcpy m (off + 1) src | None => None end
  end.

Definition put_bytes (src : bytes) (n : Z) : Wr := fun buf off =>
  match buf with
  | Some m =>
      if 0 <? n then
        if n <=? Z.of_nat (length src) then
          match emit_memcpy m off (take (Z.to_nat n) src) with
          | Some m => Some (Some m, off + n)
          | None => None
          end
        else None
      else Some (Some m, off + n)
  | None => Some (None, off + n)
  end.

Definition put_varint_u (v : Z) : Wr := fun buf off =>
  match buf with
  | Some m => match uvarint_write_u m off v with Some (m, off) => Some (Some m, off) | None => None end
  | None => Some (None, off + uvarint_size_u v)
  end.

Definition put_varint_zz (v : Z) : Wr := fun buf off =>
  match buf with
  | Some m => match uvarint_write_zz m off v with Some (m, off) => Some (Some m, off) | None => None end
  | None => Some (None, off + uvarint_size_zz v)
  end.

(** [while ((off & 3U) != 0U) put(buf, off++, 0U)]: at most three turns. *)
Fixpoint put_align4_loop (fuel : nat) : Wr := fun buf off =>
  match fuel with
  | O => Some (buf, off)
  | S fuel => if Z.land off 3 =? 0 then Some (buf, off) else wseq (put 0) (put_align4_loop fuel) buf off
  end.
Definition put_align4 : Wr := put_align4_loop 3.

(** ** Sections *)

(** A possibly NULL [char *] as the writers read it. *)
Definition put_cstr (s : option (nat * bytes)) : Wr :=
  let name := match s with Some (_, b) => b | None => [] end in
  let n := match s with Some _ => urbi_strlen name | None => 0 end in
  put_varint_u n ;; put_bytes name n.

Fixpoint write_site_name_loop (names : option (nat * list (option (nat * bytes)))) (k n : nat) : Wr :=
  match n with
  | O => wnil
  | S n =>
      match names with
      | None => put_cstr (Some (0%nat, []))
      | Some (_, l) => match l !! k with Some s => put_cstr s | None => fun _ _ => None end
      end ;;
      write_site_name_loop names (S k) n
  end.

Definition write_site_names (count : Z) (names : option (nat * list (option (nat * bytes)))) : Wr :=
  put_varint_u count ;; write_site_name_loop names 0 (Z.to_nat count).

Fixpoint write_constants (l : list UConst) : Wr :=
  match l with
  | [] => wnil
  | k :: l =>
      put (const_kind k) ;;
      match k with
      | K_INT i => put_varint_zz i
      | K_FLOAT f => put_bytes f 8
      | K_STR s => put_cstr s
      | K_OTHER _ => wnil
      end ;;
      write_constants l
  end.

Fixpoint write_instructions (l : list Z) : Wr :=
  match l with
  | [] => wnil
  | ins :: l =>
      put (u8 (Z.land ins 255)) ;;
      put (u8 (Z.land (Z.shiftr ins 8) 255)) ;;
      put (u8 (Z.land (Z.shiftr ins 16) 255)) ;;
      put (u8 (Z.land (Z.shiftr ins 24) 255)) ;;
      write_instructions l
  end.

Fixpoint write_abs_lines (l : list UAbsLine) : Wr :=
  match l with
  | [] => wnil
  | a :: l => put_varint_u (al_pc a) ;; put_varint_u (al_line a) ;; write_abs_lines l
  end.

(** The stub an empty [nested] slot goes out as. *)
Definition write_stub : Wr :=
  put 0 ;; put 0 ;; put 0 ;;
  put_varint_u 0 ;; put_varint_u 0 ;; put_align4 ;;
  put_varint_u 0 ;; put_varint_u 0 ;; put_varint_u 0 ;; put_varint_u 0.

Definition deltas_src (d : PData) : bytes :=
  match line_deltas d with Some (_, b) => b | None => [] end.

Fixpoint write_proto (p : UProto) : Wr :=
  let 'MkProto d n := p in
  put (max_reg d) ;; put (nupvals d) ;; put (nparams d) ;;
  put_varint_u (v_count (constants d)) ;;
  write_constants (v_items (constants d)) ;;
  put_varint_u (v_count (instructions d)) ;;
  put_align4 ;;
  write_instructions (v_items (instructions d)) ;;
  put_varint_u (v_count (instructions d)) ;;
  put_bytes (deltas_src d) (v_count (instructions d)) ;;
  put_varint_u (v_count (abs_lines d)) ;;
  write_abs_lines (v_items (abs_lines d)) ;;
  write_site_names (site_count d) (site_name_strs d) ;;
  put_varint_u (Z.of_nat (length n)) ;;
  (fix go (n : list (option UProto)) : Wr :=
     match n with
     | [] => wnil
     | Some c :: n => write_proto c ;; go n
     | None :: n => write_stub ;; go n
     end) n.

(** [while (off < 24U) put(buf, off++, 0U)]: eight turns from offset 16. *)
Fixpoint put_reserved (fuel : nat) : Wr := fun buf off =>
  match fuel with
  | O => Some (buf, off)
  | S fuel => if off <? 24 then wseq (put 0) (put_reserved fuel) buf off else Some (buf, off)
  end.

(** [write_chunk]; [src] is the root's [source_name]. *)
Definition write_chunk (src : option (nat * bytes)) (root : UProto) (buf : option bytes) : option (option bytes * Z) :=
  (put 85 ;; put 82 ;; put 66 ;; put 73 ;;
   put (u8 URBI_BYTECODE_VERSION_BYTE) ;;
   put (if arity_prologue (pdata root) =? 0 then 0 else 1) ;;
   put_bytes URBI_BYTECODE_CANARY 6 ;;
   put URBI_INT_WIDTH ;; put 8 ;; put URBI_INSTR_WIDTH ;; put URBI_ENDIANNESS ;;
   put_reserved 24 ;;
   put_cstr src ;;
   write_proto root) buf 0.

(** [uchunk_serialize]: the returned [ptrdiff_t] and the buffer after it.
    [cap] is the size of the memory behind [buf]. *)
Definition uchunk_serialize (src : option (nat * bytes)) (root : UProto) (buf : option bytes) (cap : Z)
  : option (Z * option bytes) :=
  match write_chunk src root None with
  | None => None
  | Some (_, need) =>
      match buf with
      | None => Some (need, None)
      | Some m =>
          if cap <? need then Some (-4, buf)
          else match write_chunk src root buf with
               | Some (buf, n) => Some (n, buf)
               | None => None
               end
      end
  end.

(** ** The wire image, as a function of the offset it starts at *)

Abbreviation Gen := (Z -> bytes).

Definition gseq (f g : Gen) : Gen := fun off => f off ++ g (off + zlen (f off)).
Notation "f +++ g" := (gseq f g) (at level 60, right associativity).
Definition gconst (b : bytes) : Gen := fun _ => b.

Definition gvar (v : Z) : Gen := gconst (varint_bytes v).
Definition gpad : Gen := fun off => replicate (Z.to_nat ((- off) mod 4)) 0.
Definition cstr (s : option (nat * bytes)) : bytes :=
  match s with Some (_, b) => take (Z.to_nat (urbi_strlen b)) b | None => [] end.
Definition gcstr (s : bytes) : Gen := gconst (varint_bytes (zlen s) ++ s).

Definition const_bytes (k : UConst) : bytes :=
  const_kind k ::
  match k with
  | K_INT i => varint_zz_bytes i
  | K_FLOAT f => f
  | K_STR s => varint_bytes (zlen (cstr s)) ++ cstr s
  | K_OTHER _ => []
  end.

Definition instr_bytes (i : Z) : bytes := [i mod 256; i / 2 ^ 8 mod 256; i / 2 ^ 16 mod 256; i / 2 ^ 24 mod 256].
Definition abs_bytes (a : UAbsLine) : bytes := varint_bytes (al_pc a) ++ varint_bytes (al_line a).

Definition site_strs (d : PData) : list bytes :=
  match site_name_strs d with Some (_, l) => cstr <$> l | None => replicate (Z.to_nat (site_count d)) [] end.

Definition data_image (d : PData) : Gen :=
  gconst [max_reg d; nupvals d; nparams d] +++
  gvar (v_count (constants d)) +++ gconst (mjoin (const_bytes <$> v_items (constants d))) +++
  gvar (v_count (instructions d)) +++ gpad +++
  gconst (mjoin (instr_bytes <$> v_items (instructions d))) +++
  gvar (v_count (instructions d)) +++ gconst (deltas_src d) +++
  gvar (v_count (abs_lines d)) +++ gconst (mjoin (abs_bytes <$> v_items (abs_lines d))) +++
  gvar (site_count d) +++ gconst (mjoin ((fun s => varint_bytes (zlen s) ++ s) <$> site_strs d)).

Definition stub_data : PData := pdata (zero_proto 0 0).

Fixpoint proto_image (p : UProto) : Gen :=
  let 'MkProto d n := p in
  data_image d +++ gvar (zlen n) +++
  (fix go (n : list (option UProto)) : Gen :=
     match n with
     | [] => gconst []
     | Some c :: n => proto_image c +++ go n
     | None :: n => (data_image stub_data +++ gvar 0) +++ go n
     end) n.

Definition header_bytes (arity : Z) : bytes :=
  [85; 82; 66; 73; 32; if arity =? 0 then 0 else 1; 25; 147; 13; 10; 26; 10; 8; 8; 4; 0; 0; 0; 0; 0; 0; 0; 0; 0].

Definition chunk_image (src : option (nat * bytes)) (root : UProto) : bytes :=
  (gconst (header_bytes (arity_prologue (pdata root))) +++ gcstr (cstr src) +++ proto_image root) 0.

(** ** What the writer may be handed *)

Definition str_small (s : option (nat * bytes)) : Prop := zlen (cstr s) < 2 ^ 63.

Definition const_ok (k : UConst) : Prop :=
  match k with
  | K_INT i => is_i64 i
  | K_FLOAT f => length f = 8%nat
  | K_STR s => str_small s
  | K_OTHER _ => True
  end.

Record data_ok (d : PData) : Prop := {
  do_consts : Forall const_ok (v_items (constants d));
  do_nconst : v_count (constants d) < 2 ^ 63;
  do_ninstr : v_count (instructions d) < 2 ^ 63;
  do_deltas : zlen (deltas_src d) = v_count (instructions d);
  do_nabs : v_count (abs_lines d) < 2 ^ 63;
  do_abs : Forall (fun a => is_u64 (al_pc a) /\ is_u64 (al_line a)) (v_items (abs_lines d));
  do_nsites : 0 <= site_count d < 2 ^ 63;
  do_sites : match site_name_strs d with
             | Some (_, l) => zlen l = site_count d /\ Forall str_small l
             | None => True
             end }.

Fixpoint proto_ok (p : UProto) : Prop :=
  let 'MkProto d n := p in
  data_ok d /\ zlen n < 2 ^ 63 /\
  (fix go (n : list (option UProto)) : Prop :=
     match n with
     | [] => True
     | Some c :: n => proto_ok c /\ go n
     | None :: n => go n
     end) n.

(** ** Writers against wire images *)

Definition writes (f : Wr) (g : Gen) : Prop :=
  forall off, 0 <= off ->
    f None off = Some (None, off + zlen (g off)) /\
    forall m, off + zlen (g off) <= zlen m ->
      f (Some m) off = Some (Some (splice m off (g off)), off + zlen (g off)).

Create HintDb writes.

Lemma writes_nil : writes wnil (gconst []).
Proof.
  intros off Hoff. unfold wnil, gconst. change (zlen []) with 0. rewrite Z.add_0_r.
  split; [done|]. intros. by rewrite splice_nil.
Qed.

Lemma zlen_splice {T} (m : list T) off b :
  0 <= off -> off + zlen b <= zlen m -> zlen (splice m off b) = zlen m.
Proof. unfold zlen. intros. by rewrite length_splice. Qed.

Lemma writes_seq f1 g1 f2 g2 : writes f1 g1 -> writes f2 g2 -> writes (wseq f1 f2) (gseq g1 g2).
Proof.
  intros H1 H2 off Hoff. unfold wseq, gseq.
  pose proof (zlen_nonneg (g1 off)).
  destruct (H1 off Hoff) as [E1 S1]. destruct (H2 (off + zlen (g1 off)) ltac:(lia)) as [E2 S2].
  pose proof (zlen_nonneg (g2 (off + zlen (g1 off)))).
  split.
  - rewrite E1, E2, zlen_app. do 2 f_equal. lia.
  - intros m Hm. rewrite zlen_app in *. rewrite S1 by lia. rewrite S2 by (rewrite zlen_splice; lia).
    unfold zlen in *. rewrite splice_app by lia. do 2 f_equal. lia.
Qed.

Lemma writes_ext f g g' : (forall off, 0 <= off -> g off = g' off) -> writes f g -> writes f g'.
Proof. intros E H off Hoff. rewrite <- E by done. by apply H. Qed.

Lemma writes_put v : writes (put v) (gconst [v]).
Proof.
  intros off Hoff. unfold put, gconst. split; [done|]. intros m Hm.
  rewrite store_splice by (unfold zlen in Hm; cbn [length] in Hm; lia). done.
Qed.

Lemma writes_varint_u v : is_u64 v -> writes (put_varint_u v) (gvar v).
Proof.
  intros Hv off Hoff. unfold put_varint_u, gvar, gconst. split; [by rewrite uvarint_size_u_length|].
  intros m Hm. by rewrite uvarint_write_u_splice.
Qed.

Lemma writes_varint_zz v : is_i64 v -> writes (put_varint_zz v) (gconst (varint_zz_bytes v)).
Proof.
  intros Hv off Hoff. unfold put_varint_zz, gconst. split.
  - unfold uvarint_size_zz. rewrite uvarint_size_u_length by auto with urbi. done.
  - intros m Hm. by rewrite uvarint_write_zz_splice.
Qed.

Lemma emit_memcpy_splice m off src :
  0 <= off -> off + zlen src <= zlen m -> emit_memcpy m off src = Some (splice m off src).
Proof.
  revert m off; induction src as [|b src IH]; intros m off Hoff Hm; cbn [emit_memcpy].
  - by rewrite splice_nil.
  - unfold zlen in *. cbn [length] in Hm. rewrite store_splice by lia.
    rewrite IH by (rewrite ?length_splice; cbn [length]; lia).
    rewrite (splice_app m off [b]) by (cbn [length]; lia). done.
Qed.

Lemma writes_bytes src n :
  0 <= n <= zlen src -> writes (put_bytes src n) (gconst (take (Z.to_nat n) src)).
Proof.
  intros Hn off Hoff. unfold put_bytes, gconst.
  assert (El : zlen (take (Z.to_nat n) src) = n) by (unfold zlen in *; rewrite length_take; lia).
  rewrite El. split; [done|]. intros m Hm. zcases; unfold zlen in *; try lia.
  - rewrite emit_memcpy_splice by (unfold zlen; lia). done.
  - replace (Z.to_nat n) with 0%nat by lia. by rewrite take_0, splice_nil.
Qed.

(** One padding byte fewer is needed one byte further on. *)
Lemma pad_succ off : off mod 4 <> 0 -> (- off) mod 4 = (- (off + 1)) mod 4 + 1.
Proof. intros. Z.div_mod_to_equations. lia. Qed.

Lemma pad_zero off : off mod 4 = 0 -> (- off) mod 4 = 0.
Proof. intros. Z.div_mod_to_equations. lia. Qed.

Lemma align4_loop_spec fuel : forall off, 0 <= off -> (- off) mod 4 <= Z.of_nat fuel ->
  put_align4_loop fuel None off = Some (None, off + (- off) mod 4) /\
  forall m, off + (- off) mod 4 <= zlen m ->
    put_align4_loop fuel (Some m) off
    = Some (Some (splice m off (replicate (Z.to_nat ((- off) mod 4)) 0)), off + (- off) mod 4).
Proof.
  assert (Hz : forall off, (- off) mod 4 = 0 -> Some (@None bytes, off) = Some (None, off + (- off) mod 4) /\
    forall m : bytes, off + (- off) mod 4 <= zlen m ->
      Some (Some m, off) = Some (Some (splice m off (replicate (Z.to_nat ((- off) mod 4)) 0)), off + (- off) mod 4)).
  { intros off ->. rewrite Z.add_0_r. change (replicate (Z.to_nat 0) 0) with (@nil Z).
    split; [done|]. intros. by rewrite splice_nil. }
  induction fuel as [|fuel IH]; intros off Hoff Hf.
  { apply Hz. pose proof (Z.mod_pos_bound (- off) 4). lia. }
  cbn [put_align4_loop]. rewrite land_3. zcases; [by apply Hz, pad_zero|].
  rewrite pad_succ in * by done.
  pose proof (Z.mod_pos_bound (- (off + 1)) 4 ltac:(lia)) as Hb.
  destruct (IH (off + 1) ltac:(lia) ltac:(lia)) as [E1 E2]. unfold wseq. split.
  - cbn [put]. rewrite E1. do 2 f_equal. lia.
  - intros m Hm. cbn [put]. unfold zlen in *. rewrite store_splice by lia.
    rewrite E2 by (rewrite length_splice; cbn [length]; lia).
    rewrite (splice_app m off [0]) by (rewrite ?length_replicate; cbn [length]; lia).
    replace (Z.to_nat ((- (off + 1)) mod 4 + 1)) with (S (Z.to_nat ((- (off + 1)) mod 4))) by lia.
    cbn [replicate app]. do 2 f_equal. lia.
Qed.

Lemma writes_align4 : writes put_align4 gpad.
Proof.
  intros off Hoff. pose proof (Z.mod_pos_bound (- off) 4 ltac:(lia)).
  assert (E : zlen (gpad off) = (- off) mod 4) by (unfold gpad, zlen; rewrite length_replicate; lia).
  rewrite E. apply align4_loop_spec; lia.
Qed.

#[export] Hint Resolve writes_nil writes_put writes_varint_u writes_varint_zz writes_align4 : writes.

Lemma urbi_strlen_range s : 0 <= urbi_strlen s <= zlen s.
Proof. unfold zlen. induction s as [|b s IH]; cbn; zcases; lia. Qed.

Lemma zlen_take_strlen s : zlen (take (Z.to_nat (urbi_strlen s)) s) = urbi_strlen s.
Proof. pose proof (urbi_strlen_range s). unfold zlen in *. rewrite length_take. lia. Qed.

Lemma writes_cstr s : str_small s -> writes (put_cstr s) (gcstr (cstr s)).
Proof.
  unfold str_small. intros Hs. unfold put_cstr, gcstr.
  eapply (writes_ext _ (gseq (gvar (zlen (cstr s))) (gconst (cstr s)))); [done|].
  apply writes_seq; destruct s as [[b s]|]; cbn [cstr] in *.
  - rewrite zlen_take_strlen in *. apply writes_varint_u. pose proof (urbi_strlen_range s). lia.
  - apply writes_varint_u. done.
  - apply writes_bytes. apply urbi_strlen_range.
  - apply (writes_bytes [] 0). done.
Qed.

(** A list of writers with offset-independent images. *)
Lemma writes_cons_const f g k (l : bytes) : writes f (gconst k) -> writes g (gconst l) -> writes (wseq f g) (gconst (k ++ l)).
Proof. intros. eapply (writes_ext _ (gseq (gconst k) (gconst l))); [done|]. by apply writes_seq. Qed.

Lemma writes_constants l :
  Forall const_ok l -> writes (write_constants l) (gconst (mjoin (const_bytes <$> l))).
Proof.
  induction 1 as [|k l Hk _ IH]; cbn [write_constants]; [apply writes_nil|].
  change (mjoin (const_bytes <$> k :: l)) with ([const_kind k] ++ (tail (const_bytes k) ++ mjoin (const_bytes <$> l))).
  apply writes_cons_const; [apply writes_put|]. apply writes_cons_const; [|done].
  destruct k as [i|f|s|n]; cbn [const_ok const_bytes tail] in *.
  - by apply writes_varint_zz.
  - rewrite <- (take_ge f 8) at 2 by lia. apply (writes_bytes f 8). unfold zlen. lia.
  - by apply writes_cstr.
  - apply writes_nil.
Qed.

Lemma writes_instructions l : writes (write_instructions l) (gconst (mjoin (instr_bytes <$> l))).
Proof.
  induction l as [|i l IH]; cbn [write_instructions]; [apply writes_nil|].
  change (mjoin (instr_bytes <$> i :: l)) with
    ([i mod 256] ++ [i / 2 ^ 8 mod 256] ++ [i / 2 ^ 16 mod 256] ++ [i / 2 ^ 24 mod 256] ++ mjoin (instr_bytes <$> l)).
  repeat apply writes_cons_const; [..|done]; rewrite ?uinstr_field by lia; try apply writes_put.
  rewrite land_255, u8_small by (apply Z.mod_pos_bound; lia). apply writes_put.
Qed.

Lemma writes_abs_lines l :
  Forall (fun a => is_u64 (al_pc a) /\ is_u64 (al_line a)) l ->
  writes (write_abs_lines l) (gconst (mjoin (abs_bytes <$> l))).
Proof.
  induction 1 as [|a l [Hp Hl] _ IH]; cbn [write_abs_lines]; [apply writes_nil|].
  change (mjoin (abs_bytes <$> a :: l)) with (abs_bytes a ++ mjoin (abs_bytes <$> l)).
  unfold abs_bytes. rewrite <- (assoc_L (++)).
  repeat apply writes_cons_const; [..|done]; by apply writes_varint_u.
Qed.

Abbreviation name_bytes := (fun s : bytes => varint_bytes (zlen s) ++ s).

Lemma writes_names_some b l0 l :
  Forall str_small l ->
  writes (write_site_name_loop (Some (b, l0 ++ l)) (length l0) (length l)) (gconst (mjoin (name_bytes <$> (cstr <$> l)))).
Proof.
  intros Hl. revert l0; induction Hl as [|s l Hs _ IH]; intros l0; cbn [write_site_name_loop length]; [apply writes_nil|].
  rewrite lookup_app_r, Nat.sub_diag by lia. cbn [lookup list_lookup].
  change (mjoin (name_bytes <$> (cstr <$> s :: l))) with (name_bytes (cstr s) ++ mjoin (name_bytes <$> (cstr <$> l))).
  apply writes_cons_const; [by apply writes_cstr|].
  specialize (IH (l0 ++ [s])). rewrite <- (assoc_L (++)), length_app, Nat.add_1_r in IH. done.
Qed.

Lemma writes_names_none k n :
  writes (write_site_name_loop None k n) (gconst (mjoin (name_bytes <$> replicate n []))).
Proof.
  revert k; induction n as [|n IH]; intros k; cbn [write_site_name_loop]; [apply writes_nil|].
  change (mjoin (name_bytes <$> replicate (S n) [])) with (name_bytes [] ++ mjoin (name_bytes <$> replicate n [])).
  apply writes_cons_const; [|apply IH]. apply (writes_cstr (Some (0%nat, []))). done.
Qed.

Lemma writes_site_names d :
  data_ok d -> writes (write_site_names (site_count d) (site_name_strs d))
                 (gvar (site_count d) +++ gconst (mjoin (name_bytes <$> site_strs d))).
Proof.
  intros Hd. pose proof (do_nsites d Hd) as Hn. pose proof (do_sites d Hd) as Hs.
  apply writes_seq; [apply writes_varint_u; lia|]. unfold site_strs.
  destruct (site_name_strs d) as [[b l]|].
  - destruct Hs as [El Hl]. replace (Z.to_nat (site_count d)) with (length l) by (unfold zlen in El; lia).
    by apply (writes_names_some b []).
  - apply writes_names_none.
Qed.

Lemma gseq_assoc f g h off : (f +++ (g +++ h)) off = ((f +++ g) +++ h) off.
Proof. unfold gseq. rewrite zlen_app, <- (assoc_L (++)). do 3 f_equal. lia. Qed.

Lemma writes_assoc f g h k : writes f (g +++ (h +++ k)) -> writes f ((g +++ h) +++ k).
Proof. apply writes_ext. intros. apply gseq_assoc. Qed.

Lemma writes_split f a b k : writes f (gconst a +++ (gconst b +++ k)) -> writes f (gconst (a ++ b) +++ k).
Proof.
  apply writes_ext. intros off _. unfold gseq, gconst. rewrite zlen_app, <- (assoc_L (++)). do 3 f_equal. lia.
Qed.

(** Peel one section off a flat writer against a nested image. *)
Ltac wstep := repeat apply writes_assoc; apply writes_seq.

Lemma writes_bytes_all src n : n = zlen src -> writes (put_bytes src n) (gconst src).
Proof.
  intros ->. eapply writes_ext; [|apply (writes_bytes src (zlen src)); unfold zlen; lia].
  intros off _. unfold gconst. apply take_ge. unfold zlen. lia.
Qed.

Lemma v_count_nonneg {T} (v : vec T) : 0 <= v_count v.
Proof. unfold v_count. lia. Qed.

(** Everything [write_proto] emits before the children. *)
Lemma writes_data d f g :
  data_ok d -> writes f g ->
  writes (put (max_reg d) ;; put (nupvals d) ;; put (nparams d) ;;
          put_varint_u (v_count (constants d)) ;; write_constants (v_items (constants d)) ;;
          put_varint_u (v_count (instructions d)) ;; put_align4 ;;
          write_instructions (v_items (instructions d)) ;;
          put_varint_u (v_count (instructions d)) ;;
          put_bytes (deltas_src d) (v_count (instructions d)) ;;
          put_varint_u (v_count (abs_lines d)) ;; write_abs_lines (v_items (abs_lines d)) ;;
          write_site_names (site_count d) (site_name_strs d) ;; f) (data_image d +++ g).
Proof.
  intros Hd Hf. unfold data_image.
  repeat apply writes_assoc. apply (writes_split _ [max_reg d]).
  pose proof (v_count_nonneg (constants d)). pose proof (v_count_nonneg (instructions d)).
  pose proof (v_count_nonneg (abs_lines d)). destruct (Hd).
  wstep; [apply writes_put|]. apply (writes_split _ [nupvals d]). do 2 (wstep; [apply writes_put|]).
  wstep; [apply writes_varint_u; lia|]. wstep; [by apply writes_constants|].
  wstep; [apply writes_varint_u; lia|]. wstep; [apply writes_align4|].
  wstep; [apply writes_instructions|].
  wstep; [apply writes_varint_u; lia|]. wstep; [by apply writes_bytes_all|].
  wstep; [apply writes_varint_u; lia|]. wstep; [by apply writes_abs_lines|].
  apply writes_seq; [by apply writes_site_names|done].
Qed.

Lemma stub_ok : data_ok stub_data.
Proof. constructor; cbn; try lia; try constructor; done. Qed.

Lemma writes_nil_l f g : writes f g -> writes f (gconst [] +++ g).
Proof. apply writes_ext. intros off _. unfold gseq, gconst. cbn [app]. change (zlen []) with 0. f_equal. lia. Qed.

Lemma writes_stub : writes write_stub (data_image stub_data +++ gvar 0).
Proof.
  assert (H0 : writes (put_varint_u 0) (gvar 0)) by (apply writes_varint_u; lia).
  unfold data_image, write_stub.
  change (mjoin (const_bytes <$> v_items (constants stub_data))) with (@nil Z).
  change (mjoin (instr_bytes <$> v_items (instructions stub_data))) with (@nil Z).
  change (mjoin (abs_bytes <$> v_items (abs_lines stub_data))) with (@nil Z).
  change (mjoin (name_bytes <$> site_strs stub_data)) with (@nil Z).
  change (deltas_src stub_data) with (@nil Z).
  repeat apply writes_assoc. apply (writes_split _ [0]). wstep; [apply writes_put|].
  apply (writes_split _ [0]). do 2 (wstep; [apply writes_put|]).
  repeat (repeat apply writes_assoc;
          first [apply writes_nil_l | apply writes_seq; [first [apply H0 | apply writes_align4]|]]).
  apply H0.
Qed.

Lemma write_proto_writes p : proto_ok p -> writes (write_proto p) (proto_image p).
Proof.
  induction p as [d n IH] using UProto_tree_ind. cbn [write_proto proto_image proto_ok].
  intros (Hd & Hn & Hc). apply writes_data; [done|].
  apply writes_seq; [apply writes_varint_u; unfold zlen in *; lia|].
  clear Hn Hd. induction n as [|[c|] n IHn]; [apply writes_nil|..]; apply Forall_cons in IH as [IHc IH].
  - destruct Hc as [Hc Hn]. apply writes_seq; [by apply IHc|by apply IHn].
  - apply writes_seq; [apply writes_stub|by apply IHn].
Qed.

(** ** The header *)

Definition greserved : Gen := fun off => replicate (Z.to_nat (24 - off)) 0.

Lemma writes_reserved : writes (put_reserved 24) greserved.
Proof.
  assert (Hl : forall fuel off, 0 <= off -> 24 - off <= Z.of_nat fuel ->
    put_reserved fuel None off = Some (None, off + zlen (greserved off)) /\
    forall m, off + zlen (greserved off) <= zlen m ->
      put_reserved fuel (Some m) off = Some (Some (splice m off (greserved off)), off + zlen (greserved off))).
  { assert (Hz : forall off, 24 <= off -> greserved off = []).
    { intros. unfold greserved. by replace (Z.to_nat (24 - off)) with 0%nat by lia. }
    induction fuel as [|fuel IH]; intros off Hoff Hf; cbn [put_reserved]; zcases.
    1, 3: rewrite Hz by lia; change (zlen []) with 0; rewrite Z.add_0_r; split; [done|]; intros; by rewrite splice_nil.
    assert (E : greserved off = [0] ++ greserved (off + 1)).
    { unfold greserved. by replace (Z.to_nat (24 - off)) with (S (Z.to_nat (24 - (off + 1)))) by lia. }
    destruct (IH (off + 1) ltac:(lia) ltac:(lia)) as [E1 E2]. rewrite E, zlen_app. change (zlen [0]) with 1.
    pose proof (zlen_nonneg (greserved (off + 1))). unfold wseq. split.
    - cbn [put]. rewrite E1. do 2 f_equal. lia.
    - intros m Hm. cbn [put]. unfold zlen in *. rewrite store_splice by lia.
      rewrite E2 by (rewrite length_splice; cbn [length]; lia).
      rewrite (splice_app m off [0]) by (cbn [length]; lia). do 2 f_equal. lia. }
  intros off Hoff. apply Hl; lia.
Qed.

Lemma write_chunk_writes src root buf :
  str_small src -> proto_ok root ->
  let n := zlen (chunk_image src root) in
  match buf with
  | None => write_chunk src root None = Some (None, n)
  | Some m => n <= zlen m -> write_chunk src root (Some m) = Some (Some (splice m 0 (chunk_image src root)), n)
  end.
Proof.
  intros Hs Hp n. subst n. set (ar := if arity_prologue (pdata root) =? 0 then 0 else 1).
  set (img := gconst [85] +++ gconst [82] +++ gconst [66] +++ gconst [73] +++ gconst [32] +++ gconst [ar] +++
    gconst URBI_BYTECODE_CANARY +++ gconst [8] +++ gconst [8] +++ gconst [4] +++ gconst [0] +++ greserved +++
    gcstr (cstr src) +++ proto_image root).
  assert (E : chunk_image src root = img 0) by (unfold img, ar; destruct (_ =? 0) eqn:E; unfold chunk_image, header_bytes; rewrite E; done).
  assert (W : writes (put 85 ;; put 82 ;; put 66 ;; put 73 ;; put (u8 URBI_BYTECODE_VERSION_BYTE) ;; put ar ;;
     put_bytes URBI_BYTECODE_CANARY 6 ;; put URBI_INT_WIDTH ;; put 8 ;; put URBI_INSTR_WIDTH ;; put URBI_ENDIANNESS ;;
     put_reserved 24 ;; put_cstr src ;; write_proto root) img).
  { do 6 (apply writes_seq; [apply writes_put|]). apply writes_seq; [by apply writes_bytes_all|].
    do 4 (apply writes_seq; [apply writes_put|]). apply writes_seq; [apply writes_reserved|].
    apply writes_seq; [by apply writes_cstr|by apply write_proto_writes]. }
  rewrite E. destruct (W 0 ltac:(lia)) as [W1 W2]. destruct buf; [apply W2|apply W1].
Qed.

Lemma serialize_spec src root m :
  str_small src -> proto_ok root ->
  let img := chunk_image src root in
  uchunk_serialize src root None 0 = Some (zlen img, None) /\
  uchunk_serialize src root (Some m) (zlen m) =
    Some (if zlen m <? zlen img then (-4, Some m) else (zlen img, Some (img ++ drop (length img) m))).
Proof.
  intros Hs Hp img. unfold uchunk_serialize.
  pose proof (write_chunk_writes src root None Hs Hp) as E. cbv zeta iota in E. rewrite E. fold img. split; [done|].
  zcases; [done|]. pose proof (write_chunk_writes src root (Some m) Hs Hp) as E2. cbv zeta iota in E2. fold img in E2.
  rewrite E2 by lia. done.
Qed.

(** ** Properties *)

(** the writer's two modes agree: for a prototype tree within the format's
    limits, the size query returns exactly the length of the wire image, a
    buffer of at least that capacity receives the image at its start and
    nothing past it, and a smaller one is refused with
    [-UCHUNK_LOAD_TRUNCATED] and left untouched. *)
Theorem uchunk_serialize_image src root m :
  str_small src -> proto_ok root ->
  let img := chunk_image src root in
  uchunk_serialize src root None 0 = Some (zlen img, None) /\
  uchunk_serialize src root (Some m) (zlen m) =
    Some (if zlen m <? zlen img then (-4, Some m) else (zlen img, Some (img ++ drop (length img) m))).
Proof. exact (serialize_spec src root m). Qed.
