(* ===== verification/Verify.v ===== *)
(** * The load-time bytecode verifier (src/src/chunk/uchunk_verify.c)

    Pass 1 checks every real instruction of a prototype against the shape
    table; pass 2 checks closure preludes and control-transfer targets.  A
    check returns [Some] of the C return code; [None] is a read or write
    outside an array. *)
From S2P Require Import Prelude Instr Chunk.

Abbreviation OK := UCHUNK_LOAD_OK.

(** ** Pass 1 *)

Definition verify_byte_operand (value : Z) (kind : UOperandKind) (max_reg : Z) : UChunkLoadError :=
  match kind with
  | UOPK_UNUSED | UOPK_IMM_FLAGS | UOPK_UPVAL_IDX | UOPK_IMM_SITE | UOPK_IMM_DEPTH => OK
  | UOPK_REG => if max_reg <? value then UCHUNK_LOAD_CORRUPT else OK
  | UOPK_REG_OR_NONE =>
      if negb (value =? 255) && (max_reg <? value) then UCHUNK_LOAD_CORRUPT else OK
  | UOPK_IMM_BOOL => if 1 <? value then UCHUNK_LOAD_CORRUPT else OK
  | UOPK_IMM_MODE => if (value <? 1) || (7 <? value) then UCHUNK_LOAD_CORRUPT else OK
  end.

Definition op_takes_site (op : UOpcode) : bool :=
  match op with
  | OP_GETSLOT | OP_SETSLOT | OP_SETSLOT_UPDATE | OP_SELF | OP_GETSLOT_CHANGE_EVENT => true
  | _ => false
  end.

Definition verify_abc_rules (op : UOpcode) (a b c : Z) (instructions : list Z) (vi max_reg : Z)
  : option UChunkLoadError :=
  match op with
  | OP_SELF => Some (if max_reg <? a + 1 then UCHUNK_LOAD_CORRUPT else OK)
  | OP_CALL => Some (if max_reg + 1 <? a + b then UCHUNK_LOAD_CORRUPT else OK)
  | OP_INSTALL =>
      Some (if max_reg <? a + 2 then UCHUNK_LOAD_CORRUPT
            else if negb (Z.land c (Z.lnot (Z.lor UINSTALL_F_HAS_BODY UINSTALL_F_HAS_ALT)) =? 0)
                    || ((b =? UINSTALL_WAITUNTIL) && negb (c =? 0))
            then UCHUNK_LOAD_CORRUPT else OK)
  | OP_FORK =>
      Some (if ((c =? UFORK_DETACH) && negb (b =? 255)) || ((c =? UFORK_JOIN) && (b =? 255))
            then UCHUNK_LOAD_CORRUPT else OK)
  | OP_JOIN_WAIT =>
      if vi =? 0 then Some UCHUNK_LOAD_CORRUPT
      else match read instructions (vi - 1) with
           | None => None
           | Some prev =>
               Some (if negb (op_is prev OP_FORK) || negb (uinstr_c prev =? UFORK_JOIN)
                        || negb (uinstr_b prev =? a)
                     then UCHUNK_LOAD_CORRUPT else OK)
           end
  | OP_SCOPE_POP =>
      let kind := Z.land a 3 in
      Some (if negb (Z.land a (Z.lnot (Z.lor 3 USCOPE_POP_RUN_FINALLY)) =? 0)
               || (negb (kind =? USCOPE_POP_TRY) && negb (kind =? USCOPE_POP_TAG))
               || (negb (Z.land a USCOPE_POP_RUN_FINALLY =? 0) && negb (kind =? USCOPE_POP_TRY))
            then UCHUNK_LOAD_CORRUPT else OK)
  | _ => Some OK
  end.

Definition verify_bx (bx : Z) (kind : UBxKind) (const_count instr_count nested_count : Z) : UChunkLoadError :=
  match kind with
  | UBXK_UNUSED | UBXK_SYMBOL_ID | UBXK_EXTARG | UBXK_JUMP_SIGNED => OK
  | UBXK_POOL_INDEX => if const_count <=? bx then UCHUNK_LOAD_CORRUPT else OK
  | UBXK_NESTED_INDEX => if nested_count <=? bx then UCHUNK_LOAD_CORRUPT else OK
  | UBXK_HANDLER_PC => if instr_count <=? bx then UCHUNK_LOAD_CORRUPT else OK
  end.

(** Sequencing of checks: stop at the first code other than OK. *)
Definition vthen (x : option UChunkLoadError) (k : option UChunkLoadError) : option UChunkLoadError :=
  match x with
  | Some UCHUNK_LOAD_OK => k
  | _ => x
  end.

Section Walk.
Variables (max_reg const_count nested_count site_count : Z).
Variable instructions : list Z.
Variable nested : list (option UProto).
Let instr_count : Z := Z.of_nat (length instructions).

(** The body of pass 1's loop on an instruction that is not an EXTARG:
    the prelude length to skip, or the error. *)
Definition verify_instr (ins : Z) (op : UOpcode) (vi ext : Z) : option UChunkLoadError * Z :=
  let sh := urbi_opcode_shapes op in
  let a := uinstr_a ins in
  match verify_byte_operand a (a_kind sh) max_reg with
  | UCHUNK_LOAD_OK =>
      match format sh with
      | UOPF_ABC =>
          let b := uinstr_b ins in
          let c := uinstr_c ins in
          (vthen (Some (verify_byte_operand b (b_kind sh) max_reg))
             (vthen (Some (verify_byte_operand c (c_kind sh) max_reg))
                (vthen (if decide (c_kind sh = UOPK_IMM_SITE)
                        then Some (if site_count <=? Z.lor c ext then UCHUNK_LOAD_CORRUPT else OK)
                        else Some OK)
                   (verify_abc_rules op a b c instructions vi max_reg))), 0)
      | UOPF_ABX =>
          let bx := uinstr_bx ins in
          match verify_bx bx (bx_kind sh) const_count instr_count nested_count with
          | UCHUNK_LOAD_OK =>
              if decide (op = OP_SCOPE_TRY)
              then (Some (if negb (a =? USCOPE_F_HAS_CATCH) && negb (a =? USCOPE_F_HAS_FINALLY)
                          then UCHUNK_LOAD_CORRUPT else OK), 0)
              else if decide (op = OP_CLOSURE)
              then match read nested bx with
                   | None => (None, 0)
                   | Some None => (Some UCHUNK_LOAD_CORRUPT, 0)
                   | Some (Some child) =>
                       let nup := nupvals (pdata child) in
                       if instr_count <=? vi + nup then (Some UCHUNK_LOAD_TRUNCATED_UPVALUES, 0)
                       else (Some OK, nup)
                   end
              else (Some OK, 0)
          | e => (Some e, 0)
          end
      end
  | e => (Some e, 0)
  end.

Inductive walk_result :=
| WErr (e : UChunkLoadError)
| WFault
| WDone (sites_seen : Z) (last_op : option UOpcode).

(** The loop; [vi] grows by at least one per turn, so [instr_count] turns
    are enough. *)
Fixpoint verify_walk_loop (fuel : nat) (vi ext : Z) (ext_pending : bool) (sites_seen : Z)
    (last_op : option UOpcode) : walk_result :=
  if vi <? instr_count then
    match fuel with
    | O => WFault
    | S fuel =>
        match read instructions vi with
        | None => WFault
        | Some ins =>
            match uinstr_opcode ins with
            | None => WErr UCHUNK_LOAD_CORRUPT
            | Some op =>
                if ext_pending && negb (op_takes_site op) then WErr UCHUNK_LOAD_BAD_EXTARG
                else if decide (op = OP_EXTARG) then
                  if instr_count <=? vi + 1 then WErr UCHUNK_LOAD_BAD_EXTARG
                  else verify_walk_loop fuel (vi + 1) (Z.shiftl (uinstr_bx ins) 8) true sites_seen last_op
                else
                  match verify_instr ins op vi ext with
                  | (Some UCHUNK_LOAD_OK, skip) =>
                      let seen := if decide (c_kind (urbi_opcode_shapes op) = UOPK_IMM_SITE)
                                  then sites_seen + 1 else sites_seen in
                      verify_walk_loop fuel (vi + skip + 1) 0 false seen (Some op)
                  | (Some e, _) => WErr e
                  | (None, _) => WFault
                  end
            end
        end
    end
  else WDone sites_seen last_op.

Definition verify_walk_block : option UChunkLoadError :=
  match verify_walk_loop (length instructions) 0 0 false 0 None with
  | WErr e => Some e
  | WFault => None
  | WDone sites_seen last_op =>
      Some (if instr_count =? 0 then UCHUNK_LOAD_CORRUPT
            else if decide (last_op = Some OP_RET) then
              if sites_seen <? site_count then UCHUNK_LOAD_CORRUPT else OK
            else UCHUNK_LOAD_CORRUPT)
  end.
End Walk.

Definition proto_walk (p : UProto) : option UChunkLoadError :=
  verify_walk_block (max_reg (pdata p)) (v_count (constants (pdata p))) (Z.of_nat (length (nested p)))
    (site_count (pdata p)) (v_items (instructions (pdata p))) (nested p).

Fixpoint verify_proto_recursive (p : UProto) : option UChunkLoadError :=
  vthen (proto_walk p)
    (let 'MkProto _ n := p in
     (fix go (n : list (option UProto)) : option UChunkLoadError :=
        match n with
        | [] => Some OK
        | Some c :: n => vthen (verify_proto_recursive c) (go n)
        | None :: n => go n
        end) n).

(** ** Pass 2 *)

(** The prelude bitmap; NULL is [None]. *)
Abbreviation bitmap := (option bytes).

Definition is_prelude_word (prelude : bitmap) (pc : Z) : option bool :=
  match prelude with
  | None => Some false
  | Some bm =>
      match read bm (Z.shiftr pc 3) with
      | Some w => Some (negb (Z.land w (u8 (Z.shiftl 1 (Z.land pc 7))) =? 0))
      | None => None
      end
  end.

(** [prelude[pc >> 3] |= (uint8_t)(1U << (pc & 7U))]. *)
Definition mark_word (bm : bytes) (pc : Z) : option bytes :=
  match read bm (Z.shiftr pc 3) with
  | Some w => store bm (Z.shiftr pc 3) (u8 (Z.lor w (u8 (Z.shiftl 1 (Z.land pc 7)))))
  | None => None
  end.

Definition verify_target (instructions : list Z) (prelude : bitmap) (op : UOpcode) (target : Z)
  : option UChunkLoadError :=
  let instr_count := Z.of_nat (length instructions) in
  if instr_count <=? target
  then Some (if decide (op = OP_JMP) then UCHUNK_LOAD_JMP_OUT_OF_BOUNDS else UCHUNK_LOAD_BAD_TARGET)
  else
    match is_prelude_word prelude target with
    | None => None
    | Some true => Some UCHUNK_LOAD_BAD_TARGET
    | Some false =>
        if 0 <? target then
          match is_prelude_word prelude (target - 1) with
          | None => None
          | Some true => Some OK
          | Some false =>
              match read instructions (target - 1) with
              | None => None
              | Some prev => Some (if op_is prev OP_EXTARG then UCHUNK_LOAD_BAD_EXTARG else OK)
              end
          end
        else Some OK
    end.

Definition op_may_skip (ins : Z) : bool :=
  match uinstr_opcode ins with
  | Some OP_LOADBOOL => negb (uinstr_c ins =? 0)
  | Some (OP_TEST | OP_TESTSET | OP_EQ | OP_LT | OP_LE) => true
  | _ => false
  end.

Section Pass2.
Context {A : Allocator}.
Variable p : UProto.
Let d := pdata p.
Let instrs := v_items (instructions d).
Let instr_count : Z := Z.of_nat (length instrs).

(** The words [vi+1 .. vi+nupvals] of one prelude: mark, then check. *)
Fixpoint verify_prelude_words (n : nat) (k : Z) (vi : Z) (bm : bytes) : option (UChunkLoadError * bytes) :=
  match n with
  | O => Some (OK, bm)
  | S n =>
      match read instrs (vi + k) with
      | None => None
      | Some pv =>
          let in_stack := uinstr_b pv in
          let src_idx := uinstr_c pv in
          match mark_word bm (vi + k) with
          | None => None
          | Some bm =>
              if 1 <? in_stack then Some (UCHUNK_LOAD_MALFORMED_UPVALUE, bm)
              else if (if in_stack =? 0 then nupvals d <=? src_idx else max_reg d <? src_idx)
              then Some (UCHUNK_LOAD_MALFORMED_UPVALUE, bm)
              else verify_prelude_words n (k + 1) vi bm
          end
      end
  end.

(** Sweep 1: the code, the bitmap and the heap after it. *)
Fixpoint verify_preludes (fuel : nat) (vi : Z) (prelude : option (nat * bytes)) (h : heap)
  : option (UChunkLoadError * option (nat * bytes) * heap) :=
  if vi <? instr_count then
    match fuel with
    | O => None
    | S fuel =>
        match read instrs vi with
        | None => None
        | Some ins =>
            if op_is ins OP_CLOSURE then
              match read (nested p) (uinstr_bx ins) with
              | Some (Some child) =>
                  let nup := nupvals (pdata child) in
                  if instr_count <=? vi + nup then Some (UCHUNK_LOAD_TRUNCATED_UPVALUES, prelude, h)
                  else if nup =? 0 then verify_preludes fuel (vi + 1) prelude h
                  else
                    let '(prelude, h) :=
                      match prelude with
                      | Some x => (Some x, h)
                      | None =>
                          let nbytes := (instr_count + 7) / 8 in
                          match halloc nbytes h with
                          | (None, h) => (None, h)
                          | (Some b, h) => (Some (b, replicate (Z.to_nat nbytes) 0), h)
                          end
                      end in
                    match prelude with
                    | None => Some (UCHUNK_LOAD_OOM, None, h)
                    | Some (b, bm) =>
                        match verify_prelude_words (Z.to_nat nup) 1 vi bm with
                        | None => None
                        | Some (UCHUNK_LOAD_OK, bm) => verify_preludes fuel (vi + nup + 1) (Some (b, bm)) h
                        | Some (e, bm) => Some (e, Some (b, bm), h)
                        end
                    end
              | _ => None
              end
            else verify_preludes fuel (vi + 1) prelude h
        end
    end
  else Some (OK, prelude, h).

(** One instruction of sweep 2. *)
Definition verify_transfer (prelude : bitmap) (vi ins : Z) : option UChunkLoadError :=
  match uinstr_opcode ins with
  | None => None   (* urbi_opcode_shapes[op] past the table *)
  | Some op =>
      if decide (op = OP_JMP) then
        let signed_bx := uinstr_bx ins - 32768 in
        let target := vi + signed_bx + (if 0 <=? signed_bx then 1 else 0) in
        if target <? 0 then Some UCHUNK_LOAD_JMP_OUT_OF_BOUNDS
        else verify_target instrs prelude op target
      else if decide (op = OP_CALL) then
        Some (if Z.land (uinstr_c ins) 127 =? 0 then UCHUNK_LOAD_CALL_NRESULTS_ZERO else OK)
      else if op_may_skip ins then verify_target instrs prelude op (vi + 2)
      else if bool_decide (format (urbi_opcode_shapes op) = UOPF_ABX)
              && bool_decide (bx_kind (urbi_opcode_shapes op) = UBXK_HANDLER_PC)
      then verify_target instrs prelude op (uinstr_bx ins)
      else Some OK
  end.

(** Sweep 2; [l] is the instruction array from [vi] on. *)
Fixpoint verify_transfers (prelude : bitmap) (l : list Z) (vi : Z) : option UChunkLoadError :=
  match l with
  | [] => Some OK
  | ins :: l =>
      match is_prelude_word prelude vi with
      | None => None
      | Some true => verify_transfers prelude l (vi + 1)
      | Some false => vthen (verify_transfer prelude vi ins) (verify_transfers prelude l (vi + 1))
      end
  end.

(** Both sweeps; the bitmap is freed on every path. *)
Definition verify_bounds_own (h : heap) : option (UChunkLoadError * heap) :=
  match verify_preludes (length instrs) 0 None h with
  | None => None
  | Some (rc, prelude, h) =>
      match (match rc with
             | UCHUNK_LOAD_OK => verify_transfers (snd <$> prelude) instrs 0
             | e => Some e
             end) with
      | None => None
      | Some rc =>
          match prelude with
          | None => Some (rc, h)
          | Some (b, _) => match hfree b h with Some h => Some (rc, h) | None => None end
          end
      end
  end.
End Pass2.

Fixpoint verify_bounds_proto {A : Allocator} (p : UProto) (h : heap) : option (UChunkLoadError * heap) :=
  match verify_bounds_own p h with
  | Some (UCHUNK_LOAD_OK, h) =>
      let 'MkProto _ n := p in
      (fix go (n : list (option UProto)) (h : heap) : option (UChunkLoadError * heap) :=
         match n with
         | [] => Some (OK, h)
         | Some c :: n =>
             match verify_bounds_proto c h with
             | Some (UCHUNK_LOAD_OK, h) => go n h
             | r => r
             end
         | None :: n => go n h
         end) n h
  | r => r
  end.

Definition urbi_chunk_decode_verify (p : UProto) : option UChunkLoadError := verify_proto_recursive p.
Definition urbi_chunk_verify_bounds {A : Allocator} (p : UProto) (h : heap) : option (UChunkLoadError * heap) :=
  verify_bounds_proto p h.
