(* ===== verification/VerifySound.v ===== *)
(** * Soundness of the bytecode verifier

    What the two passes of uchunk_verify.c guarantee to the dispatch loop of
    src/src/rt/uexec_ops.c: within one frame, whatever the branches taken,
    the program counter only ever rests on a real instruction of the array
    whose operands are in range. *)
From S2P Require Import Prelude Instr Chunk Verify.

(** ** The prelude bitmap as a set of words *)

Lemma land_7 x : Z.land x 7 = x mod 8.
Proof. apply (land_mask x 3); lia. Qed.

Lemma word_mask x : u8 (Z.shiftl 1 (Z.land x 7)) = 2 ^ (x mod 8).
Proof.
  rewrite land_7, Z.shiftl_mul_pow2, Z.mul_1_l by (apply Z.mod_pos_bound; lia).
  pose proof (Z.mod_pos_bound x 8 ltac:(lia)).
  assert (2 ^ (x mod 8) <= 2 ^ 7) by (apply Z.pow_le_mono_r; lia).
  apply u8_small. split; [apply Z.pow_nonneg|]; lia.
Qed.

Lemma land_pow2_testbit w n : 0 <= n -> negb (Z.land w (2 ^ n) =? 0) = Z.testbit w n.
Proof.
  intros Hn. destruct (Z.testbit w n) eqn:E.
  - apply negb_true_iff, Z.eqb_neq. intros H.
    assert (Z.testbit (Z.land w (2 ^ n)) n = true) by (rewrite Z.land_spec, E, Z.pow2_bits_true; done).
    rewrite H, Z.bits_0 in *. done.
  - apply negb_false_iff, Z.eqb_eq. apply Z.bits_inj'. intros i Hi. rewrite Z.land_spec, Z.bits_0.
    destruct (decide (i = n)) as [->|]; [by rewrite E|]. rewrite Z.pow2_bits_false by lia. apply andb_false_r.
Qed.

Lemma bitmap_read bm x :
  is_prelude_word (Some bm) x = (fun w => Z.testbit w (x mod 8)) <$> read bm (x / 8).
Proof.
  unfold is_prelude_word. rewrite shiftr_div by lia. change (2 ^ 3) with 8.
  destruct (read bm (x / 8)) as [w|]; [|done]. cbn. rewrite word_mask, land_pow2_testbit; [done|].
  apply Z.mod_pos_bound. lia.
Qed.

Lemma lor_byte w n : is_byte w -> 0 <= n < 8 -> is_byte (Z.lor w (2 ^ n)).
Proof.
  unfold is_byte. intros Hw Hn. split; [apply Z.lor_nonneg; split; [lia|apply Z.pow_nonneg; lia]|].
  rewrite <- (Z.mod_small (Z.lor w (2 ^ n)) (2 ^ 8)) at 1; [apply Z.mod_pos_bound; lia|].
  split; [apply Z.lor_nonneg; split; [lia|apply Z.pow_nonneg; lia]|].
  apply Z.log2_lt_cancel. rewrite Z.log2_lor by (try apply Z.pow_nonneg; lia). rewrite Z.log2_pow2 by lia.
  change (Z.log2 (2 ^ 8)) with 8. destruct (decide (w = 0)) as [->|]; [cbn; lia|].
  assert (Z.log2 w < 8) by (apply Z.log2_lt_pow2; lia). lia.
Qed.

(** Marking a word sets its bit and no other. *)
Lemma mark_word_spec bm x :
  is_bytes bm -> 0 <= x < 8 * Z.of_nat (length bm) ->
  exists bm', mark_word bm x = Some bm' /\ is_bytes bm' /\ length bm' = length bm /\
    forall y, 0 <= y -> is_prelude_word (Some bm') y
                     = if decide (y = x) then Some true else is_prelude_word (Some bm) y.
Proof.
  intros Hb Hx. assert (Hq : 0 <= x / 8 < Z.of_nat (length bm)) by (split; [apply Z.div_pos|apply Z.div_lt_upper_bound]; lia).
  pose proof (Z.mod_pos_bound x 8 ltac:(lia)) as Hm.
  destruct (read_is_Some bm _ Hq) as [w Hw]. pose proof (read_byte _ _ _ Hb Hw) as Hwb.
  unfold mark_word. rewrite shiftr_div by lia. change (2 ^ 3) with 8. rewrite Hw, word_mask.
  rewrite u8_small by (by apply lor_byte).
  destruct (store_is_Some bm (x / 8) (Z.lor w (2 ^ (x mod 8))) Hq) as (bm' & Hs & Hl).
  exists bm'. repeat split; [done|eapply store_bytes; eauto using lor_byte|done|].
  intros y Hy. rewrite !bitmap_read, (read_store _ _ _ _ _ Hs).
  destruct (decide (y / 8 = x / 8)) as [E|E].
  - rewrite E, Hw. cbn. rewrite Z.lor_spec. case_decide as Hyx.
    + subst y. by rewrite Z.pow2_bits_true, orb_true_r by lia.
    + assert (y mod 8 <> x mod 8) by (pose proof (Z.div_mod y 8); pose proof (Z.div_mod x 8); lia).
      rewrite Z.pow2_bits_false by lia. by rewrite orb_false_r.
  - by rewrite decide_False by (intros ->; done).
Qed.

Lemma fresh_bitmap n x :
  0 <= x < n -> is_prelude_word (Some (replicate (Z.to_nat ((n + 7) / 8)) 0)) x = Some false.
Proof.
  intros Hx. rewrite bitmap_read. unfold read. pose proof (Z.div_pos x 8 ltac:(lia) ltac:(lia)). zcases; [|lia].
  rewrite lookup_replicate_2; [cbn; by rewrite Z.bits_0|].
  assert (x / 8 < (n + 7) / 8); [|lia]. Z.div_mod_to_equations. lia.
Qed.

Section Frame.
Variable p : UProto.
Let d := pdata p.
Let instrs := v_items (instructions d).
Let count : Z := Z.of_nat (length instrs).

(** ** Dispatch, as far as the program counter is concerned *)

(** Upvalue-prelude words after an instruction. *)
Definition prelude_len (ins : Z) : Z :=
  if op_is ins OP_CLOSURE then
    match read (nested p) (uinstr_bx ins) with
    | Some (Some child) => nupvals (pdata child)
    | _ => 0
    end
  else 0.

(** The fetch state of a frame: the pc, the pending EXTARG bits, and the
    pcs the frame's cleanup entries (or a pending jump) may resume at. *)
Record xstate := X { x_pc : Z; x_ext : Z; x_targets : list Z }.

(** Resume points an instruction records: the handler of SCOPE_TRY and
    SCOPE_TAG, the destination of UNWIND_TO, and for a run-finally
    SCOPE_POP the instruction after it. *)
Definition record_targets (ins : Z) (op : UOpcode) (pc : Z) (tg : list Z) : list Z :=
  match op with
  | OP_SCOPE_TRY | OP_SCOPE_TAG | OP_UNWIND_TO => uinstr_bx ins :: tg
  | OP_SCOPE_POP => if Z.land (uinstr_a ins) USCOPE_POP_RUN_FINALLY =? 0 then tg else (pc + 1) :: tg
  | _ => tg
  end.

(** Instructions after which the fetch never continues at the next word. *)
Definition no_fallthrough (ins : Z) (op : UOpcode) : bool :=
  match op with
  | OP_RET | OP_JMP | OP_EXTARG | OP_THROW | OP_UNWIND_TO | OP_RESUME => true
  | OP_LOADBOOL => negb (uinstr_c ins =? 0)
  | _ => false
  end.

(** The site-taking arms compute [OPC(i) | ext] and reset [ext]. *)
Definition ext_after (op : UOpcode) (ext : Z) : Z := if op_takes_site op then 0 else ext.

Definition jmp_target (ins pc : Z) : Z :=
  let off := uinstr_bx ins - 32768 in
  if 0 <=? off then pc + 1 + off else pc + 1 + (off - 1).

Inductive exec : xstate -> xstate -> Prop :=
| exec_extarg pc ext tg ins :
    read instrs pc = Some ins -> uinstr_opcode ins = Some OP_EXTARG ->
    exec (X pc ext tg) (X (pc + 1) (Z.shiftl (uinstr_bx ins) 8) tg)
| exec_jmp pc ext tg ins :
    read instrs pc = Some ins -> uinstr_opcode ins = Some OP_JMP ->
    exec (X pc ext tg) (X (jmp_target ins pc) ext tg)
| exec_skip pc ext tg ins :
    read instrs pc = Some ins -> op_may_skip ins = true ->
    exec (X pc ext tg) (X (pc + 2) ext tg)
| exec_next pc ext tg ins op :
    read instrs pc = Some ins -> uinstr_opcode ins = Some op -> no_fallthrough ins op = false ->
    exec (X pc ext tg) (X (pc + 1 + prelude_len ins) (ext_after op ext) (record_targets ins op pc tg))
| exec_transfer pc ext tg ins op t :
    read instrs pc = Some ins -> uinstr_opcode ins = Some op -> op <> OP_EXTARG ->
    t ∈ record_targets ins op pc tg ->
    exec (X pc ext tg) (X t (ext_after op ext) (record_targets ins op pc tg)).

(** ** What the arms rely on *)

Definition operand_safe (kind : UOperandKind) (v : Z) : Prop :=
  match kind with
  | UOPK_REG => v <= max_reg d
  | UOPK_REG_OR_NONE => v = 255 \/ v <= max_reg d
  | UOPK_IMM_BOOL => v = 0 \/ v = 1
  | UOPK_IMM_MODE => 1 <= v <= 7
  | _ => True
  end.

(** A prelude word names a register of this frame or one of its upvalues. *)
Definition upval_safe (x : Z) : Prop :=
  exists pv, read instrs x = Some pv /\
    ((uinstr_b pv = 1 /\ uinstr_c pv <= max_reg d) \/ (uinstr_b pv = 0 /\ uinstr_c pv < nupvals d)).

Record instr_safe (ins : Z) (op : UOpcode) (pc ext : Z) : Prop := {
  is_a : operand_safe (a_kind (urbi_opcode_shapes op)) (uinstr_a ins);
  is_b : format (urbi_opcode_shapes op) = UOPF_ABC -> operand_safe (b_kind (urbi_opcode_shapes op)) (uinstr_b ins);
  is_c : format (urbi_opcode_shapes op) = UOPF_ABC -> operand_safe (c_kind (urbi_opcode_shapes op)) (uinstr_c ins);
  is_site : op_takes_site op = true -> Z.lor (uinstr_c ins) ext < site_count d;
  is_const : op = OP_LOADK -> uinstr_bx ins < v_count (constants d);
  is_self : op = OP_SELF -> uinstr_a ins + 1 <= max_reg d;
  is_call : op = OP_CALL -> uinstr_a ins + uinstr_b ins <= max_reg d + 1 /\ Z.land (uinstr_c ins) 127 <> 0;
  is_install : op = OP_INSTALL -> uinstr_a ins + 2 <= max_reg d;
  is_join : op = OP_JOIN_WAIT -> exists prev, read instrs (pc - 1) = Some prev /\
              uinstr_opcode prev = Some OP_FORK /\ uinstr_c prev = UFORK_JOIN /\ uinstr_b prev = uinstr_a ins;
  is_closure : op = OP_CLOSURE -> exists child, read (nested p) (uinstr_bx ins) = Some (Some child) /\
              pc + nupvals (pdata child) < count /\
              forall j, 1 <= j <= nupvals (pdata child) -> upval_safe (pc + j) }.

(** ** Linear order: the real instructions *)

Definition next_pc (pc : Z) : Z :=
  match read instrs pc with Some ins => pc + prelude_len ins + 1 | None => pc + 1 end.

Fixpoint pc_at (k : nat) : Z := match k with O => 0 | S k => next_pc (pc_at k) end.

(** EXTARG state pass 1 carries when it reaches the k-th real instruction. *)
Definition ext_of (pc : Z) : Z * bool :=
  match read instrs pc with
  | Some ins => if op_is ins OP_EXTARG then (Z.shiftl (uinstr_bx ins) 8, true) else (0, false)
  | None => (0, false)
  end.
Definition ext_at (k : nat) : Z * bool := match k with O => (0, false) | S k => ext_of (pc_at k) end.

Definition prelude_word (x : Z) : Prop := exists k, pc_at k < x < pc_at (S k).

Hypothesis children_nupvals :
  forall i c, read (nested p) i = Some (Some c) -> 0 <= nupvals (pdata c).

Lemma prelude_len_nonneg ins : 0 <= prelude_len ins.
Proof.
  unfold prelude_len. destruct (op_is _ _); [|lia].
  destruct (read _ _) as [[c|]|] eqn:E; try lia. eauto.
Qed.

Lemma next_pc_gt pc : pc < next_pc pc.
Proof. unfold next_pc. destruct (read _ _) as [ins|]; [pose proof (prelude_len_nonneg ins)|]; lia. Qed.

Lemma pc_at_mono i j : (i < j)%nat -> pc_at i < pc_at j.
Proof.
  induction 1 as [|j _ IH]; cbn [pc_at]; [apply next_pc_gt|].
  pose proof (next_pc_gt (pc_at j)). lia.
Qed.

Lemma pc_at_nonneg k : 0 <= pc_at k.
Proof. destruct k; [done|]. pose proof (pc_at_mono 0 (S k) ltac:(lia)). cbn [pc_at] in *. lia. Qed.

Lemma pc_at_inj i j : pc_at i = pc_at j -> i = j.
Proof.
  intros E. destruct (decide (i < j)%nat) as [H%pc_at_mono|]; [lia|].
  destruct (decide (j < i)%nat) as [H%pc_at_mono|]; lia.
Qed.

(** Every word is a real instruction or inside one prelude, never both. *)
Lemma real_not_prelude k : ~ prelude_word (pc_at k).
Proof.
  intros [j [H1 H2]]. destruct (decide (k <= j)%nat) as [Hk|Hk].
  - destruct (decide (k = j)) as [->|]; [lia|]. pose proof (pc_at_mono k j ltac:(lia)). lia.
  - destruct (decide (k = S j)) as [->|]; [lia|]. pose proof (pc_at_mono (S j) k ltac:(lia)). lia.
Qed.

Lemma real_or_prelude x : 0 <= x -> (exists k, x = pc_at k) \/ prelude_word x.
Proof.
  intros Hx. pattern x. apply natlike_ind; [by left; exists O| |done].
  clear x Hx. intros x Hx [[k ->]|[k Hk]].
  - pose proof (pc_at_mono k (S k) ltac:(lia)).
    destruct (decide (Z.succ (pc_at k) = pc_at (S k))) as [E|]; [left; eauto|right; exists k; lia].
  - destruct (decide (Z.succ x = pc_at (S k))) as [E|]; [left; eauto|right; exists k; lia].
Qed.

(** ** Pass 1 along the linear order *)

Abbreviation walk := (verify_walk_loop (max_reg d) (v_count (constants d)) (Z.of_nat (length (nested p)))
  (site_count d) instrs (nested p)).
Abbreviation vinstr := (verify_instr (max_reg d) (v_count (constants d)) (Z.of_nat (length (nested p)))
  (site_count d) instrs (nested p)).

Lemma op_is_true ins op : uinstr_opcode ins = Some op -> forall o, op_is ins o = bool_decide (op = o).
Proof. intros E o. unfold op_is. rewrite E. apply bool_decide_ext. split; congruence. Qed.

Lemma prelude_len_other ins op : uinstr_opcode ins = Some op -> op <> OP_CLOSURE -> prelude_len ins = 0.
Proof. intros E H. unfold prelude_len. rewrite (op_is_true ins op E), bool_decide_false; done. Qed.

(** The words pass 1 skips are the prelude, and it lies in the array. *)
Lemma vinstr_skip ins op vi ext skip :
  uinstr_opcode ins = Some op -> vinstr ins op vi ext = (Some OK, skip) -> vi < count ->
  skip = prelude_len ins /\ vi + skip < count.
Proof.
  intros Eop H Hvi. destruct (decide (op = OP_CLOSURE)) as [->|Hne].
  - unfold verify_instr in H. cbn [urbi_opcode_shapes format a_kind bx_kind] in H. fold count in H.
    unfold prelude_len. rewrite (op_is_true ins OP_CLOSURE Eop), bool_decide_true by done.
    repeat (hcase H; try done). injection H as <-. zbool. fold count in Heqb. split; [done|lia].
  - rewrite (prelude_len_other ins op) by done. unfold verify_instr in H. cbv zeta in H.
    destruct (verify_byte_operand _ _ _); try done. destruct (format _); [injection H as _ <-; lia|].
    destruct (verify_bx _ _ _ _ _); try done. destruct (decide (op = OP_SCOPE_TRY)).
    { injection H as _ <-. lia. }
    rewrite decide_False in H by done. injection H as <-. lia.
Qed.

Lemma walk_step fuel vi ext pend sites last s l ins :
  walk fuel vi ext pend sites last = WDone s l -> vi < count -> read instrs vi = Some ins ->
  exists op fuel' sites',
    uinstr_opcode ins = Some op /\ (pend = true -> op_takes_site op = true) /\
    if decide (op = OP_EXTARG)
    then vi + 1 < count /\ walk fuel' (vi + 1) (Z.shiftl (uinstr_bx ins) 8) true sites' last = WDone s l
    else vinstr ins op vi ext = (Some OK, prelude_len ins) /\ vi + prelude_len ins < count /\
         walk fuel' (vi + prelude_len ins + 1) 0 false sites' (Some op) = WDone s l.
Proof.
  intros H Hvi Hr. destruct fuel as [|fuel]; cbn [verify_walk_loop] in H; fold count in H;
    destruct (vi <? count) eqn:Hlt; zbool; try lia; [done|].
  rewrite Hr in H. destruct (uinstr_opcode ins) as [op|] eqn:Eop; [|done].
  destruct (pend && negb (op_takes_site op)) eqn:Hp; [done|].
  assert (Hs : pend = true -> op_takes_site op = true) by (intros ->; by destruct (op_takes_site op)).
  destruct (decide (op = OP_EXTARG)) as [->|Hne].
  - destruct (count <=? vi + 1) eqn:Hc; [done|]. zbool.
    exists OP_EXTARG, fuel, sites. rewrite decide_True by done. done.
  - destruct (vinstr ins op vi ext) as [[e|] skip] eqn:Ev; [|done]. destruct e; try done.
    destruct (vinstr_skip ins op vi ext skip Eop Ev Hvi) as [-> Hk].
    eexists op, fuel, _. rewrite decide_False by done. repeat split; eauto.
Qed.

Lemma walk_err_not_ok fuel vi ext pend sites last : walk fuel vi ext pend sites last <> WErr OK.
Proof.
  revert vi ext pend sites last; induction fuel as [|fuel IH]; intros; cbn [verify_walk_loop]; destruct (_ <? _); try done.
  destruct (read _ _); [|done]. destruct (uinstr_opcode _); [|done]. destruct (_ && _); [done|].
  destruct (decide _); [by destruct (_ <=? _)|]. by destruct (vinstr _ _ _ _) as [[[]|] ?].
Qed.

Lemma vthen_none x k : vthen x k = None -> x = None \/ k = None.
Proof. destruct x as [[]|]; cbn; auto. Qed.

Lemma vinstr_total ins op vi ext : 0 <= vi < count -> fst (vinstr ins op vi ext) <> None.
Proof.
  intros Hvi. unfold verify_instr. cbv zeta. destruct (verify_byte_operand _ _ _) eqn:Ea; try done.
  destruct (format _).
  - cbn [fst]. intros H. assert (Hn : verify_abc_rules op (uinstr_a ins) (uinstr_b ins) (uinstr_c ins) instrs vi (max_reg d) <> None).
    { clear H. unfold verify_abc_rules. destruct op; try done. destruct (vi =? 0) eqn:E; [done|]. zbool.
      destruct (read_is_Some instrs (vi - 1)) as [prev ->]; [|done]. fold count. lia. }
    apply vthen_none in H as [H|H]; [done|]. apply vthen_none in H as [H|H]; [done|].
    apply vthen_none in H as [H|H]; [by destruct (decide _)|done].
  - destruct (verify_bx _ _ _ _ _) eqn:Eb; try done. destruct (decide _); [done|].
    destruct (decide (op = OP_CLOSURE)) as [->|]; [|done]. cbn [urbi_opcode_shapes bx_kind verify_bx] in Eb.
    destruct (_ <=? _) eqn:E; [done|]. zbool.
    destruct (read_is_Some (nested p) (uinstr_bx ins)) as [o ->]; [pose proof (uinstr_bx_range ins); lia|].
    destruct o; [|done]. by destruct (_ <=? _).
Qed.

Lemma walk_total fuel : forall vi ext pend sites last,
  0 <= vi -> count - vi <= Z.of_nat fuel -> walk fuel vi ext pend sites last <> WFault.
Proof.
  induction fuel as [|fuel IH]; intros vi ext pend sites last Hvi Hf; cbn [verify_walk_loop]; fold count;
    destruct (vi <? count) eqn:Hlt; zbool; try done; try lia.
  destruct (read_is_Some instrs vi) as [ins ->]; [fold count; lia|].
  destruct (uinstr_opcode ins) as [op|] eqn:Eop; [|done]. destruct (_ && _); [done|].
  destruct (decide (op = OP_EXTARG)); [destruct (_ <=? _); [done|]; apply IH; lia|].
  pose proof (vinstr_total ins op vi ext (conj Hvi Hlt)) as Hn.
  destruct (vinstr ins op vi ext) as [[[]|] sk] eqn:Ev; try done.
  destruct (vinstr_skip _ _ _ _ _ Eop Ev Hlt) as [-> _]. pose proof (prelude_len_nonneg ins). apply IH; lia.
Qed.

Lemma proto_walk_total : proto_walk p <> None.
Proof.
  unfold proto_walk, verify_walk_block. fold d instrs.
  pose proof (walk_total (length instrs) 0 0 false 0 None ltac:(lia) ltac:(unfold count; lia)) as H.
  by destruct (walk _ _ _ _ _ _).
Qed.

Hypothesis pass1 : proto_walk p = Some OK.

Lemma pass1_done : 0 < count /\ exists s, walk (length instrs) 0 0 false 0 None = WDone s (Some OP_RET).
Proof.
  unfold proto_walk, verify_walk_block in pass1. fold d instrs in pass1. fold count in pass1.
  destruct (walk _ _ _ _ _ _) as [e| |s l] eqn:E; [|done|].
  { injection pass1 as ->. by apply walk_err_not_ok in E. }
  destruct (count =? 0) eqn:H0; [done|]. zbool. split; [lia|].
  destruct (decide (l = Some OP_RET)) as [->|]; [eauto|done].
Qed.

Lemma read_instr pc : 0 <= pc < count -> exists ins, read instrs pc = Some ins.
Proof. intros. by apply read_is_Some. Qed.

(** Pass 1 reached the k-th real instruction in the EXTARG state [ext_at]. *)
Lemma walk_at k :
  pc_at k <= count ->
  exists fuel sites last s, walk fuel (pc_at k) (fst (ext_at k)) (snd (ext_at k)) sites last = WDone s (Some OP_RET).
Proof.
  induction k as [|k IH]; intros Hk.
  { destruct pass1_done as [_ [s Hs]]. eauto. }
  pose proof (pc_at_mono k (S k) ltac:(lia)) as Hm.
  destruct IH as (fuel & sites & last & s & Hw); [lia|].
  destruct (read_instr (pc_at k)) as [ins Hr]; [pose proof (pc_at_nonneg k); lia|].
  destruct (walk_step _ _ _ _ _ _ _ _ ins Hw ltac:(lia) Hr) as (op & fuel' & sites' & Eop & _ & H).
  cbn [pc_at ext_at]. unfold next_pc, ext_of. rewrite Hr, (op_is_true ins op Eop).
  destruct (decide (op = OP_EXTARG)) as [->|Hne].
  - rewrite bool_decide_true by done. rewrite (prelude_len_other ins OP_EXTARG), Z.add_0_r by done.
    destruct H as [_ H]. eauto.
  - rewrite bool_decide_false by done. destruct H as (_ & _ & H). eauto.
Qed.

(** Everything pass 1 knows of the k-th real instruction. *)
Lemma pass1_at k :
  pc_at k < count ->
  exists ins op,
    read instrs (pc_at k) = Some ins /\ uinstr_opcode ins = Some op /\
    (snd (ext_at k) = true -> op_takes_site op = true) /\
    pc_at (S k) = pc_at k + prelude_len ins + 1 /\
    (op = OP_EXTARG -> pc_at (S k) < count) /\
    (op <> OP_EXTARG -> vinstr ins op (pc_at k) (fst (ext_at k)) = (Some OK, prelude_len ins)) /\
    pc_at (S k) <= count /\ (op <> OP_RET -> pc_at (S k) < count).
Proof.
  intros Hk. destruct (walk_at k ltac:(lia)) as (fuel & sites & last & s & Hw).
  destruct (read_instr (pc_at k)) as [ins Hr]; [pose proof (pc_at_nonneg k); lia|].
  destruct (walk_step _ _ _ _ _ _ _ _ ins Hw Hk Hr) as (op & fuel' & sites' & Eop & Hs & H).
  assert (En : pc_at (S k) = pc_at k + prelude_len ins + 1) by (cbn [pc_at]; unfold next_pc; by rewrite Hr).
  exists ins, op. destruct (decide (op = OP_EXTARG)) as [->|Hne].
  - rewrite (prelude_len_other ins OP_EXTARG) in * by done. destruct H as [Hc _]. repeat split; try done; lia.
  - destruct H as (Hv & Hc & Hw'). repeat split; try done; try lia.
    intros Hret. destruct (decide (pc_at (S k) = count)) as [E|]; [|lia].
    rewrite <- En, E in Hw'. destruct fuel'; cbn [verify_walk_loop] in Hw'; fold count in Hw'; rewrite Z.ltb_irrefl in Hw'; congruence.
Qed.

(** ** Pass 2, sweep 1 *)

Definition bitmap_sized (bm : bytes) : Prop :=
  is_bytes bm /\ Z.of_nat (length bm) = (count + 7) / 8.

(** The bitmap holds exactly the prelude words below [vi]. *)
Definition marks (vi : Z) (bm : bitmap) : Prop :=
  match bm with Some m => bitmap_sized m | None => True end /\
  forall x, 0 <= x < count -> exists b, is_prelude_word bm x = Some b /\ (b = true <-> prelude_word x /\ x < vi).

Lemma bitmap_room bm x : bitmap_sized bm -> 0 <= x < count -> 0 <= x < 8 * Z.of_nat (length bm).
Proof. intros [_ ->] H. Z.div_mod_to_equations. lia. Qed.

Lemma prelude_words_spec n : forall k vi bm,
  bitmap_sized bm -> 0 <= vi -> 1 <= k -> vi + k + Z.of_nat n <= count ->
  exists e bm', verify_prelude_words p n k vi bm = Some (e, bm') /\ bitmap_sized bm' /\
    (e = OK -> (forall y, 0 <= y -> is_prelude_word (Some bm') y =
        if decide (vi + k <= y < vi + k + Z.of_nat n) then Some true else is_prelude_word (Some bm) y) /\
      forall j, k <= j < k + Z.of_nat n -> upval_safe (vi + j)).
Proof.
  induction n as [|n IH]; intros k vi bm Hb Hvi Hk Hc; cbn [verify_prelude_words].
  { eexists _, _. split; [done|]. split; [done|]. intros _. split; [|intros; lia].
    intros y Hy. rewrite decide_False by lia. done. }
  fold d instrs. destruct (read_instr (vi + k)) as [pv Hpv]; [lia|]. rewrite Hpv.
  pose proof (uinstr_b_byte pv) as Hbb. unfold is_byte in Hbb.
  destruct (mark_word_spec bm (vi + k)) as (bm1 & -> & Hb1 & Hl1 & Hm1); [apply Hb|apply bitmap_room; [done|lia]|].
  assert (Hs1 : bitmap_sized bm1) by (split; [done|rewrite Hl1; apply Hb]).
  destruct (1 <? uinstr_b pv) eqn:H1; [by eexists _, _|].
  destruct (if uinstr_b pv =? 0 then nupvals d <=? uinstr_c pv else max_reg d <? uinstr_c pv) eqn:H2; [by eexists _, _|].
  assert (Hup : upval_safe (vi + k)).
  { exists pv. split; [done|]. destruct (uinstr_b pv =? 0) eqn:H0; zbool; [right|left]; lia. }
  destruct (IH (k + 1) vi bm1 Hs1) as (e & bm' & -> & Hs' & Hok); [lia..|].
  exists e, bm'. split; [done|]. split; [done|]. intros He. destruct (Hok He) as [Hm Hu]. split.
  - intros y Hy. rewrite Hm, Hm1 by done.
    repeat case_decide; try done; try lia.
  - intros j Hj. destruct (decide (j = k)) as [->|]; [done|]. apply Hu. lia.
Qed.

(** What sweep 1 does to the heap: at most one block, the bitmap. *)
Definition bitmap_heap (pre : option (nat * bytes)) (h : heap) (pre' : option (nat * bytes)) (h' : heap) : Prop :=
  (h_calls h <= h_calls h')%nat /\
  match pre, pre' with
  | Some (b, _), Some (b', _) => b = b' /\ h_live h' = h_live h
  | Some _, None => False
  | None, None => h_live h' = h_live h
  | None, Some (b, _) => h_live h' = b :: h_live h
  end.

Definition closures_safe (lo hi : Z) : Prop :=
  forall j ins c, lo <= pc_at j < hi -> read instrs (pc_at j) = Some ins -> uinstr_opcode ins = Some OP_CLOSURE ->
    read (nested p) (uinstr_bx ins) = Some (Some c) ->
    forall i, 1 <= i <= nupvals (pdata c) -> upval_safe (pc_at j + i).

Lemma marks_skip k bm ins :
  marks (pc_at k) bm -> pc_at k < count -> pc_at (S k) = pc_at k + 1 -> read instrs (pc_at k) = Some ins ->
  marks (pc_at (S k)) bm.
Proof.
  intros [Hs Hm] Hk En Hr. split; [done|]. intros x Hx. destruct (Hm x Hx) as (b & Hb & Hiff).
  exists b. split; [done|]. rewrite Hiff. split; [intros [? ?]; split; [done|lia]|].
  intros [Hp Hlt]. split; [done|]. destruct (decide (x = pc_at k)) as [->|]; [|lia]. by apply real_not_prelude in Hp.
Qed.

Lemma marks_prelude k bm bm' n :
  marks (pc_at k) (Some bm) -> bitmap_sized bm' -> pc_at (S k) = pc_at k + n + 1 -> 0 <= n ->
  (forall y, 0 <= y -> is_prelude_word (Some bm') y =
      if decide (pc_at k + 1 <= y < pc_at k + 1 + n) then Some true else is_prelude_word (Some bm) y) ->
  marks (pc_at (S k)) (Some bm').
Proof.
  intros [Hs Hm] Hs' En Hn Hy. split; [done|]. intros x Hx. rewrite Hy by lia. case_decide.
  - exists true. split; [done|]. split; [|done]. intros _. split; [exists k|]; lia.
  - destruct (Hm x Hx) as (b & Hb & Hiff). exists b. split; [done|]. rewrite Hiff.
    split; [intros [? ?]; split; [done|lia]|]. intros [Hp Hlt]. split; [done|].
    destruct (decide (x = pc_at k)) as [->|]; [|lia]. by apply real_not_prelude in Hp.
Qed.

Lemma fresh_marks vi : marks vi None -> marks vi (Some (replicate (Z.to_nat ((count + 7) / 8)) 0)).
Proof.
  intros [_ Hm]. split.
  - split; [by apply Forall_replicate; split|]. rewrite length_replicate. rewrite Z2Nat.id; [done|].
    apply Z.div_pos; unfold count; lia.
  - intros x Hx. destruct (Hm x Hx) as (b & [= <-] & Hiff). exists false. split; [by apply fresh_bitmap|done].
Qed.

Lemma closures_safe_step k hi :
  closures_safe (pc_at (S k)) hi ->
  (forall ins c, read instrs (pc_at k) = Some ins -> uinstr_opcode ins = Some OP_CLOSURE ->
     read (nested p) (uinstr_bx ins) = Some (Some c) ->
     forall i, 1 <= i <= nupvals (pdata c) -> upval_safe (pc_at k + i)) ->
  closures_safe (pc_at k) hi.
Proof.
  intros H H0 j ins c Hj Hr Hop Hc. destruct (decide (j = k)) as [->|]; [eauto|].
  eapply H; eauto. destruct (decide (j < S k)%nat); [|destruct (decide (j = S k)) as [->|]; [lia|]].
  - pose proof (pc_at_mono j k ltac:(lia)). lia.
  - pose proof (pc_at_mono (S k) j ltac:(lia)). lia.
Qed.

Context {A : Allocator}.

(** Sweep 1 runs without a stray access, takes at most the bitmap block, and
    on success has marked exactly the prelude words and checked them all. *)
Definition sweep1_post (k : nat) (pre : option (nat * bytes)) (h : heap)
    (r : option (UChunkLoadError * option (nat * bytes) * heap)) : Prop :=
  match r with
  | None => False
  | Some (rc, pre', h') =>
      bitmap_heap pre h pre' h' /\
      (rc = OK -> marks count (snd <$> pre') /\ closures_safe (pc_at k) count)
  end.

Lemma bitmap_heap_refl pre h : bitmap_heap pre h pre h.
Proof. split; [lia|]. by destruct pre as [[]|]. Qed.

Lemma bitmap_heap_trans p1 h1 p2 h2 p3 h3 :
  bitmap_heap p1 h1 p2 h2 -> bitmap_heap p2 h2 p3 h3 -> bitmap_heap p1 h1 p3 h3.
Proof.
  intros [H1 H2] [H3 H4]. split; [lia|].
  destruct p1 as [[]|], p2 as [[]|], p3 as [[]|]; try done; destruct_and?; subst; repeat split; congruence.
Qed.

Lemma sweep1_post_step k pre h pre1 h1 r :
  bitmap_heap pre h pre1 h1 -> 
  (forall ins c, read instrs (pc_at k) = Some ins -> uinstr_opcode ins = Some OP_CLOSURE ->
     read (nested p) (uinstr_bx ins) = Some (Some c) ->
     forall i, 1 <= i <= nupvals (pdata c) -> upval_safe (pc_at k + i)) ->
  sweep1_post (S k) pre1 h1 r -> sweep1_post k pre h r.
Proof.
  intros Hh Hc. unfold sweep1_post. destruct r as [[[rc pre'] h']|]; [|done].
  intros [Hb Hok]. split; [by eapply bitmap_heap_trans|]. intros E. destruct (Hok E).
  split; [done|]. by apply closures_safe_step.
Qed.

Lemma vinstr_closure ins vi ext :
  vinstr ins OP_CLOSURE vi ext = (Some OK, prelude_len ins) ->
  exists c, read (nested p) (uinstr_bx ins) = Some (Some c).
Proof.
  unfold verify_instr. cbn [urbi_opcode_shapes format a_kind bx_kind]. intros H.
  repeat (hcase H; try done). eauto.
Qed.

Lemma verify_preludes_spec fuel : forall k pre h,
  pc_at k <= count -> count - pc_at k <= Z.of_nat fuel -> marks (pc_at k) (snd <$> pre) ->
  sweep1_post k pre h (verify_preludes p fuel (pc_at k) pre h).
Proof.
  induction fuel as [|fuel IH]; intros k pre h Hk Hf Hm;
    cbn [verify_preludes]; fold d instrs; fold count; destruct (pc_at k <? count) eqn:Hlt; zbool; try lia.
  1, 3: assert (E : pc_at k = count) by lia; split; [apply bitmap_heap_refl|]; intros _;
      (split; [by rewrite <- E|]); intros j ins c Hj; lia.
  destruct (pass1_at k Hlt) as (ins & op & Hr & Hop & _ & En & _ & Hv & Hle & _). rewrite Hr.
  rewrite (op_is_true ins op Hop). destruct (decide (op = OP_CLOSURE)) as [->|Hne].
  2:{ rewrite bool_decide_false by done. rewrite (prelude_len_other ins op) in En by done.
      replace (pc_at k + 1) with (pc_at (S k)) by lia.
      eapply sweep1_post_step; [apply bitmap_heap_refl|intros ins' c' Hr' Hop'; congruence|].
      apply IH; [done|lia|]. eapply marks_skip; eauto. lia. }
  rewrite bool_decide_true by done. specialize (Hv ltac:(done)).
  destruct (vinstr_closure _ _ _ Hv) as [c Hc]. rewrite Hc.
  assert (Hpl : prelude_len ins = nupvals (pdata c)).
  { unfold prelude_len. rewrite (op_is_true ins _ Hop), bool_decide_true, Hc by done. done. }
  rewrite Hpl in En. pose proof (children_nupvals _ _ Hc) as Hnn.
  destruct (count <=? pc_at k + nupvals (pdata c)) eqn:Hov; zbool; [lia|].
  destruct (nupvals (pdata c) =? 0) eqn:H0; zbool.
  { replace (pc_at k + 1) with (pc_at (S k)) by lia.
    eapply sweep1_post_step; [apply bitmap_heap_refl|intros ins' c' Hr' Hop' Hc' i; assert (c' = c) by congruence; subst; lia|].
    apply IH; [done|lia|]. eapply marks_skip; eauto. lia. }
  (* the bitmap, allocated now if this is the first prelude *)
  set (alloc := match pre with Some x => (Some x, h) | None => _ end).
  assert (Ha : exists pre1 h1, alloc = (pre1, h1) /\ bitmap_heap pre h pre1 h1 /\ marks (pc_at k) (snd <$> pre1)).
  { unfold alloc. destruct pre as [x|]; [eexists _, _; split; [done|]; split; [apply bitmap_heap_refl|done]|].
    unfold halloc. destruct (grant _ _); eexists _, _; (split; [done|]); (split; [split; cbn; [lia|done]|]);
      [by apply fresh_marks|done]. }
  destruct Ha as (pre1 & h1 & -> & Hh & Hm1). destruct pre1 as [[b bm]|]; [|by split].
  destruct (prelude_words_spec (Z.to_nat (nupvals (pdata c))) 1 (pc_at k) bm) as (e & bm' & -> & Hs' & Hok);
    [apply Hm1|apply pc_at_nonneg|lia|lia|].
  assert (Hh' : bitmap_heap pre h (Some (b, bm')) h1).
  { destruct Hh as [Hh1 Hh2]. split; [done|]. by destruct pre as [[]|]. }
  destruct e; try (split; [exact Hh'|done]).
  destruct (Hok eq_refl) as [Hy Hu]. replace (pc_at k + nupvals (pdata c) + 1) with (pc_at (S k)) by lia.
  eapply sweep1_post_step; [exact Hh'| |].
  - intros ins' c' Hr' Hop' Hc' i Hi. assert (ins' = ins) by congruence. subst. assert (c' = c) by congruence. subst.
    apply Hu. lia.
  - apply IH; [done|lia|]. eapply (marks_prelude k bm bm' (nupvals (pdata c))); [done|done|lia|lia|].
    intros y Hyy. rewrite Hy by done. rewrite Z2Nat.id by lia. done.
Qed.

(** ** Pass 2, sweep 2 *)

(** A place control may resume: a real instruction not behind an EXTARG. *)
Definition good_target (t : Z) : Prop := exists k, t = pc_at k /\ t < count /\ ext_at k = (0, false).

Lemma ext_of_pend pc : snd (ext_of pc) = false -> ext_of pc = (0, false).
Proof. unfold ext_of. destruct (read _ _) as [i|]; [|done]. by destruct (op_is i _). Qed.

Lemma verify_target_spec bm op t :
  marks count bm -> 0 <= t ->
  exists e, verify_target instrs bm op t = Some e /\ (e = OK -> good_target t).
Proof.
  intros [_ Hm] Ht. unfold verify_target. fold count.
  destruct (count <=? t) eqn:Hc; zbool; [eexists; split; [done|]; by destruct (decide _)|].
  destruct (Hm t ltac:(lia)) as (b & -> & Hb). destruct b; [by eexists|].
  assert (Hreal : exists k, t = pc_at k).
  { destruct (real_or_prelude t Ht) as [|Hp]; [done|]. exfalso. assert (false = true) by (apply Hb; done). done. }
  destruct Hreal as [k ->].
  destruct (0 <? pc_at k) eqn:H0; zbool.
  2:{ eexists; split; [done|]. intros _. exists k. split; [done|]. split; [done|].
      destruct k; [done|]. pose proof (pc_at_mono 0 (S k) ltac:(lia)). cbn [pc_at] in *. lia. }
  destruct (Hm (pc_at k - 1) ltac:(lia)) as (b' & -> & Hb').
  destruct k as [|k]; [cbn in H0; lia|].
  destruct (read_instr (pc_at k)) as [ins Hr].
  { pose proof (pc_at_nonneg k). pose proof (pc_at_mono k (S k) ltac:(lia)). lia. }
  assert (Hpend : (b' = true \/ (forall prev, read instrs (pc_at (S k) - 1) = Some prev -> op_is prev OP_EXTARG = false)) ->
    ext_at (S k) = (0, false)).
  { intros Hor. apply ext_of_pend. cbn [ext_at]. unfold ext_of. rewrite Hr. destruct (op_is ins OP_EXTARG) eqn:Ex; [|done].
    exfalso. assert (E : pc_at (S k) - 1 = pc_at k).
    { cbn [pc_at]. unfold next_pc. rewrite Hr. unfold op_is in Ex. apply bool_decide_eq_true in Ex.
      rewrite (prelude_len_other ins OP_EXTARG) by done. lia. }
    destruct Hor as [->|Hno].
    - destruct Hb' as [Hb' _]. destruct (Hb' eq_refl) as [Hp _]. rewrite E in Hp. by apply real_not_prelude in Hp.
    - rewrite E in Hno. rewrite (Hno ins Hr) in Ex. done. }
  destruct b'.
  { eexists; split; [done|]. intros _. exists (S k). split; [done|]. split; [done|]. apply Hpend. by left. }
  destruct (read_instr (pc_at (S k) - 1)) as [prev Hprev]; [lia|]. rewrite Hprev.
  eexists; split; [done|]. destruct (op_is prev OP_EXTARG) eqn:Ex; [done|]. intros _.
  exists (S k). split; [done|]. split; [done|]. apply Hpend. right. intros prev' ?. by assert (prev' = prev) as -> by congruence.
Qed.

(** What sweep 2 establishes of a real instruction at [pc]. *)
Definition transfer_safe (pc ins : Z) (op : UOpcode) : Prop :=
  (op = OP_JMP -> good_target (jmp_target ins pc)) /\
  (op = OP_CALL -> Z.land (uinstr_c ins) 127 <> 0) /\
  (op_may_skip ins = true -> good_target (pc + 2)) /\
  (op = OP_SCOPE_TRY \/ op = OP_SCOPE_TAG \/ op = OP_UNWIND_TO -> good_target (uinstr_bx ins)).

Lemma may_skip_op ins op : uinstr_opcode ins = Some op -> op_may_skip ins = true -> op <> OP_JMP /\ op <> OP_CALL.
Proof. unfold op_may_skip. intros ->. by destruct op. Qed.

Lemma handler_shape op : bool_decide (format (urbi_opcode_shapes op) = UOPF_ABX)
    && bool_decide (bx_kind (urbi_opcode_shapes op) = UBXK_HANDLER_PC) = true <->
  op = OP_SCOPE_TRY \/ op = OP_SCOPE_TAG \/ op = OP_UNWIND_TO.
Proof.
  destruct op; (split; [vm_compute; try (intros H; discriminate H); tauto|]);
    intros [H|[H|H]]; try discriminate H; reflexivity.
Qed.

Lemma verify_transfer_spec bm pc ins op :
  marks count bm -> 0 <= pc -> uinstr_opcode ins = Some op ->
  exists e, verify_transfer p bm pc ins = Some e /\ (e = OK -> transfer_safe pc ins op).
Proof.
  intros Hm Hpc Hop. unfold verify_transfer. rewrite Hop. fold d instrs. pose proof (uinstr_bx_range ins) as Hbx.
  pose proof (may_skip_op ins op Hop) as Hms. pose proof (handler_shape op) as Hh.
  unfold transfer_safe, jmp_target. destruct (decide (op = OP_JMP)) as [->|Hj].
  { destruct (_ <? 0) eqn:Hn; [by eexists|]. zbool.
    destruct (verify_target_spec bm OP_JMP _ Hm Hn) as (e & -> & He). exists e. split; [done|]. intros E.
    specialize (He E). split; [|split; [done|split; [intros Hs; by destruct (Hms Hs)|by intros [|[|]]]]].
    intros _. destruct (0 <=? uinstr_bx ins - 32768); (eapply eq_ind; [exact He|lia]). }
  destruct (decide (op = OP_CALL)) as [->|Hcall].
  { eexists. split; [done|]. destruct (_ =? 0) eqn:E; [done|]. zbool. intros _.
    split; [done|split; [done|split; [intros Hs; by destruct (Hms Hs)|by intros [|[|]]]]]. }
  destruct (op_may_skip ins) eqn:Hsk.
  { destruct (verify_target_spec bm op (pc + 2) Hm ltac:(lia)) as (e & -> & He). exists e. split; [done|]. intros E.
    specialize (He E). repeat split; try done.
    intros Ho. exfalso. unfold op_may_skip in Hsk. rewrite Hop in Hsk. by destruct Ho as [-> | [-> | ->]]. }
  destruct (_ && _) eqn:Hb.
  { destruct (verify_target_spec bm op (uinstr_bx ins) Hm ltac:(lia)) as (e & -> & He). exists e. split; [done|].
    intros E. repeat split; try done. auto. }
  eexists. split; [done|]. intros _. repeat split; try done. intros Ho. apply Hh in Ho. congruence.
Qed.

Lemma verify_transfers_spec bm l : forall vi,
  marks count bm -> 0 <= vi -> l = drop (Z.to_nat vi) instrs ->
  exists e, verify_transfers p bm l vi = Some e /\
    (e = OK -> forall k ins op, vi <= pc_at k < count -> read instrs (pc_at k) = Some ins ->
       uinstr_opcode ins = Some op -> transfer_safe (pc_at k) ins op).
Proof.
  induction l as [|i l IH]; intros vi Hm Hvi El; cbn [verify_transfers].
  { eexists; split; [done|]. intros _ k ins op Hk. symmetry in El. apply (f_equal length) in El.
    rewrite length_drop in El. cbn in El. unfold count in Hk. lia. }
  assert (Hlt : vi < count).
  { apply (f_equal length) in El. rewrite length_drop in El. cbn in El. unfold count. lia. }
  assert (El' : l = drop (Z.to_nat (vi + 1)) instrs).
  { replace (Z.to_nat (vi + 1)) with (Z.to_nat vi + 1)%nat by lia. rewrite <- drop_drop, <- El. done. }
  assert (Hi : read instrs vi = Some i).
  { unfold read. destruct (0 <=? vi) eqn:E; zbool; [|lia]. rewrite <- (Nat.add_0_r (Z.to_nat vi)), <- lookup_drop, <- El. done. }
  destruct (IH (vi + 1) Hm ltac:(lia) El') as (e & He & Hok).
  destruct Hm as [Hms Hm]. destruct (Hm vi ltac:(lia)) as (b & -> & Hb). destruct b.
  - exists e. split; [done|]. intros E k ins op Hk Hr Hop. apply (Hok E); try done.
    destruct (decide (pc_at k = vi)) as [<-|]; [|lia]. destruct Hb as [Hb _]. destruct (Hb eq_refl) as [Hp _].
    by apply real_not_prelude in Hp.
  - assert (Hreal : exists k, vi = pc_at k).
    { destruct (real_or_prelude vi Hvi) as [|Hp]; [done|]. exfalso. assert (false = true) by (apply Hb; done). done. }
    destruct Hreal as [k ->]. destruct (pass1_at k Hlt) as (ins & op & Hr & Hop & _).
    assert (i = ins) as -> by congruence.
    destruct (verify_transfer_spec bm (pc_at k) ins op (conj Hms Hm) Hvi Hop) as (e1 & -> & He1).
    destruct (decide (e1 = OK)) as [->|Hne]; cbn [vthen].
    + exists e. split; [done|]. intros E k' ins' op' Hk' Hr' Hop'.
      destruct (decide (k' = k)) as [->|]; [assert (ins' = ins) as -> by congruence; assert (op' = op) as -> by congruence; auto|].
      apply (Hok E); try done. assert (pc_at k <> pc_at k') by (intros ?%pc_at_inj; done). lia.
    + exists e1. destruct e1; done.
Qed.

(** ** Both passes *)

Record frame_verified : Prop := {
  fv_closures : closures_safe 0 count;
  fv_transfers : forall k ins op, pc_at k < count -> read instrs (pc_at k) = Some ins ->
    uinstr_opcode ins = Some op -> transfer_safe (pc_at k) ins op }.

Lemma hfree_head b h h' : h_live h' = b :: h_live h -> exists h'', hfree b h' = Some h'' /\ h_live h'' = h_live h /\ h_calls h'' = h_calls h'.
Proof. intros E. unfold hfree. rewrite E. cbn. rewrite decide_True by done. eexists. by split. Qed.

Lemma verify_bounds_own_spec h :
  exists e h', verify_bounds_own p h = Some (e, h') /\ h_live h' = h_live h /\ (h_calls h <= h_calls h')%nat /\
    (e = OK -> frame_verified).
Proof.
  unfold verify_bounds_own. fold d instrs. destruct pass1_done as [Hc _].
  pose proof (verify_preludes_spec (length instrs) 0 None h ltac:(cbn; lia) ltac:(cbn; unfold count; lia)) as H.
  cbn [pc_at] in H. assert (Hm0 : marks 0 None).
  { split; [done|]. intros x Hx. exists false. split; [done|]. split; [done|lia]. }
  specialize (H Hm0). unfold sweep1_post in H.
  destruct (verify_preludes p (length instrs) 0 None h) as [[[rc pre] h1]|]; [|done].
  destruct H as [[Hcalls Hh] Hok].
  assert (Hrc : exists e, (match rc with UCHUNK_LOAD_OK => verify_transfers p (snd <$> pre) instrs 0 | e => Some e end) = Some e
    /\ (e = OK -> frame_verified)).
  { destruct (decide (rc = OK)) as [->|Hne]; [|exists rc; destruct rc; done].
    destruct (Hok eq_refl) as [Hm Hcl].
    destruct (verify_transfers_spec (snd <$> pre) instrs 0 Hm ltac:(lia) ltac:(done)) as (e & -> & He).
    exists e. split; [done|]. intros E. split; [done|]. intros k ins op Hk. apply (He E).
    pose proof (pc_at_nonneg k). lia. }
  destruct Hrc as (e & -> & He). destruct pre as [[b bm]|].
  - destruct (hfree_head b h h1 Hh) as (h2 & -> & Hl & Hc2). exists e, h2.
    split; [done|]. split; [done|]. split; [lia|done].
  - exists e, h1. done.
Qed.

(** ** Every reachable fetch is safe *)

Lemma byte_operand_safe kind v : 0 <= v -> verify_byte_operand v kind (max_reg d) = OK -> operand_safe kind v.
Proof.
  intros Hv. destruct kind; cbn [verify_byte_operand operand_safe]; try done; intros H; hcase H; try done; zbool;
    repeat match goal with H : _ \/ _ |- _ => destruct H; zbool end; lia.
Qed.

Lemma vinstr_operand_a ins op vi ext sk :
  vinstr ins op vi ext = (Some OK, sk) -> operand_safe (a_kind (urbi_opcode_shapes op)) (uinstr_a ins).
Proof.
  unfold verify_instr. cbv zeta. pose proof (uinstr_a_byte ins) as [? _].
  destruct (verify_byte_operand _ _ _) eqn:E; try done. intros _. by apply byte_operand_safe.
Qed.

Lemma vthen_ok x k : vthen x k = Some OK -> x = Some OK /\ k = Some OK.
Proof. by destruct x as [[]|]. Qed.

Lemma vinstr_abc ins op vi ext sk :
  format (urbi_opcode_shapes op) = UOPF_ABC -> vinstr ins op vi ext = (Some OK, sk) ->
  operand_safe (b_kind (urbi_opcode_shapes op)) (uinstr_b ins) /\
  operand_safe (c_kind (urbi_opcode_shapes op)) (uinstr_c ins) /\
  (op_takes_site op = true -> Z.lor (uinstr_c ins) ext < site_count d) /\
  verify_abc_rules op (uinstr_a ins) (uinstr_b ins) (uinstr_c ins) instrs vi (max_reg d) = Some OK.
Proof.
  intros Ef. unfold verify_instr. cbv zeta. rewrite Ef. destruct (verify_byte_operand (uinstr_a ins) _ _); try done.
  pose proof (uinstr_b_byte ins) as [Hb _]. pose proof (uinstr_c_byte ins) as [Hc _].
  intros H. apply (f_equal fst) in H. cbn [fst] in H. apply vthen_ok in H as [H1 H]. apply vthen_ok in H as [H2 H]. apply vthen_ok in H as [H3 H].
  injection H1 as H1. injection H2 as H2. repeat split; [by apply byte_operand_safe..| |done].
  intros Ht. destruct (decide (c_kind (urbi_opcode_shapes op) = UOPK_IMM_SITE)) as [_|Hns]; [|by destruct op].
  destruct (_ <=? _) eqn:Es; [done|]. by zbool.
Qed.

Lemma abc_rules_safe op a b c vi :
  verify_abc_rules op a b c instrs vi (max_reg d) = Some OK ->
  match op with
  | OP_SELF => a + 1 <= max_reg d
  | OP_CALL => a + b <= max_reg d + 1
  | OP_INSTALL => a + 2 <= max_reg d
  | OP_JOIN_WAIT => exists prev, read instrs (vi - 1) = Some prev /\
      uinstr_opcode prev = Some OP_FORK /\ uinstr_c prev = UFORK_JOIN /\ uinstr_b prev = a
  | _ => True
  end.
Proof.
  destruct op; cbn [verify_abc_rules]; try done; intros H; repeat (hcase H; try done); zbool; try lia.
  eexists. split; [done|]. unfold op_is in *.
  by match goal with H : bool_decide _ = true |- _ => apply bool_decide_eq_true in H end.
Qed.

Lemma vinstr_abx ins op vi ext sk :
  format (urbi_opcode_shapes op) = UOPF_ABX -> vinstr ins op vi ext = (Some OK, sk) ->
  verify_bx (uinstr_bx ins) (bx_kind (urbi_opcode_shapes op)) (v_count (constants d)) count (Z.of_nat (length (nested p))) = OK.
Proof.
  intros Ef. unfold verify_instr. cbv zeta. rewrite Ef. destruct (verify_byte_operand (uinstr_a ins) _ _); try done.
  fold count. by destruct (verify_bx _ _ _ _ _).
Qed.

Lemma vinstr_sound k ins op :
  pc_at k < count -> read instrs (pc_at k) = Some ins -> uinstr_opcode ins = Some op -> frame_verified ->
  vinstr ins op (pc_at k) (fst (ext_at k)) = (Some OK, prelude_len ins) ->
  instr_safe ins op (pc_at k) (fst (ext_at k)).
Proof.
  intros Hk Hr Hop Hfv Hv. destruct (fv_transfers Hfv k ins op Hk Hr Hop) as (_ & Hcall & _ & _).
  pose proof (fun E => vinstr_abc _ _ _ _ _ E Hv) as Habc.
  pose proof (fun E => vinstr_abx _ _ _ _ _ E Hv) as Habx.
  assert (Hrules : format (urbi_opcode_shapes op) = UOPF_ABC -> _) by (intros E; exact (abc_rules_safe _ _ _ _ _ (proj2 (proj2 (proj2 (Habc E)))))).
  constructor.
  - by eapply vinstr_operand_a.
  - intros E. apply (Habc E).
  - intros E. apply (Habc E).
  - intros Ht. apply Habc; [by destruct op|done].
  - intros ->. specialize (Habx eq_refl). cbn in Habx. destruct (_ <=? _) eqn:E; zbool; [done|lia].
  - intros ->. by apply Hrules.
  - intros ->. split; [by apply Hrules|auto].
  - intros ->. by apply Hrules.
  - intros ->. by apply Hrules.
  - intros ->. destruct (vinstr_skip _ _ _ _ _ Hop Hv Hk) as [_ Hlt]. destruct (vinstr_closure _ _ _ Hv) as [c Hc].
    unfold prelude_len in Hlt. rewrite (op_is_true ins _ Hop), bool_decide_true, Hc in Hlt by done.
    exists c. split; [done|]. split; [done|]. eapply (fv_closures Hfv k); eauto. pose proof (pc_at_nonneg k). lia.
Qed.

Lemma ext_at_pend k : snd (ext_at k) = false -> ext_at k = (0, false).
Proof. destruct k; [done|]. apply ext_of_pend. Qed.

Definition xinv (x : xstate) : Prop :=
  exists k, x_pc x = pc_at k /\ pc_at k < count /\ x_ext x = fst (ext_at k) /\ Forall good_target (x_targets x).

Lemma ext_after_zero k op :
  (snd (ext_at k) = true -> op_takes_site op = true) -> ext_after op (fst (ext_at k)) = 0.
Proof.
  intros H. unfold ext_after. destruct (op_takes_site op); [done|].
  rewrite ext_at_pend; [done|]. destruct (snd (ext_at k)); [|done]. by discriminate H.
Qed.

Hypothesis verified : frame_verified.

Lemma good_next k ins op :
  pc_at k < count -> read instrs (pc_at k) = Some ins -> uinstr_opcode ins = Some op ->
  op <> OP_EXTARG -> op <> OP_RET -> good_target (pc_at (S k)).
Proof.
  intros Hk Hr Hop He Hret. destruct (pass1_at k Hk) as (ins' & op' & Hr' & Hop' & _ & _ & _ & _ & _ & Hlt).
  assert (ins' = ins) as -> by congruence. assert (op' = op) as -> by congruence.
  exists (S k). split; [done|]. split; [auto|]. apply ext_of_pend. unfold ext_of.
  rewrite Hr, (op_is_true ins op Hop), bool_decide_false by done. done.
Qed.

Lemma good_records k ins op tg :
  pc_at k < count -> read instrs (pc_at k) = Some ins -> uinstr_opcode ins = Some op ->
  Forall good_target tg -> Forall good_target (record_targets ins op (pc_at k) tg).
Proof.
  intros Hk Hr Hop Htg. destruct (fv_transfers verified k ins op Hk Hr Hop) as (_ & _ & _ & Hh).
  destruct op; cbn [record_targets]; try done; try (constructor; [apply Hh; tauto|done]).
  destruct (_ =? 0); [done|]. constructor; [|done].
  replace (pc_at k + 1) with (pc_at (S k)); [by eapply good_next|].
  cbn [pc_at]. unfold next_pc. rewrite Hr. rewrite (prelude_len_other ins OP_SCOPE_POP) by done. lia.
Qed.

Lemma xinv_target t op k tg :
  good_target t -> (snd (ext_at k) = true -> op_takes_site op = true) -> Forall good_target tg ->
  xinv (X t (ext_after op (fst (ext_at k))) tg).
Proof.
  intros (j & -> & Hj & Ej) Hs Htg. exists j. cbn. rewrite Ej, ext_after_zero by done. done.
Qed.

Lemma xinv_step x y : xinv x -> exec x y -> xinv y.
Proof.
  intros (k & Epc & Hk & Eext & Htg) Hx. destruct (pass1_at k Hk) as (ins & op & Hr & Hop & Hs & En & Hext & _).
  destruct Hx as [pc ext tg i Hi Ho|pc ext tg i Hi Ho|pc ext tg i Hi Ho|pc ext tg i o Hi Ho Hnf|pc ext tg i o t Hi Ho Hne Ht];
    cbn [x_pc x_ext x_targets] in *; subst pc ext; fold d instrs in Hi; assert (i = ins) as -> by congruence;
    destruct (fv_transfers verified k ins op Hk Hr Hop) as (Hj & _ & Hsk & _).
  - assert (op = OP_EXTARG) as -> by congruence. rewrite (prelude_len_other ins OP_EXTARG) in En by done.
    exists (S k). cbn. unfold ext_of. rewrite Hr, (op_is_true ins _ Hop), bool_decide_true by done.
    split; [cbn [pc_at] in *; lia|]. auto.
  - assert (op = OP_JMP) as -> by congruence. 
    change (fst (ext_at k)) with (ext_after OP_JMP (fst (ext_at k))). apply xinv_target; auto.
  - assert (Hns : op_takes_site op = false) by (unfold op_may_skip in Ho; rewrite Hop in Ho; by destruct op).
    replace (fst (ext_at k)) with (ext_after op (fst (ext_at k))) by (unfold ext_after; by rewrite Hns).
    apply xinv_target; auto.
  - assert (o = op) as -> by congruence.
    replace (pc_at k + 1 + prelude_len ins) with (pc_at (S k)) by lia.
    apply xinv_target; [|done|by apply good_records].
    eapply good_next; eauto; intros ->; done.
  - assert (o = op) as -> by congruence.
    assert (Hall : Forall good_target (record_targets ins op (pc_at k) tg)) by (by apply good_records).
    apply xinv_target; [|done|done]. by eapply Forall_forall in Ht.
Qed.

(** What the dispatch loop may rely on when it fetches in state [x]. *)
Definition fetch_safe (x : xstate) : Prop :=
  exists ins op, read instrs (x_pc x) = Some ins /\ uinstr_opcode ins = Some op /\
    (op <> OP_EXTARG -> instr_safe ins op (x_pc x) (x_ext x)).

Lemma xinv_safe x : xinv x -> fetch_safe x.
Proof.
  intros (k & Epc & Hk & Eext & Htg). destruct (pass1_at k Hk) as (ins & op & Hr & Hop & Hs & En & Hext & Hv & _).
  exists ins, op. rewrite Epc, Eext. split; [done|]. split; [done|]. intros Hne. apply vinstr_sound; auto.
Qed.

Lemma reachable_safe x : rtc exec (X 0 0 []) x -> fetch_safe x.
Proof.
  intros H. apply xinv_safe. assert (H0 : xinv (X 0 0 [])).
  { exists O. cbn. destruct pass1_done as [Hc _]. repeat split; [done|]. constructor. }
  revert H0. induction H as [|x y z Hxy _ IH]; [done|]. intros Hx. apply IH. by eapply xinv_step.
Qed.

End Frame.

(** ** The whole tree *)

Inductive subproto : UProto -> UProto -> Prop :=
| sub_refl p : subproto p p
| sub_child p c q : Some c ∈ nested p -> subproto c q -> subproto p q.

Definition tree_all (P : UProto -> Prop) (p : UProto) : Prop := forall q, subproto p q -> P q.

Lemma tree_all_child P p c : tree_all P p -> Some c ∈ nested p -> tree_all P c.
Proof. intros H Hc q Hq. apply H. by eapply sub_child. Qed.

Lemma tree_all_intro (P : UProto -> Prop) p : P p -> (forall c, Some c ∈ nested p -> tree_all P c) -> tree_all P p.
Proof. intros Hp Hc q Hq. inversion Hq as [|? c ? Hin Hsub]; subst; [done|]. by apply (Hc c). Qed.

Lemma tree_all_mono (P Q : UProto -> Prop) p : (forall q, P q -> Q q) -> tree_all P p -> tree_all Q p.
Proof. intros H HP q Hq. by apply H, HP. Qed.

(** The children of a decoded prototype hold their capture count in a byte. *)
Definition children_ok (p : UProto) : Prop := forall i c, read (nested p) i = Some (Some c) -> 0 <= nupvals (pdata c).

Lemma verify_recursive_tree p : verify_proto_recursive p = Some OK -> tree_all (fun q => proto_walk q = Some OK) p.
Proof.
  induction p as [d n IH] using UProto_tree_ind. cbn [verify_proto_recursive]. intros H.
  apply vthen_ok in H as [Hw Hn]. apply tree_all_intro; [done|]. cbn [nested]. clear Hw.
  induction n as [|o n IHn]; [by intros c ?%elem_of_nil|]. apply Forall_cons in IH as [IHo IH].
  destruct o as [o|].
  - apply vthen_ok in Hn as [Ho Hn]. intros c [[= ->]|Hc]%elem_of_cons; [by apply IHo|by apply IHn].
  - intros c [[=]|Hc]%elem_of_cons. by apply IHn.
Qed.

Lemma verify_recursive_total p : tree_all children_ok p -> verify_proto_recursive p <> None.
Proof.
  induction p as [d n IH] using UProto_tree_ind. intros Hok. cbn [verify_proto_recursive]. intros H.
  apply vthen_none in H as [H|H]; [by apply (proto_walk_total _ (Hok _ (sub_refl _))) in H|].
  assert (Hc : forall c, Some c ∈ n -> tree_all children_ok c) by (intros c Hc; eapply tree_all_child; eauto).
  clear Hok. induction n as [|o n IHn]; [done|]. apply Forall_cons in IH as [IHo IH].
  assert (Hn : forall c, Some c ∈ n -> tree_all children_ok c) by (intros c Hin; apply Hc; by right).
  destruct o as [o|]; [|by apply IHn].
  apply vthen_none in H as [H|H]; [|by apply IHn]. eapply IHo; eauto. apply Hc. by left.
Qed.

Section Bounds.
Context {A : Allocator}.

(** Pass 2 after pass 1: total, the heap as it was, every frame verified. *)
Definition bounds_post (ps : UProto -> Prop) (h : heap) (r : option (UChunkLoadError * heap)) : Prop :=
  match r with
  | None => False
  | Some (e, h') => h_live h' = h_live h /\ (h_calls h <= h_calls h')%nat /\ (e = OK -> forall q, ps q -> frame_verified q)
  end.

Lemma verify_bounds_proto_spec p : forall h,
  tree_all children_ok p -> tree_all (fun q => proto_walk q = Some OK) p ->
  bounds_post (subproto p) h (verify_bounds_proto p h).
Proof.
  induction p as [d n IH] using UProto_tree_ind. intros h Hok Hw. cbn [verify_bounds_proto].
  destruct (verify_bounds_own_spec (MkProto d n) (Hok _ (sub_refl _)) (Hw _ (sub_refl _)) h) as (e & h1 & -> & Hl & Hc & He).
  destruct (decide (e = OK)) as [->|Hne]; [|by destruct e].
  assert (Hchild : forall c, Some c ∈ n -> tree_all children_ok c /\ tree_all (fun q => proto_walk q = Some OK) c).
  { intros c Hin. split; eapply tree_all_child; eauto. }
  enough (Hgo : bounds_post (fun q => exists c, Some c ∈ n /\ subproto c q) h1
    ((fix go (n : list (option UProto)) (h : heap) : option (UChunkLoadError * heap) :=
         match n with
         | [] => Some (OK, h)
         | Some c :: n => match verify_bounds_proto c h with Some (UCHUNK_LOAD_OK, h) => go n h | r => r end
         | None :: n => go n h
         end) n h1)).
  { unfold bounds_post in *. destruct (_ n h1) as [[e h2]|]; [|done]. destruct Hgo as (Hl2 & Hc2 & He2).
    split; [congruence|]. split; [lia|]. intros E q Hq.
    inversion Hq as [|? c ? Hin Hsub]; subst; [by apply He|]. apply He2; eauto. }
  clear Hok Hw He Hl Hc h. revert h1. induction n as [|o n IHn]; intros h1.
  { split; [done|]. split; [lia|]. intros _ q (c & Hin & _). by apply elem_of_nil in Hin. }
  apply Forall_cons in IH as [IHo IH].
  assert (Hchild' : forall c, Some c ∈ n -> tree_all children_ok c /\ tree_all (fun q => proto_walk q = Some OK) c).
  { intros c Hin. apply Hchild. by right. }
  specialize (IHn IH Hchild'). destruct o as [o|].
  - destruct (Hchild o ltac:(by left)) as [Ho1 Ho2]. specialize (IHo o eq_refl h1 Ho1 Ho2).
    destruct (verify_bounds_proto o h1) as [[e h2]|]; [|done]. destruct IHo as (Hl & Hc & He).
    destruct (decide (e = OK)) as [->|]; [|by destruct e].
    specialize (IHn h2). unfold bounds_post in *. destruct (_ n h2) as [[e h3]|]; [|done].
    destruct IHn as (Hl3 & Hc3 & He3). split; [congruence|]. split; [lia|]. intros E q (c & [[= ->]|Hin]%elem_of_cons & Hsub); [by apply He|].
    apply He3; eauto.
  - specialize (IHn h1). unfold bounds_post in *. destruct (_ n h1) as [[e h3]|]; [|done].
    destruct IHn as (Hl3 & Hc3 & He3). split; [done|]. split; [done|]. intros E q (c & [[=]|Hin]%elem_of_cons & Hsub).
    apply He3; eauto.
Qed.

End Bounds.

(** ** Properties *)

(** C4 verifier soundness: once both passes accept a tree, every fetch state
    any frame of it can reach, by fall-through, jumps, skips, closure
    preludes, or resumption at a recorded handler, leave or resume pc, is a
    real instruction of the array with a defined opcode; its registers,
    constants, sites and children are in range, with the pending EXTARG bits
    where it takes them; every prelude word of a closure names a register or
    an upvalue of the frame; and the word before a JOIN_WAIT reads as a FORK
    that joins into its register. Neither pass looks at the upvalue index of
    a GETUPVAL or SETUPVAL, and the word before a JOIN_WAIT need not be an
    instruction: it may be a prelude word. *)
Theorem verifier_sound {A : Allocator} root h h' q x :
  tree_all children_ok root ->
  urbi_chunk_decode_verify root = Some OK ->
  urbi_chunk_verify_bounds root h = Some (OK, h') ->
  subproto root q -> rtc (exec q) (X 0 0 []) x -> fetch_safe q x.
Proof.
  intros Hok Hv Hb Hq Hx. pose proof (verify_recursive_tree root Hv) as Hw.
  pose proof (verify_bounds_proto_spec root h Hok Hw) as H. unfold urbi_chunk_verify_bounds in Hb. rewrite Hb in H.
  destruct H as (_ & _ & Hf). apply (reachable_safe q (Hok q Hq) (Hw q Hq) (Hf eq_refl q Hq) x Hx).
Qed.
