(* ===== verification/Load.v ===== *)
(** * The bytecode loader (src/src/chunk/uchunk_io.c)

    The deserializer, from an arbitrary byte buffer to a prototype tree or a
    load error, with the allocations it makes, the clean-up of its failure
    path, and [uchunk_destroy].  [RFault] is undefined behaviour: a read
    outside the buffer, a write past an array's capacity, a free of a block
    that is not live. *)
From S2P Require Import Prelude Varint Instr Chunk Serialize Verify.

(** [size_t] and pointers are eight bytes; a [UValue] is sixteen. *)
Definition sizeof_UValue : Z := 16.
Definition sizeof_UAbsLine : Z := 8.
Definition sizeof_UProto : Z := 232.
Definition sizeof_ptr : Z := 8.
Definition URBI_MAX_INSTRS_PER_PROTO : Z := 2 ^ 20.
Definition UCHUNK_MAX_PROTO_DEPTH : Z := 64.

(** ** The decode context

    [MDecCtx], with what the decoder writes through [root_proto]
    ([source_name], [next_proto_serial]), the allocator's heap, and the
    prototype the running [decode_proto] was called on. *)
Record DState := MkDState {
  d_off : Z;
  d_depth : Z;
  d_arity_flag : Z;
  d_serial : Z;
  d_heap : heap;
  d_source : option (nat * bytes);
  d_cur : UProto }.

Definition with_off (o : Z) (s : DState) : DState :=
  MkDState o (d_depth s) (d_arity_flag s) (d_serial s) (d_heap s) (d_source s) (d_cur s).
Definition with_depth (n : Z) (s : DState) : DState :=
  MkDState (d_off s) n (d_arity_flag s) (d_serial s) (d_heap s) (d_source s) (d_cur s).
Definition with_arity (n : Z) (s : DState) : DState :=
  MkDState (d_off s) (d_depth s) n (d_serial s) (d_heap s) (d_source s) (d_cur s).
Definition with_serial (n : Z) (s : DState) : DState :=
  MkDState (d_off s) (d_depth s) (d_arity_flag s) n (d_heap s) (d_source s) (d_cur s).
Definition with_heap (h : heap) (s : DState) : DState :=
  MkDState (d_off s) (d_depth s) (d_arity_flag s) (d_serial s) h (d_source s) (d_cur s).
Definition with_source (n : option (nat * bytes)) (s : DState) : DState :=
  MkDState (d_off s) (d_depth s) (d_arity_flag s) (d_serial s) (d_heap s) n (d_cur s).
Definition with_cur (p : UProto) (s : DState) : DState :=
  MkDState (d_off s) (d_depth s) (d_arity_flag s) (d_serial s) (d_heap s) (d_source s) p.
Definition with_data (f : PData -> PData) (s : DState) : DState :=
  let 'MkProto d n := d_cur s in with_cur (MkProto (f d) n) s.

(** ** The decoder monad: the state survives an error, as in C *)

Inductive res (T : Type) :=
| ROk (x : T)
| RErr (e : UChunkLoadError)
| RFault.
Arguments ROk {T} x.
Arguments RErr {T} e.
Arguments RFault {T}.

Definition M (T : Type) : Type := DState -> res T * DState.

#[global] Instance M_ret : MRet M := fun T x s => (ROk x, s).
#[global] Instance M_bind : MBind M := fun T U k m s =>
  match m s with
  | (ROk x, s) => k x s
  | (RErr e, s) => (RErr e, s)
  | (RFault, s) => (RFault, s)
  end.

Definition err {T} (e : UChunkLoadError) : M T := fun s => (RErr e, s).
Definition fault {T} : M T := fun s => (RFault, s).
Definition get : M DState := fun s => (ROk s, s).
Definition modify (f : DState -> DState) : M () := fun s => (ROk (), f s).
(** [if (b) return e;]. *)
Definition refuse (b : bool) (e : UChunkLoadError) : M () := if b then err e else mret ().
Definition of_option {T} (o : option T) : M T := match o with Some x => mret x | None => fault end.

(** Outcome of a run as the code a C caller sees. *)
Definition code_of (e : UChunkLoadError) : M () :=
  match e with UCHUNK_LOAD_OK => mret () | e => err e end.

Section Load.
Context {A : Allocator}.
Variable buf : bytes.
Let size : Z := zlen buf.

(** ** Primitive steps *)

Definition malloc (n : Z) : M (option nat) := fun s =>
  let '(p, h) := halloc n (d_heap s) in (ROk p, with_heap h s).

Definition advance (n : Z) : M () := modify (fun s => with_off (u64 (d_off s + n)) s).

(** [d->buf[d->off + k]]. *)
Definition peek (k : Z) : M Z := s ← get; of_option (read buf (d_off s + k)).
Definition next_byte : M Z := b ← peek 0; advance 1;; mret b.

(** [module_memcpy(dst, d->buf + d->off, n)]. *)
Definition copy_in (n : Z) : M bytes :=
  s ← get;
  if (0 <=? d_off s) && (d_off s + n <=? size)
  then mret (take (Z.to_nat n) (drop (Z.to_nat (d_off s)) buf)) else fault.

(** [d->off + n > d->size], the sum taken in [size_t]. *)
Definition past_end (n : Z) : M bool := s ← get; mret (size <? u64 (d_off s + n)).
Definition refuse_past (n : Z) (e : UChunkLoadError) : M () := b ← past_end n; refuse b e.

Definition varint_error_to_module_error {T} (r : UVarintResult) (k : Z -> Z -> M T) : M T :=
  match r with
  | UVARINT_OK v c => k v c
  | UVARINT_TRUNCATED => err UCHUNK_LOAD_TRUNCATED
  | UVARINT_OVERSIZE => err UCHUNK_LOAD_CORRUPT_VARINT
  | UVARINT_FAULT => fault
  end.

Definition rest_of (s : DState) : bytes := drop (Z.to_nat (d_off s)) buf.

Definition module_decode_varint_u : M Z :=
  s ← get;
  varint_error_to_module_error (uvarint_decode_u (rest_of s) (u64 (size - d_off s)))
    (fun v c => advance c;; mret v).
Definition module_decode_varint_zz : M Z :=
  s ← get;
  varint_error_to_module_error (uvarint_decode_zz (rest_of s) (u64 (size - d_off s)))
    (fun v c => advance c;; mret v).

(** ** Growing an array *)

(** [while (target < new_cap)]; the target doubles, so 64 turns are enough. *)
Fixpoint grow_target (fuel : nat) (target new_cap : Z) : option Z :=
  if target <? new_cap then
    match fuel with
    | O => None
    | S fuel => if SIZE_MAX / 2 <? target then Some new_cap else grow_target fuel (target * 2) new_cap
    end
  else Some target.

(** The array after the call, or [None] of it when the call returns false. *)
Definition module_grow_with_alloc {T} (v : vec T) (new_cap elem_size : Z) : M (option (vec T)) :=
  if new_cap <=? v_cap v then mret (Some v)
  else if SIZE_MAX / elem_size <? new_cap then mret None
  else
    target ← of_option (grow_target 64 (if v_cap v =? 0 then 8 else v_cap v) new_cap);
    if SIZE_MAX / elem_size <? target then mret None
    else
      s ← get;
      match hrealloc (v_ptr v) (target * elem_size) (d_heap s) with
      | None => fault
      | Some (None, h) => modify (with_heap h);; mret None
      | Some (Some b, h) => modify (with_heap h);; mret (Some (Vec (Some b) (v_items v) target))
      end.

(** Storing at index [count], then incrementing the count. *)
Definition has_slot {T} (v : vec T) : M () := if v_count v <? v_cap v then mret () else fault.
Definition push {T} (v : vec T) (x : T) : vec T := Vec (v_ptr v) (v_items v ++ [x]) (v_cap v).

(** ** Sections *)

Fixpoint check_reserved (n : nat) (i : Z) : M () :=
  match n with
  | O => mret ()
  | S n =>
      b ← of_option (read buf i);
      refuse (negb (b =? 0)) UCHUNK_LOAD_CORRUPT;;
      check_reserved n (i + 1)
  end.

(** [urbi_memeq(d->buf + i, l, len)]. *)
Fixpoint memeq_at (i : Z) (l : bytes) : M bool :=
  match l with
  | [] => mret true
  | x :: l => b ← of_option (read buf i); if b =? x then memeq_at (i + 1) l else mret false
  end.

Definition check_byte (i v : Z) (e : UChunkLoadError) : M () :=
  b ← of_option (read buf i); refuse (negb (b =? v)) e.

Definition decode_header : M () :=
  refuse (size <? 24) UCHUNK_LOAD_TRUNCATED;;
  magic ← memeq_at 0 [85; 82; 66; 73];
  refuse (negb magic) UCHUNK_LOAD_BAD_MAGIC;;
  check_byte 4 URBI_BYTECODE_VERSION_BYTE UCHUNK_LOAD_UNSUPPORTED_VERSION;;
  flags ← of_option (read buf 5);
  modify (with_arity (u8 (Z.land flags 1)));;
  canary ← memeq_at 6 URBI_BYTECODE_CANARY;
  refuse (negb canary) UCHUNK_LOAD_BAD_MAGIC;;
  check_byte 12 (u8 URBI_INT_WIDTH) UCHUNK_LOAD_FLAVOR_MISMATCH;;
  check_byte 13 8 UCHUNK_LOAD_FLAVOR_MISMATCH;;
  check_byte 14 (u8 URBI_INSTR_WIDTH) UCHUNK_LOAD_FLAVOR_MISMATCH;;
  check_byte 15 (u8 URBI_ENDIANNESS) UCHUNK_LOAD_FLAVOR_MISMATCH;;
  check_reserved 8 16;;
  modify (with_off 24).

Definition decode_metadata : M () :=
  src_len ← module_decode_varint_u;
  refuse_past src_len UCHUNK_LOAD_TRUNCATED;;
  if 0 <? src_len then
    name ← malloc (src_len + 1);
    match name with
    | None => err UCHUNK_LOAD_OOM
    | Some name =>
        bs ← copy_in src_len;
        modify (with_source (Some (name, bs)));;
        advance src_len
    end
  else mret ().

Definition cur_data : M PData := s ← get; mret (pdata (d_cur s)).
Definition update (f : PData -> PData) : M () := modify (with_data f).

(** One iteration of the constants loop. *)
Definition decode_constant : M () :=
  refuse_past 1 UCHUNK_LOAD_TRUNCATED;;
  kind ← next_byte;
  refuse (UVAL_STR <? kind) UCHUNK_LOAD_CORRUPT_TAG;;
  d ← cur_data;
  has_slot (constants d);;
  k ← (if kind =? UVAL_INT then
         v ← module_decode_varint_zz; mret (K_INT v)
       else if kind =? UVAL_FLOAT then
         refuse_past 8 UCHUNK_LOAD_TRUNCATED;;
         f ← copy_in 8;
         advance 8;; mret (K_FLOAT f)
       else if kind =? UVAL_STR then
         slen ← module_decode_varint_u;
         refuse_past slen UCHUNK_LOAD_TRUNCATED;;
         b ← malloc (slen + 1);
         match b with
         | None => err UCHUNK_LOAD_OOM
         | Some b =>
             bs ← copy_in slen;
             advance slen;; mret (K_STR (Some (b, bs)))
         end
       else err UCHUNK_LOAD_CORRUPT_TAG);
  update (fun d => set_constants (push (constants d) k) d).

(** [for (i = 0; i < n; i++) body]. *)
Fixpoint repeatM (n : nat) (body : M ()) : M () :=
  match n with O => mret () | S n => body;; repeatM n body end.

Definition decode_constants_into : M () :=
  n_const ← module_decode_varint_u;
  refuse (UINT16_MAX + 1 <? n_const) UCHUNK_LOAD_CORRUPT;;
  (if 0 <? n_const then
     d ← cur_data;
     v ← module_grow_with_alloc (constants d) n_const sizeof_UValue;
     match v with
     | None => err UCHUNK_LOAD_OOM
     | Some v => update (set_constants v)
     end
   else mret ());;
  repeatM (Z.to_nat n_const) decode_constant.

(** The padding loop: at most three turns. *)
Fixpoint skip_padding (fuel : nat) : M () :=
  s ← get;
  if Z.land (d_off s) 3 =? 0 then mret ()
  else match fuel with
       | O => fault
       | S fuel =>
           refuse (size <=? d_off s) UCHUNK_LOAD_TRUNCATED;;
           b ← peek 0;
           refuse (negb (b =? 0)) UCHUNK_LOAD_CORRUPT;;
           advance 1;;
           skip_padding fuel
       end.

Definition decode_instruction : M () :=
  refuse_past 4 UCHUNK_LOAD_TRUNCATED;;
  d ← cur_data;
  has_slot (instructions d);;
  b0 ← peek 0; b1 ← peek 1; b2 ← peek 2; b3 ← peek 3;
  update (fun d => set_instructions (push (instructions d)
    (Z.lor (Z.lor (Z.lor b0 (u32 (Z.shiftl b1 8))) (u32 (Z.shiftl b2 16))) (u32 (Z.shiftl b3 24)))) d);;
  advance 4.

Definition decode_instructions_into : M () :=
  n_instr ← module_decode_varint_u;
  refuse (URBI_MAX_INSTRS_PER_PROTO <? n_instr) UCHUNK_LOAD_OVERSIZED;;
  skip_padding 3;;
  (if 0 <? n_instr then
     d ← cur_data;
     v ← module_grow_with_alloc (instructions d) n_instr 4;
     match v with
     | None => err UCHUNK_LOAD_OOM
     | Some v => update (set_instructions v)
     end
   else mret ());;
  repeatM (Z.to_nat n_instr) decode_instruction.

(** The abs_lines loop; [prev] is the checkpoint, [None] at [i = 0]. *)
Fixpoint decode_abs_lines (n : nat) (instr_count : Z) (prev : option Z) : M () :=
  match n with
  | O => mret ()
  | S n =>
      pc64 ← module_decode_varint_u;
      line64 ← module_decode_varint_u;
      refuse (instr_count <=? pc64) UCHUNK_LOAD_CORRUPT;;
      refuse (match prev with Some prev => u32 pc64 <=? prev | None => false end) UCHUNK_LOAD_CORRUPT;;
      d ← cur_data;
      has_slot (abs_lines d);;
      update (fun d => set_abs_lines (push (abs_lines d) (AbsLine (u32 pc64) (u32 line64))) d);;
      decode_abs_lines n instr_count (Some (u32 pc64))
  end.

(** The bytes of a fresh block nothing has written yet are indeterminate:
    [line_deltas] is set, with no contents, before the truncation check. *)
Definition decode_line_table_into : M () :=
  d ← cur_data;
  let instr_count := v_count (instructions d) in
  n_deltas ← module_decode_varint_u;
  refuse (negb (n_deltas =? instr_count)) UCHUNK_LOAD_CORRUPT;;
  (if 0 <? n_deltas then
     p ← malloc n_deltas;
     match p with
     | None => err UCHUNK_LOAD_OOM
     | Some b =>
         update (set_line_deltas (Some (b, [])));;
         refuse_past n_deltas UCHUNK_LOAD_TRUNCATED;;
         bs ← copy_in n_deltas;
         update (set_line_deltas (Some (b, bs)));;
         advance n_deltas
     end
   else mret ());;
  n_abs ← module_decode_varint_u;
  refuse (instr_count <? n_abs) UCHUNK_LOAD_CORRUPT;;
  (if 0 <? n_abs then
     d ← cur_data;
     v ← module_grow_with_alloc (abs_lines d) n_abs sizeof_UAbsLine;
     match v with
     | None => err UCHUNK_LOAD_OOM
     | Some v => update (set_abs_lines v)
     end
   else mret ());;
  decode_abs_lines (Z.to_nat n_abs) instr_count None.

(** [strs[k] = dup] for the [n] slots from [k] on. *)
Fixpoint decode_site_name_loop (n : nat) (k : Z) : M () :=
  match n with
  | O => mret ()
  | S n =>
      nlen ← module_decode_varint_u;
      refuse (256 <? nlen) UCHUNK_LOAD_CORRUPT;;
      refuse_past nlen UCHUNK_LOAD_TRUNCATED;;
      p ← malloc (nlen + 1);
      match p with
      | None => err UCHUNK_LOAD_OOM
      | Some dup =>
          bs ← copy_in nlen;
          d ← cur_data;
          match site_name_strs d with
          | None => fault
          | Some (b, strs) =>
              strs ← of_option (store strs k (Some (dup, bs)));
              update (set_sites (site_count d) (Some (b, strs)));;
              advance nlen;;
              decode_site_name_loop n (k + 1)
          end
      end
  end.

Definition decode_site_names_into : M () :=
  count ← module_decode_varint_u;
  refuse (65535 <? count) UCHUNK_LOAD_CORRUPT;;
  s ← get;
  refuse (u64 (size - d_off s) <? count) UCHUNK_LOAD_CORRUPT;;
  update (fun d => set_sites (u16 count) (site_name_strs d) d);;
  if count =? 0 then update (set_sites (u16 count) None)
  else
    p ← malloc (count * sizeof_ptr);
    match p with
    | None => err UCHUNK_LOAD_OOM
    | Some b =>
        update (set_sites (u16 count) (Some (b, replicate (Z.to_nat count) None)));;
        decode_site_name_loop (Z.to_nat count) 0
    end.

(** ** Nested prototypes *)

(** Run [m] on the freshly appended child: the parent's last slot points at
    it, so whatever [m] did to it is there afterwards, error or not. *)
Definition on_child (child : UProto) (m : M ()) : M () := fun s =>
  let 'MkProto d n := d_cur s in
  let '(r, s) := m (with_cur child s) in
  (r, with_cur (MkProto d (n ++ [Some (d_cur s)])) s).

(** The growth of [parent->nested]: false when the allocator refuses. *)
Definition grow_nested : M bool :=
  s ← get;
  let 'MkProto d n := d_cur s in
  if nested_cap d <=? zlen n then
    let new_cap := if nested_cap d =? 0 then 4 else u64 (nested_cap d * 2) in
    match hrealloc (nested_ptr d) (new_cap * sizeof_ptr) (d_heap s) with
    | None => fault
    | Some (None, h) => modify (with_heap h);; mret false
    | Some (Some b, h) => modify (with_heap h);; update (set_nested_arr (Some b) new_cap);; mret true
    end
  else mret true.

(** One iteration of the children loop; [dec] is [decode_proto]. *)
Definition decode_child (dec : M ()) : M () := fun s =>
  let '(r, s') :=
    (modify (fun s => with_depth (d_depth s + 1) s);;
     s ← get;
     refuse (UCHUNK_MAX_PROTO_DEPTH <? d_depth s) UCHUNK_LOAD_CORRUPT;;
     ok ← grow_nested;
     refuse (negb ok) UCHUNK_LOAD_OOM;;
     child ← malloc sizeof_UProto;
     match child with
     | None => err UCHUNK_LOAD_OOM
     | Some b =>
         modify (fun s => with_serial (u16 (d_serial s + 1)) s);;
         s ← get;
         let 'MkProto d n := d_cur s in
         if zlen n <? nested_cap d then on_child (zero_proto b (d_serial s)) dec else fault
     end) s in
  (r, with_depth (d_depth s' - 1) s').

Definition decode_nested_protos_into (dec : M ()) : M () :=
  n_nested ← module_decode_varint_u;
  refuse (1024 <? n_nested) UCHUNK_LOAD_CORRUPT;;
  repeatM (Z.to_nat n_nested) (decode_child dec).

Definition decode_proto_header : M () :=
  refuse_past 3 UCHUNK_LOAD_TRUNCATED;;
  a ← next_byte; b ← next_byte; c ← next_byte;
  s ← get;
  let fl := d_arity_flag s in
  update (set_header a b c fl);;
  let hidden := if negb (fl =? 0) && (0 <? c) then 1 else 0 in
  refuse (a + 1 <? c + hidden) UCHUNK_LOAD_CORRUPT.

(** The children recurse through [dec]; the depth cap bounds the recursion,
    so [UCHUNK_MAX_PROTO_DEPTH + 1] levels are enough. *)
Fixpoint decode_proto (fuel : nat) : M () :=
  match fuel with
  | O => fault
  | S fuel =>
      decode_proto_header;;
      update (set_constants_owned true);;
      decode_constants_into;;
      decode_instructions_into;;
      decode_line_table_into;;
      decode_site_names_into;;
      decode_nested_protos_into (decode_proto fuel)
  end.

Definition decode_trailer : M () :=
  s ← get; refuse (negb (d_off s =? size)) UCHUNK_LOAD_CORRUPT.

(** ** Verification of the decoded tree *)

Definition decode_verify : M () := s ← get; e ← of_option (urbi_chunk_decode_verify (d_cur s)); code_of e.
Definition verify_bounds : M () :=
  s ← get;
  r ← of_option (urbi_chunk_verify_bounds (d_cur s) (d_heap s));
  modify (with_heap (snd r));;
  code_of (fst r).

Fixpoint set_root_backptr_recursive (is_root : bool) (p : UProto) : UProto :=
  let 'MkProto d n := p in
  MkProto (set_root (negb is_root) d)
    (map (fun o => match o with Some c => Some (set_root_backptr_recursive false c) | None => None end) n).

Definition decode_chunk : M () :=
  decode_header;;
  decode_metadata;;
  decode_proto 65;;
  decode_trailer;;
  decode_verify;;
  verify_bounds.
End Load.

(** ** Destruction *)

Definition opt_free (p : option nat) (h : heap) : option heap :=
  match p with Some b => hfree b h | None => Some h end.

Fixpoint free_owned_str_constants (l : list UConst) (h : heap) : option heap :=
  match l with
  | [] => Some h
  | K_STR (Some (b, _)) :: l => h ← hfree b h; free_owned_str_constants l h
  | _ :: l => free_owned_str_constants l h
  end.

Fixpoint free_site_names (l : list (option (nat * bytes))) (h : heap) : option heap :=
  match l with
  | [] => Some h
  | o :: l => h ← opt_free (fst <$> o) h; free_site_names l h
  end.

(** The buffers of one prototype, its [nested] array and children excepted. *)
Definition destroy_data (d : PData) (h : heap) : option heap :=
  h ← opt_free (v_ptr (instructions d)) h;
  h ← (if constants_owned d && bool_decide (v_ptr (constants d) <> None)
       then free_owned_str_constants (v_items (constants d)) h else Some h);
  h ← opt_free (v_ptr (constants d)) h;
  h ← opt_free (fst <$> line_deltas d) h;
  h ← opt_free (v_ptr (abs_lines d)) h;
  match site_name_strs d with
  | None => Some h
  | Some (b, l) => h ← free_site_names l h; hfree b h
  end.

Fixpoint uproto_destroy_buffers (p : UProto) (h : heap) : option heap :=
  let 'MkProto d n := p in
  h ← (match nested_ptr d with
       | None => Some h
       | Some b =>
           h ← (fix go (n : list (option UProto)) (h : heap) : option heap :=
                  match n with
                  | [] => Some h
                  | Some c :: n => h ← uproto_destroy_buffers c h; h ← hfree (p_self (pdata c)) h; go n h
                  | None :: n => go n h
                  end) n h;
           hfree b h
       end);
  destroy_data d h.

(** A loaded chunk: the root with its [source_name] and proto count. *)
Record UChunk := MkChunk { c_root : UProto; c_source : option (nat * bytes); c_total : Z }.

(** [uchunk_destroy] on a heap-allocated root, and the loader's [fail:]. *)
Definition free_chunk (root : UProto) (source : option (nat * bytes)) (h : heap) : option heap :=
  h ← opt_free (fst <$> source) h;
  h ← uproto_destroy_buffers root h;
  hfree (p_self (pdata root)) h.

Definition uchunk_destroy (root : option UChunk) (h : heap) : option heap :=
  match root with
  | None => Some h
  | Some c => free_chunk (c_root c) (c_source c) h
  end.

(** The outcome of a load: the code, the chunk when it is OK, the heap. *)
Record load_result := Loaded { l_code : UChunkLoadError; l_chunk : option UChunk; l_heap : heap }.

Definition uchunk_deserialize {A : Allocator} (out_root : bool) (buf : option bytes) (h : heap) : option load_result :=
  match out_root, buf with
  | true, Some buf =>
      match halloc sizeof_UProto h with
      | (None, h) => Some (Loaded UCHUNK_LOAD_OOM None h)
      | (Some rp, h) =>
          match decode_chunk buf (MkDState 0 0 0 0 h None (zero_proto rp 0)) with
          | (RFault, _) => None
          | (RErr e, s) => h ← free_chunk (d_cur s) (d_source s) (d_heap s); Some (Loaded e None h)
          | (ROk _, s) =>
              Some (Loaded UCHUNK_LOAD_OK
                      (Some (MkChunk (set_root_backptr_recursive true (d_cur s)) (d_source s) (u16 (d_serial s + 1))))
                      (d_heap s))
          end
      end
  | _, _ => Some (Loaded UCHUNK_LOAD_INVALID_ARG None h)
  end.
