(* ===== verification/LoadSafe.v ===== *)
(** * The loader on arbitrary bytes

    A weakest-precondition calculus for the decoder monad, and the
    invariant every step of a load keeps: the cursor stays in the buffer
    and the live blocks are exactly those the partial tree owns.  It gives
    memory safety, leak freedom on every failure, and the well-formedness
    of what a successful load returns. *)
From Stdlib Require Import Sorted.
From S2P Require Import Prelude Varint Instr Chunk Serialize Verify VerifySound Load.

(** ** Weakest preconditions *)

Definition wp {T} (m : M T) (Q : T -> DState -> Prop) (E : UChunkLoadError -> DState -> Prop) (s : DState) : Prop :=
  match m s with
  | (ROk x, s) => Q x s
  | (RErr e, s) => E e s
  | (RFault, _) => False
  end.

Lemma wp_bind {T U} (m : M T) (k : T -> M U) Q E s :
  wp m (fun x => wp (k x) Q E) E s -> wp (m ≫= k) Q E s.
Proof. unfold wp, mbind, M_bind. by destruct (m s) as [[x|e|] s']. Qed.

Ltac wpb := apply wp_bind.

Lemma wp_mono {T} (m : M T) (Q Q' : T -> DState -> Prop) (E E' : UChunkLoadError -> DState -> Prop) s :
  wp m Q E s -> (forall x s, Q x s -> Q' x s) -> (forall e s, E e s -> E' e s) -> wp m Q' E' s.
Proof. unfold wp. destruct (m s) as [[x|e|] s']; auto. Qed.

Lemma wp_bind_weak {T U} (m : M T) (k : T -> M U) Q (E E0 : UChunkLoadError -> DState -> Prop) s :
  (forall e s, E0 e s -> E e s) -> wp m (fun x => wp (k x) Q E) E0 s -> wp (m ≫= k) Q E s.
Proof. intros HE H. wpb. eapply wp_mono; eauto. Qed.

Lemma wp_ret {T} (x : T) (Q : T -> DState -> Prop) E s : Q x s -> wp (mret x) Q E s.
Proof. done. Qed.

Lemma wp_err {T} (Q : T -> DState -> Prop) (E : UChunkLoadError -> DState -> Prop) e s : E e s -> wp (err e) Q E s.
Proof. done. Qed.

Lemma wp_get (Q : DState -> DState -> Prop) E s : Q s s -> wp get Q E s.
Proof. done. Qed.

Lemma wp_modify f (Q : () -> DState -> Prop) E s : Q () (f s) -> wp (modify f) Q E s.
Proof. done. Qed.

Lemma wp_refuse b e (Q : () -> DState -> Prop) (E : UChunkLoadError -> DState -> Prop) s :
  (b = true -> E e s) -> (b = false -> Q () s) -> wp (refuse b e) Q E s.
Proof. unfold refuse. destruct b; intros; [by apply wp_err; auto|by apply wp_ret; auto]. Qed.

Lemma wp_of_option {T} (o : option T) x (Q : T -> DState -> Prop) E s : o = Some x -> Q x s -> wp (of_option o) Q E s.
Proof. by intros ->. Qed.

(** A counted loop; the invariant may speak of the turns left. *)
Lemma wp_repeat (body : M ()) (P : nat -> DState -> Prop) E :
  (forall k s, P (S k) s -> wp body (fun _ => P k) E s) ->
  forall n s, P n s -> wp (repeatM n body) (fun _ => P O) E s.
Proof. intros H n. induction n; intros s Hs; [done|]. apply wp_bind. eapply wp_mono; [by apply H| |done]. auto. Qed.

(** ** The heap *)

Section Heap.
Context {A : Allocator}.

Lemma wp_malloc n (Q : option nat -> DState -> Prop) E s :
  (forall h, h_live h = h_live (d_heap s) -> Q None (with_heap h s)) ->
  (forall b h, grant b (u64 n) = true -> h_live h = b :: h_live (d_heap s) -> Q (Some b) (with_heap h s)) ->
  wp (malloc n) Q E s.
Proof.
  unfold wp, malloc, halloc. intros Hn Hs. destruct (grant _ _) eqn:G; [apply Hs|apply Hn]; done.
Qed.

Lemma hrealloc_spec p n h K :
  h_live h ≡ₚ option_list p ++ K ->
  exists r h', hrealloc p n h = Some (r, h') /\
    match r with Some b => h_live h' ≡ₚ b :: K | None => h_live h' = h_live h end.
Proof.
  intros H. destruct p as [q|]; cbn [hrealloc option_list] in *.
  - destruct (remove1_of_perm q (h_live h) K H) as (live & -> & Hl). destruct (grant _ _).
    + eexists (Some _), _. split; [done|]. cbn. by rewrite Hl.
    + by eexists None, _.
  - unfold halloc. destruct (grant _ _); eexists _, _; split; try done. cbn. by rewrite H.
Qed.

Lemma hfree_spec b h K : h_live h ≡ₚ b :: K -> exists h', hfree b h = Some h' /\ h_live h' ≡ₚ K.
Proof. intros H. unfold hfree. destruct (remove1_of_perm b (h_live h) K H) as (live & -> & Hl). by eexists. Qed.
End Heap.

Lemma grow_target_spec fuel : forall t n, 0 < t -> n <= t * 2 ^ Z.of_nat fuel ->
  exists r, grow_target fuel t n = Some r /\ n <= r /\ 0 < r.
Proof.
  induction fuel as [|fuel IH]; intros t n Ht Hn; cbn [grow_target].
  - zcases; [lia|]. eexists. split; [done|lia].
  - rewrite Nat2Z.inj_succ, Z.pow_succ_r in Hn by lia. zcases.
    + eexists. split; [done|lia].
    + apply IH; lia.
    + eexists. split; [done|lia].
Qed.

(** ** Ownership *)

Definition source_blocks (s : DState) : list nat := option_list (fst <$> d_source s).

(** The arrays behind NULL pointers are empty, all through the tree. *)
Fixpoint ptrs_ok (p : UProto) : Prop :=
  let 'MkProto d n := p in
  (v_ptr (constants d) = None -> v_items (constants d) = []) /\
  (nested_ptr d = None -> n = []) /\
  (fix go (n : list (option UProto)) : Prop :=
     match n with
     | [] => True
     | Some c :: n => ptrs_ok c /\ go n
     | None :: n => go n
     end) n.

(** The child slots of a tree as blocks. *)
Definition child_blocks (o : option UProto) : list nat :=
  match o with Some c => proto_blocks c ++ [p_self (pdata c)] | None => [] end.

Lemma proto_blocks_eq d n :
  proto_blocks (MkProto d n) = mjoin (child_blocks <$> n) ++ option_list (nested_ptr d) ++ data_blocks d.
Proof.
  cbn [proto_blocks]. f_equal. induction n as [|[c|] n IH]; [done|..].
  - change (mjoin (child_blocks <$> Some c :: n)) with ((proto_blocks c ++ [p_self (pdata c)]) ++ mjoin (child_blocks <$> n)).
    by rewrite <- IH, <- (assoc_L (++)).
  - change (mjoin (child_blocks <$> None :: n)) with (mjoin (child_blocks <$> n)). by rewrite <- IH.
Qed.

Lemma ptrs_ok_eq d n :
  ptrs_ok (MkProto d n) <->
  (v_ptr (constants d) = None -> v_items (constants d) = []) /\ (nested_ptr d = None -> n = []) /\
  (forall c, Some c ∈ n -> ptrs_ok c).
Proof.
  cbn [ptrs_ok]. do 2 apply and_iff_compat_l. induction n as [|[c|] n IH].
  - split; [by intros _ c ?%elem_of_nil|done].
  - rewrite IH. split.
    + intros [Hc Hn] c' [[= ->]|]%elem_of_cons; auto.
    + intros H. split; [apply H; by left|]. intros c' Hc'. apply H. by right.
  - rewrite IH. split.
    + intros Hn c' [[=]|]%elem_of_cons; auto.
    + intros H c' Hc'. apply H. by right.
Qed.

(** ** Freeing a tree frees exactly its blocks *)

Fixpoint free_all (l : list nat) (h : heap) : option heap :=
  match l with [] => Some h | b :: l => h ← hfree b h; free_all l h end.

Lemma free_all_app l k h : free_all (l ++ k) h = h ← free_all l h; free_all k h.
Proof. revert h. induction l as [|b l IH]; intros h; cbn; [done|]. destruct (hfree b h); cbn; auto. Qed.

Lemma free_all_opt p h : free_all (option_list p) h = opt_free p h.
Proof. destruct p as [b|]; cbn; [|done]. by destruct (hfree b h). Qed.

Lemma free_all_one b h : free_all [b] h = hfree b h.
Proof. apply (free_all_opt (Some b)). Qed.

Lemma free_all_spec l : forall h K, h_live h ≡ₚ l ++ K -> exists h', free_all l h = Some h' /\ h_live h' ≡ₚ K.
Proof.
  induction l as [|b l IH]; intros h K H; cbn; [by eexists|].
  destruct (hfree_spec b h (l ++ K) H) as (h1 & -> & H1). by apply IH.
Qed.

Lemma free_consts l h : free_owned_str_constants l h = free_all (mjoin (const_blocks <$> l)) h.
Proof.
  revert h. induction l as [|k l IH]; intros h; [done|].
  destruct k as [| |[[b bs]|]|]; cbn; try apply IH. destruct (hfree b h); cbn; auto.
Qed.

Lemma free_names l h : free_site_names l h = free_all (mjoin ((fun o => option_list (fst <$> o)) <$> l)) h.
Proof.
  revert h. induction l as [|o l IH]; intros h; [done|]. cbn [free_site_names fmap list_fmap mjoin list_join].
  rewrite free_all_app, free_all_opt. destruct (opt_free _ h); cbn; auto.
Qed.

Lemma opt_bind_ext {T U} (o : option T) (f g : T -> option U) : (forall x, f x = g x) -> (o ≫= f) = (o ≫= g).
Proof. intros H. by destruct o; cbn. Qed.

Lemma destroy_data_blocks d h :
  (v_ptr (constants d) = None -> v_items (constants d) = []) -> destroy_data d h = free_all (data_blocks d) h.
Proof.
  intros Hp. unfold destroy_data, data_blocks, vec_blocks. rewrite !free_all_app.
  rewrite free_all_opt. apply opt_bind_ext. intros h1. rewrite free_all_app.
  assert (E : (if constants_owned d && bool_decide (v_ptr (constants d) <> None)
       then free_owned_str_constants (v_items (constants d)) h1 else Some h1)
    = free_all (if constants_owned d then mjoin (const_blocks <$> v_items (constants d)) else []) h1).
  { destruct (constants_owned d); [|done]. rewrite free_consts. destruct (v_ptr _) eqn:V; [done|]. by rewrite Hp. }
  rewrite E. apply opt_bind_ext. intros h2. rewrite !free_all_app, !free_all_opt.
  apply opt_bind_ext. intros h3. rewrite !free_all_app, !free_all_opt. apply opt_bind_ext. intros h4.
  rewrite free_all_app, free_all_opt. apply opt_bind_ext. intros h5. destruct (site_name_strs d) as [[b l]|]; [|done].
  rewrite free_all_app, free_names. apply opt_bind_ext. intros h6. by rewrite free_all_one.
Qed.

(** The loop over the children. *)
Definition destroy_children (n : list (option UProto)) (h : heap) : option heap :=
  (fix go (n : list (option UProto)) (h : heap) : option heap :=
     match n with
     | [] => Some h
     | Some c :: n => h ← uproto_destroy_buffers c h; h ← hfree (p_self (pdata c)) h; go n h
     | None :: n => go n h
     end) n h.

Lemma destroy_children_blocks n h :
  Forall (fun o => forall c, o = Some c -> forall h, uproto_destroy_buffers c h = free_all (proto_blocks c) h) n ->
  destroy_children n h = free_all (mjoin (child_blocks <$> n)) h.
Proof.
  intros H. revert h. induction H as [|o n Ho _ IH]; intros h; [done|].
  change (mjoin (child_blocks <$> o :: n)) with (child_blocks o ++ mjoin (child_blocks <$> n)).
  rewrite free_all_app. destruct o as [c|]; [|exact (IH h)].
  cbn [child_blocks]. rewrite free_all_app, <- (Ho c) by done.
  change (destroy_children (Some c :: n) h) with
    (h ← uproto_destroy_buffers c h; h ← hfree (p_self (pdata c)) h; destroy_children n h).
  destruct (uproto_destroy_buffers c h) as [h1|]; cbn [mbind option_bind]; [|done]. rewrite free_all_one.
  destruct (hfree _ h1); cbn [mbind option_bind]; [apply IH|done].
Qed.

Lemma destroy_blocks p : forall h, ptrs_ok p -> uproto_destroy_buffers p h = free_all (proto_blocks p) h.
Proof.
  induction p as [d n IH] using UProto_tree_ind. intros h Hp. rewrite proto_blocks_eq.
  apply ptrs_ok_eq in Hp as (Hk & Hn & Hc).
  change (uproto_destroy_buffers (MkProto d n) h) with
    (h ← (match nested_ptr d with None => Some h | Some b => h ← destroy_children n h; hfree b h end); destroy_data d h).
  assert (IH' : Forall (fun o => forall c, o = Some c -> forall h, uproto_destroy_buffers c h = free_all (proto_blocks c) h) n).
  { apply Forall_forall. intros o Ho c ->. intros h'. rewrite Forall_forall in IH. apply (IH _ Ho c eq_refl), Hc, Ho. }
  rewrite free_all_app, <- destroy_children_blocks by done.
  destruct (nested_ptr d) as [b|].
  - destruct (destroy_children n h) as [h1|]; cbn [mbind option_bind]; [|done]. rewrite free_all_app, free_all_opt.
    cbn [opt_free]. destruct (hfree b h1); cbn [mbind option_bind]; [by apply destroy_data_blocks|done].
  - rewrite (Hn eq_refl). by apply destroy_data_blocks.
Qed.

(** ** Well-formed prototypes: what the loader checks as it decodes *)

Definition const_wf (k : UConst) : Prop :=
  match k with
  | K_INT i => is_i64 i
  | K_FLOAT f => length f = 8%nat /\ is_bytes f
  | K_STR (Some (_, bs)) => is_bytes bs
  | _ => False
  end.

Record data_wf (d : PData) : Prop := {
  wf_max_reg : is_byte (max_reg d);
  wf_nupvals : is_byte (nupvals d);
  wf_nparams : is_byte (nparams d);
  wf_frame : nparams d + (if negb (arity_prologue d =? 0) && (0 <? nparams d) then 1 else 0) <= max_reg d + 1;
  wf_consts : Forall const_wf (v_items (constants d)) /\ v_count (constants d) <= 65536;
  wf_instrs : Forall is_u32 (v_items (instructions d)) /\ v_count (instructions d) <= 2 ^ 20;
  wf_deltas : match line_deltas d with
              | None => v_count (instructions d) = 0
              | Some (_, bs) => zlen bs = v_count (instructions d) /\ is_bytes bs
              end;
  wf_abs : Forall (fun a => 0 <= al_pc a < v_count (instructions d) /\ is_u32 (al_line a)) (v_items (abs_lines d));
  wf_abs_mono : StronglySorted Z.lt (al_pc <$> v_items (abs_lines d));
  wf_sites : match site_name_strs d with
             | None => site_count d = 0
             | Some (_, l) => zlen l = site_count d /\ site_count d <= 65535 /\
                 Forall (fun o => exists b bs, o = Some (b, bs) /\ is_bytes bs /\ zlen bs <= 256) l
             end }.

(** A tree of at most [k] levels. *)
Fixpoint proto_wf (k : nat) (p : UProto) : Prop :=
  match k with
  | O => False
  | S k => data_wf (pdata p) /\ zlen (nested p) <= 1024 /\
           Forall (fun o => exists c, o = Some c /\ proto_wf k c) (nested p)
  end.

(** ** Blocks attached by each assignment *)

Lemma blocks_push_const d k : constants_owned d = true ->
  data_blocks (set_constants (push (constants d) k) d) ≡ₚ const_blocks k ++ data_blocks d.
Proof.
  intros Ho. unfold data_blocks. cbn [set_constants constants constants_owned instructions line_deltas abs_lines site_name_strs].
  rewrite Ho. unfold push, vec_blocks. cbn [v_ptr v_items].
  rewrite fmap_app, join_app. cbn [fmap list_fmap mjoin list_join]. rewrite app_nil_r. solve_Permutation.
Qed.

Lemma blocks_grow_const d b cap : constants d = vnil ->
  data_blocks (set_constants (Vec (Some b) [] cap) d) ≡ₚ [b] ++ data_blocks d.
Proof.
  intros E. unfold data_blocks. cbn [set_constants constants constants_owned instructions line_deltas abs_lines site_name_strs].
  rewrite E. unfold vec_blocks. cbn [v_ptr v_items vnil option_list fmap list_fmap mjoin list_join].
  destruct (constants_owned d); solve_Permutation.
Qed.

Lemma blocks_grow_instrs d b cap : instructions d = vnil ->
  data_blocks (set_instructions (Vec (Some b) [] cap) d) ≡ₚ [b] ++ data_blocks d.
Proof. intros E. unfold data_blocks. cbn. rewrite E. done. Qed.

Lemma blocks_set_deltas d b bs : line_deltas d = None ->
  data_blocks (set_line_deltas (Some (b, bs)) d) ≡ₚ [b] ++ data_blocks d.
Proof.
  intros E. unfold data_blocks. cbn [set_line_deltas constants constants_owned instructions line_deltas abs_lines site_name_strs].
  rewrite E. cbn [fmap option_fmap option_map fst option_list]. solve_Permutation.
Qed.

Lemma blocks_grow_abs d b cap : abs_lines d = vnil ->
  data_blocks (set_abs_lines (Vec (Some b) [] cap) d) ≡ₚ [b] ++ data_blocks d.
Proof.
  intros E. unfold data_blocks. cbn [set_abs_lines constants constants_owned instructions line_deltas abs_lines site_name_strs].
  rewrite E. unfold vec_blocks. cbn [v_ptr vnil option_list]. solve_Permutation.
Qed.

Lemma blocks_set_sites d c m b : site_name_strs d = None ->
  data_blocks (set_sites c (Some (b, replicate m None)) d) ≡ₚ [b] ++ data_blocks d.
Proof.
  intros E. unfold data_blocks. cbn [set_sites constants constants_owned instructions line_deltas abs_lines site_name_strs].
  rewrite E. assert (Er : mjoin ((fun o : option (nat * bytes) => option_list (fst <$> o)) <$> replicate m None) = []).
  { induction m; [done|]. cbn. done. }
  rewrite Er. solve_Permutation.
Qed.

Lemma blocks_store_site d b l l' k x bs : site_name_strs d = Some (b, l) -> read l k = Some None ->
  store l k (Some (x, bs)) = Some l' ->
  data_blocks (set_sites (site_count d) (Some (b, l')) d) ≡ₚ [x] ++ data_blocks d.
Proof.
  intros E Hr Hs. unfold data_blocks. cbn [set_sites constants constants_owned instructions line_deltas abs_lines site_name_strs].
  rewrite E. unfold read, store in *. destruct (0 <=? k) eqn:Hk; [|done]. destruct (_ <? _) eqn:Hk2; [|done].
  injection Hs as <-. zbool. rewrite <- (take_drop_middle l (Z.to_nat k) None) at 2 by done.
  rewrite insert_take_drop by lia. rewrite !fmap_app, !join_app. cbn [fmap list_fmap mjoin list_join option_fmap option_map fst option_list].
  solve_Permutation.
Qed.

(** ** Sections of one prototype *)

Section Sections.
Context {A : Allocator} {AOk : AllocatorOk A}.
Variable buf : bytes.
Hypothesis Hbuf : is_bytes buf.
Hypothesis Hsize : zlen buf <= PTRDIFF_MAX.

(** What a section leaves alone: the context, the children, and the blocks
    [R] owned elsewhere. *)
Variables (dep ar ser : Z) (src : option (nat * bytes)) (n : list (option UProto)).
Variable R : list nat.
Variable F : nat * option nat * Z * Z * bool.

Definition St (o : Z) (h : heap) (d : PData) : DState := MkDState o dep ar ser h src (MkProto d n).
Definition frame_of (d : PData) := (p_self d, nested_ptr d, nested_cap d, proto_index d, has_root d).

Definition good (o : Z) (h : heap) (d : PData) : Prop :=
  0 <= o <= zlen buf /\ h_live h ≡ₚ data_blocks d ++ R /\
  (v_ptr (constants d) = None -> v_items (constants d) = []) /\ frame_of d = F.

Definition bad (e : UChunkLoadError) (s : DState) : Prop :=
  e <> OK /\ exists o h d, s = St o h d /\ good o h d.

Lemma bad_intro e o h d : e <> OK -> good o h d -> bad e (St o h d).
Proof. intros He Hg. split; [done|]. by exists o, h, d. Qed.

Lemma good_off o o' h d : good o h d -> 0 <= o' <= zlen buf -> good o' h d.
Proof. intros (_ & ?) ?. done. Qed.

Lemma good_heap o h h' d : good o h d -> h_live h' = h_live h -> good o h' d.
Proof. intros (? & ? & ?) E. split; [done|]. by rewrite E. Qed.

(** Attaching the blocks [K]. *)
Lemma good_attach K o h h' d d' :
  good o h d -> h_live h' ≡ₚ K ++ h_live h -> data_blocks d' ≡ₚ K ++ data_blocks d ->
  (v_ptr (constants d') = None -> v_items (constants d') = []) -> frame_of d' = frame_of d -> good o h' d'.
Proof.
  intros (Ho & Hl & _ & Hf) Eh Ed Hp Ef. split; [done|]. split; [|split; [done|congruence]].
  rewrite Eh, Ed, Hl. by rewrite (assoc_L (++)).
Qed.

Lemma size_64 : zlen buf < 2 ^ 63.
Proof. unfold PTRDIFF_MAX in Hsize. lia. Qed.

Lemma wp_varint_gen (dec : bytes -> Z -> UVarintResult) (P : Z -> Prop) o h d (Q : Z -> DState -> Prop) :
  (forall l m, is_bytes l -> m <= zlen l ->
     match dec l m with UVARINT_OK v c => P v /\ 1 <= c <= 10 /\ c <= m | UVARINT_FAULT => False | _ => True end) ->
  good o h d ->
  (forall v c, P v -> 1 <= c -> o + c <= zlen buf -> good (o + c) h d -> Q v (St (o + c) h d)) ->
  wp (s ← get; varint_error_to_module_error (dec (rest_of buf s) (u64 (zlen buf - d_off s))) (fun v c => advance c;; mret v))
    Q bad (St o h d).
Proof.
  intros Hdec Hg HQ. wpb. apply wp_get. cbn [d_off St]. pose proof size_64. destruct Hg as (Ho & Hg').
  assert (Eb : is_bytes (rest_of buf (St o h d))) by (by apply Forall_drop).
  assert (El : zlen (rest_of buf (St o h d)) = zlen buf - o).
  { unfold zlen, rest_of. cbn [d_off St]. rewrite length_drop. unfold zlen in Ho. lia. }
  rewrite u64_small by lia. specialize (Hdec _ (zlen buf - o) Eb ltac:(lia)).
  destruct (dec _ _) as [v c| | |]; cbn [varint_error_to_module_error]; try done.
  - destruct Hdec as (HP & Hc & Hco). wpb. apply wp_modify, wp_ret. cbn [d_off St].
    rewrite u64_small by lia. apply HQ; try done; try lia. split; [lia|done].
  - apply bad_intro; [done|]. by split.
  - apply bad_intro; [done|]. by split.
Qed.

Lemma wp_varint_u o h d (Q : Z -> DState -> Prop) :
  good o h d ->
  (forall v c, is_u64 v -> 1 <= c -> o + c <= zlen buf -> good (o + c) h d -> Q v (St (o + c) h d)) ->
  wp (module_decode_varint_u buf) Q bad (St o h d).
Proof. apply wp_varint_gen. apply uvarint_decode_u_bounds. Qed.

Lemma wp_varint_zz o h d (Q : Z -> DState -> Prop) :
  good o h d ->
  (forall v c, is_i64 v -> 1 <= c -> o + c <= zlen buf -> good (o + c) h d -> Q v (St (o + c) h d)) ->
  wp (module_decode_varint_zz buf) Q bad (St o h d).
Proof. apply wp_varint_gen. apply uvarint_decode_zz_bounds. Qed.

Lemma wp_refuse_good b e o h d (Q : () -> DState -> Prop) :
  e <> OK -> good o h d -> (b = false -> Q () (St o h d)) -> wp (refuse b e) Q bad (St o h d).
Proof. intros. apply wp_refuse; [|done]. intros _. by apply bad_intro. Qed.

Lemma wp_refuse_past k e o h d (Q : () -> DState -> Prop) :
  e <> OK -> good o h d -> (u64 (o + k) <= zlen buf -> Q () (St o h d)) ->
  wp (refuse_past buf k e) Q bad (St o h d).
Proof.
  intros He Hg HQ. unfold refuse_past, past_end. wpb. wpb. apply wp_get. apply wp_ret.
  apply wp_refuse_good; [done|done|]. intros ?. zbool. by apply HQ.
Qed.

Lemma past_small o k : 0 <= o <= zlen buf -> 0 <= k < 2 ^ 63 -> u64 (o + k) <= zlen buf -> o + k <= zlen buf.
Proof. pose proof size_64. intros ? ?. rewrite u64_small by lia. done. Qed.

Lemma wp_advance k o h d (Q : () -> DState -> Prop) E :
  0 <= o -> 0 <= k -> o + k <= zlen buf -> Q () (St (o + k) h d) -> wp (advance k) Q E (St o h d).
Proof. intros. pose proof size_64. apply wp_modify. cbn [d_off St]. rewrite u64_small by lia. done. Qed.

Lemma wp_peek k o h d (Q : Z -> DState -> Prop) E :
  0 <= o + k < zlen buf -> (forall b, is_byte b -> read buf (o + k) = Some b -> Q b (St o h d)) -> wp (peek buf k) Q E (St o h d).
Proof.
  intros Hk HQ. unfold peek. wpb. apply wp_get. cbn [d_off St]. destruct (read_is_Some buf (o + k) Hk) as [b Hb].
  apply (wp_of_option _ b); [done|]. apply HQ; [|done]. by eapply read_byte.
Qed.

Lemma wp_copy_in k o h d (Q : bytes -> DState -> Prop) E :
  0 <= o -> 0 <= k -> o + k <= zlen buf ->
  (forall bs, is_bytes bs -> zlen bs = k -> bs = take (Z.to_nat k) (drop (Z.to_nat o) buf) -> Q bs (St o h d)) ->
  wp (copy_in buf k) Q E (St o h d).
Proof.
  intros Ho Hk Hs HQ. unfold copy_in. wpb. apply wp_get. cbn [d_off St]. zcases; [|lia..].
  apply wp_ret, HQ; [by apply Forall_take, Forall_drop| |done].
  unfold zlen in *. rewrite length_take, length_drop. lia.
Qed.

(** An allocator that obeys its laws only serves sizes that did not wrap
    past [PTRDIFF_MAX]. *)
Lemma grant_small k m : grant k (u64 m) = true -> 0 < u64 m <= PTRDIFF_MAX.
Proof.
  intros H. assert (0 <= u64 m < 2 ^ 64) by (apply Z.mod_pos_bound; lia).
  destruct (decide (u64 m = 0)) as [E|]; [rewrite E, grant_zero in H; done|].
  destruct (decide (PTRDIFF_MAX < u64 m)) as [E|]; [|lia]. rewrite (grant_max _ _ E) in H. done.
Qed.

(** The truncation test and the allocator together bound a string length:
    a sum that wrapped leads to a request no allocator serves. *)
Lemma string_fits k b o : 0 <= o <= zlen buf -> is_u64 k -> u64 (o + k) <= zlen buf ->
  grant b (u64 (k + 1)) = true -> o + k <= zlen buf.
Proof.
  intros Ho Hk Hp Hg%grant_small. pose proof size_64.
  assert (k < 2 ^ 63).
  { destruct (decide (k = 2 ^ 64 - 1)) as [->|]; [change (u64 (2 ^ 64 - 1 + 1)) with 0 in Hg; lia|]. rewrite u64_small in Hg by lia.
    unfold PTRDIFF_MAX in *. lia. }
  apply past_small; [done|lia|done].
Qed.

Lemma wp_grow_nil {T} m elem o h d (Q : option (vec T) -> DState -> Prop) E :
  0 < m <= 2 ^ 20 -> 0 < elem <= 16 ->
  (forall h', h_live h' = h_live h -> Q None (St o h' d)) ->
  (forall b h' cap, h_live h' = b :: h_live h -> m <= cap -> Q (Some (Vec (Some b) [] cap)) (St o h' d)) ->
  wp (module_grow_with_alloc vnil m elem) Q E (St o h d).
Proof.
  intros Hm He Hn Hs. unfold module_grow_with_alloc. cbn [vnil v_cap v_ptr v_items]. zcase; [lia|]. zcase; [by apply wp_ret, Hn|].
  change (if 0 =? 0 then 8 else 0) with 8. wpb. destruct (grow_target_spec 64 8 m ltac:(lia)) as (r & Hr & Hmr & _); [change (Z.of_nat 64) with 64; lia|].
  apply (wp_of_option _ r); [done|]. zcase; [by apply wp_ret, Hn|]. wpb. apply wp_get.
  cbn [d_heap St hrealloc]. unfold halloc. destruct (grant _ _).
  - wpb. apply wp_modify, wp_ret. by apply Hs.
  - wpb. apply wp_modify, wp_ret. by apply Hn.
Qed.

Lemma wp_malloc_st m o h d (Q : option nat -> DState -> Prop) E :
  (forall h', h_live h' = h_live h -> Q None (St o h' d)) ->
  (forall b h', grant b (u64 m) = true -> h_live h' = b :: h_live h -> Q (Some b) (St o h' d)) ->
  wp (malloc m) Q E (St o h d).
Proof. intros Hn Hs. apply wp_malloc; [apply Hn|apply Hs]. Qed.

(** Allocate or fail with OOM. *)
Lemma wp_malloc_oom {T} m (k : nat -> M T) o h d (Q : T -> DState -> Prop) :
  good o h d ->
  (forall b h', grant b (u64 m) = true -> h_live h' = b :: h_live h -> wp (k b) Q bad (St o h' d)) ->
  wp (p ← malloc m; match p with None => err UCHUNK_LOAD_OOM | Some b => k b end) Q bad (St o h d).
Proof.
  intros Hg Hk. wpb. apply wp_malloc_st; [|by apply Hk]. intros h' Hh'. apply bad_intro; [done|]. by eapply good_heap.
Qed.

(** *** Constants *)

Definition const_state (d0 : PData) (left : nat) (s : DState) : Prop :=
  exists o h v, s = St o h (set_constants v d0) /\ good o h (set_constants v d0) /\ Forall const_wf (v_items v) /\
    (v_ptr v = None -> left = O) /\ v_count v + Z.of_nat left <= v_cap v /\ v_count v + Z.of_nat left <= 65536.

Lemma const_state_push o h h' v d0 left k :
  constants_owned d0 = true -> const_state d0 (S left) (St o h (set_constants v d0)) ->
  const_wf k -> h_live h' = const_blocks k ++ h_live h ->
  const_state d0 left (St o h' (set_constants (push v k) d0)).
Proof.
  intros Ho (o' & h0 & v' & E & Hg & Hv & Hp & Hc1 & Hc2) Hk Hh.
  injection E as <- <- <-.
  exists o, h', (push v k). split; [done|]. split.
  { eapply good_attach; [exact Hg|by rewrite Hh|by apply (blocks_push_const (set_constants v d0))| |done].
    cbn. intros E. by specialize (Hp E). }
  split; [apply Forall_app; by split; [|constructor]|]. split; [intros E; by specialize (Hp E)|].
  unfold v_count, push in *. cbn [v_items v_cap]. rewrite length_app. cbn [length]. lia.
Qed.

Lemma const_state_off d0 left o o' h v : const_state d0 left (St o h (set_constants v d0)) -> 0 <= o' <= zlen buf ->
  const_state d0 left (St o' h (set_constants v d0)).
Proof.
  intros (o1 & h1 & v1 & E & Hg & H) Ho. injection E as <- <- <-.
  exists o', h, v. split; [done|]. split; [by eapply good_off|done].
Qed.

Lemma wp_decode_constant d0 left s :
  constants_owned d0 = true -> const_state d0 (S left) s ->
  wp (decode_constant buf) (fun _ => const_state d0 left) bad s.
Proof.
  intros Ho Hs. pose proof Hs as (o & h & v & -> & Hg & Hv & Hp & Hc1 & Hc2). pose proof (proj1 Hg) as Hoff.
  unfold decode_constant. wpb. apply wp_refuse_past; [done|done|]. intros Hb%past_small; [|lia..].
  wpb. unfold next_byte. wpb. apply wp_peek; [lia|]. intros kind Hkind _. wpb. apply wp_advance; [lia..|].
  apply wp_ret. wpb. assert (Hg1 : good (o + 1) h (set_constants v d0)) by (eapply good_off; [done|lia]).
  apply wp_refuse_good; [done|done|]. intros Hmax. wpb. unfold cur_data. wpb. apply wp_get, wp_ret.
  change (constants (pdata (d_cur (St (o + 1) h (set_constants v d0))))) with v.
  wpb. unfold has_slot. zcase; [|lia]. apply wp_ret. wpb.
  assert (Hpush : forall o' h' k, 0 <= o' <= zlen buf -> const_wf k -> h_live h' = const_blocks k ++ h_live h ->
    wp (update (fun d => set_constants (push (constants d) k) d)) (fun _ => const_state d0 left) bad (St o' h' (set_constants v d0))).
  { intros o' h' k Ho' Hk Hh. apply wp_modify.
    change (const_state d0 left (St o' h' (set_constants (push v k) d0))).
    eapply const_state_push; [done| |done|done]. by eapply const_state_off. }
  zcase; [|zcase; [|zcase]].
  - wpb. apply wp_varint_zz; [done|]. intros i c Hi _ Hc Hg2. apply wp_ret, Hpush; [exact (proj1 Hg2)|done|done].
  - wpb. apply wp_refuse_past; [done|done|]. intros Hb8%past_small; [|lia..]. wpb. apply wp_copy_in; [lia..|].
    intros bs Hbs Hl _. wpb. apply wp_advance; [lia..|]. apply wp_ret, Hpush; [lia| |done].
    split; [unfold zlen in Hl; lia|done].
  - wpb. apply wp_varint_u; [done|]. intros slen c Hi _ Hc Hg2. wpb. apply wp_refuse_past; [done|done|]. intros Hpast.
    apply wp_malloc_oom; [done|]. intros b h' Hgr Hh'.
    assert (Hfit : o + 1 + c + slen <= zlen buf) by (eapply string_fits; [exact (proj1 Hg2)|done..]).
    destruct Hg2 as [? _]. wpb. apply wp_copy_in; [lia..|]. intros bs Hbs Hl _. wpb. apply wp_advance; [lia..|].
    apply wp_ret, Hpush; [lia|done|done].
  - by apply bad_intro.
Qed.

Lemma set_constants_same d : set_constants (constants d) d = d.
Proof. by destruct d. Qed.
Lemma set_instructions_same d : set_instructions (instructions d) d = d.
Proof. by destruct d. Qed.
Lemma set_abs_lines_same d : set_abs_lines (abs_lines d) d = d.
Proof. by destruct d. Qed.

(** The step that sizes an empty array for [m] elements. *)
Lemma wp_grow_field {T} (field : PData -> vec T) (set : vec T -> PData -> PData) m elem o h d (Q : () -> DState -> Prop) :
  field d = vnil -> 0 <= m <= 2 ^ 20 -> 0 < elem <= 16 -> good o h d ->
  (forall b cap, data_blocks (set (Vec (Some b) [] cap) d) ≡ₚ [b] ++ data_blocks d /\
     frame_of (set (Vec (Some b) [] cap) d) = frame_of d /\
     (v_ptr (constants (set (Vec (Some b) [] cap) d)) = None -> v_items (constants (set (Vec (Some b) [] cap) d)) = [])) ->
  set vnil d = d ->
  (forall h' v, v_items v = [] -> m <= v_cap v -> (v_ptr v = None -> m = 0) -> good o h' (set v d) -> Q () (St o h' (set v d))) ->
  wp (if 0 <? m then
        d ← cur_data;
        v ← module_grow_with_alloc (field d) m elem;
        match v with None => err UCHUNK_LOAD_OOM | Some v => update (set v) end
      else mret ()) Q bad (St o h d).
Proof.
  intros Ef Hm He Hg Hset Hnil HQ. zcase.
  - wpb. unfold cur_data. wpb. apply wp_get, wp_ret. cbn [d_cur St pdata]. rewrite Ef. wpb. apply wp_grow_nil; [lia|lia|..].
    + intros h' Hh'. apply bad_intro; [done|]. by eapply good_heap.
    + intros b h' cap Hh' Hcap. apply wp_modify. destruct (Hset b cap) as (Hb & Hf & Hp).
      change (Q () (St o h' (set (Vec (Some b) [] cap) d))).
      apply HQ; [done|done|done|]. eapply good_attach; [exact Hg| |exact Hb|exact Hp|exact Hf]. by rewrite Hh'.
  - apply wp_ret. rewrite <- Hnil. apply HQ; [done|cbn; lia|lia|]. by rewrite Hnil.
Qed.

Lemma wp_decode_constants o h d (Q : () -> DState -> Prop) :
  constants d = vnil -> constants_owned d = true -> good o h d ->
  (forall o' h' v, good o' h' (set_constants v d) -> Forall const_wf (v_items v) -> v_count v <= 65536 ->
     Q () (St o' h' (set_constants v d))) ->
  wp (decode_constants_into buf) Q bad (St o h d).
Proof.
  intros En Ho Hg HQ. unfold decode_constants_into. wpb. apply wp_varint_u; [done|]. intros m c Hm _ Hc Hg1.
  wpb. apply wp_refuse_good; [done|done|]. intros Hmax. zbool. unfold UINT16_MAX in Hmax. wpb.
  apply (wp_grow_field constants set_constants); [done|lia|unfold sizeof_UValue; lia|done| |by rewrite <- En, set_constants_same|].
  { intros b cap. split; [by apply blocks_grow_const|done]. }
  intros h' v Hv Hcap Hp Hg2. eapply (wp_mono _ (fun _ => const_state d O) _ bad).
  - apply wp_repeat; [intros; by apply wp_decode_constant|]. exists (o + c), h', v.
    split; [done|]. split; [done|]. rewrite Hv. split; [done|]. split; [intros E; specialize (Hp E); lia|].
    unfold v_count. rewrite Hv. cbn [length]. lia.
  - intros [] s (o' & h1 & v' & -> & Hg' & Hv' & _ & _ & Hc2). apply HQ; [done|done|]. lia.
  - done.
Qed.

(** *** Instructions *)

Lemma wp_skip_padding fuel : forall o h d (Q : () -> DState -> Prop),
  good o h d -> (- o) mod 4 <= Z.of_nat fuel ->
  (forall o', good o' h d -> Q () (St o' h d)) ->
  wp (skip_padding buf fuel) Q bad (St o h d).
Proof.
  assert (Hz : forall o, Z.land o 3 <> 0 -> (- o) mod 4 = (- (o + 1)) mod 4 + 1) by (intros o; rewrite land_3; apply pad_succ).
  induction fuel as [|fuel IH]; intros o h d Q Hg Hf HQ; cbn [skip_padding]; wpb; apply wp_get; cbn [d_off St]; zcase.
  - by apply wp_ret, HQ.
  - rewrite Hz in Hf by done. pose proof (Z.mod_pos_bound (- (o + 1)) 4). lia.
  - by apply wp_ret, HQ.
  - wpb. apply wp_refuse_good; [done|done|]. intros Hlt. zbool. pose proof (proj1 Hg). wpb.
    apply wp_peek; [lia|]. intros b _ _. wpb. apply wp_refuse_good; [done|done|]. intros _. wpb.
    apply wp_advance; [lia..|]. apply IH; [eapply good_off; [done|lia]| |done]. rewrite Hz in Hf by done. lia.
Qed.

Definition instr_state (d0 : PData) (left : nat) (s : DState) : Prop :=
  exists o h v, s = St o h (set_instructions v d0) /\ good o h (set_instructions v d0) /\ Forall is_u32 (v_items v) /\
    v_count v + Z.of_nat left <= v_cap v /\ v_count v + Z.of_nat left <= 2 ^ 20.

(** The word assembled from four bytes. *)
Lemma le_word b0 b1 b2 b3 : is_byte b0 -> is_byte b1 -> is_byte b2 -> is_byte b3 ->
  Z.lor (Z.lor (Z.lor b0 (u32 (Z.shiftl b1 8))) (u32 (Z.shiftl b2 16))) (u32 (Z.shiftl b3 24))
  = b0 + b1 * 2 ^ 8 + b2 * 2 ^ 16 + b3 * 2 ^ 24.
Proof.
  unfold is_byte. intros. assert (E : forall b k, 0 <= b < 256 -> 0 <= k <= 24 -> u32 (Z.shiftl b k) = Z.shiftl b k).
  { intros b k Hb Hk. apply u32_small. rewrite Z.shiftl_mul_pow2 by lia. split; [apply Z.mul_nonneg_nonneg; lia|].
    apply (Z.le_lt_trans _ (255 * 2 ^ 24)); [|lia]. apply Z.mul_le_mono_nonneg; [lia|lia|lia|]. apply Z.pow_le_mono_r; lia. }
  rewrite !E by lia. rewrite (lor_shiftl b0 b1 8), (lor_shiftl _ b2 16), (lor_shiftl _ b3 24); lia.
Qed.

Lemma wp_decode_instruction d0 left s :
  instr_state d0 (S left) s -> wp (decode_instruction buf) (fun _ => instr_state d0 left) bad s.
Proof.
  intros (o & h & v & -> & Hg & Hv & Hc1 & Hc2). pose proof (proj1 Hg) as Hoff. unfold decode_instruction.
  wpb. apply wp_refuse_past; [done|done|]. intros Hb%past_small; [|lia..]. wpb. unfold cur_data. wpb. apply wp_get, wp_ret.
  change (instructions (pdata (d_cur (St o h (set_instructions v d0))))) with v.
  wpb. unfold has_slot. zcase; [|lia]. apply wp_ret.
  wpb. apply wp_peek; [lia|]. intros b0 H0 _. wpb. apply wp_peek; [lia|]. intros b1 H1 _.
  wpb. apply wp_peek; [lia|]. intros b2 H2 _. wpb. apply wp_peek; [lia|]. intros b3 H3 _.
  wpb. apply wp_modify. rewrite le_word by done. set (w := _ + b3 * 2 ^ 24).
  apply (wp_advance 4 o h (set_instructions (push v w) d0)); [lia..|].
  exists (o + 4), h, (push v w). split; [done|]. split.
  { eapply good_off; [|lia]. destruct Hg as (? & ? & ? & ?). done. }
  split. { apply Forall_app. split; [done|]. constructor; [|constructor]. unfold w, is_u32, is_byte in *. lia. }
  unfold v_count, push in *. cbn [v_items v_cap]. rewrite length_app. cbn [length]. lia.
Qed.

Lemma wp_decode_instructions o h d (Q : () -> DState -> Prop) :
  instructions d = vnil -> good o h d ->
  (forall o' h' v, good o' h' (set_instructions v d) -> Forall is_u32 (v_items v) -> v_count v <= 2 ^ 20 ->
     Q () (St o' h' (set_instructions v d))) ->
  wp (decode_instructions_into buf) Q bad (St o h d).
Proof.
  intros En Hg HQ. unfold decode_instructions_into. wpb. apply wp_varint_u; [done|]. intros m c Hm _ Hc Hg1.
  wpb. apply wp_refuse_good; [done|done|]. intros Hmax. zbool. unfold URBI_MAX_INSTRS_PER_PROTO in Hmax. wpb.
  apply wp_skip_padding; [done|pose proof (Z.mod_pos_bound (- (o + c)) 4); lia|]. intros o1 Hg2. wpb.
  apply (wp_grow_field instructions set_instructions); [done|lia|lia|done| |by rewrite <- En, set_instructions_same|].
  { intros b cap. split; [by apply blocks_grow_instrs|]. split; [done|]. apply Hg. }
  intros h' v Hv Hcap Hp Hg3. eapply (wp_mono _ (fun _ => instr_state d O) _ bad).
  - apply wp_repeat; [intros; by apply wp_decode_instruction|]. exists o1, h', v.
    split; [done|]. split; [done|]. rewrite Hv. split; [done|]. unfold v_count. rewrite Hv. cbn [length]. lia.
  - intros [] s (o' & h1 & v' & -> & Hg' & Hv' & _ & Hc2). apply HQ; [done|done|]. lia.
  - done.
Qed.

(** *** Line table *)

Definition abs_state (d0 : PData) (cnt : Z) (left : nat) (prev : option Z) (o : Z) (h : heap) (v : vec UAbsLine) : Prop :=
  good o h (set_abs_lines v d0) /\
  Forall (fun a => 0 <= al_pc a < cnt /\ is_u32 (al_line a)) (v_items v) /\
  StronglySorted Z.lt (al_pc <$> v_items v) /\
  match prev with None => v_items v = [] | Some q => Forall (fun a => al_pc a <= q) (v_items v) end /\
  v_count v + Z.of_nat left <= v_cap v.

Lemma sorted_snoc (l : list Z) x : StronglySorted Z.lt l -> Forall (fun y => y < x) l -> StronglySorted Z.lt (l ++ [x]).
Proof.
  induction 1 as [|y l Hs IH Hy]; intros Hx; cbn; [repeat constructor|].
  apply Forall_cons in Hx as [Hyx Hx]. constructor; [by apply IH|]. apply Forall_app. split; [done|]. by constructor.
Qed.

Lemma abs_state_push d0 cnt left prev o h v pc line :
  abs_state d0 cnt (S left) prev o h v -> 0 <= pc < cnt -> is_u32 line ->
  match prev with Some q => q < pc | None => True end ->
  abs_state d0 cnt left (Some pc) o h (push v (AbsLine pc line)).
Proof.
  intros (Hg & Hr & Hs & Hp & Hc) Hpc Hl Hq.
  assert (Hlt : Forall (fun a => al_pc a < pc) (v_items v)).
  { destruct prev as [q|]; [|by rewrite Hp]. eapply Forall_impl; [exact Hp|]. cbn. lia. }
  split; [destruct Hg as (? & ? & ? & ?); done|]. unfold push; cbn [v_items v_cap]. split; [|split; [|split]].
  - apply Forall_app. split; [done|]. by constructor.
  - rewrite fmap_app. apply sorted_snoc; [done|]. by apply Forall_fmap.
  - apply Forall_app. split; [|constructor; [cbn; lia|constructor]]. eapply Forall_impl; [exact Hlt|]. cbn. lia.
  - unfold v_count in *. cbn [v_items]. rewrite length_app. cbn [length]. lia.
Qed.

Lemma wp_decode_abs_lines d0 cnt left : forall prev o h v (Q : () -> DState -> Prop),
  cnt <= 2 ^ 20 -> abs_state d0 cnt left prev o h v ->
  (forall o' v' p', abs_state d0 cnt O p' o' h v' -> Q () (St o' h (set_abs_lines v' d0))) ->
  wp (decode_abs_lines buf left cnt prev) Q bad (St o h (set_abs_lines v d0)).
Proof.
  induction left as [|left IH]; intros prev o h v Q Hcnt Hst HQ; cbn [decode_abs_lines].
  { apply wp_ret. by eapply HQ. }
  pose proof Hst as (Hg & _ & _ & _ & Hc). wpb. apply wp_varint_u; [done|]. intros pc c1 Hpc _ Hc1 Hg1.
  wpb. apply wp_varint_u; [done|]. intros line c2 Hline _ Hc2 Hg2.
  wpb. apply wp_refuse_good; [done|done|]. intros Hlt. zbool. rewrite (u32_small pc) by lia.
  wpb. apply wp_refuse_good; [done|done|]. intros Hprev. wpb. unfold cur_data. wpb. apply wp_get, wp_ret.
  change (abs_lines (pdata (d_cur (St (o + c1 + c2) h (set_abs_lines v d0))))) with v.
  wpb. unfold has_slot. zcase; [|lia]. apply wp_ret. wpb. apply wp_modify.
  change (wp (decode_abs_lines buf left cnt (Some pc)) Q bad
    (St (o + c1 + c2) h (set_abs_lines (push v (AbsLine pc (u32 line))) d0))).
  apply IH; [done| |done]. eapply abs_state_push.
  - destruct Hst as (_ & Hr). split; [exact Hg2|exact Hr].
  - lia.
  - unfold is_u32, u32. apply Z.mod_pos_bound. lia.
  - destruct prev; [|done]. by zbool.
Qed.

Definition deltas_wf (x : option (nat * bytes)) (cnt : Z) : Prop :=
  match x with None => cnt = 0 | Some (_, bs) => zlen bs = cnt /\ is_bytes bs end.

Lemma good_deltas o h d b bs bs' : good o h (set_line_deltas (Some (b, bs)) d) -> good o h (set_line_deltas (Some (b, bs')) d).
Proof. done. Qed.

Lemma wp_decode_line_table o h d (Q : () -> DState -> Prop) :
  line_deltas d = None -> abs_lines d = vnil -> v_count (instructions d) <= 2 ^ 20 -> good o h d ->
  (forall o' h' x v, let d' := set_abs_lines v (set_line_deltas x d) in
     good o' h' d' -> deltas_wf x (v_count (instructions d)) ->
     Forall (fun a => 0 <= al_pc a < v_count (instructions d) /\ is_u32 (al_line a)) (v_items v) ->
     StronglySorted Z.lt (al_pc <$> v_items v) -> Q () (St o' h' d')) ->
  wp (decode_line_table_into buf) Q bad (St o h d).
Proof.
  intros Ed Ea Hcnt Hg HQ. unfold decode_line_table_into. wpb. unfold cur_data at 1. wpb. apply wp_get, wp_ret.
  cbn [d_cur St pdata]. set (cnt := v_count (instructions d)) in *. wpb. apply wp_varint_u; [done|]. intros m c Hm _ Hc Hg1.
  wpb. apply wp_refuse_good; [done|done|]. intros Hneq. zbool. subst m. wpb.
  eapply (wp_mono _ (fun _ s => exists o' h' x, s = St o' h' (set_line_deltas x d) /\ good o' h' (set_line_deltas x d) /\ deltas_wf x cnt) _ bad).
  { zcase.
    - apply wp_malloc_oom; [done|]. intros b h' _ Hh'. wpb. apply wp_modify.
      assert (Hg2 : good (o + c) h' (set_line_deltas (Some (b, [])) d)).
      { eapply (good_attach [b]); [exact Hg1|by rewrite Hh'|by apply blocks_set_deltas|apply Hg|done]. }
      change (with_data (set_line_deltas (Some (b, []))) (St (o + c) h' d)) with (St (o + c) h' (set_line_deltas (Some (b, [])) d)).
      wpb. apply wp_refuse_past; [done|done|]. intros Hp%past_small; [|apply Hg2|lia]. pose proof (proj1 Hg2).
      wpb. apply wp_copy_in; [lia..|]. intros bs Hbs Hl _. wpb. apply wp_modify.
      apply (wp_advance cnt (o + c) h' (set_line_deltas (Some (b, bs)) d)); [lia..|].
      exists (o + c + cnt), h', (Some (b, bs)). split; [done|]. split; [|done].
      eapply good_off; [|lia]. by apply (good_deltas _ _ _ b []).
    - apply wp_ret. exists (o + c), h, None. assert (E : set_line_deltas None d = d) by (rewrite <- Ed; by destruct d).
      rewrite E. split; [done|]. split; [done|]. cbn. unfold v_count in *. lia. }
  2: done.
  intros [] s (o' & h' & x & -> & Hg2 & Hx). set (d1 := set_line_deltas x d) in *.
  wpb. apply wp_varint_u; [done|]. intros m c1 Hm1 _ Hc1 Hg3. wpb. apply wp_refuse_good; [done|done|]. intros Hle. zbool.
  wpb. apply (wp_grow_field abs_lines set_abs_lines);
    [done|lia|unfold sizeof_UAbsLine; lia|done| |unfold d1; rewrite <- Ea; by destruct d|].
  { intros b cap. split; [by apply blocks_grow_abs|]. split; [done|]. apply Hg2. }
  intros h2 v Hv Hcap Hp Hg4. apply wp_decode_abs_lines; [lia| |].
  - split; [done|]. rewrite Hv. split; [done|]. split; [constructor|]. split; [done|]. unfold v_count. rewrite Hv. cbn [length]. lia.
  - intros o2 v' p' (Hg5 & Hr & Hs & _). by apply HQ.
Qed.

(** *** Site names *)

Definition site_ok (o : option (nat * bytes)) : Prop := exists b bs, o = Some (b, bs) /\ is_bytes bs /\ zlen bs <= 256.

(** The first [k] slots are filled, the others NULL. *)
Definition sites_at (l : list (option (nat * bytes))) (k : Z) : Prop :=
  exists l1 m, l = l1 ++ replicate m None /\ zlen l1 = k /\ Forall site_ok l1.

Lemma sites_at_store l k x bs :
  sites_at l k -> k < zlen l -> is_bytes bs -> zlen bs <= 256 ->
  exists l', store l k (Some (x, bs)) = Some l' /\ read l k = Some None /\ sites_at l' (k + 1) /\ zlen l' = zlen l.
Proof.
  intros (l1 & m & -> & Hk & Hl1) Hlt Hb Hbs. rewrite zlen_app in Hlt. unfold zlen in *. rewrite length_replicate in Hlt.
  destruct m as [|m]; [lia|]. cbn [replicate].
  exists (l1 ++ Some (x, bs) :: replicate m None). split.
  - unfold store. rewrite length_app. cbn [length]. rewrite length_replicate. zcases; [|destruct Heqb; zbool; lia]. f_equal.
    rewrite insert_app_r_alt by lia. by replace (Z.to_nat k - length l1)%nat with O by lia.
  - split.
    { rewrite read_app_r by lia. replace (k - Z.of_nat (length l1)) with 0 by lia. done. }
    split; [|rewrite !length_app; cbn [length]; lia].
    exists (l1 ++ [Some (x, bs)]), m. split; [by rewrite <- (assoc_L (++))|]. unfold zlen. rewrite length_app. cbn [length].
    split; [lia|]. apply Forall_app. split; [done|]. constructor; [|done]. by exists x, bs.
Qed.

Lemma wp_decode_site_loop d0 cnt b left : forall k o h l (Q : () -> DState -> Prop),
  0 <= k -> k + Z.of_nat left = zlen l -> sites_at l k -> good o h (set_sites cnt (Some (b, l)) d0) ->
  (forall o' h' l', zlen l' = zlen l -> Forall site_ok l' -> good o' h' (set_sites cnt (Some (b, l')) d0) ->
     Q () (St o' h' (set_sites cnt (Some (b, l')) d0))) ->
  wp (decode_site_name_loop buf left k) Q bad (St o h (set_sites cnt (Some (b, l)) d0)).
Proof.
  induction left as [|left IH]; intros k o h l Q Hk Hn Hl Hg HQ; cbn [decode_site_name_loop].
  { apply wp_ret, HQ; [done| |done]. destruct Hl as (l1 & m & -> & Hl1 & Hall).
    rewrite zlen_app in Hn. unfold zlen in *. rewrite length_replicate in Hn.
    assert (m = O) as -> by lia. by rewrite app_nil_r. }
  wpb. apply wp_varint_u; [done|]. intros nlen c Hnl _ Hc Hg1. wpb. apply wp_refuse_good; [done|done|]. intros Hmax. zbool.
  wpb. apply wp_refuse_past; [done|done|]. pose proof (proj1 Hg1). intros Hp%past_small; [|lia..].
  apply wp_malloc_oom; [done|]. intros x h' _ Hh'. wpb. apply wp_copy_in; [lia..|]. intros bs Hbs Hlen _.
  wpb. unfold cur_data. wpb. apply wp_get, wp_ret. cbn [d_cur St pdata set_sites site_name_strs].
  destruct (sites_at_store l k x bs Hl ltac:(lia) Hbs ltac:(lia)) as (l' & Hst & Hrd & Hl' & Hz).
  wpb. apply (wp_of_option _ l'); [done|]. wpb. apply wp_modify. wpb.
  apply (wp_advance nlen (o + c) h' (set_sites cnt (Some (b, l')) d0)); [lia..|].
  apply IH; [lia|lia|done| |].
  - eapply good_off; [|lia]. eapply (good_attach [x] _ _ h'); [exact Hg1|by rewrite Hh'| |apply Hg|done].
    eapply (blocks_store_site (set_sites cnt (Some (b, l)) d0)); done.
  - intros o2 h2 l2 Hz2 ? ?. apply HQ; [congruence|done|done].
Qed.

Definition sites_wf (cnt : Z) (x : option (nat * list (option (nat * bytes)))) : Prop :=
  match x with
  | None => cnt = 0
  | Some (_, l) => zlen l = cnt /\ cnt <= 65535 /\ Forall site_ok l
  end.

Lemma set_sites_twice c1 x1 c2 x2 d : set_sites c2 x2 (set_sites c1 x1 d) = set_sites c2 x2 d.
Proof. done. Qed.

Lemma wp_decode_site_names o h d (Q : () -> DState -> Prop) :
  site_name_strs d = None -> good o h d ->
  (forall o' h' cnt x, good o' h' (set_sites cnt x d) -> sites_wf cnt x -> Q () (St o' h' (set_sites cnt x d))) ->
  wp (decode_site_names_into buf) Q bad (St o h d).
Proof.
  intros Es Hg HQ. unfold decode_site_names_into. wpb. apply wp_varint_u; [done|]. intros cnt c Hcnt _ Hc Hg1.
  wpb. apply wp_refuse_good; [done|done|]. intros Hmax. zbool. wpb. apply wp_get. wpb. apply wp_refuse_good; [done|done|].
  intros _. rewrite (u16_small cnt) by lia. wpb. apply wp_modify.
  change (with_data _ (St (o + c) h d)) with (St (o + c) h (set_sites cnt (site_name_strs d) d)). rewrite Es.
  assert (Hg2 : good (o + c) h (set_sites cnt None d)).
  { destruct Hg1 as (? & Hl & ? & ?). split; [done|]. split; [|done]. rewrite Hl. unfold data_blocks. cbn. by rewrite Es. }
  zcase.
  - apply wp_modify. change (with_data _ _) with (St (o + c) h (set_sites cnt None d)). by apply HQ.
  - apply wp_malloc_oom; [done|]. intros b h' _ Hh'. wpb. apply wp_modify.
    change (with_data _ _) with (St (o + c) h' (set_sites cnt (Some (b, replicate (Z.to_nat cnt) None)) d)).
    assert (Hrep : zlen (replicate (Z.to_nat cnt) (@None (nat * bytes))) = cnt) by (unfold zlen; rewrite length_replicate; lia).
    apply wp_decode_site_loop; [lia|rewrite Hrep; lia| | |].
    + exists [], (Z.to_nat cnt). done.
    + eapply (good_attach [b] _ h h' (set_sites cnt None d)); [exact Hg2|by rewrite Hh'| |apply Hg|done].
      by apply (blocks_set_sites (set_sites cnt None d)).
    + intros o2 h2 l' Hz Hall Hg3. apply HQ; [done|]. split; [congruence|]. split; [lia|done].
Qed.

(** *** Header *)

Lemma wp_decode_proto_header o h d (Q : () -> DState -> Prop) :
  good o h d ->
  (forall o' a b c, is_byte a -> is_byte b -> is_byte c ->
     c + (if negb (ar =? 0) && (0 <? c) then 1 else 0) <= a + 1 ->
     good o' h (set_header a b c ar d) -> Q () (St o' h (set_header a b c ar d))) ->
  wp (decode_proto_header buf) Q bad (St o h d).
Proof.
  intros Hg HQ. pose proof (proj1 Hg). unfold decode_proto_header. wpb. apply wp_refuse_past; [done|done|].
  intros Hp%past_small; [|lia..].
  assert (Hnext : forall o (Q : Z -> DState -> Prop), 0 <= o < zlen buf ->
    (forall b, is_byte b -> Q b (St (o + 1) h d)) -> wp (next_byte buf) Q bad (St o h d)).
  { intros o1 Q1 Ho HQ1. unfold next_byte. wpb. apply wp_peek; [lia|]. intros b Hb _. wpb. apply wp_advance; [lia..|].
    by apply wp_ret, HQ1. }
  wpb. apply Hnext; [lia|]. intros a Ha. wpb. apply Hnext; [lia|]. intros b Hb. wpb. apply Hnext; [lia|]. intros c Hc.
  wpb. apply wp_get. cbn [d_arity_flag St]. wpb. apply wp_modify.
  change (with_data _ _) with (St (o + 1 + 1 + 1) h (set_header a b c ar d)).
  assert (Hg' : good (o + 1 + 1 + 1) h (set_header a b c ar d)).
  { destruct Hg as (? & ? & ? & ?). split; [lia|done]. }
  apply wp_refuse_good; [done|done|]. intros Hf. zbool. by apply HQ.
Qed.
End Sections.

(** ** The tree *)

Lemma wp_then {T} (m : M T) (f : DState -> DState) (Q : T -> DState -> Prop) (E : UChunkLoadError -> DState -> Prop) s :
  wp m (fun x s => Q x (f s)) (fun e s => E e (f s)) s -> wp (fun s => let '(r, s') := m s in (r, f s')) Q E s.
Proof. unfold wp. by destruct (m s) as [[]]. Qed.

Lemma wp_on_child child (m : M ()) (Q : () -> DState -> Prop) (E : UChunkLoadError -> DState -> Prop) s d n :
  d_cur s = MkProto d n ->
  wp m (fun x s' => Q x (with_cur (MkProto d (n ++ [Some (d_cur s')])) s'))
    (fun e s' => E e (with_cur (MkProto d (n ++ [Some (d_cur s')])) s')) (with_cur child s) ->
  wp (on_child child m) Q E s.
Proof. unfold wp, on_child. intros ->. by destruct (m _) as [[]]. Qed.

Section Tree.
Context {A : Allocator} {AOk : AllocatorOk A}.
Variable buf : bytes.
Hypothesis Hbuf : is_bytes buf.
Hypothesis Hsize : zlen buf <= PTRDIFF_MAX.

(** The cursor is in the buffer and the live blocks are the current tree's
    and [base]. *)
Definition own (base : list nat) (s : DState) : Prop :=
  0 <= d_off s <= zlen buf /\ h_live (d_heap s) ≡ₚ proto_blocks (d_cur s) ++ base /\ ptrs_ok (d_cur s).

(** What a prototype's decoding leaves alone. *)
Definition kept (s0 s : DState) : Prop :=
  d_depth s = d_depth s0 /\ d_arity_flag s = d_arity_flag s0 /\ d_source s = d_source s0 /\
  p_self (pdata (d_cur s)) = p_self (pdata (d_cur s0)).

Definition failed (base : list nat) (s0 : DState) (e : UChunkLoadError) (s : DState) : Prop :=
  e <> OK /\ own base s /\ d_source s = d_source s0 /\ p_self (pdata (d_cur s)) = p_self (pdata (d_cur s0)).

Lemma good_own dep ar ser src base F o h d :
  good buf base F o h d -> nested_ptr d = None -> own base (St dep ar ser src [] o h d).
Proof.
  intros (Ho & Hl & Hp & _) Hn. split; [done|]. cbn [d_heap d_cur St]. rewrite proto_blocks_eq, Hn. split; [done|].
  apply ptrs_ok_eq. split; [done|]. split; [done|]. by intros c ?%elem_of_nil.
Qed.

(** *** Children *)

Lemma blocks_snoc d n c :
  proto_blocks (MkProto d (n ++ [Some c])) ≡ₚ proto_blocks c ++ [p_self (pdata c)] ++ proto_blocks (MkProto d n).
Proof.
  rewrite !proto_blocks_eq, fmap_app, join_app. cbn [fmap list_fmap mjoin list_join child_blocks]. solve_Permutation.
Qed.

Lemma ptrs_snoc d n c : nested_ptr d <> None -> ptrs_ok (MkProto d n) -> ptrs_ok c -> ptrs_ok (MkProto d (n ++ [Some c])).
Proof.
  rewrite !ptrs_ok_eq. intros Hp (Hk & _ & Hn) Hc. split; [done|]. split; [done|].
  intros c' [Hc'|[[= ->]|[]%elem_of_nil]%elem_of_cons]%elem_of_app; auto.
Qed.

Definition children_state (k : nat) (base : list nat) (s0 : DState) (left : nat) (s : DState) : Prop :=
  own base s /\ kept s0 s /\ data_wf (pdata (d_cur s)) /\
  Forall (fun o => exists c, o = Some c /\ proto_wf k c) (nested (d_cur s)) /\
  zlen (nested (d_cur s)) + Z.of_nat left <= 1024 /\
  zlen (nested (d_cur s)) <= nested_cap (pdata (d_cur s)) <= 2048 /\
  (nested_ptr (pdata (d_cur s)) = None -> nested_cap (pdata (d_cur s)) = 0).

Lemma data_wf_nested d q c : data_wf d -> data_wf (set_nested_arr q c d).
Proof. intros []. by constructor. Qed.

Lemma blocks_nested_arr d n q c :
  proto_blocks (MkProto (set_nested_arr q c d) n) = mjoin (child_blocks <$> n) ++ option_list q ++ data_blocks d.
Proof. by rewrite proto_blocks_eq. Qed.

(** Growing the array of children keeps the state and makes room. *)
Lemma wp_grow_nested k base s0 left s (Q : bool -> DState -> Prop) E :
  children_state k base s0 (S left) s ->
  (forall s', children_state k base s0 (S left) s' -> Q false s') ->
  (forall s', children_state k base s0 (S left) s' -> zlen (nested (d_cur s')) < nested_cap (pdata (d_cur s')) ->
     nested_ptr (pdata (d_cur s')) <> None -> Q true s') ->
  wp grow_nested Q E s.
Proof.
  intros Hs Hf Ht. unfold grow_nested. wpb. apply wp_get.
  pose proof Hs as ((Ho & Hl & Hp) & Hk & Hd & Hn & Hc1 & Hc2 & Hc3).
  destruct s as [o dep ar ser h src [d n]]. cbn [d_cur d_heap pdata nested d_off] in *. pose proof (zlen_nonneg n). zcase.
  2:{ apply wp_ret, Ht; [done|done|]. cbn [d_cur pdata]. intros E0. specialize (Hc3 E0). lia. }
  rewrite proto_blocks_eq in Hl.
  set (K := mjoin (child_blocks <$> n) ++ data_blocks d ++ base).
  assert (Hl' : h_live h ≡ₚ option_list (nested_ptr d) ++ K) by (rewrite Hl; unfold K; solve_Permutation).
  set (cap := if nested_cap d =? 0 then 4 else u64 (nested_cap d * 2)).
  assert (Hcap : zlen n < cap <= 2048) by (unfold cap; zcase; [lia|rewrite u64_small by lia; lia]).
  destruct (hrealloc_spec (nested_ptr d) (cap * sizeof_ptr) h K Hl') as (r & h' & -> & Hr). destruct r as [b|].
  - wpb. apply wp_modify. wpb. apply wp_modify, wp_ret.
    change (with_data _ _) with (MkDState o dep ar ser h' src (MkProto (set_nested_arr (Some b) cap d) n)).
    apply Ht; [|cbn [d_cur pdata nested set_nested_arr nested_cap]; lia|done]. split; [|split; [done|]].
    + split; [done|]. cbn [d_heap d_cur]. rewrite blocks_nested_arr. split.
      * rewrite Hr. unfold K. cbn [option_list]. solve_Permutation.
      * apply ptrs_ok_eq in Hp as (? & _ & ?). by apply ptrs_ok_eq.
    + cbn [d_cur pdata nested set_nested_arr nested_cap nested_ptr]. split; [by apply (data_wf_nested d)|].
      split; [done|]. split; [done|]. split; [lia|done].
  - wpb. apply wp_modify, wp_ret, Hf. split; [|done]. split; [done|]. split; [|done]. cbn [d_heap with_heap d_cur].
    rewrite Hr, proto_blocks_eq. done.
Qed.

(** One child, given that its own decoding meets the specification. *)
Lemma wp_decode_child k base s0 left s (dec : M ()) :
  (forall base s b i, d_cur s = zero_proto b i -> own base s -> d_depth s = d_depth s0 + 1 -> d_depth s <= 64 ->
     wp dec (fun _ s' => own base s' /\ kept s s' /\ proto_wf k (d_cur s')) (failed base s) s) ->
  children_state k base s0 (S left) s ->
  wp (decode_child dec) (fun _ => children_state k base s0 left) (failed base s0) s.
Proof.
  intros Hdec Hs. unfold decode_child. apply wp_then. wpb. apply wp_modify. wpb. apply wp_get.
  set (deeper := fun s => with_depth (d_depth s + 1) s). cbn beta. fold (deeper s).
  pose proof Hs as ((Ho & Hl & Hp) & (Hk1 & Hk2 & Hk3 & Hk4) & Hd & Hn & Hc1 & Hc2 & Hc3).
  assert (Hfail : forall s' e, e <> OK -> own base s' -> d_source s' = d_source s0 ->
    p_self (pdata (d_cur s')) = p_self (pdata (d_cur s0)) -> failed base s0 e (with_depth (d_depth s' - 1) s')) by done.
  wpb. apply wp_refuse; [intros _; by apply Hfail|]. intros Hdep. zbool. unfold UCHUNK_MAX_PROTO_DEPTH in Hdep.
  set (s0' := with_depth (d_depth s0 + 1) s0).
  assert (Hs' : children_state k base s0' (S left) (deeper s)).
  { split; [done|]. split; [|done]. split; [cbn; lia|done]. }
  assert (Hd64 : d_depth s0 + 1 <= 64) by (cbn in Hdep; lia).
  wpb. eapply wp_grow_nested; [exact Hs'|..].
  { intros s' (Hown & Hkept & _). wpb. apply wp_refuse; [|done]. intros _. apply Hfail; [done|done|apply Hkept|apply Hkept]. }
  clear Hs Hs' Hl Hp Hd Hn Hc1 Hc2 Hc3 Ho Hk1 Hk2 Hk3 Hk4.
  intros s1 ((Ho & Hl & Hp) & (Hk1 & Hk2 & Hk3 & Hk4) & Hd & Hn & Hc1 & Hc2 & Hc3) Hroom Hptr.
  wpb. apply wp_refuse; [done|]. intros _. wpb. apply wp_malloc.
  { intros h Hh. apply Hfail; [done| |done|done]. split; [done|]. cbn [d_heap with_heap]. by rewrite Hh. }
  intros b h _ Hh. wpb. apply wp_modify. wpb. apply wp_get.
  destruct s1 as [o dep ar ser h1 src [d n]]. cbn [d_cur d_heap pdata nested d_off d_source d_depth d_arity_flag with_heap with_serial d_serial] in *.
  zcase; [|lia]. 
  set (sc := MkDState o dep ar (u16 (ser + 1)) h src (zero_proto b (u16 (ser + 1)))).
  eapply wp_on_child; [done|]. match goal with |- wp _ _ _ ?x => change x with sc end.
  assert (Hsc : own (b :: proto_blocks (MkProto d n) ++ base) sc) by (split; [done|]; cbn; split; [by rewrite Hh, Hl|done]).
  assert (Hd1 : d_depth sc = d_depth s0 + 1) by (cbn; rewrite Hk1; done).
  pose proof (Hdec _ sc b _ eq_refl Hsc Hd1 ltac:(lia)) as Hwp.
  assert (Hattach : forall s', own (b :: proto_blocks (MkProto d n) ++ base) s' -> p_self (pdata (d_cur s')) = b ->
    own base (with_cur (MkProto d (n ++ [Some (d_cur s')])) s')).
  { intros s' (Ho' & Hl' & Hp') Hb. split; [done|]. cbn [d_heap with_cur d_cur]. split; [|by apply ptrs_snoc].
    rewrite Hl', blocks_snoc, Hb. solve_Permutation. }
  eapply wp_mono; [exact Hwp|..].
  - intros [] s' (Hown & (Hkd & Hka & Hks & Hkp) & Hwf). specialize (Hattach s' Hown Hkp).
    split; [done|]. split; [split; [|split; [|split]]; cbn in *; first [lia|congruence]|]. cbn [d_cur with_cur with_depth pdata nested].
    split; [done|]. split; [apply Forall_app; split; [done|]; constructor; [by exists (d_cur s')|done]|].
    rewrite zlen_app. change (zlen [Some (d_cur s')]) with 1. split; [lia|]. split; [lia|done].
  - intros e s' (He & Hown & Hks & Hkp).
    apply (Hfail (with_cur (MkProto d (n ++ [Some (d_cur s')])) s')); [done|by apply Hattach| |done]. cbn. by rewrite Hks.
Qed.

Lemma frame_nested d b i : frame_of d = frame_of (pdata (zero_proto b i)) ->
  p_self d = b /\ nested_ptr d = None /\ nested_cap d = 0.
Proof. by intros [= ? ? ? ? ?]. Qed.

(** Decoding a fresh prototype: it never faults; on success the tree is
    well-formed, on failure what was built so far is exactly what is owned. *)
Lemma wp_decode_proto k : forall base s b i,
  d_cur s = zero_proto b i -> own base s -> 0 <= d_depth s <= 64 -> 64 <= d_depth s + Z.of_nat k ->
  wp (decode_proto buf (S k)) (fun _ s' => own base s' /\ kept s s' /\ proto_wf (S k) (d_cur s')) (failed base s) s.
Proof.
  induction k as [k IH] using lt_wf_ind. intros base s b i Hz (Ho & Hl & _) Hdep Hfuel.
  destruct s as [o dep ar ser h src cur]. cbn [d_cur d_off d_heap d_depth] in *. subst cur.
  set (F := frame_of (pdata (zero_proto b i))).
  change (MkDState o dep ar ser h src (zero_proto b i)) with (St dep ar ser src [] o h (pdata (zero_proto b i))).
  set (d := pdata (zero_proto b i)).
  assert (Hg : good buf base F o h d) by (split; [done|]; split; [by rewrite Hl|done]).
  assert (Hbad : forall e s, bad buf dep ar ser src [] base F e s -> failed base (St dep ar ser src [] o h d) e s).
  { intros e s (He & o' & h' & d' & -> & Hg'). pose proof Hg' as (_ & _ & _ & HF).
    apply frame_nested in HF as (Hs & Hn & _). split; [done|]. split; [by eapply good_own|done]. }
  cbn [decode_proto]. set (s0 := St dep ar ser src [] o h d) in *.
  apply (wp_bind_weak _ _ _ _ _ _ Hbad), wp_decode_proto_header; [done..|]. intros o1 a b' c Ha Hb' Hc Hfr Hg1.
  set (d1 := set_header a b' c ar d) in *. wpb. apply wp_modify.
  change (with_data _ _) with (St dep ar ser src [] o1 h (set_constants_owned true d1)).
  set (d2 := set_constants_owned true d1). assert (Hg2 : good buf base F o1 h d2).
  { destruct Hg1 as (? & Hg1 & ? & ?). split; [done|]. split; [|done]. by rewrite Hg1. }
  apply (wp_bind_weak _ _ _ _ _ _ Hbad), wp_decode_constants; [done..|]. intros o2 h2 v2 Hg3 Hcw Hcn.
  apply (wp_bind_weak _ _ _ _ _ _ Hbad), wp_decode_instructions; [done..|]. intros o3 h3 v3 Hg4 Hiw Hin.
  apply (wp_bind_weak _ _ _ _ _ _ Hbad), wp_decode_line_table; [done..|]. intros o4 h4 x4 v4 d4 Hg5 Hdw Haw Has.
  apply (wp_bind_weak _ _ _ _ _ _ Hbad), wp_decode_site_names; [done..|]. intros o5 h5 cnt x5 Hg6 Hsw.
  set (d5 := set_sites cnt x5 d4) in *.
  assert (Hwf : data_wf d5).
  { constructor; try done. }
  unfold decode_nested_protos_into. apply (wp_bind_weak _ _ _ _ _ _ Hbad), wp_varint_u; [done..|].
  intros m c6 Hm _ _ Hg7. apply (wp_bind_weak _ _ _ _ _ _ Hbad), wp_refuse_good; [done..|]. intros Hmax. zbool.
  pose proof Hg7 as (_ & _ & _ & HF). apply frame_nested in HF as (Hs & Hnp & Hnc).
  set (s6 := St _ _ _ _ _ (o5 + c6) h5 d5). eapply (wp_mono _ (fun _ => children_state k base s0 O)).
  - apply (wp_repeat _ (children_state k base s0)).
    + intros left s Hst. apply wp_decode_child; [|done]. intros base' s' b1 i1 Hz1 Hown1 Hd1 Hd2. cbn in Hd1.
      destruct k as [|k]; [lia|]. eapply (IH k); [lia|done|done|lia|lia].
    + split; [by eapply good_own|]. split; [done|]. split; [done|]. cbn [s6 St d_cur pdata nested]. change (zlen []) with 0.
      split; [done|]. split; [lia|]. split; [lia|done].
  - intros [] s (Hown & Hk & Hdw' & Hch & Hcn' & _). split; [done|]. split; [done|]. split; [done|]. split; [lia|done].
  - done.
Qed.
End Tree.
