(* ===== verification/LoadChunk.v ===== *)
(** * What a load returns

    The deserializer as a whole, on an arbitrary buffer: it terminates
    without a fault, frees everything on failure, and on success returns a
    tree that owns exactly its blocks and that both verifier passes
    accepted, so every instruction its frames can reach is safe. *)
From S2P Require Import Prelude Varint Instr Chunk Serialize Verify VerifySound Load LoadSafe.

(** ** The verifier's view of a tree: the fields its passes read *)

Definition vdata (d : PData) : PData :=
  MkPData 0 (max_reg d) (nupvals d) 0 0 (Vec None ((fun _ => K_OTHER 0) <$> v_items (constants d)) 0) false
    (Vec None (v_items (instructions d)) 0) None vnil (site_count d) None None 0 0 false.

Fixpoint vview (p : UProto) : UProto :=
  let 'MkProto d n := p in MkProto (vdata d) (map (option_map vview) n).

Lemma read_map {T U} (f : T -> U) l i : read (map f l) i = option_map f (read l i).
Proof. unfold read. destruct (0 <=? i); [|done]. apply (list_lookup_fmap f). Qed.

Lemma vview_nupvals c : nupvals (pdata (vview c)) = nupvals (pdata c).
Proof. by destruct c. Qed.

Section View.
Variables (mr cc nc sc : Z) (instrs : list Z) (n : list (option UProto)).

Lemma verify_instr_view ins op vi ext :
  verify_instr mr cc nc sc instrs (map (option_map vview) n) ins op vi ext = verify_instr mr cc nc sc instrs n ins op vi ext.
Proof.
  unfold verify_instr. destruct (verify_byte_operand _ _ _); try done. destruct (format _); [done|].
  destruct (verify_bx _ _ _ _ _); try done. destruct (decide (op = OP_SCOPE_TRY)); [done|].
  destruct (decide (op = OP_CLOSURE)); [|done]. rewrite read_map.
  destruct (read n (uinstr_bx ins)) as [[c|]|]; [|done..]. cbn [option_map]. by rewrite vview_nupvals.
Qed.

Lemma verify_walk_view fuel vi ext pend seen last :
  verify_walk_loop mr cc nc sc instrs (map (option_map vview) n) fuel vi ext pend seen last
  = verify_walk_loop mr cc nc sc instrs n fuel vi ext pend seen last.
Proof.
  revert vi ext pend seen last. induction fuel as [|fuel IH]; intros; [done|]. cbn [verify_walk_loop].
  zcase; [|done]. destruct (read instrs vi) as [ins|]; [|done]. destruct (uinstr_opcode ins) as [op|]; [|done].
  zcase; [done|]. destruct (decide (op = OP_EXTARG)); [zcase; [done|apply IH]|].
  rewrite verify_instr_view. destruct (verify_instr _ _ _ _ _ _ _ _ _ _) as [[[]|] sk]; done.
Qed.
End View.

Lemma proto_walk_view p : proto_walk (vview p) = proto_walk p.
Proof.
  destruct p as [d n]. unfold proto_walk, verify_walk_block, v_count. cbn [vview vdata pdata nested constants instructions
    max_reg site_count v_items]. rewrite length_fmap, length_map. by rewrite verify_walk_view.
Qed.

Lemma verify_recursive_view p : verify_proto_recursive (vview p) = verify_proto_recursive p.
Proof.
  induction p as [d n IH] using UProto_tree_ind.
  change (verify_proto_recursive (MkProto d n)) with
    (vthen (proto_walk (MkProto d n))
      ((fix go (n : list (option UProto)) : option UChunkLoadError :=
          match n with
          | [] => Some OK
          | Some c :: n => vthen (verify_proto_recursive c) (go n)
          | None :: n => go n
          end) n)).
  rewrite <- proto_walk_view. cbn [verify_proto_recursive vview]. f_equal.
  induction n as [|o n IHn]; [done|]. apply Forall_cons in IH as [IHo IH]. specialize (IHn IH). cbn [map].
  destruct o as [c|]; cbn [option_map]; [|done]. by rewrite (IHo c eq_refl), IHn.
Qed.

Section ViewBounds.
Context {A : Allocator}.

Lemma prelude_words_view p k : forall i vi bm, verify_prelude_words (vview p) k i vi bm = verify_prelude_words p k i vi bm.
Proof.
  destruct p as [d n]. induction k as [|k IH]; intros; [done|]. cbn [verify_prelude_words].
  cbn [vview pdata vdata instructions v_items nupvals max_reg] in *. repeat (case_match; try done).
Qed.

Lemma preludes_view p fuel : forall vi pre h, verify_preludes (vview p) fuel vi pre h = verify_preludes p fuel vi pre h.
Proof.
  induction fuel as [|fuel IH]; intros vi pre h; [by destruct p|].
  assert (Ei : v_items (instructions (pdata (vview p))) = v_items (instructions (pdata p))) by (by destruct p).
  assert (En : nested (vview p) = map (option_map vview) (nested p)) by (by destruct p).
  cbn [verify_preludes]. rewrite Ei, En. zcase; [|done]. destruct (read (v_items _) vi) as [ins|]; [|done].
  destruct (op_is ins OP_CLOSURE); [|apply IH]. rewrite read_map.
  destruct (read (nested p) _) as [[c|]|]; cbn [option_map]; [|done..]. rewrite vview_nupvals.
  zcase; [done|]. zcase; [apply IH|]. destruct pre as [[b bm]|].
  - rewrite prelude_words_view. destruct (verify_prelude_words _ _ _ _ _) as [[[] bm']|]; try done.
  - destruct (halloc _ h) as [[b|] h']; [|done]. rewrite prelude_words_view.
    destruct (verify_prelude_words _ _ _ _ _) as [[[] bm']|]; try done.
Qed.

Lemma transfers_view p bm l : forall vi, verify_transfers (vview p) bm l vi = verify_transfers p bm l vi.
Proof. destruct p as [d n]. induction l as [|i l IH]; intros vi; [done|]. cbn [verify_transfers]. by rewrite !IH. Qed.

Lemma bounds_own_view p h : verify_bounds_own (vview p) h = verify_bounds_own p h.
Proof.
  unfold verify_bounds_own. rewrite preludes_view.
  assert (Ei : v_items (instructions (pdata (vview p))) = v_items (instructions (pdata p))) by (by destruct p). rewrite Ei.
  destruct (verify_preludes _ _ _ _ _) as [[[rc pre] h1]|]; [|done]. by rewrite transfers_view.
Qed.

Lemma bounds_view p : forall h, verify_bounds_proto (vview p) h = verify_bounds_proto p h.
Proof.
  induction p as [d n IH] using UProto_tree_ind. intros h.
  pose proof (bounds_own_view (MkProto d n) h) as E. cbn [verify_bounds_proto vview] in *. rewrite E.
  destruct (verify_bounds_own (MkProto d n) h) as [[[] h1]|]; try done. clear E h.
  revert h1. induction n as [|o n IHn]; intros h1; [done|]. apply Forall_cons in IH as [IHo IH]. cbn [map].
  destruct o as [c|]; cbn [option_map]; [|by apply IHn]. rewrite (IHo c eq_refl).
  destruct (verify_bounds_proto c h1) as [[[] h2]|]; try done. by apply IHn.
Qed.
End ViewBounds.

(** ** Back-pointers change neither ownership nor the verifier's view *)

Lemma backptr_view p : forall r, vview (set_root_backptr_recursive r p) = vview p.
Proof.
  induction p as [d n IH] using UProto_tree_ind. intros r. cbn [set_root_backptr_recursive vview]. f_equal.
  induction n as [|o n IHn]; [done|]. apply Forall_cons in IH as [IHo IH]. cbn [map]. rewrite IHn by done. f_equal.
  destruct o as [c|]; [|done]. cbn [option_map]. by rewrite (IHo c eq_refl).
Qed.

Lemma backptr_self p r : p_self (pdata (set_root_backptr_recursive r p)) = p_self (pdata p).
Proof. by destruct p. Qed.

Lemma backptr_blocks p : forall r, proto_blocks (set_root_backptr_recursive r p) = proto_blocks p.
Proof.
  induction p as [d n IH] using UProto_tree_ind. intros r. cbn [set_root_backptr_recursive]. rewrite !proto_blocks_eq.
  f_equal. f_equal. induction n as [|o n IHn]; [done|]. apply Forall_cons in IH as [IHo IH]. cbn [map].
  rewrite !fmap_cons. f_equal; [|by apply IHn]. destruct o as [c|]; [|done]. cbn [child_blocks].
  by rewrite (IHo c eq_refl), backptr_self.
Qed.

Lemma backptr_ptrs p : forall r, ptrs_ok p -> ptrs_ok (set_root_backptr_recursive r p).
Proof.
  induction p as [d n IH] using UProto_tree_ind. intros r. cbn [set_root_backptr_recursive]. rewrite !ptrs_ok_eq.
  intros (Hk & Hn & Hc). split; [done|]. split; [intros E; by rewrite (Hn E)|]. intros c' Hc'.
  apply list_elem_of_In, in_map_iff in Hc' as ([c|] & [= <-] & Hin). apply list_elem_of_In in Hin.
  rewrite Forall_forall in IH. apply (IH _ Hin c eq_refl), Hc, Hin.
Qed.

Lemma data_wf_root b d : data_wf d -> data_wf (set_root b d).
Proof. intros []. by constructor. Qed.

Lemma backptr_wf k : forall r p, proto_wf k p -> proto_wf k (set_root_backptr_recursive r p).
Proof.
  induction k as [|k IH]; intros r [d n]; [done|]. cbn [proto_wf set_root_backptr_recursive pdata nested].
  intros (Hd & Hl & Hn). split; [by apply data_wf_root|]. split; [unfold zlen in *; by rewrite length_map|].
  apply (Forall_fmap _ (fun o : option UProto => _)). eapply Forall_impl; [exact Hn|]. cbn. intros o (c & -> & Hc). eauto.
Qed.

(** ** Loaded trees meet the verifier's precondition *)

Lemma wf_children k : forall p, proto_wf k p -> tree_all children_ok p.
Proof.
  induction k as [|k IH]; intros [d n]; [done|]. intros (_ & _ & Hn). apply tree_all_intro.
  - intros i c Hr. cbn [nested] in *. unfold read in Hr. destruct (0 <=? i); [|done].
    destruct (Forall_lookup_1 _ _ _ _ Hn Hr) as (c' & [= <-] & Hc). destruct k as [|k]; [done|]. destruct Hc as (Hd & _).
    apply (wf_nupvals _ Hd).
  - intros c Hc. cbn [nested] in *. rewrite Forall_forall in Hn. destruct (Hn _ Hc) as (c' & [= <-] & Hc'). by apply IH.
Qed.

(** ** The whole decoder *)

Section Chunk.
Context {A : Allocator} {AOk : AllocatorOk A}.
Variable buf : bytes.
Hypothesis Hbuf : is_bytes buf.
Hypothesis Hsize : zlen buf <= PTRDIFF_MAX.

Definition chunk_own (base : list nat) (s : DState) : Prop :=
  0 <= d_off s <= zlen buf /\
  h_live (d_heap s) ≡ₚ proto_blocks (d_cur s) ++ source_blocks s ++ p_self (pdata (d_cur s)) :: base /\ ptrs_ok (d_cur s).

Lemma wp_read_of i (Q : Z -> DState -> Prop) E s :
  0 <= i < zlen buf -> (forall b, is_byte b -> Q b s) -> wp (of_option (read buf i)) Q E s.
Proof.
  intros Hi HQ. destruct (read_is_Some buf i Hi) as [b Hb]. apply (wp_of_option _ b); [done|]. apply HQ. by eapply read_byte.
Qed.

Lemma wp_check_byte i v e (Q : () -> DState -> Prop) (E : UChunkLoadError -> DState -> Prop) s :
  0 <= i < zlen buf -> E e s -> Q () s -> wp (check_byte buf i v e) Q E s.
Proof. intros Hi HE HQ. unfold check_byte. wpb. apply wp_read_of; [done|]. intros b _. by apply wp_refuse. Qed.

Lemma wp_memeq l : forall i (Q : bool -> DState -> Prop) E s,
  0 <= i -> i + zlen l <= zlen buf -> (forall b, Q b s) -> wp (memeq_at buf i l) Q E s.
Proof.
  induction l as [|x l IH]; intros i Q E s Hi Hl HQ; cbn [memeq_at]; [by apply wp_ret|].
  unfold zlen in Hl; cbn [length] in Hl. wpb. apply wp_read_of; [unfold zlen; lia|]. intros b _. zcase; [|by apply wp_ret].
  apply IH; [lia|unfold zlen; lia|done].
Qed.

Lemma wp_check_reserved n : forall i (Q : () -> DState -> Prop) (E : UChunkLoadError -> DState -> Prop) s,
  0 <= i -> i + Z.of_nat n <= zlen buf -> E UCHUNK_LOAD_CORRUPT s -> Q () s -> wp (check_reserved buf n i) Q E s.
Proof.
  induction n as [|n IH]; intros i Q E s Hi Hl HE HQ; cbn [check_reserved]; [by apply wp_ret|].
  wpb. apply wp_read_of; [lia|]. intros b _. wpb. apply wp_refuse; [done|]. intros _. apply IH; [lia|lia|done|done].
Qed.

(** The header touches only the arity flag and the cursor. *)
Lemma wp_decode_header (P : DState -> Prop) (Q : () -> DState -> Prop) s :
  P s -> (forall f, P (with_arity f s)) ->
  (forall f, 24 <= zlen buf -> Q () (with_off 24 (with_arity f s))) ->
  wp (decode_header buf) Q (fun e s => e <> OK /\ P s) s.
Proof.
  intros Hs Ha HQ. unfold decode_header. wpb. apply wp_refuse; [done|]. intros Hz. zbool.
  wpb. apply wp_memeq; [lia|change (zlen [85; 82; 66; 73]) with 4; lia|]. intros m. wpb. apply wp_refuse; [done|]. intros _.
  wpb. apply wp_check_byte; [lia|done|]. wpb. apply wp_read_of; [lia|]. intros f _. wpb. apply wp_modify.
  wpb. apply wp_memeq; [lia|change (zlen URBI_BYTECODE_CANARY) with 6; lia|]. intros m'. wpb. apply wp_refuse; [by split|]. intros _.
  do 4 (wpb; apply wp_check_byte; [lia|by split|]). wpb. apply wp_check_reserved; [lia|lia|by split|].
  apply wp_modify. by apply HQ.
Qed.

Lemma wp_decode_metadata ar rp i o h base (Q : () -> DState -> Prop) :
  0 <= o <= zlen buf -> h_live h ≡ₚ rp :: base ->
  (forall o' h' src, let s := MkDState o' 0 ar 0 h' src (zero_proto rp i) in
     0 <= o' <= zlen buf -> h_live h' ≡ₚ source_blocks s ++ rp :: base -> Q () s) ->
  wp (decode_metadata buf) Q (fun e s => e <> OK /\ chunk_own base s) (MkDState o 0 ar 0 h None (zero_proto rp i)).
Proof.
  intros Ho Hl HQ. set (d := pdata (zero_proto rp i)). set (R := rp :: base).
  change (MkDState o 0 ar 0 h None (zero_proto rp i)) with (St 0 ar 0 None [] o h d).
  assert (Hbad : forall e s, bad buf 0 ar 0 None [] R (frame_of d) e s -> e <> OK /\ chunk_own base s).
  { intros e s (He & o' & h' & d' & -> & Ho' & Hl' & Hp & HF). apply frame_nested in HF as (Hs & Hn & _).
    split; [done|]. split; [done|]. cbn [d_heap St d_cur source_blocks d_source pdata]. rewrite proto_blocks_eq, Hn, Hs.
    split; [done|]. apply ptrs_ok_eq. split; [done|]. split; [done|]. by intros c ?%elem_of_nil. }
  assert (Hg : good buf R (frame_of d) o h d) by (split; [done|]; by rewrite Hl).
  eapply wp_mono; [|done|exact Hbad]. unfold decode_metadata.
  wpb. apply wp_varint_u; [done..|]. intros len c Hlen _ Hc Hg1. wpb. apply wp_refuse_past; [done..|]. intros Hpast. zcase.
  - apply wp_malloc_oom; [done|]. intros b h' Hgr Hh'.
    assert (Hfit : o + c + len <= zlen buf) by (eapply string_fits; [done|exact (proj1 Hg1)|done..]).
    pose proof (proj1 Hg1). wpb. apply wp_copy_in; [done|lia..|]. intros bs Hbs Hbl _. wpb. apply wp_modify.
    apply wp_modify. match goal with |- Q () ?x => change x with (MkDState (u64 (o + c + len)) 0 ar 0 h' (Some (b, bs)) (zero_proto rp i)) end.
    unfold PTRDIFF_MAX in *. rewrite u64_small by lia. apply HQ; [lia|]. cbn. by rewrite Hh', Hl.
  - apply wp_ret. apply (HQ (o + c) h None); [apply Hg1|]. done.
Qed.

Lemma wp_decode_chunk rp h base :
  h_live h ≡ₚ rp :: base ->
  wp (decode_chunk buf)
    (fun _ s => chunk_own base s /\ proto_wf 65 (d_cur s) /\ urbi_chunk_decode_verify (d_cur s) = Some OK /\
       exists h0, urbi_chunk_verify_bounds (d_cur s) h0 = Some (OK, d_heap s))
    (fun e s => e <> OK /\ chunk_own base s) (MkDState 0 0 0 0 h None (zero_proto rp 0)).
Proof.
  intros Hl. unfold decode_chunk. wpb.
  assert (Hown0 : forall f o, 0 <= o <= zlen buf -> chunk_own base (MkDState o 0 f 0 h None (zero_proto rp 0))) by (by split).
  pose proof (zlen_nonneg buf). apply wp_decode_header; [apply Hown0; lia|intros f; apply (Hown0 (f) 0); lia|]. intros f H24.
  change (with_off _ _) with (MkDState 24 0 f 0 h None (zero_proto rp 0)). wpb. apply wp_decode_metadata; [lia|done|].
  intros o1 h1 src s1 Ho1 Hl1.
  apply (wp_bind_weak _ _ _ _ (failed buf (source_blocks s1 ++ rp :: base) s1)).
  { intros e s (He & (Ho & Hlv & Hp) & Hsrc & Hself). split; [done|]. split; [done|]. split; [|done].
    unfold source_blocks. rewrite Hlv, Hsrc, Hself. done. }
  eapply wp_mono; [apply (wp_decode_proto buf Hbuf Hsize 64 (source_blocks s1 ++ rp :: base) s1 rp 0); [done| |cbn; lia|cbn; lia]| |done].
  { split; [done|]. by split. }
  intros [] s ((Ho & Hlv & Hp) & (_ & _ & Hsrc & Hself) & Hwf).
  assert (Hown : chunk_own base s) by (split; [done|]; split; [|done]; unfold source_blocks; by rewrite Hlv, Hsrc, Hself).
  wpb. unfold decode_trailer. wpb. apply wp_get. apply wp_refuse; [done|]. intros _.
  pose proof (wf_children _ _ Hwf) as Hch. wpb. unfold decode_verify. wpb. apply wp_get.
  destruct (urbi_chunk_decode_verify (d_cur s)) as [e|] eqn:Hv; [|by apply verify_recursive_total in Hv].
  wpb. apply (wp_of_option _ e); [done|]. destruct (decide (e = OK)) as [->|He]; [|by destruct e].
  apply wp_ret. unfold verify_bounds. wpb. apply wp_get.
  pose proof (verify_bounds_proto_spec (d_cur s) (d_heap s) Hch (verify_recursive_tree _ Hv)) as Hb.
  unfold urbi_chunk_verify_bounds. destruct (verify_bounds_proto (d_cur s) (d_heap s)) as [[e h2]|] eqn:E; [|done].
  destruct Hb as (Hlive & _ & _). wpb. apply (wp_of_option _ (e, h2)); [done|]. wpb. apply wp_modify. cbn [fst snd].
  assert (Hown2 : chunk_own base (with_heap h2 s)).
  { destruct Hown as (? & ? & ?). split; [done|]. cbn [with_heap d_heap]. by rewrite Hlive. }
  destruct (decide (e = OK)) as [->|He]; [|by destruct e]. apply wp_ret. split; [done|]. split; [done|]. split; [done|].
  by exists (d_heap s).
Qed.

Lemma free_chunk_spec base s : chunk_own base s -> exists h, free_chunk (d_cur s) (d_source s) (d_heap s) = Some h /\ h_live h ≡ₚ base.
Proof.
  intros (_ & Hl & Hp). unfold free_chunk.
  assert (E : forall h, (h ← uproto_destroy_buffers (d_cur s) h; hfree (p_self (pdata (d_cur s))) h)
    = free_all (proto_blocks (d_cur s) ++ [p_self (pdata (d_cur s))]) h).
  { intros h. rewrite free_all_app, destroy_blocks by done. apply opt_bind_ext. intros h'. by rewrite free_all_one. }
  rewrite (opt_bind_ext _ _ _ E), <- free_all_opt, <- free_all_app. apply free_all_spec.
  rewrite Hl. unfold source_blocks. solve_Permutation.
Qed.
End Chunk.

(** ** The specification all loader properties follow from *)

Definition chunk_blocks (c : UChunk) : list nat :=
  proto_blocks (c_root c) ++ option_list (fst <$> c_source c) ++ [p_self (pdata (c_root c))].

Record loaded {A : Allocator} (h : heap) (r : load_result) (c : UChunk) : Prop := {
  ld_live : h_live (l_heap r) ≡ₚ chunk_blocks c ++ h_live h;
  ld_ptrs : ptrs_ok (c_root c);
  ld_wf : proto_wf 65 (c_root c);
  ld_pass1 : urbi_chunk_decode_verify (c_root c) = Some OK;
  ld_pass2 : exists h0 h1, urbi_chunk_verify_bounds (c_root c) h0 = Some (OK, h1) }.

Lemma load_spec {A : Allocator} {AOk : AllocatorOk A} buf h :
  is_bytes buf -> zlen buf <= PTRDIFF_MAX ->
  exists r, uchunk_deserialize true (Some buf) h = Some r /\
    match l_chunk r with
    | None => l_code r <> OK /\ h_live (l_heap r) ≡ₚ h_live h
    | Some c => l_code r = OK /\ loaded h r c
    end.
Proof.
  intros Hb Hz. unfold uchunk_deserialize, halloc. destruct (grant _ _); [|by eexists].
  set (h0 := Heap _ _). assert (H0 : h_live h0 ≡ₚ h_calls h :: h_live h) by done. clearbody h0.
  pose proof (wp_decode_chunk buf Hb Hz (h_calls h) h0 (h_live h) H0) as Hwp. unfold wp in Hwp.
  destruct (decode_chunk buf _) as [[[]|e|] s]; [| |done].
  - destruct Hwp as ((Ho & Hl & Hp) & Hwf & Hv & hb & Hb2). eexists. split; [done|]. cbn [l_chunk l_code]. split; [done|].
    split; cbn [c_root c_source l_heap].
    + unfold chunk_blocks. cbn [c_root c_source]. rewrite Hl, backptr_blocks, backptr_self. unfold source_blocks. solve_Permutation.
    + by apply backptr_ptrs.
    + by apply backptr_wf.
    + unfold urbi_chunk_decode_verify in *. by rewrite <- verify_recursive_view, backptr_view, verify_recursive_view.
    + exists hb, (d_heap s). unfold urbi_chunk_verify_bounds in *. by rewrite <- bounds_view, backptr_view, bounds_view.
  - destruct Hwp as (He & Hown). destruct (free_chunk_spec buf _ s Hown) as (h' & -> & Hh'). eexists. split; [done|].
    cbn [l_chunk l_code l_heap]. by split.
Qed.

Lemma load_spec_eq {A : Allocator} {AOk : AllocatorOk A} buf h r :
  is_bytes buf -> zlen buf <= PTRDIFF_MAX -> uchunk_deserialize true (Some buf) h = Some r ->
  match l_chunk r with
  | None => l_code r <> OK /\ h_live (l_heap r) ≡ₚ h_live h
  | Some c => l_code r = OK /\ loaded h r c
  end.
Proof. intros Hb Hz Hr. destruct (load_spec buf h Hb Hz) as (r' & Hr' & H). by rewrite Hr in Hr'; injection Hr' as <-. Qed.

(** ** Properties *)

(** C1 memory safety and termination of the loader: on every byte string, in
    every heap, under every allocator that obeys its contract, the load runs
    to completion with no read outside the buffer, no store past an array's
    capacity, no use of a dead block, and with the fuel of every loop. *)
Theorem loader_never_faults {A : Allocator} {AOk : AllocatorOk A} buf h :
  is_bytes buf -> zlen buf <= PTRDIFF_MAX ->
  exists r, uchunk_deserialize true (Some buf) h = Some r /\ (l_code r = OK <-> l_chunk r <> None).
Proof.
  intros Hb Hz. destruct (load_spec buf h Hb Hz) as (r & Hr & H). exists r. split; [done|].
  destruct (l_chunk r); [destruct H; done|]. by destruct H.
Qed.

(** C34 no leak on failure: whatever check or allocation makes the load fail,
    everything allocated on the way is freed again and no chunk escapes. *)
Theorem loader_failure_frees {A : Allocator} {AOk : AllocatorOk A} buf h r :
  is_bytes buf -> zlen buf <= PTRDIFF_MAX ->
  uchunk_deserialize true (Some buf) h = Some r -> l_code r <> OK ->
  l_chunk r = None /\ h_live (l_heap r) ≡ₚ h_live h.
Proof.
  intros Hb Hz Hr He. pose proof (load_spec_eq buf h r Hb Hz Hr) as H. destruct (l_chunk r); [by destruct H|]. by destruct H.
Qed.

(** ownership of a loaded chunk: destroying what a successful load returned
    never frees a dead block and leaves exactly the blocks that were live
    before the load. *)
Theorem load_then_destroy {A : Allocator} {AOk : AllocatorOk A} buf h r :
  is_bytes buf -> zlen buf <= PTRDIFF_MAX ->
  uchunk_deserialize true (Some buf) h = Some r -> l_code r = OK ->
  exists h', uchunk_destroy (l_chunk r) (l_heap r) = Some h' /\ h_live h' ≡ₚ h_live h.
Proof.
  intros Hb Hz Hr He. pose proof (load_spec_eq buf h r Hb Hz Hr) as H. destruct (l_chunk r) as [c|]; [|by destruct H].
  destruct H as (_ & [Hl Hp _ _ _]).
  apply (free_chunk_spec buf _ (MkDState 0 0 0 0 (l_heap r) (c_source c) (c_root c))).
  pose proof (zlen_nonneg buf). split; [done|]. cbn [d_heap d_cur]. split; [|done]. rewrite Hl. unfold chunk_blocks, source_blocks. cbn [d_source]. solve_Permutation.
Qed.

(** what the loader checks as it decodes holds of the tree it returns: at
    most 65 levels and 1024 children each, the parameters and the hidden
    count register inside the frame, decodable constants, 32-bit words, one
    line delta per instruction, strictly increasing absolute-line
    checkpoints inside the code, and one name of at most 256 bytes per
    site. *)
Theorem loaded_well_formed {A : Allocator} {AOk : AllocatorOk A} buf h r c :
  is_bytes buf -> zlen buf <= PTRDIFF_MAX ->
  uchunk_deserialize true (Some buf) h = Some r -> l_chunk r = Some c ->
  proto_wf 65 (c_root c).
Proof. intros Hb Hz Hr Hc. pose proof (load_spec_eq buf h r Hb Hz Hr) as H. rewrite Hc in H. by destruct H as (_ & []). Qed.

(** untrusted bytecode is safe to run: in every prototype of a chunk that
    loaded, every instruction the dispatch loop can fetch exists, has a
    defined opcode, and names only registers, constants, sites, children and
    upvalues that exist. *)
Theorem loaded_code_is_safe {A : Allocator} {AOk : AllocatorOk A} buf h r c q x :
  is_bytes buf -> zlen buf <= PTRDIFF_MAX ->
  uchunk_deserialize true (Some buf) h = Some r -> l_chunk r = Some c ->
  subproto (c_root c) q -> rtc (exec q) (X 0 0 []) x -> fetch_safe q x.
Proof.
  intros Hb Hz Hr Hc Hq Hx. pose proof (load_spec_eq buf h r Hb Hz Hr) as H. rewrite Hc in H. destruct H as (_ & [_ _ Hwf Hv (h0 & h1 & Hb2)]).
  pose proof (wf_children _ _ Hwf) as Hok. pose proof (verify_recursive_tree _ Hv) as Hw.
  pose proof (verify_bounds_proto_spec _ h0 Hok Hw) as Hs. unfold urbi_chunk_verify_bounds in Hb2. rewrite Hb2 in Hs.
  destruct Hs as (_ & _ & Hf). apply (reachable_safe q (Hok q Hq) (Hw q Hq) (Hf eq_refl q Hq) x Hx).
Qed.

