(* ===== verification/RoundTrip.v ===== *)
(** * Serializer and loader round trip

    Loading the wire image of a prototype tree gives the tree back, up to
    block identities and array capacities, unless the allocator refuses a
    request. *)
From Stdlib Require Import Sorted.
From S2P Require Import Prelude Varint Instr Chunk Serialize Verify VerifySound Load LoadSafe LoadChunk.

(** ** Content of a tree: everything but its memory layout *)

Definition const_content (k : UConst) : UConst :=
  match k with K_STR s => K_STR (Some (O, cstr s)) | k => k end.

Definition data_content (d : PData) : PData :=
  MkPData 0 (max_reg d) (nupvals d) (nparams d) (arity_prologue d) (Vec None (const_content <$> v_items (constants d)) 0) false
    (Vec None (v_items (instructions d)) 0) (Some (O, deltas_src d)) (Vec None (v_items (abs_lines d)) 0)
    (site_count d) (Some (O, (fun s => Some (O, s)) <$> site_strs d)) None 0 0 false.

Fixpoint content (p : UProto) : UProto :=
  let 'MkProto d n := p in MkProto (data_content d) (map (option_map content) n).

Lemma content_view p : vview (content p) = vview p.
Proof.
  induction p as [d n IH] using UProto_tree_ind. cbn [content vview]. f_equal.
  - unfold vdata. cbn [data_content max_reg nupvals constants instructions v_items site_count]. by rewrite <- list_fmap_compose.
  - induction n as [|o n IHn]; [done|]. apply Forall_cons in IH as [IHo IH]. cbn [map]. rewrite IHn by done. f_equal.
    destruct o as [c|]; [|done]. cbn [option_map]. by rewrite (IHo c eq_refl).
Qed.

Lemma content_backptr p : forall r, content (set_root_backptr_recursive r p) = content p.
Proof.
  induction p as [d n IH] using UProto_tree_ind. intros r. cbn [set_root_backptr_recursive content]. f_equal.
  induction n as [|o n IHn]; [done|]. apply Forall_cons in IH as [IHo IH]. cbn [map]. rewrite IHn by done. f_equal.
  destruct o as [c|]; [|done]. cbn [option_map]. by rewrite (IHo c eq_refl).
Qed.

Lemma strlen_take s : urbi_strlen (take (Z.to_nat (urbi_strlen s)) s) = urbi_strlen s.
Proof.
  induction s as [|b s IH]; [done|]. cbn [urbi_strlen]. destruct (b =? 0) eqn:E; [done|].
  pose proof (urbi_strlen_range s). replace (Z.to_nat (1 + urbi_strlen s)) with (S (Z.to_nat (urbi_strlen s))) by lia.
  cbn [firstn take urbi_strlen]. by rewrite E, IH.
Qed.

(** Reading back the bytes before the terminator is stable. *)
Lemma cstr_cstr b s : cstr (Some (b, cstr s)) = cstr s.
Proof.
  destruct s as [[b' s]|]; [|done]. cbn [cstr]. rewrite strlen_take. rewrite take_take. by rewrite Nat.min_id.
Qed.

(** ** Partial weakest preconditions: faults are excluded elsewhere *)

Definition wlp {T} (m : M T) (Q : T -> DState -> Prop) (s : DState) : Prop :=
  match m s with
  | (ROk x, s) => Q x s
  | (RErr e, _) => e = UCHUNK_LOAD_OOM
  | (RFault, _) => True
  end.

Lemma wlp_bind {T U} (m : M T) (k : T -> M U) Q s : wlp m (fun x => wlp (k x) Q) s -> wlp (m ≫= k) Q s.
Proof. unfold wlp, mbind, M_bind. by destruct (m s) as [[x|e|] s']. Qed.

Lemma wlp_mono {T} (m : M T) (Q Q' : T -> DState -> Prop) s : wlp m Q s -> (forall x s, Q x s -> Q' x s) -> wlp m Q' s.
Proof. unfold wlp. destruct (m s) as [[x|e|] s']; auto. Qed.

Lemma wlp_ret {T} (x : T) (Q : T -> DState -> Prop) s : Q x s -> wlp (mret x) Q s.
Proof. done. Qed.
Lemma wlp_get (Q : DState -> DState -> Prop) s : Q s s -> wlp get Q s.
Proof. done. Qed.
Lemma wlp_modify f (Q : () -> DState -> Prop) s : Q () (f s) -> wlp (modify f) Q s.
Proof. done. Qed.
Lemma wlp_refuse b e (Q : () -> DState -> Prop) s : b = false -> Q () s -> wlp (refuse b e) Q s.
Proof. by intros ->. Qed.
Lemma wlp_of_option {T} (o : option T) (Q : T -> DState -> Prop) s : (forall x, o = Some x -> Q x s) -> wlp (of_option o) Q s.
Proof. destruct o; cbn; [|done]. intros H. by apply wlp_ret, H. Qed.
Lemma wlp_slot {T} (v : vec T) (Q : () -> DState -> Prop) s : Q () s -> wlp (has_slot v) Q s.
Proof. unfold has_slot. destruct (_ <? _); done. Qed.

Lemma wlp_malloc {A : Allocator} {T} n (k : nat -> M T) (Q : T -> DState -> Prop) s :
  (forall b h, wlp (k b) Q (with_heap h s)) ->
  wlp (p ← malloc n; match p with None => err UCHUNK_LOAD_OOM | Some b => k b end) Q s.
Proof. intros H. apply wlp_bind. unfold wlp at 1, malloc, halloc. destruct (grant _ _); [apply H|done]. Qed.

Ltac wb := apply wlp_bind.

Section Reads.
Context {A : Allocator}.
Variable buf : bytes.
Hypothesis Hsize : zlen buf <= PTRDIFF_MAX.

Variables (dep ar ser : Z) (src : option (nat * bytes)) (n : list (option UProto)).
Abbreviation St := (LoadSafe.St dep ar ser src n).

(** The cursor [o] has the bytes [l] in front of it. *)
Definition pos (o : Z) (l : bytes) : Prop := 0 <= o <= zlen buf /\ drop (Z.to_nat o) buf = l.

Lemma pos_app o a b : pos o (a ++ b) -> pos (o + zlen a) b.
Proof.
  intros (Ho & E). assert (Hl : zlen buf - o = zlen a + zlen b).
  { apply (f_equal zlen) in E. rewrite zlen_app in E. unfold zlen in *. rewrite length_drop in E. lia. }
  pose proof (zlen_nonneg a). pose proof (zlen_nonneg b). split; [lia|].
  replace (Z.to_nat (o + zlen a)) with (Z.to_nat o + length a)%nat by (unfold zlen; lia).
  by rewrite <- drop_drop, E, drop_app_length.
Qed.

Lemma pos_len o l : pos o l -> zlen l = zlen buf - o.
Proof. intros (Ho & <-). unfold zlen in *. rewrite length_drop. lia. Qed.

Lemma pos_room o a b : pos o (a ++ b) -> o + zlen a <= zlen buf.
Proof. intros H%pos_app. apply H. Qed.

Lemma pos_64 o l : pos o l -> 0 <= o < 2 ^ 63.
Proof. intros [H _]. unfold PTRDIFF_MAX in Hsize. lia. Qed.

Lemma wlp_varint_gen (dec : bytes -> Z -> UVarintResult) (enc : bytes) v o h d t (Q : Z -> DState -> Prop) :
  (forall m, zlen enc <= m -> dec (enc ++ t) m = UVARINT_OK v (zlen enc)) ->
  pos o (enc ++ t) -> Q v (St (o + zlen enc) h d) ->
  wlp (s ← get; varint_error_to_module_error (dec (rest_of buf s) (u64 (zlen buf - d_off s))) (fun v c => advance c;; mret v)) Q (St o h d).
Proof.
  intros Hdec Hp HQ. wb. apply wlp_get. cbn [d_off LoadSafe.St]. pose proof (pos_room _ _ _ Hp). pose proof (pos_64 _ _ Hp).
  pose proof (pos_64 _ _ (pos_app _ _ _ Hp)). pose proof (zlen_nonneg enc). unfold PTRDIFF_MAX in *. rewrite u64_small by lia. unfold rest_of. cbn [d_off LoadSafe.St].
  destruct Hp as (Ho & ->). rewrite Hdec by lia. cbn [varint_error_to_module_error]. wb. apply wlp_modify, wlp_ret.
  cbn [d_off LoadSafe.St]. rewrite u64_small by lia. exact HQ.
Qed.

Lemma wlp_varint_u v o h d t (Q : Z -> DState -> Prop) :
  is_u64 v -> pos o (varint_bytes v ++ t) ->
  (forall o', o' = o + zlen (varint_bytes v) -> pos o' t -> Q v (St o' h d)) ->
  wlp (module_decode_varint_u buf) Q (St o h d).
Proof.
  intros Hv Hp HQ. eapply wlp_varint_gen; [|exact Hp|by apply HQ; [|apply pos_app]].
  intros m Hm. by apply uvarint_decode_u_encode.
Qed.

Lemma wlp_varint_zz v o h d t (Q : Z -> DState -> Prop) :
  is_i64 v -> pos o (varint_zz_bytes v ++ t) ->
  (forall o', o' = o + zlen (varint_zz_bytes v) -> pos o' t -> Q v (St o' h d)) ->
  wlp (module_decode_varint_zz buf) Q (St o h d).
Proof.
  intros Hv Hp HQ. eapply wlp_varint_gen; [|exact Hp|by apply HQ; [|apply pos_app]].
  intros m Hm. by apply uvarint_decode_zz_encode.
Qed.

Lemma wlp_past k e a t o h d (Q : () -> DState -> Prop) :
  pos o (a ++ t) -> zlen a = k -> Q () (St o h d) -> wlp (refuse_past buf k e) Q (St o h d).
Proof.
  intros Hp Hk HQ. unfold refuse_past, past_end. wb. wb. apply wlp_get, wlp_ret. apply wlp_refuse; [|done].
  apply Z.ltb_ge. cbn [d_off LoadSafe.St]. pose proof (pos_room _ _ _ Hp). pose proof (pos_64 _ _ Hp). pose proof (zlen_nonneg a).
  unfold PTRDIFF_MAX in *. rewrite u64_small by lia. lia.
Qed.

Lemma wlp_advance k a t o h d (Q : () -> DState -> Prop) :
  pos o (a ++ t) -> zlen a = k -> (forall o', o' = o + k -> pos o' t -> Q () (St o' h d)) -> wlp (advance k) Q (St o h d).
Proof.
  intros Hp Hk HQ. apply wlp_modify. cbn [d_off LoadSafe.St]. pose proof (pos_room _ _ _ Hp). pose proof (pos_64 _ _ Hp). pose proof (zlen_nonneg a).
  unfold PTRDIFF_MAX in *. rewrite u64_small by lia. apply HQ; [done|]. subst k. by apply pos_app.
Qed.

Lemma wlp_copy k a t o h d (Q : bytes -> DState -> Prop) :
  pos o (a ++ t) -> zlen a = k -> Q a (St o h d) -> wlp (copy_in buf k) Q (St o h d).
Proof.
  intros Hp Hk HQ. unfold copy_in. wb. apply wlp_get. cbn [d_off LoadSafe.St]. zcase; [|done]. apply wlp_ret.
  destruct Hp as (_ & ->). subst k. unfold zlen. rewrite Nat2Z.id, take_app_length. done.
Qed.

Lemma read_pos o a x t : pos o (a ++ x :: t) -> read buf (o + zlen a) = Some x.
Proof.
  intros Hp. apply pos_app in Hp as (Ho & E). unfold read. zcase; [|lia].
  rewrite <- (Nat.add_0_r (Z.to_nat _)), <- lookup_drop, E. done.
Qed.

Lemma wlp_peek a x t k o h d (Q : Z -> DState -> Prop) :
  pos o (a ++ x :: t) -> zlen a = k -> Q x (St o h d) -> wlp (peek buf k) Q (St o h d).
Proof.
  intros Hp <- HQ. unfold peek. wb. apply wlp_get. cbn [d_off LoadSafe.St]. rewrite (read_pos _ _ _ _ Hp). by apply wlp_ret.
Qed.

Lemma wlp_next x t o h d (Q : Z -> DState -> Prop) :
  pos o (x :: t) -> (forall o', o' = o + 1 -> pos o' t -> Q x (St o' h d)) -> wlp (next_byte buf) Q (St o h d).
Proof.
  intros Hp HQ. unfold next_byte. wb. apply (wlp_peek [] x t); [done|done|]. wb. apply (wlp_advance 1 [x] t); [done|done|].
  intros o' Ho' Hp'. by apply wlp_ret, HQ.
Qed.

Lemma wlp_alloc {T} m (k : nat -> M T) o h d (Q : T -> DState -> Prop) :
  (forall b h', wlp (k b) Q (St o h' d)) ->
  wlp (p ← malloc m; match p with None => err UCHUNK_LOAD_OOM | Some b => k b end) Q (St o h d).
Proof. intros H. apply wlp_malloc. intros b h'. apply H. Qed.

Lemma wlp_grow {T} (field : PData -> vec T) (set : vec T -> PData -> PData) m elem o h d (Q : () -> DState -> Prop) :
  v_items (field d) = [] -> set (field d) d = d -> (forall v h', v_items v = [] -> Q () (St o h' (set v d))) ->
  wlp (if 0 <? m then
        d ← cur_data;
        v ← module_grow_with_alloc (field d) m elem;
        match v with None => err UCHUNK_LOAD_OOM | Some v => update (set v) end
      else mret ()) Q (St o h d).
Proof.
  intros Ef Es HQ. zcase; [|by rewrite <- Es; apply wlp_ret, HQ]. wb. unfold cur_data. wb. apply wlp_get, wlp_ret.
  cbn [d_cur LoadSafe.St pdata]. wb. unfold module_grow_with_alloc. zcase.
  { apply wlp_ret, wlp_modify, HQ, Ef. }
  zcase; [done|]. wb. apply wlp_of_option. intros r _. zcase; [done|]. wb. apply wlp_get.
  destruct (hrealloc _ _ _) as [[[b|] h']|]; [|done|done]. wb. apply wlp_modify, wlp_ret, wlp_modify. by apply HQ.
Qed.

Lemma const_bytes_kind k : const_bytes k = const_kind k :: tail (const_bytes k).
Proof. done. Qed.

Lemma wlp_constant k o h d t (Q : () -> DState -> Prop) :
  const_wf k -> str_small (match k with K_STR s => s | _ => None end) -> pos o (const_bytes k ++ t) ->
  (forall o' h' k', o' = o + zlen (const_bytes k) -> pos o' t -> const_content k' = const_content k ->
     Q () (St o' h' (set_constants (push (constants d) k') d))) ->
  wlp (decode_constant buf) Q (St o h d).
Proof.
  intros Hk Hss Hp HQ. unfold decode_constant. rewrite const_bytes_kind in Hp. cbn [app] in Hp.
  wb. apply (wlp_past 1 _ [const_kind k] (tail (const_bytes k) ++ t)); [done|done|]. wb. eapply wlp_next; [exact Hp|].
  intros o1 Ho1 Hp1. wb. apply wlp_refuse; [by destruct k|]. wb. unfold cur_data. wb. apply wlp_get, wlp_ret.
  wb. apply wlp_slot. wb. destruct k as [i|f|[[b0 s]|]|kk]; cbn [const_kind const_bytes tail] in *; try done.
  - wb. eapply wlp_varint_zz; [exact Hk|exact Hp1|]. intros o2 Ho2 Hp2. apply wlp_ret, wlp_modify, HQ; [|done|done].
    cbn [d_off LoadSafe.St]. unfold const_bytes. rewrite zlen_cons. lia.
  - destruct Hk as (Hf & _). wb. eapply wlp_past; [exact Hp1|unfold zlen; lia|]. wb.
    eapply wlp_copy; [exact Hp1|unfold zlen; lia|]. wb. eapply wlp_advance; [exact Hp1|unfold zlen; lia|]. intros o2 Ho2 Hp2.
    apply wlp_ret, wlp_modify, HQ; [|done|done]. cbn [d_off LoadSafe.St]. unfold const_bytes. rewrite zlen_cons. unfold zlen. lia.
  - rewrite <- (assoc_L (++)) in Hp1. wb. eapply wlp_varint_u; [|exact Hp1|].
    { unfold str_small in Hss. pose proof (zlen_nonneg (cstr (Some (b0, s)))). lia. }
    intros o2 Ho2 Hp2. wb. eapply wlp_past; [exact Hp2|done|]. apply wlp_alloc. intros b h'.
    wb. eapply wlp_copy; [exact Hp2|done|]. wb. eapply wlp_advance; [exact Hp2|done|]. intros o3 Ho3 Hp3.
    apply wlp_ret, wlp_modify, HQ; [|done|].
    + cbn [d_off LoadSafe.St]. unfold const_bytes. rewrite zlen_cons, zlen_app. lia.
    + cbn [const_content]. by rewrite cstr_cstr.
Qed.

Definition const_small (k : UConst) : Prop := str_small (match k with K_STR s => s | _ => None end).

Lemma wlp_const_loop l : forall o h v d t (Q : () -> DState -> Prop),
  Forall const_wf l -> Forall const_small l -> pos o (mjoin (const_bytes <$> l) ++ t) ->
  (forall o' h' v', o' = o + zlen (mjoin (const_bytes <$> l)) -> pos o' t ->
     const_content <$> v_items v' = const_content <$> (v_items v ++ l) -> Q () (St o' h' (set_constants v' d))) ->
  wlp (repeatM (length l) (decode_constant buf)) Q (St o h (set_constants v d)).
Proof.
  induction l as [|k l IH]; intros o h v d t Q Hwf Hs Hp HQ; cbn [length repeatM].
  { apply wlp_ret, HQ; [change (zlen (mjoin (const_bytes <$> []))) with 0; lia|done|by rewrite app_nil_r]. }
  apply Forall_cons in Hwf as [Hk Hwf]. apply Forall_cons in Hs as [Hks Hs].
  change (mjoin (const_bytes <$> k :: l)) with (const_bytes k ++ mjoin (const_bytes <$> l)) in *. rewrite <- (assoc_L (++)) in Hp.
  wb. eapply wlp_constant; [done|done|exact Hp|]. intros o1 h1 k' Ho1 Hp1 Hc. cbn [set_constants constants].
  eapply (IH o1 h1 (push v k') d t); [done|done|done|]. intros o2 h2 v2 Ho2 Hp2 Hv2. apply HQ; [rewrite zlen_app; lia|done|].
  rewrite Hv2. unfold push. cbn [v_items]. rewrite !fmap_app. cbn [fmap list_fmap]. rewrite Hc. by rewrite <- (assoc_L (++)).
Qed.

Lemma wlp_constants l o h d t (Q : () -> DState -> Prop) :
  constants d = vnil -> Forall const_wf l -> Forall const_small l -> zlen l <= 65536 ->
  pos o (varint_bytes (zlen l) ++ mjoin (const_bytes <$> l) ++ t) ->
  (forall o' h' v', o' = o + zlen (varint_bytes (zlen l)) + zlen (mjoin (const_bytes <$> l)) -> pos o' t ->
     const_content <$> v_items v' = const_content <$> l -> Q () (St o' h' (set_constants v' d))) ->
  wlp (decode_constants_into buf) Q (St o h d).
Proof.
  intros Ed Hwf Hs Hl Hp HQ. pose proof (zlen_nonneg l). unfold decode_constants_into.
  wb. eapply wlp_varint_u; [|exact Hp|]; [lia|]. intros o1 Ho1 Hp1. wb.
  apply wlp_refuse; [apply Z.ltb_ge; unfold UINT16_MAX; lia|]. wb.
  apply (wlp_grow constants set_constants); [by rewrite Ed|apply set_constants_same|]. intros v h1 Hv.
  replace (Z.to_nat (zlen l)) with (length l) by (unfold zlen; lia).
  eapply wlp_const_loop; [done|done|exact Hp1|]. intros o2 h2 v2 Ho2 Hp2 Hv2. apply HQ; [lia|done|].
  by rewrite Hv2, Hv.
Qed.

Lemma instr_digits i : is_u32 i ->
  i mod 256 + i / 2 ^ 8 mod 256 * 2 ^ 8 + i / 2 ^ 16 mod 256 * 2 ^ 16 + i / 2 ^ 24 mod 256 * 2 ^ 24 = i.
Proof.
  unfold is_u32. intros Hi. change (2 ^ 16) with (2 ^ 8 * 2 ^ 8). change (2 ^ 24) with (2 ^ 8 * 2 ^ 8 * 2 ^ 8).
  rewrite <- !Z.div_div by lia. change (2 ^ 8) with 256.
  pose proof (Z.div_mod i 256). pose proof (Z.div_mod (i / 256) 256). pose proof (Z.div_mod (i / 256 / 256) 256).
  assert (0 <= i / 256 / 256 / 256 < 256).
  { rewrite !Z.div_div by lia. split; [apply Z.div_pos; lia|apply Z.div_lt_upper_bound; lia]. }
  rewrite (Z.mod_small (i / 256 / 256 / 256)) by lia. lia.
Qed.

Lemma wlp_instruction i o h d t (Q : () -> DState -> Prop) :
  is_u32 i -> pos o (instr_bytes i ++ t) ->
  (forall o', o' = o + 4 -> pos o' t -> Q () (St o' h (set_instructions (push (instructions d) i) d))) ->
  wlp (decode_instruction buf) Q (St o h d).
Proof.
  intros Hi Hp HQ. assert (Hb : forall k, is_byte (i / k mod 256)) by (intros k; unfold is_byte; apply Z.mod_pos_bound; lia).
  assert (Hb0 : is_byte (i mod 256)) by (rewrite <- (Z.div_1_r i); apply Hb).
  unfold instr_bytes in Hp. unfold decode_instruction. wb. eapply wlp_past; [exact Hp|done|].
  wb. unfold cur_data. wb. apply wlp_get, wlp_ret. wb. apply wlp_slot.
  wb. eapply (wlp_peek []); [exact Hp|done|].
  wb. eapply (wlp_peek [_]); [exact Hp|done|].
  wb. eapply (wlp_peek [_; _]); [exact Hp|done|].
  wb. eapply (wlp_peek [_; _; _]); [exact Hp|done|].
  wb. apply wlp_modify. rewrite le_word, instr_digits by done.
  change (with_data _ _) with (St o h (set_instructions (push (instructions d) i) d)).
  eapply (wlp_advance 4); [exact Hp|done|]. done.
Qed.

Lemma wlp_instr_loop l : forall o h v d t (Q : () -> DState -> Prop),
  Forall is_u32 l -> pos o (mjoin (instr_bytes <$> l) ++ t) ->
  (forall o' v', o' = o + zlen (mjoin (instr_bytes <$> l)) -> pos o' t -> v_items v' = v_items v ++ l ->
     Q () (St o' h (set_instructions v' d))) ->
  wlp (repeatM (length l) (decode_instruction buf)) Q (St o h (set_instructions v d)).
Proof.
  induction l as [|k l IH]; intros o h v d t Q Hwf Hp HQ; cbn [length repeatM].
  { apply wlp_ret, HQ; [change (zlen (mjoin (instr_bytes <$> []))) with 0; lia|done|by rewrite app_nil_r]. }
  apply Forall_cons in Hwf as [Hk Hwf].
  change (mjoin (instr_bytes <$> k :: l)) with (instr_bytes k ++ mjoin (instr_bytes <$> l)) in *. rewrite <- (assoc_L (++)) in Hp.
  wb. eapply wlp_instruction; [done|exact Hp|]. intros o1 Ho1 Hp1. cbn [set_instructions instructions].
  eapply (IH o1 h (push v k) d t); [done|done|]. intros o2 v2 Ho2 Hp2 Hv2. apply HQ; [|done|].
  - rewrite zlen_app. change (zlen (instr_bytes k)) with 4. lia.
  - rewrite Hv2. unfold push. cbn [v_items]. by rewrite <- (assoc_L (++)).
Qed.

Lemma wlp_padding fuel : forall o h d t (Q : () -> DState -> Prop),
  pos o (gpad o ++ t) -> (forall o', o' = o + zlen (gpad o) -> pos o' t -> Q () (St o' h d)) ->
  wlp (skip_padding buf fuel) Q (St o h d).
Proof.
  unfold gpad. induction fuel as [|fuel IH]; intros o h d t Q Hp HQ; cbn [skip_padding]; wb; apply wlp_get; cbn [d_off LoadSafe.St].
  - zcase; [|done]. rewrite land_3 in *. rewrite pad_zero in * by done. apply wlp_ret, HQ; [change (zlen (replicate (Z.to_nat 0) 0)) with 0; lia|done].
  - zcase; rewrite land_3 in *.
    { rewrite pad_zero in * by done. apply wlp_ret, HQ; [change (zlen (replicate (Z.to_nat 0) 0)) with 0; lia|done]. }
    rewrite pad_succ in * by done. pose proof (Z.mod_pos_bound (- (o + 1)) 4 ltac:(lia)).
    replace (Z.to_nat ((- (o + 1)) mod 4 + 1)) with (S (Z.to_nat ((- (o + 1)) mod 4))) in * by lia. cbn [replicate app] in Hp.
    pose proof (pos_room _ [0] _ Hp) as Hr. change (zlen [0]) with 1 in Hr.
    wb. apply wlp_refuse; [apply Z.leb_gt; lia|]. wb. eapply (wlp_peek []); [exact Hp|done|]. wb. apply wlp_refuse; [done|].
    wb. eapply (wlp_advance 1 [0]); [exact Hp|done|]. intros o1 Ho1 Hp1. subst o1. eapply IH; [exact Hp1|].
    intros o' Ho' Hp'. apply HQ; [|done]. cbn [replicate]. rewrite zlen_cons. lia.
Qed.

Lemma wlp_instructions l o h d t (Q : () -> DState -> Prop) :
  instructions d = vnil -> Forall is_u32 l -> zlen l <= 2 ^ 20 ->
  let o1 := o + zlen (varint_bytes (zlen l)) in
  pos o (varint_bytes (zlen l) ++ gpad o1 ++ mjoin (instr_bytes <$> l) ++ t) ->
  (forall o' h' v', o' = o1 + zlen (gpad o1) + zlen (mjoin (instr_bytes <$> l)) -> pos o' t ->
     v_items v' = l -> Q () (St o' h' (set_instructions v' d))) ->
  wlp (decode_instructions_into buf) Q (St o h d).
Proof.
  intros Ed Hwf Hl o1 Hp HQ. pose proof (zlen_nonneg l). unfold decode_instructions_into.
  wb. eapply wlp_varint_u; [|exact Hp|]; [lia|]. intros o' -> Hp1. fold o1 in Hp1 |- *. wb.
  apply wlp_refuse; [apply Z.ltb_ge; unfold URBI_MAX_INSTRS_PER_PROTO; lia|]. wb.
  eapply wlp_padding; [exact Hp1|]. intros o2 Ho2 Hp2. wb.
  apply (wlp_grow instructions set_instructions); [by rewrite Ed|apply set_instructions_same|]. intros v h1 Hv.
  replace (Z.to_nat (zlen l)) with (length l) by (unfold zlen; lia).
  eapply wlp_instr_loop; [done|exact Hp2|]. intros o3 v2 Ho3 Hp3 Hv2. apply HQ; [lia|done|].
  by rewrite Hv2, Hv.
Qed.

Lemma wlp_abs_loop cnt l : forall prev o h v d t (Q : () -> DState -> Prop),
  cnt <= 2 ^ 20 -> Forall (fun a => 0 <= al_pc a < cnt /\ is_u32 (al_line a)) l -> StronglySorted Z.lt (al_pc <$> l) ->
  (forall q, prev = Some q -> Forall (fun a => q < al_pc a) l) ->
  pos o (mjoin (abs_bytes <$> l) ++ t) ->
  (forall o' v', o' = o + zlen (mjoin (abs_bytes <$> l)) -> pos o' t -> v_items v' = v_items v ++ l ->
     Q () (St o' h (set_abs_lines v' d))) ->
  wlp (decode_abs_lines buf (length l) cnt prev) Q (St o h (set_abs_lines v d)).
Proof.
  induction l as [|[pc line] l IH]; intros prev o h v d t Q Hcnt Hwf Hs Hq Hp HQ; cbn [length decode_abs_lines].
  { apply wlp_ret, HQ; [change (zlen (mjoin (abs_bytes <$> []))) with 0; lia|done|by rewrite app_nil_r]. }
  apply Forall_cons in Hwf as [[Hpc Hline] Hwf]. cbn [al_pc al_line] in *. unfold is_u32 in Hline.
  apply StronglySorted_inv in Hs as [Hs Hall]. cbn [fmap list_fmap al_pc] in Hall.
  change (mjoin (abs_bytes <$> AbsLine pc line :: l)) with ((varint_bytes pc ++ varint_bytes line) ++ mjoin (abs_bytes <$> l)) in *.
  rewrite <- !(assoc_L (++)) in Hp. wb. eapply wlp_varint_u; [|exact Hp|]; [lia|]. intros o1 Ho1 Hp1.
  wb. eapply wlp_varint_u; [|exact Hp1|]; [lia|]. intros o2 Ho2 Hp2. wb. apply wlp_refuse; [apply Z.leb_gt; lia|].
  rewrite !u32_small by lia. wb. apply wlp_refuse.
  { destruct prev as [q|]; [|done]. specialize (Hq q eq_refl). apply Forall_cons in Hq as [Hq _]. cbn in Hq. apply Z.leb_gt. lia. }
  wb. unfold cur_data. wb. apply wlp_get, wlp_ret. wb. apply wlp_slot. wb. apply wlp_modify.
  change (with_data _ _) with (St o2 h (set_abs_lines (push v (AbsLine pc line)) d)).
  eapply IH; [done|done|done| |exact Hp2|].
  - intros q [= <-]. apply (Forall_fmap al_pc (fun x => pc < x)). exact Hall.
  - intros o3 v3 Ho3 Hp3 Hv3. apply HQ; [rewrite !zlen_app; lia|done|]. rewrite Hv3. unfold push. cbn [v_items].
    by rewrite <- (assoc_L (++)).
Qed.

Lemma wlp_line_table deltas l o h d t (Q : () -> DState -> Prop) :
  line_deltas d = None -> abs_lines d = vnil -> zlen deltas = v_count (instructions d) -> v_count (instructions d) <= 2 ^ 20 ->
  Forall (fun a => 0 <= al_pc a < v_count (instructions d) /\ is_u32 (al_line a)) l -> StronglySorted Z.lt (al_pc <$> l) ->
  pos o (varint_bytes (zlen deltas) ++ deltas ++ varint_bytes (zlen l) ++ mjoin (abs_bytes <$> l) ++ t) ->
  (forall o' h' x v, o' = o + zlen (varint_bytes (zlen deltas)) + zlen deltas + zlen (varint_bytes (zlen l)) + zlen (mjoin (abs_bytes <$> l)) ->
     pos o' t -> match x with Some (_, b) => b | None => [] end = deltas -> v_items v = l ->
     Q () (St o' h' (set_abs_lines v (set_line_deltas x d)))) ->
  wlp (decode_line_table_into buf) Q (St o h d).
Proof.
  intros Ed Ea Hdl Hcnt Hwf Hs Hp HQ. unfold decode_line_table_into. wb. unfold cur_data at 1. wb. apply wlp_get, wlp_ret.
  cbn [d_cur LoadSafe.St pdata]. set (cnt := v_count (instructions d)) in *. pose proof (zlen_nonneg deltas).
  wb. eapply wlp_varint_u; [|exact Hp|]; [lia|]. intros o1 Ho1 Hp1. wb. apply wlp_refuse; [by rewrite Hdl, Z.eqb_refl|]. wb.
  eapply (wlp_mono _ (fun _ s => exists o2 h2 x, s = St o2 h2 (set_line_deltas x d) /\ o2 = o1 + zlen deltas /\
    pos o2 (varint_bytes (zlen l) ++ mjoin (abs_bytes <$> l) ++ t) /\ match x with Some (_, b) => b | None => [] end = deltas)).
  { zcase.
    - apply wlp_alloc. intros b h'. wb. apply wlp_modify.
      change (with_data _ _) with (St o1 h' (set_line_deltas (Some (b, [])) d)). wb. eapply wlp_past; [exact Hp1|done|].
      wb. eapply wlp_copy; [exact Hp1|done|]. wb. apply wlp_modify.
      change (with_data _ _) with (St o1 h' (set_line_deltas (Some (b, deltas)) d)).
      eapply wlp_advance; [exact Hp1|done|]. intros o2 Ho2 Hp2. by exists o2, h', (Some (b, deltas)).
    - apply wlp_ret. assert (deltas = []) as -> by (apply zlen_nil_inv; lia).
      exists o1, h, None. assert (E : set_line_deltas None d = d) by (rewrite <- Ed; by destruct d). rewrite E.
      split; [done|]. split; [change (zlen []) with 0; lia|done]. }
  intros [] s (o2 & h2 & x & -> & Ho2 & Hp2 & Hx).
  assert (Hnl : zlen l <= cnt).
  { assert (Hle : forall lo m, Forall (fun a => lo <= al_pc a < cnt /\ is_u32 (al_line a)) m -> StronglySorted Z.lt (al_pc <$> m) ->
      lo <= cnt -> zlen m <= cnt - lo).
    { intros lo m. revert lo. induction m as [|a m IH]; intros lo Hm Hsm Hlo; [change (zlen []) with 0; lia|].
      apply Forall_cons in Hm as [[Ha _] Hm]. apply StronglySorted_inv in Hsm as [Hsm Hall]. rewrite zlen_cons.
      enough (zlen m <= cnt - (al_pc a + 1)) by lia. apply IH; [|done|lia]. apply Forall_forall. intros b Hb.
      rewrite Forall_forall in Hm. destruct (Hm b Hb) as [Hb1 Hb2]. split; [|done]. change (Forall (Z.lt (al_pc a)) (al_pc <$> m)) in Hall. rewrite Forall_fmap, Forall_forall in Hall.
      specialize (Hall b Hb). cbn in Hall. lia. }
    assert (0 <= cnt) by lia. pose proof (Hle 0 l Hwf Hs ltac:(lia)). lia. }
  pose proof (zlen_nonneg l). wb. eapply wlp_varint_u; [|exact Hp2|]; [lia|]. intros o3 Ho3 Hp3. wb.
  apply wlp_refuse; [apply Z.ltb_ge; lia|]. wb.
  apply (wlp_grow abs_lines set_abs_lines); [cbn; by rewrite Ea|by destruct d|]. intros v h3 Hv.
  replace (Z.to_nat (zlen l)) with (length l) by (unfold zlen; lia).
  eapply wlp_abs_loop; [lia|done|done|done|exact Hp3|]. intros o4 v4 Ho4 Hp4 Hv4. apply HQ; [lia|done|done|]. by rewrite Hv4, Hv.
Qed.

(** *** Site names *)

Definition site_bytes (s : bytes) : bytes := varint_bytes (zlen s) ++ s.

Lemma wlp_site_loop l : forall k o h cnt b done rest d t (Q : () -> DState -> Prop),
  k = zlen done -> rest = replicate (length l) None -> Forall (fun s => zlen s <= 256) l ->
  pos o (mjoin (site_bytes <$> l) ++ t) ->
  (forall o' h' l', o' = o + zlen (mjoin (site_bytes <$> l)) -> pos o' t -> cstr <$> l' = (cstr <$> done) ++ ((fun s => cstr (Some (O, s))) <$> l) ->
     Q () (St o' h' (set_sites cnt (Some (b, l')) d))) ->
  wlp (decode_site_name_loop buf (length l) k) Q (St o h (set_sites cnt (Some (b, done ++ rest)) d)).
Proof.
  induction l as [|s l IH]; intros k o h cnt b dn rest d t Q Hk Hr Hl Hp HQ; cbn [length decode_site_name_loop].
  { apply wlp_ret. subst rest. cbn [length replicate]. apply HQ; [change (zlen (mjoin (site_bytes <$> []))) with 0; lia|done|].
    by rewrite !app_nil_r. }
  apply Forall_cons in Hl as [Hs Hl]. pose proof (zlen_nonneg s).
  change (mjoin (site_bytes <$> s :: l)) with (site_bytes s ++ mjoin (site_bytes <$> l)) in *. unfold site_bytes at 1 in Hp.
  rewrite <- !(assoc_L (++)) in Hp. wb. eapply wlp_varint_u; [|exact Hp|]; [lia|]. intros o1 Ho1 Hp1.
  wb. apply wlp_refuse; [apply Z.ltb_ge; lia|]. wb. eapply wlp_past; [exact Hp1|done|]. apply wlp_alloc. intros x h'.
  wb. eapply wlp_copy; [exact Hp1|done|]. wb. unfold cur_data. wb. apply wlp_get, wlp_ret.
  cbn [d_cur LoadSafe.St pdata set_sites site_name_strs].
  wb. apply wlp_of_option. intros l' Hst. wb. apply wlp_modify.
  change (with_data _ _) with (St o1 h' (set_sites cnt (Some (b, l')) d)).
  wb. eapply wlp_advance; [exact Hp1|done|]. intros o2 Ho2 Hp2.
  assert (El : l' = (dn ++ [Some (x, s)]) ++ replicate (length l) None).
  { subst rest. unfold store in Hst. destruct (_ && _); [|done]. injection Hst as <-. subst k. unfold zlen. rewrite Nat2Z.id.
    rewrite insert_app_r_alt by lia. rewrite Nat.sub_diag. cbn [length replicate]. by rewrite <- (assoc_L (++)). }
  rewrite El. eapply IH; [rewrite zlen_app; subst k; done|done|done|exact Hp2|].
  intros o3 h3 l3 Ho3 Hp3 Hl3. apply HQ; [unfold site_bytes at 1; rewrite !zlen_app; lia|done|].
  rewrite Hl3, fmap_app. cbn [fmap list_fmap]. by rewrite <- (assoc_L (++)).
Qed.

Lemma site_bytes_pos s : 1 <= zlen s < 2 ^ 64 \/ zlen s = 0 -> 1 <= zlen (site_bytes s).
Proof.
  intros H. unfold site_bytes. rewrite zlen_app. pose proof (length_varint_bytes (zlen s) ltac:(lia)). pose proof (zlen_nonneg s).
  unfold zlen in *. lia.
Qed.

Lemma names_length l : Forall (fun s => zlen s <= 256) l -> zlen l <= zlen (mjoin (site_bytes <$> l)).
Proof.
  induction 1 as [|s l Hs Hl IH]; [done|]. change (mjoin (site_bytes <$> s :: l)) with (site_bytes s ++ mjoin (site_bytes <$> l)).
  pose proof (zlen_nonneg s). pose proof (site_bytes_pos s ltac:(lia)). rewrite zlen_cons, zlen_app. lia.
Qed.

Lemma wlp_site_names l o h d t (Q : () -> DState -> Prop) :
  Forall (fun s => zlen s <= 256) l -> zlen l <= 65535 ->
  pos o (varint_bytes (zlen l) ++ mjoin (site_bytes <$> l) ++ t) ->
  (forall o' h' x, o' = o + zlen (varint_bytes (zlen l)) + zlen (mjoin (site_bytes <$> l)) -> pos o' t ->
     match x with Some (_, l') => cstr <$> l' = (fun s => cstr (Some (O, s))) <$> l | None => l = [] end ->
     Q () (St o' h' (set_sites (zlen l) x d))) ->
  wlp (decode_site_names_into buf) Q (St o h d).
Proof.
  intros Hl Hn Hp HQ. pose proof (zlen_nonneg l). unfold decode_site_names_into.
  wb. eapply wlp_varint_u; [|exact Hp|]; [lia|]. intros o1 Ho1 Hp1. wb. apply wlp_refuse; [apply Z.ltb_ge; lia|].
  wb. apply wlp_get. wb. apply wlp_refuse.
  { apply Z.ltb_ge. cbn [d_off LoadSafe.St]. pose proof (pos_room _ _ _ Hp1). pose proof (pos_64 _ _ Hp1). pose proof (names_length l Hl).
    unfold PTRDIFF_MAX in *. rewrite u64_small by lia. lia. }
  rewrite (u16_small (zlen l)) by lia. wb. apply wlp_modify.
  change (with_data _ _) with (St o1 h (set_sites (zlen l) (site_name_strs d) d)). zcase.
  - apply wlp_modify. assert (l = []) as -> by (apply zlen_nil_inv; lia).
    apply (HQ o1 h None); [change (zlen (mjoin (site_bytes <$> []))) with 0; lia|done|done].
  - apply wlp_alloc. intros b h'. wb. apply wlp_modify. replace (Z.to_nat (zlen l)) with (length l) by (unfold zlen; lia).
    change (with_data _ _) with (St o1 h' (set_sites (zlen l) (Some (b, [] ++ replicate (length l) None)) d)).
    eapply wlp_site_loop; [done|done|done|exact Hp1|]. intros o2 h2 l' Ho2 Hp2 Hl'. apply HQ; [lia|done|done].
Qed.
End Reads.

(** ** Trees *)

Fixpoint children_image (n : list (option UProto)) : Gen :=
  match n with
  | [] => gconst []
  | Some c :: n => proto_image c +++ children_image n
  | None :: n => (data_image stub_data +++ gvar 0) +++ children_image n
  end.

Lemma proto_image_eq d n : proto_image (MkProto d n) = data_image d +++ gvar (zlen n) +++ children_image n.
Proof. reflexivity. Qed.

Definition uniform (ar : Z) (p : UProto) : Prop := tree_all (fun q => arity_prologue (pdata q) = ar) p.

Lemma proto_ok_children d n c : proto_ok (MkProto d n) -> Some c ∈ n -> proto_ok c.
Proof.
  cbn [proto_ok]. intros (_ & _ & H) Hc. induction n as [|[c'|] n IH]; [by apply elem_of_nil in Hc|..];
    apply elem_of_cons in Hc as [E|Hc]; try done.
  - injection E as ->. tauto.
  - apply IH; tauto.
  - by apply IH.
Qed.

Section Tree.
Context {A : Allocator}.
Variable buf : bytes.
Hypothesis Hsize : zlen buf <= PTRDIFF_MAX.
Variables (ar : Z) (src : option (nat * bytes)).

Abbreviation pos := (pos buf).

(** What decoding the image of [p] at [o] ends in. *)
Definition decoded (o dep : Z) (p : UProto) (t : bytes) (s : DState) : Prop :=
  d_off s = o + zlen (proto_image p o) /\ pos (d_off s) t /\ content (d_cur s) = content p /\
  d_depth s = dep /\ d_arity_flag s = ar /\ d_source s = src.

Lemma wlp_child dec c o dep ser h d m t (Q : () -> DState -> Prop) :
  dep < 64 ->
  (forall ser h b i, wlp dec (fun _ => decoded o (dep + 1) c t) (MkDState o (dep + 1) ar ser h src (zero_proto b i))) ->
  (forall o' ser' h' q cap c', o' = o + zlen (proto_image c o) -> pos o' t -> content c' = content c ->
     Q () (MkDState o' dep ar ser' h' src (MkProto (set_nested_arr q cap d) (m ++ [Some c'])))) ->
  wlp (decode_child dec) Q (MkDState o dep ar ser h src (MkProto d m)).
Proof.
  intros Hdep Hdec HQ. unfold decode_child.
  set (body := (modify _;; _)).
  assert (Hb : wlp body (fun _ s' => Q () (with_depth (d_depth s' - 1) s')) (MkDState o dep ar ser h src (MkProto d m))).
  2:{ unfold wlp in *. destruct (body _) as [[[]|e|] s']; done. }
  subst body. wb. apply wlp_modify. wb. apply wlp_get. wb. cbn [with_depth d_depth].
  apply wlp_refuse; [apply Z.ltb_ge; unfold UCHUNK_MAX_PROTO_DEPTH; lia|].
  wb. unfold grow_nested. wb. apply wlp_get. cbn [d_cur with_depth].
  assert (Hrest : forall h q cap, wlp (child ← malloc sizeof_UProto;
     match child with
     | None => err UCHUNK_LOAD_OOM
     | Some b =>
         modify (fun s => with_serial (u16 (d_serial s + 1)) s);;
         s ← get;
         let 'MkProto d n := d_cur s in
         if zlen n <? nested_cap d then on_child (zero_proto b (d_serial s)) dec else fault
     end) (fun _ s' => Q () (with_depth (d_depth s' - 1) s')) (MkDState o (dep + 1) ar ser h src (MkProto (set_nested_arr q cap d) m))).
  { intros h1 q cap. apply wlp_malloc. intros b h2. wb. apply wlp_modify. wb. apply wlp_get. cbn [d_cur with_serial with_heap].
    zcase; [|done]. unfold on_child, wlp. cbn [d_cur with_serial with_heap d_serial with_cur].
    specialize (Hdec (u16 (ser + 1)) h2 b (u16 (ser + 1))). unfold wlp in Hdec.
    cbn [d_off d_depth d_arity_flag d_heap d_source] in *.
    destruct (dec _) as [[[]|e|] s']; [|done|done]. destruct Hdec as (Ho & Hp & Hc & Hd & Ha & Hs).
    destruct s' as [o' dp' ar' ser' h' src' c']. cbn in Ho, Hp, Hc, Hd, Ha, Hs. subst dp' ar' src'.
    cbn [with_cur with_depth d_depth d_cur d_off d_arity_flag d_serial d_heap d_source].
    replace (dep + 1 - 1) with dep by lia. by apply HQ. }
  zcase.
  - destruct (hrealloc _ _ _) as [[[b|] h']|]; [| |done].
    + wb. apply wlp_modify. wb. apply wlp_modify. apply wlp_ret. wb. apply wlp_refuse; [done|]. apply Hrest.
    + wb. apply wlp_modify. apply wlp_ret. done.
  - apply wlp_ret. wb. apply wlp_refuse; [done|].
    assert (E : set_nested_arr (nested_ptr d) (nested_cap d) d = d) by (by destruct d). rewrite <- E. apply Hrest.
Qed.

Lemma data_content_nested d q cap : data_content (set_nested_arr q cap d) = data_content d.
Proof. done. Qed.

Lemma wlp_children dec dep n : forall o ser h d m t (Q : () -> DState -> Prop),
  (n <> [] -> dep < 64) ->
  Forall (fun oc => exists c, oc = Some c /\
     forall o ser h b i t, pos o (proto_image c o ++ t) ->
       wlp dec (fun _ => decoded o (dep + 1) c t) (MkDState o (dep + 1) ar ser h src (zero_proto b i))) n ->
  pos o (children_image n o ++ t) ->
  (forall o' ser' h' q cap m', o' = o + zlen (children_image n o) -> pos o' t ->
     map (option_map content) m' = map (option_map content) (m ++ n) ->
     Q () (MkDState o' dep ar ser' h' src (MkProto (set_nested_arr q cap d) m'))) ->
  wlp (repeatM (length n) (decode_child dec)) Q (MkDState o dep ar ser h src (MkProto d m)).
Proof.
  induction n as [|oc n IH]; intros o ser h d m t Q Hdep Hn Hp HQ; cbn [length repeatM].
  { apply wlp_ret. assert (E : set_nested_arr (nested_ptr d) (nested_cap d) d = d) by (by destruct d). rewrite <- E.
    apply HQ; [change (zlen (children_image [] o)) with 0; lia|done|by rewrite app_nil_r]. }
  apply Forall_cons in Hn as [(c & -> & Hc) Hn]. cbn [children_image] in *.
  change ((proto_image c +++ children_image n) o) with (proto_image c o ++ children_image n (o + zlen (proto_image c o))) in *.
  rewrite <- (assoc_L (++)) in Hp. assert (Hd : dep < 64) by (by apply Hdep). wb. eapply wlp_child; [done|intros; by apply Hc|].
  intros o1 ser1 h1 q cap c' -> Hp1 Hcc. eapply IH; [done|done|exact Hp1|].
  intros o2 ser2 h2 q2 cap2 m' Ho2 Hp2 Hm'. rewrite zlen_app in HQ. apply HQ; [lia|done|].
  rewrite Hm', !map_app. cbn [map option_map]. rewrite Hcc. by rewrite <- (assoc_L (++)).
Qed.

Lemma wlp_proto_header dep ser h d o a b c t (Q : () -> DState -> Prop) :
  c + (if negb (ar =? 0) && (0 <? c) then 1 else 0) <= a + 1 ->
  pos o (a :: b :: c :: t) ->
  (forall o', o' = o + 3 -> pos o' t -> Q () (St dep ar ser src [] o' h (set_header a b c ar d))) ->
  wlp (decode_proto_header buf) Q (St dep ar ser src [] o h d).
Proof.
  intros Hf Hp HQ. unfold decode_proto_header. wb. apply (wlp_past buf Hsize _ _ _ _ _ 3 _ [a; b; c] t); [done|done|].
  wb. eapply wlp_next; [done|exact Hp|]. intros o1 Ho1 Hp1. wb. eapply wlp_next; [done|exact Hp1|]. intros o2 Ho2 Hp2.
  wb. eapply wlp_next; [done|exact Hp2|]. intros o3 Ho3 Hp3. wb. apply wlp_get. cbn [d_arity_flag LoadSafe.St]. wb. apply wlp_modify.
  change (with_data _ _) with (St dep ar ser src [] o3 h (set_header a b c ar d)). apply wlp_refuse; [by apply Z.ltb_ge|].
  apply HQ; [lia|done].
Qed.

Lemma cstr_length s : zlen (cstr s) <= match s with Some (_, b) => zlen b | None => 0 end.
Proof. destruct s as [[b s]|]; [|done]. cbn [cstr]. rewrite zlen_take_strlen. apply urbi_strlen_range. Qed.

Lemma site_strs_wf d : data_wf d -> zlen (site_strs d) = site_count d /\ site_count d <= 65535 /\ Forall (fun s => zlen s <= 256) (site_strs d).
Proof.
  intros Hd. pose proof (wf_sites d Hd) as Hs. unfold site_strs. destruct (site_name_strs d) as [[b l]|].
  - destruct Hs as (Hz & Hn & Hl). split; [unfold zlen in *; by rewrite length_fmap|]. split; [done|]. apply Forall_fmap.
    eapply Forall_impl; [exact Hl|]. cbn. intros o (b' & bs & -> & _ & Hb). pose proof (cstr_length (Some (b', bs))). cbn in *. lia.
  - rewrite Hs. done.
Qed.

Lemma data_small d : data_ok d -> Forall const_small (v_items (constants d)).
Proof.
  intros [Hc _ _ _ _ _ _ _]. eapply Forall_impl; [exact Hc|]. intros [] Hk; cbn in *; try done.
Qed.

Lemma wlp_decode_proto k : forall p o dep ser h b i t,
  proto_wf k p -> proto_ok p -> uniform ar p -> dep + Z.of_nat k <= 65 -> pos o (proto_image p o ++ t) ->
  wlp (decode_proto buf k) (fun _ => decoded o dep p t) (MkDState o dep ar ser h src (zero_proto b i)).
Proof.
  induction k as [|k IH]; intros [d n] o dep ser h b i t Hwf Hok Har Hdep Hp; [done|].
  destruct Hwf as (Hd & Hn & Hch). cbn [pdata nested] in *. pose proof (Har _ (sub_refl _)) as Ear. cbn [pdata] in Ear.
  pose proof (proj1 Hok) as Hdok. pose proof (site_strs_wf d Hd) as (Hsz & Hsn & Hsl).
  pose proof Hp as Hp0. rewrite proto_image_eq in Hp. unfold data_image, gvar, gconst, gseq in Hp.
  cbv beta in Hp. rewrite <- !(assoc_L (++)) in Hp.
  change (zlen [max_reg d; nupvals d; nparams d]) with 3 in Hp. change (v_count (constants d)) with (zlen (v_items (constants d))) in Hp.
  change (v_count (instructions d)) with (zlen (v_items (instructions d))) in Hp.
  change (v_count (abs_lines d)) with (zlen (v_items (abs_lines d))) in Hp.
  cbn [decode_proto]. change (MkDState o dep ar ser h src (zero_proto b i)) with (St dep ar ser src [] o h (pdata (zero_proto b i))).
  cbn [app] in Hp. wb. eapply wlp_proto_header; [|exact Hp|]; [rewrite <- Ear; apply (wf_frame d Hd)|].
  intros o1 Ho1 Hp1. wb. apply wlp_modify.
  set (d1 := set_header _ _ _ _ _). change (with_data _ _) with (St dep ar ser src [] o1 h (set_constants_owned true d1)).
  wb. eapply (wlp_constants buf Hsize _ _ _ _ _ (v_items (constants d)));
    [done|apply (wf_consts d Hd)|by apply data_small|apply (wf_consts d Hd)|exact Hp1|].
  intros o2 h2 v2 Ho2 Hp2 Hv2. replace (o + 3 + _ + zlen (mjoin (const_bytes <$> v_items (constants d)))) with o2 in Hp2 by lia.
  wb. eapply (wlp_instructions buf Hsize _ _ _ _ _ (v_items (instructions d)));
    [done|apply (wf_instrs d Hd)|apply (wf_instrs d Hd)|exact Hp2|]. intros o3 h3 v3 Ho3 Hp3 Hv3.
  pose proof (do_deltas d Hdok) as Hdl. change (v_count (instructions d)) with (zlen (v_items (instructions d))) in Hdl.
  rewrite <- Hdl in Hp3. assert (Hc3 : v_count v3 = v_count (instructions d)) by (unfold v_count; by rewrite Hv3).
  wb. eapply (wlp_line_table buf Hsize _ _ _ _ _ (deltas_src d) (v_items (abs_lines d))); [done|done|..|exact Hp3|];
    cbn [instructions set_instructions]; rewrite ?Hc3; [done|apply (wf_instrs d Hd)|apply (wf_abs d Hd)|apply (wf_abs_mono d Hd)|].
  intros o4 h4 x4 v4 Ho4 Hp4 Hx4 Hv4. rewrite <- Hsz in Hp4.
  wb. eapply (wlp_site_names buf Hsize _ _ _ _ _ (site_strs d)); [done|lia|exact Hp4|]. intros o5 h5 x5 Ho5 Hp5 Hx5.
  unfold decode_nested_protos_into. pose proof (zlen_nonneg n).
  wb. eapply (wlp_varint_u buf Hsize); [|exact Hp5|]; [lia|]. intros o6 Ho6 Hp6. wb. apply wlp_refuse; [apply Z.ltb_ge; lia|].
  replace (Z.to_nat (zlen n)) with (length n) by (unfold zlen; lia). set (d5 := set_sites _ _ _).
  match type of Hp6 with RoundTrip.pos _ _ (children_image n ?x ++ t) => assert (E6 : x = o6) end.
  { rewrite !zlen_cons, !zlen_app. rewrite Hdl in *. unfold site_bytes in *. lia. }
  rewrite E6 in Hp6. clear E6.
  eapply (wlp_children _ dep n); [|..|exact Hp6|].
  { intros Hne. destruct k as [|k]; [|lia]. destruct n as [|oc n]; [done|]. apply Forall_cons in Hch as [(c & _ & []) _]. }
  - apply Forall_forall. intros oc Hoc. rewrite Forall_forall in Hch. destruct (Hch oc Hoc) as (c & -> & Hc). exists c. split; [done|].
    intros o7 ser7 h7 b7 i7 t7 Hp7. apply IH; [done|by eapply proto_ok_children|by eapply tree_all_child|lia|done].
  - intros o7 ser7 h7 q cap m' _ Hp7 Hm'. split; [|split; [done|]]; cbn [d_off d_cur d_depth d_arity_flag d_source].
    { apply pos_len in Hp0, Hp7. rewrite zlen_app in Hp0. lia. }
    split; [|done]. cbn [content]. f_equal; [|exact Hm']. rewrite data_content_nested. unfold d5, d1, data_content.
    cbn [set_sites set_abs_lines set_line_deltas set_instructions set_constants set_constants_owned set_header max_reg nupvals nparams
      arity_prologue constants instructions abs_lines site_count].
    rewrite Ear, Hv2, Hv3, Hv4. unfold deltas_src at 1. cbn [line_deltas set_sites set_abs_lines set_line_deltas].
    rewrite Hx4, Hsz. do 4 f_equal. unfold site_strs at 1. cbn [site_name_strs set_sites site_count].
    assert (Ec : (fun s => cstr (Some (O, s))) <$> site_strs d = site_strs d).
    { unfold site_strs. destruct (site_name_strs d) as [[b' l]|].
      - rewrite <- list_fmap_compose. apply list_fmap_ext. intros i' s' _. apply cstr_cstr.
      - by rewrite fmap_replicate. }
    destruct x5 as [[b5 l5]|]; [by rewrite Hx5, Ec|]. rewrite Hx5 in *. rewrite <- Hsz. done.
Qed.
End Tree.

(** ** Pass 2 depends on the heap only through OOM *)

Definition ok_or_oom (r : option (UChunkLoadError * heap)) : Prop :=
  match r with Some (e, _) => e = OK \/ e = UCHUNK_LOAD_OOM | None => True end.

Lemma preludes_indep (A1 A2 : Allocator) p fuel : forall vi pre1 h1 pre2 h2 q1 k1,
  snd <$> pre1 = snd <$> pre2 -> @verify_preludes A1 p fuel vi pre1 h1 = Some (OK, q1, k1) ->
  match @verify_preludes A2 p fuel vi pre2 h2 with
  | Some (e, q2, _) => (e = OK /\ snd <$> q1 = snd <$> q2) \/ e = UCHUNK_LOAD_OOM
  | None => True
  end.
Proof.
  assert (Hw : forall nn (f1 f2 : bytes -> option (UChunkLoadError * option (nat * bytes) * heap)) b1 b2 h1 h2 vi bm q1 k1,
    (forall bm, f1 bm = Some (OK, q1, k1) -> match f2 bm with Some (e, q2, _) => (e = OK /\ snd <$> q1 = snd <$> q2) \/ e = UCHUNK_LOAD_OOM | None => True end) ->
    match verify_prelude_words p nn 1 vi bm with
    | None => None | Some (UCHUNK_LOAD_OK, bm) => f1 bm | Some (e, bm) => Some (e, Some (b1, bm), h1) end = Some (OK, q1, k1) ->
    match (match verify_prelude_words p nn 1 vi bm with
    | None => None | Some (UCHUNK_LOAD_OK, bm) => f2 bm | Some (e, bm) => Some (e, Some (b2, bm), h2) end) with
    | Some (e, q2, _) => (e = OK /\ snd <$> q1 = snd <$> q2) \/ e = UCHUNK_LOAD_OOM | None => True end).
  { intros nn f1 f2 b1 b2 h1 h2 vi bm q1 k1 Hf. destruct (verify_prelude_words p nn 1 vi bm) as [[[] bm']|]; try done. apply Hf. }
  induction fuel as [|fuel IH]; intros vi pre1 h1 pre2 h2 q1 k1 Hpre; cbn [verify_preludes].
  { zcase; [done|]. intros [= <- _]. by left. }
  zcase; [|intros [= <- _]; by left]. destruct (read _ vi) as [ins|]; [|done]. destruct (op_is ins OP_CLOSURE); [|by apply IH].
  destruct (read (nested p) _) as [[c|]|]; [|done..]. zcase; [done|]. zcase; [by apply IH|].
  destruct pre1 as [[b1 m1]|], pre2 as [[b2 m2]|]; try done.
  - injection Hpre as [= ->]. apply Hw. intros bm. by apply IH.
  - destruct (@halloc A1 _ h1) as [[b1|] h1']; [|done]. destruct (@halloc A2 _ h2) as [[b2|] h2']; [|by right].
    apply Hw. intros bm. by apply IH.
Qed.

Lemma own_indep (A1 A2 : Allocator) p h1 h2 k : @verify_bounds_own A1 p h1 = Some (OK, k) -> ok_or_oom (@verify_bounds_own A2 p h2).
Proof.
  unfold verify_bounds_own. set (f := length _). intros H.
  destruct (@verify_preludes A1 p f 0 None h1) as [[[e1 q1] k1]|] eqn:E1; [|done].
  destruct (decide (e1 = OK)) as [->|He].
  2:{ exfalso. destruct e1; try done; destruct q1 as [[]|]; try done; destruct (hfree _ _); done. }
  pose proof (preludes_indep A1 A2 p f 0 None h1 None h2 q1 k1 eq_refl E1) as Hi.
  destruct (@verify_preludes A2 p f 0 None h2) as [[[e2 q2] k2]|]; [|done].
  assert (Ht : verify_transfers p (snd <$> q1) (v_items (instructions (pdata p))) 0 = Some OK).
  { destruct (verify_transfers _ _ _ _) as [e|]; [|done]. destruct q1 as [[]|]; [destruct (hfree _ _); [|done]|]; by injection H as -> _. }
  destruct Hi as [[-> Eq]| ->].
  - rewrite <- Eq, Ht. destruct q2 as [[]|]; [destruct (hfree _ _); [|done]|]; by left.
  - destruct q2 as [[]|]; [destruct (hfree _ _); [|done]|]; by right.
Qed.

Lemma bounds_indep (A1 A2 : Allocator) p : forall h1 h2 k,
  @verify_bounds_proto A1 p h1 = Some (OK, k) -> ok_or_oom (@verify_bounds_proto A2 p h2).
Proof.
  induction p as [d n IH] using UProto_tree_ind. intros h1 h2 k. cbn [verify_bounds_proto].
  destruct (@verify_bounds_own A1 (MkProto d n) h1) as [[e1 k1]|] eqn:E1; [|done].
  destruct (decide (e1 = OK)) as [->|He]; [|by intros; destruct e1].
  pose proof (own_indep A1 A2 _ h1 h2 k1 E1) as Ho. destruct (@verify_bounds_own A2 (MkProto d n) h2) as [[e2 k2]|]; [|done].
  destruct Ho as [-> | ->]; [|by right]. clear E1 h1 h2. revert k1 k2.
  induction n as [|o n IHn]; intros k1 k2; [by left|]. apply Forall_cons in IH as [IHo IH]. destruct o as [c|]; [|by apply IHn].
  destruct (@verify_bounds_proto A1 c k1) as [[e1 k1']|] eqn:E1; [|done]. destruct (decide (e1 = OK)) as [->|He]; [|by intros; destruct e1].
  pose proof (IHo c eq_refl k1 k2 k1' E1) as Hc. destruct (@verify_bounds_proto A2 c k2) as [[e2 k2']|]; [|done].
  destruct Hc as [-> | ->]; [by apply IHn|by right].
Qed.

(** ** The whole chunk *)

Lemma wlp_check buf i v e (Q : () -> DState -> Prop) s : read buf i = Some v -> Q () s -> wlp (check_byte buf i v e) Q s.
Proof. intros Hr HQ. unfold check_byte. wb. rewrite Hr. apply wlp_ret, wlp_refuse; [by rewrite Z.eqb_refl|done]. Qed.

Lemma wlp_reserved buf n : forall i (Q : () -> DState -> Prop) s,
  (forall j, i <= j < i + Z.of_nat n -> read buf j = Some 0) -> Q () s -> wlp (check_reserved buf n i) Q s.
Proof.
  induction n as [|n IH]; intros i Q s Hr HQ; [done|]. cbn [check_reserved]. wb. rewrite (Hr i) by lia. apply wlp_ret.
  wb. apply wlp_refuse; [done|]. apply IH; [|done]. intros j Hj. apply Hr. lia.
Qed.

Lemma wlp_memeq buf l : forall i (Q : bool -> DState -> Prop) s,
  (forall k x, l !! k = Some x -> read buf (i + Z.of_nat k) = Some x) -> Q true s -> wlp (memeq_at buf i l) Q s.
Proof.
  induction l as [|x l IH]; intros i Q s Hr HQ; [done|]. cbn [memeq_at]. wb.
  pose proof (Hr O x eq_refl) as H0. rewrite Z.add_0_r in H0. rewrite H0. apply wlp_ret. rewrite Z.eqb_refl. apply IH; [|done].
  intros k y Hk. rewrite <- (Hr (S k) y Hk). f_equal. lia.
Qed.

Lemma wlp_header ar t s (Q : () -> DState -> Prop) :
  ar = 0 \/ ar = 1 -> Q () (with_off 24 (with_arity ar s)) -> wlp (decode_header (header_bytes ar ++ t)) Q s.
Proof.
  intros Har HQ. unfold decode_header. wb. apply wlp_refuse.
  { apply Z.ltb_ge. rewrite zlen_app. pose proof (zlen_nonneg t). change (zlen (header_bytes ar)) with 24. lia. }
  wb. apply wlp_memeq; [intros [|[|[|[|k]]]] x [= <-]; done|]. wb. apply wlp_refuse; [done|].
  wb. apply wlp_check; [done|]. wb.
  assert (E5 : read (header_bytes ar ++ t) 5 = Some (if ar =? 0 then 0 else 1)) by done. rewrite E5. apply wlp_ret.
  wb. apply wlp_modify. wb. apply wlp_memeq; [intros [|[|[|[|[|[|k]]]]]] x [= <-]; done|]. wb. apply wlp_refuse; [done|].
  do 4 (wb; apply wlp_check; [done|]). wb. apply wlp_reserved.
  { intros j Hj. assert (Hc : j = 16 \/ j = 17 \/ j = 18 \/ j = 19 \/ j = 20 \/ j = 21 \/ j = 22 \/ j = 23) by lia.
    destruct Hc as [->|[->|[->|[->|[->|[->|[-> | ->]]]]]]]; done. }
  apply wlp_modify. by destruct Har as [-> | ->].
Qed.

Lemma wlp_metadata {A : Allocator} buf ar b i o h name t (Q : () -> DState -> Prop) :
  zlen buf <= PTRDIFF_MAX -> zlen name < 2 ^ 63 -> pos buf o (varint_bytes (zlen name) ++ name ++ t) ->
  (forall o' h' src, o' = o + zlen (varint_bytes (zlen name) ++ name) -> pos buf o' t -> match src with Some (_, s) => s | None => [] end = name ->
     Q () (MkDState o' 0 ar 0 h' src (zero_proto b i))) ->
  wlp (decode_metadata buf) Q (MkDState o 0 ar 0 h None (zero_proto b i)).
Proof.
  intros Hsize Hn Hp HQ. pose proof (zlen_nonneg name). unfold decode_metadata.
  change (MkDState o 0 ar 0 h None (zero_proto b i)) with (St 0 ar 0 None [] o h (pdata (zero_proto b i))).
  wb. eapply (wlp_varint_u buf Hsize); [|exact Hp|]; [lia|]. intros o1 Ho1 Hp1. wb. eapply wlp_past; [done|exact Hp1|done|]. zcase.
  - apply wlp_alloc. intros x h'. wb. eapply wlp_copy; [exact Hp1|done|]. wb. apply wlp_modify.
    change (with_source _ _) with (St 0 ar 0 (Some (x, name)) [] o1 h' (pdata (zero_proto b i))).
    eapply wlp_advance; [done|exact Hp1|done|]. intros o2 Ho2 Hp2.
    apply (HQ o2 h' (Some (x, name))); [rewrite zlen_app; lia|done|done].
  - apply wlp_ret. assert (name = []) as -> by (apply zlen_nil_inv; lia).
    apply (HQ o1 h None); [rewrite app_nil_r; lia|done|done].
Qed.

(** A tree the format can carry and the verifier accepts. *)
Record loadable (src : option (nat * bytes)) (root : UProto) : Prop := {
  lb_src : str_small src;
  lb_ok : proto_ok root;
  lb_wf : proto_wf 65 root;
  lb_bytes : is_bytes (cstr src);
  lb_arity : arity_prologue (pdata root) = 0 \/ arity_prologue (pdata root) = 1;
  lb_uniform : uniform (arity_prologue (pdata root)) root;
  lb_pass1 : urbi_chunk_decode_verify root = Some OK;
  lb_pass2 : exists (A : Allocator) h h', urbi_chunk_verify_bounds root h = Some (OK, h');
  lb_fits : zlen (chunk_image src root) <= PTRDIFF_MAX }.

Lemma wlp_decode_chunk {A : Allocator} src root rp h :
  loadable src root ->
  wlp (decode_chunk (chunk_image src root))
    (fun _ s => content (d_cur s) = content root /\ match d_source s with Some (_, s) => s | None => [] end = cstr src)
    (MkDState 0 0 0 0 h None (zero_proto rp 0)).
Proof.
  intros [Hsrc Hok Hwf _ Har Hun Hv (A0 & h0 & h1 & Hb) Hfit]. set (buf := chunk_image src root) in *.
  set (ar := arity_prologue (pdata root)) in *. set (name := cstr src) in *.
  assert (E : buf = header_bytes ar ++ (varint_bytes (zlen name) ++ name) ++ proto_image root (24 + zlen (varint_bytes (zlen name) ++ name))) by done.
  unfold decode_chunk. wb. rewrite E at 1. apply wlp_header; [done|].
  change (with_off _ _) with (MkDState 24 0 ar 0 h None (zero_proto rp 0)).
  assert (Hp : pos buf 24 (varint_bytes (zlen name) ++ name ++ proto_image root (24 + zlen (varint_bytes (zlen name) ++ name)) ++ [])).
  { assert (H0 : pos buf 0 buf) by (split; [pose proof (zlen_nonneg buf); lia|done]). rewrite E in H0 at 2.
    apply pos_app in H0. rewrite app_nil_r. rewrite <- (assoc_L (++)) in H0. exact H0. }
  wb. eapply wlp_metadata; [done|exact Hsrc|exact Hp|]. intros o1 h2 src' Ho1 Hp1 Hs1.
  subst o1. wb. eapply wlp_mono; [eapply (wlp_decode_proto buf Hfit ar src' 65); [done|done|done|done|exact Hp1]|].
  intros [] s (Ho & Hpe & Hc & _ & _ & Hs). wb. unfold decode_trailer. wb. apply wlp_get.
  apply wlp_refuse. { apply negb_false_iff, Z.eqb_eq. apply pos_len in Hpe. change (zlen []) with 0 in Hpe. lia. }
  assert (Ev : vview (d_cur s) = vview root) by (by rewrite <- content_view, Hc, content_view).
  wb. unfold decode_verify. wb. apply wlp_get.
  assert (Hv' : urbi_chunk_decode_verify (d_cur s) = Some OK).
  { unfold urbi_chunk_decode_verify in *. by rewrite <- verify_recursive_view, Ev, verify_recursive_view. }
  rewrite Hv'. wb. apply wlp_ret, wlp_ret. unfold verify_bounds. wb. apply wlp_get.
  assert (Hb' : ok_or_oom (@urbi_chunk_verify_bounds A (d_cur s) (d_heap s))).
  { unfold urbi_chunk_verify_bounds in *. rewrite <- bounds_view, Ev, bounds_view. by eapply (bounds_indep A0). }
  wb. apply wlp_of_option. intros [e hh] Er. rewrite Er in Hb'. wb. apply wlp_modify. cbn [fst snd].
  destruct Hb' as [-> | ->]; [|done]. apply wlp_ret. cbn [with_heap d_cur d_source]. split; [done|]. by rewrite Hs.
Qed.


(** ** The image is a byte string *)

Lemma bytes_mjoin {T} (f : T -> bytes) l : Forall (fun x => is_bytes (f x)) l -> is_bytes (mjoin (f <$> l)).
Proof. induction 1; [done|]. cbn. by apply Forall_app. Qed.

Lemma bytes_cstr s : is_bytes s -> is_bytes (cstr (Some (O, s))).
Proof. intros. by apply Forall_take. Qed.

Lemma bytes_var v : is_u64 v -> is_bytes (varint_bytes v).
Proof. apply is_bytes_varint. Qed.

Lemma bytes_seq f g : (forall o, is_bytes (f o)) -> (forall o, is_bytes (g o)) -> forall o, is_bytes ((f +++ g) o).
Proof. intros Hf Hg o. apply Forall_app. by split. Qed.

Lemma bytes_const k : const_wf k -> const_small k -> is_bytes (const_bytes k).
Proof.
  intros Hk Hs. destruct k as [i|f|[[b s]|]|kk]; try done; (constructor; [unfold is_byte, const_kind, UVAL_INT, UVAL_FLOAT, UVAL_STR; lia|]).
  - apply bytes_var, zigzag_u64, Hk.
  - apply Hk.
  - unfold const_small, str_small in Hs. pose proof (zlen_nonneg (cstr (Some (b, s)))). apply Forall_app. split; [apply bytes_var; lia|].
    by apply Forall_take.
Qed.

Lemma bytes_instr i : is_bytes (instr_bytes i).
Proof. repeat constructor; apply Z.mod_pos_bound; lia. Qed.

Lemma bytes_data d : data_wf d -> data_ok d -> forall o, is_bytes (data_image d o).
Proof.
  intros Hd Hok. pose proof (site_strs_wf d Hd) as (Hz & Hn & Hl). pose proof (zlen_nonneg (site_strs d)).
  destruct (wf_consts d Hd) as [Hc Hcn]. destruct (wf_instrs d Hd) as [_ Hin].
  assert (Hv : forall (T : Type) (v : vec T), v_count v < 2 ^ 63 -> is_bytes (varint_bytes (v_count v))).
  { intros T v Hv. apply bytes_var. unfold v_count in *. lia. }
  unfold data_image. apply bytes_seq; [intros ?; repeat constructor; apply Hd|].
  repeat (apply bytes_seq; [|]); intros o; unfold gvar, gconst; try (apply Hv; apply Hok).
  - apply bytes_mjoin, Forall_forall. intros k Hk. pose proof (data_small d Hok) as Hs. rewrite Forall_forall in Hs, Hc. auto using bytes_const.
  - apply Forall_replicate. unfold is_byte. lia.
  - apply bytes_mjoin, Forall_forall. intros. apply bytes_instr.
  - pose proof (wf_deltas d Hd) as Hx. unfold deltas_src. by destruct (line_deltas d) as [[]|]; [apply Hx|].
  - apply bytes_mjoin. eapply Forall_impl; [apply (wf_abs d Hd)|]. intros a [Ha1 Ha2]. unfold is_u32 in Ha2.
    apply Forall_app. split; apply bytes_var; lia.
  - apply bytes_var. lia.
  - apply bytes_mjoin. pose proof (wf_sites d Hd) as Hs. rewrite Forall_forall in Hl |- *. intros s Hin'. specialize (Hl s Hin').
    pose proof (zlen_nonneg s). apply Forall_app. split; [apply bytes_var; lia|].
    unfold site_strs in Hin'. destruct (site_name_strs d) as [[b l]|].
    + apply list_elem_of_fmap in Hin' as (x & -> & Hx). destruct Hs as (_ & _ & Hs). rewrite Forall_forall in Hs.
      destruct (Hs x Hx) as (b' & bs & -> & Hbs & _). by apply Forall_take.
    + apply elem_of_replicate in Hin' as [-> _]. constructor.
Qed.

Lemma bytes_proto k : forall p, proto_wf k p -> proto_ok p -> forall o, is_bytes (proto_image p o).
Proof.
  induction k as [|k IH]; intros [d n]; [done|]. intros (Hd & Hn & Hc) Hok. cbn [nested pdata] in *. rewrite proto_image_eq.
  apply bytes_seq; [apply bytes_data; [done|apply Hok]|]. apply bytes_seq.
  { intros ?. apply bytes_var. pose proof (zlen_nonneg n). lia. }
  assert (Hcs : forall c, Some c ∈ n -> proto_ok c) by (intros c Hin; by eapply proto_ok_children). clear Hok Hn Hd.
  induction Hc as [|oc n (c & -> & Hc) Hcc IHn]; [constructor|]. apply bytes_seq; [apply IH; [done|apply Hcs; by left]|].
  apply IHn. intros c' Hc'. apply Hcs. by right.
Qed.

Lemma bytes_chunk src root : loadable src root -> is_bytes (chunk_image src root).
Proof.
  intros []. apply bytes_seq; [|apply bytes_seq].
  - intros ?. unfold gconst, header_bytes. destruct lb_arity0 as [-> | ->]; cbn [Z.eqb]; repeat (apply Forall_cons_2; [unfold is_byte; lia|]); apply Forall_nil_2.
  - intros ?. apply Forall_app. split; [|done]. apply bytes_var. unfold str_small in *. pose proof (zlen_nonneg (cstr src)). lia.
  - by apply (bytes_proto 65).
Qed.

(** ** Properties *)

(** C5 round trip: what the serializer writes for a loadable tree, the loader
    reads back, under every allocator and in every heap, to a tree with the
    same content (header bytes, constants, instructions, line table, site
    names, children, source name); the only other outcome is OOM. *)
Theorem serialize_then_load {A : Allocator} {AOk : AllocatorOk A} src root m n out h :
  loadable src root ->
  uchunk_serialize src root (Some m) (zlen m) = Some (n, Some out) -> 0 <= n ->
  exists r, uchunk_deserialize true (Some (take (Z.to_nat n) out)) h = Some r /\
    match l_chunk r with
    | Some c => l_code r = OK /\ content (c_root c) = content root /\
                match c_source c with Some (_, s) => s | None => [] end = cstr src
    | None => l_code r = UCHUNK_LOAD_OOM
    end.
Proof.
  intros Hl Hs Hn. destruct (serialize_spec src root m (lb_src _ _ Hl) (lb_ok _ _ Hl)) as [_ Hw]. rewrite Hw in Hs.
  pose proof (bytes_chunk _ _ Hl) as Hb. pose proof (lb_fits _ _ Hl) as Hf.
  remember (chunk_image src root) as img eqn:Ei. cbv zeta in Hs. destruct (_ <? _); injection Hs as <- <-; [lia|].
  assert (Et : take (Z.to_nat (zlen img)) (img ++ drop (length img) m) = img) by (unfold zlen; by rewrite Nat2Z.id, take_app_length).
  rewrite Et. destruct (load_spec img h Hb Hf) as (r & Hr & Hspec). exists r. split; [done|].
  revert Hr. unfold uchunk_deserialize, halloc. destruct (grant _ _); [|by intros [= <-]]. set (h1 := Heap _ _).
  pose proof (wlp_decode_chunk src root (h_calls h) h1 Hl) as H. unfold wlp in H. rewrite <- Ei in H.
  destruct (decode_chunk img _) as [[[]|e|] s]; [| |done].
  - intros [= <-]. cbn [l_chunk l_code c_root c_source]. by rewrite content_backptr.
  - subst e. destruct (free_chunk _ _ _) as [h2|]; [|done]. by intros [= <-].
Qed.
