(* ===== verification/ChunkExamples.v ===== *)
(** * The chunk theorems at work

    A hosted allocator, a small compiled program with a closure, a string, a
    float and a slot access, and each loader property applied to it; the
    boundary case of a string length near 2^64. *)
From Stdlib Require Import Sorted.
From S2P Require Import Prelude Varint Instr Chunk Serialize Verify VerifySound Load LoadSafe LoadChunk RoundTrip.

(** [stdlib_alloc]: everything up to [PTRDIFF_MAX] but the empty request. *)
Definition stdlib_alloc : Allocator := fun _ n => (0 <? n) && (n <=? PTRDIFF_MAX).
(** One that refuses every request from the [k]-th on. *)
Definition exhausted_after (k : nat) : Allocator := fun i n => bool_decide (i < k)%nat && stdlib_alloc i n.

#[global] Instance stdlib_alloc_ok : AllocatorOk stdlib_alloc.
Proof.
  split; [done|]. intros k n Hn. unfold grant, stdlib_alloc. apply andb_false_intro2. by apply Z.leb_gt.
Defined.

#[global] Instance exhausted_ok k : AllocatorOk (exhausted_after k).
Proof.
  split; intros i; [|intros n Hn]; unfold grant, exhausted_after; apply andb_false_intro2; [done|].
  by apply (grant_max (AllocatorOk := stdlib_alloc_ok)).
Defined.

Definition ret_r0 : Z := uinstr_enc_abc OP_RET 0 0 0.

Definition child : UProto :=
  MkProto (MkPData 0 1 1 0 0 vnil true (Vec None [ret_r0] 1) (Some (O, [0])) vnil 0 None None 0 1 true) [].

(** [CLOSURE r0; <capture r1>; GETSLOT r1 r0 site0; RET r0]. *)
Definition sample : UProto :=
  MkProto (MkPData 0 3 0 0 0
    (Vec None [K_INT (-5); K_STR (Some (O, [104; 105])); K_FLOAT [0; 0; 0; 0; 0; 0; 240; 63]] 3) true
    (Vec None [uinstr_enc_abx OP_CLOSURE 0 0; uinstr_enc_abc OP_MOVE 0 1 1; uinstr_enc_abc OP_GETSLOT 1 0 0; ret_r0] 4)
    (Some (O, [0; 1; 0; 255])) (Vec None [AbsLine 0 7; AbsLine 3 9] 2)
    1 (Some (O, [Some (O, [120])])) None 0 0 false) [Some child].

(** A JOIN_WAIT behind a word that captures register 1 for a closure and reads
    as a FORK that joins into register 1: both passes accept it. *)
Definition forged_fork : Z := uinstr_enc_abc OP_FORK 0 1 UFORK_JOIN.
Definition forged : UProto :=
  MkProto (MkPData 0 3 0 0 0 vnil true
    (Vec None [uinstr_enc_abx OP_CLOSURE 0 0; forged_fork; uinstr_enc_abc OP_JOIN_WAIT 1 0 0; ret_r0] 4)
    (Some (O, [0; 0; 0; 0])) vnil 0 None None 0 0 false) [Some child].

Definition sample_src : option (nat * bytes) := Some (O, [97; 46; 117]).
Definition sample_bytes : bytes := chunk_image sample_src sample.
Definition empty_heap : heap := Heap 0 [].

Lemma is_bytes_dec_true l : forallb (fun b => (0 <=? b) && (b <? 256)) l = true -> is_bytes l.
Proof.
  intros H. apply Forall_forall. intros b Hb. rewrite forallb_forall in H. apply list_elem_of_In in Hb. specialize (H b Hb).
  cbn in H. unfold is_byte. zbool. lia.
Qed.

Lemma sample_bytes_ok : is_bytes sample_bytes.
Proof. apply is_bytes_dec_true. by vm_compute. Qed.

Definition sample_load : option load_result := uchunk_deserialize (A := stdlib_alloc) true (Some sample_bytes) empty_heap.
Definition load_default : load_result := Loaded UCHUNK_LOAD_INVALID_ARG None empty_heap.
Definition sample_result : load_result := default load_default sample_load.
Definition sample_chunk : UChunk := default (MkChunk child None 0) (l_chunk sample_result).

Lemma sample_loads : uchunk_deserialize (A := stdlib_alloc) true (Some sample_bytes) empty_heap = Some sample_result.
Proof. by vm_compute. Qed.
Lemma sample_chunk_eq : l_chunk sample_result = Some sample_chunk.
Proof. by vm_compute. Qed.

Lemma loader_never_faults_witness :
  exists r, uchunk_deserialize (A := exhausted_after 3) true (Some sample_bytes) empty_heap = Some r /\
    (l_code r = OK <-> l_chunk r <> None).
Proof. apply (loader_never_faults (A := exhausted_after 3) sample_bytes empty_heap); [apply sample_bytes_ok|vm_compute; discriminate]. Defined.

Lemma loader_failure_frees_witness :
  let r := default load_default (uchunk_deserialize (A := exhausted_after 5) true (Some sample_bytes) empty_heap) in
  l_code r = UCHUNK_LOAD_OOM /\ l_chunk r = None /\ h_live (l_heap r) ≡ₚ [].
Proof.
  split; [by vm_compute|].
  apply (loader_failure_frees (A := exhausted_after 5) sample_bytes empty_heap);
    [apply sample_bytes_ok|vm_compute; discriminate|by vm_compute|by vm_compute].
Defined.

Lemma load_then_destroy_witness :
  exists h', uchunk_destroy (l_chunk sample_result) (l_heap sample_result) = Some h' /\ h_live h' ≡ₚ [].
Proof.
  apply (load_then_destroy (A := stdlib_alloc) sample_bytes empty_heap sample_result);
    [apply sample_bytes_ok|vm_compute; discriminate|apply sample_loads|by vm_compute].
Defined.

Lemma loaded_well_formed_witness : proto_wf 65 (c_root sample_chunk).
Proof.
  apply (loaded_well_formed (A := stdlib_alloc) sample_bytes empty_heap sample_result sample_chunk);
    [apply sample_bytes_ok|vm_compute; discriminate|apply sample_loads|apply sample_chunk_eq].
Defined.

Lemma loaded_code_is_safe_witness : fetch_safe (c_root sample_chunk) (X 0 0 []).
Proof.
  apply (loaded_code_is_safe (A := stdlib_alloc) sample_bytes empty_heap sample_result sample_chunk);
    [apply sample_bytes_ok|vm_compute; discriminate|apply sample_loads|apply sample_chunk_eq|apply sub_refl|apply rtc_refl].
Defined.

Lemma sample_pass1 : urbi_chunk_decode_verify sample = Some OK.
Proof. by vm_compute. Qed.
Lemma sample_pass2 : urbi_chunk_verify_bounds (A := stdlib_alloc) sample empty_heap = Some (OK, Heap 1 []).
Proof. by vm_compute. Qed.

Example forged_join_is_accepted : urbi_chunk_decode_verify forged = Some OK /\
  urbi_chunk_verify_bounds (A := stdlib_alloc) forged empty_heap = Some (OK, Heap 1 []).
Proof. split; vm_compute; reflexivity. Qed.

Lemma children_ok_leaf d : tree_all children_ok (MkProto d []).
Proof.
  apply tree_all_intro; [|by intros c ?%elem_of_nil]. intros i c H. unfold read in H. cbn in H. by destruct (0 <=? i).
Qed.

Lemma sample_children : tree_all children_ok sample.
Proof.
  apply tree_all_intro.
  - intros i c H. unfold read in H. destruct (0 <=? i); [|done]. cbn in H. destruct (Z.to_nat i) as [|[|j]]; [|done..].
    injection H as <-. done.
  - intros c [[= ->]|?%elem_of_nil]%elem_of_cons; [apply children_ok_leaf|done].
Qed.

Lemma verifier_sound_witness : fetch_safe child (X 0 0 []).
Proof.
  apply (verifier_sound (A := stdlib_alloc) sample empty_heap (Heap 1 []) child);
    [apply sample_children|apply sample_pass1|apply sample_pass2|eapply sub_child; [by left|apply sub_refl]|apply rtc_refl].
Defined.

Lemma small_str s : (length (cstr s) < 100)%nat -> str_small s.
Proof. unfold str_small, zlen. lia. Qed.

Lemma child_data_ok : data_ok (pdata child).
Proof.
  split; cbn [child pdata constants instructions abs_lines site_count site_name_strs v_items vnil];
    unfold v_count, zlen; cbn [length v_items vnil deltas_src line_deltas]; first [lia | done | constructor].
Qed.

Lemma sample_data_ok : data_ok (pdata sample).
Proof.
  split; cbn [sample pdata constants instructions abs_lines site_count site_name_strs v_items];
    unfold v_count, zlen; cbn [length v_items deltas_src line_deltas]; try lia; try done.
  - repeat (apply Forall_cons_2; [cbn [const_ok]; first [lia | done | by apply small_str; vm_compute; lia]|]). constructor.
  - repeat (apply Forall_cons_2; [cbn [al_pc al_line]; lia|]). constructor.
  - split; [done|]. repeat (apply Forall_cons_2; [apply small_str; vm_compute; lia|]). constructor.
Qed.

Lemma child_data_wf : data_wf (pdata child).
Proof.
  split; cbn [child pdata max_reg nupvals nparams arity_prologue constants instructions abs_lines line_deltas site_count site_name_strs v_items vnil];
    unfold v_count, is_byte; cbn [length v_items vnil]; try lia; try done.
  - split; [|lia]. repeat (apply Forall_cons_2; [by vm_compute|]). constructor.
  - split; [done|]. by apply is_bytes_dec_true.
  - constructor.
Qed.

Lemma sample_data_wf : data_wf (pdata sample).
Proof.
  split; cbn [sample pdata max_reg nupvals nparams arity_prologue constants instructions abs_lines line_deltas site_count site_name_strs v_items];
    unfold v_count, is_byte; cbn [length v_items]; try lia; try done.
  - split; [|lia]. repeat (apply Forall_cons_2; [cbn [const_wf]; first [lia | split; [done|by apply is_bytes_dec_true] | by apply is_bytes_dec_true]|]).
    constructor.
  - split; [|lia]. repeat (apply Forall_cons_2; [by vm_compute|]). constructor.
  - split; [done|]. by apply is_bytes_dec_true.
  - repeat (apply Forall_cons_2; [cbn [al_pc al_line]; unfold is_u32; lia|]). constructor.
  - cbn [fmap list_fmap al_pc]. constructor; [constructor; [constructor|constructor]|]. constructor; [lia|constructor].
  - split; [done|]. split; [lia|]. apply Forall_cons_2; [|constructor]. exists O, [120]. split; [done|].
    split; [by apply is_bytes_dec_true|vm_compute; discriminate].
Qed.

Lemma sample_loadable : loadable sample_src sample.
Proof.
  split.
  - apply small_str; vm_compute; lia.
  - cbn [proto_ok sample]. split; [apply sample_data_ok|]. split; [vm_compute; reflexivity|]. split; [|done].
    split; [apply child_data_ok|]. split; [vm_compute; reflexivity|done].
  - split; [apply sample_data_wf|]. split; [vm_compute; discriminate|]. apply Forall_cons_2; [|constructor]. exists child. split; [done|].
    split; [apply child_data_wf|]. split; [vm_compute; discriminate|constructor].
  - by apply is_bytes_dec_true.
  - by left.
  - apply tree_all_intro; [done|]. intros c [[= ->]|?%elem_of_nil]%elem_of_cons; [|done].
    apply tree_all_intro; [done|]. by intros c ?%elem_of_nil.
  - apply sample_pass1.
  - exists stdlib_alloc, empty_heap, (Heap 1 []). apply sample_pass2.
  - vm_compute. discriminate.
Qed.

Definition sample_buf : bytes := replicate 200 0.
Definition sample_out : option (Z * option bytes) := uchunk_serialize sample_src sample (Some sample_buf) (zlen sample_buf).
Definition sample_n : Z := match sample_out with Some (n, _) => n | None => -1 end.
Definition sample_written : bytes := match sample_out with Some (_, Some l) => l | _ => [] end.

Lemma uchunk_serialize_image_witness :
  uchunk_serialize sample_src sample None 0 = Some (zlen sample_bytes, None) /\
  uchunk_serialize sample_src sample (Some sample_buf) (zlen sample_buf) =
    Some (if zlen sample_buf <? zlen sample_bytes then (-4, Some sample_buf)
          else (zlen sample_bytes, Some (sample_bytes ++ drop (length sample_bytes) sample_buf))).
Proof.
  apply (uchunk_serialize_image sample_src sample sample_buf);
    [apply (lb_src _ _ sample_loadable)|apply (lb_ok _ _ sample_loadable)].
Defined.

Lemma serialize_then_load_witness :
  exists r, uchunk_deserialize (A := stdlib_alloc) true (Some (take (Z.to_nat sample_n) sample_written)) empty_heap = Some r /\
    match l_chunk r with
    | Some c => l_code r = OK /\ content (c_root c) = content sample /\
                match c_source c with Some (_, s) => s | None => [] end = [97; 46; 117]
    | None => l_code r = UCHUNK_LOAD_OOM
    end.
Proof.
  apply (serialize_then_load (A := stdlib_alloc) sample_src sample sample_buf sample_n sample_written empty_heap);
    [apply sample_loadable|by vm_compute|vm_compute; discriminate].
Defined.

(** ** A length that wraps

    [d->off + src_len > d->size] is taken in [size_t], so a length within 35
    of 2^64 passes the truncation test. *)

Definition wrapped_chunk : bytes := header_bytes 0 ++ varint_bytes (2 ^ 64 - 3) ++ [1; 2; 3].

(** a source-name length that wraps the cursor is not caught by the
    truncation check: under a lawful allocator the load fails, but with OOM
    and not with TRUNCATED, and only because the request is refused; were
    it served, the copy would run outside the buffer. *)
Theorem wrapped_length_is_oom h :
  (exists h', uchunk_deserialize (A := stdlib_alloc) true (Some wrapped_chunk) h
     = Some (Loaded UCHUNK_LOAD_OOM None h')) /\
  uchunk_deserialize (A := fun _ _ => true) true (Some wrapped_chunk) h = None.
Proof.
  split.
  - destruct h as [k l]. eexists. unfold uchunk_deserialize, halloc. cbn [h_calls h_live].
    change (grant k (u64 sizeof_UProto)) with true. cbv iota.
    set (r := decode_chunk _ _). vm_compute in r. subst r. cbv iota. unfold free_chunk. cbn.
    unfold hfree. cbn. rewrite decide_True by done. reflexivity.
  - by vm_compute.
Qed.
