(* ===== verification/Timers.v ===== *)
(** * The timer heap (src/src/rt/usched.c, src/src/rt/usched.h)

    An array-backed binary min-heap on [due_us], carrying sleepers
    ([period_us = 0]) and periodics.  The array is modelled by its first
    [heap_len] entries; a read or write outside them is a fault ([None]). *)
From S2P Require Import Prelude.

(** Strands, closures, tags and realms are named by identity. *)
Record UTimer := MkTimer {
  due_us : Z;
  period_us : Z;
  t_strand : option nat;
  t_body : option nat;
  t_tag : option nat;
  t_realm : option nat }.

Abbreviation theap := (list UTimer).

Definition due (l : theap) (i : nat) : option Z := due_us <$> l !! i.

(** [heap_swap(&heap[a], &heap[b])]. *)
Definition heap_swap (l : theap) (a b : nat) : option theap :=
  match l !! a, l !! b with
  | Some x, Some y => Some (<[b := x]> (<[a := y]> l))
  | _, _ => None
  end.

Definition parent (i : nat) : nat := ((i - 1) / 2)%nat.

(** The index halves on each turn, so [i + 1] turns are enough. *)
Fixpoint heap_up_loop (fuel : nat) (l : theap) (i : nat) : option theap :=
  match fuel with
  | O => None
  | S fuel =>
      if (i =? 0)%nat then Some l
      else
        let p := parent i in
        match due l p, due l i with
        | Some dp, Some di =>
            if dp <=? di then Some l
            else l ← heap_swap l p i; heap_up_loop fuel l p
        | _, _ => None
        end
  end.
Definition heap_up (l : theap) (i : nat) : option theap := heap_up_loop (S i) l i.

(** [c < heap_len && heap[c].due_us < heap[m].due_us]. *)
Definition heap_less (l : theap) (c m : nat) : option bool :=
  if (c <? length l)%nat then
    match due l c, due l m with
    | Some dc, Some dm => Some (dc <? dm)
    | _, _ => None
    end
  else Some false.

(** The index at least doubles on each turn it moves. *)
Fixpoint heap_down_loop (fuel : nat) (l : theap) (i : nat) : option theap :=
  match fuel with
  | O => None
  | S fuel =>
      let lc := (2 * i + 1)%nat in
      let rc := (lc + 1)%nat in
      bl ← heap_less l lc i;
      let m := if (bl : bool) then lc else i in
      br ← heap_less l rc m;
      let m := if (br : bool) then rc else m in
      if (m =? i)%nat then Some l
      else l ← heap_swap l m i; heap_down_loop fuel l m
  end.
Definition heap_down (l : theap) (i : nat) : option theap := heap_down_loop (S (length l)) l i.

(** [heap[heap_len] = t; heap_up(heap_len); heap_len++]. *)
Definition heap_push (l : theap) (t : UTimer) : option theap := heap_up (l ++ [t]) (length l).

Definition heap_remove_at (l : theap) (i : nat) : option theap :=
  match last l with
  | None => None   (* heap_len-- below zero *)
  | Some t =>
      let n := (length l - 1)%nat in
      let l' := take n l in
      if (i =? n)%nat then Some l'
      else if (i <? n)%nat then
        l' ← heap_down (<[i := t]> l') i;
        heap_up l' i
      else None
  end.

(** [heap_find_sleeper]: -1 is [None]. *)
Fixpoint heap_find_sleeper (l : theap) (s : nat) (i : nat) : option nat :=
  match l with
  | [] => None
  | t :: l => if (period_us t =? 0) && bool_decide (t_strand t = Some s) then Some i else heap_find_sleeper l s (S i)
  end.
Definition find_sleeper (l : theap) (s : nat) : option nat := heap_find_sleeper l s O.
Definition usched_has_timer (l : theap) (s : nat) : bool := bool_decide (is_Some (find_sleeper l s)).

(** [for (i = w / 2; i > 0; i--) heap_down(i - 1)]. *)
Fixpoint rebuild_loop (i : nat) (l : theap) : option theap :=
  match i with
  | O => Some l
  | S i => l ← heap_down l i; rebuild_loop i l
  end.

(** [kept] are the first [w] entries once the scan has compacted them. *)
Definition usched_heap_rebuild (l kept : theap) : option theap :=
  if (length kept =? length l)%nat then Some kept else rebuild_loop (length kept / 2)%nat kept.

(** The compaction scan: [heap[w++] = heap[i]] for the entries that stay. *)
Definition usched_timers_drop_tag (l : theap) (tag : nat) : option theap :=
  usched_heap_rebuild l (filter (fun t => ~ (period_us t <> 0 /\ t_tag t = Some tag)) l).
Definition usched_timers_drop_realm (l : theap) (realm : nat) : option theap :=
  usched_heap_rebuild l (filter (fun t => t_realm t <> Some realm) l).

(** The array with its capacity; [grow] answers the reallocation. *)
Record timers := MkTimers { tm_heap : theap; tm_cap : Z }.

Definition usched_timer_add (grow : bool) (tm : timers) (t : UTimer) : option (Z * timers) :=
  if zlen (tm_heap tm) =? tm_cap tm then
    let cap := if tm_cap tm =? 0 then 4 else u32 (tm_cap tm * 2) in
    if grow then h ← heap_push (tm_heap tm) t; Some (0, MkTimers h cap)
    else Some (-1, tm)
  else h ← heap_push (tm_heap tm) t; Some (0, MkTimers h (tm_cap tm)).

(** ** Order *)

Definition ordered (l : theap) (j : nat) : Prop :=
  forall tp tj, l !! parent j = Some tp -> l !! j = Some tj -> due_us tp <= due_us tj.

(** Every node whose parent is at or above [k] respects the order; [0] is
    the whole heap. *)
Definition heap_from (k : nat) (l : theap) : Prop :=
  forall j, (0 < j)%nat -> (k <= parent j)%nat -> ordered l j.
Abbreviation is_heap := (heap_from 0).

Lemma parent_lt j : (0 < j)%nat -> (parent j < j)%nat.
Proof. intros. unfold parent. apply Nat.Div0.div_lt_upper_bound; lia. Qed.

Lemma parent_child j i : (0 < j)%nat -> parent j = i <-> j = (2 * i + 1)%nat \/ j = (2 * i + 2)%nat.
Proof.
  intros Hj. unfold parent. pose proof (Nat.div_mod_eq (j - 1) 2). pose proof (Nat.mod_upper_bound (j - 1) 2). lia.
Qed.

(** ** Swaps *)

Lemma insert_perm {T} (l : list T) i j x y :
  l !! i = Some x -> l !! j = Some y -> i <> j -> <[j := x]> (<[i := y]> l) ≡ₚ l.
Proof.
  revert i j x y.
  assert (H : forall (l : list T) i j x y, l !! i = Some x -> l !! j = Some y -> (i < j)%nat -> <[j := x]> (<[i := y]> l) ≡ₚ l).
  { clear l. intros l. induction l as [|a l IH]; intros i j x y Hi Hj Hij; [done|]. destruct j as [|j]; [lia|]. cbn in Hj. destruct i as [|i].
    - cbn in Hi. injection Hi as ->. change (y :: <[j := x]> l ≡ₚ x :: l). rewrite <- (take_drop_middle l j y Hj) at 2.
      rewrite insert_take_drop by (by eapply lookup_lt_Some). solve_Permutation.
    - cbn in Hi. change (a :: <[j := x]> (<[i := y]> l) ≡ₚ a :: l). constructor. apply IH; [done|done|lia]. }
  intros i j x y Hi Hj Hne. destruct (decide (i < j)%nat); [by apply H|].
  rewrite list_insert_insert_ne by done. apply H; [done|done|lia].
Qed.

Lemma heap_swap_spec l a b x y :
  l !! a = Some x -> l !! b = Some y -> a <> b ->
  exists l', heap_swap l a b = Some l' /\ l' ≡ₚ l /\ length l' = length l /\
    forall j, l' !! j = if decide (j = a) then Some y else if decide (j = b) then Some x else l !! j.
Proof.
  intros Ha Hb Hne. unfold heap_swap. rewrite Ha, Hb. eexists. split; [done|]. split; [by apply insert_perm|].
  split; [by rewrite !length_insert|]. intros j. pose proof (lookup_lt_Some _ _ _ Ha). pose proof (lookup_lt_Some _ _ _ Hb).
  destruct (decide (j = b)) as [->|Hjb].
  - rewrite list_lookup_insert_eq by (rewrite length_insert; lia). by rewrite decide_False.
  - rewrite list_lookup_insert_ne by done. destruct (decide (j = a)) as [->|Hja]; [by rewrite list_lookup_insert_eq|].
    by rewrite list_lookup_insert_ne.
Qed.

(** The children of [i] are not before the parent of [i]. *)
Definition bridged (l : theap) (i : nat) : Prop :=
  forall j tp tj, (0 < j)%nat -> parent j = i -> l !! parent i = Some tp -> l !! j = Some tj -> due_us tp <= due_us tj.

Lemma due_eq l i t : l !! i = Some t -> due l i = Some (due_us t).
Proof. unfold due. by intros ->. Qed.

(** ** Sift up *)

Lemma heap_up_loop_spec fuel : forall l i,
  (i < fuel)%nat -> (i < length l)%nat ->
  (forall j, (0 < j)%nat -> j <> i -> ordered l j) -> ((0 < i)%nat -> bridged l i) ->
  exists l', heap_up_loop fuel l i = Some l' /\ l' ≡ₚ l /\ is_heap l'.
Proof.
  induction fuel as [|fuel IH]; intros l i Hf Hi Ho Hb; [lia|]. cbn [heap_up_loop]. destruct (i =? 0)%nat eqn:E0.
  { apply Nat.eqb_eq in E0. subst i. exists l. split; [done|]. split; [done|]. intros j Hj _. apply Ho; lia. }
  apply Nat.eqb_neq in E0. pose proof (parent_lt i ltac:(lia)) as Hpi.
  destruct (lookup_lt_is_Some_2 l i Hi) as [ti Hti]. destruct (lookup_lt_is_Some_2 l (parent i) ltac:(lia)) as [tp Htp].
  rewrite (due_eq _ _ _ Hti), (due_eq _ _ _ Htp). destruct (_ <=? _) eqn:Hle; zbool.
  { exists l. split; [done|]. split; [done|]. intros j Hj _. destruct (decide (j = i)) as [->|]; [|by apply Ho].
    intros a b Ha Hb'. congruence. }
  destruct (heap_swap_spec l (parent i) i tp ti Htp Hti ltac:(lia)) as (l1 & -> & Hp1 & Hl1 & Hlk). cbn [mbind option_bind].
  destruct (IH l1 (parent i)) as (l' & -> & Hp' & Hh); [lia|rewrite Hl1; lia|..|].
  - intros j Hj Hjp a b Ha Hb'. rewrite Hlk in Ha, Hb'. rewrite decide_False in Hb' by done.
    destruct (decide (j = i)) as [->|Hji].
    + rewrite decide_True in Ha by done. injection Ha as <-. injection Hb' as <-. lia.
    + destruct (decide (parent j = parent i)) as [E|Hne].
      * injection Ha as <-. specialize (Ho j Hj Hji tp b). rewrite E in Ho. specialize (Ho Htp Hb'). lia.
      * destruct (decide (parent j = i)) as [E|Hne']; [injection Ha as <-; eapply (Hb ltac:(lia) j); eauto|].
        by apply (Ho j Hj Hji).
  - intros Hpp c a b Hc Ec Ha Hb'. rewrite Hlk in Ha, Hb'. pose proof (parent_lt (parent i) Hpp).
    rewrite decide_False in Ha by lia. rewrite decide_False in Ha by lia.
    assert (Hap : due_us a <= due_us tp) by (eapply (Ho (parent i)); [lia|lia|exact Ha|exact Htp]).
    pose proof (parent_lt c Hc). rewrite decide_False in Hb' by lia. destruct (decide (c = i)) as [->|Hci].
    + injection Hb' as <-. done.
    + specialize (Ho c Hc Hci tp b). rewrite Ec in Ho. specialize (Ho Htp Hb'). lia.
  - exists l'. split; [done|]. split; [by rewrite Hp'|done].
Qed.

Lemma heap_up_spec l i :
  (i < length l)%nat -> (forall j, (0 < j)%nat -> j <> i -> ordered l j) -> ((0 < i)%nat -> bridged l i) ->
  exists l', heap_up l i = Some l' /\ l' ≡ₚ l /\ is_heap l'.
Proof. intros. apply heap_up_loop_spec; [lia|done..]. Qed.

Lemma heap_bridged l i : is_heap l -> (0 < i)%nat -> bridged l i.
Proof.
  intros H Hi j tp tj Hj E Htp Htj. pose proof (parent_lt j Hj). 
  destruct (lookup_lt_is_Some_2 l i) as [ti Hti]; [apply lookup_lt_Some in Htj; lia|].
  pose proof (H i Hi ltac:(lia) tp ti Htp Hti). specialize (H j Hj ltac:(lia) ti tj). rewrite E in H. specialize (H Hti Htj). lia.
Qed.

(** ** Sift down *)

Lemma heap_less_spec l c m tm : l !! m = Some tm ->
  exists b, heap_less l c m = Some b /\
    if b then exists tc, l !! c = Some tc /\ due_us tc < due_us tm
    else forall tc, l !! c = Some tc -> due_us tm <= due_us tc.
Proof.
  intros Hm. unfold heap_less. destruct (c <? length l)%nat eqn:E.
  - apply Nat.ltb_lt in E. destruct (lookup_lt_is_Some_2 l c E) as [tc Htc]. rewrite (due_eq _ _ _ Htc), (due_eq _ _ _ Hm).
    eexists. split; [done|]. destruct (_ <? _) eqn:Hlt; zbool; [by exists tc|]. intros tc' ?. by assert (tc' = tc) as -> by congruence.
  - apply Nat.ltb_ge in E. eexists. split; [done|]. intros tc ?%lookup_lt_Some. lia.
Qed.

(** The smallest of a node and its children. *)
Lemma pick_spec l i ti : l !! i = Some ti ->
  exists bl br, let lc := (2 * i + 1)%nat in let m := if (bl : bool) then lc else i in let m' := if (br : bool) then (lc + 1)%nat else m in
    heap_less l lc i = Some bl /\ heap_less l (lc + 1) m = Some br /\
    exists tm, l !! m' = Some tm /\ due_us tm <= due_us ti /\ (m' <> i -> due_us tm < due_us ti /\ parent m' = i /\ (i < m')%nat) /\
      forall j tj, (0 < j)%nat -> parent j = i -> l !! j = Some tj -> due_us tm <= due_us tj.
Proof.
  intros Hi. set (lc := (2 * i + 1)%nat). destruct (heap_less_spec l lc i ti Hi) as (bl & Hbl & Hl).
  assert (Hpl : parent lc = i) by (apply parent_child; lia). assert (Hpr : parent (lc + 1) = i) by (apply parent_child; lia).
  set (m := if bl then lc else i).
  assert (Hm : exists tm, l !! m = Some tm /\ due_us tm <= due_us ti /\ (m <> i -> due_us tm < due_us ti /\ parent m = i /\ (i < m)%nat) /\
    forall tj, l !! lc = Some tj -> due_us tm <= due_us tj).
  { unfold m. destruct bl.
    - destruct Hl as (tc & Htc & Hlt). exists tc. split; [done|]. split; [lia|]. split; [intros _; split; [done|split; [done|lia]]|].
      intros tj Htj. assert (tj = tc) as -> by congruence. lia.
    - exists ti. split; [done|]. split; [lia|]. split; [done|]. done. }
  destruct Hm as (tm & Htm & Hle & Hmi & Hmin). destruct (heap_less_spec l (lc + 1) m tm Htm) as (br & Hbr & Hr).
  exists bl, br. cbv zeta. fold m. split; [done|]. split; [done|].
  assert (Hch : forall j, (0 < j)%nat -> parent j = i -> j = lc \/ j = (lc + 1)%nat).
  { intros j Hj E. apply parent_child in E; [|done]. lia. }
  destruct br.
  - destruct Hr as (tc & Htc & Hlt). exists tc. split; [done|]. split; [lia|]. split; [intros _; split; [lia|split; [done|lia]]|].
    intros j tj Hj E Htj. destruct (Hch j Hj E) as [-> | ->]; [specialize (Hmin tj Htj); lia|]. assert (tj = tc) as -> by congruence. lia.
  - exists tm. split; [done|]. split; [done|]. split; [done|]. intros j tj Hj E Htj.
    destruct (Hch j Hj E) as [-> | ->]; [by apply Hmin|by apply Hr].
Qed.

Lemma heap_down_loop_spec k fuel : forall l i,
  (length l < fuel + i)%nat -> (i < length l)%nat -> (k <= i)%nat ->
  (forall j, (0 < j)%nat -> (k <= parent j)%nat -> parent j <> i -> ordered l j) ->
  ((0 < i)%nat -> (k <= parent i)%nat -> bridged l i) ->
  exists l', heap_down_loop fuel l i = Some l' /\ l' ≡ₚ l /\ heap_from k l'.
Proof.
  induction fuel as [|fuel IH]; intros l i Hf Hi Hk Ho Hb; [lia|]. cbn [heap_down_loop].
  destruct (lookup_lt_is_Some_2 l i Hi) as [ti Hti]. destruct (pick_spec l i ti Hti) as (bl & br & H). cbv zeta in H.
  destruct H as (-> & H). cbn [mbind option_bind]. destruct H as (-> & tm & Htm & Hle & Hmi & Hmin). cbn [mbind option_bind].
  set (m := if br then _ else _) in *. destruct (m =? i)%nat eqn:Em.
  { apply Nat.eqb_eq in Em. exists l. split; [done|]. split; [done|]. intros j Hj Hkj.
    destruct (decide (parent j = i)) as [E|]; [|by apply Ho]. intros a b Ha Hb'. rewrite E in Ha.
    assert (a = ti) as -> by congruence. assert (tm = ti) as <- by congruence. by eapply Hmin. }
  apply Nat.eqb_neq in Em. destruct (Hmi Em) as (Hlt & Hpm & Him). clearbody m. clear Hmi.
  destruct (heap_swap_spec l m i tm ti Htm Hti Em) as (l1 & -> & Hp1 & Hl1 & Hlk). cbn [mbind option_bind].
  pose proof (lookup_lt_Some _ _ _ Htm) as Hml.
  destruct (IH l1 m) as (l' & -> & Hp' & Hh); [rewrite Hl1; lia|rewrite Hl1; lia|lia|..|].
  - intros j Hj Hkj Hjm a b Ha Hb'. rewrite Hlk in Ha, Hb'. rewrite decide_False in Ha by done.
    destruct (decide (j = m)) as [->|Hjm'].
    + rewrite decide_True in Ha by done. injection Ha as <-. injection Hb' as <-. lia.
    + destruct (decide (parent j = i)) as [E|Hne].
      * injection Ha as <-. pose proof (parent_lt j Hj). rewrite decide_False in Hb' by lia. by eapply Hmin.
      * destruct (decide (j = i)) as [->|Hji].
        -- injection Hb' as <-. eapply (Hb Hj Hkj m); [lia|done|exact Ha|exact Htm].
        -- by apply (Ho j Hj Hkj Hne).
  - intros Hm0 _ c a b Hc Ec Ha Hb'. rewrite Hlk in Ha, Hb'. rewrite Hpm in Ha. rewrite decide_False in Ha by lia.
    rewrite decide_True in Ha by done. injection Ha as <-. pose proof (parent_lt c Hc). rewrite !decide_False in Hb' by lia.
    eapply (Ho c Hc); [lia|lia|by rewrite Ec|done].
  - exists l'. split; [done|]. split; [by rewrite Hp'|done].
Qed.

Lemma heap_down_spec k l i :
  (i < length l)%nat -> (k <= i)%nat ->
  (forall j, (0 < j)%nat -> (k <= parent j)%nat -> parent j <> i -> ordered l j) ->
  ((0 < i)%nat -> (k <= parent i)%nat -> bridged l i) ->
  exists l', heap_down l i = Some l' /\ l' ≡ₚ l /\ heap_from k l'.
Proof. intros. apply heap_down_loop_spec; [lia|done..]. Qed.

(** With no smaller child the sift is the identity. *)
Lemma heap_down_id l i ti :
  l !! i = Some ti -> (forall j tj, (0 < j)%nat -> parent j = i -> l !! j = Some tj -> due_us ti <= due_us tj) ->
  heap_down l i = Some l.
Proof.
  intros Hti Hc. unfold heap_down. cbn [heap_down_loop]. destruct (pick_spec l i ti Hti) as (bl & br & H). cbv zeta in H.
  destruct H as (-> & H). cbn [mbind option_bind]. destruct H as (-> & tm & Htm & _ & Hmi & _). cbn [mbind option_bind].
  set (m := if br then _ else _) in *. destruct (m =? i)%nat eqn:Em; [done|]. apply Nat.eqb_neq in Em.
  destruct (Hmi Em) as (Hlt & Hpm & Him). assert (due_us ti <= due_us tm) by (by eapply (Hc m); [lia|..]). lia.
Qed.

(** ** Operations *)

Lemma heap_push_spec l t : is_heap l -> exists l', heap_push l t = Some l' /\ l' ≡ₚ t :: l /\ is_heap l'.
Proof.
  intros Hh. unfold heap_push. assert (Hlen : length (l ++ [t]) = S (length l)) by (rewrite length_app; cbn [length]; lia).
  destruct (heap_up_spec (l ++ [t]) (length l)) as (l' & -> & Hp & Hh').
  - lia.
  - intros j Hj Hne a b Ha Hb. pose proof (lookup_lt_Some _ _ _ Hb) as Hlt. pose proof (parent_lt j Hj).
    rewrite lookup_app_l in Ha, Hb by lia. by apply (Hh j Hj ltac:(lia)).
  - intros _ j a b Hj E _ Hb%lookup_lt_Some. apply parent_child in E; [|done]. lia.
  - exists l'. split; [done|]. split; [|done]. rewrite Hp. solve_Permutation.
Qed.

(** A heap with its last entry cut off. *)
Lemma heap_take l n : is_heap l -> is_heap (take n l).
Proof.
  intros Hh j Hj _ a b Ha Hb. apply lookup_take_Some in Ha as [Ha _]. apply lookup_take_Some in Hb as [Hb _].
  by apply (Hh j Hj ltac:(lia)).
Qed.

Lemma last_split {T} (l : list T) t : last l = Some t -> l = take (length l - 1) l ++ [t].
Proof.
  intros H. apply last_Some in H as [l' ->]. rewrite length_app. cbn [length]. replace (length l' + 1 - 1)%nat with (length l') by lia.
  by rewrite take_app_length.
Qed.

Lemma heap_replace_spec l i t0 t : is_heap l -> l !! i = Some t0 ->
  exists l1 l', heap_down (<[i := t]> l) i = Some l1 /\ heap_up l1 i = Some l' /\ l' ≡ₚ <[i := t]> l /\ is_heap l'.
Proof.
  intros Hh Hi. pose proof (lookup_lt_Some _ _ _ Hi) as Hlt. set (l0 := <[i := t]> l).
  assert (Hlen : length l0 = length l) by (unfold l0; by rewrite length_insert).
  assert (Hl0i : l0 !! i = Some t) by (unfold l0; by rewrite list_lookup_insert_eq).
  assert (Hl0 : forall j, j <> i -> l0 !! j = l !! j) by (intros j Hj; unfold l0; by rewrite list_lookup_insert_ne).
  assert (Hother : forall j, (0 < j)%nat -> j <> i -> parent j <> i -> ordered l0 j).
  { intros j Hj Hji Hpi a b. rewrite !Hl0 by done. apply (Hh j Hj). lia. }
  assert (Hbr : (0 < i)%nat -> bridged l0 i).
  { intros H0 j a b Hj E. pose proof (parent_lt i H0). pose proof (parent_lt j Hj). rewrite !Hl0 by lia. by apply (heap_bridged l i Hh H0 j). }
  assert (Hcase : ((0 < i)%nat /\ exists tp, l !! parent i = Some tp /\ due_us t < due_us tp) \/
    ((0 < i)%nat -> forall tp, l !! parent i = Some tp -> due_us tp <= due_us t)).
  { destruct (decide (0 < i)%nat); [|by right]. destruct (l !! parent i) as [tp|]; [|by right].
    destruct (decide (due_us t < due_us tp)); [left; split; [done|]; by exists tp|right]. intros _ tp' [= <-]. lia. }
  destruct Hcase as [(H0 & tp & Htp & Hlt')|Hge].
  - pose proof (parent_lt i H0) as Hpi. assert (Hkids : forall j tj, (0 < j)%nat -> parent j = i -> l0 !! j = Some tj -> due_us t <= due_us tj).
    { intros j tj Hj E Htj. pose proof (Hbr H0 j tp tj Hj E). rewrite Hl0 in H by lia. specialize (H Htp Htj). lia. }
    exists l0. rewrite (heap_down_id l0 i t Hl0i Hkids). destruct (heap_up_spec l0 i) as (l' & Hu & Hp & Hhp); [lia| |done|by exists l'].
    intros j Hj Hji. destruct (decide (parent j = i)) as [E|]; [|by apply Hother]. intros a b Ha Hb. rewrite E in Ha.
    assert (a = t) as -> by congruence. by eapply Hkids.
  - destruct (heap_down_spec 0 l0 i) as (l1 & Hd & Hp1 & Hh1); [lia|lia| |auto|].
    { intros j Hj _ Hpi. destruct (decide (j = i)) as [->|]; [|by apply Hother]. intros a b Ha Hb.
      pose proof (parent_lt i Hj). rewrite Hl0 in Ha by lia. assert (b = t) as -> by congruence.
      by apply Hge. }
    exists l1. destruct (heap_up_spec l1 i) as (l' & Hu & Hp & Hhp).
    + by rewrite Hp1, Hlen.
    + intros j Hj _. apply (Hh1 j Hj). lia.
    + intros H0. by apply heap_bridged.
    + exists l'. split; [done|]. split; [done|]. split; [by rewrite Hp, Hp1|done].
Qed.

Lemma heap_remove_spec l i t : is_heap l -> l !! i = Some t ->
  exists l', heap_remove_at l i = Some l' /\ t :: l' ≡ₚ l /\ is_heap l'.
Proof.
  intros Hh Hi. pose proof (lookup_lt_Some _ _ _ Hi) as Hlt. unfold heap_remove_at.
  destruct (last l) as [z|] eqn:Hz; [|apply last_None in Hz; subst l; done].
  pose proof (last_split l z Hz) as El. set (n := (length l - 1)%nat) in *. set (l0 := take n l) in *.
  assert (Hl0 : length l0 = n) by (unfold l0; rewrite length_take; lia). destruct (i =? n)%nat eqn:Ei.
  - apply Nat.eqb_eq in Ei. exists l0. split; [done|]. split; [|by apply heap_take].
    rewrite El in Hi. rewrite lookup_app_r in Hi by lia. replace (i - length l0)%nat with O in Hi by lia. cbn in Hi.
    injection Hi as <-. rewrite El at 1. solve_Permutation.
  - apply Nat.eqb_neq in Ei. destruct (i <? n)%nat eqn:Ein; [|apply Nat.ltb_ge in Ein; lia]. apply Nat.ltb_lt in Ein.
    rewrite El in Hi. rewrite lookup_app_l in Hi by lia.
    destruct (heap_replace_spec l0 i t z (heap_take l n Hh) Hi) as (l1 & l' & -> & Hu & Hp & Hhp). exists l'. split; [done|].
    split; [|done]. rewrite Hp, El. rewrite insert_take_drop by lia. rewrite <- (take_drop_middle l0 i t Hi) at 3.
    solve_Permutation.
Qed.

Lemma rebuild_loop_spec i : forall l, (i <= length l)%nat -> heap_from i l -> exists l', rebuild_loop i l = Some l' /\ l' ≡ₚ l /\ is_heap l'.
Proof.
  induction i as [|i IH]; intros l Hi Hh; cbn [rebuild_loop]; [by exists l|].
  destruct (heap_down_spec i l i) as (l1 & -> & Hp & Hh1); [lia|lia| | |].
  - intros j Hj Hk Hne. apply (Hh j Hj). lia.
  - intros H0 Hk. pose proof (parent_lt i H0). lia.
  - cbn [mbind option_bind]. destruct (IH l1) as (l' & -> & Hp' & Hh'); [by rewrite Hp; lia|done|]. exists l'. split; [done|]. split; [by rewrite Hp'|done].
Qed.

Lemma rebuild_spec l kept : is_heap l -> (length kept = length l -> kept = l) ->
  exists l', usched_heap_rebuild l kept = Some l' /\ l' ≡ₚ kept /\ is_heap l'.
Proof.
  intros Hh Hsame. unfold usched_heap_rebuild. destruct (_ =? _)%nat eqn:E.
  - apply Nat.eqb_eq in E. rewrite (Hsame E). by exists l.
  - apply rebuild_loop_spec; [apply Nat.Div0.div_le_upper_bound; lia|]. intros j Hj Hk a b _ Hb%lookup_lt_Some.
    unfold parent in Hk. pose proof (Nat.div_mod_eq (length kept) 2). pose proof (Nat.mod_upper_bound (length kept) 2).
    pose proof (Nat.div_mod_eq (j - 1) 2). lia.
Qed.

Lemma filter_same_length {T} (P : T -> Prop) `{forall x, Decision (P x)} l : length (filter P l) = length l -> filter P l = l.
Proof.
  induction l as [|x l IH]; [done|]. rewrite filter_cons. destruct (decide (P x)); cbn [length]; intros E.
  - f_equal. apply IH. lia.
  - pose proof (length_filter P l). lia.
Qed.

Lemma drop_spec (P : UTimer -> Prop) `{forall t, Decision (P t)} l : is_heap l ->
  exists l', usched_heap_rebuild l (filter P l) = Some l' /\ is_heap l' /\ l' ≡ₚ filter P l.
Proof.
  intros Hh. destruct (rebuild_spec l (filter P l) Hh (filter_same_length P l)) as (l' & Hl' & Hp & Hh'). exists l'. by split.
Qed.

Lemma find_sleeper_spec l s : forall i,
  match heap_find_sleeper l s i with
  | Some k => (i <= k)%nat /\ exists t, l !! (k - i)%nat = Some t /\ period_us t = 0 /\ t_strand t = Some s
  | None => forall t, t ∈ l -> ~ (period_us t = 0 /\ t_strand t = Some s)
  end.
Proof.
  induction l as [|t l IH]; intros i; cbn [heap_find_sleeper]; [by intros t ?%elem_of_nil|].
  destruct ((period_us t =? 0) && bool_decide (t_strand t = Some s)) eqn:E.
  - zbool. split; [lia|]. exists t. rewrite Nat.sub_diag. split; [done|]. split; [done|].
    by match goal with H : bool_decide _ = true |- _ => apply bool_decide_eq_true in H end.
  - specialize (IH (S i)). destruct (heap_find_sleeper l s (S i)) as [k|].
    + destruct IH as (Hk & t' & Ht' & ?). split; [lia|]. exists t'. replace (k - i)%nat with (S (k - S i)) by lia. done.
    + intros t' [->|Ht']%elem_of_cons; [|by apply IH]. intros [H1 H2]. rewrite H1, H2 in E. rewrite bool_decide_true in E by done. done.
Qed.

Lemma heap_root_min l t : is_heap l -> l !! O = Some t -> forall j tj, l !! j = Some tj -> due_us t <= due_us tj.
Proof.
  intros Hh H0 j. induction j as [j IH] using lt_wf_ind. intros tj Hj. destruct (decide (j = O)) as [->|Hne]; [by assert (tj = t) as -> by congruence|].
  pose proof (parent_lt j ltac:(lia)) as Hp. destruct (lookup_lt_is_Some_2 l (parent j)) as [tp Htp].
  { apply lookup_lt_Some in Hj. lia. }
  pose proof (IH _ Hp tp Htp). pose proof (Hh j ltac:(lia) ltac:(lia) tp tj Htp Hj). lia.
Qed.

Lemma timer_add_spec grow tm t : is_heap (tm_heap tm) -> zlen (tm_heap tm) <= tm_cap tm < 2 ^ 31 ->
  exists rc tm', usched_timer_add grow tm t = Some (rc, tm') /\
    if negb grow && (zlen (tm_heap tm) =? tm_cap tm) then rc = -1 /\ tm' = tm
    else rc = 0 /\ tm_heap tm' ≡ₚ t :: tm_heap tm /\ is_heap (tm_heap tm') /\ zlen (tm_heap tm') <= tm_cap tm'.
Proof.
  intros Hh Hc. pose proof (zlen_nonneg (tm_heap tm)). unfold usched_timer_add. destruct (heap_push_spec (tm_heap tm) t Hh) as (l' & -> & Hp & Hh').
  assert (Hl' : zlen l' = zlen (tm_heap tm) + 1) by (unfold zlen; rewrite Hp; cbn [length]; lia).
  destruct (_ =? _) eqn:E; zbool; cbn [mbind option_bind].
  - destruct grow; cbn [negb andb]; [|by eexists _, _]. eexists _, _. split; [done|]. split; [done|]. cbn [tm_heap tm_cap].
    split; [done|]. split; [done|]. zcase; [lia|]. rewrite u32_small by lia. lia.
  - rewrite andb_false_r. eexists _, _. split; [done|]. cbn [tm_heap tm_cap]. split; [done|]. split; [done|]. split; [done|lia].
Qed.

(** ** Properties *)

(** adding a timer: unless the array is full and cannot grow, in which case
    -1 is returned and nothing changes, the record is in the heap, every
    other record still is, the heap order holds and the array is within its
    capacity. *)
Theorem usched_timer_add_correct grow tm t :
  is_heap (tm_heap tm) -> zlen (tm_heap tm) <= tm_cap tm < 2 ^ 31 ->
  exists rc tm', usched_timer_add grow tm t = Some (rc, tm') /\
    if negb grow && (zlen (tm_heap tm) =? tm_cap tm) then rc = -1 /\ tm' = tm
    else rc = 0 /\ tm_heap tm' ≡ₚ t :: tm_heap tm /\ is_heap (tm_heap tm') /\ zlen (tm_heap tm') <= tm_cap tm'.
Proof. exact (timer_add_spec grow tm t). Qed.

Definition sleeper (d : Z) (s : nat) : UTimer := MkTimer d 0 (Some s) None None None.
Definition periodic (d p : Z) (tag : nat) : UTimer := MkTimer d p None (Some O) (Some tag) (Some O).

Lemma usched_timer_add_correct_witness :
  exists rc tm', usched_timer_add true (MkTimers [sleeper 5 1] 1) (sleeper 3 2) = Some (rc, tm') /\
    rc = 0 /\ tm_heap tm' ≡ₚ [sleeper 3 2; sleeper 5 1] /\ is_heap (tm_heap tm') /\ zlen (tm_heap tm') <= tm_cap tm'.
Proof.
  apply (usched_timer_add_correct true (MkTimers [sleeper 5 1] 1) (sleeper 3 2)).
  - intros j Hj _ a b _ Hb. apply lookup_lt_Some in Hb. cbn in Hb. lia.
  - change (1 <= 1 < 2 ^ 31). lia.
Defined.

(** removing an entry anywhere in the heap (a sleeper woken early) takes out
    that record and no other and restores the order, by a sift down followed
    by a sift up. *)
Theorem heap_remove_at_correct l i t :
  is_heap l -> l !! i = Some t -> exists l', heap_remove_at l i = Some l' /\ t :: l' ≡ₚ l /\ is_heap l'.
Proof. exact (heap_remove_spec l i t). Qed.

Lemma heap_remove_at_correct_witness :
  let l := [sleeper 1 1; sleeper 9 2; sleeper 2 3; sleeper 10 4; sleeper 11 5; sleeper 3 6] in
  exists l', heap_remove_at l 3 = Some l' /\ sleeper 10 4 :: l' ≡ₚ l /\ is_heap l'.
Proof.
  apply heap_remove_at_correct; [|reflexivity].
  intros j Hj _ a b Ha Hb. destruct j as [|[|[|[|[|[|j]]]]]]; [lia|..|discriminate Hb];
    vm_compute in Ha, Hb; injection Ha as <-; injection Hb as <-; cbn; lia.
Defined.

(** the compaction behind a stopped tag or a closed realm: exactly the
    periodics of the tag, respectively every record of the realm, are gone,
    everything else is kept, and the rebuilt array is a heap again. *)
Theorem timers_drop_exact l :
  is_heap l ->
  (forall tag, exists l', usched_timers_drop_tag l tag = Some l' /\ is_heap l' /\
     l' ≡ₚ filter (fun t => ~ (period_us t <> 0 /\ t_tag t = Some tag)) l) /\
  (forall realm, exists l', usched_timers_drop_realm l realm = Some l' /\ is_heap l' /\
     l' ≡ₚ filter (fun t => t_realm t <> Some realm) l).
Proof.
  intros Hh. split; intros k; by apply drop_spec.
Qed.

Lemma timers_drop_exact_witness :
  exists l', usched_timers_drop_tag [periodic 1 5 7; periodic 2 5 7; sleeper 3 1; periodic 4 5 7] 7 = Some l' /\ is_heap l' /\
    l' ≡ₚ [sleeper 3 1].
Proof.
  destruct (timers_drop_exact [periodic 1 5 7; periodic 2 5 7; sleeper 3 1; periodic 4 5 7]) as [H _].
  - intros j Hj _ a b Ha Hb. destruct j as [|[|[|[|j]]]]; [lia|..|discriminate Hb];
      vm_compute in Ha, Hb; injection Ha as <-; injection Hb as <-; cbn; lia.
  - exact (H 7%nat).
Defined.
