(* ===== verification/Sched.v ===== *)
(** * Run queue, wait lists, park and wake (src/src/rt/usched.c, usched.h, ustrand.h)

    Strands are cells of a store; the run queue, every wait list and the
    dead list are intrusive lists threaded through the one [link] field of a
    strand, as in the C.  [None] is a dereference of NULL or of a strand that
    does not exist, or a walk that does not end. *)
From S2P Require Import Prelude Timers.

(** ** Strands *)

Inductive strand_state := USTRAND_READY | USTRAND_RUNNING | USTRAND_PARKED | USTRAND_DEAD.
#[global] Instance strand_state_eq_dec : EqDecision strand_state.
Proof. solve_decision. Defined.

Inductive UUnwindKind := UUNWIND_NONE | UUNWIND_RETURN | UUNWIND_THROW | UUNWIND_STOP | UUNWIND_JUMP | UUNWIND_FATAL.
#[global] Instance UUnwindKind_eq_dec : EqDecision UUnwindKind.
Proof. solve_decision. Defined.

(** The values the scheduler itself looks at: nil, a tag cell, anything else. *)
Inductive uval := VNil | VTag (t : nat) | VOther (n : Z).
#[global] Instance uval_eq_dec : EqDecision uval.
Proof. solve_decision. Defined.

(** A wait list is the [waiters] of an event, the [joiners] of a strand or
    the [waiters] of a watcher. *)
Inductive waitlist := WEvent (e : nat) | WJoiners (s : nat) | WWatcher (w : nat).
#[global] Instance waitlist_eq_dec : EqDecision waitlist.
Proof. solve_decision. Defined.
#[global] Instance waitlist_countable : Countable waitlist.
Proof.
  apply (inj_countable' (fun w => match w with WEvent e => inl e | WJoiners s => inr (inl s) | WWatcher w => inr (inr w) end)
    (fun x => match x with inl e => WEvent e | inr (inl s) => WJoiners s | inr (inr w) => WWatcher w end)). by intros [].
Defined.

(** A cleanup entry, as far as scope membership reads it. *)
Record UCleanup := MkCleanup { cl_tag_scope : bool; cl_saved : uval }.

Record UStrand := MkStrand {
  s_state : strand_state;
  s_gates : Z;
  s_unwind : UUnwindKind;
  s_transfer : uval;
  s_link : option nat;
  s_waiting_on : option waitlist;
  s_wake_us : Z;
  s_tag : option nat;
  s_cleanup : list UCleanup;
  s_is_spare : bool;
  s_nboundary : Z }.

(** The four writes that move a strand between lists. *)
Definition strand_move (st : strand_state) (w : option waitlist) (wake : Z) (l : option nat) (x : UStrand) : UStrand :=
  MkStrand st (s_gates x) (s_unwind x) (s_transfer x) l w wake (s_tag x) (s_cleanup x) (s_is_spare x) (s_nboundary x).
Definition with_link (l : option nat) (x : UStrand) : UStrand := strand_move (s_state x) (s_waiting_on x) (s_wake_us x) l x.
Definition with_gates (g : Z) (x : UStrand) : UStrand :=
  MkStrand (s_state x) g (s_unwind x) (s_transfer x) (s_link x) (s_waiting_on x) (s_wake_us x) (s_tag x) (s_cleanup x) (s_is_spare x) (s_nboundary x).
Definition with_unwind (u : UUnwindKind) (v : uval) (x : UStrand) : UStrand :=
  MkStrand (s_state x) (s_gates x) u v (s_link x) (s_waiting_on x) (s_wake_us x) (s_tag x) (s_cleanup x) (s_is_spare x) (s_nboundary x).

(** ** The scheduler: [USched], the wait-list heads, the realms' strands *)

Record sched := MkSched {
  strands : gmap nat UStrand;
  run_head : option nat;
  run_tail : option nat;
  current : option nat;
  dead : option nat;
  wheads : gmap waitlist nat;   (* absent: NULL *)
  timers_heap : theap;
  tag_flags : gmap nat Z;
  realm_strands : list nat }.   (* in the order the realm lists are walked *)

Definition set_strands (m : gmap nat UStrand) (v : sched) : sched :=
  MkSched m (run_head v) (run_tail v) (current v) (dead v) (wheads v) (timers_heap v) (tag_flags v) (realm_strands v).
Definition set_queue (h t : option nat) (v : sched) : sched :=
  MkSched (strands v) h t (current v) (dead v) (wheads v) (timers_heap v) (tag_flags v) (realm_strands v).
Definition set_heads (m : gmap waitlist nat) (v : sched) : sched :=
  MkSched (strands v) (run_head v) (run_tail v) (current v) (dead v) m (timers_heap v) (tag_flags v) (realm_strands v).
Definition set_dead (d : option nat) (v : sched) : sched :=
  MkSched (strands v) (run_head v) (run_tail v) (current v) d (wheads v) (timers_heap v) (tag_flags v) (realm_strands v).
Definition set_timers (l : theap) (v : sched) : sched :=
  MkSched (strands v) (run_head v) (run_tail v) (current v) (dead v) (wheads v) l (tag_flags v) (realm_strands v).
Definition set_flags (m : gmap nat Z) (v : sched) : sched :=
  MkSched (strands v) (run_head v) (run_tail v) (current v) (dead v) (wheads v) (timers_heap v) m (realm_strands v).
Definition set_realm_strands (l : list nat) (v : sched) : sched :=
  MkSched (strands v) (run_head v) (run_tail v) (current v) (dead v) (wheads v) (timers_heap v) (tag_flags v) l.

(** [p->field = ...] through a strand pointer. *)
Definition poke (s : nat) (f : UStrand -> UStrand) (v : sched) : option sched :=
  x ← strands v !! s; Some (set_strands (<[s := f x]> (strands v)) v).

Definition opt_set {K} `{Countable K} (k : K) (o : option nat) (m : gmap K nat) : gmap K nat :=
  match o with Some x => <[k := x]> m | None => delete k m end.

(** ** The run queue *)

Definition usched_enqueue (s : nat) (v : sched) : option sched :=
  x ← strands v !! s;
  if decide (s_state x = USTRAND_DEAD) then Some v
  else if bool_decide (run_tail v = Some s) || bool_decide (s_link x <> None) then Some v
  else if negb (s_gates x =? 0) then
    (if decide (s_state x = USTRAND_PARKED) then Some v
     else poke s (strand_move USTRAND_PARKED None 0 None) v)
  else
    v ← poke s (strand_move USTRAND_READY None 0 None) v;
    v ← (match run_tail v with
         | Some t => poke t (with_link (Some s)) v
         | None => Some (set_queue (Some s) (run_tail v) v)
         end);
    Some (set_queue (run_head v) (Some s) v).

(** The search loop of [usched_unqueue]; a well-formed queue visits each
    strand at most once. *)
Fixpoint unqueue_loop (fuel : nat) (s : nat) (prev c : option nat) (v : sched) : option sched :=
  match c with
  | None => Some v
  | Some c =>
      match fuel with
      | O => None
      | S fuel =>
          x ← strands v !! c;
          if decide (c = s) then
            v ← (match prev with
                 | Some p => poke p (with_link (s_link x)) v
                 | None => Some (set_queue (s_link x) (run_tail v) v)
                 end);
            let v := if bool_decide (run_tail v = Some s) then set_queue (run_head v) prev v else v in
            poke s (with_link None) v
          else unqueue_loop fuel s (Some c) (s_link x) v
      end
  end.
Definition usched_unqueue (s : nat) (v : sched) : option sched :=
  unqueue_loop (S (size (strands v))) s None (run_head v) v.

Definition usched_dequeue (v : sched) : option (option nat * sched) :=
  match run_head v with
  | None => Some (None, v)
  | Some s =>
      x ← strands v !! s;
      let v := set_queue (s_link x) (if bool_decide (s_link x = None) then None else run_tail v) v in
      v ← poke s (with_link None) v;
      Some (Some s, v)
  end.

(** ** Park and wake *)

Definition usched_may_deschedule (x : UStrand) : bool := negb (s_is_spare x) && (s_nboundary x =? 0).

Definition usched_park (s : nat) (w : option waitlist) (wake : Z) (v : sched) : option (Z * sched) :=
  x ← strands v !! s;
  if negb (usched_may_deschedule x) then Some (-1, v)
  else
    match w with
    | None => v ← poke s (strand_move USTRAND_PARKED w wake None) v; Some (0, v)
    | Some l =>
        v ← poke s (strand_move USTRAND_PARKED w wake (wheads v !! l)) v;
        Some (0, set_heads (<[l := s]> (wheads v)) v)
    end.

(** The pointer-to-pointer walk: [pp] is the list head or
    the link field of strand [prev]. *)
Fixpoint unlink_loop (fuel : nat) (s : nat) (w : waitlist) (prev c : option nat) (v : sched) : option sched :=
  match c with
  | None => Some v
  | Some c =>
      match fuel with
      | O => None
      | S fuel =>
          x ← strands v !! c;
          if decide (c = s) then
            match prev with
            | Some p => poke p (with_link (s_link x)) v
            | None => Some (set_heads (opt_set w (s_link x) (wheads v)) v)
            end
          else unlink_loop fuel s w (Some c) (s_link x) v
      end
  end.

Definition usched_unlink_wait (s : nat) (v : sched) : option sched :=
  x ← strands v !! s;
  match s_waiting_on x with
  | None => Some v
  | Some w =>
      v ← unlink_loop (S (size (strands v))) s w None (wheads v !! w) v;
      x ← strands v !! s;
      poke s (strand_move (s_state x) None (s_wake_us x) None) v
  end.

Definition usched_wake (s : nat) (payload : uval) (v : sched) : option sched :=
  x ← strands v !! s;
  if decide (s_state x = USTRAND_PARKED) then
    v ← usched_unlink_wait s v;
    v ← (match find_sleeper (timers_heap v) s with
         | Some i => h ← heap_remove_at (timers_heap v) i; Some (set_timers h v)
         | None => Some v
         end);
    v ← poke s (fun x => strand_move (s_state x) (s_waiting_on x) 0 (s_link x) x) v;
    x ← strands v !! s;
    v ← (if bool_decide (payload <> VNil) && bool_decide (s_unwind x = UUNWIND_NONE)
         then poke s (with_unwind (s_unwind x) payload) v else Some v);
    if negb (s_gates x =? 0) then poke s (with_link None) v else usched_enqueue s v
  else Some v.

(** ** Intrusive lists *)

Fixpoint chain (lk : nat -> option nat) (h : option nat) (l : list nat) : Prop :=
  match l with
  | [] => h = None
  | x :: l => h = Some x /\ chain lk (lk x) l
  end.

Lemma chain_ext lk lk' l : forall h, (forall x, x ∈ l -> lk' x = lk x) -> chain lk h l -> chain lk' h l.
Proof.
  induction l as [|x l IH]; intros h Hlk; [done|]. intros [-> Hc]. split; [done|]. rewrite Hlk by left.
  apply IH; [|done]. intros y Hy. apply Hlk. by right.
Qed.

Lemma chain_det lk l : forall h l', chain lk h l -> chain lk h l' -> l = l'.
Proof.
  induction l as [|x l IH]; intros h [|y l']; cbn; [done|by intros -> [[=] _]|by intros [-> _] [=]|].
  intros [-> H] [[= <-] H']. f_equal. by eapply IH.
Qed.

Lemma chain_drop lk l1 x l2 h : chain lk h (l1 ++ x :: l2) -> chain lk (lk x) l2.
Proof. revert h. induction l1 as [|y l1 IH]; intros h; cbn; [by intros [_ ?]|]. intros [_ H]. by eapply IH. Qed.

(** A list that ends visits no strand twice. *)
Lemma chain_nodup lk l : forall h, chain lk h l -> NoDup l.
Proof.
  induction l as [|x l IH]; intros h; [constructor|]. intros [-> H]. constructor; [|by eapply IH].
  intros Hx. apply list_elem_of_split in Hx as (l1 & l2 & ->). pose proof (chain_drop _ _ _ _ _ H) as H2.
  pose proof (chain_det _ _ _ _ H H2) as E. apply (f_equal length) in E. rewrite length_app in E. cbn in E. lia.
Qed.

Lemma chain_head lk h l : chain lk h l -> h = head l.
Proof. by destruct l; [|intros [-> _]]. Qed.

Lemma chain_snoc lk l : forall h x s, chain lk h (l ++ [x]) -> s ∉ l ++ [x] ->
  chain (fun y => if decide (y = x) then Some s else if decide (y = s) then None else lk y) h (l ++ [x; s]).
Proof.
  induction l as [|y l IH]; intros h x s; cbn.
  - intros [-> _] Hs. rewrite decide_True by done. split; [done|]. split; [done|].
    rewrite decide_False by set_solver. by rewrite decide_True.
  - intros [-> H] Hs. assert (Hyx : y <> x).
    { apply chain_nodup in H as Hnd. intros ->. pose proof (chain_drop lk l x [] _ H) as H0. cbn in H0. rewrite H0 in H.
      destruct l; cbn in H; [by destruct H|by destruct H]. }
    split; [done|]. rewrite !decide_False by set_solver. apply IH; [done|set_solver].
Qed.

(** Unlinking [x] from the middle: its predecessor takes over its link. *)
Lemma chain_remove lk l1 x l2 h :
  chain lk h (l1 ++ x :: l2) ->
  match last l1 with
  | None => h = Some x /\ chain lk (lk x) l2
  | Some p => chain (fun y => if decide (y = p) then lk x else lk y) h (l1 ++ l2)
  end.
Proof.
  revert h. induction l1 as [|y l1 IH]; intros h; [done|]. intros [-> H].
  assert (Hnd : NoDup (y :: l1 ++ x :: l2)).
  { apply (chain_nodup lk _ (Some y)). by split. }
  specialize (IH _ H). destruct l1 as [|z l1].
  - cbn. split; [done|]. rewrite decide_True by done. destruct IH as [_ IH]. eapply chain_ext; [|exact IH].
    intros w Hw. rewrite decide_False; [done|]. intros ->. apply NoDup_cons in Hnd as [Hn _]. set_solver.
  - change (last (y :: z :: l1)) with (last (z :: l1)). destruct (last (z :: l1)) as [p|] eqn:Ep; [|by apply last_None in Ep].
    split; [done|]. rewrite decide_False; [done|]. intros ->. apply NoDup_cons in Hnd as [Hn _]. apply Hn.
    apply last_Some in Ep as [l' ->]. set_solver.
Qed.

(** ** The abstract scheduler and its representation

    [q] is the run queue in order, [W] the wait lists, newest first, [D] the
    strands that died since the last reap, and [act] the strands off the
    queue that are neither parked nor dead: the ones being dispatched. *)

Definition lk (v : sched) (x : nat) : option nat := strands v !! x ≫= s_link.

Record rep (v : sched) (q : list nat) (W : waitlist -> list nat) (D act : list nat) : Prop := {
  rp_q : chain (lk v) (run_head v) q;
  rp_tail : run_tail v = last q;
  rp_w : forall w, chain (lk v) (wheads v !! w) (W w);
  rp_d : chain (lk v) (dead v) D;
  rp_qs : forall s, s ∈ q -> exists x, strands v !! s = Some x /\ s_state x = USTRAND_READY /\ s_waiting_on x = None;
  rp_ws : forall s w, s ∈ W w <-> exists x, strands v !! s = Some x /\ s_state x = USTRAND_PARKED /\ s_waiting_on x = Some w;
  rp_ds : forall s, s ∈ D -> exists x, strands v !! s = Some x /\ s_state x = USTRAND_DEAD;
  rp_link : forall s x, strands v !! s = Some x -> s_link x <> None -> s ∈ q \/ (exists w, s ∈ W w) \/ s ∈ D;
  rp_act : forall s x, strands v !! s = Some x -> s_state x = USTRAND_READY \/ s_state x = USTRAND_RUNNING -> s ∈ q \/ s ∈ act;
  rp_heap : is_heap (timers_heap v) }.

Lemma poke_spec s f v x : strands v !! s = Some x -> poke s f v = Some (set_strands (<[s := f x]> (strands v)) v).
Proof. unfold poke. by intros ->. Qed.

(** A strand on none of the lists. *)
Definition off_lists (q : list nat) (W : waitlist -> list nat) (D : list nat) (s : nat) : Prop :=
  s ∉ q /\ (forall w, s ∉ W w) /\ s ∉ D.

Lemma off_link v q W D act s x : rep v q W D act -> off_lists q W D s -> strands v !! s = Some x -> s_link x = None.
Proof.
  intros Hr (Hq & Hw & Hd) Hx. destruct (s_link x) eqn:E; [|done]. exfalso.
  destruct (rp_link _ _ _ _ _ Hr s x Hx) as [?|[[w ?]|?]]; [congruence|done|by eapply Hw|done].
Qed.

Lemma lk_insert v s y x : lk (set_strands (<[s := y]> (strands v)) v) x = if decide (x = s) then s_link y else lk v x.
Proof.
  unfold lk. cbn [strands set_strands]. destruct (decide (x = s)) as [->|]; [by rewrite lookup_insert_eq|by rewrite lookup_insert_ne].
Qed.

Definition drop_act (s : nat) (act : list nat) : list nat := filter (fun a => a <> s) act.

Lemma elem_drop_act a s act : a ∈ drop_act s act <-> a <> s /\ a ∈ act.
Proof. unfold drop_act. by rewrite list_elem_of_filter. Qed.

(** Writing a strand that is on no list and stays on none. *)
Lemma rep_off v q W D act act' s x y :
  rep v q W D act -> strands v !! s = Some x -> off_lists q W D s -> s_link y = None ->
  (s_state y = USTRAND_PARKED -> s_waiting_on y = None) ->
  (s_state y = USTRAND_READY \/ s_state y = USTRAND_RUNNING -> s ∈ act') ->
  (forall a, a ∈ act -> a <> s -> a ∈ act') ->
  rep (set_strands (<[s := y]> (strands v)) v) q W D act'.
Proof.
  intros Hr Hx (Hq & Hw & Hd) Hl Hpk Hact Hact'.
  assert (Hframe : forall h l, s ∉ l -> chain (lk v) h l -> chain (lk (set_strands (<[s := y]> (strands v)) v)) h l).
  { intros h l Hs. apply chain_ext. intros z Hz. rewrite lk_insert, decide_False by set_solver. done. }
  destruct Hr. split; cbn [run_head run_tail wheads dead timers_heap set_strands strands]; try done; try (by apply Hframe); try (by intros w; apply Hframe).
  - intros z Hz. rewrite lookup_insert_ne by set_solver. auto.
  - intros z w. destruct (decide (z = s)) as [->|Hne].
    + rewrite lookup_insert_eq. split; [by intros ?%Hw|]. intros (x' & [= <-] & Hst & Hwt). rewrite Hpk in Hwt by done. done.
    + rewrite lookup_insert_ne by done. apply rp_ws0.
  - intros z Hz. rewrite lookup_insert_ne by set_solver. auto.
  - intros z x' Hz. destruct (decide (z = s)) as [->|Hne]; [rewrite lookup_insert_eq in Hz; by injection Hz as <-|].
    rewrite lookup_insert_ne in Hz by done. by apply rp_link0.
  - intros z x' Hz Hst. destruct (decide (z = s)) as [->|Hne]; [rewrite lookup_insert_eq in Hz; injection Hz as <-; auto|].
    rewrite lookup_insert_ne in Hz by done. destruct (rp_act0 z x' Hz Hst); [by left|right]. by apply Hact'.
Qed.

(** Appending such a strand to the queue. *)
Lemma rep_append v q W D act s y :
  rep v q W D act -> strands v !! s = Some y -> off_lists q W D s ->
  s_state y = USTRAND_READY -> s_waiting_on y = None ->
  exists v', (match run_tail v with
         | Some t => poke t (with_link (Some s)) v
         | None => Some (set_queue (Some s) (run_tail v) v)
         end) = Some v' /\ rep (set_queue (run_head v') (Some s) v') (q ++ [s]) W D (drop_act s act).
Proof.
  intros Hr Hy Hoff Hst Hwt. pose proof (off_link _ _ _ _ _ _ _ Hr Hoff Hy) as Hl. destruct Hoff as (Hq & Hw & Hd).
  assert (Hact : forall z x, strands v !! z = Some x -> s_state x = USTRAND_READY \/ s_state x = USTRAND_RUNNING -> z ∈ q ++ [s] \/ z ∈ drop_act s act).
  { intros z x Hz Hs. destruct (decide (z = s)) as [->|Hne]; [left; set_solver|].
    destruct (rp_act _ _ _ _ _ Hr z x Hz Hs); [left; set_solver|right]. by apply elem_drop_act. }
  rewrite (rp_tail _ _ _ _ _ Hr). destruct (last q) as [t|] eqn:Et.
  - apply last_Some in Et as [l ->]. destruct (rp_qs _ _ _ _ _ Hr t ltac:(set_solver)) as (xt & Ht & Htst & Htw).
    assert (Hts : t <> s) by set_solver. rewrite (poke_spec _ _ _ _ Ht). eexists. split; [done|].
    set (v1 := set_strands _ v). assert (Hlk : forall z, lk v1 z = if decide (z = t) then Some s else lk v z) by (intros z; apply lk_insert).
    assert (Hframe : forall h m, t ∉ m -> chain (lk v) h m -> chain (lk v1) h m).
    { intros h m Hm. apply chain_ext. intros z Hz. rewrite Hlk, decide_False by set_solver. done. }
    assert (HtW : forall w, t ∉ W w) by (intros w (x' & Hx' & Hp & _)%(rp_ws _ _ _ _ _ Hr); congruence).
    assert (HtD : t ∉ D) by (intros (x' & Hx' & Hp)%(rp_ds _ _ _ _ _ Hr); congruence).
    assert (Hlook : forall z x', strands v1 !! z = Some x' -> exists x0, strands v !! z = Some x0 /\ s_state x' = s_state x0 /\
      s_gates x' = s_gates x0 /\ s_waiting_on x' = s_waiting_on x0 /\ (z <> t -> x' = x0)).
    { intros z x'. cbn [v1 strands set_strands]. destruct (decide (z = t)) as [->|Hne].
      - rewrite lookup_insert_eq. intros [= <-]. exists xt. done.
      - rewrite lookup_insert_ne by done. intros. by exists x'. }
    destruct Hr as [rp_q rp_tail rp_w rp_d rp_qs rp_ws rp_ds rp_link rp_act rp_heap].
    split; cbn [run_head run_tail wheads dead timers_heap set_queue strands].
    + rewrite <- (assoc_L (++)). eapply chain_ext; [|apply (chain_snoc (lk v) l (run_head v) t s); [done|set_solver]].
      intros z _. change (lk (set_queue (run_head v1) (Some s) v1) z) with (lk v1 z). rewrite Hlk. destruct (decide (z = t)); [done|].
      destruct (decide (z = s)) as [->|]; [|done]. unfold lk. by rewrite Hy.
    + by rewrite last_snoc.
    + intros w. apply (Hframe (wheads v !! w) (W w)); [apply HtW|apply rp_w].
    + by apply (Hframe (dead v) D).
    + intros z Hz. cbn [v1 set_strands strands]. destruct (decide (z = t)) as [->|Hne].
      { rewrite lookup_insert_eq. by eexists. }
      rewrite lookup_insert_ne by done. apply elem_of_app in Hz as [Hz|Hz%list_elem_of_singleton]; [auto|]. subst z. by exists y.
    + intros z w. rewrite rp_ws. split.
      * intros (x' & Hx' & H1 & H2). exists x'. cbn [v1 set_strands strands]. rewrite lookup_insert_ne; [done|]. intros ->. congruence.
      * intros (x' & Hx' & H1 & H2). destruct (Hlook z x' Hx') as (x0 & H0 & E1 & _ & E2 & _). exists x0. by rewrite <- E1, <- E2.
    + intros z Hz. destruct (rp_ds z Hz) as (x' & Hx' & H1). exists x'. cbn [v1 set_strands strands]. rewrite lookup_insert_ne; [done|]. set_solver.
    + intros z x' Hx' Hl'. destruct (decide (z = t)) as [->|Hne]; [left; set_solver|]. destruct (Hlook z x' Hx') as (x0 & H0 & _ & _ & _ & E).
      rewrite (E Hne) in Hl'. destruct (rp_link z x0 H0 Hl') as [?|?]; [left; set_solver|by right].
    + intros z x' Hx' Hs. destruct (Hlook z x' Hx') as (x0 & H0 & E1 & _). rewrite E1 in Hs. by apply (Hact z x0).
    + done.
  - apply last_None in Et. subst q. eexists. split; [done|].
    destruct Hr as [rp_q rp_tail rp_w rp_d rp_qs rp_ws rp_ds rp_link rp_act rp_heap].
    split; cbn [run_head run_tail wheads dead timers_heap set_queue strands]; try done.
    + split; [done|]. cbn. unfold lk. cbn [set_queue strands]. rewrite Hy. done.
    + intros z Hz%list_elem_of_singleton. subst z. by exists y.
    + intros z x' Hx' Hl'. destruct (rp_link z x' Hx' Hl') as [Hz|?]; [by apply elem_of_nil in Hz|by right].
Qed.

(** What the invariant reads of a strand besides its link. *)
Definition shape (v : sched) (z : nat) : option (strand_state * Z * option waitlist) :=
  (fun x => (s_state x, s_gates x, s_waiting_on x)) <$> strands v !! z.

Lemma shape_inv v v' z x' : shape v' z = shape v z -> strands v' !! z = Some x' ->
  exists x, strands v !! z = Some x /\ s_state x' = s_state x /\ s_gates x' = s_gates x /\ s_waiting_on x' = s_waiting_on x.
Proof.
  unfold shape. intros E Hx. rewrite Hx in E. destruct (strands v !! z) as [x|]; [|done]. cbn in E. injection E as E1 E2 E3. by exists x.
Qed.

(** Taking strand [s] off whatever list it is on. *)
Lemma rep_detach v v' q W D act act' s y :
  rep v q W D act -> strands v' !! s = Some y -> s_link y = None -> s ∉ D ->
  (s_state y = USTRAND_PARKED -> s_waiting_on y = None) ->
  (s_state y = USTRAND_READY \/ s_state y = USTRAND_RUNNING -> s ∈ act') ->
  (forall a, a ∈ act -> a <> s -> a ∈ act') ->
  (forall z, z <> s -> shape v' z = shape v z) -> is_heap (timers_heap v') ->
  chain (lk v') (run_head v') (drop_act s q) -> run_tail v' = last (drop_act s q) ->
  (forall w, chain (lk v') (wheads v' !! w) (drop_act s (W w))) -> chain (lk v') (dead v') D ->
  (forall z, z <> s -> lk v' z <> None -> lk v z <> None) ->
  rep v' (drop_act s q) (fun w => drop_act s (W w)) D act'.
Proof.
  intros Hr Hy Hl HD Hpk Ha Ha' Hsh Hh Hcq Ht Hcw Hcd Hlk. split; try done.
  - intros z [Hne Hz]%elem_drop_act. destruct (rp_qs _ _ _ _ _ Hr z Hz) as (x & Hx & H1 & H2).
    destruct (shape_inv v' v z x (eq_sym (Hsh z Hne)) Hx) as (x' & Hx' & E1 & E2 & E3). exists x'. by rewrite <- E1, <- E3.
  - intros z w. rewrite elem_drop_act. destruct (decide (z = s)) as [->|Hne].
    + split; [by intros [? _]|]. intros (x & Hx & Hst & Hwt). assert (x = y) as -> by congruence. rewrite Hpk in Hwt by done. done.
    + rewrite (rp_ws _ _ _ _ _ Hr). split.
      * intros (_ & x & Hx & H1 & H2). destruct (shape_inv v' v z x (eq_sym (Hsh z Hne)) Hx) as (x' & Hx' & E1 & E2 & E3).
        exists x'. by rewrite <- E1, <- E3.
      * intros (x & Hx & H1 & H2). split; [done|]. destruct (shape_inv v v' z x (Hsh z Hne) Hx) as (x' & Hx' & E1 & E2 & E3).
        exists x'. by rewrite <- E1, <- E3.
  - intros z Hz. destruct (rp_ds _ _ _ _ _ Hr z Hz) as (x & Hx & H1). assert (Hne : z <> s) by set_solver.
    destruct (shape_inv v' v z x (eq_sym (Hsh z Hne)) Hx) as (x' & Hx' & E1 & _). exists x'. by rewrite <- E1.
  - intros z x Hx Hlz. destruct (decide (z = s)) as [->|Hne]; [congruence|].
    assert (Hz : lk v z <> None) by (apply Hlk; [done|]; unfold lk; by rewrite Hx).
    unfold lk in Hz. destruct (strands v !! z) as [x0|] eqn:H0; [|done].
    destruct (rp_link _ _ _ _ _ Hr z x0 H0 Hz) as [?|[[w ?]|?]]; [left; by apply elem_drop_act|right; left; exists w; by apply elem_drop_act|tauto].
  - intros z x Hx Hst. destruct (decide (z = s)) as [->|Hne]; [right; apply Ha; by assert (x = y) as <- by congruence|].
    destruct (shape_inv v v' z x (Hsh z Hne) Hx) as (x' & Hx' & E1 & _). rewrite E1 in Hst.
    destruct (rp_act _ _ _ _ _ Hr z x' Hx' Hst); [left; by apply elem_drop_act|right; auto].
Qed.

Lemma rep_ext v q W W' D act : rep v q W D act -> (forall w, W' w = W w) -> rep v q W' D act.
Proof.
  intros [] E. split; try done.
  - intros w. by rewrite E.
  - intros z w. by rewrite E.
  - intros z x Hz Hl. destruct (rp_link0 z x Hz Hl) as [?|[[w Hw]|?]]; [tauto|right; left; exists w; by rewrite E|tauto].
Qed.

Lemma drop_act_id s l : s ∉ l -> drop_act s l = l.
Proof.
  intros H. unfold drop_act. induction l as [|x l IH]; [done|]. rewrite filter_cons, decide_True by set_solver. f_equal. apply IH. set_solver.
Qed.

Lemma drop_act_split s l1 l2 : NoDup (l1 ++ s :: l2) -> drop_act s (l1 ++ s :: l2) = l1 ++ l2.
Proof.
  intros Hnd. apply NoDup_app in Hnd as (_ & H1 & H2). apply NoDup_cons in H2 as [H2 _]. unfold drop_act. rewrite filter_app, filter_cons.
  rewrite decide_False by (intros H; done). f_equal; apply drop_act_id; [|done]. intros Hs. apply (H1 s Hs). left.
Qed.

(** Only a strand's link changed. *)
Lemma shape_with_link s l v v' : poke s (with_link l) v = Some v' -> forall z, shape v' z = shape v z.
Proof.
  unfold poke, shape. destruct (strands v !! s) as [x|] eqn:E; [|done]. cbn [mbind option_bind]. intros [= <-] z. cbn [set_strands strands].
  destruct (decide (z = s)) as [->|]; [by rewrite lookup_insert_eq, E|by rewrite lookup_insert_ne].
Qed.

Lemma lk_with_link s l v v' : poke s (with_link l) v = Some v' -> forall z, lk v' z = if decide (z = s) then l else lk v z.
Proof.
  unfold poke. destruct (strands v !! s) as [x|] eqn:E; [|done]. cbn [mbind option_bind]. intros [= <-] z. by rewrite lk_insert.
Qed.

Lemma queue_length v q W D act : rep v q W D act -> (length q <= size (strands v))%nat.
Proof.
  intros Hr. pose proof (chain_nodup _ _ _ (rp_q _ _ _ _ _ Hr)) as Hnd.
  rewrite <- (size_list_to_set (C := gset nat)) by done. rewrite <- size_dom. apply subseteq_size. intros z Hz%elem_of_list_to_set.
  destruct (rp_qs _ _ _ _ _ Hr z Hz) as (x & Hx & _). by apply elem_of_dom.
Qed.

Lemma wait_length v q W D act w : rep v q W D act -> (length (W w) <= size (strands v))%nat.
Proof.
  intros Hr. pose proof (chain_nodup _ _ _ (rp_w _ _ _ _ _ Hr w)) as Hnd.
  rewrite <- (size_list_to_set (C := gset nat)) by done. rewrite <- size_dom. apply subseteq_size. intros z Hz%elem_of_list_to_set.
  apply (rp_ws _ _ _ _ _ Hr) in Hz as (x & Hx & _). by apply elem_of_dom.
Qed.

(** ** Enqueue and dequeue *)

Lemma enqueue_spec v q W D act s x :
  rep v q W D act -> strands v !! s = Some x -> off_lists q W D s -> s_state x <> USTRAND_DEAD ->
  exists v', usched_enqueue s v = Some v' /\
    (if s_gates x =? 0 then rep v' (q ++ [s]) W D (drop_act s act)
     else rep v' q W D (drop_act s act) /\ exists y, strands v' !! s = Some y /\ s_state y = USTRAND_PARKED).
Proof.
  intros Hr Hx Hoff Hnd. pose proof (off_link _ _ _ _ _ _ _ Hr Hoff Hx) as Hl. unfold usched_enqueue. rewrite Hx. cbn [mbind option_bind].
  rewrite decide_False by done. rewrite (bool_decide_false (s_link x <> None)) by (rewrite Hl; auto).
  assert (Htail : bool_decide (run_tail v = Some s) = false).
  { apply bool_decide_eq_false. rewrite (rp_tail _ _ _ _ _ Hr). intros Hls. apply (proj1 Hoff). apply last_Some in Hls as [l ->]. set_solver. }
  rewrite Htail. cbn [orb]. destruct (s_gates x =? 0) eqn:Hg; cbn [negb]; zbool.
  - rewrite (poke_spec _ _ _ _ Hx). cbn [mbind option_bind]. set (y := strand_move _ _ _ _ x).
    assert (Hr1 : rep (set_strands (<[s := y]> (strands v)) v) q W D (s :: act)).
    { eapply rep_off; [done|done|done|done|done|by intros _; left|by intros a ? _; right]. }
    destruct (rep_append _ q W D (s :: act) s y Hr1) as (v' & -> & Hr'); [apply lookup_insert_eq|done|done|done|].
    cbn [mbind option_bind]. eexists. split; [done|]. unfold drop_act in Hr' |- *. rewrite filter_cons, decide_False in Hr' by (by intros ?). done.
  - destruct (decide (s_state x = USTRAND_PARKED)) as [Hp|Hp].
    + exists v. split; [done|]. split; [|by exists x]. destruct Hr. split; try done. intros z x' Hx' Hst.
      destruct (rp_act0 z x' Hx' Hst); [by left|right]. apply elem_drop_act. split; [|done]. intros ->.
      assert (x' = x) as -> by congruence. rewrite Hp in Hst. by destruct Hst.
    + rewrite (poke_spec _ _ _ _ Hx). eexists. split; [done|]. split.
      * eapply rep_off; [done|done|done|done|done| |]; [cbn; by intros [|]|]. intros a Ha Hne. by apply elem_drop_act.
      * eexists. cbn [set_strands strands]. rewrite lookup_insert_eq. by split.
Qed.

(** The fields the queue operations never touch. *)
Definition env (v : sched) := (timers_heap v, current v, tag_flags v, realm_strands v, dom (strands v)).

Lemma poke_env s f v v' : poke s f v = Some v' -> env v' = env v.
Proof.
  unfold poke. destruct (strands v !! s) eqn:E; [|done]. intros [= <-]. unfold env. cbn. f_equal. apply dom_insert_lookup_L. eauto.
Qed.

Lemma enqueue_env s v v' : usched_enqueue s v = Some v' -> env v' = env v.
Proof.
  unfold usched_enqueue. destruct (strands v !! s) as [x|]; [|done]. cbn [mbind option_bind].
  destruct (decide _); [by intros [= <-]|]. destruct (_ || _); [by intros [= <-]|]. destruct (negb _).
  { destruct (decide _); [by intros [= <-]|]. apply poke_env. }
  destruct (poke s _ v) as [v1|] eqn:E1; [|done]. cbn [mbind option_bind]. apply poke_env in E1.
  destruct (run_tail v1) as [t|].
  - destruct (poke t _ v1) as [v2|] eqn:E2; [|done]. apply poke_env in E2. intros [= <-]. by rewrite <- E1, <- E2.
  - intros [= <-]. by rewrite <- E1.
Qed.

(** A strand already on the queue is left alone: the constant-time test is
    queue membership. *)
Lemma enqueue_queued v q W D act s : rep v q W D act -> s ∈ q -> usched_enqueue s v = Some v.
Proof.
  intros Hr Hs. destruct (rp_qs _ _ _ _ _ Hr s Hs) as (x & Hx & Hst & _). unfold usched_enqueue. rewrite Hx. cbn [mbind option_bind].
  rewrite decide_False by (by rewrite Hst). apply list_elem_of_split in Hs as (l1 & l2 & ->).
  pose proof (chain_drop _ _ _ _ _ (rp_q _ _ _ _ _ Hr)) as Hc. unfold lk in Hc. rewrite Hx in Hc. cbn in Hc.
  destruct l2 as [|z l2]; cbn in Hc.
  - rewrite (rp_tail _ _ _ _ _ Hr), last_snoc, bool_decide_true by done. done.
  - destruct Hc as [Hc _]. rewrite (bool_decide_true (s_link x <> None)) by (rewrite Hc; done). by rewrite orb_true_r.
Qed.

Lemma dequeue_spec v q W D act : rep v q W D act ->
  match q with
  | [] => usched_dequeue v = Some (None, v)
  | s :: q' => exists v', usched_dequeue v = Some (Some s, v') /\ rep v' q' W D (s :: act) /\ shape v' s = shape v s
  end.
Proof.
  intros Hr. destruct q as [|s q]; unfold usched_dequeue; pose proof (rp_q _ _ _ _ _ Hr) as Hc; cbn in Hc; [by rewrite Hc|].
  destruct Hc as [Hh Hc]. rewrite Hh. destruct (rp_qs _ _ _ _ _ Hr s ltac:(left)) as (x & Hx & Hst & Hwt).
  rewrite Hx. cbn [mbind option_bind]. set (v1 := set_queue _ _ v).
  assert (Hx1 : strands v1 !! s = Some x) by done. rewrite (poke_spec _ _ _ _ Hx1). cbn [mbind option_bind]. eexists. split; [done|].
  pose proof (poke_spec s (with_link None) v1 x Hx1) as Hpk. set (v2 := set_strands _ v1) in *.
  pose proof (lk_with_link _ _ _ _ Hpk) as Hlk. change (lk v1) with (lk v) in Hlk.
  pose proof (chain_nodup _ _ _ (rp_q _ _ _ _ _ Hr)) as Hnd. apply NoDup_cons in Hnd as [Hsq _].
  assert (HsW : forall w, s ∉ W w) by (intros w (x' & Hx' & Hp & _)%(rp_ws _ _ _ _ _ Hr); congruence).
  assert (HsD : s ∉ D) by (intros (x' & Hx' & Hp)%(rp_ds _ _ _ _ _ Hr); congruence).
  assert (Hframe : forall h m, s ∉ m -> chain (lk v) h m -> chain (lk v2) h m).
  { intros h m Hm. apply chain_ext. intros z Hz. rewrite Hlk, decide_False by set_solver. done. }
  split; [|exact (shape_with_link _ _ _ _ Hpk s)].
  assert (Hd : drop_act s (s :: q) = q) by (unfold drop_act; rewrite filter_cons, decide_False by (by intros ?); by apply drop_act_id).
  rewrite <- Hd.
  assert (HR : rep v2 (drop_act s (s :: q)) (fun w => drop_act s (W w)) D (s :: act)).
  { eapply (rep_detach v v2 (s :: q) W D act (s :: act) s (with_link None x)); try done.
    - cbn [v2 set_strands strands]. apply lookup_insert_eq.
    - intros _. left.
    - intros a Ha _. by right.
    - intros z _. exact (shape_with_link _ _ _ _ Hpk z).
    - apply (rp_heap _ _ _ _ _ Hr).
    - rewrite Hd. apply Hframe; [done|]. unfold lk in Hc. rewrite Hx in Hc. exact Hc.
    - rewrite Hd. cbn [v2 v1 set_strands set_queue run_tail]. rewrite (rp_tail _ _ _ _ _ Hr). unfold lk in Hc. rewrite Hx in Hc. cbn in Hc.
      destruct q as [|z q]; cbn in Hc; [by rewrite Hc, bool_decide_true|]. destruct Hc as [Hc _]. by rewrite Hc, bool_decide_false.
    - intros w. rewrite drop_act_id by apply HsW. apply Hframe; [apply HsW|]. apply (rp_w _ _ _ _ _ Hr).
    - by apply Hframe, (rp_d _ _ _ _ _ Hr).
    - intros z Hne. rewrite Hlk, decide_False by done. done. }
  eapply rep_ext; [exact HR|]. intros w. symmetry. apply drop_act_id, HsW.
Qed.

(** ** Leaving the queue before one's turn *)

(** The state an unlink at [s], after [l1], ends in. *)
Lemma unqueue_at v q W D act s l1 l2 x :
  rep v q W D act -> q = l1 ++ s :: l2 -> strands v !! s = Some x ->
  exists v', (v ← (match last l1 with
                   | Some p => poke p (with_link (s_link x)) v
                   | None => Some (set_queue (s_link x) (run_tail v) v)
                   end);
              let v := if bool_decide (run_tail v = Some s) then set_queue (run_head v) (last l1) v else v in
              poke s (with_link None) v) = Some v' /\ rep v' (l1 ++ l2) W D (s :: act) /\ shape v' s = shape v s.
Proof.
  intros Hr Eq Hx. pose proof (chain_nodup _ _ _ (rp_q _ _ _ _ _ Hr)) as Hnd. pose proof (drop_act_split s l1 l2) as Hd.
  rewrite Eq in Hnd. specialize (Hd Hnd). assert (Hsl : s ∉ l1 ++ l2).
  { rewrite <- Hd. rewrite elem_drop_act. by intros [? _]. }
  destruct (rp_qs _ _ _ _ _ Hr s ltac:(rewrite Eq; set_solver)) as (x0 & Hx0 & Hst & Hwt). assert (x0 = x) as -> by congruence.
  assert (HsW : forall w, s ∉ W w) by (intros w (x' & Hx' & Hp & _)%(rp_ws _ _ _ _ _ Hr); congruence).
  assert (HsD : s ∉ D) by (intros (x' & Hx' & Hp)%(rp_ds _ _ _ _ _ Hr); congruence).
  pose proof (rp_q _ _ _ _ _ Hr) as Hc. rewrite Eq in Hc. pose proof (chain_drop _ _ _ _ _ Hc) as Hcs.
  assert (Els : lk v s = s_link x) by (unfold lk; by rewrite Hx).
  assert (Htl : forall t : option nat, t = last l1 -> (if bool_decide (run_tail v = Some s) then t else run_tail v) = last (l1 ++ l2)).
  { intros t ->. rewrite (rp_tail _ _ _ _ _ Hr), Eq. destruct l2 as [|z l2] using rev_ind.
    - rewrite last_snoc, bool_decide_true by done. by rewrite app_nil_r.
    - change (s :: l2 ++ [z]) with ((s :: l2) ++ [z]). rewrite (assoc_L (++) l1 (s :: l2) [z]), last_snoc. rewrite bool_decide_false; [by rewrite (assoc_L (++)), last_snoc|].
      intros [= ->]. set_solver. }
  assert (Hout : exists v1, (match last l1 with Some p => poke p (with_link (s_link x)) v | None => Some (set_queue (s_link x) (run_tail v) v) end) = Some v1 /\
    run_tail v1 = run_tail v /\ wheads v1 = wheads v /\ dead v1 = dead v /\ timers_heap v1 = timers_heap v /\
    (forall z, shape v1 z = shape v z) /\ (exists x1, strands v1 !! s = Some x1) /\
    chain (lk v1) (run_head v1) (l1 ++ l2) /\ (forall z, z ∉ q -> lk v1 z = lk v z) /\ (forall z, z <> s -> lk v1 z <> None -> lk v z <> None)).
  { pose proof (chain_remove _ _ _ _ _ Hc) as Hrm. destruct (last l1) as [p|] eqn:Ep.
    - apply last_Some in Ep as [l0 ->]. assert (Hpq : p ∈ q) by (rewrite Eq; set_solver).
      destruct (rp_qs _ _ _ _ _ Hr p Hpq) as (xp & Hxp & _). pose proof (poke_spec p (with_link (s_link x)) v xp Hxp) as Hpk.
      rewrite Hpk. eexists. split; [done|]. do 4 (split; [done|]). split; [exact (shape_with_link _ _ _ _ Hpk)|].
      pose proof (lk_with_link _ _ _ _ Hpk) as Hlk. split.
      { cbn [set_strands strands]. destruct (decide (s = p)) as [->|]; [rewrite lookup_insert_eq|rewrite lookup_insert_ne by done]; eauto. }
      split; [eapply chain_ext; [|exact Hrm]; intros z _; by rewrite Hlk, Els|]. split.
      + intros z Hz. rewrite Hlk, decide_False by set_solver. done.
      + intros z Hne. rewrite Hlk. destruct (decide (z = p)) as [->|]; [|done]. intros _.
        rewrite <- (assoc_L (++)) in Hc. pose proof (chain_drop _ _ _ _ _ Hc) as Hcp. cbn in Hcp. by destruct Hcp as [-> _].
    - destruct Hrm as [_ Hrm]. eexists. split; [done|]. do 4 (split; [done|]). split; [done|]. split; [by exists x|]. split; [|done].
      apply last_None in Ep. subst l1. cbn [set_queue run_head app]. by rewrite <- Els. }
  destruct Hout as (v1 & -> & Et1 & Ew1 & Ed1 & Eh1 & Hsh1 & (x1 & Hx1) & Hc1 & Hlk1 & Hnn1). cbn [mbind option_bind]. cbv zeta.
  set (v2 := if bool_decide (run_tail v1 = Some s) then _ else _).
  assert (Hv2 : strands v2 = strands v1 /\ run_head v2 = run_head v1 /\ run_tail v2 = last (l1 ++ l2) /\ wheads v2 = wheads v1 /\
    dead v2 = dead v1 /\ timers_heap v2 = timers_heap v1).
  { unfold v2. rewrite Et1. pose proof (Htl (last l1) eq_refl) as Htl'. destruct (bool_decide _); cbn; repeat split; congruence. }
  destruct Hv2 as (E1 & E2 & E3 & E4 & E5 & E6). clearbody v2.
  assert (Hx2 : strands v2 !! s = Some x1) by congruence. pose proof (poke_spec s (with_link None) v2 x1 Hx2) as Hpk2. rewrite Hpk2.
  eexists. split; [done|]. set (v3 := set_strands _ v2) in *. pose proof (lk_with_link _ _ _ _ Hpk2) as Hlk3.
  assert (Elk : forall z, lk v2 z = lk v1 z) by (intros z; unfold lk; by rewrite E1).
  assert (Hsh3 : forall z, shape v3 z = shape v z).
  { intros z. rewrite (shape_with_link _ _ _ _ Hpk2). unfold shape. rewrite E1. apply Hsh1. }
  split; [|apply Hsh3].
  assert (HR : rep v3 (drop_act s q) (fun w => drop_act s (W w)) D (s :: act)).
  { eapply (rep_detach v v3 q W D act (s :: act) s (with_link None x1)); try done.
    - cbn [v3 set_strands strands]. apply lookup_insert_eq.
    - cbn [with_link strand_move s_state s_waiting_on]. pose proof (Hsh1 s) as Hs. unfold shape in Hs. rewrite Hx1, Hx in Hs. cbn in Hs.
      injection Hs as Ha Hb Hc'. intros E. cbn in E. congruence.
    - intros _. left.
    - intros a Ha _. by right.
    - cbn [v3 set_strands timers_heap]. rewrite E6, Eh1. apply (rp_heap _ _ _ _ _ Hr).
    - rewrite Eq, Hd. cbn [v3 set_strands run_head]. rewrite E2. eapply chain_ext; [|exact Hc1]. intros z Hz.
      rewrite Hlk3, Elk, decide_False by set_solver. done.
    - rewrite Eq, Hd. exact E3.
    - intros w. rewrite drop_act_id by apply HsW. cbn [v3 set_strands wheads]. rewrite E4, Ew1. eapply chain_ext; [|apply (rp_w _ _ _ _ _ Hr)].
      intros z Hz. rewrite Hlk3, Elk, decide_False by set_solver. apply Hlk1. intros (x' & Hx' & Hp & _)%(rp_qs _ _ _ _ _ Hr).
      apply (rp_ws _ _ _ _ _ Hr) in Hz as (x'' & ? & ? & _). congruence.
    - cbn [v3 set_strands dead]. rewrite E5, Ed1. eapply chain_ext; [|apply (rp_d _ _ _ _ _ Hr)].
      intros z Hz. rewrite Hlk3, Elk, decide_False by set_solver. apply Hlk1. intros (x' & Hx' & Hp & _)%(rp_qs _ _ _ _ _ Hr).
      apply (rp_ds _ _ _ _ _ Hr) in Hz as (x'' & ? & ?). congruence.
    - intros z Hne. rewrite Hlk3, Elk, decide_False by done. by apply Hnn1. }
  rewrite Eq, Hd in HR. eapply rep_ext; [exact HR|]. intros w. symmetry. apply drop_act_id, HsW.
Qed.

Lemma unqueue_loop_spec v q W D act s : rep v q W D act -> forall l1 l2 fuel, q = l1 ++ l2 -> (length l2 <= fuel)%nat ->
  if decide (s ∈ l2) then
    exists v', unqueue_loop fuel s (last l1) (head l2) v = Some v' /\ rep v' (drop_act s q) W D (s :: act) /\ shape v' s = shape v s
  else unqueue_loop fuel s (last l1) (head l2) v = Some v.
Proof.
  intros Hr l1 l2. revert l1. induction l2 as [|c l2 IH]; intros l1 fuel Eq Hf.
  { rewrite decide_False by (by intros ?%elem_of_nil). by destruct fuel. }
  destruct fuel as [|fuel]; [cbn in Hf; lia|]. cbn [head unqueue_loop].
  destruct (rp_qs _ _ _ _ _ Hr c ltac:(rewrite Eq; set_solver)) as (x & Hx & _). rewrite Hx. cbn [mbind option_bind].
  assert (Hlink : s_link x = head l2).
  { pose proof (rp_q _ _ _ _ _ Hr) as Hc. rewrite Eq in Hc. apply chain_drop in Hc. unfold lk in Hc. rewrite Hx in Hc. by apply chain_head in Hc. }
  destruct (decide (c = s)) as [->|Hne].
  - rewrite decide_True by left. destruct (unqueue_at v q W D act s l1 l2 x Hr Eq Hx) as (v' & Hv' & Hr' & Hsh).
    exists v'. split; [exact Hv'|]. split; [|done]. rewrite Eq, drop_act_split; [done|]. rewrite <- Eq. by apply (chain_nodup _ _ _ (rp_q _ _ _ _ _ Hr)).
  - rewrite Hlink. specialize (IH (l1 ++ [c]) fuel). rewrite <- (assoc_L (++)), last_snoc in IH. cbn [length] in Hf. specialize (IH Eq ltac:(lia)).
    destruct (decide (s ∈ l2)) as [Hin|Hin]; [rewrite decide_True by (by right)|rewrite decide_False by set_solver]; exact IH.
Qed.

Lemma unqueue_spec v q W D act s : rep v q W D act ->
  if decide (s ∈ q) then exists v', usched_unqueue s v = Some v' /\ rep v' (drop_act s q) W D (s :: act) /\ shape v' s = shape v s
  else usched_unqueue s v = Some v.
Proof.
  intros Hr. unfold usched_unqueue. pose proof (queue_length _ _ _ _ _ Hr).
  pose proof (unqueue_loop_spec v q W D act s Hr [] q (S (size (strands v))) eq_refl ltac:(lia)) as H0.
  rewrite (chain_head _ _ _ (rp_q _ _ _ _ _ Hr)). exact H0.
Qed.

(** ** Park *)

Definition wait_push (w : option waitlist) (s : nat) (W : waitlist -> list nat) : waitlist -> list nat :=
  fun w' => if decide (w = Some w') then s :: W w' else W w'.

Lemma park_spec v q W D act s x w wake :
  rep v q W D act -> strands v !! s = Some x -> off_lists q W D s ->
  if usched_may_deschedule x then
    exists v', usched_park s w wake v = Some (0, v') /\ rep v' q (wait_push w s W) D (drop_act s act) /\
      strands v' !! s = Some (strand_move USTRAND_PARKED w wake (w ≫= fun l => wheads v !! l) x)
  else usched_park s w wake v = Some (-1, v).
Proof.
  intros Hr Hx Hoff. unfold usched_park. rewrite Hx. cbn [mbind option_bind]. destruct (usched_may_deschedule x); cbn [negb]; [|done].
  rewrite (poke_spec _ _ _ _ Hx). destruct w as [l|]; rewrite ?(poke_spec _ _ _ _ Hx); cbn [mbind option_bind].
  2:{ eexists. split; [done|]. split; [|apply lookup_insert_eq]. apply (rep_ext _ _ W); [|done].
      eapply rep_off; [done|done|done|done|done|by intros [|]|]. intros a Ha Hne. by apply elem_drop_act. }
  eexists. split; [done|]. split; [|apply lookup_insert_eq]. destruct Hoff as (Hq & Hw & Hd). set (y := strand_move _ _ _ _ x).
  set (v1 := set_strands _ v). assert (Hlk : forall z, lk v1 z = if decide (z = s) then wheads v !! l else lk v z) by (intros z; apply lk_insert).
  assert (Hframe : forall h m, s ∉ m -> chain (lk v) h m -> chain (lk v1) h m).
  { intros h m Hm. apply chain_ext. intros z Hz. rewrite Hlk, decide_False by set_solver. done. }
  destruct Hr as [rp_q rp_tail rp_w rp_d rp_qs rp_ws rp_ds rp_link rp_act rp_heap].
  split; cbn [run_head run_tail wheads dead timers_heap set_heads strands v1 set_strands]; try done.
  - by apply (Hframe (run_head v) q).
  - intros w. unfold wait_push. change (chain (lk v1) (<[l := s]> (wheads v) !! w) (if decide (Some l = Some w) then s :: W w else W w)).
    destruct (decide (l = w)) as [->|Hne].
    + rewrite lookup_insert_eq, decide_True by done. split; [done|]. rewrite Hlk, decide_True by done. by apply Hframe.
    + rewrite lookup_insert_ne, decide_False by congruence. by apply Hframe.
  - by apply (Hframe (dead v) D).
  - intros z Hz. rewrite lookup_insert_ne by set_solver. auto.
  - intros z w. unfold wait_push. destruct (decide (z = s)) as [->|Hne].
    + rewrite lookup_insert_eq. split.
      * intros Hin. exists y. destruct (decide (Some l = Some w)) as [E|]; [by injection E as <-|by apply Hw in Hin].
      * intros (x' & [= <-] & _ & [= ->]). rewrite decide_True by done. left.
    + rewrite lookup_insert_ne by done. rewrite <- rp_ws. destruct (decide (Some l = Some w)); [set_solver|done].
  - intros z Hz. rewrite lookup_insert_ne by set_solver. auto.
  - intros z x' Hz Hl'. destruct (decide (z = s)) as [->|Hne].
    + right; left. exists l. unfold wait_push. rewrite decide_True by done. left.
    + rewrite lookup_insert_ne in Hz by done. destruct (rp_link z x' Hz Hl') as [?|[[w Hzw]|?]]; [tauto| |tauto].
      right; left. exists w. unfold wait_push. destruct (decide _); [by right|done].
  - intros z x' Hz Hst. destruct (decide (z = s)) as [->|Hne]; [rewrite lookup_insert_eq in Hz; injection Hz as <-; by destruct Hst|].
    rewrite lookup_insert_ne in Hz by done. destruct (rp_act z x' Hz Hst); [tauto|]. right. by apply elem_drop_act.
Qed.

(** ** Wake *)

(** What unlinking [s] from the wait list [w] changes. *)
Record unlinked (v v1 : sched) (W : waitlist -> list nat) (s : nat) (w : waitlist) : Prop := {
  un_rest : run_head v1 = run_head v /\ run_tail v1 = run_tail v /\ dead v1 = dead v /\ timers_heap v1 = timers_heap v /\
            current v1 = current v /\ tag_flags v1 = tag_flags v /\ realm_strands v1 = realm_strands v;
  un_shape : forall z, shape v1 z = shape v z;
  un_self : strands v1 !! s = strands v !! s;
  un_other : forall z, z ∉ W w -> strands v1 !! z = strands v !! z;
  un_heads : forall w', w' <> w -> wheads v1 !! w' = wheads v !! w';
  un_chain : chain (lk v1) (wheads v1 !! w) (drop_act s (W w));
  un_link : forall z, z <> s -> lk v1 z <> None -> lk v z <> None }.

Lemma lookup_opt_set (w w' : waitlist) o m : opt_set w o m !! w' = if decide (w' = w) then o else m !! w'.
Proof.
  unfold opt_set. destruct o; destruct (decide (w' = w)) as [->|]; by rewrite ?lookup_insert_eq, ?lookup_delete_eq, ?lookup_insert_ne, ?lookup_delete_ne.
Qed.

Lemma unlink_at v q W D act s w l1 l2 x :
  rep v q W D act -> W w = l1 ++ s :: l2 -> strands v !! s = Some x ->
  exists v1, (match last l1 with
              | Some p => poke p (with_link (s_link x)) v
              | None => Some (set_heads (opt_set w (s_link x) (wheads v)) v)
              end) = Some v1 /\ unlinked v v1 W s w.
Proof.
  intros Hr Ew Hx. pose proof (rp_w _ _ _ _ _ Hr w) as Hc. pose proof (chain_nodup _ _ _ Hc) as Hnd. rewrite Ew in Hc, Hnd.
  pose proof (drop_act_split s l1 l2 Hnd) as Hd. assert (Els : lk v s = s_link x) by (unfold lk; by rewrite Hx).
  pose proof (chain_remove _ _ _ _ _ Hc) as Hrm. destruct (last l1) as [p|] eqn:Ep.
  - apply last_Some in Ep as [l0 ->]. assert (Hpw : p ∈ W w) by (rewrite Ew; set_solver).
    assert (Hps : p <> s). { intros ->. apply NoDup_app in Hnd as (_ & Hn & _). apply (Hn s); set_solver. }
    apply (rp_ws _ _ _ _ _ Hr) in Hpw as (xp & Hxp & _). pose proof (poke_spec p (with_link (s_link x)) v xp Hxp) as Hpk. rewrite Hpk.
    eexists. split; [done|]. pose proof (lk_with_link _ _ _ _ Hpk) as Hlk. split; try done.
    + exact (shape_with_link _ _ _ _ Hpk).
    + cbn [set_strands strands]. by rewrite lookup_insert_ne.
    + intros z Hz. cbn [set_strands strands]. rewrite lookup_insert_ne; [done|]. intros ->. apply Hz. rewrite Ew. set_solver.
    + rewrite Ew, Hd. eapply chain_ext; [|exact Hrm]. intros z _. by rewrite Hlk, Els.
    + intros z Hne. rewrite Hlk. destruct (decide (z = p)) as [->|]; [|done]. intros _.
      rewrite <- (assoc_L (++)) in Hc. apply chain_drop in Hc. cbn in Hc. by destruct Hc as [-> _].
  - apply last_None in Ep. subst l1. destruct Hrm as [_ Hrm]. eexists. split; [done|]. split; try done.
    + intros w' Hw'. cbn [set_heads wheads]. by rewrite lookup_opt_set, decide_False.
    + cbn [set_heads wheads]. rewrite lookup_opt_set, decide_True, Ew, Hd by done. by rewrite <- Els.
Qed.

Lemma unlink_loop_spec v q W D act s w : rep v q W D act -> forall l1 l2 fuel, W w = l1 ++ l2 -> s ∈ l2 -> (length l2 <= fuel)%nat ->
  exists v1, unlink_loop fuel s w (last l1) (head l2) v = Some v1 /\ unlinked v v1 W s w.
Proof.
  intros Hr l1 l2. revert l1. induction l2 as [|c l2 IH]; intros l1 fuel Ew Hs Hf; [by apply elem_of_nil in Hs|].
  destruct fuel as [|fuel]; [cbn in Hf; lia|]. cbn [head unlink_loop].
  assert (Hcw : c ∈ W w) by (rewrite Ew; set_solver). apply (rp_ws _ _ _ _ _ Hr) in Hcw as (x & Hx & _). rewrite Hx. cbn [mbind option_bind].
  destruct (decide (c = s)) as [->|Hne].
  - by apply (unlink_at v q W D act s w l1 l2 x).
  - assert (Hlink : s_link x = head l2).
    { pose proof (rp_w _ _ _ _ _ Hr w) as Hc. rewrite Ew in Hc. apply chain_drop in Hc. unfold lk in Hc. rewrite Hx in Hc. by apply chain_head in Hc. }
    rewrite Hlink. specialize (IH (l1 ++ [c]) fuel). rewrite <- (assoc_L (++)), last_snoc in IH. cbn [length] in Hf.
    apply IH; [done|set_solver|lia].
Qed.

Definition drop_all (s : nat) (W : waitlist -> list nat) : waitlist -> list nat := fun w => drop_act s (W w).

Lemma unlink_wait_spec v q W D act s x :
  rep v q W D act -> strands v !! s = Some x -> s_state x = USTRAND_PARKED ->
  exists v', usched_unlink_wait s v = Some v' /\ rep v' q (drop_all s W) D act /\ timers_heap v' = timers_heap v /\
    strands v' !! s = Some (strand_move USTRAND_PARKED None (s_wake_us x) None x).
Proof.
  intros Hr Hx Hst. unfold usched_unlink_wait. rewrite Hx. cbn [mbind option_bind].
  assert (Hsq : s ∉ q) by (intros (x' & ? & ? & _)%(rp_qs _ _ _ _ _ Hr); congruence).
  assert (HsD : s ∉ D) by (intros (x' & ? & ?)%(rp_ds _ _ _ _ _ Hr); congruence).
  destruct (s_waiting_on x) as [w|] eqn:Hw.
  2:{ assert (HsW : forall w, s ∉ W w) by (intros w (x' & ? & ? & ?)%(rp_ws _ _ _ _ _ Hr); congruence).
      exists v. split; [done|]. split; [eapply rep_ext; [exact Hr|]; intros w; by apply drop_act_id|]. split; [done|].
      rewrite Hx. f_equal. assert (Hl : s_link x = None) by (eapply off_link; [exact Hr| |exact Hx]; done).
      destruct x; cbn in *. unfold strand_move. cbn. congruence. }
  assert (HsW : s ∈ W w) by (apply (rp_ws _ _ _ _ _ Hr); by exists x).
  destruct (unlink_loop_spec v q W D act s w Hr [] (W w) (S (size (strands v))) eq_refl HsW) as (v1 & Hv1 & Hun).
  { pose proof (wait_length _ _ _ _ _ w Hr). lia. }
  cbn [last] in Hv1. rewrite (chain_head _ _ _ (rp_w _ _ _ _ _ Hr w)), Hv1. cbn [mbind option_bind].
  destruct Hun as [(E1 & E2 & E3 & E4 & _) Hsh Hself Hoth Hhd Hch Hnn]. rewrite Hself, Hx. cbn [mbind option_bind].
  assert (Hx1 : strands v1 !! s = Some x) by congruence. rewrite (poke_spec _ _ _ _ Hx1). eexists. split; [done|].
  set (y := strand_move _ _ _ _ x). set (v2 := set_strands _ v1).
  assert (Hlk : forall z, lk v2 z = if decide (z = s) then None else lk v1 z) by (intros z; apply lk_insert).
  assert (Hwz : forall z w', z ∈ W w' -> w' <> w -> z ∉ W w).
  { intros z w' (x1 & H1 & _ & H2)%(rp_ws _ _ _ _ _ Hr) Hne (x2 & H3 & _ & H4)%(rp_ws _ _ _ _ _ Hr). congruence. }
  assert (Hframe : forall h m, (forall z, z ∈ m -> z ∉ W w) -> chain (lk v) h m -> chain (lk v2) h m).
  { intros h m Hm. apply chain_ext. intros z Hz. rewrite Hlk, decide_False by (intros ->; by apply (Hm s)). unfold lk. by rewrite (Hoth z (Hm z Hz)). }
  assert (HqW : forall z, z ∈ q -> z ∉ W w).
  { intros z (x1 & ? & ? & _)%(rp_qs _ _ _ _ _ Hr) (x2 & ? & ? & _)%(rp_ws _ _ _ _ _ Hr). congruence. }
  assert (HdW : forall z, z ∈ D -> z ∉ W w).
  { intros z (x1 & ? & ?)%(rp_ds _ _ _ _ _ Hr) (x2 & ? & ? & _)%(rp_ws _ _ _ _ _ Hr). congruence. }
  split; [|split; [done|]; cbn [v2 set_strands strands]; rewrite lookup_insert_eq; unfold y; by rewrite Hst].
  rewrite <- (drop_act_id s q Hsq). eapply (rep_detach v v2 q W D act act s y); try done.
  - cbn [v2 set_strands strands]. apply lookup_insert_eq.
  - cbn. rewrite Hst. by intros [|].
  - intros z Hne. rewrite <- Hsh. unfold shape. cbn [v2 set_strands strands]. by rewrite lookup_insert_ne.
  - cbn [v2 set_strands timers_heap]. rewrite E4. apply (rp_heap _ _ _ _ _ Hr).
  - rewrite drop_act_id by done. cbn [v2 set_strands run_head]. rewrite E1. apply Hframe; [done|apply (rp_q _ _ _ _ _ Hr)].
  - rewrite drop_act_id by done. cbn [v2 set_strands run_tail]. rewrite E2. apply (rp_tail _ _ _ _ _ Hr).
  - intros w'. cbn [v2 set_strands wheads]. destruct (decide (w' = w)) as [->|Hne].
    + eapply chain_ext; [|exact Hch]. intros z Hz. apply elem_drop_act in Hz as [Hz _]. by rewrite Hlk, decide_False.
    + rewrite Hhd by done. rewrite drop_act_id by (intros Hin; by apply (Hwz s w' Hin Hne)).
      apply Hframe; [by intros z Hz; apply (Hwz z w')|apply (rp_w _ _ _ _ _ Hr)].
  - cbn [v2 set_strands dead]. rewrite E3. apply Hframe; [done|apply (rp_d _ _ _ _ _ Hr)].
  - intros z Hne. rewrite Hlk, decide_False by done. by apply Hnn.
Qed.

Lemma rep_timers v q W D act h : rep v q W D act -> is_heap h -> rep (set_timers h v) q W D act.
Proof. intros [] Hh. by split. Qed.

(** The sleeper record of [s] is gone, the other timers stay. *)
Definition unslept (s : nat) (h h' : theap) : Prop :=
  match find_sleeper h s with
  | Some i => exists t, h !! i = Some t /\ t :: h' ≡ₚ h
  | None => h' = h
  end.

Lemma wake_timers v s : is_heap (timers_heap v) ->
  exists h', (match find_sleeper (timers_heap v) s with
              | Some i => h ← heap_remove_at (timers_heap v) i; Some (set_timers h v)
              | None => Some v
              end) = Some (set_timers h' v) /\ is_heap h' /\ unslept s (timers_heap v) h'.
Proof.
  intros Hh. unfold unslept. pose proof (find_sleeper_spec (timers_heap v) s O) as Hf. fold (find_sleeper (timers_heap v) s) in Hf.
  destruct (find_sleeper _ s) as [i|].
  - destruct Hf as (_ & t & Ht & _). rewrite Nat.sub_0_r in Ht. destruct (heap_remove_spec _ i t Hh Ht) as (h' & -> & Hp & Hh').
    exists h'. split; [done|]. split; [done|]. by exists t.
  - exists (timers_heap v). split; [by destruct v|]. by split.
Qed.

(** ** Frames: what an operation on [s] leaves of the other strands *)

(** A strand but for its list link. *)
Definition core (v : sched) (z : nat) : option UStrand := with_link None <$> strands v !! z.

Lemma core_poke_link p l v v' : poke p (with_link l) v = Some v' -> forall z, core v' z = core v z.
Proof.
  unfold poke, core. destruct (strands v !! p) as [x|] eqn:E; [|done]. intros [= <-] z. cbn [set_strands strands].
  destruct (decide (z = p)) as [->|]; [by rewrite lookup_insert_eq, E|by rewrite lookup_insert_ne].
Qed.

Lemma core_poke s f v v' : poke s f v = Some v' -> forall z, z <> s -> core v' z = core v z.
Proof.
  unfold poke, core. destruct (strands v !! s) as [x|]; [|done]. intros [= <-] z Hz. cbn [set_strands strands]. by rewrite lookup_insert_ne.
Qed.

Lemma core_inv v v' z x' : core v' z = core v z -> strands v' !! z = Some x' ->
  exists x, strands v !! z = Some x /\ with_link None x' = with_link None x.
Proof.
  unfold core. intros E Hx. rewrite Hx in E. destruct (strands v !! z) as [x|]; [|done]. exists x. split; [done|].
  apply (inj Some) in E. exact E.
Qed.

Lemma enqueue_core s v v' : usched_enqueue s v = Some v' -> forall z, z <> s -> core v' z = core v z.
Proof.
  unfold usched_enqueue. destruct (strands v !! s) as [x|]; [|done]. cbn [mbind option_bind].
  destruct (decide _); [by intros [= <-]|]. destruct (_ || _); [by intros [= <-]|]. destruct (negb _).
  { destruct (decide _); [by intros [= <-]|]. apply core_poke. }
  destruct (poke s _ v) as [v1|] eqn:E1; [|done]. cbn [mbind option_bind]. intros H z Hz. rewrite <- (core_poke _ _ _ _ E1 z Hz).
  destruct (run_tail v1) as [t|]; [|by injection H as <-].
  destruct (poke t _ v1) as [v2|] eqn:E2; [|done]. injection H as <-. by rewrite <- (core_poke_link _ _ _ _ E2).
Qed.

(** Enqueuing an ungated strand leaves it ready, waiting on nothing. *)
Lemma enqueue_self s v v' x : usched_enqueue s v = Some v' -> strands v !! s = Some x -> s_state x <> USTRAND_DEAD ->
  run_tail v <> Some s -> s_link x = None -> s_gates x = 0 ->
  exists y, strands v' !! s = Some y /\ with_link None y = strand_move USTRAND_READY None 0 None x.
Proof.
  intros H Hx Hd Ht Hl Hg. unfold usched_enqueue in H. rewrite Hx in H. cbn [mbind option_bind] in H.
  rewrite decide_False, (bool_decide_false (run_tail v = Some s)), (bool_decide_false (s_link x <> None)), Hg in H by (rewrite ?Hl; auto).
  cbn [orb negb Z.eqb] in H. rewrite (poke_spec _ _ _ _ Hx) in H. cbn [mbind option_bind] in H.
  set (v1 := set_strands _ v) in H. assert (Hx1 : strands v1 !! s = Some (strand_move USTRAND_READY None 0 None x)) by apply lookup_insert_eq.
  destruct (run_tail v1) as [t|] eqn:Et; [|injection H as <-; by eexists].
  destruct (poke t _ v1) as [v2|] eqn:E2; [|done]. injection H as <-. pose proof (core_poke_link _ _ _ _ E2 s) as Hc.
  cbn [set_queue strands]. unfold core in Hc. rewrite Hx1 in Hc. destruct (strands v2 !! s) as [y|]; [|done]. exists y. split; [done|].
  apply (inj Some) in Hc. exact Hc.
Qed.

(** The strand a wake leaves behind, before it is queued. *)
Definition woken (payload : uval) (x : UStrand) : UStrand :=
  let y := strand_move USTRAND_PARKED None 0 None x in
  if bool_decide (payload <> VNil) && bool_decide (s_unwind x = UUNWIND_NONE) then with_unwind (s_unwind x) payload y else y.

Lemma woken_fields payload x : s_state (woken payload x) = USTRAND_PARKED /\ s_link (woken payload x) = None /\
  s_waiting_on (woken payload x) = None /\ s_gates (woken payload x) = s_gates x /\ s_unwind (woken payload x) = s_unwind x.
Proof. unfold woken. by destruct (_ && _). Qed.

Lemma wake_noop v s x payload : strands v !! s = Some x -> s_state x <> USTRAND_PARKED -> usched_wake s payload v = Some v.
Proof. intros Hx Hst. unfold usched_wake. rewrite Hx. cbn [mbind option_bind]. by rewrite decide_False. Qed.

Lemma wake_spec v q W D act s x payload :
  rep v q W D act -> strands v !! s = Some x -> s_state x = USTRAND_PARKED ->
  exists v', usched_wake s payload v = Some v' /\ unslept s (timers_heap v) (timers_heap v') /\
    if s_gates x =? 0 then rep v' (q ++ [s]) (drop_all s W) D (drop_act s act) /\
      core v' s = Some (strand_move USTRAND_READY None 0 None (woken payload x))
    else rep v' q (drop_all s W) D act /\ strands v' !! s = Some (woken payload x).
Proof.
  intros Hr Hx Hst. unfold usched_wake. rewrite Hx. cbn [mbind option_bind]. rewrite decide_True by done.
  destruct (unlink_wait_spec v q W D act s x Hr Hx Hst) as (v1 & -> & Hr1 & Ht1 & Hx1). cbn [mbind option_bind].
  destruct (wake_timers v1 s (rp_heap _ _ _ _ _ Hr1)) as (h' & -> & Hh' & Hun). cbn [mbind option_bind]. rewrite Ht1 in Hun.
  pose proof (rep_timers _ _ _ _ _ h' Hr1 Hh') as Hr2. set (v2 := set_timers h' v1) in *.
  assert (Hx2 : strands v2 !! s = Some (strand_move USTRAND_PARKED None (s_wake_us x) None x)) by exact Hx1.
  assert (Hoff : off_lists q (drop_all s W) D s).
  { split; [intros (x' & ? & ? & _)%(rp_qs _ _ _ _ _ Hr); congruence|].
    split; [intros w [? _]%elem_drop_act; done|]. intros (x' & ? & ?)%(rp_ds _ _ _ _ _ Hr). congruence. }
  rewrite (poke_spec _ _ _ _ Hx2). cbn [mbind option_bind set_strands strands]. rewrite lookup_insert_eq. cbn [mbind option_bind].
  set (y := strand_move _ _ _ _ _). set (v3 := set_strands _ v2).
  assert (Hx3 : strands v3 !! s = Some y) by apply lookup_insert_eq.
  assert (Hr3 : rep v3 q (drop_all s W) D act).
  { eapply (rep_off v2); [exact Hr2|exact Hx2|done|done|done|by intros [|]|done]. }
  assert (Hpay : exists v4, (if bool_decide (payload <> VNil) && bool_decide (s_unwind y = UUNWIND_NONE)
      then poke s (with_unwind (s_unwind y) payload) v3 else Some v3) = Some v4 /\ rep v4 q (drop_all s W) D act /\
      strands v4 !! s = Some (woken payload x) /\ timers_heap v4 = h').
  { unfold woken. change (s_unwind y) with (s_unwind x). destruct (_ && _).
    - rewrite (poke_spec _ _ _ _ Hx3). eexists. split; [done|]. split; [|split; [apply lookup_insert_eq|done]].
      eapply (rep_off v3); [exact Hr3|exact Hx3|done|done|done|by intros [|]|done].
    - by exists v3. }
  destruct Hpay as (v4 & -> & Hr4 & Hx4 & Ht4). cbn [mbind option_bind]. change (s_gates y) with (s_gates x).
  destruct (woken_fields payload x) as (Wst & Wl & Ww & Wg & _).
  destruct (s_gates x =? 0) eqn:Hg; cbn [negb].
  - destruct (enqueue_spec v4 q (drop_all s W) D act s _ Hr4 Hx4 Hoff) as (v5 & He & Hr5); [by rewrite Wst|].
    rewrite Wg, Hg in Hr5. exists v5. split; [done|]. split.
    { apply enqueue_env in He. injection He as Ht5 _ _ _ _. by rewrite Ht5, Ht4. }
    split; [done|]. destruct (enqueue_self s v4 v5 _ He Hx4) as (y5 & Hy5 & E5); [by rewrite Wst| |done|rewrite Wg; by apply Z.eqb_eq|].
    { rewrite (rp_tail _ _ _ _ _ Hr4). intros Hl. apply last_Some in Hl as [q' Hq']. destruct Hoff as [Hq _]. apply Hq. rewrite Hq'. set_solver. }
    unfold core. rewrite Hy5. cbn [fmap option_fmap option_map]. by rewrite E5.
  - rewrite (poke_spec _ _ _ _ Hx4). eexists. split; [done|]. split; [cbn [set_strands timers_heap]; by rewrite Ht4|]. split.
    + eapply (rep_off v4); [exact Hr4|exact Hx4|done|done|cbn; by rewrite Ww| |done]. cbn. rewrite Wst. by intros [|].
    + cbn [set_strands strands]. rewrite lookup_insert_eq. f_equal. destruct (woken payload x). cbn in *. unfold with_link, strand_move. cbn. congruence.
Qed.

Lemma unqueue_core fuel s : forall prev c v v', unqueue_loop fuel s prev c v = Some v' -> (forall z, core v' z = core v z) /\ env v' = env v.
Proof.
  induction fuel as [|fuel IH]; intros prev [c|] v v'; cbn [unqueue_loop]; try done; try (by intros [= <-]).
  destruct (strands v !! c) as [x|]; [|done]. cbn [mbind option_bind]. destruct (decide (c = s)); [|apply IH].
  destruct (match prev with Some p => _ | None => _ end) as [v1|] eqn:E1; [|done]. cbn [mbind option_bind]. intros H.
  assert (H1 : (forall z, core v1 z = core v z) /\ env v1 = env v).
  { destruct prev as [p|]; [|by injection E1 as <-]. split; [by apply (core_poke_link _ _ _ _ E1)|by apply (poke_env _ _ _ _ E1)]. }
  destruct H1 as [H1 H2]. destruct (bool_decide _).
  all: split; [intros z; rewrite (core_poke_link _ _ _ _ H z); exact (H1 z)|rewrite (poke_env _ _ _ _ H); exact H2].
Qed.

Lemma unlink_core fuel s w : forall prev c v v', unlink_loop fuel s w prev c v = Some v' -> (forall z, core v' z = core v z) /\ env v' = env v.
Proof.
  induction fuel as [|fuel IH]; intros prev [c|] v v'; cbn [unlink_loop]; try done; try (by intros [= <-]).
  destruct (strands v !! c) as [x|]; [|done]. cbn [mbind option_bind]. destruct (decide (c = s)); [|apply IH].
  destruct prev as [p|]; [|by intros [= <-]]. intros H. split; [by apply (core_poke_link _ _ _ _ H)|by apply (poke_env _ _ _ _ H)].
Qed.

(** [env] less the timers. *)
Definition env' (v : sched) := (current v, tag_flags v, realm_strands v, dom (strands v)).
Lemma env_env' v v' : env v' = env v -> env' v' = env' v.
Proof. unfold env, env'. by intros [= _ -> -> -> ->]. Qed.

Lemma wake_frame s payload v v' : usched_wake s payload v = Some v' -> (forall z, z <> s -> core v' z = core v z) /\ env' v' = env' v.
Proof.
  unfold usched_wake. destruct (strands v !! s) as [x|]; [|done]. cbn [mbind option_bind]. destruct (decide _); [|by intros [= <-]].
  destruct (usched_unlink_wait s v) as [v1|] eqn:E1; [|done]. cbn [mbind option_bind].
  assert (H1 : (forall z, z <> s -> core v1 z = core v z) /\ env' v1 = env' v).
  { unfold usched_unlink_wait in E1. destruct (strands v !! s) as [y|]; [|done]. cbn [mbind option_bind] in E1.
    destruct (s_waiting_on y) as [w|]; [|by injection E1 as <-]. destruct (unlink_loop _ _ _ _ _ v) as [v0|] eqn:E0; [|done].
    cbn [mbind option_bind] in E1. destruct (strands v0 !! s) as [z0|]; [|done]. cbn [mbind option_bind] in E1. apply unlink_core in E0 as [H0 H0'].
    split; [intros z Hz; by rewrite (core_poke _ _ _ _ E1 z Hz), H0|]. by rewrite (env_env' _ _ (poke_env _ _ _ _ E1)), (env_env' _ _ H0'). }
  destruct (match find_sleeper _ s with Some i => _ | None => _ end) as [v2|] eqn:E2; [|done]. cbn [mbind option_bind].
  assert (H2 : (forall z, core v2 z = core v1 z) /\ env' v2 = env' v1).
  { destruct (find_sleeper _ s); [|by injection E2 as <-]. destruct (heap_remove_at _ _); [|done]. by injection E2 as <-. }
  destruct (poke s _ v2) as [v3|] eqn:E3; [|done]. cbn [mbind option_bind]. destruct (strands v3 !! s) as [y|]; [|done]. cbn [mbind option_bind].
  destruct (if _ && _ then _ else _) as [v4|] eqn:E4; [|done]. cbn [mbind option_bind].
  assert (H4 : (forall z, z <> s -> core v4 z = core v3 z) /\ env' v4 = env' v3).
  { destruct (_ && _); [|by injection E4 as <-]. split; [by apply (core_poke _ _ _ _ E4)|by apply env_env', (poke_env _ _ _ _ E4)]. }
  assert (H3 : (forall z, z <> s -> core v4 z = core v z) /\ env' v4 = env' v).
  { destruct H1 as [H1 H1'], H2 as [H2 H2'], H4 as [H4 H4']. split.
    - intros z Hz. rewrite H4, (core_poke _ _ _ _ E3 z Hz), H2, H1 by done. done.
    - by rewrite H4', (env_env' _ _ (poke_env _ _ _ _ E3)), H2', H1'. }
  destruct H3 as [H3 H3']. destruct (negb _); intros H.
  - split; [intros z Hz; by rewrite (core_poke _ _ _ _ H z Hz), H3|]. by rewrite (env_env' _ _ (poke_env _ _ _ _ H)).
  - split; [intros z Hz; by rewrite (enqueue_core _ _ _ H z Hz), H3|]. by rewrite (env_env' _ _ (enqueue_env _ _ _ H)).
Qed.

(** ** Initial states *)

Lemma rep_init m fl rs : (forall s x, m !! s = Some x -> s_state x = USTRAND_PARKED /\ s_link x = None /\ s_waiting_on x = None) ->
  rep (MkSched m None None None None ∅ [] fl rs) [] (fun _ => []) [] [].
Proof.
  intros Hm. split; cbn [run_head run_tail wheads dead timers_heap strands]; try done; try (by intros s ?%elem_of_nil).
  - intros s w. split; [by intros ?%elem_of_nil|]. intros (x & Hx & _ & Hw). destruct (Hm s x Hx) as (_ & _ & ?). congruence.
  - intros s x Hx Hl. by destruct (Hm s x Hx) as (_ & ? & _).
  - intros s x Hx Hst. destruct (Hm s x Hx) as (E & _). rewrite E in Hst. by destruct Hst.
Qed.

Definition new_strand : UStrand := MkStrand USTRAND_PARKED 0 UUNWIND_NONE VNil None None 0 None [] false 0.
Definition demo : sched := MkSched {[1%nat := new_strand; 2%nat := new_strand]} None None None None ∅ [] ∅ [].

Lemma demo_rep : rep demo [] (fun _ => []) [] [].
Proof.
  apply rep_init. intros s x Hx. apply lookup_insert_Some in Hx as [[_ <-]|[_ Hx]]; [done|]. by apply lookup_singleton_Some in Hx as [_ <-].
Qed.

Definition demo1 : sched := default demo (usched_enqueue 1 demo).
Definition demo2 : sched := default demo (usched_enqueue 2 demo1).

Lemma demo1_rep : rep demo1 [1%nat] (fun _ => []) [] [].
Proof.
  destruct (enqueue_spec demo [] (fun _ => []) [] [] 1 new_strand demo_rep) as (v & Hv & Hr);
    [reflexivity|split; [|split]; set_solver|done|]. unfold demo1. rewrite Hv. exact Hr.
Qed.
Lemma demo2_rep : rep demo2 [1%nat; 2%nat] (fun _ => []) [] [].
Proof.
  destruct (enqueue_spec demo1 [1%nat] (fun _ => []) [] [] 2 new_strand demo1_rep) as (v & Hv & Hr);
    [reflexivity|split; [|split]; set_solver|done|]. unfold demo2. rewrite Hv. exact Hr.
Qed.

(** ** Properties *)

(** enqueue refines a FIFO queue: a strand already queued is left alone (the
    test on the tail and the link field is exactly membership), a dead one
    too; a strand on no list is appended, the order of the others kept; and
    one held by a gate is parked instead of queued. *)
Theorem enqueue_refines_fifo v q W D act s x :
  rep v q W D act -> strands v !! s = Some x ->
  (s ∈ q -> usched_enqueue s v = Some v) /\
  (s_state x = USTRAND_DEAD -> usched_enqueue s v = Some v) /\
  (off_lists q W D s -> s_state x <> USTRAND_DEAD ->
   exists v', usched_enqueue s v = Some v' /\
     if s_gates x =? 0 then rep v' (q ++ [s]) W D (drop_act s act)
     else rep v' q W D (drop_act s act) /\ exists y, strands v' !! s = Some y /\ s_state y = USTRAND_PARKED).
Proof.
  intros Hr Hx. split; [by eapply enqueue_queued|]. split.
  - intros Hd. unfold usched_enqueue. rewrite Hx. cbn [mbind option_bind]. by rewrite decide_True.
  - intros Hoff Hd. by apply enqueue_spec.
Qed.

Lemma enqueue_refines_fifo_witness :
  exists v', usched_enqueue 2 demo1 = Some v' /\ rep v' [1%nat; 2%nat] (fun _ => []) [] [].
Proof.
  destruct (enqueue_refines_fifo demo1 [1%nat] (fun _ => []) [] [] 2 new_strand demo1_rep) as (_ & _ & H); [reflexivity|].
  apply H; [split; [|split]; set_solver|discriminate].
Defined.

(** dequeue takes the oldest strand off the queue, clears its link and
    leaves the rest in order; an empty queue yields none. *)
Theorem dequeue_refines_fifo v q W D act :
  rep v q W D act ->
  match q with
  | [] => usched_dequeue v = Some (None, v)
  | s :: q' => exists v', usched_dequeue v = Some (Some s, v') /\ rep v' q' W D (s :: act) /\ shape v' s = shape v s
  end.
Proof. exact (dequeue_spec v q W D act). Qed.

Lemma dequeue_refines_fifo_witness :
  exists v', usched_dequeue demo2 = Some (Some 1%nat, v') /\ rep v' [2%nat] (fun _ => []) [] [1%nat] /\ shape v' 1 = shape demo2 1.
Proof. exact (dequeue_refines_fifo demo2 [1%nat; 2%nat] (fun _ => []) [] [] demo2_rep). Defined.

(** park: a strand that may not leave its C frame (a spare, or inside a
    synchronous call) is refused with -1 and untouched; any other goes to
    the front of exactly the wait list named, or of none. *)
Theorem park_refines_wait v q W D act s x w wake :
  rep v q W D act -> strands v !! s = Some x -> off_lists q W D s ->
  if usched_may_deschedule x then
    exists v', usched_park s w wake v = Some (0, v') /\ rep v' q (wait_push w s W) D (drop_act s act) /\
      strands v' !! s = Some (strand_move USTRAND_PARKED w wake (w ≫= fun l => wheads v !! l) x)
  else usched_park s w wake v = Some (-1, v).
Proof. exact (park_spec v q W D act s x w wake). Qed.

Lemma park_refines_wait_witness :
  exists v', usched_park 2 (Some (WEvent 7)) 0 demo1 = Some (0, v') /\
    rep v' [1%nat] (wait_push (Some (WEvent 7)) 2 (fun _ => [])) [] [] /\
    strands v' !! 2%nat = Some (strand_move USTRAND_PARKED (Some (WEvent 7)) 0 (wheads demo1 !! WEvent 7) new_strand).
Proof.
  exact (park_refines_wait demo1 [1%nat] (fun _ => []) [] [] 2 new_strand (Some (WEvent 7)) 0 demo1_rep eq_refl
    ltac:(split; [|split]; set_solver)).
Defined.

(** C37 wake: a parked strand leaves the one wait list it is on and its sleeper
    record, and nothing else does; it joins the tail of the run queue unless
    a gate holds it, when it stays parked waiting on nothing; a strand that
    is not parked is left alone. *)
Theorem wake_refines v q W D act s x payload :
  rep v q W D act -> strands v !! s = Some x ->
  exists v', usched_wake s payload v = Some v' /\
    if decide (s_state x = USTRAND_PARKED) then
      unslept s (timers_heap v) (timers_heap v') /\
      if s_gates x =? 0 then rep v' (q ++ [s]) (drop_all s W) D (drop_act s act) /\
        core v' s = Some (strand_move USTRAND_READY None 0 None (woken payload x))
      else rep v' q (drop_all s W) D act /\ strands v' !! s = Some (woken payload x)
    else v' = v.
Proof.
  intros Hr Hx. destruct (decide (s_state x = USTRAND_PARKED)) as [Hp|Hp].
  - destruct (wake_spec v q W D act s x payload Hr Hx Hp) as (v' & H1 & H2 & H3). by exists v'.
  - exists v. split; [by eapply wake_noop|done].
Qed.

Lemma wake_refines_witness :
  exists v', usched_wake 2 VNil demo1 = Some v' /\ unslept 2 [] (timers_heap v') /\ rep v' [1%nat; 2%nat] (drop_all 2 (fun _ => [])) [] [] /\
    core v' 2 = Some (strand_move USTRAND_READY None 0 None (woken VNil new_strand)).
Proof. exact (wake_refines demo1 [1%nat] (fun _ => []) [] [] 2 new_strand VNil demo1_rep eq_refl). Defined.

(** unqueue: a queued strand is cut out of the middle of the intrusive list,
    tail pointer included, and no other strand is disturbed; one that is not
    queued is left alone. *)
Theorem unqueue_refines v q W D act s :
  rep v q W D act ->
  if decide (s ∈ q) then exists v', usched_unqueue s v = Some v' /\ rep v' (drop_act s q) W D (s :: act) /\ shape v' s = shape v s
  else usched_unqueue s v = Some v.
Proof. exact (unqueue_spec v q W D act s). Qed.

Lemma unqueue_refines_witness :
  exists v', usched_unqueue 2 demo2 = Some v' /\ rep v' [1%nat] (fun _ => []) [] [2%nat] /\ shape v' 2 = shape demo2 2.
Proof. exact (unqueue_refines demo2 [1%nat; 2%nat] (fun _ => []) [] [] 2 demo2_rep). Defined.
