(* ===== verification/Tags.v ===== *)
(** * Tags, gates, events, cancellation and death (src/src/rt/utag.c, usched.c, uwatch.c)

    A tag keeps no member list: the strands in its scope are the ones whose
    scope chain names it.  Stop and the gates walk every strand of every
    realm; emission and death hand whole wait lists back to the scheduler.
    Watchers appear here as far as cancellation reaches them. *)
From S2P Require Import Prelude Timers Sched.

Module Tags.

Definition UTAG_F_BLOCKED : Z := 1.
Definition UTAG_F_FROZEN : Z := 2.

(** ** Scope membership and gate bits *)

Definition scope_entry (c : UCleanup) (t : nat) : bool := cl_tag_scope c && bool_decide (cl_saved c = VTag t).

Definition utag_covers (x : UStrand) (t : nat) : bool :=
  bool_decide (s_tag x = Some t) || existsb (fun c => scope_entry c t) (s_cleanup x).

Definition flags_of (v : sched) (t : nat) : Z := default 0 (tag_flags v !! t).

Definition utag_gate_bits (v : sched) (t : option nat) : Z :=
  match t with Some t => Z.land (flags_of v t) (Z.lor UTAG_F_BLOCKED UTAG_F_FROZEN) | None => 0 end.

(** The tag a cleanup entry displaced, if it is a tag scope. *)
Definition saved_tag (c : UCleanup) : option nat :=
  if cl_tag_scope c then match cl_saved c with VTag t => Some t | _ => None end else None.

Definition utag_strand_gate_bits (v : sched) (x : UStrand) : Z :=
  fold_left (fun g c => Z.lor g (utag_gate_bits v (saved_tag c))) (s_cleanup x) (utag_gate_bits v (s_tag x)).

(** ** Gates *)

Definition gate_one (t : nat) (bit : Z) (on : bool) (s : nat) (v : sched) : option sched :=
  x ← strands v !! s;
  if bool_decide (s_state x = USTRAND_DEAD) || negb (utag_covers x t) then Some v
  else if on then
    v ← poke s (with_gates (Z.lor (s_gates x) bit)) v;
    if decide (s_state x = USTRAND_READY) then
      v ← usched_unqueue s v; snd <$> usched_park s None 0 v
    else if decide (current v = Some s) then snd <$> usched_park s None 0 v
    else Some v
  else
    let g := utag_strand_gate_bits v x in
    v ← poke s (with_gates g) v;
    if (g =? 0) && bool_decide (s_state x = USTRAND_PARKED) && bool_decide (s_waiting_on x = None)
       && negb (usched_has_timer (timers_heap v) s)
    then usched_enqueue s v else Some v.

(** One pass over the strands of the realms. *)
Fixpoint each_strand (f : nat -> sched -> option sched) (l : list nat) (v : sched) : option sched :=
  match l with
  | [] => Some v
  | s :: l => v ← f s v; each_strand f l v
  end.

Definition utag_gate (t : nat) (bit : Z) (on : bool) (v : sched) : option sched :=
  let fl := if on then Z.lor (flags_of v t) bit else Z.ldiff (flags_of v t) bit in
  let v := set_flags (<[t := fl]> (tag_flags v)) v in
  each_strand (gate_one t bit on) (realm_strands v) v.

(** ** Handing a wait list back *)

(** [while (head) { s = head; head = s->link; s->link = NULL;
    s->waiting_on = NULL; usched_wake(s, payload); }], the head read from
    the owner of the list. *)
Fixpoint wake_list (fuel : nat) (w : waitlist) (payload : uval) (v : sched) : option sched :=
  match wheads v !! w with
  | None => Some v
  | Some s =>
      match fuel with
      | O => None
      | S fuel =>
          x ← strands v !! s;
          let v := set_heads (opt_set w (s_link x) (wheads v)) v in
          v ← poke s (fun x => strand_move (s_state x) None (s_wake_us x) None x) v;
          v ← usched_wake s payload v;
          wake_list fuel w payload v
      end
  end.

(** The same with the list detached beforehand, as [uevent_emit_to] does. *)
Fixpoint wake_detached (fuel : nat) (c : option nat) (payload : uval) (v : sched) : option sched :=
  match c with
  | None => Some v
  | Some s =>
      match fuel with
      | O => None
      | S fuel =>
          x ← strands v !! s;
          let next := s_link x in
          v ← poke s (fun x => strand_move (s_state x) None (s_wake_us x) None x) v;
          v ← usched_wake s payload v;
          wake_detached fuel next payload v
      end
  end.

Definition emit_waiters (e : nat) (payload : uval) (v : sched) : option sched :=
  let w := wheads v !! WEvent e in
  wake_detached (S (size (strands v))) w payload (set_heads (delete (WEvent e) (wheads v)) v).

(** ** Death and reaping *)

Definition on_death_lists (s : nat) (v : sched) : option sched :=
  v ← poke s (fun x => strand_move USTRAND_DEAD (s_waiting_on x) (s_wake_us x) (s_link x) x) v;
  v ← wake_list (S (size (strands v))) (WJoiners s) VNil v;
  v ← poke s (with_link (dead v)) v;
  Some (set_dead (Some s) v).

Fixpoint reap_loop (fuel : nat) (v : sched) : option sched :=
  match dead v with
  | None => Some v
  | Some s =>
      match fuel with
      | O => None
      | S fuel =>
          x ← strands v !! s;
          let v := set_dead (s_link x) v in
          v ← poke s (with_link None) v;
          reap_loop fuel (set_realm_strands (default (realm_strands v) (remove1 s (realm_strands v))) v)
      end
  end.
Definition usched_reap (v : sched) : option sched := reap_loop (S (size (strands v))) v.

(** ** Watchers, as far as cancellation reads them *)

Inductive UWatchMode := UWATCH_AT | UWATCH_AT_SYNC | UWATCH_WHENEVER | UWATCH_WAITUNTIL | UWATCH_ONCE.
#[global] Instance UWatchMode_eq_dec : EqDecision UWatchMode.
Proof. solve_decision. Defined.

Record UWatcher := MkWatcher {
  w_id : nat;
  w_mode : UWatchMode;
  w_armed : bool;
  w_leave_pending : bool;
  w_body_strand : option nat;
  w_event : option nat;
  w_tag : option nat;
  w_realm : option nat;
  w_runs : bool }.          (* it has a body or a host callback *)

(** [UWatchState]: the list of all watchers, each event's subscribers, and
    the flag a walk holds. *)
Record vm := MkVM {
  sc : sched;
  all : list UWatcher;
  on_event : gmap nat (list nat);
  draining : bool }.

Definition set_sc (v : sched) (m : vm) : vm := MkVM v (all m) (on_event m) (draining m).

Definition uwatch_unlink_from_event (w : UWatcher) (ev : gmap nat (list nat)) : gmap nat (list nat) :=
  match w_event w with
  | None => ev
  | Some e =>
      match ev !! e ≫= remove1 (w_id w) with
      | Some l => <[e := l]> ev
      | None => ev
      end
  end.

Definition w_kept (w : UWatcher) : bool := w_armed w || (w_leave_pending w && bool_decide (w_body_strand w <> None)).

Fixpoint sweep_loop (l : list UWatcher) (ev : gmap nat (list nat)) (v : sched) : option (list UWatcher * gmap nat (list nat) * sched) :=
  match l with
  | [] => Some ([], ev, v)
  | w :: l =>
      if w_kept w then
        '(l, ev, v) ← sweep_loop l ev v; Some (w :: l, ev, v)
      else
        v ← wake_list (S (size (strands v))) (WWatcher (w_id w)) VNil v;
        sweep_loop l (uwatch_unlink_from_event w ev) v
  end.

Definition uwatch_sweep (m : vm) : option vm :=
  if draining m then Some m
  else '(l, ev, v) ← sweep_loop (all m) (on_event m) (sc m); Some (MkVM v l ev false).

(** [w->armed = 0; w->leave_pending = 0]. *)
Definition cancel_watcher (w : UWatcher) : UWatcher :=
  MkWatcher (w_id w) (w_mode w) false false (w_body_strand w) (w_event w) (w_tag w) (w_realm w) (w_runs w).

Definition uwatch_tag_stopped (t : nat) (m : vm) : option vm :=
  uwatch_sweep (MkVM (sc m) ((fun w => if decide (w_tag w = Some t) then cancel_watcher w else w) <$> all m) (on_event m) (draining m)).
Definition uwatch_realm_dropped (r : nat) (m : vm) : option vm :=
  uwatch_sweep (MkVM (sc m) ((fun w => if decide (w_realm w = Some r) then cancel_watcher w else w) <$> all m) (on_event m) (draining m)).

Definition uwatch_has_live_work (m : vm) : bool :=
  existsb (fun w => w_armed w && negb (bool_decide (w_mode w = UWATCH_WAITUNTIL) || bool_decide (w_mode w = UWATCH_ONCE)) && w_runs w) (all m).

Definition usched_has_live_work (m : vm) : bool :=
  bool_decide (run_head (sc m) <> None) || negb (bool_decide (timers_heap (sc m) = [])) || uwatch_has_live_work m.

(** ** Stop *)

Definition stop_one (t : nat) (s : nat) (v : sched) : option sched :=
  x ← strands v !! s;
  if bool_decide (s_state x = USTRAND_DEAD) || negb (utag_covers x t) then Some v
  else
    v ← poke s (with_unwind UUNWIND_STOP (VTag t)) v;
    if decide (current v = Some s) then Some v
    else
      v ← poke s (with_gates 0) v;
      if decide (s_state x = USTRAND_PARKED) then usched_wake s VNil v else Some v.

(** [hit_current]: the dispatching strand was among those marked. *)
Definition hit_one (t : nat) (v : sched) (s : nat) : bool :=
  match strands v !! s with
  | Some x => negb (bool_decide (s_state x = USTRAND_DEAD)) && utag_covers x t && bool_decide (current v = Some s)
  | None => false
  end.

Fixpoint stop_loop (t : nat) (l : list nat) (hit : Z) (v : sched) : option (Z * sched) :=
  match l with
  | [] => Some (hit, v)
  | s :: l =>
      let hit := if hit_one t v s then 1 else hit in
      v ← stop_one t s v; stop_loop t l hit v
  end.

Definition utag_stop (t : nat) (m : vm) : option (Z * vm) :=
  '(hit, v) ← stop_loop t (realm_strands (sc m)) 0 (sc m);
  h ← usched_timers_drop_tag (timers_heap v) t;
  m ← uwatch_tag_stopped t (set_sc (set_timers h v) m);
  Some (hit, m).

(** ** Handing a wait list back: the specification *)

Definition gate_free (v : sched) (s : nat) : bool :=
  match strands v !! s with Some x => s_gates x =? 0 | None => false end.

Definition set_wait (w : waitlist) (l : list nat) (W : waitlist -> list nat) : waitlist -> list nat :=
  fun w' => if decide (w' = w) then l else W w'.

Lemma rep_act_mono v q W D act act' : rep v q W D act -> (forall a, a ∈ act -> a ∈ act') -> rep v q W D act'.
Proof. intros Hr Ha. destruct Hr as [? ? ? ? ? ? ? ? Hact ?]. split; try done. intros s x Hx Hs. destruct (Hact s x Hx Hs); eauto. Qed.

Lemma waiter_here v q W D act w s : rep v q W D act -> s ∈ W w -> exists x, strands v !! s = Some x /\ s_state x = USTRAND_PARKED /\ s_waiting_on x = Some w.
Proof. intros Hr Hs. by apply (rp_ws _ _ _ _ _ Hr). Qed.

(** The head of a wait list leaves it exactly as [usched_unlink_wait] has it leave. *)
Lemma pop_is_unlink v q W D act w s ws x :
  rep v q W D act -> W w = s :: ws -> strands v !! s = Some x ->
  poke s (fun x => strand_move (s_state x) None (s_wake_us x) None x) (set_heads (opt_set w (s_link x) (wheads v)) v)
  = usched_unlink_wait s v.
Proof.
  intros Hr Hw Hx. destruct (waiter_here v q W D act w s Hr) as (x' & Hx' & _ & Hwt); [rewrite Hw; left|].
  rewrite Hx in Hx'. injection Hx' as <-. pose proof (rp_w _ _ _ _ _ Hr w) as Hc. rewrite Hw in Hc. destruct Hc as [Hh _].
  unfold usched_unlink_wait. rewrite Hx. cbn [mbind option_bind]. rewrite Hwt, Hh. cbn [unlink_loop]. rewrite Hx.
  cbn [mbind option_bind]. rewrite decide_True by done. cbn [mbind option_bind strands set_heads]. rewrite Hx. cbn [mbind option_bind].
  unfold poke. cbn [strands set_heads]. by rewrite Hx.
Qed.

Lemma drop_head v q W D act w s ws : rep v q W D act -> W w = s :: ws -> forall w', set_wait w ws W w' = drop_all s W w'.
Proof.
  intros Hr Hw w'. unfold set_wait, drop_all. case_decide as E; [subst w'|].
  - rewrite Hw. pose proof (chain_nodup _ _ _ (rp_w _ _ _ _ _ Hr w)) as Hnd. rewrite Hw in Hnd.
    symmetry. exact (drop_act_split s [] ws Hnd).
  - symmetry. apply drop_act_id. intros Hs. destruct (waiter_here v q W D act w' s Hr Hs) as (x & Hx & _ & H1).
    destruct (waiter_here v q W D act w s Hr) as (x' & Hx' & _ & H2); [rewrite Hw; left|]. congruence.
Qed.

Lemma poke_self_core s f v v' x : poke s f v = Some v' -> strands v !! s = Some x -> strands v' !! s = Some (f x).
Proof. intros H Hx. rewrite (poke_spec s f v x Hx) in H. injection H as <-. cbn. by rewrite lookup_insert_eq. Qed.

Lemma unlink_wait_frame s v v' : usched_unlink_wait s v = Some v' -> (forall z, z <> s -> core v' z = core v z) /\ env v' = env v.
Proof.
  unfold usched_unlink_wait. destruct (strands v !! s) as [x|] eqn:Hx; [|done]. cbn [mbind option_bind].
  destruct (s_waiting_on x) as [w|]; [|intros [= <-]; done].
  destruct (unlink_loop _ s w None _ v) as [v1|] eqn:Hu; [|done]. cbn [mbind option_bind].
  destruct (unlink_core _ _ _ _ _ _ _ Hu) as [Hc He]. destruct (strands v1 !! s) as [x1|] eqn:Hx1; [|done]. cbn [mbind option_bind].
  intros Hp. split; [|by rewrite (poke_env _ _ _ _ Hp)]. intros z Hz. by rewrite (core_poke _ _ _ _ Hp z Hz).
Qed.

Lemma unslept_subset s h h' : unslept s h h' -> h' ⊆ h.
Proof.
  unfold unslept. destruct (find_sleeper h s); [|by intros ->]. intros (t & _ & Hp) p Hpin. rewrite <- Hp. by right.
Qed.

(** One turn: the head leaves its list and is queued, or stays parked when gated. *)
Lemma pop_wake v q W D act w s ws x payload :
  rep v q W D act -> W w = s :: ws -> strands v !! s = Some x ->
  exists v1 v2, usched_unlink_wait s v = Some v1 /\ usched_wake s payload v1 = Some v2 /\
    rep v2 (if s_gates x =? 0 then q ++ [s] else q) (set_wait w ws W) D act /\
    (s_gates x <> 0 -> exists y, strands v2 !! s = Some y /\ s_state y = USTRAND_PARKED /\ s_waiting_on y = None) /\
    strands v1 !! s = Some (strand_move USTRAND_PARKED None (s_wake_us x) None x) /\
    (forall z, z <> s -> core v2 z = core v z) /\ env' v2 = env' v /\ timers_heap v2 ⊆ timers_heap v.
Proof.
  intros Hr Hw Hx. destruct (waiter_here v q W D act w s Hr) as (x' & Hx' & Hp & Hwt); [rewrite Hw; left|].
  rewrite Hx in Hx'. injection Hx' as <-.
  destruct (unlink_wait_spec v q W D act s x Hr Hx Hp) as (v1 & H1 & Hr1 & Ht1 & Hx1).
  destruct (unlink_wait_frame s v v1 H1) as [Hc1 He1].
  destruct (wake_spec v1 q (drop_all s W) D act s _ payload Hr1 Hx1 eq_refl) as (v2 & H2 & Hun & Hr2). cbn [s_gates strand_move] in Hr2.
  destruct (wake_frame s payload v1 v2 H2) as [Hc2 He2].
  exists v1, v2. split; [done|]. split; [done|].
  assert (Hext : forall w', set_wait w ws W w' = drop_all s (drop_all s W) w').
  { intros w'. rewrite (drop_head v q W D act w s ws Hr Hw). unfold drop_all. rewrite (drop_act_id s (drop_act s _)); [done|].
    rewrite elem_drop_act. by intros [? _]. }
  split_and!; try done.
  - destruct (s_gates x =? 0); destruct Hr2 as [Hr2 _]; apply (rep_ext _ _ _ _ _ _ (rep_act_mono _ _ _ _ _ act Hr2 ltac:(intros a; rewrite ?elem_drop_act; tauto)) Hext).
  - intros Hg. rewrite (proj2 (Z.eqb_neq _ _) Hg) in Hr2. destruct Hr2 as [_ Hy]. eexists. split; [exact Hy|].
    destruct (woken_fields payload (strand_move USTRAND_PARKED None (s_wake_us x) None x)) as (-> & _ & -> & _). done.
  - intros z Hz. by rewrite Hc2, Hc1.
  - rewrite He2. by apply env_env'.
  - rewrite <- Ht1. by eapply unslept_subset.
Qed.

(** The outcome of handing back the list [ws] of [w]: those no gate holds are
    appended to the queue in list order, the others stay parked on nothing. *)
Record handed (w : waitlist) (ws : list nat) (v v' : sched) (q : list nat) (W : waitlist -> list nat) (D act : list nat) : Prop := {
  hd_rep : rep v' (q ++ filter (fun s => gate_free v s) ws) (set_wait w [] W) D act;
  hd_gated : forall s, s ∈ ws -> gate_free v s = false ->
    exists y, strands v' !! s = Some y /\ s_state y = USTRAND_PARKED /\ s_waiting_on y = None;
  hd_others : forall z, z ∉ ws -> core v' z = core v z;
  hd_env : env' v' = env' v;
  hd_timers : timers_heap v' ⊆ timers_heap v }.

Lemma core_gate_free v v' z : core v' z = core v z -> gate_free v' z = gate_free v z.
Proof. unfold core, gate_free. destruct (strands v !! z), (strands v' !! z); cbn; try done; intros [=]; congruence. Qed.

Lemma core_parked v v' z : core v' z = core v z ->
  (exists y, strands v !! z = Some y /\ s_state y = USTRAND_PARKED /\ s_waiting_on y = None) ->
  exists y, strands v' !! z = Some y /\ s_state y = USTRAND_PARKED /\ s_waiting_on y = None.
Proof.
  unfold core. intros H (y & Hy & Hs & Hw). rewrite Hy in H. apply fmap_Some in H as (y' & Hy' & E).
  exists y'. unfold with_link, strand_move in E. injection E as E1 E2 E3 E4 E5 E6. by rewrite <- E1, <- E5.
Qed.

Lemma handed_step w s ws v v2 v' q W D act x :
  NoDup (s :: ws) -> strands v !! s = Some x ->
  (s_gates x <> 0 -> exists y, strands v2 !! s = Some y /\ s_state y = USTRAND_PARKED /\ s_waiting_on y = None) ->
  (forall z, z <> s -> core v2 z = core v z) -> env' v2 = env' v -> timers_heap v2 ⊆ timers_heap v ->
  handed w ws v2 v' (if s_gates x =? 0 then q ++ [s] else q) (set_wait w ws W) D act ->
  handed w (s :: ws) v v' q W D act.
Proof.
  intros Hnd Hx Hg Hc He Htm [Hr Hgt Ho Hen Htm']. apply NoDup_cons in Hnd as [Hn Hnd].
  assert (Hf : filter (fun s => gate_free v2 s) ws = filter (fun s => gate_free v s) ws).
  { apply list_filter_ext. intros z Hz. assert (z <> s) by congruence. by rewrite (core_gate_free _ _ _ (Hc z ltac:(done))). }
  assert (Hgf : gate_free v s = (s_gates x =? 0)) by (unfold gate_free; by rewrite Hx).
  split.
  - rewrite Hf in Hr. rewrite filter_cons. rewrite Hgf. apply (rep_ext _ _ (set_wait w [] (set_wait w ws W))).
    + destruct (s_gates x =? 0); cbn [Is_true]; [rewrite decide_True by done|rewrite decide_False by tauto]; [by rewrite <- app_assoc in Hr|done].
    + intros w'. unfold set_wait. by case_decide.
  - intros z [->|Hz]%elem_of_cons Hz2.
    + apply (core_parked v2); [by apply Ho|]. apply Hg. rewrite Hgf in Hz2. by apply Z.eqb_neq.
    + apply Hgt; [done|]. rewrite (core_gate_free v v2); [done|]. apply Hc. congruence.
  - intros z Hz. rewrite Ho by set_solver. apply Hc. set_solver.
  - by rewrite Hen.
  - by etransitivity.
Qed.

Lemma handed_nil w v q W D act : rep v q W D act -> W w = [] -> handed w [] v v q W D act.
Proof.
  intros Hr Hw. split; try done.
  - rewrite filter_nil, app_nil_r. apply (rep_ext _ _ W); [done|]. intros w'. unfold set_wait. case_decide; by subst.
  - by intros s ?%elem_of_nil.
Qed.

Lemma wake_list_spec w payload : forall fuel ws v q W D act,
  rep v q W D act -> W w = ws -> (length ws <= fuel)%nat ->
  exists v', wake_list fuel w payload v = Some v' /\ handed w ws v v' q W D act.
Proof.
  induction fuel as [|fuel IH]; intros ws v q W D act Hr Hw Hl; pose proof (rp_w _ _ _ _ _ Hr w) as Hc; rewrite Hw in Hc;
    (destruct ws as [|s ws]; [cbn in Hc; cbn [wake_list]; rewrite Hc; exists v; split; [done|by apply handed_nil]|]);
    [cbn [length] in Hl; lia|].
  destruct (waiter_here v q W D act w s Hr) as (x & Hx & Hp & Hwt); [rewrite Hw; left|].
  destruct (pop_wake v q W D act w s ws x payload Hr Hw Hx) as (v1 & v2 & H1 & H2 & Hr2 & Hg & _ & Hc2 & He2 & Htm2).
  destruct (IH ws v2 _ _ D act Hr2) as (v' & Hv' & Hh); [unfold set_wait; by rewrite decide_True|cbn [length] in Hl; lia|].
  exists v'. split.
  - cbn [wake_list]. destruct Hc as [-> _]. rewrite Hx. cbn [mbind option_bind]. rewrite (pop_is_unlink v q W D act w s ws x Hr Hw Hx), H1.
    cbn [mbind option_bind]. by rewrite H2.
  - eapply handed_step; try done. rewrite <- Hw. by eapply chain_nodup, (rp_w _ _ _ _ _ Hr w).
Qed.

(** Detaching the list before the walk makes no difference: waking a strand
    that waits on nothing neither reads nor writes a list head. *)
Lemma poke_heads s f m v : poke s f (set_heads m v) = set_heads m <$> poke s f v.
Proof. unfold poke. cbn [strands set_heads]. by destruct (strands v !! s). Qed.

Lemma enqueue_heads s m v : usched_enqueue s (set_heads m v) = set_heads m <$> usched_enqueue s v.
Proof.
  unfold usched_enqueue. cbn [strands set_heads run_tail]. destruct (strands v !! s) as [x|]; [|done]. cbn [mbind option_bind].
  case_decide; [done|]. destruct (_ || _); [done|]. rewrite !poke_heads. destruct (negb _); [by case_decide|].
  destruct (poke s _ v) as [v1|]; [|done]. cbn [fmap option_fmap option_map mbind option_bind run_tail set_heads].
  destruct (run_tail v1) as [t|]; [|done]. rewrite poke_heads. by destruct (poke t _ v1).
Qed.

Lemma wake_heads s payload m v x : strands v !! s = Some x -> s_waiting_on x = None ->
  usched_wake s payload (set_heads m v) = set_heads m <$> usched_wake s payload v.
Proof.
  intros Hx Hw. unfold usched_wake. cbn [strands set_heads]. rewrite Hx. cbn [mbind option_bind]. case_decide; [|done].
  unfold usched_unlink_wait. cbn [strands set_heads]. rewrite Hx. cbn [mbind option_bind]. rewrite Hw. cbn [mbind option_bind timers_heap set_heads].
  assert (Ht : forall o : option theap, (h ← o; Some (set_timers h (set_heads m v))) = set_heads m <$> (h ← o; Some (set_timers h v))) by (by intros []).
  assert (Hs : (match find_sleeper (timers_heap v) s with
      | Some i => h ← heap_remove_at (timers_heap v) i; Some (set_timers h (set_heads m v)) | None => Some (set_heads m v) end)
    = set_heads m <$> (match find_sleeper (timers_heap v) s with
      | Some i => h ← heap_remove_at (timers_heap v) i; Some (set_timers h v) | None => Some v end)) by (destruct (find_sleeper _ s); [apply Ht|done]).
  rewrite Hs. clear Hs. match goal with |- (set_heads m <$> ?o) ≫= _ = _ => destruct o as [v1|]; [|done] end.
  cbn [fmap option_fmap option_map mbind option_bind]. rewrite poke_heads. destruct (poke s _ v1) as [v2|]; [|done].
  cbn [fmap option_fmap option_map mbind option_bind strands set_heads]. destruct (strands v2 !! s) as [y|]; [|done].
  cbn [mbind option_bind]. rewrite poke_heads. destruct (_ && _); [destruct (poke s _ v2) as [v3|]; [|done]|];
    cbn [fmap option_fmap option_map mbind option_bind]; rewrite poke_heads, enqueue_heads; by destruct (negb _).
Qed.

Lemma detached_is_list w payload : forall fuel ws v q W D act,
  rep v q W D act -> W w = ws -> (length ws <= fuel)%nat ->
  wake_detached fuel (wheads v !! w) payload (set_heads (delete w (wheads v)) v) = wake_list fuel w payload v.
Proof.
  induction fuel as [|fuel IH]; intros ws v q W D act Hr Hw Hl; pose proof (rp_w _ _ _ _ _ Hr w) as Hc; rewrite Hw in Hc;
    (destruct ws as [|s ws]; [cbn in Hc; cbn [wake_list wake_detached]; rewrite Hc; rewrite delete_id by done; by destruct v|]);
    [cbn [length] in Hl; lia|].
  destruct (waiter_here v q W D act w s Hr) as (x & Hx & Hp & Hwt); [rewrite Hw; left|].
  destruct (pop_wake v q W D act w s ws x payload Hr Hw Hx) as (v1 & v2 & H1 & H2 & Hr2 & _ & Hx1 & _).
  pose proof (pop_is_unlink v q W D act w s ws x Hr Hw Hx) as Hpop. rewrite H1 in Hpop.
  cbn [wake_list wake_detached]. destruct Hc as [-> _]. cbn [strands set_heads]. rewrite Hx. cbn [mbind option_bind].
  rewrite Hpop. cbn [mbind option_bind]. rewrite H2. cbn [mbind option_bind].
  rewrite poke_heads in Hpop |- *. apply fmap_Some in Hpop as (v0 & Hv0 & ->). rewrite Hv0. cbn [fmap option_fmap option_map mbind option_bind].
  assert (Hx0 : exists y, strands v0 !! s = Some y /\ s_waiting_on y = None) by (eexists; split; [exact Hx1|done]).
  destruct Hx0 as (y & Hy & Hyw). rewrite (wake_heads s payload _ v0 y Hy Hyw) in H2. rewrite (wake_heads s payload _ v0 y Hy Hyw).
  apply fmap_Some in H2 as (v3 & Hv3 & ->). rewrite Hv3. cbn [fmap option_fmap option_map mbind option_bind].
  rewrite <- (IH ws (set_heads (opt_set w (s_link x) (wheads v)) v3) _ _ _ _ Hr2) by (unfold set_wait; rewrite ?decide_True by done; cbn [length] in Hl; lia || done).
  cbn [wheads set_heads]. rewrite lookup_opt_set, decide_True by done. f_equal.
  unfold set_heads. cbn. f_equal. destruct (s_link x); cbn [opt_set]; [by rewrite delete_insert_eq|by rewrite delete_delete_eq].
Qed.

Lemma emit_spec v q W D act e payload : rep v q W D act ->
  exists v', emit_waiters e payload v = Some v' /\ handed (WEvent e) (W (WEvent e)) v v' q W D act.
Proof.
  intros Hr. unfold emit_waiters. pose proof (wait_length _ _ _ _ _ (WEvent e) Hr) as Hl.
  rewrite (detached_is_list (WEvent e) payload _ _ v q W D act Hr eq_refl) by lia. apply wake_list_spec; [done..|lia].
Qed.

(** ** One pass over the realms' strands *)

Definition unlinked_eq (x y : UStrand) : Prop := with_link None x = with_link None y.

(** A pass whose body treats each strand on its own: what it does to strand
    [s] is a function [upd] of [s], and what it does to the queue and the
    wait lists are functions [Q] and [WL] of [s]; none reads the link. *)
Section pass.
Context (f : nat -> sched -> option sched) (P : sched -> Prop) (ok : nat -> UStrand -> Prop).
Context (upd : nat -> UStrand -> UStrand) (Q : nat -> UStrand -> list nat -> list nat)
  (WL : nat -> UStrand -> (waitlist -> list nat) -> waitlist -> list nat).
Hypothesis ok_link : forall s x y, unlinked_eq x y -> ok s x -> ok s y.
Hypothesis upd_link : forall s x y, unlinked_eq x y -> unlinked_eq (upd s x) (upd s y).
Hypothesis Q_link : forall s x y q, unlinked_eq x y -> Q s x q = Q s y q.
Hypothesis WL_link : forall s x y W, unlinked_eq x y -> WL s x W = WL s y W.
Hypothesis step : forall v q W D act s x,
  P v -> rep v q W D act -> strands v !! s = Some x -> ok s x ->
  exists v' act', f s v = Some v' /\ P v' /\ rep v' (Q s x q) (WL s x W) D act' /\
    core v' s = Some (with_link None (upd s x)) /\ (forall z, z <> s -> core v' z = core v z).

Definition at_strand {T} (v : sched) (g : UStrand -> T -> T) (s : nat) (t : T) : T :=
  match strands v !! s with Some x => g x t | None => t end.
Definition pass_q (v : sched) (l : list nat) (q : list nat) : list nat :=
  fold_left (fun q s => at_strand v (Q s) s q) l q.
Definition pass_w (v : sched) (l : list nat) (W : waitlist -> list nat) : waitlist -> list nat :=
  fold_left (fun W s => at_strand v (WL s) s W) l W.

Lemma core_same v v' z x : core v' z = core v z -> strands v !! z = Some x -> exists y, strands v' !! z = Some y /\ unlinked_eq x y.
Proof. unfold core. intros H Hx. rewrite Hx in H. apply fmap_Some in H as (y & Hy & E). by exists y. Qed.

Lemma at_strand_same {T} v v' (g : UStrand -> T -> T) s t :
  (forall x y t, unlinked_eq x y -> g x t = g y t) -> core v' s = core v s -> at_strand v' g s t = at_strand v g s t.
Proof.
  intros Hg Hc. unfold at_strand. destruct (strands v !! s) as [x|] eqn:Hx.
  - destruct (core_same v v' s x Hc Hx) as (y & -> & E). symmetry. by apply Hg.
  - unfold core in Hc. rewrite Hx in Hc. by destruct (strands v' !! s).
Qed.

Lemma fold_at_same {T} v v' (g : nat -> UStrand -> T -> T) l : forall t,
  (forall s x y t, unlinked_eq x y -> g s x t = g s y t) -> (forall s, s ∈ l -> core v' s = core v s) ->
  fold_left (fun t s => at_strand v' (g s) s t) l t = fold_left (fun t s => at_strand v (g s) s t) l t.
Proof.
  induction l as [|s l IH]; intros t Hg Hc; [done|]. cbn [fold_left]. rewrite (at_strand_same v v'); [|by apply Hg|apply Hc; left].
  apply IH; [done|]. intros z Hz. apply Hc. by right.
Qed.

Lemma pass_spec : forall l v q W D act,
  NoDup l -> P v -> rep v q W D act -> (forall s, s ∈ l -> exists x, strands v !! s = Some x /\ ok s x) ->
  exists v' act', each_strand f l v = Some v' /\ P v' /\ rep v' (pass_q v l q) (pass_w v l W) D act' /\
    (forall s x, s ∈ l -> strands v !! s = Some x -> core v' s = Some (with_link None (upd s x))) /\
    (forall z, z ∉ l -> core v' z = core v z).
Proof.
  induction l as [|s l IH]; intros v q W D act Hnd HP Hr Hok.
  { exists v, act. split_and!; try done. by intros s x ?%elem_of_nil. }
  apply NoDup_cons in Hnd as [Hn Hnd]. destruct (Hok s) as (x & Hx & Hokx); [left|].
  destruct (step v q W D act s x HP Hr Hx Hokx) as (v1 & act1 & H1 & HP1 & Hr1 & Hs1 & Ho1).
  assert (Hl : forall z, z ∈ l -> core v1 z = core v z) by (intros z Hz; apply Ho1; congruence).
  destruct (IH v1 _ _ D act1 Hnd HP1 Hr1) as (v2 & act2 & H2 & HP2 & Hr2 & Hs2 & Ho2).
  { intros z Hz. destruct (Hok z) as (xz & Hxz & Hokz); [by right|].
    destruct (core_same v v1 z xz (Hl z Hz) Hxz) as (y & Hy & E). exists y. split; [done|]. by eapply ok_link. }
  exists v2, act2. split_and!.
  - cbn [each_strand]. rewrite H1. cbn [mbind option_bind]. done.
  - done.
  - unfold pass_q, pass_w in *. cbn [fold_left]. unfold at_strand at 2 4. rewrite Hx.
    rewrite (fold_at_same v v1 Q) in Hr2 by done. rewrite (fold_at_same v v1 WL) in Hr2 by done. done.
  - intros z y [->|Hz]%elem_of_cons Hy.
    + rewrite Ho2 by done. by rewrite Hx in Hy; injection Hy as <-.
    + destruct (core_same v v1 z y (Hl z Hz) Hy) as (y' & Hy' & E). rewrite (Hs2 z y' Hz Hy'). f_equal.
      symmetry. by apply upd_link.
  - intros z Hz. rewrite Ho2 by set_solver. apply Ho1. set_solver.
Qed.
End pass.

(** Writing fields no list depends on, wherever the strand is. *)
Lemma rep_inner v q W D act s x y :
  rep v q W D act -> strands v !! s = Some x ->
  s_link y = s_link x -> s_state y = s_state x -> s_waiting_on y = s_waiting_on x ->
  rep (set_strands (<[s := y]> (strands v)) v) q W D act.
Proof.
  intros Hr Hx Hl Hs Hw. set (v' := set_strands _ v).
  assert (Hk : forall z, lk v' z = lk v z).
  { intros z. unfold v'. rewrite lk_insert. case_decide; [subst|done]. unfold lk. by rewrite Hx. }
  assert (Hf : forall z y', strands v' !! z = Some y' -> exists x', strands v !! z = Some x' /\
    s_link y' = s_link x' /\ s_state y' = s_state x' /\ s_waiting_on y' = s_waiting_on x').
  { intros z y'. unfold v'. cbn [strands set_strands]. destruct (decide (z = s)) as [->|].
    - rewrite lookup_insert_eq. intros [= <-]. by exists x.
    - rewrite lookup_insert_ne by done. intros Hz. by exists y'. }
  assert (Hb : forall z x', strands v !! z = Some x' -> exists y', strands v' !! z = Some y' /\
    s_link y' = s_link x' /\ s_state y' = s_state x' /\ s_waiting_on y' = s_waiting_on x').
  { intros z x'. unfold v'. cbn [strands set_strands]. destruct (decide (z = s)) as [->|].
    - rewrite lookup_insert_eq. rewrite Hx. intros [= <-]. by exists y.
    - rewrite lookup_insert_ne by done. intros Hz. by exists x'. }
  destruct Hr as [H1 H2 H3 H4 H5 H6 H7 H8 H9 H10]. split; cbn [run_head run_tail wheads dead timers_heap v' set_strands]; try done.
  - eapply chain_ext; [|done]. done.
  - intros w. eapply chain_ext; [|done]. done.
  - eapply chain_ext; [|done]. done.
  - intros z Hz. destruct (H5 z Hz) as (x' & Hx' & ? & ?). destruct (Hb z x' Hx') as (y' & ? & ? & ? & ?). exists y'. split_and!; congruence.
  - intros z w. rewrite H6. split; intros (a & Ha & ? & ?); [apply Hb in Ha|apply Hf in Ha]; destruct Ha as (b & ? & ? & ? & ?); exists b; split_and!; congruence.
  - intros z Hz. destruct (H7 z Hz) as (x' & Hx' & ?). destruct (Hb z x' Hx') as (y' & ? & ? & ? & ?). exists y'. split; congruence.
  - intros z y' Hy' Hn. destruct (Hf z y' Hy') as (x' & Hx' & E & _). apply (H8 z x' Hx'). congruence.
  - intros z y' Hy' Hn. destruct (Hf z y' Hy') as (x' & Hx' & _ & E & _). apply (H9 z x' Hx'). rewrite <- E. done.
Qed.

Lemma queued_ready v q W D act s x : rep v q W D act -> s ∈ q -> strands v !! s = Some x -> s_state x = USTRAND_READY.
Proof. intros Hr Hs Hx. destruct (rp_qs _ _ _ _ _ Hr s Hs) as (x' & Hx' & ? & _). congruence. Qed.

Lemma dead_state v q W D act s x : rep v q W D act -> s ∈ D -> strands v !! s = Some x -> s_state x = USTRAND_DEAD.
Proof. intros Hr Hs Hx. destruct (rp_ds _ _ _ _ _ Hr s Hs) as (x' & Hx' & ?). congruence. Qed.

Lemma waiting_state v q W D act s x w : rep v q W D act -> s ∈ W w -> strands v !! s = Some x -> s_state x = USTRAND_PARKED /\ s_waiting_on x = Some w.
Proof. intros Hr Hs Hx. destruct (waiter_here v q W D act w s Hr Hs) as (x' & Hx' & ? & ?). split; congruence. Qed.

(** A strand is off the lists when it is running, or parked on nothing. *)
Lemma off_of_state v q W D act s x : rep v q W D act -> strands v !! s = Some x -> s ∉ q -> s_state x <> USTRAND_DEAD ->
  (s_state x = USTRAND_PARKED -> s_waiting_on x = None) -> off_lists q W D s.
Proof.
  intros Hr Hx Hq Hd Hp. split_and!; [done| |].
  - intros w Hs. destruct (waiting_state v q W D act s x w Hr Hs Hx) as [E1 E2]. rewrite Hp in E2 by done. done.
  - intros Hs. apply Hd. by eapply dead_state.
Qed.

Lemma core_lookup v s x : strands v !! s = Some x -> core v s = Some (with_link None x).
Proof. unfold core. by intros ->. Qed.

Lemma wait_push_none s W w : wait_push None s W w = W w.
Proof. unfold wait_push. by rewrite decide_False. Qed.

(** Parking on nothing a strand that is off the lists. *)
Lemma gate_park v q W D act s x : rep v q W D act -> strands v !! s = Some x -> off_lists q W D s ->
  exists v', snd <$> usched_park s None 0 v = Some v' /\ rep v' q W D act /\
    core v' s = Some (with_link None (if usched_may_deschedule x then strand_move USTRAND_PARKED None 0 None x else x)) /\
    (forall z, z <> s -> core v' z = core v z) /\ env v' = env v.
Proof.
  intros Hr Hx Hoff. pose proof (park_spec v q W D act s x None 0 Hr Hx Hoff) as Hp.
  destruct (usched_may_deschedule x) eqn:Hm.
  - destruct Hp as (v' & Hp & Hr' & Hx'). exists v'. rewrite Hp. split; [done|]. split_and!.
    + apply (rep_ext _ _ (wait_push None s W)); [|intros w; by rewrite wait_push_none]. eapply rep_act_mono; [exact Hr'|].
      intros a. rewrite elem_drop_act. tauto.
    + rewrite (core_lookup v' s _ Hx'). done.
    + unfold usched_park in Hp. rewrite Hx in Hp. cbn [mbind option_bind] in Hp. rewrite Hm in Hp. cbn [negb] in Hp.
      destruct (poke s _ v) as [v1|] eqn:E; [|done]. injection Hp as <-. by eapply core_poke.
    + unfold usched_park in Hp. rewrite Hx in Hp. cbn [mbind option_bind] in Hp. rewrite Hm in Hp. cbn [negb] in Hp.
      destruct (poke s _ v) as [v1|] eqn:E; [|done]. injection Hp as <-. by eapply poke_env.
  - exists v. rewrite Hp. split; [done|]. split_and!; try done. by apply core_lookup.
Qed.

(** ** Gates, strand by strand *)

Definition live_under (t : nat) (x : UStrand) : bool := negb (bool_decide (s_state x = USTRAND_DEAD)) && utag_covers x t.

(** What taking a gate does to a strand. *)
Definition gated (t : nat) (bit : Z) (cur : option nat) (s : nat) (x : UStrand) : UStrand :=
  if live_under t x then
    let y := with_gates (Z.lor (s_gates x) bit) x in
    if (bool_decide (s_state x = USTRAND_READY) || bool_decide (cur = Some s)) && usched_may_deschedule x
    then strand_move USTRAND_PARKED None 0 None y else y
  else x.

Lemma unqueue_keep v q W D act s : rep v q W D act ->
  exists v' act', usched_unqueue s v = Some v' /\ rep v' (drop_act s q) W D act' /\ (forall z, core v' z = core v z) /\ env v' = env v.
Proof.
  intros Hr. pose proof (unqueue_spec v q W D act s Hr) as Hu. destruct (decide (s ∈ q)) as [Hs|Hs].
  - destruct Hu as (v' & Hu & Hr' & _). exists v', (s :: act). unfold usched_unqueue in *.
    destruct (unqueue_core _ _ _ _ _ _ Hu). done.
  - exists v, act. by rewrite drop_act_id.
Qed.

Lemma not_live_under t x : negb (live_under t x) = bool_decide (s_state x = USTRAND_DEAD) || negb (utag_covers x t).
Proof. unfold live_under. by rewrite negb_andb, negb_involutive. Qed.

Lemma gate_on_step t bit cur v q W D act s x :
  current v = cur -> rep v q W D act -> strands v !! s = Some x -> (cur = Some s -> s_state x <> USTRAND_PARKED) ->
  exists v' act', gate_one t bit true s v = Some v' /\ env v' = env v /\
    rep v' (if live_under t x then drop_act s q else q) W D act' /\
    core v' s = Some (with_link None (gated t bit cur s x)) /\ (forall z, z <> s -> core v' z = core v z).
Proof.
  intros Hcur Hr Hx Hok. unfold gate_one, gated. rewrite Hx. cbn [mbind option_bind]. rewrite <- not_live_under.
  destruct (live_under t x) eqn:Hl; cbn [negb].
  2:{ exists v, act. split_and!; try done. by apply core_lookup. }
  apply andb_prop in Hl as [Hd _]. apply negb_true_iff, bool_decide_eq_false in Hd.
  rewrite (poke_spec s _ v x Hx). cbn [mbind option_bind]. set (y := with_gates (Z.lor (s_gates x) bit) x). set (v1 := set_strands _ v).
  assert (Hr1 : rep v1 q W D act) by (by eapply rep_inner).
  assert (Hy : strands v1 !! s = Some y) by (unfold v1; cbn; by rewrite lookup_insert_eq).
  assert (Ho1 : forall z, z <> s -> core v1 z = core v z) by (intros z Hz; unfold core, v1; cbn [strands set_strands]; by rewrite lookup_insert_ne).
  assert (Hc1 : current v1 = cur) by done.
  assert (He1 : env v1 = env v) by (eapply poke_env; by apply poke_spec).
  destruct (decide (s_state x = USTRAND_READY)) as [Hrd|Hrd].
  - rewrite bool_decide_eq_true_2 by done. cbn [orb andb].
    destruct (unqueue_keep v1 q W D act s Hr1) as (v2 & act2 & -> & Hr2 & Hk2 & He2). cbn [mbind option_bind].
    destruct (core_same v1 v2 s y (Hk2 s) Hy) as (y2 & Hy2 & E2). unfold unlinked_eq in E2.
    assert (Hst2 : s_state y2 = USTRAND_READY) by (apply (f_equal s_state) in E2; cbn in E2; by rewrite <- E2).
    assert (Hm2 : usched_may_deschedule y2 = usched_may_deschedule x).
    { pose proof (f_equal s_is_spare E2) as E3. pose proof (f_equal s_nboundary E2) as E4. cbn in E3, E4. unfold usched_may_deschedule. by rewrite <- E3, <- E4. }
    assert (Hoff : off_lists (drop_act s q) W D s).
    { eapply off_of_state; [done..| |by rewrite Hst2|by rewrite Hst2]. rewrite elem_drop_act. by intros [? _]. }
    destruct (gate_park v2 _ W D act2 s y2 Hr2 Hy2 Hoff) as (v3 & -> & Hr3 & Hs3 & Ho3 & He3).
    exists v3, act2. split_and!; try done.
    + by rewrite He3, He2.
    + rewrite Hs3, Hm2. f_equal. destruct (usched_may_deschedule x); [|done].
      unfold with_link, strand_move in *. injection E2 as ? ? ? ? ? ? ? ? ? ?. cbn. congruence.
    + intros z Hz. by rewrite Ho3, Hk2, Ho1.
  - rewrite (bool_decide_eq_false_2 (s_state x = USTRAND_READY)) by done. cbn [orb]. rewrite Hc1.
    assert (Hnq : s ∉ q) by (intros Hq; apply Hrd; exact (queued_ready v q W D act s x Hr Hq Hx)). rewrite (drop_act_id s q) by done.
    destruct (decide (cur = Some s)) as [Hc|Hc].
    + rewrite bool_decide_eq_true_2 by done. cbn [andb].
      assert (Hoff : off_lists q W D s) by (eapply off_of_state; [exact Hr1|exact Hy|done|done|intros E; by destruct (Hok Hc)]).
      destruct (gate_park v1 q W D act s y Hr1 Hy Hoff) as (v3 & -> & Hr3 & Hs3 & Ho3 & He3).
      exists v3, act. split_and!; try done.
      * by rewrite He3.
      * intros z Hz. by rewrite Ho3, Ho1.
    + rewrite bool_decide_eq_false_2 by done. cbn [andb]. exists v1, act. split_and!; try done. by apply core_lookup.
Qed.

(** A strand a released gate puts back on the queue: it was held by the gate alone. *)
Definition releasable (v : sched) (s : nat) (x : UStrand) : bool :=
  (utag_strand_gate_bits v x =? 0) && bool_decide (s_state x = USTRAND_PARKED) && bool_decide (s_waiting_on x = None)
  && negb (usched_has_timer (timers_heap v) s).

(** What releasing a gate does to a strand. *)
Definition released (t : nat) (v : sched) (s : nat) (x : UStrand) : UStrand :=
  if live_under t x then
    let y := with_gates (utag_strand_gate_bits v x) x in
    if releasable v s x then strand_move USTRAND_READY None 0 None y else y
  else x.

Lemma gate_bits_flags v v' x : tag_flags v' = tag_flags v -> utag_strand_gate_bits v' x = utag_strand_gate_bits v x.
Proof. intros E. unfold utag_strand_gate_bits, utag_gate_bits, flags_of. by rewrite E. Qed.

Lemma releasable_env v v' s x : tag_flags v' = tag_flags v -> timers_heap v' = timers_heap v -> releasable v' s x = releasable v s x.
Proof. intros E1 E2. unfold releasable. by rewrite (gate_bits_flags v v'), E2. Qed.

(** Enqueuing an ungated strand that is off the lists. *)
Lemma enqueue_off v q W D act s x : rep v q W D act -> strands v !! s = Some x -> off_lists q W D s ->
  s_state x <> USTRAND_DEAD -> s_gates x = 0 ->
  exists v', usched_enqueue s v = Some v' /\ rep v' (q ++ [s]) W D act /\
    core v' s = Some (strand_move USTRAND_READY None 0 None x) /\ (forall z, z <> s -> core v' z = core v z) /\ env v' = env v.
Proof.
  intros Hr Hx Hoff Hd Hg. destruct (enqueue_spec v q W D act s x Hr Hx Hoff Hd) as (v' & He & Hr').
  rewrite Hg in Hr'. cbn [Z.eqb] in Hr'. exists v'. split_and!; [done| | |by eapply enqueue_core|by eapply enqueue_env].
  - eapply rep_act_mono; [exact Hr'|]. intros a. rewrite elem_drop_act. tauto.
  - destruct (enqueue_self s v v' x He Hx Hd) as (y & Hy & Ey); [|exact (off_link v q W D act s x Hr Hoff Hx)|done|].
    + rewrite (rp_tail _ _ _ _ _ Hr). intros [q' Hq']%last_Some. destruct Hoff as [Hq _]. apply Hq. rewrite Hq'. set_solver.
    + unfold core. rewrite Hy. cbn [fmap option_fmap option_map]. by rewrite Ey.
Qed.

Lemma gate_off_step t bit v0 v q W D act s x :
  tag_flags v = tag_flags v0 /\ timers_heap v = timers_heap v0 -> rep v q W D act -> strands v !! s = Some x ->
  exists v' act', gate_one t bit false s v = Some v' /\ env v' = env v /\
    rep v' (if live_under t x && releasable v0 s x then q ++ [s] else q) W D act' /\
    core v' s = Some (with_link None (released t v0 s x)) /\ (forall z, z <> s -> core v' z = core v z).
Proof.
  intros [Hf Ht] Hr Hx. unfold gate_one, released. rewrite Hx. cbn [mbind option_bind]. rewrite <- not_live_under.
  destruct (live_under t x) eqn:Hl; cbn [negb andb].
  2:{ exists v, act. split_and!; try done. by apply core_lookup. }
  apply andb_prop in Hl as [Hd _]. apply negb_true_iff, bool_decide_eq_false in Hd.
  rewrite (poke_spec s _ v x Hx). cbn [mbind option_bind]. rewrite (gate_bits_flags v0 v x Hf).
  set (y := with_gates (utag_strand_gate_bits v0 x) x). set (v1 := set_strands _ v).
  assert (Hr1 : rep v1 q W D act) by (by eapply rep_inner).
  assert (Hy : strands v1 !! s = Some y) by (unfold v1; cbn; by rewrite lookup_insert_eq).
  assert (Ho1 : forall z, z <> s -> core v1 z = core v z) by (intros z Hz; unfold core, v1; cbn [strands set_strands]; by rewrite lookup_insert_ne).
  assert (He1 : env v1 = env v) by (eapply poke_env; by apply poke_spec).
  change (timers_heap v1) with (timers_heap v). rewrite Ht. fold (releasable v0 s x).
  destruct (releasable v0 s x) eqn:Hrel.
  - unfold releasable in Hrel. apply andb_prop in Hrel as [Hrel _]. apply andb_prop in Hrel as [Hrel Hw].
    apply andb_prop in Hrel as [Hg Hp]. apply bool_decide_eq_true in Hw, Hp. apply Z.eqb_eq in Hg.
    destruct (enqueue_off v1 q W D act s y Hr1 Hy) as (v2 & -> & Hr2 & Hs2 & Ho2 & He2); [|done|exact Hg|].
    { eapply off_of_state; [exact Hr1|exact Hy| |done|done]. intros Hq. pose proof (queued_ready v q W D act s x Hr Hq Hx). congruence. }
    exists v2, act. split_and!; try done.
    + by rewrite He2.
    + intros z Hz. by rewrite Ho2, Ho1.
  - exists v1, act. split_and!; try done. by apply core_lookup.
Qed.

(** ** Stop, strand by strand *)

Definition stopped (t : nat) (cur : option nat) (s : nat) (x : UStrand) : UStrand :=
  if live_under t x then
    let y := with_unwind UUNWIND_STOP (VTag t) x in
    if decide (cur = Some s) then y
    else if decide (s_state x = USTRAND_PARKED) then strand_move USTRAND_READY None 0 None (with_gates 0 y)
    else with_gates 0 y
  else x.

(** The strands a stop takes off whatever they were parked on. *)
Definition roused (t : nat) (cur : option nat) (s : nat) (x : UStrand) : bool :=
  live_under t x && bool_decide (cur <> Some s) && bool_decide (s_state x = USTRAND_PARKED).

Lemma stop_step t cur v q W D act s x :
  current v = cur -> rep v q W D act -> strands v !! s = Some x ->
  exists v' act', stop_one t s v = Some v' /\ env' v' = env' v /\
    rep v' (if roused t cur s x then q ++ [s] else q) (if roused t cur s x then drop_all s W else W) D act' /\
    core v' s = Some (with_link None (stopped t cur s x)) /\ (forall z, z <> s -> core v' z = core v z).
Proof.
  intros Hcur Hr Hx. unfold stop_one, stopped, roused. rewrite Hx. cbn [mbind option_bind]. rewrite <- not_live_under.
  destruct (live_under t x) eqn:Hl; cbn [negb andb].
  2:{ exists v, act. split_and!; try done. by apply core_lookup. }
  rewrite (poke_spec s _ v x Hx). cbn [mbind option_bind]. set (y := with_unwind _ _ x). set (v1 := set_strands _ v).
  assert (Hr1 : rep v1 q W D act) by (by eapply rep_inner).
  assert (Hy : strands v1 !! s = Some y) by (unfold v1; cbn; by rewrite lookup_insert_eq).
  assert (Ho1 : forall z, z <> s -> core v1 z = core v z) by (intros z Hz; unfold core, v1; cbn [strands set_strands]; by rewrite lookup_insert_ne).
  assert (He1 : env v1 = env v) by (eapply poke_env; by apply poke_spec).
  change (current v1) with (current v). rewrite Hcur. destruct (decide (cur = Some s)) as [Hc|Hc].
  { rewrite bool_decide_eq_false_2 by tauto. cbn [andb]. exists v1, act. split_and!; try done; [by apply env_env'|by apply core_lookup]. }
  rewrite bool_decide_eq_true_2 by done. cbn [andb]. rewrite (poke_spec s _ v1 y Hy). cbn [mbind option_bind].
  set (y2 := with_gates 0 y). set (v2 := set_strands _ v1).
  assert (Hr2 : rep v2 q W D act) by (by eapply (rep_inner v1)).
  assert (Hy2 : strands v2 !! s = Some y2) by (unfold v2; cbn; by rewrite lookup_insert_eq).
  assert (Ho2 : forall z, z <> s -> core v2 z = core v z) by (intros z Hz; rewrite <- Ho1 by done; unfold core, v2; cbn [strands set_strands]; by rewrite lookup_insert_ne).
  assert (He2 : env' v2 = env' v) by (rewrite <- (env_env' _ _ He1); apply env_env'; eapply poke_env; by apply poke_spec).
  destruct (decide (s_state x = USTRAND_PARKED)) as [Hp|Hp].
  - rewrite bool_decide_eq_true_2 by done. destruct (wake_spec v2 q W D act s y2 VNil Hr2 Hy2 Hp) as (v3 & Hw & _ & Hr3 & Hs3).
    destruct (wake_frame s VNil v2 v3 Hw) as [Ho3 He3]. exists v3, act. split_and!; try done.
    + by rewrite He3.
    + eapply rep_act_mono; [exact Hr3|]. intros a. rewrite elem_drop_act. tauto.
    + intros z Hz. by rewrite Ho3, Ho2.
  - rewrite bool_decide_eq_false_2 by done. exists v2, act. split_and!; try done. by apply core_lookup.
Qed.

(** ** What a whole pass does to the lists *)

Definition hits (v : sched) (h : nat -> UStrand -> bool) (s : nat) : bool :=
  match strands v !! s with Some x => h s x | None => false end.

(** [q] without the strands of [l] that are hit. *)
Definition without (v : sched) (h : nat -> UStrand -> bool) (l q : list nat) : list nat :=
  filter (fun z => ~ (z ∈ l /\ hits v h z = true)) q.

Lemma pass_drop v (h : nat -> UStrand -> bool) l : forall q,
  fold_left (fun (q : list nat) s => at_strand v (fun x (q : list nat) => if h s x then drop_act s q else q) s q) l q = without v h l q.
Proof.
  induction l as [|s l IH]; intros q; cbn [fold_left].
  - unfold without. induction q as [|x q IH]; [done|]. rewrite filter_cons, <- IH. rewrite decide_True; [done|].
    intros [H _]. by apply elem_of_nil in H.
  - rewrite IH. unfold without, at_strand, hits. destruct (strands v !! s) as [x|] eqn:Hx; [destruct (h s x) eqn:Hh|].
    + unfold drop_act. rewrite list_filter_filter. apply list_filter_ext. intros z _. rewrite elem_of_cons. split.
      * intros [H1 H2] [[->|H3] H4]; [done|]. by apply H1.
      * intros H1. split; [intros [H3 H4]; apply H1; tauto|]. intros ->. apply H1. rewrite Hx. tauto.
    + apply list_filter_ext. intros z _. rewrite elem_of_cons. split; [|tauto]. intros H1 [[->|H3] H4]; [rewrite Hx in H4; congruence|tauto].
    + apply list_filter_ext. intros z _. rewrite elem_of_cons. split; [|tauto]. intros H1 [[->|H3] H4]; [rewrite Hx in H4; congruence|tauto].
Qed.

Lemma pass_snoc v (h : nat -> UStrand -> bool) l : forall q,
  fold_left (fun (q : list nat) s => at_strand v (fun x (q : list nat) => if h s x then q ++ [s] else q) s q) l q = q ++ filter (fun s => hits v h s = true) l.
Proof.
  induction l as [|s l IH]; intros q; cbn [fold_left]; [by rewrite filter_nil, app_nil_r|].
  assert (E : at_strand v (fun x (q : list nat) => if h s x then q ++ [s] else q) s q = if hits v h s then q ++ [s] else q).
  { unfold at_strand, hits. by destruct (strands v !! s). }
  rewrite IH, filter_cons, E. destruct (hits v h s); [|by rewrite decide_False].
  rewrite decide_True by done. by rewrite <- app_assoc.
Qed.

Lemma pass_drop_all v (h : nat -> UStrand -> bool) l : forall W w,
  fold_left (fun (W : waitlist -> list nat) s => at_strand v (fun x (W : waitlist -> list nat) => if h s x then drop_all s W else W) s W) l W w = without v h l (W w).
Proof.
  intros W w. rewrite <- pass_drop. revert W. induction l as [|s l IH]; intros W; cbn [fold_left]; [done|]. rewrite IH.
  f_equal. unfold at_strand. destruct (strands v !! s) as [x|]; [|done]. by destruct (h s x).
Qed.

Lemma pass_const v (l : list nat) (W : waitlist -> list nat) :
  fold_left (fun (W : waitlist -> list nat) s => at_strand v (fun _ (W : waitlist -> list nat) => W) s W) l W = W.
Proof. induction l as [|s l IH]; cbn [fold_left]; [done|]. unfold at_strand at 2. by destruct (strands v !! s). Qed.

Lemma rep_flags v q W D act m : rep v q W D act -> rep (set_flags m v) q W D act.
Proof. intros Hr. by destruct Hr. Qed.

Lemma unlinked_fields x y : unlinked_eq x y -> s_state x = s_state y /\ s_gates x = s_gates y /\ s_waiting_on x = s_waiting_on y /\
  s_tag x = s_tag y /\ s_cleanup x = s_cleanup y /\ usched_may_deschedule x = usched_may_deschedule y.
Proof. intros E. unfold unlinked_eq, with_link, strand_move in E. injection E as ? ? ? ? ? ? ? ? ? ?. unfold usched_may_deschedule. split_and!; congruence. Qed.

Lemma live_under_link t x y : unlinked_eq x y -> live_under t x = live_under t y.
Proof. intros (E1 & _ & _ & E2 & E3 & _)%unlinked_fields. unfold live_under, utag_covers. by rewrite E1, E2, E3. Qed.

Lemma strand_bits_link v x y : unlinked_eq x y -> utag_strand_gate_bits v x = utag_strand_gate_bits v y.
Proof. intros (_ & _ & _ & E2 & E3 & _)%unlinked_fields. unfold utag_strand_gate_bits. by rewrite E2, E3. Qed.

Lemma releasable_link v s x y : unlinked_eq x y -> releasable v s x = releasable v s y.
Proof. intros E. unfold releasable. rewrite (strand_bits_link v x y E). apply unlinked_fields in E as (-> & _ & -> & _). done. Qed.

Lemma with_gates_link g x y : unlinked_eq x y -> unlinked_eq (with_gates g x) (with_gates g y).
Proof. unfold unlinked_eq, with_link, strand_move, with_gates. cbn. intros [=]. f_equal; congruence. Qed.
Lemma with_unwind_link u p x y : unlinked_eq x y -> unlinked_eq (with_unwind u p x) (with_unwind u p y).
Proof. unfold unlinked_eq, with_link, strand_move, with_unwind. cbn. intros [=]. f_equal; congruence. Qed.
Lemma strand_move_link st w k l x y : unlinked_eq x y -> unlinked_eq (strand_move st w k l x) (strand_move st w k l y).
Proof. unfold unlinked_eq, with_link, strand_move. cbn. intros [=]. f_equal; congruence. Qed.

Lemma gated_link t bit cur s x y : unlinked_eq x y -> unlinked_eq (gated t bit cur s x) (gated t bit cur s y).
Proof.
  intros E. unfold gated. rewrite (live_under_link t x y E). pose proof (unlinked_fields x y E) as (-> & -> & _ & _ & _ & ->).
  destruct (live_under t y); [|done]. destruct (_ && _); [apply strand_move_link|]; by apply with_gates_link.
Qed.
Lemma released_link t v s x y : unlinked_eq x y -> unlinked_eq (released t v s x) (released t v s y).
Proof.
  intros E. unfold released. rewrite (live_under_link t x y E), (releasable_link v s x y E), (strand_bits_link v x y E).
  destruct (live_under t y); [|done]. destruct (releasable v s y); [apply strand_move_link|]; by apply with_gates_link.
Qed.
Lemma stopped_link t cur s x y : unlinked_eq x y -> unlinked_eq (stopped t cur s x) (stopped t cur s y).
Proof.
  intros E. unfold stopped. rewrite (live_under_link t x y E). pose proof (unlinked_fields x y E) as (-> & _).
  destruct (live_under t y); [|done]. destruct (decide _); [by apply with_unwind_link|].
  destruct (decide _); [apply strand_move_link|]; apply with_gates_link; by apply with_unwind_link.
Qed.

(** ** Gates and stop over the whole VM: the lemmas *)

(** The strands the realms list exist. *)
Definition listed (v : sched) : Prop :=
  NoDup (realm_strands v) /\ forall s, s ∈ realm_strands v -> is_Some (strands v !! s).

(** The strand being dispatched is not parked. *)
Definition current_awake (v : sched) : Prop :=
  forall s x, current v = Some s -> strands v !! s = Some x -> s_state x <> USTRAND_PARKED.

Definition under (t : nat) (s : nat) (x : UStrand) : bool := live_under t x.
Definition frees (t : nat) (v : sched) (s : nat) (x : UStrand) : bool := live_under t x && releasable v s x.

(** Every listed strand became [g] of itself and no other changed. *)
Definition updated (v v' : sched) (g : nat -> UStrand -> UStrand) : Prop :=
  (forall s x, s ∈ realm_strands v -> strands v !! s = Some x -> core v' s = Some (with_link None (g s x))) /\
  (forall s, s ∉ realm_strands v -> core v' s = core v s).

Lemma gate_on_spec t bit v q W D act :
  rep v q W D act -> listed v -> current_awake v ->
  exists v' act', utag_gate t bit true v = Some v' /\
    rep v' (without v (under t) (realm_strands v) q) W D act' /\
    env v' = env (set_flags (<[t := Z.lor (flags_of v t) bit]> (tag_flags v)) v) /\
    updated v v' (gated t bit (current v)).
Proof.
  intros Hr [Hnd Hls] Hcur. unfold utag_gate. set (v0 := set_flags _ v).
  pose proof (rep_flags v q W D act (<[t := Z.lor (flags_of v t) bit]> (tag_flags v)) Hr) as Hr0. fold v0 in Hr0.
  destruct (pass_spec (gate_one t bit true) (fun v => env v = env v0) (fun s x => current v = Some s -> s_state x <> USTRAND_PARKED)
    (gated t bit (current v)) (fun s x q => if under t s x then drop_act s q else q) (fun _ _ W => W)) with
    (l := realm_strands v) (v := v0) (q := q) (W := W) (D := D) (act := act) as (v' & act' & Hp & HP & Hr' & Hu & Ho); try done.
  - intros s x y E H Hc. apply unlinked_fields in E as (<- & _). auto.
  - intros s x y. apply gated_link.
  - intros s x y q' E. unfold under. by rewrite (live_under_link t x y E).
  - intros v1 q1 W1 D1 act1 s x HP Hr1 Hx Hok. assert (Hc1 : current v1 = current v) by (unfold env in HP; by injection HP).
    destruct (gate_on_step t bit (current v) v1 q1 W1 D1 act1 s x Hc1 Hr1 Hx Hok) as (v2 & act2 & ? & ? & ? & ? & ?).
    exists v2, act2. split_and!; try done. congruence.
  - intros s Hs. destruct (Hls s Hs) as [x Hx]. exists x. split; [done|]. intros Hc. by eapply Hcur.
  - exists v', act'. split_and!; try done. unfold pass_q, pass_w in Hr'. rewrite pass_drop, pass_const in Hr'. done.
Qed.

Lemma gate_off_spec t bit v q W D act :
  rep v q W D act -> listed v ->
  let v0 := set_flags (<[t := Z.ldiff (flags_of v t) bit]> (tag_flags v)) v in
  exists v' act', utag_gate t bit false v = Some v' /\
    rep v' (q ++ filter (fun s => hits v (frees t v0) s = true) (realm_strands v)) W D act' /\
    env v' = env v0 /\ updated v v' (released t v0).
Proof.
  intros Hr [Hnd Hls] v0. unfold utag_gate. fold v0. assert (Hr0 : rep v0 q W D act) by by apply rep_flags.
  destruct (pass_spec (gate_one t bit false) (fun v => env v = env v0) (fun s x => True)
    (released t v0) (fun s x q => if frees t v0 s x then q ++ [s] else q) (fun _ _ W => W)) with
    (l := realm_strands v) (v := v0) (q := q) (W := W) (D := D) (act := act) as (v' & act' & Hp & HP & Hr' & Hu & Ho); try done.
  - intros s x y. apply released_link.
  - intros s x y q' E. unfold frees. by rewrite (live_under_link t x y E), (releasable_link v0 s x y E).
  - intros v1 q1 W1 D1 act1 s x HP Hr1 Hx _. assert (Hc1 : tag_flags v1 = tag_flags v0 /\ timers_heap v1 = timers_heap v0) by (unfold env in HP; by injection HP).
    destruct (gate_off_step t bit v0 v1 q1 W1 D1 act1 s x Hc1 Hr1 Hx) as (v2 & act2 & ? & ? & ? & ? & ?).
    exists v2, act2. split_and!; try done. congruence.
  - intros s Hs. destruct (Hls s Hs) as [x Hx]. by exists x.
  - exists v', act'. split_and!; try done. unfold pass_q, pass_w in Hr'. rewrite pass_snoc, pass_const in Hr'. done.
Qed.

Lemma stop_loop_pass t : forall l hit v, stop_loop t l hit v =
  v' ← each_strand (stop_one t) l v; Some (fst (default (hit, v) (stop_loop t l hit v)), v').
Proof.
  induction l as [|s l IH]; intros hit v; [done|]. cbn [stop_loop each_strand]. destruct (stop_one t s v) as [v1|]; [|done].
  cbn [mbind option_bind]. rewrite IH. destruct (each_strand (stop_one t) l v1); done.
Qed.

Lemma stop_pass_spec t v q W D act :
  rep v q W D act -> listed v ->
  exists v' act', each_strand (stop_one t) (realm_strands v) v = Some v' /\
    rep v' (q ++ filter (fun s => hits v (roused t (current v)) s = true) (realm_strands v))
      (fun w => without v (roused t (current v)) (realm_strands v) (W w)) D act' /\
    env' v' = env' v /\ updated v v' (stopped t (current v)).
Proof.
  intros Hr [Hnd Hls].
  destruct (pass_spec (stop_one t) (fun v1 => env' v1 = env' v) (fun s x => True) (stopped t (current v))
    (fun s x q => if roused t (current v) s x then q ++ [s] else q) (fun s x W => if roused t (current v) s x then drop_all s W else W)) with
    (l := realm_strands v) (v := v) (q := q) (W := W) (D := D) (act := act) as (v' & act' & Hp & HP & Hr' & Hu & Ho); try done.
  - intros s x y. apply stopped_link.
  - intros s x y q' E. unfold roused. rewrite (live_under_link t x y E). by apply unlinked_fields in E as (-> & _).
  - intros s x y q' E. unfold roused. rewrite (live_under_link t x y E). by apply unlinked_fields in E as (-> & _).
  - intros v1 q1 W1 D1 act1 s x HP Hr1 Hx _. assert (Hc1 : current v1 = current v) by (unfold env' in HP; by injection HP).
    destruct (stop_step t (current v) v1 q1 W1 D1 act1 s x Hc1 Hr1 Hx) as (v2 & act2 & ? & ? & ? & ? & ?).
    exists v2, act2. split_and!; try done. congruence.
  - intros s Hs. destruct (Hls s Hs) as [x Hx]. by exists x.
  - exists v', act'. split_and!; try done. unfold pass_q, pass_w in Hr'. rewrite pass_snoc in Hr'.
    eapply rep_ext; [exact Hr'|]. intros w. symmetry. apply pass_drop_all.
Qed.

Lemma stop_hit t : forall l v q W D act hit, NoDup l -> rep v q W D act -> (forall s, s ∈ l -> is_Some (strands v !! s)) ->
  exists v', stop_loop t l hit v = Some (if existsb (hit_one t v) l then 1 else hit, v').
Proof.
  induction l as [|s l IH]; intros v q W D act hit Hnd Hr Hls; cbn [stop_loop existsb]; [by exists v|].
  apply NoDup_cons in Hnd as [Hn Hnd]. destruct (Hls s) as [x Hx]; [left|].
  destruct (stop_step t (current v) v q W D act s x eq_refl Hr Hx) as (v1 & act1 & -> & He & Hr1 & _ & Ho). cbn [mbind option_bind].
  assert (Hh : forall z, z ∈ l -> hit_one t v1 z = hit_one t v z).
  { intros z Hz. assert (Hzs : z <> s) by congruence. destruct (Hls z) as [y Hy]; [by right|].
    destruct (core_same v v1 z y (Ho z Hzs) Hy) as (y1 & Hy1 & E). unfold hit_one. rewrite Hy, Hy1.
    assert (Ec : current v1 = current v) by (unfold env' in He; by injection He). rewrite Ec.
    pose proof (live_under_link t y y1 E) as El. unfold live_under in El. by rewrite El. }
  destruct (IH v1 _ _ D act1 (if hit_one t v s then 1 else hit) Hnd Hr1) as [v' Hv'].
  { intros z Hz. assert (Hzs : z <> s) by congruence. destruct (Hls z) as [y Hy]; [by right|].
    destruct (core_same v v1 z y (Ho z Hzs) Hy) as (y1 & Hy1 & E). by rewrite Hy1. }
  exists v'. rewrite Hv'. f_equal. f_equal.
  assert (He2 : existsb (hit_one t v1) l = existsb (hit_one t v) l).
  { clear -Hh. induction l as [|z l IH]; [done|]. cbn [existsb]. rewrite Hh by left. f_equal. apply IH. intros y Hy. apply Hh. by right. }
  rewrite He2. by destruct (hit_one t v s), (existsb (hit_one t v) l).
Qed.

(** Sweeping drops exactly the watchers nothing holds, and wakes whoever
    still waited on one. *)
Lemma sweep_spec : forall l ev v q W D act, rep v q W D act ->
  exists ev' v' q2 W2, sweep_loop l ev v = Some (filter (fun w => w_kept w = true) l, ev', v') /\
    rep v' (q ++ q2) W2 D act /\ env' v' = env' v /\
    (forall w, w ∈ l -> w_kept w = false -> W2 (WWatcher (w_id w)) = []) /\
    (forall k, (forall w, w ∈ l -> k <> WWatcher (w_id w)) -> W2 k = W k) /\
    (forall k, W2 k = W k \/ W2 k = []) /\
    (forall z, (forall k, z ∉ W (WWatcher k)) -> core v' z = core v z) /\ timers_heap v' ⊆ timers_heap v.
Proof.
  induction l as [|w l IH]; intros ev v q W D act Hr.
  { exists ev, v, [], W. rewrite app_nil_r. split_and!; try done; [by intros w ?%elem_of_nil|by left]. }
  cbn [sweep_loop]. rewrite filter_cons. destruct (w_kept w) eqn:Hk.
  - destruct (IH ev v q W D act Hr) as (ev' & v' & q2 & W2 & -> & Hr' & He & Hs & Hf & Hor & Hc & Htm). cbn [mbind option_bind].
    rewrite decide_True by done. exists ev', v', q2, W2. split_and!; try done.
    + intros u [->|Hu]%elem_of_cons Hk2; [congruence|]. auto.
    + intros k Hkk. apply Hf. intros u Hu. apply Hkk. by right.
  - rewrite decide_False by done. pose proof (wait_length _ _ _ _ _ (WWatcher (w_id w)) Hr) as Hl.
    destruct (wake_list_spec (WWatcher (w_id w)) VNil (S (size (strands v))) _ v q W D act Hr eq_refl ltac:(lia)) as (v1 & -> & [Hr1 _ Ho1 He1 Htm1]).
    cbn [mbind option_bind].
    destruct (IH (uwatch_unlink_from_event w ev) v1 _ _ D act Hr1) as (ev' & v' & q2 & W2 & -> & Hr' & He & Hs & Hf & Hor & Hc & Htm).
    rewrite <- app_assoc in Hr'. eexists ev', v', _, W2. split; [done|]. split; [exact Hr'|]. split_and!.
    + by rewrite He.
    + intros u [->|Hu]%elem_of_cons Hk2; [|auto]. destruct (Hor (WWatcher (w_id w))) as [-> | ->]; [|done].
      unfold set_wait. by rewrite decide_True.
    + intros k Hkk. rewrite Hf by (intros u Hu; apply Hkk; by right). unfold set_wait. rewrite decide_False; [done|]. apply Hkk. left.
    + intros k. destruct (Hor k) as [-> | ->]; [|by right]. unfold set_wait. case_decide; [by right|by left].
    + intros z Hz. rewrite Hc.
      * apply Ho1. apply Hz.
      * intros k. unfold set_wait. case_decide; [by intros ?%elem_of_nil|apply Hz].
    + by etransitivity.
Qed.

(** What stopping [t] leaves of a strand its scope covers. *)
Definition stop_marked (t : nat) (v v' : sched) (q' : list nat) (s : nat) : Prop :=
  exists x y, strands v !! s = Some x /\ strands v' !! s = Some y /\ s_unwind y = UUNWIND_STOP /\ s_transfer y = VTag t /\
    (current v <> Some s -> s_gates y = 0 /\ s_state y <> USTRAND_PARKED /\ (s_state x = USTRAND_PARKED -> s ∈ q')).

Lemma updated_marked t v v1 v' q' s x :
  updated v v1 (stopped t (current v)) -> s ∈ realm_strands v -> strands v !! s = Some x -> live_under t x = true ->
  core v' s = core v1 s -> (hits v (roused t (current v)) s = true -> s ∈ q') -> stop_marked t v v' q' s.
Proof.
  intros [Hu _] Hs Hx Hl Hc Hq. rewrite (Hu s x Hs Hx) in Hc. unfold core in Hc. apply fmap_Some in Hc as (y & Hy & E).
  exists x, y. unfold stopped in E. rewrite Hl in E. unfold hits in Hq. rewrite Hx in Hq. unfold roused in Hq. rewrite Hl in Hq.
  pose proof (f_equal s_unwind E) as Eu. pose proof (f_equal s_transfer E) as Et. pose proof (f_equal s_gates E) as Eg.
  pose proof (f_equal s_state E) as Es. cbn [with_link strand_move s_unwind s_transfer s_gates s_state] in Eu, Et, Eg, Es.
  rewrite <- Eu, <- Et. destruct (decide (current v = Some s)) as [Hcur|Hcur]; [by split_and!|].
  rewrite bool_decide_eq_true_2 in Hq by done. rewrite <- Eg, <- Es.
  destruct (decide (s_state x = USTRAND_PARKED)) as [Hp|Hp]; [rewrite bool_decide_eq_true_2 in Hq by done|]; split_and!; try done.
  all: intros _; split_and!; [done..|]; auto.
Qed.

(** A covered strand is on no wait list once the pass is over. *)
Lemma covered_roused t v q W D act s x : rep v q W D act -> current_awake v -> s ∈ realm_strands v ->
  strands v !! s = Some x -> live_under t x = true ->
  forall k, s ∉ without v (roused t (current v)) (realm_strands v) (W k).
Proof.
  intros Hr Hcur Hs Hx Hl k Hk. unfold without in Hk. apply list_elem_of_filter in Hk as [Hn Hk]. apply Hn. split; [done|].
  destruct (waiting_state v q W D act s x k Hr Hk Hx) as [Hp _]. unfold hits, roused. rewrite Hx, Hl, (bool_decide_eq_true_2 (s_state x = _)) by done.
  rewrite bool_decide_eq_true_2; [done|]. intros Hc. by apply (Hcur s x).
Qed.

Lemma updated_unmarked t v v1 s x : updated v v1 (stopped t (current v)) -> strands v !! s = Some x -> live_under t x = false ->
  core v1 s = core v s.
Proof.
  intros [Hu Ho] Hx Hl. destruct (decide (s ∈ realm_strands v)) as [Hs|Hs]; [|by apply Ho].
  rewrite (Hu s x Hs Hx). unfold stopped. rewrite Hl. symmetry. by apply core_lookup.
Qed.

Lemma cancelled_dropped t m : forall w, w ∈ (fun w => if decide (w_tag w = Some t) then cancel_watcher w else w) <$> all m ->
  w_tag w = Some t -> w_armed w = false /\ w_kept w = false.
Proof. intros w (w0 & -> & Hw0)%list_elem_of_fmap. destruct (decide (w_tag w0 = Some t)); [done|]. by intros ?. Qed.

(** Sweeping from any state: the queue grows, strands waiting on no watcher are left alone. *)
Lemma uwatch_sweep_spec m q W D act : rep (sc m) q W D act ->
  exists m' q2 W', uwatch_sweep m = Some m' /\ rep (sc m') (q ++ q2) W' D act /\
    all m' = (if draining m then all m else filter (fun w => w_kept w = true) (all m)) /\
    (forall z, (forall k, z ∉ W (WWatcher k)) -> core (sc m') z = core (sc m) z) /\ env' (sc m') = env' (sc m) /\
    timers_heap (sc m') ⊆ timers_heap (sc m).
Proof.
  intros Hr. unfold uwatch_sweep. destruct (draining m).
  - exists m, [], W. rewrite app_nil_r. done.
  - destruct (sweep_spec (all m) (on_event m) (sc m) q W D act Hr) as (ev' & v' & q2 & W2 & -> & Hr' & He & _ & _ & _ & Hc & Htm).
    exists (MkVM v' (filter (fun w => w_kept w = true) (all m)) ev' false), q2, W2. done.
Qed.

Lemma stop_spec t m q W D act :
  rep (sc m) q W D act -> listed (sc m) -> current_awake (sc m) ->
  exists m' q2 W' act', utag_stop t m = Some (if existsb (hit_one t (sc m)) (realm_strands (sc m)) then 1 else 0, m') /\
    rep (sc m') (q ++ q2) W' D act' /\
    (forall s x, s ∈ realm_strands (sc m) -> strands (sc m) !! s = Some x -> live_under t x = true -> stop_marked t (sc m) (sc m') (q ++ q2) s) /\
    (forall s x, strands (sc m) !! s = Some x -> live_under t x = false -> (forall k, s ∉ W (WWatcher k)) -> core (sc m') s = core (sc m) s) /\
    (forall p, p ∈ timers_heap (sc m') -> ~ (period_us p <> 0 /\ t_tag p = Some t)) /\
    (forall w, w ∈ all m' -> w_tag w = Some t -> w_armed w = false /\ draining m = true).
Proof.
  intros Hr Hls Hcur. destruct (stop_pass_spec t (sc m) q W D act Hr Hls) as (v1 & act1 & Hp & Hr1 & He1 & Hu).
  destruct (stop_hit t (realm_strands (sc m)) (sc m) q W D act 0 (proj1 Hls) Hr (proj2 Hls)) as [v1' Hh].
  assert (v1' = v1) as -> by (rewrite stop_loop_pass, Hp in Hh; cbn in Hh; congruence).
  destruct (drop_spec (fun p => ~ (period_us p <> 0 /\ t_tag p = Some t)) (timers_heap v1) (rp_heap _ _ _ _ _ Hr1)) as (h & Hd & Hhp & Hperm).
  pose proof (rep_timers _ _ _ _ _ h Hr1 Hhp) as Hr2.
  set (m2 := MkVM (set_timers h v1) ((fun w => if decide (w_tag w = Some t) then cancel_watcher w else w) <$> all m) (on_event m) (draining m)).
  destruct (uwatch_sweep_spec m2 _ _ D act1 Hr2) as (m' & q2 & W' & Hsw & Hr' & Hall & Hc & He & Htm).
  exists m', (filter (fun s => hits (sc m) (roused t (current (sc m))) s = true) (realm_strands (sc m)) ++ q2), W', act1. split_and!.
  - unfold utag_stop. rewrite Hh. cbn [mbind option_bind]. unfold usched_timers_drop_tag. rewrite Hd. cbn [mbind option_bind].
    unfold uwatch_tag_stopped. cbn [sc all on_event draining set_sc]. fold m2. by rewrite Hsw.
  - by rewrite app_assoc.
  - intros s x Hs Hx Hl. eapply updated_marked; [exact Hu|done..| |].
    + apply (Hc s). intros k. by eapply covered_roused.
    + intros Hhit. rewrite !elem_of_app. right. left. by apply list_elem_of_filter.
  - intros s x Hx Hl Hk. rewrite Hc.
    + exact (updated_unmarked t _ v1 s x Hu Hx Hl).
    + intros k. unfold without. rewrite list_elem_of_filter. intros [_ ?]. by apply (Hk k).
  - intros p Hpin. apply Htm in Hpin. cbn [sc m2 timers_heap set_timers] in Hpin. rewrite Hperm in Hpin.
    by apply list_elem_of_filter in Hpin as [? _].
  - intros w Hw Ht. rewrite Hall in Hw. cbn [draining m2 all] in Hw. destruct (draining m).
    + split; [by apply (cancelled_dropped t m)|done].
    + apply list_elem_of_filter in Hw as [Hk Hw]. destruct (cancelled_dropped t m w Hw Ht). congruence.
Qed.

(** ** Death and reaping: the lemmas *)

Lemma rep_push_dead v q W D act s y : rep v q W D act -> strands v !! s = Some y -> s_state y = USTRAND_DEAD -> off_lists q W D s ->
  rep (set_dead (Some s) (set_strands (<[s := with_link (dead v) y]> (strands v)) v)) q W (s :: D) act.
Proof.
  intros Hr Hy Hst (Hq & Hw & Hd). set (v' := set_dead _ _).
  assert (Hf : forall h l, s ∉ l -> chain (lk v) h l -> chain (lk v') h l).
  { intros h l Hs. apply chain_ext. intros z Hz. unfold v'. change (lk (set_strands (<[s := with_link (dead v) y]> (strands v)) v) z = lk v z).
    rewrite lk_insert, decide_False by set_solver. done. }
  assert (Hls : strands v' = <[s := with_link (dead v) y]> (strands v)) by done.
  destruct Hr as [H1 H2 H3 H4 H5 H6 H7 H8 H9 H10]. split; try done.
  - by apply Hf.
  - intros w. by apply Hf.
  - split; [done|]. change (lk v' s) with (lk (set_strands (<[s := with_link (dead v) y]> (strands v)) v) s).
    rewrite lk_insert, decide_True by done. by apply Hf.
  - intros z Hz. rewrite Hls, lookup_insert_ne by set_solver. auto.
  - intros z w. rewrite Hls. destruct (decide (z = s)) as [->|]; [|by rewrite lookup_insert_ne].
    rewrite lookup_insert_eq. split; [by intros ?%Hw|]. intros (x & [= <-] & E & _). cbn in E. congruence.
  - intros z [->|Hz]%elem_of_cons; rewrite Hls; [rewrite lookup_insert_eq; by eexists|]. rewrite lookup_insert_ne by set_solver. auto.
  - intros z x. rewrite Hls. destruct (decide (z = s)) as [->|]; [intros _ _; right; right; left|].
    rewrite lookup_insert_ne by done. intros Hz Hl. destruct (H8 z x Hz Hl) as [?|[?|?]]; [by left|by right; left|]. right. right. by right.
  - intros z x. rewrite Hls. destruct (decide (z = s)) as [->|]; [|rewrite lookup_insert_ne by done; apply H9].
    rewrite lookup_insert_eq. intros [= <-]. cbn. rewrite Hst. by intros [|].
Qed.

Lemma death_spec v q W D act s x : rep v q W D act -> strands v !! s = Some x -> off_lists q W D s ->
  exists v', on_death_lists s v = Some v' /\
    rep v' (q ++ filter (fun j => gate_free v j) (W (WJoiners s))) (set_wait (WJoiners s) [] W) (s :: D) act /\
    (exists y, strands v' !! s = Some y /\ s_state y = USTRAND_DEAD) /\
    (forall z, z <> s -> z ∉ W (WJoiners s) -> core v' z = core v z).
Proof.
  intros Hr Hx Hoff. unfold on_death_lists. rewrite (poke_spec s _ v x Hx). cbn [mbind option_bind]. set (y := strand_move _ _ _ _ x). set (v1 := set_strands _ v).
  assert (Hl : s_link x = None) by exact (off_link v q W D act s x Hr Hoff Hx).
  assert (Hr1 : rep v1 q W D act) by (eapply rep_off; [exact Hr|done|done|exact Hl|done|by intros [|]|done]).
  assert (Hy : strands v1 !! s = Some y) by (unfold v1; cbn; by rewrite lookup_insert_eq).
  pose proof (wait_length _ _ _ _ _ (WJoiners s) Hr1) as Hlen.
  destruct (wake_list_spec (WJoiners s) VNil (S (size (strands v1))) _ v1 q W D act Hr1 eq_refl ltac:(lia)) as (v2 & -> & [Hr2 _ Ho2 _ _]).
  cbn [mbind option_bind]. destruct Hoff as (Hq & Hw & Hd).
  destruct (core_same v1 v2 s y (Ho2 s (Hw _)) Hy) as (y2 & Hy2 & E2). apply unlinked_fields in E2 as (Es & _).
  rewrite (poke_spec s _ v2 y2 Hy2). cbn [mbind option_bind]. eexists. split; [done|].
  assert (Hgf : filter (fun j => gate_free v1 j) (W (WJoiners s)) = filter (fun j => gate_free v j) (W (WJoiners s))).
  { apply list_filter_ext. intros z Hz. assert (z <> s) by (intros ->; by apply (Hw (WJoiners s))).
    unfold gate_free, v1. cbn [strands set_strands]. by rewrite lookup_insert_ne. }
  split_and!.
  - rewrite Hgf in Hr2. cbn [dead]. apply rep_push_dead; [exact Hr2|done|by rewrite <- Es|]. split_and!; [|intros w|done].
    + rewrite elem_of_app, list_elem_of_filter. intros [?|[_ ?]]; [done|by apply (Hw (WJoiners s))].
    + unfold set_wait. case_decide; [by intros ?%elem_of_nil|done].
  - exists (with_link (dead v2) y2). split; [cbn; by rewrite lookup_insert_eq|cbn [with_link strand_move s_state]; by rewrite <- Es].
  - intros z Hz Hzj. unfold core. cbn [strands set_dead set_strands]. rewrite lookup_insert_ne by done. fold (core v2 z). rewrite Ho2 by done.
    unfold core, v1. cbn [strands set_strands]. by rewrite lookup_insert_ne.
Qed.

Lemma remove1_filter x l : NoDup l -> default l (remove1 x l) = filter (fun z => z <> x) l.
Proof.
  induction l as [|y l IH]; intros Hnd; [done|]. apply NoDup_cons in Hnd as [Hn Hnd]. cbn [remove1]. rewrite filter_cons.
  destruct (decide (x = y)) as [->|Hne].
  - rewrite decide_False by tauto. cbn. symmetry. by apply drop_act_id.
  - rewrite decide_True by congruence. rewrite <- IH by done. by destruct (remove1 x l).
Qed.

(** Writing the link of a dead strand lifted off the head of the dead list. *)
Lemma rep_pop_dead v q W s D act x : rep v q W (s :: D) act -> strands v !! s = Some x ->
  rep (set_strands (<[s := with_link None x]> (strands v)) (set_dead (s_link x) v)) q W D act.
Proof.
  intros Hr Hx. pose proof (dead_state v q W (s :: D) act s x Hr ltac:(left) Hx) as Hst.
  assert (Hnd : s ∉ D) by (pose proof (chain_nodup _ _ _ (rp_d _ _ _ _ _ Hr)) as Hn; by apply NoDup_cons in Hn as [? _]).
  assert (Hq : s ∉ q) by (intros Hq; pose proof (queued_ready v q W _ act s x Hr Hq Hx); congruence).
  assert (Hw : forall w, s ∉ W w) by (intros w Hw; destruct (waiting_state v q W _ act s x w Hr Hw Hx); congruence).
  set (v' := set_strands _ _). assert (Hls : strands v' = <[s := with_link None x]> (strands v)) by done.
  assert (Hf : forall h l, s ∉ l -> chain (lk v) h l -> chain (lk v') h l).
  { intros h l Hs. apply chain_ext. intros z Hz. unfold lk. rewrite Hls, lookup_insert_ne by set_solver. done. }
  destruct Hr as [H1 H2 H3 H4 H5 H6 H7 H8 H9 H10]. split; try done.
  - by apply Hf.
  - intros w. by apply Hf.
  - destruct H4 as [_ H4]. unfold lk in H4 at 2. rewrite Hx in H4. by apply Hf.
  - intros z Hz. rewrite Hls, lookup_insert_ne by set_solver. auto.
  - intros z w. rewrite Hls. destruct (decide (z = s)) as [->|]; [|by rewrite lookup_insert_ne].
    rewrite lookup_insert_eq. split; [by intros ?%Hw|]. intros (y & [= <-] & E & _). cbn in E. congruence.
  - intros z Hz. rewrite Hls, lookup_insert_ne by set_solver. apply H7. by right.
  - intros z y. rewrite Hls. destruct (decide (z = s)) as [->|]; [rewrite lookup_insert_eq; by intros [= <-]|].
    rewrite lookup_insert_ne by done. intros Hz Hl. destruct (H8 z y Hz Hl) as [?|[?|Hd]]; [by left|by right; left|].
    apply elem_of_cons in Hd as [->|Hd]; [done|]. by right; right.
  - intros z y. rewrite Hls. destruct (decide (z = s)) as [->|]; [|rewrite lookup_insert_ne by done; apply H9].
    rewrite lookup_insert_eq. intros [= <-]. cbn. rewrite Hst. by intros [|].
Qed.

Lemma reap_loop_spec : forall D fuel v q W act, rep v q W D act -> NoDup (realm_strands v) -> (length D <= fuel)%nat ->
  exists v', reap_loop fuel v = Some v' /\ rep v' q W [] act /\ realm_strands v' = filter (fun z => z ∉ D) (realm_strands v) /\
    (forall z, core v' z = core v z).
Proof.
  induction D as [|s D IH]; intros fuel v q W act Hr Hnd Hl; pose proof (rp_d _ _ _ _ _ Hr) as Hc; cbn [chain] in Hc.
  - exists v. split_and!; try done; [destruct fuel; cbn [reap_loop]; by rewrite Hc|].
    induction (realm_strands v) as [|z l IHl]; [done|]. rewrite filter_cons. apply NoDup_cons in Hnd as [_ Hnd].
    rewrite <- IHl by done. by rewrite decide_True by (by intros ?%elem_of_nil).
  - destruct fuel as [|fuel]; [cbn [length] in Hl; lia|]. destruct Hc as [Hh Hc]. cbn [reap_loop]. rewrite Hh.
    destruct (rp_ds _ _ _ _ _ Hr s) as (x & Hx & Hst); [left|]. rewrite Hx. cbn [mbind option_bind].
    rewrite (poke_spec s _ (set_dead (s_link x) v) x Hx). cbn [mbind option_bind].
    pose proof (rep_pop_dead v q W s D act x Hr Hx) as Hr1. cbn [strands set_dead] in Hr1 |- *. set (v1 := set_strands _ _) in *.
    change (realm_strands v1) with (realm_strands v). rewrite remove1_filter by done.
    assert (Hr2 : rep (set_realm_strands (filter (fun z => z <> s) (realm_strands v)) v1) q W D act) by (by destruct Hr1).
    destruct (IH fuel _ q W act Hr2) as (v' & -> & Hr' & Hrs & Hcore); [by apply NoDup_filter|cbn [length] in Hl; lia|].
    exists v'. split_and!; try done.
    + rewrite Hrs. cbn [realm_strands set_realm_strands]. rewrite list_filter_filter. apply list_filter_ext. intros z _. set_solver.
    + intros z. rewrite Hcore. unfold core, v1. cbn [strands set_realm_strands set_strands]. destruct (decide (z = s)) as [->|].
      * rewrite lookup_insert_eq, Hx. done.
      * by rewrite lookup_insert_ne.
Qed.

Lemma dead_length v q W D act : rep v q W D act -> (length D <= size (strands v))%nat.
Proof.
  intros Hr. rewrite <- size_dom. rewrite <- (size_list_to_set (C := gset nat) D); [|eapply chain_nodup, (rp_d _ _ _ _ _ Hr)].
  apply subseteq_size. intros s. rewrite elem_of_list_to_set, elem_of_dom. intros Hs. destruct (rp_ds _ _ _ _ _ Hr s Hs) as (x & Hx & _). by eexists.
Qed.

Lemma reap_spec v q W D act : rep v q W D act -> NoDup (realm_strands v) ->
  exists v', usched_reap v = Some v' /\ rep v' q W [] act /\ realm_strands v' = filter (fun z => z ∉ D) (realm_strands v) /\
    (forall z, core v' z = core v z).
Proof. intros Hr Hnd. apply reap_loop_spec; [done..|]. pose proof (dead_length _ _ _ _ _ Hr). lia. Qed.

(** ** The gate bits are the tags' bits *)

Definition bits_from (v : sched) (l : list UCleanup) (g : Z) : Z :=
  fold_left (fun g c => Z.lor g (utag_gate_bits v (saved_tag c))) l g.

Lemma bits_from_lor v l : forall g b, bits_from v l (Z.lor g b) = Z.lor (bits_from v l g) b.
Proof.
  induction l as [|c l IH]; intros g b; [done|]. unfold bits_from in *. cbn [fold_left].
  rewrite <- Z.lor_assoc, (Z.lor_comm b), Z.lor_assoc. apply IH.
Qed.

Lemma scope_entry_saved c t : scope_entry c t = bool_decide (saved_tag c = Some t).
Proof.
  unfold scope_entry, saved_tag. destruct (cl_tag_scope c); [|done]. cbn [andb]. apply bool_decide_ext. destruct (cl_saved c); split; congruence.
Qed.

Lemma tag_bits_taken v t bit u : Z.land bit 3 = bit ->
  utag_gate_bits (set_flags (<[t := Z.lor (flags_of v t) bit]> (tag_flags v)) v) u =
  if bool_decide (u = Some t) then Z.lor (utag_gate_bits v u) bit else utag_gate_bits v u.
Proof.
  intros Hb. destruct u as [u|]; [|done]. unfold utag_gate_bits, flags_of. cbn [tag_flags set_flags].
  destruct (decide (u = t)) as [->|Hne].
  - rewrite lookup_insert_eq, bool_decide_eq_true_2 by done. change (Z.land (Z.lor (flags_of v t) bit) 3 = Z.lor (Z.land (flags_of v t) 3) bit).
    rewrite Z.land_lor_distr_l. by rewrite Hb.
  - rewrite lookup_insert_ne, bool_decide_eq_false_2 by congruence. done.
Qed.

Lemma strand_bits_taken v t bit x : Z.land bit 3 = bit ->
  utag_strand_gate_bits (set_flags (<[t := Z.lor (flags_of v t) bit]> (tag_flags v)) v) x =
  if utag_covers x t then Z.lor (utag_strand_gate_bits v x) bit else utag_strand_gate_bits v x.
Proof.
  intros Hb. unfold utag_strand_gate_bits, utag_covers. set (v' := set_flags _ v).
  assert (Htb : forall u, utag_gate_bits v' u = if bool_decide (u = Some t) then Z.lor (utag_gate_bits v u) bit else utag_gate_bits v u)
    by (intros u; by apply tag_bits_taken).
  rewrite Htb.
  fold (bits_from v' (s_cleanup x) (if bool_decide (s_tag x = Some t) then Z.lor (utag_gate_bits v (s_tag x)) bit else utag_gate_bits v (s_tag x))).
  fold (bits_from v (s_cleanup x) (utag_gate_bits v (s_tag x))).
  assert (H : forall l g, bits_from v' l g = if existsb (fun c => scope_entry c t) l then Z.lor (bits_from v l g) bit else bits_from v l g).
  { induction l as [|c l IH]; intros g; [done|]. change (bits_from v' (c :: l) g) with (bits_from v' l (Z.lor g (utag_gate_bits v' (saved_tag c)))).
    change (bits_from v (c :: l) g) with (bits_from v l (Z.lor g (utag_gate_bits v (saved_tag c)))).
    rewrite IH, Htb. cbn [existsb]. rewrite scope_entry_saved.
    destruct (bool_decide (saved_tag c = Some t)); cbn [orb]; [|done]. rewrite Z.lor_assoc, bits_from_lor.
    destruct (existsb _ l); [|done]. by rewrite <- Z.lor_assoc, Z.lor_diag. }
  rewrite H. destruct (bool_decide (s_tag x = Some t)); cbn [orb]; [|done]. rewrite bits_from_lor.
  destruct (existsb _ _); [|done]. by rewrite <- Z.lor_assoc, Z.lor_diag.
Qed.

(** Flags that agree on every tag that covers a strand give it the same bits. *)
Lemma strand_bits_untouched v t fl x : utag_covers x t = false ->
  utag_strand_gate_bits (set_flags (<[t := fl]> (tag_flags v)) v) x = utag_strand_gate_bits v x.
Proof.
  intros Hc. unfold utag_covers in Hc. apply orb_false_iff in Hc as [Ht Hc]. apply bool_decide_eq_false in Ht.
  assert (Hu : forall u, u <> Some t -> utag_gate_bits (set_flags (<[t := fl]> (tag_flags v)) v) u = utag_gate_bits v u).
  { intros [u|] Hne; [|done]. unfold utag_gate_bits, flags_of. cbn. by rewrite lookup_insert_ne by congruence. }
  unfold utag_strand_gate_bits. rewrite Hu by done. generalize (utag_gate_bits v (s_tag x)).
  induction (s_cleanup x) as [|c l IH]; intros g; [done|]. cbn [existsb] in Hc. apply orb_false_iff in Hc as [Hs Hc].
  rewrite scope_entry_saved in Hs. apply bool_decide_eq_false in Hs. cbn [fold_left]. rewrite Hu by done. by apply IH.
Qed.

(** Every live strand carries exactly the bits of the tags that cover it. *)
Definition gates_exact (v : sched) : Prop :=
  forall s x, s ∈ realm_strands v -> strands v !! s = Some x -> s_state x <> USTRAND_DEAD -> s_gates x = utag_strand_gate_bits v x.

Lemma gated_fields t bit cur s x :
  s_gates (gated t bit cur s x) = (if live_under t x then Z.lor (s_gates x) bit else s_gates x) /\
  s_tag (gated t bit cur s x) = s_tag x /\ s_cleanup (gated t bit cur s x) = s_cleanup x /\
  (s_state (gated t bit cur s x) = USTRAND_DEAD <-> s_state x = USTRAND_DEAD).
Proof.
  unfold gated. destruct (live_under t x) eqn:E; [|done]. apply andb_prop in E as [E _]. apply negb_true_iff, bool_decide_eq_false in E.
  by destruct (_ && _).
Qed.

Lemma released_fields t v s x :
  s_gates (released t v s x) = (if live_under t x then utag_strand_gate_bits v x else s_gates x) /\
  s_tag (released t v s x) = s_tag x /\ s_cleanup (released t v s x) = s_cleanup x /\
  (s_state (released t v s x) = USTRAND_DEAD <-> s_state x = USTRAND_DEAD).
Proof.
  unfold released. destruct (live_under t x) eqn:E; [|done]. apply andb_prop in E as [E _]. apply negb_true_iff, bool_decide_eq_false in E.
  by destruct (releasable v s x).
Qed.

(** The fields of a strand after an update, up to its link. *)
Lemma updated_inv v v' g s y : listed v -> updated v v' g -> s ∈ realm_strands v -> strands v' !! s = Some y ->
  exists x, strands v !! s = Some x /\ unlinked_eq (g s x) y.
Proof.
  intros [_ Hls] [Hu _] Hs Hy. destruct (Hls s Hs) as [x Hx]. exists x. split; [done|]. specialize (Hu s x Hs Hx).
  rewrite (core_lookup v' s y Hy) in Hu. apply (inj Some) in Hu. by symmetry.
Qed.

Lemma gates_exact_kept t bit on v v' act q W D : Z.land bit 3 = bit ->
  rep v q W D act -> listed v -> current_awake v -> gates_exact v -> utag_gate t bit on v = Some v' -> gates_exact v'.
Proof.
  intros Hb Hr Hls Hcur Hex Hg s y Hs Hy Hd. destruct on.
  - destruct (gate_on_spec t bit v q W D act Hr Hls Hcur) as (v1 & act1 & E & _ & He & Hu). rewrite Hg in E. injection E as <-.
    unfold env in He. injection He as _ _ Hf Hrs _. rewrite Hrs in Hs.
    destruct (updated_inv v v' _ s y Hls Hu Hs Hy) as (x & Hx & E). pose proof (strand_bits_link v' _ _ E) as Hbits.
    apply unlinked_fields in E as (Est & Egt & _ & _ & _ & _). destruct (gated_fields t bit (current v) s x) as (F1 & F2 & F3 & F4).
    rewrite <- Egt, F1, <- Hbits. rewrite (gate_bits_flags (set_flags (<[t := Z.lor (flags_of v t) bit]> (tag_flags v)) v) v') by exact Hf.
    assert (Hlive : s_state x <> USTRAND_DEAD) by (rewrite <- F4, Est; done).
    transitivity (utag_strand_gate_bits (set_flags (<[t := Z.lor (flags_of v t) bit]> (tag_flags v)) v) x); [|unfold utag_strand_gate_bits; by rewrite F2, F3].
    rewrite strand_bits_taken by done. unfold live_under. rewrite bool_decide_eq_false_2 by done. cbn [negb andb].
    rewrite (Hex s x) by done. done.
  - destruct (gate_off_spec t bit v q W D act Hr Hls) as (v1 & act1 & E & _ & He & Hu). rewrite Hg in E. injection E as <-.
    unfold env in He. injection He as _ _ Hf Hrs _. rewrite Hrs in Hs. set (v0 := set_flags _ v) in *.
    destruct (updated_inv v v' _ s y Hls Hu Hs Hy) as (x & Hx & E). pose proof (strand_bits_link v' _ _ E) as Hbits.
    apply unlinked_fields in E as (Est & Egt & _ & _ & _ & _). destruct (released_fields t v0 s x) as (F1 & F2 & F3 & F4).
    rewrite <- Egt, F1, <- Hbits. rewrite (gate_bits_flags v0 v') by exact Hf.
    assert (Hlive : s_state x <> USTRAND_DEAD) by (rewrite <- F4, Est; done).
    transitivity (utag_strand_gate_bits v0 x); [|unfold utag_strand_gate_bits; by rewrite F2, F3].
    unfold live_under. rewrite bool_decide_eq_false_2 by done. cbn [negb andb]. destruct (utag_covers x t) eqn:Hc; [done|].
    unfold v0. rewrite strand_bits_untouched by done. exact (Hex s x Hs Hx Hlive).
Qed.

(** ** A small VM *)

(** Strand 1 is queued in the scope of tag 7; strand 2 waits for event 3 in
    an inner scope of tag 8 inside the scope of tag 7. *)
Definition in_tag7 : UStrand := MkStrand USTRAND_PARKED 0 UUNWIND_NONE VNil None None 0 (Some 7%nat) [] false 0.
Definition in_tag8 : UStrand := MkStrand USTRAND_PARKED 0 UUNWIND_NONE VNil None None 0 (Some 8%nat) [MkCleanup true (VTag 7)] false 0.
Definition tags0 : sched := MkSched {[1%nat := in_tag7; 2%nat := in_tag8]} None None None None ∅ [] ∅ [1%nat; 2%nat].
Definition tags1 : sched := default tags0 (usched_enqueue 1 tags0).
Definition tags2 : sched := default tags1 (snd <$> usched_park 2 (Some (WEvent 3)) 0 tags1).
Definition demo_waits : waitlist -> list nat := wait_push (Some (WEvent 3)) 2 (fun _ => []).

Lemma tags2_rep : rep tags2 [1%nat] demo_waits [] [].
Proof.
  assert (H0 : rep tags0 [] (fun _ => []) [] []).
  { apply rep_init. intros s x Hx. apply lookup_insert_Some in Hx as [[_ <-]|[_ Hx]]; [done|]. by apply lookup_singleton_Some in Hx as [_ <-]. }
  destruct (enqueue_spec tags0 [] (fun _ => []) [] [] 1 in_tag7 H0) as (v & Hv & Hr); [reflexivity|split; [|split]; set_solver|done|].
  assert (H1 : rep tags1 [1%nat] (fun _ => []) [] []) by (unfold tags1; rewrite Hv; exact Hr).
  destruct (park_spec tags1 [1%nat] (fun _ => []) [] [] 2 in_tag8 (Some (WEvent 3)) 0 H1) as (v2 & Hv2 & Hr2 & _);
    [reflexivity|split; [|split]; set_solver|]. unfold tags2. rewrite Hv2. exact Hr2.
Qed.

Lemma tags2_listed : listed tags2.
Proof.
  split; [repeat constructor; set_solver|]. intros s Hs. change (s ∈ [1%nat; 2%nat]) in Hs.
  apply elem_of_cons in Hs as [->|Hs]; [by eexists|]. apply list_elem_of_singleton in Hs as ->. by eexists.
Qed.

Lemma tags2_awake : current_awake tags2.
Proof. intros s x H. discriminate H. Qed.

Lemma tags2_exact : gates_exact tags2.
Proof.
  intros s x Hs Hx _. change (s ∈ [1%nat; 2%nat]) in Hs.
  apply elem_of_cons in Hs as [->|Hs]; [injection Hx as <-; reflexivity|]. apply list_elem_of_singleton in Hs as ->. injection Hx as <-. reflexivity.
Qed.

Definition demo_vm : vm := MkVM tags2 [MkWatcher 0 UWATCH_AT true false None None (Some 7%nat) None true] ∅ false.

(** ** Properties *)

(** block and freeze: taking a gate on a tag takes every strand of its
    scope off the run queue, keeping the order of the rest, parks the queued
    ones and the dispatching one, ORs the bit into each, leaves every wait
    list, the timers and all other strands alone, and never fails. *)
Theorem gate_takes_scope t bit v q W D act :
  rep v q W D act -> listed v -> current_awake v ->
  exists v' act', utag_gate t bit true v = Some v' /\
    rep v' (without v (under t) (realm_strands v) q) W D act' /\
    env v' = env (set_flags (<[t := Z.lor (flags_of v t) bit]> (tag_flags v)) v) /\
    updated v v' (gated t bit (current v)).
Proof. exact (gate_on_spec t bit v q W D act). Qed.

Lemma gate_takes_scope_witness :
  exists v' act', utag_gate 7 UTAG_F_BLOCKED true tags2 = Some v' /\
    rep v' (without tags2 (under 7) [1%nat; 2%nat] [1%nat]) demo_waits [] act' /\
    env v' = env (set_flags {[7%nat := 1]} tags2) /\ updated tags2 v' (gated 7 UTAG_F_BLOCKED None).
Proof. exact (gate_takes_scope 7 UTAG_F_BLOCKED tags2 [1%nat] demo_waits [] [] tags2_rep tags2_listed tags2_awake). Defined.

(** release: clearing a gate recomputes each covered strand's bits from all
    the tags that cover it, and appends to the run queue, in realm order,
    exactly those whose bits reach zero and that were parked with no wait list
    and no pending timer; a strand another tag still holds stays parked. *)
Theorem gate_release_requeues t bit v q W D act :
  rep v q W D act -> listed v ->
  let v0 := set_flags (<[t := Z.ldiff (flags_of v t) bit]> (tag_flags v)) v in
  exists v' act', utag_gate t bit false v = Some v' /\
    rep v' (q ++ filter (fun s => hits v (frees t v0) s = true) (realm_strands v)) W D act' /\
    env v' = env v0 /\ updated v v' (released t v0).
Proof. exact (gate_off_spec t bit v q W D act). Qed.

Lemma gate_release_requeues_witness :
  let v0 := set_flags {[7%nat := 0]} tags2 in
  exists v' act', utag_gate 7 UTAG_F_BLOCKED false tags2 = Some v' /\
    rep v' ([1%nat] ++ filter (fun s => hits tags2 (frees 7 v0) s = true) [1%nat; 2%nat]) demo_waits [] act' /\
    env v' = env v0 /\ updated tags2 v' (released 7 v0).
Proof. exact (gate_release_requeues 7 UTAG_F_BLOCKED tags2 [1%nat] demo_waits [] [] tags2_rep tags2_listed). Defined.

(** The gate bits a strand carries stay exactly the bits of the tags that
    cover it, through any block, unblock, freeze or unfreeze: taking a bit
    incrementally agrees with the recomputation the release path does. *)
Theorem gate_bits_stay_exact t bit on v v' q W D act :
  Z.land bit 3 = bit -> rep v q W D act -> listed v -> current_awake v -> gates_exact v ->
  utag_gate t bit on v = Some v' -> gates_exact v'.
Proof. intros Hb Hr Hls Hc He Hg. exact (gates_exact_kept t bit on v v' act q W D Hb Hr Hls Hc He Hg). Qed.

Lemma gate_bits_stay_exact_witness : exists v', utag_gate 7 UTAG_F_FROZEN true tags2 = Some v' /\ gates_exact v'.
Proof.
  exists (default tags2 (utag_gate 7 UTAG_F_FROZEN true tags2)).
  split; [reflexivity|exact (gate_bits_stay_exact 7 UTAG_F_FROZEN true tags2 _ [1%nat] demo_waits [] [] eq_refl tags2_rep tags2_listed tags2_awake tags2_exact eq_refl)].
Defined.

(** C8 stop: every live strand in the tag's scope is marked for a STOP unwind
    carrying the tag; unless it is the caller, it loses its gates, is not left
    parked, and is queued if it was; the result tells whether the caller was
    hit; strands outside the scope are untouched (unless they waited on a
    cancelled watcher); no periodic timer of the tag survives and no watcher of
    the tag stays armed, nor on the list unless a walk is in progress. *)
Theorem tag_stop_reaches_scope t m q W D act :
  rep (sc m) q W D act -> listed (sc m) -> current_awake (sc m) ->
  exists m' q2 W' act', utag_stop t m = Some (if existsb (hit_one t (sc m)) (realm_strands (sc m)) then 1 else 0, m') /\
    rep (sc m') (q ++ q2) W' D act' /\
    (forall s x, s ∈ realm_strands (sc m) -> strands (sc m) !! s = Some x -> live_under t x = true -> stop_marked t (sc m) (sc m') (q ++ q2) s) /\
    (forall s x, strands (sc m) !! s = Some x -> live_under t x = false -> (forall k, s ∉ W (WWatcher k)) -> core (sc m') s = core (sc m) s) /\
    (forall p, p ∈ timers_heap (sc m') -> ~ (period_us p <> 0 /\ t_tag p = Some t)) /\
    (forall w, w ∈ all m' -> w_tag w = Some t -> w_armed w = false /\ draining m = true).
Proof. exact (stop_spec t m q W D act). Qed.

Lemma tag_stop_reaches_scope_witness :
  exists m' q2 W' act', utag_stop 7 demo_vm = Some (0, m') /\ rep (sc m') ([1%nat] ++ q2) W' [] act' /\
    stop_marked 7 tags2 (sc m') ([1%nat] ++ q2) 2.
Proof.
  destruct (tag_stop_reaches_scope 7 demo_vm [1%nat] demo_waits [] [] tags2_rep tags2_listed tags2_awake)
    as (m' & q2 & W' & act' & H1 & H2 & H3 & _).
  exists m', q2, W', act'. split; [exact H1|]. split; [exact H2|].
  eapply H3; [right; left|reflexivity|reflexivity].
Defined.

(** C38 the waiters' half of an emission, which comes after
    uwatch_event_fired has served the subscribers: it wakes every waiter of
    the event and no one else; those no gate holds join the run queue,
    newest waiter first, the gated ones stay parked waiting on nothing, the
    event's list ends empty, and the other lists and strands are unchanged. *)
Theorem emit_wakes_waiters v q W D act e payload : rep v q W D act ->
  exists v', emit_waiters e payload v = Some v' /\ handed (WEvent e) (W (WEvent e)) v v' q W D act.
Proof. exact (emit_spec v q W D act e payload). Qed.

Lemma emit_wakes_waiters_witness :
  exists v', emit_waiters 3 (VOther 5) tags2 = Some v' /\ handed (WEvent 3) [2%nat] tags2 v' [1%nat] demo_waits [] [].
Proof. exact (emit_wakes_waiters tags2 [1%nat] demo_waits [] [] 3 (VOther 5) tags2_rep). Defined.

(** death: a dispatched strand that dies goes on the dead list and every
    strand parked on it is handed back to the scheduler. *)
Theorem death_wakes_joiners v q W D act s x : rep v q W D act -> strands v !! s = Some x -> off_lists q W D s ->
  exists v', on_death_lists s v = Some v' /\
    rep v' (q ++ filter (fun j => gate_free v j) (W (WJoiners s))) (set_wait (WJoiners s) [] W) (s :: D) act /\
    (exists y, strands v' !! s = Some y /\ s_state y = USTRAND_DEAD) /\
    (forall z, z <> s -> z ∉ W (WJoiners s) -> core v' z = core v z).
Proof. exact (death_spec v q W D act s x). Qed.

Lemma death_wakes_joiners_witness :
  exists v', on_death_lists 2 demo1 = Some v' /\ rep v' ([1%nat] ++ []) (set_wait (WJoiners 2) [] (fun _ => [])) [2%nat] [].
Proof.
  destruct (death_wakes_joiners demo1 [1%nat] (fun _ => []) [] [] 2 new_strand demo1_rep) as (v' & H1 & H2 & _);
    [reflexivity|split; [|split]; set_solver|]. by exists v'.
Defined.

(** reaping empties the dead list and unlinks exactly the dead strands from
    the realms, order kept; queue, wait lists and every other field of every
    strand are unchanged. *)
Theorem reap_unlinks_the_dead v q W D act : rep v q W D act -> NoDup (realm_strands v) ->
  exists v', usched_reap v = Some v' /\ rep v' q W [] act /\ realm_strands v' = filter (fun z => z ∉ D) (realm_strands v) /\
    (forall z, core v' z = core v z).
Proof. exact (reap_spec v q W D act). Qed.

Lemma reap_unlinks_the_dead_witness :
  exists v', usched_reap tags2 = Some v' /\ rep v' [1%nat] demo_waits [] [] /\ realm_strands v' = filter (fun z => z ∉ []) [1%nat; 2%nat] /\
    (forall z, core v' z = core tags2 z).
Proof. exact (reap_unlinks_the_dead tags2 [1%nat] demo_waits [] [] tags2_rep (proj1 tags2_listed)). Defined.

End Tags.
