(* ===== verification/Values.v ===== *)
(** * Runtime values (src/src/rt/uvalue.h, src/include/urbi/types.h)

    A tagged value: the payload of a number or boolean is in the value, every
    other kind carries a pointer, named here by an identity.  Doubles are the
    binary64 data of the Standard Library's [SpecFloat]. *)
From Stdlib Require Import SpecFloat.
From S2P Require Import Prelude.

Inductive UValue :=
  | UV_NIL | UV_VOID
  | UV_BOOL (i : Z) | UV_INT (i : Z) | UV_FLOAT (f : spec_float)
  | UV_SYM (p : nat) | UV_STR (p : nat) | UV_OBJ (p : nat) | UV_CELL (p : nat).

#[global] Instance spec_float_eq_dec : EqDecision spec_float.
Proof. solve_decision. Defined.
#[global] Instance UValue_eq_dec : EqDecision UValue.
Proof. solve_decision. Defined.

(** [(double)i]: round to nearest, ties to even. *)
Definition double_of_int (i : Z) : spec_float := binary_normalize 53 1024 i 0 false.

(** C's [==] on doubles: false on a NaN, true on zeros of either sign. *)
Definition double_eq (a b : spec_float) : bool := SFeqb a b.

Definition uv_is_number (v : UValue) : bool := match v with UV_INT _ | UV_FLOAT _ => true | _ => false end.

(** Meaningful on numbers only, as in the C. *)
Definition uv_as_double (v : UValue) : spec_float :=
  match v with UV_INT i => double_of_int i | UV_FLOAT f => f | _ => S754_nan end.

Definition uv_truthy (v : UValue) : bool :=
  match v with
  | UV_NIL | UV_VOID => false
  | UV_BOOL i | UV_INT i => negb (i =? 0)
  | UV_FLOAT f => negb (double_eq f (S754_zero false))
  | _ => true
  end.
