(* ===== verification/Objects.v ===== *)
(** * Objects, slots, prototypes and the slot cache (src/src/rt/uobj.c, uobj.h, uslotcache.h)

    An object is a vector of slots and a list of prototypes kept in two
    forms (one inline pointer, or an array).  Lookup walks the prototypes
    depth first with an explicit stack of 64 entries and a visit stamp; a
    cache entry per slot-access site remembers where a walk ended.  [None] is
    a dereference of nothing or a write outside the slot block. *)
From S2P Require Import Prelude Values.

Module Objects.

Definition USLOT_CONSTANT : Z := 1.
Definition USLOT_GETTER : Z := 2.
Definition USLOT_SETTER : Z := 4.
Definition USLOT_CHANGED_EVENT : Z := 8.
Definition UOBJ_INITIAL_CAP : Z := 4.
Definition URESOLVE_STACK_CAP : nat := 64.

(** One position of the three parallel slot arrays. *)
Record slot := MkSlot { sl_name : nat; sl_value : UValue; sl_attrs : Z }.

Record UObject := MkObject {
  o_slots : list slot;              (* count of them are in use *)
  o_cap : Z;
  o_nprotos : Z;
  o_proto0 : option nat;
  o_protos : option (list nat);     (* used when nprotos > 1 *)
  o_cached : bool;                  (* UOBJ_F_CACHED *)
  o_id : Z;
  o_visit : Z }.

Definition set_slots (l : list slot) (o : UObject) : UObject :=
  MkObject l (o_cap o) (o_nprotos o) (o_proto0 o) (o_protos o) (o_cached o) (o_id o) (o_visit o).
Definition set_cap (c : Z) (o : UObject) : UObject :=
  MkObject (o_slots o) c (o_nprotos o) (o_proto0 o) (o_protos o) (o_cached o) (o_id o) (o_visit o).
Definition set_proto_list (n : Z) (p0 : option nat) (ps : option (list nat)) (o : UObject) : UObject :=
  MkObject (o_slots o) (o_cap o) n p0 ps (o_cached o) (o_id o) (o_visit o).
Definition set_cached (o : UObject) : UObject :=
  MkObject (o_slots o) (o_cap o) (o_nprotos o) (o_proto0 o) (o_protos o) true (o_id o) (o_visit o).
Definition set_visit (s : Z) (o : UObject) : UObject :=
  MkObject (o_slots o) (o_cap o) (o_nprotos o) (o_proto0 o) (o_protos o) (o_cached o) (o_id o) s.

Definition zero_object : UObject := MkObject [] 0 0 None None false 0 0.

(** The objects of a VM and its [UObjStats]; [props] are the [UProps] cells. *)
Record ovm := MkOVM {
  objs : gmap nat UObject;
  props : gmap nat UValue;
  next_id : Z;
  visit_stamp : Z;
  resolve_overflow : bool;
  slot_epoch : Z;
  cache_fills : Z }.

Definition set_objs (m : gmap nat UObject) (v : ovm) : ovm :=
  MkOVM m (props v) (next_id v) (visit_stamp v) (resolve_overflow v) (slot_epoch v) (cache_fills v).
Definition set_props (m : gmap nat UValue) (v : ovm) : ovm :=
  MkOVM (objs v) m (next_id v) (visit_stamp v) (resolve_overflow v) (slot_epoch v) (cache_fills v).
Definition set_next_id (n : Z) (v : ovm) : ovm :=
  MkOVM (objs v) (props v) n (visit_stamp v) (resolve_overflow v) (slot_epoch v) (cache_fills v).
Definition set_walk (s : Z) (b : bool) (v : ovm) : ovm :=
  MkOVM (objs v) (props v) (next_id v) s b (slot_epoch v) (cache_fills v).
Definition set_epoch (e : Z) (v : ovm) : ovm :=
  MkOVM (objs v) (props v) (next_id v) (visit_stamp v) (resolve_overflow v) e (cache_fills v).
Definition set_fills (n : Z) (v : ovm) : ovm :=
  MkOVM (objs v) (props v) (next_id v) (visit_stamp v) (resolve_overflow v) (slot_epoch v) n.

Definition put_obj (o : nat) (x : UObject) (v : ovm) : ovm := set_objs (<[o := x]> (objs v)) v.

(** ** The epoch *)

Definition uobj_epoch_bump (v : ovm) : ovm :=
  let e := u32 (slot_epoch v + 1) in set_epoch (if e =? 0 then 1 else e) v.

(** [if (o->cell.flags & UOBJ_F_CACHED) uobj_epoch_bump(vm)]. *)
Definition bump_if_cached (x : UObject) (v : ovm) : ovm := if o_cached x then uobj_epoch_bump v else v.

(** ** Construction and slots *)

(** [cell]: the cell the collector hands out, or its refusal. *)
Definition uobj_new (cell : option nat) (proto : option nat) (v : ovm) : option nat * ovm :=
  match cell with
  | None => (None, v)
  | Some c =>
      let x := set_proto_list (if proto then 1 else 0) proto None zero_object in
      let x := MkObject (o_slots x) (o_cap x) (o_nprotos x) (o_proto0 x) (o_protos x) (o_cached x) (next_id v) (o_visit x) in
      (Some c, set_next_id (u32 (next_id v + 1)) (put_obj c x v))
  end.

Fixpoint find_from (i : nat) (l : list slot) (name : nat) : option nat :=
  match l with
  | [] => None
  | s :: l => if decide (sl_name s = name) then Some i else find_from (S i) l name
  end.
Definition uobj_find_local (x : UObject) (name : nat) : option nat := find_from O (o_slots x) name.

(** Inner [None]: out of memory.  The copy into a block smaller than the
    slots in use is a fault. *)
Definition uobj_grow (ok : bool) (x : UObject) : option (option UObject) :=
  let new_cap := if o_cap x =? 0 then UOBJ_INITIAL_CAP else u16 (o_cap x * 2) in
  if negb ok then Some None
  else if zlen (o_slots x) <=? new_cap then Some (Some (set_cap new_cap x)) else None.

(** [cell] answers the allocation of the property cell, [grow] that of the
    slot block.  The result is the slot's index, [None] out of memory. *)
Definition uobj_set_local (cell : option nat) (grow : bool) (o name : nat) (val : UValue) (attrs : Z) (v : ovm) : option (option nat * ovm) :=
  let prop := negb (Z.land attrs (Z.lor USLOT_GETTER USLOT_SETTER) =? 0) in
  match (if prop then match cell with None => None | Some c => Some (UV_CELL c, set_props (<[c := val]> (props v)) v) end else Some (val, v)) with
  | None => Some (None, v)
  | Some (stored, v) =>
      x ← objs v !! o;
      match uobj_find_local x name with
      | Some idx =>
          s ← o_slots x !! idx;
          let was := sl_attrs s in
          let now := u8 (Z.lor attrs (Z.land was USLOT_CHANGED_EVENT)) in
          let x' := set_slots (<[idx := MkSlot (sl_name s) stored now]> (o_slots x)) x in
          let v := put_obj o x' v in
          Some (Some idx, if negb (now =? was) && o_cached x then uobj_epoch_bump v else v)
      | None =>
          r ← (if zlen (o_slots x) =? o_cap x then uobj_grow grow x else Some (Some x));
          match r with
          | None => Some (None, v)
          | Some x =>
              if zlen (o_slots x) <? o_cap x then
                let x' := set_slots (o_slots x ++ [MkSlot name stored attrs]) x in
                Some (Some (length (o_slots x)), bump_if_cached x (put_obj o x' v))
              else None
          end
      end
  end.

(** The hole takes the last slot. *)
Definition uobj_remove_local (o name : nat) (v : ovm) : option (bool * ovm) :=
  x ← objs v !! o;
  match uobj_find_local x name with
  | None => Some (false, v)
  | Some idx =>
      let n := (length (o_slots x) - 1)%nat in
      s ← o_slots x !! n;
      let l := if (idx =? n)%nat then o_slots x else <[idx := s]> (o_slots x) in
      Some (true, bump_if_cached x (put_obj o (set_slots (take n l) x) v))
  end.

(** ** Prototypes *)

(** [cur->nprotos == 1 ? cur->proto0 : cur->protos[0 .. nprotos)]. *)
Definition proto_list (x : UObject) : list nat :=
  if o_nprotos x =? 1 then option_list (o_proto0 x)
  else take (Z.to_nat (o_nprotos x)) (default [] (o_protos x)).

(** [ok] answers the allocation of the array. *)
Definition uobj_add_proto (ok : bool) (o p : nat) (v : ovm) : option (Z * ovm) :=
  x ← objs v !! o;
  if o_nprotos x =? 0 then
    Some (0, bump_if_cached x (put_obj o (set_proto_list 1 (Some p) (o_protos x) x) v))
  else if o_nprotos x =? 1 then
    if negb ok then Some (-1, v)
    else
      p0 ← o_proto0 x;
      Some (0, bump_if_cached x (put_obj o (set_proto_list 2 (Some p) (Some [p; p0]) x) v))
  else if negb ok then Some (-1, v)
  else
    ps ← o_protos x;
    Some (0, bump_if_cached x (put_obj o (set_proto_list (u16 (o_nprotos x + 1)) (Some p) (Some (p :: take (Z.to_nat (o_nprotos x)) ps)) x) v)).

Fixpoint index_of (p : nat) (l : list nat) : option nat :=
  match l with
  | [] => None
  | q :: l => if decide (q = p) then Some O else S <$> index_of p l
  end.

(** A refused shrink leaves the array oversized, which changes nothing here. *)
Definition uobj_remove_proto (o p : nat) (v : ovm) : option (Z * ovm) :=
  x ← objs v !! o;
  if (o_nprotos x =? 1) && bool_decide (o_proto0 x = Some p) then
    Some (0, bump_if_cached x (put_obj o (set_proto_list 0 None (o_protos x) x) v))
  else if o_nprotos x <=? 1 then Some (-1, v)
  else
    ps ← o_protos x;
    match index_of p (take (Z.to_nat (o_nprotos x)) ps) with
    | None => Some (-1, v)
    | Some idx =>
        let n := u16 (o_nprotos x - 1) in
        if n <=? 1 then
          q ← ps !! (if (idx =? 0)%nat then 1%nat else 0%nat);
          Some (0, bump_if_cached x (put_obj o (set_proto_list 1 (Some q) None x) v))
        else
          last ← ps !! Z.to_nat n;
          let ps := <[idx := last]> ps in
          p0 ← ps !! O;
          Some (0, bump_if_cached x (put_obj o (set_proto_list n (Some p0) (Some (take (Z.to_nat n) ps)) x) v))
    end.

Definition uobj_set_protos (ok : bool) (o : nat) (ps : list nat) (v : ovm) : option (Z * ovm) :=
  x ← objs v !! o;
  let n := zlen ps in
  if n <=? 1 then
    Some (0, bump_if_cached x (put_obj o (set_proto_list n (head ps) None x) v))
  else if negb ok then Some (-1, v)
  else Some (0, bump_if_cached x (put_obj o (set_proto_list n (head ps) (Some ps) x) v)).

(** ** Resolution *)

Definition uobj_next_stamp (v : ovm) : ovm :=
  let s := u32 (visit_stamp v + 1) in
  set_walk (if s =? 0 then 1 else s) false v.

(** Pushes in reverse, so that the first prototype ends on top; [None] is a
    full stack.  The stack is a list, top first. *)
Fixpoint push_all (ps : list nat) (stack : list nat) : option (list nat) :=
  match ps with
  | [] => Some stack
  | p :: ps => if (URESOLVE_STACK_CAP <=? length stack)%nat then None else push_all ps (p :: stack)
  end.
Definition uobj_push_protos (x : UObject) (stack : list nat) : option (list nat) := push_all (rev (proto_list x)) stack.

Definition overflowed (v : ovm) : ovm := set_walk (visit_stamp v) true v.

Record UObjSlotRef := MkRef { r_owner : nat; r_index : nat }.

(** The walk's loop; [o] is where it started.  Outer [None]: a dangling
    pointer, or fuel. *)
Fixpoint resolve_loop (fuel : nat) (stamp : Z) (o name : nat) (flagging : bool) (stack : list nat) (v : ovm) : option (option UObjSlotRef * ovm) :=
  match stack with
  | [] => Some (None, v)
  | cur :: stack =>
      match fuel with
      | O => None
      | S fuel =>
          x ← objs v !! cur;
          if o_visit x =? stamp then resolve_loop fuel stamp o name flagging stack v
          else
            let x := set_visit stamp x in
            match uobj_find_local x name with
            | Some idx =>
                let x := if flagging && negb (bool_decide (cur = o)) then set_cached x else x in
                Some (Some (MkRef cur idx), put_obj cur x v)
            | None =>
                let x := if flagging then set_cached x else x in
                let v := put_obj cur x v in
                if 0 <? o_nprotos x then
                  match uobj_push_protos x stack with
                  | None => Some (None, overflowed v)
                  | Some stack => resolve_loop fuel stamp o name flagging stack v
                  end
                else resolve_loop fuel stamp o name flagging stack v
            end
      end
  end.

(** Each object is expanded once, so the entries ever pushed are bounded by
    the prototypes of all objects. *)
Definition walk_fuel (m : gmap nat UObject) : nat := S (sum_list_with (fun p => length (proto_list p.2)) (map_to_list m)).

Definition uobj_resolve_impl (o name : nat) (flagging : bool) (v : ovm) : option (option UObjSlotRef * ovm) :=
  let v := uobj_next_stamp v in
  resolve_loop (walk_fuel (objs v)) (visit_stamp v) o name flagging [o] v.
Definition uobj_resolve (o name : nat) (v : ovm) := uobj_resolve_impl o name false v.
Definition uobj_resolve_flagging (o name : nat) (v : ovm) := uobj_resolve_impl o name true v.

Fixpoint is_a_loop (fuel : nat) (stamp : Z) (proto : nat) (stack : list nat) (v : ovm) : option (bool * ovm) :=
  match stack with
  | [] => Some (false, v)
  | cur :: stack =>
      match fuel with
      | O => None
      | S fuel =>
          x ← objs v !! cur;
          if o_visit x =? stamp then is_a_loop fuel stamp proto stack v
          else
            let x := set_visit stamp x in
            let v := put_obj cur x v in
            if decide (cur = proto) then Some (true, v)
            else if 0 <? o_nprotos x then
              match uobj_push_protos x stack with
              | None => Some (false, overflowed v)
              | Some stack => is_a_loop fuel stamp proto stack v
              end
            else is_a_loop fuel stamp proto stack v
      end
  end.
Definition uobj_is_a (o proto : nat) (v : ovm) : option (bool * ovm) :=
  let v := uobj_next_stamp v in is_a_loop (walk_fuel (objs v)) (visit_stamp v) proto [o] v.

(** ** The slot cache *)

Record USlotCache := MkCache { c_recv : option nat; c_owner : option nat; c_epoch : Z; c_index : Z }.
Definition empty_entry : USlotCache := MkCache None None 0 0.

Definition uslotcache_hit (v : ovm) (e : USlotCache) (recv name : nat) : option bool :=
  if negb (bool_decide (c_recv e = Some recv)) then Some false
  else if bool_decide (c_owner e = Some recv) then
    x ← objs v !! recv;
    Some ((c_index e <? zlen (o_slots x)) && bool_decide ((sl_name <$> o_slots x !! Z.to_nat (c_index e)) = Some name))
  else Some (c_epoch e =? slot_epoch v).

Definition uslotcache_fill_own (recv : nat) (index : Z) (v : ovm) : USlotCache * ovm :=
  (MkCache (Some recv) (Some recv) 0 index, set_fills (u32 (cache_fills v + 1)) v).

Definition uslotcache_fill_inherited (recv : nat) (ref : UObjSlotRef) (v : ovm) : USlotCache * ovm :=
  (MkCache (Some recv) (Some (r_owner ref)) (slot_epoch v) (u16 (Z.of_nat (r_index ref))), set_fills (u32 (cache_fills v + 1)) v).

Definition USLOTCACHE_EPOCH_RESET : Z := 2147483648.

(** Where [slot_get] finds a slot when it has an entry: a flagging walk, whose
    answer refills the entry.  The result is where the slot is, [None] when the
    code throws LookupError.  What comes after (telling the watchers which
    objects were read, calling a getter) does not touch the entry. *)
Definition slot_get (e : USlotCache) (recv name : nat) (v : ovm) : option (option UObjSlotRef * USlotCache * ovm) :=
  '(r, v) ← uobj_resolve_flagging recv name v;
  match r with
  | None => Some (None, e, v)
  | Some ref =>
      let '(e, v) := if decide (r_owner ref = recv) then uslotcache_fill_own recv (u16 (Z.of_nat (r_index ref))) v
                     else uslotcache_fill_inherited recv ref v in
      Some (Some ref, e, v)
  end.

(** A read through a site, OP_GETSLOT: the entry if it hits on a plain slot,
    else [slot_get].  [cache_hits], which nothing reads, is left out. *)
Definition site_read (e : USlotCache) (recv name : nat) (v : ovm) : option (option UObjSlotRef * USlotCache * ovm) :=
  hit ← uslotcache_hit v e recv name;
  plain ← (if hit : bool then
             owner ← c_owner e; x ← objs v !! owner; s ← o_slots x !! Z.to_nat (c_index e);
             Some (Z.land (sl_attrs s) (Z.lor USLOT_GETTER USLOT_SETTER) =? 0)
           else Some false);
  if plain : bool then
    owner ← c_owner e; Some (Some (MkRef owner (Z.to_nat (c_index e))), e, v)
  else slot_get e recv name v.

(** What a collection does to the entries, before anything is freed. *)
Definition retire_entries (es : list USlotCache) (v : ovm) : list USlotCache * ovm :=
  let v := uobj_epoch_bump v in
  if USLOTCACHE_EPOCH_RESET <? slot_epoch v then ((fun _ => empty_entry) <$> es, set_epoch 1 v) else (es, v).

(** ** The walk, abstractly

    A depth-first walk over any graph: [hit c] says whether object [c]
    answers ([None] if there is no such object), [succ c] lists the objects
    searched after it. *)

Inductive outcome := Found (c i : nat) | Missed | Overflow.

Section walk.
Context (hit : nat -> option (option nat)) (succ : nat -> list nat).

Fixpoint walk (fuel : nat) (V : gset nat) (stack : list nat) : option (outcome * gset nat) :=
  match stack with
  | [] => Some (Missed, V)
  | c :: stack =>
      match fuel with
      | O => None
      | S fuel =>
          h ← hit c;
          if decide (c ∈ V) then walk fuel V stack
          else
            match h with
            | Some i => Some (Found c i, {[c]} ∪ V)
            | None =>
                match push_all (rev (succ c)) stack with
                | None => Some (Overflow, {[c]} ∪ V)
                | Some stack => walk fuel ({[c]} ∪ V) stack
                end
            end
      end
  end.

(** [c] is reached from [a] along [succ]. *)
Inductive reach (a : nat) : nat -> Prop :=
  | reach_here : reach a a
  | reach_step b c : reach a b -> c ∈ succ b -> reach a c.

Lemma push_all_eq ps : forall st st', push_all ps st = Some st' -> st' = rev ps ++ st.
Proof.
  induction ps as [|p ps IH]; intros st st'; cbn [push_all rev]; [by intros [= <-]|].
  destruct (_ <=? _)%nat; [done|]. intros H. rewrite (IH _ _ H). by rewrite <- app_assoc.
Qed.

Lemma push_all_rev l st st' : push_all (rev l) st = Some st' -> st' = l ++ st.
Proof. intros H. rewrite (push_all_eq _ _ _ H). by rewrite rev_involutive. Qed.

Lemma walk_grows fuel : forall V st out V', walk fuel V st = Some (out, V') -> V ⊆ V'.
Proof.
  induction fuel as [|fuel IH]; intros V [|c st] out V'; cbn [walk]; try done; try (by intros [= _ <-]).
  destruct (hit c) as [h|]; [|done]. cbn [mbind option_bind]. destruct (decide (c ∈ V)); [apply IH|].
  destruct h; [by intros [= _ <-]; set_solver|]. destruct (push_all _ st); [|by intros [= _ <-]; set_solver].
  intros H. apply IH in H. set_solver.
Qed.

Lemma walk_found fuel : forall V st c i V', walk fuel V st = Some (Found c i, V') ->
  hit c = Some (Some i) /\ c ∈ V' /\ c ∉ V /\ (exists a, a ∈ st /\ reach a c).
Proof.
  induction fuel as [|fuel IH]; intros V [|d st] c i V'; cbn [walk]; try done.
  destruct (hit d) as [h|] eqn:Hd; [|done]. cbn [mbind option_bind]. destruct (decide (d ∈ V)) as [Hv|Hv].
  { intros H. destruct (IH _ _ _ _ _ H) as (? & ? & ? & a & ? & ?). split_and!; try done. exists a. split; [by right|done]. }
  destruct h as [j|].
  { intros [= -> -> <-]. split_and!; [done|set_solver|done|]. exists c. split; [left|constructor]. }
  destruct (push_all _ st) as [st'|] eqn:Hp; [|done]. apply push_all_rev in Hp as ->. intros H.
  destruct (IH _ _ _ _ _ H) as (? & ? & ? & a & Ha & Hr). split_and!; [done..|set_solver|].
  apply elem_of_app in Ha as [Ha|Ha]; [|exists a; split; [by right|done]].
  exists d. split; [left|]. clear -Ha Hr. induction Hr; [eapply reach_step; [constructor|done]|by eapply reach_step].
Qed.

(** Everything passed over was asked and did not answer. *)
Lemma walk_passed fuel : forall V st out V' c, walk fuel V st = Some (out, V') -> c ∈ V' -> c ∉ V ->
  hit c = Some None \/ (exists i, out = Found c i).
Proof.
  induction fuel as [|fuel IH]; intros V [|d st] out V' c; cbn [walk]; try done; try (by intros [= _ <-]).
  destruct (hit d) as [h|] eqn:Hd; [|done]. cbn [mbind option_bind]. destruct (decide (d ∈ V)) as [Hv|Hv]; [apply IH|].
  destruct h as [i|].
  { intros [= <- <-] Hc Hn. right. exists i. f_equal. set_solver. }
  destruct (push_all _ st) as [st'|] eqn:Hp.
  - intros H Hc Hn. destruct (decide (c = d)) as [->|]; [by left|]. eapply IH; [exact H|done|set_solver].
  - intros [= <- <-] Hc Hn. left. assert (c = d) as -> by set_solver. done.
Qed.

(** A miss has visited everything reachable. *)
Lemma walk_missed fuel : forall V st V', walk fuel V st = Some (Missed, V') ->
  (forall c d, c ∈ V -> d ∈ succ c -> d ∈ V \/ d ∈ st) ->
  (forall a, a ∈ st -> a ∈ V') /\ (forall c d, c ∈ V' -> d ∈ succ c -> d ∈ V').
Proof.
  induction fuel as [|fuel IH]; intros V [|c st] V'; cbn [walk]; try done.
  - intros [= <-] Hcl. split; [by intros a ?%elem_of_nil|]. intros c d Hc Hd. destruct (Hcl c d Hc Hd) as [|?%elem_of_nil]; done.
  - intros [= <-] Hcl. split; [by intros a ?%elem_of_nil|]. intros c d Hc Hd. destruct (Hcl c d Hc Hd) as [|?%elem_of_nil]; done.
  - destruct (hit c) as [h|]; [|done]. cbn [mbind option_bind]. destruct (decide (c ∈ V)) as [Hv|Hv].
    + intros H Hcl. destruct (IH _ _ _ H) as [H1 H2].
      { intros x y Hx Hy. destruct (Hcl x y Hx Hy) as [|[->|]%elem_of_cons]; auto. }
      split; [|done]. intros a [->|Ha]%elem_of_cons; [by apply (walk_grows _ _ _ _ _ H)|auto].
    + destruct h; [done|]. destruct (push_all _ st) as [st'|] eqn:Hp; [|done]. apply push_all_rev in Hp as ->. intros H Hcl.
      destruct (IH _ _ _ H) as [H1 H2].
      { intros x y [->%elem_of_singleton|Hx]%elem_of_union Hy; [right; rewrite elem_of_app; by left|].
        destruct (Hcl x y Hx Hy) as [|[->|]%elem_of_cons]; [left; set_solver..|right; rewrite elem_of_app; by right]. }
      split; [|done]. intros a [->|Ha]%elem_of_cons; [apply (walk_grows _ _ _ _ _ H); set_solver|].
      apply H1. rewrite elem_of_app. by right.
Qed.

Lemma closed_reach (V : gset nat) a c : (forall c d, c ∈ V -> d ∈ succ c -> d ∈ V) -> a ∈ V -> reach a c -> c ∈ V.
Proof. intros Hcl Ha Hr. induction Hr; [done|]. eapply Hcl; [exact IHHr|done]. Qed.

Lemma walk_fuel_more fuel : forall V st r fuel', walk fuel V st = Some r -> (fuel <= fuel')%nat -> walk fuel' V st = Some r.
Proof.
  induction fuel as [|fuel IH]; intros V [|c st] r [|fuel'] H Hle; cbn [walk] in *; try done; try lia.
  destruct (hit c) as [h|]; [|done]. cbn [mbind option_bind] in *. destruct (decide (c ∈ V)); [apply IH; [done|lia]|].
  destruct h; [done|]. destruct (push_all _ st); [|done]. apply IH; [done|lia].
Qed.
End walk.

(** A walk only depends on the objects it visits. *)
Lemma walk_local hit hit' succ succ' fuel : forall V st out V',
  walk hit succ fuel V st = Some (out, V') -> (forall c, c ∈ V' -> hit' c = hit c /\ succ' c = succ c) ->
  walk hit' succ' fuel V st = Some (out, V').
Proof.
  induction fuel as [|fuel IH]; intros V [|c st] out V'; cbn [walk]; try done.
  destruct (hit c) as [h|] eqn:Hh; [|done]. cbn [mbind option_bind]. destruct (decide (c ∈ V)) as [Hv|Hv].
  - intros H Ha. destruct (Ha c) as [-> _]; [by apply (walk_grows _ _ _ _ _ _ _ H)|]. rewrite Hh. cbn [mbind option_bind]. by apply IH.
  - destruct h as [i|].
    + intros [= <- <-] Ha. destruct (Ha c) as [-> _]; [set_solver|]. by rewrite Hh.
    + destruct (push_all _ st) as [st'|] eqn:Hp.
      * intros H Ha. destruct (Ha c) as [-> ->]; [apply (walk_grows _ _ _ _ _ _ _ H); set_solver|]. rewrite Hh. cbn [mbind option_bind].
        rewrite Hp. by apply IH.
      * intros [= <- <-] Ha. destruct (Ha c) as [-> ->]; [set_solver|]. rewrite Hh. cbn [mbind option_bind]. by rewrite Hp.
Qed.

(** ** Termination: every object is expanded at most once *)

Definition weight (succ : nat -> list nat) (V : gset nat) (l : list nat) : nat :=
  sum_list_with (fun c => if decide (c ∈ V) then O else length (succ c)) l.

Lemma weight_visit succ V c l : NoDup l -> c ∈ l -> c ∉ V -> (weight succ ({[c]} ∪ V) l + length (succ c) = weight succ V l)%nat.
Proof.
  unfold weight. induction l as [|d l IH]; intros Hnd Hc Hv; [by apply elem_of_nil in Hc|].
  apply NoDup_cons in Hnd as [Hn Hnd]. cbn [sum_list_with]. apply elem_of_cons in Hc as [<-|Hc].
  - rewrite (decide_True (P := c ∈ {[c]} ∪ V)) by set_solver. rewrite (decide_False (P := c ∈ V)) by done.
    assert (E : forall k, c ∉ k -> sum_list_with (fun d => if decide (d ∈ {[c]} ∪ V) then O else length (succ d)) k =
      sum_list_with (fun d => if decide (d ∈ V) then O else length (succ d)) k).
    { induction k as [|d k IHk]; intros Hk; [done|]. cbn [sum_list_with]. rewrite IHk by set_solver. f_equal.
      apply decide_ext. set_solver. }
    rewrite E by done. lia.
  - rewrite <- (IH Hnd Hc Hv). assert (d <> c) by congruence.
    rewrite (decide_ext (d ∈ {[c]} ∪ V) (d ∈ V)) by set_solver. lia.
Qed.

Lemma search_total hit succ nodes : NoDup nodes ->
  (forall c, c ∈ nodes -> is_Some (hit c)) -> (forall c d, c ∈ nodes -> d ∈ succ c -> d ∈ nodes) ->
  forall fuel V st, (forall c, c ∈ st -> c ∈ nodes) -> (length st + weight succ V nodes <= fuel)%nat ->
  is_Some (walk hit succ fuel V st).
Proof.
  intros Hnd Hhit Hcl. induction fuel as [|fuel IH]; intros V [|c st] Hst Hf; cbn [walk length] in *; try done; try lia.
  destruct (Hhit c) as [h ->]; [apply Hst; left|]. cbn [mbind option_bind].
  assert (Hst' : forall d, d ∈ st -> d ∈ nodes) by (intros d Hd; apply Hst; by right).
  destruct (decide (c ∈ V)) as [Hv|Hv]; [apply IH; [done|lia]|].
  destruct h as [i|]; [done|]. destruct (push_all _ st) as [st'|] eqn:Hp; [|done]. apply push_all_rev in Hp as ->.
  pose proof (weight_visit succ V c nodes Hnd ltac:(apply Hst; left) Hv). apply IH.
  - intros d [Hd|Hd]%elem_of_app; [|auto]. eapply Hcl; [apply Hst; left|done].
  - rewrite length_app. lia.
Qed.

(** ** The loops are that walk *)

Definition hitf (v : ovm) (name c : nat) : option (option nat) := (fun x => uobj_find_local x name) <$> objs v !! c.
Definition hita (v : ovm) (proto c : nat) : option (option nat) := (fun _ => if decide (c = proto) then Some O else None) <$> objs v !! c.
Definition succf (v : ovm) (c : nat) : list nat := match objs v !! c with Some x => proto_list x | None => [] end.

(** What a walk leaves of an object it visited. *)
Definition marked (stamp : Z) (flag : bool) (x : UObject) : UObject :=
  let x := set_visit stamp x in if flag then set_cached x else x.

(** Same slots and prototypes everywhere. *)
Definition same_graph (v v' : ovm) : Prop :=
  forall c, match objs v !! c, objs v' !! c with
            | Some x, Some y => o_slots y = o_slots x /\ o_cap y = o_cap x /\ o_nprotos y = o_nprotos x /\ o_proto0 y = o_proto0 x /\ o_protos y = o_protos x /\ (o_cached x = true -> o_cached y = true)
            | None, None => True
            | _, _ => False
            end.

Lemma same_graph_refl v : same_graph v v.
Proof. intros c. by destruct (objs v !! c). Qed.
Lemma same_graph_trans v1 v2 v3 : same_graph v1 v2 -> same_graph v2 v3 -> same_graph v1 v3.
Proof.
  intros H1 H2 c. specialize (H1 c). specialize (H2 c). destruct (objs v1 !! c), (objs v2 !! c), (objs v3 !! c); try done.
  destruct H1 as (? & ? & ? & ? & ? & ?), H2 as (? & ? & ? & ? & ? & ?). split_and!; try congruence. auto.
Qed.
Lemma same_graph_hitf v v' name c : same_graph v v' -> hitf v' name c = hitf v name c.
Proof.
  intros H. specialize (H c). unfold hitf. destruct (objs v !! c), (objs v' !! c); try done. destruct H as (E & _).
  cbn [fmap option_fmap option_map]. unfold uobj_find_local. by rewrite E.
Qed.
Lemma same_graph_hita v v' p c : same_graph v v' -> hita v' p c = hita v p c.
Proof. intros H. specialize (H c). unfold hita. by destruct (objs v !! c), (objs v' !! c). Qed.
Lemma same_graph_succf v v' c : same_graph v v' -> succf v' c = succf v c.
Proof.
  intros H. specialize (H c). unfold succf. destruct (objs v !! c), (objs v' !! c); try done. destruct H as (_ & _ & E1 & E2 & E3 & _).
  unfold proto_list. by rewrite E1, E2, E3.
Qed.

Definition graph_like (x y : UObject) : Prop :=
  o_slots y = o_slots x /\ o_cap y = o_cap x /\ o_nprotos y = o_nprotos x /\ o_proto0 y = o_proto0 x /\ o_protos y = o_protos x /\
  (o_cached x = true -> o_cached y = true).

Lemma same_graph_put v c x y : objs v !! c = Some x -> graph_like x y -> same_graph v (put_obj c y v).
Proof.
  intros Hx Hg d. cbn [objs put_obj set_objs]. destruct (decide (d = c)) as [->|]; [by rewrite lookup_insert_eq, Hx|].
  rewrite lookup_insert_ne by done. by destruct (objs v !! d).
Qed.

Lemma push_none x stack : o_nprotos x <= 0 -> uobj_push_protos x stack = Some stack.
Proof.
  intros H. unfold uobj_push_protos, proto_list. rewrite (proj2 (Z.eqb_neq _ _)) by lia. replace (Z.to_nat (o_nprotos x)) with O by lia. done.
Qed.

Definition stamped (stamp : Z) (V : gset nat) (v : ovm) : Prop :=
  forall c x, objs v !! c = Some x -> (o_visit x = stamp <-> c ∈ V).

Lemma stamped_put stamp V v c x y : stamped stamp V v -> objs v !! c = Some x -> o_visit y = stamp -> stamped stamp ({[c]} ∪ V) (put_obj c y v).
Proof.
  intros Hs Hx Hy d z. cbn [objs put_obj set_objs]. destruct (decide (d = c)) as [->|Hne].
  - rewrite lookup_insert_eq. intros [= <-]. split; [set_solver|done].
  - rewrite lookup_insert_ne by done. intros Hz. rewrite (Hs d z Hz). set_solver.
Qed.

Definition ref_of (out : outcome) : option UObjSlotRef := match out with Found c i => Some (MkRef c i) | _ => None end.
Definition is_overflow (out : outcome) : bool := match out with Overflow => true | _ => false end.

(** What a finished walk changed: only marks. *)
Record walked (v v' : ovm) (stamp : Z) (V V' : gset nat) (out : outcome) (flag : nat -> bool) : Prop := {
  wk_graph : same_graph v v';
  wk_over : resolve_overflow v' = is_overflow out || resolve_overflow v;
  wk_rest : props v' = props v /\ next_id v' = next_id v /\ visit_stamp v' = visit_stamp v /\ slot_epoch v' = slot_epoch v /\ cache_fills v' = cache_fills v;
  wk_cached : forall c x, c ∈ V' -> c ∉ V -> flag c = true -> objs v' !! c = Some x -> o_cached x = true;
  wk_visits : forall c x, objs v' !! c = Some x -> o_visit x = stamp \/ exists y, objs v !! c = Some y /\ o_visit x = o_visit y }.

Lemma walked_refl v stamp V out flag : is_overflow out = false -> walked v v stamp V V out flag.
Proof. intros Ho. split; try done; [apply same_graph_refl|by rewrite Ho|]. intros c x Hx. right. by exists x. Qed.

Lemma walked_put v v' stamp V V' out flag c x y : objs v !! c = Some x -> graph_like x y -> o_visit y = stamp ->
  (flag c = true -> o_cached y = true) -> c ∈ V' ->
  walked (put_obj c y v) v' stamp ({[c]} ∪ V) V' out flag -> walked v v' stamp V V' out flag.
Proof.
  intros Hx Hg Hv Hf Hc [H1 H2 H3 H4 H5]. pose proof (same_graph_put v c x y Hx Hg) as Hgp. split.
  - by eapply same_graph_trans.
  - done.
  - done.
  - intros d z Hd Hn Hfl Hz. destruct (decide (d = c)) as [->|]; [|by apply (H4 d z); [|set_solver|..]].
    specialize (H1 c). cbn [objs put_obj set_objs] in H1. rewrite lookup_insert_eq, Hz in H1. destruct H1 as (_ & _ & _ & _ & _ & H1). auto.
  - intros d z Hz. destruct (H5 d z Hz) as [|(w & Hw & E)]; [by left|]. cbn [objs put_obj set_objs] in Hw.
    destruct (decide (d = c)) as [->|].
    + rewrite lookup_insert_eq in Hw. injection Hw as <-. left. by rewrite E.
    + rewrite lookup_insert_ne in Hw by done. right. by exists w.
Qed.

Lemma walked_over v stamp V c x y flag : objs v !! c = Some x -> graph_like x y -> o_visit y = stamp ->
  (flag c = true -> o_cached y = true) -> walked v (overflowed (put_obj c y v)) stamp V ({[c]} ∪ V) Overflow flag.
Proof.
  intros Hx Hg Hv Hf. pose proof (same_graph_put v c x y Hx Hg) as Hgp. split; try done.
  - intros d z Hd Hn Hfl. cbn [objs overflowed put_obj set_objs set_walk]. assert (d = c) as -> by set_solver.
    rewrite lookup_insert_eq. intros [= <-]. auto.
  - intros d z. cbn [objs overflowed put_obj set_objs set_walk]. destruct (decide (d = c)) as [->|].
    + rewrite lookup_insert_eq. intros [= <-]. by left.
    + rewrite lookup_insert_ne by done. intros Hz. right. by exists z.
Qed.

Definition flags (flagging : bool) (o : nat) (out : outcome) (c : nat) : bool :=
  flagging && match out with Found d _ => negb (bool_decide (c = d) && bool_decide (d = o)) | _ => true end.

Lemma flags_true flagging o out c : flags flagging o out c = true -> flagging = true.
Proof. unfold flags. by destruct flagging. Qed.

Lemma marked_like stamp b x : graph_like x (marked stamp b x) /\ o_visit (marked stamp b x) = stamp /\ (b = true -> o_cached (marked stamp b x) = true).
Proof. unfold marked, graph_like. by destruct b. Qed.

Lemma resolve_loop_walk stamp o name flagging : forall fuel stack v V out V',
  stamped stamp V v -> walk (hitf v name) (succf v) fuel V stack = Some (out, V') ->
  exists v', resolve_loop fuel stamp o name flagging stack v = Some (ref_of out, v') /\ walked v v' stamp V V' out (flags flagging o out).
Proof.
  induction fuel as [|fuel IH]; intros [|c stack] v V out V' Hs; cbn [walk resolve_loop]; try done;
    try (by intros [= <- <-]; exists v; split; [done|by apply walked_refl]).
  assert (Hh : hitf v name c = (fun x => uobj_find_local x name) <$> objs v !! c) by done. rewrite Hh. clear Hh.
  destruct (objs v !! c) as [x|] eqn:Hx; cbn [fmap option_fmap option_map mbind option_bind]; [|done].
  destruct (decide (c ∈ V)) as [Hv|Hv].
  { rewrite (proj2 (Z.eqb_eq _ _)) by (by apply (Hs c x Hx)). by apply IH. }
  rewrite (proj2 (Z.eqb_neq _ _)) by (by rewrite (Hs c x Hx)).
  change (uobj_find_local (set_visit stamp x) name) with (uobj_find_local x name).
  destruct (uobj_find_local x name) as [i|] eqn:Hi.
  - intros [= <- <-]. eexists. split; [reflexivity|].
    destruct (marked_like stamp (flagging && negb (bool_decide (c = o))) x) as (Hg & Hvis & Hf).
    apply (walked_put _ _ _ _ _ _ _ c x (marked stamp (flagging && negb (bool_decide (c = o))) x)); try done; [|set_solver|].
    + intros H. apply Hf. unfold flags in H. destruct flagging; [|done]. cbn in *. destruct (bool_decide (c = o)); [|done].
      by rewrite bool_decide_eq_true_2 in H.
    + unfold marked. apply walked_refl. done.
  - pose proof (marked_like stamp flagging x) as (Hg & Hvis & Hf). change (if flagging then set_cached (set_visit stamp x) else set_visit stamp x) with (marked stamp flagging x).
    set (y := marked stamp flagging x) in *.
    assert (Hpush : (if 0 <? o_nprotos y then match uobj_push_protos y stack with
          | None => Some (None, overflowed (put_obj c y v)) | Some stack => resolve_loop fuel stamp o name flagging stack (put_obj c y v) end
        else resolve_loop fuel stamp o name flagging stack (put_obj c y v)) =
      match push_all (rev (succf v c)) stack with
      | None => Some (None, overflowed (put_obj c y v)) | Some stack => resolve_loop fuel stamp o name flagging stack (put_obj c y v) end).
    { unfold succf. rewrite Hx. destruct Hg as (_ & _ & E1 & E2 & E3 & _). unfold uobj_push_protos, proto_list. rewrite E1, E2, E3.
      destruct (0 <? o_nprotos x) eqn:Hn; [done|]. apply Z.ltb_ge in Hn. pose proof (push_none x stack Hn) as Hpn.
      unfold uobj_push_protos, proto_list in Hpn. by rewrite Hpn. }
    rewrite Hpush. destruct (push_all _ stack) as [st'|] eqn:Hp.
    + intros H. assert (Hs' : stamped stamp ({[c]} ∪ V) (put_obj c y v)) by (by eapply stamped_put).
      pose proof (same_graph_put v c x y Hx Hg) as Hgp.
      destruct (IH st' (put_obj c y v) ({[c]} ∪ V) out V' Hs') as (v' & Hv' & Hw).
      { eapply walk_local; [exact H|]. intros d _. by rewrite (same_graph_hitf v), (same_graph_succf v). }
      exists v'. split; [done|]. eapply walked_put; try done; [intros Hfl; apply Hf; by eapply flags_true|].
      apply (walk_grows _ _ _ _ _ _ _ H). set_solver.
    + intros [= <- <-]. eexists. split; [reflexivity|]. eapply walked_over; try done. intros Hfl. apply Hf. by eapply flags_true.
Qed.

Lemma is_a_loop_walk stamp proto : forall fuel stack v V out V',
  stamped stamp V v -> walk (hita v proto) (succf v) fuel V stack = Some (out, V') ->
  exists v', is_a_loop fuel stamp proto stack v = Some (bool_decide (is_Some (ref_of out)), v') /\ walked v v' stamp V V' out (fun _ => false).
Proof.
  induction fuel as [|fuel IH]; intros [|c stack] v V out V' Hs; cbn [walk is_a_loop]; try done;
    try (by intros [= <- <-]; exists v; split; [done|by apply walked_refl]).
  assert (Hh : hita v proto c = (fun _ => if decide (c = proto) then Some O else None) <$> objs v !! c) by done. rewrite Hh. clear Hh.
  destruct (objs v !! c) as [x|] eqn:Hx; cbn [fmap option_fmap option_map mbind option_bind]; [|done].
  destruct (decide (c ∈ V)) as [Hv|Hv].
  { rewrite (proj2 (Z.eqb_eq _ _)) by (by apply (Hs c x Hx)). by apply IH. }
  rewrite (proj2 (Z.eqb_neq _ _)) by (by rewrite (Hs c x Hx)).
  pose proof (marked_like stamp false x) as (Hg & Hvis & _). change (set_visit stamp x) with (marked stamp false x).
  set (y := marked stamp false x) in *. destruct (decide (c = proto)) as [Hc|Hc].
  - intros [= <- <-]. eexists. split; [by rewrite bool_decide_eq_true_2|]. eapply walked_put; try done; [set_solver|]. by apply walked_refl.
  - assert (Hpush : (if 0 <? o_nprotos y then match uobj_push_protos y stack with
          | None => Some (false, overflowed (put_obj c y v)) | Some stack => is_a_loop fuel stamp proto stack (put_obj c y v) end
        else is_a_loop fuel stamp proto stack (put_obj c y v)) =
      match push_all (rev (succf v c)) stack with
      | None => Some (false, overflowed (put_obj c y v)) | Some stack => is_a_loop fuel stamp proto stack (put_obj c y v) end).
    { unfold succf. rewrite Hx. destruct Hg as (_ & _ & E1 & E2 & E3 & _). unfold uobj_push_protos, proto_list. rewrite E1, E2, E3.
      destruct (0 <? o_nprotos x) eqn:Hn; [done|]. apply Z.ltb_ge in Hn. pose proof (push_none x stack Hn) as Hpn.
      unfold uobj_push_protos, proto_list in Hpn. by rewrite Hpn. }
    rewrite Hpush. destruct (push_all _ stack) as [st'|] eqn:Hp.
    + intros H. assert (Hs' : stamped stamp ({[c]} ∪ V) (put_obj c y v)) by (by eapply stamped_put).
      pose proof (same_graph_put v c x y Hx Hg) as Hgp.
      destruct (IH st' (put_obj c y v) ({[c]} ∪ V) out V' Hs') as (v' & Hv' & Hw).
      { eapply walk_local; [exact H|]. intros d _. by rewrite (same_graph_hita v), (same_graph_succf v). }
      exists v'. split; [done|]. eapply walked_put; try done. apply (walk_grows _ _ _ _ _ _ _ H). set_solver.
    + intros [= <- <-]. eexists. split; [done|]. by eapply walked_over.
Qed.

(** ** Well-formed objects *)

(** The two forms of the prototype list, as the header describes them. *)
Definition protos_wf (x : UObject) : Prop :=
  (o_nprotos x = 0 /\ o_proto0 x = None /\ o_protos x = None) \/
  (o_nprotos x = 1 /\ is_Some (o_proto0 x) /\ o_protos x = None) \/
  (2 <= o_nprotos x < 2 ^ 16 /\ exists ps, o_protos x = Some ps /\ zlen ps = o_nprotos x /\ o_proto0 x = head ps).

(** Every capacity is zero or a doubling of four that fits. *)
Definition cap_ok (c : Z) : Prop := c = 0 \/ exists k, 2 <= k <= 15 /\ c = 2 ^ k.

Record obj_wf (x : UObject) : Prop := {
  wf_protos : protos_wf x;
  wf_names : NoDup (sl_name <$> o_slots x);
  wf_cap : cap_ok (o_cap x);
  wf_room : zlen (o_slots x) <= o_cap x }.

Record ovm_wf (v : ovm) : Prop := {
  ow_obj : forall c x, objs v !! c = Some x -> obj_wf x;
  ow_closed : forall c x d, objs v !! c = Some x -> d ∈ proto_list x -> is_Some (objs v !! d);
  ow_visit : forall c x, objs v !! c = Some x -> 0 <= o_visit x <= visit_stamp v }.

(** The visit stamp has not come round: fewer than 2^32 - 1 walks so far. *)
Definition stamps_left (v : ovm) : Prop := 0 <= visit_stamp v < 2 ^ 32 - 1.

Lemma weight_fuel v l : (forall p, p ∈ l -> objs v !! p.1 = Some p.2) ->
  weight (succf v) ∅ l.*1 = sum_list_with (fun p => length (proto_list p.2)) l.
Proof.
  unfold weight. induction l as [|[c x] l IH]; intros Hl; [done|]. cbn [sum_list_with fmap list_fmap fst snd].
  rewrite <- IH by (intros p Hp; apply Hl; by right). rewrite decide_False by set_solver. unfold succf at 1.
  pose proof (Hl (c, x) ltac:(left)) as E. cbn in E. by rewrite E.
Qed.

Lemma walk_enough v hit o : ovm_wf v -> (forall c, is_Some (objs v !! c) -> is_Some (hit c)) -> is_Some (objs v !! o) ->
  is_Some (walk hit (succf v) (walk_fuel (objs v)) ∅ [o]).
Proof.
  intros Hwf Hhit Ho. assert (Hn : forall c, c ∈ (map_to_list (objs v)).*1 <-> is_Some (objs v !! c)).
  { intros c. rewrite list_elem_of_fmap. split; [intros ([d x] & -> & H%elem_of_map_to_list); by exists x|].
    intros [x Hx]. exists (c, x). split; [done|]. by apply elem_of_map_to_list. }
  apply (search_total hit (succf v) (map_to_list (objs v)).*1).
  - apply NoDup_fst_map_to_list.
  - intros c Hc. by apply Hhit, Hn.
  - intros c d Hc Hd. apply Hn in Hc as [x Hx]. apply Hn. unfold succf in Hd. rewrite Hx in Hd. by eapply (ow_closed v Hwf).
  - intros c Hc. apply list_elem_of_singleton in Hc as ->. by apply Hn.
  - rewrite (weight_fuel v); [unfold walk_fuel; cbn [length]; lia|]. intros [c x] H. by apply elem_of_map_to_list in H.
Qed.

Lemma next_stamp_eq v : stamps_left v -> uobj_next_stamp v = set_walk (visit_stamp v + 1) false v.
Proof.
  intros H. unfold stamps_left in H. unfold uobj_next_stamp, u32. rewrite Z.mod_small by lia.
  rewrite (proj2 (Z.eqb_neq _ _)) by lia. done.
Qed.

Lemma fresh_stamp v : ovm_wf v -> stamped (visit_stamp v + 1) ∅ (set_walk (visit_stamp v + 1) false v).
Proof. intros Hwf c x Hx. pose proof (ow_visit v Hwf c x Hx). split; [lia|set_solver]. Qed.

Lemma same_graph_wf x y : graph_like x y -> obj_wf x -> obj_wf y.
Proof.
  intros (E1 & E2 & E3 & E4 & E5 & _) [H1 H2 H3 H4]. split; [unfold protos_wf in *; by rewrite E3, E4, E5|by rewrite E1|by rewrite E2|by rewrite E1, E2].
Qed.

Lemma proto_list_like x y : graph_like x y -> proto_list y = proto_list x.
Proof. intros (_ & _ & E3 & E4 & E5 & _). unfold proto_list. by rewrite E3, E4, E5. Qed.

Lemma same_graph_inv v v' c y : same_graph v v' -> objs v' !! c = Some y -> exists x, objs v !! c = Some x /\ graph_like x y.
Proof. intros H Hy. specialize (H c). rewrite Hy in H. destruct (objs v !! c) as [x|]; [|done]. by exists x. Qed.
Lemma same_graph_fwd v v' c x : same_graph v v' -> objs v !! c = Some x -> exists y, objs v' !! c = Some y /\ graph_like x y.
Proof. intros H Hx. specialize (H c). rewrite Hx in H. destruct (objs v' !! c) as [y|]; [|done]. by exists y. Qed.

Lemma walked_wf v v' V V' out flag : ovm_wf v -> stamps_left v ->
  walked (set_walk (visit_stamp v + 1) false v) v' (visit_stamp v + 1) V V' out flag -> ovm_wf v'.
Proof.
  intros Hwf Hst [Hg _ (_ & _ & Es & _) _ Hvis]. unfold stamps_left in Hst. change (same_graph v v') in Hg. split.
  - intros c y Hy. destruct (same_graph_inv v v' c y Hg Hy) as (x & Hx & Hxy). eapply same_graph_wf; [exact Hxy|]. by eapply (ow_obj v).
  - intros c y d Hy Hd. destruct (same_graph_inv v v' c y Hg Hy) as (x & Hx & Hxy). rewrite (proto_list_like _ _ Hxy) in Hd.
    destruct (ow_closed v Hwf c x d Hx Hd) as [z Hz]. destruct (same_graph_fwd v v' d z Hg Hz) as (z' & Hz' & _). by exists z'.
  - intros c y Hy. rewrite Es. cbn [visit_stamp set_walk]. destruct (Hvis c y Hy) as [->|(x & Hx & ->)]; [lia|].
    pose proof (ow_visit v Hwf c x Hx). lia.
Qed.

(** Resolution is the walk from the receiver, whatever the flagging. *)
Lemma resolve_spec o name fl v : ovm_wf v -> stamps_left v -> is_Some (objs v !! o) ->
  exists out V' v', walk (hitf v name) (succf v) (walk_fuel (objs v)) ∅ [o] = Some (out, V') /\
    uobj_resolve_impl o name fl v = Some (ref_of out, v') /\
    walked (set_walk (visit_stamp v + 1) false v) v' (visit_stamp v + 1) ∅ V' out (flags fl o out) /\ ovm_wf v'.
Proof.
  intros Hwf Hst Ho. destruct (walk_enough v (hitf v name) o Hwf) as [[out V'] Hw]; [intros c [x Hx]; unfold hitf; by rewrite Hx|done|].
  exists out, V'. unfold uobj_resolve_impl. rewrite next_stamp_eq by done. cbn [visit_stamp set_walk objs].
  destruct (resolve_loop_walk (visit_stamp v + 1) o name fl (walk_fuel (objs v)) [o] (set_walk (visit_stamp v + 1) false v) ∅ out V') as (v' & Hv' & Hk);
    [by apply fresh_stamp|exact Hw|].
  exists v'. split_and!; try done. by eapply walked_wf.
Qed.

Lemma is_a_spec o proto v : ovm_wf v -> stamps_left v -> is_Some (objs v !! o) ->
  exists out V' v', walk (hita v proto) (succf v) (walk_fuel (objs v)) ∅ [o] = Some (out, V') /\
    uobj_is_a o proto v = Some (bool_decide (is_Some (ref_of out)), v') /\
    walked (set_walk (visit_stamp v + 1) false v) v' (visit_stamp v + 1) ∅ V' out (fun _ => false) /\ ovm_wf v'.
Proof.
  intros Hwf Hst Ho. destruct (walk_enough v (hita v proto) o Hwf) as [[out V'] Hw]; [intros c [x Hx]; unfold hita; by rewrite Hx|done|].
  exists out, V'. unfold uobj_is_a. rewrite next_stamp_eq by done. cbn [visit_stamp set_walk objs].
  destruct (is_a_loop_walk (visit_stamp v + 1) proto (walk_fuel (objs v)) [o] (set_walk (visit_stamp v + 1) false v) ∅ out V') as (v' & Hv' & Hk);
    [by apply fresh_stamp|exact Hw|].
  exists v'. split_and!; try done. by eapply walked_wf.
Qed.

(** ** Slots: the lemmas *)

Definition slot_of (x : UObject) (name : nat) : option slot := k ← uobj_find_local x name; o_slots x !! k.

Lemma find_from_spec l name : forall i,
  match find_from i l name with
  | Some k => (i <= k)%nat /\ exists s, l !! (k - i)%nat = Some s /\ sl_name s = name
  | None => name ∉ sl_name <$> l
  end.
Proof.
  induction l as [|s l IH]; intros i; cbn [find_from]; [by intros ?%elem_of_nil|].
  destruct (decide (sl_name s = name)) as [E|E].
  - split; [lia|]. exists s. by rewrite Nat.sub_diag.
  - specialize (IH (S i)). destruct (find_from (S i) l name) as [k|].
    + destruct IH as (Hk & s' & Hs' & En). split; [lia|]. exists s'. split; [|done]. by replace (k - i)%nat with (S (k - S i)) by lia.
    + cbn. rewrite not_elem_of_cons. split; [congruence|done].
Qed.

Lemma find_local_spec x name :
  match uobj_find_local x name with
  | Some k => exists s, o_slots x !! k = Some s /\ sl_name s = name
  | None => name ∉ sl_name <$> o_slots x
  end.
Proof.
  unfold uobj_find_local. pose proof (find_from_spec (o_slots x) name 0) as H. destruct (find_from 0 _ _) as [k|]; [|done].
  destruct H as (_ & s & H & E). rewrite Nat.sub_0_r in H. by exists s.
Qed.

(** With unique names, the slot at a position is the one its name finds. *)
Lemma find_local_at x k s : NoDup (sl_name <$> o_slots x) -> o_slots x !! k = Some s -> uobj_find_local x (sl_name s) = Some k.
Proof.
  intros Hnd Hk. pose proof (find_local_spec x (sl_name s)) as H. destruct (uobj_find_local x (sl_name s)) as [j|].
  - destruct H as (t & Hj & E). f_equal. eapply (NoDup_lookup (sl_name <$> o_slots x)); [done|rewrite list_lookup_fmap, Hj; cbn; by rewrite E|by rewrite list_lookup_fmap, Hk].
  - exfalso. apply H. apply list_elem_of_fmap. exists s. split; [done|]. by eapply list_elem_of_lookup_2.
Qed.

Lemma slot_of_elem x s : NoDup (sl_name <$> o_slots x) -> s ∈ o_slots x <-> slot_of x (sl_name s) = Some s.
Proof.
  intros Hnd. unfold slot_of. split.
  - intros [k Hk]%list_elem_of_lookup. by rewrite (find_local_at x k s Hnd Hk).
  - intros H. destruct (uobj_find_local x (sl_name s)) as [k|]; [|done]. by eapply list_elem_of_lookup_2.
Qed.

Lemma slot_of_name x n s : slot_of x n = Some s -> s ∈ o_slots x /\ sl_name s = n.
Proof.
  unfold slot_of. pose proof (find_local_spec x n) as H. destruct (uobj_find_local x n) as [k|]; [|done]. cbn.
  destruct H as (t & Ht & E). rewrite Ht. intros [= <-]. split; [by eapply list_elem_of_lookup_2|done].
Qed.

(** Objects with the same slots, in whatever order, resolve alike. *)
Lemma slot_of_ext x y n : NoDup (sl_name <$> o_slots x) -> NoDup (sl_name <$> o_slots y) ->
  (forall s, sl_name s = n -> s ∈ o_slots x <-> s ∈ o_slots y) -> slot_of y n = slot_of x n.
Proof.
  intros Hx Hy H. destruct (slot_of x n) as [s|] eqn:E.
  - destruct (slot_of_name x n s E) as [Hs En]. apply (H s En) in Hs. apply (slot_of_elem y s Hy) in Hs. by rewrite En in Hs.
  - destruct (slot_of y n) as [s|] eqn:E'; [|done]. destruct (slot_of_name y n s E') as [Hs En]. apply (H s En) in Hs.
    apply (slot_of_elem x s Hx) in Hs. rewrite En in Hs. congruence.
Qed.

Lemma put_wf v o x y : ovm_wf v -> objs v !! o = Some x -> obj_wf y -> (forall d, d ∈ proto_list y -> is_Some (objs v !! d)) ->
  o_visit y = o_visit x -> ovm_wf (put_obj o y v).
Proof.
  intros Hwf Hx Hy Hd Hv. split; cbn [objs put_obj set_objs].
  - intros c z. destruct (decide (c = o)) as [->|]; [rewrite lookup_insert_eq; by intros [= <-]|rewrite lookup_insert_ne by done; by apply (ow_obj v)].
  - intros c z d Hz Hdz. rewrite lookup_insert_is_Some. destruct (decide (o = d)); [by left|right; split; [done|]].
    destruct (decide (c = o)) as [->|]; [rewrite lookup_insert_eq in Hz; injection Hz as <-; auto|].
    rewrite lookup_insert_ne in Hz by done. by eapply (ow_closed v).
  - intros c z. destruct (decide (c = o)) as [->|]; [rewrite lookup_insert_eq; intros [= <-]; rewrite Hv; by apply (ow_visit v Hwf o)|].
    rewrite lookup_insert_ne by done. by apply (ow_visit v).
Qed.

Lemma bump_objs v : objs (uobj_epoch_bump v) = objs v /\ visit_stamp (uobj_epoch_bump v) = visit_stamp v.
Proof. unfold uobj_epoch_bump. by destruct (_ =? 0). Qed.

Lemma same_objs_wf v v' : objs v' = objs v -> visit_stamp v' = visit_stamp v -> ovm_wf v -> ovm_wf v'.
Proof. intros E1 E2 [H1 H2 H3]. split; rewrite ?E1, ?E2; done. Qed.

Lemma bump_wf v : ovm_wf v -> ovm_wf (uobj_epoch_bump v).
Proof. destruct (bump_objs v). by apply same_objs_wf. Qed.
Lemma bump_if_wf x v : ovm_wf v -> ovm_wf (bump_if_cached x v).
Proof. unfold bump_if_cached. destruct (o_cached x); [apply bump_wf|done]. Qed.
Lemma bump_if_objs x v : objs (bump_if_cached x v) = objs v.
Proof. unfold bump_if_cached. destruct (o_cached x); [apply bump_objs|done]. Qed.

(** What writing slot [name] does to an object. *)
Record slot_written (x y : UObject) (name : nat) (s : slot) (k : nat) : Prop := {
  sw_at : o_slots y !! k = Some s;
  sw_find : uobj_find_local y name = Some k;
  sw_others : forall n, n <> name -> slot_of y n = slot_of x n;
  sw_protos : proto_list y = proto_list x;
  sw_kept : o_visit y = o_visit x /\ o_cached y = o_cached x }.

Lemma overwrite_slot x name k s0 s : obj_wf x -> o_slots x !! k = Some s0 -> sl_name s0 = name -> sl_name s = name ->
  obj_wf (set_slots (<[k := s]> (o_slots x)) x) /\ slot_written x (set_slots (<[k := s]> (o_slots x)) x) name s k /\
  sl_name <$> o_slots (set_slots (<[k := s]> (o_slots x)) x) = sl_name <$> o_slots x.
Proof.
  intros [H1 H2 H3 H4] Hk En0 En. pose proof (lookup_lt_Some _ _ _ Hk) as Hlt.
  assert (Hn : sl_name <$> <[k := s]> (o_slots x) = sl_name <$> o_slots x).
  { rewrite list_fmap_insert. apply list_insert_id. rewrite list_lookup_fmap, Hk. cbn. congruence. }
  assert (Hat : <[k := s]> (o_slots x) !! k = Some s) by by apply list_lookup_insert_eq.
  split; [|split; [|done]].
  - split; cbn [o_slots o_cap set_slots]; [exact H1|by rewrite Hn|done|]. unfold zlen in *. by rewrite length_insert.
  - split; try done.
    + rewrite <- En. apply find_local_at; [cbn; by rewrite Hn|done].
    + intros n Hne. apply slot_of_ext; [done|cbn; by rewrite Hn|]. intros t Ht. cbn [o_slots set_slots]. split.
      * intros Hin. apply list_elem_of_lookup in Hin as [j Hj]. assert (j <> k) by congruence.
        apply list_elem_of_lookup. exists j. by rewrite list_lookup_insert_ne.
      * intros Hin. apply list_elem_of_lookup in Hin as [j Hj]. destruct (decide (j = k)) as [->|]; [congruence|].
        rewrite list_lookup_insert_ne in Hj by done. by eapply list_elem_of_lookup_2.
Qed.

Lemma append_slot x name val a : obj_wf x -> uobj_find_local x name = None -> zlen (o_slots x) < o_cap x ->
  obj_wf (set_slots (o_slots x ++ [MkSlot name val a]) x) /\
  slot_written x (set_slots (o_slots x ++ [MkSlot name val a]) x) name (MkSlot name val a) (length (o_slots x)).
Proof.
  intros [H1 H2 H3 H4] Hf Hr. pose proof (find_local_spec x name) as Hn. rewrite Hf in Hn.
  assert (Hat : (o_slots x ++ [MkSlot name val a]) !! length (o_slots x) = Some (MkSlot name val a)) by by apply list_lookup_middle.
  assert (Hnd : NoDup (sl_name <$> (o_slots x ++ [MkSlot name val a]))).
  { rewrite fmap_app. apply NoDup_app. split_and!; [done| |apply NoDup_singleton]. intros n Hin ->%list_elem_of_singleton. by apply Hn. }
  split.
  - split; cbn [o_slots o_cap set_slots]; try done. rewrite zlen_app. unfold zlen at 2. cbn [length]. lia.
  - split; try done.
    + apply (find_local_at (set_slots _ x) _ (MkSlot name val a)); done.
    + intros n Hne. apply slot_of_ext; [done..|]. intros t Ht. cbn [o_slots set_slots]. rewrite elem_of_app, list_elem_of_singleton.
      split; [by left|]. intros [?| ->]; [done|]. cbn in Ht. congruence.
Qed.

Lemma grow_spec (ok : bool) x : cap_ok (o_cap x) -> zlen (o_slots x) = o_cap x ->
  if ok then
    (o_cap x < 2 ^ 15 -> exists c, uobj_grow true x = Some (Some (set_cap c x)) /\ o_cap x < c /\ cap_ok c) /\
    (o_cap x = 2 ^ 15 -> uobj_grow true x = None)
  else uobj_grow false x = Some None.
Proof.
  intros Hc Hl. unfold uobj_grow. destruct ok; cbn [negb]; [|done]. split.
  - intros Hlt. destruct (o_cap x =? 0) eqn:E; zbool.
    + exists 4. rewrite (proj2 (Z.leb_le _ _)) by (unfold UOBJ_INITIAL_CAP; lia). split; [done|]. split; [lia|]. right. exists 2. lia.
    + destruct Hc as [Hc|(k & Hk & Hc)]; [lia|]. assert (Hk' : k < 15) by (destruct (decide (k = 15)); [subst k|lia]; lia).
      assert (E2 : o_cap x * 2 = 2 ^ (k + 1)) by (rewrite Hc, Z.pow_add_r by lia; lia).
      assert (2 ^ (k + 1) <= 2 ^ 15) by (apply Z.pow_le_mono_r; lia).
      unfold u16. rewrite Z.mod_small by lia. exists (o_cap x * 2). rewrite (proj2 (Z.leb_le _ _)) by lia.
      split; [done|]. split; [lia|]. right. exists (k + 1). split; [lia|done].
  - intros E. rewrite Hl, E. reflexivity.
Qed.

Definition prop_attrs (attrs : Z) : bool := negb (Z.land attrs (Z.lor USLOT_GETTER USLOT_SETTER) =? 0).

(** The value a write leaves in the slot: itself, or a fresh property cell holding it. *)
Definition stores (cell : option nat) (val : UValue) (attrs : Z) (v' : ovm) (st : UValue) : Prop :=
  if prop_attrs attrs then exists c, cell = Some c /\ st = UV_CELL c /\ props v' !! c = Some val else st = val.

(** [v'] is [v] with object [o], formerly [x], replaced by [y]; if [o] was
    walked through by a cached lookup and its names or prototypes changed,
    the epoch moved on. *)
Record edited (v v' : ovm) (o : nat) (x y : UObject) : Prop := {
  ed_objs : objs v' = <[o := y]> (objs v);
  ed_stamp : visit_stamp v' = visit_stamp v;
  ed_epoch : slot_epoch v' = slot_epoch v \/ slot_epoch v' = slot_epoch (uobj_epoch_bump v);
  ed_bump : o_cached x = true -> slot_epoch v' = slot_epoch (uobj_epoch_bump v) \/
    (sl_name <$> o_slots y = sl_name <$> o_slots x /\ proto_list y = proto_list x /\ slot_epoch v' = slot_epoch v);
  ed_flag : o_cached y = o_cached x }.

Lemma bump_same v w : slot_epoch w = slot_epoch v -> slot_epoch (uobj_epoch_bump w) = slot_epoch (uobj_epoch_bump v).
Proof. intros E. unfold uobj_epoch_bump. rewrite E. by destruct (_ =? 0). Qed.

Lemma edited_bump v w o x y : slot_epoch w = slot_epoch v -> objs w = objs v -> visit_stamp w = visit_stamp v -> o_cached y = o_cached x ->
  edited v (bump_if_cached x (put_obj o y w)) o x y.
Proof.
  intros Ee Eo Es Ef. assert (Eb : slot_epoch (uobj_epoch_bump (put_obj o y w)) = slot_epoch (uobj_epoch_bump v)) by by apply bump_same.
  unfold bump_if_cached. destruct (o_cached x) eqn:Ec.
  - destruct (bump_objs (put_obj o y w)) as [B1 B2]. split; [rewrite B1; cbn; by rewrite Eo|rewrite B2; exact Es|by right|by left|congruence].
  - split; [cbn; by rewrite Eo|exact Es|by left|congruence|congruence].
Qed.

Lemma set_local_spec cell grow o name val attrs v x :
  ovm_wf v -> objs v !! o = Some x -> (zlen (o_slots x) = o_cap x -> o_cap x < 2 ^ 15) ->
  exists r v', uobj_set_local cell grow o name val attrs v = Some (r, v') /\ ovm_wf v' /\
    match r with
    | None => objs v' = objs v /\ slot_epoch v' = slot_epoch v
    | Some k => exists y st a, edited v v' o x y /\ slot_written x y name (MkSlot name st a) k /\ stores cell val attrs v' st /\
        a = match slot_of x name with Some s => u8 (Z.lor attrs (Z.land (sl_attrs s) USLOT_CHANGED_EVENT)) | None => attrs end
    end.
Proof.
  intros Hwf Hx Hroom. pose proof (ow_obj v Hwf o x Hx) as Hox. unfold uobj_set_local. fold (prop_attrs attrs).
  assert (Hst : exists r : option (UValue * ovm), (if prop_attrs attrs then match cell with None => None | Some c => Some (UV_CELL c, set_props (<[c := val]> (props v)) v) end
      else Some (val, v)) = r /\ match r with None => True | Some (st, w) => objs w = objs v /\ visit_stamp w = visit_stamp v /\
        slot_epoch w = slot_epoch v /\ stores cell val attrs w st end).
  { eexists. split; [done|]. unfold stores. destruct (prop_attrs attrs); [|done]. destruct cell as [c|]; [|done].
    split_and!; try done. exists c. cbn. by rewrite lookup_insert_eq. }
  destruct Hst as (r & -> & Hr). destruct r as [[st w]|]; [|by exists None, v].
  destruct Hr as (Eo & Es & Ee & Hst). rewrite Eo, Hx. cbn [mbind option_bind].
  assert (Hww : ovm_wf w) by by apply (same_objs_wf v). assert (Hxw : objs w !! o = Some x) by by rewrite Eo.
  assert (Hput : forall y, obj_wf y -> proto_list y = proto_list x -> o_visit y = o_visit x -> ovm_wf (put_obj o y w)).
  { intros y Hy Hp Hv. eapply put_wf; try done. intros d Hd. rewrite Hp in Hd. by eapply (ow_closed w). }
  assert (Hsto : forall w' : ovm, props w' = props w -> stores cell val attrs w' st) by (intros w' E; unfold stores in *; by rewrite E).
  pose proof (find_local_spec x name) as Hf. unfold slot_of. destruct (uobj_find_local x name) as [k|] eqn:Hk.
  - destruct Hf as (s0 & Hs0 & En). rewrite Hs0. cbn [mbind option_bind].
    set (now := u8 _). set (s := MkSlot (sl_name s0) st now).
    destruct (overwrite_slot x name k s0 s Hox Hs0 En En) as (Hyw & Hsw & Hnames). set (y := set_slots _ x) in *.
    exists (Some k), (if negb (now =? sl_attrs s0) && o_cached x then uobj_epoch_bump (put_obj o y w) else put_obj o y w).
    split; [done|]. assert (Hpw : ovm_wf (put_obj o y w)) by (by apply Hput). split; [destruct (_ && _); [by apply bump_wf|done]|].
    exists y, st, now. unfold s in Hsw. rewrite En in Hsw. split_and!; try done.
    + destruct (edited_bump v w o x y Ee Eo Es eq_refl) as [D1 D2 D3 D4 D5].
      assert (Eb : slot_epoch (uobj_epoch_bump (put_obj o y w)) = slot_epoch (uobj_epoch_bump v)) by by apply bump_same.
      destruct (bump_objs (put_obj o y w)) as [B1 B2].
      destruct (negb (now =? sl_attrs s0) && o_cached x).
      * split; [rewrite B1; cbn; by rewrite Eo|rewrite B2; exact Es|by right|by left|done].
      * split; [cbn; by rewrite Eo|exact Es|by left|by intros _; right|done].
    + apply Hsto. destruct (_ && _); [|done]. unfold uobj_epoch_bump. by destruct (_ =? 0).
    + cbn [mbind option_bind]. by rewrite Hs0.
  - destruct (zlen (o_slots x) =? o_cap x) eqn:Hfull; zbool.
    + pose proof (grow_spec grow x (wf_cap x Hox) Hfull) as Hg. destruct grow.
      * destruct Hg as [Hg _]. destruct (Hg (Hroom Hfull)) as (c & -> & Hc & Hcok). cbn [mbind option_bind].
        change (o_slots (set_cap c x)) with (o_slots x). cbn [o_cap set_cap]. rewrite (proj2 (Z.ltb_lt _ _)) by lia.
        assert (Hxc : obj_wf (set_cap c x)) by (destruct Hox; split; cbn; try done; lia).
        destruct (append_slot (set_cap c x) name st attrs Hxc Hk) as [Hyw Hsw]; [cbn; lia|]. set (y := set_slots _ _) in *.
        eexists (Some _), _. split; [reflexivity|]. split; [apply bump_if_wf; by apply Hput|]. exists y, st, attrs. split_and!; try done.
        { exact (edited_bump v w o x y Ee Eo Es eq_refl). }
        { destruct Hsw as [S1 S2 S3 S4 S5]. by split. }
        { apply Hsto. unfold bump_if_cached. cbn. destruct (o_cached x); [|done]. unfold uobj_epoch_bump. by destruct (_ =? 0). }
      * rewrite Hg. cbn [mbind option_bind]. by exists None, w.
    + cbn [mbind option_bind]. pose proof (wf_room x Hox). rewrite (proj2 (Z.ltb_lt _ _)) by lia.
      destruct (append_slot x name st attrs Hox Hk) as [Hyw Hsw]; [lia|]. set (y := set_slots _ _) in *.
      eexists (Some _), _. split; [reflexivity|]. split; [apply bump_if_wf; by apply Hput|]. exists y, st, attrs. split_and!; try done.
      { exact (edited_bump v w o x y Ee Eo Es eq_refl). }
      { apply Hsto. unfold bump_if_cached. destruct (o_cached x); [|done]. unfold uobj_epoch_bump. by destruct (_ =? 0). }
Qed.

(** [l] with entry [i] overwritten by the last one and the last one dropped. *)
Lemma swap_out {T} (l : list T) i x s : l !! i = Some x -> l !! (length l - 1)%nat = Some s ->
  l ≡ₚ x :: take (length l - 1) (if (i =? length l - 1)%nat then l else <[i := s]> l).
Proof.
  intros Hi Hs. pose proof (lookup_lt_Some _ _ _ Hi) as Hlt.
  assert (El : l = take (length l - 1) l ++ [s]).
  { rewrite <- (take_drop_middle l (length l - 1) s Hs) at 1. f_equal. rewrite drop_ge by lia. done. }
  destruct (i =? length l - 1)%nat eqn:E; [apply Nat.eqb_eq in E|apply Nat.eqb_neq in E].
  - rewrite E, Hs in Hi. injection Hi as <-. rewrite El at 1. symmetry. apply Permutation_cons_append.
  - assert (Hn : (i < length l - 1)%nat) by lia. rewrite take_insert_lt by lia.
    assert (Hi' : take (length l - 1) l !! i = Some x) by (rewrite lookup_take_lt by lia; done).
    pose proof (take_drop_middle _ _ _ Hi') as Ht. rewrite El at 1. remember (take (length l - 1) l) as k eqn:Ek.
    rewrite insert_take_drop by (by eapply lookup_lt_Some). rewrite <- Ht at 1. rewrite <- !app_assoc. cbn [app].
    rewrite <- Permutation_middle. constructor. rewrite Permutation_app_comm. cbn [app]. rewrite <- app_assoc. cbn [app].
    rewrite <- Permutation_middle, <- (Permutation_middle (take i k)). constructor. apply Permutation_app_comm.
Qed.

Lemma remove_local_spec o name v x : ovm_wf v -> objs v !! o = Some x ->
  if decide (slot_of x name = None) then uobj_remove_local o name v = Some (false, v)
  else exists v' y, uobj_remove_local o name v = Some (true, v') /\ ovm_wf v' /\ edited v v' o x y /\
    slot_of y name = None /\ (forall n, n <> name -> slot_of y n = slot_of x n) /\ proto_list y = proto_list x.
Proof.
  intros Hwf Hx. pose proof (ow_obj v Hwf o x Hx) as Hox. unfold uobj_remove_local. rewrite Hx. cbn [mbind option_bind].
  pose proof (find_local_spec x name) as Hf.
  destruct (decide (slot_of x name = None)) as [Hn|Hn]; unfold slot_of in Hn; destruct (uobj_find_local x name) as [k|] eqn:Hk; try done.
  { destruct Hf as (s0 & Hs0 & _). cbn [mbind option_bind] in Hn. congruence. }
  destruct Hf as (s0 & Hs0 & En). clear Hn.
  pose proof (lookup_lt_Some _ _ _ Hs0) as Hlt. destruct (lookup_lt_is_Some_2 (o_slots x) (length (o_slots x) - 1)) as [s Hs]; [lia|].
  rewrite Hs. cbn [mbind option_bind]. pose proof (swap_out _ _ _ _ Hs0 Hs) as Hperm. set (l := take _ _) in *. set (y := set_slots l x).
  assert (Hnd : NoDup (sl_name <$> o_slots x)) by apply (wf_names x Hox).
  assert (Hnl : NoDup (name :: (sl_name <$> l))) by (rewrite Hperm in Hnd; cbn in Hnd; by rewrite En in Hnd).
  apply NoDup_cons in Hnl as [Hnn Hnl].
  assert (Hy : obj_wf y).
  { destruct Hox as [H1 H2 H3 H4]. split; cbn [o_slots o_cap y set_slots]; try done.
    apply Permutation_length in Hperm. unfold zlen in *. cbn [length] in Hperm. lia. }
  eexists _, y. split; [reflexivity|]. split_and!.
  - apply bump_if_wf. eapply put_wf; try done. intros d Hd. by eapply (ow_closed v).
  - by apply edited_bump.
  - destruct (slot_of y name) as [t|] eqn:Et; [|done]. apply slot_of_name in Et as [Ht Ent]. exfalso. apply Hnn.
    apply list_elem_of_fmap. by exists t.
  - intros n Hne. apply slot_of_ext; [done..|]. intros t Ht. cbn [o_slots y set_slots]. rewrite Hperm, elem_of_cons.
    split; [|by right]. intros [->|?]; [congruence|done].
  - done.
Qed.

(** ** Prototypes: the lemmas *)

Lemma proto_list_array x ps : 2 <= o_nprotos x -> o_protos x = Some ps -> zlen ps = o_nprotos x -> proto_list x = ps.
Proof.
  intros Hn Hp Hl. unfold proto_list. rewrite (proj2 (Z.eqb_neq _ _)) by lia. rewrite Hp. cbn [default].
  apply take_ge. unfold zlen in Hl. lia.
Qed.

Lemma set_list_wf x n p0 ps : obj_wf x -> protos_wf (set_proto_list n p0 ps x) -> obj_wf (set_proto_list n p0 ps x).
Proof. intros [H1 H2 H3 H4] Hp. by split. Qed.

Lemma protos_edit v o x y : ovm_wf v -> objs v !! o = Some x -> obj_wf y -> (forall d, d ∈ proto_list y -> is_Some (objs v !! d)) ->
  o_visit y = o_visit x -> o_cached y = o_cached x ->
  ovm_wf (bump_if_cached x (put_obj o y v)) /\ edited v (bump_if_cached x (put_obj o y v)) o x y.
Proof. intros Hwf Hx Hy Hd Hv Hc. split; [apply bump_if_wf; by eapply put_wf|by apply edited_bump]. Qed.

Lemma add_proto_spec ok o p v x : ovm_wf v -> objs v !! o = Some x -> is_Some (objs v !! p) -> o_nprotos x < 65535 ->
  (ok = false -> o_nprotos x <> 0 -> uobj_add_proto ok o p v = Some (-1, v)) /\
  (ok = true \/ o_nprotos x = 0 ->
   exists v' y, uobj_add_proto ok o p v = Some (0, v') /\ ovm_wf v' /\ edited v v' o x y /\
     proto_list y = p :: proto_list x /\ o_slots y = o_slots x).
Proof.
  intros Hwf Hx Hp Hlt. pose proof (ow_obj v Hwf o x Hx) as Hox. pose proof (wf_protos x Hox) as Hpw. unfold uobj_add_proto. rewrite Hx. cbn [mbind option_bind].
  assert (Hcl : forall d, d ∈ proto_list x -> is_Some (objs v !! d)) by (intros d Hd; by eapply (ow_closed v)). split.
  - intros -> Hn. rewrite (proj2 (Z.eqb_neq _ _)) by done. by destruct (o_nprotos x =? 1).
  - intros Hok. destruct Hpw as [(H0 & H1 & H2)|[(H0 & [p0 H1] & H2)|(H0 & ps & H1 & H2 & H3)]].
    + rewrite (proj2 (Z.eqb_eq (o_nprotos x) 0)) by done. set (y := set_proto_list 1 (Some p) (o_protos x) x).
      destruct (protos_edit v o x y Hwf Hx) as [A B]; try done.
      { apply set_list_wf; [done|]. right. left. cbn. by rewrite H2. }
      { intros d Hd%list_elem_of_singleton. by subst d. }
      exists (bump_if_cached x (put_obj o y v)), y. split_and!; try done. cbn. unfold proto_list at 1. by rewrite H0, H2.
    + destruct Hok as [-> |]; [|lia]. rewrite H0. cbn [Z.eqb negb]. rewrite H1. cbn [mbind option_bind]. set (y := set_proto_list 2 _ _ x).
      assert (Hl : proto_list x = [p0]) by (unfold proto_list; by rewrite H0, H1).
      destruct (protos_edit v o x y Hwf Hx) as [A B]; try done.
      { apply set_list_wf; [done|]. right. right. cbn. split; [lia|]. by exists [p; p0]. }
      { change (proto_list y) with [p; p0]. intros d [->|Hd]%elem_of_cons; [done|]. apply Hcl. by rewrite Hl. }
      exists (bump_if_cached x (put_obj o y v)), y. split_and!; try done. by rewrite Hl.
    + destruct Hok as [-> |]; [|lia]. rewrite !(proj2 (Z.eqb_neq _ _)) by lia. cbn [negb]. rewrite H1. cbn [mbind option_bind].
      rewrite take_ge by (unfold zlen in H2; lia). unfold u16. rewrite Z.mod_small by lia. set (y := set_proto_list _ _ _ x).
      assert (Hl : proto_list x = ps) by (apply proto_list_array; [lia|done..]).
      assert (Hly : proto_list y = p :: ps) by (apply proto_list_array; cbn; [lia|done|unfold zlen in *; cbn [length]; lia]).
      destruct (protos_edit v o x y Hwf Hx) as [A B]; try done.
      { apply set_list_wf; [done|]. right. right. cbn. split; [lia|]. exists (p :: ps). split_and!; try done. unfold zlen in *. cbn [length]. lia. }
      { rewrite Hly. intros d [->|Hd]%elem_of_cons; [done|]. apply Hcl. by rewrite Hl. }
      exists (bump_if_cached x (put_obj o y v)), y. split_and!; try done. by rewrite Hly, Hl.
Qed.

Lemma index_of_spec p l : match index_of p l with Some i => l !! i = Some p | None => p ∉ l end.
Proof.
  induction l as [|q l IH]; cbn [index_of]; [by intros ?%elem_of_nil|]. destruct (decide (q = p)) as [->|]; [done|].
  destruct (index_of p l); [done|]. cbn [fmap option_fmap option_map]. apply not_elem_of_cons; split; congruence.
Qed.

Lemma remove_proto_spec o p v x : ovm_wf v -> objs v !! o = Some x ->
  if decide (p ∈ proto_list x) then
    exists v' y, uobj_remove_proto o p v = Some (0, v') /\ ovm_wf v' /\ edited v v' o x y /\
      proto_list x ≡ₚ p :: proto_list y /\ o_slots y = o_slots x
  else uobj_remove_proto o p v = Some (-1, v).
Proof.
  intros Hwf Hx. pose proof (ow_obj v Hwf o x Hx) as Hox. pose proof (wf_protos x Hox) as Hpw. unfold uobj_remove_proto. rewrite Hx. cbn [mbind option_bind].
  assert (Hcl : forall d, d ∈ proto_list x -> is_Some (objs v !! d)) by (intros d Hd; by eapply (ow_closed v)).
  destruct Hpw as [(H0 & H1 & H2)|[(H0 & [p0 H1] & H2)|(H0 & ps & H1 & H2 & H3)]].
  - rewrite decide_False; [by rewrite H0|]. unfold proto_list. rewrite H0, H2. cbn. by intros ?%elem_of_nil.
  - assert (Hl : proto_list x = [p0]) by (unfold proto_list; by rewrite H0, H1). rewrite Hl, H0, H1. cbn [Z.eqb Z.leb andb].
    destruct (decide (p ∈ [p0])) as [Hp|Hp]; rewrite list_elem_of_singleton in Hp.
    + subst p. rewrite bool_decide_eq_true_2 by done. set (y := set_proto_list 0 None (o_protos x) x).
      assert (Hly : proto_list y = []) by (unfold proto_list; cbn; by rewrite H2).
      destruct (protos_edit v o x y Hwf Hx) as [A B]; try done.
      { apply set_list_wf; [done|]. left. by rewrite H2. }
      { rewrite Hly. by intros d ?%elem_of_nil. }
      exists (bump_if_cached x (put_obj o y v)), y. split_and!; try done.
    + rewrite bool_decide_eq_false_2 by congruence. done.
  - assert (Hl : proto_list x = ps) by (apply proto_list_array; [lia|done..]). rewrite Hl.
    rewrite (proj2 (Z.eqb_neq (o_nprotos x) 1)) by lia. cbn [andb]. rewrite (proj2 (Z.leb_gt _ _)) by lia. rewrite H1. cbn [mbind option_bind].
    rewrite take_ge by (unfold zlen in H2; lia). pose proof (index_of_spec p ps) as Hi. destruct (index_of p ps) as [i|].
    2:{ by rewrite decide_False. }
    rewrite decide_True by (by eapply list_elem_of_lookup_2). unfold u16. rewrite Z.mod_small by lia.
    pose proof (lookup_lt_Some _ _ _ Hi) as Hlt. assert (Hlen : Z.to_nat (o_nprotos x) = length ps) by (unfold zlen in H2; lia).
    destruct (o_nprotos x - 1 <=? 1) eqn:Hn; zbool.
    + destruct ps as [|a [|b [|c ps]]]; unfold zlen in *; cbn [length] in *; try lia.
      assert (Hq : exists q, [a; b] !! (if (i =? 0)%nat then 1%nat else 0%nat) = Some q /\ [a; b] ≡ₚ [p; q]).
      { destruct i as [|[|i]]; [|..|cbn in *; lia]; cbn in Hi; injection Hi as <-; cbn [Nat.eqb]; eexists; split; try done. constructor. }
      destruct Hq as (q & Hq & Hpq). rewrite Hq. cbn [mbind option_bind]. set (y := set_proto_list 1 (Some q) None x).
      destruct (protos_edit v o x y Hwf Hx) as [A B]; try done.
      { apply set_list_wf; [done|]. right. left. by split_and!. }
      { change (proto_list y) with [q]. intros d ->%list_elem_of_singleton. apply Hcl. rewrite Hl, Hpq. right. left. }
      by exists (bump_if_cached x (put_obj o y v)), y.
    + assert (Hn2 : Z.to_nat (o_nprotos x - 1) = (length ps - 1)%nat) by lia. rewrite Hn2.
      destruct (lookup_lt_is_Some_2 ps (length ps - 1)) as [s Hs]; [lia|]. rewrite Hs. cbn [mbind option_bind].
      destruct (lookup_lt_is_Some_2 (<[i := s]> ps) 0) as [p0 Hp0]; [rewrite length_insert; lia|]. rewrite Hp0. cbn [mbind option_bind].
      pose proof (swap_out ps i p s Hi Hs) as Hperm. assert (Hsame : (if (i =? length ps - 1)%nat then ps else <[i := s]> ps) = <[i := s]> ps).
      { destruct (i =? length ps - 1)%nat eqn:E; [|done]. apply Nat.eqb_eq in E. subst i. symmetry. by apply list_insert_id. }
      rewrite Hsame in Hperm. set (l := take (length ps - 1) (<[i := s]> ps)) in *. set (y := set_proto_list _ _ _ x).
      pose proof (Permutation_length Hperm) as Hpl. cbn [length] in Hpl. unfold zlen in *.
      assert (Hly : proto_list y = l) by (apply proto_list_array; cbn; [lia|done|unfold zlen; lia]).
      destruct (protos_edit v o x y Hwf Hx) as [A B]; try done.
      { apply set_list_wf; [done|]. right. right. cbn. split; [lia|]. exists l. split_and!; [done|unfold zlen; lia|].
        unfold l. destruct (<[i := s]> ps) as [|z zs]; [done|]. cbn in Hp0. injection Hp0 as ->. destruct (length ps - 1)%nat eqn:E; [lia|done]. }
      { rewrite Hly. intros d Hd. apply Hcl. rewrite Hl, Hperm. by right. }
      exists (bump_if_cached x (put_obj o y v)), y. split_and!; try done. by rewrite Hly.
Qed.

Lemma set_protos_spec ok o ps v x : ovm_wf v -> objs v !! o = Some x -> (forall p, p ∈ ps -> is_Some (objs v !! p)) -> zlen ps < 2 ^ 16 ->
  (ok = false -> 2 <= zlen ps -> uobj_set_protos ok o ps v = Some (-1, v)) /\
  (ok = true \/ zlen ps <= 1 ->
   exists v' y, uobj_set_protos ok o ps v = Some (0, v') /\ ovm_wf v' /\ edited v v' o x y /\ proto_list y = ps /\ o_slots y = o_slots x).
Proof.
  intros Hwf Hx Hps Hlen. pose proof (ow_obj v Hwf o x Hx) as Hox. unfold uobj_set_protos. rewrite Hx. cbn [mbind option_bind]. split.
  - intros -> Hn. rewrite (proj2 (Z.leb_gt _ _)) by lia. done.
  - intros Hok. destruct (zlen ps <=? 1) eqn:Hn; zbool.
    + set (y := set_proto_list _ _ _ x).
      assert (Hly : proto_list y = ps /\ protos_wf y).
      { destruct ps as [|a [|b ps]]; [| |exfalso; unfold zlen in Hn; cbn [length] in Hn; lia].
        - split; [done|]. by left.
        - split; [done|]. right. left. by split_and!. }
      destruct Hly as [Hly Hpy]. destruct (protos_edit v o x y Hwf Hx) as [A B]; try done; [by apply set_list_wf|by rewrite Hly|].
      by exists (bump_if_cached x (put_obj o y v)), y.
    + destruct Hok as [-> |]; [|lia]. cbn [negb]. set (y := set_proto_list _ _ _ x).
      assert (Hly : proto_list y = ps) by (apply proto_list_array; cbn; [lia|done..]).
      destruct (protos_edit v o x y Hwf Hx) as [A B]; try done; [|by rewrite Hly|].
      { apply set_list_wf; [done|]. right. right. cbn. split; [lia|]. by exists ps. }
      by exists (bump_if_cached x (put_obj o y v)), y.
Qed.

(** ** The cache: soundness of an entry *)

(** An entry for [name] is sound when, if its epoch is current and it names
    an inherited slot, the walk from its receiver still ends there, having
    searched only objects whose edits move the epoch on. *)
Record entry_sound (v : ovm) (name : nat) (e : USlotCache) : Prop := {
  es_past : 0 <= c_epoch e <= slot_epoch v;
  es_owner : c_recv e <> None -> is_Some (c_owner e);
  es_walk : forall recv owner, c_recv e = Some recv -> c_owner e = Some owner -> owner <> recv -> c_epoch e = slot_epoch v ->
    exists fuel V' i, walk (hitf v name) (succf v) fuel ∅ [recv] = Some (Found owner i, V') /\ c_index e = Z.of_nat i /\
      forall c x, c ∈ V' -> objs v !! c = Some x -> o_cached x = true }.

(** The epoch has not come round. *)
Definition epochs_left (v : ovm) : Prop := 0 < slot_epoch v < 2 ^ 32 - 1.

Lemma bump_epoch v : epochs_left v -> slot_epoch (uobj_epoch_bump v) = slot_epoch v + 1.
Proof.
  unfold epochs_left. intros H. unfold uobj_epoch_bump, u32. rewrite Z.mod_small by lia. rewrite (proj2 (Z.eqb_neq _ _)) by lia. done.
Qed.

Lemma empty_sound v name : 0 <= slot_epoch v -> entry_sound v name empty_entry.
Proof. intros H. split; [cbn; lia|by intros ?|done]. Qed.

(** An entry from an earlier epoch is sound whatever the objects are. *)
Lemma stale_sound v v' name e : entry_sound v name e -> slot_epoch v < slot_epoch v' -> entry_sound v' name e.
Proof. intros [H1 H2 H3] Hlt. split; [lia|done|]. intros recv owner _ _ _ E. lia. Qed.

Lemma find_from_names l l' name : sl_name <$> l = sl_name <$> l' -> forall i, find_from i l name = find_from i l' name.
Proof.
  revert l'. induction l as [|s l IH]; intros [|s' l'] E i; cbn in E; try done. injection E as E1 E2. cbn [find_from]. rewrite E1. by rewrite (IH l').
Qed.

Lemma walk_exists v name fuel V st out V' c : walk (hitf v name) (succf v) fuel V st = Some (out, V') -> c ∈ V' -> c ∉ V -> is_Some (objs v !! c).
Proof.
  intros H Hc Hn. assert (Hh : is_Some (hitf v name c)).
  { destruct (walk_passed _ _ _ _ _ _ _ _ H Hc Hn) as [->|[i ->]]; [done|]. apply walk_found in H as (-> & _). done. }
  unfold hitf in Hh. destruct (objs v !! c); [done|by destruct Hh].
Qed.

(** An entry survives a change that keeps the objects its walk searched. *)
Lemma kept_sound v v' name e : entry_sound v name e -> slot_epoch v' = slot_epoch v ->
  (forall c x, objs v !! c = Some x -> o_cached x = true -> hitf v' name c = hitf v name c /\ succf v' c = succf v c /\
     exists y, objs v' !! c = Some y /\ o_cached y = true) ->
  entry_sound v' name e.
Proof.
  intros [H1 H2 H3] Ee Hk. split; [lia|done|]. intros recv owner Hr Ho Hne E. rewrite Ee in E.
  destruct (H3 recv owner Hr Ho Hne E) as (fuel & V' & i & Hw & Hi & Hc). exists fuel, V', i.
  assert (Hall : forall c, c ∈ V' -> exists x, objs v !! c = Some x /\ o_cached x = true).
  { intros c Hin. destruct (walk_exists v name _ _ _ _ _ c Hw Hin ltac:(set_solver)) as [x Hx]. exists x. split; [done|by apply (Hc c)]. }
  split_and!; [|done|].
  - eapply walk_local; [exact Hw|]. intros c Hin. destruct (Hall c Hin) as (x & Hx & Hcx). destruct (Hk c x Hx Hcx) as (? & ? & _). done.
  - intros c y Hin Hy. destruct (Hall c Hin) as (x & Hx & Hcx). destruct (Hk c x Hx Hcx) as (_ & _ & y' & Hy' & ?). congruence.
Qed.

Lemma edited_sound v v' o x y name e : entry_sound v name e -> objs v !! o = Some x -> edited v v' o x y -> epochs_left v -> entry_sound v' name e.
Proof.
  intros He Hx [Eo Es Ee Eb Ef] Hep.
  assert (Hbump : slot_epoch v' = slot_epoch (uobj_epoch_bump v) -> entry_sound v' name e).
  { intros E. eapply stale_sound; [exact He|]. rewrite E, bump_epoch by done. lia. }
  assert (Hlook : forall c, objs v' !! c = if decide (c = o) then Some y else objs v !! c).
  { intros c. rewrite Eo. case_decide; [subst; by rewrite lookup_insert_eq|by rewrite lookup_insert_ne]. }
  destruct (o_cached x) eqn:Hcx.
  - destruct (Eb eq_refl) as [?|(En & Ep & Ev)]; [by apply Hbump|]. apply (kept_sound v); [done..|].
    intros c z Hz Hcz. unfold hitf, succf. rewrite Hlook. destruct (decide (c = o)) as [->|]; [|rewrite Hz; split_and!; try done; by exists z].
    rewrite Hx. cbn [fmap option_fmap option_map]. unfold uobj_find_local. rewrite (find_from_names _ _ name En).
    split_and!; [done|done|]. exists y. split; [done|congruence].
  - destruct Ee as [Ee|Ee]; [|by apply Hbump]. apply (kept_sound v); [done..|]. intros c z Hz Hcz.
    assert (c <> o) by congruence. unfold hitf, succf. rewrite Hlook, decide_False by done. split_and!; try done. by exists z.
Qed.

Lemma graph_sound v v' name e : entry_sound v name e -> same_graph v v' -> slot_epoch v' = slot_epoch v -> entry_sound v' name e.
Proof.
  intros He Hg Ee. apply (kept_sound v); [done..|]. intros c x Hx Hcx. rewrite (same_graph_hitf v), (same_graph_succf v) by done.
  destruct (same_graph_fwd v v' c x Hg Hx) as (y & Hy & (_ & _ & _ & _ & _ & E)). split_and!; try done. exists y. auto.
Qed.

(** ** Reading through the cache *)

Lemma walk_same hit succ f1 f2 V st r1 r2 : walk hit succ f1 V st = Some r1 -> walk hit succ f2 V st = Some r2 -> r1 = r2.
Proof.
  intros H1 H2. destruct (Nat.le_ge_cases f1 f2) as [Hle|Hle].
  - pose proof (walk_fuel_more _ _ _ _ _ _ _ H1 Hle). congruence.
  - pose proof (walk_fuel_more _ _ _ _ _ _ _ H2 Hle). congruence.
Qed.

Lemma walk_own v name recv i fuel : hitf v name recv = Some (Some i) ->
  walk (hitf v name) (succf v) (S fuel) ∅ [recv] = Some (Found recv i, {[recv]} ∪ ∅).
Proof. intros H. cbn [walk]. rewrite H. cbn [mbind option_bind]. by rewrite decide_False by set_solver. Qed.

(** A hit is what the walk would find. *)
Lemma hit_sound v e recv name x : ovm_wf v -> entry_sound v name e -> objs v !! recv = Some x ->
  exists b, uslotcache_hit v e recv name = Some b /\
    (b = true -> exists owner i, c_owner e = Some owner /\ Z.to_nat (c_index e) = i /\ hitf v name owner = Some (Some i) /\
       exists fuel V', walk (hitf v name) (succf v) fuel ∅ [recv] = Some (Found owner i, V')).
Proof.
  intros Hwf He Hx. unfold uslotcache_hit. destruct (bool_decide (c_recv e = Some recv)) eqn:Hr; cbn [negb]; [|by exists false].
  apply bool_decide_eq_true in Hr. destruct (bool_decide (c_owner e = Some recv)) eqn:Ho.
  - apply bool_decide_eq_true in Ho. rewrite Hx. cbn [mbind option_bind]. eexists. split; [reflexivity|]. intros [Hlt Hn]%andb_prop.
    apply bool_decide_eq_true in Hn. apply fmap_Some in Hn as (s & Hs & En).
    assert (Hf : hitf v name recv = Some (Some (Z.to_nat (c_index e)))).
    { unfold hitf. rewrite Hx. cbn [fmap option_fmap option_map]. f_equal. rewrite En. apply find_local_at; [|done]. apply (wf_names x). by apply (ow_obj v Hwf recv). }
    exists recv, (Z.to_nat (c_index e)). split_and!; try done. exists 1%nat, ({[recv]} ∪ ∅). by apply walk_own.
  - apply bool_decide_eq_false in Ho. eexists. split; [reflexivity|]. intros Hep. apply Z.eqb_eq in Hep.
    destruct (es_owner _ _ _ He) as [owner Hown]; [by rewrite Hr|]. assert (Hne : owner <> recv) by congruence.
    destruct (es_walk _ _ _ He recv owner Hr Hown Hne Hep) as (fuel & V' & i & Hw & Hi & _).
    exists owner, i. split_and!; [done|rewrite Hi; lia|by apply walk_found in Hw as (? & _)|]. by exists fuel, V'.
Qed.

Lemma hitf_slot v name c i : hitf v name c = Some (Some i) -> exists x s, objs v !! c = Some x /\ o_slots x !! i = Some s /\ sl_name s = name.
Proof.
  unfold hitf. destruct (objs v !! c) as [x|]; [|done]. cbn. intros [= H]. pose proof (find_local_spec x name) as Hf. rewrite H in Hf.
  destruct Hf as (s & Hs & E). by exists x, s.
Qed.

Lemma index_fits v name c i : ovm_wf v -> hitf v name c = Some (Some i) -> u16 (Z.of_nat i) = Z.of_nat i.
Proof.
  intros Hwf Hh. destruct (hitf_slot _ _ _ _ Hh) as (x & s & Hx & Hs & _). apply lookup_lt_Some in Hs.
  pose proof (ow_obj v Hwf c x Hx) as [_ _ Hcap Hroom]. assert (o_cap x <= 2 ^ 15).
  { destruct Hcap as [->|(k & Hk & ->)]; [lia|]. apply Z.pow_le_mono_r; lia. }
  unfold u16, zlen in *. apply Z.mod_small. lia.
Qed.

Lemma site_read_spec v e recv name : ovm_wf v -> stamps_left v -> 0 <= slot_epoch v -> entry_sound v name e -> is_Some (objs v !! recv) ->
  exists r e' v' vr, site_read e recv name v = Some (r, e', v') /\ uobj_resolve recv name v = Some (r, vr) /\
    ovm_wf v' /\ same_graph v v' /\ slot_epoch v' = slot_epoch v /\ entry_sound v' name e' /\ visit_stamp v' <= visit_stamp v + 1.
Proof.
  intros Hwf Hst Hep He [x Hx]. destruct (resolve_spec recv name false v Hwf Hst) as (out & V' & vr & Hw & Hres & _ & _); [by exists x|].
  destruct (resolve_spec recv name true v Hwf Hst) as (out2 & V2 & v2 & Hw2 & Hres2 & Hwk & Hwf2); [by exists x|].
  rewrite Hw in Hw2. injection Hw2 as <- <-. unfold site_read, slot_get.
  destruct (hit_sound v e recv name x Hwf He Hx) as (b & -> & Hb). cbn [mbind option_bind].
  assert (Hslow : exists r e' v' vr, ('(r, v) ← uobj_resolve_flagging recv name v;
      match r with
      | None => Some (None, e, v)
      | Some ref =>
          let '(e, v) := if decide (r_owner ref = recv) then uslotcache_fill_own recv (u16 (Z.of_nat (r_index ref))) v
                         else uslotcache_fill_inherited recv ref v in
          Some (Some ref, e, v)
      end) = Some (r, e', v') /\ uobj_resolve recv name v = Some (r, vr) /\
    ovm_wf v' /\ same_graph v v' /\ slot_epoch v' = slot_epoch v /\ entry_sound v' name e' /\ visit_stamp v' <= visit_stamp v + 1).
  { unfold uobj_resolve_flagging. rewrite Hres2. cbn [mbind option_bind].
    destruct Hwk as [Hg _ (_ & _ & Evs & Eep & _) Hcach _]. change (same_graph v v2) in Hg. cbn [slot_epoch visit_stamp set_walk] in Eep, Evs.
    destruct out as [owner i| |]; cbn [ref_of].
    - cbn [r_owner r_index]. pose proof (walk_found _ _ _ _ _ _ _ _ Hw) as (Hh & _).
      rewrite (index_fits v name owner i Hwf Hh) || idtac. destruct (decide (owner = recv)) as [->|Hne].
      + eexists (Some (MkRef recv i)), _, _, vr. split; [reflexivity|]. split_and!; [exact Hres|by apply (same_objs_wf v2)|exact Hg|exact Eep| |cbn; lia].
        split; [cbn; lia|by eexists|]. cbn. intros r o [= <-] [= <-]. done.
      + eexists (Some (MkRef owner i)), _, _, vr. split; [reflexivity|]. split_and!; [exact Hres|by apply (same_objs_wf v2)|exact Hg|exact Eep| |cbn; lia].
        split; [cbn; lia|by eexists|]. cbn. intros r o [= <-] [= <-] _ _. exists (walk_fuel (objs v)), V', i.
        split_and!; [|exact (index_fits v name owner i Hwf Hh)|].
        * eapply walk_local; [exact Hw|]. intros c _. change (hitf (set_fills (u32 (cache_fills v2 + 1)) v2)) with (hitf v2).
          change (succf (set_fills (u32 (cache_fills v2 + 1)) v2)) with (succf v2). by rewrite (same_graph_hitf v), (same_graph_succf v).
        * intros c y Hc Hy. apply (Hcach c y Hc); [set_solver| |exact Hy]. unfold flags. cbn.
          rewrite (bool_decide_eq_false_2 (owner = recv)) by done. by rewrite andb_false_r.
    - eexists None, e, v2, vr. split; [reflexivity|]. split_and!; [exact Hres|done..| |lia]. by apply (graph_sound v).
    - eexists None, e, v2, vr. split; [reflexivity|]. split_and!; [exact Hres|done..| |lia]. by apply (graph_sound v). }
  destruct b; [|exact Hslow]. destruct (Hb eq_refl) as (owner & i & Ho & Hi & Hh & fuel & V2 & Hwf').
  destruct (hitf_slot _ _ _ _ Hh) as (y & s & Hy & Hs & _). rewrite Ho. cbn [mbind option_bind]. rewrite Hy. cbn [mbind option_bind]. rewrite Hi, Hs.
  cbn [mbind option_bind]. destruct (_ =? 0); [|exact Hslow].
  pose proof (walk_same _ _ _ _ _ _ _ _ Hw Hwf') as E. injection E as -> ->.
  eexists (Some (MkRef owner i)), e, v, vr. split_and!; try done; [apply same_graph_refl|lia].
Qed.

(** ** Every operation keeps every entry sound *)

(** The sites of a VM: the name each reads and its entry. *)
Abbreviation sites := (list (nat * USlotCache)).

Definition sites_sound (v : ovm) (es : sites) : Prop := Forall (fun p => entry_sound v p.1 p.2) es.

Record cache_inv (v : ovm) (es : sites) : Prop := {
  ci_wf : ovm_wf v;
  ci_epoch : 0 < slot_epoch v;
  ci_sites : sites_sound v es }.

(** The collector marks from a bumped epoch, and empties the entries when
    the epoch is past half its range; then objects go. *)
Definition collected (v : ovm) (es : sites) (dead : gset nat) : ovm * sites :=
  let '(cs, v') := retire_entries (es.*2) v in
  (set_objs (filter (fun p => p.1 ∉ dead) (objs v')) v', zip (es.*1) cs).

Inductive cstep : ovm * sites -> ovm * sites -> Prop :=
  | step_new v es c proto v' : objs v !! c = None -> (forall p, proto = Some p -> is_Some (objs v !! p)) ->
      uobj_new (Some c) proto v = (Some c, v') -> cstep (v, es) (v', es)
  | step_set v es cell grow o name val attrs r v' : uobj_set_local cell grow o name val attrs v = Some (r, v') -> cstep (v, es) (v', es)
  | step_remove v es o name r v' : uobj_remove_local o name v = Some (r, v') -> cstep (v, es) (v', es)
  | step_add v es ok o p x r v' : objs v !! o = Some x -> is_Some (objs v !! p) -> o_nprotos x < 65535 ->
      uobj_add_proto ok o p v = Some (r, v') -> cstep (v, es) (v', es)
  | step_unproto v es o p r v' : uobj_remove_proto o p v = Some (r, v') -> cstep (v, es) (v', es)
  | step_protos v es ok o ps r v' : (forall p, p ∈ ps -> is_Some (objs v !! p)) -> zlen ps < 2 ^ 16 ->
      uobj_set_protos ok o ps v = Some (r, v') -> cstep (v, es) (v', es)
  | step_resolve v es o name fl r v' : is_Some (objs v !! o) -> uobj_resolve_impl o name fl v = Some (r, v') -> cstep (v, es) (v', es)
  | step_is_a v es o p r v' : is_Some (objs v !! o) -> uobj_is_a o p v = Some (r, v') -> cstep (v, es) (v', es)
  | step_read v es i name e recv r e' v' : es !! i = Some (name, e) -> is_Some (objs v !! recv) ->
      site_read e recv name v = Some (r, e', v') -> cstep (v, es) (v', <[i := (name, e')]> es)
  | step_collect v es dead v' es' : collected v es dead = (v', es') -> ovm_wf v' -> cstep (v, es) (v', es').

Lemma sites_map v v' es : sites_sound v es -> (forall name e, entry_sound v name e -> entry_sound v' name e) -> sites_sound v' es.
Proof. intros Hs Hm. eapply Forall_impl; [exact Hs|]. intros [name e]. apply Hm. Qed.

Lemma edited_inv v v' o x y es : cache_inv v es -> epochs_left v -> objs v !! o = Some x -> ovm_wf v' -> edited v v' o x y -> cache_inv v' es.
Proof.
  intros [H1 H2 H3] Hep Hx Hwf He. split; [done| |].
  - destruct (ed_epoch _ _ _ _ _ He) as [-> | ->]; [done|]. rewrite bump_epoch by done. lia.
  - eapply sites_map; [exact H3|]. intros name e. intros Hs. exact (edited_sound v v' o x y name e Hs Hx He Hep).
Qed.

Lemma walked_inv v v' V V' out flag es : cache_inv v es -> ovm_wf v' ->
  walked (set_walk (visit_stamp v + 1) false v) v' (visit_stamp v + 1) V V' out flag -> cache_inv v' es.
Proof.
  intros [H1 H2 H3] Hwf [Hg _ (_ & _ & _ & Ee & _) _ _]. change (same_graph v v') in Hg. cbn [slot_epoch set_walk] in Ee.
  split; [done|by rewrite Ee|]. eapply sites_map; [exact H3|]. intros name e He. by apply (graph_sound v).
Qed.

Lemma retire_sound v es : sites_sound v es -> epochs_left v ->
  forall m, sites_sound (set_objs m (retire_entries (es.*2) v).2) (zip (es.*1) (retire_entries (es.*2) v).1) /\
    0 < slot_epoch (retire_entries (es.*2) v).2.
Proof.
  intros Hs Hep m. unfold retire_entries. pose proof (bump_epoch v Hep) as Hb. unfold epochs_left in Hep.
  destruct (_ <? _).
  - split; [|cbn [fst snd slot_epoch set_epoch]; lia]. unfold sites_sound in *. cbn [fst snd]. clear Hb. induction Hs as [|p es Hp Hs IH]; [constructor|]. cbn. constructor; [|apply IH].
    apply empty_sound. cbn. lia.
  - split; [|cbn [fst snd slot_epoch set_epoch]; lia]. cbn [fst snd]. rewrite zip_fst_snd. eapply sites_map; [exact Hs|]. intros name e He.
    eapply stale_sound; [exact He|]. change (slot_epoch v < slot_epoch (uobj_epoch_bump v)). lia.
Qed.

Lemma new_wf c proto v v' : ovm_wf v -> objs v !! c = None -> 0 <= visit_stamp v -> (forall p, proto = Some p -> is_Some (objs v !! p)) ->
  uobj_new (Some c) proto v = (Some c, v') ->
  ovm_wf v' /\ slot_epoch v' = slot_epoch v /\ visit_stamp v' = visit_stamp v /\ (exists x, objs v' = <[c := x]> (objs v) /\ proto_list x = option_list proto /\ o_slots x = []).
Proof.
  intros Hwf Hc Hst Hp. unfold uobj_new. intros [= <-]. set (x := MkObject _ _ _ _ _ _ _ _).
  assert (Hl : proto_list x = option_list proto) by (by destruct proto).
  assert (Hx : obj_wf x). { split; cbn; [destruct proto; [right; left|left]; by split_and!|constructor|by left|done]. }
  split; [|split_and!; [done|done|by exists x]]. split; cbn [objs put_obj set_objs set_next_id visit_stamp].
  - intros d y. destruct (decide (d = c)) as [->|]; [rewrite lookup_insert_eq; by intros [= <-]|rewrite lookup_insert_ne by done; apply (ow_obj v Hwf)].
  - intros d y z Hy Hz. rewrite lookup_insert_is_Some. destruct (decide (c = z)); [by left|right; split; [done|]].
    destruct (decide (d = c)) as [->|].
    + rewrite lookup_insert_eq in Hy. injection Hy as <-. rewrite Hl in Hz. destruct proto as [p|]; cbn in Hz; [|by apply elem_of_nil in Hz].
      apply list_elem_of_singleton in Hz as ->. by apply Hp.
    + rewrite lookup_insert_ne in Hy by done. by eapply (ow_closed v).
  - intros d y. destruct (decide (d = c)) as [->|]; [rewrite lookup_insert_eq; intros [= <-]; cbn; lia|rewrite lookup_insert_ne by done; apply (ow_visit v Hwf)].
Qed.

Lemma fresh_sound v v' c x name e : entry_sound v name e -> objs v !! c = None -> objs v' = <[c := x]> (objs v) -> slot_epoch v' = slot_epoch v ->
  entry_sound v' name e.
Proof.
  intros He Hc Eo Ee. apply (kept_sound v); [done..|]. intros d y Hy Hcy. assert (d <> c) by congruence.
  unfold hitf, succf. rewrite Eo, lookup_insert_ne by done. split_and!; try done. by exists y.
Qed.

Lemma cstep_inv s s' : cstep s s' -> stamps_left s.1 -> epochs_left s.1 ->
  (forall o x, objs s.1 !! o = Some x -> zlen (o_slots x) = o_cap x -> o_cap x < 2 ^ 15) ->
  cache_inv s.1 s.2 -> cache_inv s'.1 s'.2.
Proof.
  intros Hstep Hst Hep Hroom Hinv. pose proof (ci_wf _ _ Hinv) as Hwf. pose proof (ci_sites _ _ Hinv) as Hsites.
  destruct Hstep as [v es c proto v' Hc Hp H|v es cell grow o name val attrs r v' H|v es o name r v' H|v es ok o p x r v' Hx Hp Hn H|v es o p r v' H
    |v es ok o ps r v' Hps Hlen H|v es o name fl r v' Ho H|v es o p r v' Ho H|v es i name e recv r e' v' Hi Hrecv H|v es dead v' es' H Hwf']; cbn [fst snd] in *.
  - destruct (new_wf c proto v v' Hwf Hc ltac:(unfold stamps_left in Hst; lia) Hp H) as (Hwf' & Ee & _ & x & Eo & _). split; [done|rewrite Ee; apply Hinv|].
    eapply sites_map; [exact Hsites|]. intros n e He. by eapply fresh_sound.
  - destruct (objs v !! o) as [x|] eqn:Hx.
    + destruct (set_local_spec cell grow o name val attrs v x Hwf Hx (Hroom o x Hx)) as (r1 & v1 & E & Hwf1 & Hr). rewrite H in E. injection E as -> ->.
      destruct r1 as [k|]; [destruct Hr as (y & _ & _ & He & _); by eapply edited_inv|]. destruct Hr as [Eo Ee]. split; [done|rewrite Ee; apply Hinv|].
      eapply sites_map; [exact Hsites|]. intros n e He. apply (graph_sound v); [done| |done]. intros d. rewrite Eo. by destruct (objs v !! d).
    + unfold uobj_set_local in H. fold (prop_attrs attrs) in H. destruct (prop_attrs attrs); [destruct cell; [|by injection H as <- <-]|]; cbn in H; rewrite Hx in H; done.
  - destruct (objs v !! o) as [x|] eqn:Hx; [|unfold uobj_remove_local in H; by rewrite Hx in H].
    pose proof (remove_local_spec o name v x Hwf Hx) as Hs. destruct (decide _); [rewrite H in Hs; by injection Hs as -> ->|].
    destruct Hs as (v1 & y & E & Hwf1 & He & _). rewrite H in E. injection E as -> ->. by eapply edited_inv.
  - destruct (add_proto_spec ok o p v x Hwf Hx Hp Hn) as [H1 H2].
    assert (Hk : (ok = true \/ o_nprotos x = 0) \/ (ok = false /\ o_nprotos x <> 0)) by (destruct ok; [tauto|destruct (decide (o_nprotos x = 0)); tauto]).
    destruct Hk as [Hk|[Hk1 Hk2]]; [|rewrite (H1 Hk1 Hk2) in H; by injection H as <- <-]. destruct (H2 Hk) as (v1 & y & E & Hwf1 & He & _). rewrite H in E. injection E as -> ->. by eapply edited_inv.
  - destruct (objs v !! o) as [x|] eqn:Hx; [|unfold uobj_remove_proto in H; by rewrite Hx in H].
    pose proof (remove_proto_spec o p v x Hwf Hx) as Hs. destruct (decide _); [|rewrite H in Hs; by injection Hs as -> ->].
    destruct Hs as (v1 & y & E & Hwf1 & He & _). rewrite H in E. injection E as -> ->. by eapply edited_inv.
  - destruct (objs v !! o) as [x|] eqn:Hx; [|unfold uobj_set_protos in H; by rewrite Hx in H].
    destruct (set_protos_spec ok o ps v x Hwf Hx Hps Hlen) as [H1 H2].
    assert (Hk : (ok = true \/ zlen ps <= 1) \/ (ok = false /\ 2 <= zlen ps)) by (destruct ok; [tauto|destruct (decide (zlen ps <= 1)); [tauto|right; split; [done|lia]]]).
    destruct Hk as [Hk|[Hk1 Hk2]]; [|rewrite (H1 Hk1 Hk2) in H; by injection H as <- <-]. destruct (H2 Hk) as (v1 & y & E & Hwf1 & He & _). rewrite H in E. injection E as -> ->. by eapply edited_inv.
  - destruct (resolve_spec o name fl v Hwf Hst Ho) as (out & V' & v1 & _ & E & Hw & Hwf1). rewrite H in E. injection E as -> ->. by eapply walked_inv.
  - destruct (is_a_spec o p v Hwf Hst Ho) as (out & V' & v1 & _ & E & Hw & Hwf1). rewrite H in E. injection E as -> ->. by eapply walked_inv.
  - assert (He : entry_sound v name e) by (unfold sites_sound in Hsites; rewrite Forall_lookup in Hsites; by apply (Hsites i (name, e))).
    destruct (site_read_spec v e recv name Hwf Hst ltac:(unfold epochs_left in Hep; lia) He Hrecv) as (r1 & e1 & v1 & vr & E & _ & Hwf1 & Hg & Ee & He1 & _).
    rewrite H in E. injection E as -> -> ->. split; [done|rewrite Ee; apply Hinv|]. apply Forall_insert; [|done].
    eapply sites_map; [exact Hsites|]. intros n e0 He0. by apply (graph_sound v).
  - unfold collected in H. pose proof (retire_sound v es Hsites Hep) as Hret. destruct (retire_entries (es.*2) v) as [cs w] eqn:Er. injection H as <- <-.
    split; [done|by apply (Hret ∅)|apply Hret].
Qed.

Lemma resolve_answer o name fl v : ovm_wf v -> stamps_left v -> is_Some (objs v !! o) ->
  exists r v', uobj_resolve_impl o name fl v = Some (r, v') /\ ovm_wf v' /\ same_graph v v' /\ slot_epoch v' = slot_epoch v /\
    match r with
    | Some ref => hitf v name (r_owner ref) = Some (Some (r_index ref)) /\ reach (succf v) o (r_owner ref) /\
        (forall i, hitf v name o = Some (Some i) -> ref = MkRef o i)
    | None => resolve_overflow v' = true \/ (forall c, reach (succf v) o c -> hitf v name c = Some None)
    end.
Proof.
  intros Hwf Hst Ho. destruct (resolve_spec o name fl v Hwf Hst Ho) as (out & V' & v' & Hw & Hr & Hk & Hwf').
  exists (ref_of out), v'. split; [done|]. split; [done|]. pose proof (wk_graph _ _ _ _ _ _ _ Hk) as Hg. split; [exact Hg|].
  destruct (wk_rest _ _ _ _ _ _ _ Hk) as (_ & _ & _ & Ee & _). split; [exact Ee|]. destruct out as [c i| |]; cbn [ref_of].
  - destruct (walk_found _ _ _ _ _ _ _ _ Hw) as (Hh & _ & _ & a & ->%list_elem_of_singleton & Hreach). split_and!; [done|done|].
    intros j Hj. pose proof (walk_same _ _ _ _ _ _ _ _ Hw (walk_own v name o j 0 Hj)) as E. by injection E as -> -> _.
  - right. intros c Hc. destruct (walk_missed _ _ _ _ _ _ Hw) as [H1 H2]; [intros x d Hx; set_solver|].
    assert (Hin : c ∈ V') by (eapply closed_reach; [exact H2| |exact Hc]; apply H1; left).
    destruct (walk_passed _ _ _ _ _ _ _ c Hw Hin) as [?|[? ?]]; [set_solver|done|done].
  - left. by rewrite (wk_over _ _ _ _ _ _ _ Hk).
Qed.

Lemma is_a_answer o proto v : ovm_wf v -> stamps_left v -> is_Some (objs v !! o) ->
  exists b v', uobj_is_a o proto v = Some (b, v') /\ ovm_wf v' /\ same_graph v v' /\
    (if b then reach (succf v) o proto else resolve_overflow v' = true \/ ~ reach (succf v) o proto).
Proof.
  intros Hwf Hst Ho. destruct (is_a_spec o proto v Hwf Hst Ho) as (out & V' & v' & Hw & Hr & Hk & Hwf').
  exists (bool_decide (is_Some (ref_of out))), v'. split; [done|]. split; [done|]. split; [exact (wk_graph _ _ _ _ _ _ _ Hk)|].
  assert (Hhit : forall c i, hita v proto c = Some (Some i) -> c = proto).
  { intros c i. unfold hita. destruct (objs v !! c); [|done]. cbn. by destruct (decide (c = proto)). }
  destruct out as [c i| |]; cbn [ref_of].
  - rewrite bool_decide_eq_true_2 by by eexists. destruct (walk_found _ _ _ _ _ _ _ _ Hw) as (Hh & _ & _ & a & ->%list_elem_of_singleton & Hreach).
    by rewrite <- (Hhit c i Hh).
  - rewrite bool_decide_eq_false_2 by by intros [? ?]. right. intros Hc. destruct (walk_missed _ _ _ _ _ _ Hw) as [H1 H2]; [intros x d Hx; set_solver|].
    assert (Hin : proto ∈ V') by (eapply closed_reach; [exact H2| |exact Hc]; apply H1; left).
    destruct (walk_passed _ _ _ _ _ _ _ proto Hw Hin) as [Hn|[? ?]]; [set_solver| |done].
    unfold hita in Hn. destruct (objs v !! proto); [|done]. cbn in Hn. by rewrite decide_True in Hn.
  - rewrite bool_decide_eq_false_2 by by intros [? ?]. left. by rewrite (wk_over _ _ _ _ _ _ _ Hk).
Qed.

(** ** A small VM *)

(** Object 2 inherits slot 10 from object 1. *)
Definition obj1 : UObject := MkObject [MkSlot 10 (UV_INT 5) 0] 4 0 None None false 0 0.
Definition obj2 : UObject := MkObject [] 0 1 (Some 1%nat) None false 1 0.
Definition two_objects : ovm := MkOVM {[1%nat := obj1; 2%nat := obj2]} ∅ 2 0 false 1 0.

Lemma two_objects_inv c x : objs two_objects !! c = Some x -> (c = 1%nat /\ x = obj1) \/ (c = 2%nat /\ x = obj2).
Proof.
  cbn [objs two_objects]. intros H. apply lookup_insert_Some in H as [[<- <-]|[_ H]]; [by left|].
  apply lookup_singleton_Some in H as [<- <-]. by right.
Qed.

Lemma two_objects_wf : ovm_wf two_objects.
Proof.
  split.
  - intros c x [[-> ->]|[-> ->]]%two_objects_inv.
    + split; [by left|apply NoDup_singleton|right; by exists 2|done].
    + split; [right; left; by split_and!|constructor|by left|done].
  - intros c x d [[-> ->]|[-> ->]]%two_objects_inv; cbn; [by intros ?%elem_of_nil|]. intros ->%list_elem_of_singleton. by eexists.
  - intros c x [[-> ->]|[-> ->]]%two_objects_inv; cbn; lia.
Qed.

Definition one_site : sites := [(10%nat, empty_entry)].

Lemma two_objects_cache : cache_inv two_objects one_site.
Proof. split; [apply two_objects_wf|done|]. constructor; [apply empty_sound; cbn; lia|constructor]. Qed.

(** ** Properties *)

(** Resolution always ends, changes nothing but marks, and is right: a
    slot found is reachable through the prototypes, sits where the result
    says, and is the receiver's own if it has one; not found means no
    reachable object has it, unless the overflow flag says the 64-entry
    stack was exhausted. *)
Theorem resolve_is_search o name fl v : ovm_wf v -> stamps_left v -> is_Some (objs v !! o) ->
  exists r v', uobj_resolve_impl o name fl v = Some (r, v') /\ ovm_wf v' /\ same_graph v v' /\ slot_epoch v' = slot_epoch v /\
    match r with
    | Some ref => hitf v name (r_owner ref) = Some (Some (r_index ref)) /\ reach (succf v) o (r_owner ref) /\
        (forall i, hitf v name o = Some (Some i) -> ref = MkRef o i)
    | None => resolve_overflow v' = true \/ (forall c, reach (succf v) o c -> hitf v name c = Some None)
    end.
Proof. exact (resolve_answer o name fl v). Qed.

Lemma resolve_is_search_witness : exists r v', uobj_resolve_impl 2 10 false two_objects = Some (r, v') /\ r = Some (MkRef 1 0) /\ ovm_wf v'.
Proof.
  destruct (resolve_is_search 2 10 false two_objects two_objects_wf ltac:(split; reflexivity || discriminate) ltac:(eexists; reflexivity))
    as (r & v' & H & Hwf & _). exists r, v'. split; [exact H|]. split; [|exact Hwf]. vm_compute in H. injection H as <- _. reflexivity.
Defined.

(** the ancestry test always ends and is right: true only for an object
    reachable through the prototypes; false only when it is not, or when the
    overflow flag is set. *)
Theorem is_a_decides_ancestry o proto v : ovm_wf v -> stamps_left v -> is_Some (objs v !! o) ->
  exists b v', uobj_is_a o proto v = Some (b, v') /\ ovm_wf v' /\ same_graph v v' /\
    (if b then reach (succf v) o proto else resolve_overflow v' = true \/ ~ reach (succf v) o proto).
Proof. exact (is_a_answer o proto v). Qed.

Lemma is_a_decides_ancestry_witness : exists b v', uobj_is_a 2 1 two_objects = Some (b, v') /\ (if b then reach (succf two_objects) 2 1 else resolve_overflow v' = true \/ ~ reach (succf two_objects) 2 1).
Proof.
  destruct (is_a_decides_ancestry 2 1 two_objects two_objects_wf ltac:(split; reflexivity || discriminate) ltac:(eexists; reflexivity))
    as (b & v' & H & _ & _ & Hb). by exists b, v'.
Defined.

(** C7 the slot cache is transparent: a read through a sound entry, hit or
    miss, gives exactly what an uncached resolution gives, and leaves a
    sound entry behind, as long as the walk stamp is not at its last value. *)
Theorem slot_cache_transparent v e recv name : ovm_wf v -> stamps_left v -> 0 <= slot_epoch v -> entry_sound v name e -> is_Some (objs v !! recv) ->
  exists r e' v' vr, site_read e recv name v = Some (r, e', v') /\ uobj_resolve recv name v = Some (r, vr) /\
    ovm_wf v' /\ same_graph v v' /\ slot_epoch v' = slot_epoch v /\ entry_sound v' name e' /\ visit_stamp v' <= visit_stamp v + 1.
Proof. exact (site_read_spec v e recv name). Qed.

Lemma slot_cache_transparent_witness : exists r e' v' vr, site_read empty_entry 2 10 two_objects = Some (r, e', v') /\
  uobj_resolve 2 10 two_objects = Some (r, vr) /\ entry_sound v' 10 e'.
Proof.
  destruct (slot_cache_transparent two_objects empty_entry 2 10 two_objects_wf ltac:(split; reflexivity || discriminate) ltac:(discriminate)
    (empty_sound two_objects 10 ltac:(discriminate)) ltac:(eexists; reflexivity)) as (r & e' & v' & vr & H1 & H2 & _ & _ & _ & H3 & _).
  by exists r, e', v', vr.
Defined.



(** writing a slot: unless memory runs out, when no object changes, the
    slot holds the value, or a fresh property cell holding it when it has an
    accessor, at the index returned; every other slot and the prototypes are
    as before; a change subscription survives an overwrite. *)
Theorem set_local_writes_slot cell grow o name val attrs v x :
  ovm_wf v -> objs v !! o = Some x -> (zlen (o_slots x) = o_cap x -> o_cap x < 2 ^ 15) ->
  exists r v', uobj_set_local cell grow o name val attrs v = Some (r, v') /\ ovm_wf v' /\
    match r with
    | None => objs v' = objs v /\ slot_epoch v' = slot_epoch v
    | Some k => exists y st a, edited v v' o x y /\ slot_written x y name (MkSlot name st a) k /\ stores cell val attrs v' st /\
        a = match slot_of x name with Some s => u8 (Z.lor attrs (Z.land (sl_attrs s) USLOT_CHANGED_EVENT)) | None => attrs end
    end.
Proof. exact (set_local_spec cell grow o name val attrs v x). Qed.

Lemma set_local_writes_slot_witness : exists r v', uobj_set_local (Some 9%nat) true 1 10 (UV_INT 6) USLOT_GETTER two_objects = Some (r, v') /\
  r = Some 0%nat /\ ovm_wf v'.
Proof.
  destruct (set_local_writes_slot (Some 9%nat) true 1 10 (UV_INT 6) USLOT_GETTER two_objects obj1 two_objects_wf eq_refl ltac:(reflexivity))
    as (r & v' & H & Hwf & _). exists r, v'. split; [exact H|]. split; [|exact Hwf]. vm_compute in H. injection H as <- _. reflexivity.
Defined.

(** removing a slot takes that slot away and no other; an absent one is
    reported and nothing changes. *)
Theorem remove_local_removes_slot o name v x : ovm_wf v -> objs v !! o = Some x ->
  if decide (slot_of x name = None) then uobj_remove_local o name v = Some (false, v)
  else exists v' y, uobj_remove_local o name v = Some (true, v') /\ ovm_wf v' /\ edited v v' o x y /\
    slot_of y name = None /\ (forall n, n <> name -> slot_of y n = slot_of x n) /\ proto_list y = proto_list x.
Proof. exact (remove_local_spec o name v x). Qed.

Lemma remove_local_removes_slot_witness : exists v' y, uobj_remove_local 1 10 two_objects = Some (true, v') /\ ovm_wf v' /\ slot_of y 10 = None /\ edited two_objects v' 1 obj1 y.
Proof.
  destruct (remove_local_removes_slot 1 10 two_objects obj1 two_objects_wf eq_refl) as (v' & y & H1 & H2 & H3 & H4 & _). by exists v', y.
Defined.

(** prototype edits: adding puts the prototype first, so that it takes
    precedence; removing takes out one occurrence and keeps the others, in some
    order; setting installs exactly the given list; each keeps the two forms of
    the list consistent and the slots unchanged. *)
Theorem proto_edits ok o p ps v x : ovm_wf v -> objs v !! o = Some x -> is_Some (objs v !! p) -> o_nprotos x < 65535 ->
  (forall q, q ∈ ps -> is_Some (objs v !! q)) -> zlen ps < 2 ^ 16 -> ok = true ->
  (exists v' y, uobj_add_proto ok o p v = Some (0, v') /\ ovm_wf v' /\ edited v v' o x y /\ proto_list y = p :: proto_list x /\ o_slots y = o_slots x) /\
  (if decide (p ∈ proto_list x) then
     exists v' y, uobj_remove_proto o p v = Some (0, v') /\ ovm_wf v' /\ edited v v' o x y /\ proto_list x ≡ₚ p :: proto_list y /\ o_slots y = o_slots x
   else uobj_remove_proto o p v = Some (-1, v)) /\
  (exists v' y, uobj_set_protos ok o ps v = Some (0, v') /\ ovm_wf v' /\ edited v v' o x y /\ proto_list y = ps /\ o_slots y = o_slots x).
Proof.
  intros Hwf Hx Hp Hn Hps Hlen Hok. split_and!.
  - apply (add_proto_spec ok o p v x); auto.
  - by apply remove_proto_spec.
  - apply (set_protos_spec ok o ps v x); auto.
Qed.

Lemma proto_edits_witness : exists v' y, uobj_add_proto true 2 2 two_objects = Some (0, v') /\ ovm_wf v' /\ proto_list y = [2%nat; 1%nat] /\ edited two_objects v' 2 obj2 y.
Proof.
  destruct (proto_edits true 2 2 [] two_objects obj2 two_objects_wf eq_refl ltac:(eexists; reflexivity) ltac:(reflexivity)
    ltac:(intros q H; by apply elem_of_nil in H) ltac:(reflexivity) eq_refl) as ((v' & y & H1 & H2 & H3 & H4 & _) & _ & _). by exists v', y.
Defined.

(** the slot capacity is 16 bits: doubling the largest one, 32768, wraps to
    zero, and when the allocator grants the empty block, copying the slots
    in use overruns it. *)
Theorem slot_growth_wraps x : o_cap x = 2 ^ 15 -> zlen (o_slots x) = o_cap x -> u16 (o_cap x * 2) = 0 /\ uobj_grow true x = None.
Proof.
  intros Hc Hl. split; [by rewrite Hc|]. apply (grow_spec true x); [right; exists 15; split; [lia|done]|done|done].
Qed.

Definition crowded : UObject := MkObject (replicate (Z.to_nat (2 ^ 15)) (MkSlot 0 UV_NIL 0)) (2 ^ 15) 0 None None false 0 0.

Lemma slot_growth_wraps_witness : u16 (o_cap crowded * 2) = 0 /\ uobj_grow true crowded = None.
Proof.
  apply (slot_growth_wraps crowded eq_refl). unfold zlen, crowded. cbn [o_slots o_cap]. rewrite length_replicate, Z2Nat.id; [reflexivity|discriminate].
Defined.

End Objects.
