(* ===== verification/EmitReg.v ===== *)
(** * The emitter's registers, blocks, upvalues and streams (src/src/emit/uemit_reg.c)

    The current function state is the first of the list, its parents follow.
    Only the entries in use of an array are kept, with the capacity beside them where
    the array grows; a store past it is a fault.  [grants] answers the
    allocator calls in order.  Diagnostics text is left out. *)
From stdpp Require Import sorting.
From S2P Require Import Prelude Instr Verify VerifySound.
#[local] Open Scope Z_scope.

Module EmitReg.

(** An interned pointer stands for its bytes: equal bytes are one symbol. *)
Definition sym : Type := bytes.

Definition UFS_MAX_LOCALS : Z := 200.
Definition UFS_MAX_UPVALUES : Z := 60.
Definition UFS_MAX_BLOCKS : Z := 32.
Definition UFS_MAX_REGS : Z := 256.
Definition UEMIT_JMP_BIAS : Z := 32768.

Definition UEMIT_LOOP_MAX : Z := 8.
Definition UEMIT_PATCH_MAX : Z := 16.
Definition UEMIT_SCOPE_MAX : Z := 16.
Definition UEMIT_LAZY_GLOBALS_MAX : Z := 64.

Definition ULOCAL_CAPTURED : Z := 1.
Definition ULOCAL_LAZY_PARAM : Z := 4.
Definition ULOCAL_PINNED : Z := 8.

Inductive UEmitError :=
  | EMIT_OK | EMIT_OOM | EMIT_AST_ERROR | EMIT_UNSUPPORTED_AST | EMIT_REG_EXHAUSTED | EMIT_CONSTANT_POOL_FULL | EMIT_FINISHED
  | EMIT_UPVAL_EXHAUSTED | EMIT_LOCAL_REDECLARE | EMIT_NESTING_TOO_DEEP | EMIT_LAZY_ON_METHOD | EMIT_LAZY_PARAM_ASSIGN
  | EMIT_TOO_MANY_SITES | EMIT_NO_THIS_OUTSIDE_METHOD | EMIT_TOO_MANY_ARGS | EMIT_PATCH_LIST_FULL | EMIT_JUMP_TOO_FAR.
#[export] Instance UEmitError_eq_dec : EqDecision UEmitError.
Proof. solve_decision. Defined.

Record ULocal := MkLocal { lo_name : option sym; lo_reg : Z; lo_flags : Z; lo_mask : Z }.
Record UUpvalDesc := MkUpvalDesc { uv_name : sym; uv_idx : Z; uv_in_stack : bool }.
Record UBlock := MkBlock { b_nactvar : nat; b_freereg : Z; b_is_loop : bool; b_captured : bool }.

(** The pool entries the emitter makes: a double by its bits, a string by its interned pointer. *)
Inductive kconst := KInt (i : Z) | KFloat (bits : Z) | KStr (p : sym).
#[export] Instance kconst_eq_dec : EqDecision kconst.
Proof. solve_decision. Defined.

(** The streams of a prototype under construction. *)
Record stream := MkStream {
  p_instrs : list Z; p_instr_cap : Z;
  p_deltas : list Z; p_delta_cap : Z;      (* what [line_deltas] was last grown to *)
  p_abs : list (Z * Z); p_abs_cap : Z;
  p_consts : list kconst; p_const_cap : Z }.

(** A break or continue site: its pc, and whether it is an OP_UNWIND_TO. *)
Record ULoop := MkLoop { lp_breaks : list (Z * bool); lp_continues : list (Z * bool); lp_is_switch : bool; lp_scope_depth : Z }.
Record UScope := MkScope { sc_kind : Z; sc_tag_reg : Z }.

(** A finished prototype. *)
Inductive eproto := MkEProto (code : stream) (max_reg nupvals nparams : Z) (sites : list sym) (children : list eproto).

Record UFuncState := MkFs {
  fs_locals : list ULocal;
  fs_freereg : Z;
  fs_max_reg : Z;
  fs_upvals : list UUpvalDesc;
  fs_blocks : list UBlock;                 (* innermost last *)
  fs_sites : list sym; fs_site_cap : Z;
  fs_prev_line : Z;
  fs_ncaptures : Z;
  fs_proto : stream;
  fs_r_globals : Z; fs_r_nargs : Z;
  fs_loops : list ULoop;                   (* innermost last *)
  fs_scopes : list UScope;
  fs_nparams : Z;                          (* of the prototype *)
  fs_nested : list eproto; fs_nested_cap : Z }.   (* its finished children *)

(** What the whole compilation keeps: the root's serial counter, the closed
    function states kept for reuse, the chunk-top functions with lazy
    parameters and their masks, the flag and the value of the last statement. *)
Record session := MkSession {
  s_serial : Z; s_free : nat; s_lazy_globals : list (sym * Z); s_lazy_arg_ctx : bool; s_any_stmt : bool; s_last_result : Z }.
Definition new_session : session := MkSession 0 0 [] false false 0.

Record UEmitter := MkEmitter { e_fs : list UFuncState; e_error : UEmitError; e_calls : nat; e_ses : session }.

Definition set_regs (free mx : Z) (f : UFuncState) : UFuncState :=
  MkFs (fs_locals f) free mx (fs_upvals f) (fs_blocks f) (fs_sites f) (fs_site_cap f) (fs_prev_line f) (fs_ncaptures f) (fs_proto f) (fs_r_globals f) (fs_r_nargs f) (fs_loops f) (fs_scopes f) (fs_nparams f) (fs_nested f) (fs_nested_cap f).
Definition set_locals (l : list ULocal) (f : UFuncState) : UFuncState :=
  MkFs l (fs_freereg f) (fs_max_reg f) (fs_upvals f) (fs_blocks f) (fs_sites f) (fs_site_cap f) (fs_prev_line f) (fs_ncaptures f) (fs_proto f) (fs_r_globals f) (fs_r_nargs f) (fs_loops f) (fs_scopes f) (fs_nparams f) (fs_nested f) (fs_nested_cap f).
Definition set_upvals (l : list UUpvalDesc) (f : UFuncState) : UFuncState :=
  MkFs (fs_locals f) (fs_freereg f) (fs_max_reg f) l (fs_blocks f) (fs_sites f) (fs_site_cap f) (fs_prev_line f) (fs_ncaptures f) (fs_proto f) (fs_r_globals f) (fs_r_nargs f) (fs_loops f) (fs_scopes f) (fs_nparams f) (fs_nested f) (fs_nested_cap f).
Definition set_blocks (l : list UBlock) (f : UFuncState) : UFuncState :=
  MkFs (fs_locals f) (fs_freereg f) (fs_max_reg f) (fs_upvals f) l (fs_sites f) (fs_site_cap f) (fs_prev_line f) (fs_ncaptures f) (fs_proto f) (fs_r_globals f) (fs_r_nargs f) (fs_loops f) (fs_scopes f) (fs_nparams f) (fs_nested f) (fs_nested_cap f).
Definition set_sites (l : list sym) (cap : Z) (f : UFuncState) : UFuncState :=
  MkFs (fs_locals f) (fs_freereg f) (fs_max_reg f) (fs_upvals f) (fs_blocks f) l cap (fs_prev_line f) (fs_ncaptures f) (fs_proto f) (fs_r_globals f) (fs_r_nargs f) (fs_loops f) (fs_scopes f) (fs_nparams f) (fs_nested f) (fs_nested_cap f).
Definition set_captures (n : Z) (f : UFuncState) : UFuncState :=
  MkFs (fs_locals f) (fs_freereg f) (fs_max_reg f) (fs_upvals f) (fs_blocks f) (fs_sites f) (fs_site_cap f) (fs_prev_line f) n (fs_proto f) (fs_r_globals f) (fs_r_nargs f) (fs_loops f) (fs_scopes f) (fs_nparams f) (fs_nested f) (fs_nested_cap f).
Definition set_stream (line : Z) (p : stream) (f : UFuncState) : UFuncState :=
  MkFs (fs_locals f) (fs_freereg f) (fs_max_reg f) (fs_upvals f) (fs_blocks f) (fs_sites f) (fs_site_cap f) line (fs_ncaptures f) p (fs_r_globals f) (fs_r_nargs f) (fs_loops f) (fs_scopes f) (fs_nparams f) (fs_nested f) (fs_nested_cap f).
Definition set_entry (r_globals r_nargs : Z) (f : UFuncState) : UFuncState :=
  MkFs (fs_locals f) (fs_freereg f) (fs_max_reg f) (fs_upvals f) (fs_blocks f) (fs_sites f) (fs_site_cap f) (fs_prev_line f) (fs_ncaptures f) (fs_proto f) r_globals r_nargs (fs_loops f) (fs_scopes f) (fs_nparams f) (fs_nested f) (fs_nested_cap f).
Definition set_loops (l : list ULoop) (f : UFuncState) : UFuncState :=
  MkFs (fs_locals f) (fs_freereg f) (fs_max_reg f) (fs_upvals f) (fs_blocks f) (fs_sites f) (fs_site_cap f) (fs_prev_line f) (fs_ncaptures f) (fs_proto f) (fs_r_globals f) (fs_r_nargs f) l (fs_scopes f) (fs_nparams f) (fs_nested f) (fs_nested_cap f).
Definition set_scopes (l : list UScope) (f : UFuncState) : UFuncState :=
  MkFs (fs_locals f) (fs_freereg f) (fs_max_reg f) (fs_upvals f) (fs_blocks f) (fs_sites f) (fs_site_cap f) (fs_prev_line f) (fs_ncaptures f) (fs_proto f) (fs_r_globals f) (fs_r_nargs f) (fs_loops f) l (fs_nparams f) (fs_nested f) (fs_nested_cap f).
Definition set_nested (l : list eproto) (cap : Z) (f : UFuncState) : UFuncState :=
  MkFs (fs_locals f) (fs_freereg f) (fs_max_reg f) (fs_upvals f) (fs_blocks f) (fs_sites f) (fs_site_cap f) (fs_prev_line f) (fs_ncaptures f) (fs_proto f) (fs_r_globals f) (fs_r_nargs f) (fs_loops f) (fs_scopes f) (fs_nparams f) l cap.

Definition put_fs (f : UFuncState) (e : UEmitter) : UEmitter := MkEmitter (f :: tail (e_fs e)) (e_error e) (e_calls e) (e_ses e).
Definition is_ok (e : UEmitter) : bool := bool_decide (e_error e = EMIT_OK).

(** The first error wins. *)
Definition uemit_fail (code : UEmitError) (e : UEmitter) : UEmitter :=
  MkEmitter (e_fs e) (if is_ok e then code else e_error e) (e_calls e) (e_ses e).

(** ** Registers *)

Definition ureg_alloc (e : UEmitter) : option (Z * UEmitter) :=
  fs ← head (e_fs e);
  if UFS_MAX_REGS - 1 <=? fs_freereg fs then Some (fs_freereg fs, uemit_fail EMIT_REG_EXHAUSTED e)
  else
    let r := fs_freereg fs in
    Some (r, put_fs (set_regs (r + 1) (if fs_max_reg fs <? r then r else fs_max_reg fs) fs) e).

Definition ureg_top (fs : UFuncState) : Z := match last (fs_locals fs) with None => 0 | Some l => u8 (lo_reg l + 1) end.

Definition ureg_free_to (r : Z) (e : UEmitter) : option UEmitter :=
  fs ← head (e_fs e);
  let top := ureg_top fs in
  Some (put_fs (set_regs (if r <? top then top else r) (fs_max_reg fs) fs) e).

(** The index of the new local; [None] is -1. *)
Definition local_push (name : option sym) (reg flags : Z) (e : UEmitter) : option (option nat * UEmitter) :=
  fs ← head (e_fs e);
  if UFS_MAX_LOCALS <=? zlen (fs_locals fs) then Some (None, uemit_fail EMIT_REG_EXHAUSTED e)
  else Some (Some (length (fs_locals fs)), put_fs (set_locals (fs_locals fs ++ [MkLocal name reg flags 0]) fs) e).

Definition named (name : sym) (l : ULocal) : bool := bool_decide (lo_name l = Some name).

Definition ulocal_declare (name : sym) (e : UEmitter) : option (option nat * UEmitter) :=
  fs ← head (e_fs e);
  let from := match last (fs_blocks fs) with Some b => b_nactvar b | None => O end in
  if existsb (named name) (drop from (fs_locals fs)) then Some (None, uemit_fail EMIT_LOCAL_REDECLARE e)
  else
    '(r, e) ← ureg_alloc e;
    if negb (is_ok e) then Some (None, e) else local_push (Some name) r 0 e.

Definition upin (e : UEmitter) : option (Z * UEmitter) :=
  '(r, e) ← ureg_alloc e;
  if is_ok e then '(_, e) ← local_push None r ULOCAL_PINNED e; Some (r, e) else Some (r, e).

(** A failed assertion is a fault. *)
Definition uunpin (r : Z) (e : UEmitter) : option UEmitter :=
  fs ← head (e_fs e);
  if negb (is_ok e) then Some e
  else
    l ← last (fs_locals fs);
    if (lo_reg l =? r) && negb (Z.land (lo_flags l) ULOCAL_PINNED =? 0) then
      Some (put_fs (set_regs r (fs_max_reg fs) (set_locals (take (length (fs_locals fs) - 1) (fs_locals fs)) fs)) e)
    else None.

(** The innermost local of that name. *)
Fixpoint find_last (name : sym) (l : list ULocal) : option nat :=
  match l with
  | [] => None
  | x :: l => match find_last name l with Some i => Some (S i) | None => if named name x then Some O else None end
  end.
Definition ulocal_find (fs : UFuncState) (name : sym) : option nat := find_last name (fs_locals fs).

(** ** Upvalues *)

Fixpoint find_upval (name : sym) (l : list UUpvalDesc) : option nat :=
  match l with [] => None | u :: l => if decide (uv_name u = name) then Some O else S <$> find_upval name l end.

(** The index; [None] is -1, with the error the code latches. *)
Definition upval_install (fs : UFuncState) (name : sym) (idx : Z) (in_stack : bool) (err : UEmitError)
    : option nat * UFuncState * UEmitError :=
  match find_upval name (fs_upvals fs) with
  | Some i => (Some i, fs, err)
  | None =>
      if UFS_MAX_UPVALUES <=? zlen (fs_upvals fs) then (None, fs, if decide (err = EMIT_OK) then EMIT_UPVAL_EXHAUSTED else err)
      else (Some (length (fs_upvals fs)), set_upvals (fs_upvals fs ++ [MkUpvalDesc name idx in_stack]) fs, err)
  end.

(** [blocks[b].has_captured = true] for the innermost block that holds local [li]. *)
Fixpoint capture_block (li : nat) (rev_blocks : list UBlock) : list UBlock :=
  match rev_blocks with
  | [] => []
  | b :: l => if (b_nactvar b <=? li)%nat then MkBlock (b_nactvar b) (b_freereg b) (b_is_loop b) true :: l else b :: capture_block li l
  end.

Definition capture_local (li : nat) (p : UFuncState) : UFuncState :=
  let locals := alter (fun l => MkLocal (lo_name l) (lo_reg l) (Z.lor (lo_flags l) ULOCAL_CAPTURED) (lo_mask l)) li (fs_locals p) in
  set_captures (u32 (fs_ncaptures p + 1)) (set_blocks (rev (capture_block li (rev (fs_blocks p)))) (set_locals locals p)).

(** On the function states from [fs] outwards. *)
Fixpoint uupval_find_or_install (l : list UFuncState) (name : sym) (err : UEmitError)
    : option (option nat * list UFuncState * UEmitError) :=
  match l with
  | [] => None
  | fs :: parents =>
      match parents with
      | [] => Some (None, l, err)
      | parent :: rest =>
          match find_upval name (fs_upvals fs) with
          | Some i => Some (Some i, l, err)
          | None =>
              match ulocal_find parent name with
              | Some li =>
                  x ← fs_locals parent !! li;
                  let '(r, fs, err) := upval_install fs name (lo_reg x) true err in
                  Some (r, fs :: capture_local li parent :: rest, err)
              | None =>
                  '(gi, parents, err) ← uupval_find_or_install parents name err;
                  match gi with
                  | None => Some (None, fs :: parents, err)
                  | Some gi =>
                      let '(r, fs, err) := upval_install fs name (u8 (Z.of_nat gi)) false err in
                      Some (r, fs :: parents, err)
                  end
              end
          end
      end
  end.

(** ** Streams *)

Section Grants.
Context (grants : nat -> bool).

(** Doubling from 16; [None] for a size the 64-bit doubling never reaches. *)
Fixpoint double_cap (fuel : nat) (target need : Z) : option Z :=
  if target <? need then match fuel with O => None | S fuel => double_cap fuel (u64 (target * 2)) need end else Some target.

(** The new capacity, unless memory is refused. *)
Definition grow (cap need : Z) (e : UEmitter) : option (option Z * UEmitter) :=
  if need <=? cap then Some (Some cap, e)
  else
    target ← double_cap 64 (if cap =? 0 then 16 else cap) need;
    let e' := MkEmitter (e_fs e) (e_error e) (S (e_calls e)) (e_ses e) in
    if grants (e_calls e) then Some (Some target, e') else Some (None, uemit_fail EMIT_OOM e').

(** [a[count] = x] in an array of [cap] elements. *)
Definition append {A} (l : list A) (cap : Z) (x : A) : option (list A) := if zlen l <? cap then Some (l ++ [x]) else None.

Definition uinstr_pc (e : UEmitter) : option Z := fs ← head (e_fs e); Some (zlen (p_instrs (fs_proto fs))).

(** Making room for one more instruction and its line delta; [false] when memory is refused. *)
Definition room_for_instr (e : UEmitter) : option (bool * UEmitter) :=
  fs ← head (e_fs e);
  let p := fs_proto fs in
  if negb (zlen (p_instrs p) =? p_instr_cap p) then Some (true, e)
  else
    '(icap, e) ← grow (p_instr_cap p) (zlen (p_instrs p) + 1) e;
    match icap with
    | None => Some (false, e)
    | Some icap =>
        let p1 := MkStream (p_instrs p) icap (p_deltas p) (p_delta_cap p) (p_abs p) (p_abs_cap p) (p_consts p) (p_const_cap p) in
        let e := put_fs (set_stream (fs_prev_line fs) p1 fs) e in
        '(dcap, e) ← grow (p_instr_cap p) icap e;
        match dcap with
        | None => Some (false, e)
        | Some dcap =>
            let p2 := MkStream (p_instrs p) icap (p_deltas p) dcap (p_abs p) (p_abs_cap p) (p_consts p) (p_const_cap p) in
            Some (true, put_fs (set_stream (fs_prev_line fs) p2 fs) e)
        end
    end.

(** The line delta, or [None] for an absolute checkpoint. *)
Definition line_delta (prev line : Z) : option Z :=
  if prev =? 0 then None
  else let d := line - prev in if (d <=? -128) || (127 <? d) then None else Some d.

Definition uinstr_emit (ins line : Z) (e : UEmitter) : option (Z * UEmitter) :=
  pc ← uinstr_pc e;
  if negb (is_ok e) then Some (pc, e)
  else
    '(ok, e) ← room_for_instr e;
    if negb ok then Some (pc, e)
    else
      fs ← head (e_fs e);
      let p := fs_proto fs in
      let delta := line_delta (fs_prev_line fs) line in
      '(abs, e) ← match delta with
                  | Some _ => Some (Some (p_abs p, p_abs_cap p), e)
                  | None =>
                      '(acap, e) ← grow (p_abs_cap p) (zlen (p_abs p) + 1) e;
                      match acap with
                      | None => Some (None, e)
                      | Some acap => l ← append (p_abs p) acap (u32 pc, line); Some (Some (l, acap), e)
                      end
                  end;
      match abs with
      | None => Some (pc, e)
      | Some (abs, acap) =>
          iw ← append (p_instrs p) (p_instr_cap p) ins;
          ds ← append (p_deltas p) (p_delta_cap p) (default (-128) delta);
          Some (pc, put_fs (set_stream line (MkStream iw (p_instr_cap p) ds (p_delta_cap p) abs acap (p_consts p) (p_const_cap p)) fs) e)
      end.

Definition uinstr_patch (pc ins : Z) (e : UEmitter) : option UEmitter :=
  if negb (is_ok e) then Some e
  else
    fs ← head (e_fs e);
    let p := fs_proto fs in
    iw ← store (p_instrs p) pc ins;
    Some (put_fs (set_stream (fs_prev_line fs) (MkStream iw (p_instr_cap p) (p_deltas p) (p_delta_cap p) (p_abs p) (p_abs_cap p) (p_consts p) (p_const_cap p)) fs) e).

Definition jmp_word (bx : Z) : Z := uinstr_enc_abx OP_JMP 0 (u16 bx).

Definition ujmp_emit (line : Z) (e : UEmitter) : option (Z * UEmitter) := uinstr_emit (jmp_word UEMIT_JMP_BIAS) line e.

Definition ujmp_patch_to (jmp_pc target_pc : Z) (e : UEmitter) : option UEmitter :=
  if negb (is_ok e) then Some e
  else
    let off := target_pc - jmp_pc - 1 in
    if (off <? 0) || (32767 <? off) then Some (uemit_fail EMIT_JUMP_TOO_FAR e)
    else uinstr_patch jmp_pc (jmp_word (UEMIT_JMP_BIAS + off)) e.

Definition ujmp_patch_here (jmp_pc : Z) (e : UEmitter) : option UEmitter := pc ← uinstr_pc e; ujmp_patch_to jmp_pc pc e.

Definition ujmp_back (target_pc line : Z) (e : UEmitter) : option UEmitter :=
  if negb (is_ok e) then Some e
  else
    pc ← uinstr_pc e;
    let off := target_pc - pc in
    if (0 <=? off) || (off <? -32768) then Some (uemit_fail EMIT_JUMP_TOO_FAR e)
    else '(_, e) ← uinstr_emit (jmp_word (UEMIT_JMP_BIAS + off)) line e; Some e.

(** ** Constants *)

Fixpoint find_const (v : kconst) (l : list kconst) : option nat :=
  match l with [] => None | k :: l => if decide (k = v) then Some O else S <$> find_const v l end.

Definition const_add (v : kconst) (e : UEmitter) : option (Z * UEmitter) :=
  fs ← head (e_fs e);
  let p := fs_proto fs in
  if negb (is_ok e) then Some (0, e)
  else
    match find_const v (p_consts p) with
    | Some i => Some (u16 (Z.of_nat i), e)
    | None =>
        if UINT16_MAX <? zlen (p_consts p) then Some (0, uemit_fail EMIT_CONSTANT_POOL_FULL e)
        else
          '(cap, e) ← grow (p_const_cap p) (zlen (p_consts p) + 1) e;
          match cap with
          | None => Some (0, e)
          | Some cap =>
              l ← append (p_consts p) cap v;
              Some (u16 (zlen (p_consts p)),
                put_fs (set_stream (fs_prev_line fs) (MkStream (p_instrs p) (p_instr_cap p) (p_deltas p) (p_delta_cap p) (p_abs p) (p_abs_cap p) l cap) fs) e)
          end
    end.

Definition uconst_int (v : Z) := const_add (KInt v).
Definition uconst_float (bits : Z) := const_add (KFloat bits).
Definition uconst_str (interned : sym) := const_add (KStr interned).

(** ** Sites *)

Definition usite (name : sym) (e : UEmitter) : option (Z * UEmitter) :=
  fs ← head (e_fs e);
  if negb (is_ok e) then Some (0, e)
  else if zlen (fs_sites fs) =? UINT16_MAX then Some (0, uemit_fail EMIT_TOO_MANY_SITES e)
  else
    '(cap, e) ← (if zlen (fs_sites fs) =? fs_site_cap fs then grow (fs_site_cap fs) (zlen (fs_sites fs) + 1) e else Some (Some (fs_site_cap fs), e));
    match cap with
    | None => Some (0, e)
    | Some cap =>
        let cap := if UINT16_MAX <? cap then UINT16_MAX else cap in
        l ← append (fs_sites fs) cap name;
        Some (zlen (fs_sites fs), put_fs (set_sites l cap fs) e)
    end.

Definition uslot_emit (op : UOpcode) (a b site line : Z) (e : UEmitter) : option UEmitter :=
  e ← (if 255 <? site then '(_, e) ← uinstr_emit (uinstr_enc_abx OP_EXTARG 0 (u16 (Z.shiftr site 8))) line e; Some e else Some e);
  '(_, e) ← uinstr_emit (uinstr_enc_abc op a b (Z.land site 255)) line e;
  Some e.

(** ** Blocks *)

Definition ublock_open (is_loop : bool) (e : UEmitter) : option (bool * UEmitter) :=
  fs ← head (e_fs e);
  if UFS_MAX_BLOCKS <=? zlen (fs_blocks fs) then Some (false, uemit_fail EMIT_NESTING_TOO_DEEP e)
  else Some (true, put_fs (set_blocks (fs_blocks fs ++ [MkBlock (length (fs_locals fs)) (fs_freereg fs) is_loop false]) fs) e).

(** [blocks[n - 1].has_captured = true], if there is one. *)
Definition mark_last (l : list UBlock) : list UBlock :=
  match last l with Some b => take (length l - 1) l ++ [MkBlock (b_nactvar b) (b_freereg b) (b_is_loop b) true] | None => l end.

Definition ublock_close (e : UEmitter) : option (bool * UEmitter) :=
  fs ← head (e_fs e);
  match last (fs_blocks fs) with
  | None => Some (false, uemit_fail EMIT_UNSUPPORTED_AST e)
  | Some b =>
      e ← (if b_captured b then '(_, e) ← uinstr_emit (uinstr_enc_abc OP_CLOSE (b_freereg b) 0 0) (fs_prev_line fs) e; Some e else Some e);
      fs ← head (e_fs e);
      let outer := take (length (fs_blocks fs) - 1) (fs_blocks fs) in
      let outer := if b_captured b then mark_last outer else outer in
      Some (true, put_fs (set_regs (b_freereg b) (fs_max_reg fs) (set_locals (take (b_nactvar b) (fs_locals fs)) (set_blocks outer fs))) e)
  end.

(** ** Functions *)

Definition empty_stream : stream := MkStream [] 0 [] 0 [] 0 [] 0.
(** Asking the allocator. *)
Definition ask (e : UEmitter) : bool * UEmitter := (grants (e_calls e), MkEmitter (e_fs e) (e_error e) (S (e_calls e)) (e_ses e)).
Definition set_ses (s : session) (e : UEmitter) : UEmitter := MkEmitter (e_fs e) (e_error e) (e_calls e) s.

(** A closed function state is used again before another is allocated. *)
Definition ufunc_open (nparams : Z) (e : UEmitter) : bool * UEmitter :=
  let s := e_ses e in
  let '(ok, e) := match s_free s with
                  | O => ask e
                  | S n => (true, set_ses (MkSession (s_serial s) n (s_lazy_globals s) (s_lazy_arg_ctx s) (s_any_stmt s) (s_last_result s)) e)
                  end in
  if ok then (true, MkEmitter (MkFs [] 0 0 [] [] [] 0 0 0 empty_stream 0 255 [] [] nparams [] 0 :: e_fs e) (e_error e) (e_calls e) (e_ses e))
  else (false, uemit_fail EMIT_OOM e).

(** A run of emissions, each with its source line. *)
Fixpoint emit_all (l : list (Z * Z)) (e : UEmitter) : option UEmitter :=
  match l with [] => Some e | x :: l => '(_, e) ← uinstr_emit x.1 x.2 e; emit_all l e end.
End Grants.

(** ** The runtime's reading of the line table (src/src/rt/uunwind.c) *)

(** [while (abs_lines[abs_idx].pc < i) abs_idx++], on the checkpoints from [abs_idx] on. *)
Fixpoint skip_abs (i : Z) (l : list (Z * Z)) : list (Z * Z) :=
  match l with x :: l' => if x.1 <? i then skip_abs i l' else l | [] => [] end.

(** One instruction: the line so far and the checkpoints left. *)
Definition line_step (i d : Z) (st : Z * list (Z * Z)) : Z * list (Z * Z) :=
  if d =? -128 then
    match skip_abs i st.2 with
    | x :: l => if x.1 =? i then (x.2, l) else (st.1, x :: l)
    | [] => (st.1, [])
    end
  else (u32 (st.1 + d), st.2).

Fixpoint line_loop (i : Z) (deltas : list Z) (st : Z * list (Z * Z)) : Z * list (Z * Z) :=
  match deltas with [] => st | d :: deltas => line_loop (i + 1) deltas (line_step i d st) end.

Definition uproto_line_at (p : stream) (pc : Z) : Z :=
  if zlen (p_instrs p) <=? pc then 0 else (line_loop 0 (take (S (Z.to_nat pc)) (p_deltas p)) (0, p_abs p)).1.

(** ** Line tables *)

Lemma skip_abs_snoc i l x : i <= x.1 -> skip_abs i (l ++ [x]) = skip_abs i l ++ [x].
Proof. intros Hi. induction l as [|y l IH]; cbn; [destruct (x.1 <? i) eqn:E; [zbool; lia|done]|]. destruct (y.1 <? i); [apply IH|done]. Qed.

Lemma line_step_snoc i d line l x : i < x.1 -> line_step i d (line, l ++ [x]) = ((line_step i d (line, l)).1, (line_step i d (line, l)).2 ++ [x]).
Proof.
  intros Hi. unfold line_step. cbn [fst snd]. destruct (d =? -128); [|done]. rewrite skip_abs_snoc by lia.
  destruct (skip_abs i l) as [|y k]; cbn; [|by destruct (y.1 =? i)]. destruct (x.1 =? i) eqn:E; zbool; [lia|done].
Qed.

(** A checkpoint for a later instruction changes nothing before it. *)
Lemma line_loop_snoc ds : forall i line l x, i + zlen ds <= x.1 ->
  line_loop i ds (line, l ++ [x]) = ((line_loop i ds (line, l)).1, (line_loop i ds (line, l)).2 ++ [x]).
Proof.
  induction ds as [|d ds IH]; intros i line l x Hi; cbn [line_loop]; [done|]. rewrite zlen_cons in Hi. pose proof (zlen_nonneg ds).
  rewrite line_step_snoc by lia. destruct (line_step i d (line, l)) as [line' l']. apply IH. lia.
Qed.

Lemma line_loop_app ds : forall i d st, line_loop i (ds ++ [d]) st = line_step (i + zlen ds) d (line_loop i ds st).
Proof.
  induction ds as [|x ds IH]; intros i d st; cbn [line_loop app]; [by change (zlen []) with 0; rewrite Z.add_0_r|].
  rewrite IH, zlen_cons. f_equal. lia.
Qed.

Definition pow_cap (c : Z) : Prop := c = 0 \/ exists k, 4 <= k <= 40 /\ c = 2 ^ k.

(** A stream the emitter is writing: within its capacities, one delta per
    instruction, and a table that replays to the line of the last one. *)
Record stream_wf (p : stream) (prev : Z) : Prop := {
  sw_instrs : zlen (p_instrs p) <= p_instr_cap p;
  sw_deltas : zlen (p_deltas p) = zlen (p_instrs p);
  sw_delta_cap : p_instr_cap p <= p_delta_cap p;
  sw_abs : zlen (p_abs p) <= p_abs_cap p /\ zlen (p_abs p) <= zlen (p_instrs p);
  sw_consts : zlen (p_consts p) <= p_const_cap p /\ zlen (p_consts p) <= 65536 /\ NoDup (p_consts p);
  sw_caps : pow_cap (p_instr_cap p) /\ pow_cap (p_delta_cap p) /\ pow_cap (p_abs_cap p) /\ pow_cap (p_const_cap p);
  sw_replay : line_loop 0 (p_deltas p) (0, p_abs p) = (prev, []);
  sw_prev : 0 <= prev < 2 ^ 31 }.

Lemma double_cap_spec fuel : forall k need, 0 <= k <= 40 -> need <= 2 ^ 40 -> 40 - k <= Z.of_nat fuel ->
  exists j, k <= j <= 40 /\ double_cap fuel (2 ^ k) need = Some (2 ^ j) /\ need <= 2 ^ j.
Proof.
  induction fuel as [|fuel IH]; intros k need Hk Hn Hf; cbn [double_cap]; zcase.
  - assert (k = 40) as -> by lia. lia.
  - exists k. split; [lia|done].
  - assert (k <> 40) by (intros ->; lia). replace (u64 (2 ^ k * 2)) with (2 ^ (k + 1)).
    2:{ rewrite Z.pow_add_r by lia. rewrite u64_small; [done|]. assert (0 < 2 ^ k) by (apply Z.pow_pos_nonneg; lia).
        assert (2 ^ k <= 2 ^ 39) by (apply Z.pow_le_mono_r; lia). change (2 ^ 64) with (2 ^ 39 * 2 ^ 25). lia. }
    destruct (IH (k + 1) need) as (j & Hj & E & Hle); [lia|done|lia|]. exists j. split; [lia|done].
  - exists k. split; [lia|done].
Qed.

(** [grow] touches nothing but the allocator and, refused, the error. *)
Lemma stream_grow_spec grants cap need e : pow_cap cap -> need <= 2 ^ 40 -> is_ok e = true ->
  exists r e', grow grants cap need e = Some (r, e') /\ e_fs e' = e_fs e /\
    match r with
    | Some c => is_ok e' = true /\ pow_cap c /\ need <= c /\ cap <= c /\ (need <= cap -> c = cap)
    | None => e_error e' = EMIT_OOM
    end.
Proof.
  intros Hc Hn Hok. unfold grow. zcase; [eexists (Some cap), e; split; [done|]; by repeat (split; [done|])|].
  assert (Hd : exists j, 4 <= j <= 40 /\ double_cap 64 (if cap =? 0 then 16 else cap) need = Some (2 ^ j) /\ need <= 2 ^ j /\ cap <= 2 ^ j).
  { destruct Hc as [-> |(k & Hk & ->)].
    - destruct (double_cap_spec 64 4 need) as (j & Hj & E & Hle); [lia..|]. exists j. split; [lia|]. split; [exact E|]. split; [done|]. apply Z.pow_nonneg. lia.
    - replace (2 ^ k =? 0) with false by (symmetry; apply Z.eqb_neq; pose proof (Z.pow_pos_nonneg 2 k); lia).
      destruct (double_cap_spec 64 k need) as (j & Hj & E & Hle); [lia..|]. exists j. split; [lia|]. split; [exact E|]. split; [done|]. apply Z.pow_le_mono_r; lia. }
  destruct Hd as (j & Hj & -> & Hle & Hcj). cbn [mbind option_bind]. destruct (grants (e_calls e)).
  - eexists (Some _), _. split; [done|]. split; [done|]. split; [done|]. split; [right; by exists j|]. split; [done|]. split; [done|lia].
  - eexists None, _. split; [done|]. split; [done|]. unfold uemit_fail, is_ok in *. cbn. by rewrite Hok.
Qed.

Lemma append_fits {A} (l : list A) cap x : zlen l < cap -> append l cap x = Some (l ++ [x]).
Proof. intros. unfold append. zcase; [done|lia]. Qed.

Lemma line_delta_spec prev line d : line_delta prev line = Some d -> 0 <= prev < 2 ^ 31 -> 0 <= line < 2 ^ 31 -> -128 < d <= 127 /\ u32 (prev + d) = line.
Proof.
  unfold line_delta. destruct (prev =? 0); [done|]. destruct (_ || _) eqn:E; [done|]. zbool. intros [= <-] Hp Hl. split; [lia|]. rewrite u32_small; lia.
Qed.

(** The streams, and nothing else, of the current function may differ. *)
Definition stream_only (fs fs' : UFuncState) : Prop := fs' = set_stream (fs_prev_line fs') (fs_proto fs') fs.

Lemma stream_only_refl fs : stream_only fs fs.
Proof. by destruct fs. Qed.

(** Emitting one instruction. *)
Record emitted (ins line : Z) (fs fs' : UFuncState) : Prop := {
  em_only : stream_only fs fs';
  em_instrs : p_instrs (fs_proto fs') = p_instrs (fs_proto fs) ++ [ins];
  em_consts : p_consts (fs_proto fs') = p_consts (fs_proto fs);
  em_prev : fs_prev_line fs' = line;
  em_line : uproto_line_at (fs_proto fs') (zlen (p_instrs (fs_proto fs))) = line;
  em_lines : forall pc, 0 <= pc < zlen (p_instrs (fs_proto fs)) -> uproto_line_at (fs_proto fs') pc = uproto_line_at (fs_proto fs) pc }.

Section Emit.
Context (grants : nat -> bool).

Lemma emit_room_spec fs rest err calls ses : let e := MkEmitter (fs :: rest) err calls ses in err = EMIT_OK ->
  stream_wf (fs_proto fs) (fs_prev_line fs) -> zlen (p_instrs (fs_proto fs)) < 2 ^ 39 ->
  exists ok e' fs', room_for_instr grants e = Some (ok, e') /\ e_fs e' = fs' :: rest /\ stream_only fs fs' /\ fs_prev_line fs' = fs_prev_line fs /\
    p_instrs (fs_proto fs') = p_instrs (fs_proto fs) /\ p_deltas (fs_proto fs') = p_deltas (fs_proto fs) /\
    p_abs (fs_proto fs') = p_abs (fs_proto fs) /\ p_abs_cap (fs_proto fs') = p_abs_cap (fs_proto fs) /\ p_consts (fs_proto fs') = p_consts (fs_proto fs) /\
    if ok : bool then is_ok e' = true /\ stream_wf (fs_proto fs') (fs_prev_line fs') /\ zlen (p_instrs (fs_proto fs')) < p_instr_cap (fs_proto fs')
    else e_error e' = EMIT_OOM.
Proof.
  intros e Herr Hw Hsmall. pose proof Hw as [Hi Hd Hdc Ha Hk (C1 & C2 & C3 & C4) Hr Hp]. unfold room_for_instr. cbn [head e_fs e mbind option_bind].
  assert (Hok : is_ok e = true) by (unfold is_ok; cbn; by rewrite bool_decide_true).
  destruct (zlen (p_instrs (fs_proto fs)) =? p_instr_cap (fs_proto fs)) eqn:Ef; zbool; cbn [negb].
  2:{ exists true, e, fs. split; [done|]. split; [done|]. split; [apply stream_only_refl|]. repeat (split; [done|]). lia. }
  destruct (stream_grow_spec grants (p_instr_cap (fs_proto fs)) (zlen (p_instrs (fs_proto fs)) + 1) e C1 ltac:(lia) Hok) as (r & e1 & -> & Hfs1 & Hr1).
  cbn [mbind option_bind]. destruct r as [icap|].
  2:{ exists false, e1, fs. split; [done|]. split; [done|]. split; [apply stream_only_refl|]. by repeat (split; [done|]). }
  destruct Hr1 as (Hok1 & P1 & N1 & M1 & _).
  set (e2 := put_fs _ e1). assert (Hok2 : is_ok e2 = true) by exact Hok1.
  assert (Hicap : icap <= 2 ^ 40) by (destruct P1 as [-> |(k & Hk' & ->)]; [lia|apply Z.pow_le_mono_r; lia]).
  destruct (stream_grow_spec grants (p_instr_cap (fs_proto fs)) icap e2 C1 Hicap Hok2) as (r & e3 & -> & Hfs3 & Hr3). cbn [mbind option_bind]. destruct r as [dcap|].
  - destruct Hr3 as (Hok3 & P3 & N3 & _). eexists true, _, _. split; [done|].
    split; [unfold put_fs; cbn [e_fs]; rewrite Hfs3; unfold e2, put_fs; cbn [e_fs tail]; rewrite Hfs1; reflexivity|].
    repeat (split; [done|]). cbn [fs_proto set_stream fs_prev_line p_instrs p_instr_cap]. split; [|lia].
    by split; cbn; [lia| |lia| | | | |].
  - eexists false, e3, _. split; [done|]. split; [rewrite Hfs3; unfold e2, put_fs; cbn [e_fs tail]; rewrite Hfs1; reflexivity|].
    by repeat (split; [done|]).
Qed.

Lemma uinstr_emit_spec fs rest calls ses ins line : let e := MkEmitter (fs :: rest) EMIT_OK calls ses in
  stream_wf (fs_proto fs) (fs_prev_line fs) -> zlen (p_instrs (fs_proto fs)) < 2 ^ 32 - 1 -> 0 <= line < 2 ^ 31 ->
  exists e' fs', uinstr_emit grants ins line e = Some (zlen (p_instrs (fs_proto fs)), e') /\ e_fs e' = fs' :: rest /\
    (e_error e' = EMIT_OK /\ stream_wf (fs_proto fs') (fs_prev_line fs') /\ emitted ins line fs fs' \/
     e_error e' = EMIT_OOM /\ stream_only fs fs' /\ p_instrs (fs_proto fs') = p_instrs (fs_proto fs)).
Proof.
  intros e Hw Hsmall Hline. subst e. unfold uinstr_emit, uinstr_pc. cbn [head e_fs mbind option_bind].
  change (is_ok (MkEmitter (fs :: rest) EMIT_OK calls ses)) with true. cbn [negb]. set (n := zlen (p_instrs (fs_proto fs))) in *.
  destruct (emit_room_spec fs rest EMIT_OK calls ses eq_refl Hw ltac:(lia)) as (ok & e1 & fs1 & -> & Hfs1 & Ho1 & Hp1 & Hi1 & Hd1 & Ha1 & Hac1 & Hk1 & Hr1).
  cbn [mbind option_bind]. destruct ok; cbn [negb]; [|exists e1, fs1; split; [done|]; split; [done|]; by right].
  destruct Hr1 as (Hok1 & Hw1 & Hroom). rewrite Hfs1. cbn [head mbind option_bind]. rewrite Hi1 in Hroom. fold n in Hroom.
  pose proof Hw1 as [Wi Wd Wdc Wa Wk (C1 & C2 & C3 & C4) Wr Wp]. rewrite Hi1, Hd1 in Wd. fold n in Wd.
  assert (Hfin : forall abs acap delta e2, is_ok e2 = true -> e_fs e2 = fs1 :: rest -> zlen abs <= acap -> zlen abs <= n + 1 -> pow_cap acap ->
      line_loop 0 (p_deltas (fs_proto fs1) ++ [delta]) (0, abs) = (line, []) ->
      (forall pc, 0 <= pc < n -> (line_loop 0 (take (S (Z.to_nat pc)) (p_deltas (fs_proto fs))) (0, abs)).1 = (line_loop 0 (take (S (Z.to_nat pc)) (p_deltas (fs_proto fs))) (0, p_abs (fs_proto fs))).1) ->
      exists e' fs', (iw ← append (p_instrs (fs_proto fs1)) (p_instr_cap (fs_proto fs1)) ins; ds ← append (p_deltas (fs_proto fs1)) (p_delta_cap (fs_proto fs1)) delta;
        Some (n, put_fs (set_stream line (MkStream iw (p_instr_cap (fs_proto fs1)) ds (p_delta_cap (fs_proto fs1)) abs acap (p_consts (fs_proto fs1)) (p_const_cap (fs_proto fs1))) fs1) e2)) = Some (n, e') /\
      e_fs e' = fs' :: rest /\ (e_error e' = EMIT_OK /\ stream_wf (fs_proto fs') (fs_prev_line fs') /\ emitted ins line fs fs' \/
       e_error e' = EMIT_OOM /\ stream_only fs fs' /\ p_instrs (fs_proto fs') = p_instrs (fs_proto fs))).
  { intros abs acap delta e2 Hok2 Hfs2 La Lb Pa Hrep Hold. rewrite !append_fits by (rewrite ?Hi1, ?Hd1; fold n; lia). cbn [mbind option_bind].
    eexists _, _. split; [done|]. split; [unfold put_fs; cbn [e_fs]; by rewrite Hfs2|]. left. split; [by apply bool_decide_eq_true in Hok2|].
    cbn [fs_proto fs_prev_line set_stream]. split; [|split; cbn [fs_proto fs_prev_line set_stream p_instrs p_consts]].
    - split; cbn; rewrite ?zlen_app, ?Hi1, ?Hd1; change (zlen [ins]) with 1; change (zlen [delta]) with 1; fold n; try done; try lia.
      by rewrite <- Hd1.
    - unfold stream_only in *. rewrite Ho1. done.
    - by rewrite Hi1.
    - done.
    - done.
    - unfold uproto_line_at. cbn [p_instrs p_deltas p_abs]. rewrite zlen_app, Hi1. change (zlen [ins]) with 1. fold n. zcase; [lia|].
      rewrite take_ge by (rewrite length_app, Hd1; cbn [length]; unfold zlen in *; lia). by rewrite Hrep.
    - intros pc Hpc. unfold uproto_line_at. cbn [p_instrs p_deltas p_abs]. rewrite zlen_app, Hi1. change (zlen [ins]) with 1. fold n. zcase; [lia|]. zcase; [lia|].
      rewrite Hd1, take_app_le by (unfold zlen in *; lia). by apply Hold. }
  rewrite Hp1. pose proof (sw_replay _ _ Hw) as Hrep. pose proof (sw_prev _ _ Hw) as Hprev.
  destruct (line_delta (fs_prev_line fs) line) as [d|] eqn:El; cbn [mbind option_bind default from_option id].
  - destruct (line_delta_spec _ _ _ El Hprev Hline) as [Hd Hu]. apply Hfin; try done.
    + apply Wa.
    + destruct Wa as [_ Wa]. rewrite Hi1 in Wa. fold n in Wa. lia.
    + rewrite line_loop_app, Hd1, Ha1, Hrep. unfold line_step. replace (d =? -128) with false by (symmetry; apply Z.eqb_neq; lia). cbn [fst snd]. by rewrite Hu.
    + intros pc _. by rewrite Ha1.
  - destruct (stream_grow_spec grants (p_abs_cap (fs_proto fs1)) (zlen (p_abs (fs_proto fs1)) + 1) e1 C3) as (r & e2 & -> & Hfs2 & Hr2).
    { destruct Wa as [_ Wa]. rewrite Hi1 in Wa. fold n in Wa. lia. }
    { done. }
    cbn [mbind option_bind]. destruct r as [acap|]; cbn [mbind option_bind].
    + destruct Hr2 as (Hok2 & P2 & N2 & _). rewrite (append_fits (p_abs (fs_proto fs1)) acap) by lia. cbn [mbind option_bind].
      assert (Hn32 : u32 n = n) by (apply u32_small; subst n; pose proof (zlen_nonneg (p_instrs (fs_proto fs))); lia). rewrite Hn32.
      apply Hfin; try done.
      * congruence.
      * rewrite zlen_app. change (zlen [_]) with 1. lia.
      * rewrite zlen_app. change (zlen [_]) with 1. destruct Wa as [_ Wa]. rewrite Hi1 in Wa. fold n in Wa. lia.
      * rewrite line_loop_app, Ha1, Hd1, line_loop_snoc by (cbn [fst]; rewrite Wd; lia). rewrite Hrep. unfold line_step. cbn [fst snd app skip_abs].
        rewrite Wd. cbn [Z.eqb Pos.eqb]. replace (n <? 0 + n) with false by (symmetry; apply Z.ltb_ge; lia). by rewrite Z.add_0_l, Z.eqb_refl.
      * intros pc Hpc. rewrite Ha1. rewrite line_loop_snoc; [done|]. cbn [fst]. unfold zlen in *. rewrite length_take. lia.
    + exists e2, fs1. split; [done|]. split; [congruence|]. right. split; [done|]. split; [done|]. by rewrite Hi1.
Qed.
(** With an error latched, nothing more is emitted. *)
Lemma emit_all_stuck l e : e_error e <> EMIT_OK -> e_fs e <> [] -> emit_all grants l e = Some e.
Proof.
  intros He Hf. induction l as [|x l IH]; [done|]. cbn [emit_all]. unfold uinstr_emit, uinstr_pc, is_ok.
  destruct (e_fs e) as [|fs rest]; [done|]. rewrite bool_decide_false by done. exact IH.
Qed.

Definition recorded (fs : UFuncState) (l : list (Z * Z)) : Prop :=
  p_instrs (fs_proto fs) = l.*1 /\ forall pc ins line, l !! Z.to_nat pc = Some (ins, line) -> 0 <= pc -> uproto_line_at (fs_proto fs) pc = line.

Lemma recorded_snoc fs fs' l ins line : recorded fs l -> emitted ins line fs fs' -> recorded fs' (l ++ [(ins, line)]).
Proof.
  intros [Hi Hl] [_ E1 _ _ E2 E3]. assert (Hn : zlen (p_instrs (fs_proto fs)) = zlen l) by (rewrite Hi; unfold zlen; by rewrite length_fmap).
  split; [by rewrite E1, Hi, fmap_app|]. intros pc i ln Hat H0. rewrite Hn in *. unfold zlen in *.
  apply lookup_app_Some in Hat as [Hat|[Hlen Hat]].
  - pose proof (lookup_lt_Some _ _ _ Hat). rewrite E3 by lia. by apply (Hl pc i).
  - apply list_lookup_singleton_Some in Hat as [Hp [= -> ->]]. by replace pc with (Z.of_nat (length l)) by lia.
Qed.

Lemma emit_all_spec rest l : forall done_ fs calls ses, stream_wf (fs_proto fs) (fs_prev_line fs) -> recorded fs done_ ->
  zlen (done_ ++ l) < 2 ^ 32 - 1 -> Forall (fun x => 0 <= x.2 < 2 ^ 31) l ->
  exists e' fs', emit_all grants l (MkEmitter (fs :: rest) EMIT_OK calls ses) = Some e' /\ e_fs e' = fs' :: rest /\ stream_only fs fs' /\
    (e_error e' = EMIT_OK /\ stream_wf (fs_proto fs') (fs_prev_line fs') /\ recorded fs' (done_ ++ l) \/ e_error e' = EMIT_OOM).
Proof.
  induction l as [|[ins line] l IH]; intros dn fs calls ses Hw Hrec Hlen Hall.
  { eexists _, fs. rewrite app_nil_r. split; [done|]. split; [done|]. split; [apply stream_only_refl|]. by left. }
  apply Forall_cons in Hall as [Hx Hall]. cbn [emit_all fst snd] in *.
  assert (Hn : zlen (p_instrs (fs_proto fs)) = zlen dn) by (rewrite (proj1 Hrec); unfold zlen; by rewrite length_fmap).
  rewrite zlen_app, zlen_cons in Hlen. pose proof (zlen_nonneg l).
  destruct (uinstr_emit_spec fs rest calls ses ins line Hw ltac:(lia) Hx) as ([fss err calls' ses'] & fs1 & -> & Hfs & [(Herr & Hw1 & Hem)|(Herr & Ho & _)]); cbn [mbind option_bind e_fs e_error] in *; subst.
  - destruct (IH (dn ++ [(ins, line)]) fs1 calls' ses' Hw1) as (e' & fs' & Hrun & Hfs' & Ho' & Hres); [by eapply recorded_snoc|rewrite <- app_assoc, zlen_app; cbn [app]; rewrite zlen_cons; lia|done|].
    exists e', fs'. split; [done|]. split; [done|]. split; [|by rewrite <- app_assoc in Hres].
    destruct Hem as [Ho _ _ _ _ _]. unfold stream_only in *. rewrite Ho'. rewrite Ho. done.
  - rewrite emit_all_stuck by done. eexists _, fs1. split; [done|]. split; [done|]. split; [done|]. by right.
Qed.
End Emit.

(** ** Jumps *)

Lemma jmp_word_decode bx : 0 <= bx < 65536 -> uinstr_opcode (jmp_word bx) = Some OP_JMP /\ uinstr_bx (jmp_word bx) = bx.
Proof.
  intros Hb. unfold jmp_word. rewrite u16_small by (change (2 ^ 16) with 65536; lia).
  destruct (uinstr_abx_decode OP_JMP 0 bx) as (_ & Ho & _ & Hx); [done|done|]. by split.
Qed.

Lemma jmp_word_target pc off : (0 <= off <= 32767 -> jmp_target (jmp_word (UEMIT_JMP_BIAS + off)) pc = pc + 1 + off) /\
  (-32768 <= off < 0 -> jmp_target (jmp_word (UEMIT_JMP_BIAS + off)) pc = pc + off).
Proof.
  unfold jmp_target, UEMIT_JMP_BIAS. split; intros Ho; (destruct (jmp_word_decode (32768 + off)) as [_ ->]; [lia|]); zcase; lia.
Qed.

(** ** Constants *)

Lemma find_const_spec v l : match find_const v l with Some i => l !! i = Some v | None => v ∉ l end.
Proof.
  induction l as [|k l IH]; cbn; [apply not_elem_of_nil|]. destruct (decide (k = v)) as [->|Hk]; [done|].
  destruct (find_const v l); cbn; [done|]. by rewrite not_elem_of_cons.
Qed.

Lemma const_add_spec (grants : nat -> bool) fs rest calls ses v : let e := MkEmitter (fs :: rest) EMIT_OK calls ses in let ks := p_consts (fs_proto fs) in
  stream_wf (fs_proto fs) (fs_prev_line fs) ->
  exists i e' fs', const_add grants v e = Some (i, e') /\ e_fs e' = fs' :: rest /\ stream_only fs fs' /\
    (e_error e' = EMIT_OK /\ stream_wf (fs_proto fs') (fs_prev_line fs') /\ p_instrs (fs_proto fs') = p_instrs (fs_proto fs) /\
       (exists new, p_consts (fs_proto fs') = ks ++ new /\ (new = [] \/ new = [v])) /\ 0 <= i < 65536 /\ p_consts (fs_proto fs') !! Z.to_nat i = Some v \/
     e_error e' = EMIT_CONSTANT_POOL_FULL /\ zlen ks = 65536 /\ v ∉ ks /\ fs' = fs \/
     e_error e' = EMIT_OOM /\ fs' = fs).
Proof.
  intros e ks Hw. subst e ks. pose proof Hw as [Wi Wd Wdc Wa (K1 & K2 & K3) (C1 & C2 & C3 & C4) Wr Wp].
  unfold const_add. cbn [head e_fs mbind option_bind]. change (negb (is_ok _)) with false. cbv iota.
  pose proof (find_const_spec v (p_consts (fs_proto fs))) as Hf. destruct (find_const v (p_consts (fs_proto fs))) as [i|].
  { pose proof (lookup_lt_Some _ _ _ Hf) as Hi. unfold zlen in K2. rewrite u16_small by (change (2 ^ 16) with 65536; lia).
    eexists _, _, fs. split; [done|]. split; [done|]. split; [apply stream_only_refl|]. left. split; [done|]. split; [done|]. split; [done|].
    split; [exists []; rewrite app_nil_r; by split; [|left]|]. split; [lia|]. by rewrite Nat2Z.id. }
  unfold UINT16_MAX. zcase.
  { eexists _, _, fs. split; [done|]. split; [done|]. split; [apply stream_only_refl|]. right; left. split; [done|]. split; [lia|done]. }
  destruct (stream_grow_spec grants (p_const_cap (fs_proto fs)) (zlen (p_consts (fs_proto fs)) + 1) (MkEmitter (fs :: rest) EMIT_OK calls ses) C4 ltac:(lia) eq_refl) as (r & e1 & -> & Hfs1 & Hr).
  cbn [mbind option_bind]. destruct r as [cap|].
  2:{ eexists _, _, fs. split; [done|]. split; [done|]. split; [apply stream_only_refl|]. by right; right. }
  destruct Hr as (Hok & P & N & M & _). rewrite append_fits by lia. cbn [mbind option_bind]. pose proof (zlen_nonneg (p_consts (fs_proto fs))).
  rewrite u16_small by (change (2 ^ 16) with 65536; lia).
  eexists _, _, _. split; [done|]. split; [cbn; by rewrite Hfs1|]. split; [done|]. left. split; [by apply bool_decide_eq_true in Hok|].
  cbn [fs_proto set_stream fs_prev_line p_instrs p_consts]. split.
  { split; cbn; try done. rewrite zlen_app. change (zlen [v]) with 1. split; [lia|]. split; [lia|].
    apply NoDup_app. split; [done|]. split; [|apply NoDup_singleton]. by intros x Hx ->%list_elem_of_singleton. }
  split; [done|]. split; [by exists [v]; split; [|right]|]. split; [lia|].
  unfold zlen. rewrite Nat2Z.id, lookup_app_r by lia. by rewrite Nat.sub_diag.
Qed.

(** ** What an upvalue stands for

    A variable of an enclosing function: how many functions further out than
    the parent, and its register there. *)

Definition deeper (x : nat * Z) : nat * Z := (S x.1, x.2).

(** The innermost enclosing local of that name. *)
Fixpoint outer_local (name : sym) (parents : list UFuncState) : option (nat * Z) :=
  match parents with
  | [] => None
  | p :: ps =>
      match ulocal_find p name with
      | Some li => x ← fs_locals p !! li; Some (O, lo_reg x)
      | None => deeper <$> outer_local name ps
      end
  end.

(** The variable a closure made from descriptor [u] captures (OP_CLOSURE). *)
Fixpoint follow (parents : list UFuncState) (u : UUpvalDesc) : option (nat * Z) :=
  match parents with
  | [] => None
  | p :: ps => if uv_in_stack u then Some (O, uv_idx u) else u' ← fs_upvals p !! Z.to_nat (uv_idx u); deeper <$> follow ps u'
  end.

(** Every descriptor captures the innermost enclosing local of its name. *)
Fixpoint upvals_ok (l : list UFuncState) : Prop :=
  match l with
  | [] => True
  | fs :: ps => (forall u, u ∈ fs_upvals fs -> is_Some (follow ps u) /\ follow ps u = outer_local (uv_name u) ps) /\ zlen (fs_upvals fs) <= UFS_MAX_UPVALUES /\ upvals_ok ps
  end.

Definition var_of (x : ULocal) : option sym * Z := (lo_name x, lo_reg x).

(** The same variables, and the same upvalues or more. *)
Definition extends (f f' : UFuncState) : Prop := var_of <$> fs_locals f = var_of <$> fs_locals f' /\ fs_upvals f `prefix_of` fs_upvals f'.

Lemma extends_refl f : extends f f.
Proof. by split. Qed.

Lemma find_last_ext name l : forall l', var_of <$> l = var_of <$> l' -> find_last name l = find_last name l'.
Proof.
  induction l as [|x l IH]; intros [|y l'] H; try done. cbn in H. inversion H as [[Hv Hr Hl]]. cbn. rewrite (IH l') by done.
  unfold named. by rewrite Hv.
Qed.

Lemma find_last_lt name l i : find_last name l = Some i -> is_Some (l !! i).
Proof.
  revert i. induction l as [|x l IH]; intros i H; [done|]. cbn in H. destruct (find_last name l) as [j|]; [injection H as <-; cbn; by apply IH|].
  destruct (named name x); [injection H as <-; by exists x|done].
Qed.

Lemma outer_local_ext name ps : forall ps', Forall2 extends ps ps' -> outer_local name ps = outer_local name ps'.
Proof.
  induction ps as [|p ps IH]; intros ps' H; inversion H as [|? p' ? ps'' [Hv _] Hps]; subst; [done|]. cbn.
  unfold ulocal_find. rewrite (find_last_ext _ _ _ Hv). rewrite (IH ps'') by done. destruct (find_last name (fs_locals p')) as [li|]; [|done].
  assert (E : (var_of <$> fs_locals p) !! li = (var_of <$> fs_locals p') !! li) by (by rewrite Hv). rewrite !list_lookup_fmap in E.
  destruct (fs_locals p !! li), (fs_locals p' !! li); cbn in *; unfold var_of in *; congruence.
Qed.

Lemma follow_ext ps : forall ps' u x, Forall2 extends ps ps' -> follow ps u = Some x -> follow ps' u = Some x.
Proof.
  induction ps as [|p ps IH]; intros ps' u x H; inversion H as [|? p' ? ps'' [_ Hu] Hps]; subst; [done|]. cbn.
  destruct (uv_in_stack u); [done|]. destruct (fs_upvals p !! Z.to_nat (uv_idx u)) as [u'|] eqn:E; [|done]. cbn.
  rewrite (prefix_lookup_Some _ _ _ _ E Hu). cbn. destruct (follow ps u') as [y|] eqn:F; [|done]. cbn. intros [= <-]. by rewrite (IH _ _ _ Hps F).
Qed.

(** Adding to enclosing functions leaves a function's upvalues right. *)
Lemma upvals_ok_ext fs ps ps' : Forall2 extends ps ps' ->
  (forall u, u ∈ fs_upvals fs -> is_Some (follow ps u) /\ follow ps u = outer_local (uv_name u) ps) ->
  (forall u, u ∈ fs_upvals fs -> is_Some (follow ps' u) /\ follow ps' u = outer_local (uv_name u) ps').
Proof.
  intros He H u Hu. destruct (H u Hu) as [[x Hx] E]. rewrite <- (outer_local_ext _ _ _ He), <- E, Hx, (follow_ext _ _ _ _ He Hx). split; [by exists x|done].
Qed.

Lemma find_upval_spec name l : match find_upval name l with Some i => exists u, l !! i = Some u /\ uv_name u = name | None => forall u, u ∈ l -> uv_name u <> name end.
Proof.
  induction l as [|u l IH]; cbn; [by intros u Hu%elem_of_nil|]. destruct (decide (uv_name u = name)) as [Hn|Hn]; [by exists u|].
  destruct (find_upval name l); cbn; [done|]. intros x [->|Hx]%elem_of_cons; [done|by apply IH].
Qed.

(** Installing a descriptor for a name the function has none for. *)
Lemma install_spec fs name idx in_stack err : find_upval name (fs_upvals fs) = None -> zlen (fs_upvals fs) <= UFS_MAX_UPVALUES ->
  let u := MkUpvalDesc name idx in_stack in
  exists r fs' err', upval_install fs name idx in_stack err = (r, fs', err') /\ fs_locals fs' = fs_locals fs /\ zlen (fs_upvals fs') <= UFS_MAX_UPVALUES /\
    match r with
    | Some i => fs_upvals fs' = fs_upvals fs ++ [u] /\ i = length (fs_upvals fs) /\ err' = err
    | None => fs' = fs /\ err' <> EMIT_OK /\ zlen (fs_upvals fs) = UFS_MAX_UPVALUES
    end.
Proof.
  intros Hf Hz u. unfold upval_install. rewrite Hf. zcase.
  - eexists None, fs, _. split; [done|]. split; [done|]. split; [done|]. split; [done|]. split; [|lia]. by case_decide.
  - eexists (Some _), _, err. split; [done|]. split; [done|]. cbn. split; [rewrite zlen_app; change (zlen [_]) with 1; lia|done].
Qed.

Lemma capture_extends li p : extends p (capture_local li p).
Proof.
  split; [|done]. cbn. symmetry. generalize (fs_locals p). intros l. revert li. induction l as [|x l IH]; intros [|li]; cbn; try done. by rewrite IH.
Qed.


Definition resolved (name : sym) (l l' : list UFuncState) (r : option nat) : Prop :=
  match r with
  | Some i => exists fs' ps' u, l' = fs' :: ps' /\ fs_upvals fs' !! i = Some u /\ uv_name u = name /\ is_Some (follow ps' u) /\ follow ps' u = outer_local name (tail l)
  | None => True
  end.

Lemma find_or_install_eq fs p rest name err : uupval_find_or_install (fs :: p :: rest) name err =
  match find_upval name (fs_upvals fs) with
  | Some i => Some (Some i, fs :: p :: rest, err)
  | None =>
      match ulocal_find p name with
      | Some li =>
          x ← fs_locals p !! li;
          let '(r, fs, err) := upval_install fs name (lo_reg x) true err in Some (r, fs :: capture_local li p :: rest, err)
      | None =>
          '(gi, ps, err) ← uupval_find_or_install (p :: rest) name err;
          match gi with
          | None => Some (None, fs :: ps, err)
          | Some gi => let '(r, fs, err) := upval_install fs name (u8 (Z.of_nat gi)) false err in Some (r, fs :: ps, err)
          end
      end
  end.
Proof. done. Qed.

Lemma find_or_install_spec name err l : l <> [] -> upvals_ok l ->
  exists r l' err', uupval_find_or_install l name err = Some (r, l', err') /\ upvals_ok l' /\ Forall2 extends l l' /\ resolved name l l' r /\
    (r = None -> outer_local name (tail l) = None /\ l' = l /\ err' = err \/ err' <> EMIT_OK) /\ (r <> None -> err' = err).
Proof.
  induction l as [|fs parents IH]; intros Hne Hok; [done|]. clear Hne.
  assert (Hsame : Forall2 extends (fs :: parents) (fs :: parents)) by (apply Forall_Forall2_diag, Forall_true; intros; apply extends_refl).
  destruct parents as [|p rest]. { eexists None, _, err. split; [done|]. split; [done|]. split; [done|]. split; [done|]. split; [by left|done]. }
  destruct Hok as (Hu & Hz & Hps). rewrite find_or_install_eq. pose proof (find_upval_spec name (fs_upvals fs)) as Hfind.
  destruct (find_upval name (fs_upvals fs)) as [i|] eqn:Ef.
  { destruct Hfind as (u & Hi & Hn). eexists (Some i), _, err. split; [done|]. split; [by split|]. split; [done|].
    split; [|by split]. destruct (Hu u) as [Hs E]; [by eapply list_elem_of_lookup_2|]. exists fs, (p :: rest), u. subst name. done. }
  (* a descriptor for the variable [x] of [ps'], which extends [p :: rest] *)
  assert (Hput : forall ps' idx in_stack err', Forall2 extends (p :: rest) ps' -> upvals_ok ps' ->
      is_Some (follow ps' (MkUpvalDesc name idx in_stack)) -> follow ps' (MkUpvalDesc name idx in_stack) = outer_local name (p :: rest) ->
      exists r fs' err'', upval_install fs name idx in_stack err' = (r, fs', err'') /\ upvals_ok (fs' :: ps') /\
        Forall2 extends (fs :: p :: rest) (fs' :: ps') /\ resolved name (fs :: p :: rest) (fs' :: ps') r /\ (r = None -> err'' <> EMIT_OK) /\ (r <> None -> err'' = err')).
  { intros ps' idx in_stack err' He Hps' Hs E. destruct (install_spec fs name idx in_stack err' Ef Hz) as (r & fs' & err'' & -> & Hl & Hz' & Hr).
    pose proof (upvals_ok_ext fs _ _ He Hu) as Hu'. exists r, fs', err''. split; [done|]. destruct r as [i|].
    - destruct Hr as (Hup & -> & ->). split.
      { split; [|by split]. intros u. rewrite Hup, elem_of_app, list_elem_of_singleton. intros [Hin| ->]; [by apply Hu'|].
        split; [done|]. cbn [uv_name]. by rewrite E, <- (outer_local_ext _ _ _ He). }
      split; [constructor; [split; [by rewrite Hl|rewrite Hup; by eexists]|done]|]. split; [|by split].
      eexists fs', ps', _. split; [done|]. split; [rewrite Hup; by apply list_lookup_middle|]. split; [done|]. by split.
    - destruct Hr as (-> & Herr & _). split; [by split|]. split; [by constructor|]. split; [done|]. by split. }
  destruct (ulocal_find p name) as [li|] eqn:El.
  - destruct (find_last_lt _ _ _ El) as [x Hx]. rewrite Hx. cbn [mbind option_bind].
    assert (He : Forall2 extends (p :: rest) (capture_local li p :: rest)) by (constructor; [apply capture_extends|]; apply Forall_Forall2_diag, Forall_true; intros; apply extends_refl).
    assert (E : outer_local name (p :: rest) = Some (O, lo_reg x)) by (cbn; by rewrite El, Hx).
    destruct Hps as (Hpu & Hpz & Hrest).
    destruct (Hput (capture_local li p :: rest) (lo_reg x) true err He) as (r & fs' & err' & -> & Hok' & He' & Hres & Hn & Hs).
    { split; [|by split]. exact Hpu. }
    { by eexists. }
    { by rewrite E. }
    cbn. eexists r, _, err'. split; [done|]. split; [done|]. split; [done|]. split; [done|]. split; [intros ->; right; by apply Hn|done].
  - destruct (IH ltac:(done) Hps) as (gi & ps' & err' & -> & Hok' & He' & Hres & Hn & Hs). cbn [mbind option_bind]. destruct gi as [gi|].
    + destruct Hres as (p' & rest' & u & -> & Hgi & Hun & [y Hy] & E). cbn [tail] in E.
      assert (Hgi' : Z.to_nat (u8 (Z.of_nat gi)) = gi).
      { apply lookup_lt_Some in Hgi as Hlt. destruct Hok' as (_ & Hz' & _). unfold zlen, UFS_MAX_UPVALUES in Hz'. rewrite u8_small by lia. lia. }
      assert (F : follow (p' :: rest') (MkUpvalDesc name (u8 (Z.of_nat gi)) false) = Some (deeper y)) by (cbn; rewrite Hgi', Hgi; cbn; by rewrite Hy).
      destruct (Hput (p' :: rest') (u8 (Z.of_nat gi)) false err' He' Hok') as (r & fs' & err'' & -> & Hok'' & He'' & Hres & Hn' & Hs').
      { by eexists. }
      { rewrite F. cbn. by rewrite El, <- E, Hy. }
      eexists r, _, err''. split; [done|]. split; [done|]. split; [done|]. split; [done|]. split; [intros ->; right; by apply Hn'|].
      intros Hr. rewrite (Hs' Hr). by apply Hs.
    + eexists None, _, err'. split; [done|]. pose proof (upvals_ok_ext fs _ _ He' Hu). split; [by split|]. split; [by constructor; [apply extends_refl|]|].
      split; [done|]. split; [|done]. intros _. destruct (Hn eq_refl) as [(Ho & -> & ->)|Herr]; [left|by right].
      cbn [tail outer_local] in *. by rewrite El, Ho.
Qed.


(** ** Registers *)

Definition block_wf (locals : list ULocal) (free : Z) (b : UBlock) : Prop :=
  (b_nactvar b <= length locals)%nat /\ 0 <= b_freereg b <= free /\
  Forall (fun x => lo_reg x < b_freereg b) (take (b_nactvar b) locals) /\ Forall (fun x => b_freereg b <= lo_reg x) (drop (b_nactvar b) locals).

Definition block_le (b b' : UBlock) : Prop := (b_nactvar b <= b_nactvar b')%nat /\ b_freereg b <= b_freereg b'.

(** Every local has a register of its own below [freereg], in order of
    declaration; blocks nest. *)
Record regs_wf (f : UFuncState) : Prop := {
  rw_sorted : StronglySorted (fun x y => lo_reg x < lo_reg y) (fs_locals f);
  rw_below : Forall (fun x => 0 <= lo_reg x < fs_freereg f) (fs_locals f);
  rw_free : 0 <= fs_freereg f <= 255 /\ fs_freereg f <= fs_max_reg f + 1 /\ fs_max_reg f <= 254;
  rw_blocks : Forall (block_wf (fs_locals f) (fs_freereg f)) (fs_blocks f);
  rw_nested : StronglySorted block_le (fs_blocks f);
  rw_counts : zlen (fs_locals f) <= UFS_MAX_LOCALS /\ zlen (fs_blocks f) <= UFS_MAX_BLOCKS }.

(** Where the registers of the innermost block start. *)
Definition floor (f : UFuncState) : Z := match last (fs_blocks f) with Some b => b_freereg b | None => 0 end.

Lemma ssorted_snoc {A} (R : A -> A -> Prop) l x : StronglySorted R (l ++ [x]) <-> StronglySorted R l /\ Forall (fun y => R y x) l.
Proof.
  rewrite StronglySorted_app, Forall_forall. split.
  - intros (H & Hl & _). split; [done|]. intros y Hy. by apply H; [|apply list_elem_of_singleton].
  - intros [Hl H]. split; [|split; [done|repeat constructor]]. intros y z Hy ->%list_elem_of_singleton. by apply H.
Qed.

Lemma sorted_take {A} (R : A -> A -> Prop) l n : StronglySorted R l -> StronglySorted R (take n l).
Proof. rewrite <- (take_drop n l) at 1. by intros (_ & ? & _)%StronglySorted_app. Qed.

Lemma last_snoc_inv {A} (l : list A) x : last l = Some x -> l = take (length l - 1) l ++ [x].
Proof. intros [l' ->]%last_Some. rewrite length_app. cbn [length]. by rewrite Nat.add_sub, take_app_length. Qed.

(** A larger [freereg], still allocated, keeps everything. *)
Lemma set_regs_wf free mx f : regs_wf f -> fs_freereg f <= free <= 255 -> free <= mx + 1 -> mx <= 254 -> regs_wf (set_regs free mx f).
Proof.
  intros [S B F K N C] Hf Hm Hx. split; cbn; try done; [|lia|].
  - eapply Forall_impl; [exact B|]. cbn. lia.
  - eapply Forall_impl; [exact K|]. intros b (? & ? & ? & ?). repeat (split; [done || lia|]). done.
Qed.

Lemma push_local_wf f x mx : regs_wf f -> lo_reg x = fs_freereg f -> fs_freereg f < 255 -> fs_max_reg f <= mx -> fs_freereg f <= mx <= 254 -> zlen (fs_locals f) < UFS_MAX_LOCALS ->
  regs_wf (set_locals (fs_locals f ++ [x]) (set_regs (fs_freereg f + 1) mx f)).
Proof.
  intros [S B F K N C] Hx Hf Hm Hm' Hz. split; cbn; try done; try lia.
  - apply ssorted_snoc. split; [done|]. eapply Forall_impl; [exact B|]. cbn. lia.
  - apply Forall_app. split; [eapply Forall_impl; [exact B|]; cbn; lia|]. constructor; [lia|done].
  - eapply Forall_impl; [exact K|]. intros b (H1 & H2 & H3 & H4). split; [rewrite length_app; lia|]. split; [lia|].
    rewrite take_app_le, drop_app_le by lia. split; [done|]. apply Forall_app. split; [done|]. constructor; [lia|done].
  - rewrite zlen_app. change (zlen [x]) with 1. split; [lia|apply C].
Qed.

(** Dropping the locals from the [n]th on and every register from [r] on. *)
Lemma cut_wf f n r bs : regs_wf f -> 0 <= r <= fs_freereg f -> (n <= length (fs_locals f))%nat -> Forall (fun x => lo_reg x < r) (take n (fs_locals f)) ->
  (exists rest, fs_blocks f = bs ++ rest) -> Forall (fun b => (b_nactvar b <= n)%nat /\ b_freereg b <= r) bs ->
  regs_wf (set_regs r (fs_max_reg f) (set_locals (take n (fs_locals f)) (set_blocks bs f))).
Proof.
  intros [S B F K N C] Hr Hn Hl [rest Hb] Hbs. rewrite Hb in *. split; cbn; try lia.
  - by apply sorted_take.
  - apply Forall_forall. intros x Hx. rewrite Forall_forall in B, Hl. pose proof (Hl x Hx). destruct (B x); [|lia]. eapply elem_of_sublist; [exact Hx|apply sublist_take].
  - apply Forall_forall. intros b Hin. rewrite Forall_forall in K, Hbs. destruct (K b) as (H1 & H2 & H3 & H4); [apply elem_of_app; by left|]. destruct (Hbs b Hin) as [H5 H6].
    split; [rewrite length_take; lia|]. split; [lia|]. rewrite take_take, Nat.min_l by done. split; [done|].
    apply Forall_forall. intros x Hx. rewrite Forall_forall in H4. apply H4.
    eapply elem_of_sublist; [exact Hx|]. rewrite <- (take_drop n (fs_locals f)) at 2. rewrite drop_app_le by (rewrite length_take; lia). apply sublist_inserts_r. done.
  - by apply StronglySorted_app in N as (_ & ? & _).
  - unfold zlen in *. rewrite length_take, length_app in *. lia.
Qed.

Lemma floor_bounds f : regs_wf f -> 0 <= floor f <= fs_freereg f.
Proof.
  intros W. pose proof (rw_free _ W). unfold floor. destruct (last (fs_blocks f)) as [b|] eqn:E; [|lia].
  apply last_Some in E as [l E]. pose proof (rw_blocks _ W) as K. rewrite E in K. apply Forall_app in K as [_ K]. apply Forall_cons in K as [(_ & ? & _) _]. lia.
Qed.

(** The innermost block bounds all of them. *)
Lemma blocks_le f : regs_wf f -> Forall (fun b => b_freereg b <= floor f) (fs_blocks f).
Proof.
  intros W. unfold floor. destruct (last (fs_blocks f)) as [b|] eqn:E.
  - pose proof (rw_nested _ W) as N. apply last_Some in E as [l E]. rewrite E in *. apply ssorted_snoc in N as [_ N].
    apply Forall_app. split; [|by constructor]. eapply Forall_impl; [exact N|]. by intros x [_ ?].
  - apply last_None in E. by rewrite E.
Qed.


Definition keeps (rest : list UFuncState) (e' : UEmitter) : Prop := exists fs', e_fs e' = fs' :: rest /\ regs_wf fs'.

Section Ops.
Context (fs : UFuncState) (rest : list UFuncState) (calls : nat) (ses : session) (W : regs_wf fs).
Let e := MkEmitter (fs :: rest) EMIT_OK calls ses.

Lemma ureg_alloc_spec : exists mx, ureg_alloc e =
  (if UFS_MAX_REGS - 1 <=? fs_freereg fs then Some (fs_freereg fs, uemit_fail EMIT_REG_EXHAUSTED e)
   else Some (fs_freereg fs, MkEmitter (set_regs (fs_freereg fs + 1) mx fs :: rest) EMIT_OK calls ses)) /\ fs_max_reg fs <= mx /\ (fs_freereg fs < 255 -> fs_freereg fs <= mx <= 254).
Proof.
  exists (if fs_max_reg fs <? fs_freereg fs then fs_freereg fs else fs_max_reg fs). pose proof (rw_free _ W).
  split; [|zcase; lia]. done.
Qed.

Lemma fresh_register : Forall (fun x => lo_reg x <> fs_freereg fs) (fs_locals fs).
Proof. eapply Forall_impl; [apply (rw_below _ W)|]. cbn. lia. Qed.

Lemma ureg_free_to_keeps r : floor fs <= r <= fs_freereg fs -> exists e', ureg_free_to r e = Some e' /\ keeps rest e'.
Proof.
  intros Hr. unfold ureg_free_to. cbn [head e_fs e mbind option_bind]. eexists. split; [done|]. eexists. split; [done|].
  pose proof (rw_below _ W) as B. pose proof (rw_sorted _ W) as S. pose proof (floor_bounds fs W). pose proof (rw_free _ W).
  set (n := if r <? ureg_top fs then ureg_top fs else r).
  assert (Ht : 0 <= ureg_top fs <= fs_freereg fs /\ Forall (fun x => lo_reg x < ureg_top fs) (fs_locals fs)).
  { unfold ureg_top. destruct (last (fs_locals fs)) as [x|] eqn:E; [|apply last_None in E; rewrite E; split; [lia|constructor]].
    apply last_snoc_inv in E. rewrite E in B, S |- *. apply Forall_app in B as [_ B]. apply Forall_cons in B as [Bx _]. rewrite u8_small by lia.
    split; [lia|]. apply ssorted_snoc in S as [_ S]. apply Forall_app. split; [|by constructor; [lia|]]. eapply Forall_impl; [exact S|]. cbn. lia. }
  pose proof (cut_wf fs (length (fs_locals fs)) n (fs_blocks fs) W) as Hc. rewrite take_ge in Hc by lia.
  destruct fs as [ls fr mx us bs ss sc pl nc p rg rn lps scs np ne nc2]. unfold n in *. cbn in *. apply Hc; [zcase; lia|lia| | |].
  - eapply Forall_impl; [apply Ht|]. cbn. intros. zcase; lia.
  - exists []. by rewrite app_nil_r.
  - pose proof (blocks_le _ W) as L. pose proof (rw_blocks _ W) as K. rewrite Forall_forall in *. intros b Hb. destruct (K b Hb) as (H1 & _). specialize (L b Hb). cbn in *. split; [done|zcase; lia].
Qed.

Lemma local_push_keeps x : lo_reg x = fs_freereg fs -> lo_mask x = 0 -> fs_freereg fs < 255 -> forall mx, fs_max_reg fs <= mx -> fs_freereg fs <= mx <= 254 ->
  exists r e', local_push (lo_name x) (lo_reg x) (lo_flags x) (MkEmitter (set_regs (fs_freereg fs + 1) mx fs :: rest) EMIT_OK calls ses) = Some (r, e') /\ keeps rest e' /\
    (forall i, r = Some i -> exists fs', head (e_fs e') = Some fs' /\ fs_locals fs' = fs_locals fs ++ [x] /\ i = length (fs_locals fs) /\ fs_freereg fs' = fs_freereg fs + 1).
Proof.
  intros Hx Hk Hf mx Hm Hm'. unfold local_push. cbn [head e_fs mbind option_bind]. zcase.
  - eexists None, _. split; [done|]. split; [|done]. eexists. split; [done|]. apply set_regs_wf; [done|lia..].
  - eexists (Some _), _. split; [done|]. destruct x as [nm rg fl mk]. cbn in *. subst mk. split.
    + eexists. split; [done|]. by apply push_local_wf.
    + intros i [= <-]. eexists. split; [done|]. done.
Qed.
Lemma alloc_push_keeps x : lo_reg x = fs_freereg fs -> lo_mask x = 0 -> exists r e1, ureg_alloc e = Some (r, e1) /\
  ((is_ok e1 = false /\ keeps rest e1 /\ e_error e1 = EMIT_REG_EXHAUSTED) \/
   (is_ok e1 = true /\ r = fs_freereg fs /\ exists i e2, local_push (lo_name x) r (lo_flags x) e1 = Some (i, e2) /\ keeps rest e2 /\
     (forall j, i = Some j -> exists fs', head (e_fs e2) = Some fs' /\ fs_locals fs' = fs_locals fs ++ [x] /\ j = length (fs_locals fs) /\ fs_freereg fs' = fs_freereg fs + 1))).
Proof.
  intros Hx Hmk. destruct ureg_alloc_spec as (mx & E & Hm & Hm'). rewrite E. zcase.
  - eexists _, _. split; [done|]. left. split; [done|]. split; [|done]. by exists fs.
  - unfold UFS_MAX_REGS in *. eexists _, _. split; [done|]. right. split; [done|]. split; [done|]. 
    destruct (local_push_keeps x Hx Hmk ltac:(lia) mx Hm (Hm' ltac:(lia))) as (i & e2 & Hp & Hk). exists i, e2. by rewrite <- Hx at 1.
Qed.

(** The new local has the register that was free, and that no other local has. *)
Lemma ulocal_declare_keeps name : exists r e', ulocal_declare name e = Some (r, e') /\ keeps rest e' /\
  (forall i, r = Some i -> exists fs', head (e_fs e') = Some fs' /\ fs_locals fs' = fs_locals fs ++ [MkLocal (Some name) (fs_freereg fs) 0 0] /\ i = length (fs_locals fs)).
Proof.
  unfold ulocal_declare. cbn [head e_fs e mbind option_bind].
  destruct (existsb (named name) (drop _ (fs_locals fs))); [eexists None, _; split; [done|]; split; [by exists fs|done]|].
  destruct (alloc_push_keeps (MkLocal (Some name) (fs_freereg fs) 0 0) eq_refl eq_refl) as (r & e1 & Ea & H). unfold e in Ea |- *. rewrite Ea. cbn [mbind option_bind].
  destruct H as [(-> & Hk & _)|(-> & -> & i & e2 & Hp & Hk & Hi)]; cbn [negb]; [by eexists None, _|].
  cbn in Hp. rewrite Hp. eexists i, e2. split; [done|]. split; [done|]. intros j Hj. destruct (Hi j Hj) as (fs' & ? & ? & ? & _). by exists fs'.
Qed.

Lemma upin_keeps : exists r e', upin e = Some (r, e') /\ keeps rest e'.
Proof.
  unfold upin. destruct (alloc_push_keeps (MkLocal None (fs_freereg fs) ULOCAL_PINNED 0) eq_refl eq_refl) as (r & e1 & Ea & H). rewrite Ea. cbn [mbind option_bind].
  destruct H as [(-> & Hk & _)|(-> & -> & i & e2 & Hp & Hk & Hi)]; [by eexists _, _|]. cbn in Hp. rewrite Hp. cbn [mbind option_bind]. by eexists _, _.
Qed.

(** The pin must have been taken in the innermost block. *)
Lemma uunpin_keeps x : last (fs_locals fs) = Some x -> Z.land (lo_flags x) ULOCAL_PINNED <> 0 ->
  (default O (b_nactvar <$> last (fs_blocks fs)) < length (fs_locals fs))%nat -> exists e', uunpin (lo_reg x) e = Some e' /\ keeps rest e'.
Proof.
  intros Hx Hp Hn. unfold uunpin. cbn [head e_fs e mbind option_bind]. change (negb (is_ok _)) with false. cbv iota. rewrite Hx. cbn [mbind option_bind].
  rewrite Z.eqb_refl. replace (_ =? 0) with false by (symmetry; by apply Z.eqb_neq). eexists. split; [done|]. eexists. split; [done|].
  pose proof (last_snoc_inv _ _ Hx) as El. pose proof (rw_below _ W) as B. pose proof (rw_sorted _ W) as S. rewrite El in B, S.
  apply Forall_app in B as [_ B]. apply Forall_cons in B as [B _]. apply ssorted_snoc in S as [_ S].
  pose proof (cut_wf fs (length (fs_locals fs) - 1) (lo_reg x) (fs_blocks fs) W) as Hc. destruct fs as [ls fr mx us bs ss sc pl nc p rg rn lps scs np ne nc2]. cbn in *.
  apply Hc; [lia|lia|done|exists []; by rewrite app_nil_r|]. clear Hc.
  pose proof (rw_blocks _ W) as K. pose proof (rw_nested _ W) as N. cbn in *. destruct (last bs) as [b|] eqn:Eb; cbn in *.
  2:{ apply last_None in Eb. by rewrite Eb. }
  apply last_snoc_inv in Eb. rewrite Eb in K, N |- *. apply ssorted_snoc in N as [_ N]. apply Forall_app in K as [_ K]. apply Forall_cons in K as [(H1 & H2 & H3 & H4) _].
  assert (Hb : b_freereg b <= lo_reg x).
  { rewrite Forall_forall in H4. apply H4. rewrite El. rewrite drop_app_le by (rewrite length_take; lia). apply elem_of_app. right. by apply list_elem_of_singleton. }
  apply Forall_app. split; [|repeat constructor; lia]. eapply Forall_impl; [exact N|]. intros y [? ?]. split; lia.
Qed.

Lemma ublock_open_keeps is_loop : exists r e', ublock_open is_loop e = Some (r, e') /\ keeps rest e'.
Proof.
  unfold ublock_open. cbn [head e_fs e mbind option_bind]. zcase; [eexists _, _; split; [done|]; by exists fs|].
  eexists _, _. split; [done|]. eexists. split; [done|]. pose proof (blocks_le fs W) as L. pose proof (floor_bounds fs W) as Hfl. pose proof W as [S B F K N C]. split; cbn; try done.
  - apply Forall_app. split; [done|]. repeat constructor; cbn; try lia.
    + rewrite take_ge by lia. eapply Forall_impl; [exact B|]. cbn. lia.
    + by rewrite drop_ge by lia.
  - apply ssorted_snoc. split; [done|]. rewrite Forall_forall in *. intros b Hb. destruct (K b Hb) as (H1 & _). specialize (L b Hb). split; cbn; lia.
  - rewrite zlen_app. change (zlen [_]) with 1. split; [apply C|lia].
Qed.
End Ops.


Lemma mark_last_forall (P : UBlock -> Prop) bs : (forall b c, P b -> P (MkBlock (b_nactvar b) (b_freereg b) (b_is_loop b) c)) -> Forall P bs -> Forall P (mark_last bs).
Proof.
  intros HP Hb. unfold mark_last. destruct (last bs) as [b|] eqn:E; [|done]. apply last_snoc_inv in E as E'. rewrite E' in Hb |- *.
  apply Forall_app in Hb as [Hl Hb]. apply Forall_cons in Hb as [Hb _]. rewrite <- E'. apply Forall_app. split; [done|]. repeat constructor. by apply HP.
Qed.

Lemma mark_last_sorted bs : StronglySorted block_le bs -> StronglySorted block_le (mark_last bs).
Proof.
  intros Hb. unfold mark_last. destruct (last bs) as [b|] eqn:E; [|done]. apply last_snoc_inv in E as E'. rewrite E' in Hb.
  apply ssorted_snoc in Hb as [Hs Hl]. by apply ssorted_snoc.
Qed.

Lemma mark_last_length bs : length (mark_last bs) = length bs.
Proof.
  unfold mark_last. destruct (last bs) as [b|] eqn:E; [|done]. apply last_snoc_inv in E. apply (f_equal length) in E. rewrite length_app in E |- *. done.
Qed.

Lemma mark_last_wf f (c : bool) : regs_wf f -> regs_wf (set_blocks (if c then mark_last (fs_blocks f) else fs_blocks f) f).
Proof.
  intros [S B F K N C]. destruct c; split; cbn; try done.
  - by apply mark_last_forall.
  - by apply mark_last_sorted.
  - unfold zlen in *. by rewrite mark_last_length.
Qed.

Lemma stream_only_wf f f' : stream_only f f' -> regs_wf f -> regs_wf f'.
Proof. intros -> [S B F K N C]. by split. Qed.

(** Closing a block gives back its locals and its registers. *)
Lemma ublock_close_keeps fs rest calls ses b : let e := MkEmitter (fs :: rest) EMIT_OK calls ses in regs_wf fs -> last (fs_blocks fs) = Some b ->
  stream_wf (fs_proto fs) (fs_prev_line fs) -> zlen (p_instrs (fs_proto fs)) < 2 ^ 32 - 1 -> forall grants,
  exists e' fs', ublock_close grants e = Some (true, e') /\ e_fs e' = fs' :: rest /\ regs_wf fs' /\
    fs_locals fs' = take (b_nactvar b) (fs_locals fs) /\ fs_freereg fs' = b_freereg b /\
    (e_error e' = EMIT_OK -> p_instrs (fs_proto fs') = p_instrs (fs_proto fs) ++ if b_captured b then [uinstr_enc_abc OP_CLOSE (b_freereg b) 0 0] else []).
Proof.
  intros e W Hb Hs Hn grants. unfold ublock_close. cbn [head e_fs e mbind option_bind]. rewrite Hb.
  assert (He : exists e1 fs1, (if b_captured b then '(_, e) ← uinstr_emit grants (uinstr_enc_abc OP_CLOSE (b_freereg b) 0 0) (fs_prev_line fs) e; Some e else Some e) = Some e1 /\
    e_fs e1 = fs1 :: rest /\ stream_only fs fs1 /\ (e_error e1 = EMIT_OK -> p_instrs (fs_proto fs1) = p_instrs (fs_proto fs) ++ if b_captured b then [uinstr_enc_abc OP_CLOSE (b_freereg b) 0 0] else [])).
  { destruct (b_captured b); [|exists e, fs; split; [done|]; split; [done|]; split; [apply stream_only_refl|by rewrite app_nil_r]].
    destruct (uinstr_emit_spec grants fs rest calls ses (uinstr_enc_abc OP_CLOSE (b_freereg b) 0 0) (fs_prev_line fs) Hs Hn (sw_prev _ _ Hs)) as (e1 & fs1 & E & Hfs & H).
    subst e. rewrite E. cbn. exists e1, fs1. split; [done|]. split; [done|]. destruct H as [(_ & _ & Hem)|(Herr & Ho & _)]; [|split; [done|congruence]].
    destruct Hem as [Ho Hi _ _ _ _]. done. }
  destruct He as (e1 & fs1 & He & Hfs1 & Ho & Hi). subst e. rewrite He. cbn [mbind option_bind]. rewrite Hfs1. cbn [head mbind option_bind].
  eexists _, _. split; [done|]. split; [unfold put_fs; cbn [e_fs]; by rewrite Hfs1|].
  pose proof (stream_only_wf _ _ Ho W) as W1. pose proof Ho as Ho'. unfold stream_only in Ho'.
  assert (Hb1 : fs_blocks fs1 = fs_blocks fs) by (by rewrite Ho'). assert (Hl1 : fs_locals fs1 = fs_locals fs) by (by rewrite Ho').
  pose proof (last_snoc_inv _ _ Hb) as E. cbn [fs_locals fs_freereg set_regs set_locals set_blocks]. rewrite Hl1. split; [|split; [done|by split]].
  rewrite <- Hb1 in Hb, E. pose proof (rw_blocks _ W1) as K. pose proof (rw_nested _ W1) as N. rewrite E in K, N.
  apply Forall_app in K as [_ K]. apply Forall_cons in K as [(H1 & H2 & H3 & H4) _]. apply ssorted_snoc in N as [_ N]. rewrite Hl1 in *.
  pose proof (cut_wf fs1 (b_nactvar b) (b_freereg b) (take (length (fs_blocks fs1) - 1) (fs_blocks fs1)) W1) as Hc. rewrite Hl1 in Hc.
  specialize (Hc H2 H1 H3). specialize (Hc ltac:(by eexists)). specialize (Hc ltac:(eapply Forall_impl; [exact N|]; by intros y [? ?])).
  apply (mark_last_wf _ (b_captured b)) in Hc. destruct fs1. exact Hc.
Qed.


(** ** The claims *)

(** The operations on the registers and scopes of the current function. *)
Inductive reg_op := RAlloc | RFree (r : Z) | RDeclare (name : sym) | RPin | RUnpin (r : Z) | ROpen (is_loop : bool) | RClose.

Definition run_op (grants : nat -> bool) (op : reg_op) (e : UEmitter) : option UEmitter :=
  match op with
  | RAlloc => snd <$> ureg_alloc e
  | RFree r => ureg_free_to r e
  | RDeclare name => snd <$> ulocal_declare name e
  | RPin => snd <$> upin e
  | RUnpin r => uunpin r e
  | ROpen is_loop => snd <$> ublock_open is_loop e
  | RClose => snd <$> ublock_close grants e
  end.

(** Freeing stays within the innermost block; a pin is undone in the block that took it, last in first out. *)
Definition allowed (fs : UFuncState) (op : reg_op) : Prop :=
  match op with
  | RFree r => floor fs <= r <= fs_freereg fs
  | RUnpin r => exists x, last (fs_locals fs) = Some x /\ lo_reg x = r /\ Z.land (lo_flags x) ULOCAL_PINNED <> 0 /\ (default O (b_nactvar <$> last (fs_blocks fs)) < length (fs_locals fs))%nat
  | RClose => exists b, last (fs_blocks fs) = Some b
  | _ => True
  end.

(** C30 The register discipline of the emitter is an invariant of all its
    register and scope operations: every local keeps a register of its own,
    registers grow in order of declaration and stay below [freereg], which
    stays within 255 and the recorded maximum, and open blocks nest; each
    operation returns, also when registers, locals or memory run out. A
    declared local gets the free register, which no other local has, and
    closing a block restores exactly the locals and the free register it was
    opened with, emitting OP_CLOSE exactly when the block is marked as
    captured. *)
Theorem registers_disciplined (grants : nat -> bool) fs rest calls ses : let e := MkEmitter (fs :: rest) EMIT_OK calls ses in
  regs_wf fs -> stream_wf (fs_proto fs) (fs_prev_line fs) -> zlen (p_instrs (fs_proto fs)) < 2 ^ 32 - 1 ->
  (forall op, allowed fs op -> exists e', run_op grants op e = Some e' /\ keeps rest e') /\
  Forall (fun x => lo_reg x <> fs_freereg fs) (fs_locals fs) /\
  (forall name, exists r e', ulocal_declare name e = Some (r, e') /\ forall i, r = Some i ->
     exists fs', head (e_fs e') = Some fs' /\ fs_locals fs' = fs_locals fs ++ [MkLocal (Some name) (fs_freereg fs) 0 0] /\ i = length (fs_locals fs)) /\
  (forall b, last (fs_blocks fs) = Some b -> exists e' fs', ublock_close grants e = Some (true, e') /\ e_fs e' = fs' :: rest /\
     fs_locals fs' = take (b_nactvar b) (fs_locals fs) /\ fs_freereg fs' = b_freereg b /\
     (e_error e' = EMIT_OK -> p_instrs (fs_proto fs') = p_instrs (fs_proto fs) ++ if b_captured b then [uinstr_enc_abc OP_CLOSE (b_freereg b) 0 0] else [])).
Proof.
  intros e W Hs Hn. split; [|split; [by apply fresh_register|split]].
  - intros op Ha. destruct op as [|r|name| |r|is_loop|]; cbn [run_op allowed] in *.
    + destruct (alloc_push_keeps fs rest calls ses W (MkLocal None (fs_freereg fs) 0 0) eq_refl eq_refl) as (r & e1 & E & _). unfold e. rewrite E. eexists. split; [done|].
      destruct (ureg_alloc_spec fs rest calls ses W) as (mx & E' & Hm & Hm'). rewrite E in E'. unfold UFS_MAX_REGS in E'.
      destruct (256 - 1 <=? fs_freereg fs) eqn:El; zbool; injection E' as -> ->; [by exists fs|]. eexists. split; [done|]. apply set_regs_wf; [done|lia..].
    + by apply ureg_free_to_keeps.
    + destruct (ulocal_declare_keeps fs rest calls ses W name) as (r & e' & E & Hk & _). unfold e. rewrite E. by eexists.
    + destruct (upin_keeps fs rest calls ses W) as (r & e' & E & Hk). unfold e. rewrite E. by eexists.
    + destruct Ha as (x & Hx & <- & Hp & Hb). by apply uunpin_keeps.
    + destruct (ublock_open_keeps fs rest calls ses W is_loop) as (r & e' & E & Hk). unfold e. rewrite E. by eexists.
    + destruct Ha as [b Hb]. destruct (ublock_close_keeps fs rest calls ses b W Hb Hs Hn grants) as (e' & fs' & E & Hf & Hw & _). unfold e. rewrite E. eexists. split; [done|by exists fs'].
  - intros name. destruct (ulocal_declare_keeps fs rest calls ses W name) as (r & e' & E & _ & Hi). by exists r, e'.
  - intros b Hb. destruct (ublock_close_keeps fs rest calls ses b W Hb Hs Hn grants) as (e' & fs' & E & Hf & _ & H1 & H2 & H3). by exists e', fs'.
Qed.

Lemma empty_stream_wf : stream_wf empty_stream 0.
Proof.
  split; cbn; try lia; try done.
  - by repeat split; try apply NoDup_nil_2.
  - by repeat split; left.
Qed.

(** A function with one captured local [x] in an open block above a local [a]. *)
Definition scoped_fs : UFuncState :=
  MkFs [MkLocal (Some [1]) 0 0 0; MkLocal (Some [2]) 1 ULOCAL_CAPTURED 0] 2 1 [] [MkBlock 1 1 false true] [] 0 0 0 empty_stream 0 255 [] [] 0 [] 0.

Lemma scoped_fs_wf : regs_wf scoped_fs.
Proof.
  split; cbn; try lia; try done.
  - repeat constructor; cbn; lia.
  - repeat constructor; cbn; lia.
  - repeat constructor; cbn; lia.
  - repeat constructor.
Qed.

Example registers_disciplined_witness : exists e' fs', ublock_close (fun _ => true) (MkEmitter [scoped_fs] EMIT_OK 0 new_session) = Some (true, e') /\ e_fs e' = [fs'] /\
  fs_locals fs' = [MkLocal (Some [1]) 0 0 0] /\ fs_freereg fs' = 1 /\ (e_error e' = EMIT_OK -> p_instrs (fs_proto fs') = [uinstr_enc_abc OP_CLOSE 1 0 0]).
Proof.
  pose proof (registers_disciplined (fun _ => true) scoped_fs [] 0 new_session scoped_fs_wf empty_stream_wf eq_refl) as (_ & _ & _ & H).
  exact (H (MkBlock 1 1 false true) eq_refl).
Defined.

(** C31 The line table the emitter writes is the one the runtime reads: after
    any run of emissions, from a stream in good order, either memory was
    refused and EMIT_OOM is latched, or the instructions are there in order and
    [uproto_line_at] gives for each the source line it was emitted with,
    whether its line is kept as a delta or as an absolute checkpoint. *)
Theorem emitted_lines_read_back (grants : nat -> bool) fs rest calls ses earlier l : stream_wf (fs_proto fs) (fs_prev_line fs) -> recorded fs earlier ->
  zlen (earlier ++ l) < 2 ^ 32 - 1 -> Forall (fun x => 0 <= x.2 < 2 ^ 31) l ->
  exists e' fs', emit_all grants l (MkEmitter (fs :: rest) EMIT_OK calls ses) = Some e' /\ e_fs e' = fs' :: rest /\ stream_only fs fs' /\
    (e_error e' = EMIT_OK /\ stream_wf (fs_proto fs') (fs_prev_line fs') /\ p_instrs (fs_proto fs') = (earlier ++ l).*1 /\
       (forall pc ins line, 0 <= pc -> (earlier ++ l) !! Z.to_nat pc = Some (ins, line) -> uproto_line_at (fs_proto fs') pc = line) \/
     e_error e' = EMIT_OOM).
Proof.
  intros Hw Hr Hn Hl. destruct (emit_all_spec grants rest l earlier fs calls ses Hw Hr Hn Hl) as (e' & fs' & E & Hf & Ho & [(He & Hw' & Hi & Hlines)|He]);
    exists e', fs'; split; [done| |done|]; (split; [done|]; split; [done|]); [left|by right].
  repeat (split; [done|]). intros pc ins line H0 Hat. by eapply Hlines.
Qed.

Example emitted_lines_read_back_witness : exists e' fs', emit_all (fun _ => true) [(1, 7); (2, 9); (3, 500)] (MkEmitter [scoped_fs] EMIT_OK 0 new_session) = Some e' /\ e_fs e' = [fs'] /\
  uproto_line_at (fs_proto fs') 0 = 7 /\ uproto_line_at (fs_proto fs') 1 = 9 /\ uproto_line_at (fs_proto fs') 2 = 500.
Proof.
  destruct (emitted_lines_read_back (fun _ => true) scoped_fs [] 0 new_session [] [(1, 7); (2, 9); (3, 500)] empty_stream_wf) as (e' & fs' & E & Hf & _ & H).
  - split; [done|]. intros pc ins line Hx. by rewrite lookup_nil in Hx.
  - done.
  - repeat constructor; cbn; lia.
  - exists e', fs'. split; [done|]. split; [done|]. vm_compute in E. injection E as <-. destruct H as [(_ & _ & _ & H)|H]; [|done].
    split; [|split]; [apply (H 0 1)|apply (H 1 2)|apply (H 2 3)]; done.
Defined.


(** C36 Jumps land where they were aimed.  Patching a forward jump writes, over
    that word alone, an OP_JMP the runtime takes exactly to the target; a
    target before the word after the jump or more than 32767 words past it
    latches EMIT_JUMP_TOO_FAR and writes nothing.  A backward jump is appended
    and goes exactly to its target, if that is at most 32768 words back and
    memory is granted. *)
Theorem jumps_land (grants : nat -> bool) fs rest calls ses jmp_pc target line : let e := MkEmitter (fs :: rest) EMIT_OK calls ses in let n := zlen (p_instrs (fs_proto fs)) in
  stream_wf (fs_proto fs) (fs_prev_line fs) -> n < 2 ^ 32 - 1 -> 0 <= line < 2 ^ 31 -> 0 <= jmp_pc < n ->
  (exists e', ujmp_patch_to jmp_pc target e = Some e' /\
     if (jmp_pc + 1 <=? target) && (target <=? jmp_pc + 32768) then
       exists fs' w, e_error e' = EMIT_OK /\ e_fs e' = fs' :: rest /\ p_instrs (fs_proto fs') = <[Z.to_nat jmp_pc := w]> (p_instrs (fs_proto fs)) /\
         uinstr_opcode w = Some OP_JMP /\ jmp_target w jmp_pc = target
     else e' = uemit_fail EMIT_JUMP_TOO_FAR e) /\
  (exists e', ujmp_back grants target line e = Some e' /\
     if (n - 32768 <=? target) && (target <? n) then
       e_error e' = EMIT_OOM \/
       exists fs' w, e_error e' = EMIT_OK /\ e_fs e' = fs' :: rest /\ p_instrs (fs_proto fs') = p_instrs (fs_proto fs) ++ [w] /\
         uinstr_opcode w = Some OP_JMP /\ jmp_target w n = target /\ uproto_line_at (fs_proto fs') n = line
     else e' = uemit_fail EMIT_JUMP_TOO_FAR e).
Proof.
  intros e n Hw Hn Hl Hpc. split.
  - unfold ujmp_patch_to. change (negb (is_ok e)) with false. cbv iota. set (off := target - jmp_pc - 1).
    destruct ((off <? 0) || (32767 <? off)) eqn:Eo; zbool.
    + eexists. split; [done|]. zcase; [lia|done].
    + unfold uinstr_patch. change (negb (is_ok e)) with false. cbv iota. cbn [head e_fs e mbind option_bind].
      destruct (store_is_Some (p_instrs (fs_proto fs)) jmp_pc (jmp_word (UEMIT_JMP_BIAS + off)) Hpc) as [l' [Hl' _]]. rewrite Hl'. cbn [mbind option_bind].
      eexists. split; [done|]. zcase; [|lia]. eexists _, (jmp_word (UEMIT_JMP_BIAS + off)). split; [done|]. split; [done|].
      split; [cbn; unfold store in Hl'; destruct ((0 <=? jmp_pc) && _) in Hl'; [by injection Hl' as <-|done]|]. split; [apply jmp_word_decode; unfold UEMIT_JMP_BIAS; lia|].
      rewrite (proj1 (jmp_word_target jmp_pc off)) by lia. lia.
  - unfold ujmp_back, uinstr_pc. change (negb (is_ok e)) with false. cbv iota. cbn [head e_fs e mbind option_bind]. fold n. set (off := target - n).
    destruct ((0 <=? off) || (off <? -32768)) eqn:Eo; zbool.
    + eexists. split; [done|]. zcase; [lia|done].
    + destruct (uinstr_emit_spec grants fs rest calls ses (jmp_word (UEMIT_JMP_BIAS + off)) line Hw Hn Hl) as (e' & fs' & E & Hf & Hem). unfold e at 1. rewrite E. cbn [mbind option_bind].
      eexists. split; [done|]. zcase; [|lia]. destruct Hem as [(He & _ & [_ Hi _ _ Hline _])|(He & _)]; [right|by left].
      eexists fs', _. split; [done|]. split; [done|]. split; [exact Hi|]. split; [apply jmp_word_decode; unfold UEMIT_JMP_BIAS; lia|].
      split; [rewrite (proj2 (jmp_word_target n off)) by lia; lia|exact Hline].
Qed.

(** A function that holds one placeholder jump at 0 and one word after it. *)
Definition jump_fs : UFuncState :=
  set_stream 3 (MkStream [jmp_word 32768; 0] 16 [-128; 0] 16 [(0, 3)] 16 [] 0) scoped_fs.

Lemma jump_fs_wf : stream_wf (fs_proto jump_fs) 3.
Proof.
  assert (P : pow_cap 16) by (right; exists 4; lia). split; try (vm_compute; by repeat split; discriminate).
  - vm_compute. repeat split; try discriminate. constructor.
  - by repeat split; try apply P; left.
Qed.

Example jumps_land_witness : exists e' fs' w, ujmp_patch_to 0 2 (MkEmitter [jump_fs] EMIT_OK 0 new_session) = Some e' /\ e_error e' = EMIT_OK /\ e_fs e' = [fs'] /\
  p_instrs (fs_proto fs') = [w; 0] /\ uinstr_opcode w = Some OP_JMP /\ jmp_target w 0 = 2.
Proof.
  destruct (jumps_land (fun _ => true) jump_fs [] 0 new_session 0 2 3 jump_fs_wf eq_refl ltac:(lia)) as [(e' & E & fs' & w & H1 & H2 & H3 & H4 & H5) _]; [vm_compute; split; [discriminate|reflexivity]|].
  by exists e', fs', w.
Defined.

(** C29 Name resolution across functions is lexical.  While every upvalue of
    the function being compiled and of its enclosing functions stands for the
    innermost enclosing local of its name, resolving a name keeps that so, and
    returns an upvalue that, followed through the chain of descriptors the
    runtime follows when it makes the closures, leads to the register of the
    innermost enclosing local of that name.  It fails only when no enclosing
    function has such a local, changing nothing, or with an error latched; no
    enclosing function's variables or earlier upvalues are disturbed. *)
Theorem upvalues_resolve name err l : l <> [] -> upvals_ok l ->
  exists r l' err', uupval_find_or_install l name err = Some (r, l', err') /\ upvals_ok l' /\ Forall2 extends l l' /\
    match r with
    | Some i => err' = err /\ exists fs' ps' u, l' = fs' :: ps' /\ fs_upvals fs' !! i = Some u /\ uv_name u = name /\
                  is_Some (follow ps' u) /\ follow ps' u = outer_local name (tail l)
    | None => outer_local name (tail l) = None /\ l' = l /\ err' = err \/ err' <> EMIT_OK
    end.
Proof.
  intros Hne Hok. destruct (find_or_install_spec name err l Hne Hok) as (r & l' & err' & E & Hok' & He & Hr & Hn & Hs).
  exists r, l', err'. repeat (split; [done|]). destruct r; [|by apply Hn]. split; [by apply Hs|done].
Qed.

Definition bare_fs (locals : list ULocal) : UFuncState := MkFs locals (zlen locals) 0 [] [] [] 0 0 0 empty_stream 0 255 [] [] 0 [] 0.

(** The variable 7 of the grandparent, through an upvalue of the parent. *)
Example upvalues_resolve_witness : exists i fs' ps' u err', uupval_find_or_install [bare_fs []; bare_fs []; bare_fs [MkLocal (Some [5]) 0 0 0; MkLocal (Some [7]) 1 0 0]] [7] EMIT_OK = Some (Some i, fs' :: ps', err') /\
  fs_upvals fs' !! i = Some u /\ follow ps' u = Some (1%nat, 1).
Proof.
  destruct (upvalues_resolve [7] EMIT_OK [bare_fs []; bare_fs []; bare_fs [MkLocal (Some [5]) 0 0 0; MkLocal (Some [7]) 1 0 0]]) as (r & l' & err' & E & _ & _ & H).
  - done.
  - split; [by intros u Hu%elem_of_nil|split; [done|]]. split; [by intros u Hu%elem_of_nil|split; [done|]]. split; [by intros u Hu%elem_of_nil|done].
  - destruct r as [i|].
    + destruct H as (-> & fs' & ps' & u & -> & Hu & _ & _ & F). exists i, fs', ps', u, EMIT_OK. split; [exact E|]. split; [exact Hu|exact F].
    + vm_compute in E. discriminate E.
Defined.

End EmitReg.
