(* ===== verification/Strings.v ===== *)
(** * Interned symbols and strings (src/src/rt/ustr.c)

    Symbols and string cells are numbers; the chain of a bucket is the list of
    its symbols along [next].  [ok] and [cell] answer the allocator. *)
From S2P Require Import Prelude Values.

Module Strings.

Record USym := MkSym { sy_hash : Z; sy_len : Z; sy_bytes : bytes }.
Record UStr := MkStr { st_hash : Z; st_len : Z; st_bytes : bytes }.

Record UStrTab := MkTab {
  t_buckets : list (list nat);
  t_count : Z;
  t_syms : gmap nat USym }.

Definition nbuckets (t : UStrTab) : Z := zlen (t_buckets t).

(** FNV-1a, 32 bits. *)
Definition ustr_hash (s : bytes) : Z := foldl (fun h c => u32 (Z.lxor h c * 16777619)) 2166136261 s.

(** Inner result: -1 without a bucket array. *)
Definition ustrtab_init (ok : bool) : Z * UStrTab :=
  if ok then (0, MkTab (replicate 64 []) 0 ∅) else (-1, MkTab [] 0 ∅).

(** [s->next = b[idx]; b[idx] = s] for one symbol. *)
Definition chain_sym (syms : gmap nat USym) (s : nat) (b : list (list nat)) : option (list (list nat)) :=
  y ← syms !! s;
  let idx := sy_hash y mod zlen b in
  c ← b !! Z.to_nat idx;
  Some (<[Z.to_nat idx := s :: c]> b).

Fixpoint rehash (syms : gmap nat USym) (l : list nat) (b : list (list nat)) : option (list (list nat)) :=
  match l with [] => Some b | s :: l => b ← chain_sym syms s b; rehash syms l b end.

Definition ustrtab_grow (ok : bool) (t : UStrTab) : option UStrTab :=
  let new_n := u32 (nbuckets t * 2) in
  if negb ok then Some t
  else b ← rehash (t_syms t) (mjoin (t_buckets t)) (replicate (Z.to_nat new_n) []); Some (MkTab b (t_count t) (t_syms t)).

(** The first symbol of a chain with these bytes. *)
Fixpoint chain_find (syms : gmap nat USym) (h : Z) (s : bytes) (l : list nat) : option (option nat) :=
  match l with
  | [] => Some None
  | e :: l =>
      y ← syms !! e;
      if (sy_hash y =? h) && (sy_len y =? zlen s) && bool_decide (sy_bytes y = s) then Some (Some e) else chain_find syms h s l
  end.

(** [cell]: where the new symbol goes; the result is [None] out of memory. *)
Definition usym_intern (cell : option nat) (ok : bool) (s : bytes) (t : UStrTab) : option (option nat * UStrTab) :=
  let h := ustr_hash s in
  let idx := Z.to_nat (h mod nbuckets t) in
  chain ← t_buckets t !! idx;
  found ← chain_find (t_syms t) h s chain;
  match found, cell with
  | Some e, _ => Some (Some e, t)
  | None, None => Some (None, t)
  | None, Some c =>
      let t := MkTab (<[idx := c :: chain]> (t_buckets t)) (u32 (t_count t + 1)) (<[c := MkSym h (u32 (zlen s)) s]> (t_syms t)) in
      t ← (if nbuckets t <? t_count t then ustrtab_grow ok t else Some t);
      Some (Some c, t)
  end.

Definition ustr_new (s : bytes) : UStr := MkStr (ustr_hash s) (u32 (zlen s)) s.
Definition ustr_concat (a b : bytes) : UStr := MkStr (ustr_hash (a ++ b)) (u32 (zlen (a ++ b))) (a ++ b).

(** [uv_str_bytes]: the bytes and the length field of a SYM or STR value. *)
Definition uv_str_bytes (t : UStrTab) (strs : gmap nat UStr) (v : UValue) : option (bytes * Z) :=
  match v with
  | UV_SYM p => (fun y => (sy_bytes y, sy_len y)) <$> t_syms t !! p
  | UV_STR p => (fun y => (st_bytes y, st_len y)) <$> strs !! p
  | _ => None
  end.

Definition uv_str_equal (t : UStrTab) (strs : gmap nat UStr) (a b : UValue) : option bool :=
  match a, b with
  | UV_SYM p, UV_SYM q => Some (bool_decide (p = q))
  | _, _ =>
      '(pa, la) ← uv_str_bytes t strs a;
      '(pb, lb) ← uv_str_bytes t strs b;
      Some ((la =? lb) && bool_decide (take (Z.to_nat la) pa = take (Z.to_nat la) pb))
  end.

Definition uv_to_sym (cell : option nat) (ok : bool) (strs : gmap nat UStr) (v : UValue) (t : UStrTab) : option (option nat * UStrTab) :=
  match v with
  | UV_SYM p => Some (Some p, t)
  | UV_STR p => y ← strs !! p; usym_intern cell ok (take (Z.to_nat (st_len y)) (st_bytes y)) t
  | _ => None
  end.

Example hash_a : ustr_hash [97] = 0xe40c292c.
Proof. reflexivity. Qed.

(** ** The table *)

Record tab_wf (t : UStrTab) : Prop := {
  tw_size : 0 < nbuckets t < 2 ^ 32;
  tw_chain : forall i c s, t_buckets t !! i = Some c -> s ∈ c -> exists y, t_syms t !! s = Some y /\ Z.of_nat i = sy_hash y mod nbuckets t;
  tw_listed : forall s y, t_syms t !! s = Some y -> exists c, t_buckets t !! Z.to_nat (sy_hash y mod nbuckets t) = Some c /\ s ∈ c;
  tw_sym : forall s y, t_syms t !! s = Some y -> sy_hash y = ustr_hash (sy_bytes y) /\ sy_len y = zlen (sy_bytes y);
  tw_unique : forall s1 s2 y1 y2, t_syms t !! s1 = Some y1 -> t_syms t !! s2 = Some y2 -> sy_bytes y1 = sy_bytes y2 -> s1 = s2 }.

Lemma ustr_hash_range s : 0 <= ustr_hash s < 2 ^ 32.
Proof.
  unfold ustr_hash. assert (H : 0 <= 2166136261 < 2 ^ 32) by lia. revert H. generalize 2166136261.
  induction s as [|c s IH]; intros h Hh; cbn; [done|]. apply IH. unfold u32. apply Z.mod_pos_bound. lia.
Qed.

Definition bucketed (b : list (list nat)) (i : nat) (s : nat) : Prop := exists c, b !! i = Some c /\ s ∈ c.

Lemma chain_sym_spec syms s y b : syms !! s = Some y -> 0 < zlen b ->
  exists b', chain_sym syms s b = Some b' /\ zlen b' = zlen b /\
    forall i x, bucketed b' i x <-> bucketed b i x \/ x = s /\ Z.of_nat i = sy_hash y mod zlen b.
Proof.
  intros Hs Hb. unfold chain_sym. rewrite Hs. cbn [mbind option_bind]. pose proof (Z.mod_pos_bound (sy_hash y) (zlen b) Hb) as Hm.
  destruct (lookup_lt_is_Some_2 b (Z.to_nat (sy_hash y mod zlen b))) as [c Hc]; [unfold zlen in *; lia|]. rewrite Hc. cbn [mbind option_bind].
  eexists. split; [done|]. split; [unfold zlen; by rewrite length_insert|]. intros i x. unfold bucketed.
  destruct (decide (i = Z.to_nat (sy_hash y mod zlen b))) as [-> |Hne].
  - rewrite list_lookup_insert_eq by (apply lookup_lt_is_Some_1; by eexists). split.
    + intros (c' & [= <-] & [-> |Hx]%elem_of_cons); [right; split; [done|lia]|left; eauto].
    + intros [(c' & Hc' & Hx)|[-> _]]; eexists; (split; [done|]); [|by left]. rewrite Hc in Hc'. injection Hc' as <-. by right.
  - rewrite list_lookup_insert_ne by done. split; [by left|]. intros [?|[_ ?]]; [done|lia].
Qed.

Lemma rehash_spec syms l : forall b, (forall s, s ∈ l -> is_Some (syms !! s)) -> 0 < zlen b ->
  exists b', rehash syms l b = Some b' /\ zlen b' = zlen b /\
    forall i x, bucketed b' i x <-> bucketed b i x \/ x ∈ l /\ exists y, syms !! x = Some y /\ Z.of_nat i = sy_hash y mod zlen b.
Proof.
  induction l as [|s l IH]; intros b Hl Hb; cbn [rehash].
  { exists b. split; [done|]. split; [done|]. intros i x. rewrite elem_of_nil. tauto. }
  destruct (Hl s) as [y Hy]; [by left|]. destruct (chain_sym_spec syms s y b Hy Hb) as (b1 & -> & Hl1 & H1). cbn [mbind option_bind].
  destruct (IH b1) as (b2 & -> & Hl2 & H2); [intros x Hx; apply Hl; by right|lia|]. exists b2. split; [done|]. split; [lia|].
  intros i x. rewrite H2, H1, Hl1, elem_of_cons. split.
  - intros [[?|[-> ?]]|[? ?]]; [by left|right; split; [by left|by exists y]|right; split; [by right|done]].
  - intros [?|[[-> |?] (y' & Hy' & ?)]]; [by left; left|left; right; split; [done|congruence]|right; eauto].
Qed.

Lemma grow_wf ok t : tab_wf t -> nbuckets t < 2 ^ 31 -> exists t', ustrtab_grow ok t = Some t' /\ tab_wf t' /\ t_syms t' = t_syms t.
Proof.
  intros Hw Hn. unfold ustrtab_grow. destruct ok; cbn [negb]; [|by exists t]. pose proof (tw_size _ Hw).
  rewrite u32_small by lia.
  destruct (rehash_spec (t_syms t) (mjoin (t_buckets t)) (replicate (Z.to_nat (nbuckets t * 2)) [])) as (b & -> & Hb & Hm).
  { intros s (c & Hs & [i Hc]%list_elem_of_lookup)%list_elem_of_join. destruct (tw_chain _ Hw i c s Hc Hs) as (y & -> & _). by eexists. }
  { unfold zlen. rewrite length_replicate. lia. }
  cbn [mbind option_bind]. eexists. split; [done|]. split; [|done].
  assert (Hnb : zlen b = nbuckets t * 2) by (rewrite Hb; unfold zlen; rewrite length_replicate; lia).
  assert (Hempty : forall i x, ~ bucketed (replicate (Z.to_nat (nbuckets t * 2)) []) i x).
  { intros i x (c & Hc & Hx). apply lookup_replicate in Hc as [-> _]. by apply elem_of_nil in Hx. }
  assert (Hz : zlen (replicate (A:=list nat) (Z.to_nat (nbuckets t * 2)) []) = nbuckets t * 2) by (unfold zlen; rewrite length_replicate; lia).
  split; cbn [t_buckets t_syms]; unfold nbuckets; cbn [t_buckets]; try apply Hw.
  - rewrite Hnb. lia.
  - intros i c s Hc Hs. destruct (proj1 (Hm i s)) as [H1|(_ & y & Hy & Hi)]; [by exists c|by apply Hempty in H1|].
    exists y. split; [done|]. rewrite Hi. f_equal. unfold nbuckets in *. lia.
  - intros s y Hy. pose proof (Z.mod_pos_bound (sy_hash y) (zlen b) ltac:(lia)). apply (Hm (Z.to_nat (sy_hash y mod zlen b)) s). right. split.
    + destruct (tw_listed _ Hw s y Hy) as (c & Hc & Hs). apply list_elem_of_join. exists c. split; [done|]. by apply list_elem_of_lookup_2 in Hc.
    + exists y. split; [done|]. rewrite Z2Nat.id by lia. f_equal. unfold nbuckets in *. lia.
Qed.

Lemma chain_find_spec syms h s l : (forall e, e ∈ l -> is_Some (syms !! e)) ->
  exists r, chain_find syms h s l = Some r /\
  match r with
  | Some e => exists y, syms !! e = Some y /\ sy_bytes y = s
  | None => forall e y, e ∈ l -> syms !! e = Some y -> sy_hash y = h -> sy_len y = zlen s -> sy_bytes y <> s
  end.
Proof.
  induction l as [|e l IH]; intros Hl; cbn [chain_find]; [exists None; split; [done|]; by intros e y ?%elem_of_nil|].
  destruct (Hl e) as [y Hy]; [by left|]. rewrite Hy. cbn [mbind option_bind]. destruct (_ && bool_decide _) eqn:E.
  - apply andb_prop in E as [_ E]. apply bool_decide_eq_true in E. exists (Some e). split; [done|]. by exists y.
  - destruct IH as (r & -> & Hr); [intros x Hx; apply Hl; by right|]. exists r. split; [done|]. destruct r; [done|].
    intros x z [-> |Hx]%elem_of_cons Hz Hh Hlen; [|by apply (Hr x z)]. rewrite Hy in Hz. injection Hz as <-. intros Hb.
    rewrite Hh, Hlen, Hb, !Z.eqb_refl, bool_decide_true in E by done. done.
Qed.

(** What interning does. *)
Record interned (cell : option nat) (s : bytes) (t : UStrTab) (r : option nat) (t' : UStrTab) : Prop := {
  in_wf : tab_wf t';
  in_old : forall e y, t_syms t !! e = Some y -> t_syms t' !! e = Some y;
  in_result : match r with
    | Some e => (exists y, t_syms t' !! e = Some y /\ sy_bytes y = s) /\
        (forall f y, t_syms t !! f = Some y -> sy_bytes y = s -> e = f /\ t' = t)
    | None => cell = None /\ t' = t /\ forall f y, t_syms t !! f = Some y -> sy_bytes y <> s
    end }.

Lemma intern_spec cell ok s t : tab_wf t -> zlen s < 2 ^ 32 -> nbuckets t < 2 ^ 31 -> (forall c, cell = Some c -> t_syms t !! c = None) ->
  exists r t', usym_intern cell ok s t = Some (r, t') /\ interned cell s t r t'.
Proof.
  intros Hw Hlen Hn Hcell. pose proof (tw_size _ Hw) as Hsz. unfold usym_intern.
  pose proof (Z.mod_pos_bound (ustr_hash s) (nbuckets t) ltac:(lia)) as Hm.
  destruct (lookup_lt_is_Some_2 (t_buckets t) (Z.to_nat (ustr_hash s mod nbuckets t))) as [c Hc]; [unfold nbuckets, zlen in *; lia|].
  rewrite Hc. cbn [mbind option_bind]. destruct (chain_find_spec (t_syms t) (ustr_hash s) s c) as (r & -> & Hr).
  { intros e He. destruct (tw_chain _ Hw _ _ _ Hc He) as (y & -> & _). by eexists. }
  cbn [mbind option_bind]. destruct r as [e|].
  { destruct Hr as (y & Hy & Hb). eexists (Some e), t. split; [done|]. split; [done|done|]. split; [by exists y|].
    intros f z Hz Hbz. split; [|done]. by apply (tw_unique _ Hw e f y z Hy Hz); congruence. }
  assert (Hno : forall f y, t_syms t !! f = Some y -> sy_bytes y <> s).
  { intros f y Hy Hb. destruct (tw_sym _ Hw f y Hy) as [Hh Hl]. destruct (tw_listed _ Hw f y Hy) as (c' & Hc' & Hf).
    rewrite Hh, Hb, Hc in Hc'. injection Hc' as <-. apply (Hr f y Hf Hy); congruence. }
  destruct cell as [x|]; [|eexists None, t; split; [done|]; by split]. specialize (Hcell x eq_refl).
  set (t1 := MkTab (<[Z.to_nat (ustr_hash s mod nbuckets t) := x :: c]> (t_buckets t)) (u32 (t_count t + 1)) (<[x := MkSym (ustr_hash s) (u32 (zlen s)) s]> (t_syms t))).
  assert (Hnb : nbuckets t1 = nbuckets t) by (unfold nbuckets, zlen; cbn; by rewrite length_insert).
  assert (Hold : forall e, e <> x -> t_syms t1 !! e = t_syms t !! e) by (intros e He; cbn; by rewrite lookup_insert_ne).
  assert (Hnew : t_syms t1 !! x = Some (MkSym (ustr_hash s) (u32 (zlen s)) s)) by (cbn; by rewrite lookup_insert_eq).
  rewrite (u32_small (zlen s)) in Hnew by (unfold zlen in *; lia).
  assert (Hw1 : tab_wf t1).
  { split; rewrite ?Hnb; [done| | | |].
    - intros i c' e Hc' He. cbn in Hc'. destruct (decide (i = Z.to_nat (ustr_hash s mod nbuckets t))) as [-> |Hne].
      + rewrite list_lookup_insert_eq in Hc' by (apply lookup_lt_is_Some_1; by eexists). injection Hc' as <-.
        apply elem_of_cons in He as [-> |He]; [eexists; split; [exact Hnew|]; cbn; lia|].
        destruct (tw_chain _ Hw _ _ _ Hc He) as (y & Hy & Hi). exists y. rewrite Hold by congruence. done.
      + rewrite list_lookup_insert_ne in Hc' by done. destruct (tw_chain _ Hw _ _ _ Hc' He) as (y & Hy & Hi). exists y. rewrite Hold by congruence. done.
    - intros e y Hy. destruct (decide (e = x)) as [-> |Hne].
      + rewrite Hnew in Hy. injection Hy as <-. cbn [sy_hash t_buckets t1]. rewrite list_lookup_insert_eq by (apply lookup_lt_is_Some_1; by eexists).
        eexists. split; [done|]. by left.
      + rewrite Hold in Hy by done. destruct (tw_listed _ Hw e y Hy) as (c' & Hc' & He). cbn [t_buckets t1].
        destruct (decide (Z.to_nat (sy_hash y mod nbuckets t) = Z.to_nat (ustr_hash s mod nbuckets t))) as [E|E].
        * rewrite E, list_lookup_insert_eq by (apply lookup_lt_is_Some_1; by eexists). eexists. split; [done|]. right. congruence.
        * rewrite list_lookup_insert_ne by done. eauto.
    - intros e y Hy. destruct (decide (e = x)) as [-> |Hne]; [rewrite Hnew in Hy; by injection Hy as <-|]. rewrite Hold in Hy by done. by apply (tw_sym _ Hw e).
    - intros e1 e2 y1 y2 H1 H2 Hb. destruct (decide (e1 = x)) as [-> |N1], (decide (e2 = x)) as [-> |N2]; [done| | |].
      + rewrite Hnew in H1. injection H1 as <-. rewrite Hold in H2 by done. by apply Hno in H2.
      + rewrite Hnew in H2. injection H2 as <-. rewrite Hold in H1 by done. by apply Hno in H1.
      + rewrite Hold in H1, H2 by done. by apply (tw_unique _ Hw e1 e2 y1 y2). }
  assert (Hres : forall t', tab_wf t' -> t_syms t' = t_syms t1 -> interned (Some x) s t (Some x) t').
  { intros t' Hw' Hs'. split; [done| |].
    - intros e y Hy. rewrite Hs', Hold; [done|]. congruence.
    - split; [rewrite Hs'; eexists; by split|]. intros f y Hy Hb. by apply Hno in Hy. }
  fold t1. destruct (nbuckets t1 <? t_count t1).
  - destruct (grow_wf ok t1 Hw1) as (t2 & -> & Hw2 & Hs2); [lia|]. cbn [mbind option_bind]. eexists _, _. split; [done|]. by apply Hres.
  - cbn [mbind option_bind]. eexists _, _. split; [done|]. by apply Hres.
Qed.

Lemma str_equal_bytes t strs a b pa la pb lb : tab_wf t -> (forall p y, strs !! p = Some y -> st_len y = zlen (st_bytes y)) ->
  uv_str_bytes t strs a = Some (pa, la) -> uv_str_bytes t strs b = Some (pb, lb) -> uv_str_equal t strs a b = Some (bool_decide (pa = pb)).
Proof.
  intros Hw Hstr Ha Hb.
  assert (Hla : la = zlen pa).
  { destruct a; try done; cbn in Ha; apply fmap_Some in Ha as (y & Hy & [= -> ->]); [apply (tw_sym _ Hw p y Hy)|by apply (Hstr p)]. }
  assert (Hlb : lb = zlen pb).
  { destruct b; try done; cbn in Hb; apply fmap_Some in Hb as (y & Hy & [= -> ->]); [apply (tw_sym _ Hw p y Hy)|by apply (Hstr p)]. }
  assert (Hgen : (x ← Some (pa, la); y ← Some (pb, lb); Some ((x.2 =? y.2) && bool_decide (take (Z.to_nat x.2) x.1 = take (Z.to_nat x.2) y.1)))
    = Some (bool_decide (pa = pb))).
  { cbn. f_equal. subst la lb. destruct (zlen pa =? zlen pb) eqn:E; zbool; cbn [andb].
    - rewrite !take_ge by (unfold zlen in *; lia). done.
    - symmetry. apply bool_decide_eq_false. intros ->. done. }
  destruct a as [| | | | |p|p| |]; try done; destruct b as [| | | | |q|q| |]; try done.
  2-4: unfold uv_str_equal; rewrite Ha, Hb; exact Hgen.
  cbn in *. apply fmap_Some in Ha as (y & Hy & [= -> _]), Hb as (z & Hz & [= -> _]). f_equal. apply bool_decide_ext. split.
  - intros <-. congruence.
  - by apply (tw_unique _ Hw p q y z).
Qed.

(** interning: the symbol of a byte string is unique: asking again gives the
    same one and changes nothing, whether or not the table has been rehashed
    in between; a new one leaves every other symbol where and what it was; out
    of memory changes nothing; and so comparing two string values, symbols by
    pointer and the rest byte by byte, decides exactly equality of bytes. *)
Theorem symbols_are_unique cell ok s t strs : tab_wf t -> zlen s < 2 ^ 32 -> nbuckets t < 2 ^ 31 ->
  (forall c, cell = Some c -> t_syms t !! c = None) -> (forall p y, strs !! p = Some y -> st_len y = zlen (st_bytes y)) ->
  exists r t', usym_intern cell ok s t = Some (r, t') /\ interned cell s t r t' /\
  forall a b pa la pb lb, uv_str_bytes t' strs a = Some (pa, la) -> uv_str_bytes t' strs b = Some (pb, lb) ->
    uv_str_equal t' strs a b = Some (bool_decide (pa = pb)).
Proof.
  intros Hw Hlen Hn Hc Hs. destruct (intern_spec cell ok s t Hw Hlen Hn Hc) as (r & t' & E & Hi). exists r, t'. split; [done|]. split; [done|].
  intros a b pa la pb lb. apply str_equal_bytes; [apply Hi|done].
Qed.

(** A table of two buckets that the third symbol makes grow. *)
Definition small_tab : UStrTab :=
  MkTab [[2%nat]; [1%nat]] 2 {[1%nat := MkSym (ustr_hash [98]) 1 [98]; 2%nat := MkSym (ustr_hash [99]) 1 [99]]}.

Lemma small_tab_cases e y : t_syms small_tab !! e = Some y -> (e = 1%nat /\ y = MkSym (ustr_hash [98]) 1 [98]) \/ (e = 2%nat /\ y = MkSym (ustr_hash [99]) 1 [99]).
Proof.
  cbn. destruct (decide (e = 1%nat)) as [-> |H1]; [intros [= <-]; by left|]. rewrite lookup_insert_ne by done.
  destruct (decide (e = 2%nat)) as [-> |H2]; [intros [= <-]; by right|]. by rewrite lookup_singleton_ne.
Qed.

Lemma small_tab_wf : tab_wf small_tab.
Proof.
  split.
  - by split.
  - intros i c s Hc Hs. destruct i as [|[|i]]; cbn in Hc; [| |done]; injection Hc as <-; apply list_elem_of_singleton in Hs as ->; eexists; split; reflexivity.
  - intros s y [[-> ->]|[-> ->]]%small_tab_cases; eexists; (split; [reflexivity|]); by left.
  - intros s y [[-> ->]|[-> ->]]%small_tab_cases; by split.
  - intros s1 s2 y1 y2 [[-> ->]|[-> ->]]%small_tab_cases [[-> ->]|[-> ->]]%small_tab_cases; done.
Qed.

Lemma symbols_are_unique_witness : exists r t', usym_intern (Some 3%nat) true [97; 98] small_tab = Some (r, t') /\ interned (Some 3%nat) [97; 98] small_tab r t'.
Proof.
  destruct (symbols_are_unique (Some 3%nat) true [97; 98] small_tab ∅ small_tab_wf) as (r & t' & E & Hi & _).
  - reflexivity.
  - reflexivity.
  - intros c [= <-]. reflexivity.
  - intros p y Hy. discriminate Hy.
  - exists r, t'. split; [exact E|exact Hi].
Defined.

End Strings.
