(* ===== verification/Lists.v ===== *)
(** * Lists and dictionaries (src/src/rt/ulist.c)

    [items] is the whole block, [cap] values of which [len] are in use; a
    store past it is a fault.  [ok] answers each (re)allocation; new cells are
    zeroed, which reads as nil. *)
From Stdlib Require Import SpecFloat.
From S2P Require Import Prelude Values Strings.
Import Strings.

Module Lists.

Record UList := MkList { l_items : list UValue; l_len : Z }.
Record UDict := MkDict { d_keys : list UValue; d_vals : list UValue; d_dlen : Z; d_cap : Z }.

Definition l_cap (l : UList) : Z := zlen (l_items l).
(** The elements of a list. *)
Definition elems (l : UList) : list UValue := take (Z.to_nat (l_len l)) (l_items l).

(** [ugc_raw_realloc] to [n] values. *)
Definition resize (l : list UValue) (n : Z) : list UValue := take (Z.to_nat n) (l ++ replicate (Z.to_nat (n - zlen l)) UV_NIL).

(** [while (cap < cap_hint) cap *= 2], at 32 bits. *)
Fixpoint round_up (fuel : nat) (cap cap_hint : Z) : option Z :=
  if cap <? cap_hint then match fuel with O => None | S fuel => round_up fuel (u32 (cap * 2)) cap_hint end else Some cap.

(** Without its items the list starts at capacity 0. *)
Definition ulist_new (ok : bool) (cap_hint : Z) : option UList :=
  cap ← round_up 32 4 cap_hint;
  Some (if ok then MkList (replicate (Z.to_nat cap) UV_NIL) 0 else MkList [] 0).

Definition ulist_grow (ok : bool) (l : UList) : Z * UList :=
  let new_cap := if l_cap l =? 0 then 4 else u32 (l_cap l * 2) in
  if ok then (0, MkList (resize (l_items l) new_cap) (l_len l)) else (-1, l).

(** [if (l->len == l->cap && ulist_grow(vm, l) != 0) return -1]. *)
Definition ensure_room (ok : bool) (l : UList) : Z * UList := if l_len l =? l_cap l then ulist_grow ok l else (0, l).

Definition ulist_push (ok : bool) (v : UValue) (l : UList) : option (Z * UList) :=
  let '(rc, l) := ensure_room ok l in
  if negb (rc =? 0) then Some (-1, l)
  else items ← store (l_items l) (l_len l) v; Some (0, MkList items (u32 (l_len l + 1))).

(** [for (i = i; n steps; i--) items[i] = items[i - 1]]. *)
Fixpoint shift_up (n : nat) (i : Z) (items : list UValue) : option (list UValue) :=
  match n with
  | O => Some items
  | S n => x ← read items (i - 1); items ← store items i x; shift_up n (i - 1) items
  end.

Definition ulist_insert (ok : bool) (at_ : Z) (v : UValue) (l : UList) : option (Z * UList) :=
  if l_len l <? at_ then Some (-1, l)
  else
    let '(rc, l) := ensure_room ok l in
    if negb (rc =? 0) then Some (-1, l)
    else
      items ← shift_up (Z.to_nat (l_len l - at_)) (l_len l) (l_items l);
      items ← store items at_ v;
      Some (0, MkList items (u32 (l_len l + 1))).

(** [for (i = i; n steps; i++) items[i] = items[i + 1]]. *)
Fixpoint shift_down (n : nat) (i : Z) (items : list UValue) : option (list UValue) :=
  match n with
  | O => Some items
  | S n => x ← read items (i + 1); items ← store items i x; shift_down n (i + 1) items
  end.

Definition ulist_remove_at (at_ : Z) (l : UList) : option (bool * UList) :=
  if l_len l <=? at_ then Some (false, l)
  else items ← shift_down (Z.to_nat (l_len l - 1 - at_)) at_ (l_items l); Some (true, MkList items (l_len l - 1)).

(** ** Equality of values *)

Definition uv_equal (t : UStrTab) (strs : gmap nat UStr) (a b : UValue) : option bool :=
  if uv_is_number a && uv_is_number b then
    match a, b with
    | UV_INT i, UV_INT j => Some (i =? j)
    | _, _ => Some (double_eq (uv_as_double a) (uv_as_double b))
    end
  else
    match a, b with
    | (UV_SYM _ | UV_STR _), (UV_SYM _ | UV_STR _) => uv_str_equal t strs a b
    | UV_NIL, UV_NIL | UV_VOID, UV_VOID => Some true
    | UV_BOOL i, UV_BOOL j => Some (i =? j)
    | UV_OBJ p, UV_OBJ q | UV_CELL p, UV_CELL q => Some (bool_decide (p = q))
    | _, _ => Some false
    end.

(** ** Dictionaries *)

Section Dict.
Context (eqv : UValue -> UValue -> option bool).

Definition udict_new : UDict := MkDict [] [] 0 0.

(** The first index in [i .. i + n) whose key equals [k]. *)
Fixpoint find_key (n : nat) (i : Z) (keys : list UValue) (k : UValue) : option (option Z) :=
  match n with
  | O => Some None
  | S n => x ← read keys i; e ← eqv x k; if e : bool then Some (Some i) else find_key n (i + 1) keys k
  end.
Definition udict_find (d : UDict) (k : UValue) : option (option Z) := find_key (Z.to_nat (d_dlen d)) 0 (d_keys d) k.

(** [okk], [okv]: the keys' and the values' reallocation; the capacity moves only when both succeed. *)
Definition udict_grow (okk okv : bool) (d : UDict) : Z * UDict :=
  let new_cap := if d_cap d =? 0 then 4 else u32 (d_cap d * 2) in
  if negb okk then (-1, d)
  else
    let d := MkDict (resize (d_keys d) new_cap) (d_vals d) (d_dlen d) (d_cap d) in
    if negb okv then (-1, d)
    else (0, MkDict (d_keys d) (resize (d_vals d) new_cap) (d_dlen d) new_cap).

Definition udict_set (okk okv : bool) (k v : UValue) (d : UDict) : option (Z * UDict) :=
  idx ← udict_find d k;
  match idx with
  | Some i => vals ← store (d_vals d) i v; Some (0, MkDict (d_keys d) vals (d_dlen d) (d_cap d))
  | None =>
      let '(rc, d) := if d_dlen d =? d_cap d then udict_grow okk okv d else (0, d) in
      if negb (rc =? 0) then Some (-1, d)
      else
        keys ← store (d_keys d) (d_dlen d) k;
        vals ← store (d_vals d) (d_dlen d) v;
        Some (0, MkDict keys vals (u32 (d_dlen d + 1)) (d_cap d))
  end.

Definition udict_get (d : UDict) (k : UValue) : option (option UValue) :=
  idx ← udict_find d k;
  match idx with None => Some None | Some i => v ← read (d_vals d) i; Some (Some v) end.

Definition udict_remove (k : UValue) (d : UDict) : option (bool * UDict) :=
  idx ← udict_find d k;
  match idx with
  | None => Some (false, d)
  | Some i =>
      let last := d_dlen d - 1 in
      if i =? last then Some (true, MkDict (d_keys d) (d_vals d) last (d_cap d))
      else
        kl ← read (d_keys d) last; keys ← store (d_keys d) i kl;
        vl ← read (d_vals d) last; vals ← store (d_vals d) i vl;
        Some (true, MkDict keys vals last (d_cap d))
  end.
End Dict.

(** ** Lists are sequences *)

Definition cap32 (c : Z) : Prop := c = 0 \/ exists k, 2 <= k <= 31 /\ c = 2 ^ k.

Record list_wf (l : UList) : Prop := { lw_len : 0 <= l_len l <= l_cap l; lw_cap : cap32 (l_cap l) }.

Lemma zlen_resize l n : 0 <= n -> zlen (resize l n) = n.
Proof. intros. unfold resize, zlen. rewrite length_take, length_app, length_replicate. lia. Qed.

Lemma take_resize l n k : Z.of_nat k <= zlen l -> zlen l <= n -> take k (resize l n) = take k l.
Proof. intros. unfold resize, zlen in *. rewrite take_take, Nat.min_l by lia. by rewrite take_app_le by lia. Qed.

Lemma read_resize l n i : i < zlen l -> zlen l <= n -> read (resize l n) i = read l i.
Proof.
  intros. unfold read. destruct (0 <=? i) eqn:E; [|done]. zbool. unfold resize, zlen in *.
  rewrite lookup_take_lt by lia. by rewrite lookup_app_l by lia.
Qed.

Lemma cap_double c : cap32 c -> c < 2 ^ 31 -> cap32 (if c =? 0 then 4 else u32 (c * 2)) /\ c < (if c =? 0 then 4 else u32 (c * 2)).
Proof.
  intros [-> |(k & Hk & ->)] Hc; [cbn; split; [right; by exists 2|done]|].
  assert (0 < 2 ^ k) by (apply Z.pow_pos_nonneg; lia). replace (2 ^ k =? 0) with false by (symmetry; apply Z.eqb_neq; lia).
  rewrite u32_small by lia. split; [|lia]. right. exists (k + 1). rewrite Z.pow_add_r by lia. split; [|lia].
  assert (k <> 31) by (intros ->; lia). lia.
Qed.

Lemma room_spec ok l : list_wf l -> l_cap l < 2 ^ 31 ->
  exists rc l', ensure_room ok l = (rc, l') /\
  (rc = -1 /\ l' = l /\ ok = false /\ l_len l = l_cap l \/
   rc = 0 /\ list_wf l' /\ l_len l' = l_len l /\ l_len l < l_cap l' /\ elems l' = elems l).
Proof.
  intros [Hl Hc] Hs. unfold ensure_room. destruct (l_len l =? l_cap l) eqn:E; zbool.
  2:{ eexists _, _. split; [done|]. right. repeat split; done || lia. }
  unfold ulist_grow. destruct (cap_double _ Hc Hs) as [C1 C2]. destruct ok; [|eexists _, _; split; [done|]; by left].
  eexists _, _. split; [done|]. right. assert (0 <= l_cap l) by apply zlen_nonneg.
  set (c := if l_cap l =? 0 then 4 else u32 (l_cap l * 2)) in *. split; [done|].
  assert (Hcap : l_cap (MkList (resize (l_items l) c) (l_len l)) = c) by (apply zlen_resize; lia).
  split; [split; [rewrite Hcap; cbn; lia|by rewrite Hcap]|]. split; [done|]. split; [rewrite Hcap; lia|].
  unfold elems. cbn. apply take_resize; unfold l_cap in *; lia.
Qed.

Lemma store_take {A} (l : list A) i x : 0 <= i < zlen l -> store l i x = Some (take (Z.to_nat i) l ++ x :: drop (Z.to_nat (i + 1)) l).
Proof.
  intros. rewrite store_splice by (unfold zlen in *; lia). unfold splice. cbn. do 4 f_equal. lia.
Qed.

Lemma shift_up_spec n : forall i pre x mid post, zlen pre + zlen mid = i -> length mid = n -> zlen pre + zlen mid < zlen (pre ++ mid ++ x :: post) ->
  exists y, shift_up n i (pre ++ mid ++ x :: post) = Some (pre ++ y :: mid ++ post).
Proof.
  induction n as [|n IH]; intros i pre x mid post Hi Hm Hl; cbn [shift_up].
  { destruct mid; [|done]. by exists x. }
  destruct mid as [|m mid _] using rev_ind; [done|]. rewrite length_app in Hm. cbn [length] in Hm.
  assert (Hlm : length mid = n) by lia. rewrite zlen_app in Hi. change (zlen [m]) with 1 in Hi.
  assert (E1 : read (pre ++ (mid ++ [m]) ++ x :: post) (i - 1) = Some m).
  { unfold read. zcases; [|pose proof (zlen_nonneg pre); pose proof (zlen_nonneg mid); lia].
    rewrite (assoc_L (++)), lookup_app_l by (rewrite !length_app; unfold zlen in *; cbn [length]; lia).
    rewrite lookup_app_r by (unfold zlen in *; lia). rewrite lookup_app_r by (unfold zlen in *; lia).
    replace (Z.to_nat (i - 1) - length pre - length mid)%nat with O by (unfold zlen in *; lia). done. }
  rewrite E1. cbn [mbind option_bind].
  assert (E2 : store (pre ++ (mid ++ [m]) ++ x :: post) i m = Some (pre ++ mid ++ m :: (m :: post))).
  { rewrite store_take by (rewrite !zlen_app; change (zlen [m]) with 1; rewrite zlen_cons; pose proof (zlen_nonneg pre); pose proof (zlen_nonneg mid); pose proof (zlen_nonneg post); lia).
    rewrite (assoc_L (++) pre). rewrite take_app_length', drop_app_ge by (rewrite ?length_app; unfold zlen in *; cbn [length]; lia).
    replace (Z.to_nat (i + 1) - length (pre ++ mid ++ [m]))%nat with 1%nat by (rewrite !length_app; unfold zlen in *; cbn [length]; lia).
    cbn [drop]. by rewrite <- !(assoc_L (++)). }
  rewrite E2. cbn [mbind option_bind]. destruct (IH (i - 1) pre m mid (m :: post)) as [y ->]; [lia|done| |].
  - rewrite !zlen_app, !zlen_cons. pose proof (zlen_nonneg post). lia.
  - exists y. by rewrite <- (assoc_L (++) mid).
Qed.

Lemma shift_down_spec n : forall i pre x mid post, zlen pre = i -> length mid = n ->
  exists y, shift_down n i (pre ++ x :: mid ++ post) = Some (pre ++ mid ++ y :: post).
Proof.
  induction n as [|n IH]; intros i pre x mid post Hi Hm; cbn [shift_down].
  { destruct mid; [|done]. by exists x. }
  destruct mid as [|m mid]; [done|]. cbn [length] in Hm. cbn [app].
  assert (E1 : read (pre ++ x :: m :: mid ++ post) (i + 1) = Some m).
  { unfold read. zcases; [|pose proof (zlen_nonneg pre); lia]. rewrite lookup_app_r by (unfold zlen in *; lia).
    by replace (Z.to_nat (i + 1) - length pre)%nat with 1%nat by (unfold zlen in *; lia). }
  rewrite E1. cbn [mbind option_bind].
  assert (E2 : store (pre ++ x :: m :: mid ++ post) i m = Some ((pre ++ [m]) ++ m :: mid ++ post)).
  { rewrite store_take by (rewrite zlen_app, !zlen_cons; pose proof (zlen_nonneg pre); pose proof (zlen_nonneg (mid ++ post)); lia).
    rewrite take_app_length', drop_app_ge by (unfold zlen in *; lia).
    replace (Z.to_nat (i + 1) - length pre)%nat with 1%nat by (unfold zlen in *; lia). cbn [drop]. by rewrite <- (assoc_L (++)). }
  rewrite E2. cbn [mbind option_bind]. destruct (IH (i + 1) (pre ++ [m]) m mid post) as [y ->]; [rewrite zlen_app; change (zlen [m]) with 1; lia|lia|].
  exists y. by rewrite <- (assoc_L (++)).
Qed.

Lemma items_split l : list_wf l -> exists junk, l_items l = elems l ++ junk /\ zlen (elems l) = l_len l /\ zlen junk = l_cap l - l_len l.
Proof.
  intros [Hl _]. exists (drop (Z.to_nat (l_len l)) (l_items l)). unfold elems, l_cap, zlen in *. rewrite take_drop, length_take, length_drop.
  split; [done|]. lia.
Qed.

(** The state after the block was rewritten with one more, or one less, element in front. *)
Lemma wf_of_items l items n e junk : list_wf l -> items = e ++ junk -> zlen items = l_cap l -> zlen e = n -> n <= l_cap l ->
  list_wf (MkList items n) /\ elems (MkList items n) = e.
Proof.
  intros [_ Hc] -> Hi He Hn. pose proof (zlen_nonneg e). split; [split; unfold l_cap in *; cbn; rewrite Hi; [lia|done]|].
  unfold elems. cbn. apply take_app_length'. unfold zlen in *. lia.
Qed.

Lemma wf_len32 l : list_wf l -> l_cap l <= 2 ^ 31.
Proof. intros [_ [-> |(k & Hk & ->)]]; [done|]. apply Z.pow_le_mono_r; lia. Qed.

Lemma push_spec ok v l : list_wf l -> l_cap l < 2 ^ 31 -> exists rc l', ulist_push ok v l = Some (rc, l') /\ list_wf l' /\
  (rc = 0 /\ elems l' = elems l ++ [v] \/ rc = -1 /\ l' = l /\ ok = false /\ l_len l = l_cap l).
Proof.
  intros Hw Hc. unfold ulist_push. destruct (room_spec ok l Hw Hc) as (rc & l1 & -> & [(-> & -> & ? & ?)|(-> & Hw1 & Hlen & Hroom & He)]).
  { eexists _, _. split; [done|]. split; [done|]. by right. }
  cbn [negb Z.eqb]. destruct (items_split l1 Hw1) as (junk & Hi & Hz & Hj). pose proof (wf_len32 _ Hw1).
  destruct junk as [|x junk]; [change (zlen (@nil UValue)) with 0 in Hj; lia|].
  rewrite Hi, store_take by (rewrite zlen_app, Hz, Hj; destruct Hw1; lia). cbn [mbind option_bind].
  rewrite take_app_length', drop_app_ge by (unfold zlen in *; lia).
  replace (Z.to_nat (l_len l1 + 1) - length (elems l1))%nat with 1%nat by (unfold zlen in *; lia). cbn [drop].
  rewrite u32_small by (destruct Hw1; lia). eexists _, _. split; [done|].
  destruct (wf_of_items l1 (elems l1 ++ v :: junk) (l_len l1 + 1) (elems l1 ++ [v]) junk Hw1) as [W E].
  - by rewrite <- (assoc_L (++)).
  - unfold l_cap. rewrite Hi, !zlen_app, !zlen_cons. done.
  - rewrite zlen_app, Hz. done.
  - lia.
  - split; [exact W|]. left. split; [done|]. rewrite <- He. exact E.
Qed.

Lemma insert_spec ok at_ v l : list_wf l -> l_cap l < 2 ^ 31 -> 0 <= at_ -> exists rc l', ulist_insert ok at_ v l = Some (rc, l') /\ list_wf l' /\
  (rc = 0 /\ at_ <= l_len l /\ elems l' = take (Z.to_nat at_) (elems l) ++ v :: drop (Z.to_nat at_) (elems l) \/
   rc = -1 /\ l' = l /\ (l_len l < at_ \/ ok = false /\ l_len l = l_cap l)).
Proof.
  intros Hw Hc Hat. unfold ulist_insert. destruct (l_len l <? at_) eqn:Ea; zbool.
  { eexists _, _. split; [done|]. split; [done|]. right. split; [done|]. split; [done|]. by left. }
  destruct (room_spec ok l Hw Hc) as (rc & l1 & -> & [(-> & -> & ? & ?)|(-> & Hw1 & Hlen & Hroom & He)]).
  { eexists _, _. split; [done|]. split; [done|]. right. split; [done|]. split; [done|]. by right. }
  cbn [negb Z.eqb]. destruct (items_split l1 Hw1) as (junk & Hi & Hz & Hj). pose proof (wf_len32 _ Hw1).
  destruct junk as [|x junk]; [change (zlen (@nil UValue)) with 0 in Hj; lia|].
  set (pre := take (Z.to_nat at_) (elems l1)) in *. set (mid := drop (Z.to_nat at_) (elems l1)) in *.
  assert (Hpm : elems l1 = pre ++ mid) by (unfold pre, mid; by rewrite take_drop).
  assert (Hpre : zlen pre = at_) by (unfold pre, zlen in *; rewrite length_take; lia).
  assert (Hmid : zlen mid = l_len l1 - at_) by (unfold mid, zlen in *; rewrite length_drop; lia).
  rewrite Hi, Hpm, <- (assoc_L (++)).
  destruct (shift_up_spec (Z.to_nat (l_len l1 - at_)) (l_len l1) pre x mid junk) as [y ->]; [lia|unfold zlen in *; lia| |].
  { rewrite !zlen_app, zlen_cons. pose proof (zlen_nonneg junk). lia. }
  cbn [mbind option_bind]. rewrite store_take by (rewrite zlen_app, zlen_cons; pose proof (zlen_nonneg (mid ++ junk)); lia). cbn [mbind option_bind].
  rewrite take_app_length', drop_app_ge by (unfold zlen in *; lia).
  replace (Z.to_nat (at_ + 1) - length pre)%nat with 1%nat by (unfold zlen in *; lia). cbn [drop].
  rewrite u32_small by (destruct Hw1; lia). eexists _, _. split; [done|].
  destruct (wf_of_items l1 (pre ++ v :: mid ++ junk) (l_len l1 + 1) (pre ++ v :: mid) junk Hw1) as [W E].
  - by rewrite <- (assoc_L (++)).
  - unfold l_cap. rewrite Hi, Hpm, !zlen_app, !zlen_cons, !zlen_app. lia.
  - rewrite zlen_app, zlen_cons. lia.
  - lia.
  - split; [exact W|]. left. split; [done|]. split; [lia|]. rewrite <- He. exact E.
Qed.

Lemma remove_at_spec at_ l : list_wf l -> 0 <= at_ -> exists r l', ulist_remove_at at_ l = Some (r, l') /\ list_wf l' /\
  if r : bool then at_ < l_len l /\ elems l' = take (Z.to_nat at_) (elems l) ++ drop (Z.to_nat (at_ + 1)) (elems l) else l_len l <= at_ /\ l' = l.
Proof.
  intros Hw Hat. unfold ulist_remove_at. destruct (l_len l <=? at_) eqn:Ea; zbool; [eexists false, _; by split|].
  destruct (items_split l Hw) as (junk & Hi & Hz & Hj).
  set (pre := take (Z.to_nat at_) (elems l)) in *. set (mid := drop (Z.to_nat (at_ + 1)) (elems l)) in *.
  destruct (lookup_lt_is_Some_2 (elems l) (Z.to_nat at_)) as [x Hx]; [unfold zlen in *; lia|].
  assert (Hpm : elems l = pre ++ x :: mid).
  { unfold pre, mid. replace (Z.to_nat (at_ + 1)) with (S (Z.to_nat at_)) by lia. symmetry. by apply take_drop_middle. }
  assert (Hpre : zlen pre = at_) by (unfold pre, zlen in *; rewrite length_take; lia).
  assert (Hmid : zlen mid = l_len l - 1 - at_) by (unfold mid, zlen in *; rewrite length_drop; lia).
  rewrite Hi, Hpm, <- (assoc_L (++)). cbn [app].
  destruct (shift_down_spec (Z.to_nat (l_len l - 1 - at_)) at_ pre x mid junk) as [y ->]; [done|unfold zlen in *; lia|].
  cbn [mbind option_bind]. eexists true, _. split; [done|].
  destruct (wf_of_items l (pre ++ mid ++ y :: junk) (l_len l - 1) (pre ++ mid) (y :: junk) Hw) as [W E].
  - by rewrite <- (assoc_L (++)).
  - unfold l_cap. rewrite Hi, Hpm, !zlen_app, !zlen_cons. lia.
  - rewrite zlen_app. lia.
  - destruct Hw. lia.
  - split; [exact W|]. split; [lia|exact E].
Qed.

(** ** Dictionaries are association lists *)

Abbreviation alist := (list (UValue * UValue)).

Section Assoc.
Context (eqb : UValue -> UValue -> bool).

(** The first entry whose key equals [k], by position. *)
Fixpoint first_at (k : UValue) (e : alist) : option nat :=
  match e with [] => None | x :: e => if eqb x.1 k then Some O else S <$> first_at k e end.

Definition a_get (k : UValue) (e : alist) : option UValue := i ← first_at k e; snd <$> e !! i.
Definition a_set (k v : UValue) (e : alist) : alist :=
  match first_at k e with Some i => alter (fun x => (x.1, v)) i e | None => e ++ [(k, v)] end.
(** The last entry takes the hole. *)
Definition a_remove (k : UValue) (e : alist) : alist :=
  match first_at k e with
  | Some i => match last e with Some x => take (length e - 1) (<[i := x]> e) | None => e end
  | None => e
  end.

Lemma first_at_lt k e i : first_at k e = Some i -> exists x, e !! i = Some x /\ eqb x.1 k = true.
Proof.
  revert i; induction e as [|x e IH]; intros i; cbn; [done|]. destruct (eqb x.1 k) eqn:E; [intros [= <-]; by exists x|].
  intros (j & Hj & ->)%fmap_Some. cbn. by apply IH.
Qed.

Lemma first_at_keys k e e' : e.*1 = e'.*1 -> first_at k e = first_at k e'.
Proof.
  revert e'; induction e as [|x e IH]; intros [|y e']; cbn; try done. intros [= -> He]. by rewrite (IH e').
Qed.

Lemma first_at_snoc k e x : first_at k (e ++ [x]) = match first_at k e with Some i => Some i | None => if eqb x.1 k then Some (length e) else None end.
Proof.
  induction e as [|y e IH]; cbn; [done|]. destruct (eqb y.1 k); [done|]. rewrite IH. destruct (first_at k e); cbn; [done|]. by destruct (eqb x.1 k).
Qed.

Lemma alter_keys (v : UValue) i (e : alist) : (alter (fun x => (x.1, v)) i e).*1 = e.*1.
Proof. rewrite (list_fmap_alter fst (fun x => (x.1, v)) id e i); [by apply list_alter_id|by apply Forall_true]. Qed.

(** What a dictionary promises: the value set is the value read, unless the key is
    not equal to itself; a key whose entry is not the one written reads as before. *)
Lemma a_get_set k v e : eqb k k = true -> a_get k (a_set k v e) = Some v.
Proof.
  intros Hk. unfold a_get, a_set. destruct (first_at k e) as [i|] eqn:E.
  - assert (Hf : first_at k (alter (fun x => (x.1, v)) i e) = Some i).
    { rewrite <- E. apply first_at_keys. apply alter_keys. }
    rewrite Hf. cbn. destruct (first_at_lt _ _ _ E) as (x & Hx & _). rewrite list_lookup_alter_eq, Hx. done.
  - rewrite first_at_snoc, E. cbn. rewrite Hk. cbn. rewrite lookup_app_r, Nat.sub_diag by lia. done.
Qed.

Lemma a_get_other k k' v e : (forall i x, first_at k e = Some i -> e !! i = Some x -> eqb x.1 k' = false) -> eqb k k' = false ->
  a_get k' (a_set k v e) = a_get k' e.
Proof.
  intros Hi Hk. unfold a_get, a_set. destruct (first_at k e) as [i|] eqn:E.
  - assert (Hf : first_at k' (alter (fun x => (x.1, v)) i e) = first_at k' e).
    { apply first_at_keys. apply alter_keys. }
    rewrite Hf. destruct (first_at k' e) as [j|] eqn:Ej; [|done]. cbn.
    destruct (first_at_lt _ _ _ Ej) as (x & Hx & Hxk). rewrite list_lookup_alter_ne; [done|]. intros ->. rewrite (Hi _ x eq_refl Hx) in Hxk. done.
  - rewrite first_at_snoc. destruct (first_at k' e) as [j|] eqn:Ej; cbn; [|by rewrite Hk].
    destruct (first_at_lt _ _ _ Ej) as (x & Hx & _). rewrite lookup_app_l by (apply lookup_lt_Some in Hx; lia). done.
Qed.
End Assoc.

(** The entries of a dictionary. *)
Definition entries (d : UDict) : alist := zip (take (Z.to_nat (d_dlen d)) (d_keys d)) (take (Z.to_nat (d_dlen d)) (d_vals d)).

Record dict_wf (d : UDict) : Prop := {
  dw_len : 0 <= d_dlen d <= d_cap d;
  dw_cap : cap32 (d_cap d);
  dw_vals : zlen (d_vals d) = d_cap d;
  (* after a growth that failed half way the keys are already larger *)
  dw_keys : zlen (d_keys d) = d_cap d \/ zlen (d_keys d) = if d_cap d =? 0 then 4 else d_cap d * 2 }.

Lemma dict_keys_room d : dict_wf d -> d_cap d <= zlen (d_keys d).
Proof. intros [Hl _ _ [-> | ->]]; [done|]. zcase; lia. Qed.

Lemma entries_length d : dict_wf d -> length (entries d) = Z.to_nat (d_dlen d).
Proof.
  intros Hw. pose proof (dict_keys_room _ Hw). destruct Hw as [Hl _ Hv _]. unfold entries, zlen in *. rewrite length_zip_with, !length_take. lia.
Qed.

Lemma entries_read d i : dict_wf d -> (i < Z.to_nat (d_dlen d))%nat ->
  exists k v, read (d_keys d) (Z.of_nat i) = Some k /\ read (d_vals d) (Z.of_nat i) = Some v /\ entries d !! i = Some (k, v).
Proof.
  intros Hw Hi. pose proof (dict_keys_room _ Hw) as Hk. destruct Hw as [Hl _ Hv _]. unfold zlen in *.
  destruct (lookup_lt_is_Some_2 (d_keys d) i) as [k Ek]; [lia|]. destruct (lookup_lt_is_Some_2 (d_vals d) i) as [v Ev]; [lia|].
  exists k, v. unfold read. rewrite Nat2Z.id. replace (0 <=? Z.of_nat i) with true by (symmetry; apply Z.leb_le; lia). split; [done|]. split; [done|].
  unfold entries. rewrite lookup_zip_with, !lookup_take_lt by lia. by rewrite Ek, Ev.
Qed.

Section DictSpec.
Context (eqv : UValue -> UValue -> option bool).
Definition eqb_of (a b : UValue) : bool := default false (eqv a b).

(** Comparisons with [k] do not fault. *)
Definition comparable (d : UDict) (k : UValue) : Prop := forall i x, entries d !! i = Some x -> is_Some (eqv x.1 k).

Lemma find_key_spec d k n : dict_wf d -> comparable d k -> forall i, (i + n = Z.to_nat (d_dlen d))%nat ->
  find_key eqv n (Z.of_nat i) (d_keys d) k = Some ((fun j => Z.of_nat (i + j)) <$> first_at eqb_of k (drop i (entries d))).
Proof.
  intros Hw Hc. pose proof (entries_length _ Hw) as Hlen. induction n as [|n IH]; intros i Hi; cbn [find_key].
  { by rewrite drop_ge by lia. }
  destruct (entries_read d i Hw) as (x & v & Ek & _ & Ee); [lia|]. rewrite Ek. cbn [mbind option_bind].
  destruct (Hc i (x, v) Ee) as [b Eb]. cbn in Eb. rewrite Eb. cbn [mbind option_bind].
  rewrite (drop_S _ _ _ Ee). cbn [first_at fst]. unfold eqb_of at 1. rewrite Eb. cbn [default from_option id]. destruct b; cbn.
  - do 2 f_equal. lia.
  - replace (Z.of_nat i + 1) with (Z.of_nat (S i)) by lia. rewrite IH by lia. f_equal. rewrite <- option_fmap_compose. destruct (first_at _ _ _); cbn; [|done]. f_equal. lia.
Qed.

Lemma udict_find_spec d k : dict_wf d -> comparable d k -> udict_find eqv d k = Some (Z.of_nat <$> first_at eqb_of k (entries d)).
Proof. intros Hw Hc. exact (find_key_spec d k _ Hw Hc O eq_refl). Qed.

Lemma udict_get_spec d k : dict_wf d -> comparable d k -> udict_get eqv d k = Some (a_get eqb_of k (entries d)).
Proof.
  intros Hw Hc. unfold udict_get, a_get. rewrite udict_find_spec by done. cbn. destruct (first_at _ _ _) as [i|] eqn:E; [|done]. cbn.
  destruct (first_at_lt _ _ _ _ E) as (x & Hx & _). pose proof (lookup_lt_Some _ _ _ Hx) as Hi. rewrite entries_length in Hi by done.
  destruct (entries_read d i Hw Hi) as (kk & v & _ & Ev & Ee). rewrite Ev, Ee. done.
Qed.
End DictSpec.

Lemma entries_lookup d j : entries d !! j = (k ← take (Z.to_nat (d_dlen d)) (d_keys d) !! j; v ← take (Z.to_nat (d_dlen d)) (d_vals d) !! j; Some (k, v)).
Proof. unfold entries. by rewrite lookup_zip_with. Qed.

(** Growing, wholly, half way or not at all, keeps the entries. *)
Lemma dict_grow_spec okk okv d : dict_wf d -> d_dlen d = d_cap d -> d_cap d < 2 ^ 31 ->
  exists rc d', udict_grow okk okv d = (rc, d') /\ dict_wf d' /\ entries d' = entries d /\ d_dlen d' = d_dlen d /\
  (rc = 0 /\ d_dlen d < d_cap d' \/ rc = -1 /\ (okk = false \/ okv = false)).
Proof.
  intros Hw He Hs. pose proof (dict_keys_room _ Hw) as Hkr. destruct Hw as [Hl Hc Hv Hk]. destruct (cap_double _ Hc Hs) as [C1 C2]. unfold udict_grow.
  set (c := if d_cap d =? 0 then 4 else u32 (d_cap d * 2)) in *.
  assert (Hcc : c = if d_cap d =? 0 then 4 else d_cap d * 2) by (unfold c; destruct (d_cap d =? 0); [done|]; rewrite u32_small; lia).
  assert (Hkc : zlen (d_keys d) <= c) by (destruct Hk as [-> | ->]; lia).
  destruct okk; cbn [negb].
  2:{ eexists (-1), d. split; [done|]. split; [by split|]. split; [done|]. split; [done|]. right. split; [done|]. by left. }
  assert (Hek : take (Z.to_nat (d_dlen d)) (resize (d_keys d) c) = take (Z.to_nat (d_dlen d)) (d_keys d)) by (apply take_resize; lia).
  destruct okv; cbn [negb d_vals d_dlen d_cap d_keys].
  - eexists 0, _. split; [done|]. split; [|split; [|split; [done|left; split; [done|cbn; lia]]]].
    + split; cbn [d_vals d_dlen d_cap d_keys]; [lia|done|apply zlen_resize; lia|left; apply zlen_resize; lia].
    + unfold entries. cbn [d_vals d_dlen d_cap d_keys]. rewrite Hek. f_equal. apply take_resize; lia.
  - eexists (-1), _. split; [done|]. split; [|split; [|split; [done|right; split; [done|by right]]]].
    + split; cbn [d_vals d_dlen d_cap d_keys]; [lia|done|done|right; rewrite zlen_resize; lia].
    + unfold entries. cbn [d_vals d_dlen d_cap d_keys]. by rewrite Hek.
Qed.

Lemma take_store {A} (l l' : list A) n x : 0 <= n < zlen l -> store l n x = Some l' -> take (Z.to_nat (n + 1)) l' = take (Z.to_nat n) l ++ [x] /\ zlen l' = zlen l.
Proof.
  intros Hn Hs. pose proof Hs as Hs2. rewrite store_take in Hs2 by done. injection Hs2 as <-. split.
  - replace (Z.to_nat (n + 1)) with (Z.to_nat n + 1)%nat by lia. rewrite take_app_add' by (rewrite length_take; unfold zlen in *; lia). done.
  - unfold zlen in *. rewrite length_app, length_take. cbn [length]. rewrite length_drop. lia.
Qed.

Section DictSet.
Context (eqv : UValue -> UValue -> option bool).

Lemma udict_set_spec okk okv k v d : dict_wf d -> comparable eqv d k -> d_cap d < 2 ^ 31 ->
  exists rc d', udict_set eqv okk okv k v d = Some (rc, d') /\ dict_wf d' /\
  (rc = 0 /\ entries d' = a_set (eqb_of eqv) k v (entries d) \/ rc = -1 /\ entries d' = entries d /\ (okk = false \/ okv = false)).
Proof.
  intros Hw Hcmp Hs. unfold udict_set, a_set. rewrite udict_find_spec by done. cbn [mbind option_bind].
  destruct (first_at _ _ _) as [i|] eqn:Ef; cbn [fmap option_fmap option_map].
  - destruct (first_at_lt _ _ _ _ Ef) as (x & Hx & _). pose proof (lookup_lt_Some _ _ _ Hx) as Hi. rewrite entries_length in Hi by done.
    assert (Hiv : (i < length (d_vals d))%nat) by (pose proof (dw_len _ Hw); pose proof (dw_vals _ Hw); unfold zlen in *; lia).
    unfold store. replace ((0 <=? Z.of_nat i) && (Z.of_nat i <? Z.of_nat (length (d_vals d)))) with true
      by (symmetry; apply andb_true_intro; split; [apply Z.leb_le|apply Z.ltb_lt]; lia).
    cbn [mbind option_bind]. rewrite Nat2Z.id. eexists 0, _. split; [done|]. split.
    + destruct Hw as [A B C D]. split; cbn [d_vals d_dlen d_cap d_keys]; try done. unfold zlen in *. by rewrite length_insert.
    + left. split; [done|]. apply list_eq. intros j. rewrite entries_lookup. cbn [d_vals d_dlen d_cap d_keys].
      rewrite take_insert_lt by lia. destruct (decide (j = i)) as [-> |Hne].
      * rewrite list_lookup_alter_eq, entries_lookup. rewrite list_lookup_insert_eq by (rewrite length_take; lia).
        destruct (take _ (d_keys d) !! i) as [kk|]; [|done]. cbn [mbind option_bind].
        destruct (lookup_lt_is_Some_2 (take (Z.to_nat (d_dlen d)) (d_vals d)) i) as [w ->]; [rewrite length_take; lia|]. done.
      * by rewrite list_lookup_alter_ne, list_lookup_insert_ne, entries_lookup by done.
  - assert (Hg : exists rc d1, (if d_dlen d =? d_cap d then udict_grow okk okv d else (0, d)) = (rc, d1) /\ dict_wf d1 /\ entries d1 = entries d /\ d_dlen d1 = d_dlen d /\
        (rc = 0 /\ d_dlen d < d_cap d1 \/ rc = -1 /\ (okk = false \/ okv = false))).
    { destruct (d_dlen d =? d_cap d) eqn:E; zbool; [by apply dict_grow_spec|]. eexists 0, d. repeat (split; [done|]). left. split; [done|]. pose proof (dw_len _ Hw). lia. }
    destruct Hg as (rc & d1 & -> & Hw1 & He1 & Hd1 & [(-> & Hroom)|(-> & Hno)]).
    2:{ eexists (-1), d1. split; [done|]. split; [done|]. by right. }
    cbn [negb Z.eqb]. pose proof (dict_keys_room _ Hw1) as Hkr. pose proof (dw_len _ Hw1) as Hl1. pose proof (dw_vals _ Hw1) as Hv1.
    assert (Hc32 : d_cap d1 <= 2 ^ 31) by (destruct (dw_cap _ Hw1) as [-> |(kk & Hkk & ->)]; [done|apply Z.pow_le_mono_r; lia]).
    destruct (store_is_Some (d_keys d1) (d_dlen d1) k) as (keys & Ek & _); [unfold zlen in *; lia|].
    destruct (store_is_Some (d_vals d1) (d_dlen d1) v) as (vals & Ev & _); [unfold zlen in *; lia|].
    rewrite Ek, Ev. cbn [mbind option_bind]. rewrite u32_small by lia.
    destruct (take_store (d_keys d1) keys (d_dlen d1) k ltac:(lia) Ek) as [Tk Lk], (take_store (d_vals d1) vals (d_dlen d1) v ltac:(lia) Ev) as [Tv Lv].
    eexists 0, _. split; [done|]. split.
    + destruct Hw1 as [A B C D]. split; cbn [d_vals d_dlen d_cap d_keys]; [lia|done|lia|by rewrite Lk].
    + left. split; [done|]. rewrite <- He1. unfold entries at 1. cbn [d_vals d_dlen d_cap d_keys]. rewrite Tk, Tv.
      rewrite zip_with_app; [done|]. rewrite !length_take. unfold zlen in *. lia.
Qed.

Lemma udict_remove_spec k d : dict_wf d -> comparable eqv d k ->
  exists r d', udict_remove eqv k d = Some (r, d') /\ dict_wf d' /\ entries d' = a_remove (eqb_of eqv) k (entries d) /\
  r = bool_decide (is_Some (first_at (eqb_of eqv) k (entries d))).
Proof.
  intros Hw Hcmp. unfold udict_remove, a_remove. rewrite udict_find_spec by done. cbn [mbind option_bind]. pose proof (entries_length _ Hw) as Hlen.
  destruct (first_at _ _ _) as [i|] eqn:Ef; cbn [fmap option_fmap option_map].
  2:{ exists false, d. split; [done|]. split; [done|]. split; [done|]. by rewrite bool_decide_false by (by intros [? ?]). }
  destruct (first_at_lt _ _ _ _ Ef) as (x & Hx & _). pose proof (lookup_lt_Some _ _ _ Hx) as Hi. rewrite Hlen in Hi.
  pose proof (dw_len _ Hw) as Hl. set (n := Z.to_nat (d_dlen d)) in *.
  destruct (entries_read d (n - 1) Hw) as (kl & vl & Ekl & Evl & Eel); [lia|]. replace (Z.of_nat (n - 1)) with (d_dlen d - 1) in Ekl, Evl by lia.
  assert (Hlast : last (entries d) = Some (kl, vl)) by (rewrite last_lookup, Hlen; by replace (pred n) with (n - 1)%nat by lia).
  rewrite Hlast, bool_decide_true by (by eexists). pose proof (dict_keys_room _ Hw) as Hkr. pose proof (dw_vals _ Hw) as Hv.
  assert (Htk : forall kk vv c, Z.to_nat (d_dlen d - 1) = (n - 1)%nat -> (forall j, (j < n - 1)%nat -> (a ← kk !! j; b ← vv !! j; Some (a, b)) = <[i := (kl, vl)]> (entries d) !! j) ->
      entries (MkDict kk vv (d_dlen d - 1) c) = take (length (entries d) - 1) (<[i := (kl, vl)]> (entries d))).
  { intros kk vv c Hn Hj. apply list_eq. intros j. rewrite entries_lookup. cbn [d_vals d_dlen d_cap d_keys]. rewrite Hn, Hlen.
    destruct (decide (j < n - 1)%nat); [rewrite !lookup_take_lt by lia; by apply Hj|rewrite !lookup_take_ge by lia; done]. }
  assert (Hsrc : forall j, (j < n)%nat -> (a ← d_keys d !! j; b ← d_vals d !! j; Some (a, b)) = entries d !! j).
  { intros j Hj. rewrite entries_lookup. fold n. by rewrite !lookup_take_lt by lia. }
  destruct (Z.of_nat i =? d_dlen d - 1) eqn:El; zbool.
  - eexists true, _. split; [done|]. split; [|split; [|done]].
    + destruct Hw as [A B C D]. split; cbn [d_vals d_dlen d_cap d_keys]; [lia|done|done|done].
    + apply Htk; [lia|]. intros j Hj. rewrite list_lookup_insert_ne by lia. apply Hsrc. lia.
  - rewrite Ekl. cbn [mbind option_bind]. destruct (store_is_Some (d_keys d) (Z.of_nat i) kl) as (keys & Ek & Lk); [unfold zlen in *; lia|].
    rewrite Ek. cbn [mbind option_bind]. rewrite Evl. cbn [mbind option_bind].
    destruct (store_is_Some (d_vals d) (Z.of_nat i) vl) as (vals & Ev & Lv); [unfold zlen in *; lia|]. rewrite Ev. cbn [mbind option_bind].
    eexists true, _. split; [done|]. split; [|split; [|done]].
    + destruct Hw as [A B C D]. split; cbn [d_vals d_dlen d_cap d_keys]; unfold zlen in *; [lia|done|by rewrite Lv|by rewrite Lk].
    + apply Htk; [lia|]. intros j Hj. unfold store in Ek, Ev. destruct (_ && _) in Ek; [|done]. destruct (_ && _) in Ev; [|done].
      injection Ek as <-. injection Ev as <-. rewrite !Nat2Z.id. destruct (decide (j = i)) as [-> |Hne].
      * rewrite !list_lookup_insert_eq by (rewrite ?Hlen; unfold zlen in *; lia). done.
      * rewrite !list_lookup_insert_ne by done. apply Hsrc. lia.
Qed.
End DictSet.

Lemma round_up_spec fuel : forall k hint, 0 <= k <= 31 -> hint <= 2 ^ 31 -> 31 - k <= Z.of_nat fuel ->
  exists j, k <= j <= 31 /\ round_up fuel (2 ^ k) hint = Some (2 ^ j) /\ hint <= 2 ^ j.
Proof.
  induction fuel as [|fuel IH]; intros k hint Hk Hn Hf; cbn [round_up]; zcase.
  - assert (k = 31) as -> by lia. lia.
  - exists k. split; [lia|done].
  - assert (k <> 31) by (intros ->; lia).
    replace (u32 (2 ^ k * 2)) with (2 ^ (k + 1)).
    2:{ rewrite Z.pow_add_r by lia. rewrite u32_small; [done|]. assert (0 < 2 ^ k) by (apply Z.pow_pos_nonneg; lia).
        assert (2 ^ k <= 2 ^ 30) by (apply Z.pow_le_mono_r; lia). change (2 ^ 32) with (2 ^ 30 * 4). lia. }
    destruct (IH (k + 1) hint) as (j & Hj & E & Hle); [lia|done|lia|]. exists j. split; [lia|done].
  - exists k. split; [lia|done].
Qed.

Lemma round_up_zero fuel hint : 0 < hint -> round_up fuel 0 hint = None.
Proof. intros Hh. induction fuel as [|fuel IH]; cbn [round_up]; zcase; done || lia. Qed.

Lemma round_up_loops fuel : forall k hint, 0 <= k <= 31 -> 2 ^ 31 < hint -> round_up fuel (2 ^ k) hint = None.
Proof.
  induction fuel as [|fuel IH]; intros k hint Hk Hh; cbn [round_up].
  - zcase; [done|]. assert (2 ^ k <= 2 ^ 31) by (apply Z.pow_le_mono_r; lia). lia.
  - zcase; [|assert (2 ^ k <= 2 ^ 31) by (apply Z.pow_le_mono_r; lia); lia].
    destruct (decide (k = 31)) as [-> |Hne]; [apply round_up_zero; lia|].
    replace (u32 (2 ^ k * 2)) with (2 ^ (k + 1)); [apply IH; lia|].
    rewrite Z.pow_add_r by lia. rewrite u32_small; [done|]. assert (0 < 2 ^ k) by (apply Z.pow_pos_nonneg; lia).
    assert (2 ^ k <= 2 ^ 30) by (apply Z.pow_le_mono_r; lia). change (2 ^ 32) with (2 ^ 30 * 4). lia.
Qed.

(** C39 lists of a capacity below 2^31 are sequences: pushing appends,
    inserting at an index up to the length shifts the rest up by one,
    removing closes the gap, each in a block that never overflows; an index
    out of range, or memory running out when the list was full, is reported
    and leaves the list as it was. *)
Theorem list_ops_are_sequence_ops ok at_ v l : list_wf l -> l_cap l < 2 ^ 31 -> 0 <= at_ ->
  (exists rc l', ulist_push ok v l = Some (rc, l') /\ list_wf l' /\
     (rc = 0 /\ elems l' = elems l ++ [v] \/ rc = -1 /\ l' = l /\ ok = false /\ l_len l = l_cap l)) /\
  (exists rc l', ulist_insert ok at_ v l = Some (rc, l') /\ list_wf l' /\
     (rc = 0 /\ at_ <= l_len l /\ elems l' = take (Z.to_nat at_) (elems l) ++ v :: drop (Z.to_nat at_) (elems l) \/
      rc = -1 /\ l' = l /\ (l_len l < at_ \/ ok = false /\ l_len l = l_cap l))) /\
  (exists r l', ulist_remove_at at_ l = Some (r, l') /\ list_wf l' /\
     if r : bool then at_ < l_len l /\ elems l' = take (Z.to_nat at_) (elems l) ++ drop (Z.to_nat (at_ + 1)) (elems l) else l_len l <= at_ /\ l' = l).
Proof. intros Hw Hc Ha. split; [by apply push_spec|]. split; [by apply insert_spec|by apply remove_at_spec]. Qed.

Definition three : UList := MkList [UV_INT 1; UV_INT 2; UV_INT 3; UV_NIL] 3.
Lemma three_wf : list_wf three.
Proof. split; [vm_compute; split; discriminate|right; by exists 2]. Qed.

Lemma list_ops_are_sequence_ops_witness : exists rc l', ulist_insert true 1 UV_VOID three = Some (rc, l') /\ elems l' = [UV_INT 1; UV_VOID; UV_INT 2; UV_INT 3].
Proof.
  destruct (list_ops_are_sequence_ops true 1 UV_VOID three three_wf eq_refl ltac:(lia)) as (_ & (rc & l' & E & _ & [(_ & _ & He)|(H & _)]) & _).
  - exists rc, l'. split; [exact E|exact He].
  - subst rc. vm_compute in E. discriminate E.
Defined.

(** preallocation: up to a hint of 2^31 elements [ulist_new] ends, with an
    empty list of at least that capacity, or none if memory is refused; beyond
    it the 32-bit doubling wraps to zero and the loop never ends, whatever
    the fuel. *)
Theorem list_new_ends_iff ok hint : 0 <= hint < 2 ^ 32 ->
  (hint <= 2 ^ 31 -> exists l, ulist_new ok hint = Some l /\ list_wf l /\ elems l = [] /\ (if ok then hint <= l_cap l else l_cap l = 0)) /\
  (2 ^ 31 < hint -> forall fuel, round_up fuel 4 hint = None).
Proof.
  intros Hh. split.
  - intros Hle. unfold ulist_new. destruct (round_up_spec 32 2 hint) as (j & Hj & E & Hlt); [lia..|]. change (2 ^ 2) with 4 in E. rewrite E. cbn [mbind option_bind].
    eexists. split; [done|]. assert (0 <= 2 ^ j) by (apply Z.pow_nonneg; lia).
    destruct ok; cbn; unfold l_cap, elems; cbn [l_items l_len].
    + assert (Hz : zlen (replicate (Z.to_nat (2 ^ j)) UV_NIL) = 2 ^ j) by (unfold zlen; rewrite length_replicate; lia).
      split; [split; unfold l_cap; cbn [l_items l_len]; rewrite Hz; [lia|right; exists j; lia]|]. split; [done|]. by rewrite Hz.
    + split; [split; unfold l_cap; cbn [l_items l_len]; [done|by left]|done].
  - intros Hgt fuel. apply (round_up_loops fuel 2); [lia|done].
Qed.

Lemma list_new_ends_iff_witness : exists l, ulist_new true 100 = Some l /\ list_wf l.
Proof.
  destruct (list_new_ends_iff true 100 ltac:(lia)) as [H _]. destruct (H ltac:(lia)) as (l & E & Hw & _). exists l. split; [exact E|exact Hw].
Defined.

(** C40 dictionaries of a capacity below 2^31 are association lists: looking
    up reads the first entry whose key equals the one asked for; setting
    overwrites that entry or appends one, and is refused, without losing an
    entry, only when memory is; removing takes it out, the last entry taking
    its place; and the value set is the value read back, unless the key does
    not equal itself (a NaN). *)
Theorem dicts_are_association_lists t strs okk okv k v d : let eqv := uv_equal t strs in
  dict_wf d -> comparable eqv d k -> d_cap d < 2 ^ 31 ->
  udict_get eqv d k = Some (a_get (eqb_of eqv) k (entries d)) /\
  (exists rc d', udict_set eqv okk okv k v d = Some (rc, d') /\ dict_wf d' /\
     (rc = 0 /\ entries d' = a_set (eqb_of eqv) k v (entries d) /\
        (eqb_of eqv k k = true -> a_get (eqb_of eqv) k (entries d') = Some v) \/
      rc = -1 /\ entries d' = entries d /\ (okk = false \/ okv = false))) /\
  (exists r d', udict_remove eqv k d = Some (r, d') /\ dict_wf d' /\ entries d' = a_remove (eqb_of eqv) k (entries d) /\
     r = bool_decide (is_Some (first_at (eqb_of eqv) k (entries d)))).
Proof.
  intros eqv Hw Hc Hs. split; [by apply udict_get_spec|]. split; [|by apply udict_remove_spec].
  destruct (udict_set_spec eqv okk okv k v d Hw Hc Hs) as (rc & d' & E & Hw' & [(-> & He)|(-> & He & Hno)]).
  - exists 0, d'. split; [done|]. split; [done|]. left. split; [done|]. split; [done|]. intros Hk. rewrite He. by apply a_get_set.
  - exists (-1), d'. split; [done|]. split; [done|]. by right.
Qed.

Definition two_keys : UDict := MkDict [UV_INT 1; UV_BOOL 1; UV_NIL; UV_NIL] [UV_NIL; UV_VOID; UV_NIL; UV_NIL] 2 4.
Definition no_strings : UStrTab := MkTab [[]] 0 ∅.
Lemma two_keys_wf : dict_wf two_keys.
Proof. split; [vm_compute; split; discriminate|right; by exists 2|done|by left]. Qed.

(** The key 1.0 finds the entry of the key 1. *)
Lemma dicts_are_association_lists_witness : exists d', udict_set (uv_equal no_strings ∅) true true (UV_FLOAT (double_of_int 1)) (UV_INT 9) two_keys = Some (0, d') /\
  a_get (eqb_of (uv_equal no_strings ∅)) (UV_FLOAT (double_of_int 1)) (entries d') = Some (UV_INT 9).
Proof.
  destruct (dicts_are_association_lists no_strings ∅ true true (UV_FLOAT (double_of_int 1)) (UV_INT 9) two_keys two_keys_wf)
    as (_ & (rc & d' & E & _ & [(-> & _ & Hg)|(-> & _ & [H|H])]) & _).
  - intros i x Hx. destruct i as [|[|i]]; [injection Hx as <-; by eexists|injection Hx as <-; by eexists|discriminate Hx].
  - reflexivity.
  - exists d'. split; [exact E|]. apply Hg. vm_compute. reflexivity.
  - discriminate H.
  - discriminate H.
Defined.

End Lists.
