(* ===== verification/Strands.v ===== *)
(** * A strand's register stack, frames and upvalues (src/src/rt/ustrand.c)

    The register stack is one block that moves when it grows, so a pointer
    into it is the block's number and an index, and reading through a pointer
    into a block that is no longer the stack is a fault.  The scheduler's view
    of a strand is in Sched.v.  [ok] answers each allocation. *)
From Stdlib Require Import Sorted.
From S2P Require Import Prelude Values.

Module Strands.

Definition USTRAND_MAX_FRAMES : Z := 32768.
Definition USTRAND_MAX_CLEANUP : Z := 32768.

Inductive vptr := PStack (block : nat) (index : Z) | PClosed.

Record UUpval := MkUpval { u_ptr : vptr; u_closed : UValue; u_stack_index : Z }.

(** [cl_max_reg]: [proto->max_reg], [None] for a native closure. *)
Record UClosure := MkClosure { cl_cell : nat; cl_max_reg : option Z }.

Record UFrame := MkFrame {
  f_closure : UClosure;
  f_pc : option Z;                 (* index into the proto's instructions *)
  f_base : Z;
  f_ret_reg : Z;
  f_is_boundary : bool;
  f_recv : UValue }.

Record UCleanupEntry := MkCleanup {
  cu_kind : Z; cu_flags : Z; cu_saved_unwind : Z; cu_frame : Z; cu_handler_pc : Z; cu_onleave_pc : Z; cu_tag : option nat; cu_saved : UValue }.

(** The fields of [UStrand] these operations touch; [upvals] are the upvalue cells. *)
Record ustack := MkStack {
  s_block : nat;
  s_stack : list UValue;           (* stack[0 .. stack_cap) *)
  s_frames : list UFrame;          (* frames[0 .. nframes) *)
  s_frames_cap : Z;
  s_nboundary : Z;
  s_open : list nat;               (* open_upvals, along next_open *)
  s_cleanup : list UCleanupEntry;
  s_cleanup_cap : Z;
  s_upvals : gmap nat UUpval }.

Definition set_regs (l : list UValue) (s : ustack) : ustack :=
  MkStack (s_block s) l (s_frames s) (s_frames_cap s) (s_nboundary s) (s_open s) (s_cleanup s) (s_cleanup_cap s) (s_upvals s).
Definition set_frames (l : list UFrame) (cap nb : Z) (s : ustack) : ustack :=
  MkStack (s_block s) (s_stack s) l cap nb (s_open s) (s_cleanup s) (s_cleanup_cap s) (s_upvals s).
Definition set_open (l : list nat) (m : gmap nat UUpval) (s : ustack) : ustack :=
  MkStack (s_block s) (s_stack s) (s_frames s) (s_frames_cap s) (s_nboundary s) l (s_cleanup s) (s_cleanup_cap s) m.
Definition set_cleanup (l : list UCleanupEntry) (cap : Z) (s : ustack) : ustack :=
  MkStack (s_block s) (s_stack s) (s_frames s) (s_frames_cap s) (s_nboundary s) (s_open s) l cap (s_upvals s).

Definition stack_cap (s : ustack) : Z := zlen (s_stack s).

(** [*u->ptr]. *)
Definition deref (s : ustack) (u : nat) : option UValue :=
  x ← s_upvals s !! u;
  match u_ptr x with
  | PStack b i => if decide (b = s_block s) then read (s_stack s) i else None
  | PClosed => Some (u_closed x)
  end.

(** ** Growing the stack *)

(** [while (new_cap < needed) new_cap *= 2], at 32 bits. *)
Fixpoint double_to (fuel : nat) (cap needed : Z) : option Z :=
  if cap <? needed then match fuel with O => None | S fuel => double_to fuel (u32 (cap * 2)) needed end
  else Some cap.

(** [u->ptr = s->stack + u->stack_index] along the open list. *)
Fixpoint repoint (block : nat) (l : list nat) (m : gmap nat UUpval) : option (gmap nat UUpval) :=
  match l with
  | [] => Some m
  | u :: l => x ← m !! u; repoint block l (<[u := MkUpval (PStack block (u_stack_index x)) (u_closed x) (u_stack_index x)]> m)
  end.

(** [block]: where the new block is, [None] if the reallocation is refused. *)
Definition ustrand_ensure_stack (block : option nat) (needed : Z) (s : ustack) : option (Z * ustack) :=
  if needed <=? stack_cap s then Some (0, s)
  else
    new_cap ← double_to 32 (if stack_cap s =? 0 then 8 else stack_cap s) needed;
    match block with
    | None => Some (-1, s)
    | Some b =>
        m ← repoint b (s_open s) (s_upvals s);
        Some (0, MkStack b (s_stack s ++ replicate (Z.to_nat (new_cap - stack_cap s)) UV_NIL) (s_frames s) (s_frames_cap s)
                   (s_nboundary s) (s_open s) (s_cleanup s) (s_cleanup_cap s) m)
    end.

(** ** Frames *)

Definition ustrand_grow_frames (ok : bool) (s : ustack) : Z * ustack :=
  if USTRAND_MAX_FRAMES <=? s_frames_cap s then (-2, s)
  else
    let new_cap := if s_frames_cap s =? 0 then 4 else u16 (s_frames_cap s * 2) in
    if ok then (0, set_frames (s_frames s) new_cap (s_nboundary s) s) else (-1, s).

(** [for (i = i; i < needed; i++) s->stack[i] = uv_nil()]. *)
Fixpoint clear_regs (n : nat) (i : Z) (l : list UValue) : option (list UValue) :=
  match n with O => Some l | S n => l ← store l i UV_NIL; clear_regs n (i + 1) l end.

Definition ustrand_push_frame_args (ok : bool) (block : option nat) (cl : UClosure) (recv : UValue) (base ret_reg nkeep : Z) (s : ustack)
    : option (Z * ustack) :=
  let '(grc, s) := if zlen (s_frames s) =? s_frames_cap s then ustrand_grow_frames ok s else (0, s) in
  if negb (grc =? 0) then Some (grc, s)
  else
    let max_reg := default 0 (cl_max_reg cl) in
    let needed := u32 (base + max_reg + 1) in
    '(rc, s) ← ustrand_ensure_stack block needed s;
    if negb (rc =? 0) then Some (-1, s)
    else
      let from := u32 (base + nkeep) in
      l ← clear_regs (Z.to_nat (needed - from)) from (s_stack s);
      let f := MkFrame cl (if cl_max_reg cl then Some 0 else None) base ret_reg false recv in
      if zlen (s_frames s) <? s_frames_cap s then
        Some (0, set_frames (s_frames s ++ [f]) (s_frames_cap s) (s_nboundary s) (set_regs l s))
      else None.

Definition ustrand_push_frame (ok : bool) (block : option nat) (cl : UClosure) (recv : UValue) (base ret_reg : Z) (s : ustack) :=
  ustrand_push_frame_args ok block cl recv base ret_reg 0 s.

(** ** Upvalues *)

Fixpoint close_loop (from_index : Z) (l : list nat) (s : ustack) : option ustack :=
  match l with
  | [] => Some (set_open [] (s_upvals s) s)
  | u :: l' =>
      x ← s_upvals s !! u;
      if u_stack_index x <? from_index then Some (set_open l (s_upvals s) s)
      else
        v ← deref s u;
        close_loop from_index l' (set_open (s_open s) (<[u := MkUpval PClosed v (u_stack_index x)]> (s_upvals s)) s)
  end.
Definition ustrand_close_upvals (from_index : Z) (s : ustack) : option ustack := close_loop from_index (s_open s) s.

Definition ustrand_pop_frame (s : ustack) : option ustack :=
  match last (s_frames s) with
  | None => Some s
  | Some f =>
      s ← ustrand_close_upvals (f_base f) s;
      Some (set_frames (take (length (s_frames s) - 1) (s_frames s)) (s_frames_cap s)
              (if f_is_boundary f then u16 (s_nboundary s - 1) else s_nboundary s) s)
  end.

(** Where [stack_index] belongs on the open list: the entries before it, the
    entries from it on, and whether the first of these is the one wanted. *)
Fixpoint upval_place (stack_index : Z) (l : list nat) (m : gmap nat UUpval) : option (list nat * list nat * bool) :=
  match l with
  | [] => Some ([], [], false)
  | u :: l' =>
      x ← m !! u;
      if stack_index <? u_stack_index x then '(before, after, found) ← upval_place stack_index l' m; Some (u :: before, after, found)
      else Some ([], l, u_stack_index x =? stack_index)
  end.

(** [cell]: the cell the collector hands out; the result is the upvalue, [None] out of memory. *)
Definition ustrand_find_or_open_upval (cell : option nat) (stack_index : Z) (s : ustack) : option (option nat * ustack) :=
  '(before, after, found) ← upval_place stack_index (s_open s) (s_upvals s);
  if found : bool then Some (head after, s)
  else
    match cell with
    | None => Some (None, s)
    | Some u =>
        Some (Some u, set_open (before ++ u :: after) (<[u := MkUpval (PStack (s_block s) stack_index) UV_NIL stack_index]> (s_upvals s)) s)
    end.

(** ** Cleanup stack *)

Definition ustrand_push_cleanup (ok : bool) (c : UCleanupEntry) (s : ustack) : option (Z * ustack) :=
  let push s := if zlen (s_cleanup s) <? s_cleanup_cap s then Some (0, set_cleanup (s_cleanup s ++ [c]) (s_cleanup_cap s) s) else None in
  if zlen (s_cleanup s) =? s_cleanup_cap s then
    if USTRAND_MAX_CLEANUP <=? s_cleanup_cap s then Some (-1, s)
    else if ok then push (set_cleanup (s_cleanup s) (if s_cleanup_cap s =? 0 then 4 else u16 (s_cleanup_cap s * 2)) s)
    else Some (-1, s)
  else push s.

(** Writing the hidden argument count, re-checked against the frame. *)
Definition ustrand_store_nargs (arity_prologue : bool) (nparams max_reg base nargs : Z) (s : ustack) : option ustack :=
  if arity_prologue && (0 <? nparams) && (nparams <=? max_reg) then
    l ← store (s_stack s) (u32 (base + nparams)) (UV_INT nargs); Some (set_regs l s)
  else Some s.

(** ** Invariant *)

Definition u_index (m : gmap nat UUpval) (u : nat) : Z := match m !! u with Some x => u_stack_index x | None => 0 end.

Definition table_cap (c : Z) : Prop := c = 0 \/ exists k, 2 <= k <= 15 /\ c = 2 ^ k.
Definition regs_cap (c : Z) : Prop := c = 0 \/ exists k, 3 <= k <= 31 /\ c = 2 ^ k.

(** One open upvalue: it points at its own register. *)
Definition open_ok (s : ustack) (u : nat) : Prop :=
  exists x, s_upvals s !! u = Some x /\ u_ptr x = PStack (s_block s) (u_stack_index x) /\ 0 <= u_stack_index x < stack_cap s.

(** [open_upvals] is kept sorted by descending [stack_index], without repeats. *)
Definition descending (m : gmap nat UUpval) : list nat -> Prop := StronglySorted (fun u w => u_index m w < u_index m u).

Definition frame_ok (s : ustack) (f : UFrame) : Prop := 0 <= f_base f /\ f_base f + default 0 (cl_max_reg (f_closure f)) + 1 <= stack_cap s.

Record swf (s : ustack) : Prop := {
  w_open : forall u, u ∈ s_open s -> open_ok s u;
  w_sorted : descending (s_upvals s) (s_open s);
  w_closed : forall u x, s_upvals s !! u = Some x -> u ∉ s_open s -> u_ptr x = PClosed;
  w_regs : regs_cap (stack_cap s);
  w_frames : zlen (s_frames s) <= s_frames_cap s /\ table_cap (s_frames_cap s);
  w_windows : Forall (frame_ok s) (s_frames s);
  w_boundary : s_nboundary s = zlen (filter (fun f => f_is_boundary f = true) (s_frames s));
  w_cleanup : zlen (s_cleanup s) <= s_cleanup_cap s /\ table_cap (s_cleanup_cap s) }.

(** ** Growing *)

Lemma double_to_spec fuel : forall k needed, 0 <= k <= 31 -> needed <= 2 ^ 31 -> 31 - k <= Z.of_nat fuel ->
  exists j, k <= j <= 31 /\ double_to fuel (2 ^ k) needed = Some (2 ^ j) /\ needed <= 2 ^ j.
Proof.
  induction fuel as [|fuel IH]; intros k needed Hk Hn Hf; cbn [double_to]; zcase.
  - assert (k = 31) as -> by lia. lia.
  - exists k. split; [lia|done].
  - assert (k <> 31) by (intros ->; lia).
    replace (u32 (2 ^ k * 2)) with (2 ^ (k + 1)).
    2:{ rewrite Z.pow_add_r by lia. rewrite u32_small; [done|]. assert (0 < 2 ^ k) by (apply Z.pow_pos_nonneg; lia).
        assert (2 ^ k <= 2 ^ 30) by (apply Z.pow_le_mono_r; lia). change (2 ^ 32) with (2 ^ 30 * 4). lia. }
    destruct (IH (k + 1) needed) as (j & Hj & E & Hle); [lia|done|lia|]. exists j. split; [lia|done].
  - exists k. split; [lia|done].
Qed.

Lemma repoint_spec b l : forall m, NoDup l -> (forall u, u ∈ l -> is_Some (m !! u)) ->
  exists m', repoint b l m = Some m' /\
    forall u, m' !! u = if decide (u ∈ l) then (fun x => MkUpval (PStack b (u_stack_index x)) (u_closed x) (u_stack_index x)) <$> m !! u else m !! u.
Proof.
  induction l as [|w l IH]; intros m Hn Hm; cbn [repoint].
  { exists m. split; [done|]. intros u. by rewrite decide_False by (by intros ?%elem_of_nil). }
  apply NoDup_cons in Hn as [Hw Hn]. destruct (Hm w) as [x Hx]; [by left|]. rewrite Hx. cbn [mbind option_bind].
  destruct (IH (<[w := MkUpval (PStack b (u_stack_index x)) (u_closed x) (u_stack_index x)]> m) Hn) as (m' & -> & Hm').
  { intros u Hu. rewrite lookup_insert_ne by (intros ->; done). apply Hm. by right. }
  exists m'. split; [done|]. intros u. rewrite Hm'. destruct (decide (u = w)) as [-> |Hne].
  - rewrite decide_False by done. rewrite lookup_insert_eq, decide_True by (by left). by rewrite Hx.
  - rewrite lookup_insert_ne by done. destruct (decide (u ∈ l)); [by rewrite decide_True by (by right)|].
    rewrite decide_False; [done|]. intros [?|?]%elem_of_cons; done.
Qed.

Lemma descending_nodup m l : descending m l -> NoDup l.
Proof.
  induction 1 as [|u l Hs IH Hall]; [apply NoDup_nil_2|]. constructor; [|done]. intros Hu.
  rewrite Forall_forall in Hall. specialize (Hall u Hu). lia.
Qed.

Lemma descending_ext m m' l : (forall u, u ∈ l -> u_index m' u = u_index m u) -> descending m l -> descending m' l.
Proof.
  intros He. induction 1 as [|u l Hs IH Hall]; [constructor|]. constructor.
  - apply IH. intros w Hw. apply He. by right.
  - rewrite Forall_forall in *. intros w Hw. rewrite !He by (by left || by right). by apply Hall.
Qed.

Lemma regs_cap_bound c : regs_cap c -> 0 <= c <= 2 ^ 31.
Proof.
  intros [-> |(k & Hk & ->)]; [lia|]. split; [apply Z.pow_nonneg; lia|apply Z.pow_le_mono_r; lia].
Qed.

Lemma read_grow {A} (l k : list A) i : 0 <= i < zlen l -> read (l ++ k) i = read l i.
Proof. intros. unfold read. zcases; [|lia]. apply lookup_app_l. unfold zlen in *. lia. Qed.

(** What every operation below leaves alone. *)
Definition same_values (s s' : ustack) : Prop := forall u, is_Some (s_upvals s !! u) -> deref s' u = deref s u.

Lemma ensure_stack_spec block needed s : swf s -> 0 <= needed <= 2 ^ 31 ->
  exists rc s', ustrand_ensure_stack block needed s = Some (rc, s') /\ swf s' /\ same_values s s' /\
    s_frames s' = s_frames s /\ s_frames_cap s' = s_frames_cap s /\ s_nboundary s' = s_nboundary s /\ s_open s' = s_open s /\
    (forall u, u_index (s_upvals s') u = u_index (s_upvals s) u) /\
    (rc = 0 /\ needed <= stack_cap s' /\ (exists k, s_stack s' = s_stack s ++ replicate k UV_NIL) \/ rc = -1 /\ s' = s /\ block = None /\ stack_cap s < needed).
Proof.
  intros Hw Hn. unfold ustrand_ensure_stack. zcase.
  { exists 0, s. repeat (split; [done|]). left. repeat (split; [done|]). exists O. by rewrite app_nil_r. }
  assert (Hd : exists j, 3 <= j <= 31 /\ double_to 32 (if stack_cap s =? 0 then 8 else stack_cap s) needed = Some (2 ^ j) /\ needed <= 2 ^ j).
  { destruct (w_regs _ Hw) as [E|(k & Hk & E)]; rewrite E.
    - destruct (double_to_spec 32 3 needed) as (j & Hj & E2 & Hle); [lia..|]. exists j. split; [lia|]. by split.
    - replace (2 ^ k =? 0) with false by (symmetry; apply Z.eqb_neq; pose proof (Z.pow_pos_nonneg 2 k); lia).
      destruct (double_to_spec 32 k needed) as (j & Hj & E2 & Hle); [lia..|]. exists j. split; [lia|]. by split. }
  destruct Hd as (j & Hj & -> & Hle). cbn [mbind option_bind]. destruct block as [b|]; [|exists (-1), s; repeat (split; [done|]); by right].
  destruct (repoint_spec b (s_open s) (s_upvals s)) as (m' & -> & Hm').
  { by eapply descending_nodup, w_sorted. }
  { intros u Hu. destruct (w_open _ Hw u Hu) as (x & -> & _). by eexists. }
  cbn [mbind option_bind]. eexists 0, _. split; [done|].
  set (n := Z.to_nat (2 ^ j - stack_cap s)).
  assert (Hcap : zlen (s_stack s ++ replicate n UV_NIL) = 2 ^ j).
  { rewrite zlen_app. unfold zlen at 2. rewrite length_replicate. unfold n, stack_cap in *. lia. }
  assert (Hix : forall u, u_index m' u = u_index (s_upvals s) u).
  { intros u. unfold u_index. rewrite Hm'. case_decide; [|done]. by destruct (s_upvals s !! u). }
  split; [|split].
  - split; cbn [s_open s_upvals s_frames s_frames_cap s_nboundary s_cleanup s_cleanup_cap]; try apply Hw.
    + intros u Hu. destruct (w_open _ Hw u Hu) as (x & Hx & _ & Hlt). eexists. cbn [s_upvals]. rewrite Hm', decide_True, Hx by done.
      split; [done|]. cbn. split; [done|]. unfold stack_cap in *. cbn. rewrite Hcap. lia.
    + apply (descending_ext (s_upvals s)); [done|apply Hw].
    + intros u x Hx Hu. rewrite Hm', decide_False in Hx by done. by apply (w_closed _ Hw u).
    + right. exists j. split; [lia|]. unfold stack_cap. cbn. by rewrite Hcap.
    + eapply Forall_impl; [apply Hw|]. intros f [? ?]. split; [done|]. unfold stack_cap in *. cbn. rewrite Hcap. lia.
  - intros u [x Hx]. unfold deref. cbn [s_upvals s_block s_stack]. rewrite Hm'. destruct (decide (u ∈ s_open s)) as [Hu|Hu]; rewrite Hx; cbn.
    + destruct (w_open _ Hw u Hu) as (x' & Hx' & Hp & Hlt). rewrite Hx in Hx'. injection Hx' as <-. rewrite Hp, !decide_True by done.
      by apply read_grow.
    + by rewrite (w_closed _ Hw u x).
  - repeat (split; [done|]). left. split; [done|]. split; [|by exists n]. unfold stack_cap. cbn. by rewrite Hcap.
Qed.

(** ** Closing *)

(** [s'] differs from [s] in the open list and the upvalue cells only. *)
Definition upvals_only (s s' : ustack) : Prop :=
  s' = MkStack (s_block s) (s_stack s) (s_frames s) (s_frames_cap s) (s_nboundary s) (s_open s') (s_cleanup s) (s_cleanup_cap s) (s_upvals s').

Record closing (from : Z) (l : list nat) (s s' : ustack) : Prop := {
  cl_only : upvals_only s s';
  cl_split : exists l1, l = l1 ++ s_open s' /\ (forall u, u ∈ l1 -> from <= u_index (s_upvals s) u) /\
    forall u, s_upvals s' !! u = if decide (u ∈ l1) then (x ← s_upvals s !! u; v ← deref s u; Some (MkUpval PClosed v (u_stack_index x))) else s_upvals s !! u;
  cl_rest : forall u, u ∈ s_open s' -> u_index (s_upvals s) u < from;
  cl_values : same_values s s' }.

Lemma open_deref s u : open_ok s u -> exists x v, s_upvals s !! u = Some x /\ deref s u = Some v /\ read (s_stack s) (u_stack_index x) = Some v.
Proof.
  intros (x & Hx & Hp & Hlt). destruct (read_is_Some (s_stack s) (u_stack_index x)) as [v Hv]; [unfold stack_cap, zlen in Hlt; done|].
  exists x, v. split; [done|]. unfold deref. rewrite Hx. cbn. rewrite Hp, decide_True by done. done.
Qed.

Lemma close_loop_spec from l : forall s, (forall u, u ∈ l -> open_ok s u) -> descending (s_upvals s) l ->
  exists s', close_loop from l s = Some s' /\ closing from l s s'.
Proof.
  induction l as [|u l IH]; intros s Ho Hs; cbn [close_loop].
  { eexists. split; [done|]. split; [done| | |done].
    - exists []. split; [done|]. split; [by intros ? ?%elem_of_nil|]. intros w. by rewrite decide_False by (by intros ?%elem_of_nil).
    - by intros ? ?%elem_of_nil. }
  destruct (open_deref s u) as (x & v & Hx & Hd & _); [apply Ho; by left|]. rewrite Hx. cbn [mbind option_bind].
  assert (Hi : u_index (s_upvals s) u = u_stack_index x) by (unfold u_index; by rewrite Hx).
  apply StronglySorted_inv in Hs as [Hs Hall]. rewrite Forall_forall in Hall.
  destruct (u_stack_index x <? from) eqn:Ef; zbool.
  { eexists. split; [done|]. split; [done| | |done].
    - exists []. split; [done|]. split; [by intros ? ?%elem_of_nil|]. intros w. by rewrite decide_False by (by intros ?%elem_of_nil).
    - cbn. intros w [-> |Hw]%elem_of_cons; [lia|]. specialize (Hall w Hw). lia. }
  rewrite Hd. cbn [mbind option_bind]. set (s1 := set_open (s_open s) (<[u := MkUpval PClosed v (u_stack_index x)]> (s_upvals s)) s).
  assert (Hu : u ∉ l) by (intros Hu; specialize (Hall u Hu); lia).
  assert (Hv1 : same_values s s1).
  { intros w [y Hw]. unfold deref. cbn. destruct (decide (w = u)) as [-> |Hne]; [|by rewrite lookup_insert_ne].
    rewrite lookup_insert_eq. cbn. unfold deref in Hd. symmetry. exact Hd. }
  assert (Hl1 : forall w, w <> u -> s_upvals s1 !! w = s_upvals s !! w) by (intros w Hw; cbn; by rewrite lookup_insert_ne).
  assert (Hi1 : forall w, u_index (s_upvals s1) w = u_index (s_upvals s) w).
  { intros w. destruct (decide (w = u)) as [-> |Hne]; [unfold u_index; cbn; by rewrite lookup_insert_eq, Hx|]. unfold u_index. by rewrite Hl1. }
  destruct (IH s1) as (s' & -> & [Ho' (l1 & -> & Hl & Hup) Hr Hv]).
  { intros w Hw. destruct (Ho w) as (y & Hy & Hp & Hlt); [by right|]. exists y. rewrite Hl1 by (intros ->; done). done. }
  { by apply (descending_ext (s_upvals s)). }
  assert (Hall1 : forall w, w <> u -> deref s1 w = deref s w).
  { intros w Hw. unfold deref. by rewrite Hl1. }
  exists s'. split; [done|]. split; [exact Ho'| | |].
  - exists (u :: l1). split; [done|]. split.
    + intros w [-> |Hw]%elem_of_cons; [lia|]. rewrite <- Hi1. by apply Hl.
    + intros w. rewrite Hup. destruct (decide (w = u)) as [-> |Hne].
      * rewrite decide_False by (intros H; apply Hu, elem_of_app; by left). rewrite decide_True by (by left). rewrite Hx, Hd. cbn. by rewrite lookup_insert_eq.
      * rewrite Hl1, Hall1 by done. destruct (decide (w ∈ l1)); [by rewrite decide_True by (by right)|].
        rewrite decide_False; [done|]. intros [?|?]%elem_of_cons; done.
  - intros w Hw. rewrite <- Hi1. by apply Hr.
  - intros w Hw. rewrite Hv, Hv1; [done|done|]. destruct (decide (w = u)) as [-> |Hne]; [cbn; rewrite lookup_insert_eq; by eexists|]. by rewrite Hl1.
Qed.

Lemma descending_app_r m l1 l2 : descending m (l1 ++ l2) -> descending m l2.
Proof. induction l1 as [|u l1 IH]; [done|]. intros [H _]%StronglySorted_inv. auto. Qed.

Lemma descending_app_disj m l1 l2 u : descending m (l1 ++ l2) -> u ∈ l1 -> u ∉ l2.
Proof. intros Hd%descending_nodup. apply NoDup_app in Hd as (_ & H & _). auto. Qed.

Lemma close_upvals_spec from s : swf s ->
  exists s', ustrand_close_upvals from s = Some s' /\ swf s' /\ closing from (s_open s) s s'.
Proof.
  intros Hw. destruct (close_loop_spec from (s_open s) s) as (s' & E & HC); [apply Hw|apply Hw|]. exists s'. split; [done|]. split; [|done].
  destruct HC as [Ho (l1 & Hl & Hge & Hup) Hr _]. pose proof (w_sorted _ Hw) as Hd. rewrite Hl in Hd.
  assert (Hkeep : forall u, u ∈ s_open s' -> s_upvals s' !! u = s_upvals s !! u).
  { intros u Hu. rewrite Hup, decide_False; [done|]. intros Hu1. by apply (descending_app_disj _ _ _ u Hd). }
  unfold upvals_only in Ho. split; try (rewrite Ho; apply Hw).
  - intros u Hu. destruct (w_open _ Hw u) as (x & Hx & Hp & Hlt); [rewrite Hl; apply elem_of_app; by right|].
    exists x. rewrite Hkeep by done. split; [done|]. rewrite Ho. done.
  - apply (descending_ext (s_upvals s)); [|by eapply descending_app_r]. intros u Hu. unfold u_index. by rewrite Hkeep.
  - intros u x. rewrite Hup. destruct (decide (u ∈ l1)) as [Hu|Hu].
    + destruct (s_upvals s !! u); [|done]. cbn. destruct (deref s u); [|done]. cbn. by intros [= <-].
    + intros Hx Hn. apply (w_closed _ Hw u); [done|]. rewrite Hl. intros [?|?]%elem_of_app; done.
Qed.

(** ** Opening *)

Lemma upval_place_spec i l m : (forall u, u ∈ l -> is_Some (m !! u)) -> descending m l ->
  exists before after found, upval_place i l m = Some (before, after, found) /\ l = before ++ after /\
    (forall u, u ∈ before -> i < u_index m u) /\
    if found : bool then exists u rest, after = u :: rest /\ u_index m u = i else forall u, u ∈ after -> u_index m u < i.
Proof.
  induction l as [|u l IH]; intros Hm Hs; cbn [upval_place].
  { exists [], [], false. split; [done|]. split; [done|]. split; by intros ? ?%elem_of_nil. }
  destruct (Hm u) as [x Hx]; [by left|]. rewrite Hx. cbn [mbind option_bind].
  assert (Hi : u_index m u = u_stack_index x) by (unfold u_index; by rewrite Hx).
  apply StronglySorted_inv in Hs as [Hs Hall]. rewrite Forall_forall in Hall. destruct (i <? u_stack_index x) eqn:E; zbool.
  - destruct IH as (b & a & f & -> & -> & Hb & Ha); [intros w Hw; apply Hm; by right|done|]. cbn [mbind option_bind].
    exists (u :: b), a, f. split; [done|]. split; [done|]. split; [|done]. intros w [-> |Hw]%elem_of_cons; [lia|auto].
  - exists [], (u :: l), (u_stack_index x =? i). split; [done|]. split; [done|]. split; [by intros ? ?%elem_of_nil|].
    destruct (u_stack_index x =? i) eqn:E2; zbool; [exists u, l; split; [done|lia]|].
    intros w [-> |Hw]%elem_of_cons; [lia|]. specialize (Hall w Hw). lia.
Qed.

Lemma descending_insert m m' b u a : descending m (b ++ a) -> (forall w, w ∈ b ++ a -> u_index m' w = u_index m w) ->
  (forall w, w ∈ b -> u_index m' u < u_index m w) -> (forall w, w ∈ a -> u_index m w < u_index m' u) -> descending m' (b ++ u :: a).
Proof.
  intros Hs He Hb Ha. induction b as [|w b IH]; cbn [app] in *.
  - constructor; [by apply (descending_ext m)|]. apply Forall_forall. intros w Hw. rewrite He by done. by apply Ha.
  - apply StronglySorted_inv in Hs as [Hs Hall]. rewrite Forall_forall in Hall. constructor.
    + apply IH; [done|intros v Hv; apply He; by right|intros v Hv; apply Hb; by right].
    + apply Forall_forall. intros v Hv. rewrite (He w) by (by left).
      apply elem_of_app in Hv as [Hv|[-> |Hv]%elem_of_cons]; [|apply Hb; by left|].
      * rewrite He by (right; apply elem_of_app; by left). apply Hall, elem_of_app. by left.
      * rewrite He by (right; apply elem_of_app; by right). apply Hall, elem_of_app. by right.
Qed.

(** Two captures of one register share one upvalue. *)
Lemma find_or_open_spec cell i s : swf s -> 0 <= i < stack_cap s -> (forall c, cell = Some c -> s_upvals s !! c = None) ->
  exists r s', ustrand_find_or_open_upval cell i s = Some (r, s') /\ swf s' /\ same_values s s' /\ upvals_only s s' /\
    match r with
    | None => cell = None /\ s' = s /\ forall u, u ∈ s_open s -> u_index (s_upvals s) u <> i
    | Some u => u ∈ s_open s' /\ u_index (s_upvals s') u = i /\ deref s' u = read (s_stack s) i /\
        ((exists w, w ∈ s_open s /\ u_index (s_upvals s) w = i) -> s' = s) /\ s_open s' ≡ₚ (if decide (u ∈ s_open s) then s_open s else u :: s_open s)
    end.
Proof.
  intros Hw Hi Hc. unfold ustrand_find_or_open_upval.
  destruct (upval_place_spec i (s_open s) (s_upvals s)) as (b & a & f & -> & Hl & Hb & Ha).
  { intros u Hu. destruct (w_open _ Hw u Hu) as (x & -> & _). by eexists. }
  { apply Hw. }
  cbn [mbind option_bind]. destruct f.
  { destruct Ha as (u & rest & -> & Hu). eexists _, s. split; [done|]. split; [done|]. split; [done|]. split; [by destruct s|]. cbn [head].
    assert (Hin : u ∈ s_open s) by (rewrite Hl; apply elem_of_app; right; by left).
    split; [done|]. split; [done|]. split; [|split; [done|by rewrite decide_True]].
    destruct (w_open _ Hw u Hin) as (x & Hx & Hp & _). unfold u_index in Hu. rewrite Hx in Hu. unfold deref. rewrite Hx. cbn. rewrite Hp, decide_True by done. by rewrite Hu. }
  assert (Hno : forall u, u ∈ s_open s -> u_index (s_upvals s) u <> i).
  { intros u Hu. rewrite Hl in Hu. apply elem_of_app in Hu as [H1%Hb|H1%Ha]; lia. }
  destruct cell as [c|]; [|eexists None, s; repeat (split; [done|]); split; [by destruct s|done]].
  specialize (Hc c eq_refl). assert (Hfresh : c ∉ s_open s) by (intros Hin; destruct (w_open _ Hw c Hin) as (x & Hx & _); congruence).
  set (m' := <[c := MkUpval (PStack (s_block s) i) UV_NIL i]> (s_upvals s)).
  assert (Hne : forall u, u <> c -> m' !! u = s_upvals s !! u) by (intros u Hu; unfold m'; by rewrite lookup_insert_ne).
  assert (Heq : m' !! c = Some (MkUpval (PStack (s_block s) i) UV_NIL i)) by (unfold m'; by rewrite lookup_insert_eq).
  assert (Hic : u_index m' c = i) by (unfold u_index; by rewrite Heq).
  eexists (Some c), _. split; [done|]. split; [|split; [|split; [done|]]].
  - split; cbn [set_open s_open s_upvals s_frames s_frames_cap s_nboundary s_cleanup s_cleanup_cap]; try apply Hw.
    + intros u Hu. destruct (decide (u = c)) as [-> |Hu']; [eexists; split; [exact Heq|]; done|].
      destruct (w_open _ Hw u) as (x & Hx & Hp); [rewrite Hl; set_solver|]. exists x. cbn. rewrite Hne by done. done.
    + apply (descending_insert (s_upvals s)).
      * rewrite <- Hl. apply Hw.
      * intros w Hin. unfold u_index. rewrite Hne; [done|]. intros ->. apply Hfresh. by rewrite Hl.
      * intros w Hin. rewrite Hic. by apply Hb.
      * intros w Hin. rewrite Hic. by apply Ha.
    + intros u x Hx Hu. assert (u <> c) by (intros ->; apply Hu, elem_of_app; right; by left). rewrite Hne in Hx by done.
      apply (w_closed _ Hw u x Hx). rewrite Hl. intros Hin. apply Hu. set_solver.
  - intros u [x Hx]. unfold deref. cbn [set_open s_upvals s_block s_stack]. fold m'. rewrite Hne; [done|]. intros ->. congruence.
  - cbn [set_open s_open s_upvals]. fold m'. split; [apply elem_of_app; right; by left|]. split; [done|]. split.
    + unfold deref. cbn [set_open s_upvals s_block s_stack]. fold m'. rewrite Heq. cbn. by rewrite decide_True.
    + split; [intros (w & Hin & Hwi); by apply Hno in Hin|]. rewrite decide_False by done. rewrite Hl. symmetry. apply Permutation_middle.
Qed.

(** ** Frames *)

Lemma clear_regs_spec n : forall i l, 0 <= i -> (n <> O -> i + Z.of_nat n <= zlen l) ->
  exists l', clear_regs n i l = Some l' /\ zlen l' = zlen l /\
    forall j, read l' j = if decide (i <= j < i + Z.of_nat n) then Some UV_NIL else read l j.
Proof.
  induction n as [|n IH]; intros i l Hi Hl; cbn [clear_regs].
  { exists l. split; [done|]. split; [done|]. intros j. rewrite decide_False by lia. done. }
  destruct (store_is_Some l i UV_NIL) as (l1 & E & Hl1); [specialize (Hl ltac:(done)); unfold zlen in Hl; lia|]. rewrite E. cbn [mbind option_bind].
  destruct (IH (i + 1) l1) as (l' & -> & Hl' & Hr); [lia|intros _; specialize (Hl ltac:(done)); unfold zlen in *; lia|]. exists l'. split; [done|].
  split; [unfold zlen in *; lia|]. intros j. rewrite Hr, (read_store _ _ _ _ j E).
  destruct (decide (i + 1 <= j < _)); [by rewrite decide_True by lia|].
  destruct (decide (j = i)); [by rewrite decide_True by lia|]. by rewrite decide_False by lia.
Qed.

Lemma table_double c : table_cap c -> c < 32768 -> table_cap (if c =? 0 then 4 else u16 (c * 2)) /\ c < (if c =? 0 then 4 else u16 (c * 2)).
Proof.
  intros [-> |(k & Hk & ->)] Hc; [cbn; split; [right; exists 2; done|done]|].
  assert (0 < 2 ^ k) by (apply Z.pow_pos_nonneg; lia). replace (2 ^ k =? 0) with false by (symmetry; apply Z.eqb_neq; lia).
  rewrite u16_small by lia. split; [|lia]. right. exists (k + 1). rewrite Z.pow_add_r by lia. split; [|lia].
  assert (k <> 15) by (intros ->; lia). lia.
Qed.

Lemma table_bound c : table_cap c -> 0 <= c <= 32768.
Proof. intros [-> |(k & Hk & ->)]; [lia|]. split; [apply Z.pow_nonneg; lia|]. apply (Z.pow_le_mono_r 2 k 15); lia. Qed.

Lemma grow_frames_spec ok s : swf s -> zlen (s_frames s) = s_frames_cap s ->
  exists rc s', ustrand_grow_frames ok s = (rc, s') /\
  (rc = -2 /\ s' = s /\ s_frames_cap s = USTRAND_MAX_FRAMES \/ rc = -1 /\ s' = s /\ ok = false \/
   rc = 0 /\ swf s' /\ (exists c, s' = set_frames (s_frames s) c (s_nboundary s) s) /\ zlen (s_frames s') < s_frames_cap s').
Proof.
  intros Hw He. unfold ustrand_grow_frames. destruct (w_frames _ Hw) as [Hle Ht]. pose proof (table_bound _ Ht). unfold USTRAND_MAX_FRAMES. zcase.
  { exists (-2), s. split; [done|]. left. repeat split; try done. lia. }
  destruct ok; [|exists (-1), s; split; [done|]; right; by left]. eexists 0, _. split; [done|]. right; right. split; [done|].
  destruct (table_double _ Ht) as [T1 T2]; [lia|]. split; [|split; [by eexists|cbn; lia]].
  split; cbn [set_frames s_open s_upvals s_frames s_frames_cap s_nboundary s_cleanup s_cleanup_cap]; try apply Hw. split; [lia|done].
Qed.

(** What a pushed frame leaves: its window, cleared but for what it keeps. *)
Record pushed (cl : UClosure) (recv : UValue) (base ret_reg nkeep : Z) (s s' : ustack) : Prop := {
  pu_frames : s_frames s' = s_frames s ++ [MkFrame cl (if cl_max_reg cl then Some 0 else None) base ret_reg false recv];
  pu_window : forall i, base + nkeep <= i <= base + default 0 (cl_max_reg cl) -> read (s_stack s') i = Some UV_NIL;
  pu_regs : forall i v, ~ (base + nkeep <= i <= base + default 0 (cl_max_reg cl)) -> read (s_stack s) i = Some v -> read (s_stack s') i = Some v;
  pu_upvals : forall u, is_Some (s_upvals s !! u) -> (u ∈ s_open s -> ~ (base + nkeep <= u_index (s_upvals s) u <= base + default 0 (cl_max_reg cl))) ->
    deref s' u = deref s u }.

Lemma windows_same s s' l : stack_cap s' = stack_cap s -> Forall (frame_ok s) l -> Forall (frame_ok s') l.
Proof. intros E Hl. eapply Forall_impl; [exact Hl|]. intros f [? ?]. split; [done|lia]. Qed.

Lemma push_frame_spec ok block cl recv base ret_reg nkeep s : swf s -> 0 <= base -> 0 <= nkeep < 256 -> 0 <= default 0 (cl_max_reg cl) ->
  base + default 0 (cl_max_reg cl) + 1 <= 2 ^ 31 ->
  exists rc s', ustrand_push_frame_args ok block cl recv base ret_reg nkeep s = Some (rc, s') /\ swf s' /\
  (rc = 0 /\ pushed cl recv base ret_reg nkeep s s' \/
   rc = -2 /\ s' = s /\ zlen (s_frames s) = USTRAND_MAX_FRAMES \/
   rc = -1 /\ (ok = false \/ block = None) /\ s_frames s' = s_frames s /\ s_stack s' = s_stack s /\ same_values s s').
Proof.
  intros Hw Hbase Hkeep Hmax Hfit. unfold ustrand_push_frame_args.
  assert (Hg : exists grc s1, (if zlen (s_frames s) =? s_frames_cap s then ustrand_grow_frames ok s else (0, s)) = (grc, s1) /\
    (grc = -2 /\ s1 = s /\ zlen (s_frames s) = USTRAND_MAX_FRAMES \/ grc = -1 /\ s1 = s /\ ok = false \/
     grc = 0 /\ swf s1 /\ (exists c, s1 = set_frames (s_frames s) c (s_nboundary s) s) /\ zlen (s_frames s) < s_frames_cap s1)).
  { destruct (zlen (s_frames s) =? s_frames_cap s) eqn:Ef; zbool.
    - destruct (grow_frames_spec ok s Hw Ef) as (rc & s1 & -> & [(-> & -> & ?)|[(-> & -> & ->)|(-> & ? & (c & ->) & ?)]]).
      + exists (-2), s. split; [done|]. left. repeat split; try done. lia.
      + exists (-1), s. split; [done|]. right. by left.
      + eexists 0, _. split; [done|]. right; right. split; [done|]. split; [done|]. split; [by eexists|done].
    - exists 0, s. split; [done|]. right; right. split; [done|]. split; [done|]. split; [exists (s_frames_cap s); by destruct s|].
      pose proof (proj1 (w_frames _ Hw)). lia. }
  destruct Hg as (grc & s1 & -> & [(-> & -> & Hm)|[(-> & -> & ->)|(-> & Hw1 & (c & ->) & Hroom)]]).
  { eexists (-2), s. split; [done|]. split; [done|]. right. by left. }
  { eexists (-1), s. split; [done|]. split; [done|]. right; right. split; [done|]. split; [by left|]. done. }
  cbn [negb Z.eqb]. set (s1 := set_frames (s_frames s) c (s_nboundary s) s) in *.
  set (mr := default 0 (cl_max_reg cl)) in *. rewrite (u32_small (base + mr + 1)), (u32_small (base + nkeep)) by lia.
  destruct (ensure_stack_spec block (base + mr + 1) s1 Hw1 ltac:(lia)) as (rc & s2 & -> & Hw2 & Hv & Hf & Hfc & Hnb & Hop & Hix & Hres).
  cbn [mbind option_bind]. destruct Hres as [(-> & Hcap & (k & Hst))|(-> & -> & -> & _)].
  2:{ eexists (-1), s1. split; [done|]. split; [done|]. right; right. split; [done|]. split; [by right|]. done. }
  cbn [negb Z.eqb].
  set (n := Z.to_nat (base + mr + 1 - (base + nkeep))).
  destruct (clear_regs_spec n (base + nkeep) (s_stack s2) ltac:(lia)) as (l & -> & Hlen & Hread).
  { unfold stack_cap in Hcap. subst n. lia. }
  cbn [mbind option_bind]. assert (Hlt : zlen (s_frames s2) < s_frames_cap s2) by (rewrite Hf, Hfc; done).
  rewrite (proj2 (Z.ltb_lt _ _) Hlt). eexists 0, _. split; [done|].
  assert (Hcap2 : zlen l = stack_cap s2) by done.
  assert (Hread' : forall j, read l j = if decide (base + nkeep <= j <= base + mr) then Some UV_NIL else read (s_stack s2) j).
  { intros j. rewrite Hread. subst n. destruct (decide (base + nkeep <= j <= base + mr)); [by rewrite decide_True by lia|by rewrite decide_False by lia]. }
  assert (Hold : forall i v, read (s_stack s) i = Some v -> read (s_stack s2) i = Some v).
  { intros i v Hv'. rewrite Hst. change (s_stack s1) with (s_stack s). rewrite read_grow; [done|]. apply read_Some_lt in Hv'. done. }
  split; [|left; split; [done|]].
  - split; cbn [set_frames set_regs s_open s_upvals s_frames s_frames_cap s_nboundary s_cleanup s_cleanup_cap]; try apply Hw2.
    + intros u Hu. destruct (w_open _ Hw2 u Hu) as (x & Hx & Hp & Hlt'). exists x. split; [done|]. split; [done|]. unfold stack_cap in *. cbn. lia.
    + unfold stack_cap. cbn. rewrite Hcap2. apply Hw2.
    + rewrite zlen_app. split; [|apply Hw2]. change (zlen [_]) with 1. lia.
    + apply Forall_app. split; [eapply windows_same; [|apply Hw2]; done|]. constructor; [|done]. split; [done|]. unfold stack_cap. cbn. fold mr. lia.
    + rewrite filter_app, zlen_app. rewrite (w_boundary _ Hw2). change (zlen (filter _ [_])) with 0. lia.
  - split; cbn [set_frames set_regs s_frames s_stack]; fold mr.
    + by rewrite Hf.
    + intros i Hi. by rewrite Hread', decide_True.
    + intros i v Hi Hr. rewrite Hread', decide_False by done. by apply Hold.
    + intros u Hu Hout. transitivity (deref s2 u); [|exact (Hv u Hu)]. unfold deref. cbn [set_frames set_regs s_upvals s_block s_stack].
      destruct (s_upvals s2 !! u) as [x|] eqn:Hx; [|done]. cbn. destruct (decide (u ∈ s_open s2)) as [Hin|Hin].
      * destruct (w_open _ Hw2 u Hin) as (x' & Hx' & Hp & Hlt'). rewrite Hx in Hx'. injection Hx' as <-. rewrite Hp, decide_True by done.
        rewrite Hop in Hin. specialize (Hout Hin). specialize (Hix u). unfold u_index in Hix at 1. rewrite Hx in Hix.
        change (s_upvals s1) with (s_upvals s) in Hix. rewrite Hread', decide_False by (rewrite Hix; exact Hout). by rewrite decide_True.
      * by rewrite (w_closed _ Hw2 u x).
Qed.

Lemma pop_frame_spec s : swf s -> exists s', ustrand_pop_frame s = Some s' /\ swf s' /\ same_values s s' /\ s_stack s' = s_stack s /\
  s_frames s' = take (length (s_frames s) - 1) (s_frames s) /\
  forall f u, last (s_frames s) = Some f -> u ∈ s_open s' -> u_index (s_upvals s) u < f_base f.
Proof.
  intros Hw. unfold ustrand_pop_frame. destruct (last (s_frames s)) as [f|] eqn:El.
  2:{ apply last_None in El. exists s. rewrite El. repeat (split; [done|]). intros f u [=]. }
  destruct (close_upvals_spec (f_base f) s Hw) as (s1 & -> & Hw1 & HC). cbn [mbind option_bind]. eexists. split; [done|].
  pose proof (cl_only _ _ _ _ HC) as Ho. unfold upvals_only in Ho. apply last_Some in El as [l El].
  assert (Hfr : s_frames s1 = s_frames s) by (by rewrite Ho). assert (Hnb : s_nboundary s1 = s_nboundary s) by (by rewrite Ho).
  assert (Ht : take (length (s_frames s1) - 1) (s_frames s1) = l).
  { rewrite Hfr, El, length_app. cbn [length]. replace (length l + 1 - 1)%nat with (length l) by lia. apply take_app_length. }
  rewrite Ht. split; [|split; [|split; [|split]]].
  - split; cbn [set_frames s_open s_upvals s_frames s_frames_cap s_nboundary s_cleanup s_cleanup_cap]; try apply Hw1.
    + destruct (w_frames _ Hw1) as [Hle Hc]. rewrite Hfr, El, zlen_app in Hle. pose proof (zlen_nonneg [f]). split; [lia|done].
    + pose proof (w_windows _ Hw1) as HF. rewrite Hfr, El in HF. apply Forall_app in HF as [HF _]. by eapply windows_same.
    + pose proof (w_boundary _ Hw) as Hb. rewrite El, filter_app, zlen_app in Hb. rewrite Hnb.
      destruct (w_frames _ Hw) as [Hle Hc%table_bound]. rewrite El, zlen_app in Hle.
      assert (zlen (filter (fun f => f_is_boundary f = true) l) <= zlen l) by (unfold zlen; pose proof (length_filter (fun f => f_is_boundary f = true) l); lia).
      pose proof (zlen_nonneg (filter (fun f => f_is_boundary f = true) l)). change (zlen [f]) with 1 in Hle.
      destruct (f_is_boundary f) eqn:Ef.
      * rewrite filter_cons, decide_True in Hb by done. change (zlen (f :: _)) with 1 in Hb. rewrite u16_small; lia.
      * rewrite filter_cons, decide_False in Hb by (by rewrite Ef). change (zlen (filter _ [])) with 0 in Hb. lia.
  - intros u Hu. rewrite <- (cl_values _ _ _ _ HC u Hu). done.
  - cbn. by rewrite Ho.
  - cbn. rewrite El, length_app. cbn [length]. replace (length l + 1 - 1)%nat with (length l) by lia. by rewrite take_app_length.
  - intros f' u E' Hu. injection E' as <-. apply (cl_rest _ _ _ _ HC u Hu).
Qed.

Lemma push_cleanup_spec ok c s : swf s -> exists rc s', ustrand_push_cleanup ok c s = Some (rc, s') /\ swf s' /\
  (rc = 0 /\ s_cleanup s' = s_cleanup s ++ [c] \/ rc = -1 /\ s' = s /\ (ok = false \/ zlen (s_cleanup s) = USTRAND_MAX_CLEANUP)).
Proof.
  intros Hw. unfold ustrand_push_cleanup. destruct (w_cleanup _ Hw) as [Hle Ht]. pose proof (table_bound _ Ht).
  assert (Hpush : forall cap, zlen (s_cleanup s) < cap -> table_cap cap -> swf (set_cleanup (s_cleanup s ++ [c]) cap s)).
  { intros cap Hlt Hc. split; cbn [set_cleanup s_open s_upvals s_frames s_frames_cap s_nboundary s_cleanup s_cleanup_cap]; try apply Hw.
    rewrite zlen_app. change (zlen [c]) with 1. split; [lia|done]. }
  destruct (zlen (s_cleanup s) =? s_cleanup_cap s) eqn:Ef; zbool.
  - unfold USTRAND_MAX_CLEANUP. destruct (32768 <=? s_cleanup_cap s) eqn:Em; zbool.
    { exists (-1), s. repeat (split; [done|]). right. split; [done|]. split; [done|]. right. lia. }
    destruct ok; [|exists (-1), s; repeat (split; [done|]); right; split; [done|]; split; [done|]; by left].
    destruct (table_double _ Ht) as [T1 T2]; [lia|]. cbn [set_cleanup s_cleanup s_cleanup_cap].
    rewrite (proj2 (Z.ltb_lt (zlen (s_cleanup s)) _)) by lia. eexists 0, _. split; [done|]. split; [|by left]. apply Hpush; [lia|done].
  - rewrite (proj2 (Z.ltb_lt (zlen (s_cleanup s)) (s_cleanup_cap s))) by lia. eexists 0, _. split; [done|]. split; [|by left]. apply Hpush; [lia|done].
Qed.

(** C28 captured variables keep their value: growing and moving the register
    stack, closing upvalues from any index, and popping a frame all end
    without following a pointer into a block that has moved, keep the strand
    well formed, and leave every upvalue, open or closed, reading exactly the
    value it read before; closing leaves open only those below the index, and
    popping takes the top frame alone with every upvalue of its window closed. *)
Theorem upvalues_keep_their_value block needed from s : swf s -> 0 <= needed <= 2 ^ 31 ->
  (exists rc s', ustrand_ensure_stack block needed s = Some (rc, s') /\ swf s' /\ same_values s s' /\
     (rc = 0 /\ needed <= stack_cap s' \/ rc = -1 /\ s' = s /\ block = None)) /\
  (exists s', ustrand_close_upvals from s = Some s' /\ swf s' /\ same_values s s' /\ s_stack s' = s_stack s /\
     forall u, u ∈ s_open s' <-> u ∈ s_open s /\ u_index (s_upvals s) u < from) /\
  (exists s', ustrand_pop_frame s = Some s' /\ swf s' /\ same_values s s' /\ s_frames s' = take (length (s_frames s) - 1) (s_frames s) /\
     forall f u, last (s_frames s) = Some f -> u ∈ s_open s' -> u_index (s_upvals s) u < f_base f).
Proof.
  intros Hw Hn. split; [|split].
  - destruct (ensure_stack_spec block needed s Hw Hn) as (rc & s' & E & Hw' & Hv & _ & _ & _ & _ & _ & Hr).
    exists rc, s'. split; [done|]. split; [done|]. split; [done|]. destruct Hr as [(? & ? & _)|(? & ? & ? & _)]; [by left|by right].
  - destruct (close_upvals_spec from s Hw) as (s' & E & Hw' & [Ho (l1 & Hl & Hge & _) Hr Hv]). exists s'. repeat (split; [done|]).
    split; [by rewrite Ho|]. intros u. rewrite Hl. split.
    + intros Hu. split; [apply elem_of_app; by right|by apply Hr].
    + intros [[H1%Hge|]%elem_of_app Hlt]; [lia|done].
  - destruct (pop_frame_spec s Hw) as (s' & E & Hw' & Hv & _ & Hf & Hu). exists s'. by repeat (split; [done|]).
Qed.

(** capturing: asking for the upvalue of a register gives the open one if
    there is one, without allocating, else a new one, linked where the list
    stays sorted; either way it reads the register's value, so that two
    closures capturing one variable share it; every other upvalue is as
    before, and memory running out changes nothing. *)
Theorem captures_are_shared cell i s : swf s -> 0 <= i < stack_cap s -> (forall c, cell = Some c -> s_upvals s !! c = None) ->
  exists r s', ustrand_find_or_open_upval cell i s = Some (r, s') /\ swf s' /\ same_values s s' /\ upvals_only s s' /\
    match r with
    | None => cell = None /\ s' = s /\ forall u, u ∈ s_open s -> u_index (s_upvals s) u <> i
    | Some u => u ∈ s_open s' /\ u_index (s_upvals s') u = i /\ deref s' u = read (s_stack s) i /\
        ((exists w, w ∈ s_open s /\ u_index (s_upvals s) w = i) -> s' = s) /\ s_open s' ≡ₚ (if decide (u ∈ s_open s) then s_open s else u :: s_open s)
    end.
Proof. apply find_or_open_spec. Qed.

(** pushing a frame: -2 exactly names a full table of 32768 frames, -1 a
    refused allocation, and both leave the frames, the registers and every
    captured value alone; otherwise the frame is on top, its window is nil
    but for the registers it keeps, all other registers are as before, and so
    is every captured value outside the window, wherever the stack moved. *)
Theorem push_frame_exact ok block cl recv base ret_reg nkeep s : swf s -> 0 <= base -> 0 <= nkeep < 256 -> 0 <= default 0 (cl_max_reg cl) ->
  base + default 0 (cl_max_reg cl) + 1 <= 2 ^ 31 ->
  exists rc s', ustrand_push_frame_args ok block cl recv base ret_reg nkeep s = Some (rc, s') /\ swf s' /\
  (rc = 0 /\ pushed cl recv base ret_reg nkeep s s' \/
   rc = -2 /\ s' = s /\ zlen (s_frames s) = USTRAND_MAX_FRAMES \/
   rc = -1 /\ (ok = false \/ block = None) /\ s_frames s' = s_frames s /\ s_stack s' = s_stack s /\ same_values s s').
Proof. apply push_frame_spec. Qed.

(** A strand with one frame and one captured register. *)
Definition one_capture : ustack :=
  MkStack 0 (replicate 3 UV_NIL ++ UV_INT 7 :: replicate 4 UV_NIL) [MkFrame (MkClosure 1 (Some 5)) (Some 0) 1 0 false UV_NIL] 4 0 [9%nat] [] 0
    {[9%nat := MkUpval (PStack 0 3) UV_NIL 3; 8%nat := MkUpval PClosed (UV_INT 1) 2]}.

Lemma one_capture_wf : swf one_capture.
Proof.
  split.
  - intros u [-> |H%elem_of_nil]%elem_of_cons; [|done]. eexists. split; [reflexivity|]. split; [done|]. vm_compute. by split.
  - repeat constructor.
  - intros u x Hx Hu. cbn in *. destruct (decide (u = 9%nat)) as [-> |Hne]; [exfalso; apply Hu; by left|].
    rewrite lookup_insert_ne in Hx by done. destruct (decide (u = 8%nat)) as [-> |Hne']; [by injection Hx as <-|]. by rewrite lookup_singleton_ne in Hx.
  - right. by exists 3.
  - split; [done|]. right. by exists 2.
  - constructor; [vm_compute; split; discriminate|constructor].
  - reflexivity.
  - split; [done|by left].
Qed.

Lemma upvalues_keep_their_value_witness : exists s', ustrand_ensure_stack (Some 5%nat) 20 one_capture = Some (0, s') /\
  deref s' 9 = Some (UV_INT 7) /\ same_values one_capture s'.
Proof.
  destruct (upvalues_keep_their_value (Some 5%nat) 20 2 one_capture one_capture_wf ltac:(lia)) as [(rc & s' & E & _ & Hv & _) _].
  exists s'. rewrite (Hv 9%nat) by (by eexists). assert (rc = 0) as -> by (vm_compute in E; by injection E as <- _). split; [exact E|]. split; [reflexivity|exact Hv].
Defined.

Lemma captures_are_shared_witness : exists r s', ustrand_find_or_open_upval (Some 4%nat) 5 one_capture = Some (r, s') /\ swf s'.
Proof.
  destruct (captures_are_shared (Some 4%nat) 5 one_capture one_capture_wf) as (r & s' & E & Hw & _).
  - vm_compute. split; [discriminate|reflexivity].
  - intros c [= <-]. reflexivity.
  - exists r, s'. split; [exact E|exact Hw].
Defined.

Lemma push_frame_exact_witness : exists rc s', ustrand_push_frame_args true (Some 1%nat) (MkClosure 2 (Some 9)) UV_NIL 4 0 2 one_capture = Some (rc, s') /\ swf s'.
Proof.
  destruct (push_frame_exact true (Some 1%nat) (MkClosure 2 (Some 9)) UV_NIL 4 0 2 one_capture one_capture_wf ltac:(lia) ltac:(lia) ltac:(vm_compute; discriminate) ltac:(vm_compute; discriminate))
    as (rc & s' & E & Hw & _). exists rc, s'. split; [exact E|exact Hw].
Defined.

End Strands.
