(* ===== verification/Unwind.v ===== *)
(** * The cleanup-stack walker (src/src/rt/uunwind.c) and the instructions that feed it (rt/uexec_ops.c)

    A throw, a return out of scopes, a stop, a jump out of scopes and a
    chunk-integrity failure all travel the cleanup stack of Strands.v.  What
    the walker asks of its surroundings is the class [ScopeEnv]: entering or
    leaving a tag scope fires an event, whose synchronous subscribers may run
    script code; [ScopeLaws] says what such code may do to the strand being
    unwound.  [None] is undefined behaviour. *)
From Stdlib Require Import Sorted Ascii String.
From S2P Require Import Prelude Text Instr Values Timers Sched Tags Strands.

Module Unwind.
Import Strands.

Definition UCLEAN_TRY : Z := 1.
Definition UCLEAN_TAG_SCOPE : Z := 2.
Definition UCLEAN_F_HAS_CATCH : Z := 1.
Definition UCLEAN_F_HAS_FINALLY : Z := 2.
Definition UCLEAN_F_RUNNING : Z := 32.

Definition ucode (u : UUnwindKind) : Z :=
  match u with
  | UUNWIND_NONE => 0 | UUNWIND_RETURN => 1 | UUNWIND_THROW => 2 | UUNWIND_STOP => 3 | UUNWIND_JUMP => 4 | UUNWIND_FATAL => 5
  end.
Definition of_ucode (c : Z) : option UUnwindKind :=
  find (fun u => ucode u =? c) [UUNWIND_NONE; UUNWIND_RETURN; UUNWIND_THROW; UUNWIND_STOP; UUNWIND_JUMP; UUNWIND_FATAL].

(** The strand: its stacks and the fields an unwind travels in. *)
Record xstrand := MkX {
  x_stk : ustack;
  x_unwind : UUnwindKind;
  x_transfer : UValue;
  x_jump_depth : Z;
  x_tag : option nat;
  x_gates : Z;
  x_state : strand_state;
  x_result : UValue }.

Definition x_set_stk (s : ustack) (x : xstrand) : xstrand :=
  MkX s (x_unwind x) (x_transfer x) (x_jump_depth x) (x_tag x) (x_gates x) (x_state x) (x_result x).
Definition x_pending (u : UUnwindKind) (v : UValue) (x : xstrand) : xstrand :=
  MkX (x_stk x) u v (x_jump_depth x) (x_tag x) (x_gates x) (x_state x) (x_result x).
Definition x_set_depth (d : Z) (x : xstrand) : xstrand :=
  MkX (x_stk x) (x_unwind x) (x_transfer x) d (x_tag x) (x_gates x) (x_state x) (x_result x).
Definition x_set_tag (t : option nat) (x : xstrand) : xstrand :=
  MkX (x_stk x) (x_unwind x) (x_transfer x) (x_jump_depth x) t (x_gates x) (x_state x) (x_result x).
Definition x_set_gates (g : Z) (x : xstrand) : xstrand :=
  MkX (x_stk x) (x_unwind x) (x_transfer x) (x_jump_depth x) (x_tag x) g (x_state x) (x_result x).
Definition x_set_state (st : strand_state) (x : xstrand) : xstrand :=
  MkX (x_stk x) (x_unwind x) (x_transfer x) (x_jump_depth x) (x_tag x) (x_gates x) st (x_result x).
Definition x_set_result (v : UValue) (x : xstrand) : xstrand :=
  MkX (x_stk x) (x_unwind x) (x_transfer x) (x_jump_depth x) (x_tag x) (x_gates x) (x_state x) v.

Definition x_frames (x : xstrand) : list UFrame := s_frames (x_stk x).
Definition x_cleanup (x : xstrand) : list UCleanupEntry := s_cleanup (x_stk x).

(** [vm->last_error]: empty, the text a raise recorded, or the rendering of a value that escaped. *)
Inductive report := RCleared | RRecorded (msg : bytes) | RRendered (v : UValue).

Definition URBI_OK : Z := 0.
Definition URBI_ERR_UNCAUGHT_THROW : Z := -18.

(** What the walker needs from the rest of the VM. *)
Class ScopeEnv (W : Type) := {
  tag_gates : W -> nat -> Z;                                        (* utag_gate_bits of a tag *)
  fire_leave : nat -> W -> xstrand -> option (W * xstrand);         (* utag_fire(vm, t->leave) *)
  grant : W -> bool * W;                                            (* one allocation *)
  new_exception : bytes -> bytes -> xstrand -> W -> UValue * W }.   (* the exception object of a kind, with a message, raised by a strand; nil out of memory *)

Section Walker.
Context {W : Type} `{ScopeEnv W}.

Record urun := MkRun { r_w : W; r_x : xstrand; r_report : report; r_code : Z }.
Definition on_x (f : xstrand -> xstrand) (r : urun) : urun := MkRun (r_w r) (f (r_x r)) (r_report r) (r_code r).
Definition set_x (x : xstrand) (r : urun) : urun := on_x (fun _ => x) r.

(** ** Raising *)

(** The prototypes raised here, by the name they carry. *)
Definition UP_TYPEERROR : bytes := lit "TypeError".
Definition UP_OOMERROR : bytes := lit "OutOfMemoryError".

(** [uexec_throw_impl] without a position: the text is recorded at once, so
    that it is there also when the exception object cannot be made. *)
Definition uexec_throw (which msg : bytes) (r : urun) : urun :=
  let text := which ++ lit ": " ++ msg in
  let '(v, w) := new_exception which text (r_x r) (r_w r) in
  MkRun w (x_pending UUNWIND_THROW v (r_x r)) (RRecorded text) URBI_ERR_UNCAUGHT_THROW.
Definition uexec_fatal (msg : bytes) (r : urun) : urun :=
  let r := uexec_throw UP_TYPEERROR msg r in on_x (fun x => x_pending UUNWIND_FATAL (x_transfer x) x) r.
Definition uexec_throw_value (v : UValue) (r : urun) : urun := on_x (x_pending UUNWIND_THROW v) r.

Definition uexec_report_escape (r : urun) : urun :=
  if decide (x_unwind (r_x r) = UUNWIND_THROW \/ x_unwind (r_x r) = UUNWIND_FATAL) then
    MkRun (r_w r) (r_x r) (RRendered (x_transfer (r_x r))) URBI_ERR_UNCAUGHT_THROW
  else MkRun (r_w r) (r_x r) RCleared URBI_OK.

(** ** Completing a return *)

Definition uexec_return (rv : UValue) (x : xstrand) : option (Z * xstrand) :=
  match last (x_frames x) with
  | None => Some (1, x_set_state USTRAND_DEAD (x_set_result rv x))
  | Some f =>
      caller_base ← (if 1 <? zlen (x_frames x) then f_base <$> read (x_frames x) (zlen (x_frames x) - 2) else Some 0);
      s ← ustrand_pop_frame (x_stk x);
      let x := x_set_stk s x in
      if f_is_boundary f then Some (1, x_set_state USTRAND_RUNNING (x_set_result rv x))
      else if zlen (x_frames x) =? 0 then Some (1, x_set_state USTRAND_DEAD (x_set_result rv x))
      else
        l ← store (s_stack s) (u32 (caller_base + f_ret_reg f)) rv;
        Some (0, x_set_stk (set_regs l s) x)
  end.

(** ** The walker *)

(** [f->pc = f->closure->proto->instructions + pc] on the top frame. *)
Definition set_pc (pc : Z) (x : xstrand) : option xstrand :=
  f ← last (x_frames x);
  _ ← cl_max_reg (f_closure f);
  let f := MkFrame (f_closure f) (Some pc) (f_base f) (f_ret_reg f) (f_is_boundary f) (f_recv f) in
  let s := x_stk x in
  Some (x_set_stk (set_frames (take (length (s_frames s) - 1) (s_frames s) ++ [f]) (s_frames_cap s) (s_nboundary s) s) x).

Definition push_entry (c : UCleanupEntry) (r : urun) : option (Z * urun) :=
  let '(ok, w) := grant (r_w r) in
  '(rc, s) ← ustrand_push_cleanup ok c (x_stk (r_x r));
  Some (rc, MkRun w (x_set_stk s (r_x r)) (r_report r) (r_code r)).

(** The top entry if it belongs to frame [fi], and the stack without it. *)
Definition own_entry (fi : Z) (x : xstrand) : option UCleanupEntry :=
  match last (x_cleanup x) with Some c => if fi <=? cu_frame c then Some c else None | None => None end.
Definition drop_entry (x : xstrand) : xstrand :=
  let s := x_stk x in x_set_stk (set_cleanup (take (length (s_cleanup s) - 1) (s_cleanup s)) (s_cleanup_cap s) s) x.

Definition is_tag_scope (c : UCleanupEntry) : bool := cu_kind c =? UCLEAN_TAG_SCOPE.
Definition has_flag (b : Z) (c : UCleanupEntry) : bool := negb (Z.land (cu_flags c) b =? 0).

(** [(top.saved.kind == UV_CELL) ? top.saved.v.p : NULL]. *)
Definition ambient (c : UCleanupEntry) : option nat := match cu_saved c with UV_CELL t => Some t | _ => None end.

(** The marker left on the stack while a finally body runs. *)
Definition running (u : UUnwindKind) (v : UValue) (onleave_pc : Z) (c : UCleanupEntry) : UCleanupEntry :=
  MkCleanup (cu_kind c) (Z.lor (cu_flags c) UCLEAN_F_RUNNING) (ucode u) (cu_frame c) (cu_handler_pc c) onleave_pc (cu_tag c) v.

Definition gates_of (w : W) (t : option nat) : Z := match t with Some t => tag_gates w t | None => 0 end.
Definition utag_gates (w : W) (x : xstrand) : Z :=
  fold_left (fun g c => if is_tag_scope c then Z.lor g (gates_of w (ambient c)) else g) (x_cleanup x) (gates_of w (x_tag x)).

(** [if (top.tag) utag_fire(vm, top.tag->leave)], the ambient tag put back first. *)
Definition leave_scope (c : UCleanupEntry) (r : urun) : option urun :=
  let x := x_set_tag (ambient c) (r_x r) in
  match cu_tag c with
  | None => Some (set_x x r)
  | Some t => '(w, x) ← fire_leave t (r_w r) x; Some (MkRun w x (r_report r) (r_code r))
  end.
Definition regate (r : urun) : urun := on_x (x_set_gates (utag_gates (r_w r) (r_x r))) r.

(** Each iteration ends in a value returned, or [None]: go round again. *)
Definition step := option (option Z * urun).
Definition ret_rc (rc : Z) (r : urun) : step := Some (Some rc, r).
Definition again (r : urun) : step := Some (None, r).
Definition land_at (pc : Z) (r : urun) : step := x ← set_pc pc (r_x r); ret_rc 0 (set_x x r).

Definition x_decr_depth (x : xstrand) : xstrand := x_set_depth (u8 (x_jump_depth x - 1)) x.

(** Starting a finally body, suspending the unwind in [mark]; [skip] when the marker cannot be pushed. *)
Definition start_finally (mark top : UCleanupEntry) (skip : xstrand -> xstrand) (r : urun) : step :=
  '(rc, r) ← push_entry mark r;
  if negb (rc =? 0) then again (on_x skip r)
  else land_at (cu_handler_pc top) (on_x (x_pending UUNWIND_NONE UV_NIL) r).

Definition walk_jump (top : UCleanupEntry) (r : urun) : step :=
  if is_tag_scope top then
    r ← leave_scope top r; again (on_x x_decr_depth (regate r))
  else if negb (has_flag UCLEAN_F_RUNNING top) && has_flag UCLEAN_F_HAS_FINALLY top then
    start_finally (running UUNWIND_JUMP (x_transfer (r_x r)) (u32 (x_jump_depth (r_x r) - 1)) top) top x_decr_depth r
  else again (on_x x_decr_depth r).

(** A throw, a return or a stop. *)
Definition walk_scopes (top : UCleanupEntry) (r : urun) : step :=
  if is_tag_scope top then
    r ← leave_scope top r;
    if decide (x_unwind (r_x r) = UUNWIND_STOP /\ cu_tag top <> None /\ UV_CELL <$> cu_tag top = Some (x_transfer (r_x r))) then
      x ← set_pc (cu_onleave_pc top) (x_pending UUNWIND_NONE UV_NIL (r_x r));
      ret_rc 0 (regate (set_x x r))
    else again r
  else if has_flag UCLEAN_F_RUNNING top then again r
  else if has_flag UCLEAN_F_HAS_CATCH top && has_flag UCLEAN_F_HAS_FINALLY top then None
  else if has_flag UCLEAN_F_HAS_FINALLY top then
    start_finally (running (x_unwind (r_x r)) (x_transfer (r_x r)) (cu_onleave_pc top) top) top (fun x => x) r
  else if bool_decide (x_unwind (r_x r) = UUNWIND_THROW) && has_flag UCLEAN_F_HAS_CATCH top then
    land_at (cu_handler_pc top) (on_x (fun x => x_pending UUNWIND_NONE (x_transfer x) x) r)
  else again r.

Definition walk_entry (top : UCleanupEntry) (r : urun) : step :=
  match x_unwind (r_x r) with
  | UUNWIND_FATAL => again (if is_tag_scope top then on_x (x_set_tag (ambient top)) r else r)
  | UUNWIND_JUMP => walk_jump top r
  | _ => walk_scopes top r
  end.

(** No entry of the top frame is left. *)
Definition walk_frame (f : UFrame) (r : urun) : step :=
  match x_unwind (r_x r) with
  | UUNWIND_JUMP => again (uexec_fatal (lit "chunk integrity: unwind deeper than this frame" ++ [39] ++ lit "s scopes") r)
  | UUNWIND_RETURN =>
      '(rc, x) ← uexec_return (x_transfer (r_x r)) (x_pending UUNWIND_NONE UV_NIL (r_x r)); ret_rc rc (set_x x r)
  | _ =>
      s ← ustrand_pop_frame (x_stk (r_x r));
      let r := on_x (x_set_stk s) r in
      if f_is_boundary f then ret_rc 1 (on_x (x_set_state USTRAND_RUNNING) (uexec_report_escape r)) else again r
  end.

(** [(uint32_t)s->transfer.v.i]. *)
Definition jump_target (v : UValue) : option Z := match v with UV_INT i => Some (u32 i) | _ => None end.

Definition unwind_step (r : urun) : step :=
  let x := r_x r in
  if decide (x_unwind x = UUNWIND_NONE) then ret_rc 0 r
  else
    match last (x_frames x) with
    | None =>
        let r := on_x (x_set_state USTRAND_DEAD) (uexec_report_escape r) in
        s ← ustrand_close_upvals 0 (x_stk (r_x r)); ret_rc 1 (on_x (x_set_stk s) r)
    | Some f =>
        let fi := u16 (zlen (x_frames x) - 1) in
        if bool_decide (x_unwind x = UUNWIND_JUMP) && (x_jump_depth x =? 0) then
          pc ← jump_target (x_transfer x);
          x ← set_pc pc x; ret_rc 0 (set_x (x_pending UUNWIND_NONE UV_NIL x) r)
        else
          match own_entry fi x with
          | Some top => walk_entry top (on_x drop_entry r)
          | None => walk_frame f r
          end
    end.

Fixpoint unwind_loop (fuel : nat) (r : urun) : option (Z * urun) :=
  match fuel with
  | O => None
  | S fuel =>
      '(rc, r) ← unwind_step r;
      match rc with Some rc => Some (rc, r) | None => unwind_loop fuel r end
  end.

(** Every iteration pops an entry or a frame, but the one that turns a jump too deep into a fatal failure. *)
Definition unwind_fuel (x : xstrand) : nat := 2 * (length (x_cleanup x) + length (x_frames x)) + 2.
Definition uexec_unwind (r : urun) : option (Z * urun) := unwind_loop (unwind_fuel (r_x r)) r.

(** ** The instructions (rt/uexec_ops.c)

    The flag of a result says whether dispatch goes on in the top frame. *)

Definition goto_unwind (r : urun) : option (bool * urun) := '(rc, r) ← uexec_unwind r; Some (rc =? 0, r).
Definition next (r : urun) : option (bool * urun) := Some (true, r).

Definition reg_of (f : UFrame) (a : Z) : Z := f_base f + a.

Definition op_throw (a : Z) (r : urun) : option (bool * urun) :=
  f ← last (x_frames (r_x r)); v ← read (s_stack (x_stk (r_x r))) (reg_of f a); goto_unwind (uexec_throw_value v r).

Definition op_ret (a : Z) (r : urun) : option (bool * urun) :=
  f ← last (x_frames (r_x r));
  rv ← read (s_stack (x_stk (r_x r))) (reg_of f a);
  match own_entry (u16 (zlen (x_frames (r_x r)) - 1)) (r_x r) with
  | Some _ => goto_unwind (on_x (x_pending UUNWIND_RETURN rv) r)
  | None => '(rc, x) ← uexec_return rv (r_x r); Some (rc =? 0, set_x x r)
  end.

Definition op_scope_try (a bx : Z) (r : urun) : option (bool * urun) :=
  let c := MkCleanup UCLEAN_TRY a (ucode UUNWIND_NONE) (u16 (zlen (x_frames (r_x r)) - 1)) bx 0 None UV_NIL in
  '(rc, r) ← push_entry c r;
  if negb (rc =? 0) then goto_unwind (uexec_throw UP_OOMERROR (lit "try begin: out of memory growing the cleanup stack") r) else next r.

(** The top entry, if a scope close or a resume of this frame may take it. *)
Definition top_own (ok : UCleanupEntry -> bool) (x : xstrand) : option UCleanupEntry :=
  match last (x_cleanup x) with
  | Some c => if ok c && (cu_frame c =? u16 (zlen (x_frames x) - 1)) then Some c else None
  | None => None
  end.

Definition op_scope_pop (a : Z) (r : urun) : option (bool * urun) :=
  let run_finally := negb (Z.land a USCOPE_POP_RUN_FINALLY =? 0) in
  if Z.land a 3 =? USCOPE_POP_TAG then
    match top_own is_tag_scope (r_x r) with
    | None => goto_unwind (uexec_fatal (lit "chunk integrity: tag scope close matches no tag scope of this frame") r)
    | Some c => r ← leave_scope c (on_x drop_entry r); next (regate r)
    end
  else
    match top_own (fun c => (cu_kind c =? UCLEAN_TRY) && negb (has_flag UCLEAN_F_RUNNING c)
                            && (negb run_finally || has_flag UCLEAN_F_HAS_FINALLY c)) (r_x r) with
    | None => goto_unwind (uexec_fatal (lit "chunk integrity: try scope close matches no try scope of this frame") r)
    | Some top =>
        let r := on_x drop_entry r in
        if negb run_finally then next r
        else
          f ← last (x_frames (r_x r)); pc ← f_pc f;
          '(rc, r) ← push_entry (running UUNWIND_NONE UV_NIL (u32 pc) top) r;
          if negb (rc =? 0) then goto_unwind (uexec_throw UP_OOMERROR (lit "try end: out of memory growing the cleanup stack") r)
          else x ← set_pc (cu_handler_pc top) (r_x r); next (set_x x r)
    end.

Definition op_load_catch_value (a : Z) (r : urun) : option (bool * urun) :=
  f ← last (x_frames (r_x r));
  l ← store (s_stack (x_stk (r_x r))) (reg_of f a) (x_transfer (r_x r));
  next (on_x (fun x => x_pending (x_unwind x) UV_NIL (x_set_stk (set_regs l (x_stk x)) x)) r).

Definition op_resume (r : urun) : option (bool * urun) :=
  match top_own (has_flag UCLEAN_F_RUNNING) (r_x r) with
  | None => goto_unwind (uexec_fatal (lit "chunk integrity: unwind resume matches no finally body of this frame") r)
  | Some mark =>
      let r := on_x drop_entry r in
      if cu_saved_unwind mark =? ucode UUNWIND_NONE then x ← set_pc (cu_onleave_pc mark) (r_x r); next (set_x x r)
      else
        u ← of_ucode (cu_saved_unwind mark);
        let r := on_x (x_pending u (cu_saved mark)) r in
        goto_unwind (if decide (u = UUNWIND_JUMP) then on_x (x_set_depth (u8 (cu_onleave_pc mark))) r else r)
  end.

Definition op_unwind_to (a bx : Z) (r : urun) : option (bool * urun) :=
  goto_unwind (on_x (fun x => x_pending UUNWIND_JUMP (UV_INT bx) (x_set_depth a x)) r).

(** ** Well-formed cleanup stacks *)

(** An entry names a script frame that is still on, carries one handler, and
    a marker holds an unwind that can be taken up again. *)
Record entry_ok (fs : list UFrame) (c : UCleanupEntry) : Prop := {
  e_frame : exists f, read fs (cu_frame c) = Some f /\ is_Some (cl_max_reg (f_closure f));
  e_flags : is_tag_scope c = false -> has_flag UCLEAN_F_HAS_CATCH c && has_flag UCLEAN_F_HAS_FINALLY c = false;
  e_mark : has_flag UCLEAN_F_RUNNING c = true ->
    exists u, of_ucode (cu_saved_unwind c) = Some u /\ (u = UUNWIND_JUMP -> exists i, cu_saved c = UV_INT i) }.

Record kwf (s : ustack) : Prop := {
  k_swf : swf s;
  k_entries : Forall (entry_ok (s_frames s)) (s_cleanup s);
  k_sorted : StronglySorted (fun a b => cu_frame a <= cu_frame b) (s_cleanup s);
  k_rets : forall i f g, s_frames s !! i = Some f -> s_frames s !! S i = Some g -> 0 <= f_base f + f_ret_reg g < stack_cap s }.

(** A pending jump has a target, and runs in a script frame. *)
Definition jump_ok (x : xstrand) : Prop :=
  x_unwind x = UUNWIND_JUMP ->
  (exists i, x_transfer x = UV_INT i) /\ exists f, last (x_frames x) = Some f /\ is_Some (cl_max_reg (f_closure f)).

Definition xwf (x : xstrand) : Prop := kwf (x_stk x) /\ jump_ok x.

(** What an event's subscribers may have done to the strand crossing the
    scope: written its captured variables, and at most stopped it or gated it. *)
Record crossed (x x' : xstrand) : Prop := {
  c_frames : x_frames x' = x_frames x;
  c_cleanup : x_cleanup x' = x_cleanup x;
  c_cap : s_cleanup_cap (x_stk x') = s_cleanup_cap (x_stk x) /\ stack_cap (x_stk x') = stack_cap (x_stk x);
  c_swf : swf (x_stk x) -> swf (x_stk x');
  c_depth : x_jump_depth x' = x_jump_depth x;
  c_tag : x_tag x' = x_tag x;
  c_pending : x_unwind x' = x_unwind x /\ x_transfer x' = x_transfer x \/
    x_unwind x' = UUNWIND_STOP /\ exists t, x_transfer x' = UV_CELL t }.

#[global] Instance crossed_refl : Reflexive crossed.
Proof. intros x. split; try done. by left. Qed.

Class ScopeLaws : Type := {
  world_ok : W -> Prop;
  fire_crosses : forall t w x, world_ok w -> swf (x_stk x) ->
    exists w' x', fire_leave t w x = Some (w', x') /\ world_ok w' /\ crossed x x';
  grant_ok : forall w, world_ok w -> world_ok (grant w).2;
  exception_ok : forall p m x w, world_ok w -> world_ok (new_exception p m x w).2 }.

Context {L : ScopeLaws}.

(** *** Stack operations *)

Lemma last_take {A} (l : list A) x : last l = Some x -> l = take (length l - 1) l ++ [x].
Proof.
  intros (k & ->)%last_Some. rewrite length_app. cbn [length]. replace (length k + 1 - 1)%nat with (length k) by lia.
  by rewrite take_app_length.
Qed.

Lemma kwf_regs l s : kwf s -> zlen l = stack_cap s -> kwf (set_regs l s).
Proof.
  intros [Hs He Hso Hr] Hl. assert (Hcap : stack_cap (set_regs l s) = stack_cap s) by exact Hl. split; try done.
  - destruct Hs as [H1 H2 H3 H4 H5 H6 H7 H8]. split; try done; rewrite ?Hcap; try done.
    + intros u Hu. destruct (H1 u Hu) as (y & Hy & Hp & Hlt). exists y. rewrite Hcap. done.
    + by apply (windows_same s).
  - intros i f g Hf Hg. rewrite Hcap. by eapply Hr.
Qed.

(** Moving the top frame's program counter. *)
Definition at_pc (pc : Z) (f : UFrame) : UFrame := MkFrame (f_closure f) (Some pc) (f_base f) (f_ret_reg f) (f_is_boundary f) (f_recv f).
Definition moved (pc : Z) (s s' : ustack) : Prop :=
  exists l f, s_frames s = l ++ [f] /\ s' = set_frames (l ++ [at_pc pc f]) (s_frames_cap s) (s_nboundary s) s.

Lemma lookup_at_pc pc l f i g : (l ++ [at_pc pc f]) !! i = Some g ->
  exists g', (l ++ [f]) !! i = Some g' /\ f_closure g = f_closure g' /\ f_base g = f_base g' /\ f_ret_reg g = f_ret_reg g'.
Proof.
  intros [Hi|[Hi Hg]]%lookup_app_Some.
  - exists g. split; [|done]. by apply lookup_app_l_Some.
  - exists f. rewrite lookup_app_r by done. destruct (i - length l)%nat; [|done]. injection Hg as <-. done.
Qed.

Lemma entry_moved fs fs' c : (forall i f, read fs i = Some f -> exists f', read fs' i = Some f' /\ f_closure f' = f_closure f) ->
  entry_ok fs c -> entry_ok fs' c.
Proof. intros Hm [(f & Hf & Hp) H1 H2]. split; [|done|done]. destruct (Hm _ _ Hf) as (f' & Hf' & E). exists f'. by rewrite E. Qed.

Lemma moved_kwf pc s s' : moved pc s s' -> kwf s -> kwf s'.
Proof.
  intros (l & f & El & ->) [Hs He Hso Hr]. split.
  - destruct Hs as [H1 H2 H3 H4 H5 H6 H7 H8]. split; cbn [set_frames s_frames s_frames_cap s_nboundary]; try done.
    + rewrite El in H5. rewrite !zlen_app in *. done.
    + rewrite El in H6. apply Forall_app in H6 as [H6 H6']. apply Forall_app. split; [by apply (windows_same s)|].
      apply Forall_singleton in H6' as [? ?]. apply Forall_singleton. by split.
    + rewrite H7, El, !filter_app, !zlen_app. f_equal. rewrite !filter_cons. cbn [at_pc f_is_boundary]. by case_decide.
  - cbn [set_frames s_frames s_cleanup]. eapply Forall_impl; [exact He|]. intros c. apply entry_moved. rewrite El. intros i g.
    unfold read. zcase; [|done]. intros [Hi|[Hi Hg]]%lookup_app_Some.
    + exists g. split; [|done]. by apply lookup_app_l_Some.
    + exists (at_pc pc f). rewrite lookup_app_r by done. destruct (_ - _)%nat; [|done]. cbn in *. injection Hg as <-. done.
  - done.
  - cbn [set_frames s_frames]. intros i g h Hg Hh. apply lookup_at_pc in Hg as (g' & Hg & _ & -> & _), Hh as (h' & Hh & _ & _ & ->).
    rewrite <- El in Hg, Hh. by eapply Hr.
Qed.

Lemma set_pc_spec pc x f : kwf (x_stk x) -> last (x_frames x) = Some f -> is_Some (cl_max_reg (f_closure f)) ->
  exists s, set_pc pc x = Some (x_set_stk s x) /\ moved pc (x_stk x) s /\ kwf s.
Proof.
  intros Hk Hl [mr Hmr]. unfold set_pc. rewrite Hl. cbn [mbind option_bind]. rewrite Hmr. cbn [mbind option_bind].
  eexists. split; [done|]. assert (Hm : moved pc (x_stk x) (set_frames (take (length (s_frames (x_stk x)) - 1) (s_frames (x_stk x)) ++ [at_pc pc f])
    (s_frames_cap (x_stk x)) (s_nboundary (x_stk x)) (x_stk x))).
  { eexists _, f. split; [by apply last_take|done]. }
  split; [exact Hm|]. by eapply moved_kwf.
Qed.

Lemma kwf_cleanup l cap s : kwf s -> zlen l <= cap -> cap = s_cleanup_cap s -> Forall (entry_ok (s_frames s)) l ->
  StronglySorted (fun a b => cu_frame a <= cu_frame b) l -> kwf (set_cleanup l cap s).
Proof.
  intros [[] _ _ Hr] Hl -> He Hs. split; try done. split; try done. cbn. split; [done|apply w_cleanup0].
Qed.

Lemma own_entry_spec fi x top : own_entry fi x = Some top ->
  x_cleanup x = x_cleanup (drop_entry x) ++ [top] /\ fi <= cu_frame top.
Proof.
  unfold own_entry. destruct (last (x_cleanup x)) as [c|] eqn:El; [|done]. zcase; [|done]. intros [= <-]. split; [by apply last_take|lia].
Qed.

(** The stack without its top entry, which it keeps the room for. *)
Lemma drop_entry_ok x top : kwf (x_stk x) -> x_cleanup x = x_cleanup (drop_entry x) ++ [top] ->
  kwf (x_stk (drop_entry x)) /\ entry_ok (x_frames x) top /\
  Forall (fun c => cu_frame c <= cu_frame top) (x_cleanup (drop_entry x)) /\
  zlen (x_cleanup (drop_entry x)) < s_cleanup_cap (x_stk (drop_entry x)).
Proof.
  intros Hk He. pose proof (k_entries _ Hk) as Hf. pose proof (k_sorted _ Hk) as Hs. pose proof (w_cleanup _ (k_swf _ Hk)) as [Hcap _].
  fold (x_cleanup x) in *. rewrite He in Hf, Hs, Hcap. set (l := x_cleanup (drop_entry x)) in *.
  apply Forall_app in Hf as [Hf Ht]. rewrite Forall_singleton in Ht. rewrite zlen_app in Hcap. change (zlen [top]) with 1 in Hcap.
  split; [|split; [done|split; [|change (s_cleanup_cap _) with (s_cleanup_cap (x_stk x)); lia]]].
  - change (x_stk (drop_entry x)) with (set_cleanup l (s_cleanup_cap (x_stk x)) (x_stk x)). apply kwf_cleanup; try done; [lia|].
    clear -Hs. induction l as [|c l IH]; [constructor|]. cbn [app] in Hs. apply StronglySorted_inv in Hs as [Hs Ha]. constructor; [auto|].
    by apply Forall_app in Ha as [? _].
  - clear -Hs. induction l as [|c l IH]; [constructor|]. cbn [app] in Hs. apply StronglySorted_inv in Hs as [Hs Ha]. constructor; [|auto].
    apply Forall_app in Ha as [_ Ha]. by rewrite Forall_singleton in Ha.
Qed.

Lemma entries_snoc (l : list UCleanupEntry) c : StronglySorted (fun a b => cu_frame a <= cu_frame b) l ->
  Forall (fun d => cu_frame d <= cu_frame c) l -> StronglySorted (fun a b => cu_frame a <= cu_frame b) (l ++ [c]).
Proof.
  induction 1 as [|d l Hs IH Ha]; intros Hf; cbn [app]; [repeat constructor|]. apply Forall_cons in Hf as [? Hf].
  constructor; [auto|]. apply Forall_app. split; [done|]. by apply Forall_singleton.
Qed.

(** Pushing where an entry was just popped needs no allocation, so it cannot fail. *)
Lemma push_entry_spec c r : kwf (x_stk (r_x r)) -> zlen (x_cleanup (r_x r)) < s_cleanup_cap (x_stk (r_x r)) ->
  entry_ok (x_frames (r_x r)) c -> Forall (fun d => cu_frame d <= cu_frame c) (x_cleanup (r_x r)) ->
  exists s, push_entry c r = Some (0, MkRun (grant (r_w r)).2 (x_set_stk s (r_x r)) (r_report r) (r_code r)) /\
    s = set_cleanup (x_cleanup (r_x r) ++ [c]) (s_cleanup_cap (x_stk (r_x r))) (x_stk (r_x r)) /\ kwf s.
Proof.
  intros Hk Hroom Hc Hf. unfold push_entry. destruct (grant (r_w r)) as [ok w]. unfold ustrand_push_cleanup. fold (x_cleanup (r_x r)).
  rewrite (proj2 (Z.eqb_neq _ _)) by lia. rewrite (proj2 (Z.ltb_lt _ _)) by lia. cbn [mbind option_bind]. eexists. split; [done|].
  split; [done|]. apply kwf_cleanup; try done.
  - rewrite zlen_app. change (zlen [c]) with 1. lia.
  - apply Forall_app. split; [apply Hk|by apply Forall_singleton].
  - apply entries_snoc; [apply Hk|done].
Qed.

Lemma lookup_take_Some {A} (l : list A) n i x : take n l !! i = Some x -> l !! i = Some x /\ (i < n)%nat.
Proof. intros E. apply lookup_take_Some in E. tauto. Qed.

(** Popping a frame none of whose entries is left. *)
Lemma pop_frame_ok x f : kwf (x_stk x) -> last (x_frames x) = Some f -> own_entry (u16 (zlen (x_frames x) - 1)) x = None ->
  exists s, ustrand_pop_frame (x_stk x) = Some s /\ kwf s /\ same_values (x_stk x) s /\ s_stack s = s_stack (x_stk x) /\
    x_frames x = s_frames s ++ [f] /\ s_cleanup s = x_cleanup x /\ stack_cap s = stack_cap (x_stk x).
Proof.
  intros Hk Hl Hown. destruct (pop_frame_spec _ (k_swf _ Hk)) as (s & E & Hw & Hv & Hst & Hfr & _).
  assert (Hcl : s_cleanup s = x_cleanup x).
  { unfold ustrand_pop_frame in E. unfold x_frames in Hl. rewrite Hl in E. destruct (close_upvals_spec (f_base f) _ (k_swf _ Hk)) as (s1 & E1 & _ & HC).
    rewrite E1 in E. cbn [mbind option_bind] in E. injection E as <-. pose proof (cl_only _ _ _ _ HC) as Ho. unfold upvals_only in Ho. cbn. by rewrite Ho. }
  assert (Hcap : stack_cap s = stack_cap (x_stk x)) by (unfold stack_cap; by rewrite Hst).
  exists s. split; [done|]. pose proof (last_take _ _ Hl) as Hsp. unfold x_frames in Hsp. rewrite <- Hfr in Hsp.
  split; [|by repeat (split; [done|])].
  assert (Hn : zlen (x_frames x) = zlen (s_frames s) + 1) by (unfold x_frames; by rewrite Hsp, zlen_app).
  pose proof (w_frames _ (k_swf _ Hk)) as [Hle Hc%table_bound]. fold (x_frames x) in *. pose proof (zlen_nonneg (s_frames s)).
  rewrite u16_small in Hown by lia.
  assert (Hlow : Forall (fun c => cu_frame c < zlen (s_frames s)) (x_cleanup x)).
  { unfold own_entry in Hown. destruct (last (x_cleanup x)) as [c|] eqn:Ec; [|apply last_None in Ec; by rewrite Ec].
    destruct (_ <=? _) eqn:Ef; [done|]. zbool. pose proof (last_take _ _ Ec) as Hc2.
    destruct (drop_entry_ok x c Hk Hc2) as (_ & _ & Hle2 & _). rewrite Hc2. apply Forall_app. split.
    - eapply Forall_impl; [exact Hle2|]. cbn. lia.
    - apply Forall_singleton. lia. }
  split; [done| | |].
  - rewrite Hcl. pose proof (k_entries _ Hk) as He. fold (x_cleanup x) in He. rewrite Forall_forall in *. intros c Hc'.
    destruct (He c Hc') as [(g & Hg & Hp) H1 H2]. specialize (Hlow c Hc'). split; [|done|done]. exists g. split; [|done].
    fold (x_frames x) in Hg. rewrite Hsp in Hg. revert Hg. unfold read. zcase; [|done]. rewrite lookup_app_l; [done|]. unfold zlen in Hlow. lia.
  - rewrite Hcl. apply Hk.
  - rewrite Hcap. intros i g h Hg Hh. apply (k_rets _ Hk i); fold (x_frames x); rewrite Hsp; by apply lookup_app_l_Some.
Qed.

(** ** One iteration *)

Lemma crossed_kwf x x' : crossed x x' -> kwf (x_stk x) -> kwf (x_stk x').
Proof.
  intros [Hf Hc [Hca Hst] Hw _ _ _] [H1 H2 H3 H4]. unfold x_frames, x_cleanup in *. split; rewrite ?Hf, ?Hc, ?Hst; auto.
Qed.

Lemma crossed_jump x x' : crossed x x' -> jump_ok x -> jump_ok x'.
Proof.
  intros [Hf _ _ _ _ _ Hp] Hj. unfold jump_ok. rewrite Hf. destruct Hp as [[-> ->]|[-> _]]; [done|by intros [=]].
Qed.

Lemma crossed_pending x x' : crossed x x' -> x_unwind x <> UUNWIND_NONE -> x_unwind x' <> UUNWIND_NONE.
Proof. intros [_ _ _ _ _ _ Hp]. by destruct Hp as [[-> _]|[-> _]]. Qed.

Lemma leave_scope_ok c r : world_ok (r_w r) -> kwf (x_stk (r_x r)) ->
  exists r', leave_scope c r = Some r' /\ world_ok (r_w r') /\ crossed (x_set_tag (ambient c) (r_x r)) (r_x r').
Proof.
  intros Hw Hk. unfold leave_scope. destruct (cu_tag c) as [t|]; [|by eexists].
  destruct (fire_crosses t (r_w r) (x_set_tag (ambient c) (r_x r)) Hw (k_swf _ Hk)) as (w' & x' & -> & Hw' & Hc).
  cbn [mbind option_bind]. by eexists.
Qed.

(** How an activation of the walker ends: with nothing pending in a frame, or
    with the strand dead, or with control back at a boundary's caller. *)
Definition ended (rc : Z) (x : xstrand) : Prop :=
  rc = 0 /\ x_unwind x = UUNWIND_NONE /\ x_frames x <> [] \/
  rc = 1 /\ (x_state x = USTRAND_DEAD /\ x_frames x = [] \/ x_state x = USTRAND_RUNNING).

(** What an iteration from [x] leaves: [k] counts what it must have popped. *)
Definition stepped (o : option Z) (k : nat) (r : urun) : Prop :=
  world_ok (r_w r) /\ xwf (r_x r) /\
  match o with
  | Some rc => ended rc (r_x r)
  | None => x_unwind (r_x r) <> UUNWIND_NONE /\
      (2 * (length (x_cleanup (r_x r)) + length (x_frames (r_x r))) + (if decide (x_unwind (r_x r) = UUNWIND_FATAL) then 0 else 1) < k)%nat
  end.

Lemma fatal_bit (u : UUnwindKind) : ((if decide (u = UUNWIND_FATAL) then 0 else 1) <= 1)%nat.
Proof. case_decide; lia. Qed.

(** The state in which the walker looks at an entry it has popped. *)
Record popped (top : UCleanupEntry) (r : urun) : Prop := {
  p_world : world_ok (r_w r);
  p_wf : xwf (r_x r);
  p_pending : x_unwind (r_x r) <> UUNWIND_NONE;
  p_entry : entry_ok (x_frames (r_x r)) top;
  p_below : Forall (fun c => cu_frame c <= cu_frame top) (x_cleanup (r_x r));
  p_room : zlen (x_cleanup (r_x r)) < s_cleanup_cap (x_stk (r_x r));
  p_frame : exists f, last (x_frames (r_x r)) = Some f /\ is_Some (cl_max_reg (f_closure f)) }.

Definition left_of (r : urun) : nat := 2 * (length (x_cleanup (r_x r)) + length (x_frames (r_x r))) + 2.

Lemma again_stepped r : world_ok (r_w r) -> xwf (r_x r) -> x_unwind (r_x r) <> UUNWIND_NONE -> stepped None (left_of r) r.
Proof. intros Hw Hx Hu. split; [done|]. split; [done|]. split; [done|]. unfold left_of. pose proof (fatal_bit (x_unwind (r_x r))). lia. Qed.

Lemma moved_frames pc x s : moved pc (x_stk x) s -> s_frames s <> [].
Proof. intros (l & f & _ & ->). cbn. by destruct l. Qed.

Lemma xwf_none x : kwf (x_stk x) -> x_unwind x = UUNWIND_NONE -> xwf x.
Proof. intros Hk Hu. split; [done|]. intros E. congruence. Qed.

Lemma land_ok pc r top : popped top r -> forall v,
  exists r', land_at pc (on_x (x_pending UUNWIND_NONE v) r) = Some (Some 0, r') /\ stepped (Some 0) (left_of r) r' /\
    r_w r' = r_w r /\ exists s, moved pc (x_stk (r_x r)) s /\ r_x r' = x_set_stk s (x_pending UUNWIND_NONE v (r_x r)).
Proof.
  intros Hp v. destruct (p_frame _ _ Hp) as (f & Hl & Hm). destruct (p_wf _ _ Hp) as [Hk _].
  destruct (set_pc_spec pc (x_pending UUNWIND_NONE v (r_x r)) f Hk Hl Hm) as (s & E & Hs & Hk'). unfold land_at. cbn [on_x r_x]. rewrite E.
  cbn [mbind option_bind ret_rc]. eexists. split; [done|]. split; [|split; [done|by exists s]].
  split; [apply Hp|]. split; [by apply xwf_none|]. left. split; [done|]. split; [done|]. by eapply moved_frames.
Qed.

Lemma running_flags u v n c b : b <> 32 -> Z.land 32 b = 0 -> has_flag b (running u v n c) = has_flag b c.
Proof. intros _ Hb. unfold has_flag, running, UCLEAN_F_RUNNING. cbn [cu_flags]. by rewrite Z.land_lor_distr_l, Hb, Z.lor_0_r. Qed.

Lemma of_ucode_code u : of_ucode (ucode u) = Some u.
Proof. by destruct u. Qed.

Lemma running_entry fs u v n c : entry_ok fs c -> (u = UUNWIND_JUMP -> exists i, v = UV_INT i) -> entry_ok fs (running u v n c).
Proof.
  intros [H1 H2 _] Hj. split; [done| |].
  - intros Ht. rewrite !running_flags by done. by apply H2.
  - intros _. exists u. split; [apply of_ucode_code|done].
Qed.

Lemma start_finally_ok u v n top r skip : popped top r -> (u = UUNWIND_JUMP -> exists i, v = UV_INT i) ->
  exists r', start_finally (running u v n top) top skip r = Some (Some 0, r') /\ stepped (Some 0) (left_of r) r' /\
    r_w r' = (grant (r_w r)).2 /\ x_cleanup (r_x r') = x_cleanup (r_x r) ++ [running u v n top] /\
    exists s, moved (cu_handler_pc top) (set_cleanup (x_cleanup (r_x r) ++ [running u v n top]) (s_cleanup_cap (x_stk (r_x r))) (x_stk (r_x r))) s /\
      r_x r' = x_set_stk s (x_pending UUNWIND_NONE UV_NIL (r_x r)).
Proof.
  intros Hp Hj. destruct (p_wf _ _ Hp) as [Hk _].
  destruct (push_entry_spec (running u v n top) r Hk (p_room _ _ Hp)) as (s & E & Es & Hk'); [by apply running_entry; [apply Hp|]|apply Hp|].
  unfold start_finally. rewrite E. cbn [mbind option_bind negb Z.eqb].
  destruct (p_frame _ _ Hp) as (f & Hl & Hm).
  destruct (set_pc_spec (cu_handler_pc top) (x_pending UUNWIND_NONE UV_NIL (x_set_stk s (r_x r))) f) as (s2 & E2 & Hs2 & Hk2).
  { done. } { unfold x_frames in *. cbn. by rewrite Es. } { done. }
  unfold land_at. cbn [on_x r_x]. rewrite E2. cbn [mbind option_bind ret_rc]. eexists. split; [done|].
  pose proof (grant_ok (r_w r) (p_world _ _ Hp)) as Hg.
  split; [|split; [done|split]].
  - split; [done|]. split; [by apply xwf_none|]. left. split; [done|]. split; [done|]. by eapply moved_frames.
  - destruct Hs2 as (l & g & _ & ->). cbn. by rewrite Es.
  - exists s2. subst s. done.
Qed.

Lemma again_of r r' : world_ok (r_w r') -> xwf (r_x r') -> x_unwind (r_x r') <> UUNWIND_NONE ->
  x_cleanup (r_x r') = x_cleanup (r_x r) -> x_frames (r_x r') = x_frames (r_x r) -> stepped None (left_of r) r'.
Proof. intros Hw Hx Hu Hc Hf. replace (left_of r) with (left_of r') by (unfold left_of; by rewrite Hc, Hf). by apply again_stepped. Qed.

Lemma crossed_xwf x x' : crossed x x' -> xwf x -> xwf x'.
Proof. intros Hc [Hk Hj]. split; [by eapply crossed_kwf|by eapply crossed_jump]. Qed.

(** Leaving the scope of a popped entry, and what the walk goes on from. *)
Lemma leave_popped top r : popped top r ->
  exists r', leave_scope top r = Some r' /\ crossed (x_set_tag (ambient top) (r_x r)) (r_x r') /\ popped top r'.
Proof.
  intros Hp. destruct (leave_scope_ok top r (p_world _ _ Hp) (proj1 (p_wf _ _ Hp))) as (r' & E & Hw & Hc).
  exists r'. split; [done|]. split; [done|]. destruct (c_cap _ _ Hc) as [Hcap _].
  pose proof (c_frames _ _ Hc) as Hf. pose proof (c_cleanup _ _ Hc) as Hcl.
  assert (Hfr : x_frames (r_x r') = x_frames (r_x r)) by exact Hf. assert (Hcl' : x_cleanup (r_x r') = x_cleanup (r_x r)) by exact Hcl.
  split; rewrite ?Hfr, ?Hcl', ?Hcap; try exact (p_entry _ _ Hp); try exact (p_below _ _ Hp); try exact (p_room _ _ Hp); try exact (p_frame _ _ Hp); [done| |].
  - eapply crossed_xwf; [exact Hc|]. destruct (p_wf _ _ Hp). by split.
  - eapply crossed_pending; [exact Hc|]. apply Hp.
Qed.

Lemma walk_jump_ok top r : popped top r -> x_unwind (r_x r) = UUNWIND_JUMP ->
  exists o r', walk_jump top r = Some (o, r') /\ stepped o (left_of r) r'.
Proof.
  intros Hp Hu. unfold walk_jump. destruct (is_tag_scope top).
  - destruct (leave_popped top r Hp) as (r1 & -> & Hc & Hp1). cbn [mbind option_bind]. do 2 eexists. split; [done|].
    destruct (p_wf _ _ Hp1) as [Hk Hj].
    apply again_of; [apply Hp1|split; [exact Hk|exact Hj]|exact (p_pending _ _ Hp1)|exact (c_cleanup _ _ Hc)|exact (c_frames _ _ Hc)].
  - destruct (_ && _).
    + destruct (p_wf _ _ Hp) as [_ Hj]. destruct (Hj Hu) as [Ht _].
      destruct (start_finally_ok UUNWIND_JUMP (x_transfer (r_x r)) (u32 (x_jump_depth (r_x r) - 1)) top r x_decr_depth Hp) as (r' & -> & Hs & _); [done|].
      by exists (Some 0), r'.
    + do 2 eexists. split; [done|]. destruct (p_wf _ _ Hp) as [Hk Hj]. apply again_of; [exact (p_world _ _ Hp)|split; [exact Hk|exact Hj]|exact (p_pending _ _ Hp)|done|done].
Qed.

Lemma walk_scopes_ok top r : popped top r -> x_unwind (r_x r) <> UUNWIND_JUMP ->
  exists o r', walk_scopes top r = Some (o, r') /\ stepped o (left_of r) r'.
Proof.
  intros Hp Hu. unfold walk_scopes. pose proof (p_pending _ _ Hp) as Hn.
  assert (Hag : exists o r', again r = Some (o, r') /\ stepped o (left_of r) r').
  { do 2 eexists. split; [done|]. by apply again_stepped; [apply Hp|apply Hp|]. }
  destruct (is_tag_scope top) eqn:Et.
  - destruct (leave_popped top r Hp) as (r1 & -> & Hc & Hp1). cbn [mbind option_bind]. case_decide as Hst.
    + destruct (p_frame _ _ Hp1) as (f & Hl & Hm). destruct (p_wf _ _ Hp1) as [Hk1 _].
      destruct (set_pc_spec (cu_onleave_pc top) (x_pending UUNWIND_NONE UV_NIL (r_x r1)) f Hk1 Hl Hm) as (s & -> & Hs & Hk2). cbn [mbind option_bind].
      do 2 eexists. split; [done|]. split; [apply Hp1|]. split; [by apply xwf_none|]. left. split; [done|]. split; [done|]. by eapply moved_frames.
    + do 2 eexists. split; [done|]. apply again_of; [apply Hp1|apply Hp1|apply Hp1|exact (c_cleanup _ _ Hc)|exact (c_frames _ _ Hc)].
  - destruct (has_flag UCLEAN_F_RUNNING top); [done|].
    rewrite (e_flags _ _ (p_entry _ _ Hp) Et). destruct (has_flag UCLEAN_F_HAS_FINALLY top).
    + destruct (start_finally_ok (x_unwind (r_x r)) (x_transfer (r_x r)) (cu_onleave_pc top) top r (fun x => x) Hp) as (r' & -> & Hs & _); [done|].
      by exists (Some 0), r'.
    + destruct (_ && _); [|done].
      destruct (land_ok (cu_handler_pc top) r top Hp (x_transfer (r_x r))) as (r' & E & Hs & _). exists (Some 0), r'. by split.
Qed.

Lemma walk_entry_ok top r : popped top r -> exists o r', walk_entry top r = Some (o, r') /\ stepped o (left_of r) r'.
Proof.
  intros Hp. unfold walk_entry. destruct (p_wf _ _ Hp) as [Hk Hj]. pose proof (p_pending _ _ Hp) as Hn.
  destruct (x_unwind (r_x r)) eqn:Hu; try (by apply walk_scopes_ok; [done|rewrite Hu]); [by apply walk_jump_ok|].
  do 2 eexists. split; [done|]. assert (Hf : x_unwind (r_x r) <> UUNWIND_NONE) by exact (p_pending _ _ Hp).
  destruct (is_tag_scope top); (apply again_of; [exact (p_world _ _ Hp)|split; [exact Hk|exact Hj]|exact Hf|done|done]).
Qed.

Lemma read_prev {A} (l : list A) x : 1 < zlen (l ++ [x]) -> exists y, read (l ++ [x]) (zlen (l ++ [x]) - 2) = Some y /\
  l !! (length l - 1)%nat = Some y /\ S (length l - 1) = length l.
Proof.
  rewrite zlen_app. change (zlen [x]) with 1. intros Hl. unfold zlen in *.
  destruct (lookup_lt_is_Some_2 l (length l - 1)) as [y Hy]; [lia|]. exists y. split; [|split; [done|lia]]. unfold read. zcase; [|lia].
  rewrite lookup_app_l by lia. by replace (Z.to_nat _) with (length l - 1)%nat by lia.
Qed.

(** A completed return: the frame is gone, and its value is in the caller's
    register, or is the result of the strand or of the synchronous call. *)
Lemma return_ok rv x f : kwf (x_stk x) -> last (x_frames x) = Some f -> own_entry (u16 (zlen (x_frames x) - 1)) x = None ->
  exists s, ustrand_pop_frame (x_stk x) = Some s /\ kwf s /\ same_values (x_stk x) s /\ x_frames x = s_frames s ++ [f] /\
    s_cleanup s = x_cleanup x /\ s_stack s = s_stack (x_stk x) /\
    ((f_is_boundary f = true /\ uexec_return rv x = Some (1, x_set_state USTRAND_RUNNING (x_set_result rv (x_set_stk s x)))) \/
     (f_is_boundary f = false /\ s_frames s = [] /\ uexec_return rv x = Some (1, x_set_state USTRAND_DEAD (x_set_result rv (x_set_stk s x)))) \/
     (f_is_boundary f = false /\ exists g l, last (s_frames s) = Some g /\ store (s_stack s) (f_base g + f_ret_reg f) rv = Some l /\
        uexec_return rv x = Some (0, x_set_stk (set_regs l s) x) /\ kwf (set_regs l s))).
Proof.
  intros Hk Hl Hown. destruct (pop_frame_ok x f Hk Hl Hown) as (s & E & Hk' & Hv & Hst & Hfr & Hcl & Hcap).
  exists s. do 6 (split; [done|]). unfold uexec_return. rewrite Hl, Hfr.
  destruct (1 <? zlen (s_frames s ++ [f])) eqn:En; zbool.
  - destruct (read_prev _ _ En) as (g & -> & Hg & Hlen). cbn [fmap option_fmap option_map mbind option_bind]. rewrite E. cbn [mbind option_bind].
    destruct (f_is_boundary f); [by left|]. right; right. split; [done|].
    assert (Hne : zlen (x_frames (x_set_stk s x)) =? 0 = false).
    { rewrite zlen_app in En. change (zlen [f]) with 1 in En. apply Z.eqb_neq. unfold x_frames, x_set_stk. cbn [x_stk]. lia. }
    rewrite Hne. assert (Hr : 0 <= f_base g + f_ret_reg f < stack_cap (x_stk x)).
    { apply (k_rets _ Hk (length (s_frames s) - 1)); fold (x_frames x); rewrite Hfr.
      - rewrite lookup_app_l by lia. done.
      - rewrite Hlen, lookup_app_r by lia. by rewrite Nat.sub_diag. }
    pose proof (regs_cap_bound _ (w_regs _ (k_swf _ Hk))). rewrite u32_small by lia.
    destruct (store_is_Some (s_stack s) (f_base g + f_ret_reg f) rv) as (l & Es & Hll); [rewrite Hst; exact Hr|].
    exists g, l. split; [|split; [done|]].
    { rewrite last_lookup. by replace (pred (length (s_frames s))) with (length (s_frames s) - 1)%nat by lia. }
    rewrite Es. cbn [mbind option_bind]. split; [done|]. apply kwf_regs; [done|]. unfold stack_cap, zlen. by rewrite Hll.
  - cbn [mbind option_bind]. rewrite E. cbn [mbind option_bind]. destruct (f_is_boundary f); [by left|]. right; left. split; [done|].
    rewrite zlen_app in En. change (zlen [f]) with 1 in En. assert (Hnil : s_frames s = []) by (apply zlen_nil_inv; lia). split; [done|].
    unfold x_frames at 1, x_set_stk at 1. cbn [x_stk]. by rewrite Hnil.
Qed.

Definition bound_of (r : urun) : nat :=
  2 * (length (x_cleanup (r_x r)) + length (x_frames (r_x r))) + (if decide (x_unwind (r_x r) = UUNWIND_FATAL) then 0 else 1).

Definition walking (r : urun) : Prop := world_ok (r_w r) /\ xwf (r_x r) /\ x_unwind (r_x r) <> UUNWIND_NONE.

Lemma fatal_spec m r : exists v rep code, uexec_fatal m r = MkRun (new_exception UP_TYPEERROR (UP_TYPEERROR ++ lit ": " ++ m) (r_x r) (r_w r)).2 (x_pending UUNWIND_FATAL v (r_x r)) rep code.
Proof. unfold uexec_fatal, uexec_throw. destruct (new_exception _ _ _ _) as [v w]. by do 3 eexists. Qed.

Lemma walk_frame_ok f r : walking r -> last (x_frames (r_x r)) = Some f -> own_entry (u16 (zlen (x_frames (r_x r)) - 1)) (r_x r) = None ->
  exists o r', walk_frame f r = Some (o, r') /\ stepped o (bound_of r) r'.
Proof.
  intros (Hw & [Hk Hj] & Hn) Hl Hown.
  assert (Hpop : x_unwind (r_x r) <> UUNWIND_JUMP -> exists o r', (s ← ustrand_pop_frame (x_stk (r_x r));
      let r := on_x (x_set_stk s) r in
      if f_is_boundary f then ret_rc 1 (on_x (x_set_state USTRAND_RUNNING) (uexec_report_escape r)) else again r) = Some (o, r') /\ stepped o (bound_of r) r').
  { intros Hnj. destruct (pop_frame_ok _ f Hk Hl Hown) as (s & -> & Hk' & _ & _ & Hfr & Hcl & _). cbn [mbind option_bind].
    assert (Hx : xwf (x_set_stk s (r_x r))) by (split; [exact Hk'|intros E; by destruct (Hnj E)]).
    destruct (f_is_boundary f).
    - unfold uexec_report_escape. case_decide; (do 2 eexists; split; [done|]; split; [done|]; split; [exact Hx|]; right; split; [done|by right]).
    - do 2 eexists. split; [done|]. split; [done|]. split; [exact Hx|]. split; [done|]. unfold bound_of. cbn [r_x on_x x_set_stk x_cleanup x_frames x_stk x_unwind].
      change (s_cleanup s = s_cleanup (x_stk (r_x r))) in Hcl. change (s_frames (x_stk (r_x r)) = s_frames s ++ [f]) in Hfr.
      unfold x_cleanup, x_frames. cbn [r_x on_x x_set_stk x_stk x_unwind]. rewrite Hcl, Hfr, length_app. cbn [length]. lia. }
  unfold walk_frame. destruct (x_unwind (r_x r)) eqn:Hu; try done; try (apply Hpop; congruence).
  - destruct (return_ok (x_transfer (r_x r)) (x_pending UUNWIND_NONE UV_NIL (r_x r)) f) as (s & _ & Hk' & _ & Hfr & Hcl & _ & Hcase); try done.
    destruct Hcase as [(_ & E)|[(_ & Hnil & E)|(_ & g & l & Hg & _ & E & Hk2)]]; rewrite E; cbn [mbind option_bind];
      (do 2 eexists; split; [done|]; split; [done|]; split; [by apply xwf_none|]).
    + right. split; [done|]. by right.
    + right. split; [done|]. by left.
    + left. split; [done|]. split; [done|]. intros E0. change (s_frames s = []) in E0. by rewrite E0 in Hg.
  - destruct (fatal_spec (lit "chunk integrity: unwind deeper than this frame" ++ [39] ++ lit "s scopes") r) as (v & rep & code & ->).
    do 2 eexists. split; [done|]. split; [by apply exception_ok|]. split; [split; [exact Hk|intros E; discriminate]|]. split; [done|].
    unfold bound_of. rewrite Hu. change (x_unwind (r_x (MkRun _ (x_pending UUNWIND_FATAL v (r_x r)) rep code))) with UUNWIND_FATAL. rewrite decide_True, decide_False by done.
    change (x_cleanup (r_x (MkRun _ _ rep code))) with (x_cleanup (r_x r)). change (x_frames (r_x (MkRun _ _ rep code))) with (x_frames (r_x r)). lia.
Qed.

Lemma own_entry_frame x f top : kwf (x_stk x) -> last (x_frames x) = Some f -> own_entry (u16 (zlen (x_frames x) - 1)) x = Some top ->
  entry_ok (x_frames x) top -> is_Some (cl_max_reg (f_closure f)).
Proof.
  intros Hk Hl Hown [(g & Hg & Hp) _ _]. destruct (own_entry_spec _ _ _ Hown) as [_ Hge].
  pose proof (w_frames _ (k_swf _ Hk)) as [Hle Hc%table_bound]. fold (x_frames x) in *.
  pose proof (read_Some_lt _ _ _ Hg) as Hlt. pose proof (last_take _ _ Hl) as Hs. rewrite u16_small in Hge by (unfold zlen in *; lia).
  unfold read in Hg. destruct (0 <=? cu_frame top); [|done]. unfold zlen in Hge. rewrite last_lookup in Hl.
  replace (Z.to_nat (cu_frame top)) with (pred (length (x_frames x))) in Hg by lia. rewrite Hl in Hg. injection Hg as ->. done.
Qed.

Lemma drop_popped r f top : walking r -> last (x_frames (r_x r)) = Some f -> own_entry (u16 (zlen (x_frames (r_x r)) - 1)) (r_x r) = Some top ->
  popped top (on_x drop_entry r) /\ x_cleanup (r_x r) = x_cleanup (drop_entry (r_x r)) ++ [top].
Proof.
  intros (Hw & [Hk Hj] & Hn) Hl Hown. destruct (own_entry_spec _ _ _ Hown) as [He _].
  destruct (drop_entry_ok _ _ Hk He) as (Hk' & Ho & Hb & Hroom). split; [|done].
  split; [exact Hw|split; [exact Hk'|exact Hj]|exact Hn|exact Ho|exact Hb|exact Hroom|]. exists f. split; [exact Hl|]. by apply (own_entry_frame (r_x r) f top).
Qed.

Lemma walk_step_ok r : walking r -> exists o r', unwind_step r = Some (o, r') /\ stepped o (bound_of r) r'.
Proof.
  intros Hlv. pose proof Hlv as (Hw & [Hk Hj] & Hn). unfold unwind_step. rewrite decide_False by done.
  destruct (last (x_frames (r_x r))) as [f|] eqn:Hl.
  2:{ destruct (close_upvals_spec 0 _ (k_swf _ Hk)) as (s & E & Hs & HC). pose proof (cl_only _ _ _ _ HC) as Ho. unfold upvals_only in Ho.
      assert (Hx : forall rep code, r_x (MkRun (r_w r) (r_x r) rep code) = r_x r) by done.
      assert (Hks : kwf s). { destruct Hk as [_ H1 H2 H3]. split; [done|..]; rewrite Ho; done. }
      assert (Hfs : s_frames s = []) by (rewrite Ho; by apply last_None).
      assert (Hjd : jump_ok (x_set_stk s (x_set_state USTRAND_DEAD (r_x r)))).
      { intros Eu. destruct (Hj Eu) as [_ (g & Hg & _)]. congruence. }
      unfold uexec_report_escape. case_decide; cbn [on_x r_x x_set_state x_stk r_w r_report r_code]; rewrite E; cbn [mbind option_bind];
        (do 2 eexists; split; [done|]; split; [done|]; split; [split; [exact Hks|exact Hjd]|]; right; split; [done|]; left; split; [done|exact Hfs]). }
  destruct (_ && _) eqn:Eb.
  - zbool. apply bool_decide_eq_true in H0. destruct (Hj H0) as [(i & Ei) (g & Hg & Hm)]. rewrite Ei. cbn [jump_target mbind option_bind].
    destruct (set_pc_spec (u32 i) (r_x r) g Hk Hg Hm) as (s & -> & Hs & Hk'). cbn [mbind option_bind]. do 2 eexists. split; [done|].
    split; [done|]. split; [by apply xwf_none|]. left. split; [done|]. split; [done|]. by eapply moved_frames.
  - destruct (own_entry _ _) as [top|] eqn:Hown; [|by apply walk_frame_ok].
    destruct (drop_popped r f top Hlv Hl Hown) as [Hp He]. destruct (walk_entry_ok top _ Hp) as (o & r' & E & H1 & H2 & H3). exists o, r'. split; [done|].
    split; [done|]. split; [done|]. destruct o; [done|]. destruct H3 as [H3 H4]. split; [done|]. unfold bound_of, left_of in *.
    cbn [on_x r_x] in H4. rewrite He, length_app. cbn [length]. change (x_frames (drop_entry (r_x r))) with (x_frames (r_x r)) in H4. lia.
Qed.

Lemma walk_ok fuel : forall r, walking r -> (bound_of r < fuel)%nat -> exists rc r', unwind_loop fuel r = Some (rc, r') /\ world_ok (r_w r') /\ xwf (r_x r') /\ ended rc (r_x r').
Proof.
  induction fuel as [|fuel IH]; intros r Hl Hf; [lia|]. cbn [unwind_loop]. destruct (walk_step_ok r Hl) as (o & r' & -> & H1 & H2 & H3). cbn [mbind option_bind].
  destruct o as [rc|]; [by exists rc, r'|]. destruct H3 as [H3 H4]. apply IH; [done|]. unfold bound_of in *. lia.
Qed.

(** ** What a walk does *)

Lemma unwind_total r : walking r -> exists rc r', uexec_unwind r = Some (rc, r') /\ world_ok (r_w r') /\ xwf (r_x r') /\ ended rc (r_x r').
Proof. intros Hl. apply walk_ok; [done|]. unfold bound_of, unwind_fuel. pose proof (fatal_bit (x_unwind (r_x r))). lia. Qed.

(** One more iteration. *)
Definition goes (r r' : urun) : Prop := unwind_step r = Some (None, r').

Lemma walk_goes r r1 : rtc goes r r1 -> forall n res, unwind_loop n r = Some res -> exists m, unwind_loop m r1 = Some res.
Proof.
  induction 1 as [r|r r' r1 Hg _ IH]; intros n res Hn; [by exists n|]. destruct n as [|n]; [done|]. cbn [unwind_loop] in Hn. rewrite Hg in Hn.
  by apply (IH n).
Qed.

Lemma goes_then r r1 rc r2 : walking r -> rtc goes r r1 -> unwind_step r1 = Some (Some rc, r2) -> uexec_unwind r = Some (rc, r2).
Proof.
  intros Hl Hg Hs. destruct (unwind_total r Hl) as (rc' & r' & E & _). rewrite E. destruct (walk_goes r r1 Hg _ _ E) as [m Hm].
  destruct m as [|m]; [done|]. cbn [unwind_loop] in Hm. by rewrite Hs in Hm.
Qed.

Lemma walk_more n m r res : unwind_loop n r = Some res -> (n <= m)%nat -> unwind_loop m r = Some res.
Proof.
  revert m r. induction n as [|n IH]; intros m r Hn Hle; [done|]. destruct m as [|m]; [lia|]. cbn [unwind_loop] in *.
  destruct (unwind_step r) as [[[rc|] r']|]; try done. cbn [mbind option_bind] in *. apply IH; [done|lia].
Qed.

Lemma loop_same n m r a b : unwind_loop n r = Some a -> unwind_loop m r = Some b -> a = b.
Proof.
  intros Ha Hb. apply (walk_more _ (n + m)) in Ha; [|lia]. apply (walk_more _ (n + m)) in Hb; [|lia]. congruence.
Qed.

Lemma goes_unwind r r1 : walking r -> walking r1 -> rtc goes r r1 -> uexec_unwind r = uexec_unwind r1.
Proof.
  intros Hl Hl1 Hg. destruct (unwind_total r Hl) as (rc & r' & E & _), (unwind_total r1 Hl1) as (rc1 & r1' & E1 & _).
  destruct (walk_goes r r1 Hg _ _ E) as [m Hm]. rewrite E, E1. f_equal. by eapply loop_same.
Qed.

(** Whether the walk of a throw, a return, a stop or a failure ends at an entry. *)
Definition takes (u : UUnwindKind) (v : UValue) (c : UCleanupEntry) : bool :=
  if decide (u = UUNWIND_FATAL) then false
  else if is_tag_scope c then bool_decide (u = UUNWIND_STOP /\ UV_CELL <$> cu_tag c = Some v)
  else negb (has_flag UCLEAN_F_RUNNING c) && (has_flag UCLEAN_F_HAS_FINALLY c || (bool_decide (u = UUNWIND_THROW) && has_flag UCLEAN_F_HAS_CATCH c)).

(** The scopes left with a list of entries (the bottom of the stack first),
    innermost first, and the ambient tag that puts back. *)
Definition tags_left (es : list UCleanupEntry) : list nat := omap (fun c => if is_tag_scope c then cu_tag c else None) (reverse es).
Definition put_back (es : list UCleanupEntry) (t : option nat) : option nat :=
  match find is_tag_scope es with Some c => ambient c | None => t end.

(** The leave events of these tags, in this order. *)
Inductive fires : list nat -> W -> W -> Prop :=
  | fires_nil w : fires [] w w
  | fires_cons t ts w w1 w2 x x' : fire_leave t w x = Some (w1, x') -> fires ts w1 w2 -> fires (t :: ts) w w2.

(** No subscriber of a leave event stops the strand that fires it. *)
Definition quiet : Prop := forall t w x w' x', world_ok w -> fire_leave t w x = Some (w', x') -> x_unwind x' = x_unwind x /\ x_transfer x' = x_transfer x.

Lemma fires_app a b w1 w2 w3 : fires a w1 w2 -> fires b w2 w3 -> fires (a ++ b) w1 w3.
Proof. induction 1; cbn [app]; [done|]. intros Hb. econstructor; eauto. Qed.

Lemma tags_left_app a b : tags_left (a ++ b) = tags_left b ++ tags_left a.
Proof. unfold tags_left. by rewrite reverse_app, omap_app. Qed.

Lemma put_back_app a b t : put_back (a ++ b) t = put_back a (put_back b t).
Proof.
  unfold put_back. induction a as [|d a IH]; [done|]. cbn [app find]. by destruct (is_tag_scope d).
Qed.

(** [r] is on the way from [r0]: it has left the entries [es]. *)
Record on_way (r0 : urun) (es : list UCleanupEntry) (r : urun) : Prop := {
  o_live : walking r;
  o_frames : exists n, x_frames (r_x r) = take n (x_frames (r_x r0));
  o_unwind : x_unwind (r_x r) = x_unwind (r_x r0);
  o_transfer : x_transfer (r_x r) = x_transfer (r_x r0);
  o_tag : x_tag (r_x r) = put_back es (x_tag (r_x r0));
  o_fires : fires (if decide (x_unwind (r_x r0) = UUNWIND_FATAL) then [] else tags_left es) (r_w r0) (r_w r) }.

Lemma on_way_refl r : walking r -> on_way r [] r.
Proof. intros Hl. split; try done; [exists (length (x_frames (r_x r))); by rewrite take_ge by lia|]. case_decide; constructor. Qed.

Lemma on_way_trans r0 es r1 c r2 : on_way r0 c r1 -> on_way r1 es r2 -> on_way r0 (es ++ c) r2.
Proof.
  intros [_ [n Hn] Hu Hv Ht Hf] [Hl [m Hm] Hu2 Hv2 Ht2 Hf2]. split; try congruence.
  - rewrite Hm, Hn, take_take. by eexists.
  - by rewrite Ht2, Ht, put_back_app.
  - rewrite Hu in Hf2. rewrite tags_left_app. case_decide; [exact (fires_app [] [] _ _ _ Hf Hf2)|]. by eapply fires_app.
Qed.

Lemma live_step r r' : walking r -> goes r r' -> walking r'.
Proof. intros Hl Hg. destruct (walk_step_ok r Hl) as (o & r2 & E & H1 & H2 & H3). unfold goes in Hg. rewrite E in Hg. injection Hg as -> ->. split; [done|]. split; [done|]. apply H3. Qed.

(** These unwinds leave frames behind; a return and a jump do not. *)
Definition leaves_frames (u : UUnwindKind) : Prop := u = UUNWIND_THROW \/ u = UUNWIND_STOP \/ u = UUNWIND_FATAL.

Lemma frames_bound x : kwf (x_stk x) -> zlen (x_frames x) <= 32768.
Proof. intros Hk. pose proof (w_frames _ (k_swf _ Hk)) as [Hle Hc%table_bound]. unfold x_frames. lia. Qed.

Lemma top_index x f : kwf (x_stk x) -> last (x_frames x) = Some f -> u16 (zlen (x_frames x) - 1) = zlen (x_frames x) - 1 /\ 0 < zlen (x_frames x).
Proof.
  intros Hk Hl. pose proof (frames_bound x Hk). pose proof (last_take _ _ Hl) as Hs.
  assert (0 < zlen (x_frames x)) by (rewrite Hs, zlen_app; change (zlen [f]) with 1; pose proof (zlen_nonneg (take (length (x_frames x) - 1) (x_frames x))); lia).
  rewrite u16_small by lia. done.
Qed.

Lemma own_entry_some x l c fi : x_cleanup x = l ++ [c] -> fi <= cu_frame c -> own_entry fi x = Some c /\ x_cleanup (drop_entry x) = l.
Proof.
  intros Hc Hle. unfold own_entry. rewrite Hc, last_snoc, (proj2 (Z.leb_le _ _) Hle). split; [done|].
  unfold drop_entry, x_cleanup in *. cbn. rewrite Hc, length_app. cbn [length]. replace (length l + 1 - 1)%nat with (length l) by lia. by rewrite take_app_length.
Qed.

Lemma own_entry_none x fi : (forall c, last (x_cleanup x) = Some c -> cu_frame c < fi) -> own_entry fi x = None.
Proof. intros Hc. unfold own_entry. destruct (last _) as [c|]; [|done]. rewrite (proj2 (Z.leb_gt _ _)); [done|]. by apply Hc. Qed.

(** A frame none of whose entries is left goes. *)
Lemma pop_one r f : walking r -> leaves_frames (x_unwind (r_x r)) -> last (x_frames (r_x r)) = Some f ->
  own_entry (u16 (zlen (x_frames (r_x r)) - 1)) (r_x r) = None -> f_is_boundary f = false ->
  exists r', goes r r' /\ on_way r [] r' /\ x_frames (r_x r) = x_frames (r_x r') ++ [f] /\ x_cleanup (r_x r') = x_cleanup (r_x r) /\ r_report r' = r_report r.
Proof.
  intros Hlv Hu Hl Hown Hb. pose proof Hlv as (Hw & [Hk Hj] & Hn).
  destruct (pop_frame_ok _ f Hk Hl Hown) as (s & E & Hk' & _ & _ & Hfr & Hcl & _).
  assert (Hg : goes r (on_x (x_set_stk s) r)).
  { unfold goes, unwind_step. rewrite decide_False by done. rewrite Hl. rewrite bool_decide_false by (destruct Hu as [?|[?|?]]; congruence).
    cbn [andb]. rewrite Hown. unfold walk_frame. destruct (x_unwind (r_x r)); try (by destruct Hu as [?|[?|?]]); rewrite E; cbn [mbind option_bind]; by rewrite Hb. }
  exists (on_x (x_set_stk s) r). split; [done|]. split; [|by repeat split].
  split; try done; [by eapply live_step|exists (length (s_frames s))|case_decide; constructor].
  rewrite Hfr. by rewrite take_app_length.
Qed.

Lemma pop_to n m : forall r, walking r -> leaves_frames (x_unwind (r_x r)) -> length (x_frames (r_x r)) = (n + m)%nat ->
  (forall c, last (x_cleanup (r_x r)) = Some c -> cu_frame c < Z.of_nat n) ->
  (forall i f, (n <= i)%nat -> x_frames (r_x r) !! i = Some f -> f_is_boundary f = false) ->
  exists r', rtc goes r r' /\ on_way r [] r' /\ x_frames (r_x r') = take n (x_frames (r_x r)) /\ x_cleanup (r_x r') = x_cleanup (r_x r) /\ r_report r' = r_report r.
Proof.
  induction m as [|m IH]; intros r Hlv Hu Hlen Hc Hb.
  { exists r. split; [done|]. split; [by apply on_way_refl|]. split; [by rewrite take_ge by lia|]. done. }
  destruct (last (x_frames (r_x r))) as [f|] eqn:Hl; [|apply last_None in Hl; rewrite Hl in Hlen; cbn in Hlen; lia].
  pose proof Hlv as (_ & [Hk _] & _). destruct (top_index _ _ Hk Hl) as [Hti _].
  destruct (pop_one r f Hlv Hu Hl) as (r1 & Hg & Ho & Hf & Hcl & Hr).
  { apply own_entry_none. intros c Hc'. rewrite Hti. specialize (Hc c Hc'). unfold zlen. lia. }
  { apply (Hb (pred (length (x_frames (r_x r))))); [lia|]. by rewrite <- last_lookup. }
  destruct (IH r1) as (r' & Hg' & Ho' & Hf' & Hcl' & Hr'); [apply Ho|by rewrite (o_unwind _ _ _ Ho)|rewrite Hf, length_app in Hlen; cbn [length] in Hlen; lia|by rewrite Hcl| |].
  { intros i g Hi Hg'. apply (Hb i); [done|]. rewrite Hf. by apply lookup_app_l_Some. }
  assert (Hle : (n <= length (x_frames (r_x r1)))%nat) by (rewrite Hf, length_app in Hlen; cbn [length] in Hlen; lia).
  exists r'. split; [by eapply rtc_l|]. split; [exact (on_way_trans r [] r1 [] r' Ho Ho')|]. split; [|by rewrite Hcl', Hcl, Hr', Hr].
  rewrite Hf', Hf. by rewrite take_app_le by lia.
Qed.

(** An entry of the top frame that does not take the unwind is left. *)
Lemma cross_entry r l c : quiet -> walking r -> x_unwind (r_x r) <> UUNWIND_JUMP -> x_cleanup (r_x r) = l ++ [c] ->
  zlen (x_frames (r_x r)) - 1 <= cu_frame c -> x_frames (r_x r) <> [] -> takes (x_unwind (r_x r)) (x_transfer (r_x r)) c = false ->
  exists r', goes r r' /\ on_way r [c] r' /\ x_frames (r_x r') = x_frames (r_x r) /\ x_cleanup (r_x r') = l /\ r_report r' = r_report r.
Proof.
  intros Hq Hlv Hu Hcl Hown Hne Ht. pose proof Hlv as (Hw & [Hk Hj] & Hn).
  destruct (last (x_frames (r_x r))) as [f|] eqn:Hl; [|by apply last_None in Hl]. destruct (top_index _ _ Hk Hl) as [Hti _].
  rewrite <- Hti in Hown. destruct (own_entry_some _ _ _ _ Hcl Hown) as [Ho Hd]. destruct (drop_popped r f c Hlv Hl Ho) as [Hp _].
  set (r1 := on_x drop_entry r) in *.
  assert (Hcross : exists r', walk_entry c r1 = again r' /\ x_frames (r_x r') = x_frames (r_x r) /\ x_cleanup (r_x r') = l /\ r_report r' = r_report r /\
    x_unwind (r_x r') = x_unwind (r_x r) /\ x_transfer (r_x r') = x_transfer (r_x r) /\ x_tag (r_x r') = put_back [c] (x_tag (r_x r)) /\
    fires (if decide (x_unwind (r_x r) = UUNWIND_FATAL) then [] else tags_left [c]) (r_w r) (r_w r')).
  { unfold walk_entry, put_back, tags_left, takes in *. cbn [reverse rev_append find omap list_omap]. change (x_unwind (r_x r1)) with (x_unwind (r_x r)).
    destruct (decide (x_unwind (r_x r) = UUNWIND_FATAL)) as [Hf|Hf].
    { rewrite Hf. destruct (is_tag_scope c); eexists; (split; [done|]); (repeat (split; [done|]); constructor). }
    assert (Hsc : exists r', walk_scopes c r1 = again r' /\ x_frames (r_x r') = x_frames (r_x r) /\ x_cleanup (r_x r') = l /\ r_report r' = r_report r /\
      x_unwind (r_x r') = x_unwind (r_x r) /\ x_transfer (r_x r') = x_transfer (r_x r) /\ x_tag (r_x r') = (if is_tag_scope c then ambient c else x_tag (r_x r)) /\
      fires (match (if is_tag_scope c then cu_tag c else None) with Some y => [y] | None => [] end) (r_w r) (r_w r')).
    { unfold walk_scopes. destruct (is_tag_scope c) eqn:Etag.
      - unfold leave_scope. destruct (cu_tag c) as [t|] eqn:Ect.
        + destruct (fire_crosses t (r_w r1) (x_set_tag (ambient c) (r_x r1)) Hw (k_swf _ (proj1 (p_wf _ _ Hp)))) as (w' & x' & E & Hw' & Hc).
          destruct (Hq _ _ _ _ _ Hw E) as [Hq1 Hq2]. rewrite E. cbn [mbind option_bind r_x]. apply bool_decide_eq_false in Ht.
          rewrite decide_False by (rewrite Hq1, Hq2; intros (? & _ & ?); by apply Ht).
          eexists. split; [done|]. split; [exact (c_frames _ _ Hc)|]. split; [rewrite <- Hd; exact (c_cleanup _ _ Hc)|]. split; [done|].
          split; [done|]. split; [done|]. split; [exact (c_tag _ _ Hc)|]. econstructor; [exact E|constructor].
        + cbn [mbind option_bind]. rewrite decide_False by (intros (_ & ? & _); done). eexists. split; [done|]. repeat (split; [done|]). constructor.
      - destruct (has_flag UCLEAN_F_RUNNING c); [eexists; split; [done|]; repeat (split; [done|]); constructor|]. cbn [negb andb] in Ht.
        apply orb_false_elim in Ht as [Hfin Hcat]. rewrite Hfin, andb_false_r. change (x_unwind (r_x r1)) with (x_unwind (r_x r)). rewrite Hcat.
        eexists. split; [done|]. repeat (split; [done|]). constructor. }
    destruct (x_unwind (r_x r)); try done; destruct Hsc as (r' & H1 & H2 & H3 & H4 & H5 & H6 & H7 & H8); exists r';
      (split; [done|]; revert H7 H8; destruct (is_tag_scope c); intros H7 H8; by split_and!). }
  destruct Hcross as (r' & E & Hf & Hc & Hr & Hu' & Hv' & Htag & Hfire).
  assert (Hg : goes r r').
  { unfold goes, unwind_step. rewrite decide_False by done. rewrite Hl. rewrite bool_decide_false by done. cbn [andb]. rewrite Ho. fold r1. exact E. }
  exists r'. split; [done|]. split; [|done]. split; try done; [by eapply live_step|]. exists (length (x_frames (r_x r))). by rewrite Hf, take_ge by lia.
Qed.

Lemma sorted_above (l : list UCleanupEntry) e a c : StronglySorted (fun a b => cu_frame a <= cu_frame b) (l ++ e :: a) -> c ∈ a -> cu_frame e <= cu_frame c.
Proof.
  induction l as [|d l IH]; cbn [app]; intros [Hs Hf]%StronglySorted_inv Hc; [|auto]. rewrite Forall_forall in Hf. by apply Hf.
Qed.

Lemma entry_index fs c : entry_ok fs c -> exists j, cu_frame c = Z.of_nat j /\ (j < length fs)%nat.
Proof. intros [(f & Hf & _) _ _]. pose proof (read_Some_lt _ _ _ Hf). exists (Z.to_nat (cu_frame c)). lia. Qed.

(** Entries that do not take the unwind are left one by one, with the frames between them. *)
Lemma cross_all (k : nat) above : forall low r, quiet -> walking r -> leaves_frames (x_unwind (r_x r)) -> x_cleanup (r_x r) = low ++ above ->
  (forall c, c ∈ above -> Z.of_nat k <= cu_frame c /\ takes (x_unwind (r_x r)) (x_transfer (r_x r)) c = false) ->
  (forall i f, (k < i)%nat -> x_frames (r_x r) !! i = Some f -> f_is_boundary f = false) ->
  exists r', rtc goes r r' /\ on_way r above r' /\ x_cleanup (r_x r') = low /\ r_report r' = r_report r /\
    ((k < length (x_frames (r_x r)))%nat -> (k < length (x_frames (r_x r')))%nat).
Proof.
  induction above as [|c a IH] using rev_ind; intros low r Hq Hlv Hu Hcl Ha Hb.
  { exists r. split; [done|]. split; [by apply on_way_refl|]. by rewrite Hcl, app_nil_r. }
  rewrite (assoc_L (++)) in Hcl. destruct (Ha c) as [Hkc Htc]; [apply elem_of_app; right; by left|].
  pose proof Hlv as (_ & [Hk _] & _).
  destruct (entry_index (x_frames (r_x r)) c) as (j & Hj & Hjl).
  { pose proof (k_entries _ Hk) as He. fold (x_cleanup (r_x r)) in He. rewrite Hcl in He. apply Forall_app in He as [_ He]. by rewrite Forall_singleton in He. }
  destruct (pop_to (S j) (length (x_frames (r_x r)) - S j) r Hlv Hu) as (r1 & Hg1 & Ho1 & Hf1 & Hc1 & Hr1); [lia| | |].
  { rewrite Hcl. intros d Hd. rewrite last_snoc in Hd. injection Hd as <-. lia. }
  { intros i f Hi. apply Hb. lia. }
  assert (Hlen1 : length (x_frames (r_x r1)) = S j) by (rewrite Hf1, length_take; lia).
  destruct (cross_entry r1 (low ++ a) c Hq (o_live _ _ _ Ho1)) as (r2 & Hg2 & Ho2 & Hf2 & Hc2 & Hr2).
  { rewrite (o_unwind _ _ _ Ho1). intros E. rewrite E in Hu. by destruct Hu as [?|[?|?]]. }
  { by rewrite Hc1. } { unfold zlen. lia. } { intros E. rewrite E in Hlen1. done. }
  { by rewrite (o_unwind _ _ _ Ho1), (o_transfer _ _ _ Ho1). }
  pose proof (on_way_trans r [c] r1 [] r2 Ho1 Ho2) as Ho12. rewrite app_nil_r in Ho12.
  destruct (IH low r2 Hq (o_live _ _ _ Ho12)) as (r' & Hg' & Ho' & Hc' & Hr' & Hlen').
  - by rewrite (o_unwind _ _ _ Ho12).
  - done.
  - intros d Hd. rewrite (o_unwind _ _ _ Ho12), (o_transfer _ _ _ Ho12). apply Ha. apply elem_of_app. by left.
  - intros i f Hi. rewrite Hf2, Hf1. intros [Hf _]%lookup_take_Some. by eapply Hb.
  - exists r'. split; [etrans; [exact Hg1|]; by eapply rtc_l|]. split; [exact (on_way_trans r a r2 [c] r' Ho12 Ho')|].
    split; [done|]. split; [by rewrite Hr', Hr2, Hr1|]. intros _. apply Hlen'. rewrite Hf2, Hlen1. lia.
Qed.

(** Where an entry that takes the unwind resumes the strand, what it leaves on the stack, and what the handler finds. *)
Definition starts_finally (e : UCleanupEntry) : bool := negb (is_tag_scope e) && has_flag UCLEAN_F_HAS_FINALLY e.
Definition landing_pc (e : UCleanupEntry) : Z := if is_tag_scope e then cu_onleave_pc e else cu_handler_pc e.
Definition marker (u : UUnwindKind) (v : UValue) (e : UCleanupEntry) : list UCleanupEntry :=
  if starts_finally e then [running u v (cu_onleave_pc e) e] else [].
Definition handed_value (v : UValue) (e : UCleanupEntry) : UValue := if is_tag_scope e || has_flag UCLEAN_F_HAS_FINALLY e then UV_NIL else v.

(** [x'] is [x] with its frames cut to the first [S k], resumed at [pc]. *)
Definition resumed (k : nat) (pc : Z) (x x' : xstrand) : Prop :=
  exists f, x_frames x !! k = Some f /\ x_frames x' = take k (x_frames x) ++ [at_pc pc f] /\ x_unwind x' = UUNWIND_NONE.

Lemma moved_top pc x s : moved pc (x_stk x) s -> exists f, x_frames x !! (length (x_frames x) - 1)%nat = Some f /\
  s_frames s = take (length (x_frames x) - 1) (x_frames x) ++ [at_pc pc f] /\ s_cleanup s = x_cleanup x.
Proof.
  intros (l & f & El & ->). exists f. unfold x_frames. rewrite El, length_app. cbn [length]. replace (length l + 1 - 1)%nat with (length l) by lia.
  rewrite take_app_length, lookup_app_r, Nat.sub_diag by lia. done.
Qed.

Lemma take_entry r l e k : quiet -> walking r -> x_unwind (r_x r) <> UUNWIND_JUMP -> x_cleanup (r_x r) = l ++ [e] ->
  cu_frame e = Z.of_nat k -> length (x_frames (r_x r)) = S k -> takes (x_unwind (r_x r)) (x_transfer (r_x r)) e = true ->
  exists r' w, unwind_step r = Some (Some 0, r') /\ resumed k (landing_pc e) (r_x r) (r_x r') /\
    x_cleanup (r_x r') = l ++ marker (x_unwind (r_x r)) (x_transfer (r_x r)) e /\ x_transfer (r_x r') = handed_value (x_transfer (r_x r)) e /\
    x_tag (r_x r') = put_back [e] (x_tag (r_x r)) /\ fires (tags_left [e]) (r_w r) w /\ r_w r' = (if starts_finally e then (grant w).2 else w).
Proof.
  intros Hq Hlv Hu Hcl He Hlen Ht. pose proof Hlv as (Hw & [Hk Hj] & Hn).
  destruct (last (x_frames (r_x r))) as [f|] eqn:Hl; [|apply last_None in Hl; by rewrite Hl in Hlen]. destruct (top_index _ _ Hk Hl) as [Hti _].
  destruct (own_entry_some (r_x r) l e (u16 (zlen (x_frames (r_x r)) - 1)) Hcl) as [Ho Hd]; [rewrite Hti; unfold zlen; lia|].
  destruct (drop_popped r f e Hlv Hl Ho) as [Hp _]. unfold unwind_step. rewrite decide_False by done. rewrite Hl, bool_decide_false by done. cbn [andb]. rewrite Ho.
  unfold walk_entry, takes in *. destruct (decide (x_unwind (r_x r) = UUNWIND_FATAL)) as [|Hnf]; [done|].
  assert (Hmain : exists r' w, walk_scopes e (on_x drop_entry r) = Some (Some 0, r') /\ resumed k (landing_pc e) (r_x r) (r_x r') /\
    x_cleanup (r_x r') = l ++ marker (x_unwind (r_x r)) (x_transfer (r_x r)) e /\ x_transfer (r_x r') = handed_value (x_transfer (r_x r)) e /\
    x_tag (r_x r') = put_back [e] (x_tag (r_x r)) /\ fires (tags_left [e]) (r_w r) w /\ r_w r' = (if starts_finally e then (grant w).2 else w)).
  2:{ change (x_unwind (r_x (on_x drop_entry r))) with (x_unwind (r_x r)). by destruct (x_unwind (r_x r)). }
  set (r1 := on_x drop_entry r) in *. unfold walk_scopes, marker, handed_value, put_back, tags_left, landing_pc, starts_finally.
  cbn [reverse rev_append omap list_omap find]. assert (Hk1 : (length (x_frames (r_x r)) - 1)%nat = k) by lia.
  destruct (is_tag_scope e) eqn:Etag; cbn [negb andb orb] in *.
  - apply bool_decide_eq_true in Ht as [Hst Htag]. destruct (cu_tag e) as [t|] eqn:Ect; [|done]. unfold leave_scope. rewrite Ect.
    destruct (fire_crosses t (r_w r1) (x_set_tag (ambient e) (r_x r1)) Hw (k_swf _ (proj1 (p_wf _ _ Hp)))) as (w' & x' & E & Hw' & Hc).
    destruct (Hq _ _ _ _ _ Hw E) as [Hq1 Hq2]. rewrite E. cbn [mbind option_bind r_x].
    rewrite decide_True by (split_and!; [by rewrite Hq1|done|rewrite Hq2; exact Htag]).
    assert (Hcl' : x_cleanup x' = l) by (rewrite <- Hd; exact (c_cleanup _ _ Hc)).
    assert (Hfr' : x_frames x' = x_frames (r_x r)) by exact (c_frames _ _ Hc).
    destruct (set_pc_spec (cu_onleave_pc e) (x_pending UUNWIND_NONE UV_NIL x') f) as (s & -> & Hm & _).
    { eapply (crossed_kwf _ _ Hc). apply (proj1 (p_wf _ _ Hp)). } { change (last (x_frames x') = Some f). by rewrite Hfr'. } { by apply (own_entry_frame (r_x r) f e), Hp. }
    cbn [mbind option_bind ret_rc]. destruct (moved_top _ _ _ Hm) as (g & Hg & Hfs & Hcs). change (x_frames (x_pending _ _ x')) with (x_frames x') in Hg, Hfs.
    rewrite Hfr', Hk1 in Hg, Hfs. eexists _, w'. split; [done|]. split; [exists g; by split_and!|]. split; [by rewrite app_nil_r, <- Hcl'|].
    split; [done|]. split; [exact (c_tag _ _ Hc)|]. split; [|done]. econstructor; [exact E|constructor].
  - destruct (has_flag UCLEAN_F_RUNNING e); [done|]. cbn [negb andb] in Ht. rewrite (e_flags _ _ (p_entry _ _ Hp) Etag).
    destruct (has_flag UCLEAN_F_HAS_FINALLY e) eqn:Efin; cbn [orb] in *.
    + destruct (start_finally_ok (x_unwind (r_x r1)) (x_transfer (r_x r1)) (cu_onleave_pc e) e r1 (fun x => x) Hp) as (r' & -> & _ & Hw' & Hc' & s & Hm & Hx);
        [intros E; by destruct Hu|].
      destruct (moved_top _ (x_set_stk (set_cleanup _ _ _) (r_x r1)) _ Hm) as (g & Hg & Hfs & _).
      change (x_frames (x_set_stk _ (r_x r1))) with (x_frames (r_x r)) in Hg, Hfs. rewrite Hk1 in Hg, Hfs.
      exists r', (r_w r). split; [done|]. rewrite Hx. split; [exists g; by split_and!|]. split; [by rewrite <- Hx, Hc', <- Hd|].
      split; [done|]. split; [done|]. split; [constructor|exact Hw'].
    + cbn [orb] in Ht. change (x_unwind (r_x r1)) with (x_unwind (r_x r)). rewrite Ht.
      destruct (land_ok (cu_handler_pc e) r1 e Hp (x_transfer (r_x r1))) as (r' & E & _ & Hw' & s & Hm & Hx).
      destruct (moved_top _ _ _ Hm) as (g & Hg & Hfs & Hcs). change (x_frames (r_x r1)) with (x_frames (r_x r)) in Hg, Hfs. rewrite Hk1 in Hg, Hfs.
      exists r', (r_w r). split; [exact E|]. rewrite Hx. split; [exists g; by split_and!|]. split; [rewrite app_nil_r, <- Hd; exact Hcs|].
      split; [done|]. split; [done|]. split; [constructor|exact Hw'].
Qed.

(** *** Jumps and returns, which stay in their frame *)

(** A jump starts no body at this entry. *)
Definition jump_passes (c : UCleanupEntry) : bool := is_tag_scope c || has_flag UCLEAN_F_RUNNING c || negb (has_flag UCLEAN_F_HAS_FINALLY c).

Lemma tags_left_one c : tags_left [c] = match (if is_tag_scope c then cu_tag c else None) with Some t => [t] | None => [] end.
Proof. done. Qed.

Lemma cross_jump r l c : quiet -> walking r -> x_unwind (r_x r) = UUNWIND_JUMP -> 1 <= x_jump_depth (r_x r) <= 255 -> x_cleanup (r_x r) = l ++ [c] ->
  zlen (x_frames (r_x r)) - 1 <= cu_frame c -> jump_passes c = true ->
  exists r', goes r r' /\ on_way r [c] r' /\ x_frames (r_x r') = x_frames (r_x r) /\ x_cleanup (r_x r') = l /\ x_jump_depth (r_x r') = x_jump_depth (r_x r) - 1.
Proof.
  intros Hq Hlv Hu Hd Hcl Hown Hpass. pose proof Hlv as (Hw & [Hk Hj] & Hn). destruct (Hj Hu) as [_ (f & Hl & _)].
  destruct (top_index _ _ Hk Hl) as [Hti _]. rewrite <- Hti in Hown. destruct (own_entry_some _ _ _ _ Hcl Hown) as [Ho Hdr].
  destruct (drop_popped r f c Hlv Hl Ho) as [Hp _]. set (r1 := on_x drop_entry r) in *.
  assert (Hcross : exists r', walk_jump c r1 = again r' /\ x_frames (r_x r') = x_frames (r_x r) /\ x_cleanup (r_x r') = l /\
    x_jump_depth (r_x r') = x_jump_depth (r_x r) - 1 /\ x_unwind (r_x r') = UUNWIND_JUMP /\ x_transfer (r_x r') = x_transfer (r_x r) /\
    x_tag (r_x r') = put_back [c] (x_tag (r_x r)) /\ fires (tags_left [c]) (r_w r) (r_w r')).
  { assert (Hdec : forall x, x_jump_depth x = x_jump_depth (r_x r) -> x_jump_depth (x_decr_depth x) = x_jump_depth (r_x r) - 1).
    { intros x E. unfold x_decr_depth. cbn. rewrite E. apply u8_small. lia. }
    rewrite tags_left_one. unfold walk_jump, put_back, jump_passes in *. cbn [find]. destruct (is_tag_scope c) eqn:Etag.
    - unfold leave_scope. destruct (cu_tag c) as [t|] eqn:Ect.
      + destruct (fire_crosses t (r_w r1) (x_set_tag (ambient c) (r_x r1)) Hw (k_swf _ (proj1 (p_wf _ _ Hp)))) as (w' & x' & E & Hw' & Hc).
        destruct (Hq _ _ _ _ _ Hw E) as [Hq1 Hq2]. rewrite E. cbn [mbind option_bind]. eexists. split; [done|].
        split; [exact (c_frames _ _ Hc)|]. split; [rewrite <- Hdr; exact (c_cleanup _ _ Hc)|]. split; [apply Hdec; exact (c_depth _ _ Hc)|].
        split; [rewrite <- Hu; exact Hq1|]. split; [exact Hq2|]. split; [exact (c_tag _ _ Hc)|]. econstructor; [exact E|constructor].
      + cbn [mbind option_bind]. eexists. split; [done|]. do 2 (split; [done|]). split; [by apply Hdec|]. do 3 (split; [done|]). constructor.
    - cbn [orb] in Hpass. assert (negb (has_flag UCLEAN_F_RUNNING c) && has_flag UCLEAN_F_HAS_FINALLY c = false) as ->.
      { by destruct (has_flag UCLEAN_F_RUNNING c), (has_flag UCLEAN_F_HAS_FINALLY c). }
      eexists. split; [done|]. do 2 (split; [done|]). split; [by apply Hdec|]. do 3 (split; [done|]). constructor. }
  destruct Hcross as (r' & E & Hf & Hc & Hdep & Hu' & Hv' & Htag & Hfire).
  assert (Hg : goes r r').
  { unfold goes, unwind_step. rewrite decide_False by done. rewrite Hl, bool_decide_true by done. rewrite (proj2 (Z.eqb_neq _ _)) by lia. cbn [andb].
    rewrite Ho. fold r1. unfold walk_entry. change (x_unwind (r_x r1)) with (x_unwind (r_x r)). rewrite Hu. exact E. }
  exists r'. split; [done|]. split; [|done]. split; try done; [by eapply live_step| | |].
  - exists (length (x_frames (r_x r))). by rewrite Hf, take_ge by lia.
  - by rewrite Hu.
  - rewrite Hu. by rewrite decide_False.
Qed.

(** The entries [above] belong to the top frame. *)
Definition of_top_frame (x : xstrand) (above : list UCleanupEntry) : Prop := forall c, c ∈ above -> zlen (x_frames x) - 1 <= cu_frame c.

Lemma cross_jumps above : forall low r, quiet -> walking r -> x_unwind (r_x r) = UUNWIND_JUMP -> zlen above <= x_jump_depth (r_x r) <= 255 ->
  x_cleanup (r_x r) = low ++ above -> of_top_frame (r_x r) above -> (forall c, c ∈ above -> jump_passes c = true) ->
  exists r', rtc goes r r' /\ on_way r above r' /\ x_frames (r_x r') = x_frames (r_x r) /\ x_cleanup (r_x r') = low /\
    x_jump_depth (r_x r') = x_jump_depth (r_x r) - zlen above.
Proof.
  induction above as [|c a IH] using rev_ind; intros low r Hq Hlv Hu Hd Hcl Hown Hp.
  { exists r. split; [done|]. split; [by apply on_way_refl|]. split; [done|]. split; [by rewrite Hcl, app_nil_r|]. unfold zlen. cbn. lia. }
  rewrite (assoc_L (++)) in Hcl. rewrite zlen_app in *. change (zlen [c]) with 1 in *. pose proof (zlen_nonneg a).
  assert (Hin : c ∈ a ++ [c]) by (apply elem_of_app; right; by left).
  destruct (cross_jump r (low ++ a) c Hq Hlv Hu ltac:(lia) Hcl (Hown c Hin) (Hp c Hin)) as (r1 & Hg1 & Ho1 & Hf1 & Hc1 & Hd1).
  destruct (IH low r1 Hq (o_live _ _ _ Ho1)) as (r' & Hg' & Ho' & Hf' & Hc' & Hd').
  - by rewrite (o_unwind _ _ _ Ho1).
  - lia.
  - done.
  - intros d Hd2. rewrite Hf1. apply Hown, elem_of_app. by left.
  - intros d Hd2. apply Hp, elem_of_app. by left.
  - exists r'. split; [by eapply rtc_l|]. split; [exact (on_way_trans r a r1 [c] r' Ho1 Ho')|]. by split_and!; [rewrite Hf'| |lia].
Qed.

Lemma cross_own above : forall low r, quiet -> walking r -> x_unwind (r_x r) <> UUNWIND_JUMP -> x_frames (r_x r) <> [] ->
  x_cleanup (r_x r) = low ++ above -> of_top_frame (r_x r) above -> (forall c, c ∈ above -> takes (x_unwind (r_x r)) (x_transfer (r_x r)) c = false) ->
  exists r', rtc goes r r' /\ on_way r above r' /\ x_frames (r_x r') = x_frames (r_x r) /\ x_cleanup (r_x r') = low.
Proof.
  induction above as [|c a IH] using rev_ind; intros low r Hq Hlv Hu Hne Hcl Hown Hp.
  { exists r. split; [done|]. split; [by apply on_way_refl|]. split; [done|]. by rewrite Hcl, app_nil_r. }
  rewrite (assoc_L (++)) in Hcl. assert (Hin : c ∈ a ++ [c]) by (apply elem_of_app; right; by left).
  destruct (cross_entry r (low ++ a) c Hq Hlv Hu Hcl (Hown c Hin) Hne (Hp c Hin)) as (r1 & Hg1 & Ho1 & Hf1 & Hc1 & _).
  destruct (IH low r1 Hq (o_live _ _ _ Ho1)) as (r' & Hg' & Ho' & Hf' & Hc').
  - by rewrite (o_unwind _ _ _ Ho1).
  - by rewrite Hf1.
  - done.
  - intros d Hd2. rewrite Hf1. apply Hown, elem_of_app. by left.
  - intros d Hd2. rewrite (o_unwind _ _ _ Ho1), (o_transfer _ _ _ Ho1). apply Hp, elem_of_app. by left.
  - exists r'. split; [by eapply rtc_l|]. split; [exact (on_way_trans r a r1 [c] r' Ho1 Ho')|]. by rewrite Hf'.
Qed.

(** *** The last iteration of an unwind nothing takes *)

Lemma report_spec r : leaves_frames (x_unwind (r_x r)) -> exists rep code, uexec_report_escape r = MkRun (r_w r) (r_x r) rep code /\
  (rep, code) = if decide (x_unwind (r_x r) = UUNWIND_STOP) then (RCleared, URBI_OK) else (RRendered (x_transfer (r_x r)), URBI_ERR_UNCAUGHT_THROW).
Proof.
  intros Hu. unfold uexec_report_escape. destruct Hu as [-> |[-> | ->]]; do 2 eexists; by split.
Qed.

Lemma cross_boundary r f : walking r -> leaves_frames (x_unwind (r_x r)) -> last (x_frames (r_x r)) = Some f ->
  own_entry (u16 (zlen (x_frames (r_x r)) - 1)) (r_x r) = None -> f_is_boundary f = true ->
  exists s rep code, unwind_step r = Some (Some 1, MkRun (r_w r) (x_set_state USTRAND_RUNNING (x_set_stk s (r_x r))) rep code) /\
    x_frames (r_x r) = s_frames s ++ [f] /\ s_cleanup s = x_cleanup (r_x r) /\
    (rep, code) = if decide (x_unwind (r_x r) = UUNWIND_STOP) then (RCleared, URBI_OK) else (RRendered (x_transfer (r_x r)), URBI_ERR_UNCAUGHT_THROW).
Proof.
  intros (Hw & [Hk Hj] & Hn) Hu Hl Hown Hb. destruct (pop_frame_ok _ f Hk Hl Hown) as (s & E & _ & _ & _ & Hfr & Hcl & _).
  destruct (report_spec (on_x (x_set_stk s) r) Hu) as (rep & code & Er & Hrep). exists s, rep, code. split; [|by split_and!].
  unfold unwind_step. rewrite decide_False by done. rewrite Hl, bool_decide_false by (destruct Hu as [?|[?|?]]; congruence). cbn [andb].
  rewrite Hown. unfold walk_frame. destruct (x_unwind (r_x r)); try (by destruct Hu as [?|[?|?]]); rewrite E; cbn [mbind option_bind]; rewrite Hb, Er; done.
Qed.

Lemma strand_dies r : walking r -> leaves_frames (x_unwind (r_x r)) -> x_frames (r_x r) = [] ->
  exists s rep code, unwind_step r = Some (Some 1, MkRun (r_w r) (x_set_stk s (x_set_state USTRAND_DEAD (r_x r))) rep code) /\
    s_frames s = [] /\ s_cleanup s = x_cleanup (r_x r) /\
    (rep, code) = if decide (x_unwind (r_x r) = UUNWIND_STOP) then (RCleared, URBI_OK) else (RRendered (x_transfer (r_x r)), URBI_ERR_UNCAUGHT_THROW).
Proof.
  intros (Hw & [Hk Hj] & Hn) Hu Hf. destruct (close_upvals_spec 0 _ (k_swf _ Hk)) as (s & E & _ & HC). pose proof (cl_only _ _ _ _ HC) as Ho.
  destruct (report_spec r Hu) as (rep & code & Er & Hrep). exists s, rep, code. split; [|split; [rewrite Ho; exact Hf|by split; [rewrite Ho|]]].
  unfold unwind_step. rewrite decide_False by done. rewrite Hf, Er. cbn [last on_x r_x x_set_state x_stk]. by rewrite E.
Qed.

(** ** The theorems *)

(** C20 the walker always ends, within two iterations per cleanup entry and
    frame and two more, without undefined behaviour and whatever the leave
    events do, as long as their subscribers at most stop or gate the strand:
    with nothing pending it does nothing; otherwise it leaves a well-formed
    strand with nothing pending in its top frame (0), or a dead strand without
    frames, or control with the caller of a synchronous call (1). *)
Theorem unwind_ends r : world_ok (r_w r) -> xwf (r_x r) ->
  exists rc r', uexec_unwind r = Some (rc, r') /\ world_ok (r_w r') /\ xwf (r_x r') /\
    (x_unwind (r_x r) = UUNWIND_NONE -> rc = 0 /\ r' = r) /\ (x_unwind (r_x r) <> UUNWIND_NONE -> ended rc (r_x r')).
Proof.
  intros Hw Hx. destruct (decide (x_unwind (r_x r) = UUNWIND_NONE)) as [Hn|Hn].
  - exists 0, r. split; [|by split_and!]. unfold uexec_unwind, unwind_fuel. replace (2 * _ + 2)%nat with (S (2 * (length (x_cleanup (r_x r)) + length (x_frames (r_x r))) + 1)) by lia.
    cbn [unwind_loop]. unfold unwind_step. by rewrite decide_True.
  - destruct (unwind_total r) as (rc & r' & E & H1 & H2 & H3); [by split_and!|]. exists rc, r'. by split_and!.
Qed.

(** C17 a throw reaches its innermost handler and a stop its scope. Provided
    that running the subscribers of a leave event never replaces the unwind
    or the value it carries: when no entry above [e] takes the unwind and
    [e] does, with no synchronous call boundary in between, the frames above
    the one of [e] go, the tag scopes crossed fire their leave events,
    innermost first, the ambient tag becomes what the outermost of them
    displaced, and the strand resumes in the frame of [e] at its catch body,
    its finally body or past the stopped scope; a catch finds the value
    thrown, a finally leaves a marker that holds the suspended unwind in
    place of the entry, and the entries below are untouched. *)
Theorem unwind_lands r below e above k : quiet -> world_ok (r_w r) -> xwf (r_x r) -> leaves_frames (x_unwind (r_x r)) ->
  x_cleanup (r_x r) = below ++ e :: above -> cu_frame e = Z.of_nat k ->
  (forall c, c ∈ above -> takes (x_unwind (r_x r)) (x_transfer (r_x r)) c = false) -> takes (x_unwind (r_x r)) (x_transfer (r_x r)) e = true ->
  (forall i f, (k < i)%nat -> x_frames (r_x r) !! i = Some f -> f_is_boundary f = false) ->
  exists r' w, uexec_unwind r = Some (0, r') /\ resumed k (landing_pc e) (r_x r) (r_x r') /\
    x_cleanup (r_x r') = below ++ marker (x_unwind (r_x r)) (x_transfer (r_x r)) e /\ x_transfer (r_x r') = handed_value (x_transfer (r_x r)) e /\
    x_tag (r_x r') = put_back (e :: above) (x_tag (r_x r)) /\
    fires (tags_left (e :: above)) (r_w r) w /\ r_w r' = (if starts_finally e then (grant w).2 else w).
Proof.
  intros Hq Hw Hx Hu Hcl He Ha Ht Hb. assert (Hnf : x_unwind (r_x r) <> UUNWIND_FATAL).
  { unfold takes in Ht. by case_decide. }
  assert (Hlv : walking r) by (split_and!; try done; intros E; rewrite E in Hu; by destruct Hu as [?|[?|?]]).
  pose proof (proj1 Hx) as Hk.
  assert (Hin : e ∈ x_cleanup (r_x r)) by (rewrite Hcl; apply elem_of_app; right; by left).
  pose proof (k_entries _ Hk) as Hall. fold (x_frames (r_x r)) (x_cleanup (r_x r)) in Hall. rewrite Forall_forall in Hall.
  destruct (entry_index _ _ (Hall e Hin)) as (j & Hj & Hjl). assert (j = k) as -> by lia.
  destruct (cross_all k above (below ++ [e]) r Hq Hlv Hu) as (r1 & Hg1 & Ho1 & Hc1 & _ & Hlen1); [by rewrite <- (assoc_L (++))| |done|].
  { intros c Hc. split; [|by apply Ha]. rewrite <- He. pose proof (k_sorted _ Hk) as Hs. fold (x_cleanup (r_x r)) in Hs. rewrite Hcl in Hs. by eapply sorted_above. }
  specialize (Hlen1 Hjl). destruct (o_frames _ _ _ Ho1) as [n Hn].
  destruct (pop_to (S k) (length (x_frames (r_x r1)) - S k) r1 (o_live _ _ _ Ho1)) as (r2 & Hg2 & Ho2 & Hf2 & Hc2 & _).
  { by rewrite (o_unwind _ _ _ Ho1). } { lia. } { rewrite Hc1, last_snoc. intros c [= <-]. lia. }
  { intros i f Hi. rewrite Hn. intros [Hf _]%lookup_take_Some. by eapply Hb. }
  assert (Hf : x_frames (r_x r2) = take (S k) (x_frames (r_x r))).
  { rewrite Hf2, Hn, take_take. f_equal. rewrite Hn, length_take in Hlen1. lia. }
  pose proof (on_way_trans r [] r1 above r2 Ho1 Ho2) as [Hl2 _ Hu2 Hv2 Ht2 Hw2]. cbn [app] in Ht2, Hw2. rewrite decide_False in Hw2 by done.
  destruct (take_entry r2 below e k Hq Hl2) as (r' & w & Es & Hres & Hcl' & Hv' & Htag & Hfire & Hw').
  { rewrite Hu2. intros E. rewrite E in Hu. by destruct Hu as [?|[?|?]]. }
  { by rewrite Hc2. } { done. } { rewrite Hf, length_take. lia. } { by rewrite Hu2, Hv2. }
  exists r', w. split; [by eapply goes_then; [exact Hlv|etrans; [exact Hg1|exact Hg2]|]|].
  rewrite Hu2, Hv2 in Hcl'. rewrite Hv2 in Hv'. split; [|split; [done|split; [done|split; [|split; [|done]]]]].
  - destruct Hres as (f & Hlk & Hfr & Hnone). exists f. rewrite Hf in Hlk, Hfr. apply lookup_take_Some in Hlk as [Hlk _]. split; [done|].
    split; [|done]. rewrite Hfr, take_take. do 2 f_equal. lia.
  - rewrite Htag, Ht2. unfold put_back. cbn [find]. by destruct (is_tag_scope e).
  - unfold tags_left in *. rewrite reverse_cons, omap_app. by eapply fires_app.
Qed.

(** C19 what no handler takes escapes, and a chunk-integrity failure runs
    nothing on its way. Provided that running the subscribers of a leave
    event never replaces the unwind or the value it carries: when no entry
    above frame [b] takes the unwind and [b] is the first synchronous call
    boundary below the top, or the bottom frame, every frame from [b] on and
    every one of their entries go; across a boundary the unwind stays
    pending for the caller, at the bottom the strand dies; the error channel
    reports the value of a throw or a failure and nothing for a stop; the
    leave events of the scopes crossed fire, innermost first, except that a
    failure fires none, and only puts the ambient tag back. *)
Theorem unwind_escapes r low above b f : quiet -> world_ok (r_w r) -> xwf (r_x r) -> leaves_frames (x_unwind (r_x r)) ->
  x_cleanup (r_x r) = low ++ above -> (forall c, c ∈ low -> cu_frame c < Z.of_nat b) ->
  (forall c, c ∈ above -> Z.of_nat b <= cu_frame c /\ takes (x_unwind (r_x r)) (x_transfer (r_x r)) c = false) ->
  x_frames (r_x r) !! b = Some f -> (f_is_boundary f = true \/ b = 0%nat) ->
  (forall i f, (b < i)%nat -> x_frames (r_x r) !! i = Some f -> f_is_boundary f = false) ->
  exists r', uexec_unwind r = Some (1, r') /\ x_frames (r_x r') = take b (x_frames (r_x r)) /\ x_cleanup (r_x r') = low /\
    x_unwind (r_x r') = x_unwind (r_x r) /\ x_transfer (r_x r') = x_transfer (r_x r) /\ x_tag (r_x r') = put_back above (x_tag (r_x r)) /\
    x_state (r_x r') = (if f_is_boundary f then USTRAND_RUNNING else USTRAND_DEAD) /\
    (r_report r', r_code r') = (if decide (x_unwind (r_x r) = UUNWIND_STOP) then (RCleared, URBI_OK) else (RRendered (x_transfer (r_x r)), URBI_ERR_UNCAUGHT_THROW)) /\
    fires (if decide (x_unwind (r_x r) = UUNWIND_FATAL) then [] else tags_left above) (r_w r) (r_w r').
Proof.
  intros Hq Hw Hx Hu Hcl Hlow Ha Hbf Hfb Hb.
  assert (Hlv : walking r) by (split_and!; try done; intros E; rewrite E in Hu; by destruct Hu as [?|[?|?]]).
  destruct (cross_all b above low r Hq Hlv Hu Hcl Ha Hb) as (r1 & Hg1 & Ho1 & Hc1 & _ & Hlen1). specialize (Hlen1 ltac:(by eapply lookup_lt_Some)).
  destruct (o_frames _ _ _ Ho1) as [n Hn].
  destruct (pop_to (S b) (length (x_frames (r_x r1)) - S b) r1 (o_live _ _ _ Ho1)) as (r2 & Hg2 & Ho2 & Hf2 & Hc2 & _).
  { by rewrite (o_unwind _ _ _ Ho1). } { lia. }
  { rewrite Hc1. intros c Hc%last_Some_elem_of. specialize (Hlow c Hc). lia. }
  { intros i g Hi. rewrite Hn. intros [Hf _]%lookup_take_Some. by eapply Hb. }
  assert (Hf : x_frames (r_x r2) = take (S b) (x_frames (r_x r))).
  { rewrite Hf2, Hn, take_take. f_equal. rewrite Hn, length_take in Hlen1. lia. }
  assert (Ho : on_way r above r2) by exact (on_way_trans r [] r1 above r2 Ho1 Ho2). destruct Ho as [Hl2 _ Hu2 Hv2 Ht2 Hw2].
  assert (Hlast : x_frames (r_x r2) = take b (x_frames (r_x r)) ++ [f]) by (rewrite Hf; by apply take_S_r).
  assert (Htop : own_entry (u16 (zlen (x_frames (r_x r2)) - 1)) (r_x r2) = None).
  { destruct Hl2 as (_ & [Hk2 _] & _). destruct (top_index (r_x r2) f Hk2) as [-> _]; [by rewrite Hlast, last_snoc|]. apply own_entry_none.
    rewrite Hc2, Hc1. intros c Hc%last_Some_elem_of. specialize (Hlow c Hc). rewrite Hf. unfold zlen. rewrite length_take.
    apply lookup_lt_Some in Hbf. lia. }
  destruct (f_is_boundary f) eqn:Eb.
  - destruct (cross_boundary r2 f Hl2) as (s & rep & code & Es & Hfr & Hcs & Hrep); [by rewrite Hu2|by rewrite Hlast, last_snoc|done|done|].
    eexists. split; [by eapply goes_then; [exact Hlv|etrans; [exact Hg1|exact Hg2]|exact Es]|]. cbn [r_x r_w r_report r_code].
    rewrite Hlast in Hfr. apply app_inj_tail in Hfr as [Hfr _]. change (s_frames s) with (s_frames s) in Hfr. split_and!; try done.
    + change (s_cleanup s = low). by rewrite Hcs, Hc2, Hc1.
    + by rewrite Hrep, Hu2, Hv2.
  - destruct Hfb as [?| ->]; [done|]. cbn [take app] in *.
    destruct (pop_one r2 f Hl2) as (r3 & Hg3 & Ho3 & Hf3 & Hc3 & _); [by rewrite Hu2|by rewrite Hlast|done|done|].
    rewrite Hlast in Hf3. assert (Hf3' : x_frames (r_x r3) = []) by (destruct (x_frames (r_x r3)) as [|? [|]]; done).
    destruct Ho3 as [Hl3 _ Hu3 Hv3 Ht3 Hw3]. destruct (strand_dies r3 Hl3) as (s & rep & code & Es & Hfr & Hcs & Hrep); [by rewrite Hu3, Hu2|done|].
    eexists. split; [eapply goes_then; [exact Hlv|etrans; [exact Hg1|etrans; [exact Hg2|by apply rtc_once]]|exact Es]|]. cbn [r_x r_w r_report r_code].
    split_and!; try done.
    + change (s_cleanup s = low). by rewrite Hcs, Hc3, Hc2, Hc1.
    + change (x_unwind (r_x r3) = x_unwind (r_x r)). by rewrite Hu3.
    + change (x_transfer (r_x r3) = x_transfer (r_x r)). by rewrite Hv3.
    + change (x_tag (r_x r3) = put_back above (x_tag (r_x r))). by rewrite Ht3, Ht2.
    + by rewrite Hrep, Hu3, Hu2, Hv3, Hv2.
    + assert (Hw3' : fires [] (r_w r2) (r_w r3)) by (by destruct (decide (x_unwind (r_x r2) = UUNWIND_FATAL))).
      cbn [r_w]. destruct (decide (x_unwind (r_x r) = UUNWIND_FATAL)); [exact (fires_app [] [] _ _ _ Hw2 Hw3')|].
      rewrite <- (app_nil_r (tags_left above)). by eapply fires_app.
Qed.

Lemma running_top u v n e k x l : x_cleanup x = l ++ [running u v n e] -> cu_frame e = Z.of_nat k -> length (x_frames x) = S k ->
  kwf (x_stk x) -> top_own (has_flag UCLEAN_F_RUNNING) x = Some (running u v n e).
Proof.
  intros Hc He Hl Hk. unfold top_own. rewrite Hc, last_snoc. pose proof (frames_bound x Hk). unfold zlen in *. rewrite u16_small by lia.
  cbn [running cu_frame]. replace (cu_frame e =? Z.of_nat (length (x_frames x)) - 1) with true by (symmetry; apply Z.eqb_eq; lia).
  assert (has_flag UCLEAN_F_RUNNING (running u v n e) = true) as ->; [|done].
  unfold has_flag, running, UCLEAN_F_RUNNING. cbn [cu_flags]. apply negb_true_iff, Z.eqb_neq. intros E.
  assert (Z.testbit (Z.land (Z.lor (cu_flags e) 32) 32) 5 = true) as Ht by (rewrite Z.land_spec, Z.lor_spec; change (Z.testbit 32 5) with true; by rewrite orb_true_r).
  by rewrite E in Ht.
Qed.

(** C18 a finally body suspends the unwind that starts it, exactly: when the
    top entry of the top frame has a finally, the walk stops at its body with
    nothing pending, the entry replaced by a marker; and from any later state
    that has come back to this frame with the marker on top, as the body
    leaves it when it ends, RESUME goes on with the unwind, the value and,
    for a jump, the count that the walk would have gone on with had the entry
    had no body. *)
Theorem finally_then_resume r l e k : world_ok (r_w r) -> xwf (r_x r) -> x_unwind (r_x r) <> UUNWIND_NONE -> x_unwind (r_x r) <> UUNWIND_FATAL ->
  (x_unwind (r_x r) = UUNWIND_JUMP -> 1 <= x_jump_depth (r_x r) <= 255) ->
  x_cleanup (r_x r) = l ++ [e] -> cu_frame e = Z.of_nat k -> length (x_frames (r_x r)) = S k ->
  starts_finally e = true -> has_flag UCLEAN_F_RUNNING e = false ->
  exists r1, uexec_unwind r = Some (0, r1) /\ resumed k (cu_handler_pc e) (r_x r) (r_x r1) /\ x_transfer (r_x r1) = UV_NIL /\
    length (x_cleanup (r_x r1)) = length (x_cleanup (r_x r)) /\
    forall r2, kwf (x_stk (r_x r2)) -> x_cleanup (r_x r2) = x_cleanup (r_x r1) -> length (x_frames (r_x r2)) = S k ->
      op_resume r2 = goto_unwind (on_x (fun x =>
        x_set_depth (if decide (x_unwind (r_x r) = UUNWIND_JUMP) then x_jump_depth (r_x r) - 1 else x_jump_depth x)
          (x_pending (x_unwind (r_x r)) (x_transfer (r_x r)) (drop_entry x))) r2) /\
      x_cleanup (drop_entry (r_x r2)) = l.
Proof.
  intros Hw Hx Hn Hnf Hd Hcl He Hlen Hfin Hrun. assert (Hlv : walking r) by by split_and!. pose proof (proj1 Hx) as Hk.
  destruct (last (x_frames (r_x r))) as [f|] eqn:Hl; [|apply last_None in Hl; by rewrite Hl in Hlen]. destruct (top_index _ _ Hk Hl) as [Hti _].
  destruct (own_entry_some (r_x r) l e (u16 (zlen (x_frames (r_x r)) - 1)) Hcl) as [Ho Hdr]; [rewrite Hti; unfold zlen; lia|].
  destruct (drop_popped r f e Hlv Hl Ho) as [Hp _]. set (r0 := on_x drop_entry r) in *.
  unfold starts_finally in Hfin. apply andb_prop in Hfin as [Htag Hfin]. apply negb_true_iff in Htag.
  set (n := if decide (x_unwind (r_x r) = UUNWIND_JUMP) then u32 (x_jump_depth (r_x r) - 1) else cu_onleave_pc e).
  assert (Hstart : exists skip, unwind_step r = start_finally (running (x_unwind (r_x r)) (x_transfer (r_x r)) n e) e skip r0).
  { unfold unwind_step. rewrite decide_False by done. rewrite Hl.
    assert (bool_decide (x_unwind (r_x r) = UUNWIND_JUMP) && (x_jump_depth (r_x r) =? 0) = false) as ->.
    { destruct (bool_decide _) eqn:Eb; [|done]. apply bool_decide_eq_true in Eb. specialize (Hd Eb). apply Z.eqb_neq. lia. }
    rewrite Ho. fold r0. unfold walk_entry, walk_scopes, walk_jump, n. change (x_unwind (r_x r0)) with (x_unwind (r_x r)).
    change (x_transfer (r_x r0)) with (x_transfer (r_x r)). change (x_jump_depth (r_x r0)) with (x_jump_depth (r_x r)).
    rewrite Htag, Hrun, Hfin. cbn [negb andb]. rewrite andb_true_r. pose proof (e_flags _ _ (p_entry _ _ Hp) Htag) as Hcf. rewrite Hfin, andb_true_r in Hcf. rewrite Hcf.
    destruct (x_unwind (r_x r)); try done; by eexists. }
  destruct Hstart as [skip Hs].
  destruct (start_finally_ok (x_unwind (r_x r)) (x_transfer (r_x r)) n e r0 skip Hp) as (r1 & E & _ & _ & Hc1 & s & Hm & Hx1).
  { intros Eu. apply (proj2 Hx Eu). }
  destruct (moved_top _ (x_set_stk (set_cleanup _ _ _) (r_x r0)) _ Hm) as (g & Hg & Hfs & _).
  change (x_frames (x_set_stk _ (r_x r0))) with (x_frames (r_x r)) in Hg, Hfs. replace (length (x_frames (r_x r)) - 1)%nat with k in Hg, Hfs by lia.
  change (x_cleanup (r_x r0)) with (x_cleanup (drop_entry (r_x r))) in Hc1. rewrite Hdr in Hc1.
  exists r1. split; [apply (goes_then r r); [done|done|by rewrite Hs]|]. split; [rewrite Hx1; exists g; by split_and!|]. split; [by rewrite Hx1|].
  split; [by rewrite Hc1, Hcl, !length_app|]. intros r2 Hk2 Hc2 Hl2. rewrite Hc1 in Hc2.
  split; [|unfold drop_entry, x_cleanup in *; cbn; rewrite Hc2, length_app; cbn [length]; replace (length l + 1 - 1)%nat with (length l) by lia; by rewrite take_app_length].
  unfold op_resume. rewrite (running_top _ _ _ _ k _ l Hc2 He Hl2 Hk2). cbn [running cu_saved_unwind cu_saved cu_onleave_pc].
  rewrite of_ucode_code. replace (ucode (x_unwind (r_x r)) =? ucode UUNWIND_NONE) with false by (by destruct (x_unwind (r_x r))). cbn [mbind option_bind].
  f_equal. subst n. destruct (decide (x_unwind (r_x r) = UUNWIND_JUMP)) as [Ej|Ej].
  - specialize (Hd Ej). rewrite u32_small, u8_small by lia. done.
  - by destruct r2 as [? [] ? ?].
Qed.

(** A jump that has passed [above], one entry of its count each. *)
Record jumped (r : urun) (above low : list UCleanupEntry) (v : UValue) (r1 : urun) : Prop := {
  j_goes : rtc goes r r1;
  j_live : walking r1;
  j_unwind : x_unwind (r_x r1) = UUNWIND_JUMP;
  j_transfer : x_transfer (r_x r1) = v;
  j_tag : x_tag (r_x r1) = put_back above (x_tag (r_x r));
  j_fires : fires (tags_left above) (r_w r) (r_w r1);
  j_frames : x_frames (r_x r1) = x_frames (r_x r);
  j_cleanup : x_cleanup (r_x r1) = low;
  j_depth : x_jump_depth (r_x r1) = x_jump_depth (r_x r) - zlen above }.

Lemma jump_passes_all r low above v : quiet -> walking r -> x_unwind (r_x r) = UUNWIND_JUMP -> x_transfer (r_x r) = v ->
  zlen above <= x_jump_depth (r_x r) <= 255 -> x_cleanup (r_x r) = low ++ above -> of_top_frame (r_x r) above ->
  (forall c, c ∈ above -> jump_passes c = true) -> exists r1, jumped r above low v r1.
Proof.
  intros Hq Hlv Hu Hi Hd Hcl Hown Hp.
  destruct (cross_jumps above low r Hq Hlv Hu Hd Hcl Hown Hp) as (r1 & Hg1 & [Hl1 _ Hu1 Hv1 Ht1 Hw1] & Hf1 & Hc1 & Hd1).
  rewrite Hu in Hu1, Hw1. rewrite decide_False in Hw1 by done. rewrite Hi in Hv1. by exists r1.
Qed.

Lemma jump_top r : walking r -> x_unwind (r_x r) = UUNWIND_JUMP -> exists f, last (x_frames (r_x r)) = Some f /\
  is_Some (cl_max_reg (f_closure f)) /\ u16 (zlen (x_frames (r_x r)) - 1) = zlen (x_frames (r_x r)) - 1.
Proof.
  intros (_ & [Hk Hj] & _) Hu. destruct (Hj Hu) as [_ (f & Hl & Hm)]. destruct (top_index _ _ Hk Hl) as [Hti _]. by exists f.
Qed.

Lemma jump_step r f : walking r -> x_unwind (r_x r) = UUNWIND_JUMP -> last (x_frames (r_x r)) = Some f -> x_jump_depth (r_x r) <> 0 ->
  unwind_step r = match own_entry (u16 (zlen (x_frames (r_x r)) - 1)) (r_x r) with
                | Some top => walk_jump top (on_x drop_entry r)
                | None => again (uexec_fatal (lit "chunk integrity: unwind deeper than this frame" ++ [39] ++ lit "s scopes") r)
                end.
Proof.
  intros (_ & _ & Hn) Hu Hl Hd. unfold unwind_step. rewrite decide_False by done. rewrite Hl, bool_decide_true, (proj2 (Z.eqb_neq _ _)) by done. cbn [andb].
  destruct (own_entry _ _) as [top|]; [|unfold walk_frame; by rewrite Hu].
  unfold walk_entry. change (x_unwind (r_x (on_x drop_entry r))) with (x_unwind (r_x r)). by rewrite Hu.
Qed.

Lemma jump_target_reached r above low i r1 : walking r -> jumped r above low (UV_INT i) r1 -> x_jump_depth (r_x r) = zlen above ->
  exists r', uexec_unwind r = Some (0, r') /\ resumed (length (x_frames (r_x r)) - 1) (u32 i) (r_x r) (r_x r') /\ x_cleanup (r_x r') = low /\
    x_transfer (r_x r') = UV_NIL /\ x_tag (r_x r') = put_back above (x_tag (r_x r)) /\ fires (tags_left above) (r_w r) (r_w r').
Proof.
  intros Hlv [Hg1 Hl1 Hu1 Hv1 Ht1 Hw1 Hf1 Hc1 Hd1] Hex. destruct (jump_top r1 Hl1 Hu1) as (f & Hl & Hm & _). pose proof Hl1 as (_ & [Hk1 _] & Hn1).
  destruct (set_pc_spec (u32 i) (r_x r1) f Hk1 Hl Hm) as (s & Es & Hmv & _).
  destruct (moved_top _ _ _ Hmv) as (g & Hg & Hfs & Hcs). rewrite Hf1 in Hg, Hfs. eexists. split.
  - eapply goes_then; [exact Hlv|exact Hg1|]. unfold unwind_step. rewrite decide_False by done. rewrite Hl, bool_decide_true, Hd1, Hex, Z.sub_diag, Hv1 by done.
    cbn [Z.eqb andb jump_target mbind option_bind]. by rewrite Es.
  - split; [exists g; by split_and!|]. split; [rewrite <- Hc1; exact Hcs|]. by split_and!.
Qed.

Lemma jump_first_finally r above low e i r1 : walking r -> jumped r above (low ++ [e]) (UV_INT i) r1 -> of_top_frame (r_x r) [e] -> jump_passes e = false ->
  zlen above < x_jump_depth (r_x r) <= 255 ->
  exists r' w, uexec_unwind r = Some (0, r') /\ resumed (length (x_frames (r_x r)) - 1) (cu_handler_pc e) (r_x r) (r_x r') /\
    x_cleanup (r_x r') = low ++ [running UUNWIND_JUMP (UV_INT i) (x_jump_depth (r_x r) - zlen above - 1) e] /\
    x_transfer (r_x r') = UV_NIL /\ x_tag (r_x r') = put_back above (x_tag (r_x r)) /\ fires (tags_left above) (r_w r) w.
Proof.
  intros Hlv [Hg1 Hl1 Hu1 Hv1 Ht1 Hw1 Hf1 Hc1 Hd1] He Hpe Hd. destruct (jump_top r1 Hl1 Hu1) as (f & Hl & Hm & Hti). pose proof (zlen_nonneg above).
  specialize (He e ltac:(by left)). rewrite <- Hf1 in He.
  destruct (own_entry_some (r_x r1) low e (u16 (zlen (x_frames (r_x r1)) - 1)) Hc1) as [Ho Hdr]; [by rewrite Hti|].
  destruct (drop_popped r1 f e Hl1 Hl Ho) as [Hpp _]. set (r0 := on_x drop_entry r1) in *.
  destruct (start_finally_ok UUNWIND_JUMP (UV_INT i) (u32 (x_jump_depth (r_x r1) - 1)) e r0 x_decr_depth Hpp) as (r' & E & _ & Hw' & Hc' & s & Hmv & Hx'); [by eexists|].
  destruct (moved_top _ (x_set_stk (set_cleanup _ _ _) (r_x r0)) _ Hmv) as (g & Hg & Hfs & _).
  change (x_frames (x_set_stk _ (r_x r0))) with (x_frames (r_x r1)) in Hg, Hfs. rewrite Hf1 in Hg, Hfs.
  exists r', (r_w r1). split.
  - eapply goes_then; [exact Hlv|exact Hg1|]. rewrite (jump_step r1 f Hl1 Hu1 Hl), Ho by lia. fold r0. unfold walk_jump, jump_passes in *.
    change (x_transfer (r_x r0)) with (x_transfer (r_x r1)). rewrite Hv1.
    destruct (is_tag_scope e), (has_flag UCLEAN_F_RUNNING e), (has_flag UCLEAN_F_HAS_FINALLY e); try done; exact E.
  - change (x_cleanup (r_x r0)) with (x_cleanup (drop_entry (r_x r1))) in Hc'. rewrite Hdr, Hd1, u32_small in Hc' by lia.
    split; [rewrite Hx'; exists g; by split_and!|]. split; [done|]. rewrite Hx'. by split_and!.
Qed.

Lemma jump_too_deep r above low v r1 : walking r -> jumped r above low v r1 -> (forall c, last low = Some c -> cu_frame c < zlen (x_frames (r_x r)) - 1) ->
  zlen above < x_jump_depth (r_x r) ->
  exists r2, uexec_unwind r = uexec_unwind r2 /\ walking r2 /\ x_unwind (r_x r2) = UUNWIND_FATAL /\ x_frames (r_x r2) = x_frames (r_x r) /\ x_cleanup (r_x r2) = low.
Proof.
  intros Hlv [Hg1 Hl1 Hu1 Hv1 Ht1 Hw1 Hf1 Hc1 Hd1] Hlow Hlt. destruct (jump_top r1 Hl1 Hu1) as (f & Hl & Hm & Hti).
  assert (Hnone : own_entry (u16 (zlen (x_frames (r_x r1)) - 1)) (r_x r1) = None) by (apply own_entry_none; by rewrite Hc1, Hti, Hf1).
  pose proof (jump_step r1 f Hl1 Hu1 Hl ltac:(lia)) as Hs. rewrite Hnone in Hs.
  destruct (fatal_spec (lit "chunk integrity: unwind deeper than this frame" ++ [39] ++ lit "s scopes") r1) as (v' & rep & code & Ef). rewrite Ef in Hs.
  eexists. assert (Hl2 := live_step _ _ Hl1 Hs). split; [apply goes_unwind; [done|exact Hl2|]; etrans; [exact Hg1|by apply rtc_once]|].
  split; [done|]. split; [done|]. by split.
Qed.

(** C21 a jump out of scopes (break, continue), provided that running the
    subscribers of a leave event never replaces it: one that names no more
    entries than its frame has lands on its target having left exactly those
    entries, with their leave events, catch entries and markers passed; if
    one of them has a finally, it first runs the innermost such body, under
    a marker that remembers the target and how many entries are still to go;
    and a jump that names more entries than its frame has turns into a
    chunk-integrity failure at the last of them. *)
Theorem jump_lands r low above i : quiet -> world_ok (r_w r) -> xwf (r_x r) -> x_unwind (r_x r) = UUNWIND_JUMP -> x_transfer (r_x r) = UV_INT i ->
  zlen above <= x_jump_depth (r_x r) <= 255 -> x_cleanup (r_x r) = low ++ above -> of_top_frame (r_x r) above ->
  (forall c, c ∈ above -> jump_passes c = true) ->
  (x_jump_depth (r_x r) = zlen above ->
   exists r', uexec_unwind r = Some (0, r') /\ resumed (length (x_frames (r_x r)) - 1) (u32 i) (r_x r) (r_x r') /\ x_cleanup (r_x r') = low /\
     x_transfer (r_x r') = UV_NIL /\ x_tag (r_x r') = put_back above (x_tag (r_x r)) /\ fires (tags_left above) (r_w r) (r_w r')) /\
  (forall low' e, low = low' ++ [e] -> of_top_frame (r_x r) [e] -> jump_passes e = false -> zlen above < x_jump_depth (r_x r) ->
   exists r' w, uexec_unwind r = Some (0, r') /\ resumed (length (x_frames (r_x r)) - 1) (cu_handler_pc e) (r_x r) (r_x r') /\
     x_cleanup (r_x r') = low' ++ [running UUNWIND_JUMP (UV_INT i) (x_jump_depth (r_x r) - zlen above - 1) e] /\
     x_transfer (r_x r') = UV_NIL /\ x_tag (r_x r') = put_back above (x_tag (r_x r)) /\ fires (tags_left above) (r_w r) w) /\
  ((forall c, last low = Some c -> cu_frame c < zlen (x_frames (r_x r)) - 1) -> zlen above < x_jump_depth (r_x r) ->
   exists r1, uexec_unwind r = uexec_unwind r1 /\ walking r1 /\ x_unwind (r_x r1) = UUNWIND_FATAL /\ x_frames (r_x r1) = x_frames (r_x r) /\ x_cleanup (r_x r1) = low).
Proof.
  intros Hq Hw Hx Hu Hi Hd Hcl Hown Hp. assert (Hlv : walking r) by (split_and!; [done|done|by rewrite Hu]).
  destruct (jump_passes_all r low above (UV_INT i) Hq Hlv Hu Hi Hd Hcl Hown Hp) as [r1 Hj]. split; [|split].
  - by apply (jump_target_reached r above low i r1).
  - intros low' e -> He Hpe Hlt. apply (jump_first_finally r above low' e i r1); try done. lia.
  - by apply (jump_too_deep r above low (UV_INT i) r1).
Qed.

(** A return out of scopes none of which has a body to run: the scopes are
    left, the frame goes with its upvalues closed, and the value is in the
    register the caller asked for it, or the strand's or the call's result. *)
Theorem return_completes r low above f : quiet -> world_ok (r_w r) -> xwf (r_x r) -> x_unwind (r_x r) = UUNWIND_RETURN ->
  last (x_frames (r_x r)) = Some f -> x_cleanup (r_x r) = low ++ above -> of_top_frame (r_x r) above ->
  (forall c, c ∈ above -> takes UUNWIND_RETURN (x_transfer (r_x r)) c = false) ->
  (forall c, last low = Some c -> cu_frame c < zlen (x_frames (r_x r)) - 1) ->
  exists rc r', uexec_unwind r = Some (rc, r') /\ x_frames (r_x r) = x_frames (r_x r') ++ [f] /\ x_cleanup (r_x r') = low /\
    x_unwind (r_x r') = UUNWIND_NONE /\ x_tag (r_x r') = put_back above (x_tag (r_x r)) /\ fires (tags_left above) (r_w r) (r_w r') /\
    ((rc = 1 /\ x_result (r_x r') = x_transfer (r_x r)) \/
     (rc = 0 /\ exists g, last (x_frames (r_x r')) = Some g /\ read (s_stack (x_stk (r_x r'))) (f_base g + f_ret_reg f) = Some (x_transfer (r_x r)))).
Proof.
  intros Hq Hw Hx Hu Hl Hcl Hown Hp Hlow. assert (Hlv : walking r) by (split_and!; [done|done|by rewrite Hu]).
  destruct (cross_own above low r Hq Hlv) as (r1 & Hg1 & [Hl1 _ Hu1 Hv1 Ht1 Hw1] & Hf1 & Hc1); try done; [by rewrite Hu|intros E; by rewrite E in Hl|by rewrite Hu|].
  rewrite Hu in Hu1, Hw1. rewrite decide_False in Hw1 by done. pose proof Hl1 as (_ & [Hk1 _] & Hn1). rewrite <- Hf1 in Hl.
  destruct (top_index _ _ Hk1 Hl) as [Hti _].
  assert (Hnone : own_entry (u16 (zlen (x_frames (r_x r1)) - 1)) (r_x r1) = None) by (apply own_entry_none; rewrite Hc1, Hti, Hf1; exact Hlow).
  destruct (return_ok (x_transfer (r_x r1)) (x_pending UUNWIND_NONE UV_NIL (r_x r1)) f) as (s & _ & _ & _ & Hfr & Hcs & _ & Hcase); try done.
  change (x_frames (x_pending UUNWIND_NONE UV_NIL (r_x r1))) with (x_frames (r_x r1)) in Hfr. rewrite Hf1 in Hfr.
  change (x_cleanup (x_pending UUNWIND_NONE UV_NIL (r_x r1))) with (x_cleanup (r_x r1)) in Hcs. rewrite Hc1 in Hcs.
  assert (Hstep : forall rc x, uexec_return (x_transfer (r_x r1)) (x_pending UUNWIND_NONE UV_NIL (r_x r1)) = Some (rc, x) -> uexec_unwind r = Some (rc, set_x x r1)).
  { intros rc x E. eapply goes_then; [exact Hlv|exact Hg1|]. unfold unwind_step. rewrite decide_False by done. rewrite Hl, bool_decide_false by congruence. cbn [andb].
    rewrite Hnone. unfold walk_frame. rewrite Hu1, E. done. }
  destruct Hcase as [(_ & E)|[(_ & _ & E)|(_ & g & l & Hg & Hst & E & _)]]; apply Hstep in E; (do 2 eexists; split; [exact E|]; do 5 (split; [done|])).
  - left. by rewrite <- Hv1.
  - left. by rewrite <- Hv1.
  - right. split; [done|]. exists g. split; [done|]. rewrite <- Hv1. cbn. rewrite (read_store _ _ _ _ _ Hst). by rewrite decide_True.
Qed.

End Walker.
(** ** The scheduler as surroundings

    Leaving a scope hands the waiters of the tag's leave event back to the
    scheduler (Tags.v); an event has no synchronous subscriber here. *)
Record tagworld := MkWorld { tw_sched : sched; tw_leave : gmap nat nat; tw_grant : bool; tw_next : option nat }.

#[export] Instance tag_env : ScopeEnv tagworld := {
  tag_gates w t := Tags.utag_gate_bits (tw_sched w) (Some t);
  fire_leave t w x :=
    match tw_leave w !! t with
    | None => Some (w, x)
    | Some e => v ← Tags.emit_waiters e VNil (tw_sched w); Some (MkWorld v (tw_leave w) (tw_grant w) (tw_next w), x)
    end;
  grant w := (tw_grant w, w);
  new_exception _ _ _ w := (match tw_next w with Some o => UV_OBJ o | None => UV_NIL end, w) }.

(** The scheduler's lists are what they should be. *)
Definition tags_ok (w : tagworld) : Prop := exists q Wl D act, rep (tw_sched w) q Wl D act.

#[local] Arguments Tags.emit_waiters : simpl never.

Lemma tag_fire t w x : tags_ok w -> exists w', fire_leave t w x = Some (w', x) /\ tags_ok w'.
Proof.
  intros (q & Wl & D & act & Hr). cbn. destruct (tw_leave w !! t) as [e|]; [|exists w; split; [done|]; by exists q, Wl, D, act].
  destruct (Tags.emit_spec (tw_sched w) q Wl D act e VNil Hr) as (v & -> & Hh). eexists. split; [done|].
  eexists _, _, _, _. exact (Tags.hd_rep _ _ _ _ _ _ _ _ Hh).
Qed.

#[export] Instance tag_laws : ScopeLaws (W := tagworld).
Proof.
  refine {| world_ok := tags_ok |}; try done. intros t w x Hw _. destruct (tag_fire t w x Hw) as (w' & E & Hw'). by exists w', x.
Defined.

Lemma tag_quiet : quiet (W := tagworld).
Proof. intros t w x w' x' Hw E. destruct (tag_fire t w x Hw) as (w2 & E2 & _). rewrite E in E2. by injection E2 as -> ->. Qed.

(** ** Concrete unwinds *)

Definition demo_frame (base : Z) : UFrame := MkFrame (MkClosure 1 (Some 3)) (Some 5) base 0 false UV_NIL.
Definition demo_try (flags frame pc : Z) : UCleanupEntry := MkCleanup UCLEAN_TRY flags 0 frame pc 0 None UV_NIL.
Definition demo_scope (t : nat) (frame pc : Z) : UCleanupEntry := MkCleanup UCLEAN_TAG_SCOPE 0 0 frame 0 pc (Some t) UV_NIL.
Definition demo_stack (cs : list UCleanupEntry) : ustack :=
  MkStack 0 (replicate 8 UV_NIL) [demo_frame 0; demo_frame 4] 4 0 [] cs 4 ∅.
Definition demo_run (u : UUnwindKind) (v : UValue) (depth : Z) (cs : list UCleanupEntry) : urun :=
  MkRun (MkWorld Tags.tags2 {[7%nat := 3%nat]} true None) (MkX (demo_stack cs) u v depth (Some 7%nat) 0 USTRAND_RUNNING UV_NIL) RCleared URBI_OK.

Lemma demo_world u v d cs : world_ok (r_w (demo_run u v d cs)).
Proof. exists [1%nat], Tags.demo_waits, [], []. exact Tags.tags2_rep. Qed.

Definition demo_entry (c : UCleanupEntry) : bool :=
  (0 <=? cu_frame c) && (cu_frame c <? 2) && negb (has_flag UCLEAN_F_RUNNING c)
  && (is_tag_scope c || negb (has_flag UCLEAN_F_HAS_CATCH c && has_flag UCLEAN_F_HAS_FINALLY c)).

Lemma demo_wf cs : zlen cs <= 4 -> forallb demo_entry cs = true -> StronglySorted (fun a b => cu_frame a <= cu_frame b) cs -> kwf (demo_stack cs).
Proof.
  intros Hl Hc Hs. split; [|apply Forall_forall; intros c Hin|done|].
  - split; try done.
    + by intros u ?%elem_of_nil.
    + apply SSorted_nil.
    + right. by exists 3.
    + split; [done|]. right. by exists 2.
    + repeat (apply Forall_cons; split; [by split|]). apply Forall_nil_2.
    + split; [exact Hl|]. right. by exists 2.
  - rewrite forallb_forall in Hc. specialize (Hc c ltac:(by apply list_elem_of_In)). unfold demo_entry in Hc.
    apply andb_prop in Hc as [[[Hlo Hhi]%andb_prop Hr]%andb_prop Hfl]. apply negb_true_iff in Hr. zbool. split.
    + assert (Hf : cu_frame c = 0 \/ cu_frame c = 1) by lia. cbn [demo_stack s_frames]. destruct Hf as [-> | ->]; eexists; (split; [reflexivity|by eexists]).
    + intros Ht. rewrite Ht in Hfl. destruct Hfl as [?|Hfl]; [done|]. by apply negb_true_iff in Hfl.
    + congruence.
  - intros i f g Hf Hg. destruct i as [|[|i]]; [|done|done]. injection Hf as <-. injection Hg as <-. by split.
Qed.

(** A tag scope in the upper frame, a catch in the lower. *)
Definition demo_throw : urun := demo_run UUNWIND_THROW (UV_INT 3) 0 [demo_try 1 0 10; demo_scope 7 1 12].

Lemma demo_xwf u v d cs : zlen cs <= 4 -> forallb demo_entry cs = true -> StronglySorted (fun a b => cu_frame a <= cu_frame b) cs ->
  (u = UUNWIND_JUMP -> exists i, v = UV_INT i) -> xwf (r_x (demo_run u v d cs)).
Proof.
  intros Hl Hc Hs Hj. split; [by apply demo_wf|]. intros Eu. split; [by apply Hj|]. exists (demo_frame 4). split; [done|]. by eexists.
Qed.

(** The catch is entered at 10 with the value, and strand 2, waiting for the tag's leave event, is queued. *)
Example throw_runs : (fun '(rc, r) => (rc, f_pc <$> x_frames (r_x r), x_transfer (r_x r), x_tag (r_x r), run_tail (tw_sched (r_w r)))) <$> uexec_unwind demo_throw
  = Some (0, [Some 10], UV_INT 3, None, Some 2%nat).
Proof. vm_compute. reflexivity. Qed.

Ltac demo_sorted := repeat (apply SSorted_cons; [|repeat (apply Forall_cons; split; [vm_compute; discriminate|]); apply Forall_nil_2]); apply SSorted_nil.
Ltac demo_well := apply demo_xwf; [vm_compute; discriminate|reflexivity|demo_sorted|try (intros _; by eexists); try (intros [=])].

Lemma unwind_ends_witness : exists rc r', uexec_unwind demo_throw = Some (rc, r') /\ ended rc (r_x r').
Proof.
  destruct (unwind_ends demo_throw (demo_world _ _ _ _) ltac:(demo_well)) as (rc & r' & E & _ & _ & _ & He). exists rc, r'. split; [exact E|]. by apply He.
Defined.

Lemma unwind_lands_witness : exists r' w, uexec_unwind demo_throw = Some (0, r') /\ resumed 0 10 (r_x demo_throw) (r_x r') /\
  fires [7%nat] (r_w demo_throw) w /\ r_w r' = w.
Proof.
  destruct (unwind_lands demo_throw [] (demo_try 1 0 10) [demo_scope 7 1 12] 0 tag_quiet (demo_world _ _ _ _) ltac:(demo_well)) as (r' & w & E & Hr & _ & _ & _ & Hf & Hw).
  - by left.
  - reflexivity.
  - reflexivity.
  - intros c [-> |Hc%elem_of_nil]%elem_of_cons; [reflexivity|done].
  - reflexivity.
  - intros [|[|i]] f Hi; [lia|intros [= <-]; reflexivity|done].
  - exists r', w. by split_and!.
Defined.

Lemma unwind_escapes_witness : exists r', uexec_unwind (demo_run UUNWIND_FATAL UV_NIL 0 [demo_try 1 0 10; demo_scope 7 1 12]) = Some (1, r') /\
  x_frames (r_x r') = [] /\ x_state (r_x r') = USTRAND_DEAD /\ r_w r' = r_w demo_throw.
Proof.
  destruct (unwind_escapes (demo_run UUNWIND_FATAL UV_NIL 0 [demo_try 1 0 10; demo_scope 7 1 12]) [] [demo_try 1 0 10; demo_scope 7 1 12] 0 (demo_frame 0)
    tag_quiet (demo_world _ _ _ _) ltac:(demo_well)) as (r' & E & Hf & _ & _ & _ & _ & Hs & _ & Hw).
  - by right; right.
  - reflexivity.
  - by intros c ?%elem_of_nil.
  - intros c [-> |[-> |Hc%elem_of_nil]%elem_of_cons]%elem_of_cons; [split; [vm_compute; discriminate|reflexivity]..|done].
  - reflexivity.
  - by right.
  - intros [|[|i]] f Hi; [lia|intros [= <-]; reflexivity|done].
  - exists r'. split; [exact E|]. split; [exact Hf|]. split; [exact Hs|]. by inversion Hw.
Defined.

Lemma finally_then_resume_witness : exists r1, uexec_unwind (demo_run UUNWIND_THROW (UV_INT 3) 0 [demo_try 2 1 20]) = Some (0, r1) /\
  op_resume r1 = goto_unwind (on_x (fun x => x_set_depth (x_jump_depth x) (x_pending UUNWIND_THROW (UV_INT 3) (drop_entry x))) r1).
Proof.
  destruct (finally_then_resume (demo_run UUNWIND_THROW (UV_INT 3) 0 [demo_try 2 1 20]) [] (demo_try 2 1 20) 1 (demo_world _ _ _ _) ltac:(demo_well))
    as (r1 & E & _ & _ & _ & Hr); [discriminate|discriminate|discriminate|reflexivity|reflexivity|reflexivity|reflexivity|reflexivity|].
  exists r1. split; [exact E|]. destruct (unwind_total (demo_run UUNWIND_THROW (UV_INT 3) 0 [demo_try 2 1 20])) as (rc & r' & E' & _ & [Hk _] & _).
  { split; [apply demo_world|]. split; [demo_well|discriminate]. }
  rewrite E in E'. injection E' as <- <-. apply Hr; [exact Hk|reflexivity|]. vm_compute in E. injection E as <-. reflexivity.
Defined.

Lemma jump_lands_witness : exists r', uexec_unwind (demo_run UUNWIND_JUMP (UV_INT 30) 1 [demo_try 1 0 10; demo_scope 7 1 12]) = Some (0, r') /\
  x_cleanup (r_x r') = [demo_try 1 0 10].
Proof.
  destruct (jump_lands (demo_run UUNWIND_JUMP (UV_INT 30) 1 [demo_try 1 0 10; demo_scope 7 1 12]) [demo_try 1 0 10] [demo_scope 7 1 12] 30
    tag_quiet (demo_world _ _ _ _) ltac:(demo_well)) as [Hj _].
  - reflexivity.
  - reflexivity.
  - split; vm_compute; discriminate.
  - reflexivity.
  - intros c [-> |Hc%elem_of_nil]%elem_of_cons; [vm_compute; discriminate|done].
  - intros c [-> |Hc%elem_of_nil]%elem_of_cons; [reflexivity|done].
  - destruct (Hj eq_refl) as (r' & E & _ & Hc & _). exists r'. split; [exact E|exact Hc].
Defined.

End Unwind.
