(* ===== verification/Watch.v ===== *)
(** * The reactive runtime: watchers, drains and edges (src/src/rt/uwatch.c, uwatch.h)

    Conditions and bodies are arbitrary script.  What a call of one does to the
    watchers is a list of the operations of this file (it installs, cancels,
    emits, writes, nests a drain) and the value it returns or that it raised;
    the calls still to come are the state's [code], taken in order, so that a
    theorem about every [code] is one about every script.  A watcher a sweep
    has unlinked is gone from [cells], and touching it again is a fault
    ([None]): nothing but the list of all watchers keeps its cell alive. *)
From Stdlib Require Import Ascii String.
From S2P Require Import Prelude Text Values Tags.

Module Watch.
Import Tags.

(** A closure, as far as the argument counts go; [k_proto]: it is script. *)
Record UClosureK := MkClosureK { k_id : nat; k_proto : bool; k_nparams : Z; k_prologue : bool; k_min_args : Z; k_max_args : Z }.

Record WCell := MkCell {
  wc_mode : UWatchMode;
  wc_armed : bool;
  wc_last : bool;
  wc_fired : bool;
  wc_leave_pending : bool;
  wc_cond : option UClosureK;
  wc_event : option nat;
  wc_body : option UClosureK;
  wc_onleave : option UClosureK;
  wc_tag : option nat;
  wc_realm : option nat;
  wc_body_strand : option nat;
  wc_payload : UValue;
  wc_host_cb : option nat }.

Definition c_armed (b : bool) (c : WCell) : WCell :=
  MkCell (wc_mode c) b (wc_last c) (wc_fired c) (wc_leave_pending c) (wc_cond c) (wc_event c) (wc_body c) (wc_onleave c) (wc_tag c) (wc_realm c) (wc_body_strand c) (wc_payload c) (wc_host_cb c).
Definition c_last (b : bool) (c : WCell) : WCell :=
  MkCell (wc_mode c) (wc_armed c) b (wc_fired c) (wc_leave_pending c) (wc_cond c) (wc_event c) (wc_body c) (wc_onleave c) (wc_tag c) (wc_realm c) (wc_body_strand c) (wc_payload c) (wc_host_cb c).
Definition c_fired (b : bool) (c : WCell) : WCell :=
  MkCell (wc_mode c) (wc_armed c) (wc_last c) b (wc_leave_pending c) (wc_cond c) (wc_event c) (wc_body c) (wc_onleave c) (wc_tag c) (wc_realm c) (wc_body_strand c) (wc_payload c) (wc_host_cb c).
Definition c_pending (b : bool) (c : WCell) : WCell :=
  MkCell (wc_mode c) (wc_armed c) (wc_last c) (wc_fired c) b (wc_cond c) (wc_event c) (wc_body c) (wc_onleave c) (wc_tag c) (wc_realm c) (wc_body_strand c) (wc_payload c) (wc_host_cb c).
Definition c_strand (s : option nat) (c : WCell) : WCell :=
  MkCell (wc_mode c) (wc_armed c) (wc_last c) (wc_fired c) (wc_leave_pending c) (wc_cond c) (wc_event c) (wc_body c) (wc_onleave c) (wc_tag c) (wc_realm c) s (wc_payload c) (wc_host_cb c).
Definition c_payload (v : UValue) (c : WCell) : WCell :=
  MkCell (wc_mode c) (wc_armed c) (wc_last c) (wc_fired c) (wc_leave_pending c) (wc_cond c) (wc_event c) (wc_body c) (wc_onleave c) (wc_tag c) (wc_realm c) (wc_body_strand c) v (wc_host_cb c).

(** What the rest of the VM does for the watchers. *)
Class WatchEnv (E : Type) := {
  has_globals : nat -> E -> bool;                              (* r->globals != NULL *)
  spare : E -> bool * E;                                       (* uvm_spare_acquire *)
  spawn : UClosureK -> option nat -> option nat -> list UValue -> E -> option nat * E;   (* usched_spawn, within its arity test *)
  wake_waiters : nat -> UValue -> E -> E;                      (* usched_wake along w->waiters *)
  host_call : nat -> UValue -> E -> E;
  park_on : nat -> E -> E;                                     (* usched_park on w->waiters *)
  throw_oom : bytes -> E -> E;                                 (* uexec_throw, UP_OOMERROR *)
  complain : bytes -> E -> E;                                  (* the diag hook and the error channel *)
  new_cell : E -> bool * E }.

(** What a script can do to the watchers while it runs. *)
Inductive action :=
  | AInstall (mode : UWatchMode) (tag realm : option nat) (cond : option UClosureK) (event : option nat) (body onleave : option UClosureK)
  | AInstallHost (tag realm : option nat) (cond : option UClosureK) (cb : nat)
  | AWait (may_deschedule : bool) (tag realm : option nat) (cond : UClosureK)
  | AStop (t : nat) | ADropRealm (r : nat)
  | AEmit (e : nat) (payload : UValue) (sync : bool)
  | AWrite | ADrain | ABodyDone (s : nat).

(** A call: what it does, and the value it returns, [None] if it raises. *)
Abbreviation call := (list action * option UValue)%type.

(** For the statements: the turns a drain gives, the bodies and else arms that
    are entered or spawned, the rising edges served although the watcher, as it
    then is, has no body that could run, the waiters woken, the watchers unlinked. *)
Inductive wevent := LTurn (w : nat) | LRan (w : nat) | LBare (w : nat) (c : WCell) | LLeft (w : nat) | LWoke (w : nat) (v : UValue) | LGone (w : nat).

Section Runtime.
Context {E : Type} `{WatchEnv E}.

Record wstate := MkW {
  cells : gmap nat WCell;
  ws_all : list nat;                 (* vm->watch.all, along next *)
  subs : gmap nat (list nat);        (* event->watchers, along next_on_event *)
  ndirty : Z;
  ws_draining : bool;
  observing : bool;
  ids : nat;                         (* the next cell's identity *)
  code : list call;
  log : list wevent;
  env : E }.

Definition set_cells (m : gmap nat WCell) (s : wstate) : wstate := MkW m (ws_all s) (subs s) (ndirty s) (ws_draining s) (observing s) (ids s) (code s) (log s) (env s).
Definition set_all (l : list nat) (s : wstate) : wstate := MkW (cells s) l (subs s) (ndirty s) (ws_draining s) (observing s) (ids s) (code s) (log s) (env s).
Definition set_subs (m : gmap nat (list nat)) (s : wstate) : wstate := MkW (cells s) (ws_all s) m (ndirty s) (ws_draining s) (observing s) (ids s) (code s) (log s) (env s).
Definition set_ndirty (n : Z) (s : wstate) : wstate := MkW (cells s) (ws_all s) (subs s) n (ws_draining s) (observing s) (ids s) (code s) (log s) (env s).
Definition set_draining (b : bool) (s : wstate) : wstate := MkW (cells s) (ws_all s) (subs s) (ndirty s) b (observing s) (ids s) (code s) (log s) (env s).
Definition set_observing (b : bool) (s : wstate) : wstate := MkW (cells s) (ws_all s) (subs s) (ndirty s) (ws_draining s) b (ids s) (code s) (log s) (env s).
Definition set_code (q : list call) (s : wstate) : wstate := MkW (cells s) (ws_all s) (subs s) (ndirty s) (ws_draining s) (observing s) (ids s) q (log s) (env s).
Definition set_env (e : E) (s : wstate) : wstate := MkW (cells s) (ws_all s) (subs s) (ndirty s) (ws_draining s) (observing s) (ids s) (code s) (log s) e.
Definition note (e : wevent) (s : wstate) : wstate := MkW (cells s) (ws_all s) (subs s) (ndirty s) (ws_draining s) (observing s) (ids s) (code s) (log s ++ [e]) (env s).

(** [w->field = ...] through a pointer to the cell. *)
Definition on_cell (w : nat) (f : WCell -> WCell) (s : wstate) : option wstate :=
  c ← cells s !! w; Some (set_cells (<[w := f c]> (cells s)) s).

Definition uwatch_mark_dirty (s : wstate) : wstate := if ndirty s =? UINT32_MAX then s else set_ndirty (ndirty s + 1) s.
Definition say (msg : bytes) (s : wstate) : wstate := set_env (complain msg (env s)) s.

Definition uwatch_wake_waiters (w : nat) (v : UValue) (s : wstate) : wstate := note (LWoke w v) (set_env (wake_waiters w v (env s)) s).

(** ** List maintenance *)

Definition subs_of (s : wstate) (e : nat) : list nat := default [] (subs s !! e).

(** Unlinking from the event's list; a watcher that is not on it leaves it alone. *)
Definition uwatch_unlink_event (w : nat) (c : WCell) (s : wstate) : wstate :=
  match wc_event c with
  | None => s
  | Some e => set_subs (<[e := default (subs_of s e) (remove1 w (subs_of s e))]> (subs s)) s
  end.

Definition stays (c : WCell) : bool := wc_armed c || (wc_leave_pending c && bool_decide (wc_body_strand c <> None)).

Fixpoint sweep_walk (l : list nat) (s : wstate) : option (list nat * wstate) :=
  match l with
  | [] => Some ([], s)
  | w :: l =>
      c ← cells s !! w;
      if stays c then '(k, s) ← sweep_walk l s; Some (w :: k, s)
      else
        let s := uwatch_wake_waiters w UV_NIL (uwatch_unlink_event w c s) in
        sweep_walk l (note (LGone w) (set_cells (delete w (cells s)) s))
  end.
Definition uwatch_sweep_list (s : wstate) : option wstate :=
  if ws_draining s then Some s else '(l, s) ← sweep_walk (ws_all s) s; Some (set_all l s).

(** ** Running a watcher's code *)

Section Code.
(** Runs the next call: the value it returns, [None] if it raised. *)
Variable run : wstate -> option (option UValue * wstate).

Definition uwatch_body_argc (cl : option UClosureK) : Z :=
  match cl with
  | None => 0
  | Some cl => if k_proto cl then (if 1 <=? k_nparams cl then 1 else 0) else if (k_min_args cl <=? 1) && (1 <=? k_max_args cl) then 1 else 0
  end.

(** [None]: -1, the condition raised, or could not be asked. *)
Definition uwatch_eval_cond (w : nat) (s : wstate) : option (option bool * wstate) :=
  c ← cells s !! w;
  match wc_cond c, wc_realm c with
  | Some _, Some r =>
      if negb (has_globals r (env s)) then Some (None, s)
      else
        let '(ok, e) := spare (env s) in
        let s := set_env e s in
        if negb ok then Some (None, s)
        else
          let prev := observing s in
          '(out, s) ← run (set_observing true s);
          let s := set_observing prev s in
          match out with
          | None => s ← on_cell w (c_armed false) (say (lit "at condition raised: ") s); Some (None, s)
          | Some v => s ← on_cell w (c_payload v) s; Some (Some (uv_truthy v), s)
          end
  | _, _ => Some (None, s)
  end.

(** A closure, or the script around a host callback, is called: [ev] says whose it is. *)
Definition call_closure (ev : wevent) (s : wstate) : option (option UValue * wstate) := run (note ev s).

(** The same for a strand that is to run it: [ev] is noted if there is one. *)
Definition start_strand (ev : wevent) (k : UClosureK) (tag realm : option nat) (args : list UValue) (s : wstate) : option nat * wstate :=
  let '(st, e) := spawn k tag realm args (env s) in
  (st, match st with Some _ => note ev (set_env e s) | None => set_env e s end).

Definition uwatch_run_inline (ev : wevent) (w : nat) (cl : option UClosureK) (payload : UValue) (what : bytes) (s : wstate) : option wstate :=
  c ← cells s !! w;
  match cl, wc_realm c with
  | Some _, Some _ =>
      let '(ok, e) := spare (env s) in
      let s := set_env e s in
      if negb ok then Some s
      else
        s ← on_cell w (c_payload payload) s;
        '(out, s) ← call_closure ev s;
        s ← on_cell w (c_payload UV_NIL) s;
        Some (match out with Some _ => s | None => say what s end)
  | _, _ => Some s
  end.

Definition arity_fits (argc : Z) (cl : UClosureK) : bool := if k_prologue cl then argc <=? k_nparams cl else argc =? k_nparams cl.

(** 0 and the strand, if there was one to spawn; -1 out of memory, reported. *)
Definition uwatch_spawn (ev : wevent) (w : nat) (cl : option UClosureK) (payload : UValue) (what : bytes) (s : wstate) : option (Z * option nat * wstate) :=
  c ← cells s !! w;
  match cl, wc_realm c with
  | Some k, Some r =>
      let argc := uwatch_body_argc cl in
      if negb (k_proto k) || negb (arity_fits argc k) then Some (0, None, s)
      else
        s ← on_cell w (c_payload payload) s;
        let '(st, s) := start_strand ev k (wc_tag c) (Some r) (if argc =? 0 then [] else [payload]) s in
        s ← on_cell w (c_payload UV_NIL) s;
        match st with
        | Some st => Some (0, Some st, s)
        | None => Some (-1, None, say what s)
        end
  | _, _ => Some (0, None, s)
  end.

(** There is a body, and a realm to run it in. *)
Definition can_enter (c : WCell) : bool := bool_decide (wc_body c <> None) && bool_decide (wc_realm c <> None).

Definition uwatch_fire (w : nat) (payload : UValue) (force_inline : bool) (s : wstate) : option wstate :=
  c ← cells s !! w;
  s ← on_cell w (c_fired true) s;
  match wc_host_cb c with
  | Some cb => '(_, s) ← call_closure (LRan w) (set_env (host_call cb payload (env s)) s); Some s
  | None =>
      if bool_decide (wc_mode c = UWATCH_AT_SYNC) || force_inline then
        s ← uwatch_run_inline (LRan w) w (wc_body c) payload (lit "at sync body raised: ") s;
        Some (if can_enter c then s else note (LBare w c) s)
      else
        let whenever := bool_decide (wc_mode c = UWATCH_WHENEVER) in
        '(rc, st, s) ← uwatch_spawn (LRan w) w (wc_body c) payload (if whenever then lit "whenever body: out of memory" else lit "at body: out of memory") s;
        if negb (rc =? 0) then
          s ← on_cell w (c_fired (wc_fired c)) s;
          match wc_cond c with
          | Some _ => s ← on_cell w (c_last false) s; Some (uwatch_mark_dirty s)
          | None => Some s
          end
        else
          let s := match st with Some _ => s | None => note (LBare w c) s end in
          if whenever && bool_decide (wc_cond c <> None) then on_cell w (c_strand st) s else Some s
  end.

Definition uwatch_leave (w : nat) (s : wstate) : option wstate :=
  c ← cells s !! w;
  if bool_decide (wc_onleave c = None) || negb (wc_fired c) then Some s
  else
    s ← on_cell w (c_fired false) s;
    if decide (wc_mode c = UWATCH_AT_SYNC) then
      uwatch_run_inline (LLeft w) w (wc_onleave c) UV_NIL (lit "at sync onleave raised: ") s
    else
      '(rc, _, s) ← uwatch_spawn (LLeft w) w (wc_onleave c) UV_NIL
        (if decide (wc_mode c = UWATCH_WHENEVER) then lit "whenever else: out of memory" else lit "at onleave: out of memory") s;
      if negb (rc =? 0) then s ← on_cell w (c_fired true) s; Some (uwatch_mark_dirty s)
      else Some s.

(** ** The drain *)

(** One watcher's turn, from the test of [armed] on. *)
Definition drain_turn (w : nat) (s : wstate) : option wstate :=
  c ← cells s !! w;
  if negb (wc_armed c) || bool_decide (wc_cond c = None) then Some s
  else
    '(now, s) ← uwatch_eval_cond w (note (LTurn w) s);
    match now with
    | None => Some s
    | Some now =>
        c ← cells s !! w;
        if negb (wc_armed c) then Some s
        else
          let was := wc_last c in
          s ← on_cell w (c_last now) s;
          s ← (if now && negb was then
                 if decide (wc_mode c = UWATCH_WAITUNTIL) then s ← on_cell w (c_armed false) s; Some (uwatch_wake_waiters w UV_NIL s)
                 else if bool_decide (wc_mode c = UWATCH_WHENEVER) && bool_decide (wc_body_strand c <> None) then Some s
                 else uwatch_fire w (wc_payload c) false s
               else if negb now && (was || wc_fired c) then
                 if bool_decide (wc_mode c = UWATCH_WHENEVER) && bool_decide (wc_body_strand c <> None) then on_cell w (c_pending true) s
                 else uwatch_leave w s
               else Some s);
          on_cell w (c_payload UV_NIL) s
    end.

(** What follows [w] on a list, read before its turn. *)
Fixpoint next_on (w : nat) (l : list nat) : option nat :=
  match l with [] => None | x :: l => if decide (x = w) then head l else next_on w l end.

(** The walk of a live list from [w] up to [last_w]: the list is read again for
    each [next], so what the turn did to it is seen. *)
Fixpoint live_walk (fuel : nat) (list_of : wstate -> list nat) (turn : nat -> wstate -> option wstate) (last_w : nat) (w : option nat) (s : wstate) : option wstate :=
  match w with
  | None => Some s
  | Some w =>
      match fuel with
      | O => None
      | S fuel =>
          let next := if decide (w = last_w) then None else next_on w (list_of s) in
          s ← turn w s; live_walk fuel list_of turn last_w next s
      end
  end.

Definition walk_list (list_of : wstate -> list nat) (turn : nat -> wstate -> option wstate) (s : wstate) : option wstate :=
  match last (list_of s) with
  | None => Some s
  | Some last_w => live_walk (length (list_of s)) list_of turn last_w (head (list_of s)) s
  end.

Definition uwatch_drain (s : wstate) : option wstate :=
  if ws_draining s || (ndirty s =? 0) || bool_decide (ws_all s = []) then Some s
  else
    s ← uwatch_sweep_list (set_ndirty 0 s);
    s ← walk_list ws_all drain_turn (set_draining true s);
    uwatch_sweep_list (set_draining false s).

(** ** The death of a body *)

Definition owner_of (dead : nat) (s : wstate) : option nat :=
  find (fun w => match cells s !! w with Some c => bool_decide (wc_body_strand c = Some dead) | None => false end) (ws_all s).

Definition uwatch_body_done (dead : nat) (s : wstate) : option wstate :=
  match owner_of dead s with
  | None => Some s
  | Some w =>
      s ← on_cell w (c_strand None) s;
      c ← cells s !! w;
      if negb (bool_decide (wc_mode c = UWATCH_WHENEVER)) || bool_decide (wc_cond c = None) then Some s
      else
        let owed := wc_leave_pending c in
        s ← on_cell w (c_pending false) s;
        if negb (wc_armed c) && negb owed then Some s
        else
          let prev := ws_draining s in
          let s := set_draining true s in
          s ← (if owed then uwatch_leave w s else Some s);
          c ← cells s !! w;
          s ← (if negb (wc_armed c) then Some s
               else
                 '(now, s) ← uwatch_eval_cond w s;
                 match now with
                 | None => Some s
                 | Some now =>
                     c ← cells s !! w;
                     if negb (wc_armed c) then Some s
                     else
                       s ← on_cell w (c_last now) s;
                       s ← (if now : bool then uwatch_fire w (wc_payload c) false s else if negb owed then uwatch_leave w s else Some s);
                       on_cell w (c_payload UV_NIL) s
                 end);
          uwatch_sweep_list (set_draining prev s)
  end.

(** ** Events *)

Definition event_turn (payload : UValue) (sync : bool) (w : nat) (s : wstate) : option wstate :=
  c ← cells s !! w;
  if negb (wc_armed c) then Some s
  else if decide (wc_mode c = UWATCH_ONCE) then s ← on_cell w (c_armed false) s; Some (uwatch_wake_waiters w payload s)
  else uwatch_fire w payload (sync && bool_decide (wc_mode c = UWATCH_AT_SYNC)) s.

Definition uwatch_event_fired (e : nat) (payload : UValue) (sync : bool) (s : wstate) : option wstate :=
  if bool_decide (subs_of s e = []) then Some s
  else
    let prev := ws_draining s in
    s ← walk_list (fun s => subs_of s e) (event_turn payload sync) (set_draining true s);
    uwatch_sweep_list (set_draining prev s).
End Code.

(** ** Installation *)

Definition fresh_cell (mode : UWatchMode) (tag realm : option nat) (cond : option UClosureK) (event : option nat) (body onleave : option UClosureK) (cb : option nat) : WCell :=
  MkCell mode true false false false cond event body onleave tag realm None UV_NIL cb.

(** A new watcher is appended, in registration order; [None]: out of memory. *)
Definition uwatch_new (c : WCell) (s : wstate) : option nat * wstate :=
  let '(ok, e) := new_cell (env s) in
  let s := set_env e s in
  if negb ok then (None, s)
  else
    let w := ids s in
    (Some w, MkW (<[w := c]> (cells s)) (ws_all s ++ [w]) (subs s) (ndirty s) (ws_draining s) (observing s) (S w) (code s) (log s) (env s)).

Definition uwatch_install (mode : UWatchMode) (tag realm : option nat) (cond : option UClosureK) (event : option nat) (body onleave : option UClosureK) (s : wstate)
    : option nat * wstate :=
  let '(w, s) := uwatch_new (fresh_cell mode tag realm cond event body onleave None) s in
  match w with
  | None => (None, s)
  | Some w =>
      let s := match event with Some e => set_subs (<[e := subs_of s e ++ [w]]> (subs s)) s | None => s end in
      (Some w, if cond then uwatch_mark_dirty s else s)
  end.

Definition uwatch_install_host (tag realm : option nat) (cond : option UClosureK) (cb : nat) (s : wstate) : option nat * wstate :=
  let '(w, s) := uwatch_new (fresh_cell UWATCH_AT tag realm cond None None None (Some cb)) s in
  match w with None => (None, s) | Some w => (Some w, uwatch_mark_dirty s) end.

(** 0: the condition holds, or the strand may not wait; 1: parked on the
    watcher's list; -1: the condition raised, or memory ran out. *)
Definition uwatch_waituntil (run : wstate -> option (option UValue * wstate)) (may_deschedule : bool) (tag realm : option nat) (cond : UClosureK) (s : wstate)
    : option (Z * option nat * wstate) :=
  let prev := observing s in
  '(out, s) ← run (set_observing true s);
  let s := set_observing prev s in
  match out with
  | None => Some (-1, None, s)
  | Some v =>
      if uv_truthy v then Some (0, None, s)
      else if negb may_deschedule then Some (0, None, s)
      else
        let '(w, s) := uwatch_new (fresh_cell UWATCH_WAITUNTIL tag realm (Some cond) None None None None) s in
        match w with
        | None => Some (-1, None, set_env (throw_oom (lit "waituntil: out of memory installing the watcher") (env s)) s)
        | Some w => Some (1, Some w, set_env (park_on w (env s)) s)
        end
  end.

(** ** Cancellation *)

Definition cancel_one (P : WCell -> bool) (m : gmap nat WCell) (w : nat) : gmap nat WCell :=
  match m !! w with Some c => if P c then <[w := c_pending false (c_armed false c)]> m else m | None => m end.
Definition cancel_if (P : WCell -> bool) (s : wstate) : wstate := set_cells (fold_left (cancel_one P) (ws_all s) (cells s)) s.

Definition uwatch_stop_tag (t : nat) (s : wstate) : option wstate := uwatch_sweep_list (cancel_if (fun c => bool_decide (wc_tag c = Some t)) s).
Definition uwatch_drop_realm (r : nat) (s : wstate) : option wstate := uwatch_sweep_list (cancel_if (fun c => bool_decide (wc_realm c = Some r)) s).

(** ** Liveness *)

Definition live_watcher (s : wstate) (w : nat) : bool :=
  match cells s !! w with
  | Some c => wc_armed c && negb (bool_decide (wc_mode c = UWATCH_WAITUNTIL) || bool_decide (wc_mode c = UWATCH_ONCE))
              && (bool_decide (wc_body c <> None) || bool_decide (wc_host_cb c <> None))
  | None => false
  end.
Definition uwatch_live (s : wstate) : bool := existsb (live_watcher s) (ws_all s).

(** ** Scripts *)

Definition do_action (run : wstate -> option (option UValue * wstate)) (a : action) (s : wstate) : option wstate :=
  match a with
  | AInstall mode tag realm cond event body onleave => Some (uwatch_install mode tag realm cond event body onleave s).2
  | AInstallHost tag realm cond cb => Some (uwatch_install_host tag realm cond cb s).2
  | AWait may tag realm cond => '(_, _, s) ← uwatch_waituntil run may tag realm cond s; Some s
  | AStop t => uwatch_stop_tag t s
  | ADropRealm r => uwatch_drop_realm r s
  | AEmit e v sync => uwatch_event_fired run e v sync s
  | AWrite => Some (uwatch_mark_dirty s)
  | ADrain => uwatch_drain run s
  | ABodyDone d => uwatch_body_done run d s
  end.

Fixpoint do_actions (run : wstate -> option (option UValue * wstate)) (l : list action) (s : wstate) : option wstate :=
  match l with [] => Some s | a :: l => s ← do_action run a s; do_actions run l s end.

(** The next call; past the last, calls do nothing and return nil.  A call
    made inside a call is one further down [code], so their number is fuel enough. *)
Fixpoint run_code (fuel : nat) (s : wstate) : option (option UValue * wstate) :=
  match code s with
  | [] => Some (Some UV_NIL, s)
  | (acts, out) :: q =>
      match fuel with
      | O => None
      | S fuel => s ← do_actions (run_code fuel) acts (set_code q s); Some (out, s)
      end
  end.

(** An operation as the rest of the VM performs it. *)
Definition perform (a : action) (s : wstate) : option wstate := do_action (run_code (length (code s))) a s.

(** ** Well-formed watcher lists *)

(** No body could run: there is none, or no realm to run it in, or, where it is
    to be spawned, it is native or does not take the arguments it would get. *)
Definition unable (c : WCell) : Prop :=
  wc_body c = None \/ wc_realm c = None \/
  wc_mode c <> UWATCH_AT_SYNC /\ exists k, wc_body c = Some k /\ (k_proto k = false \/ arity_fits (uwatch_body_argc (Some k)) k = false).

(** A rising edge of [w] is served: its body is run, or there is none that could. *)
Definition served (w : nat) (ev : wevent) : Prop := ev = LRan w \/ exists c, ev = LBare w c /\ unable c.

(** A rising edge of [w] has been served since its last else arm. *)
Definition owed (l : list wevent) (w : nat) : Prop := exists a ev b, l = a ++ ev :: b /\ served w ev /\ LLeft w ∉ b.

(** No else arm runs but for a rising edge that was served. *)
Definition answered (l : list wevent) : Prop := forall a w b, l = a ++ LLeft w :: b -> owed a w.

(** A spare strand can always be had. *)
Definition spares : Prop := forall e, (spare e).1 = true.

(** [x]: a watcher whose [fired] flag is set ahead of the body it announces. *)
Record wf_but (x : option nat) (s : wstate) : Prop := {
  wf_nodup : NoDup (ws_all s);
  wf_cells : forall w, w ∈ ws_all s <-> is_Some (cells s !! w);
  wf_subs : forall e w, w ∈ subs_of s e -> exists c, cells s !! w = Some c /\ wc_event c = Some e;
  wf_subs_nodup : forall e, NoDup (subs_of s e);
  wf_ids : forall w, w ∈ ws_all s -> (w < ids s)%nat;
  wf_owed : spares -> forall w c, x <> Some w -> cells s !! w = Some c -> wc_fired c = true -> owed (log s) w;
  wf_log : spares -> answered (log s) }.

Definition wf : wstate -> Prop := wf_but None.

(** What no operation changes in a watcher; it may only disarm it. *)
Record same_watcher (c c' : WCell) : Prop := {
  sw_mode : wc_mode c' = wc_mode c;
  sw_cond : wc_cond c' = wc_cond c;
  sw_event : wc_event c' = wc_event c;
  sw_onleave : wc_onleave c' = wc_onleave c;
  sw_realm : wc_realm c' = wc_realm c;
  sw_armed : wc_armed c' = true -> wc_armed c = true }.

#[global] Instance same_watcher_pre : PreOrder same_watcher.
Proof.
  split; [by intros c|]. intros a b c [] []. split; try congruence. auto.
Qed.

Definition turns (l : list wevent) : list nat := omap (fun e => match e with LTurn w => Some w | _ => None end) l.

(** From [s] to [s'] with the turns [ts] given: while a walk holds the lists,
    they only grow, at their ends, and every watcher keeps its cell. *)
Record grew (ts : list nat) (s s' : wstate) : Prop := {
  g_draining : ws_draining s' = ws_draining s;
  g_code : (length (code s') <= length (code s))%nat;
  g_all : ws_draining s = true -> exists new, ws_all s' = ws_all s ++ new;
  g_subs : ws_draining s = true -> forall e, exists new, subs_of s' e = subs_of s e ++ new;
  g_cells : ws_draining s = true -> forall w c, cells s !! w = Some c -> exists c', cells s' !! w = Some c' /\ same_watcher c c';
  g_turns : ws_draining s = true -> turns (log s') = turns (log s) ++ ts;
  g_log : exists new, log s' = log s ++ new }.

Lemma grew_refl s : grew [] s s.
Proof.
  split; try done; try (intros; exists []; by rewrite app_nil_r); intros; by rewrite app_nil_r || by eexists.
Qed.

Lemma grew_trans a b s1 s2 s3 : grew a s1 s2 -> grew b s2 s3 -> grew (a ++ b) s1 s3.
Proof.
  intros [H1 H2 H3 H4 H5 H6 H7] [K1 K2 K3 K4 K5 K6 K7]. split.
  - congruence.
  - lia.
  - intros Hd. destruct (H3 Hd) as [n Hn], (K3 ltac:(congruence)) as [m Hm]. exists (n ++ m). by rewrite Hm, Hn, (assoc_L (++)).
  - intros Hd e. destruct (H4 Hd e) as [n Hn], (K4 ltac:(congruence) e) as [m Hm]. exists (n ++ m). by rewrite Hm, Hn, (assoc_L (++)).
  - intros Hd w c Hc. destruct (H5 Hd w c Hc) as (c' & Hc' & Hs). destruct (K5 ltac:(congruence) w c' Hc') as (c2 & Hc2 & Hs2). exists c2. split; [done|by etrans].
  - intros Hd. rewrite (K6 ltac:(congruence)), (H6 Hd). by rewrite (assoc_L (++)).
  - destruct H7 as [n H7], K7 as [m K7]. exists (n ++ m). by rewrite K7, H7, (assoc_L (++)).
Qed.

(** ** Computations that end well *)

(** [m] does not fault, and its result satisfies [Q]. *)
Definition ends {A} (m : option A) (Q : A -> Prop) : Prop := exists x, m = Some x /\ Q x.

Lemma ends_ret {A} (x : A) Q : Q x -> ends (Some x) Q.
Proof. intros. by exists x. Qed.

Lemma ends_bind {A B} (m : option A) (f : A -> option B) P Q : ends m P -> (forall x, P x -> ends (f x) Q) -> ends (m ≫= f) Q.
Proof. intros (x & -> & Hx) Hf. by apply Hf. Qed.

Lemma ends_mono {A} (m : option A) (P Q : A -> Prop) : ends m P -> (forall x, P x -> Q x) -> ends m Q.
Proof. intros (x & E' & Hx) Hi. exists x. auto. Qed.

Ltac ebind L := eapply ends_bind; [eapply L|].

(** [s'] is well formed and has grown from [s] with the turns [ts]. *)
Definition from (x : option nat) (ts : list nat) (s s' : wstate) : Prop := wf_but x s' /\ grew ts s s'.

Lemma from_trans x y a b s1 s2 s3 : from x a s1 s2 -> from y b s2 s3 -> from y (a ++ b) s1 s3.
Proof. intros [_ Hg] [Hw Hg']. split; [done|]. by eapply grew_trans. Qed.

Lemma from_refl x s : wf_but x s -> from x [] s s.
Proof. intros. split; [done|apply grew_refl]. Qed.

(** Fields well-formedness does not read. *)
Lemma wf_ext x s s' : cells s' = cells s -> ws_all s' = ws_all s -> subs s' = subs s -> ids s' = ids s -> log s' = log s -> wf_but x s -> wf_but x s'.
Proof.
  intros Hc Ha Hs Hi Hl [H1 H2 H3 H4 H5 H6 H7]. split; unfold subs_of in *; rewrite ?Hc, ?Ha, ?Hs, ?Hi, ?Hl; done.
Qed.

Lemma grew_ext s s' : cells s' = cells s -> ws_all s' = ws_all s -> subs s' = subs s -> log s' = log s ->
  ws_draining s' = ws_draining s -> (length (code s') <= length (code s))%nat -> grew [] s s'.
Proof.
  intros Hc Ha Hs Hl Hd Hq. split; unfold subs_of; rewrite ?Hc, ?Ha, ?Hs, ?Hl, ?app_nil_r; try done; try (intros; exists []; by rewrite app_nil_r).
  intros _ w c Hw. by exists c.
Qed.

Lemma from_ext x s s' : wf_but x s -> cells s' = cells s -> ws_all s' = ws_all s -> subs s' = subs s -> ids s' = ids s -> log s' = log s ->
  ws_draining s' = ws_draining s -> (length (code s') <= length (code s))%nat -> from x [] s s'.
Proof. intros. split; [by eapply wf_ext|by apply grew_ext]. Qed.

Lemma wf_weaken x s : wf s -> wf_but x s.
Proof. intros [H1 H2 H3 H4 H5 H6 H7]. split; try done. intros Hs w c _. by apply H6. Qed.

Lemma on_cell_ok x w f s c : wf_but x s -> cells s !! w = Some c -> same_watcher c (f c) ->
  (wc_fired (f c) = true -> wc_fired c = true \/ x = Some w \/ (spares -> owed (log s) w)) ->
  ends (on_cell w f s) (fun s' => from x [] s s' /\ s' = set_cells (<[w := f c]> (cells s)) s).
Proof.
  intros Hw Hc Hs Hf. unfold on_cell. rewrite Hc. cbn [mbind option_bind]. apply ends_ret. split; [|done]. destruct Hw as [H1 H2 H3 H4 H5 H6 H7]. split.
  - split; cbn [set_cells cells ws_all subs ids log]; try done.
    + intros v. rewrite H2. destruct (decide (v = w)) as [-> |Hne]; [rewrite lookup_insert_eq, Hc; split; by eexists|by rewrite lookup_insert_ne by done].
    + intros e v Hv. change (subs_of _ e) with (subs_of s e) in Hv. destruct (H3 e v Hv) as (d & Hd & He).
      destruct (decide (v = w)) as [-> |Hne]; [|exists d; by rewrite lookup_insert_ne by done].
      exists (f c). rewrite lookup_insert_eq. split; [done|]. rewrite Hc in Hd. injection Hd as <-. by rewrite (sw_event _ _ Hs).
    + intros Hsp v d Hx. destruct (decide (v = w)) as [-> |Hne]; [|rewrite lookup_insert_ne by done; by apply H6].
      rewrite lookup_insert_eq. intros [= <-] Hfi. destruct (Hf Hfi) as [?|[?|?]]; [by eapply H6|congruence|auto].
  - split; cbn [set_cells]; try done; try (intros; exists []; by rewrite app_nil_r).
    + intros _ v d Hv. cbn [set_cells cells]. destruct (decide (v = w)) as [-> |Hne]; [|exists d; by rewrite lookup_insert_ne by done].
      exists (f c). rewrite lookup_insert_eq. split; [done|]. rewrite Hc in Hv. by injection Hv as <-.
    + intros _. by rewrite app_nil_r.
Qed.

(** A change to a cell no invariant looks at. *)
Lemma on_cell_free x w f s c : wf_but x s -> cells s !! w = Some c -> same_watcher c (f c) -> wc_fired (f c) = wc_fired c ->
  ends (on_cell w f s) (from x [] s).
Proof.
  intros Hw Hc Hs Hf. eapply ends_mono; [eapply (on_cell_ok x w f s c); try done; rewrite Hf; by left|]. by intros s' [? _].
Qed.

Lemma owed_snoc l w e : owed l w -> e <> LLeft w -> owed (l ++ [e]) w.
Proof.
  intros (a & ev & b & -> & Hs & Hb) He. exists a, ev, (b ++ [e]). split; [by rewrite <- (assoc_L (++))|]. split; [done|].
  intros [?|?%list_elem_of_singleton]%elem_of_app; [done|congruence].
Qed.

Lemma answered_snoc l e : answered l -> (forall w, e = LLeft w -> owed l w) -> answered (l ++ [e]).
Proof.
  intros Ha He a w b Hl. destruct b as [|d b _] using rev_ind.
  - apply app_inj_tail in Hl as [-> E']. by apply He.
  - rewrite app_comm_cons, (assoc_L (++)) in Hl. apply app_inj_tail in Hl as [-> _]. by eapply Ha.
Qed.

Lemma note_wf x ev s : wf_but x s -> (forall w, ev = LLeft w -> (spares -> owed (log s) w) /\ (x = Some w \/ forall c, cells s !! w = Some c -> wc_fired c = false)) ->
  wf_but x (note ev s).
Proof.
  intros [H1 H2 H3 H4 H5 H6 H7] He. split; try done; cbn [note log cells].
  - intros Hsp w c Hx Hc Hf. apply owed_snoc; [by eapply H6|]. intros ->. destruct (He w eq_refl) as [_ [?|Hn]]; [congruence|]. by rewrite (Hn c Hc) in Hf.
  - intros Hsp. apply answered_snoc; [by apply H7|]. intros w ->. by apply He.
Qed.

Definition ev_turn (ev : wevent) : list nat := match ev with LTurn w => [w] | _ => [] end.

Lemma note_grew ev s : grew (ev_turn ev) s (note ev s).
Proof.
  split; try done; try (intros; exists []; by rewrite app_nil_r).
  - intros _ w c Hc. by exists c.
  - intros _. unfold turns. cbn [note log]. rewrite omap_app. f_equal. by destruct ev.
  - by exists [ev].
Qed.

Lemma note_plain x ev s : wf_but x s -> (forall w, ev <> LLeft w) -> from x (ev_turn ev) s (note ev s).
Proof. intros Hw He. split; [|apply note_grew]. apply note_wf; [done|]. intros w Hl. by destruct (He w). Qed.

(** The edge announced is served: every obligation is met again. *)
Lemma note_served w ev s : served w ev -> wf_but (Some w) s -> from None [] s (note ev s).
Proof.
  intros Hs Hw. assert (Hn : forall v, ev <> LLeft v) by (by destruct Hs as [-> |(c & -> & _)]).
  assert (Ht : ev_turn ev = []) by (by destruct Hs as [-> |(c & -> & _)]).
  pose proof (note_plain (Some w) ev s Hw Hn) as [[H1 H2 H3 H4 H5 H6 H7] Hg]. rewrite Ht in Hg. split; [|done]. split; try done.
  intros Hsp v c _ Hc Hf. destruct (decide (v = w)) as [-> |Hne]; [|by apply (H6 Hsp v c); [congruence|..]].
  exists (log s), ev, []. split; [done|]. split; [done|]. by apply not_elem_of_nil.
Qed.

Lemma note_ran w s : wf_but (Some w) s -> from None [] s (note (LRan w) s).
Proof. apply note_served. by left. Qed.

Lemma from_code x ts s s' n : from x ts s s' -> (length (code s) <= n)%nat -> (length (code s') <= n)%nat.
Proof. intros [_ Hg] Hl. pose proof (g_code _ _ _ Hg). lia. Qed.

Lemma from_draining x ts s s' : from x ts s s' -> ws_draining s' = ws_draining s.
Proof. intros [_ Hg]. apply Hg. Qed.

Lemma from_cell x ts s s' w c : from x ts s s' -> ws_draining s = true -> cells s !! w = Some c -> exists c', cells s' !! w = Some c' /\ same_watcher c c'.
Proof. intros [_ Hg] Hd. by apply (g_cells _ _ _ Hg Hd). Qed.

(** ** Sweeping *)

Lemma wf_no_spares x s : ~ spares -> wf_but x s -> wf s.
Proof. intros Hn [H1 H2 H3 H4 H5 H6 H7]. split; try done. Qed.

Lemma remove1_keeps w l : NoDup l -> default l (remove1 w l) = filter (fun v => v <> w) l.
Proof.
  induction l as [|v l IH]; [done|]. intros Hn. apply NoDup_cons in Hn as [Hv Hn]. specialize (IH Hn). cbn [remove1]. rewrite filter_cons.
  destruct (decide (w = v)) as [-> |Hne].
  - rewrite (decide_False (P := v <> v)) by tauto. destruct (decide (v = v)) as [_|?]; [|done]. cbn. symmetry. apply list_filter_id. intros u Hu ->. done.
  - rewrite (decide_True (P := v <> w)) by congruence. rewrite <- IH. destruct (decide (v = w)); [congruence|]. by destruct (remove1 w l).
Qed.

Lemma unlink_spec w s : (forall e, NoDup (subs_of s e)) -> forall c, (forall e, w ∈ subs_of s e -> wc_event c = Some e) ->
  forall e, subs_of (uwatch_unlink_event w c s) e = filter (fun v => v <> w) (subs_of s e).
Proof.
  intros Hnd c Hc e. unfold uwatch_unlink_event.
  assert (Hid : w ∉ subs_of s e -> filter (fun v => v <> w) (subs_of s e) = subs_of s e).
  { intros Hn. apply list_filter_id. intros u Hu ->. done. }
  destruct (wc_event c) as [e'|] eqn:Ee.
  - unfold subs_of at 1. cbn [set_subs subs]. destruct (decide (e = e')) as [-> |Hne].
    + rewrite lookup_insert_eq. cbn. by apply remove1_keeps.
    + rewrite lookup_insert_ne by done. fold (subs_of s e). rewrite Hid; [done|]. intros Hin. apply Hc in Hin. congruence.
  - rewrite Hid; [done|]. intros Hin. apply Hc in Hin. congruence.
Qed.

(** Unlinking one watcher. *)
Definition drop_watcher (w : nat) (c : WCell) (s : wstate) : wstate :=
  let s := uwatch_wake_waiters w UV_NIL (uwatch_unlink_event w c s) in note (LGone w) (set_cells (delete w (cells s)) s).

Lemma unlink_fields w c s : cells (uwatch_unlink_event w c s) = cells s /\ ids (uwatch_unlink_event w c s) = ids s /\
  log (uwatch_unlink_event w c s) = log s /\ ws_draining (uwatch_unlink_event w c s) = ws_draining s /\ code (uwatch_unlink_event w c s) = code s /\
  ndirty (uwatch_unlink_event w c s) = ndirty s.
Proof. unfold uwatch_unlink_event. by destruct (wc_event c). Qed.

Lemma drop_watcher_wf w c s pre l : cells s !! w = Some c -> wf (set_all (pre ++ w :: l) s) -> wf (set_all (pre ++ l) (drop_watcher w c s)).
Proof.
  intros Hc [H1 H2 H3 H4 H5 H6 H7]. destruct (unlink_fields w c s) as (F1 & F2 & F3 & _).
  assert (Hsub : forall e, subs_of (set_all (pre ++ l) (drop_watcher w c s)) e = filter (fun v => v <> w) (subs_of s e)).
  { intros e. rewrite <- (unlink_spec w s H4 c); [done|]. intros e' Hin. destruct (H3 e' w Hin) as (d & Hd & He). cbn in Hd. congruence. }
  cbn [set_all ws_all cells ids log] in H1, H2, H5, H6, H7.
  assert (Hw : w ∉ pre ++ l).
  { apply NoDup_app in H1 as (_ & Hd & [Hl _]%NoDup_cons). intros [Hp|Hp]%elem_of_app; [|done]. apply (Hd w Hp). by left. }
  assert (Hin : forall v, v ∈ pre ++ l <-> v <> w /\ v ∈ pre ++ w :: l).
  { intros v. rewrite !elem_of_app, elem_of_cons. split; [intros Hv; split; [intros ->; apply Hw, elem_of_app; tauto|tauto]|tauto]. }
  split; cbn [set_all ws_all].
  - apply NoDup_app in H1 as (Ha & Hd & [_ Hb]%NoDup_cons). apply NoDup_app. split; [done|]. split; [|done]. intros v Hv Hv'. apply (Hd v Hv). by right.
  - intros v. rewrite Hin, H2. change (cells (set_all _ _)) with (delete w (cells (uwatch_unlink_event w c s))). rewrite F1.
    destruct (decide (v = w)) as [-> |Hne]; [rewrite lookup_delete_eq; split; [tauto|by intros [? ?]]|rewrite lookup_delete_ne by done; tauto].
  - intros e v Hv. rewrite Hsub in Hv. apply list_elem_of_filter in Hv as [Hne Hv]. destruct (H3 e v Hv) as (d & Hd & He). exists d. cbn in Hd.
    change (cells (set_all _ _)) with (delete w (cells (uwatch_unlink_event w c s))). rewrite F1. rewrite lookup_delete_ne by done. done.
  - intros e. rewrite Hsub. apply NoDup_filter, (H4 e).
  - intros v Hv. apply Hin in Hv as [_ Hv]. change (ids (set_all _ _)) with (ids (uwatch_unlink_event w c s)). rewrite F2. by apply H5.
  - intros Hsp v d _. change (cells (set_all _ _)) with (delete w (cells (uwatch_unlink_event w c s))). rewrite F1.
    change (log (set_all _ _)) with ((log (uwatch_unlink_event w c s) ++ [LWoke w UV_NIL]) ++ [LGone w]). rewrite F3.
    destruct (decide (v = w)) as [-> |Hne]; [by rewrite lookup_delete_eq|]. rewrite lookup_delete_ne by done. intros Hd Hf.
    apply owed_snoc; [|done]. apply owed_snoc; [|done]. by eapply H6.
  - intros Hsp. change (log (set_all _ _)) with ((log (uwatch_unlink_event w c s) ++ [LWoke w UV_NIL]) ++ [LGone w]). rewrite F3.
    apply answered_snoc; [|done]. apply answered_snoc; [|done]. by apply H7.
Qed.

Definition kept (s : wstate) (w : nat) : bool := match cells s !! w with Some c => stays c | None => false end.

Lemma filter_agree (p q : nat -> bool) (l : list nat) : (forall x, x ∈ l -> p x = q x) -> filter (fun x => p x = true) l = filter (fun x => q x = true) l.
Proof.
  induction l as [|x l IH]; [done|]. intros Hx. rewrite !filter_cons, IH by (intros; apply Hx; by right).
  rewrite (Hx x) by left. done.
Qed.

(** A sweep keeps exactly the watchers that stay, in order. *)
Record swept (l : list nat) (s : wstate) (k : list nat) (s' : wstate) : Prop := {
  sp_kept : k = filter (fun w => kept s w = true) l;
  sp_cells : forall w, cells s' !! w = if decide (w ∈ l /\ w ∉ k) then None else cells s !! w;
  sp_draining : ws_draining s' = ws_draining s;
  sp_code : code s' = code s;
  sp_ndirty : ndirty s' = ndirty s;
  sp_log : exists new, log s' = log s ++ new /\ (forall w, LGone w ∈ new -> LWoke w UV_NIL ∈ new) /\ (forall w, w ∈ l -> w ∉ k -> LGone w ∈ new) /\
    turns new = [] }.

Lemma sweep_walk_ok l : forall pre s, wf (set_all (pre ++ l) s) ->
  ends (sweep_walk l s) (fun p => wf (set_all (pre ++ p.1) p.2) /\ swept l s p.1 p.2).
Proof.
  induction l as [|w l IH]; intros pre s Hw; cbn [sweep_walk].
  { apply ends_ret. split; [done|]. cbn [fst snd]. split; try done.
    exists []. rewrite app_nil_r. split_and!; try done; by intros ? ?%elem_of_nil. }
  destruct (proj1 (wf_cells _ _ Hw w)) as [c Hc]; [cbn; apply elem_of_app; right; by left|]. cbn [set_all cells] in Hc. rewrite Hc. cbn [mbind option_bind].
  assert (Hnl : w ∉ l).
  { pose proof (wf_nodup _ _ Hw) as Hn. cbn in Hn. apply NoDup_app in Hn as (_ & _ & Hn). by apply NoDup_cons in Hn as [? _]. }
  destruct (stays c) eqn:Es.
  - eapply ends_bind; [apply (IH (pre ++ [w])); by rewrite <- (assoc_L (++))|]. intros [k s'] [Hw' [K1 K2 K3 K4 K5 K6]]. apply ends_ret. cbn [fst snd] in *.
    split; [by rewrite <- (assoc_L (++)) in Hw'|]. split; try done.
    + rewrite filter_cons, decide_True by (unfold kept; by rewrite Hc). by rewrite K1.
    + intros v. rewrite K2. destruct (decide (v = w)) as [-> |Hne].
      * rewrite !decide_False; [done|intros [_ Hn]; apply Hn; by left|tauto].
      * apply decide_ext. rewrite !elem_of_cons. tauto.
    + destruct K6 as (new & Hl & Hg & Hall & Ht). exists new. split_and!; try done. intros v [-> |Hv]%elem_of_cons Hk; [destruct Hk; by left|].
      apply Hall; [done|]. intros Hk'. apply Hk. by right.
  - fold (drop_watcher w c s). pose proof (drop_watcher_wf w c s pre l Hc Hw) as Hw1. destruct (unlink_fields w c s) as (F1 & F2 & F3 & F4 & F5 & F6).
    change (cells (uwatch_wake_waiters w UV_NIL (uwatch_unlink_event w c s))) with (cells (uwatch_unlink_event w c s)).
    fold (drop_watcher w c s).
    eapply ends_mono; [apply (IH pre _ Hw1)|]. intros [k s'] [Hw' [K1 K2 K3 K4 K5 K6]]. cbn [fst snd] in *. split; [done|].
    assert (Hcs : cells (drop_watcher w c s) = delete w (cells s)) by (by rewrite <- F1).
    assert (Hk : w ∉ k) by (rewrite K1; by intros [_ ?]%list_elem_of_filter).
    split.
    + rewrite filter_cons, decide_False by (unfold kept; by rewrite Hc, Es). rewrite K1. apply filter_agree. intros v Hv. unfold kept. rewrite Hcs, lookup_delete_ne by congruence. done.
    + intros v. rewrite K2, Hcs. destruct (decide (v = w)) as [-> |Hne].
      * rewrite decide_False by tauto. rewrite lookup_delete_eq, decide_True; [done|]. split; [by left|done].
      * rewrite lookup_delete_ne by done. apply decide_ext. rewrite elem_of_cons. tauto.
    + rewrite K3. exact F4.
    + rewrite K4. exact F5.
    + rewrite K5. exact F6.
    + destruct K6 as (new & Hl & Hg & Hall & Ht). exists (LWoke w UV_NIL :: LGone w :: new). split.
      { rewrite Hl. change (log (drop_watcher w c s)) with ((log (uwatch_unlink_event w c s) ++ [LWoke w UV_NIL]) ++ [LGone w]). by rewrite F3, <- !(assoc_L (++)). }
      split; [|split; [|done]].
      * intros v [?|[[= ->]|Hv]%elem_of_cons]%elem_of_cons; [done|by left|]. right; right. by apply Hg.
      * intros v [-> |Hv]%elem_of_cons Hn; [right; by left|]. right; right. by apply Hall.
Qed.

(** After an operation outside every walk, a watcher still listed is armed or
    owes an else arm to a body in flight. *)
Definition tidy (s : wstate) : Prop := forall w c, w ∈ ws_all s -> cells s !! w = Some c -> stays c = true.

Lemma sweep_ok s : wf s -> ends (uwatch_sweep_list s) (fun s' => from None [] s s' /\ ndirty s' = ndirty s /\ (ws_draining s = false -> tidy s' /\ swept (ws_all s) s (ws_all s') s')).
Proof.
  intros Hw. unfold uwatch_sweep_list. destruct (ws_draining s) eqn:Ed; [apply ends_ret; split_and!; [by apply from_refl|done|done]|].
  eapply ends_bind; [apply (sweep_walk_ok (ws_all s) []); by destruct s|]. intros [l s'] [Hw' Hs]. apply ends_ret. cbn [fst snd app] in *.
  pose proof Hs as [K1 K2 K3 K4 K5 K6]. split_and!; [split; [done|]|done|].
  - destruct K6 as (new & Hl & _). split; cbn [set_all ws_draining code log]; try (rewrite Ed; done); try congruence; [by rewrite K4|by exists new].
  - intros _. split; [|by split].
    intros w c Hin Hc. cbn [set_all ws_all cells] in *. rewrite K2 in Hc. destruct (decide _) in Hc; [done|].
    rewrite K1 in Hin. apply list_elem_of_filter in Hin as [Hst _]. unfold kept in Hst. by rewrite Hc in Hst.
Qed.

(** ** Every operation returns, and leaves the lists well formed *)

(** A closure that has not run yet owes nothing to a watcher that has settled. *)
Lemma settle w s : wf_but (Some w) s -> (spares -> forall c, cells s !! w = Some c -> wc_fired c = true -> owed (log s) w) -> wf s.
Proof.
  intros [H1 H2 H3 H4 H5 H6 H7] Hw. split; try done. intros Hsp v c _ Hc Hf. destruct (decide (v = w)) as [-> |Hne]; [by eapply Hw|].
  apply (H6 Hsp v c); [congruence|done..].
Qed.

Lemma from_settled w ts s s' : from (Some w) ts s s' -> wf s' -> from None ts s s'.
Proof. intros [_ Hg] Hw. by split. Qed.

(** The step from [s1] to [s2], then a computation from [s2]. *)
Lemma ends_from x y s1 s2 (m : option wstate) : from x [] s1 s2 -> ends m (from y [] s2) -> ends m (from y [] s1).
Proof. intros Hf Hm. eapply ends_mono; [exact Hm|]. intros s3 Hs. exact (from_trans x y [] [] s1 s2 s3 Hf Hs). Qed.

Lemma env_from x e s : wf_but x s -> from x [] s (set_env e s).
Proof. intros. by apply from_ext. Qed.

Lemma same_watcher_refl c : same_watcher c c.
Proof. reflexivity. Qed.
#[local] Hint Resolve same_watcher_refl : core.

Section Safe.
Context (run : wstate -> option (option UValue * wstate)) (n : nat).
Hypothesis run_ok : forall s, wf s -> (length (code s) <= n)%nat -> ends (run s) (fun p => from None [] s p.2).

(** A walk is under way, [w] is on its list, and [n] calls at most are left. *)
Definition ready (w : nat) (s : wstate) : Prop := ws_draining s = true /\ (length (code s) <= n)%nat /\ is_Some (cells s !! w).

Lemma ready_from w x ts s s' : ready w s -> from x ts s s' -> ready w s'.
Proof.
  intros (Hd & Hn & c & Hc) Hf. split_and!; [by rewrite (from_draining _ _ _ _ Hf)|by eapply from_code|].
  destruct (from_cell _ _ _ _ _ _ Hf Hd Hc) as (c' & Hc' & _). by exists c'.
Qed.

(** A field no invariant reads, through a pointer to a watcher that is there. *)
Lemma put_ok x w f s : (forall c, same_watcher c (f c) /\ wc_fired (f c) = wc_fired c) -> wf_but x s -> ready w s -> ends (on_cell w f s) (from x [] s).
Proof. intros Hf Hw (_ & _ & c & Hc). apply (on_cell_free x w f s c Hw Hc); apply Hf. Qed.

Lemma payload_plain v c : same_watcher c (c_payload v c) /\ wc_fired (c_payload v c) = wc_fired c.
Proof. done. Qed.
Lemma last_plain b c : same_watcher c (c_last b c) /\ wc_fired (c_last b c) = wc_fired c.
Proof. done. Qed.
Lemma pending_plain b c : same_watcher c (c_pending b c) /\ wc_fired (c_pending b c) = wc_fired c.
Proof. done. Qed.
Lemma strand_plain st c : same_watcher c (c_strand st c) /\ wc_fired (c_strand st c) = wc_fired c.
Proof. done. Qed.
Lemma disarm_plain c : same_watcher c (c_armed false c) /\ wc_fired (c_armed false c) = wc_fired c.
Proof. done. Qed.
#[local] Hint Resolve payload_plain last_plain pending_plain strand_plain disarm_plain : core.

(** Calling script, whatever the flags around it. *)
Lemma run_from s : wf s -> (length (code s) <= n)%nat -> ends (run s) (fun p => from None [] s p.2).
Proof. apply run_ok. Qed.

Lemma observed_ok b s : wf s -> (length (code s) <= n)%nat ->
  ends (run (set_observing b s)) (fun p => from None [] s (set_observing (observing s) p.2)).
Proof.
  intros Hw Hn. eapply ends_mono; [apply run_ok; [by eapply wf_ext; [..|exact Hw]|done]|]. intros [out s'] Hf. cbn [snd] in *.
  assert (H1 : from None [] s (set_observing b s)) by (by apply from_ext).
  pose proof (from_trans _ _ [] [] _ _ _ H1 Hf) as H2. exact (from_trans _ _ [] [] _ _ _ H2 (from_ext None s' (set_observing (observing s) s') (proj1 Hf) eq_refl eq_refl eq_refl eq_refl eq_refl eq_refl (le_n _))).
Qed.

Lemma eval_cond_ok w s : wf s -> ready w s -> ends (uwatch_eval_cond run w s) (fun p => from None [] s p.2).
Proof.
  intros Hw Hr. pose proof Hr as (Hd & Hn & c & Hc). unfold uwatch_eval_cond. rewrite Hc. cbn [mbind option_bind].
  assert (Hs : from None [] s s) by (by apply from_refl).
  destruct (wc_cond c), (wc_realm c) as [r|]; try (by apply ends_ret). destruct (has_globals r (env s)); cbn [negb]; [|by apply ends_ret].
  destruct (spare (env s)) as [ok e]. pose proof (env_from None e s Hw) as He. destruct ok; cbn [negb]; [|by apply ends_ret].
  eapply ends_bind; [apply (observed_ok true (set_env e s)); [apply He|done]|]. intros [out s'] Hf. cbn [snd] in Hf.
  pose proof (from_trans _ _ [] [] _ _ _ He Hf) as H2. destruct out as [v|].
  - eapply ends_bind; [eapply (put_ok None w (c_payload v)); [auto|apply Hf|by eapply ready_from]|]. intros s2 H3. apply ends_ret. exact (from_trans _ _ [] [] _ _ _ H2 H3).
  - pose proof (env_from None (complain (lit "at condition raised: ") (env s')) _ (proj1 Hf)) as H4.
    pose proof (from_trans _ _ [] [] _ _ _ H2 H4) as H5.
    eapply ends_bind; [eapply (put_ok None w (c_armed false)); [auto|apply H4|by eapply ready_from]|]. intros s2 H3. apply ends_ret. exact (from_trans _ _ [] [] _ _ _ H5 H3).
Qed.

Lemma put_eq x w f s c : (forall c, same_watcher c (f c) /\ wc_fired (f c) = wc_fired c) -> wf_but x s -> cells s !! w = Some c ->
  ends (on_cell w f s) (fun s' => from x [] s s' /\ s' = set_cells (<[w := f c]> (cells s)) s).
Proof. intros Hf Hx Hc. apply on_cell_ok; [done|done|apply Hf|]. rewrite (proj2 (Hf c)). by left. Qed.

(** Noting [ev] settles the watcher, in every state that differs from [s] in
    nothing it depends on. *)
Definition settles (x : option nat) (ev : wevent) (w : nat) (b : bool) (s : wstate) : Prop :=
  forall s', wf_but x s' -> log s' = log s -> (forall d, cells s' !! w = Some d -> wc_fired d = b) -> from None [] s' (note ev s').

(** Running a closure in place, or not, for want of one or of a realm. *)
Lemma run_inline_ok ev w cl v what x s c : wf_but x s -> ready w s -> cells s !! w = Some c -> settles x ev w (wc_fired c) s ->
  ends (uwatch_run_inline run ev w cl v what s) (fun s' => if bool_decide (cl <> None) && bool_decide (wc_realm c <> None) then from None [] s s' else s' = s).
Proof.
  intros Hx Hr Hc Hev. pose proof Hr as (Hd & Hn & _). unfold uwatch_run_inline. rewrite Hc. cbn [mbind option_bind].
  destruct cl, (wc_realm c) as [r|]; try (by apply ends_ret). cbn [bool_decide_true andb]. rewrite !bool_decide_true by done. cbn [andb].
  destruct (spare (env s)) as [ok e] eqn:Es. pose proof (env_from x e s Hx) as He. destruct ok; cbn [negb].
  - eapply ends_bind; [apply (put_eq x w (c_payload v) _ c (payload_plain _) (proj1 He) Hc)|]. intros s2 [H2 E2].
    assert (Hnote : from None [] s2 (note ev s2)) by (apply Hev; [apply H2|by rewrite E2|]; intros d; rewrite E2; cbn; rewrite lookup_insert_eq; by intros [= <-]).
    pose proof (from_trans _ _ [] [] _ _ _ (from_trans _ _ [] [] _ _ _ He H2) Hnote) as H3. unfold call_closure.
    eapply ends_bind; [apply run_ok; [apply Hnote|by eapply from_code]|]. intros [out s3] H4. cbn [snd] in H4.
    pose proof (from_trans _ _ [] [] _ _ _ H3 H4) as H5.
    eapply ends_bind; [eapply (put_ok None w (c_payload UV_NIL)); [auto|apply H4|by eapply ready_from]|]. intros s4 H6. apply ends_ret.
    pose proof (from_trans _ _ [] [] _ _ _ H5 H6) as H7. destruct out; [done|].
    exact (from_trans _ _ [] [] _ _ _ H7 (env_from None _ s4 (proj1 H6))).
  - apply ends_ret. assert (Hw : wf s) by (eapply wf_no_spares; [|done]; intros Hsp; specialize (Hsp (env s)); by rewrite Es in Hsp).
    by apply env_from.
Qed.

(** Spawning: a strand is had, and [ev] noted; or nothing is, and [fired] is as
    it was. *)
Lemma spawn_ok ev w cl v what x s c : wf_but x s -> ready w s -> cells s !! w = Some c -> settles x ev w (wc_fired c) s ->
  ends (uwatch_spawn ev w cl v what s) (fun '(rc, st, s') =>
    match st with
    | Some _ => rc = 0 /\ from None [] s s'
    | None => from x [] s s' /\ log s' = log s /\ (exists c', cells s' !! w = Some c' /\ wc_fired c' = wc_fired c) /\
        (rc = 0 -> cl = None \/ wc_realm c = None \/ exists k, cl = Some k /\ (k_proto k = false \/ arity_fits (uwatch_body_argc (Some k)) k = false))
    end).
Proof.
  intros Hx Hr Hc Hev. unfold uwatch_spawn. rewrite Hc. cbn [mbind option_bind].
  destruct cl as [k|]; [|apply ends_ret; split_and!; [by apply from_refl|done|by exists c|tauto]].
  destruct (wc_realm c) as [r|]; [|apply ends_ret; split_and!; [by apply from_refl|done|by exists c|tauto]]. cbv zeta.
  destruct (_ || _) eqn:Eq.
  { apply ends_ret. split_and!; [by apply from_refl|done|by exists c|]. intros _. right; right. exists k. split; [done|]. apply orb_true_iff in Eq as [?|?]; [left|right]; by apply negb_true_iff. }
  eapply ends_bind; [apply (put_eq x w (c_payload v) s c); auto|]. intros s1 [H1 E1]. unfold start_strand.
  destruct (spawn k _ _ _ (env s1)) as [st e]. pose proof (env_from x e s1 (proj1 H1)) as H2.
  assert (Hc1 : cells (set_env e s1) !! w = Some (c_payload v c)) by (rewrite E1; apply lookup_insert_eq).
  pose proof (from_trans _ _ [] [] _ _ _ H1 H2) as H3. destruct st as [st|].
  - assert (Hnote : from None [] (set_env e s1) (note ev (set_env e s1))) by (apply Hev; [apply H2|by rewrite E1|]; intros d; rewrite Hc1; by intros [= <-]).
    eapply ends_bind; [eapply (put_eq None w (c_payload UV_NIL) _ _ (payload_plain _) (proj1 Hnote) Hc1)|]. intros s2 [H4 _]. apply ends_ret. split; [done|].
    exact (from_trans _ _ [] [] _ _ _ (from_trans _ _ [] [] _ _ _ H3 Hnote) H4).
  - eapply ends_bind; [eapply (put_eq x w (c_payload UV_NIL) _ _ (payload_plain _) (proj1 H2) Hc1)|]. intros s2 [H4 E2].
    assert (Hc2 : cells s2 !! w = Some (c_payload UV_NIL (c_payload v c))) by (rewrite E2; apply lookup_insert_eq).
    apply ends_ret. split_and!; [|by cbn; rewrite E2, E1|by eexists|done].
    exact (from_trans _ _ [] [] _ _ _ (from_trans _ _ [] [] _ _ _ H3 H4) (env_from x _ s2 (proj1 H4))).
Qed.

(** Setting [fired] back to what it was, or clearing it. *)
Lemma fired_ok x w b s : wf_but x s -> ready w s -> x = Some w \/ x = None -> (spares -> b = true -> owed (log s) w) ->
  ends (on_cell w (c_fired b) s) (fun s' => from None [] s s' /\ log s' = log s /\ exists c', cells s' !! w = Some c' /\ wc_fired c' = b).
Proof.
  intros Hx (Hd & Hn & c & Hc) Hxw Hb. eapply ends_mono; [apply (on_cell_ok x w (c_fired b) s c Hx Hc); [done|]; cbn [c_fired wc_fired]; auto|].
  intros s' [H1 E1]. assert (Hc' : cells s' !! w = Some (c_fired b c)) by (rewrite E1; apply lookup_insert_eq).
  split_and!; [|by rewrite E1|by eexists]. destruct Hxw as [-> | ->]; [|done]. apply (from_settled w); [done|]. apply (settle w); [apply H1|].
  intros Hsp d Hd'. rewrite Hc' in Hd'. injection Hd' as <-. rewrite E1. auto.
Qed.

Lemma wf_fired w s c : wf s -> cells s !! w = Some c -> spares -> wc_fired c = true -> owed (log s) w.
Proof. intros Hw Hc Hsp. by apply (wf_owed _ _ Hw Hsp w c). Qed.

Lemma dirty_from x s : wf_but x s -> from x [] s (uwatch_mark_dirty s).
Proof. intros Hw. unfold uwatch_mark_dirty. destruct (_ =? _); [by apply from_refl|by apply from_ext]. Qed.

Lemma ran_settles w b s : settles (Some w) (LRan w) w b s.
Proof. intros s' Hs' _ _. by apply note_ran. Qed.

Lemma left_settles w s s1 c : wf s -> cells s !! w = Some c -> wc_fired c = true -> log s1 = log s -> settles None (LLeft w) w false s1.
Proof.
  intros Hw Hc Hf Hl1 s' Hs' Hl Hd'. split; [|exact (note_grew (LLeft w) s')]. apply note_wf; [done|]. intros v [= <-]. split; [|by right].
  intros Hsp. rewrite Hl, Hl1. by apply (wf_fired w s c).
Qed.

Lemma fire_ok w v b s : wf s -> ready w s -> (b = true -> forall c, cells s !! w = Some c -> wc_mode c = UWATCH_AT_SYNC) ->
  ends (uwatch_fire run w v b s) (from None [] s).
Proof.
  intros Hw Hr Hb. pose proof Hr as (Hd & Hn & c & Hc). unfold uwatch_fire. rewrite Hc. cbn [mbind option_bind].
  eapply ends_bind; [apply (on_cell_ok (Some w) w (c_fired true) s c (wf_weaken _ _ Hw) Hc); [done|by right; left]|]. intros s1 [H1 E1].
  assert (Hr1 : ready w s1) by (by eapply ready_from).
  assert (Hc1 : cells s1 !! w = Some (c_fired true c)) by (rewrite E1; apply lookup_insert_eq).
  destruct (wc_host_cb c) as [cb|].
  - pose proof (env_from (Some w) (host_call cb v (env s1)) s1 (proj1 H1)) as H2. pose proof (note_ran w _ (proj1 H2)) as H3.
    pose proof (from_trans _ _ [] [] _ _ _ (from_trans _ _ [] [] _ _ _ H1 H2) H3) as H4. unfold call_closure.
    eapply ends_bind; [apply run_ok; [apply H3|by eapply from_code]|]. intros [out s2] H5. apply ends_ret. exact (from_trans _ _ [] [] _ _ _ H4 H5).
  - destruct (_ || b) eqn:Em.
    { eapply ends_bind; [apply (run_inline_ok (LRan w) w (wc_body c) v _ (Some w) s1 _ (proj1 H1) Hr1 Hc1), ran_settles|].
      intros s2 H2. apply ends_ret. change (wc_realm (c_fired true c)) with (wc_realm c) in H2. fold (can_enter c) in H2. destruct (can_enter c) eqn:Ec.
      - exact (from_trans _ _ [] [] _ _ _ H1 H2).
      - subst s2. refine (from_trans _ _ [] [] _ _ _ H1 (note_served w _ s1 _ (proj1 H1))). right. exists c. split; [done|].
        apply andb_false_iff in Ec as [Ec%bool_decide_eq_false|Ec%bool_decide_eq_false]; [left|right; left]; by apply dec_stable. }
    apply orb_false_iff in Em as [Em%bool_decide_eq_false _]. cbv zeta.
    eapply ends_bind; [apply (spawn_ok (LRan w) w (wc_body c) v _ (Some w) s1 _ (proj1 H1) Hr1 Hc1), ran_settles|]. intros [[rc st] s2] H2.
    assert (Hserved : rc = 0 -> from None [] s (match st with Some _ => s2 | None => note (LBare w c) s2 end)).
    { intros Hrc. destruct st; [exact (from_trans _ _ [] [] _ _ _ H1 (proj2 H2))|]. destruct H2 as (H2 & _ & _ & Hu).
      refine (from_trans _ _ [] [] _ _ _ (from_trans _ _ [] [] _ _ _ H1 H2) (note_served w _ s2 _ (proj1 H2))). right. exists c. split; [done|].
      destruct (Hu Hrc) as [?|[?|?]]; [by left|by right; left|by right; right]. }
    destruct (rc =? 0) eqn:Erc; zbool; cbn [negb].
    + specialize (Hserved Erc). destruct (_ && _); [|by apply ends_ret]. eapply ends_from; [exact Hserved|]. apply put_ok; [auto|apply Hserved|exact (ready_from _ _ _ _ _ Hr Hserved)].
    + destruct st; [destruct H2 as [? _]; lia|]. destruct H2 as (H2 & Hl & _). pose proof (from_trans _ _ [] [] _ _ _ H1 H2) as H3.
      eapply ends_bind; [apply (fired_ok (Some w) w (wc_fired c) s2 (proj1 H2)); [exact (ready_from _ _ _ _ _ Hr1 H2)|by left|]|].
      { intros Hsp Hf. rewrite Hl, E1. by apply (wf_fired w s c). }
      intros s3 (H4 & _). pose proof (from_trans _ _ [] [] _ _ _ H3 H4) as H5. destruct (wc_cond c); [|by apply ends_ret].
      eapply ends_bind; [apply (put_ok None w (c_last false)); [auto|apply H4|exact (ready_from _ _ _ _ _ Hr H5)]|]. intros s4 H6. apply ends_ret.
      exact (from_trans _ _ [] [] _ _ _ (from_trans _ _ [] [] _ _ _ H5 H6) (dirty_from None s4 (proj1 H6))).
Qed.

Lemma leave_ok w s : wf s -> ready w s -> ends (uwatch_leave run w s) (from None [] s).
Proof.
  intros Hw Hr. pose proof Hr as (Hd & Hn & c & Hc). unfold uwatch_leave. rewrite Hc. cbn [mbind option_bind].
  destruct (_ || _) eqn:Eq; [apply ends_ret; by apply from_refl|]. apply orb_false_iff in Eq as [_ Hf%negb_false_iff].
  eapply ends_bind; [apply (fired_ok None w false s Hw Hr); [by right|done]|]. intros s1 (H1 & Hl1 & c1 & Hc1 & Hf1).
  assert (Hr1 : ready w s1) by (by eapply ready_from). pose proof (left_settles w s s1 c Hw Hc Hf Hl1) as Hleft. rewrite <- Hf1 in Hleft.
  destruct (decide (wc_mode c = UWATCH_AT_SYNC)).
  - eapply ends_mono; [apply (run_inline_ok (LLeft w) w _ _ _ None s1 c1 (proj1 H1) Hr1 Hc1 Hleft)|]. intros s2 H2.
    destruct (_ && _); [exact (from_trans _ _ [] [] _ _ _ H1 H2)|by subst].
  - eapply ends_bind; [apply (spawn_ok (LLeft w) w _ _ _ None s1 c1 (proj1 H1) Hr1 Hc1 Hleft)|]. intros [[rc st] s2] H2.
    assert (H3 : from None [] s s2) by (destruct st; exact (from_trans _ _ [] [] _ _ _ H1 ltac:(apply H2))).
    destruct (rc =? 0) eqn:Erc; zbool; cbn [negb]; [by apply ends_ret|]. destruct st; [destruct H2 as [? _]; lia|]. destruct H2 as (H2 & Hl2 & _).
    eapply ends_bind; [apply (fired_ok None w true s2 (proj1 H2)); [exact (ready_from _ _ _ _ _ Hr1 H2)|by right|]|].
    { intros Hsp _. rewrite Hl2, Hl1. by apply (wf_fired w s c). }
    intros s3 (H4 & _). apply ends_ret. pose proof (from_trans _ _ [] [] _ _ _ H3 H4) as H5. exact (from_trans _ _ [] [] _ _ _ H5 (dirty_from None s3 (proj1 H4))).
Qed.

(** A watcher a drain asks when its turn comes. *)
Definition askable (w : nat) (s : wstate) : bool :=
  match cells s !! w with Some c => wc_armed c && bool_decide (wc_cond c <> None) | None => false end.
Definition asks (b : bool) (w : nat) : list nat := if b then [w] else [].

Lemma askable_stays w ts s s' : ws_draining s = true -> is_Some (cells s !! w) -> from None ts s s' -> askable w s = false -> askable w s' = false.
Proof.
  intros Hd [c Hc] Hf Ha. destruct (from_cell _ _ _ _ _ _ Hf Hd Hc) as (c' & Hc' & Hs). unfold askable in *. rewrite Hc in Ha. rewrite Hc'.
  apply not_true_iff_false. intros [Harm Hcond]%andb_true_iff. rewrite (sw_armed _ _ Hs Harm), <- (sw_cond _ _ Hs) in Ha. by rewrite Hcond in Ha.
Qed.

Lemma wake_from w v s : wf s -> from None [] s (uwatch_wake_waiters w v s).
Proof.
  intros Hw. pose proof (env_from None (wake_waiters w v (env s)) s Hw) as H1.
  exact (from_trans _ _ [] [] _ _ _ H1 (note_plain None (LWoke w v) _ (proj1 H1) ltac:(done))).
Qed.

Lemma then_put s0 s1 w f ts : (forall c, same_watcher c (f c) /\ wc_fired (f c) = wc_fired c) -> ready w s0 -> from None ts s0 s1 -> ends (on_cell w f s1) (from None ts s0).
Proof.
  intros Hf Hr H1. eapply ends_mono; [apply (put_ok None w f s1 Hf (proj1 H1)), (ready_from _ _ _ _ _ Hr H1)|]. intros s2 H2.
  pose proof (from_trans _ _ ts [] _ _ _ H1 H2) as H3. by rewrite app_nil_r in H3.
Qed.

Lemma drain_turn_ok w s : wf s -> ready w s -> ends (drain_turn run w s) (from None (asks (askable w s) w) s).
Proof.
  intros Hw Hr. pose proof Hr as (Hd & Hn & c & Hc). unfold drain_turn, askable. rewrite Hc. cbn [mbind option_bind].
  destruct (wc_armed c) eqn:Ea; cbn [negb orb andb asks]; [|apply ends_ret; by apply from_refl].
  destruct (decide (wc_cond c = None)) as [En|En]; [rewrite bool_decide_true, bool_decide_false by tauto; apply ends_ret; by apply from_refl|].
  rewrite bool_decide_false, bool_decide_true by done. cbn [asks].
  pose proof (note_plain None (LTurn w) s Hw ltac:(done)) as H1. cbn [ev_turn] in H1.
  assert (Hr1 : ready w (note (LTurn w) s)) by exact (ready_from _ _ _ _ _ Hr H1).
  eapply ends_bind; [apply eval_cond_ok; [apply H1|done]|]. intros [now s1] H2. cbn [snd] in H2.
  assert (H3 : from None [w] s s1) by exact (from_trans _ _ [w] [] _ _ _ H1 H2). destruct now as [now|]; [|by apply ends_ret].
  pose proof (ready_from _ _ _ _ _ Hr H3) as (Hd3 & Hn3 & c1 & Hc1). rewrite Hc1. cbn [mbind option_bind].
  destruct (wc_armed c1); cbn [negb]; [|by apply ends_ret].
  eapply ends_bind; [apply (then_put s s1 w (c_last now) [w]); auto|]. intros s2 H4.
  assert (Hr4 : ready w s2) by exact (ready_from _ _ _ _ _ Hr H4).
  apply (ends_bind _ _ (from None [w] s)); [|intros s3 H5; apply (then_put s s3 w (c_payload UV_NIL) [w]); auto].
  assert (Hgo : forall m, ends m (from None [] s2) -> ends m (from None [w] s)).
  { intros m Hm. eapply ends_mono; [exact Hm|]. intros s3 H5. exact (from_trans _ _ [w] [] _ _ _ H4 H5). }
  destruct (now && negb (wc_last c1)).
  - destruct (decide (wc_mode c1 = UWATCH_WAITUNTIL)).
    + eapply ends_bind; [apply (then_put s s2 w (c_armed false) [w]); auto|]. intros s3 H5. apply ends_ret.
      exact (from_trans _ _ [w] [] _ _ _ H5 (wake_from w UV_NIL s3 (proj1 H5))).
    + destruct (_ && _); [by apply ends_ret|]. apply Hgo, fire_ok; [apply H4|done|done].
  - destruct (negb now && _); [|by apply ends_ret]. destruct (_ && _); [apply (then_put s s2 w (c_pending true) [w]); auto|].
    apply Hgo, leave_ok; [apply H4|done].
Qed.

Lemma event_turn_ok v sync w s : wf s -> ready w s -> ends (event_turn run v sync w s) (from None [] s).
Proof.
  intros Hw Hr. pose proof Hr as (Hd & Hn & c & Hc). unfold event_turn. rewrite Hc. cbn [mbind option_bind].
  destruct (wc_armed c); cbn [negb]; [|apply ends_ret; by apply from_refl].
  destruct (decide (wc_mode c = UWATCH_ONCE)); [|apply fire_ok; [done|done|]; intros [_ Hm%bool_decide_eq_true]%andb_true_iff c' Hc'; congruence].
  eapply ends_bind; [apply (then_put s s w (c_armed false) []); auto; by apply from_refl|]. intros s1 H1. apply ends_ret.
  exact (from_trans _ _ [] [] _ _ _ H1 (wake_from w v s1 (proj1 H1))).
Qed.

(** One turn for each watcher of a list fixed beforehand. *)
Fixpoint each_turn (turn : nat -> wstate -> option wstate) (l : list nat) (s : wstate) : option wstate :=
  match l with [] => Some s | w :: l => s ← turn w s; each_turn turn l s end.

Section Walk.
Context (list_of : wstate -> list nat) (turn : nat -> wstate -> option wstate) (ask : nat -> wstate -> bool).
Hypothesis list_grows : forall ts s s', ws_draining s = true -> grew ts s s' -> exists new, list_of s' = list_of s ++ new.
Hypothesis list_nodup : forall s, wf s -> NoDup (list_of s).
Hypothesis list_cells : forall s w, wf s -> w ∈ list_of s -> is_Some (cells s !! w).
Hypothesis turn_ok : forall w s, wf s -> ready w s -> ends (turn w s) (from None (asks (ask w s) w) s).
Hypothesis ask_stays : forall w ts s s', ws_draining s = true -> is_Some (cells s !! w) -> from None ts s s' -> ask w s = false -> ask w s' = false.

Lemma next_on_app w pre l : w ∉ pre -> next_on w (pre ++ w :: l) = head l.
Proof.
  induction pre as [|v pre IH]; intros Hw; cbn; [by destruct (decide (w = w))|]. destruct (decide (v = w)) as [-> |Hne]; [destruct Hw; by left|].
  apply IH. intros ?. apply Hw. by right.
Qed.

(** The list read again at each step only grows at its end, past [last_w]. *)
Lemma live_walk_each l : forall w pre tl last_w s fuel, list_of s = pre ++ (w :: l) ++ tl -> last (w :: l) = Some last_w -> (length (w :: l) <= fuel)%nat ->
  wf s -> ws_draining s = true -> (length (code s) <= n)%nat ->
  live_walk fuel list_of turn last_w (Some w) s = each_turn turn (w :: l) s.
Proof.
  induction l as [|x l IH]; intros w pre tl last_w s fuel Hl Hlast Hfuel Hw Hd Hn; (destruct fuel as [|fuel]; [cbn in Hfuel; lia|]); cbn [live_walk each_turn].
  - injection Hlast as ->. destruct (decide (last_w = last_w)); [|done]. destruct (turn last_w s) as [s1|]; [|done]. by destruct fuel.
  - pose proof (list_nodup s Hw) as Hnd. rewrite Hl in Hnd. apply NoDup_app in Hnd as (_ & Hdj & Hnd).
    assert (Hne : w <> last_w).
    { intros ->. rewrite last_cons_cons in Hlast. apply last_Some_elem_of in Hlast. cbn in Hnd. apply NoDup_cons in Hnd as [Hnin _]. apply Hnin. rewrite app_comm_cons. apply elem_of_app. by left. }
    rewrite (decide_False (P := w = last_w)) by done. rewrite Hl. cbn [app]. rewrite next_on_app by (intros Hin; apply (Hdj w Hin); by left). cbn [head app].
    assert (Hr : ready w s).
    { split_and!; [done|done|]. apply list_cells; [done|]. rewrite Hl. apply elem_of_app. right. by left. }
    destruct (turn_ok w s Hw Hr) as (s1 & -> & Hf). cbn [mbind option_bind]. destruct (list_grows _ _ _ Hd (proj2 Hf)) as [new Hnew].
    apply (IH x (pre ++ [w]) (tl ++ new)); [|by rewrite last_cons_cons in Hlast|cbn in *; lia|apply Hf|by rewrite (from_draining _ _ _ _ Hf)|by eapply from_code].
    rewrite Hnew, Hl. by list_simplifier.
Qed.

Lemma walk_list_each s : wf s -> ws_draining s = true -> (length (code s) <= n)%nat -> walk_list list_of turn s = each_turn turn (list_of s) s.
Proof.
  intros Hw Hd Hn. unfold walk_list. destruct (list_of s) as [|w l] eqn:El; [done|]. destruct (last (w :: l)) as [last_w|] eqn:Ela; [|by apply last_None in Ela].
  cbn [head]. apply (live_walk_each l w [] []); try done. by rewrite El, app_nil_r.
Qed.

Lemma each_turn_ok l : forall s, wf s -> ws_draining s = true -> (length (code s) <= n)%nat -> (forall w, w ∈ l -> is_Some (cells s !! w)) ->
  ends (each_turn turn l s) (fun s' => exists ts, from None ts s s' /\ ts `sublist_of` l /\ (forall w, w ∈ l -> w ∉ ts -> ask w s' = false) /\ (forall w, w ∈ ts -> exists s1, ask w s1 = true)).
Proof.
  induction l as [|w l IH]; intros s Hw Hd Hn Hl; cbn [each_turn].
  { apply ends_ret. exists []. split_and!; [by apply from_refl|done|by intros w ?%elem_of_nil|by intros w ?%elem_of_nil]. }
  assert (Hr : ready w s) by (split_and!; [done|done|apply Hl; by left]).
  eapply ends_bind; [by apply turn_ok|]. intros s1 H1.
  eapply ends_mono; [apply IH; [apply H1|by rewrite (from_draining _ _ _ _ H1)|by eapply from_code|]|].
  { intros v Hv. destruct (Hl v) as [c Hc]; [by right|]. destruct (from_cell _ _ _ _ _ _ H1 Hd Hc) as (c' & Hc' & _). by exists c'. }
  intros s2 (ts & H2 & Hsub & Hask & Hasked). exists (asks (ask w s) w ++ ts). pose proof (from_trans _ _ _ _ _ _ _ H1 H2) as H3. split; [done|].
  destruct (ask w s) eqn:Ea; cbn [asks app].
  - split; [by apply sublist_skip|]. split; [|intros v [-> |Hv]%elem_of_cons; [by exists s|by apply Hasked]].
    intros v [-> |Hv]%elem_of_cons Hn'; [destruct Hn'; by left|]. apply Hask; [done|]. intros ?. apply Hn'. by right.
  - split; [by apply sublist_cons|]. split; [|done]. intros v [-> |Hv]%elem_of_cons Hn'; [|by apply Hask]. eapply ask_stays; [exact Hd|apply Hl; by left|exact H3|done].
Qed.

Lemma walk_list_ok s : wf s -> ws_draining s = true -> (length (code s) <= n)%nat ->
  ends (walk_list list_of turn s) (fun s' => exists ts, from None ts s s' /\ ts `sublist_of` list_of s /\ (forall w, w ∈ list_of s -> w ∉ ts -> ask w s' = false) /\ (forall w, w ∈ ts -> exists s1, ask w s1 = true)).
Proof. intros Hw Hd Hn. rewrite walk_list_each by done. apply each_turn_ok; try done. intros w Hin. by apply list_cells. Qed.
End Walk.

(** The flag a walk raises is put back as it was found. *)
Lemma bracket s s1 ts prev : from None ts (set_draining true s) s1 -> prev = ws_draining s -> (prev = true -> ts = []) -> from None [] s (set_draining prev s1).
Proof.
  intros [Hw [G1 G2 G3 G4 G5 G6 G7]] -> Hts. split; [by eapply wf_ext; [..|exact Hw]|].
  split; try done; intros Hd; cbn [set_draining ws_draining] in *; try (by apply G3 || by apply G4 || by apply G5). rewrite <- (Hts Hd). by apply G6.
Qed.

Lemma draining_wf b s : wf s -> wf (set_draining b s).
Proof. intros Hw. by eapply wf_ext; [..|exact Hw]. Qed.

Lemma all_grows ts s s' : ws_draining s = true -> grew ts s s' -> exists new, ws_all s' = ws_all s ++ new.
Proof. intros Hd Hg. by apply (g_all _ _ _ Hg). Qed.

Lemma subs_cells e s w : wf s -> w ∈ subs_of s e -> is_Some (cells s !! w).
Proof. intros Hw Hin. destruct (wf_subs _ _ Hw e w Hin) as (c & Hc & _). by exists c. Qed.

(** What a drain that runs does: the turns it gives are the watchers listed
    when it starts, in order, but for those it finds disarmed. *)
Definition drained (s s' : wstate) : Prop :=
  from None [] s s' /\ tidy s' /\ exists ts, turns (log s') = turns (log s) ++ ts /\ ts `sublist_of` ws_all s /\
    forall w, w ∈ ws_all s -> kept s w = true -> askable w s' = true -> w ∈ ts.

Lemma drain_walk_ok s : wf s -> ws_draining s = true -> (length (code s) <= n)%nat ->
  ends (walk_list ws_all (drain_turn run) s) (fun s' => exists ts, from None ts s s' /\ ts `sublist_of` ws_all s /\ forall w, w ∈ ws_all s -> w ∉ ts -> askable w s' = false).
Proof.
  intros Hw Hd Hn. eapply ends_mono; [apply (walk_list_ok ws_all (drain_turn run) askable); try done|].
  - intros ts s1 s2. apply all_grows.
  - intros s1 Hs. apply Hs.
  - intros s1 w Hs. apply (wf_cells _ _ Hs).
  - intros w s1. apply drain_turn_ok.
  - intros w ts s1 s2. apply askable_stays.
  - intros s' (ts & ? & ? & ? & _). by exists ts.
Qed.

Lemma drain_ok s : wf s -> (length (code s) <= n)%nat ->
  ends (uwatch_drain run s) (fun s' => from None [] s s' /\ (ws_draining s = false -> ndirty s <> 0 -> ws_all s <> [] -> drained s s')).
Proof.
  intros Hw Hn. unfold uwatch_drain. destruct (_ || _) eqn:Ed.
  { apply ends_ret. split; [by apply from_refl|]. intros Hd Hnd Ha. rewrite Hd, (bool_decide_false (ws_all s = []) Ha) in Ed. cbn in Ed. lia. }
  apply orb_false_iff in Ed as [[Hd _]%orb_false_iff _].
  assert (H0 : from None [] s (set_ndirty 0 s)) by (by apply from_ext).
  eapply ends_bind; [apply sweep_ok; apply H0|]. intros s1 (H1 & _ & Hs). destruct (Hs Hd) as [_ [K1 K2 K3 K4 K5 K6]]. clear Hs.
  pose proof (from_trans _ _ [] [] _ _ _ H0 H1) as H2. pose proof (draining_wf true s1 (proj1 H1)) as Hw1.
  eapply ends_bind; [apply drain_walk_ok; [done|done|exact (from_code _ _ _ _ _ H2 Hn)]|]. intros s2 (ts & H3 & Hsub & Hask). cbn [set_draining ws_all] in Hsub, Hask.
  assert (Hd1 : ws_draining s1 = false) by (by rewrite K3).
  pose proof (bracket s1 s2 ts false H3 (eq_sym Hd1) ltac:(done)) as H4. pose proof (from_trans _ _ [] [] _ _ _ H2 H4) as H5.
  eapply ends_mono; [apply sweep_ok; apply H4|]. intros s3 (H6 & _ & Hs). destruct (Hs eq_refl) as [Ht [L1 L2 L3 L4 L5 L6]]. clear Hs.
  pose proof (from_trans _ _ [] [] _ _ _ H5 H6) as H7. split; [done|]. intros _ _ _. split; [done|]. split; [done|]. exists ts.
  destruct K6 as (n1 & Hl1 & _ & _ & Ht1), L6 as (n2 & Hl2 & _ & _ & Ht2). cbn [set_ndirty log set_draining ws_all] in *. split_and!.
  - rewrite Hl2. pose proof (g_turns _ _ _ (proj2 H3) eq_refl) as Hg. cbn [set_draining log] in Hg. unfold turns in *. by rewrite omap_app, Ht2, app_nil_r, Hg, Hl1, omap_app, Ht1, app_nil_r.
  - etrans; [exact Hsub|]. rewrite K1. apply sublist_filter.
  - intros w Hin Hk Ha. destruct (decide (w ∈ ts)) as [|Hnt]; [done|]. exfalso. assert (Hin1 : w ∈ ws_all s1) by (rewrite K1; by apply list_elem_of_filter).
    specialize (Hask w Hin1 Hnt). unfold askable in *. rewrite L2 in Ha. destruct (decide _) in Ha; [done|]. cbn [set_draining cells] in Ha. by rewrite Ha in Hask.
Qed.

Lemma event_fired_ok e v sync s : wf s -> (length (code s) <= n)%nat -> ends (uwatch_event_fired run e v sync s) (from None [] s).
Proof.
  intros Hw Hn. unfold uwatch_event_fired. destruct (bool_decide _); [apply ends_ret; by apply from_refl|]. cbv zeta.
  eapply ends_bind; [apply (walk_list_ok (fun s => subs_of s e) (event_turn run v sync) (fun _ _ => false)); try done|].
  - intros ts s1 s2 Hd Hg. by apply (g_subs _ _ _ Hg).
  - intros s1 Hs. apply Hs.
  - intros s1 w. apply subs_cells.
  - intros w s1. apply event_turn_ok.
  - by apply draining_wf.
  - intros s1 (ts & H1 & _ & _ & Hasked). assert (Hts : ts = []) by (destruct ts as [|w ts]; [done|]; destruct (Hasked w) as [? ?]; [by left|done]).
    pose proof (bracket s s1 ts (ws_draining s) H1 eq_refl (fun _ => Hts)) as H2.
    eapply ends_mono; [apply sweep_ok; apply H2|]. intros s2 (H3 & _). exact (from_trans _ _ [] [] _ _ _ H2 H3).
Qed.

Lemma owner_listed dead s w : owner_of dead s = Some w -> w ∈ ws_all s.
Proof. unfold owner_of. intros Hf. apply find_some in Hf as [Hin _]. by apply list_elem_of_In. Qed.

(** The watcher's own turn at the death of its body. *)
Lemma rejoin_ok (owed : bool) w s c : wf s -> ready w s -> cells s !! w = Some c ->
  ends (if negb (wc_armed c) then Some s
        else
          '(now, s) ← uwatch_eval_cond run w s;
          match now with
          | None => Some s
          | Some now =>
              c ← cells s !! w;
              if negb (wc_armed c) then Some s
              else
                s ← on_cell w (c_last now) s;
                s ← (if now : bool then uwatch_fire run w (wc_payload c) false s else if negb owed then uwatch_leave run w s else Some s);
                on_cell w (c_payload UV_NIL) s
          end) (from None [] s).
Proof.
  intros Hw Hr Hc. destruct (wc_armed c); cbn [negb]; [|apply ends_ret; by apply from_refl].
  eapply ends_bind; [by apply eval_cond_ok|]. intros [now s1] H1. cbn [snd] in H1. destruct now as [now|]; [|by apply ends_ret].
  destruct (ready_from _ _ _ _ _ Hr H1) as (_ & _ & c1 & Hc1). rewrite Hc1. cbn [mbind option_bind]. destruct (wc_armed c1); cbn [negb]; [|by apply ends_ret].
  eapply ends_bind; [apply (then_put s s1 w (c_last now) []); auto|]. intros s2 H2. assert (Hr2 : ready w s2) by exact (ready_from _ _ _ _ _ Hr H2).
  apply (ends_bind _ _ (from None [] s)); [|intros s3 H3; apply (then_put s s3 w (c_payload UV_NIL) []); auto].
  destruct now; [eapply ends_from; [exact H2|]; apply fire_ok; [apply H2|done|done]|].
  destruct owed; cbn [negb]; [by apply ends_ret|]. eapply ends_from; [exact H2|]. apply leave_ok; [apply H2|done].
Qed.

Lemma body_done_ok dead s : wf s -> (length (code s) <= n)%nat -> ends (uwatch_body_done run dead s) (from None [] s).
Proof.
  intros Hw Hn. unfold uwatch_body_done. destruct (owner_of dead s) as [w|] eqn:Eo; [|apply ends_ret; by apply from_refl].
  apply owner_listed in Eo. destruct (proj1 (wf_cells _ _ Hw w) Eo) as [c Hc].
  eapply ends_bind; [apply (put_eq None w (c_strand None) s c (strand_plain None) Hw Hc)|]. intros s1 [H1 E1].
  assert (Hc1 : cells s1 !! w = Some (c_strand None c)) by (rewrite E1; apply lookup_insert_eq). rewrite Hc1. cbn [mbind option_bind].
  destruct (_ || _); [by apply ends_ret|]. cbv zeta.
  eapply ends_bind; [apply (put_eq None w (c_pending false) s1 _ (pending_plain false) (proj1 H1) Hc1)|]. intros s2 [H2 E2].
  pose proof (from_trans _ _ [] [] _ _ _ H1 H2) as H3. destruct (_ && _); [by apply ends_ret|].
  assert (Hr : ready w (set_draining true s2)).
  { split_and!; [done|by eapply (from_code _ _ _ _ _ H3)|]. rewrite E2. eexists. apply lookup_insert_eq. }
  pose proof (draining_wf true s2 (proj1 H2)) as Hw2.
  eapply (ends_bind _ _ (from None [] (set_draining true s2))).
  { destruct (wc_leave_pending (c_strand None c)); [by apply leave_ok|apply ends_ret; by apply from_refl]. }
  intros s3 H4. assert (Hr3 : ready w s3) by exact (ready_from _ _ _ _ _ Hr H4). destruct (proj2 (proj2 Hr3)) as [c3 Hc3]. rewrite Hc3. cbn [mbind option_bind].
  eapply (ends_bind _ _ (from None [] (set_draining true s2))); [eapply ends_from; [exact H4|]; apply (rejoin_ok _ w s3 c3); [apply H4|done|done]|].
  intros s4 H5. pose proof (bracket s2 s4 [] (ws_draining s2) H5 eq_refl ltac:(done)) as H6. pose proof (from_trans _ _ [] [] _ _ _ H3 H6) as H7.
  eapply ends_mono; [apply sweep_ok; apply H6|]. intros s5 (H8 & _). exact (from_trans _ _ [] [] _ _ _ H7 H8).
Qed.

(** ** Installing and cancelling *)

Lemma new_ok c s : wf s -> wc_fired c = false ->
  let '(o, s') := uwatch_new c s in
  from None [] s s' /\ match o with Some w => cells s' !! w = Some c /\ forall e, w ∉ subs_of s' e | None => True end.
Proof.
  intros Hw Hf. unfold uwatch_new. destruct (new_cell (env s)) as [ok e]. destruct ok; cbn [negb]; [|split; [by apply env_from|done]].
  pose proof Hw as [H1 H2 H3 H4 H5 H6 H7]. set (w := ids (set_env e s)). change (ids s) with w in H5.
  assert (Hfresh : w ∉ ws_all s) by (intros Hin; specialize (H5 w Hin); lia).
  assert (Hnone : cells s !! w = None) by (apply eq_None_not_Some; intros Hs; by apply Hfresh, H2).
  assert (Hne : forall v, is_Some (cells s !! v) -> v <> w) by (intros v [d Hd] ->; congruence).
  split; [split|split].
  - split; cbn [cells ws_all subs ids log set_env].
    + apply NoDup_app. split_and!; [done| |apply NoDup_singleton]. intros v Hv ->%list_elem_of_singleton. done.
    + intros v. rewrite elem_of_app, list_elem_of_singleton, H2. destruct (decide (v = w)) as [-> |Hv]; [rewrite lookup_insert_eq; split; [by eexists|by right]|].
      rewrite lookup_insert_ne by done. tauto.
    + intros e' v Hv. destruct (H3 e' v Hv) as (d & Hd & He). exists d. rewrite lookup_insert_ne; [done|]. intros <-. congruence.
    + done.
    + intros v [Hv%H5| ->%list_elem_of_singleton]%elem_of_app; lia.
    + intros Hsp v d Hx. destruct (decide (v = w)) as [-> |Hv]; [rewrite lookup_insert_eq; intros [= <-]; congruence|]. rewrite lookup_insert_ne by done. by apply H6.
    + done.
  - split; try done.
    + intros _. by exists [w].
    + intros _ e'. exists []. by rewrite app_nil_r.
    + intros _ v d Hd. exists d. split; [|done]. cbn [cells set_env]. rewrite lookup_insert_ne; [done|]. intros <-. congruence.
    + intros _. by rewrite app_nil_r.
    + exists []. by rewrite app_nil_r.
  - apply lookup_insert_eq.
  - intros e' Hin. destruct (H3 e' w Hin) as (d & Hd & _). congruence.
Qed.

Lemma subscribe_from w e c s : wf s -> cells s !! w = Some c -> wc_event c = Some e -> w ∉ subs_of s e ->
  from None [] s (set_subs (<[e := subs_of s e ++ [w]]> (subs s)) s).
Proof.
  intros Hw Hc He Hn. pose proof Hw as [H1 H2 H3 H4 H5 H6 H7].
  assert (Hsub : forall e', subs_of (set_subs (<[e := subs_of s e ++ [w]]> (subs s)) s) e' = if decide (e' = e) then subs_of s e' ++ [w] else subs_of s e').
  { intros e'. unfold subs_of at 1. cbn [set_subs subs]. destruct (decide (e' = e)) as [-> |Hne]; [by rewrite lookup_insert_eq|by rewrite lookup_insert_ne]. }
  split; split; try done.
  - intros e' v. rewrite Hsub. destruct (decide (e' = e)) as [-> |]; [|apply H3]. intros [Hv| ->%list_elem_of_singleton]%elem_of_app; [by apply H3|by exists c].
  - intros e'. rewrite Hsub. destruct (decide (e' = e)) as [-> |]; [|apply H4]. apply NoDup_app. split_and!; [apply H4| |apply NoDup_singleton].
    intros v Hv ->%list_elem_of_singleton. done.
  - intros _. exists []. by rewrite app_nil_r.
  - intros _ e'. rewrite Hsub. destruct (decide (e' = e)); [by exists [w]|exists []; by rewrite app_nil_r].
  - intros _ v d Hd. by exists d.
  - intros _. by rewrite app_nil_r.
  - exists []. by rewrite app_nil_r.
Qed.

Lemma install_ok mode tag realm cond event body onleave s : wf s -> from None [] s (uwatch_install mode tag realm cond event body onleave s).2.
Proof.
  intros Hw. unfold uwatch_install. set (c := fresh_cell mode tag realm cond event body onleave None).
  pose proof (new_ok c s Hw eq_refl) as Hn. destruct (uwatch_new c s) as [[w|] s1]; [|by apply Hn]. destruct Hn as (H1 & Hc & Hnin). cbv zeta. cbn [snd].
  assert (H2 : from None [] s1 (match event with Some e => set_subs (<[e := subs_of s1 e ++ [w]]> (subs s1)) s1 | None => s1 end)).
  { destruct event as [e|]; [|apply from_refl, H1]. apply (subscribe_from w e c); [apply H1|done|done|apply Hnin]. }
  pose proof (from_trans _ _ [] [] _ _ _ H1 H2) as H3. destruct cond; [|done]. exact (from_trans _ _ [] [] _ _ _ H3 (dirty_from None _ (proj1 H2))).
Qed.

Lemma install_host_ok tag realm cond cb s : wf s -> from None [] s (uwatch_install_host tag realm cond cb s).2.
Proof.
  intros Hw. unfold uwatch_install_host. pose proof (new_ok (fresh_cell UWATCH_AT tag realm cond None None None (Some cb)) s Hw eq_refl) as Hn.
  destruct (uwatch_new _ s) as [[w|] s1]; [|by apply Hn]. destruct Hn as (H1 & _). exact (from_trans _ _ [] [] _ _ _ H1 (dirty_from None _ (proj1 H1))).
Qed.

Lemma waituntil_ok may tag realm cond s : wf s -> (length (code s) <= n)%nat -> ends (uwatch_waituntil run may tag realm cond s) (fun p => from None [] s p.2).
Proof.
  intros Hw Hn. unfold uwatch_waituntil. cbv zeta. unfold mbind, option_bind.
  destruct (observed_ok true s Hw Hn) as ([out s1] & -> & H1). cbn [snd] in H1.
  destruct out as [v|]; [|by apply ends_ret]. destruct (uv_truthy v); [by apply ends_ret|]. destruct (negb may); [by apply ends_ret|].
  pose proof (new_ok (fresh_cell UWATCH_WAITUNTIL tag realm (Some cond) None None None None) _ (proj1 H1) eq_refl) as Hnew.
  destruct (uwatch_new _ _) as [[w|] s2]; apply ends_ret; pose proof (from_trans _ _ [] [] _ _ _ H1 (proj1 Hnew)) as H2;
    exact (from_trans _ _ [] [] _ _ _ H2 (env_from None _ s2 (proj1 H2))).
Qed.

(** A cancellation disarms the watchers it names and no others, and lets go
    of the else arms they owe. *)
Definition cancelled (P : WCell -> bool) (c : WCell) : WCell := if P c then c_pending false (c_armed false c) else c.

Lemma cancel_fold (P : WCell -> bool) (l : list nat) : NoDup l -> forall (m : gmap nat WCell) (w : nat),
  fold_left (cancel_one P) l m !! w = if decide (w ∈ l) then cancelled P <$> m !! w else m !! w.
Proof.
  induction l as [|v l IH]; intros Hn m w; [done|]. apply NoDup_cons in Hn as [Hv Hn]. cbn [fold_left]. rewrite IH by done.
  destruct (decide (w = v)) as [-> |Hne].
  - rewrite (decide_False (P := v ∈ l)) by done. rewrite decide_True by left. unfold cancel_one, cancelled. destruct (m !! v) as [c|] eqn:Ec; [|done].
    cbn. destruct (P c); [apply lookup_insert_eq|done].
  - assert (He : cancel_one P m v !! w = m !! w).
    { unfold cancel_one. destruct (m !! v) as [c|]; [|done]. destruct (P c); [by apply lookup_insert_ne|done]. }
    rewrite He. destruct (decide (w ∈ l)), (decide (w ∈ v :: l)) as [Hd|Hd]; try done; [destruct Hd; by right|apply elem_of_cons in Hd; tauto].
Qed.

Lemma cancel_cells P s w : wf s -> cells (cancel_if P s) !! w = cancelled P <$> cells s !! w.
Proof.
  intros Hw. unfold cancel_if. cbn [set_cells cells]. rewrite cancel_fold by apply Hw. destruct (decide _) as [|Hn]; [done|].
  destruct (cells s !! w) eqn:Ec; [|done]. destruct Hn. by apply (wf_cells _ _ Hw).
Qed.

Lemma cancelled_same P c : same_watcher c (cancelled P c) /\ wc_fired (cancelled P c) = wc_fired c.
Proof. unfold cancelled. by destruct (P c). Qed.

Lemma cancel_from P s : wf s -> from None [] s (cancel_if P s).
Proof.
  intros Hw. pose proof (fun w => cancel_cells P s w Hw) as Hcells. destruct Hw as [H1 H2 H3 H4 H5 H6 H7]. split; split; try done.
  - intros w. rewrite Hcells, fmap_is_Some. apply H2.
  - intros e w Hin. destruct (H3 e w Hin) as (c & Hc & He). exists (cancelled P c). rewrite Hcells, Hc. split; [done|].
    by rewrite (sw_event _ _ (proj1 (cancelled_same P c))).
  - intros Hsp w d Hx. rewrite Hcells. intros (c & Hc & ->)%fmap_Some. rewrite (proj2 (cancelled_same P c)). by apply H6.
  - intros _. exists []. by rewrite app_nil_r.
  - intros _ e. exists []. by rewrite app_nil_r.
  - intros _ w c Hc. exists (cancelled P c). rewrite Hcells, Hc. split; [done|apply cancelled_same].
  - intros _. by rewrite app_nil_r.
  - exists []. by rewrite app_nil_r.
Qed.

Lemma cancel_sweep_ok P s : wf s -> ends (uwatch_sweep_list (cancel_if P s)) (from None [] s).
Proof.
  intros Hw. pose proof (cancel_from P s Hw) as H1. eapply ends_mono; [apply sweep_ok; apply H1|]. intros s2 (H2 & _). exact (from_trans _ _ [] [] _ _ _ H1 H2).
Qed.

Lemma do_action_ok a s : wf s -> (length (code s) <= n)%nat -> ends (do_action run a s) (from None [] s).
Proof.
  intros Hw Hn. destruct a; cbn [do_action].
  - apply ends_ret. by apply install_ok.
  - apply ends_ret. by apply install_host_ok.
  - eapply ends_bind; [by apply waituntil_ok|]. intros [[rc w] s1] H1. by apply ends_ret.
  - by apply cancel_sweep_ok.
  - by apply cancel_sweep_ok.
  - by apply event_fired_ok.
  - apply ends_ret. by apply dirty_from.
  - eapply ends_mono; [by apply drain_ok|]. by intros s' [? _].
  - by apply body_done_ok.
Qed.

Lemma do_actions_ok l : forall s, wf s -> (length (code s) <= n)%nat -> ends (do_actions run l s) (from None [] s).
Proof.
  induction l as [|a l IH]; intros s Hw Hn; cbn [do_actions]; [apply ends_ret; by apply from_refl|].
  eapply ends_bind; [by apply do_action_ok|]. intros s1 H1. eapply ends_from; [exact H1|]. apply IH; [apply H1|by eapply from_code].
Qed.
End Safe.

(** A call never runs out: each one nested in it is further down [code]. *)
Lemma run_code_ok fuel : forall s, wf s -> (length (code s) <= fuel)%nat -> ends (run_code fuel s) (fun p => from None [] s p.2).
Proof.
  induction fuel as [|fuel IH]; intros s Hw Hn; cbn [run_code]; destruct (code s) as [|[acts out] q] eqn:Eq; try (apply ends_ret; by apply from_refl); [cbn in Hn; lia|].
  cbn in Hn. assert (H1 : from None [] s (set_code q s)) by (apply from_ext; try done; cbn; rewrite Eq; cbn; lia).
  eapply ends_bind; [apply (do_actions_ok (run_code fuel) fuel IH acts); [apply H1|cbn; lia]|]. intros s2 H2. apply ends_ret. exact (from_trans _ _ [] [] _ _ _ H1 H2).
Qed.

(** ** What the runtime promises *)

(** The runtime with nothing installed, and [q] the calls to come. *)
Definition idle (q : list call) (e : E) : wstate := MkW ∅ [] ∅ 0 false false 0 q [] e.

Lemma idle_wf q e : wf (idle q e).
Proof.
  split; cbn; try done.
  - apply NoDup_nil_2.
  - intros w. split; [by intros ?%elem_of_nil|by intros [? ?]].
  - intros e' w. unfold subs_of. cbn. by intros ?%elem_of_nil.
  - intros e'. apply NoDup_nil_2.
  - intros w ?%elem_of_nil. done.
  - intros _ a w b Hl. by destruct a.
Qed.

(** Each operation of a sequence, performed to the end. *)
Fixpoint perform_all (l : list action) (s : wstate) : option wstate :=
  match l with [] => Some s | a :: l => s ← perform a s; perform_all l s end.

Lemma perform_ok a s : wf s -> ends (perform a s) (from None [] s).
Proof. intros Hw. exact (do_action_ok _ _ (run_code_ok (length (code s))) a s Hw (le_n _)). Qed.

Lemma perform_all_ok l : forall s, wf s -> ends (perform_all l s) (from None [] s).
Proof.
  induction l as [|a l IH]; intros s Hw; cbn [perform_all]; [apply ends_ret; by apply from_refl|].
  eapply ends_bind; [by apply perform_ok|]. intros s1 H1. eapply ends_from; [exact H1|]. by apply IH, H1.
Qed.

(** C22 Whatever the conditions, bodies and else arms do while the runtime
    walks its lists (install watchers, cancel the one being walked or the next
    one, emit the event being delivered, nest a drain, raise), every operation
    returns, no unlinked watcher is ever touched, and the lists are left well
    formed, with the draining flag as it was. *)
Theorem watcher_walks_safe l s : wf s -> exists s', perform_all l s = Some s' /\ wf s' /\ ws_draining s' = ws_draining s /\ (length (code s') <= length (code s))%nat.
Proof. intros Hw. destruct (perform_all_ok l s Hw) as (s' & E' & Hw' & Hg). exists s'. split_and!; [done|done|apply Hg|apply Hg]. Qed.

(** C23 A drain gives its turns to the watchers that were listed when it
    started, in registration order and once each, never to one installed while
    it runs; of those a sweep would keep, it passes over only the ones that are
    disarmed when it ends and the ones that have no condition to ask (they
    watch an event); and it leaves no watcher listed that is neither armed nor
    owing an else arm. *)
Theorem drain_asks_each_once s : wf s -> ws_draining s = false -> ndirty s <> 0 -> ws_all s <> [] ->
  exists s' ts, perform ADrain s = Some s' /\ turns (log s') = turns (log s) ++ ts /\ ts `sublist_of` ws_all s /\ NoDup ts /\
    (forall w, w ∈ ws_all s -> kept s w = true -> askable w s' = true -> w ∈ ts) /\ tidy s'.
Proof.
  intros Hw Hd Hnd Ha. destruct (drain_ok (run_code (length (code s))) (length (code s)) (run_code_ok _) s Hw (le_n _)) as (s' & E' & _ & Hdr).
  destruct (Hdr Hd Hnd Ha) as (_ & Ht & ts & H1 & H2 & H3). exists s', ts. split_and!; try done. eapply sublist_NoDup; [apply Hw|exact H2].
Qed.


(** Stopping a tag outside every walk unlinks exactly its watchers, and
    those already disarmed with no else arm owed: what stays is unchanged,
    and what goes has the strands that waited on it woken. *)
Theorem stop_unlinks_the_tag t s : wf s -> ws_draining s = false -> exists s' new, perform (AStop t) s = Some s' /\ log s' = log s ++ new /\
  ws_all s' = filter (fun w => kept s w && negb (bool_decide (wc_tag <$> cells s !! w = Some (Some t))) = true) (ws_all s) /\
  (forall w, w ∈ ws_all s' -> cells s' !! w = cells s !! w) /\
  (forall w, w ∈ ws_all s -> w ∉ ws_all s' -> cells s' !! w = None /\ LWoke w UV_NIL ∈ new).
Proof.
  intros Hw Hd. unfold perform. cbn [do_action]. unfold uwatch_stop_tag. set (P := fun c => bool_decide (wc_tag c = Some t)).
  pose proof (cancel_from P s Hw) as [Hw1 _]. destruct (sweep_ok _ Hw1) as (s' & E' & _ & _ & Hs). destruct (Hs Hd) as [_ [K1 K2 _ _ _ (new & K6 & K7 & K8 & _)]].
  change (ws_all (cancel_if P s)) with (ws_all s) in *. change (log (cancel_if P s)) with (log s) in K6.
  assert (Hk : forall w, kept (cancel_if P s) w = kept s w && negb (bool_decide (wc_tag <$> cells s !! w = Some (Some t)))).
  { intros w. unfold kept. rewrite (cancel_cells P s w Hw). destruct (cells s !! w) as [c|]; [|done]. cbn. unfold cancelled. unfold P.
    destruct (decide (wc_tag c = Some t)) as [Ht|Ht]; [rewrite !bool_decide_true by congruence|rewrite !bool_decide_false by congruence]; [by rewrite andb_false_r|by rewrite andb_true_r]. }
  exists s', new. split_and!; try done.
  - rewrite K1. apply filter_agree. intros w _. apply Hk.
  - intros w Hin. rewrite K2, decide_False by tauto. rewrite (cancel_cells P s w Hw). rewrite K1 in Hin. apply list_elem_of_filter in Hin as [Hkw _].
    rewrite Hk in Hkw. apply andb_true_iff in Hkw as [_ Hn]. destruct (cells s !! w) as [c|]; [|done]. cbn in Hn |- *. unfold cancelled, P.
    destruct (decide (wc_tag c = Some t)) as [Ht|Ht]; [by rewrite bool_decide_true in Hn by congruence|by rewrite bool_decide_false].
  - intros w Hin Hn. split; [by rewrite K2, decide_True|]. apply K7. by apply K8.
Qed.
End Runtime.

(** ** Runtimes for the instances *)

(** Spare strands and memory without end; the number of the next strand. *)
#[global] Instance plenty : WatchEnv nat := {|
  has_globals _ _ := true;
  spare e := (true, e);
  spawn _ _ _ _ e := (Some e, S e);
  wake_waiters _ _ e := e;
  host_call _ _ e := e;
  park_on _ e := e;
  throw_oom _ e := e;
  complain _ e := e;
  new_cell e := (true, e) |}.

(** Spare strands as the list has them, then none. *)
#[global] Instance scarce : WatchEnv (list bool) := {|
  has_globals _ _ := true;
  spare e := (default false (head e), tail e);
  spawn _ _ _ _ e := (Some 0%nat, e);
  wake_waiters _ _ e := e;
  host_call _ _ e := e;
  park_on _ e := e;
  throw_oom _ e := e;
  complain _ e := e;
  new_cell e := (true, e) |}.

Definition demo_clo (k : nat) : UClosureK := MkClosureK k true 0 false 0 0.
Definition demo_at (mode : UWatchMode) : action := AInstall mode (Some 5%nat) (Some 1%nat) (Some (demo_clo 1)) None (Some (demo_clo 2)) (Some (demo_clo 3)).
Definition yes : option UValue := Some (UV_BOOL 1).
Definition no : option UValue := Some (UV_BOOL 0).

(** A `whenever` whose first condition installs a third watcher and whose
    second falls while the body is in flight: the body's death runs the else arm. *)
Definition demo_script : list action := [demo_at UWATCH_WHENEVER; demo_at UWATCH_AT; ADrain; AWrite; ADrain; ABodyDone 0; AStop 5].
Definition demo_calls : list call := [([AWrite; demo_at UWATCH_AT_SYNC], yes); ([ADrain; AEmit 9 UV_NIL true], no); ([], no); ([AWrite], no); ([], yes); ([ADrain], no)].

(** Two watchers installed, and the drain that asks them. *)
Definition demo_drain : option (@wstate nat) := perform_all [demo_at UWATCH_WHENEVER; demo_at UWATCH_AT] (idle demo_calls 0%nat).

(** Without a spare strand the body of an [at sync] is lost and its [onleave]
    still runs. *)
Example onleave_without_body :
  log <$> perform_all [demo_at UWATCH_AT_SYNC; ADrain; AWrite; ADrain] (idle [([], yes); ([], no)] [true; false; true; true]) = Some [LTurn 0; LTurn 0; LLeft 0].
Proof. vm_compute. reflexivity. Qed.

(** A body that wants two arguments cannot be spawned on an edge, which gives it
    one: nothing runs, and the [onleave] of that edge still does. *)
Example onleave_of_unable_body :
  let two := MkClosureK 2 true 2 false 0 0 in let c := demo_clo in
  exists cell, unable cell /\
    log <$> perform_all [AInstall UWATCH_AT (Some 5%nat) (Some 1%nat) (Some (c 1%nat)) None (Some two) (Some (c 3%nat)); ADrain; AWrite; ADrain] (idle [([], yes); ([], no)] 0%nat) =
    Some [LTurn 0; LBare 0 cell; LTurn 0; LLeft 0].
Proof.
  cbn zeta. eexists. split; [|vm_compute; reflexivity]. right; right. split; [done|]. eexists. split; [reflexivity|]. right. reflexivity.
Qed.

(** A condition that cancels every watcher under the drain's feet. *)
Definition demo_storm : list call := [([AStop 5; demo_at UWATCH_AT; ADrain; ADropRealm 1], yes)].

Lemma watcher_walks_safe_witness : exists s' : @wstate nat, perform_all demo_script (idle demo_storm 0%nat) = Some s' /\ wf s' /\ ws_draining s' = false.
Proof.
  destruct (watcher_walks_safe demo_script (idle demo_storm 0%nat) (idle_wf _ _)) as (s' & E' & Hw & Hd & _).
  exists s'. split; [exact E'|]. split; [exact Hw|exact Hd].
Defined.

Lemma demo_drain_wf : exists s, demo_drain = Some s /\ wf s.
Proof. destruct (perform_all_ok [demo_at UWATCH_WHENEVER; demo_at UWATCH_AT] _ (idle_wf demo_calls 0%nat)) as (s & E' & Hw & _). exists s. split; [exact E'|exact Hw]. Qed.

Lemma drain_asks_each_once_witness : exists s s' : @wstate nat, demo_drain = Some s /\ perform ADrain s = Some s' /\ turns (log s') = [0; 1]%nat /\ ws_all s' = [0; 1; 2]%nat.
Proof.
  destruct demo_drain_wf as (s & Es & Hw). exists s. vm_compute in Es. injection Es as <-.
  destruct (drain_asks_each_once _ Hw ltac:(reflexivity) ltac:(discriminate) ltac:(discriminate)) as (s' & ts & E' & Ht & _).
  exists s'. split; [vm_compute; reflexivity|]. split; [exact E'|]. vm_compute in E'. injection E' as <-. split; reflexivity.
Defined.


Lemma stop_unlinks_the_tag_witness : exists s s' : @wstate nat, demo_drain = Some s /\ perform (AStop 5) s = Some s' /\ ws_all s' = [].
Proof.
  destruct demo_drain_wf as (s & Es & Hw). exists s. vm_compute in Es. injection Es as <-.
  destruct (stop_unlinks_the_tag 5 _ Hw ltac:(reflexivity)) as (s' & new & E' & _ & Ha & _).
  exists s'. split; [vm_compute; reflexivity|]. split; [exact E'|]. rewrite Ha. vm_compute. reflexivity.
Defined.

End Watch.
