(* ===== verification/Dispatch.v ===== *)
(** * The dispatch loop (src/src/rt/uexec_ops.c)

    One instruction of verified bytecode at a time, on the strand of Unwind.v.
    Closure cells are a store of their own; what else an instruction asks of
    the VM is the class [VmEnv], whose operations may run any script on this
    strand or another and come back.  [None] is undefined behaviour: a
    register, constant, instruction or upvalue that is not there, or a failed
    assertion. *)
From Stdlib Require Import SpecFloat Sorted Ascii String.
From S2P Require Import Prelude Text Instr Chunk Verify VerifySound Load LoadSafe LoadChunk ChunkExamples Values Timers Sched Tags Strands Unwind.

Module Dispatch.
Import Strands Unwind.

Definition UEXEC_JMP_BIAS : Z := 32768.
Definition UEXEC_FAST_YIELD_CAP : Z := 64.
Definition UCLOSURE_ANY_ARGS : Z := 255.

(** A closure cell: its prototype, [None] for a native. *)
Record Clo := MkClo { c_proto : option UProto; c_upvals : list (option nat); c_min_args : Z; c_max_args : Z; c_name : option bytes }.

(** What a cell that is not a closure is. *)
Inductive cell_type := UCELL_STRAND | UCELL_EVENT | UCELL_TAG | UCELL_OTHER.
#[export] Instance cell_type_eq_dec : EqDecision cell_type.
Proof. solve_decision. Defined.

Record world (V : Type) := MkWorld { d_clo : gmap nat Clo; d_v : V }.
Arguments MkWorld {V} _ _.
Arguments d_clo {V} _.
Arguments d_v {V} _.

(** An operator slot: not there, called, or raised. *)
Inductive tried := TMiss | TDone (v : UValue) | TThrew.

(** Something the VM does while this strand is running. *)
Definition act (V A : Type) : Type := world V -> xstrand -> option (A * world V * xstrand).

Class VmEnv (V : Type) := {
  v_tag_gates : V -> nat -> Z;                       (* utag_gate_bits *)
  v_str : V -> UValue -> bytes;                      (* uv_str_bytes *)
  v_equal : V -> UValue -> UValue -> bool;           (* uv_equal *)
  v_cell : V -> nat -> cell_type;
  v_const : V -> UConst -> UValue;                   (* the constant uproto_bind made of it *)
  v_names : V -> UProto -> option (Z -> nat);        (* uproto_site_names *)
  v_realm_globals : V -> option nat;                 (* s->realm && s->realm->globals *)
  v_booting : V -> option nat;                       (* vm->root_globals, while !vm->stdlib_booted *)
  v_observe : nat -> V -> V;                         (* uwatch_observe *)
  v_foreign : V -> nat -> UValue;                    (* an upvalue of another strand *)
  v_set_foreign : nat -> UValue -> V -> V;
  v_grant : V -> bool * V;                           (* one allocation *)
  v_block : V -> option nat * V;                     (* one reallocation of a register stack *)
  v_new_closure : world V -> option nat * V;         (* a fresh closure cell *)
  v_new_upval : xstrand -> V -> option nat * V;      (* a fresh upvalue cell *)
  v_exception : bytes -> bytes -> xstrand -> V -> UValue * V;
  v_position : V -> xstrand -> bytes;                (* uexec_position_prefix *)
  v_concat : bytes -> bytes -> V -> option UValue * V;   (* ustr_concat *)
  v_slot_call : bytes -> UValue -> list UValue -> act V tried;   (* resolve the slot, read it, call it *)
  v_native : nat -> UValue -> list UValue -> act V (option UValue);  (* [None]: it raised *)
  v_slot_get : bool -> UValue -> nat -> UProto -> Z -> act V (option UValue);   (* cached site, then slot_get *)
  v_slot_set : bool -> nat -> nat -> UValue -> UProto -> Z -> act V bool;
  v_drain : act V unit;                              (* uwatch_drain *)
  v_ndirty : V -> Z;
  v_run_queue_empty : V -> bool;
  v_isr_pending : V -> bool;
  v_is_spare : V -> bool;
  v_spawn : nat -> act V (option nat);               (* usched_spawn of a closure, under s->tag and f->recv *)
  v_strand_dead : V -> nat -> bool;
  v_join : nat -> V -> V;                            (* onto child->joiners *)
  v_run_inline : nat -> act V unit;
  v_waituntil : nat -> act V Z;
  v_install : Z -> option nat -> option nat -> option nat -> option nat -> act V bool;
  v_change_event : nat -> nat -> act V (option nat);
  v_tag_new : V -> option nat * V;
  v_fire_enter : nat -> act V unit;
  v_fire_leave : nat -> act V unit }.

Section Dispatch.
Context {V : Type} {VE : VmEnv V}.

#[export] Instance scope_env : ScopeEnv (world V) := {|
  tag_gates w t := v_tag_gates (d_v w) t;
  fire_leave t w x := '(_, w, x) ← v_fire_leave t w x; Some (w, x);
  grant w := let '(ok, v) := v_grant (d_v w) in (ok, MkWorld (d_clo w) v);
  new_exception which text x w := let '(e, v) := v_exception which text x (d_v w) in (e, MkWorld (d_clo w) v) |}.

Abbreviation run := (@urun (world V)).
Abbreviation dstep := (option (bool * run)).

Definition set_v (v : V) (r : run) : run := MkRun (MkWorld (d_clo (r_w r)) v) (r_x r) (r_report r) (r_code r).
Definition r_v (r : run) : V := d_v (r_w r).

(** Performing an operation of the VM. *)
Definition do_act {A} (m : act V A) (r : run) : option (A * run) :=
  '(a, w, x) ← m (r_w r) (r_x r); Some (a, MkRun w x (r_report r) (r_code r)).

(** ** The frame in dispatch *)

Definition top_frame (r : run) : option UFrame := last (x_frames (r_x r)).
Definition clo_of (r : run) (c : nat) : option Clo := d_clo (r_w r) !! c.
Definition proto_of (r : run) (f : UFrame) : option UProto := cl ← clo_of r (cl_cell (f_closure f)); c_proto cl.

(** [R[a]], [R[a] = v]. *)
Definition get_reg (a : Z) (r : run) : option UValue := f ← top_frame r; read (s_stack (x_stk (r_x r))) (f_base f + a).
Definition put_reg (a : Z) (v : UValue) (r : run) : option run :=
  f ← top_frame r; l ← store (s_stack (x_stk (r_x r))) (f_base f + a) v; Some (on_x (x_set_stk (set_regs l (x_stk (r_x r)))) r).

(** [f->pc += k]. *)
Definition skip (k : Z) (r : run) : option run := f ← top_frame r; pc ← f_pc f; x ← set_pc (pc + k) (r_x r); Some (set_x x r).

(** [goto unwind] with the exception raised. *)
Definition throw (which msg : bytes) (r : run) : dstep := goto_unwind (uexec_throw which msg r).
(** [uexec_throw_here]: the text starts with the source position. *)
Definition uexec_throw_here (which msg : bytes) (r : run) : run :=
  let text := v_position (r_v r) (r_x r) ++ which ++ lit ": " ++ msg in
  let '(e, w) := new_exception which text (r_x r) (r_w r) in
  MkRun w (x_pending UUNWIND_THROW e (r_x r)) (RRecorded text) URBI_ERR_UNCAUGHT_THROW.
Definition throw_here (which msg : bytes) (r : run) : dstep := goto_unwind (uexec_throw_here which msg r).

Definition UP_LOOKUPERROR : bytes := lit "LookupError".
Definition UP_DIVBYZERO : bytes := lit "DivByZero".
Definition UP_ARITYERROR : bytes := lit "ArityError".

Definition as_closure (r : run) (v : UValue) : option nat := match v with UV_CELL c => match clo_of r c with Some _ => Some c | None => None end | _ => None end.
Definition as_cell (t : cell_type) (r : run) (v : UValue) : option nat :=
  match v with UV_CELL c => match clo_of r c with Some _ => None | None => if decide (v_cell (r_v r) c = t) then Some c else None end | _ => None end.

(** [usched_may_deschedule]. *)
Definition may_deschedule (r : run) : bool := negb (v_is_spare (r_v r)) && (s_nboundary (x_stk (r_x r)) =? 0).

(** ** Operators *)

Definition str_kind (v : UValue) : bool := match v with UV_STR _ | UV_SYM _ => true | _ => false end.

Definition uexec_kind_name (v : UValue) : bytes :=
  match v with
  | UV_NIL => lit "Nil" | UV_INT _ => lit "Integer" | UV_FLOAT _ => lit "Float" | UV_BOOL _ => lit "Bool"
  | UV_STR _ | UV_SYM _ => lit "String" | _ => lit "unknown"
  end.

Definition op_glyph (op : UOpcode) : bytes :=
  match op with OP_ADD => lit "+" | OP_SUB => lit "-" | OP_MUL => lit "*" | OP_LT => lit "<" | OP_LE => lit "<=" | _ => lit "/" end.
Definition arith_op_name (op : UOpcode) : bytes := [39] ++ op_glyph op ++ [39].

Definition binop_type_error (op : UOpcode) (b c : UValue) (r : run) : run :=
  uexec_throw_here UP_TYPEERROR (arith_op_name op ++ lit " operands must be Integer or Float (got " ++ uexec_kind_name b ++ lit ", " ++ uexec_kind_name c ++ lit ")") r.

(** A result, or [None] with an exception pending. *)
Abbreviation res A := (option (option A * run)).
Definition raised {A} (r : run) : res A := Some (None, r).
Definition value {A} (a : A) (r : run) : res A := Some (Some a, r).

Definition in_int64 (x : Z) : bool := (- 2 ^ 63 <=? x) && (x <? 2 ^ 63).

(** The sum, difference or product of two int64s, exactly. *)
Definition int_op (op : UOpcode) (x y : Z) : Z := match op with OP_ADD => x + y | OP_SUB => x - y | _ => x * y end.
Definition float_op (op : UOpcode) (x y : spec_float) : spec_float :=
  match op with OP_ADD => SFadd 53 1024 x y | OP_SUB => SFsub 53 1024 x y | OP_MUL => SFmul 53 1024 x y | _ => SFdiv 53 1024 x y end.
Definition is_div (op : UOpcode) : bool := bool_decide (op = OP_DIV).

Definition object_binop (lhs rhs : UValue) (name : bytes) (r : run) : option (tried * run) := do_act (v_slot_call name lhs [rhs]) r.

Definition arith_slow (op : UOpcode) (b c : UValue) (r : run) : res UValue :=
  if bool_decide (op = OP_ADD) && str_kind b && str_kind c then
    let '(o, v) := v_concat (v_str (r_v r) b) (v_str (r_v r) c) (r_v r) in
    match o with
    | Some s => value s (set_v v r)
    | None => raised (uexec_throw UP_OOMERROR (lit "out of memory concatenating strings") (set_v v r))
    end
  else
    '(t, r) ← object_binop b c (op_glyph op) r;
    match t with
    | TDone v => value v r
    | TThrew => raised r
    | TMiss => raised (binop_type_error op b c r)
    end.

Definition arith (op : UOpcode) (b c : UValue) (r : run) : res UValue :=
  match b, c with
  | UV_INT x, UV_INT y =>
      if is_div op then
        if y =? 0 then raised (uexec_throw_here UP_DIVBYZERO (lit "division by 0") r)
        else value (UV_FLOAT (float_op op (double_of_int x) (double_of_int y))) r
      else if in_int64 (int_op op x y) then value (UV_INT (int_op op x y)) r
      else value (UV_FLOAT (float_op op (double_of_int x) (double_of_int y))) r
  | _, _ =>
      if uv_is_number b && uv_is_number c then
        let x := uv_as_double b in let y := uv_as_double c in
        if is_div op && double_eq y (S754_zero false) then raised (uexec_throw_here UP_DIVBYZERO (lit "division by 0") r)
        else value (UV_FLOAT (float_op op x y)) r
      else arith_slow op b c r
  end.

Definition negate (v : UValue) (r : run) : res UValue :=
  match v with
  | UV_INT x => value (if in_int64 (- x) then UV_INT (- x) else UV_FLOAT (SFopp (double_of_int x))) r
  | UV_FLOAT f => value (UV_FLOAT (SFopp f)) r
  | _ =>
      '(t, r) ← do_act (v_slot_call (lit "-") v []) r;
      match t with
      | TDone u => value u r
      | TThrew => raised r
      | TMiss => raised (uexec_throw_here UP_TYPEERROR (lit "unary " ++ [39] ++ lit "-" ++ [39] ++ lit " operand must be Integer or Float (got " ++ uexec_kind_name v ++ lit ")") r)
      end
  end.

(** [memcmp] on the common length, then the lengths. *)
Fixpoint bytes_cmp (a b : bytes) : comparison :=
  match a, b with
  | [], [] => Eq | [], _ => Lt | _, [] => Gt
  | x :: a, y :: b => match x ?= y with Eq => bytes_cmp a b | o => o end
  end.

Definition ordered (op : UOpcode) (o : comparison) : bool := match op, o with OP_LT, Lt => true | OP_LT, _ => false | _, Gt => false | _, _ => true end.

(** The mirrored operator is tried on the right operand when the left has none. *)
Definition compare_lt_le (op : UOpcode) (b c : UValue) (r : run) : res bool :=
  if uv_is_number b && uv_is_number c then
    let x := uv_as_double b in let y := uv_as_double c in
    value (if bool_decide (op = OP_LT) then SFltb x y else SFleb x y) r
  else if str_kind b && str_kind c then value (ordered op (bytes_cmp (v_str (r_v r) b) (v_str (r_v r) c))) r
  else
    '(t, r) ← object_binop b c (op_glyph op) r;
    match t with
    | TDone v => value (uv_truthy v) r
    | TThrew => raised r
    | TMiss =>
        '(t, r) ← object_binop c b (if bool_decide (op = OP_LT) then lit ">" else lit ">=") r;
        match t with
        | TDone v => value (uv_truthy v) r
        | TThrew => raised r
        | TMiss => raised (binop_type_error op b c r)
        end
    end.

Definition compare_eq (b c : UValue) (r : run) : res bool :=
  match b with
  | UV_OBJ _ =>
      '(t, r) ← object_binop b c (lit "==") r;
      match t with
      | TDone v => value (uv_truthy v) r
      | TThrew => raised r
      | TMiss => value (v_equal (r_v r) b c) r
      end
  | _ => value (v_equal (r_v r) b c) r
  end.

(** ** The instructions *)

Definition next (r : run) : dstep := Some (true, r).
Definition leave_run (st : strand_state) (r : run) : dstep := Some (false, on_x (x_set_state st) r).

(** The value of an operator in its register. *)
Definition to_reg (a : Z) (m : res UValue) : dstep :=
  '(v, r) ← m; match v with None => goto_unwind r | Some v => r ← put_reg a v r; next r end.
(** [if ((int)o != (int)OPA(i)) f->pc++]. *)
Definition skip_unless (a : Z) (m : res bool) : dstep :=
  '(o, r) ← m; match o with None => goto_unwind r | Some o => if Z.b2z o =? a then next r else r ← skip 1 r; next r end.

Definition op_loadk (a bx : Z) (r : run) : dstep :=
  f ← top_frame r; p ← proto_of r f; k ← read (v_items (constants (pdata p))) bx; r ← put_reg a (v_const (r_v r) k) r; next r.
Definition op_move (a b : Z) (r : run) : dstep := v ← get_reg b r; r ← put_reg a v r; next r.
Definition op_loadbool (a b c : Z) (r : run) : dstep :=
  r ← put_reg a (UV_BOOL (if b =? 0 then 0 else 1)) r; if c =? 0 then next r else r ← skip 1 r; next r.
Definition op_arith (op : UOpcode) (a b c : Z) (r : run) : dstep := x ← get_reg b r; y ← get_reg c r; to_reg a (arith op x y r).
Definition op_neg (a b : Z) (r : run) : dstep := x ← get_reg b r; to_reg a (negate x r).
Definition op_eq (a b c : Z) (r : run) : dstep := x ← get_reg b r; y ← get_reg c r; skip_unless a (compare_eq x y r).
Definition op_lt_le (op : UOpcode) (a b c : Z) (r : run) : dstep := x ← get_reg b r; y ← get_reg c r; skip_unless a (compare_lt_le op x y r).
Definition op_test (a c : Z) (r : run) : dstep :=
  v ← get_reg a r; if Z.b2z (uv_truthy v) =? c then r ← skip 1 r; next r else next r.
Definition op_testset (a b c : Z) (r : run) : dstep :=
  v ← get_reg b r; if Z.b2z (uv_truthy v) =? c then r ← skip 1 r; next r else r ← put_reg a v r; next r.
Definition op_load_recv (a : Z) (r : run) : dstep := f ← top_frame r; r ← put_reg a (f_recv f) r; next r.

Definition op_load_realm_global (a : Z) (r : run) : dstep :=
  match v_realm_globals (r_v r), v_booting (r_v r) with
  | Some g, _ | None, Some g => r ← put_reg a (UV_OBJ g) (set_v (v_observe g (r_v r)) r); next r
  | None, None => throw UP_TYPEERROR (lit "global access: strand has no realm") r
  end.

(** ** Upvalues *)

(** [cl->upvals[b]] of the running closure, [None] inside when there is none. *)
Definition upval_at (b : Z) (r : run) : option (option nat) :=
  f ← top_frame r; cl ← clo_of r (cl_cell (f_closure f)); Some (match read (c_upvals cl) b with Some (Some u) => Some u | _ => None end).

(** [*u->ptr]: a cell this strand does not hold belongs to another one. *)
Definition upval_get (u : nat) (r : run) : option UValue :=
  match s_upvals (x_stk (r_x r)) !! u with Some _ => deref (x_stk (r_x r)) u | None => Some (v_foreign (r_v r) u) end.
Definition upval_set (u : nat) (v : UValue) (r : run) : option run :=
  let s := x_stk (r_x r) in
  match s_upvals s !! u with
  | None => Some (set_v (v_set_foreign u v (r_v r)) r)
  | Some y =>
      match u_ptr y with
      | PStack blk i => if decide (blk = s_block s) then l ← store (s_stack s) i v; Some (on_x (x_set_stk (set_regs l s)) r) else None
      | PClosed => Some (on_x (x_set_stk (set_open (s_open s) (<[u := MkUpval PClosed v (u_stack_index y)]> (s_upvals s)) s)) r)
      end
  end.

Definition op_getupval (a b : Z) (r : run) : dstep :=
  u ← upval_at b r;
  match u with
  | None => throw UP_TYPEERROR (lit "upvalue read: index out of range") r
  | Some u => v ← upval_get u r; r ← put_reg a v r; next r
  end.
Definition op_setupval (a b : Z) (r : run) : dstep :=
  u ← upval_at b r;
  match u with
  | None => throw UP_TYPEERROR (lit "upvalue write: index out of range") r
  | Some u => v ← get_reg a r; r ← upval_set u v r; next r
  end.
Definition op_close (a : Z) (r : run) : dstep :=
  f ← top_frame r; s ← ustrand_close_upvals (f_base f + a) (x_stk (r_x r)); next (on_x (x_set_stk s) r).

(** How the captures of a new closure ended. *)
Inductive capture := CapDone | CapOom | CapRange.

Definition set_upval (c : nat) (k : Z) (u : option nat) (r : run) : option run :=
  cl ← clo_of r c; l ← store (c_upvals cl) k u;
  Some (MkRun (MkWorld (<[c := MkClo (c_proto cl) l (c_min_args cl) (c_max_args cl) (c_name cl)]> (d_clo (r_w r))) (r_v r)) (r_x r) (r_report r) (r_code r)).

(** One prelude word: [*f->pc++], and the capture it names. *)
Definition capture_one (c : nat) (k : Z) (r : run) : option (capture * run) :=
  f ← top_frame r; pc ← f_pc f; p ← proto_of r f; pseudo ← read (v_items (instructions (pdata p))) pc; r ← skip 1 r;
  let src := uinstr_c pseudo in
  if negb (uinstr_b pseudo =? 0) then
    let '(cell, v) := v_new_upval (r_x r) (r_v r) in
    '(u, s) ← ustrand_find_or_open_upval cell (f_base f + src) (x_stk (r_x r));
    let r := on_x (x_set_stk s) (set_v v r) in
    match u with None => Some (CapOom, r) | Some u => r ← set_upval c k (Some u) r; Some (CapDone, r) end
  else
    par ← clo_of r (cl_cell (f_closure f));
    match read (c_upvals par) src with None => Some (CapRange, r) | Some u => r ← set_upval c k u r; Some (CapDone, r) end.

Fixpoint captures (n : nat) (c : nat) (k : Z) (r : run) : option (capture * run) :=
  match n with
  | O => Some (CapDone, r)
  | S n => '(o, r) ← capture_one c k r; match o with CapDone => captures n c (k + 1) r | _ => Some (o, r) end
  end.

Definition op_closure (a bx : Z) (r : run) : dstep :=
  f ← top_frame r; parent ← proto_of r f;
  if zlen (nested parent) <=? bx then throw UP_TYPEERROR (lit "closure creation: proto index out of range") r
  else
    child ← read (nested parent) bx; child ← child;
    let '(cell, v) := v_new_closure (r_w r) in
    match cell with
    | None => throw UP_OOMERROR (lit "closure creation: out of memory") (set_v v r)
    | Some c =>
        let n := nupvals (pdata child) in
        let r := MkRun (MkWorld (<[c := MkClo (Some child) (replicate (Z.to_nat n) None) 0 0 None]> (d_clo (r_w r))) v) (r_x r) (r_report r) (r_code r) in
        r ← put_reg a (UV_CELL c) r;
        '(o, r) ← captures (Z.to_nat n) c 0 r;
        match o with
        | CapDone => next r
        | CapOom => throw UP_OOMERROR (lit "closure creation: out of memory opening an upvalue") r
        | CapRange => throw UP_TYPEERROR (lit "closure creation: upvalue re-capture out of range") r
        end
    end.

(** ** Calls *)

Definition put_u8 (n : Z) : bytes :=
  (if 100 <=? n then [48 + n / 100] else []) ++ (if 10 <=? n then [48 + n / 10 mod 10] else []) ++ [48 + n mod 10].
Definition name_prefix (name : option bytes) : bytes := match name with Some n => n ++ lit ": " | None => [] end.

(** [char msg[128]], filled by uexec_put and uexec_put_u8, which leave room for
    the NUL. *)
Definition msg128 (s : bytes) : bytes := take 127 s.

Definition arity_error (name : option bytes) (lo hi got : Z) (r : run) : run :=
  uexec_throw UP_ARITYERROR
    (msg128 (name_prefix name ++ lit "expected " ++ put_u8 lo
       ++ (if hi =? lo then [] else if hi =? UCLOSURE_ANY_ARGS then lit " or more" else lit ".." ++ put_u8 hi)
       ++ lit " argument" ++ (if negb (lo =? 1) || negb (hi =? 1) then lit "s" else []) ++ lit ", got " ++ put_u8 got)) r.

Definition arity_error_proto (cl : Clo) (p : UProto) (got : Z) (r : run) : run :=
  let d := pdata p in
  uexec_throw UP_ARITYERROR
    (msg128 (name_prefix (c_name cl) ++ (if negb (arity_prologue d =? 0) && (0 <? nparams d) then lit "expected at most " else lit "expected ")
       ++ put_u8 (nparams d) ++ (if nparams d =? 1 then lit " argument, got " else lit " arguments, got ") ++ put_u8 got)) r.

(** The argument window. *)
Fixpoint read_args (n : nat) (i : Z) (l : list UValue) : option (list UValue) :=
  match n with O => Some [] | S n => v ← read l i; vs ← read_args n (i + 1) l; Some (v :: vs) end.

Definition push_call_frame (cl : Strands.UClosure) (recv : UValue) (base ret_reg nkeep : Z) (r : run) : option (Z * run) :=
  let '(ok, v) := v_grant (r_v r) in
  let '(block, v) := v_block v in
  '(rc, s) ← ustrand_push_frame_args ok block cl recv base ret_reg nkeep (x_stk (r_x r));
  Some (rc, on_x (x_set_stk s) (set_v v r)).

Definition wrong_count (p : UProto) (n : Z) : bool := if negb (arity_prologue (pdata p) =? 0) then nparams (pdata p) <? n else negb (n =? nparams (pdata p)).

(** [false]: raised. *)
Definition do_call (a b c : Z) (r : run) : option (bool * run) :=
  let is_method := negb (Z.land c 128 =? 0) in
  let nargs := if is_method then b - 2 else b - 1 in
  let arg_off := if is_method then 2 else 1 in
  if nargs <? 0 then Some (false, uexec_throw UP_TYPEERROR (lit "function call: malformed argument count") r)
  else
    f ← top_frame r; callee_v ← get_reg a r;
    match as_closure r callee_v with
    | None => Some (false, uexec_throw UP_TYPEERROR (lit "function call: callee is not a closure") r)
    | Some cell =>
        cl ← clo_of r cell;
        self ← (if is_method then get_reg (a + 1) r else Some UV_NIL);
        match c_proto cl with
        | None =>
            if (nargs <? c_min_args cl) || (c_max_args cl <? nargs) then Some (false, arity_error (c_name cl) (c_min_args cl) (c_max_args cl) nargs r)
            else
              args ← read_args (Z.to_nat nargs) (f_base f + a + arg_off) (s_stack (x_stk (r_x r)));
              '(out, r) ← do_act (v_native cell self args) r;
              match out with None => Some (false, r) | Some v => r ← put_reg a v r; Some (true, r) end
        | Some p =>
            if wrong_count p nargs then Some (false, arity_error_proto cl p nargs r)
            else
              let base := f_base f + a + arg_off in
              '(rc, r) ← push_call_frame (Strands.MkClosure cell (Some (max_reg (pdata p)))) self base a nargs r;
              if rc =? -2 then Some (false, uexec_throw UP_OOMERROR (lit "function call: call depth limit reached") r)
              else if negb (rc =? 0) then Some (false, uexec_throw UP_OOMERROR (lit "function call: out of memory pushing a call frame") r)
              else
                s ← ustrand_store_nargs (negb (arity_prologue (pdata p) =? 0)) (nparams (pdata p)) (max_reg (pdata p)) base nargs (x_stk (r_x r));
                Some (true, on_x (x_set_stk s) r)
        end
    end.

Definition op_call (a b c : Z) (r : run) : dstep :=
  '(ok, r) ← do_call a b c r;
  if negb ok then goto_unwind r
  else if negb (bool_decide (x_state (r_x r) = USTRAND_RUNNING)) then Some (false, r)
  else next r.

(** ** Slots *)

(** [names[site]], [None] inside when no table is bound or the index is past it. *)
Definition site_name (p : UProto) (site : Z) (r : run) : option nat :=
  names ← v_names (r_v r) p; if site_count (pdata p) <=? site then None else Some (names site).

Definition op_getslot (self : bool) (a b site : Z) (r : run) : dstep :=
  f ← top_frame r; p ← proto_of r f;
  match site_name p site r with
  | None => throw UP_TYPEERROR (lit "slot access: no name table bound") r
  | Some name =>
      recv ← get_reg b r;
      '(out, r) ← do_act (v_slot_get self recv name p site) r;
      match out with
      | None => goto_unwind r
      | Some v => r ← (if self then put_reg (a + 1) recv r else Some r); r ← put_reg a v r; next r
      end
  end.

Definition op_setslot (update : bool) (a b site : Z) (r : run) : dstep :=
  f ← top_frame r; p ← proto_of r f;
  match site_name p site r with
  | None => throw UP_TYPEERROR (lit "slot write: no name table bound") r
  | Some name =>
      recv ← get_reg b r;
      match recv with
      | UV_OBJ o =>
          written ← get_reg a r;
          '(ok, r) ← do_act (v_slot_set update o name written p site) r;
          if ok : bool then next r else goto_unwind r
      | _ => throw UP_TYPEERROR (lit "slot write: receiver is not an Object") r
      end
  end.

Definition op_getslot_change_event (a b site : Z) (r : run) : dstep :=
  f ← top_frame r; p ← proto_of r f;
  match site_name p site r with
  | None => throw UP_TYPEERROR (lit "slot-change event: no name table bound") r
  | Some name =>
      recv ← get_reg b r;
      match recv with
      | UV_OBJ o =>
          '(e, r) ← do_act (v_change_event o name) r;
          match e with
          | None => throw UP_OOMERROR (lit "slot-change event: out of memory") r
          | Some e => r ← put_reg a (UV_CELL e) r; next r
          end
      | _ => throw UP_TYPEERROR (lit "slot-change event: receiver is not an Object") r
      end
  end.

(** ** Concurrency *)

Definition fork_closure (r : run) (v : UValue) : option nat :=
  match as_closure r v with Some c => match clo_of r c with Some cl => match c_proto cl with Some _ => Some c | None => None end | None => None end | None => None end.

Definition arm (join : bool) : bytes := [39] ++ (if join then lit "&" else lit ",") ++ [39] ++ (if join then lit " (parallel join): " else lit " (parallel fork): ").

Definition op_fork (a b c : Z) (r : run) : dstep :=
  let join := c =? UFORK_JOIN in
  cv ← get_reg a r;
  match fork_closure r cv with
  | None => throw UP_TYPEERROR (arm join ++ lit "operand is not a closure") r
  | Some cell =>
      '(child, r) ← do_act (v_spawn cell) r;
      match child with
      | None => throw UP_OOMERROR (arm join ++ lit "cannot spawn the child strand") r
      | Some st => if join then r ← put_reg b (UV_CELL st) r; next r else next r
      end
  end.

Definition op_join_wait (a : Z) (r : run) : dstep :=
  cv ← get_reg a r;
  match as_cell UCELL_STRAND r cv with
  | None => throw UP_TYPEERROR (arm true ++ lit "join operand is not a strand") r
  | Some child =>
      if v_strand_dead (r_v r) child then next r
      else if may_deschedule r then leave_run USTRAND_PARKED (set_v (v_join child (r_v r)) r)
      else '(_, r) ← do_act (v_run_inline child) r; next r
  end.

Definition install_closure := as_closure.

Definition op_install (base mode flags : Z) (r : run) : dstep :=
  body_v ← (if Z.land flags UINSTALL_F_HAS_BODY =? 0 then Some UV_NIL else get_reg (base + 1) r);
  alt_v ← (if Z.land flags UINSTALL_F_HAS_ALT =? 0 then Some UV_NIL else get_reg (base + 2) r);
  let body := install_closure r body_v in
  let alt := install_closure r alt_v in
  subject ← get_reg base r;
  if mode =? UINSTALL_WAITUNTIL then
    match install_closure r subject with
    | None => throw UP_TYPEERROR (lit "waituntil install: condition is not a closure") r
    | Some cond =>
        '(rc, r) ← do_act (v_waituntil cond) r;
        if rc <? 0 then goto_unwind r else if 0 <? rc then Some (false, r) else next r
    end
  else
    let wmode := if (mode =? UINSTALL_AT_SYNC_COND) || (mode =? UINSTALL_AT_SYNC_EVENT) then 1
                 else if (mode =? UINSTALL_WHENEVER_COND) || (mode =? UINSTALL_WHENEVER_EVENT) then 2 else 0 in
    if UINSTALL_AT_EVENT <=? mode then
      match as_cell UCELL_EVENT r subject with
      | None => throw UP_TYPEERROR (lit "at-event watcher install: operand is not an event") r
      | Some e =>
          '(ok, r) ← do_act (v_install wmode None (Some e) body alt) r;
          if ok : bool then next r else throw UP_OOMERROR (lit "at-event watcher install: out of memory") r
      end
    else
      match install_closure r subject with
      | None => throw UP_TYPEERROR (lit "at watcher install: condition is not a closure") r
      | Some cond =>
          '(ok, r) ← do_act (v_install wmode (Some cond) None body alt) r;
          if ok : bool then next r else throw UP_OOMERROR (lit "at watcher install: out of memory") r
      end.

(** The tag in a register, or a fresh one; [None] inside: out of memory. *)
Definition scope_tag (a : Z) (r : run) : option (option nat * run) :=
  v ← (if a =? USCOPE_NO_REG then Some UV_NIL else get_reg a r);
  Some (match as_cell UCELL_TAG r v with
        | Some t => (Some t, r)
        | None => let '(t, v) := v_tag_new (r_v r) in (t, set_v v r)
        end).

Definition op_scope_tag (a bx : Z) (r : run) : dstep :=
  '(t, r) ← scope_tag a r;
  match t with
  | None => throw UP_OOMERROR (lit "tag push: out of memory creating the scope tag") r
  | Some t =>
      let c := MkCleanup UCLEAN_TAG_SCOPE 0 (ucode UUNWIND_NONE) (u16 (zlen (x_frames (r_x r)) - 1)) 0 bx (Some t)
                 (match x_tag (r_x r) with Some t => UV_CELL t | None => UV_NIL end) in
      '(rc, r) ← push_entry c r;
      if negb (rc =? 0) then throw UP_OOMERROR (lit "tag push: out of memory growing the cleanup stack") r
      else
        '(_, r) ← do_act (v_fire_enter t) (on_x (x_set_tag (Some t)) r);
        let g := v_tag_gates (r_v r) t in
        if g =? 0 then next r
        else
          let r := on_x (fun x => x_set_gates (u8 (Z.lor (x_gates x) g)) x) r in
          if may_deschedule r then leave_run USTRAND_PARKED r else next r
  end.

(** ** Dispatch *)

(** An activation of the loop: the run, the pending EXTARG bits, the budget
    of backward jumps ([None]: unbounded) and [fast_yields]. *)
Record dst := MkD { d_run : run; d_ext : Z; d_budget : option Z; d_fast : Z }.

Definition op_yield (d : dst) : option (bool * dst) :=
  if negb (may_deschedule (d_run d)) then Some (true, d)
  else
    '(_, r) ← (if v_ndirty (r_v (d_run d)) =? 0 then Some (tt, d_run d) else do_act v_drain (d_run d));
    if v_run_queue_empty (r_v r) && (v_ndirty (r_v r) =? 0) && bool_decide (x_unwind (r_x r) = UUNWIND_NONE) && (x_gates (r_x r) =? 0)
       && bool_decide (x_state (r_x r) = USTRAND_RUNNING) && negb (v_isr_pending (r_v r)) && (d_fast d <? UEXEC_FAST_YIELD_CAP)
    then Some (true, MkD r (d_ext d) (d_budget d) (d_fast d + 1))
    else Some (false, MkD (on_x (x_set_state USTRAND_READY) r) (d_ext d) (d_budget d) (d_fast d)).

Definition op_jmp (bx : Z) (d : dst) : option (bool * dst) :=
  let off := bx - UEXEC_JMP_BIAS in
  if 0 <=? off then r ← skip off (d_run d); Some (true, MkD r (d_ext d) (d_budget d) (d_fast d))
  else
    r ← skip (off - 1) (d_run d);
    match d_budget d with
    | None => Some (true, MkD r (d_ext d) None (d_fast d))
    | Some n =>
        let n := u32 (n - 1) in
        if n =? 0 then Some (false, MkD (on_x (x_set_state USTRAND_READY) r) (d_ext d) (Some n) (d_fast d))
        else Some (true, MkD r (d_ext d) (Some n) (d_fast d))
    end.

(** The instructions that only look at the strand and the VM. *)
Definition exec_op (op : UOpcode) (i ext : Z) (r : run) : dstep :=
  let a := uinstr_a i in let b := uinstr_b i in let c := uinstr_c i in let bx := uinstr_bx i in
  let site := Z.lor c ext in
  match op with
  | OP_LOADK => op_loadk a bx r
  | OP_MOVE => op_move a b r
  | OP_LOADNIL => r ← put_reg a UV_NIL r; next r
  | OP_LOADVOID => r ← put_reg a UV_VOID r; next r
  | OP_LOADBOOL => op_loadbool a b c r
  | OP_ADD | OP_SUB | OP_MUL | OP_DIV => op_arith op a b c r
  | OP_NEG => op_neg a b r
  | OP_RET => op_ret a r
  | OP_GETUPVAL => op_getupval a b r
  | OP_SETUPVAL => op_setupval a b r
  | OP_CLOSURE => op_closure a bx r
  | OP_CLOSE => op_close a r
  | OP_CALL => op_call a b c r
  | OP_TEST => op_test a c r
  | OP_TESTSET => op_testset a b c r
  | OP_EQ => op_eq a b c r
  | OP_LT | OP_LE => op_lt_le op a b c r
  | OP_LOAD_REALM_GLOBAL => op_load_realm_global a r
  | OP_LOAD_RECV => op_load_recv a r
  | OP_GETSLOT => op_getslot false a b site r
  | OP_SELF => op_getslot true a b site r
  | OP_SETSLOT => op_setslot false a b site r
  | OP_SETSLOT_UPDATE => op_setslot true a b site r
  | OP_THROW => op_throw a r
  | OP_FORK => op_fork a b c r
  | OP_JOIN_WAIT => op_join_wait a r
  | OP_INSTALL => op_install a b c r
  | OP_GETSLOT_CHANGE_EVENT => op_getslot_change_event a b site r
  | OP_SCOPE_TRY => op_scope_try a bx r
  | OP_SCOPE_TAG => op_scope_tag a bx r
  | OP_SCOPE_POP => op_scope_pop a r
  | OP_LOAD_CATCH_VALUE => op_load_catch_value a r
  | OP_RESUME => op_resume r
  | OP_UNWIND_TO => op_unwind_to a bx r
  | OP_YIELD | OP_JMP | OP_EXTARG => None
  end.

(** One instruction: [*f->pc++] and its arm; the flag says whether to fetch again. *)
Definition dispatch_step (d : dst) : option (bool * dst) :=
  let r := d_run d in
  f ← top_frame r; pc ← f_pc f; p ← proto_of r f; i ← read (v_items (instructions (pdata p))) pc; r ← skip 1 r;
  let d := MkD r (d_ext d) (d_budget d) (d_fast d) in
  match uinstr_opcode i with
  | None => '(go, r) ← throw UP_TYPEERROR (lit "opcode not available in this build") r; Some (go, MkD r (d_ext d) (d_budget d) (d_fast d))
  | Some OP_YIELD => op_yield d
  | Some OP_JMP => op_jmp (uinstr_bx i) d
  | Some OP_EXTARG => Some (true, MkD r (Z.shiftl (uinstr_bx i) 8) (d_budget d) (d_fast d))
  | Some op => '(go, r) ← exec_op op i (d_ext d) r; Some (go, MkD r (ext_after op (d_ext d)) (d_budget d) (d_fast d))
  end.

(** Whether [fuel] instructions were enough to come back. *)
Fixpoint dispatch (fuel : nat) (d : dst) : option (bool * dst) :=
  match fuel with
  | O => Some (false, d)
  | S fuel => '(go, d) ← dispatch_step d; if go : bool then dispatch fuel d else Some (true, d)
  end.

(** Entering the loop: a stop delivered from outside is walked, a payload a
    native parked for is delivered ([resume_slot] is biased by one). *)
Definition enter (resume_slot : Z) (r : run) : dstep :=
  let r := on_x (x_set_state USTRAND_RUNNING) r in
  if negb (bool_decide (x_unwind (r_x r) = UUNWIND_NONE)) then goto_unwind r
  else if resume_slot =? 0 then next r
  else
    let slot := u32 (resume_slot - 1) in
    let s := x_stk (r_x r) in
    s ← (if slot <? stack_cap s then l ← store (s_stack s) slot (x_transfer (r_x r)); Some (set_regs l s) else Some s);
    next (on_x (fun x => x_pending (x_unwind x) UV_NIL (x_set_stk s x)) r).

Definition uexec_run_inner (fuel : nat) (budget resume_slot fast : Z) (r : run) : option (bool * dst) :=
  '(go, r) ← enter resume_slot r;
  let d := MkD r 0 (if budget =? 0 then None else Some budget) fast in
  if go : bool then dispatch fuel d else Some (true, d).

(** A native that parks asks for the next wake's payload: the register its
    OP_CALL names, biased by one; [None] inside: left as it was. *)
Definition ustrand_want_payload (r : run) : option (option Z) :=
  match top_frame r with
  | None => Some None
  | Some f =>
      match proto_of r f, f_pc f with
      | Some p, Some pc =>
          if pc <=? 0 then Some None
          else
            call ← read (v_items (instructions (pdata p))) (pc - 1);
            if bool_decide (uinstr_opcode call = Some OP_CALL) then Some (Some (u32 (f_base f + uinstr_a call + 1))) else Some None
      | _, _ => Some None
      end
  end.

(** ** What the rest of the VM promises *)

(** A prototype the loader's verifier accepted, with every prototype in it. *)
Definition verified (p : UProto) : Prop :=
  tree_all (fun q => children_ok q /\ proto_walk q = Some OK /\ frame_verified q /\ data_wf (pdata q)) p.

Definition fproto (m : gmap nat Clo) (f : UFrame) : option UProto := cl ← m !! cl_cell (f_closure f); c_proto cl.

(** [pc] is an instruction of the frame's code at which it may resume. *)
Definition good_at (m : gmap nat Clo) (f : UFrame) (pc : Z) : Prop := exists q, fproto m f = Some q /\ good_target q pc.

(** A frame runs verified code of its closure. *)
Definition fr_ok (m : gmap nat Clo) (f : UFrame) : Prop :=
  exists q, fproto m f = Some q /\ cl_max_reg (f_closure f) = Some (max_reg (pdata q)) /\ verified q /\ is_Some (f_pc f).

(** Where a cleanup entry may resume its frame. *)
Definition entry_good (P : Z -> Prop) (c : UCleanupEntry) : Prop :=
  (is_tag_scope c = true -> P (cu_onleave_pc c)) /\ (is_tag_scope c = false -> P (cu_handler_pc c)) /\
  (has_flag UCLEAN_F_RUNNING c = true -> cu_saved_unwind c = ucode UUNWIND_NONE -> P (cu_onleave_pc c)) /\
  (has_flag UCLEAN_F_RUNNING c = true -> cu_saved_unwind c = ucode UUNWIND_JUMP -> forall i, cu_saved c = UV_INT i -> P (u32 i)).

(** Frames below the top one wait at an instruction; an activation of a
    frame starts at most 257 registers above its caller. *)
Record code_ok (m : gmap nat Clo) (x : xstrand) : Prop := {
  co_frames : Forall (fr_ok m) (x_frames x);
  co_pcs : forall i f g, x_frames x !! i = Some f -> x_frames x !! S i = Some g -> exists pc, f_pc f = Some pc /\ good_at m f pc;
  co_base : forall i f, x_frames x !! i = Some f -> f_base f <= 257 * Z.of_nat i;
  co_entries : forall c f, c ∈ x_cleanup x -> read (x_frames x) (cu_frame c) = Some f -> entry_good (good_at m f) c;
  co_jump : x_unwind x = UUNWIND_JUMP -> forall i f, x_transfer x = UV_INT i -> last (x_frames x) = Some f -> good_at m f (u32 i) }.

Definition clos_ok (m : gmap nat Clo) : Prop := forall c cl p, m !! c = Some cl -> c_proto cl = Some p -> verified p.

(** The closures of the frames stay what they are. *)
Definition kept (fs : list UFrame) (m m' : gmap nat Clo) : Prop := forall f, f ∈ fs -> fproto m' f = fproto m f.

(** What an operation of the VM may do to the strand that runs it: run code
    in frames of its own, which may grow the register stack, and leave
    something pending. *)
Record visits (w : world V) (x : xstrand) (w' : world V) (x' : xstrand) : Prop := {
  vi_frames : x_frames x' = x_frames x;
  vi_cleanup : x_cleanup x' = x_cleanup x;
  vi_cap : stack_cap (x_stk x) <= stack_cap (x_stk x');
  vi_swf : swf (x_stk x');
  vi_pending : x_unwind x' <> UUNWIND_JUMP;
  vi_kept : kept (x_frames x) (d_clo w) (d_clo w') }.

Class VmLaws : Type := {
  v_ok : V -> Prop;
  observe_ok : forall o v, v_ok v -> v_ok (v_observe o v);
  set_foreign_ok : forall u y v, v_ok v -> v_ok (v_set_foreign u y v);
  vgrant_ok : forall v, v_ok v -> v_ok (v_grant v).2;
  block_ok : forall v, v_ok v -> v_ok (v_block v).2;
  vexception_ok : forall p m x v, v_ok v -> v_ok (v_exception p m x v).2;
  concat_ok : forall a b v, v_ok v -> v_ok (v_concat a b v).2;
  join_ok : forall t v, v_ok v -> v_ok (v_join t v);
  tag_new_ok : forall v, v_ok v -> v_ok (v_tag_new v).2;
  new_closure_ok : forall w, v_ok (d_v w) -> v_ok (v_new_closure w).2 /\ forall c, (v_new_closure w).1 = Some c -> d_clo w !! c = None;
  new_upval_ok : forall x v, v_ok v -> v_ok (v_new_upval x v).2 /\ forall u, (v_new_upval x v).1 = Some u -> s_upvals (x_stk x) !! u = None;
  vm_ok w := clos_ok (d_clo w) /\ v_ok (d_v w);
  act_ok {A} (m : act V A) := forall w x, vm_ok w -> kwf (x_stk x) -> code_ok (d_clo w) x -> x_unwind x <> UUNWIND_JUMP -> x_frames x <> [] ->
    exists a w' x', m w x = Some (a, w', x') /\ vm_ok w' /\ visits w x w' x';
  slot_call_ok : forall n u l, act_ok (v_slot_call n u l);
  native_ok : forall c u l, act_ok (v_native c u l);
  slot_get_ok : forall b u n p k, act_ok (v_slot_get b u n p k);
  slot_set_ok : forall b o n u p k, act_ok (v_slot_set b o n u p k);
  drain_ok : act_ok v_drain;
  spawn_ok : forall c, act_ok (v_spawn c);
  run_inline_ok : forall c, act_ok (v_run_inline c);
  waituntil_ok : forall c, act_ok (v_waituntil c);
  install_ok : forall k a b c d, act_ok (v_install k a b c d);
  change_event_ok : forall o n, act_ok (v_change_event o n);
  fire_enter_ok : forall t, act_ok (v_fire_enter t);
  fire_leave_ok : forall t w x, vm_ok w -> swf (x_stk x) -> exists w' x', v_fire_leave t w x = Some (tt, w', x') /\ vm_ok w' /\
    crossed x x' /\ kept (x_frames x) (d_clo w) (d_clo w') }.

Context {VL : VmLaws}.

#[export] Instance scope_laws : ScopeLaws (W := world V).
Proof using VL.
  refine {| world_ok := vm_ok |}.
  - intros t w x Hw Hs. destruct (fire_leave_ok t w x Hw Hs) as (w' & x' & E & Hw' & Hc & _). exists w', x'. cbn. by rewrite E.
  - intros w [H1 H2]. cbn. pose proof (vgrant_ok (d_v w) H2). by destruct (v_grant (d_v w)).
  - intros p m x w [H1 H2]. cbn. pose proof (vexception_ok p m x (d_v w) H2). by destruct (v_exception p m x (d_v w)).
Defined.

(** ** Resumption points along the walk *)

Definition top_good (m : gmap nat Clo) (x : xstrand) : Prop :=
  forall f, last (x_frames x) = Some f -> exists pc, f_pc f = Some pc /\ good_at m f pc.

Lemma fproto_closure m f g : f_closure f = f_closure g -> fproto m f = fproto m g.
Proof. unfold fproto. by intros ->. Qed.

Lemma good_closure m f g pc : f_closure f = f_closure g -> good_at m f pc -> good_at m g pc.
Proof. intros E (q & Hq & Hg). exists q. by rewrite <- (fproto_closure m f g E). Qed.

Lemma good_kept fs m m' f pc : kept fs m m' -> f ∈ fs -> good_at m f pc -> good_at m' f pc.
Proof. intros Hk Hf (q & Hq & Hg). exists q. by rewrite (Hk f Hf). Qed.

Lemma entry_good_mono (P Q : Z -> Prop) c : (forall pc, P pc -> Q pc) -> entry_good P c -> entry_good Q c.
Proof. intros H (H1 & H2 & H3 & H4). split_and!; eauto. Qed.

Lemma read_elem {A} (l : list A) i x : read l i = Some x -> x ∈ l.
Proof. unfold read. zcase; [|done]. apply list_elem_of_lookup_2. Qed.

Lemma kept_refl fs m : kept fs m m.
Proof. by intros f. Qed.

(** The same frames with at most the same entries. *)
Lemma code_same m m' x x' : code_ok m x -> x_frames x' = x_frames x -> (forall c, c ∈ x_cleanup x' -> c ∈ x_cleanup x) ->
  kept (x_frames x) m m' -> (x_unwind x' = UUNWIND_JUMP -> x_unwind x = UUNWIND_JUMP /\ x_transfer x' = x_transfer x) -> code_ok m' x'.
Proof.
  intros [H1 H2 H3 H4 H5] Hf Hc Hk Hj. split; rewrite ?Hf.
  - rewrite Forall_forall in *. intros f Hin. destruct (H1 f Hin) as (q & Hq & Hr). exists q. by rewrite (Hk f Hin).
  - intros i f g Hi Hg. destruct (H2 i f g Hi Hg) as (pc & Hpc & Hgood). exists pc. split; [done|].
    eapply good_kept; [exact Hk|by eapply list_elem_of_lookup_2|done].
  - done.
  - intros c f Hin Hr. eapply entry_good_mono; [|apply (H4 c f); auto]. intros pc. eapply good_kept; [exact Hk|by eapply read_elem].
  - intros Hu i f Hi Hl. destruct (Hj Hu) as [Hu' Ht]. eapply good_kept; [exact Hk|by apply last_Some_elem_of|]. apply (H5 Hu'); [congruence|done].
Qed.

Lemma code_here m x x' : code_ok m x -> x_frames x' = x_frames x -> x_cleanup x' = x_cleanup x -> x_unwind x' <> UUNWIND_JUMP -> code_ok m x'.
Proof. intros Hc Hf Hcl Hu. apply (code_same m m x); try done. by rewrite Hcl. Qed.

Lemma read_app_some {A} (l : list A) y i x : read l i = Some x -> read (l ++ [y]) i = Some x.
Proof. intros Hr. rewrite read_grow; [done|]. by apply read_Some_lt in Hr. Qed.

(** The top frame gone. *)
Lemma code_pop m x x' f : code_ok m x -> x_frames x = x_frames x' ++ [f] -> (forall c, c ∈ x_cleanup x' -> c ∈ x_cleanup x) ->
  x_unwind x' <> UUNWIND_JUMP -> code_ok m x' /\ top_good m x'.
Proof.
  intros [H1 H2 H3 H4 H5] Hf Hc Hu. rewrite Hf in *. split; [split|].
  - by apply Forall_app in H1 as [? _].
  - intros i g h Hg Hh. eapply H2; apply lookup_app_l_Some; eauto.
  - intros i g Hg. eapply H3, lookup_app_l_Some, Hg.
  - intros c g Hin Hr. apply H4; [auto|]. by apply read_app_some.
  - done.
  - intros g Hl. apply last_Some in Hl as (k & Hk). apply (H2 (length k) g f); rewrite Hk, <- (assoc_L (++)).
    + rewrite lookup_app_r, Nat.sub_diag by lia. done.
    + rewrite lookup_app_r by lia. by replace (S (length k) - length k)%nat with 1%nat by lia.
Qed.

Lemma read_last_at {A} (l : list A) (f g h : A) i : read (l ++ [f]) i = Some h -> read (l ++ [g]) i = Some (if decide (i = zlen l) then g else h).
Proof.
  unfold read, zlen. zcase; [|done]. intros [Hi|[Hi Hh]]%lookup_app_Some.
  - apply lookup_lt_Some in Hi as Hlt. rewrite decide_False by lia. by rewrite lookup_app_l.
  - destruct (Z.to_nat i - length l)%nat as [|n] eqn:E; [|by destruct n]. rewrite decide_True by lia. rewrite lookup_app_r, E by lia. done.
Qed.

(** The top frame elsewhere in its code. *)
Lemma code_moved m pc x s y : code_ok m x -> moved pc (x_stk x) s -> x_frames y = s_frames s -> x_cleanup y = s_cleanup s ->
  x_unwind y <> UUNWIND_JUMP -> code_ok m y.
Proof.
  intros [H1 H2 H3 H4 H5] (l & f & El & ->) Hf Hc Hu. cbn in Hf, Hc. fold (x_frames x) (x_cleanup x) in *. rewrite El in H1, H2, H3. split; rewrite ?Hf, ?Hc.
  - apply Forall_app in H1 as [H1 Ht]. rewrite Forall_singleton in Ht. apply Forall_app. split; [done|]. rewrite Forall_singleton.
    destruct Ht as (q & Hq & Hm & Hv & _). exists q. split_and!; [done..|by eexists].
  - intros i g h Hg Hh. pose proof Hh as Hlt. apply lookup_lt_Some in Hlt. rewrite length_app in Hlt. cbn [length] in Hlt.
    rewrite lookup_app_l in Hg by lia. apply lookup_at_pc in Hh as (h' & Hh & _). eapply (H2 i g h'); [|done]. by apply lookup_app_l_Some.
  - intros i g Hg. apply lookup_at_pc in Hg as (g' & Hg & _ & -> & _). by eapply H3.
  - intros c g Hin Hr. pose proof Hr as Hr'. apply (read_last_at _ _ f) in Hr'. rewrite <- El in Hr'. specialize (H4 c _ Hin Hr').
    eapply entry_good_mono; [|exact H4]. intros k. apply good_closure. case_decide; [|done]. subst. unfold read in Hr. rewrite El in Hr'.
    revert Hr. zcase; [|done]. rewrite H, lookup_app_r by (unfold zlen; lia). unfold zlen. rewrite Nat2Z.id, Nat.sub_diag. by intros [= <-].
  - done.
Qed.

Lemma moved_good m pc x s y f : code_ok m x -> last (x_frames x) = Some f -> good_at m f pc -> moved pc (x_stk x) s ->
  x_frames y = s_frames s -> x_cleanup y = s_cleanup s -> x_unwind y <> UUNWIND_JUMP -> code_ok m y /\ top_good m y.
Proof.
  intros Hc Hl Hg Hm Hf Hcl Hu. split; [by eapply code_moved|]. destruct Hm as (l & g & El & ->). intros h Hh. unfold x_frames in Hl, Hh.
  rewrite El, last_snoc in Hl. injection Hl as ->. change (s_frames (x_stk y) = l ++ [at_pc pc f]) in Hf. rewrite Hf, last_snoc in Hh. injection Hh as <-.
  by exists pc.
Qed.

Lemma top_fr m x f : code_ok m x -> last (x_frames x) = Some f -> fr_ok m f.
Proof. intros Hc Hl. pose proof (co_frames _ _ Hc) as H1. rewrite Forall_forall in H1. by apply H1, last_Some_elem_of. Qed.

Lemma fr_script m f : fr_ok m f -> is_Some (cl_max_reg (f_closure f)).
Proof. intros (q & _ & -> & _). by eexists. Qed.

Lemma own_frame x f top : kwf (x_stk x) -> last (x_frames x) = Some f -> own_entry (u16 (zlen (x_frames x) - 1)) x = Some top ->
  read (x_frames x) (cu_frame top) = Some f /\ top ∈ x_cleanup x.
Proof.
  intros Hk Hl Hown. destruct (own_entry_spec _ _ _ Hown) as [He Hge]. assert (Hin : top ∈ x_cleanup x) by (rewrite He; apply elem_of_app; right; by left).
  split; [|done]. pose proof (k_entries _ Hk) as Hall. rewrite Forall_forall in Hall. destruct (Hall top Hin) as [(g & Hg & _) _ _].
  fold (x_frames x) in Hg. destruct (top_index x f Hk Hl) as [Hti Hpos]. rewrite Hti in Hge. pose proof (read_Some_lt _ _ _ Hg) as Hlt.
  rewrite Hg. unfold read in Hg. revert Hg. zcase; [|done]. unfold zlen in *. rewrite last_lookup in Hl.
  replace (Z.to_nat (cu_frame top)) with (pred (length (x_frames x))) by lia. congruence.
Qed.

Lemma own_good m x f top : kwf (x_stk x) -> code_ok m x -> last (x_frames x) = Some f -> own_entry (u16 (zlen (x_frames x) - 1)) x = Some top ->
  entry_good (good_at m f) top.
Proof. intros Hk Hc Hl Hown. destruct (own_frame x f top Hk Hl Hown) as [Hr Hin]. by apply (co_entries _ _ Hc). Qed.

Lemma in_drop c x : c ∈ x_cleanup (drop_entry x) -> c ∈ x_cleanup x.
Proof. intros Hc. unfold drop_entry, x_cleanup in *. cbn in Hc. rewrite <- (take_drop (length (s_cleanup (x_stk x)) - 1) (s_cleanup (x_stk x))). apply elem_of_app. by left. Qed.

Lemma code_drop m x : code_ok m x -> code_ok m (drop_entry x).
Proof. intros Hc. apply (code_same m m x); try done. intros c. apply in_drop. Qed.

Definition rcode (r : run) : Prop := code_ok (d_clo (r_w r)) (r_x r).
Definition rtop (r : run) : Prop := top_good (d_clo (r_w r)) (r_x r).
Definition rdone (r : run) : Prop := rtop r /\ x_unwind (r_x r) <> UUNWIND_JUMP.

Lemma leave_code c r : vm_ok (r_w r) -> swf (x_stk (r_x r)) -> rcode r -> exists r', leave_scope c r = Some r' /\ rcode r' /\
  x_frames (r_x r') = x_frames (r_x r) /\ kept (x_frames (r_x r)) (d_clo (r_w r)) (d_clo (r_w r')).
Proof.
  intros Hw Hs Hc. unfold leave_scope. destruct (cu_tag c) as [t|].
  2:{ eexists. split; [done|]. split; [|split; [done|apply kept_refl]]. apply (code_same (d_clo (r_w r)) (d_clo (r_w r)) (r_x r)); done. }
  destruct (fire_leave_ok t (r_w r) (x_set_tag (ambient c) (r_x r)) Hw Hs) as (w' & x' & E & _ & Hx & Hk). cbn. rewrite E. cbn [mbind option_bind].
  eexists. split; [done|]. split; [|split; [exact (c_frames _ _ Hx)|exact Hk]].
  apply (code_same (d_clo (r_w r)) (d_clo w') (r_x r)); [exact Hc|exact (c_frames _ _ Hx)|intros d Hd; change (d ∈ x_cleanup x') in Hd; by rewrite (c_cleanup _ _ Hx) in Hd|exact Hk|].
  intros Hj. destruct (c_pending _ _ Hx) as [[E1 E2]|[E1 _]]; [change (x_unwind x' = UUNWIND_JUMP) in Hj; rewrite E1 in Hj; by split|change (x_unwind x' = UUNWIND_JUMP) in Hj; congruence].
Qed.

Lemma rcode_here r r' : rcode r -> d_clo (r_w r') = d_clo (r_w r) -> x_frames (r_x r') = x_frames (r_x r) -> x_cleanup (r_x r') = x_cleanup (r_x r) ->
  (x_unwind (r_x r') = UUNWIND_JUMP -> x_unwind (r_x r) = UUNWIND_JUMP /\ x_transfer (r_x r') = x_transfer (r_x r)) -> rcode r'.
Proof. intros Hc Hd Hf Hcl Hu. unfold rcode. rewrite Hd. apply (code_same (d_clo (r_w r)) _ (r_x r)); try done. by rewrite Hcl. Qed.

Lemma grant_clo (w : world V) : d_clo (grant w).2 = d_clo w.
Proof. cbn. by destruct (v_grant (d_v w)). Qed.

Lemma exception_clo p m x (w : world V) : d_clo (new_exception p m x w).2 = d_clo w.
Proof. cbn. by destruct (v_exception p m x (d_v w)). Qed.

Lemma running_good (P : Z -> Prop) u v n top : entry_good P top -> is_tag_scope top = false -> u <> UUNWIND_NONE ->
  (u = UUNWIND_JUMP -> forall i, v = UV_INT i -> P (u32 i)) -> entry_good P (running u v n top).
Proof.
  intros (_ & H2 & _) Ht Hn Hj. assert (Ht' : is_tag_scope (running u v n top) = false) by exact Ht. split_and!.
  - by rewrite Ht'.
  - intros _. by apply H2.
  - intros _ E. by destruct u.
  - intros _ E i Ei. apply Hj; [by destruct u|done].
Qed.

Lemma finally_code u v n top r skip o r' f : popped top r -> rcode r -> last (x_frames (r_x r)) = Some f ->
  (u = UUNWIND_JUMP -> exists i, v = UV_INT i) -> entry_good (good_at (d_clo (r_w r)) f) (running u v n top) ->
  read (x_frames (r_x r)) (cu_frame top) = Some f -> is_tag_scope top = false ->
  start_finally (running u v n top) top skip r = Some (o, r') -> rcode r' /\ rdone r'.
Proof.
  intros Hp Hc Hl Hu Hg Hr Ht. destruct (start_finally_ok u v n top r skip Hp Hu) as (r2 & -> & _ & Hw & Hcl & s & Hm & Hx). intros [= <- <-].
  unfold rdone. rewrite (assoc and), (comm and). split; [by rewrite Hx|]. unfold rcode, rtop. rewrite Hw, grant_clo. set (m := d_clo (r_w r)) in *.
  set (x1 := x_set_stk (set_cleanup (x_cleanup (r_x r) ++ [running u v n top]) (s_cleanup_cap (x_stk (r_x r))) (x_stk (r_x r))) (r_x r)).
  assert (Hc1 : code_ok m x1).
  { destruct Hc as [H1 H2 H3 H4 H5]. split; try done. intros c g Hin Hg'. change (x_cleanup x1) with (x_cleanup (r_x r) ++ [running u v n top]) in Hin.
    apply elem_of_app in Hin as [Hin | ->%list_elem_of_singleton]; [by apply H4|]. change (read (x_frames (r_x r)) (cu_frame top) = Some g) in Hg'.
    rewrite Hr in Hg'. by injection Hg' as <-. }
  eapply (moved_good m (cu_handler_pc top) x1 s); try done; rewrite ?Hx; try done.
  destruct Hg as (_ & H2 & _). by apply H2.
Qed.

Lemma again_code r o r' : again r = Some (o, r') -> rcode r -> rcode r' /\ (is_Some o -> rdone r').
Proof. intros [= <- <-] Hc. split; [done|by intros [? [=]]]. Qed.

Lemma entry_code top r o r' f : popped top r -> rcode r -> last (x_frames (r_x r)) = Some f -> entry_good (good_at (d_clo (r_w r)) f) top ->
  read (x_frames (r_x r)) (cu_frame top) = Some f -> walk_entry top r = Some (o, r') -> rcode r' /\ (is_Some o -> rdone r').
Proof.
  intros Hp Hc Hl Hg Hr Hstep.
  pose proof (fun r2 => again_code r2 o r') as Hag.
  assert (Hfin : forall u v n skip, (u = UUNWIND_JUMP -> exists i, v = UV_INT i) -> entry_good (good_at (d_clo (r_w r)) f) (running u v n top) -> is_tag_scope top = false ->
    start_finally (running u v n top) top skip r = Some (o, r') -> rcode r' /\ (is_Some o -> rdone r')).
  { intros u v n skip Hu Hgr Ht E. destruct (finally_code u v n top r skip o r' f Hp Hc Hl Hu Hgr Hr Ht E) as [H1 H2]. by split. }
  pose proof (p_wf _ _ Hp) as [Hk Hj]. pose proof (p_pending _ _ Hp) as Hn.
  destruct (leave_code top r (p_world _ _ Hp) (k_swf _ Hk) Hc) as (r1 & El & Hc1 & Hf1 & Hk1).
  assert (Hscopes : x_unwind (r_x r) <> UUNWIND_JUMP -> walk_scopes top r = Some (o, r') -> rcode r' /\ (is_Some o -> rdone r')).
  { intros Hu. unfold walk_scopes. destruct (is_tag_scope top) eqn:Et.
    - rewrite El. cbn [mbind option_bind]. case_decide as Hst; [|by intros ?%Hag].
      assert (Hg1 : good_at (d_clo (r_w r1)) f (cu_onleave_pc top)).
      { apply (good_kept _ _ _ f _ Hk1); [by apply last_Some_elem_of|]. destruct Hg as [Hg _]. by apply Hg. }
      destruct (leave_popped top r Hp) as (r1' & El' & _ & Hp1). rewrite El in El'. injection El' as <-. destruct (p_wf _ _ Hp1) as [Hk2 _].
      assert (Hl1 : last (x_frames (r_x r1)) = Some f) by (by rewrite Hf1).
      destruct (set_pc_spec (cu_onleave_pc top) (x_pending UUNWIND_NONE UV_NIL (r_x r1)) f Hk2 Hl1) as (s & -> & Hs & _); [by eapply fr_script, top_fr|].
      cbn [mbind option_bind]. intros [= <- <-].
      destruct (moved_good (d_clo (r_w r1)) (cu_onleave_pc top) (r_x r1) s (x_set_stk s (x_pending UUNWIND_NONE UV_NIL (r_x r1))) f) as [H1 H2]; try done.
      split; [|intros _; split; [exact H2|done]]. unfold rcode. by apply (code_here _ _ _ H1).
    - destruct (has_flag UCLEAN_F_RUNNING top); [by intros ?%Hag|]. destruct (_ && _); [done|]. destruct (has_flag UCLEAN_F_HAS_FINALLY top).
      + apply Hfin; [done| |done]. by apply running_good.
      + destruct (_ && _); [|by intros ?%Hag]. intros E. destruct (land_ok (cu_handler_pc top) r top Hp (x_transfer (r_x r))) as (r2 & E2 & _ & Hw & s & Hs & Hx).
        change (on_x (fun x => x_pending UUNWIND_NONE (x_transfer x) x) r) with (on_x (x_pending UUNWIND_NONE (x_transfer (r_x r))) r) in E.
        rewrite E2 in E. injection E as <- <-. unfold rcode, rdone, rtop. rewrite Hw, Hx.
        destruct (moved_good (d_clo (r_w r)) (cu_handler_pc top) (r_x r) s (x_set_stk s (x_pending UUNWIND_NONE (x_transfer (r_x r)) (r_x r))) f) as [H1 H2]; try done.
        destruct Hg as (_ & H2 & _). by apply H2. }
  unfold walk_entry in Hstep. destruct (x_unwind (r_x r)) eqn:Hu; try (by apply Hscopes).
  - unfold walk_jump in Hstep. destruct (is_tag_scope top) eqn:Et.
    + rewrite El in Hstep. cbn [mbind option_bind] in Hstep. eapply Hag; [exact Hstep|]. by apply (rcode_here r1).
    + destruct (_ && _); [|eapply Hag; [exact Hstep|]; by apply (rcode_here r)]. eapply Hfin; [|..|exact Hstep]; [by intros _; apply Hj| |done].
      apply running_good; try done. intros _ i Ei. by apply (co_jump _ _ Hc).
  - eapply Hag; [exact Hstep|]. destruct (is_tag_scope top); [|done]. by apply (rcode_here r).
Qed.

Lemma frame_code f r o r' : walking r -> rcode r -> last (x_frames (r_x r)) = Some f -> own_entry (u16 (zlen (x_frames (r_x r)) - 1)) (r_x r) = None ->
  walk_frame f r = Some (o, r') -> rcode r' /\ (is_Some o -> rdone r').
Proof.
  intros (Hw & [Hk Hj] & Hn) Hc Hl Hown.
  destruct (pop_frame_ok _ f Hk Hl Hown) as (s & Es & _ & _ & _ & Hfr & Hcl & _).
  assert (Hpop : x_unwind (r_x r) <> UUNWIND_JUMP -> (if f_is_boundary f then ret_rc 1 (on_x (x_set_state USTRAND_RUNNING) (uexec_report_escape (on_x (x_set_stk s) r)))
      else again (on_x (x_set_stk s) r)) = Some (o, r') -> rcode r' /\ (is_Some o -> rdone r')).
  { intros Hu. destruct (code_pop (d_clo (r_w r)) (r_x r) (x_set_stk s (r_x r)) f Hc Hfr) as [H1 H2]; [|done|].
    { intros c Hin. change (c ∈ s_cleanup s) in Hin. by rewrite Hcl in Hin. }
    destruct (f_is_boundary f); [|by intros [= <- <-]; split; [exact H1|intros [? [=]]]].
    unfold uexec_report_escape. case_decide; intros [= <- <-]; (split; [unfold rcode; by apply (code_here _ _ _ H1)|intros _; split; [exact H2|exact Hu]]). }
  unfold walk_frame. destruct (x_unwind (r_x r)) eqn:Hu; try (rewrite Es; by apply Hpop).
  - destruct (return_ok (x_transfer (r_x r)) (x_pending UUNWIND_NONE UV_NIL (r_x r)) f Hk Hl Hown) as (s2 & _ & _ & _ & Hfr2 & Hcl2 & _ & Hcase).
    assert (Hgen : forall y, s_frames (x_stk y) = s_frames s2 -> s_cleanup (x_stk y) = s_cleanup s2 -> x_unwind y = UUNWIND_NONE ->
      code_ok (d_clo (r_w r)) y /\ top_good (d_clo (r_w r)) y).
    { intros y Hy1 Hy2 Hy3. eapply code_pop; [exact Hc|unfold x_frames at 2; rewrite Hy1; exact Hfr2| |congruence].
      intros c Hin. unfold x_cleanup in Hin. rewrite Hy2, Hcl2 in Hin. exact Hin. }
    destruct Hcase as [(_ & E)|[(_ & _ & E)|(_ & g & l & _ & _ & E & _)]]; rewrite E; cbn [mbind option_bind]; intros [= <- <-];
      unfold rcode, rdone, rtop; (match goal with |- code_ok _ ?y /\ _ => destruct (Hgen y) as [H1 H2]; [done..|]; split; [exact H1|intros _; split; [exact H2|done]] end).
  - destruct (fatal_spec (lit "chunk integrity: unwind deeper than this frame" ++ [39] ++ lit "s scopes") r) as (v & rep & code & E). rewrite E.
    intros Ea. eapply again_code; [exact Ea|]. unfold rcode. cbn [r_w r_x]. rewrite exception_clo. by apply (code_here _ (r_x r)).
Qed.

(** The walker resumes a frame only where its code may be entered. *)
Lemma step_code r o r' : walking r -> rcode r -> unwind_step r = Some (o, r') -> rcode r' /\ (is_Some o -> rdone r').
Proof.
  intros Hlv Hc. pose proof Hlv as (Hw & [Hk Hj] & Hn). unfold unwind_step. rewrite decide_False by done.
  destruct (last (x_frames (r_x r))) as [f|] eqn:Hl.
  2:{ destruct (close_upvals_spec 0 _ (k_swf _ Hk)) as (s & E & _ & HC). pose proof (cl_only _ _ _ _ HC) as Ho. unfold upvals_only in Ho.
      assert (Hnil : x_frames (r_x r) = []) by (by apply last_None). assert (Hfs : s_frames s = []) by (by rewrite Ho).
      assert (Hgen : forall y, x_stk y = s -> code_ok (d_clo (r_w r)) y /\ top_good (d_clo (r_w r)) y).
      { intros y Hy. assert (Hfy : x_frames y = []) by (unfold x_frames; by rewrite Hy, Hfs). split; [split|]; rewrite ?Hfy; try done; try (by apply Forall_nil_2); try (intros f; by rewrite Hfy).
        intros c f _. unfold read. zcase; [|done]. by rewrite lookup_nil. }
      unfold uexec_report_escape. case_decide; cbn [on_x r_x x_set_state x_stk r_w r_report r_code]; rewrite E; cbn [mbind option_bind]; intros [= <- <-];
        unfold rcode, rdone, rtop; (match goal with |- code_ok _ ?y /\ _ => destruct (Hgen y eq_refl) as [H1 H2] end);
        (split; [exact H1|intros _; split; [exact H2|]]); cbn; intros Eu; destruct (Hj Eu) as (_ & g & Hg & _); congruence. }
  destruct (_ && _) eqn:Eb.
  - apply andb_prop in Eb as [Eb%bool_decide_eq_true _]. destruct (Hj Eb) as [(i & Ei) (g & Hg & Hm)]. rewrite Ei. cbn [jump_target mbind option_bind].
    destruct (set_pc_spec (u32 i) (r_x r) g Hk Hg Hm) as (s & -> & Hs & Hk'). cbn [mbind option_bind]. intros [= <- <-].
    destruct (moved_good (d_clo (r_w r)) (u32 i) (r_x r) s (x_pending UUNWIND_NONE UV_NIL (x_set_stk s (r_x r))) g) as [H1 H2]; try done.
    by apply (co_jump _ _ Hc).
  - destruct (own_entry _ _) as [top|] eqn:Hown; [|by apply frame_code].
    destruct (drop_popped r f top Hlv Hl Hown) as [Hp He]. destruct (own_frame _ f top Hk Hl Hown) as [Hr _].
    apply (entry_code top (on_x drop_entry r) o r' f); try done; [exact (code_drop _ _ Hc)|].
    by apply (own_good (d_clo (r_w r)) (r_x r) f top).
Qed.

Lemma loop_code fuel : forall r rc r', walking r -> rcode r -> unwind_loop fuel r = Some (rc, r') -> rcode r' /\ rdone r'.
Proof.
  induction fuel as [|fuel IH]; intros r rc r' Hl Hc; [done|]. cbn [unwind_loop]. destruct (walk_step_ok r Hl) as (o & r1 & E & H1 & H2 & H3).
  rewrite E. cbn [mbind option_bind]. destruct (step_code r o r1 Hl Hc E) as [Hc1 Ht1]. destruct o as [n|]; [intros [= _ <-]; split; [done|apply Ht1; by eexists]|].
  destruct H3 as [H3 _]. apply IH; [by split_and!|done].
Qed.

(** ** Between two instructions *)

Record mid (r : run) : Prop := {
  m_vm : vm_ok (r_w r);
  m_kwf : kwf (x_stk (r_x r));
  m_code : rcode r;
  m_jump : x_unwind (r_x r) <> UUNWIND_JUMP }.

(** The strand can be left here and taken up again. *)
Definition settled (r : run) : Prop := mid r /\ rtop r.

Definition ok_step (m : dstep) : Prop := exists go r', m = Some (go, r') /\ settled r' /\ (go = true -> x_frames (r_x r') <> []).

Lemma walk_settles r : walking r -> rcode r -> ok_step (goto_unwind r).
Proof.
  intros Hl Hc. destruct (unwind_total r Hl) as (rc & r' & E & Hw & [Hk Hj] & He). destruct (loop_code _ _ _ _ Hl Hc E) as [Hc' [Ht' Hu]].
  unfold goto_unwind. rewrite E. cbn [mbind option_bind]. do 2 eexists. split; [done|].
  split; [by split; [split|]|]. intros Hz. zbool. destruct He as [(_ & _ & H)|(? & _)]; [done|lia].
Qed.

(** ** Instructions in the top frame *)

(** [r] runs code [q] in its top frame [f]. *)
Record in_frame (f : UFrame) (q : UProto) (r : run) : Prop := {
  in_mid : mid r;
  in_top : last (x_frames (r_x r)) = Some f;
  in_proto : fproto (d_clo (r_w r)) f = Some q }.

Definition resumable (q : UProto) (f : UFrame) : Prop := exists pc, f_pc f = Some pc /\ good_target q pc.

Lemma in_code f q r : in_frame f q r -> cl_max_reg (f_closure f) = Some (max_reg (pdata q)) /\ verified q.
Proof. intros [Hm Hl Hp]. destruct (top_fr _ _ _ (m_code _ Hm) Hl) as (q' & Hq & H1 & H2 & _). assert (q' = q) as -> by congruence. done. Qed.

Lemma in_settled f q r : in_frame f q r -> resumable q f -> settled r /\ x_frames (r_x r) <> [].
Proof.
  intros [Hm Hl Hp] (pc & Hpc & Hg). split; [split; [done|]|intros E; by rewrite E in Hl]. intros g Hg'. rewrite Hl in Hg'. injection Hg' as <-.
  exists pc. split; [done|]. by exists q.
Qed.

Lemma next_ok f q r : in_frame f q r -> resumable q f -> ok_step (next r).
Proof. intros Hi Hr. exists true, r. split; [done|]. destruct (in_settled f q r Hi Hr). by split. Qed.

Lemma stay_ok f q go r : in_frame f q r -> resumable q f -> ok_step (Some (go, r)).
Proof. intros Hi Hr. exists go, r. split; [done|]. destruct (in_settled f q r Hi Hr). by split. Qed.

Lemma in_here f q r r' : in_frame f q r -> vm_ok (r_w r') -> kwf (x_stk (r_x r')) -> x_frames (r_x r') = x_frames (r_x r) ->
  x_cleanup (r_x r') = x_cleanup (r_x r) -> x_unwind (r_x r') <> UUNWIND_JUMP -> kept (x_frames (r_x r)) (d_clo (r_w r)) (d_clo (r_w r')) -> in_frame f q r'.
Proof.
  intros [Hm Hl Hp] Hv Hk Hf Hc Hu Hke. split; [split; try done| |].
  - apply (code_same (d_clo (r_w r)) _ (r_x r)); try done; [apply Hm|by rewrite Hc].
  - by rewrite Hf.
  - rewrite <- Hp. by apply Hke, last_Some_elem_of.
Qed.

(** Changes that leave the closures and the stacks alone. *)
Lemma in_same f q r r' : in_frame f q r -> d_clo (r_w r') = d_clo (r_w r) -> v_ok (r_v r') -> x_stk (r_x r') = x_stk (r_x r) ->
  x_unwind (r_x r') <> UUNWIND_JUMP -> in_frame f q r'.
Proof.
  intros Hi Hd Hv Hs Hu. destruct (in_mid _ _ _ Hi) as [[Hc _] Hk _ _].
  apply (in_here f q r); try done; unfold x_frames, x_cleanup; rewrite ?Hs; try done; rewrite ?Hd; [|apply kept_refl]. split; [by rewrite Hd|done].
Qed.

Lemma in_stack f q r s : in_frame f q r -> kwf s -> s_frames s = x_frames (r_x r) -> s_cleanup s = x_cleanup (r_x r) -> in_frame f q (on_x (x_set_stk s) r).
Proof. intros Hi Hk Hf Hc. apply (in_here f q r); try done; apply (in_mid _ _ _ Hi). Qed.

Lemma in_set_v f q r v : in_frame f q r -> v_ok v -> in_frame f q (set_v v r).
Proof. intros Hi Hv. apply (in_same f q r); try done. apply (in_mid _ _ _ Hi). Qed.

Lemma in_v_ok f q r : in_frame f q r -> v_ok (r_v r).
Proof. intros Hi. apply (in_mid _ _ _ Hi). Qed.

(** *** Registers *)

Lemma window f q r a : in_frame f q r -> 0 <= a <= max_reg (pdata q) -> 0 <= f_base f + a < stack_cap (x_stk (r_x r)).
Proof.
  intros Hi Ha. destruct (in_code _ _ _ Hi) as [Hmr _]. destruct Hi as [Hm Hl _]. pose proof (w_windows _ (k_swf _ (m_kwf _ Hm))) as Hw.
  rewrite Forall_forall in Hw. destruct (Hw f) as [H1 H2]; [by apply last_Some_elem_of|]. rewrite Hmr in H2. cbn in H2. lia.
Qed.

Lemma get_ok f q r a : in_frame f q r -> 0 <= a <= max_reg (pdata q) -> exists v, get_reg a r = Some v.
Proof.
  intros Hi Ha. pose proof (window f q r a Hi Ha). unfold get_reg, top_frame. rewrite (in_top _ _ _ Hi). cbn [mbind option_bind].
  destruct (read_is_Some (s_stack (x_stk (r_x r))) (f_base f + a)) as [v ->]; [done|]. by exists v.
Qed.

Lemma put_reg_ok f q r a v : in_frame f q r -> 0 <= a <= max_reg (pdata q) -> exists r', put_reg a v r = Some r' /\ in_frame f q r' /\ r_w r' = r_w r.
Proof.
  intros Hi Ha. pose proof (window f q r a Hi Ha) as Hw. unfold put_reg, top_frame. rewrite (in_top _ _ _ Hi). cbn [mbind option_bind].
  destruct (store_is_Some (s_stack (x_stk (r_x r))) (f_base f + a) v) as (l & E & Hl); [done|]. rewrite E. cbn [mbind option_bind].
  eexists. split; [done|]. split; [|done]. apply in_stack; try done. apply kwf_regs; [apply (in_mid _ _ _ Hi)|]. unfold stack_cap, zlen. by rewrite Hl.
Qed.

Lemma put_next f q r a v : in_frame f q r -> resumable q f -> 0 <= a <= max_reg (pdata q) -> ok_step (r ← put_reg a v r; next r).
Proof. intros Hi Hr Ha. destruct (put_reg_ok f q r a v Hi Ha) as (r' & -> & Hi' & _). by apply (next_ok f q). Qed.

(** *** The program counter *)

Lemma skip_ok f q r k pc : in_frame f q r -> f_pc f = Some pc -> exists r', skip k r = Some r' /\ in_frame (at_pc (pc + k) f) q r' /\ r_w r' = r_w r.
Proof.
  intros [Hm Hl Hp] Hpc. unfold skip, top_frame. rewrite Hl. cbn [mbind option_bind]. rewrite Hpc. cbn [mbind option_bind].
  destruct (set_pc_spec (pc + k) (r_x r) f (m_kwf _ Hm) Hl) as (s & -> & Hs & Hk); [by eapply fr_script, top_fr, Hl; apply Hm|]. cbn [mbind option_bind].
  eexists. split; [done|]. split; [|done]. split; [split| |].
  - apply Hm.
  - done.
  - eapply code_moved; [apply Hm|exact Hs|done|done|apply Hm].
  - apply Hm.
  - destruct (moved_top _ _ _ Hs) as (g & Hg & Hfr & _). change (last (s_frames s) = Some (at_pc (pc + k) f)). rewrite Hfr, last_snoc.
    rewrite last_lookup in Hl. replace (pred (length (x_frames (r_x r)))) with (length (x_frames (r_x r)) - 1)%nat in Hl by lia. congruence.
  - done.
Qed.

(** *** Raising and calling out *)

Lemma pending_walks r : mid r -> x_unwind (r_x r) <> UUNWIND_NONE -> ok_step (goto_unwind r).
Proof. intros [Hv Hk Hc Hu] Hn. apply walk_settles; [|done]. split; [done|]. split; [|done]. split; [done|]. intros E. congruence. Qed.

Lemma goto_ok f q r : in_frame f q r -> resumable q f -> ok_step (goto_unwind r).
Proof.
  intros Hi Hr. destruct (decide (x_unwind (r_x r) = UUNWIND_NONE)) as [Hu|Hu]; [|apply pending_walks; [apply Hi|done]].
  assert (E : goto_unwind r = Some (true, r)).
  { unfold goto_unwind, uexec_unwind, unwind_fuel. rewrite Nat.add_comm. cbn [unwind_loop Nat.add]. unfold unwind_step. rewrite decide_True by done. done. }
  rewrite E. by apply (stay_ok f q).
Qed.

Lemma exception_v_ok p m x v : v_ok v -> v_ok (d_v (new_exception p m x (MkWorld (V:=V) ∅ v)).2).
Proof. intros Hv. cbn. pose proof (vexception_ok p m x v Hv). by destruct (v_exception p m x v). Qed.

Lemma throw_in f q r which msg : in_frame f q r -> in_frame f q (uexec_throw which msg r) /\ x_unwind (r_x (uexec_throw which msg r)) = UUNWIND_THROW.
Proof.
  intros Hi. unfold uexec_throw. cbn [new_exception scope_env]. pose proof (vexception_ok which (which ++ lit ": " ++ msg) (r_x r) (d_v (r_w r)) (in_v_ok _ _ _ Hi)) as Hv.
  destruct (v_exception _ _ _ _) as [e v]. split; [|done]. by apply (in_same f q r).
Qed.

Lemma throw_here_in f q r which msg : in_frame f q r -> in_frame f q (uexec_throw_here which msg r) /\ x_unwind (r_x (uexec_throw_here which msg r)) = UUNWIND_THROW.
Proof.
  intros Hi. unfold uexec_throw_here. cbn [new_exception scope_env].
  pose proof (vexception_ok which (v_position (r_v r) (r_x r) ++ which ++ lit ": " ++ msg) (r_x r) (d_v (r_w r)) (in_v_ok _ _ _ Hi)) as Hv.
  destruct (v_exception _ _ _ _) as [e v]. split; [|done]. by apply (in_same f q r).
Qed.

Lemma fatal_in f q r msg : in_frame f q r -> in_frame f q (uexec_fatal msg r) /\ x_unwind (r_x (uexec_fatal msg r)) = UUNWIND_FATAL.
Proof. intros Hi. destruct (throw_in f q r UP_TYPEERROR msg Hi) as [Hi' _]. split; [|done]. apply (in_same f q _ _ Hi'); try done. apply (in_mid _ _ _ Hi'). Qed.

Lemma throw_ok f q r which msg : in_frame f q r -> ok_step (throw which msg r).
Proof. intros Hi. destruct (throw_in f q r which msg Hi) as [Hi' Hu]. apply pending_walks; [apply Hi'|by rewrite Hu]. Qed.

Lemma fatal_ok f q r msg : in_frame f q r -> ok_step (goto_unwind (uexec_fatal msg r)).
Proof. intros Hi. destruct (fatal_in f q r msg Hi) as [Hi' Hu]. apply pending_walks; [apply Hi'|by rewrite Hu]. Qed.

Lemma do_ok {A} f q r (m : act V A) : act_ok m -> in_frame f q r -> exists a r', do_act m r = Some (a, r') /\ in_frame f q r'.
Proof.
  intros Ha Hi. destruct (in_mid _ _ _ Hi) as [Hv Hk Hc Hu]. destruct (Ha (r_w r) (r_x r) Hv Hk Hc Hu) as (a & w & x & E & Hv' & Hx).
  { intros E. pose proof (in_top _ _ _ Hi) as Hl. by rewrite E in Hl. }
  unfold do_act. rewrite E. cbn [mbind option_bind]. do 2 eexists. split; [done|]. destruct Hx as [Hf Hcl Hcap Hs Hp Hke].
  apply (in_here f q r); try done. destruct Hk as [H1 H2 H3 H4]. unfold x_frames, x_cleanup in *. cbn [r_x].
  split; [done|by rewrite Hf, Hcl|by rewrite Hcl|]. intros i g h. rewrite Hf. intros Hg Hh. specialize (H4 i g h Hg Hh). lia.
Qed.

(** *** Operators *)

Definition res_ok {A} (f : UFrame) (q : UProto) (m : res A) : Prop := exists o r', m = Some (o, r') /\ in_frame f q r'.

Lemma value_ok {A} f q (a : A) r : in_frame f q r -> res_ok f q (value a r).
Proof. intros Hi. by exists (Some a), r. Qed.
Lemma raised_ok {A} f q r : in_frame f q r -> res_ok (A := A) f q (raised r).
Proof. intros Hi. by exists None, r. Qed.
Lemma raise_here_ok {A} f q which msg r : in_frame f q r -> res_ok (A := A) f q (raised (uexec_throw_here which msg r)).
Proof. intros Hi. apply raised_ok. by apply throw_here_in. Qed.
#[local] Hint Resolve value_ok raised_ok raise_here_ok : run.

(** A slot of the operand is tried; [m] is what each answer leads to. *)
Lemma slot_call_res {A} f q r name u l (m : tried -> run -> res A) : in_frame f q r -> (forall t r', in_frame f q r' -> res_ok f q (m t r')) ->
  res_ok f q ('(t, r) ← do_act (v_slot_call name u l) r; m t r).
Proof. intros Hi Hm. destruct (do_ok f q r _ (slot_call_ok name u l) Hi) as (t & r' & -> & Hi'). cbn [mbind option_bind]. by apply Hm. Qed.

Lemma arith_ok f q op b c r : in_frame f q r -> res_ok f q (arith op b c r).
Proof.
  intros Hi. assert (Hslow : res_ok f q (arith_slow op b c r)).
  { unfold arith_slow. destruct (_ && _).
    - pose proof (concat_ok (v_str (r_v r) b) (v_str (r_v r) c) (r_v r) (in_v_ok _ _ _ Hi)) as Hv. destruct (v_concat _ _ _) as [o v].
      assert (Hi' := in_set_v f q r v Hi Hv). destruct o as [s|]; [by apply value_ok|]. apply raised_ok. by apply throw_in.
    - apply slot_call_res; [done|]. intros t r' Hi'. destruct t; [by apply raise_here_ok|by apply value_ok|by apply raised_ok]. }
  unfold arith. destruct b, c; try exact Hslow; repeat (case_match; eauto with run).
Qed.

Lemma negate_ok f q v r : in_frame f q r -> res_ok f q (negate v r).
Proof.
  intros Hi. unfold negate. destruct v; eauto with run; (apply slot_call_res; [done|]); intros t r' Hi'; destruct t; eauto with run.
Qed.

Lemma compare_lt_le_ok f q op b c r : in_frame f q r -> res_ok f q (compare_lt_le op b c r).
Proof.
  intros Hi. unfold compare_lt_le, object_binop, binop_type_error. destruct (_ && _); [eauto with run|]. destruct (_ && _); [eauto with run|].
  apply slot_call_res; [done|]. intros [|v|] r1 Hi1; eauto with run. apply slot_call_res; [done|]. intros [|v|] r2 Hi2; eauto with run.
Qed.

Lemma compare_eq_ok f q b c r : in_frame f q r -> res_ok f q (compare_eq b c r).
Proof.
  intros Hi. unfold compare_eq, object_binop. destruct b; eauto with run. apply slot_call_res; [done|]. intros [|v|] r1 Hi1; eauto with run.
Qed.

(** An instruction at [pc], whose next word is one. *)
Record at_instr (f : UFrame) (q : UProto) (pc : Z) (r : run) : Prop := {
  ai_in : in_frame f q r;
  ai_pc : f_pc f = Some (pc + 1);
  ai_next : good_target q (pc + 1) }.

Lemma ai_resumable f q pc r : at_instr f q pc r -> resumable q f.
Proof. intros [_ Hpc Hg]. by exists (pc + 1). Qed.

Lemma ai_keep f q pc r r' : at_instr f q pc r -> in_frame f q r' -> at_instr f q pc r'.
Proof. intros [_ Hpc Hg] Hi. by split. Qed.

Lemma ai_next_ok f q pc r : at_instr f q pc r -> ok_step (next r).
Proof. intros Ha. apply (next_ok f q); [apply Ha|by eapply ai_resumable]. Qed.

Lemma ai_skip f q pc r : at_instr f q pc r -> good_target q (pc + 2) -> ok_step (r ← skip 1 r; next r).
Proof.
  intros Ha Hg. destruct (skip_ok f q r 1 (pc + 1) (ai_in _ _ _ _ Ha) (ai_pc _ _ _ _ Ha)) as (r' & -> & Hi & _). cbn [mbind option_bind].
  apply (next_ok _ _ _ Hi). exists (pc + 2). split; [cbn; f_equal; lia|done].
Qed.

Lemma ai_put f q pc r a v : at_instr f q pc r -> 0 <= a <= max_reg (pdata q) -> ok_step (r ← put_reg a v r; next r).
Proof. intros Hat Ha. apply (put_next f q); [apply Hat|by eapply ai_resumable|done]. Qed.

Lemma to_reg_ok f q pc r a m : at_instr f q pc r -> 0 <= a <= max_reg (pdata q) -> res_ok f q m -> ok_step (to_reg a m).
Proof.
  intros Hat Ha (o & r' & -> & Hi). unfold to_reg. cbn [mbind option_bind]. pose proof (ai_resumable _ _ _ _ Hat) as Hr.
  destruct o as [v|]; [by apply (put_next f q)|by apply (goto_ok f q)].
Qed.

Lemma skip_unless_ok f q pc r a m : at_instr f q pc r -> good_target q (pc + 2) -> res_ok f q m -> ok_step (skip_unless a m).
Proof.
  intros Hat Hg (o & r' & -> & Hi). unfold skip_unless. cbn [mbind option_bind]. pose proof (ai_keep _ _ _ _ _ Hat Hi) as Hat'.
  destruct o as [o|]; [|apply (goto_ok f q); [done|by eapply ai_resumable]]. destruct (_ =? _); [by eapply ai_next_ok|by eapply ai_skip].
Qed.

Abbreviation reg_in q a := (0 <= a <= max_reg (pdata q)).

Lemma op_loadk_ok f q pc r a bx : at_instr f q pc r -> reg_in q a -> 0 <= bx < v_count (constants (pdata q)) -> ok_step (op_loadk a bx r).
Proof.
  intros Hat Ha Hbx. unfold op_loadk, top_frame. rewrite (in_top _ _ _ (ai_in _ _ _ _ Hat)). cbn [mbind option_bind].
  change (proto_of r f) with (fproto (d_clo (r_w r)) f). rewrite (in_proto _ _ _ (ai_in _ _ _ _ Hat)). cbn [mbind option_bind].
  destruct (read_is_Some (v_items (constants (pdata q))) bx) as [k ->]; [done|]. cbn [mbind option_bind]. by apply (ai_put f q pc).
Qed.

Lemma op_move_ok f q pc r a b : at_instr f q pc r -> reg_in q a -> reg_in q b -> ok_step (op_move a b r).
Proof. intros Hat Ha Hb. unfold op_move. destruct (get_ok f q r b (ai_in _ _ _ _ Hat) Hb) as [v ->]. cbn [mbind option_bind]. by apply (ai_put f q pc). Qed.

Lemma op_loadbool_ok f q pc r a b c : at_instr f q pc r -> reg_in q a -> (c <> 0 -> good_target q (pc + 2)) -> ok_step (op_loadbool a b c r).
Proof.
  intros Hat Ha Hc. unfold op_loadbool. destruct (put_reg_ok f q r a (UV_BOOL (if b =? 0 then 0 else 1)) (ai_in _ _ _ _ Hat) Ha) as (r' & -> & Hi & _).
  cbn [mbind option_bind]. pose proof (ai_keep _ _ _ _ _ Hat Hi) as Hat'. zcase; [by eapply ai_next_ok|]. eapply ai_skip; [exact Hat'|by apply Hc].
Qed.

Lemma op_arith_ok f q pc r op a b c : at_instr f q pc r -> reg_in q a -> reg_in q b -> reg_in q c -> ok_step (op_arith op a b c r).
Proof.
  intros Hat Ha Hb Hc. unfold op_arith. pose proof (ai_in _ _ _ _ Hat) as Hi. destruct (get_ok f q r b Hi Hb) as [x ->], (get_ok f q r c Hi Hc) as [y ->].
  cbn [mbind option_bind]. apply (to_reg_ok f q pc r); [done|done|by apply arith_ok].
Qed.

Lemma op_neg_ok f q pc r a b : at_instr f q pc r -> reg_in q a -> reg_in q b -> ok_step (op_neg a b r).
Proof.
  intros Hat Ha Hb. unfold op_neg. pose proof (ai_in _ _ _ _ Hat) as Hi. destruct (get_ok f q r b Hi Hb) as [x ->].
  cbn [mbind option_bind]. apply (to_reg_ok f q pc r); [done|done|by apply negate_ok].
Qed.

Lemma op_eq_ok f q pc r a b c : at_instr f q pc r -> good_target q (pc + 2) -> reg_in q b -> reg_in q c -> ok_step (op_eq a b c r).
Proof.
  intros Hat Hg Hb Hc. unfold op_eq. pose proof (ai_in _ _ _ _ Hat) as Hi. destruct (get_ok f q r b Hi Hb) as [x ->], (get_ok f q r c Hi Hc) as [y ->].
  cbn [mbind option_bind]. apply (skip_unless_ok f q pc r); [done|done|by apply compare_eq_ok].
Qed.

Lemma op_lt_le_ok f q pc r op a b c : at_instr f q pc r -> good_target q (pc + 2) -> reg_in q b -> reg_in q c -> ok_step (op_lt_le op a b c r).
Proof.
  intros Hat Hg Hb Hc. unfold op_lt_le. pose proof (ai_in _ _ _ _ Hat) as Hi. destruct (get_ok f q r b Hi Hb) as [x ->], (get_ok f q r c Hi Hc) as [y ->].
  cbn [mbind option_bind]. apply (skip_unless_ok f q pc r); [done|done|by apply compare_lt_le_ok].
Qed.

Lemma op_test_ok f q pc r a c : at_instr f q pc r -> good_target q (pc + 2) -> reg_in q a -> ok_step (op_test a c r).
Proof.
  intros Hat Hg Ha. unfold op_test. destruct (get_ok f q r a (ai_in _ _ _ _ Hat) Ha) as [x ->]. cbn [mbind option_bind].
  destruct (_ =? _); [by eapply ai_skip|by eapply ai_next_ok].
Qed.

Lemma op_testset_ok f q pc r a b c : at_instr f q pc r -> good_target q (pc + 2) -> reg_in q a -> reg_in q b -> ok_step (op_testset a b c r).
Proof.
  intros Hat Hg Ha Hb. unfold op_testset. destruct (get_ok f q r b (ai_in _ _ _ _ Hat) Hb) as [x ->]. cbn [mbind option_bind].
  destruct (_ =? _); [by eapply ai_skip|by apply (ai_put f q pc)].
Qed.

Lemma op_load_recv_ok f q pc r a : at_instr f q pc r -> reg_in q a -> ok_step (op_load_recv a r).
Proof. intros Hat Ha. unfold op_load_recv, top_frame. rewrite (in_top _ _ _ (ai_in _ _ _ _ Hat)). cbn [mbind option_bind]. by apply (ai_put f q pc). Qed.

Lemma op_load_realm_global_ok f q pc r a : at_instr f q pc r -> reg_in q a -> ok_step (op_load_realm_global a r).
Proof.
  intros Hat Ha. pose proof (ai_in _ _ _ _ Hat) as Hi. unfold op_load_realm_global.
  assert (Hput : forall g, ok_step (r0 ← put_reg a (UV_OBJ g) (set_v (v_observe g (r_v r)) r); next r0)).
  { intros g. apply (put_next f q); [|by eapply ai_resumable|done]. apply in_set_v; [done|]. by apply observe_ok, (in_v_ok f q r). }
  destruct (v_realm_globals (r_v r)); [apply Hput|]. destruct (v_booting (r_v r)); [apply Hput|]. by eapply throw_ok.
Qed.

(** *** Returning *)

Lemma op_ret_ok f q r a : in_frame f q r -> reg_in q a -> ok_step (op_ret a r).
Proof.
  intros Hi Ha. unfold op_ret. rewrite (in_top _ _ _ Hi). cbn [mbind option_bind]. pose proof (window f q r a Hi Ha) as Hw.
  destruct (read_is_Some (s_stack (x_stk (r_x r))) (f_base f + a)) as [rv Erv]; [done|]. unfold reg_of. rewrite Erv. cbn [mbind option_bind].
  pose proof (in_mid _ _ _ Hi) as Hm. destruct (own_entry _ _) as [e|] eqn:Hown.
  { apply pending_walks; [|done]. assert (Hi' : in_frame f q (on_x (x_pending UUNWIND_RETURN rv) r)); [|apply Hi'].
    apply (in_same f q r); try done. by apply (in_v_ok f q r). }
  destruct (return_ok rv (r_x r) f (m_kwf _ Hm) (in_top _ _ _ Hi) Hown) as (s & _ & Hk & _ & Hfr & Hcl & _ & Hcase).
  assert (Hgen : forall rc y, uexec_return rv (r_x r) = Some (rc, y) -> kwf (x_stk y) -> s_frames (x_stk y) = s_frames s -> s_cleanup (x_stk y) = s_cleanup s ->
    x_unwind y = x_unwind (r_x r) -> (rc = 0 -> s_frames s <> []) -> ok_step ('(rc, x) ← uexec_return rv (r_x r); Some (rc =? 0, set_x x r))).
  { intros rc y E Hky Hy1 Hy2 Hy3 Hne. rewrite E. cbn [mbind option_bind]. do 2 eexists. split; [done|].
    destruct (code_pop (d_clo (r_w r)) (r_x r) y f (m_code _ Hm)) as [H1 H2].
    - unfold x_frames at 2. rewrite Hy1. exact Hfr.
    - intros c Hin. unfold x_cleanup in Hin. rewrite Hy2, Hcl in Hin. exact Hin.
    - rewrite Hy3. apply Hm.
    - split; [split; [split|]|]; try done; [apply Hm|cbn; rewrite Hy3; apply Hm|]. intros Hz. zbool. unfold x_frames. cbn. rewrite Hy1. auto. }
  destruct Hcase as [(_ & E)|[(_ & Hnil & E)|(_ & g & l & Hg & Hst & E & Hk2)]]; eapply Hgen; try exact E; try done.
  intros _ Hnil. by rewrite Hnil in Hg.
Qed.

(** *** Upvalues *)

Lemma kwf_upvals s s' : kwf s -> swf s' -> upvals_only s s' -> kwf s'.
Proof. unfold upvals_only. intros [_ H1 H2 H3] Hs E. split; [done|..]; rewrite E; done. Qed.

Lemma deref_some s u : swf s -> is_Some (s_upvals s !! u) -> is_Some (deref s u).
Proof.
  intros Hs [y Hy]. destruct (decide (u ∈ s_open s)) as [Hu|Hu].
  - destruct (open_deref s u (w_open _ Hs u Hu)) as (? & v & _ & -> & _). by eexists.
  - unfold deref. rewrite Hy. cbn. rewrite (w_closed _ Hs u y Hy Hu). by eexists.
Qed.

Lemma upval_get_ok f q r u : in_frame f q r -> exists v, upval_get u r = Some v.
Proof.
  intros Hi. unfold upval_get. destruct (s_upvals (x_stk (r_x r)) !! u) eqn:E; [|by eexists].
  apply deref_some; [apply (in_mid _ _ _ Hi)|by eexists].
Qed.

Lemma closed_kwf s u v y : kwf s -> s_upvals s !! u = Some y -> u_ptr y = PClosed -> kwf (set_open (s_open s) (<[u := MkUpval PClosed v (u_stack_index y)]> (s_upvals s)) s).
Proof.
  intros Hk Hy Hp. apply (kwf_upvals s); [done| |done]. pose proof (k_swf _ Hk) as Hs.
  assert (Hno : u ∉ s_open s) by (intros Hu; destruct (w_open _ Hs u Hu) as (y' & Hy' & Hp' & _); congruence).
  split; cbn [set_open s_open s_upvals s_frames s_frames_cap s_nboundary s_cleanup s_cleanup_cap]; try apply Hs.
  - intros w Hw. destruct (w_open _ Hs w Hw) as (z & Hz & Hr). exists z. cbn. rewrite lookup_insert_ne by (intros ->; done). by split.
  - apply (descending_ext (s_upvals s)); [|apply Hs]. intros w Hw. unfold u_index. rewrite lookup_insert_ne; [done|]. intros ->. done.
  - intros w z. destruct (decide (w = u)) as [-> |Hne]; [rewrite lookup_insert_eq; by intros [= <-]|]. rewrite lookup_insert_ne by done. apply (w_closed _ Hs).
Qed.

Lemma upval_set_ok f q r u v : in_frame f q r -> exists r', upval_set u v r = Some r' /\ in_frame f q r'.
Proof.
  intros Hi. pose proof (m_kwf _ (in_mid _ _ _ Hi)) as Hk. pose proof (k_swf _ Hk) as Hs. unfold upval_set.
  destruct (s_upvals (x_stk (r_x r)) !! u) as [y|] eqn:Hy.
  2:{ eexists. split; [done|]. apply in_set_v; [done|]. by apply set_foreign_ok, (in_v_ok f q r). }
  destruct (decide (u ∈ s_open (x_stk (r_x r)))) as [Hu|Hu].
  - destruct (w_open _ Hs u Hu) as (y' & Hy' & Hp & Hlt). rewrite Hy in Hy'. injection Hy' as <-. rewrite Hp. cbn [mbind option_bind]. rewrite decide_True by done.
    destruct (store_is_Some (s_stack (x_stk (r_x r))) (u_stack_index y) v) as (l & -> & Hl); [done|]. cbn [mbind option_bind].
    eexists. split; [done|]. apply in_stack; try done. apply kwf_regs; [done|]. unfold stack_cap, zlen. by rewrite Hl.
  - rewrite (w_closed _ Hs u y Hy Hu). eexists. split; [done|]. apply in_stack; try done. apply closed_kwf; [done|done|]. by apply (w_closed _ Hs u).
Qed.

Lemma upval_at_ok f q r b : in_frame f q r -> exists o, upval_at b r = Some o.
Proof.
  intros Hi. unfold upval_at, top_frame. rewrite (in_top _ _ _ Hi). cbn [mbind option_bind]. pose proof (in_proto _ _ _ Hi) as Hp. unfold fproto in Hp. unfold clo_of.
  destruct (d_clo (r_w r) !! cl_cell (f_closure f)) as [cl|]; [|done]. cbn [mbind option_bind]. by eexists.
Qed.

Lemma op_getupval_ok f q pc r a b : at_instr f q pc r -> reg_in q a -> ok_step (op_getupval a b r).
Proof.
  intros Hat Ha. pose proof (ai_in _ _ _ _ Hat) as Hi. unfold op_getupval. destruct (upval_at_ok f q r b Hi) as [[u|] ->]; cbn [mbind option_bind]; [|by eapply throw_ok].
  destruct (upval_get_ok f q r u Hi) as [v ->]. cbn [mbind option_bind]. by apply (ai_put f q pc).
Qed.

Lemma op_setupval_ok f q pc r a b : at_instr f q pc r -> reg_in q a -> ok_step (op_setupval a b r).
Proof.
  intros Hat Ha. pose proof (ai_in _ _ _ _ Hat) as Hi. unfold op_setupval. destruct (upval_at_ok f q r b Hi) as [[u|] ->]; cbn [mbind option_bind]; [|by eapply throw_ok].
  destruct (get_ok f q r a Hi Ha) as [v ->]. cbn [mbind option_bind]. destruct (upval_set_ok f q r u v Hi) as (r' & -> & Hi'). cbn [mbind option_bind].
  eapply ai_next_ok, ai_keep; done.
Qed.

Lemma op_close_ok f q pc r a : at_instr f q pc r -> ok_step (op_close a r).
Proof.
  intros Hat. pose proof (ai_in _ _ _ _ Hat) as Hi. unfold op_close, top_frame. rewrite (in_top _ _ _ Hi). cbn [mbind option_bind].
  pose proof (m_kwf _ (in_mid _ _ _ Hi)) as Hk. destruct (close_upvals_spec (f_base f + a) _ (k_swf _ Hk)) as (s & -> & Hs & HC). cbn [mbind option_bind].
  pose proof (cl_only _ _ _ _ HC) as Ho. eapply ai_next_ok, ai_keep; [exact Hat|].
  apply in_stack; [done|by eapply kwf_upvals|unfold upvals_only in Ho; by rewrite Ho..].
Qed.

(** *** Closures *)

Lemma in_clo_insert f q r c cl : in_frame f q r -> (forall p, c_proto cl = Some p -> verified p) ->
  (forall cl0, d_clo (r_w r) !! c = Some cl0 -> c_proto cl = c_proto cl0) ->
  in_frame f q (MkRun (MkWorld (<[c := cl]> (d_clo (r_w r))) (r_v r)) (r_x r) (r_report r) (r_code r)).
Proof.
  intros Hi Hv Hsame. destruct (in_mid _ _ _ Hi) as [[Hc Hw] Hk Hco Hu]. apply (in_here f q r); try done.
  - split; [|done]. intros c' cl' p. cbn. destruct (decide (c' = c)) as [-> |Hne]; [rewrite lookup_insert_eq; intros [= <-]; by apply Hv|].
    rewrite lookup_insert_ne by done. by apply Hc.
  - intros g Hg. pose proof (co_frames _ _ Hco) as Hall. rewrite Forall_forall in Hall. destruct (Hall g Hg) as (p & Hp & _).
    unfold fproto in *. cbn. destruct (decide (cl_cell (f_closure g) = c)) as [E|Hne]; [|by rewrite lookup_insert_ne]. rewrite E in *.
    rewrite lookup_insert_eq. destruct (d_clo (r_w r) !! c) as [cl0|]; [|done]. cbn. by apply Hsame.
Qed.

Lemma set_upval_ok f q r c k u cl : in_frame f q r -> clo_of r c = Some cl -> 0 <= k < zlen (c_upvals cl) ->
  exists r', set_upval c k u r = Some r' /\ in_frame f q r' /\ exists cl', clo_of r' c = Some cl' /\ zlen (c_upvals cl') = zlen (c_upvals cl).
Proof.
  intros Hi Hc Hk. unfold set_upval. rewrite Hc. cbn [mbind option_bind]. destruct (store_is_Some (c_upvals cl) k u) as (l & -> & Hl); [done|].
  cbn [mbind option_bind]. eexists. split; [done|]. split.
  - apply in_clo_insert; [done| |].
    + intros p Hp. destruct (in_mid _ _ _ Hi) as [[Hv _] _ _ _]. by apply (Hv c cl p).
    + intros cl0 E. unfold clo_of in Hc. by assert (cl0 = cl) as -> by congruence.
  - eexists. unfold clo_of. cbn. rewrite lookup_insert_eq. split; [done|]. unfold zlen. cbn. by rewrite Hl.
Qed.

Lemma capture_one_ok f q pc r c k cl : in_frame f q r -> f_pc f = Some pc -> upval_safe q pc -> clo_of r c = Some cl -> 0 <= k < zlen (c_upvals cl) ->
  exists o r', capture_one c k r = Some (o, r') /\ in_frame (at_pc (pc + 1) f) q r' /\
    exists cl', clo_of r' c = Some cl' /\ zlen (c_upvals cl') = zlen (c_upvals cl).
Proof.
  intros Hi Hpc (pv & Hpv & Hsafe) Hc Hk. unfold capture_one, top_frame. rewrite (in_top _ _ _ Hi). cbn [mbind option_bind]. rewrite Hpc. cbn [mbind option_bind].
  change (proto_of r f) with (fproto (d_clo (r_w r)) f). rewrite (in_proto _ _ _ Hi). cbn [mbind option_bind]. rewrite Hpv. cbn [mbind option_bind].
  destruct (skip_ok f q r 1 pc Hi Hpc) as (r1 & -> & Hi1 & Hw1). cbn [mbind option_bind]. assert (Hc1 : clo_of r1 c = Some cl) by (unfold clo_of; by rewrite Hw1).
  zcase.
  - destruct Hsafe as [[_ Hreg]|[? _]]; [|lia]. pose proof (uinstr_c_byte pv) as [Hc0 _].
    destruct (new_upval_ok (r_x r1) (r_v r1) (in_v_ok _ _ _ Hi1)) as [Hv Hfresh]. destruct (v_new_upval (r_x r1) (r_v r1)) as [cell v]. cbn in Hv, Hfresh.
    pose proof (m_kwf _ (in_mid _ _ _ Hi1)) as Hkw. pose proof (window _ _ r1 (uinstr_c pv) Hi1 (conj Hc0 Hreg)) as Hwin.
    destruct (find_or_open_spec cell (f_base f + uinstr_c pv) (x_stk (r_x r1)) (k_swf _ Hkw) Hwin Hfresh) as (u & s & -> & Hs & _ & Ho & _).
    cbn [mbind option_bind]. assert (Hi2 : in_frame (at_pc (pc + 1) f) q (on_x (x_set_stk s) (set_v v r1))).
    { apply in_stack; [by apply in_set_v|by eapply kwf_upvals|unfold upvals_only in Ho; by rewrite Ho..]. }
    destruct u as [u|]; [|by exists CapOom; eexists; split; [done|]; split; [done|]; exists cl].
    destruct (set_upval_ok _ _ _ c k (Some u) cl Hi2) as (r' & -> & Hi' & Hcl'); [done|done|]. cbn [mbind option_bind]. by exists CapDone, r'.
  - destruct (clo_of r1 (cl_cell (f_closure f))) as [par|] eqn:Ep.
    2:{ pose proof (in_proto _ _ _ Hi1) as Hp. unfold fproto in Hp. cbn in Hp. unfold clo_of in Ep. by rewrite Ep in Hp. }
    cbn [mbind option_bind]. destruct (read (c_upvals par) (uinstr_c pv)) as [u|]; [|by exists CapRange, r1; split; [done|]; split; [done|]; exists cl].
    destruct (set_upval_ok _ _ r1 c k u cl Hi1) as (r' & -> & Hi' & Hcl'); [done|done|]. cbn [mbind option_bind]. by exists CapDone, r'.
Qed.

Lemma at_pc_twice a b f : at_pc a (at_pc b f) = at_pc a f.
Proof. done. Qed.

Lemma captures_ok n : forall f q pc r c k cl, in_frame f q r -> f_pc f = Some pc -> (forall j, 0 <= j < Z.of_nat n -> upval_safe q (pc + j)) ->
  clo_of r c = Some cl -> 0 <= k -> k + Z.of_nat n <= zlen (c_upvals cl) ->
  exists o r' f', captures n c k r = Some (o, r') /\ in_frame f' q r' /\ (o = CapDone -> f_pc f' = Some (pc + Z.of_nat n)).
Proof.
  induction n as [|n IH]; intros f q pc r c k cl Hi Hpc Hs Hc Hk Hn; cbn [captures].
  { exists CapDone, r, f. split; [done|]. split; [done|]. intros _. rewrite Hpc. f_equal. lia. }
  destruct (capture_one_ok f q pc r c k cl Hi Hpc) as (o & r1 & -> & Hi1 & cl1 & Hc1 & Hl1); [|done|lia|].
  { specialize (Hs 0 ltac:(lia)). by rewrite Z.add_0_r in Hs. }
  cbn [mbind option_bind]. destruct o; [|by exists CapOom, r1, (at_pc (pc + 1) f)|by exists CapRange, r1, (at_pc (pc + 1) f)].
  destruct (IH (at_pc (pc + 1) f) q (pc + 1) r1 c (k + 1) cl1 Hi1 eq_refl) as (o & r' & f' & -> & Hi' & Hd); [|done|lia|lia|].
  { intros j Hj. replace (pc + 1 + j) with (pc + (j + 1)) by lia. apply Hs. lia. }
  exists o, r', f'. split; [done|]. split; [done|]. intros ->. rewrite Hd by done. f_equal. lia.
Qed.

Lemma read_in {A} (l : list A) i x : read l i = Some x -> i < zlen l.
Proof. intros Hr%read_Some_lt. unfold zlen. lia. Qed.

Lemma op_closure_ok f q pc r a bx child : in_frame f q r -> f_pc f = Some (pc + 1) -> reg_in q a -> read (nested q) bx = Some (Some child) ->
  (forall j, 1 <= j <= nupvals (pdata child) -> upval_safe q (pc + j)) -> good_target q (pc + 1 + nupvals (pdata child)) -> ok_step (op_closure a bx r).
Proof.
  intros Hi Hpc Ha Hchild Hups Hg. unfold op_closure, top_frame. rewrite (in_top _ _ _ Hi). cbn [mbind option_bind].
  change (proto_of r f) with (fproto (d_clo (r_w r)) f). rewrite (in_proto _ _ _ Hi). cbn [mbind option_bind]. destruct (in_code _ _ _ Hi) as [_ Hv].
  pose proof (read_in _ _ _ Hchild). zcase; [lia|]. rewrite Hchild. cbn [mbind option_bind].
  assert (Hvc : verified child) by (eapply tree_all_child; [exact Hv|by eapply read_elem]).
  assert (Hn : 0 <= nupvals (pdata child)) by (destruct (Hv _ (sub_refl _)) as (Hok & _); by eapply Hok).
  destruct (new_closure_ok (r_w r) (in_v_ok _ _ _ Hi)) as [Hvo Hfresh]. destruct (v_new_closure (r_w r)) as [[c|] v]; cbn in Hvo, Hfresh.
  2:{ eapply throw_ok. by apply in_set_v. }
  specialize (Hfresh c eq_refl). set (cl := MkClo (Some child) _ 0 0 None).
  assert (Hi1 : in_frame f q (MkRun (MkWorld (<[c := cl]> (d_clo (r_w r))) v) (r_x r) (r_report r) (r_code r))).
  { apply (in_clo_insert f q (set_v v r)); [by apply in_set_v|by intros p [= <-]|]. intros cl0 E. cbn in E. congruence. }
  destruct (put_reg_ok f q _ a (UV_CELL c) Hi1 Ha) as (r1 & -> & Hi2 & Hw2). cbn [mbind option_bind].
  destruct (captures_ok (Z.to_nat (nupvals (pdata child))) f q (pc + 1) r1 c 0 cl Hi2 Hpc) as (o & r' & f' & -> & Hi' & Hd).
  - intros j Hj. replace (pc + 1 + j) with (pc + (j + 1)) by lia. apply Hups. lia.
  - unfold clo_of. rewrite Hw2. cbn. by rewrite lookup_insert_eq.
  - done.
  - unfold zlen. cbn. rewrite length_replicate. lia.
  - cbn [mbind option_bind]. destruct o; [|by eapply throw_ok..]. apply (next_ok f' q); [done|]. eexists. split; [by apply Hd|].
    by rewrite Z2Nat.id by done.
Qed.

(** *** Calls *)

Lemma push_frame_cleanup ok block cl recv base ret_reg nkeep s rc s' :
  ustrand_push_frame_args ok block cl recv base ret_reg nkeep s = Some (rc, s') -> s_cleanup s' = s_cleanup s.
Proof.
  unfold ustrand_push_frame_args. intros E.
  assert (Hg : forall p, (if zlen (s_frames s) =? s_frames_cap s then ustrand_grow_frames ok s else (0, s)) = p -> s_cleanup p.2 = s_cleanup s).
  { intros p <-. unfold ustrand_grow_frames. repeat case_match; done. }
  destruct (if zlen (s_frames s) =? s_frames_cap s then _ else _) as [grc s1]. specialize (Hg _ eq_refl). cbn in Hg. rewrite <- Hg.
  destruct (negb (grc =? 0)); [by injection E as _ <-|]. unfold ustrand_ensure_stack in E. destruct (_ <=? stack_cap s1).
  - cbn [mbind option_bind] in E. destruct (negb _); [by injection E as _ <-|]. destruct (clear_regs _ _ _); [|done]. cbn [mbind option_bind] in E.
    destruct (_ <? _); [|done]. by injection E as _ <-.
  - destruct (double_to _ _ _); [|done]. cbn [mbind option_bind] in E. destruct block as [b|]; [|by injection E as _ <-].
    destruct (repoint _ _ _); [|done]. cbn [mbind option_bind] in E. destruct (negb _); [by injection E as _ <-|]. destruct (clear_regs _ _ _); [|done].
    cbn [mbind option_bind] in E. destruct (_ <? _); [|done]. by injection E as _ <-.
Qed.

Lemma pushed_cap cl recv base ret_reg nkeep s s' : pushed cl recv base ret_reg nkeep s s' -> stack_cap s <= stack_cap s'.
Proof.
  intros [_ Hw Hr _]. destruct (decide (stack_cap s = 0)); [unfold stack_cap in *; pose proof (zlen_nonneg (s_stack s')); lia|].
  destruct (read_is_Some (s_stack s) (stack_cap s - 1)) as [v Hv]; [unfold stack_cap, zlen in *; lia|].
  assert (Hs : is_Some (read (s_stack s') (stack_cap s - 1))).
  { destruct (decide (base + nkeep <= stack_cap s - 1 <= base + default 0 (cl_max_reg cl))); [rewrite Hw by done|rewrite (Hr _ v) by done]; by eexists. }
  destruct Hs as [u Hu%read_Some_lt]. unfold stack_cap, zlen in *. lia.
Qed.

Lemma pushed_kwf cl recv base ret_reg nkeep s s' f : kwf s -> swf s' -> pushed cl recv base ret_reg nkeep s s' -> s_cleanup s' = s_cleanup s ->
  last (s_frames s) = Some f -> 0 <= f_base f + ret_reg < stack_cap s -> kwf s'.
Proof.
  intros [_ H1 H2 H3] Hs Hp Hc Hl Hr. pose proof (pushed_cap _ _ _ _ _ _ _ Hp) as Hcap. pose proof (pu_frames _ _ _ _ _ _ _ Hp) as Hf. split; [done| | |].
  - rewrite Hc, Hf. eapply Forall_impl; [exact H1|]. intros c. apply entry_moved. intros i g Hg. exists g. split; [by apply read_app_some|done].
  - by rewrite Hc.
  - rewrite Hf. intros i g h Hg Hh. apply lookup_app_Some in Hh as [Hh|[Hlt Hh]].
    + apply lookup_lt_Some in Hh as Hlt. rewrite lookup_app_l in Hg by lia. specialize (H3 i g h Hg Hh). lia.
    + destruct (S i - length (s_frames s))%nat eqn:E; [|done]. injection Hh as <-. cbn [f_ret_reg]. rewrite lookup_app_l in Hg by lia.
      rewrite last_lookup in Hl. replace (pred (length (s_frames s))) with i in Hl by lia. assert (g = f) as -> by congruence. lia.
Qed.

Lemma pushed_code m x f q cl p recv base ret_reg nkeep s : code_ok m x -> kwf (x_stk x) -> last (x_frames x) = Some f -> fproto m f = Some q -> resumable q f ->
  pushed cl recv base ret_reg nkeep (x_stk x) s -> s_cleanup s = x_cleanup x -> base <= f_base f + 257 ->
  fproto m (MkFrame cl (Some 0) base ret_reg false recv) = Some p -> cl_max_reg cl = Some (max_reg (pdata p)) -> verified p ->
  x_unwind x <> UUNWIND_JUMP -> code_ok m (x_set_stk s x) /\ top_good m (x_set_stk s x).
Proof.
  intros Hc Hk Hl Hq (pc & Hpc & Hg) Hp Hcl Hb Hfp Hmr Hv Hu. destruct Hc as [H1 H2 H3 H4 _].
  pose proof (pu_frames _ _ _ _ _ _ _ Hp) as Hf. rewrite Hmr in Hf. set (g := MkFrame cl (Some 0) base ret_reg false recv) in *. fold (x_frames x) in Hf.
  assert (Hg0 : good_at m g 0).
  { exists p. split; [done|]. destruct (Hv p (sub_refl _)) as (Hok & Hw & _). destruct (pass1_done p Hw) as [Hpos _].
    exists O. split; [done|]. by split. }
  assert (Hlen : forall i g', x_frames x !! i = Some g' -> x_frames x !! S i = None -> g' = f).
  { intros i g' Hi Hn. apply lookup_ge_None in Hn. apply lookup_lt_Some in Hi as Hlt. rewrite last_lookup in Hl.
    replace (pred (length (x_frames x))) with i in Hl by lia. congruence. }
  assert (Hcases : forall i h, (x_frames x ++ [g]) !! i = Some h -> x_frames x !! i = Some h \/ h = g /\ i = length (x_frames x)).
  { intros i h [Hh|[Hlt Hh]]%lookup_app_Some; [by left|right]. destruct (i - length (x_frames x))%nat eqn:E; [|done]. injection Hh as <-. split; [done|lia]. }
  split.
  - split; change (x_frames (x_set_stk s x)) with (s_frames s); change (x_cleanup (x_set_stk s x)) with (s_cleanup s); rewrite ?Hf, ?Hcl; try done.
    + apply Forall_app. split; [done|]. rewrite Forall_singleton. exists p. by split_and!.
    + intros i g1 g2 Hi Hs. apply Hcases in Hi as [Hi|[_ ->]].
      2:{ apply lookup_lt_Some in Hs. rewrite length_app in Hs. cbn in Hs. lia. }
      apply Hcases in Hs as [Hs|[-> Hs]]; [by eapply H2|]. rewrite (Hlen i g1 Hi) by (rewrite Hs; apply lookup_ge_None; lia). exists pc. split; [done|]. by exists q.
    + intros i g1 [Hi|[-> ->]]%Hcases; [by apply H3|]. cbn. destruct (length (x_frames x)) as [|n] eqn:E; [apply nil_length_inv in E; by rewrite E in Hl|].
      specialize (H3 n f). rewrite last_lookup, E in Hl. specialize (H3 Hl). lia.
    + intros c h Hin Hr. apply (H4 c h Hin). pose proof (k_entries _ Hk) as He. rewrite Forall_forall in He. destruct (He c Hin) as [(h' & Hh' & _) _ _].
      fold (x_frames x) in Hh'. pose proof (read_app_some _ g _ _ Hh') as E. congruence.
  - intros h Hh. change (last (s_frames s) = Some h) in Hh. rewrite Hf, last_snoc in Hh. injection Hh as <-. by exists 0.
Qed.

Lemma read_args_ok n : forall i l, 0 <= i -> i + Z.of_nat n <= zlen l -> exists vs, read_args n i l = Some vs.
Proof.
  induction n as [|n IH]; intros i l Hi Hl; cbn [read_args]; [by eexists|].
  destruct (read_is_Some l i) as [v ->]; [unfold zlen in Hl; lia|]. cbn [mbind option_bind]. destruct (IH (i + 1) l) as [vs ->]; [lia..|]. by eexists.
Qed.

Lemma store_nargs_ok flag np mr base n s : swf s -> 0 <= base -> 0 <= np -> base + mr + 1 <= stack_cap s -> 
  exists s', ustrand_store_nargs flag np mr base n s = Some s' /\ (s' = s \/ exists l, s' = set_regs l s /\ zlen l = stack_cap s).
Proof.
  intros Hs Hb Hn Hm. unfold ustrand_store_nargs. destruct (_ && _) eqn:E; [|by exists s; split; [done|left]]. zbool.
  pose proof (regs_cap_bound _ (w_regs _ Hs)). rewrite u32_small by lia.
  destruct (store_is_Some (s_stack s) (base + np) (UV_INT n)) as (l & -> & Hl); [unfold stack_cap, zlen in *; lia|].
  cbn [mbind option_bind]. eexists. split; [done|]. right. exists l. split; [done|]. unfold stack_cap, zlen. by rewrite Hl.
Qed.

Lemma base_bound f q r : in_frame f q r -> 0 <= f_base f <= 257 * 32767.
Proof.
  intros [Hm Hl Hp]. pose proof (frames_bound _ (m_kwf _ Hm)) as Hb. split.
  - pose proof (w_windows _ (k_swf _ (m_kwf _ Hm))) as Hw. rewrite Forall_forall in Hw. by destruct (Hw f) as [? _]; [apply last_Some_elem_of|].
  - rewrite last_lookup in Hl. pose proof (co_base _ _ (m_code _ Hm) _ _ Hl) as Hle. apply lookup_lt_Some in Hl. unfold zlen in Hb. lia.
Qed.

Lemma verified_bytes p : verified p -> is_byte (max_reg (pdata p)) /\ is_byte (nparams (pdata p)).
Proof. intros Hv. destruct (Hv p (sub_refl _)) as (_ & _ & _ & Hd). split; apply Hd. Qed.

(** What pushing the callee's frame leaves. *)
Lemma push_call_ok f q r cell cl p recv base a nkeep : in_frame f q r -> resumable q f -> reg_in q a -> clo_of r cell = Some cl -> c_proto cl = Some p ->
  0 <= base <= f_base f + 257 -> 0 <= nkeep < 256 ->
  exists rc r', push_call_frame (Strands.MkClosure cell (Some (max_reg (pdata p)))) recv base a nkeep r = Some (rc, r') /\
    (rc = 0 /\ in_frame (MkFrame (Strands.MkClosure cell (Some (max_reg (pdata p)))) (Some 0) base a false recv) p r' /\
     settled r' /\ base + max_reg (pdata p) + 1 <= stack_cap (x_stk (r_x r')) \/ rc <> 0 /\ in_frame f q r').
Proof.
  intros Hi Hres Ha Hcl Hp Hbase Hkeep. destruct (in_mid _ _ _ Hi) as [[Hclos Hv] Hk Hc Hu]. assert (Hvp : verified p) by (by apply (Hclos cell cl)).
  destruct (verified_bytes p Hvp) as [Hmr _]. unfold is_byte in Hmr. pose proof (base_bound _ _ _ Hi) as Hbb. pose proof (window _ _ _ _ Hi Ha) as Hwin.
  unfold push_call_frame. pose proof (vgrant_ok _ Hv) as Hv1. destruct (v_grant (r_v r)) as [ok v1] eqn:E1. change (d_v (r_w r)) with (r_v r) in Hv1. rewrite E1 in Hv1.
  pose proof (block_ok _ Hv1) as Hv2. cbn [snd] in Hv2. destruct (v_block v1) as [block v2]. cbn [snd] in Hv2.
  set (ucl := Strands.MkClosure cell (Some (max_reg (pdata p)))).
  destruct (push_frame_spec ok block ucl recv base a nkeep (x_stk (r_x r)) (k_swf _ Hk)) as (rc & s & E & Hs & Hcase); [lia|lia|cbn; lia|cbn; lia|].
  rewrite E. cbn [mbind option_bind]. do 2 eexists. split; [done|]. pose proof (push_frame_cleanup _ _ _ _ _ _ _ _ _ _ E) as Hclean.
  assert (Hsame : kwf s -> s_frames s = x_frames (r_x r) -> in_frame f q (on_x (x_set_stk s) (set_v v2 r))) by (intros Hks Hf; apply in_stack; try done; by apply in_set_v).
  destruct Hcase as [(-> & Hpu)|[(-> & -> & _)|(-> & _ & Hf & Hst & _)]].
  - left. split; [done|]. assert (Hks : kwf s) by (eapply pushed_kwf; [exact Hk|done|exact Hpu|done|apply (in_top _ _ _ Hi)|done]).
    assert (Hfp : fproto (d_clo (r_w r)) (MkFrame ucl (Some 0) base a false recv) = Some p) by (unfold fproto, clo_of in *; cbn; by rewrite Hcl).
    destruct (pushed_code (d_clo (r_w r)) (r_x r) f q ucl p recv base a nkeep s) as [Hc' Ht']; try done; [apply (in_top _ _ _ Hi)|apply (in_proto _ _ _ Hi)|lia|].
    assert (Hm : mid (on_x (x_set_stk s) (set_v v2 r))) by (by split).
    assert (Hlast : last (s_frames s) = Some (MkFrame ucl (Some 0) base a false recv)) by (rewrite (pu_frames _ _ _ _ _ _ _ Hpu), last_snoc; done).
    split; [by split|]. split; [by split|]. pose proof (w_windows _ Hs) as Hw. rewrite Forall_forall in Hw.
    destruct (Hw (MkFrame ucl (Some 0) base a false recv)) as [_ Hle]; [by apply last_Some_elem_of|]. exact Hle.
  - right. split; [done|]. by apply Hsame.
  - right. split; [done|]. apply Hsame; [|exact Hf]. destruct Hk as [_ H1 H2 H3]. split; rewrite ?Hf, ?Hclean; try done. unfold stack_cap. by rewrite Hst.
Qed.

(** A call either goes on, in this frame or the callee's, or has raised. *)
Definition call_res (f : UFrame) (q : UProto) (m : option (bool * run)) : Prop :=
  exists ok r', m = Some (ok, r') /\ (in_frame f q r' \/ ok = true /\ settled r' /\ x_frames (r_x r') <> []).

Lemma call_here f q ok r : in_frame f q r -> call_res f q (Some (ok, r)).
Proof. intros Hi. exists ok, r. split; [done|by left]. Qed.

Lemma call_throws f q r which msg : in_frame f q r -> call_res f q (Some (false, uexec_throw which msg r)).
Proof. intros Hi. apply call_here. by apply throw_in. Qed.

Lemma do_call_ok f q pc r a b c : at_instr f q pc r -> reg_in q a -> 0 <= b -> a + b <= max_reg (pdata q) + 1 -> call_res f q (do_call a b c r).
Proof.
  intros Hat Ha Hb Hab. pose proof (ai_in _ _ _ _ Hat) as Hi. destruct (in_code _ _ _ Hi) as [_ Hv]. destruct (verified_bytes _ Hv) as [Hmr _]. unfold is_byte in Hmr.
  unfold do_call. set (meth := negb (Z.land c 128 =? 0)). set (nargs := if meth then b - 2 else b - 1). set (off := if meth then 2 else 1).
  assert (Hoff : nargs = b - off /\ 1 <= off <= 2 /\ (meth = true -> off = 2)) by (subst nargs off; destruct meth; lia). destruct Hoff as (Hn & Hoff & Hmeth).
  destruct (nargs <? 0) eqn:E0; zbool; [by apply call_throws|]. unfold top_frame. rewrite (in_top _ _ _ Hi). cbn [mbind option_bind].
  destruct (get_ok f q r a Hi Ha) as [cv ->]. cbn [mbind option_bind]. destruct (as_closure r cv) as [cell|] eqn:Ecl; [|by apply call_throws].
  assert (Hclo : exists cl, clo_of r cell = Some cl).
  { unfold as_closure in Ecl. repeat case_match; try done. injection Ecl as <-. by eexists. }
  destruct Hclo as [cl Hcl]. rewrite Hcl. cbn [mbind option_bind].
  assert (Hself : exists self, (if meth then get_reg (a + 1) r else Some UV_NIL) = Some self).
  { destruct meth; [|by eexists]. rewrite Hmeth in * by done. apply (get_ok f q); [done|lia]. }
  destruct Hself as [self ->]. cbn [mbind option_bind]. destruct (c_proto cl) as [p|] eqn:Ep.
  - destruct (wrong_count p nargs) eqn:Ewc; [unfold arity_error_proto; by apply call_throws|].
    destruct (in_mid _ _ _ Hi) as [[Hclos _] _ _ _]. pose proof (Hclos cell cl p Hcl Ep) as Hvp. destruct (verified_bytes p Hvp) as [Hpm Hpn]. unfold is_byte in Hpm, Hpn.
    pose proof (base_bound _ _ _ Hi) as Hbb.
    assert (Hna : 0 <= nargs < 256) by lia.
    destruct (push_call_ok f q r cell cl p self (f_base f + a + off) a nargs Hi) as (rc & r1 & E & Hcase); try done; [by eapply ai_resumable|lia|].
    rewrite E. cbn [mbind option_bind]. destruct Hcase as [(-> & Hi1 & Hset & Hcap)|(Hrc & Hi1)].
    + cbn [Z.eqb negb]. destruct (store_nargs_ok (negb (arity_prologue (pdata p) =? 0)) (nparams (pdata p)) (max_reg (pdata p)) (f_base f + a + off) nargs (x_stk (r_x r1)))
        as (s & -> & Hs); [apply (in_mid _ _ _ Hi1)|lia|lia|done|]. cbn [mbind option_bind]. eexists true, _. split; [done|]. right. split; [done|].
      match type of Hi1 with in_frame ?g _ _ => assert (Hi2 : in_frame g p (on_x (x_set_stk s) r1)) end.
      { pose proof (in_mid _ _ _ Hi1) as Hm1. destruct Hs as [-> |(l & -> & Hl)]; apply in_stack; try done; [apply Hm1|]. apply kwf_regs; [apply Hm1|done]. }
      refine (in_settled _ p _ Hi2 _). exists 0. split; [done|]. destruct Hset as [_ Ht]. destruct (Ht _ (in_top _ _ _ Hi1)) as (pc0 & [= <-] & p' & Hp' & Hg).
      rewrite (in_proto _ _ _ Hi1) in Hp'. by injection Hp' as <-.
    + destruct (rc =? -2); [by apply call_throws|]. rewrite (proj2 (Z.eqb_neq rc 0)) by done. by apply call_throws.
  - destruct (_ || _); [unfold arity_error; by apply call_throws|]. pose proof (window f q r (max_reg (pdata q)) Hi ltac:(lia)) as Hwin. pose proof (base_bound _ _ _ Hi) as Hbb.
    destruct (read_args_ok (Z.to_nat nargs) (f_base f + a + off) (s_stack (x_stk (r_x r)))) as [args ->]; [lia|unfold stack_cap in Hwin; lia|]. cbn [mbind option_bind].
    destruct (do_ok f q r _ (native_ok cell self args) Hi) as (out & r1 & -> & Hi1). cbn [mbind option_bind]. destruct out as [v|]; [|by apply call_here].
    destruct (put_reg_ok f q r1 a v Hi1 Ha) as (r2 & -> & Hi2 & _). cbn [mbind option_bind]. by apply call_here.
Qed.

Lemma op_call_ok f q pc r a b c : at_instr f q pc r -> reg_in q a -> 0 <= b -> a + b <= max_reg (pdata q) + 1 -> ok_step (op_call a b c r).
Proof.
  intros Hat Ha Hb Hab. destruct (do_call_ok f q pc r a b c Hat Ha Hb Hab) as (ok & r1 & E & Hcase). unfold op_call. rewrite E. cbn [mbind option_bind].
  pose proof (ai_resumable _ _ _ _ Hat) as Hres. destruct Hcase as [Hi1|(-> & Hset & Hne)].
  - destruct (negb ok); [by apply (goto_ok f q)|]. destruct (negb _); by apply (stay_ok f q).
  - cbn [negb]. destruct (negb _); (do 2 eexists; split; [done|]; by split).
Qed.

(** *** Slots *)

Lemma proto_top f q r : in_frame f q r -> proto_of r f = Some q.
Proof. intros Hi. exact (in_proto _ _ _ Hi). Qed.

Lemma op_getslot_ok f q pc r self a b site : at_instr f q pc r -> reg_in q a -> reg_in q b -> (self = true -> a + 1 <= max_reg (pdata q)) ->
  ok_step (op_getslot self a b site r).
Proof.
  intros Hat Ha Hb Hself. pose proof (ai_in _ _ _ _ Hat) as Hi. unfold op_getslot, top_frame. rewrite (in_top _ _ _ Hi). cbn [mbind option_bind].
  rewrite (proto_top f q r Hi). cbn [mbind option_bind]. destruct (site_name q site r) as [name|]; [|by eapply throw_ok].
  destruct (get_ok f q r b Hi Hb) as [recv ->]. cbn [mbind option_bind]. destruct (do_ok f q r _ (slot_get_ok self recv name q site) Hi) as (out & r1 & -> & Hi1).
  cbn [mbind option_bind]. pose proof (ai_resumable _ _ _ _ Hat) as Hres. destruct out as [v|]; [|by apply (goto_ok f q)].
  assert (Hsec : exists r2, (if self then put_reg (a + 1) recv r1 else Some r1) = Some r2 /\ in_frame f q r2).
  { destruct self; [|by eexists]. destruct (put_reg_ok f q r1 (a + 1) recv Hi1) as (r2 & -> & Hi2 & _); [specialize (Hself eq_refl); lia|]. by exists r2. }
  destruct Hsec as (r2 & -> & Hi2). cbn [mbind option_bind]. by apply (put_next f q).
Qed.

Lemma op_setslot_ok f q pc r update a b site : at_instr f q pc r -> reg_in q a -> reg_in q b -> ok_step (op_setslot update a b site r).
Proof.
  intros Hat Ha Hb. pose proof (ai_in _ _ _ _ Hat) as Hi. unfold op_setslot, top_frame. rewrite (in_top _ _ _ Hi). cbn [mbind option_bind].
  rewrite (proto_top f q r Hi). cbn [mbind option_bind]. destruct (site_name q site r) as [name|]; [|by eapply throw_ok].
  destruct (get_ok f q r b Hi Hb) as [recv ->]. cbn [mbind option_bind]. pose proof (ai_resumable _ _ _ _ Hat) as Hres.
  destruct recv; try (by eapply throw_ok). destruct (get_ok f q r a Hi Ha) as [w ->]. cbn [mbind option_bind].
  match goal with |- context [v_slot_set update ?o] => destruct (do_ok f q r _ (slot_set_ok update o name w q site) Hi) as (ok & r1 & -> & Hi1) end.
  cbn [mbind option_bind]. destruct ok; [by apply (next_ok f q)|by apply (goto_ok f q)].
Qed.

Lemma op_getslot_change_event_ok f q pc r a b site : at_instr f q pc r -> reg_in q a -> reg_in q b -> ok_step (op_getslot_change_event a b site r).
Proof.
  intros Hat Ha Hb. pose proof (ai_in _ _ _ _ Hat) as Hi. unfold op_getslot_change_event, top_frame. rewrite (in_top _ _ _ Hi). cbn [mbind option_bind].
  rewrite (proto_top f q r Hi). cbn [mbind option_bind]. destruct (site_name q site r) as [name|]; [|by eapply throw_ok].
  destruct (get_ok f q r b Hi Hb) as [recv ->]. cbn [mbind option_bind]. pose proof (ai_resumable _ _ _ _ Hat) as Hres.
  destruct recv; try (by eapply throw_ok).
  match goal with |- context [v_change_event ?o] => destruct (do_ok f q r _ (change_event_ok o name) Hi) as (e & r1 & -> & Hi1) end.
  cbn [mbind option_bind]. destruct e; [by apply (put_next f q)|by eapply throw_ok].
Qed.

(** *** Concurrency *)

Lemma leave_run_ok f q st r : in_frame f q r -> resumable q f -> ok_step (leave_run st r).
Proof. intros Hi Hr. apply (stay_ok f q); [|done]. apply (in_same f q r); try done; [by apply (in_v_ok f q r)|apply (in_mid _ _ _ Hi)]. Qed.

Lemma op_fork_ok f q pc r a b c : at_instr f q pc r -> reg_in q a -> (c = UFORK_JOIN -> reg_in q b) -> ok_step (op_fork a b c r).
Proof.
  intros Hat Ha Hb. pose proof (ai_in _ _ _ _ Hat) as Hi. unfold op_fork. destruct (get_ok f q r a Hi Ha) as [cv ->]. cbn [mbind option_bind].
  destruct (fork_closure r cv) as [cell|]; [|by eapply throw_ok]. destruct (do_ok f q r _ (spawn_ok cell) Hi) as (child & r1 & -> & Hi1). cbn [mbind option_bind].
  destruct child as [st|]; [|by eapply throw_ok]. pose proof (ai_resumable _ _ _ _ Hat) as Hres. zcase; [apply (put_next f q); auto|by apply (next_ok f q)].
Qed.

Lemma op_join_wait_ok f q pc r a : at_instr f q pc r -> reg_in q a -> ok_step (op_join_wait a r).
Proof.
  intros Hat Ha. pose proof (ai_in _ _ _ _ Hat) as Hi. unfold op_join_wait. destruct (get_ok f q r a Hi Ha) as [cv ->]. cbn [mbind option_bind].
  pose proof (ai_resumable _ _ _ _ Hat) as Hres. destruct (as_cell UCELL_STRAND r cv) as [child|]; [|by eapply throw_ok].
  destruct (v_strand_dead _ _); [by apply (next_ok f q)|]. destruct (may_deschedule r).
  - apply (leave_run_ok f q); [|done]. apply in_set_v; [done|]. by apply join_ok, (in_v_ok f q r).
  - destruct (do_ok f q r _ (run_inline_ok child) Hi) as (u & r1 & -> & Hi1). cbn [mbind option_bind]. by apply (next_ok f q).
Qed.

Lemma maybe_get f q r (b : bool) a : in_frame f q r -> reg_in q a -> exists v, (if b then Some UV_NIL else get_reg a r) = Some v.
Proof. intros Hi Ha. destruct b; [by eexists|]. by apply (get_ok f q). Qed.

Lemma op_install_ok f q pc r base mode flags : at_instr f q pc r -> 0 <= base -> base + 2 <= max_reg (pdata q) -> ok_step (op_install base mode flags r).
Proof.
  intros Hat Hb Hb2. pose proof (ai_in _ _ _ _ Hat) as Hi. pose proof (ai_resumable _ _ _ _ Hat) as Hres. unfold op_install.
  destruct (maybe_get f q r (Z.land flags UINSTALL_F_HAS_BODY =? 0) (base + 1) Hi ltac:(lia)) as [bv ->].
  destruct (maybe_get f q r (Z.land flags UINSTALL_F_HAS_ALT =? 0) (base + 2) Hi ltac:(lia)) as [av ->]. cbn [mbind option_bind].
  destruct (get_ok f q r base Hi ltac:(lia)) as [sv ->]. cbn [mbind option_bind]. unfold install_closure.
  assert (Hinst : forall k a b c d (m : option (bool * run) -> dstep) msg1 msg2, (forall x, m x = ('(ok, r) ← x; if ok : bool then next r else throw msg1 msg2 r)) ->
    ok_step (m (do_act (v_install k a b c d) r))).
  { intros k a b c d m msg1 msg2 ->. destruct (do_ok f q r _ (install_ok k a b c d) Hi) as (ok & r1 & -> & Hi1). cbn [mbind option_bind].
    destruct ok; [by apply (next_ok f q)|by eapply throw_ok]. }
  destruct (mode =? UINSTALL_WAITUNTIL).
  - destruct (as_closure r sv) as [cond|]; [|by eapply throw_ok]. destruct (do_ok f q r _ (waituntil_ok cond) Hi) as (rc & r1 & -> & Hi1). cbn [mbind option_bind].
    destruct (rc <? 0); [by apply (goto_ok f q)|]. destruct (0 <? rc); by apply (stay_ok f q).
  - cbn zeta. destruct (UINSTALL_AT_EVENT <=? mode).
    + destruct (as_cell UCELL_EVENT r sv) as [e|]; [|by eapply throw_ok]. by eapply Hinst.
    + destruct (as_closure r sv) as [cond|]; [|by eapply throw_ok]. by eapply Hinst.
Qed.

(** *** Scopes *)

Lemma push_cleanup_only ok c s rc s' : ustrand_push_cleanup ok c s = Some (rc, s') -> exists l cap, s' = set_cleanup l cap s.
Proof.
  unfold ustrand_push_cleanup. assert (Hs : s = set_cleanup (s_cleanup s) (s_cleanup_cap s) s) by (by destruct s).
  intros E. repeat case_match; simplify_eq; eauto.
Qed.

Lemma top_of f q r : in_frame f q r -> u16 (zlen (x_frames (r_x r)) - 1) = zlen (x_frames (r_x r)) - 1 /\ read (x_frames (r_x r)) (zlen (x_frames (r_x r)) - 1) = Some f.
Proof.
  intros Hi. destruct (top_index (r_x r) f (m_kwf _ (in_mid _ _ _ Hi)) (in_top _ _ _ Hi)) as [Ht Hpos]. split; [done|].
  pose proof (in_top _ _ _ Hi) as Hl. rewrite last_lookup in Hl. unfold read, zlen in *. zcase; [|lia].
  by replace (Z.to_nat (Z.of_nat (length (x_frames (r_x r))) - 1)) with (pred (length (x_frames (r_x r)))) by lia.
Qed.

(** An entry of the top frame is pushed, or there is no room for it. *)
Lemma push_top_ok f q r c : in_frame f q r -> cu_frame c = zlen (x_frames (r_x r)) - 1 -> entry_ok (x_frames (r_x r)) c -> entry_good (good_target q) c ->
  exists rc r', push_entry c r = Some (rc, r') /\ in_frame f q r'.
Proof.
  intros Hi Hc He Hg. destruct (in_mid _ _ _ Hi) as [Hvm Hk Hco Hu]. destruct (top_of f q r Hi) as [_ Hr]. unfold push_entry.
  pose proof (grant_ok (r_w r) Hvm) as Hvm'. pose proof (grant_clo (r_w r)) as Hclo. destruct (grant (r_w r)) as [ok w]. cbn [snd] in Hvm', Hclo.
  destruct (push_cleanup_spec ok c (x_stk (r_x r)) (k_swf _ Hk)) as (rc & s & E & Hs & Hcase). rewrite E. cbn [mbind option_bind].
  destruct (push_cleanup_only _ _ _ _ _ E) as (l & cap & Es). do 2 eexists. split; [done|].
  assert (Hin : forall d, d ∈ s_cleanup s -> d ∈ x_cleanup (r_x r) \/ d = c).
  { intros d. destruct Hcase as [(_ & ->)|(_ & -> & _)]; [|by left]. intros [?| ->%list_elem_of_singleton]%elem_of_app; [by left|by right]. }
  assert (Hks : kwf s).
  { destruct Hk as [_ H1 H2 H3]. split; [done| | |rewrite Es; exact H3].
    - apply Forall_forall. intros d Hd. rewrite Es. cbn [set_cleanup s_frames]. destruct (Hin d Hd) as [Hd'| ->]; [|done]. rewrite Forall_forall in H1. by apply H1.
    - destruct Hcase as [(_ & ->)|(_ & -> & _)]; [|done]. apply entries_snoc; [done|]. eapply Forall_impl; [exact H1|]. intros d [(g & Hd & _) _ _].
      apply read_Some_lt in Hd. unfold zlen in Hc. fold (x_frames (r_x r)) in Hd. lia. }
  pose proof (in_proto _ _ _ Hi) as Hp. split; [split; try done| |].
  - unfold rcode. cbn [r_w r_x]. rewrite Hclo. destruct Hco as [H1 H2 H3 H4 H5].
    assert (Hf : x_frames (x_set_stk s (r_x r)) = x_frames (r_x r)) by (unfold x_frames; cbn; by rewrite Es). split; rewrite ?Hf; try done.
    intros d g Hd Hg'. destruct (Hin d Hd) as [Hd'| ->]; [by apply H4|]. rewrite Hc, Hr in Hg'. injection Hg' as <-. eapply entry_good_mono; [|exact Hg]. intros k Hk'. by exists q.
  - unfold x_frames. cbn. rewrite Es. exact (in_top _ _ _ Hi).
  - cbn [r_w]. by rewrite Hclo.
Qed.

Lemma op_scope_try_ok f q pc r a bx : at_instr f q pc r -> a = 1 \/ a = 2 -> good_target q bx -> ok_step (op_scope_try a bx r).
Proof.
  intros Hat Ha Hg. pose proof (ai_in _ _ _ _ Hat) as Hi. destruct (top_of f q r Hi) as [Ht Hr]. unfold op_scope_try. rewrite Ht.
  destruct (push_top_ok f q r (MkCleanup UCLEAN_TRY a (ucode UUNWIND_NONE) (zlen (x_frames (r_x r)) - 1) bx 0 None UV_NIL) Hi) as (rc & r1 & -> & Hi1); [done| | |].
  - destruct (in_code _ _ _ Hi) as [Hmr _]. split; [exists f; split; [done|by eexists]| |]; destruct Ha as [-> | ->]; done.
  - unfold entry_good. destruct Ha as [-> | ->]; by split_and!.
  - cbn [mbind option_bind]. destruct (negb _); [by eapply throw_ok|]. by eapply ai_next_ok, ai_keep.
Qed.

Lemma in_set_tag f q t r : in_frame f q r -> in_frame f q (on_x (x_set_tag t) r).
Proof. intros Hi. apply (in_same f q r); try done; [by apply (in_v_ok f q r)|apply (in_mid _ _ _ Hi)]. Qed.

Lemma in_set_gates f q (g : xstrand -> Z) r : in_frame f q r -> in_frame f q (on_x (fun x => x_set_gates (g x) x) r).
Proof. intros Hi. apply (in_same f q r); try done; [by apply (in_v_ok f q r)|apply (in_mid _ _ _ Hi)]. Qed.

Lemma scope_tag_ok f q r a : in_frame f q r -> a = USCOPE_NO_REG \/ reg_in q a -> exists t r', scope_tag a r = Some (t, r') /\ in_frame f q r'.
Proof.
  intros Hi Ha. unfold scope_tag. assert (Hv : exists v, (if a =? USCOPE_NO_REG then Some UV_NIL else get_reg a r) = Some v).
  { destruct (a =? USCOPE_NO_REG) eqn:E; [by eexists|]. zbool. destruct Ha as [?|Ha]; [done|]. by apply (get_ok f q). }
  destruct Hv as [v ->]. cbn [mbind option_bind]. destruct (as_cell UCELL_TAG r v) as [t|]; [by exists (Some t), r|].
  pose proof (tag_new_ok _ (in_v_ok _ _ _ Hi)) as Hn. destruct (v_tag_new (r_v r)) as [t v']. do 2 eexists. split; [done|]. by apply in_set_v.
Qed.

Lemma op_scope_tag_ok f q pc r a bx : at_instr f q pc r -> a = USCOPE_NO_REG \/ reg_in q a -> good_target q bx -> ok_step (op_scope_tag a bx r).
Proof.
  intros Hat Ha Hg. unfold op_scope_tag. destruct (scope_tag_ok f q r a (ai_in _ _ _ _ Hat) Ha) as (t & r1 & -> & Hi1). cbn [mbind option_bind].
  destruct t as [t|]; [|by eapply throw_ok]. destruct (top_of f q r1 Hi1) as [Ht Hr]. rewrite Ht. pose proof (ai_resumable _ _ _ _ Hat) as Hres.
  match goal with |- context [push_entry ?c r1] => destruct (push_top_ok f q r1 c Hi1) as (rc & r2 & -> & Hi2); [done| | |] end.
  - destruct (in_code _ _ _ Hi1) as [Hmr _]. split; [exists f; split; [done|by eexists]| |]; done.
  - unfold entry_good. by split_and!.
  - cbn [mbind option_bind]. destruct (negb _); [by eapply throw_ok|].
    destruct (do_ok f q _ _ (fire_enter_ok t) (in_set_tag f q (Some t) r2 Hi2)) as (u & r3 & -> & Hi3). cbn [mbind option_bind].
    destruct (_ =? 0); [by apply (next_ok f q)|]. match goal with |- context [on_x ?g r3] => assert (Hi4 : in_frame f q (on_x g r3)) by (by apply in_set_gates) end.
    destruct (may_deschedule _); [by apply (leave_run_ok f q)|by apply (next_ok f q)].
Qed.

Lemma op_throw_ok f q r a : in_frame f q r -> reg_in q a -> ok_step (op_throw a r).
Proof.
  intros Hi Ha. unfold op_throw. rewrite (in_top _ _ _ Hi). cbn [mbind option_bind]. pose proof (window f q r a Hi Ha) as Hw.
  destruct (read_is_Some (s_stack (x_stk (r_x r))) (f_base f + a)) as [v Ev]; [done|]. unfold reg_of. rewrite Ev. cbn [mbind option_bind].
  apply pending_walks; [|done]. assert (Hi' : in_frame f q (uexec_throw_value v r)); [|apply Hi']. apply (in_same f q r); try done. by apply (in_v_ok f q r).
Qed.

Lemma op_load_catch_value_ok f q pc r a : at_instr f q pc r -> reg_in q a -> ok_step (op_load_catch_value a r).
Proof.
  intros Hat Ha. pose proof (ai_in _ _ _ _ Hat) as Hi. unfold op_load_catch_value. rewrite (in_top _ _ _ Hi). cbn [mbind option_bind]. pose proof (window f q r a Hi Ha) as Hw.
  destruct (store_is_Some (s_stack (x_stk (r_x r))) (f_base f + a) (x_transfer (r_x r))) as (l & E & Hl); [done|]. unfold reg_of. rewrite E. cbn [mbind option_bind].
  pose proof (in_mid _ _ _ Hi) as Hm. apply (next_ok f q); [|by eapply ai_resumable]. apply (in_here f q r); try done; try apply Hm.
  apply kwf_regs; [apply Hm|]. unfold stack_cap, zlen. by rewrite Hl.
Qed.

(** The top frame's own top entry, taken off. *)
Lemma drop_top ok f q r c : in_frame f q r -> top_own ok (r_x r) = Some c ->
  ok c = true /\ in_frame f q (on_x drop_entry r) /\ cu_frame c = zlen (x_frames (r_x r)) - 1 /\ entry_ok (x_frames (r_x r)) c /\ entry_good (good_target q) c.
Proof.
  intros Hi Ht. destruct (top_of f q r Hi) as [Hti Hr]. pose proof (in_mid _ _ _ Hi) as Hm. unfold top_own in Ht.
  destruct (last (x_cleanup (r_x r))) as [d|] eqn:El; [|done]. destruct (ok d && _) eqn:Eb; [|done]. injection Ht as ->. apply andb_prop in Eb as [Hok Hf]. zbool. rewrite Hti in Hf.
  pose proof (last_take _ _ El) as Hsp. change (take (length (x_cleanup (r_x r)) - 1) (x_cleanup (r_x r))) with (x_cleanup (drop_entry (r_x r))) in Hsp.
  destruct (drop_entry_ok (r_x r) c (m_kwf _ Hm) Hsp) as (Hk & He & _ & _). split; [done|]. split; [split; [split|..]; try done|split; [done|split; [done|]]].
  - apply Hm.
  - apply code_drop, Hm.
  - apply Hm.
  - apply (in_top _ _ _ Hi).
  - apply (in_proto _ _ _ Hi).
  - eapply entry_good_mono; [|apply (co_entries _ _ (m_code _ Hm) c f); [by apply last_Some_elem_of|by rewrite Hf]].
    intros k (q' & Hq' & Hg). rewrite (in_proto _ _ _ Hi) in Hq'. by injection Hq' as <-.
Qed.

Lemma leave_in f q r c : in_frame f q r -> exists r', leave_scope c r = Some r' /\ in_frame f q r'.
Proof.
  intros Hi. pose proof (in_mid _ _ _ Hi) as Hm. destruct (leave_scope_ok (L := scope_laws) c r (m_vm _ Hm) (m_kwf _ Hm)) as (r' & E & Hw & Hx).
  destruct (leave_code c r (m_vm _ Hm) (k_swf _ (m_kwf _ Hm)) (m_code _ Hm)) as (r2 & E2 & Hc & Hf & Hk). rewrite E in E2. injection E2 as <-.
  exists r'. split; [done|]. apply (in_here f q r); try done.
  - eapply crossed_kwf; [exact Hx|apply Hm].
  - exact (c_cleanup _ _ Hx).
  - destruct (c_pending _ _ Hx) as [[E1 _]|[E1 _]]; rewrite E1; [apply Hm|done].
Qed.

Lemma good_small q pc : verified q -> good_target q pc -> 0 <= pc < 2 ^ 20.
Proof.
  intros Hv (k & -> & Hlt & _). destruct (Hv q (sub_refl _)) as (Hok & _ & _ & Hd). destruct (wf_instrs _ Hd) as [_ Hc]. unfold v_count in Hc.
  pose proof (pc_at_nonneg q Hok k). lia.
Qed.

Lemma set_pc_lands f q r pc : in_frame f q r -> good_target q pc -> ok_step (x ← set_pc pc (r_x r); next (set_x x r)).
Proof.
  intros Hi Hg. pose proof (in_mid _ _ _ Hi) as Hm. destruct (in_code _ _ _ Hi) as [Hmr _].
  destruct (set_pc_spec pc (r_x r) f (m_kwf _ Hm) (in_top _ _ _ Hi)) as (s & -> & Hs & Hk); [by rewrite Hmr; eexists|]. cbn [mbind option_bind].
  exists true, (set_x (x_set_stk s (r_x r)) r). split; [done|].
  destruct (moved_good (d_clo (r_w r)) pc (r_x r) s (x_set_stk s (r_x r)) f (m_code _ Hm) (in_top _ _ _ Hi)) as [H1 H2]; try done.
  - exists q. split; [apply (in_proto _ _ _ Hi)|done].
  - apply Hm.
  - split; [split; [split; try done; apply Hm|done]|]. intros _. by eapply moved_frames.
Qed.

Lemma op_scope_pop_ok f q pc r a : at_instr f q pc r -> ok_step (op_scope_pop a r).
Proof.
  intros Hat. pose proof (ai_in _ _ _ _ Hat) as Hi. pose proof (ai_resumable _ _ _ _ Hat) as Hres. unfold op_scope_pop. destruct (Z.land a 3 =? USCOPE_POP_TAG).
  - destruct (top_own _ _) as [c|] eqn:Et; [|by eapply fatal_ok]. destruct (drop_top _ f q r c Hi Et) as (_ & Hi1 & _).
    destruct (leave_in f q _ c Hi1) as (r2 & -> & Hi2). cbn [mbind option_bind]. apply (next_ok f q); [|done]. by apply in_set_gates.
  - destruct (top_own _ _) as [c|] eqn:Et; [|by eapply fatal_ok]. destruct (drop_top _ f q r c Hi Et) as (Hok & Hi1 & Hf & He & Hg).
    apply andb_prop in Hok as [[Htry Hrun]%andb_prop _]. destruct (negb (negb _)); [by apply (next_ok f q)|].
    change (x_frames (r_x (on_x drop_entry r))) with (x_frames (r_x r)). rewrite (in_top _ _ _ Hi). cbn [mbind option_bind]. destruct Hat as [_ Hpc Hgn].
    rewrite Hpc. cbn [mbind option_bind]. pose proof (good_small q (pc + 1) (proj2 (in_code _ _ _ Hi)) Hgn) as Hsm.
    assert (Htag : is_tag_scope c = false) by (unfold is_tag_scope; apply Z.eqb_eq in Htry; by rewrite Htry).
    destruct (push_top_ok f q _ (running UUNWIND_NONE UV_NIL (u32 (pc + 1)) c) Hi1) as (rc & r2 & -> & Hi2); [exact Hf|by apply running_entry| |].
    { destruct Hg as (_ & H2 & _). split; [|split; [|split]].
      - change (is_tag_scope (running UUNWIND_NONE UV_NIL (u32 (pc + 1)) c)) with (is_tag_scope c). by rewrite Htag.
      - intros _. by apply H2.
      - intros _ _. cbn. by rewrite u32_small by lia.
      - intros _ [=]. }
    cbn [mbind option_bind]. destruct (negb (rc =? 0)); [exact (throw_ok f q r2 _ _ Hi2)|]. apply (set_pc_lands f q); [done|]. destruct Hg as (_ & H2 & _). by apply H2.
Qed.

Lemma op_resume_ok f q r : in_frame f q r -> ok_step (op_resume r).
Proof.
  intros Hi. unfold op_resume. destruct (top_own _ _) as [c|] eqn:Et; [|by eapply fatal_ok]. destruct (drop_top _ f q r c Hi Et) as (Hrun & Hi1 & Hf & He & (_ & _ & H3 & H4)).
  destruct (cu_saved_unwind c =? ucode UUNWIND_NONE) eqn:En; zbool; [apply (set_pc_lands f q); [done|by apply H3]|].
  destruct (e_mark _ _ He Hrun) as (u & Hu & Hj). rewrite Hu. cbn [mbind option_bind]. pose proof (in_mid _ _ _ Hi1) as [Hvm Hk Hc _].
  assert (Hcode : cu_saved_unwind c = ucode u) by (apply find_some in Hu as [_ Hu]; zbool; done).
  assert (Hgen : forall y, x_stk y = x_stk (drop_entry (r_x r)) -> x_unwind y = u -> x_transfer y = cu_saved c -> walking (MkRun (r_w r) y (r_report r) (r_code r)) /\ rcode (MkRun (r_w r) y (r_report r) (r_code r))).
  { intros y Hy1 Hy2 Hy3. assert (Hfy : x_frames y = x_frames (r_x r)) by (unfold x_frames; by rewrite Hy1). assert (Hcy : x_cleanup y = x_cleanup (drop_entry (r_x r))) by (unfold x_cleanup; by rewrite Hy1).
    split; [split; [done|split; [split|]]|].
    - cbn. by rewrite Hy1.
    - intros E. cbn in *. rewrite Hy3, Hfy. split; [apply Hj; congruence|]. exists f. split; [apply (in_top _ _ _ Hi)|]. destruct (in_code _ _ _ Hi) as [-> _]. by eexists.
    - cbn. rewrite Hy2. intros ->. done.
    - unfold rcode in *. cbn [r_w r_x] in *. destruct Hc as [C1 C2 C3 C4 _]. split; rewrite ?Hfy, ?Hcy; try done. rewrite Hy2. intros -> i g Hi' Hg.
      rewrite (in_top _ _ _ Hi) in Hg. injection Hg as <-. exists q. split; [apply (in_proto _ _ _ Hi)|]. apply H4; [done|done|congruence]. }
  case_decide; (apply walk_settles; [by apply Hgen|by apply Hgen]).
Qed.

Lemma op_unwind_to_ok f q r a bx : in_frame f q r -> 0 <= bx < 2 ^ 16 -> good_target q bx -> ok_step (op_unwind_to a bx r).
Proof.
  intros Hi Hb Hg. unfold op_unwind_to. pose proof (in_mid _ _ _ Hi) as [Hvm Hk Hc _]. destruct (in_code _ _ _ Hi) as [Hmr _]. apply walk_settles.
  - split; [done|]. split; [|done]. split; [done|]. intros _. split; [by eexists|]. exists f. split; [apply (in_top _ _ _ Hi)|]. rewrite Hmr. by eexists.
  - unfold rcode in *. cbn [on_x r_w r_x]. destruct Hc as [C1 C2 C3 C4 _]. split; try done. intros _ i g [= <-] Hg'.
    change (last (x_frames (r_x r)) = Some g) in Hg'. rewrite (in_top _ _ _ Hi) in Hg'. injection Hg' as <-. exists q. split; [apply (in_proto _ _ _ Hi)|]. by rewrite u32_small by lia.
Qed.

(** *** One instruction *)

(** What the verifier established of the instruction [i] at [pc]. *)
Record fetched (q : UProto) (pc ext i : Z) (op : UOpcode) : Prop := {
  fe_op : uinstr_opcode i = Some op;
  fe_safe : op <> OP_EXTARG -> instr_safe q i op pc ext;
  fe_next : op <> OP_EXTARG -> op <> OP_RET -> good_target q (pc + 1 + prelude_len q i);
  fe_moves : transfer_safe q pc i op;
  fe_try : op = OP_SCOPE_TRY -> uinstr_a i = 1 \/ uinstr_a i = 2;
  fe_fork : op = OP_FORK -> uinstr_c i = UFORK_JOIN -> uinstr_b i <> 255;
  fe_ext : ext_after op ext = 0 \/ op = OP_EXTARG;
  fe_extarg : op = OP_EXTARG -> xinv q (X (pc + 1) (Z.shiftl (uinstr_bx i) 8) []) }.

Lemma fetch_ok q pc ext : verified q -> xinv q (X pc ext []) -> exists i op, read (v_items (instructions (pdata q))) pc = Some i /\ fetched q pc ext i op.
Proof.
  intros Hv Hx. destruct (Hv q (sub_refl _)) as (Hok & Hw & Hfv & _). pose proof Hx as (k & Epc & Hk & Eext & _). cbn in Epc, Eext.
  destruct (pass1_at q Hok Hw k Hk) as (i & op & Hr & Hop & Hs & En & _ & Hvi & _). exists i, op. subst pc ext. split; [done|].
  pose proof (fv_transfers q Hfv k i op Hk Hr Hop) as Hm. split; try done.
  - intros Hne. by apply vinstr_sound; auto.
  - intros H1 H2. replace (pc_at q k + 1 + prelude_len q i) with (pc_at q (S k)) by lia. by eapply good_next.
  - intros ->. specialize (Hvi ltac:(done)). unfold verify_instr in Hvi. cbn [urbi_opcode_shapes format a_kind bx_kind] in Hvi.
    repeat (hcase Hvi; try done).
    match goal with H : negb _ && negb _ = false |- _ => apply andb_false_iff in H as [Hb|Hb]; apply negb_false_iff in Hb end;
      unfold USCOPE_F_HAS_CATCH, USCOPE_F_HAS_FINALLY in Hb; zbool; auto.
  - intros -> Hc Hb. specialize (Hvi ltac:(done)). destruct (vinstr_abc q i OP_FORK _ _ _ eq_refl Hvi) as (_ & _ & _ & Hr'). cbn [verify_abc_rules] in Hr'.
    rewrite Hc, Hb, !Z.eqb_refl, orb_true_r in Hr'. done.
  - destruct (decide (op = OP_EXTARG)); [by right|left]. by apply ext_after_zero.
  - intros ->. apply (xinv_step q Hok Hw Hfv _ _ Hx). by apply exec_extarg.
Qed.

Ltac instr_at := first [eassumption | lia | done].

Lemma exec_op_ok f q pc r op i ext : in_frame f q r -> f_pc f = Some (pc + 1) -> fetched q pc ext i op ->
  op <> OP_YIELD -> op <> OP_JMP -> op <> OP_EXTARG -> ok_step (exec_op op i ext r).
Proof.
  intros Hi Hpc [Hop Hsafe Hnext Hm Htry Hfork _ _] Hy Hj He. specialize (Hsafe He).
  pose proof (uinstr_a_byte i) as [Ha0 _]. pose proof (uinstr_b_byte i) as [Hb0 _]. pose proof (uinstr_c_byte i) as [Hc0 _]. pose proof (uinstr_bx_range i) as Hbx.
  assert (Hat : op <> OP_RET -> op <> OP_CLOSURE -> at_instr f q pc r).
  { intros H1 H2. specialize (Hnext He H1). rewrite (prelude_len_other q i op Hop H2), Z.add_0_r in Hnext. by split. }
  destruct Hsafe as [Sa Sb Sc _ Sk Sself Scall Sinst _ Sclo]. destruct Hm as (_ & _ & Hskip & Hhandler). unfold op_may_skip in Hskip. rewrite Hop in Hskip.
  destruct op; cbn [urbi_opcode_shapes a_kind b_kind c_kind format operand_safe] in Sa, Sb, Sc; try done; cbn [exec_op]; try specialize (Sb eq_refl); try specialize (Sc eq_refl);
    try (assert (Hat' := Hat ltac:(discriminate) ltac:(discriminate)));
    try (first
      [ eapply op_move_ok | eapply op_arith_ok | eapply op_neg_ok | eapply op_getupval_ok | eapply op_setupval_ok | eapply op_close_ok
      | eapply op_test_ok | eapply op_testset_ok | eapply op_eq_ok | eapply op_lt_le_ok | eapply op_load_recv_ok | eapply op_load_realm_global_ok
      | eapply op_setslot_ok | eapply op_getslot_change_event_ok | eapply op_load_catch_value_ok | eapply op_scope_pop_ok | eapply op_join_wait_ok ];
      first [eassumption | by auto | lia | done]).
  - eapply op_loadk_ok; [exact Hat'|lia|]. specialize (Sk eq_refl). lia.
  - by apply (op_ret_ok f q); [|lia].
  - eapply ai_put; [exact Hat'|lia].
  - eapply op_loadbool_ok; [exact Hat'|lia|]. intros Hc. apply Hskip. by apply negb_true_iff, Z.eqb_neq.
  - eapply ai_put; [exact Hat'|lia].
  - destruct (Sclo eq_refl) as (child & Hchild & _ & Hups). apply (op_closure_ok f q pc r _ _ child); try done.
    specialize (Hnext ltac:(done) ltac:(done)). unfold prelude_len in Hnext. rewrite (op_is_true i _ Hop), bool_decide_true, Hchild in Hnext by done. exact Hnext.
  - destruct (Scall eq_refl) as [Hab _]. eapply op_call_ok; [exact Hat'|lia..].
  - eapply op_fork_ok; [exact Hat'|lia|]. intros Hc. specialize (Hfork eq_refl Hc). lia.
  - eapply op_getslot_ok; [exact Hat'|lia|lia|done].
  - eapply op_getslot_ok; [exact Hat'|lia|lia|]. intros _. by apply Sself.
  - by apply (op_throw_ok f q); [|lia].
  - eapply op_scope_try_ok; [exact Hat'|by apply Htry|]. apply Hhandler. by left.
  - eapply op_scope_tag_ok; [exact Hat'| |]; [|apply Hhandler; auto]. unfold USCOPE_NO_REG. lia.
  - apply (op_unwind_to_ok f q); [done|done|]. apply Hhandler. auto.
  - by apply (op_resume_ok f q).
  - eapply op_install_ok; [exact Hat'|lia|]. by apply Sinst.
Qed.

(** ** Running *)

(** The loop may fetch: the top frame is at an instruction its code reaches. *)
Definition runnable (d : dst) : Prop := exists f q pc, in_frame f q (d_run d) /\ f_pc f = Some pc /\ xinv q (X pc (d_ext d) []).

Lemma settled_frame r : settled r -> x_frames (r_x r) <> [] -> exists f q, in_frame f q r /\ resumable q f.
Proof.
  intros [Hm Ht] Hne. destruct (last (x_frames (r_x r))) as [f|] eqn:Hl; [|by apply last_None in Hl]. destruct (Ht f Hl) as (pc & Hpc & q & Hq & Hg).
  exists f, q. split; [by split|]. by exists pc.
Qed.

Lemma good_xinv q t : good_target q t -> xinv q (X t 0 []).
Proof. intros (k & -> & Hlt & He). exists k. cbn. split; [done|]. split; [done|]. by rewrite He. Qed.

Lemma settled_runnable r budget fast : settled r -> x_frames (r_x r) <> [] -> runnable (MkD r 0 budget fast).
Proof. intros Hs Hne. destruct (settled_frame r Hs Hne) as (f & q & Hi & pc & Hpc & Hg). exists f, q, pc. split; [done|]. split; [done|]. by apply good_xinv. Qed.

Definition step_ok (m : option (bool * dst)) : Prop :=
  exists go d', m = Some (go, d') /\ if go : bool then runnable d' else settled (d_run d').

Lemma step_of f q r go ext budget fast : in_frame f q r -> resumable q f -> ext = 0 -> step_ok (Some (go, MkD r ext budget fast)).
Proof.
  intros Hi Hr ->. destruct (in_settled f q r Hi Hr) as [Hs Hne]. exists go, (MkD r 0 budget fast). split; [done|].
  destruct go; [by apply settled_runnable|done].
Qed.

Lemma op_yield_ok f q pc d : at_instr f q pc (d_run d) -> d_ext d = 0 -> step_ok (op_yield d).
Proof.
  intros Hat He. pose proof (ai_in _ _ _ _ Hat) as Hi. pose proof (ai_resumable _ _ _ _ Hat) as Hr. unfold op_yield.
  destruct (negb (may_deschedule (d_run d))); [destruct d; by apply (step_of f q)|].
  assert (Hdrain : exists u r, (if v_ndirty (r_v (d_run d)) =? 0 then Some (tt, d_run d) else do_act v_drain (d_run d)) = Some (u, r) /\ in_frame f q r).
  { destruct (_ =? 0); [by eexists tt, _|]. exact (do_ok f q _ _ drain_ok Hi). }
  destruct Hdrain as (u & r & -> & Hi'). cbn [mbind option_bind]. destruct (_ && _); apply (step_of f q); try done.
  apply (in_same f q r); try done; [by apply (in_v_ok f q r)|apply (in_mid _ _ _ Hi')].
Qed.

Lemma op_jmp_ok f q pc d bx i : in_frame f q (d_run d) -> f_pc f = Some (pc + 1) -> bx = uinstr_bx i -> good_target q (jmp_target i pc) -> d_ext d = 0 -> step_ok (op_jmp bx d).
Proof.
  intros Hi Hpc -> Hg He. unfold op_jmp, jmp_target, UEXEC_JMP_BIAS in *. cbn zeta in *. destruct (0 <=? uinstr_bx i - 32768).
  - destruct (skip_ok f q (d_run d) (uinstr_bx i - 32768) (pc + 1) Hi Hpc) as (r & -> & Hi' & _). cbn [mbind option_bind]. eapply step_of; [exact Hi'|by eexists|done].
  - destruct (skip_ok f q (d_run d) (uinstr_bx i - 32768 - 1) (pc + 1) Hi Hpc) as (r & -> & Hi' & _). cbn [mbind option_bind].
    assert (Hr : resumable q (at_pc (pc + 1 + (uinstr_bx i - 32768 - 1)) f)) by (by eexists).
    destruct (d_budget d) as [n|]; [|by eapply step_of]. destruct (_ =? 0); eapply step_of; try done.
    refine (in_same _ q r _ Hi' _ _ _ _); try done; [exact (in_v_ok _ _ _ Hi')|apply (in_mid _ _ _ Hi')].
Qed.

Lemma dispatch_step_ok d : runnable d -> step_ok (dispatch_step d).
Proof.
  intros (f & q & pc & Hi & Hpc & Hx). destruct (in_code _ _ _ Hi) as [_ Hv]. destruct (fetch_ok q pc (d_ext d) Hv Hx) as (i & op & Hr & Hf).
  unfold dispatch_step, top_frame. rewrite (in_top _ _ _ Hi). cbn [mbind option_bind]. rewrite Hpc. cbn [mbind option_bind]. rewrite (proto_top f q _ Hi).
  cbn [mbind option_bind]. rewrite Hr. cbn [mbind option_bind]. destruct (skip_ok f q (d_run d) 1 pc Hi Hpc) as (r & -> & Hi1 & _). cbn [mbind option_bind].
  rewrite (fe_op _ _ _ _ _ Hf). assert (Hpc1 : f_pc (at_pc (pc + 1) f) = Some (pc + 1)) by done.
  assert (Hex : op <> OP_YIELD -> op <> OP_JMP -> op <> OP_EXTARG ->
    step_ok ('(go, r) ← exec_op op i (d_ext d) r; Some (go, MkD r (ext_after op (d_ext d)) (d_budget d) (d_fast d)))).
  { intros H1 H2 H3. destruct (exec_op_ok _ q pc r op i (d_ext d) Hi1 Hpc1 Hf H1 H2 H3) as (go & r' & -> & Hs & Hne). cbn [mbind option_bind].
    exists go, (MkD r' (ext_after op (d_ext d)) (d_budget d) (d_fast d)). split; [done|]. destruct go; [|done]. destruct (fe_ext _ _ _ _ _ Hf) as [-> |?]; [|done].
    by apply settled_runnable; [|apply Hne]. }
  destruct op; try (by apply Hex).
  - destruct (fe_moves _ _ _ _ _ Hf) as (Hj & _). eapply op_jmp_ok; [exact Hi1|exact Hpc1|done|by apply Hj|]. by destruct (fe_ext _ _ _ _ _ Hf).
  - apply (op_yield_ok (at_pc (pc + 1) f) q pc).
    + split; [exact Hi1|done|]. pose proof (fe_next _ _ _ _ _ Hf ltac:(done) ltac:(done)) as Hn. by rewrite (prelude_len_other q i OP_YIELD (fe_op _ _ _ _ _ Hf)), Z.add_0_r in Hn.
    + by destruct (fe_ext _ _ _ _ _ Hf).
  - exists true, (MkD r (Z.shiftl (uinstr_bx i) 8) (d_budget d) (d_fast d)). split; [done|]. exists (at_pc (pc + 1) f), q, (pc + 1). split; [exact Hi1|]. split; [done|].
    by apply (fe_extarg _ _ _ _ _ Hf).
Qed.

Lemma dispatch_ok fuel : forall d, runnable d -> exists back d', dispatch fuel d = Some (back, d') /\ if back : bool then settled (d_run d') else runnable d'.
Proof.
  induction fuel as [|fuel IH]; intros d Hd; cbn [dispatch]; [by exists false, d|]. destruct (dispatch_step_ok d Hd) as (go & d1 & -> & H1). cbn [mbind option_bind].
  destruct go; [by apply IH|by exists true, d1].
Qed.

Lemma enter_ok slot r : settled r -> x_frames (r_x r) <> [] -> ok_step (enter slot r).
Proof.
  intros Hs Hne. destruct (settled_frame r Hs Hne) as (f & q & Hi & Hr). unfold enter. set (r1 := on_x (x_set_state USTRAND_RUNNING) r).
  assert (Hi1 : in_frame f q r1) by (apply (in_same f q r); try done; [by apply (in_v_ok f q r)|apply (in_mid _ _ _ Hi)]).
  destruct (negb _); [by apply (goto_ok f q)|]. destruct (slot =? 0); [by apply (next_ok f q)|]. cbn zeta.
  pose proof (in_mid _ _ _ Hi1) as Hm. pose proof (m_kwf _ Hm) as Hk.
  assert (Hstk : exists s, (if u32 (slot - 1) <? stack_cap (x_stk (r_x r1)) then l ← store (s_stack (x_stk (r_x r1))) (u32 (slot - 1)) (x_transfer (r_x r1)); Some (set_regs l (x_stk (r_x r1)))
      else Some (x_stk (r_x r1))) = Some s /\ kwf s /\ s_frames s = x_frames (r_x r1) /\ s_cleanup s = x_cleanup (r_x r1)).
  { destruct (_ <? _) eqn:El; [|by eexists]. zbool. pose proof (Z.mod_pos_bound (slot - 1) (2 ^ 32) ltac:(lia)) as [H0 _]. fold (u32 (slot - 1)) in H0.
    destruct (store_is_Some (s_stack (x_stk (r_x r1))) (u32 (slot - 1)) (x_transfer (r_x r1))) as (l & -> & Hl); [done|]. cbn [mbind option_bind].
    eexists. split; [done|]. split; [|done]. apply kwf_regs; [done|]. unfold stack_cap, zlen. by rewrite Hl. }
  destruct Hstk as (s & -> & Hks & Hfr & Hcl). cbn [mbind option_bind]. apply (next_ok f q); [|done]. apply (in_here f q r1); try done; apply Hm.
Qed.

(** C2 type soundness of the bytecode: a strand whose frames run verified code
    can be entered, and the loop then executes any number of instructions,
    through calls, returns, closures, exceptions, scope exits, parallel arms
    and watcher installs, without an access outside a register window, a
    constant or site table, a prototype's code or children, a closure's
    captures or the cleanup stack, and without a failed assertion; when it
    comes back the strand is again such a strand, parked, preempted, dead or
    at a boundary, and can be entered again. *)
Theorem verified_code_runs fuel budget slot fast r : settled r -> x_frames (r_x r) <> [] ->
  exists back d, uexec_run_inner fuel budget slot fast r = Some (back, d) /\ if back : bool then settled (d_run d) else runnable d.
Proof.
  intros Hs Hne. destruct (enter_ok slot r Hs Hne) as (go & r1 & E & Hs1 & Hne1). unfold uexec_run_inner. rewrite E. cbn [mbind option_bind].
  destruct go; [|by eexists true, _]. apply dispatch_ok. by apply settled_runnable; [|apply Hne1].
Qed.

(** ** Loaded code *)

Lemma wf_tree p q : subproto p q -> forall k, proto_wf k p -> data_wf (pdata q).
Proof.
  induction 1 as [p|p d q Hin _ IH]; intros [|k]; try done.
  - by intros (Hd & _).
  - intros (_ & _ & Hn). rewrite Forall_forall in Hn. destruct (Hn _ Hin) as (c & [= <-] & Hc). by apply (IH k).
Qed.

Lemma loaded_verified {A : Allocator} {AOk : AllocatorOk A} buf h r c : is_bytes buf -> zlen buf <= PTRDIFF_MAX ->
  uchunk_deserialize true (Some buf) h = Some r -> l_chunk r = Some c -> verified (c_root c).
Proof.
  intros Hb Hz Hr Hc. pose proof (load_spec_eq buf h r Hb Hz Hr) as H. rewrite Hc in H. destruct H as (_ & [_ _ Hwf Hv (h0 & h1 & Hb2)]).
  pose proof (wf_children _ _ Hwf) as Hok. pose proof (verify_recursive_tree _ Hv) as Hw.
  pose proof (verify_bounds_proto_spec _ h0 Hok Hw) as Hs. unfold urbi_chunk_verify_bounds in Hb2. rewrite Hb2 in Hs. destruct Hs as (_ & _ & Hf).
  intros q Hq. split_and!; [by apply Hok|by apply Hw|by apply Hf|]. by eapply wf_tree.
Qed.

(** A strand as the scheduler makes it: no registers, frames or scopes yet. *)
Definition new_stack (block : nat) : ustack := MkStack block [] [] 0 0 [] [] 0 ∅.
Definition new_strand (s : ustack) (tag : option nat) : xstrand := MkX s UUNWIND_NONE UV_NIL 0 tag 0 USTRAND_READY UV_NIL.

Lemma new_stack_wf b : swf (new_stack b).
Proof.
  split; try done; try (by left); try (split; [done|by left]). by intros u ?%elem_of_nil.
Qed.

(** A first frame makes the strand one that can be entered. *)
Lemma first_frame ok block b cell cl p recv m v tag rep code : d_clo (MkWorld m v) !! cell = Some cl -> c_proto cl = Some p -> clos_ok m -> v_ok v ->
  exists rc s, ustrand_push_frame ok block (Strands.MkClosure cell (Some (max_reg (pdata p)))) recv 0 0 (new_stack b) = Some (rc, s) /\
    (ok = true -> block <> None -> rc = 0) /\
    (rc = 0 -> settled (MkRun (MkWorld m v) (new_strand s tag) rep code) /\ s_frames s <> []).
Proof.
  intros Hcl Hp Hclos Hv. pose proof (Hclos cell cl p Hcl Hp) as Hvp. destruct (verified_bytes p Hvp) as [Hmr _]. unfold is_byte in Hmr.
  set (ucl := Strands.MkClosure cell (Some (max_reg (pdata p)))).
  destruct (push_frame_spec ok block ucl recv 0 0 0 (new_stack b) (new_stack_wf b)) as (rc & s & E & Hs & Hcase); [lia|lia|cbn; lia|cbn; lia|].
  exists rc, s. split; [exact E|]. pose proof (push_frame_cleanup _ _ _ _ _ _ _ _ _ _ E) as Hclean. split.
  - intros Hok Hb. by destruct Hcase as [(? & _)|[(_ & _ & ?)|(_ & [?|?] & _)]]; [|done|congruence|congruence].
  - intros ->. destruct Hcase as [(_ & Hpu)|[(? & _)|(? & _)]]; [|lia|lia]. pose proof (pu_frames _ _ _ _ _ _ _ Hpu) as Hf. cbn [ucl cl_max_reg new_stack s_frames app] in Hf.
    set (g := MkFrame ucl (Some 0) 0 0 false recv) in *.
    assert (Hg : fproto m g = Some p) by (unfold fproto; cbn in *; by rewrite Hcl).
    assert (Hg0 : good_at m g 0).
    { exists p. split; [done|]. destruct (Hvp p (sub_refl _)) as (Hok & Hw & _). destruct (pass1_done p Hw) as [Hpos _]. exists O. split; [done|]. by split. }
    split; [|by rewrite Hf]. split; [split|].
    + by split.
    + cbn. split; [done|by rewrite Hclean; apply Forall_nil_2|rewrite Hclean; apply SSorted_nil|]. rewrite Hf. intros [|i] f1 f2; [|done]. done.
    + unfold rcode. cbn [r_w r_x d_clo]. assert (Hfx : x_frames (new_strand s tag) = [g]) by exact Hf. split; rewrite ?Hfx; try done.
      * rewrite Forall_singleton. exists p. by split_and!.
      * intros [|i] f1 Hn; [|done]. by injection Hn as <-.
      * unfold x_cleanup. cbn. rewrite Hclean. by intros c f1 ?%elem_of_nil.
    + done.
    + intros f1 Hl. unfold x_frames in Hl. cbn in Hl. rewrite Hf in Hl. injection Hl as <-. by exists 0.
Qed.

(** C3 untrusted bytes run safely: whatever bytes arrive, if the loader
    accepts them then a strand started on the chunk's top-level code, among
    whatever verified code is there already, can be run for any number of
    instructions without a fault, and is left so that it can be resumed. *)
Theorem loaded_bytes_run_safely {A : Allocator} {AOk : AllocatorOk A} buf h r c m v cell ups ok block b recv tag rep code :
  is_bytes buf -> zlen buf <= PTRDIFF_MAX -> uchunk_deserialize true (Some buf) h = Some r -> l_chunk r = Some c ->
  clos_ok m -> v_ok v ->
  let m' := <[cell := MkClo (Some (c_root c)) ups 0 0 None]> m in
  exists rc s, ustrand_push_frame ok block (Strands.MkClosure cell (Some (max_reg (pdata (c_root c))))) recv 0 0 (new_stack b) = Some (rc, s) /\
    (ok = true -> block <> None -> rc = 0) /\
    (rc = 0 -> forall fuel budget slot fast, exists back d,
       uexec_run_inner fuel budget slot fast (MkRun (MkWorld m' v) (new_strand s tag) rep code) = Some (back, d) /\
       if back : bool then settled (d_run d) else runnable d).
Proof.
  intros Hb Hz Hr Hc Hm Hv m'. pose proof (loaded_verified buf h r c Hb Hz Hr Hc) as Hvp.
  assert (Hm' : clos_ok m').
  { intros k cl p. unfold m'. destruct (decide (k = cell)) as [-> |Hne]; [rewrite lookup_insert_eq; by intros [= <-] [= <-]|]. rewrite lookup_insert_ne by done. apply Hm. }
  destruct (first_frame ok block b cell (MkClo (Some (c_root c)) ups 0 0 None) (c_root c) recv m' v tag rep code) as (rc & s & E & Hok & Hset);
    [cbn; unfold m'; by rewrite lookup_insert_eq|done|done|done|].
  exists rc, s. split; [done|]. split; [done|]. intros Hrc fuel budget slot fast. destruct (Hset Hrc) as [H1 H2]. by apply verified_code_runs.
Qed.

(** ** What a call hands over *)

(** The register a call leaves at [i] of the callee's window. *)
Definition entry_register (p : UProto) (args : list UValue) (i : Z) : option UValue :=
  if negb (arity_prologue (pdata p) =? 0) && (0 <? nparams (pdata p)) && (nparams (pdata p) <=? max_reg (pdata p)) && (i =? nparams (pdata p)) then Some (UV_INT (zlen args))
  else if i <? zlen args then read args i else Some UV_NIL.

Lemma read_args_at n : forall i l vs, read_args n i l = Some vs -> zlen vs = Z.of_nat n /\ forall j, 0 <= j < Z.of_nat n -> read vs j = read l (i + j).
Proof.
  induction n as [|n IH]; intros i l vs; cbn [read_args]; [intros [= <-]; split; [done|lia]|].
  destruct (read l i) as [v|] eqn:Er; [|done]. cbn [mbind option_bind]. destruct (read_args n (i + 1) l) as [ws|] eqn:E; [|done]. intros [= <-].
  destruct (IH _ _ _ E) as [Hl Hr]. split; [rewrite zlen_cons; lia|]. intros j Hj. destruct (decide (j = 0)) as [-> |Hne]; [by rewrite Z.add_0_r|].
  specialize (Hr (j - 1) ltac:(lia)). replace (i + 1 + (j - 1)) with (i + j) in Hr by lia. rewrite <- Hr. unfold read. zcases; [|lia|lia|done].
  replace (Z.to_nat j) with (S (Z.to_nat (j - 1))) by lia. done.
Qed.

(** The window the callee finds. *)
Lemma window_read p args base s1 s2 nargs : swf s1 -> base + max_reg (pdata p) + 1 <= stack_cap s1 -> 0 <= base -> 0 <= nparams (pdata p) -> zlen args = nargs ->
  (forall j, 0 <= j < nargs -> read (s_stack s1) (base + j) = read args j) ->
  (forall j, nargs <= j <= max_reg (pdata p) -> read (s_stack s1) (base + j) = Some UV_NIL) ->
  ustrand_store_nargs (negb (arity_prologue (pdata p) =? 0)) (nparams (pdata p)) (max_reg (pdata p)) base nargs s1 = Some s2 ->
  forall i, 0 <= i <= max_reg (pdata p) -> read (s_stack s2) (base + i) = entry_register p args i.
Proof.
  intros Hs Hcap Hb Hn Hl Harg Hnil Hst i Hi. unfold ustrand_store_nargs in Hst. unfold entry_register. rewrite Hl.
  assert (Hold : read (s_stack s1) (base + i) = if i <? nargs then read args i else Some UV_NIL) by (zcase; [apply Harg|apply Hnil]; lia).
  destruct (_ && (nparams (pdata p) <=? max_reg (pdata p))) eqn:Ec; [|injection Hst as <-; by rewrite andb_false_l].
  pose proof (regs_cap_bound _ (w_regs _ Hs)). zbool. rewrite u32_small in Hst by lia.
  destruct (store (s_stack s1) (base + nparams (pdata p)) (UV_INT nargs)) as [l|] eqn:Es; [|done]. injection Hst as <-. cbn [set_regs s_stack].
  rewrite (read_store _ _ _ _ _ Es). cbn [andb]. case_decide; zcase; try lia; [done|by rewrite Hold].
Qed.

(** C10 the calling convention: a call of a script closure whose argument count
    does not fit raises ArityError and touches nothing; otherwise it raises
    and leaves the frames alone when the frame cannot be pushed, or the
    callee starts at its first instruction in a window that overlays the
    caller's, where it finds its arguments in order, then nil, with the
    hidden count where optional parameters ask for it, the receiver of a
    method call, and every register of the caller below the window as it
    was; and when a frame pushed so returns with no scope open, the caller is
    the top frame again, with the value in the register the call named. *)
Theorem call_convention f q pc r a b c cell cl p : at_instr f q pc r -> reg_in q a -> 0 <= b -> a + b <= max_reg (pdata q) + 1 ->
  get_reg a r = Some (UV_CELL cell) -> clo_of r cell = Some cl -> c_proto cl = Some p ->
  let off := if negb (Z.land c 128 =? 0) then 2 else 1 in 0 <= b - off ->
  (wrong_count p (b - off) = true -> exists msg, do_call a b c r = Some (false, uexec_throw UP_ARITYERROR msg r)) /\
  (wrong_count p (b - off) = false -> exists ok r1 args self, do_call a b c r = Some (ok, r1) /\
     read_args (Z.to_nat (b - off)) (f_base f + a + off) (s_stack (x_stk (r_x r))) = Some args /\
     (if off =? 2 then get_reg (a + 1) r else Some UV_NIL) = Some self /\
     let g := MkFrame (Strands.MkClosure cell (Some (max_reg (pdata p)))) (Some 0) (f_base f + a + off) a false self in
     if ok then x_frames (r_x r1) = x_frames (r_x r) ++ [g] /\
       (forall i, reg_in p i -> get_reg i r1 = entry_register p args i) /\
       (forall j, 0 <= j < a + off -> read (s_stack (x_stk (r_x r1))) (f_base f + j) = get_reg j r)
     else x_unwind (r_x r1) = UUNWIND_THROW /\ x_frames (r_x r1) = x_frames (r_x r)) /\
  (forall r2 g x v, mid r2 -> x_frames (r_x r2) = x_frames (r_x r) ++ [g] -> f_ret_reg g = a -> f_is_boundary g = false ->
     own_entry (u16 (zlen (x_frames (r_x r2)) - 1)) (r_x r2) = None -> get_reg x r2 = Some v ->
     exists r3, op_ret x r2 = Some (true, r3) /\ x_frames (r_x r3) = x_frames (r_x r) /\ get_reg a r3 = Some v).
Proof.
  intros Hat Ha Hb Hab Hcv Hcl Hp off Hnn. pose proof (ai_in _ _ _ _ Hat) as Hi.
  assert (Hoff : 1 <= off <= 2) by (subst off; by destruct (negb _)).
  assert (Hn : (if negb (Z.land c 128 =? 0) then b - 2 else b - 1) = b - off) by (subst off; by destruct (negb _)).
  destruct (in_code _ _ _ Hi) as [Hmrf Hv]. destruct (verified_bytes _ Hv) as [Hmr _]. unfold is_byte in Hmr.
  assert (Hself : exists self, (if negb (Z.land c 128 =? 0) then get_reg (a + 1) r else Some UV_NIL) = Some self).
  { destruct (negb _) eqn:E; [|by eexists]. apply (get_ok f q); [done|]. subst off. lia. }
  destruct Hself as [self Hself].
  assert (Hcall : do_call a b c r = if wrong_count p (b - off) then Some (false, arity_error_proto cl p (b - off) r)
    else '(rc, r) ← push_call_frame (Strands.MkClosure cell (Some (max_reg (pdata p)))) self (f_base f + a + off) a (b - off) r;
      if rc =? -2 then Some (false, uexec_throw UP_OOMERROR (lit "function call: call depth limit reached") r)
      else if negb (rc =? 0) then Some (false, uexec_throw UP_OOMERROR (lit "function call: out of memory pushing a call frame") r)
      else s ← ustrand_store_nargs (negb (arity_prologue (pdata p) =? 0)) (nparams (pdata p)) (max_reg (pdata p)) (f_base f + a + off) (b - off) (x_stk (r_x r));
           Some (true, on_x (x_set_stk s) r)).
  { unfold do_call. cbn zeta. rewrite Hn. rewrite (proj2 (Z.ltb_ge (b - off) 0)) by lia. unfold top_frame. rewrite (in_top _ _ _ Hi). cbn [mbind option_bind].
    rewrite Hcv. cbn [mbind option_bind as_closure]. rewrite Hcl. cbn [mbind option_bind]. rewrite Hcl. cbn [mbind option_bind]. rewrite Hself. cbn [mbind option_bind]. by rewrite Hp. }
  rewrite Hcall. split; [|split].
  - intros ->. unfold arity_error_proto. by eexists.
  - intros Hwc. rewrite Hwc. destruct (in_mid _ _ _ Hi) as [[Hclos Hvo] Hk Hco Hu]. assert (Hvp : verified p) by (by apply (Hclos cell cl)).
    destruct (verified_bytes p Hvp) as [Hpm Hpn]. unfold is_byte in Hpm, Hpn. pose proof (base_bound _ _ _ Hi) as Hbb. pose proof (window f q r (max_reg (pdata q)) Hi ltac:(lia)) as Hwin.
    destruct (read_args_ok (Z.to_nat (b - off)) (f_base f + a + off) (s_stack (x_stk (r_x r)))) as [args Hargs]; [lia|unfold stack_cap in Hwin; lia|].
    destruct (read_args_at _ _ _ _ Hargs) as [Hlen Hat']. rewrite Z2Nat.id in Hlen, Hat' by done. unfold push_call_frame.
    destruct (v_grant (r_v r)) as [ok1 v1]. destruct (v_block v1) as [block v2]. set (ucl := Strands.MkClosure cell (Some (max_reg (pdata p)))).
    destruct (push_frame_spec ok1 block ucl self (f_base f + a + off) a (b - off) (x_stk (r_x r)) (k_swf _ Hk)) as (rc & s & E & Hs & Hcase); [lia|lia|cbn; lia|cbn; lia|].
    rewrite E. cbn [mbind option_bind]. assert (Hself' : (if off =? 2 then get_reg (a + 1) r else Some UV_NIL) = Some self) by (subst off; by destruct (negb _)).
    assert (Hbad : forall msg, s_frames s = x_frames (r_x r) -> x_unwind (r_x (uexec_throw UP_OOMERROR msg (on_x (x_set_stk s) (set_v v2 r)))) = UUNWIND_THROW /\
      x_frames (r_x (uexec_throw UP_OOMERROR msg (on_x (x_set_stk s) (set_v v2 r)))) = x_frames (r_x r)).
    { intros msg Hf. unfold uexec_throw. destruct (new_exception _ _ _ _) as [e w]. by split. }
    destruct Hcase as [(-> & Hpu)|[(-> & -> & _)|(-> & _ & Hf & _)]].
    + cbn [Z.eqb negb]. pose proof (pu_frames _ _ _ _ _ _ _ Hpu) as Hfr. cbn [ucl cl_max_reg] in Hfr.
      pose proof (w_windows _ Hs) as Hww. rewrite Forall_forall in Hww. destruct (Hww (MkFrame ucl (Some 0) (f_base f + a + off) a false self)) as [_ Hcap].
      { rewrite Hfr. apply elem_of_app. right. by left. }
      cbn [f_base f_closure ucl cl_max_reg default] in Hcap. change (x_stk (r_x (on_x (x_set_stk s) (set_v v2 r)))) with s.
      destruct (store_nargs_ok (negb (arity_prologue (pdata p) =? 0)) (nparams (pdata p)) (max_reg (pdata p)) (f_base f + a + off) (b - off) s) as (s2 & Est & Hs2); [done|lia|lia|done|].
      rewrite Est. cbn [mbind option_bind]. exists true. eexists. exists args, self. split; [done|]. split; [done|]. split; [exact Hself'|]. cbn zeta. cbn [r_x on_x x_set_stk x_stk].
      assert (Hf2 : s_frames s2 = s_frames s) by (by destruct Hs2 as [-> |(l & -> & _)]). unfold x_frames at 1, get_reg, top_frame, x_frames. cbn [r_x on_x x_set_stk x_stk]. rewrite Hf2, Hfr.
      split; [done|]. split.
      * intros i Hir. rewrite last_snoc. cbn [mbind option_bind f_base].
        apply (window_read p args (f_base f + a + off) s s2 (b - off)); try done; try lia.
        -- intros j Hj. rewrite Hat' by done. destruct (read_is_Some (s_stack (x_stk (r_x r))) (f_base f + a + off + j)) as [v Hrd]; [unfold stack_cap, zlen in Hwin; lia|].
           rewrite Hrd. apply (pu_regs _ _ _ _ _ _ _ Hpu); [lia|done].
        -- intros j Hj. apply (pu_window _ _ _ _ _ _ _ Hpu). cbn. lia.
      * intros j Hj. pose proof (in_top _ _ _ Hi) as Htop. unfold x_frames in Htop. rewrite Htop. cbn [mbind option_bind]. destruct (read_is_Some (s_stack (x_stk (r_x r))) (f_base f + j)) as [v Hrd]; [unfold stack_cap, zlen in Hwin; lia|].
        rewrite Hrd. assert (Hs1 : read (s_stack s) (f_base f + j) = Some v) by (apply (pu_regs _ _ _ _ _ _ _ Hpu); [lia|done]).
        unfold ustrand_store_nargs in Est. destruct (_ && (nparams (pdata p) <=? _)) eqn:Ec; [|by injection Est as <-].
        pose proof (regs_cap_bound _ (w_regs _ Hs)). zbool. rewrite u32_small in Est by lia. destruct (store _ _ _) as [l|] eqn:El; [|done]. injection Est as <-. cbn [set_regs s_stack].
        rewrite (read_store _ _ _ _ _ El). by rewrite decide_False by lia.
    + cbn [Z.eqb]. exists false. eexists. exists args, self. split; [done|]. split; [done|]. split; [exact Hself'|]. by apply Hbad.
    + cbn [Z.eqb negb]. exists false. eexists. exists args, self. split; [done|]. split; [done|]. split; [exact Hself'|]. by apply Hbad.
  - intros r2 g x v Hm Hf Hret Hbd Hown Hx. assert (Hl : last (x_frames (r_x r2)) = Some g) by (by rewrite Hf, last_snoc).
    unfold op_ret. rewrite Hl. cbn [mbind option_bind]. unfold get_reg, top_frame in Hx. rewrite Hl in Hx. cbn [mbind option_bind] in Hx. unfold reg_of. rewrite Hx.
    cbn [mbind option_bind]. rewrite Hown. destruct (return_ok v (r_x r2) g (m_kwf _ Hm) Hl Hown) as (s & _ & _ & _ & Hfr & _ & _ & Hcase).
    rewrite Hf in Hfr. apply app_inj_tail in Hfr as [Hfr _].
    destruct Hcase as [(? & _)|[(_ & Hnil & _)|(_ & g1 & l & Hg1 & Hst & E & _)]]; [congruence| |].
    { pose proof (in_top _ _ _ Hi) as Ht. by rewrite Hfr, Hnil in Ht. }
    rewrite E. cbn [mbind option_bind]. eexists. split; [done|]. split; [by symmetry|]. rewrite <- Hfr, (in_top _ _ _ Hi) in Hg1. injection Hg1 as <-.
    unfold get_reg, top_frame, x_frames. cbn [r_x set_x on_x x_set_stk x_stk set_regs s_frames s_stack]. rewrite <- Hfr. rewrite (in_top _ _ _ Hi). cbn [mbind option_bind].
    rewrite (read_store _ _ _ _ _ Hst), Hret. by rewrite decide_True.
Qed.

(** What a native waited for is delivered where its call puts its result:
    the slot asked for while the call runs is the register the call names,
    and entering the strand with nothing pending writes the payload there. *)
Theorem payload_lands_in_call_register f q pc r i a : in_frame f q r -> f_pc f = Some (pc + 1) -> 0 <= pc ->
  read (v_items (instructions (pdata q))) pc = Some i -> uinstr_opcode i = Some OP_CALL -> uinstr_a i = a -> reg_in q a ->
  exists slot, ustrand_want_payload r = Some (Some slot) /\
    forall r2, in_frame f q r2 -> x_unwind (r_x r2) = UUNWIND_NONE ->
      exists r3, enter slot r2 = Some (true, r3) /\ get_reg a r3 = Some (x_transfer (r_x r2)) /\ x_transfer (r_x r3) = UV_NIL.
Proof.
  intros Hi Hpc Hpos Hr Hop Hia Ha. pose proof (base_bound _ _ _ Hi) as Hbb. destruct (in_code _ _ _ Hi) as [_ Hv]. destruct (verified_bytes _ Hv) as [Hmr _]. unfold is_byte in Hmr.
  unfold ustrand_want_payload, top_frame. rewrite (in_top _ _ _ Hi), (proto_top f q r Hi), Hpc. rewrite (proj2 (Z.leb_gt (pc + 1) 0)) by lia.
  replace (pc + 1 - 1) with pc by lia. rewrite Hr. cbn [mbind option_bind]. rewrite bool_decide_true, Hia by done. eexists. split; [done|].
  intros r2 Hi2 Hu. pose proof (window f q r2 a Hi2 Ha) as Hw. rewrite u32_small by lia. unfold enter.
  change (x_unwind (r_x (on_x (x_set_state USTRAND_RUNNING) r2))) with (x_unwind (r_x r2)). rewrite Hu, bool_decide_true by done. cbn [negb].
  rewrite (proj2 (Z.eqb_neq (f_base f + a + 1) 0)) by lia. cbn zeta. replace (f_base f + a + 1 - 1) with (f_base f + a) by lia. rewrite u32_small by lia.
  change (x_stk (r_x (on_x (x_set_state USTRAND_RUNNING) r2))) with (x_stk (r_x r2)). rewrite (proj2 (Z.ltb_lt _ _) (proj2 Hw)).
  change (x_transfer (r_x (on_x (x_set_state USTRAND_RUNNING) r2))) with (x_transfer (r_x r2)).
  destruct (store_is_Some (s_stack (x_stk (r_x r2))) (f_base f + a) (x_transfer (r_x r2))) as (l & El & _); [done|]. rewrite El. cbn [mbind option_bind]. eexists. split; [done|].
  split; [|done]. unfold get_reg, top_frame, x_frames. cbn. pose proof (in_top _ _ _ Hi2) as Ht. unfold x_frames in Ht. rewrite Ht. cbn [mbind option_bind].
  rewrite (read_store _ _ _ _ _ El). by rewrite decide_True.
Qed.

(** ** Preemption *)

(** The instruction about to be fetched. *)
Definition fetching (d : dst) : option Z := f ← top_frame (d_run d); pc ← f_pc f; p ← proto_of (d_run d) f; read (v_items (instructions (pdata p))) pc.

(** It is a jump to an earlier instruction. *)
Definition jumps_back (d : dst) : bool :=
  match fetching d with Some i => bool_decide (uinstr_opcode i = Some OP_JMP) && (uinstr_bx i <? UEXEC_JMP_BIAS) | None => false end.

(** Backward jumps among the next [fuel] instructions. *)
Fixpoint backward_jumps (fuel : nat) (d : dst) : Z :=
  match fuel with
  | O => 0
  | S fuel =>
      match dispatch_step d with
      | Some (go, d') => Z.b2z (jumps_back d) + (if go : bool then backward_jumps fuel d' else 0)
      | None => 0
      end
  end.

Lemma op_yield_budget d go d' : op_yield d = Some (go, d') -> d_budget d' = d_budget d.
Proof.
  unfold op_yield. destruct (negb _); [by intros [= _ <-]|]. destruct (if _ =? _ then _ else _) as [[u r]|]; [|done]. cbn [mbind option_bind].
  destruct (_ && _); by intros [= _ <-].
Qed.

Lemma op_jmp_budget bx d go d' : op_jmp bx d = Some (go, d') ->
  if bx <? UEXEC_JMP_BIAS then d_budget d' = (fun n => u32 (n - 1)) <$> d_budget d /\
    (forall n, d_budget d = Some n -> if u32 (n - 1) =? 0 then go = false /\ x_state (r_x (d_run d')) = USTRAND_READY else go = true)
  else d_budget d' = d_budget d.
Proof.
  unfold op_jmp. cbn zeta. destruct (0 <=? bx - UEXEC_JMP_BIAS) eqn:E; zbool.
  - rewrite (proj2 (Z.ltb_ge bx UEXEC_JMP_BIAS)) by lia. destruct (skip _ _) as [r|]; [|done]. cbn [mbind option_bind]. by intros [= _ <-].
  - rewrite (proj2 (Z.ltb_lt bx UEXEC_JMP_BIAS)) by lia. destruct (skip _ _) as [r|]; [|done]. cbn [mbind option_bind].
    destruct (d_budget d) as [n|]; [|by intros [= _ <-]]. destruct (u32 (n - 1) =? 0) eqn:En; intros [= <- <-]; (split; [done|]); intros m [= <-]; by rewrite En.
Qed.

Lemma step_budget d go d' : dispatch_step d = Some (go, d') ->
  if jumps_back d then d_budget d' = (fun n => u32 (n - 1)) <$> d_budget d /\
    (forall n, d_budget d = Some n -> if u32 (n - 1) =? 0 then go = false /\ x_state (r_x (d_run d')) = USTRAND_READY else go = true)
  else d_budget d' = d_budget d.
Proof.
  unfold dispatch_step, jumps_back, fetching. destruct (top_frame (d_run d)) as [f|]; [|done]. cbn [mbind option_bind]. destruct (f_pc f) as [pc|]; [|done]. cbn [mbind option_bind].
  destruct (proto_of (d_run d) f) as [p|]; [|done]. cbn [mbind option_bind]. destruct (read _ pc) as [i|]; [|done]. cbn [mbind option_bind].
  destruct (skip 1 (d_run d)) as [r|]; [|done]. cbn [mbind option_bind]. destruct (uinstr_opcode i) as [op|] eqn:Eop.
  2:{ rewrite bool_decide_false by done. cbn [andb]. destruct (throw _ _ _) as [[g r2]|]; [|done]. cbn [mbind option_bind]. by intros [= _ <-]. }
  destruct (decide (op = OP_JMP)) as [-> |Hne].
  { rewrite bool_decide_true by done. cbn [andb]. intros E. exact (op_jmp_budget _ _ _ _ E). }
  rewrite bool_decide_false by congruence. cbn [andb].
  destruct (decide (op = OP_YIELD)) as [-> |Hy]; [intros E; exact (op_yield_budget _ _ _ E)|]. destruct (decide (op = OP_EXTARG)) as [-> |He]; [by intros [= _ <-]|].
  destruct op; try done; (destruct (exec_op _ _ _ _) as [[g r2]|]; [|done]); cbn [mbind option_bind]; by intros [= _ <-].
Qed.

(** C11 preemption: an activation given a budget of [n] executes at most [n]
    backward jumps, and if it gets to the [n]th, it leaves the strand READY
    right there; nothing but a backward jump consumes the budget. *)
Theorem budget_bounds_backward_jumps fuel : forall d n, d_budget d = Some n -> 0 < n < 2 ^ 32 ->
  backward_jumps fuel d <= n /\
  (backward_jumps fuel d = n -> exists d', dispatch fuel d = Some (true, d') /\ x_state (r_x (d_run d')) = USTRAND_READY) /\
  (backward_jumps fuel d < n -> forall back d', dispatch fuel d = Some (back, d') -> d_budget d' = Some (n - backward_jumps fuel d)).
Proof.
  induction fuel as [|fuel IH]; intros d n Hd Hn; cbn [backward_jumps dispatch].
  { split; [lia|]. split; [lia|]. intros _ back d' [= _ <-]. rewrite Hd. f_equal. lia. }
  destruct (dispatch_step d) as [[go d1]|] eqn:E; cbn [mbind option_bind]; [|split; [lia|]; split; [lia|done]]. pose proof (step_budget d go d1 E) as Hb. rewrite Hd in Hb.
  destruct (jumps_back d); cbn [Z.b2z].
  - destruct Hb as [Hb1 Hb2]. cbn in Hb1. specialize (Hb2 n eq_refl). rewrite u32_small in Hb1, Hb2 by lia. destruct (n - 1 =? 0) eqn:E0; zbool.
    + destruct Hb2 as [-> Hst]. assert (n = 1) as -> by lia. split; [lia|]. split; [intros _; by exists d1|]. lia.
    + subst go. destruct (IH d1 (n - 1) Hb1 ltac:(lia)) as (H1 & H2 & H3). split; [lia|]. split; [intros Hx; apply H2; lia|].
      intros Hlt back d' Hdd. rewrite (H3 ltac:(lia) back d' Hdd). f_equal. lia.
  - destruct go.
    + destruct (IH d1 n Hb Hn) as (H1 & H2 & H3). rewrite !Z.add_0_l. split; [lia|]. by split.
    + split; [lia|]. split; [lia|]. intros _ back d' [= _ <-]. rewrite Hb. f_equal. lia.
Qed.

End Dispatch.

(** ** A concrete VM

    No slots, no natives beyond one that counts its arguments, memory always
    there: enough to run the sample chunk of ChunkExamples.v. *)

Definition quick {A} (a : A) : act unit A := fun w x => Some (a, w, x).

#[export] Instance demo_env : VmEnv unit := {|
  v_tag_gates _ _ := 0; v_str _ _ := []; v_equal _ _ _ := false; v_cell _ _ := UCELL_OTHER;
  v_const _ k := match k with K_INT i => UV_INT i | _ => UV_NIL end;
  v_names _ _ := Some (fun _ => 9%nat); v_realm_globals _ := Some 1%nat; v_booting _ := None; v_observe _ v := v;
  v_foreign _ _ := UV_NIL; v_set_foreign _ _ v := v; v_grant v := (true, v); v_block v := (Some 5%nat, v);
  v_new_closure w := (Some (fresh (dom (d_clo w))), d_v w); v_new_upval x v := (Some (fresh (dom (s_upvals (x_stk x)))), v);
  v_exception _ _ _ v := (UV_OBJ 2, v); v_position _ _ := []; v_concat _ _ v := (None, v);
  v_slot_call _ _ _ := quick TMiss; v_native _ _ l := quick (Some (UV_INT (zlen l))); v_slot_get _ _ _ _ _ := quick (Some (UV_INT 7));
  v_slot_set _ _ _ _ _ _ := quick true; v_drain := quick tt; v_ndirty _ := 0; v_run_queue_empty _ := true; v_isr_pending _ := false; v_is_spare _ := false;
  v_spawn _ := quick None; v_strand_dead _ _ := true; v_join _ v := v; v_run_inline _ := quick tt; v_waituntil _ := quick 0;
  v_install _ _ _ _ _ := quick true; v_change_event _ _ := quick None; v_tag_new v := (None, v); v_fire_enter _ := quick tt; v_fire_leave _ := quick tt |}.

Lemma quick_visits (w : world unit) x : kwf (x_stk x) -> x_unwind x <> UUNWIND_JUMP -> visits w x w x.
Proof. intros Hk Hu. split; try done. apply Hk. Qed.

#[export] Instance demo_laws : VmLaws (V := unit).
Proof.
  refine {| v_ok := fun _ => True |}; try done;
    try (intros; eexists _, _, _; split; [done|]; split; [done|]; by apply quick_visits).
  - intros w _. split; [done|]. intros c [= <-]. apply not_elem_of_dom, is_fresh.
  - intros x v _. split; [done|]. intros u [= <-]. apply not_elem_of_dom, is_fresh.
  - intros t w x Hw Hs. exists w, x. split; [done|]. split; [done|]. split; [reflexivity|done].
Defined.

Definition root : UProto := c_root sample_chunk.

Lemma root_verified : verified root.
Proof.
  change (verified (c_root sample_chunk)).
  apply (loaded_verified (A := stdlib_alloc) sample_bytes empty_heap sample_result sample_chunk);
    [apply sample_bytes_ok|vm_compute; discriminate|apply sample_loads|apply sample_chunk_eq].
Qed.

#[local] Opaque root.

Definition demo_clo : Clo := MkClo (Some root) [] 0 0 None.
Definition demo_stack : ustack :=
  match ustrand_push_frame true (Some 6%nat) (Strands.MkClosure 1 (Some (max_reg (pdata root)))) UV_NIL 0 0 (new_stack 0) with Some (_, s) => s | None => new_stack 0 end.
Definition demo_start : urun := MkRun (MkWorld (<[1%nat := demo_clo]> ∅) tt) (new_strand demo_stack None) RCleared URBI_OK.

(** The chunk's code returns the closure it made; the strand dies of it. *)
Example sample_runs : (fun '(back, d) => (back, x_state (r_x (d_run d)), x_result (r_x (d_run d)), length (x_frames (r_x (d_run d))))) <$> uexec_run_inner 10 0 0 0 demo_start
  = Some (true, USTRAND_DEAD, UV_CELL 2, O).
Proof. vm_compute. reflexivity. Qed.

Lemma demo_clos : clos_ok (<[1%nat := demo_clo]> ∅).
Proof.
  intros c cl p. destruct (decide (c = 1%nat)) as [-> |Hne]; [|by rewrite lookup_insert_ne, lookup_empty by done].
  rewrite lookup_insert_eq. intros Hc Hp. apply (inj Some) in Hc. rewrite <- Hc in Hp. change (Some root = Some p) in Hp. apply (inj Some) in Hp. rewrite <- Hp. exact root_verified.
Qed.

Lemma demo_settled : settled demo_start /\ x_frames (r_x demo_start) <> [].
Proof.
  destruct (first_frame (V := unit) true (Some 6%nat) 0 1 demo_clo root UV_NIL (<[1%nat := demo_clo]> ∅) tt None RCleared URBI_OK) as (rc & s & E & Hok & Hs);
    [reflexivity|reflexivity|apply demo_clos|done|].
  specialize (Hok eq_refl ltac:(discriminate)). subst rc. destruct (Hs eq_refl) as [H1 H2].
  assert (Es : s = demo_stack) by (unfold demo_stack; rewrite E; reflexivity). rewrite Es in H1, H2. exact (conj H1 H2).
Qed.

Lemma verified_code_runs_witness : exists back d, uexec_run_inner 3 0 0 0 demo_start = Some (back, d) /\ if back : bool then settled (d_run d) else runnable d.
Proof. apply (verified_code_runs 3 0 0 0 demo_start); [apply demo_settled|apply demo_settled]. Defined.

Lemma loaded_bytes_run_safely_witness : exists s back d,
  ustrand_push_frame true (Some 6%nat) (Strands.MkClosure 1 (Some (max_reg (pdata (c_root sample_chunk))))) UV_NIL 0 0 (new_stack 0) = Some (0, s) /\
  uexec_run_inner 10 0 0 0 (MkRun (MkWorld (<[1%nat := MkClo (Some (c_root sample_chunk)) [] 0 0 None]> ∅) tt) (new_strand s None) RCleared URBI_OK) = Some (back, d).
Proof.
  destruct (loaded_bytes_run_safely (V := unit) (A := stdlib_alloc) sample_bytes empty_heap sample_result sample_chunk ∅ tt 1 [] true (Some 6%nat) 0 UV_NIL None RCleared URBI_OK)
    as (rc & s & E & Hok & Hrun).
  - apply sample_bytes_ok.
  - vm_compute. discriminate.
  - apply sample_loads.
  - apply sample_chunk_eq.
  - intros c cl p. by rewrite lookup_empty.
  - done.
  - specialize (Hok eq_refl ltac:(discriminate)). subst rc. destruct (Hrun eq_refl 10%nat 0 0 0) as (back & d & E2 & _). exists s, back, d. split; [exact E|exact E2].
Defined.

(** After one instruction: R0 holds the new closure, at the slot access. *)
Definition demo_called : urun := match dispatch_step (MkD demo_start 0 None 0) with Some (_, d) => d_run d | None => demo_start end.
Definition demo_frame : UFrame := at_pc 2 (MkFrame (Strands.MkClosure 1 (Some (max_reg (pdata root)))) (Some 0) 0 0 false UV_NIL).

Lemma demo_called_at : at_instr demo_frame root 1 demo_called.
Proof.
  destruct (dispatch_step_ok (MkD demo_start 0 None 0)) as (go & d & E & Hd); [apply settled_runnable; apply demo_settled|].
  assert (Ed : d_run d = demo_called) by (unfold demo_called; by rewrite E).
  assert (Hgo : go = true) by (enough (Some go = Some true) by congruence; transitivity (fst <$> dispatch_step (MkD demo_start 0 None 0)); [by rewrite E|vm_compute; reflexivity]). subst go.
  destruct Hd as (f & q & pc & Hi & _). rewrite Ed in Hi. split; [|reflexivity|].
  - assert (Hf : f = demo_frame).
    { pose proof (in_top _ _ _ Hi) as Hl. enough (Some f = Some demo_frame) by congruence. rewrite <- Hl. vm_compute. reflexivity. }
    assert (Hq : q = root).
    { pose proof (in_proto _ _ _ Hi) as Hp. rewrite Hf in Hp. enough (Some q = Some root) by congruence. rewrite <- Hp. vm_compute. reflexivity. }
    by rewrite Hf, Hq in Hi.
  - exists 1%nat. vm_compute. by split_and!.
Qed.

Definition child_clo : Clo := match clo_of demo_called 2 with Some cl => cl | None => demo_clo end.
Definition child_proto : UProto := match c_proto child_clo with Some p => p | None => root end.

Lemma call_convention_witness : exists ok r1, do_call 0 1 0 demo_called = Some (ok, r1) /\
  if ok : bool then length (x_frames (r_x r1)) = 2%nat /\ get_reg 0 r1 = Some UV_NIL else x_unwind (r_x r1) = UUNWIND_THROW.
Proof.
  destruct (call_convention demo_frame root 1 demo_called 0 1 0 2 child_clo child_proto demo_called_at) as (_ & Hc & _).
  - vm_compute. split; discriminate.
  - done.
  - vm_compute. discriminate.
  - vm_compute. reflexivity.
  - vm_compute. reflexivity.
  - vm_compute. reflexivity.
  - vm_compute. discriminate.
  - destruct (Hc eq_refl) as (ok & r1 & args & self & E & Ha & _ & H1). exists ok, r1. split; [exact E|]. destruct ok; [|apply H1]. destruct H1 as (Hf & Hr & _).
    split; [rewrite Hf, length_app; reflexivity|]. rewrite Hr; [|vm_compute; split; discriminate]. injection Ha as <-. reflexivity.
Defined.

(** [LOADNIL r0; JMP -1; RET r0]: goes round until it is preempted. *)
Definition spin : UProto :=
  MkProto (MkPData 0 0 0 0 0 vnil true (Vec None [uinstr_enc_abc OP_LOADNIL 0 0 0; uinstr_enc_abx OP_JMP 0 32767; ret_r0] 3) None vnil 0 None None 0 0 false) [].
Definition spin_start : dst :=
  MkD (MkRun (MkWorld {[1%nat := MkClo (Some spin) [] 0 0 None]} tt) (new_strand demo_stack None) RCleared URBI_OK) 0 (Some 3) 0.

Example spin_goes_round : (backward_jumps 10 spin_start, (fun '(back, d) => (back, d_budget d)) <$> dispatch 10 spin_start) = (3, Some (true, Some 0)).
Proof. vm_compute. reflexivity. Qed.

Lemma budget_bounds_backward_jumps_witness : exists d', dispatch 10 spin_start = Some (true, d') /\ x_state (r_x (d_run d')) = USTRAND_READY.
Proof.
  destruct (budget_bounds_backward_jumps 10 spin_start 3 eq_refl ltac:(done)) as (_ & H & _). apply H. vm_compute. reflexivity.
Defined.

(** [LOADNIL r0; UNWIND_TO 0 -> 0; RET r0]: both passes of the verifier let
    it through, and no budget ever stops it. *)
Definition hog : UProto :=
  MkProto (MkPData 0 0 0 0 0 vnil true (Vec None [uinstr_enc_abc OP_LOADNIL 0 0 0; uinstr_enc_abx OP_UNWIND_TO 0 0; ret_r0] 3) None vnil 0 None None 0 0 false) [].
Definition hog_at (d : dst) (n : nat) : option (bool * dst) := Nat.iter n (fun m => '(go, d) ← m; if go : bool then dispatch_step d else None) (Some (true, d)).
Definition hog_start : dst :=
  MkD (MkRun (MkWorld {[1%nat := MkClo (Some hog) [] 0 0 None]} tt) (new_strand demo_stack None) RCleared URBI_OK) 0 (Some 1) 0.
Definition hog_again : dst := match hog_at hog_start 2 with Some (_, d) => d | None => hog_start end.

Definition hog_half (d : dst) : dst := match dispatch_step d with Some (_, d) => d | None => d end.

Lemma hog_steps : dispatch_step hog_start = Some (true, hog_half hog_start) /\ dispatch_step (hog_half hog_start) = Some (true, hog_again).
Proof. split; vm_compute; reflexivity. Qed.
Lemma hog_repeats : dispatch_step hog_again = Some (true, hog_half hog_again) /\ dispatch_step (hog_half hog_again) = Some (true, hog_again).
Proof. split; vm_compute; reflexivity. Qed.
#[local] Opaque hog_start hog_again hog_half.

(** Bytecode that verifies and never gives its slice back: an UNWIND_TO may
    go backwards, and only OP_JMP counts. *)
Theorem unwind_loop_is_not_preempted : urbi_chunk_decode_verify hog = Some OK /\
  (exists h, urbi_chunk_verify_bounds (A := stdlib_alloc) hog empty_heap = Some (OK, h)) /\
  forall fuel, exists d, dispatch fuel hog_start = Some (false, d).
Proof.
  split; [by vm_compute|]. split; [eexists; by vm_compute|].
  assert (H1 : forall d d1 d2 fuel, dispatch_step d = Some (true, d1) -> dispatch_step d1 = Some (true, d2) -> dispatch (S (S fuel)) d = dispatch fuel d2).
  { intros d d1 d2 fuel E1 E2. cbn [dispatch]. rewrite E1. cbn [mbind option_bind]. rewrite E2. done. }
  assert (Hone : forall d d1, dispatch_step d = Some (true, d1) -> dispatch 1 d = Some (false, d1)) by (intros d d1 E1; cbn [dispatch]; by rewrite E1).
  destruct hog_steps as [S1 S2], hog_repeats as [S3 S4].
  assert (Hloop : forall fuel, (exists d, dispatch fuel hog_again = Some (false, d)) /\ exists d, dispatch (S fuel) hog_again = Some (false, d)).
  { induction fuel as [|fuel [IH1 IH2]]; [split; [exists hog_again; reflexivity|eexists; apply Hone; exact S3]|]. split; [exact IH2|]. rewrite (H1 _ _ _ fuel S3 S4). exact IH1. }
  intros [|[|fuel]]; [exists hog_start; reflexivity|eexists; apply Hone; exact S1|]. rewrite (H1 _ _ _ fuel S1 S2). exact (proj1 (Hloop fuel)).
Qed.

End Dispatch.
