(* ===== verification/Collector.v ===== *)
(** * The collector (src/src/rt/ugc.c)

    A cell is a number; its [marked] byte is kept in a map of its own, so
    that marking leaves the other fields visibly alone, and a cell absent from
    it is white.  The hooks a VM registers are the arguments: the sequence of
    [ugc_mark] calls [mark_fixed] makes, the one [trace] makes for a cell, and
    the bytes [finalize] gives back for it.  [grants] answers the allocator
    calls in order; touching a cell that does not exist is a fault. *)
From S2P Require Import Prelude.

Module Collector.

(** ** State *)

Definition UCELL_F_PINNED : Z := 0x8000.
Definition UCELL_F_RTPIN : Z := 0x4000.
Definition UCELL_F_PIN_ANY : Z := Z.lor UCELL_F_PINNED UCELL_F_RTPIN.

Record UCell := MkCell { c_size : Z; c_flags : Z }.

Record gcheap := MkHeap {
  h_all : list nat;
  h_cells : gmap nat UCell;
  h_marked : gmap nat Z;
  h_gray : list nat;               (* gray[0 .. gray_len), last pushed first *)
  h_gray_cap : Z;
  h_overflow : bool;
  h_calls : nat }.

Record acct := MkAcct {
  bytes_live : Z;
  bytes_since : Z;
  threshold : Z;
  raw_live : Z;
  pace_base : Z;
  cycles : Z;
  cells_live : Z;
  pause_ratio : Z;
  in_collect : bool;
  collect_requested : bool;
  heap_budget : Z;
  chunk_bytes : Z }.

Record UGc := MkGc { g_heap : gcheap; g_acct : acct }.

Record UGcRoots := MkRoots {
  mark_fixed : list (option nat);
  trace : nat -> list (option nat);
  finalize : nat -> Z }.

Definition marks (h : gcheap) (c : nat) : Z := default 0 (h_marked h !! c).

Definition set_mark (c : nat) (k : Z) (h : gcheap) : gcheap :=
  MkHeap (h_all h) (h_cells h) (<[c := k]> (h_marked h)) (h_gray h) (h_gray_cap h) (h_overflow h) (h_calls h).
Definition set_gray (l : list nat) (cap : Z) (h : gcheap) : gcheap :=
  MkHeap (h_all h) (h_cells h) (h_marked h) l cap (h_overflow h) (h_calls h).
Definition set_overflow (b : bool) (h : gcheap) : gcheap :=
  MkHeap (h_all h) (h_cells h) (h_marked h) (h_gray h) (h_gray_cap h) b (h_calls h).
Definition set_cells (l : list nat) (m : gmap nat UCell) (h : gcheap) : gcheap :=
  MkHeap l m (h_marked h) (h_gray h) (h_gray_cap h) (h_overflow h) (h_calls h).
Definition called (h : gcheap) : gcheap :=
  MkHeap (h_all h) (h_cells h) (h_marked h) (h_gray h) (h_gray_cap h) (h_overflow h) (S (h_calls h)).

Section Gc.
Context (grants : nat -> bool).

(** ** Marking *)

(** [g->gray[g->gray_len++] = c]. *)
Definition push_gray (c : nat) (h : gcheap) : option gcheap :=
  if zlen (h_gray h) <? h_gray_cap h then Some (set_gray (c :: h_gray h) (h_gray_cap h) h) else None.

Definition ugc_mark (c : option nat) (h : gcheap) : option gcheap :=
  match c with
  | None => Some h
  | Some c =>
      _ ← h_cells h !! c;
      if negb (marks h c =? 0) then Some h
      else
        let h := set_mark c 1 h in
        if zlen (h_gray h) =? h_gray_cap h then
          let nc := if h_gray_cap h =? 0 then 64 else u32 (h_gray_cap h * 2) in
          let ok := grants (h_calls h) in
          let h := called h in
          if ok then push_gray c (set_gray (h_gray h) nc h) else Some (set_overflow true h)
        else push_gray c h
  end.

Fixpoint mark_each (l : list (option nat)) (h : gcheap) : option gcheap :=
  match l with [] => Some h | c :: l => h ← ugc_mark c h; mark_each l h end.

Definition pinned (h : gcheap) (c : nat) : bool :=
  match h_cells h !! c with Some x => negb (Z.land (c_flags x) UCELL_F_PIN_ANY =? 0) | None => false end.

(** The loop over the pinned cells. *)
Fixpoint mark_pinned (l : list nat) (h : gcheap) : option gcheap :=
  match l with
  | [] => Some h
  | c :: l => h ← (if pinned h c then ugc_mark (Some c) h else Some h); mark_pinned l h
  end.

Context (R : UGcRoots).

Definition blacken (c : nat) (h : gcheap) : option gcheap :=
  h ← mark_each (trace R c) h; Some (set_mark c 2 h).

(** [while (g->gray_len)]. *)
Fixpoint drain (fuel : nat) (h : gcheap) : option gcheap :=
  match h_gray h, fuel with
  | [], _ => Some h
  | _, O => None
  | c :: gray, S fuel => h ← blacken c (set_gray gray (h_gray_cap h) h); drain fuel h
  end.

(** The fallback over the whole heap, for cells the gray stack had no room for. *)
Fixpoint rescan (l : list nat) (h : gcheap) : option gcheap :=
  match l with
  | [] => Some h
  | c :: l => h ← (if marks h c =? 1 then blacken c h else Some h); rescan l h
  end.

Fixpoint mark_loop (fuel : nat) (h : gcheap) : option gcheap :=
  match fuel with
  | O => None
  | S fuel =>
      h ← drain (S (length (h_all h))) h;
      if negb (h_overflow h) then Some h
      else h ← rescan (h_all h) (set_overflow false h); mark_loop fuel h
  end.

(** ** Sweep *)

(** The kept cells, what is left of the heap, the live bytes and count, and [raw_live]. *)
Fixpoint sweep (l : list nat) (h : gcheap) (live n raw : Z) : option (list nat * gcheap * Z * Z * Z) :=
  match l with
  | [] => Some ([], h, live, n, raw)
  | c :: l =>
      x ← h_cells h !! c;
      if negb (marks h c =? 0) then
        '(kept, h, live, n, raw) ← sweep l (set_mark c 0 h) (u64 (live + c_size x)) (u32 (n + 1)) raw;
        Some (c :: kept, h, live, n, raw)
      else sweep l (set_cells (h_all h) (delete c (h_cells h)) h) live n (u64 (raw - finalize R c))
  end.

Definition ugc_collect (g : UGc) : option UGc :=
  let a := g_acct g in
  if in_collect a then Some g
  else
    let h := set_overflow false (set_gray [] (h_gray_cap (g_heap g)) (g_heap g)) in
    h ← mark_each (mark_fixed R) h;
    h ← mark_pinned (h_all h) h;
    h ← mark_loop (S (length (h_all h))) h;
    '(kept, h, live, n, raw) ← sweep (h_all h) h 0 0 (raw_live a);
    let live := u64 (live + raw) in
    Some (MkGc (set_cells kept (h_cells h) h)
      (MkAcct live 0 (threshold a) raw live (u32 (cycles a + 1)) n (pause_ratio a) false false (heap_budget a) (chunk_bytes a))).

(** ** Pacing and allocation *)

Definition ugc_should_collect (a : acct) : bool :=
  if collect_requested a then true
  else
    let limit := u64 (pace_base a * pause_ratio a) / 100 in
    let limit := if limit <? threshold a then threshold a else limit in
    let limit :=
      if heap_budget a =? 0 then limit
      else
        let soft := heap_budget a / 4 * 3 in
        let held := u64 (pace_base a + chunk_bytes a) in
        let room := if held <? soft then soft - held else 0 in
        let floor := heap_budget a / 32 in
        let room := if room <? floor then floor else room in
        if room <? limit then room else limit in
    limit <? bytes_since a.

Definition ugc_maybe_collect (g : UGc) : option UGc :=
  if ugc_should_collect (g_acct g) then ugc_collect g else Some g.

Definition request_collect (a : acct) : acct :=
  MkAcct (bytes_live a) (bytes_since a) (threshold a) (raw_live a) (pace_base a) (cycles a) (cells_live a) (pause_ratio a)
    (in_collect a) true (heap_budget a) (chunk_bytes a).

(** Raw bytes gained ([d > 0]) or given back; only a gain counts in [bytes_since]. *)
Definition account_raw (d : Z) (a : acct) : acct :=
  MkAcct (u64 (bytes_live a + d)) (if d <? 0 then bytes_since a else u64 (bytes_since a + d)) (threshold a) (u64 (raw_live a + d))
    (pace_base a) (cycles a) (cells_live a) (pause_ratio a) (in_collect a) (collect_requested a) (heap_budget a) (chunk_bytes a).

Definition ask (g : UGc) : bool * UGc := (grants (h_calls (g_heap g)), MkGc (called (g_heap g)) (g_acct g)).

(** The result: whether a block was granted. *)
Definition ugc_raw_alloc (nbytes : Z) (g : UGc) : bool * UGc :=
  let '(ok, g) := ask g in
  (ok, MkGc (g_heap g) (if ok then account_raw nbytes (g_acct g) else request_collect (g_acct g))).

Definition ugc_raw_realloc (old nbytes : Z) (g : UGc) : bool * UGc :=
  let '(ok, g) := ask g in
  (ok, MkGc (g_heap g) (if ok then account_raw (nbytes - old) (g_acct g) else request_collect (g_acct g))).

(** [null]: freeing a null pointer does nothing. *)
Definition ugc_raw_free (null : bool) (nbytes : Z) (g : UGc) : UGc :=
  if null then g else MkGc (g_heap g) (account_raw (- nbytes) (g_acct g)).

(** The new cell goes to the front of the list; [c] is its address. *)
Definition link_cell (c : nat) (nbytes : Z) (g : UGc) : UGc :=
  let h := g_heap g in let a := g_acct g in
  MkGc (MkHeap (c :: h_all h) (<[c := MkCell (u32 nbytes) 0]> (h_cells h)) (<[c := 0]> (h_marked h)) (h_gray h) (h_gray_cap h) (h_overflow h) (h_calls h))
    (MkAcct (bytes_live a) (u64 (bytes_since a + nbytes)) (threshold a) (raw_live a) (pace_base a) (cycles a) (u32 (cells_live a + 1))
       (pause_ratio a) (in_collect a) (collect_requested a) (heap_budget a) (chunk_bytes a)).

(** [c]: where the cell goes, if the allocator grants one. *)
Definition ugc_alloc (c : nat) (nbytes : Z) (g : UGc) : option (bool * UGc) :=
  g ← ugc_maybe_collect g;
  let '(ok, g) := ask g in
  if ok : bool then Some (true, link_cell c nbytes g)
  else
    g ← ugc_collect g;
    let '(ok, g) := ask g in
    if ok : bool then Some (true, link_cell c nbytes g)
    else Some (false, MkGc (g_heap g) (request_collect (g_acct g))).

End Gc.

(** ** Tri-colour invariant *)

Section Marking.
Context (grants : nat -> bool) (R : UGcRoots) (h0 : gcheap).

(** What a collection must keep: the fixed roots, the pinned cells, and what they lead to. *)
Inductive live : nat -> Prop :=
  | live_fixed c : Some c ∈ mark_fixed R -> live c
  | live_pinned c : c ∈ h_all h0 -> pinned h0 c = true -> live c
  | live_child c d : live c -> Some d ∈ trace R c -> live d.

Record heap_ok : Prop := {
  ho_nodup : NoDup (h_all h0);
  ho_dom : forall c, c ∈ h_all h0 <-> is_Some (h_cells h0 !! c);
  ho_white : forall c, marks h0 c = 0;
  ho_fixed : forall c, Some c ∈ mark_fixed R -> c ∈ h_all h0;
  ho_closed : forall c d, c ∈ h_all h0 -> Some d ∈ trace R c -> d ∈ h_all h0;
  ho_small : zlen (h_all h0) < 2 ^ 31;
  ho_cap : 0 <= h_gray_cap h0 }.

Context (Hok : heap_ok).

Lemma live_all c : live c -> c ∈ h_all h0.
Proof. induction 1; eauto using ho_fixed, ho_closed. Qed.

Definition whites (h : gcheap) : nat := length (filter (fun c => marks h c = 0) (h_all h0)).

(** [P]: the gray cells still to be met by a scan in progress. *)
Record tri (P : nat -> Prop) (h : gcheap) : Prop := {
  t_all : h_all h = h_all h0;
  t_cells : h_cells h = h_cells h0;
  t_mark : forall c, marks h c = 0 \/ marks h c = 1 \/ marks h c = 2;
  t_nodup : NoDup (h_gray h);
  t_gray : forall c, c ∈ h_gray h -> marks h c <> 0;
  t_find : forall c, marks h c = 1 -> c ∈ h_gray h \/ h_overflow h = true \/ P c;
  t_black : forall c d, marks h c = 2 -> Some d ∈ trace R c -> marks h d <> 0;
  t_live : forall c, marks h c <> 0 -> live c;
  t_cap : zlen (h_gray h) <= h_gray_cap h }.

(** What marking may change. *)
Record grown (h h' : gcheap) : Prop := {
  gr_marks : forall c, marks h c <> 0 -> marks h' c <> 0;
  gr_whites : (whites h' <= whites h)%nat;
  gr_work : (length (h_gray h') + whites h' <= length (h_gray h) + whites h)%nat;
  gr_overflow : h_overflow h' = true -> h_overflow h = true \/ (whites h' < whites h)%nat }.

Lemma grown_refl h : grown h h.
Proof. split; auto. Qed.

Lemma grown_trans h1 h2 h3 : grown h1 h2 -> grown h2 h3 -> grown h1 h3.
Proof.
  intros [A1 A2 A3 A4] [B1 B2 B3 B4]. split; [eauto|lia|lia|].
  intros [H|H]%B4; [apply A4 in H as [H|H]; [by left|right; lia]|right; lia].
Qed.

Lemma marks_set c k h d : marks (set_mark c k h) d = if decide (d = c) then k else marks h d.
Proof. unfold marks. cbn. case_decide; subst; [by rewrite lookup_insert_eq|by rewrite lookup_insert_ne]. Qed.

Lemma whites_count c k h l : NoDup l -> c ∈ l -> marks h c = 0 -> k <> 0 ->
  S (length (filter (fun d => marks (set_mark c k h) d = 0) l)) = length (filter (fun d => marks h d = 0) l).
Proof.
  intros Hn Hc H0 Hk. induction Hn as [|d l Hd Hn IH]; [by apply elem_of_nil in Hc|]. rewrite !filter_cons, marks_set.
  apply elem_of_cons in Hc as [-> | Hc].
  - rewrite (decide_True (P := d = d)) by done. rewrite (decide_False (P := k = 0)) by done. rewrite decide_True by done.
    cbn [length]. f_equal. f_equal. apply list_filter_ext. intros x Hx. rewrite marks_set. case_decide; [congruence|done].
  - assert (d <> c) by congruence. rewrite (decide_False (P := d = c)) by done. case_decide; cbn [length]; by rewrite <- IH.
Qed.

Lemma whites_same c k h : marks h c <> 0 -> k <> 0 -> whites (set_mark c k h) = whites h.
Proof.
  intros. unfold whites. f_equal. apply list_filter_ext. intros x _. rewrite marks_set. case_decide; [subst; tauto|done].
Qed.

(** Graying the white cell [c], whether the stack has room for it or not. *)
Lemma tri_gray P h c gray cap b k : tri P h -> live c -> marks h c = 0 ->
  (gray = h_gray h /\ b = true \/ gray = c :: h_gray h /\ b = h_overflow h) -> zlen gray <= cap ->
  let h' := MkHeap (h_all h) (h_cells h) (<[c := 1]> (h_marked h)) gray cap b k in
  tri P h' /\ grown h h' /\ marks h' c <> 0.
Proof.
  intros HT Hl Hw Hg Hcap h'. destruct HT as [Ta Tc Tm Tn Tg Tf Tb Tl Tk].
  assert (Hm : forall d, marks h' d = if decide (d = c) then 1 else marks h d) by (intros; apply (marks_set c 1 h)).
  assert (Hwh : S (whites h') = whites h) by (apply (whites_count c 1 h); [apply Hok|by apply live_all|done|done]).
  split; [|split].
  - split; cbn [h' h_all h_cells h_gray h_gray_cap h_overflow]; try done.
    + intros d. rewrite Hm. case_decide; auto.
    + destruct Hg as [[-> _]|[-> _]]; [done|]. constructor; [|done]. intros H%Tg. done.
    + intros d Hd. rewrite Hm. case_decide; [done|]. destruct Hg as [[-> _]|[-> _]]; [auto|]. apply elem_of_cons in Hd as [?|?]; [done|auto].
    + intros d. rewrite Hm. case_decide as E.
      * intros _. subst d. destruct Hg as [[_ ->]|[-> _]]; [by right; left|left; by left].
      * intros H1. destruct (Tf d H1) as [?|[?|?]]; [|destruct Hg as [[_ ->]|[_ ->]]; auto|auto].
        left. destruct Hg as [[-> _]|[-> _]]; [done|by right].
    + intros d e. rewrite !Hm. case_decide; [done|]. intros H2 He. case_decide; [done|]. by apply (Tb d e).
    + intros d. rewrite Hm. case_decide; [by subst|auto].
  - split; [|lia| |].
    + intros d Hd. rewrite Hm. case_decide; [done|auto].
    + cbn [h' h_gray]. destruct Hg as [[-> _]|[-> _]]; cbn [length]; lia.
    + intros _. right. lia.
  - rewrite Hm, decide_True by done. done.
Qed.

Lemma gray_bound P h : tri P h -> zlen (h_gray h) <= zlen (h_all h0).
Proof.
  intros HT. unfold zlen. apply inj_le. apply submseteq_length, NoDup_submseteq; [apply HT|].
  intros c Hc. apply live_all, (t_live _ _ HT), (t_gray _ _ HT), Hc.
Qed.

Lemma ugc_mark_spec P h d : tri P h -> (forall c, d = Some c -> live c) ->
  exists h', ugc_mark grants d h = Some h' /\ tri P h' /\ grown h h' /\ forall c, d = Some c -> marks h' c <> 0.
Proof.
  intros HT Hd. destruct d as [c|]; [|eexists; split; [done|]; split; [done|]; split; [apply grown_refl|done]].
  specialize (Hd c eq_refl). unfold ugc_mark. destruct (proj1 (ho_dom Hok c) (live_all c Hd)) as [x Hx].
  rewrite (t_cells _ _ HT), Hx. cbn [mbind option_bind]. destruct (marks h c =? 0) eqn:Ew; cbn [negb]; zbool.
  2:{ eexists. split; [done|]. split; [done|]. split; [apply grown_refl|]. by intros ? [= <-]. }
  assert (Hfin : forall h', tri P h' /\ grown h h' /\ marks h' c <> 0 -> tri P h' /\ grown h h' /\ forall y, Some c = Some y -> marks h' y <> 0).
  { intros h' (? & ? & ?). split; [done|]. split; [done|]. by intros ? [= <-]. }
  pose proof (t_cap _ _ HT) as Hcap. pose proof (gray_bound _ _ HT) as Hb. pose proof (ho_small Hok) as Hs. pose proof (zlen_nonneg (h_gray h)) as Hz.
  cbn [set_mark h_gray h_gray_cap h_calls]. destruct (zlen (h_gray h) =? h_gray_cap h) eqn:Ef; zbool.
  - destruct (grants (h_calls h)).
    + assert (Hnc : zlen (h_gray h) < (if h_gray_cap h =? 0 then 64 else u32 (h_gray_cap h * 2))).
      { destruct (h_gray_cap h =? 0) eqn:E0; zbool; [lia|]. rewrite u32_small by lia. lia. }
      unfold push_gray. cbn [set_mark set_gray called h_gray h_gray_cap]. rewrite (proj2 (Z.ltb_lt _ _) Hnc).
      eexists. split; [done|]. apply Hfin.
      apply (tri_gray P h c (c :: h_gray h) _ (h_overflow h) (S (h_calls h)) HT Hd Ew); [by right|]. rewrite zlen_cons. lia.
    + eexists. split; [done|]. apply Hfin. by apply (tri_gray P h c (h_gray h) (h_gray_cap h) true (S (h_calls h)) HT Hd Ew); [left|].
  - unfold push_gray. cbn [set_mark h_gray h_gray_cap]. rewrite (proj2 (Z.ltb_lt (zlen (h_gray h)) (h_gray_cap h))) by lia.
    eexists. split; [done|]. apply Hfin.
    apply (tri_gray P h c (c :: h_gray h) (h_gray_cap h) (h_overflow h) (h_calls h) HT Hd Ew); [by right|]. rewrite zlen_cons. lia.
Qed.

Lemma mark_each_spec P l : forall h, tri P h -> (forall c, Some c ∈ l -> live c) ->
  exists h', mark_each grants l h = Some h' /\ tri P h' /\ grown h h' /\ forall c, Some c ∈ l -> marks h' c <> 0.
Proof.
  induction l as [|d l IH]; intros h HT Hl; cbn [mark_each].
  { eexists. split; [done|]. split; [done|]. split; [apply grown_refl|]. by intros c ?%elem_of_nil. }
  destruct (ugc_mark_spec P h d HT) as (h1 & -> & T1 & G1 & M1); [intros c ->; apply Hl; by left|]. cbn [mbind option_bind].
  destruct (IH h1 T1) as (h2 & -> & T2 & G2 & M2); [intros c Hc; apply Hl; by right|].
  exists h2. split; [done|]. split; [done|]. split; [by eapply grown_trans|].
  intros c [E|Hc]%elem_of_cons; [|auto]. apply (gr_marks _ _ G2), M1. done.
Qed.

Lemma mark_pinned_spec P l : forall h, tri P h -> l ⊆ h_all h0 ->
  exists h', mark_pinned grants l h = Some h' /\ tri P h' /\ grown h h' /\ forall c, c ∈ l -> pinned h0 c = true -> marks h' c <> 0.
Proof.
  induction l as [|d l IH]; intros h HT Hl; cbn [mark_pinned].
  { eexists. split; [done|]. split; [done|]. split; [apply grown_refl|]. by intros c ?%elem_of_nil. }
  assert (Hp : pinned h d = pinned h0 d) by (unfold pinned; by rewrite (t_cells _ _ HT)). rewrite Hp.
  assert (H1 : exists h1, (if pinned h0 d then ugc_mark grants (Some d) h else Some h) = Some h1 /\ tri P h1 /\ grown h h1 /\ (pinned h0 d = true -> marks h1 d <> 0)).
  { destruct (pinned h0 d) eqn:Ed.
    - destruct (ugc_mark_spec P h (Some d) HT) as (h1 & E & T1 & G1 & M1); [intros c [= <-]; apply live_pinned; [apply Hl; by left|done]|]. eauto 10.
    - eexists. split; [done|]. split; [done|]. split; [apply grown_refl|done]. }
  destruct H1 as (h1 & -> & T1 & G1 & M1). cbn [mbind option_bind].
  destruct (IH h1 T1) as (h2 & -> & T2 & G2 & M2); [set_solver|].
  exists h2. split; [done|]. split; [done|]. split; [by eapply grown_trans|].
  intros c [-> | Hc]%elem_of_cons Hpc; [|auto]. apply (gr_marks _ _ G2), M1, Hpc.
Qed.
Lemma tri_weaken P Q h : tri P h -> (forall c, marks h c = 1 -> P c -> c ∈ h_gray h \/ h_overflow h = true \/ Q c) -> tri Q h.
Proof. intros [] HQ. split; try done. intros c H1. destruct (t_find0 c H1) as [?|[?|?]]; auto. Qed.

(** Tracing a gray cell, [P] keeping it while its children are marked. *)
Lemma blacken_spec P h c : tri (fun x => P x \/ x = c) h -> marks h c <> 0 ->
  exists h', blacken grants R c h = Some h' /\ tri P h' /\ grown h h'.
Proof.
  intros HT Hc. unfold blacken.
  destruct (mark_each_spec _ (trace R c) h HT) as (h1 & -> & T1 & G1 & M1).
  { intros d Hd. apply (live_child c); [by apply (t_live _ _ HT)|done]. }
  cbn [mbind option_bind]. exists (set_mark c 2 h1). split; [done|].
  assert (Hc1 : marks h1 c <> 0) by (by apply (gr_marks _ _ G1)). split.
  - destruct T1 as [Ta Tc Tm Tn Tg Tf Tb Tl Tk]. split; cbn [set_mark h_all h_cells h_gray h_gray_cap h_overflow]; try done.
    + intros d. rewrite marks_set. case_decide; auto.
    + intros d Hd. rewrite marks_set. case_decide; [done|auto].
    + intros d. rewrite marks_set. case_decide as E; [done|]. intros H1. destruct (Tf d H1) as [?|[?|[?|?]]]; auto.
    + intros d e. rewrite !marks_set. intros H2 He. destruct (decide (e = c)); [done|]. destruct (decide (d = c)) as [E|E]; [subst d; by apply M1|by apply (Tb d e)].
    + intros d. rewrite marks_set. case_decide; [subst; auto|auto].
  - destruct G1 as [A1 A2 A3 A4]. assert (Hw : whites (set_mark c 2 h1) = whites h1) by (by apply whites_same). split; rewrite ?Hw; try done.
    intros d Hd. rewrite marks_set. case_decide; [done|auto].
Qed.

Lemma drain_spec fuel : forall h, tri (fun _ => False) h -> (length (h_gray h) + whites h <= fuel)%nat ->
  exists h', drain grants R fuel h = Some h' /\ tri (fun _ => False) h' /\ grown h h' /\ h_gray h' = [].
Proof.
  induction fuel as [|fuel IH]; intros h HT Hf; cbn [drain]; destruct (h_gray h) as [|c gray] eqn:Eg.
  1,3: eexists; split; [done|]; split; [done|]; split; [apply grown_refl|done].
  { cbn [length] in Hf. lia. }
  cbn [length] in Hf. pose proof (t_nodup _ _ HT) as Hn. rewrite Eg in Hn. apply NoDup_cons in Hn as [Hc Hn].
  destruct (blacken_spec (fun _ => False) (set_gray gray (h_gray_cap h) h) c) as (h1 & -> & T1 & G1).
  - destruct HT as [Ta Tc Tm Tn Tg Tf Tb Tl Tk]. rewrite Eg in *. split; cbn [set_gray h_all h_cells h_gray h_gray_cap h_overflow]; try done.
    + intros d Hd. apply (Tg d). by right.
    + intros d H1. destruct (Tf d H1) as [[-> | ?]%elem_of_cons|[?|?]]; auto.
    + rewrite zlen_cons in Tk. lia.
  - apply (t_gray _ _ HT). rewrite Eg. by left.
  - cbn [mbind option_bind]. destruct G1 as [A1 A2 A3 A4]. change (whites (set_gray _ _ _)) with (whites h) in *. cbn [set_gray h_gray h_overflow] in *.
    destruct (IH h1 T1) as (h2 & -> & T2 & G2 & E2); [lia|]. exists h2. split; [done|]. split; [done|]. split; [|done].
    destruct G2 as [B1 B2 B3 B4]. split; [intros d Hd; by apply B1, A1|lia|rewrite E2; cbn [length]; rewrite E2 in B3; cbn [length] in B3; lia|].
    intros [H|H]%B4; [apply A4 in H as [H|H]; [by left|right; lia]|right; lia].
Qed.

Lemma rescan_spec l : forall h, tri (fun c => c ∈ l) h ->
  exists h', rescan grants R l h = Some h' /\ tri (fun _ => False) h' /\ grown h h'.
Proof.
  induction l as [|c l IH]; intros h HT; cbn [rescan].
  { eexists. split; [done|]. split; [|apply grown_refl]. apply (tri_weaken _ _ _ HT). intros c _ ?%elem_of_nil. done. }
  assert (H1 : exists h1, (if marks h c =? 1 then blacken grants R c h else Some h) = Some h1 /\ tri (fun c => c ∈ l) h1 /\ grown h h1).
  { destruct (marks h c =? 1) eqn:E; zbool.
    - apply blacken_spec; [|lia]. apply (tri_weaken _ _ _ HT). intros d _ [-> | ?]%elem_of_cons; auto.
    - eexists. split; [done|]. split; [|apply grown_refl]. apply (tri_weaken _ _ _ HT). intros d H1 [-> | ?]%elem_of_cons; [done|auto]. }
  destruct H1 as (h1 & -> & T1 & G1). cbn [mbind option_bind]. destruct (IH h1 T1) as (h2 & -> & T2 & G2).
  exists h2. split; [done|]. split; [done|]. by eapply grown_trans.
Qed.

(** The outer loop ends: every pass that overflows has grayed a cell. *)
Lemma mark_loop_spec fuel : forall h, tri (fun _ => False) h -> (whites h + (if h_overflow h then 1 else 0) < fuel)%nat ->
  exists h', mark_loop grants R fuel h = Some h' /\ tri (fun _ => False) h' /\ (forall c, marks h c <> 0 -> marks h' c <> 0) /\
    h_gray h' = [] /\ h_overflow h' = false.
Proof.
  induction fuel as [|fuel IH]; intros h HT Hf; [lia|]. cbn [mark_loop].
  assert (Hw : (length (h_gray h) + whites h <= S (length (h_all h)))%nat).
  { rewrite (t_all _ _ HT). etransitivity; [|apply le_S, le_n]. unfold whites. rewrite <- length_app. apply submseteq_length, NoDup_submseteq.
    - apply NoDup_app. split; [apply HT|]. split; [|apply NoDup_filter, Hok]. intros c Hg [Hc _]%list_elem_of_filter. by apply (t_gray _ _ HT) in Hg.
    - intros c [Hc|[_ Hc]%list_elem_of_filter]%elem_of_app; [|done]. apply live_all, (t_live _ _ HT), (t_gray _ _ HT), Hc. }
  destruct (drain_spec _ h HT Hw) as (h1 & -> & T1 & G1 & E1). cbn [mbind option_bind].
  destruct (h_overflow h1) eqn:Eo; cbn [negb]; [|by exists h1; split; [done|]; split; [done|]; split; [apply G1|]].
  rewrite (t_all _ _ T1). destruct (rescan_spec (h_all h0) (set_overflow false h1)) as (h2 & -> & T2 & G2).
  { destruct T1 as [Ta Tc Tm Tn Tg Tf Tb Tl Tk]. split; try done. intros c H1. right; right.
    apply live_all, Tl. change (marks (set_overflow false h1) c) with (marks h1 c) in H1. lia. }
  cbn [mbind option_bind]. destruct G1 as [A1 A2 A3 A4], G2 as [B1 B2 B3 B4]. change (whites (set_overflow false h1)) with (whites h1) in *.
  cbn [set_overflow h_overflow] in B4. specialize (A4 Eo).
  assert (Hm : (whites h2 + (if h_overflow h2 then 1 else 0) <= whites h1)%nat).
  { destruct (h_overflow h2); [destruct (B4 eq_refl) as [?|?]; [done|lia]|lia]. }
  destruct (IH h2 T2) as (h3 & -> & T3 & M3 & E3); [destruct (h_overflow h); destruct A4 as [?|?]; try done; lia|].
  exists h3. split; [done|]. split; [done|]. split; [|done]. intros c Hc. apply M3, B1, A1, Hc.
Qed.

(** The whole mark phase finds exactly the live cells. *)
Lemma mark_phase_spec :
  let h := set_overflow false (set_gray [] (h_gray_cap h0) h0) in
  exists h1 h2 h3, mark_each grants (mark_fixed R) h = Some h1 /\ mark_pinned grants (h_all h1) h1 = Some h2 /\
    mark_loop grants R (S (length (h_all h2))) h2 = Some h3 /\
    h_all h3 = h_all h0 /\ h_cells h3 = h_cells h0 /\ h_gray h3 = [] /\ 0 <= h_gray_cap h3 /\ (forall c, marks h3 c <> 0 <-> live c).
Proof.
  intros h. assert (HT : tri (fun _ => False) h).
  { split; cbn; try done; try (by intros c ?%elem_of_nil); try apply NoDup_nil_2.
    - intros c. left. apply (ho_white Hok).
    - intros c. change (marks h c) with (marks h0 c). rewrite (ho_white Hok). done.
    - intros c d. change (marks h c) with (marks h0 c). rewrite (ho_white Hok). done.
    - intros c. change (marks h c) with (marks h0 c). rewrite (ho_white Hok). done.
    - apply Hok. }
  assert (Hw0 : whites h = length (h_all h0)).
  { unfold whites. f_equal. apply list_filter_id. intros c _. apply (ho_white Hok). }
  destruct (mark_each_spec _ (mark_fixed R) h HT) as (h1 & E1 & T1 & G1 & M1); [by intros c Hc; apply live_fixed|].
  destruct (mark_pinned_spec _ (h_all h0) h1 T1) as (h2 & E2 & T2 & G2 & M2); [done|].
  pose proof (grown_trans _ _ _ G1 G2) as [_ Ww _ Wo].
  destruct (mark_loop_spec (S (length (h_all h0))) h2 T2) as (h3 & E3 & T3 & M3 & Eg & Eo).
  { destruct (h_overflow h2); [destruct (Wo eq_refl) as [?|?]; [done|lia]|lia]. }
  exists h1, h2, h3. rewrite (t_all _ _ T1), (t_all _ _ T2). repeat (split; [done|]). split; [apply T3|]. split; [apply T3|]. split; [done|].
  split; [pose proof (t_cap _ _ T3); pose proof (zlen_nonneg (h_gray h3)); lia|].
  intros c. split; [apply T3|]. induction 1 as [c Hc|c Hc Hp|c d _ IH Hd].
  - apply M3, (gr_marks _ _ G2), M1, Hc.
  - by apply M3, M2.
  - apply (t_black _ _ T3 c); [|done]. destruct (t_mark _ _ T3 c) as [?|[H1|?]]; [done| |done].
    destruct (t_find _ _ T3 c H1) as [Hg|[Ho|[]]]; [rewrite Eg in Hg; by apply elem_of_nil in Hg|congruence].
Qed.

End Marking.

(** ** Sweep *)

Definition zsum (f : nat -> Z) (l : list nat) : Z := foldr (fun c a => f c + a) 0 l.
Definition size_of (h : gcheap) (c : nat) : Z := match h_cells h !! c with Some x => c_size x | None => 0 end.

Lemma u64_add x y : u64 (u64 x + y) = u64 (x + y).
Proof. unfold u64. by rewrite Zplus_mod_idemp_l. Qed.
Lemma u32_add x y : u32 (u32 x + y) = u32 (x + y).
Proof. unfold u32. by rewrite Zplus_mod_idemp_l. Qed.
Lemma u64_idem x : u64 (u64 x) = u64 x.
Proof. apply Zmod_mod. Qed.

Lemma zsum_ext f g l : (forall c, c ∈ l -> f c = g c) -> zsum f l = zsum g l.
Proof.
  induction l as [|c l IH]; intros H; [done|]. cbn. rewrite (H c) by (by left). f_equal. apply IH. intros d Hd. apply H. by right.
Qed.

(** The survivors of [l] and the others. *)
Abbreviation kept h := (filter (fun c => marks h c <> 0)).
Abbreviation dead h := (filter (fun c => marks h c = 0)).

Record swept (R : UGcRoots) (l : list nat) (h h' : gcheap) : Prop := {
  sw_all : h_all h' = h_all h;
  sw_gray : h_gray h' = h_gray h /\ h_gray_cap h' = h_gray_cap h /\ h_calls h' = h_calls h /\ h_overflow h' = h_overflow h;
  sw_marks : forall c, marks h' c = if decide (c ∈ l) then 0 else marks h c;
  sw_cells : forall c, h_cells h' !! c = if decide (c ∈ l /\ marks h c = 0) then None else h_cells h !! c }.

Lemma gc_sweep_spec R l : forall h lv n raw, NoDup l -> (forall c, c ∈ l -> is_Some (h_cells h !! c)) ->
  exists h', sweep R l h (u64 lv) (u32 n) (u64 raw) =
    Some (kept h l, h', u64 (lv + zsum (size_of h) (kept h l)), u32 (n + zlen (kept h l)), u64 (raw - zsum (finalize R) (dead h l))) /\ swept R l h h'.
Proof.
  induction l as [|c l IH]; intros h lv n raw Hn Hd; cbn [sweep].
  { change (zlen _) with 0. cbn [filter list_filter zsum foldr]. rewrite !Z.add_0_r, Z.sub_0_r. eexists. split; [done|].
    split; [done|done| |]; intros c; (rewrite decide_False; [done|]); rewrite elem_of_nil; tauto. }
  apply NoDup_cons in Hn as [Hc Hn]. destruct (Hd c) as [x Hx]; [by left|]. rewrite Hx. cbn [mbind option_bind].
  rewrite !filter_cons. destruct (marks h c =? 0) eqn:Ew; zbool; cbn [negb].
  - rewrite (decide_False (P := marks h c <> 0)), (decide_True (P := marks h c = 0)) by tauto.
    replace (u64 (u64 raw - finalize R c)) with (u64 (raw - finalize R c)) by (unfold Z.sub; by rewrite u64_add).
    set (h1 := set_cells (h_all h) (delete c (h_cells h)) h).
    destruct (IH h1 lv n (raw - finalize R c) Hn) as (h' & -> & [Sa Sg Sm Sc]).
    { intros d Hd'. cbn. rewrite lookup_delete_ne by (intros ->; done). apply Hd. by right. }
    exists h'. change (marks h1) with (marks h) in *. split.
    + cbn [zsum foldr]. replace (raw - (finalize R c + foldr (fun c a => finalize R c + a) 0 (dead h l)))
        with (raw - finalize R c - zsum (finalize R) (dead h l)) by (unfold zsum; lia).
      do 4 f_equal. f_equal. f_equal. apply zsum_ext. intros d [_ Hd']%list_elem_of_filter. unfold size_of. cbn.
      by rewrite lookup_delete_ne by (intros ->; done).
    + split; [done|done| |].
      * intros d. rewrite Sm. destruct (decide (d ∈ l)); [by rewrite decide_True by (by right)|].
        destruct (decide (d = c)) as [-> |]; [rewrite decide_True by (by left); done|]. rewrite decide_False; [done|]. intros [?|?]%elem_of_cons; done.
      * intros d. rewrite Sc. cbn. destruct (decide (d = c)) as [->|Hne].
        -- rewrite lookup_delete_eq, (decide_True (P := c ∈ c :: l /\ _)) by (split; [by left|done]). by case_decide.
        -- rewrite lookup_delete_ne by done. destruct (decide (d ∈ l /\ marks h d = 0)) as [[? ?]|Hno].
           ++ by rewrite decide_True by (split; [by right|done]).
           ++ rewrite decide_False; [done|]. intros [[?|?]%elem_of_cons ?]; [done|tauto].
  - rewrite (decide_True (P := marks h c <> 0)), (decide_False (P := marks h c = 0)) by tauto.
    rewrite u64_add, u32_add. destruct (IH (set_mark c 0 h) (lv + c_size x) (n + 1) raw Hn) as (h' & -> & [Sa Sg Sm Sc]).
    { intros d Hd'. apply Hd. by right. }
    assert (Hne : forall d, d ∈ l -> marks (set_mark c 0 h) d = marks h d) by (intros d Hd'; rewrite marks_set, decide_False by (intros ->; done); done).
    assert (Hk : kept (set_mark c 0 h) l = kept h l) by (apply list_filter_ext; intros d Hd'; by rewrite Hne).
    assert (Hdd : dead (set_mark c 0 h) l = dead h l) by (apply list_filter_ext; intros d Hd'; by rewrite Hne).
    cbn [mbind option_bind]. exists h'. rewrite Hk, Hdd. split.
    + rewrite zlen_cons. cbn [zsum foldr]. unfold size_of at 2. rewrite Hx. change (size_of (set_mark c 0 h)) with (size_of h).
      fold (zsum (size_of h) (kept h l)). by rewrite !Z.add_assoc.
    + split; [done|done| |].
      * intros d. rewrite Sm. destruct (decide (d ∈ l)); [by rewrite decide_True by (by right)|]. rewrite marks_set.
        destruct (decide (d = c)) as [-> |]; [rewrite decide_True by (by left); done|]. rewrite decide_False; [done|]. intros [?|?]%elem_of_cons; done.
      * intros d. rewrite Sc. change (h_cells (set_mark c 0 h)) with (h_cells h). destruct (decide (d ∈ l)) as [Hl|Hl].
        -- rewrite (Hne d Hl). destruct (decide (marks h d = 0)).
           ++ rewrite !decide_True by (split; [done || (by right)|done]). done.
           ++ rewrite !decide_False by tauto. done.
        -- rewrite (decide_False (P := d ∈ l /\ _)) by tauto. rewrite decide_False; [done|]. intros [[-> | ?]%elem_of_cons ?]; done.
Qed.

(** ** A collection *)

Record collected (R : UGcRoots) (g g' : UGc) : Prop := {
  co_order : h_all (g_heap g') `sublist_of` h_all (g_heap g);
  co_live : forall c, c ∈ h_all (g_heap g') <-> live R (g_heap g) c;
  co_cells : forall c, c ∈ h_all (g_heap g') -> h_cells (g_heap g') !! c = h_cells (g_heap g) !! c;
  co_ok : heap_ok R (g_heap g');
  co_raw : raw_live (g_acct g') = u64 (raw_live (g_acct g) - zsum (finalize R) (filter (fun c => c ∉ h_all (g_heap g')) (h_all (g_heap g))));
  co_bytes : bytes_live (g_acct g') = u64 (zsum (size_of (g_heap g')) (h_all (g_heap g')) + raw_live (g_acct g'));
  co_count : cells_live (g_acct g') = u32 (zlen (h_all (g_heap g')));
  co_pace : bytes_since (g_acct g') = 0 /\ pace_base (g_acct g') = bytes_live (g_acct g') /\ collect_requested (g_acct g') = false /\
            in_collect (g_acct g') = false }.

Lemma ugc_collect_spec grants R g : heap_ok R (g_heap g) -> in_collect (g_acct g) = false -> u64 (raw_live (g_acct g)) = raw_live (g_acct g) ->
  exists g', ugc_collect grants R g = Some g' /\ collected R g g'.
Proof.
  intros Hok Hin Hraw. destruct g as [h0 a]. cbn [g_heap g_acct] in *. unfold ugc_collect. cbn [g_heap g_acct]. rewrite Hin.
  destruct (mark_phase_spec grants R h0 Hok) as (h1 & h2 & h3 & -> & E2 & E3 & Ea & Ec & Eg & Ecap & Hlive).
  cbn [mbind option_bind]. rewrite E2. cbn [mbind option_bind]. rewrite E3. cbn [mbind option_bind]. rewrite Ea, <- Hraw.
  destruct (gc_sweep_spec R (h_all h0) h3 0 0 (raw_live a)) as (h' & Es & [Sa Sg Sm Sc]); [apply Hok|intros c Hc; rewrite Ec; by apply Hok|].
  change (u64 0) with 0 in Es. change (u32 0) with 0 in Es. rewrite Es. cbn [mbind option_bind]. eexists. split; [done|].
  set (K := kept h3 (h_all h0)). set (F := MkHeap K (h_cells h') (h_marked h') (h_gray h') (h_gray_cap h') (h_overflow h') (h_calls h')).
  assert (HK : forall c, c ∈ K <-> live R h0 c).
  { intros c. unfold K. rewrite list_elem_of_filter, Hlive. split; [by intros [? _]|]. intros Hc. split; [done|]. by apply (live_all R h0). }
  assert (Hcells : forall c, c ∈ K -> h_cells h' !! c = h_cells h0 !! c).
  { intros c [Hm Hc]%list_elem_of_filter. rewrite Sc, decide_False by tauto. by rewrite Ec. }
  assert (Hdead : dead h3 (h_all h0) = filter (fun c => c ∉ K) (h_all h0)).
  { apply list_filter_ext. intros c Hc. rewrite HK, <- Hlive. destruct (decide (marks h3 c = 0)); tauto. }
  assert (Hsub : K `sublist_of` h_all h0) by apply sublist_filter.
  split; cbn [g_heap g_acct set_cells h_all h_cells raw_live bytes_live cells_live bytes_since pace_base collect_requested in_collect]; fold K; try done.
  - split; cbn [h_all h_cells h_gray_cap set_cells]; fold K.
    + apply NoDup_filter, Hok.
    + intros c. split.
      * intros HcK. rewrite (Hcells c HcK). apply Hok. by apply (live_all R h0 Hok), HK.
      * intros Hs. rewrite Sc in Hs. case_decide as Hd; [by destruct Hs|]. apply list_elem_of_filter. rewrite Ec in Hs.
        apply (ho_dom _ _ Hok) in Hs. split; [tauto|done].
    + intros c. change (marks (set_cells K (h_cells h') h') c) with (marks h' c). rewrite Sm. case_decide as Hc; [done|].
      destruct (decide (marks h3 c = 0)) as [|Hm]; [done|]. by apply Hlive, (live_all R h0 Hok) in Hm.
    + intros c Hc. by apply HK, live_fixed.
    + intros c d Hc Hd. apply HK, (live_child _ _ c); [by apply HK|done].
    + pose proof (ho_small _ _ Hok). apply sublist_length in Hsub. unfold zlen in *. lia.
    + destruct Sg as (_ & -> & _). done.
  - by rewrite Hdead.
  - rewrite !Z.add_0_l, u64_add. f_equal. f_equal. apply zsum_ext. intros c Hc. unfold size_of. cbn. rewrite (Hcells c Hc). by rewrite Ec.
Qed.

(** ** Allocation *)

Record gc_ok (R : UGcRoots) (g : UGc) : Prop := {
  go_heap : heap_ok R (g_heap g);
  go_idle : in_collect (g_acct g) = false;
  go_raw : u64 (raw_live (g_acct g)) = raw_live (g_acct g);
  go_count : cells_live (g_acct g) = u32 (zlen (h_all (g_heap g))) }.

(** [g'] comes from [g] by collections alone. *)
Record keeps (R : UGcRoots) (g g' : UGc) : Prop := {
  ke_ok : gc_ok R g';
  ke_order : h_all (g_heap g') `sublist_of` h_all (g_heap g);
  ke_live : forall c, live R (g_heap g) c -> live R (g_heap g') c }.

Lemma keeps_refl R g : gc_ok R g -> keeps R g g.
Proof. by split. Qed.

Lemma keeps_trans R g1 g2 g3 : keeps R g1 g2 -> keeps R g2 g3 -> keeps R g1 g3.
Proof. intros [A1 A2 A3] [B1 B2 B3]. split; [done|by etransitivity|auto]. Qed.

Lemma pinned_cells h h' c : h_cells h' !! c = h_cells h !! c -> pinned h' c = pinned h c.
Proof. unfold pinned. by intros ->. Qed.

Lemma collected_keeps R g g' : gc_ok R g -> collected R g g' -> keeps R g g'.
Proof.
  intros Hg HC. split; [split; try apply HC|apply HC|].
  - rewrite (co_raw _ _ _ HC). apply u64_idem.
  - intros c Hc. induction Hc as [c Hc|c Hc Hp|c d _ IH Hd]; [by apply live_fixed| |by apply (live_child _ _ c)].
    assert (Hk : c ∈ h_all (g_heap g')) by (by apply (co_live _ _ _ HC), live_pinned).
    apply live_pinned; [done|]. by rewrite (pinned_cells _ _ _ (co_cells _ _ _ HC c Hk)).
Qed.

Lemma collect_keeps grants R g : gc_ok R g -> exists g', ugc_collect grants R g = Some g' /\ keeps R g g'.
Proof.
  intros Hg. destruct (ugc_collect_spec grants R g) as (g' & E & HC); try apply Hg. exists g'. split; [done|]. by apply collected_keeps.
Qed.

Lemma maybe_collect_keeps grants R g : gc_ok R g -> exists g', ugc_maybe_collect grants R g = Some g' /\ keeps R g g'.
Proof.
  intros Hg. unfold ugc_maybe_collect. destruct (ugc_should_collect _); [by apply collect_keeps|].
  exists g. split; [done|]. by apply keeps_refl.
Qed.

Lemma heap_ok_called R h : heap_ok R h -> heap_ok R (called h).
Proof. by intros []. Qed.

Lemma live_called R h c : live R h c -> live R (called h) c.
Proof. induction 1; [by apply live_fixed|by apply live_pinned|by eapply live_child]. Qed.

Lemma ask_keeps grants R g ok g' : gc_ok R g -> ask grants g = (ok, g') -> keeps R g g'.
Proof.
  intros [Hh Hi Hr Hc] [= _ <-]. split; [by split; [apply heap_ok_called| | |]|done|]. intros c. apply live_called.
Qed.

(** What [ugc_alloc] promises for a cell at a fresh address. *)
Record linked (R : UGcRoots) (c : nat) (nbytes : Z) (g g' : UGc) : Prop := {
  li_front : exists rest, h_all (g_heap g') = c :: rest /\ rest `sublist_of` h_all (g_heap g);
  li_live : forall d, live R (g_heap g) d -> d ∈ h_all (g_heap g');
  li_cell : h_cells (g_heap g') !! c = Some (MkCell (u32 nbytes) 0);
  li_ok : gc_ok R g' }.

Lemma link_linked R c nbytes g0 g : keeps R g0 g -> c ∉ h_all (g_heap g0) -> trace R c = [] -> zlen (h_all (g_heap g0)) + 1 < 2 ^ 31 ->
  linked R c nbytes g0 (link_cell c nbytes g).
Proof.
  intros [[[Hn Hd Hw Hf Hc Hs Hcap] Hi Hr Hcount] Hsub Hlive] Hfresh Ht Hsmall. pose proof (sublist_length _ _ Hsub) as Hlen.
  assert (Hnew : c ∉ h_all (g_heap g)) by (intros H; apply Hfresh; by eapply elem_of_sublist).
  split; [by eexists| | |].
  - intros d Hl. right. by apply (live_all R (g_heap g)), Hlive.
  - cbn. by rewrite lookup_insert_eq.
  - split; [|done|done|cbn; rewrite Hcount, u32_add, zlen_cons; f_equal; lia].
    split; cbn [link_cell g_heap h_all h_cells h_gray_cap].
    + by constructor.
    + intros d. rewrite elem_of_cons, Hd. destruct (decide (d = c)) as [-> |Hne]; [rewrite lookup_insert_eq; split; [by eexists|by left]|].
      rewrite lookup_insert_ne by done. tauto.
    + intros d. unfold marks. cbn. destruct (decide (d = c)) as [-> |Hne]; [by rewrite lookup_insert_eq|]. rewrite lookup_insert_ne by done. apply Hw.
    + intros d H. right. by apply Hf.
    + intros d e [-> |Hd']%elem_of_cons He; [rewrite Ht in He; by apply elem_of_nil in He|]. right. by apply (Hc d).
    + rewrite zlen_cons. unfold zlen in *. lia.
    + done.
Qed.

(** C9 a collection keeps exactly what is reachable: whatever the allocator
    answers when the gray stack grows, the cycle ends without a fault; the
    cells left on the list, in their old order and unchanged, are exactly
    those reachable from the fixed roots and the pinned cells; every mark is
    cleared, and the byte and cell counters are those of the survivors. *)
Theorem collect_keeps_the_live grants R g :
  heap_ok R (g_heap g) -> in_collect (g_acct g) = false -> u64 (raw_live (g_acct g)) = raw_live (g_acct g) ->
  exists g', ugc_collect grants R g = Some g' /\ collected R g g'.
Proof. apply ugc_collect_spec. Qed.

(** allocation: [ugc_alloc] never faults; a granted cell, at a fresh
    address, is put in front, zeroed and unmarked, with every live cell still
    on the list behind it; a refusal comes only after a full collection, has
    asked for another, and loses no live cell; the invariants hold again. *)
Theorem alloc_keeps_the_live grants R c nbytes g :
  gc_ok R g -> c ∉ h_all (g_heap g) -> trace R c = [] -> zlen (h_all (g_heap g)) + 1 < 2 ^ 31 ->
  exists ok g', ugc_alloc grants R c nbytes g = Some (ok, g') /\
    if ok : bool then linked R c nbytes g g' else collect_requested (g_acct g') = true /\ keeps R g g'.
Proof.
  intros Hg Hfresh Ht Hsmall. unfold ugc_alloc.
  destruct (maybe_collect_keeps grants R g Hg) as (g1 & -> & K1). cbn [mbind option_bind].
  destruct (ask grants g1) as [ok g2] eqn:E2. pose proof (ask_keeps grants R g1 ok g2 (ke_ok _ _ _ K1) E2) as K2.
  pose proof (keeps_trans _ _ _ _ K1 K2) as K12. destruct ok; [eexists true, _; split; [done|by apply link_linked]|].
  destruct (collect_keeps grants R g2 (ke_ok _ _ _ K12)) as (g3 & -> & K3). cbn [mbind option_bind].
  pose proof (keeps_trans _ _ _ _ K12 K3) as K123. destruct (ask grants g3) as [ok g4] eqn:E4.
  pose proof (ask_keeps grants R g3 ok g4 (ke_ok _ _ _ K123) E4) as K4. pose proof (keeps_trans _ _ _ _ K123 K4) as K.
  destruct ok; [eexists true, _; split; [done|by apply link_linked]|]. eexists false, _. split; [done|]. split; [done|].
  destruct K as [[A1 A2 A3 A4] B C]. by split; [split| |].
Qed.

(** ** Witnesses *)

(** Three cells in a chain from a root, one pinned, one garbage; no room for a gray stack, ever. *)
Definition chain_roots : UGcRoots :=
  MkRoots [Some 1%nat; None] (fun c => match c with 1%nat => [Some 2%nat; None] | 2%nat => [Some 3%nat; Some 1%nat] | _ => [] end) (fun c => 16).
Definition chain_heap : gcheap :=
  MkHeap [5; 4; 3; 2; 1]%nat (list_to_map [(1, MkCell 10 0); (2, MkCell 20 0); (3, MkCell 30 0); (4, MkCell 40 0x4000); (5, MkCell 50 0)]%nat) ∅ [] 0 false 0.
Definition chain_gc : UGc := MkGc chain_heap (MkAcct 230 150 16384 80 0 0 5 200 false false 0 0).

Lemma chain_ok : heap_ok chain_roots chain_heap.
Proof.
  split.
  - apply (bool_decide_unpack _). vm_compute. exact I.
  - intros c. split.
    + intros H. cbn in H. repeat (apply elem_of_cons in H as [-> | H]; [vm_compute; by eexists|]). by apply elem_of_nil in H.
    + intros [x Hx]. apply elem_of_list_to_map_2 in Hx. cbn in *. set_solver.
  - intros c. done.
  - intros c H. cbn in *. set_solver.
  - intros c d Hc Hd. cbn in *. repeat (apply elem_of_cons in Hc as [-> | Hc]; [set_solver|]). by apply elem_of_nil in Hc.
  - reflexivity.
  - discriminate.
Qed.

Lemma collect_keeps_the_live_witness : exists g', ugc_collect (fun _ => false) chain_roots chain_gc = Some g' /\
  h_all (g_heap g') = [4; 3; 2; 1]%nat /\ collected chain_roots chain_gc g'.
Proof.
  destruct (collect_keeps_the_live (fun _ => false) chain_roots chain_gc chain_ok eq_refl eq_refl) as (g' & E & HC).
  exists g'. split; [exact E|]. split; [|exact HC]. vm_compute in E. injection E as <-. reflexivity.
Defined.

Lemma alloc_keeps_the_live_witness : exists ok g', ugc_alloc (fun _ => true) chain_roots 6 24 chain_gc = Some (ok, g') /\
  if ok : bool then linked chain_roots 6 24 chain_gc g' else collect_requested (g_acct g') = true /\ keeps chain_roots chain_gc g'.
Proof.
  apply (alloc_keeps_the_live (fun _ => true) chain_roots 6 24 chain_gc).
  - split; [apply chain_ok|reflexivity|reflexivity|reflexivity].
  - cbn. intros H. repeat (apply elem_of_cons in H as [H|H]; [discriminate H|]). by apply elem_of_nil in H.
  - reflexivity.
  - reflexivity.
Defined.

End Collector.
