(* ===== verification/Ndjson.v ===== *)
(** * The REPL's request scanner (src/src/repl/urepl_ndjson.c, first half)

    A pointer into the request line is the list of the bytes from it to the
    end of the line, so [s->p >= s->end] is the empty list, and reading
    through it is a fault.  The heap is the set of live blocks, [malloc_ok]
    answers each allocation. *)
From Stdlib Require Import Ascii String.
From S2P Require Import Prelude Text.

Module Ndjson.

(** ** Heap *)

Class Malloc := malloc_ok : nat -> Z -> bool.

Record mem := MkMem { m_calls : nat; m_live : gset nat }.

Definition malloc `{Malloc} (n : Z) (m : mem) : option nat * mem :=
  let c := m_calls m in
  if malloc_ok c n then (Some c, MkMem (S c) ({[c]} ∪ m_live m)) else (None, MkMem (S c) (m_live m)).

Definition free (b : option nat) (m : mem) : option mem :=
  match b with
  | None => Some m
  | Some b => if decide (b ∈ m_live m) then Some (MkMem (m_calls m) (m_live m ∖ {[b]})) else None
  end.

(** ** Scanner *)

Definition is_ws (c : Z) : bool := (c =? 32) || (c =? 9) || (c =? 13) || (c =? 10).

Fixpoint skip_ws (s : bytes) : bytes :=
  match s with
  | c :: r => if is_ws c then skip_ws r else s
  | [] => []
  end.

(** [None]: -1. *)
Definition expect (s : bytes) (c : Z) : option bytes :=
  match skip_ws s with
  | d :: r => if d =? c then Some r else None
  | [] => None
  end.

Definition is_digit (h : Z) : bool := (48 <=? h) && (h <=? 57).
Definition is_hex (h : Z) : bool := is_digit h || ((97 <=? h) && (h <=? 102)) || ((65 <=? h) && (h <=? 70)).
Definition is_simple_escape (e : Z) : bool :=
  (e =? 34) || (e =? 92) || (e =? 47) || (e =? 98) || (e =? 102) || (e =? 110) || (e =? 114) || (e =? 116).

(** First pass: where the closing quote is and an upper bound of the decoded length. *)
Fixpoint measure (scan : bytes) (decoded_len : Z) : option (bytes * Z) :=
  match scan with
  | [] => None
  | c :: r =>
      if c =? 34 then Some (scan, decoded_len)
      else if c =? 92 then
        match r with
        | [] => None
        | e :: r1 =>
            if e =? 117 then
              match r1 with
              | h1 :: h2 :: h3 :: h4 :: r5 =>
                  if is_hex h1 && is_hex h2 && is_hex h3 && is_hex h4 then measure r5 (decoded_len + 3) else None
              | _ => None
              end
            else if is_simple_escape e then measure r1 (decoded_len + 1)
            else None
        end
      else if c <? 32 then None
      else measure r (decoded_len + 1)
  end.

Definition hex_val (h : Z) : Z :=
  if (48 <=? h) && (h <=? 57) then h - 48
  else if (97 <=? h) && (h <=? 102) then h - 97 + 10
  else h - 65 + 10.

Definition codepoint (h1 h2 h3 h4 : Z) : Z :=
  foldl (fun cp h => Z.lor (Z.shiftl cp 4) (hex_val h)) 0 [h1; h2; h3; h4].

(** The bytes written for a code point; surrogates give the replacement character. *)
Definition utf8 (cp : Z) : bytes :=
  if cp <? 0x80 then [cp]
  else if cp <? 0x800 then [Z.lor 0xC0 (Z.shiftr cp 6); Z.lor 0x80 (Z.land cp 0x3F)]
  else if (0xD800 <=? cp) && (cp <=? 0xDFFF) then [0xEF; 0xBF; 0xBD]
  else [Z.lor 0xE0 (Z.shiftr cp 12); Z.lor 0x80 (Z.land (Z.shiftr cp 6) 0x3F); Z.lor 0x80 (Z.land cp 0x3F)].

Definition simple_char (e : Z) : option Z :=
  if e =? 34 then Some 34 else if e =? 92 then Some 92 else if e =? 47 then Some 47
  else if e =? 98 then Some 8 else if e =? 102 then Some 12 else if e =? 110 then Some 10
  else if e =? 114 then Some 13 else if e =? 116 then Some 9 else None.

(** [out[j++] = b] for each byte, in a block of [cap] bytes. *)
Definition put_out (cap : Z) (out bs : bytes) : option bytes :=
  if zlen out + zlen bs <=? cap then Some (out ++ bs) else None.

(** Second pass, up to [scan]; inner [None] is the [default] branch. *)
Fixpoint decode (fuel : nat) (q scan : bytes) (cap : Z) (out : bytes) : option (option bytes) :=
  if zlen q <=? zlen scan then Some (Some out)
  else
    match fuel with
    | O => None
    | S fuel =>
        c ← q !! 0%nat;
        if c =? 92 then
          e ← q !! 1%nat;
          match simple_char e with
          | Some b => out ← put_out cap out [b]; decode fuel (drop 2 q) scan cap out
          | None =>
              if e =? 117 then
                h1 ← q !! 2%nat; h2 ← q !! 3%nat; h3 ← q !! 4%nat; h4 ← q !! 5%nat;
                out ← put_out cap out (utf8 (codepoint h1 h2 h3 h4));
                decode fuel (drop 6 q) scan cap out
              else Some None
          end
        else out ← put_out cap out [c]; decode fuel (drop 1 q) scan cap out
    end.

Inductive string_result :=
  | PFail (rc : Z)
  | POk (block : nat) (out : bytes) (rest : bytes).

Definition parse_string `{Malloc} (s : bytes) (max_len : Z) (m : mem) : option (string_result * mem) :=
  match skip_ws s with
  | [] => Some (PFail (-1), m)
  | c :: start =>
      if negb (c =? 34) then Some (PFail (-1), m)
      else
        match measure start 0 with
        | None => Some (PFail (-1), m)
        | Some (scan, decoded_len) =>
            if max_len <? decoded_len then Some (PFail (-2), m)
            else
              let '(b, m) := malloc (decoded_len + 1) m in
              match b with
              | None => Some (PFail (-1), m)
              | Some b =>
                  r ← decode (length start) start scan (decoded_len + 1) [];
                  match r with
                  | None => m ← free (Some b) m; Some (PFail (-1), m)
                  | Some out => _ ← put_out (decoded_len + 1) out [0]; Some (POk b out (drop 1 scan), m)
                  end
              end
        end
  end.

Definition UINT64_MAX : Z := 2 ^ 64 - 1.

Fixpoint digits (q : bytes) (v : Z) : option (Z * bytes) :=
  match q with
  | d :: r =>
      if is_digit d then
        let digit := d - 48 in
        if (UINT64_MAX - digit) / 10 <? v then None else digits r (v * 10 + digit)
      else Some (v, q)
  | [] => Some (v, [])
  end.

Definition parse_uint64 (s : bytes) : option (Z * bytes) :=
  match skip_ws s with
  | d :: _ => if is_digit d then digits (skip_ws s) 0 else None
  | [] => None
  end.

(** The loop over a skipped string's contents; the result is at its closing quote. *)
Fixpoint skip_string (s : bytes) : option bytes :=
  match s with
  | [] => None
  | c :: r =>
      if c =? 34 then Some s
      else if c =? 92 then match r with [] => None | _ :: r => skip_string r end
      else skip_string r
  end.

Definition is_number_char (d : Z) : bool :=
  is_digit d || (d =? 46) || (d =? 101) || (d =? 69) || (d =? 43) || (d =? 45).
Fixpoint skip_number (s : bytes) : bytes :=
  match s with d :: r => if is_number_char d then skip_number r else s | [] => [] end.

Fixpoint skip_nested (fuel : nat) (open close depth : Z) (s : bytes) : option (option bytes) :=
  if depth <=? 0 then Some (Some s)
  else
    match s, fuel with
    | [], _ => Some None
    | _, O => None
    | d :: r, S fuel =>
        if d =? 34 then match skip_string r with Some r => skip_nested fuel open close depth (drop 1 r) | None => Some None end
        else if d =? open then skip_nested fuel open close (depth + 1) r
        else if d =? close then skip_nested fuel open close (depth - 1) r
        else skip_nested fuel open close depth r
    end.

(** Inner [None]: -1. *)
Definition skip_value (s : bytes) : option (option bytes) :=
  match skip_ws s with
  | [] => Some None
  | (c :: r) as s =>
      if c =? 34 then Some (drop 1 <$> skip_string r)
      else if (c =? 45) || is_digit c then Some (Some (skip_number (if c =? 45 then r else s)))
      else if (c =? 116) || (c =? 102) || (c =? 110) then
        let exp := if c =? 116 then lit "true" else if c =? 102 then lit "false" else lit "null" in
        Some (if decide (take (length exp) s = exp) then Some (drop (length exp) s) else None)
      else if (c =? 91) || (c =? 123) then
        skip_nested (length r) c (if c =? 91 then 93 else 125) 1 r
      else Some None
  end.

(** ** Requests *)

Inductive UReplOp := UREPL_OP_NONE | UREPL_OP_EVAL | UREPL_OP_INTROSPECT.
#[export] Instance UReplOp_eq_dec : EqDecision UReplOp.
Proof. solve_decision. Defined.

Definition UREPL_MAX_LINE : Z := Z.shiftl 1 20.
Definition UREPL_MAX_CODE : Z := Z.shiftl 1 20.
Definition UREPL_MAX_WHAT : Z := 32.

(** An owned string is its block and its bytes; [strcmp] sees [cstr] of them. *)
Record UReplNdjsonReq := MkReq {
  req_id : Z;
  req_op : UReplOp;
  req_code : option (nat * bytes);
  req_code_len : Z;
  req_what : option (nat * bytes) }.

Definition zero_req : UReplNdjsonReq := MkReq 0 UREPL_OP_NONE None 0 None.
Definition set_id (x : Z) (r : UReplNdjsonReq) := MkReq x (req_op r) (req_code r) (req_code_len r) (req_what r).
Definition set_op (x : UReplOp) (r : UReplNdjsonReq) := MkReq (req_id r) x (req_code r) (req_code_len r) (req_what r).
Definition set_code (x : option (nat * bytes)) (n : Z) (r : UReplNdjsonReq) := MkReq (req_id r) (req_op r) x n (req_what r).
Definition set_what (x : option (nat * bytes)) (r : UReplNdjsonReq) := MkReq (req_id r) (req_op r) (req_code r) (req_code_len r) x.

Definition op_from_name (s : bytes) (n : Z) : UReplOp :=
  if (n =? 4) && bool_decide (take 4 s = lit "eval") then UREPL_OP_EVAL
  else if (n =? 10) && bool_decide (take 10 s = lit "introspect") then UREPL_OP_INTROSPECT
  else UREPL_OP_NONE.

Definition urepl_ndjson_free_req (r : UReplNdjsonReq) (m : mem) : option (UReplNdjsonReq * mem) :=
  m ← free (fst <$> req_code r) m;
  m ← free (fst <$> req_what r) m;
  Some (zero_req, m).

(** The value of one key: the rest of the line, [None] if the request is refused. *)
Definition parse_field `{Malloc} (block : nat) (key : bytes) (s : bytes) (r : UReplNdjsonReq) (m : mem)
    : option (option bytes * UReplNdjsonReq * mem) :=
  if decide (cstr key = lit "id") then
    m ← free (Some block) m;
    match parse_uint64 s with
    | None => Some (None, r, m)
    | Some (v, s) => Some (Some s, set_id v r, m)
    end
  else if decide (cstr key = lit "op") then
    m ← free (Some block) m;
    '(p, m) ← parse_string s 32 m;
    match p with
    | PFail _ => Some (None, r, m)
    | POk b opname s =>
        let op := op_from_name opname (zlen opname) in
        m ← free (Some b) m;
        if decide (op = UREPL_OP_NONE) then Some (None, r, m) else Some (Some s, set_op op r, m)
    end
  else if decide (cstr key = lit "code") then
    m ← free (Some block) m;
    if req_code r then Some (None, r, m)
    else
      '(p, m) ← parse_string s UREPL_MAX_CODE m;
      match p with
      | PFail _ => Some (None, set_code None 0 r, m)
      | POk b code s => Some (Some s, set_code (Some (b, code)) (zlen code) r, m)
      end
  else if decide (cstr key = lit "what") then
    m ← free (Some block) m;
    if req_what r then Some (None, r, m)
    else
      '(p, m) ← parse_string s UREPL_MAX_WHAT m;
      match p with
      | PFail _ => Some (None, set_what None r, m)
      | POk b what s => Some (Some s, set_what (Some (b, what)) r, m)
      end
  else
    m ← free (Some block) m;
    s ← skip_value s;
    Some (s, r, m).

(** One pass of the loop over the keys, up to the value. *)
Definition parse_key `{Malloc} (first : bool) (s : bytes) (m : mem) : option (option (nat * bytes * bytes) * mem) :=
  match (if first then Some s else skip_ws <$> expect s 44) with
  | None => Some (None, m)
  | Some s =>
      '(p, m) ← parse_string s 64 m;
      match p with
      | PFail _ => Some (None, m)
      | POk block key s =>
          match expect s 58 with
          | None => m ← free (Some block) m; Some (None, m)
          | Some s => Some (Some (block, key, skip_ws s), m)
          end
      end
  end.

Definition refuse_req (r : UReplNdjsonReq) (m : mem) : option (Z * UReplNdjsonReq * mem) :=
  '(r, m) ← urepl_ndjson_free_req r m; Some (-1, r, m).

Fixpoint parse_loop `{Malloc} (fuel : nat) (first : bool) (s : bytes) (r : UReplNdjsonReq) (m : mem)
    : option (Z * UReplNdjsonReq * mem) :=
  match fuel, skip_ws s with
  | _, [] => refuse_req r m
  | O, _ => None
  | S fuel, (c :: _) as s =>
      if c =? 125 then
        if decide (req_op r = UREPL_OP_NONE) then refuse_req r m else Some (0, r, m)
      else
        '(k, m) ← parse_key first s m;
        match k with
        | None => refuse_req r m
        | Some (block, key, s) =>
            '(s, r, m) ← parse_field block key s r m;
            match s with
            | None => refuse_req r m
            | Some s => parse_loop fuel false s r m
            end
        end
  end.

Definition urepl_ndjson_parse `{Malloc} (line : bytes) (m : mem) : option (Z * UReplNdjsonReq * mem) :=
  if UREPL_MAX_LINE <? zlen line then Some (-1, zero_req, m)
  else
    match expect line 123 with
    | None => Some (-1, zero_req, m)
    | Some s =>
        let s := skip_ws s in
        if bool_decide (head s = Some 125) then Some (-1, zero_req, m)
        else parse_loop (S (length s)) true s zero_req m
    end.

Definition test_malloc : Malloc := fun _ _ => true.
Example parse_sample :
  (fun '(rc, r, m) => (rc, req_id r, req_op r, snd <$> req_code r, elements (m_live m))) <$>
    @urepl_ndjson_parse test_malloc (lit "{'id': 42, 'x':[1,{'a':']'}], 'op':'eval','code':'1+1\u00e9'} ") (MkMem 0 ∅)
  = Some (0, 42, UREPL_OP_EVAL, Some (lit "1+1" ++ [0xC3; 0xA9]), [5%nat]).
Proof. vm_compute. reflexivity. Qed.

(** ** The string grammar *)

(** [json_body e d]: the characters [e] between two quotes denote the bytes [d]. *)
Inductive json_body : bytes -> bytes -> Prop :=
  | jb_nil : json_body [] []
  | jb_char c e d : c <> 34 -> c <> 92 -> 32 <= c -> json_body e d -> json_body (c :: e) (c :: d)
  | jb_escape x b e d : simple_char x = Some b -> json_body e d -> json_body (92 :: x :: e) (b :: d)
  | jb_unicode h1 h2 h3 h4 e d : is_hex h1 && is_hex h2 && is_hex h3 && is_hex h4 = true -> json_body e d ->
      json_body (92 :: 117 :: h1 :: h2 :: h3 :: h4 :: e) (utf8 (codepoint h1 h2 h3 h4) ++ d).

Lemma simple_escape_char x : is_simple_escape x = true <-> is_Some (simple_char x).
Proof.
  unfold is_simple_escape, simple_char. split.
  - intros H. repeat case_match; eauto. repeat match goal with E : (x =? _) = false |- _ => rewrite E in H; clear E end. done.
  - intros [b H]. repeat match goal with |- context [x =? ?k] => destruct (x =? k); [done|] end. done.
Qed.

Lemma simple_escape_not_u x : is_simple_escape x = true -> (x =? 117) = false.
Proof. destruct (x =? 117) eqn:E; [|done]. zbool. subst. done. Qed.

Lemma utf8_length cp : 1 <= zlen (utf8 cp) <= 3.
Proof. unfold utf8, zlen. repeat case_match; cbn [length]; lia. Qed.

Ltac zlens := rewrite ?zlen_cons, ?zlen_app in *; unfold zlen in *; cbn [length] in *.

Lemma measure_sound : forall s n scan k, measure s n = Some (scan, k) ->
  exists body d rest, s = body ++ 34 :: rest /\ scan = 34 :: rest /\ json_body body d /\ n + zlen d <= k.
Proof.
  intros s. induction s as [s IH] using (well_founded_induction (well_founded_ltof _ length)). unfold ltof in IH.
  intros n scan k. destruct s as [|c r]; [done|]. cbn [measure].
  destruct (c =? 34) eqn:E34; zbool.
  { intros [= <- <-]. exists [], [], r. subst c. repeat split; [constructor|]. unfold zlen. cbn [length]. lia. }
  destruct (c =? 92) eqn:E92; zbool.
  - destruct r as [|e r1]; [done|]. destruct (e =? 117) eqn:Eu; zbool.
    + destruct r1 as [|h1 [|h2 [|h3 [|h4 r5]]]]; try done. destruct (_ && _) eqn:Eh; [|done]. intros Hm.
      apply IH in Hm as (body & d & rest & -> & -> & Hb & Hk); [|cbn [length]; lia].
      exists (92 :: 117 :: h1 :: h2 :: h3 :: h4 :: body), (utf8 (codepoint h1 h2 h3 h4) ++ d), rest. subst.
      repeat split; [by constructor|]. rewrite zlen_app. pose proof (utf8_length (codepoint h1 h2 h3 h4)). lia.
    + destruct (is_simple_escape e) eqn:Es; [|done]. intros Hm.
      apply IH in Hm as (body & d & rest & -> & -> & Hb & Hk); [|cbn [length]; lia].
      apply simple_escape_char in Es as [b Eb]. exists (92 :: e :: body), (b :: d), rest. subst.
      repeat split; [by constructor|]. rewrite zlen_cons. lia.
  - destruct (c <? 32) eqn:Ec; zbool; [done|]. intros Hm.
    apply IH in Hm as (body & d & rest & -> & -> & Hb & Hk); [|cbn [length]; lia].
    exists (c :: body), (c :: d), rest. repeat split; [by constructor|]. rewrite zlen_cons. lia.
Qed.

Lemma measure_complete body d rest : json_body body d -> forall n,
  exists k, measure (body ++ 34 :: rest) n = Some (34 :: rest, k) /\ k <= n + zlen body.
Proof.
  induction 1 as [|c e d H34 H92 H32 _ IH|x b e d Hx _ IH|h1 h2 h3 h4 e d Hh _ IH]; intros n.
  - exists n. split; [done|unfold zlen; cbn [length]; lia].
  - destruct (IH (n + 1)) as (k & Hk & Hle). exists k. rewrite zlen_cons. split; [|lia]. cbn.
    rewrite (proj2 (Z.eqb_neq c 34)), (proj2 (Z.eqb_neq c 92)), (proj2 (Z.ltb_ge c 32)) by lia. exact Hk.
  - destruct (IH (n + 1)) as (k & Hk & Hle). exists k. rewrite !zlen_cons. split; [|lia]. cbn.
    assert (Es : is_simple_escape x = true) by (apply simple_escape_char; eauto).
    rewrite (simple_escape_not_u x Es), Es. exact Hk.
  - destruct (IH (n + 3)) as (k & Hk & Hle). exists k. rewrite !zlen_cons. split; [|lia]. cbn. rewrite Hh. exact Hk.
Qed.

Lemma put_out_fits cap out bs : zlen out + zlen bs <= cap -> put_out cap out bs = Some (out ++ bs).
Proof. intros. unfold put_out. zcases; [done|lia]. Qed.

(** The second pass decodes what the first measured, and stays in its block. *)
Lemma decode_body body d scan cap : json_body body d -> forall fuel out,
  (length body <= fuel)%nat -> zlen out + zlen d <= cap -> decode fuel (body ++ scan) scan cap out = Some (Some (out ++ d)).
Proof.
  induction 1 as [|c e d H34 H92 H32 _ IH|x b e d Hx _ IH|h1 h2 h3 h4 e d Hh _ IH]; intros fuel out Hf Hc.
  - rewrite app_nil_r. destruct fuel; cbn [decode app]; zcases; try lia; done.
  - destruct fuel as [|fuel]; cbn [length] in Hf; [lia|]. cbn [decode app]. zcases; [zlens; lia|].
    rewrite zlen_cons in Hc. cbn [lookup list_lookup mbind option_bind drop].
    rewrite (proj2 (Z.eqb_neq c 92)), put_out_fits by (done || (zlens; lia)). cbn [mbind option_bind].
    rewrite IH, <- (assoc_L (++)) by (zlens; lia). done.
  - destruct fuel as [|fuel]; cbn [length] in Hf; [lia|]. cbn [decode app]. zcases; [zlens; lia|].
    rewrite zlen_cons in Hc. cbn [lookup list_lookup mbind option_bind drop]. cbn [Z.eqb Pos.eqb]. rewrite Hx.
    rewrite put_out_fits by (zlens; lia). cbn [mbind option_bind]. rewrite IH, <- (assoc_L (++)) by (zlens; lia). done.
  - destruct fuel as [|fuel]; cbn [length] in Hf; [lia|]. cbn [decode app]. zcases; [zlens; lia|].
    rewrite zlen_app in Hc. pose proof (zlen_nonneg d). cbn [lookup list_lookup mbind option_bind drop]. cbn [Z.eqb Pos.eqb].
    change (simple_char 117) with (@None Z). cbv iota.
    rewrite put_out_fits by lia. cbn [mbind option_bind]. rewrite IH, <- (assoc_L (++)) by (rewrite ?zlen_app; lia). done.
Qed.

(** ** Strings *)

(** Blocks are named by the call that made them. *)
Definition mem_wf (m : mem) : Prop := forall b, b ∈ m_live m -> (b < m_calls m)%nat.

Lemma free_live b m : mem_wf m -> b ∈ m_live m ->
  exists m', free (Some b) m = Some m' /\ mem_wf m' /\ m_live m' = m_live m ∖ {[b]}.
Proof. intros Hm Hb. unfold free. rewrite decide_True by done. eexists. split; [done|]. split; [|done]. intros x Hx. apply Hm. cbn in Hx. set_solver. Qed.

Section Malloc.
Context `{Malloc}.

(** What a parsed string is: a fresh block, and what the grammar says. *)
Definition parsed (s : bytes) (max_len : Z) (m : mem) (p : string_result) (m' : mem) : Prop :=
  mem_wf m' /\
  match p with
  | PFail rc => (rc = -1 \/ rc = -2) /\ m_live m' = m_live m
  | POk b out rest =>
      b ∉ m_live m /\ m_live m' = {[b]} ∪ m_live m /\ zlen out <= max_len /\
      exists body, skip_ws s = 34 :: body ++ 34 :: rest /\ json_body body out
  end.

Lemma malloc_spec n m : mem_wf m -> exists b m', malloc n m = (b, m') /\ mem_wf m' /\
  match b with Some b => b ∉ m_live m /\ m_live m' = {[b]} ∪ m_live m | None => m_live m' = m_live m end.
Proof.
  intros Hm. unfold malloc. destruct (malloc_ok _ _); eexists _, _; (split; [reflexivity|]); cbn; (split; [|try done]).
  - intros b. cbn. rewrite elem_of_union, elem_of_singleton. intros [-> | Hb]; [lia|]. apply Hm in Hb. lia.
  - split; [|done]. intros Hb. apply Hm in Hb. lia.
  - intros b Hb. apply Hm in Hb. cbn. lia.
Qed.

Lemma parse_string_spec s max_len m : mem_wf m ->
  exists p m', parse_string s max_len m = Some (p, m') /\ parsed s max_len m p m'.
Proof.
  intros Hm. unfold parse_string, parsed.
  assert (Hfail : forall rc, rc = -1 \/ rc = -2 -> exists p m', Some (PFail rc, m) = Some (p, m') /\ mem_wf m' /\
    match p with
    | PFail rc => (rc = -1 \/ rc = -2) /\ m_live m' = m_live m
    | POk b out rest => b ∉ m_live m /\ m_live m' = {[b]} ∪ m_live m /\ zlen out <= max_len /\
        exists body, skip_ws s = 34 :: body ++ 34 :: rest /\ json_body body out
    end) by (intros rc ?; eexists (PFail rc), m; done).
  destruct (skip_ws s) as [|c start] eqn:Es; [apply Hfail; by left|].
  destruct (c =? 34) eqn:Ec; cbn [negb]; [|apply Hfail; by left].
  destruct (measure start 0) as [[scan k]|] eqn:Em; [|apply Hfail; by left].
  destruct (max_len <? k) eqn:Ek; [apply Hfail; by right|]. clear Hfail. zbool. subst c.
  apply measure_sound in Em as (body & d & rest & -> & -> & Hb & Hk).
  destruct (malloc_spec (k + 1) m Hm) as (b & m1 & -> & Hm1 & Hlive). destruct b as [b|].
  - destruct Hlive as (Hb' & Hl1). rewrite (decode_body body d _ _ Hb) by (rewrite ?length_app; unfold zlen in *; cbn [length]; lia).
    cbn [mbind option_bind app]. rewrite put_out_fits by (unfold zlen in *; cbn [length]; lia). cbn [mbind option_bind drop].
    eexists (POk b d rest), m1. repeat split; try done; [lia|]. by exists body.
  - eexists (PFail (-1)), m1. repeat split; [done|by left|done].
Qed.

(** A well-formed string of at most [max_len] characters is only refused for memory. *)
Lemma parse_string_complete s max_len m body d rest : json_body body d -> skip_ws s = 34 :: body ++ 34 :: rest ->
  zlen body <= max_len -> exists k, 0 <= k <= zlen body /\
  parse_string s max_len m = Some (if malloc_ok (m_calls m) (k + 1) then POk (m_calls m) d rest else PFail (-1), (malloc (k + 1) m).2).
Proof.
  intros Hb Hs Hlen. destruct (measure_complete body d rest Hb 0) as (k & Hk & Hle).
  pose proof (measure_sound _ _ _ _ Hk) as (body' & d' & rest' & E & [= <-] & Hb' & Hd').
  apply app_inj_2 in E as [-> _]; [|done].
  assert (d' = d) as ->.
  { pose proof (decode_body _ _ [] (zlen d + zlen d') Hb' (length body') [] ltac:(lia) ltac:(unfold zlen; cbn [length]; lia)) as H1.
    pose proof (decode_body _ _ [] (zlen d + zlen d') Hb (length body') [] ltac:(lia) ltac:(unfold zlen; cbn [length]; lia)) as H2.
    rewrite H1 in H2. by injection H2. }
  exists k. pose proof (zlen_nonneg d). split; [lia|]. unfold parse_string. rewrite Hs. cbn [Z.eqb Pos.eqb negb]. rewrite Hk.
  zcase; [lia|]. unfold malloc. destruct (malloc_ok _ _); [|done].
  rewrite (decode_body body' d _ _ Hb) by (rewrite ?length_app; unfold zlen in *; cbn [length]; lia).
  cbn [mbind option_bind app]. rewrite put_out_fits by (unfold zlen in *; cbn [length]; lia). done.
Qed.
End Malloc.

(** ** Requests: progress *)

Lemma skip_ws_length s : (length (skip_ws s) <= length s)%nat.
Proof. induction s as [|c s IH]; cbn; [lia|]. case_match; cbn; lia. Qed.

Lemma expect_length s c r : expect s c = Some r -> (length r < length s)%nat.
Proof.
  unfold expect. pose proof (skip_ws_length s). destruct (skip_ws s); [done|]. case_match; [|done]. intros [= <-]. cbn in *. lia.
Qed.

Lemma digits_length q : forall v x r, digits q v = Some (x, r) -> (length r <= length q)%nat /\ (v <= UINT64_MAX -> 0 <= v -> 0 <= x <= UINT64_MAX).
Proof.
  induction q as [|d q IH]; intros v x r; cbn [digits]; [intros [= <- <-]; cbn; lia|].
  destruct (is_digit d) eqn:Ed; [|intros [= <- <-]; cbn; lia]. destruct (_ <? v) eqn:Eo; [done|].
  intros H%IH. zbool. unfold is_digit in Ed. zbool. cbn [length]. split; [lia|]. intros. apply H; [|lia].
  assert (10 * v <= UINT64_MAX - (d - 48)) by (apply Z.div_le_lower_bound in Eo || (pose proof (Z.mul_div_le (UINT64_MAX - (d - 48)) 10); lia); lia). lia.
Qed.

Lemma parse_uint64_length s v r : parse_uint64 s = Some (v, r) -> (length r <= length s)%nat /\ 0 <= v <= UINT64_MAX.
Proof.
  unfold parse_uint64. pose proof (skip_ws_length s). destruct (skip_ws s) as [|d q]; [done|]. case_match; [|done].
  intros [? ?]%digits_length. split; [lia|]. assert (0 <= UINT64_MAX) by done. lia.
Qed.

Lemma skip_string_length s : forall r, skip_string s = Some r -> (0 < length r <= length s)%nat.
Proof.
  induction s as [s IH] using (well_founded_induction (well_founded_ltof _ length)). unfold ltof in IH.
  destruct s as [|c s]; [done|]. cbn. intros r. case_match; [intros [= <-]; cbn; lia|]. case_match.
  - destruct s as [|e s]; [done|]. intros H1%IH; cbn in *; lia.
  - intros H1%IH; cbn in *; lia.
Qed.

Lemma skip_number_length s : (length (skip_number s) <= length s)%nat.
Proof. induction s as [|d s IH]; cbn; [lia|]. case_match; cbn; lia. Qed.

Lemma skip_nested_total fuel : forall o c depth s, (length s <= fuel)%nat ->
  exists r, skip_nested fuel o c depth s = Some r /\ forall s', r = Some s' -> (length s' <= length s)%nat.
Proof.
  induction fuel as [|fuel IH]; intros o c depth s Hs; cbn [skip_nested].
  { destruct s as [|d s]; [|cbn in Hs; lia]. case_match; eexists; (split; [done|]); intros s' [= <-]; done. }
  case_match; [eexists; split; [done|]; by intros s' [= <-]|]. destruct s as [|d s]; [by eexists|]. cbn [length] in *.
  case_match; [destruct (skip_string s) as [r|] eqn:Er; [|by eexists]|repeat case_match].
  - apply skip_string_length in Er. destruct (IH o c depth (drop 1 r)) as (x & -> & Hx); [rewrite length_drop; lia|].
    exists x. split; [done|]. intros s' H'. apply Hx in H'. rewrite length_drop in H'. lia.
  - destruct (IH o c (depth + 1) s) as (x & -> & Hx); [lia|]. exists x. split; [done|]. intros s' H'. apply Hx in H'. lia.
  - destruct (IH o c (depth - 1) s) as (x & -> & Hx); [lia|]. exists x. split; [done|]. intros s' H'. apply Hx in H'. lia.
  - destruct (IH o c depth s) as (x & -> & Hx); [lia|]. exists x. split; [done|]. intros s' H'. apply Hx in H'. lia.
Qed.

Lemma skip_value_total s : exists r, skip_value s = Some r /\ forall s', r = Some s' -> (length s' <= length s)%nat.
Proof.
  unfold skip_value. pose proof (skip_ws_length s) as Hw. destruct (skip_ws s) as [|c q]; [by eexists|]. cbn [length] in Hw.
  destruct (c =? 34).
  { eexists. split; [done|]. intros s' (r & Hr & ->)%fmap_Some. apply skip_string_length in Hr. rewrite length_drop. lia. }
  destruct (_ || is_digit c).
  { eexists. split; [done|]. intros s' [= <-]. destruct (c =? 45).
    - pose proof (skip_number_length q). lia.
    - pose proof (skip_number_length (c :: q)). cbn [length] in *. lia. }
  destruct (_ || (c =? 110)).
  { eexists. split; [done|]. intros s'. case_decide; [|done]. intros [= <-]. rewrite length_drop. cbn [length]. lia. }
  destruct (_ || _); [|by eexists].
  destruct (skip_nested_total (length q) c (if c =? 91 then 93 else 125) 1 q) as (r & -> & Hr); [lia|].
  exists r. split; [done|]. intros s' H'. apply Hr in H'. lia.
Qed.

(** ** Requests: ownership *)

Definition owns (r : UReplNdjsonReq) : gset nat :=
  list_to_set (option_list (fst <$> req_code r)) ∪ list_to_set (option_list (fst <$> req_what r)).

Record req_ok (r : UReplNdjsonReq) : Prop := {
  ok_id : 0 <= req_id r < 2 ^ 64;
  ok_code : match req_code r with Some (_, c) => req_code_len r = zlen c /\ zlen c <= UREPL_MAX_CODE | None => req_code_len r = 0 end;
  ok_what : forall b w, req_what r = Some (b, w) -> zlen w <= UREPL_MAX_WHAT;
  ok_distinct : forall a b, fst <$> req_code r = Some a -> fst <$> req_what r = Some b -> a <> b }.

(** The heap is what was live before the parse, [L], what the request owns, and [X]. *)
Record holds (L X : gset nat) (r : UReplNdjsonReq) (m : mem) : Prop := {
  h_wf : mem_wf m;
  h_live : m_live m = L ∪ owns r ∪ X;
  h_disj : owns r ## L;
  h_extra : X ## L ∪ owns r;
  h_req : req_ok r }.

Lemma zero_req_ok : req_ok zero_req.
Proof. by split. Qed.

Lemma holds_zero m : mem_wf m -> holds (m_live m) ∅ zero_req m.
Proof. intros Hm. split; [done|set_solver|set_solver|set_solver|apply zero_req_ok]. Qed.

Lemma free_extra L b r m : holds L {[b]} r m -> exists m', free (Some b) m = Some m' /\ holds L ∅ r m'.
Proof.
  intros [Hm Hl Hd Hx Hr]. destruct (free_live b m Hm) as (m' & -> & Hm' & Hl'); [rewrite Hl; set_solver|].
  exists m'. split; [done|]. split; [done| |done|set_solver|done]. rewrite Hl', Hl. set_solver.
Qed.

Lemma free_req_owned L r m : holds L ∅ r m -> exists m', urepl_ndjson_free_req r m = Some (zero_req, m') /\ mem_wf m' /\ m_live m' = L.
Proof.
  intros [Hm Hl Hd _ [_ _ _ Hne]]. unfold urepl_ndjson_free_req, owns in *. revert Hl Hd Hne.
  destruct (fst <$> req_code r) as [a|], (fst <$> req_what r) as [b|]; cbn [option_list list_to_set]; intros Hl Hd Hne.
  - specialize (Hne a b eq_refl eq_refl). destruct (free_live a m Hm) as (m1 & -> & Hm1 & Hl1); [rewrite Hl; cbn; set_solver|]. cbn [mbind option_bind].
    destruct (free_live b m1 Hm1) as (m2 & -> & Hm2 & Hl2); [rewrite Hl1, Hl; cbn; set_solver|]. cbn [mbind option_bind].
    exists m2. split; [done|]. split; [done|]. rewrite Hl2, Hl1, Hl. cbn in *. set_solver.
  - destruct (free_live a m Hm) as (m1 & -> & Hm1 & Hl1); [rewrite Hl; cbn; set_solver|]. cbn.
    exists m1. split; [done|]. split; [done|]. rewrite Hl1, Hl. cbn in *. set_solver.
  - destruct (free_live b m Hm) as (m1 & Hf & Hm1 & Hl1); [rewrite Hl; cbn; set_solver|]. change (free None m) with (Some m). cbn [mbind option_bind]. rewrite Hf. cbn.
    exists m1. split; [done|]. split; [done|]. rewrite Hl1, Hl. cbn in *. set_solver.
  - exists m. cbn in *. split; [done|]. split; [done|]. rewrite Hl. set_solver.
Qed.

Lemma holds_req L r r' m : owns r' = owns r -> req_ok r' -> holds L ∅ r m -> holds L ∅ r' m.
Proof. intros Ho Hr' [Hm Hl Hd Hx _]. split; [done| | | |done]; by rewrite Ho. Qed.

Section Requests.
Context `{Malloc}.

(** What is left of the line after a step, if the request is not refused. *)
Definition shorter (s : bytes) (s' : option bytes) : Prop := forall q, s' = Some q -> (length q <= length s)%nat.

(** A string read into a field the request does not hold yet. *)
Lemma parse_owned L r m s max_len : holds L ∅ r m ->
  exists p m', parse_string s max_len m = Some (p, m') /\
  match p with
  | PFail _ => holds L ∅ r m'
  | POk b out rest => holds L {[b]} r m' /\ zlen out <= max_len /\ (length rest < length s)%nat
  end.
Proof.
  intros [Hm Hl Hd Hx Hr]. destruct (parse_string_spec s max_len m Hm) as (p & m' & -> & Hm' & Hp). exists p, m'. split; [done|].
  destruct p as [rc|b out rest].
  - destruct Hp as [_ Hl']. split; try done. by rewrite Hl'.
  - destruct Hp as (Hb & Hl' & Hlen & body & Es & _). split.
    + rewrite Hl in Hl', Hb. split; [done|rewrite Hl'; set_solver|done|set_solver|done].
    + split; [done|]. pose proof (skip_ws_length s) as Hw. rewrite Es in Hw. rewrite length_cons, length_app, length_cons in Hw. lia.
Qed.

Lemma parse_field_spec L block key s r m : holds L {[block]} r m ->
  exists s' r' m', parse_field block key s r m = Some (s', r', m') /\ holds L ∅ r' m' /\ shorter s s'.
Proof.
  intros Hh. unfold parse_field, shorter. destruct (free_extra _ _ _ _ Hh) as (m1 & -> & G1). cbn [mbind option_bind].
  assert (Hr : req_ok r) by apply Hh. case_decide; [|case_decide; [|case_decide; [|case_decide]]].
  - destruct (parse_uint64 s) as [[v q]|] eqn:Ev; [|by eexists _, _, _]. apply parse_uint64_length in Ev as [? Hv].
    eexists _, _, _. split; [done|]. split; [|by intros ? [= <-]]. apply (holds_req L r); [done| |done].
    destruct Hr. split; try done. unfold UINT64_MAX in Hv. cbn. lia.
  - destruct (parse_owned L r m1 s 32 G1) as (p & m2 & -> & G2). cbn [mbind option_bind]. destruct p as [rc|b o q]; [by eexists _, _, _|].
    destruct G2 as (G2 & _ & Hq). destruct (free_extra _ _ _ _ G2) as (m3 & -> & G3). cbn [mbind option_bind].
    case_decide; [by eexists _, _, _|]. eexists _, _, _. split; [done|]. split; [|intros ? [= <-]; lia].
    apply (holds_req L r); [done| |done]. destruct Hr. by split.
  - destruct (req_code r) as [c|] eqn:Ec; [by eexists _, _, _|].
    destruct (parse_owned L r m1 s UREPL_MAX_CODE G1) as (p & m2 & -> & G2). cbn [mbind option_bind]. destruct p as [rc|b o q].
    + eexists _, _, _. split; [done|]. split; [|done]. apply (holds_req L r); [unfold owns; cbn; by rewrite Ec| |done]. destruct Hr. by split.
    + destruct G2 as ([Hm Hl Hd Hx _] & Hlen & Hq). eexists _, _, _. split; [done|]. split; [|intros ? [= <-]; lia].
      unfold owns in *. rewrite Ec in *. cbn in Hl, Hd, Hx. split; unfold owns; cbn; [done|rewrite Hl; set_solver|set_solver|set_solver|].
      destruct Hr as [? _ ? _]. split; cbn; try done. intros ? w [= <-] Hw <-. rewrite Hw in Hx. cbn in Hx. set_solver.
  - destruct (req_what r) as [c|] eqn:Ec; [by eexists _, _, _|].
    destruct (parse_owned L r m1 s UREPL_MAX_WHAT G1) as (p & m2 & -> & G2). cbn [mbind option_bind]. destruct p as [rc|b o q].
    + eexists _, _, _. split; [done|]. split; [|done]. apply (holds_req L r); [unfold owns; cbn; by rewrite Ec| |done]. destruct Hr. by split.
    + destruct G2 as ([Hm Hl Hd Hx _] & Hlen & Hq). eexists _, _, _. split; [done|]. split; [|intros ? [= <-]; lia].
      unfold owns in *. rewrite Ec in *. cbn in Hl, Hd, Hx. split; unfold owns; cbn; [done|rewrite Hl; set_solver|set_solver|set_solver|].
      destruct Hr as [? ? _ _]. split; cbn; try done; [by intros ? ? [= <- <-]|]. intros a ? Ha [= <-] ->. rewrite Ha in Hx. cbn in Hx. set_solver.
  - destruct (skip_value_total s) as (q & -> & Hq). cbn. by eexists _, _, _.
Qed.

Lemma parse_key_spec L r first s m : holds L ∅ r m ->
  exists k m', parse_key first s m = Some (k, m') /\
  match k with None => holds L ∅ r m' | Some (b, key, q) => holds L {[b]} r m' /\ (length q < length s)%nat end.
Proof.
  intros Hh. unfold parse_key.
  destruct (if first then Some s else skip_ws <$> expect s 44) as [q|] eqn:Eq; [|by eexists None, _].
  assert (Hq : (length q <= length s)%nat).
  { destruct first; [by injection Eq as ->|]. apply fmap_Some in Eq as (q' & Hq' & ->). apply expect_length in Hq'.
    pose proof (skip_ws_length q'). lia. }
  destruct (parse_owned L r m q 64 Hh) as (p & m1 & -> & G1). cbn [mbind option_bind]. destruct p as [rc|b o q2]; [by eexists None, _|].
  destruct G1 as (G1 & _ & Hq2). destruct (expect q2 58) as [q3|] eqn:E3.
  - eexists (Some (b, o, skip_ws q3)), _. split; [done|]. split; [done|]. apply expect_length in E3. pose proof (skip_ws_length q3). lia.
  - destruct (free_extra _ _ _ _ G1) as (m2 & -> & G2). by eexists None, _.
Qed.

(** How the parser may end. *)
Definition parse_outcome (L : gset nat) (rc : Z) (r : UReplNdjsonReq) (m : mem) : Prop :=
  rc = -1 /\ r = zero_req /\ mem_wf m /\ m_live m = L \/
  rc = 0 /\ req_op r <> UREPL_OP_NONE /\ holds L ∅ r m.

Lemma refuse_req_spec L r m : holds L ∅ r m -> exists rc r' m', refuse_req r m = Some (rc, r', m') /\ parse_outcome L rc r' m'.
Proof.
  intros (m' & Hf & Hm' & Hl')%free_req_owned. unfold refuse_req. rewrite Hf. cbn. eexists _, _, _. split; [done|]. by left.
Qed.

Lemma parse_loop_spec L fuel : forall first s r m, holds L ∅ r m -> (length s <= fuel)%nat ->
  exists rc r' m', parse_loop fuel first s r m = Some (rc, r', m') /\ parse_outcome L rc r' m'.
Proof.
  induction fuel as [|fuel IH]; intros first s r m Hh Hf; cbn [parse_loop]; pose proof (skip_ws_length s) as Hw.
  { destruct (skip_ws s); [by apply refuse_req_spec|cbn in Hw; lia]. }
  destruct (skip_ws s) as [|c q] eqn:Es; [by apply refuse_req_spec|].
  destruct (c =? 125).
  { case_decide; [by apply refuse_req_spec|]. eexists _, _, _. split; [done|]. by right. }
  destruct (parse_key_spec L r first (c :: q) m Hh) as (k & m1 & -> & G1). cbn [mbind option_bind].
  destruct k as [[[b key] q2]|]; [|by apply refuse_req_spec]. destruct G1 as [G1 Hq2].
  destruct (parse_field_spec L b key q2 r m1 G1) as (s' & r' & m2 & -> & G2 & Hs'). cbn [mbind option_bind].
  destruct s' as [q3|]; [|by apply refuse_req_spec]. apply IH; [done|]. specialize (Hs' q3 eq_refl). lia.
Qed.
End Requests.

(** JSON strings: on any line, under any allocator, reading a string stays
    inside the line and inside the block it sized in its first pass; what it
    returns is what the string grammar denotes, in a fresh block, within the
    cap; a failure allocates nothing that stays; and a well-formed string of
    at most [max_len] characters fails only if the allocator refuses. *)
Theorem parse_string_decodes {M : Malloc} s max_len m : mem_wf m ->
  (exists p m', parse_string s max_len m = Some (p, m') /\ parsed s max_len m p m') /\
  (forall body d rest, json_body body d -> skip_ws s = 34 :: body ++ 34 :: rest -> zlen body <= max_len ->
     exists k, 0 <= k <= zlen body /\ parse_string s max_len m =
       Some (if malloc_ok (m_calls m) (k + 1) then POk (m_calls m) d rest else PFail (-1), (malloc (k + 1) m).2)).
Proof. intros Hm. split; [by apply parse_string_spec|]. intros body d rest. apply parse_string_complete. Qed.

Lemma parse_string_decodes_witness : exists m',
  @parse_string test_malloc (lit " 'a\u0041\n'}") 8 (MkMem 0 ∅) = Some (POk 0 [97; 65; 10] (lit "}"), m') /\
  @parsed (lit " 'a\u0041\n'}") 8 (MkMem 0 ∅) (POk 0 [97; 65; 10] (lit "}")) m'.
Proof.
  destruct (@parse_string_decodes test_malloc (lit " 'a\u0041\n'}") 8 (MkMem 0 ∅)) as [(p & m' & E & Hp) _].
  - intros b Hb. by apply elem_of_empty in Hb.
  - exists m'. vm_compute in E. injection E as <- <-. split; [reflexivity|exact Hp].
Defined.

(** C25 requests: on any line, of any length, under any allocator, the request
    parser runs to its end without a read past the line, a store past a block
    or a bad free; a refused request is zeroed and leaves the heap as it was;
    an accepted one names an operation, holds its fields within their caps in
    blocks of its own, and freeing it gives every block back. *)
Theorem request_parse_safe {M : Malloc} line m : mem_wf m ->
  exists rc r m', urepl_ndjson_parse line m = Some (rc, r, m') /\
  (rc = -1 /\ r = zero_req /\ m_live m' = m_live m \/
   rc = 0 /\ req_op r <> UREPL_OP_NONE /\ req_ok r /\ m_live m' = m_live m ∪ owns r /\ owns r ## m_live m /\
   exists m'', urepl_ndjson_free_req r m' = Some (zero_req, m'') /\ m_live m'' = m_live m).
Proof.
  intros Hm. unfold urepl_ndjson_parse. destruct (_ <? _); [eexists _, _, _; split; [done|by left]|].
  destruct (expect line 123) as [s|]; [|eexists _, _, _; split; [done|by left]].
  case_bool_decide; [eexists _, _, _; split; [done|by left]|].
  destruct (parse_loop_spec (m_live m) (S (length (skip_ws s))) true (skip_ws s) zero_req m (holds_zero m Hm) ltac:(lia))
    as (rc & r & m' & -> & [(-> & -> & Hm' & Hl)|(-> & Hop & Hh)]).
  - eexists _, _, _. split; [done|by left].
  - eexists _, _, _. split; [done|]. right. destruct (free_req_owned _ _ _ Hh) as (m'' & Hf & _ & Hl).
    destruct Hh as [Hm' Hlive Hd _ Hr]. repeat split; try done; try apply Hr; [rewrite Hlive; set_solver|]. by exists m''.
Qed.

Lemma request_parse_safe_witness : exists r m', @urepl_ndjson_parse test_malloc (lit "{'op':'eval'}") (MkMem 0 ∅) = Some (0, r, m') /\ req_ok r.
Proof.
  destruct (@request_parse_safe test_malloc (lit "{'op':'eval'}") (MkMem 0 ∅)) as (rc & r & m' & E & [(-> & _)|(-> & _ & Hr & _)]).
  - intros b Hb. by apply elem_of_empty in Hb.
  - vm_compute in E. discriminate E.
  - exists r, m'. split; [exact E|exact Hr].
Defined.

End Ndjson.
