(* ===== verification/NdjsonOut.v ===== *)
(** * The REPL's response emitter (src/src/repl/urepl_ndjson.c, second half)

    A buffer is the list of its bytes and a store past its end is a fault;
    [snprintf] is the C library's, for the two formats the code uses. *)
From Stdlib Require Import Ascii String.
From S2P Require Import Prelude Text Ndjson.
Import Ndjson.

Module NdjsonOut.

(** ** The C library *)

Definition memcpy (buf : bytes) (off : Z) (bs : bytes) : option bytes :=
  if (0 <=? off) && (off + zlen bs <=? zlen buf) then Some (splice buf off bs) else None.

(** [snprintf(buf + off, size, ...)] printing [text]: truncated to the size, with a NUL; the untruncated length. *)
Definition snprintf (buf : bytes) (off size : Z) (text : bytes) : option (bytes * Z) :=
  if size <=? 0 then Some (buf, zlen text)
  else buf ← memcpy buf off (take (Z.to_nat (size - 1)) text ++ [0]); Some (buf, zlen text).

Definition hex_digit (n : Z) : Z := if n <? 10 then 48 + n else 97 + (n - 10).

(** ["%04x"] of a value below 65536. *)
Definition fmt_04x (c : Z) : bytes :=
  [hex_digit (c / 4096); hex_digit (c / 256 mod 16); hex_digit (c / 16 mod 16); hex_digit (c mod 16)].

(** ["%llu"]. *)
Fixpoint dec_loop (fuel : nat) (v : Z) (acc : bytes) : bytes :=
  match fuel with
  | O => acc
  | S fuel => let acc := (48 + v mod 10) :: acc in if v / 10 =? 0 then acc else dec_loop fuel (v / 10) acc
  end.
Definition fmt_llu (v : Z) : bytes := dec_loop 20 v [].

(** ** Escaping *)

(** The cast [(int)j] of a size. *)
Definition int_of (j : Z) : Z := let y := u32 j in if y <? 2 ^ 31 then y else y - 2 ^ 32.

(** The letter after the backslash, for the characters that have a short escape. *)
Definition short_escape (c : Z) : option Z :=
  if (c =? 34) || (c =? 92) then Some c
  else if c =? 10 then Some 110 else if c =? 13 then Some 114 else if c =? 9 then Some 116
  else if c =? 8 then Some 98 else if c =? 12 then Some 102 else None.

(** [dst] is [buf + base]; inner [None] is -1. *)
Fixpoint escape_loop (src : bytes) (buf : bytes) (base dst_cap j : Z) : option (bytes * option Z) :=
  match src with
  | [] => Some (buf, Some j)
  | c :: src =>
      match short_escape c with
      | Some e =>
          if dst_cap <? j + 2 then Some (buf, None)
          else
            buf ← store buf (base + j) 92;
            buf ← store buf (base + j + 1) e;
            escape_loop src buf base dst_cap (j + 2)
      | None =>
          if c <? 32 then
            if dst_cap <? j + 6 then Some (buf, None)
            else
              '(buf, w) ← snprintf buf (base + j) (dst_cap - j) (lit "\u" ++ fmt_04x c);
              if dst_cap - j <=? w then Some (buf, None) else escape_loop src buf base dst_cap (j + w)
          else if dst_cap <? j + 1 then Some (buf, None)
          else
            buf ← store buf (base + j) c;
            escape_loop src buf base dst_cap (j + 1)
      end
  end.

Definition urepl_json_escape (src buf : bytes) (base dst_cap : Z) : option (bytes * Z) :=
  '(buf, r) ← escape_loop src buf base dst_cap 0;
  Some (buf, match r with Some j => int_of j | None => -1 end).

(** ** Appending *)

Inductive eres := EOk (buf : bytes) (off : Z) | EErr (buf : bytes).

Definition estep : Type := bytes -> Z -> option eres.

(** [if (a != 0) return -1; b]. *)
Definition eseq (a b : estep) : estep := fun buf off =>
  r ← a buf off; match r with EOk buf off => b buf off | EErr buf => Some (EErr buf) end.

Definition eskip : estep := fun buf off => Some (EOk buf off).

Infix ";;;" := eseq (at level 61, left associativity).

Definition append_lit (cap : Z) (s : bytes) : estep := fun buf off =>
  let n := zlen (cstr s) in
  if cap <=? off + n then Some (EErr buf)
  else buf ← memcpy buf off (cstr s); Some (EOk buf (off + n)).

Definition append_escaped (cap : Z) (s : bytes) : estep := fun buf off =>
  if cap <=? off then Some (EErr buf)
  else
    '(buf, w) ← urepl_json_escape s buf off (cap - off);
    if w <? 0 then Some (EErr buf) else Some (EOk buf (off + w)).

Definition append_quoted (cap : Z) (s : bytes) : estep :=
  append_lit cap (lit "'") ;;; append_escaped cap (cstr s) ;;; append_lit cap (lit "'").

Definition append_u64 (cap : Z) (v : Z) : estep := fun buf off =>
  if cap <=? off then Some (EErr buf)
  else
    '(buf, w) ← snprintf buf off (cap - off) (fmt_llu v);
    if cap - off <=? w then Some (EErr buf) else Some (EOk buf (off + w)).

(** The result code, the buffer, and [*out_len] where it is set. *)
Definition finish (cap : Z) (buf : bytes) (off : Z) : option (Z * bytes * option Z) :=
  if cap <=? off + 1 then Some (-1, buf, Some (off + 2))
  else
    buf ← store buf off 10;
    buf ← store buf (off + 1) 0;
    Some (0, buf, Some (off + 1)).

Definition emit (cap : Z) (body : estep) (buf : bytes) : option (Z * bytes * option Z) :=
  r ← body buf 0; match r with EOk buf off => finish cap buf off | EErr buf => Some (-1, buf, None) end.

(** ** Envelopes *)

Definition emit_id (cap : Z) (id_or_zero : Z) : estep :=
  if id_or_zero =? 0 then eskip
  else append_lit cap (lit "'id':") ;;; append_u64 cap id_or_zero ;;; append_lit cap (lit ",").

(** A [char *] argument: [None] is NULL. *)
Definition urepl_ndjson_emit_result (cap id : Z) (value_json : option bytes) (buf : bytes) :=
  emit cap (append_lit cap (lit "{'id':") ;;; append_u64 cap id ;;; append_lit cap (lit ",'kind':'result','value':") ;;;
    append_lit cap (match cstr (default [] value_json) with [] => lit "null" | v => v end) ;;; append_lit cap (lit "}")) buf.

Definition urepl_ndjson_emit_output (cap id_or_zero : Z) (channel : option bytes) (msg : bytes) (buf : bytes) :=
  emit cap (append_lit cap (lit "{") ;;; emit_id cap id_or_zero ;;; append_lit cap (lit "'kind':'output','channel':") ;;;
    append_quoted cap (default [] channel) ;;; append_lit cap (lit ",'msg':'") ;;; append_escaped cap msg ;;; append_lit cap (lit "'}")) buf.

Definition urepl_ndjson_emit_done (cap id : Z) (buf : bytes) :=
  emit cap (append_lit cap (lit "{'id':") ;;; append_u64 cap id ;;; append_lit cap (lit ",'kind':'done'}")) buf.

Definition urepl_ndjson_emit_error (cap id_or_zero : Z) (code msg : option bytes) (buf : bytes) :=
  emit cap (append_lit cap (lit "{") ;;; emit_id cap id_or_zero ;;; append_lit cap (lit "'kind':'error','code':") ;;;
    append_quoted cap (default (lit "error") code) ;;;
    match cstr (default [] msg) with
    | [] => eskip
    | m => append_lit cap (lit ",'message':") ;;; append_quoted cap m
    end ;;; append_lit cap (lit "}")) buf.

Example emit_sample :
  (fun '(rc, buf, n) => (rc, take 40 buf, n)) <$> urepl_ndjson_emit_error 60 7 (Some (lit "x")) (Some [97; 10; 1]) (replicate 60 255)
  = Some (0, take 40 (lit "{'id':7,'kind':'error','code':'x','message':'a\n\u0001'}" ++ [10]), Some 57).
Proof. vm_compute. reflexivity. Qed.

(** ** What is written *)

Definition escape1 (c : Z) : bytes :=
  match short_escape c with
  | Some e => [92; e]
  | None => if c <? 32 then lit "\u" ++ fmt_04x c else [c]
  end.
Definition escape (src : bytes) : bytes := concat (escape1 <$> src).

(** [t] was written at [off]; what follows it is not specified, [snprintf]
    leaves a NUL there. *)
Definition written (buf : bytes) (off : Z) (t : bytes) (buf' : bytes) : Prop :=
  zlen buf' = zlen buf /\ take (Z.to_nat (off + zlen t)) buf' = take (Z.to_nat off) buf ++ t.

Lemma written_nil buf off : written buf off [] buf.
Proof. split; [done|]. by rewrite Z.add_0_r, app_nil_r. Qed.

Lemma written_app buf off t buf1 u buf2 : written buf off t buf1 -> written buf1 (off + zlen t) u buf2 -> written buf off (t ++ u) buf2.
Proof. intros [L1 T1] [L2 T2]. split; [congruence|]. by rewrite zlen_app, Z.add_assoc, T2, T1, (assoc_L (++)). Qed.

Lemma written_splice buf off t u : 0 <= off -> off + zlen t + zlen u <= zlen buf -> written buf off t (splice buf off (t ++ u)).
Proof.
  intros. unfold zlen in *. split.
  - unfold zlen. rewrite length_splice; rewrite ?length_app; lia.
  - unfold splice. rewrite <- (assoc_L (++) t u), (assoc_L (++) (take _ buf) t). apply take_app_length'.
    rewrite length_app, length_take. unfold zlen. lia.
Qed.

Lemma written_memcpy buf off t u : 0 <= off -> off + zlen t + zlen u <= zlen buf ->
  exists buf', memcpy buf off (t ++ u) = Some buf' /\ written buf off t buf'.
Proof.
  intros. unfold memcpy. rewrite zlen_app. zcases; [|lia]. eexists. split; [done|]. by apply written_splice.
Qed.

Lemma written_store buf off b : 0 <= off -> off < zlen buf -> exists buf', store buf off b = Some buf' /\ written buf off [b] buf'.
Proof.
  intros. rewrite store_splice by done. eexists. split; [done|].
  apply (written_splice _ _ [b] []); [done|]. unfold zlen in *. cbn [length]. lia.
Qed.

Lemma written_pair buf off a b : 0 <= off -> off + 2 <= zlen buf ->
  exists buf', (buf1 ← store buf off a; store buf1 (off + 1) b) = Some buf' /\ written buf off [a; b] buf'.
Proof.
  intros. destruct (written_store buf off a) as (b1 & -> & W1); [lia|lia|]. cbn [mbind option_bind].
  destruct (written_store b1 (off + 1) b) as (b2 & -> & W2); [lia|rewrite (proj1 W1); lia|]. exists b2. split; [done|].
  by apply (written_app _ _ [a] b1 [b]).
Qed.

(** [snprintf] of a text that fits with its NUL, and of one that does not. *)
Lemma snprintf_fits buf off size text : 0 <= off -> off + size <= zlen buf -> zlen text < size ->
  exists buf', snprintf buf off size text = Some (buf', zlen text) /\ written buf off text buf'.
Proof.
  intros. pose proof (zlen_nonneg text). unfold snprintf. zcase; [lia|]. rewrite take_ge by (unfold zlen in *; lia).
  destruct (written_memcpy buf off text [0]) as (b & -> & W); [lia|change (zlen [0]) with 1; lia|]. by exists b.
Qed.

Lemma snprintf_full buf off size text : 0 <= off -> off + size <= zlen buf ->
  exists buf', snprintf buf off size text = Some (buf', zlen text) /\ zlen buf' = zlen buf.
Proof.
  intros. unfold snprintf. zcase; [by eexists|].
  destruct (written_memcpy buf off (take (Z.to_nat (size - 1)) text) [0]) as (b & -> & W); [lia| |].
  - change (zlen [0]) with 1. unfold zlen at 1. rewrite length_take. lia.
  - exists b. split; [done|]. apply W.
Qed.

Lemma fmt_04x_length c : zlen (lit "\u" ++ fmt_04x c) = 6.
Proof. done. Qed.

(** The escaper: with room to spare it writes the escaped text, else it says
    so, or has used exactly the room it was given. *)
Definition escaped_to (buf : bytes) (base cap j : Z) (t : bytes) (r : option (bytes * option Z)) : Prop :=
  (j + zlen t < cap -> exists buf', r = Some (buf', Some (j + zlen t)) /\ written buf (base + j) t buf') /\
  (cap <= j + zlen t -> exists buf' o, r = Some (buf', o) /\ zlen buf' = zlen buf /\
     (o = None \/ o = Some cap /\ cap = j + zlen t /\ written buf (base + j) t buf')).

Lemma escaped_fail buf base cap j t buf' : zlen buf' = zlen buf -> cap <= j + zlen t -> escaped_to buf base cap j t (Some (buf', None)).
Proof. intros. split; [lia|]. intros _. eexists _, _. split; [done|]. split; [done|by left]. Qed.

Lemma escaped_more buf base cap j t buf1 u r : written buf (base + j) t buf1 -> escaped_to buf1 base cap (j + zlen t) u r ->
  escaped_to buf base cap j (t ++ u) r.
Proof.
  intros W [I1 I2]. unfold escaped_to. rewrite zlen_app. split.
  - intros. destruct I1 as (b & -> & W2); [lia|]. exists b. split; [do 3 f_equal; lia|]. apply (written_app _ _ t buf1); [done|].
    by rewrite <- Z.add_assoc.
  - intros. destruct I2 as (b & o & -> & L & Ho); [lia|]. exists b, o. rewrite L, (proj1 W). split; [done|]. split; [done|].
    destruct Ho as [-> |(-> & Hj & W2)]; [by left|right]. split; [done|]. split; [lia|]. apply (written_app _ _ t buf1); [done|]. by rewrite <- Z.add_assoc.
Qed.

Lemma escape_loop_spec src : forall buf base cap j, 0 <= base -> 0 <= j <= cap -> base + cap <= zlen buf ->
  escaped_to buf base cap j (escape src) (escape_loop src buf base cap j).
Proof.
  induction src as [|c src IH]; intros buf base cap j Hb Hj Hcap.
  { change (escape []) with (@nil Z). cbn [escape_loop]. split; change (zlen (@nil Z)) with 0; rewrite Z.add_0_r.
    - intros _. eexists. split; [done|apply written_nil].
    - intros Hle. assert (j = cap) as -> by lia. eexists _, _. split; [done|]. split; [done|]. right. split; [done|]. split; [lia|apply written_nil]. }
  change (escape (c :: src)) with (escape1 c ++ escape src). pose proof (zlen_nonneg (escape src)) as He.
  assert (Hfail : forall b, zlen b = zlen buf -> cap <= j + zlen (escape1 c) -> escaped_to buf base cap j (escape1 c ++ escape src) (Some (b, None))).
  { intros. apply escaped_fail; [done|]. rewrite zlen_app. lia. }
  assert (Hgo : forall b, written buf (base + j) (escape1 c) b -> j + zlen (escape1 c) <= cap ->
    escaped_to buf base cap j (escape1 c ++ escape src) (escape_loop src b base cap (j + zlen (escape1 c)))).
  { intros b W Hfit. apply (escaped_more _ _ _ _ _ b); [done|]. pose proof (zlen_nonneg (escape1 c)). apply IH; [lia|lia|]. rewrite (proj1 W). lia. }
  cbn [escape_loop]. unfold escape1 in *. destruct (short_escape c) as [e|].
  { change (zlen [92; e]) with 2 in *. destruct (cap <? j + 2) eqn:Ef; zbool; [apply Hfail; [done|lia]|].
    destruct (written_pair buf (base + j) 92 e) as (b & Es & W); [lia|lia|]. destruct (store buf (base + j) 92) as [b1|]; [|done].
    cbn [mbind option_bind] in Es |- *. rewrite Es. cbn [mbind option_bind]. apply Hgo; [done|lia]. }
  destruct (c <? 32).
  - rewrite fmt_04x_length in *. destruct (cap <? j + 6) eqn:Ef; zbool; [apply Hfail; [done|lia]|].
    destruct (cap - j <=? 6) eqn:Ew; zbool.
    + destruct (snprintf_full buf (base + j) (cap - j) (lit "\u" ++ fmt_04x c)) as (b & -> & L); [lia|lia|].
      rewrite fmt_04x_length. cbn [mbind option_bind]. zcase; [|lia]. apply Hfail; [done|lia].
    + destruct (snprintf_fits buf (base + j) (cap - j) (lit "\u" ++ fmt_04x c)) as (b & -> & W); [lia|lia|rewrite fmt_04x_length; lia|].
      rewrite fmt_04x_length in *. cbn [mbind option_bind]. zcase; [lia|]. apply Hgo; [done|lia].
  - change (zlen [c]) with 1 in *. destruct (cap <? j + 1) eqn:Ef; zbool; [apply Hfail; [done|lia]|].
    destruct (written_store buf (base + j) c) as (b & -> & W); [lia|lia|]. cbn [mbind option_bind]. apply Hgo; [done|lia].
Qed.

(** ** Appending, compositionally *)

(** The step ran out of room: it failed, or left the line at its cap. *)
Definition full (cap : Z) (r : eres) : Prop :=
  match r with EErr buf => zlen buf = cap | EOk buf off => zlen buf = cap /\ cap <= off end.

Definition fills (cap : Z) (step : estep) (t : bytes) : Prop :=
  forall buf off, zlen buf = cap -> 0 <= off ->
  (off + zlen t < cap -> exists buf', step buf off = Some (EOk buf' (off + zlen t)) /\ written buf off t buf') /\
  (cap <= off + zlen t -> exists r, step buf off = Some r /\ full cap r).

Lemma fills_skip cap : fills cap eskip [].
Proof.
  intros buf off Hb Ho. change (zlen (@nil Z)) with 0. rewrite Z.add_0_r. split; intros.
  - eexists. split; [done|apply written_nil].
  - by eexists.
Qed.

Lemma fills_seq cap a b t u : fills cap a t -> fills cap b u -> fills cap (a ;;; b) (t ++ u).
Proof.
  intros Ha Hb buf off Hbuf Ho. unfold eseq. rewrite zlen_app. pose proof (zlen_nonneg t). pose proof (zlen_nonneg u).
  destruct (Ha buf off Hbuf Ho) as [A1 A2]. destruct (decide (off + zlen t < cap)) as [Hlt|Hge].
  - destruct (A1 Hlt) as (b1 & -> & W1). cbn [mbind option_bind].
    destruct (Hb b1 (off + zlen t)) as [B1 B2]; [by rewrite (proj1 W1)|lia|]. rewrite <- Z.add_assoc in B1, B2. split; [|done].
    intros (b2 & -> & W2)%B1. exists b2. split; [done|]. by apply (written_app _ _ _ b1).
  - split; [lia|]. intros _. destruct A2 as (r & -> & Hr); [lia|]. cbn [mbind option_bind]. destruct r as [b1 o1|b1]; [|by eexists].
    destruct Hr as [L1 Ho1]. pose proof (zlen_nonneg b1). apply (proj2 (Hb b1 o1 L1 ltac:(lia))). lia.
Qed.

Lemma fills_lit cap s : fills cap (append_lit cap s) (cstr s).
Proof.
  intros buf off Hb Ho. unfold append_lit. split; intros.
  - zcase; [lia|]. destruct (written_memcpy buf off (cstr s) []) as (b & E & W); [done|change (zlen (@nil Z)) with 0; lia|].
    rewrite app_nil_r in E. rewrite E. by eexists.
  - zcase; [|lia]. by eexists.
Qed.

Lemma int_of_small j : 0 <= j < 2 ^ 31 -> int_of j = j.
Proof. intros. unfold int_of. rewrite u32_small by lia. zcase; lia. Qed.

Lemma fills_escaped cap s : cap < 2 ^ 31 -> fills cap (append_escaped cap s) (escape s).
Proof.
  intros Hc buf off Hb Ho. pose proof (zlen_nonneg (escape s)). unfold append_escaped, urepl_json_escape. zcase.
  { split; [lia|]. by eexists. }
  destruct (escape_loop_spec s buf off (cap - off) 0 Ho ltac:(lia) ltac:(lia)) as [E1 E2]. split; intros.
  - destruct E1 as (b & -> & W); [lia|]. cbn [mbind option_bind]. rewrite !Z.add_0_l, int_of_small by lia. zcase; [lia|].
    eexists. split; [done|]. by rewrite Z.add_0_r in W.
  - destruct E2 as (b & o & -> & L & [-> |(-> & _)]); [lia| |]; cbn [mbind option_bind].
    + eexists. split; [done|]. cbn. congruence.
    + rewrite int_of_small by lia. zcase; [lia|]. eexists. split; [done|]. cbn. split; [congruence|lia].
Qed.

Lemma fills_u64 cap v : fills cap (append_u64 cap v) (fmt_llu v).
Proof.
  intros buf off Hb Ho. pose proof (zlen_nonneg (fmt_llu v)). unfold append_u64. zcase; [split; [lia|]; by eexists|]. split; intros.
  - destruct (snprintf_fits buf off (cap - off) (fmt_llu v)) as (b & -> & W); [lia|lia|lia|]. cbn [mbind option_bind]. zcase; [lia|]. by eexists.
  - destruct (snprintf_full buf off (cap - off) (fmt_llu v)) as (b & -> & L); [lia|lia|]. cbn [mbind option_bind]. zcase; [|lia].
    eexists. split; [done|]. cbn. congruence.
Qed.

Lemma cstr_idem s : cstr (cstr s) = cstr s.
Proof. induction s as [|c s IH]; cbn; [done|]. case_match eqn:E; cbn; [done|]. by rewrite E, IH. Qed.

Lemma fills_as cap step t u : t = u -> fills cap step t -> fills cap step u.
Proof. by intros ->. Qed.

Definition quoted (s : bytes) : bytes := lit "'" ++ escape (cstr s) ++ lit "'".

Lemma fills_quoted cap s : cap < 2 ^ 31 -> fills cap (append_quoted cap s) (quoted s).
Proof.
  intros Hc. unfold append_quoted, quoted. rewrite (assoc_L (++)).
  apply fills_seq; [apply fills_seq|]; [apply fills_lit|by apply fills_escaped|apply fills_lit].
Qed.

(** The line [t], with its newline and a NUL after it, or -1. *)
Definition line_out (cap : Z) (t : bytes) (r : option (Z * bytes * option Z)) : Prop :=
  if zlen t + 2 <=? cap then
    exists buf, r = Some (0, buf, Some (zlen t + 1)) /\ zlen buf = cap /\ take (length t + 2) buf = t ++ [10; 0]
  else exists buf n, r = Some (-1, buf, n) /\ zlen buf = cap.

Lemma emit_line cap body t buf : fills cap body t -> zlen buf = cap -> line_out cap t (emit cap body buf).
Proof.
  intros Hw Hb. unfold emit, line_out. pose proof (zlen_nonneg t). destruct (Hw buf 0 Hb ltac:(lia)) as [W1 W2]. rewrite Z.add_0_l in W1, W2. zcase.
  - destruct W1 as (b1 & -> & W); [lia|]. cbn [mbind option_bind]. unfold finish. zcase; [lia|].
    destruct (written_pair b1 (zlen t) 10 0) as (b & Es & Wp); [lia|rewrite (proj1 W); lia|].
    destruct (store b1 (zlen t) 10) as [b2|]; [|done]. cbn [mbind option_bind] in Es |- *. rewrite Es. cbn [mbind option_bind].
    exists b. split; [done|]. destruct (written_app buf 0 t b1 [10; 0] b W Wp) as [L T]. split; [congruence|].
    rewrite zlen_app in T. unfold zlen in T. cbn [length Z.to_nat take app] in T.
    by replace (length t + 2)%nat with (Z.to_nat (0 + (Z.of_nat (length t) + Z.of_nat 2))) by lia.
  - destruct (decide (zlen t < cap)) as [Hlt|Hge].
    + destruct (W1 Hlt) as (b1 & -> & W). cbn [mbind option_bind]. unfold finish. zcase; [|lia].
      eexists _, _. split; [done|]. rewrite (proj1 W). done.
    + destruct W2 as (r & -> & Hr); [lia|]. cbn [mbind option_bind]. destruct r as [b1 o1|b1]; [|by eexists _, _].
      destruct Hr as [L1 Ho1]. unfold finish. zcase; [|lia]. by eexists _, _.
Qed.

(** ** Reading back *)

Lemma escape_controls : forallb (fun c => match short_escape c with
  | Some e => bool_decide (simple_char e = Some c)
  | None => bool_decide (utf8 (codepoint (hex_digit (c / 4096)) (hex_digit (c / 256 mod 16)) (hex_digit (c / 16 mod 16)) (hex_digit (c mod 16))) = [c])
            && is_hex (hex_digit (c / 4096)) && is_hex (hex_digit (c / 256 mod 16)) && is_hex (hex_digit (c / 16 mod 16)) && is_hex (hex_digit (c mod 16))
  end) (seqZ 0 32) = true.
Proof. vm_compute. reflexivity. Qed.

Lemma short_escape_high c e : 32 <= c -> short_escape c = Some e -> simple_char e = Some c.
Proof.
  unfold short_escape. intros Hc. destruct ((c =? 34) || (c =? 92)) eqn:E; zbool; [destruct E; zbool; subst; by intros [= <-]|].
  repeat case_match; zbool; lia || done.
Qed.

Lemma short_escape_none c : short_escape c = None -> c <> 34 /\ c <> 92.
Proof. unfold short_escape. destruct ((c =? 34) || (c =? 92)) eqn:E; [done|]. zbool. done. Qed.

Lemma escape1_body c e d : is_byte c -> json_body e d -> json_body (escape1 c ++ e) (c :: d).
Proof.
  intros Hc Hb. unfold escape1. destruct (decide (c < 32)) as [Hlt|Hge].
  - pose proof (proj1 (forallb_forall _ _) escape_controls c) as H.
    specialize (H (proj1 (list_elem_of_In _ _) (proj2 (elem_of_seqZ 0 32 c) ltac:(unfold is_byte in Hc; lia)))).
    cbv beta in H. destruct (short_escape c) as [x|]; [apply bool_decide_eq_true in H; by constructor|].
    rewrite (proj2 (Z.ltb_lt c 32)) by lia. apply andb_prop in H as [H H4]. apply andb_prop in H as [H H3]. apply andb_prop in H as [H H2]. apply andb_prop in H as [H H1].
    apply bool_decide_eq_true in H. rewrite <- (app_nil_l d), (app_comm_cons [] d c), <- H at 1.
    apply (jb_unicode _ _ _ _ e d); [|done]. by rewrite H1, H2, H3, H4.
  - destruct (short_escape c) as [x|] eqn:Ex; [constructor; [by apply short_escape_high; [lia|]|done]|].
    zcase; [lia|]. apply short_escape_none in Ex as [? ?]. by constructor; [| |lia|].
Qed.

Lemma escape_body src : is_bytes src -> json_body (escape src) src.
Proof.
  induction 1 as [|c src Hc _ IH]; [constructor|]. change (escape (c :: src)) with (escape1 c ++ escape src). by apply escape1_body.
Qed.

Lemma dec_loop_app fuel : forall v acc r, dec_loop fuel v acc ++ r = dec_loop fuel v (acc ++ r).
Proof. induction fuel as [|fuel IH]; intros v acc r; cbn [dec_loop]; [done|]. case_match; [done|apply IH]. Qed.

Lemma dec_loop_head fuel : forall v acc, exists d q, dec_loop (S fuel) v acc = d :: q /\ is_digit d = true.
Proof.
  induction fuel as [|fuel IH]; intros v acc.
  all: assert (Hd : is_digit (48 + v mod 10) = true) by (unfold is_digit; pose proof (Z.mod_pos_bound v 10); zcases; apply andb_true_intro; split; apply Z.leb_le; lia).
  - cbn [dec_loop]. case_match; eauto.
  - change (dec_loop (S (S fuel)) v acc) with (if v / 10 =? 0 then (48 + v mod 10) :: acc else dec_loop (S fuel) (v / 10) ((48 + v mod 10) :: acc)).
    case_match; eauto.
Qed.

Lemma digits_dec fuel : forall v acc, 0 <= v < 10 ^ Z.of_nat fuel -> v <= UINT64_MAX -> digits (dec_loop fuel v acc) 0 = digits acc v.
Proof.
  induction fuel as [|fuel IH]; intros v acc Hv Hm; cbn [dec_loop].
  { f_equal. change (10 ^ Z.of_nat 0) with 1 in Hv. lia. }
  pose proof (Z.mod_pos_bound v 10 ltac:(lia)) as Hd. pose proof (Z.div_mod v 10 ltac:(lia)) as Hq.
  assert (Hstep : digits ((48 + v mod 10) :: acc) (v / 10) = digits acc v).
  { cbn [digits]. unfold is_digit. replace ((48 <=? 48 + v mod 10) && (48 + v mod 10 <=? 57)) with true by (symmetry; apply andb_true_intro; split; apply Z.leb_le; lia).
    replace (48 + v mod 10 - 48) with (v mod 10) by lia. zcase.
    - assert (v / 10 <= (UINT64_MAX - v mod 10) / 10) by (apply Z.div_le_lower_bound; lia). lia.
    - f_equal. lia. }
  case_match eqn:E; zbool; [by rewrite E in Hstep|]. rewrite IH; [done| |].
  - rewrite Nat2Z.inj_succ, Z.pow_succ_r in Hv by lia. split; [apply Z.div_pos; lia|apply Z.div_lt_upper_bound; lia].
  - assert (v / 10 <= v) by (apply Z.div_le_upper_bound; lia). lia.
Qed.

Lemma parse_fmt_llu v r : 0 <= v <= UINT64_MAX -> (forall d q, r = d :: q -> is_digit d = false) -> parse_uint64 (fmt_llu v ++ r) = Some (v, r).
Proof.
  intros Hv Hr. unfold parse_uint64, fmt_llu. rewrite dec_loop_app. cbn [app]. destruct (dec_loop_head 19 v r) as (d & q & E & Hd).
  assert (Hs : skip_ws (dec_loop 20 v r) = dec_loop 20 v r).
  { rewrite E. cbn. replace (is_ws d) with false; [done|]. unfold is_ws, is_digit in *. zbool. symmetry.
    rewrite (proj2 (Z.eqb_neq d 32)), (proj2 (Z.eqb_neq d 9)), (proj2 (Z.eqb_neq d 13)), (proj2 (Z.eqb_neq d 10)) by lia. done. }
  rewrite Hs, E, Hd, <- E, digits_dec by (unfold UINT64_MAX in *; change (10 ^ Z.of_nat 20) with 100000000000000000000; lia). destruct r as [|x r]; [done|]. cbn [digits]. by rewrite (Hr x r).
Qed.

Lemma escape_length src : zlen (escape src) <= 6 * zlen src.
Proof.
  induction src as [|c src IH]; [done|]. change (escape (c :: src)) with (escape1 c ++ escape src). rewrite zlen_app, zlen_cons.
  enough (zlen (escape1 c) <= 6) by lia. unfold escape1. destruct (short_escape c); [done|]. by destruct (c <? 32).
Qed.

(** What was written can be read there. *)
Lemma written_slice buf off t buf' : 0 <= off <= zlen buf -> written buf off t buf' -> take (Z.to_nat (zlen t)) (drop (Z.to_nat off) buf') = t.
Proof.
  intros Ho [L T]. unfold zlen in *. rewrite take_drop_commute. replace (Z.to_nat off + Z.to_nat (Z.of_nat (length t)))%nat with (Z.to_nat (off + Z.of_nat (length t))) by lia.
  rewrite T. apply drop_app_length'. rewrite length_take. lia.
Qed.

Lemma dec_loop_length fuel : forall v acc, zlen (dec_loop fuel v acc) <= zlen acc + Z.of_nat fuel.
Proof. induction fuel as [|fuel IH]; intros v acc; cbn [dec_loop]; [lia|]. case_match; [rewrite zlen_cons; lia|]. etrans; [apply IH|]. rewrite zlen_cons. lia. Qed.

Lemma fmt_llu_length v : zlen (fmt_llu v) <= 20.
Proof. etrans; [apply dec_loop_length|]. done. Qed.

(** The escaper always answers: -1, which it does only for want of room, or the
    number of bytes it wrote, the escaped text. *)
Lemma json_escape_spec src buf base cap : 0 <= base -> 0 <= cap < 2 ^ 31 -> base + cap <= zlen buf ->
  exists buf' w, urepl_json_escape src buf base cap = Some (buf', w) /\ zlen buf' = zlen buf /\
    (w = -1 /\ cap <= zlen (escape src) \/ w = zlen (escape src) /\ w <= cap /\ written buf base (escape src) buf').
Proof.
  intros Hb Hc Hr. destruct (escape_loop_spec src buf base cap 0 Hb ltac:(lia) Hr) as [E1 E2]. rewrite Z.add_0_l, ?Z.add_0_r in *.
  pose proof (zlen_nonneg (escape src)). unfold urepl_json_escape. destruct (decide (zlen (escape src) < cap)) as [Hlt|Hge].
  - destruct (E1 Hlt) as (b & -> & W). cbn [mbind option_bind]. rewrite int_of_small by lia. eexists _, _. split; [done|]. split; [apply W|]. right. split; [done|]. by split; [lia|].
  - destruct E2 as (b & o & -> & L & [-> |(-> & Hj & W)]); [lia| |]; cbn [mbind option_bind]; eexists _, _; (split; [done|]); (split; [done|]); [left; split; [done|lia]|].
    right. rewrite int_of_small by lia. split; [lia|]. by split; [lia|].
Qed.

(** C35 Replies read back. The escaper, given any byte string and a room of
    [cap] bytes inside a buffer, never writes past the buffer and returns
    -1, only if the room is no more than six times the string, or the number
    [w] of the bytes it wrote; put between quotes, those are a JSON string
    that the scanner of this service reads as exactly the given string,
    stopping after the closing quote, provided [w] is within the scanner's
    cap and its buffer can be had. The writer of ids, given any 64-bit id,
    fails only if fewer than 21 bytes are left, and the digits it writes,
    when no digit follows them, are read back as that id. *)
Theorem replies_read_back {M : Malloc} src buf base cap v off rest max_len m :
  is_bytes src -> 0 <= base -> 0 <= cap < 2 ^ 31 -> base + cap <= zlen buf -> (forall n, malloc_ok (m_calls m) n = true) ->
  0 <= v < 2 ^ 64 -> 0 <= off -> (forall d q, rest = d :: q -> is_digit d = false) ->
  (exists buf' w, urepl_json_escape src buf base cap = Some (buf', w) /\ zlen buf' = zlen buf /\
     (w = -1 /\ cap <= 6 * zlen src \/
      0 <= w <= cap /\ (w <= max_len ->
        exists m', parse_string (34 :: take (Z.to_nat w) (drop (Z.to_nat base) buf') ++ 34 :: rest) max_len m = Some (POk (m_calls m) src rest, m')))) /\
  (exists r, append_u64 (zlen buf) v buf off = Some r /\
     match r with
     | EErr buf' => zlen buf' = zlen buf /\ zlen buf <= off + 20
     | EOk buf' off' => zlen buf' = zlen buf /\ off < off' < zlen buf /\ parse_uint64 (take (Z.to_nat (off' - off)) (drop (Z.to_nat off) buf') ++ rest) = Some (v, rest)
     end).
Proof.
  intros Hs Hb Hc Hr Hm Hv Ho Hd. pose proof (escape_length src). pose proof (zlen_nonneg (escape src)). split.
  - destruct (json_escape_spec src buf base cap Hb Hc Hr) as (b & w & E & L & Hw). exists b, w. split; [done|]. split; [done|].
    destruct Hw as [[-> Hw]|(-> & Hw & W)]; [left; split; [done|lia]|right].
    split; [lia|]. intros Hl. rewrite (written_slice buf base _ b ltac:(lia) W).
    destruct (parse_string_complete (34 :: escape src ++ 34 :: rest) max_len m (escape src) src rest) as (k & _ & E'); [by apply escape_body|done|done|].
    rewrite E', Hm. by eexists.
  - destruct (fills_u64 (zlen buf) v buf off eq_refl Ho) as [F1 F2]. pose proof (fmt_llu_length v). destruct (decide (off + zlen (fmt_llu v) < zlen buf)) as [Hlt|Hge].
    + destruct (F1 Hlt) as (b & -> & W). eexists. split; [done|]. destruct (dec_loop_head 19 v []) as (d & q & Eq & _).
      assert (1 <= zlen (fmt_llu v)) by (unfold fmt_llu; rewrite Eq, zlen_cons; pose proof (zlen_nonneg q); lia).
      split; [apply W|]. split; [lia|]. replace (off + zlen (fmt_llu v) - off) with (zlen (fmt_llu v)) by lia.
      rewrite (written_slice buf off _ b ltac:(lia) W). apply parse_fmt_llu; [unfold UINT64_MAX; lia|done].
    + destruct F2 as (r & E & Hf); [lia|]. exists r. split; [done|]. destruct r as [b o|b]; [|split; [done|lia]].
      exfalso. unfold append_u64 in E. destruct (zlen buf <=? off) eqn:E1; [done|]. zbool. destruct (snprintf buf off (zlen buf - off) (fmt_llu v)) as [[b1 w]|] eqn:Es; [|done]. cbn [mbind option_bind] in E.
      destruct (zlen buf - off <=? w) eqn:E2; [done|]. zbool. injection E as <- <-. destruct Hf. lia.
Qed.

Lemma replies_read_back_witness : (exists buf' w, urepl_json_escape [97; 10; 1; 200; 34] (replicate 40 0) 1 30 = Some (buf', w) /\
    exists m', @parse_string test_malloc (34 :: take (Z.to_nat w) (drop 1 buf') ++ 34 :: lit "}") 20 (MkMem 0 ∅) = Some (POk 0 [97; 10; 1; 200; 34] (lit "}"), m')) /\
  exists buf' off', append_u64 40 18446744073709551615 (replicate 40 0) 3 = Some (EOk buf' off') /\
    parse_uint64 (take (Z.to_nat (off' - 3)) (drop 3 buf') ++ lit "}") = Some (18446744073709551615, lit "}").
Proof.
  destruct (@replies_read_back test_malloc [97; 10; 1; 200; 34] (replicate 40 0) 1 30 18446744073709551615 3 (lit "}") 20 (MkMem 0 ∅)) as [(b & w & E & _ & Hw) (r & Er & Hr)].
  - repeat constructor; vm_compute; discriminate.
  - lia.
  - lia.
  - vm_compute. discriminate.
  - reflexivity.
  - lia.
  - lia.
  - intros d q [= <- <-]. reflexivity.
  - split.
    + exists b, w. split; [exact E|]. vm_compute in E. injection E as <- <-. destruct Hw as [[Hw _]|[_ Hw]]; [discriminate Hw|]. apply Hw. lia.
    + destruct r as [b' o|b']; [|exfalso; vm_compute in Er; discriminate Er]. exists b', o. split; [exact Er|]. apply Hr.
Defined.

(** Splits a sequence of steps along its text. *)
Ltac parts := repeat match goal with |- fills _ (eseq _ _) _ => apply fills_seq end.

(** every reply is one exact line or nothing: each of the four emitters
    never stores past its buffer, and returns 0 exactly when its envelope, a
    newline and a NUL fit, with the envelope written from the start of the
    buffer and its length, newline included, reported; otherwise -1. *)
Theorem emitters_exact cap buf id value channel msg code err : zlen buf = cap -> cap < 2 ^ 31 ->
  let idf := if id =? 0 then [] else lit "'id':" ++ fmt_llu id ++ lit "," in
  line_out cap (lit "{'id':" ++ fmt_llu id ++ lit ",'kind':'result','value':" ++
      cstr (match cstr (default [] value) with [] => lit "null" | v => v end) ++ lit "}") (urepl_ndjson_emit_result cap id value buf) /\
  line_out cap (lit "{" ++ idf ++ lit "'kind':'output','channel':" ++ quoted (default [] channel) ++ lit ",'msg':'" ++ escape msg ++ lit "'}")
    (urepl_ndjson_emit_output cap id channel msg buf) /\
  line_out cap (lit "{'id':" ++ fmt_llu id ++ lit ",'kind':'done'}") (urepl_ndjson_emit_done cap id buf) /\
  line_out cap (lit "{" ++ idf ++ lit "'kind':'error','code':" ++ quoted (default (lit "error") code) ++
      match cstr (default [] err) with [] => [] | m => lit ",'message':" ++ quoted m end ++ lit "}") (urepl_ndjson_emit_error cap id code err buf).
Proof.
  intros Hb Hc idf.
  assert (Hl : forall s, fills cap (append_lit cap (lit s)) (cstr (lit s))) by (intros; apply fills_lit).
  assert (Hid : fills cap (emit_id cap id) idf).
  { unfold emit_id, idf. destruct (id =? 0); [apply fills_skip|]. rewrite (assoc_L (++)).
    repeat apply fills_seq; [apply (Hl "'id':"%string)|apply fills_u64|apply (Hl ","%string)]. }
  pose proof (fills_u64 cap id) as Hu. pose proof (fun s => fills_quoted cap s Hc) as Hq. pose proof (fun s => fills_escaped cap s Hc) as Hs.
  split; [|split; [|split]]; apply emit_line; try done; rewrite ?(assoc_L (++)).
  - parts; try exact Hu; try apply fills_lit; apply Hl.
  - parts; try exact Hid; try apply Hq; try apply Hs; apply Hl.
  - parts; try exact Hu; apply Hl.
  - parts; try exact Hid; try apply Hq; try apply Hl.
    destruct (cstr (default [] err)); [apply fills_skip|]. parts; [apply Hl|apply Hq].
Qed.

Lemma emitters_exact_witness : line_out 24 (lit "{'id':7,'kind':'done'}") (urepl_ndjson_emit_done 24 7 (replicate 24 0)).
Proof. apply (emitters_exact 24 (replicate 24 0) 7 None None [] None None); [reflexivity|lia]. Defined.

End NdjsonOut.
