(* ===== verification/Regexp.v ===== *)
(** * The regular-expression matcher (src/src/stdlib/regexp.c)

    A pointer with a length is the list of the bytes behind it, a pointer into
    the text the list of the bytes from it to [s_end].  Reading past either is
    a fault, [None].  [budget->depth] is restored on every exit, so it is
    passed down by value; [budget->steps] is threaded through. *)
From S2P Require Import Prelude.

Module Regexp.

Definition RE_BUDGET_STEPS : Z := 1000000.
Definition RE_BUDGET_DEPTH : nat := 128.
Definition RE_MATCH_BUDGET : Z := -1.

(** ** Atoms *)

(** [i < relen && re[i] == c]. *)
Definition at_is (re : bytes) (i : nat) (c : Z) : bool := match re !! i with Some x => x =? c | None => false end.

(** How far [while (i < relen && re[i] != ']') i++] goes. *)
Fixpoint to_close (l : bytes) : nat := match l with [] => O | c :: l => if c =? 93 then O else S (to_close l) end.

Definition re_atom_len (re : bytes) : nat :=
  match re with
  | [] => O
  | c :: _ =>
      if c =? 91 then
        let i := (if at_is re 1 94 then 2 else 1)%nat in
        let i := if at_is re i 93 then S i else i in
        let i := (i + to_close (drop i re))%nat in
        if at_is re i 93 then S i else i
      else 1%nat
  end.

(** The members of a class, from [re[i]] to [re[end - 1]]. *)
Fixpoint class_hit (l : bytes) (ch : Z) (hit : bool) : bool :=
  match l with
  | [] => hit
  | a :: l' =>
      match l' with
      | d :: b :: l'' => if d =? 45 then class_hit l'' ch (hit || ((a <=? ch) && (ch <=? b))) else class_hit l' ch (hit || (a =? ch))
      | _ => class_hit l' ch (hit || (a =? ch))
      end
  end.

Definition re_atom_matches (re : bytes) (alen : nat) (ch : Z) : option bool :=
  if (alen =? 0)%nat then Some false
  else if (length re <? alen)%nat then None
  else
    c ← re !! O;
    if c =? 91 then
      let end_ := (if at_is re (alen - 1) 93 then alen - 1 else alen)%nat in
      let neg := (1 <? end_)%nat && at_is re 1 94 in
      let i := (if neg then 2 else 1)%nat in
      let hit := class_hit (take (end_ - i) (drop i re)) ch false in
      Some (if neg then negb hit else hit)
    else if c =? 46 then Some true
    else Some (c =? ch).

(** ** The matcher *)

(** [while (p < s_end && re_atom_matches(atom, alen, *p)) p++]. *)
Fixpoint run_length (atom : bytes) (alen : nat) (s : bytes) : option nat :=
  match s with
  | [] => Some O
  | ch :: s => b ← re_atom_matches atom alen ch; if b : bool then S <$> run_length atom alen s else Some O
  end.

(** The way back, with [p - s = n]; [here] matches the rest of the pattern. *)
Fixpoint back_off (here : bytes -> Z -> option (Z * Z)) (n min : nat) (s : bytes) (steps : Z) : option (Z * Z) :=
  if (n <? min)%nat then Some (0, steps)
  else
    '(r, steps) ← here (drop n s) steps;
    if negb (r =? 0) then Some (r, steps)
    else match n with O => Some (0, steps) | S n => back_off here n min s steps end.

Definition re_match_repeat_b (here : bytes -> Z -> option (Z * Z)) (atom : bytes) (alen : nat) (s : bytes) (min : nat) (steps : Z) : option (Z * Z) :=
  n ← run_length atom alen s; back_off here n min s steps.

(** [s < s_end && re_atom_matches(re, alen, *s)]. *)
Definition next_matches (re : bytes) (alen : nat) (s : bytes) : option bool :=
  match s with [] => Some false | ch :: _ => re_atom_matches re alen ch end.

(** The result and the steps left. *)
Fixpoint re_match_here_b (depth : nat) (re s : bytes) (steps : Z) : option (Z * Z) :=
  if steps =? 0 then Some (RE_MATCH_BUDGET, steps)
  else
    match depth with
    | O => Some (RE_MATCH_BUDGET, steps)
    | S depth =>
        let steps := steps - 1 in
        if (length re =? 0)%nat then Some (1, steps)
        else if at_is re 0 36 && (length re =? 1)%nat then Some (if (length s =? 0)%nat then 1 else 0, steps)
        else
          let alen := re_atom_len re in
          let quant := if (alen <? length re)%nat then re !! alen else Some 0 in
          quant ← quant;
          let rest := drop (S alen) re in
          if (quant =? 42) || (quant =? 43) then
            re_match_repeat_b (re_match_here_b depth rest) re alen s (if quant =? 43 then 1 else 0) steps
          else if quant =? 63 then
            b ← next_matches re alen s;
            '(r, steps) ← if b : bool then re_match_here_b depth rest (drop 1 s) steps else Some (0, steps);
            if r =? 0 then re_match_here_b depth rest s steps else Some (r, steps)
          else
            b ← next_matches re alen s;
            if b : bool then re_match_here_b depth (drop alen re) (drop 1 s) steps else Some (0, steps)
    end.

(** Every starting position from [p] on, with the one budget. *)
Fixpoint search_from (re p : bytes) (steps : Z) : option (Z * Z) :=
  '(r, steps) ← re_match_here_b RE_BUDGET_DEPTH re p steps;
  if negb (r =? 0) then Some (r, steps)
  else match p with [] => Some (0, steps) | _ :: p => search_from re p steps end.

Definition urbi_regexp_search (re s : option bytes) : option Z :=
  match re, s with
  | Some re, Some s =>
      fst <$> (if at_is re 0 94 then re_match_here_b RE_BUDGET_DEPTH (drop 1 re) s RE_BUDGET_STEPS else search_from re s RE_BUDGET_STEPS)
  | _, _ => Some 0
  end.

(** ** What a pattern means *)

Inductive quantifier := Once | Optional | Star | Plus.

(** The atoms of the syntax: a character, [.], and a class of characters and
    ranges, negated or not. *)
Inductive member := Single (c : Z) | Range (lo hi : Z).
Inductive atom := Literal (c : Z) | AnyChar | Class (negated : bool) (members : list member).

Definition contains (m : member) (ch : Z) : Prop := match m with Single c => ch = c | Range lo hi => lo <= ch <= hi end.

(** The characters an atom stands for. *)
Definition admits (a : atom) (ch : Z) : Prop :=
  match a with
  | Literal c => ch = c
  | AnyChar => True
  | Class false ms => Exists (fun m => contains m ch) ms
  | Class true ms => Forall (fun m => ~ contains m ch) ms
  end.

#[local] Instance contains_dec m ch : Decision (contains m ch).
Proof. destruct m; cbn; apply _. Defined.

#[local] Instance admits_dec a ch : Decision (admits a ch).
Proof. destruct a as [| |[]]; cbn; apply _. Defined.

(** Up to the next [']'], and what follows it. *)
Fixpoint up_to_close (l : bytes) : bytes * bytes :=
  match l with [] => ([], []) | c :: l => if decide (c = 93) then ([], l) else let (x, y) := up_to_close l in (c :: x, y) end.

(** [a-z] is a range, anything else a character. *)
Fixpoint members_of (l : bytes) : list member :=
  match l with
  | [] => []
  | a :: l' =>
      match l' with
      | d :: b :: l'' => if decide (d = 45) then Range a b :: members_of l'' else Single a :: members_of l'
      | _ => Single a :: members_of l'
      end
  end.

(** What stands after [[] or [[^]: a [']'] that comes first is a member, but not
    where the pattern ends with it; a class that is not closed reaches to the
    end of the pattern. *)
Definition read_members (l : bytes) : list member * bytes :=
  match l with
  | [93] => ([], [])
  | 93 :: l => let (x, y) := up_to_close l in (members_of (93 :: x), y)
  | _ => let (x, y) := up_to_close l in (members_of x, y)
  end.

(** The atom a pattern starts with, and the rest. *)
Definition read_atom (re : bytes) : option (atom * bytes) :=
  match re with
  | [] => None
  | 91 :: 94 :: l => let (ms, l) := read_members l in Some (Class true ms, l)
  | 91 :: l => let (ms, l) := read_members l in Some (Class false ms, l)
  | 46 :: l => Some (AnyChar, l)
  | c :: l => Some (Literal c, l)
  end.

(** The quantifier of that atom. *)
Definition read_quantifier (l : bytes) : quantifier * bytes :=
  match l with 42 :: l => (Star, l) | 43 :: l => (Plus, l) | 63 :: l => (Optional, l) | _ => (Once, l) end.

(** The quantifier a byte stands for. *)
Definition quant_of (q : option Z) : quantifier :=
  if decide (q = Some 42) then Star else if decide (q = Some 43) then Plus else if decide (q = Some 63) then Optional else Once.

Record item := MkItem { what : atom; times : quantifier }.

(** The items of a pattern, and whether it ends in the anchor [$]. *)
Fixpoint items (fuel : nat) (re : bytes) : list item * bool :=
  match fuel with
  | O => ([], false)
  | S fuel =>
      if decide (re = [36]) then ([], true)
      else
        match read_atom re with
        | None => ([], false)
        | Some (a, rest) => let (q, rest) := read_quantifier rest in let (l, e) := items fuel rest in (MkItem a q :: l, e)
        end
  end.

Definition allowed (q : quantifier) (k : nat) : Prop :=
  match q with Once => k = 1%nat | Optional => (k <= 1)%nat | Star => True | Plus => (1 <= k)%nat end.

(** A prefix of the text, all of it when the pattern is anchored at its end,
    is made of the allowed number of admitted characters for each item. *)
Inductive matches : list item -> bool -> bytes -> Prop :=
| matches_nil s : matches [] false s
| matches_end : matches [] true []
| matches_item it l a s k : allowed (times it) k -> (k <= length s)%nat -> Forall (admits (what it)) (take k s) ->
    matches l a (drop k s) -> matches (it :: l) a s.

Definition pattern_matches (re s : bytes) : Prop := let (l, a) := items (length re) re in matches l a s.

(** The pattern occurs somewhere in the text, at its start if it begins with [^]. *)
Definition occurs (re s : bytes) : Prop :=
  if at_is re 0 94 then pattern_matches (drop 1 re) s else exists k, (k <= length s)%nat /\ pattern_matches re (drop k s).

(** The most steps matching at one position of a text of [n] characters can take. *)
Fixpoint cost (n : Z) (l : list item) : Z :=
  match l with [] => 1 | it :: l => 1 + (match times it with Once => 1 | Optional => 2 | _ => n + 1 end) * cost n l end.


(** ** Atoms stay inside the pattern *)

Lemma to_close_le l : (to_close l <= length l)%nat.
Proof. induction l as [|c l IH]; cbn; [lia|]. destruct (c =? 93); lia. Qed.

Lemma at_is_lt re i c : at_is re i c = true -> (i < length re)%nat.
Proof. unfold at_is. destruct (re !! i) eqn:E; [|done]. by apply lookup_lt_Some in E. Qed.

Lemma atom_len_bounds re : re <> [] -> (1 <= re_atom_len re <= length re)%nat.
Proof.
  destruct re as [|c r]; [done|]. intros _. unfold re_atom_len. destruct (c =? 91); [|cbn; lia]. set (re := c :: r).
  set (i1 := (if at_is re 1 94 then 2 else 1)%nat). assert (1 <= i1 <= length re)%nat.
  { unfold i1. destruct (at_is re 1 94) eqn:E; [apply at_is_lt in E|]; unfold re in *; cbn in *; lia. }
  set (i2 := if at_is re i1 93 then S i1 else i1). assert (1 <= i2 <= length re)%nat.
  { unfold i2. destruct (at_is re i1 93) eqn:E; [apply at_is_lt in E|]; lia. }
  pose proof (to_close_le (drop i2 re)) as Hc. rewrite length_drop in Hc.
  destruct (at_is re (i2 + to_close (drop i2 re)) 93) eqn:E; [apply at_is_lt in E|]; lia.
Qed.

(** ** The matcher's atoms are those of the syntax *)

Lemma up_to_close_eq l : up_to_close l = (take (to_close l) l, drop (S (to_close l)) l).
Proof.
  induction l as [|c l IH]; cbn [up_to_close to_close]; [done|]. destruct (decide (c = 93)) as [->|Hc]; [by rewrite Z.eqb_refl|].
  rewrite (proj2 (Z.eqb_neq c 93) Hc), IH. done.
Qed.

Lemma class_hit_spec ch : forall n l hit, (length l <= n)%nat -> class_hit l ch hit = hit || bool_decide (Exists (fun m => contains m ch) (members_of l)).
Proof.
  assert (Hcons : forall m ms b, bool_decide (contains m ch) = b -> bool_decide (Exists (fun m => contains m ch) (m :: ms)) = b || bool_decide (Exists (fun m => contains m ch) ms)).
  { intros m ms b <-. rewrite <- bool_decide_or. apply bool_decide_ext, Exists_cons. }
  assert (Hsingle : forall c, bool_decide (contains (Single c) ch) = (c =? ch)) by (intros; cbn [contains]; repeat case_bool_decide; lia).
  assert (Hrange : forall a b, bool_decide (contains (Range a b) ch) = (a <=? ch) && (ch <=? b)) by (intros; cbn [contains]; repeat case_bool_decide; lia).
  assert (Hm3 : forall a d b l, members_of (a :: d :: b :: l) = if decide (d = 45) then Range a b :: members_of l else Single a :: members_of (d :: b :: l)) by done.
  assert (Hh3 : forall a d b l hit, class_hit (a :: d :: b :: l) ch hit =
    if d =? 45 then class_hit l ch (hit || ((a <=? ch) && (ch <=? b))) else class_hit (d :: b :: l) ch (hit || (a =? ch))) by done.
  induction n as [|n IH]; intros [|a [|d [|b l]]] hit Hl; cbn [length] in Hl; try lia; rewrite ?Hm3, ?Hh3; try (cbn [class_hit members_of];
    rewrite ?(Hcons _ _ _ (Hsingle _)), bool_decide_false, ?orb_false_r by (by intros H; inversion H); by rewrite ?orb_assoc).
  destruct (decide (d = 45)) as [->|Hd].
  - rewrite Z.eqb_refl, IH by lia. rewrite (Hcons _ _ _ (Hrange a b)). by rewrite orb_assoc.
  - rewrite (proj2 (Z.eqb_neq d 45) Hd). rewrite IH by (cbn [length]; lia). rewrite (Hcons _ _ _ (Hsingle a)). by rewrite orb_assoc.
Qed.

Lemma to_close_at l : at_is l (to_close l) 93 = (to_close l <? length l)%nat.
Proof. induction l as [|c l IH]; [done|]. cbn [to_close]. destruct (c =? 93) eqn:E; [done|]. exact IH. Qed.

Lemma to_close_before l k : (k < to_close l)%nat -> at_is l k 93 = false.
Proof.
  revert k. induction l as [|c l IH]; intros k; cbn [to_close]; [lia|]. destruct (c =? 93) eqn:E; [lia|]. intros Hk.
  destruct k as [|k]; [done|]. apply (IH k). lia.
Qed.

Lemma at_is_app p l k c : at_is (p ++ l) (length p + k) c = at_is l k c.
Proof. unfold at_is. rewrite lookup_app_r by lia. by replace (length p + k - length p)%nat with k by lia. Qed.

(** How far a class reaches when [k] characters of its text are skipped before
    the search for its end. *)
Definition class_len (p l : bytes) (k : nat) : nat :=
  let i := (length p + k + to_close (drop k l))%nat in if at_is (p ++ l) i 93 then S i else i.

Definition class_end (re : bytes) (alen : nat) : nat := if at_is re (alen - 1) 93 then (alen - 1)%nat else alen.

(** Where the code's class ends and what its members are, for a text that is
    not a lone [']'] (whose closing it takes for the end). *)
Lemma class_text p l k : (k <= length l)%nat -> ((k < length l)%nat \/ k = O /\ (0 < length p)%nat /\ at_is p (length p - 1) 93 = false) ->
  drop (class_len p l k) (p ++ l) = drop (S (to_close (drop k l))) (drop k l) /\
  take (class_end (p ++ l) (class_len p l k) - length p) l = take k l ++ take (to_close (drop k l)) (drop k l) /\
  (length p <= class_end (p ++ l) (class_len p l k))%nat.
Proof.
  intros Hk Hend. unfold class_len. set (t := to_close (drop k l)). pose proof (to_close_le (drop k l)) as Ht. rewrite length_drop in Ht. fold t in Ht.
  assert (Hat : at_is (p ++ l) (length p + k + t) 93 = (t <? length l - k)%nat).
  { replace (length p + k + t)%nat with (length p + (k + t))%nat by lia. rewrite at_is_app. rewrite <- (length_drop l k). unfold t. rewrite <- to_close_at. unfold at_is. by rewrite lookup_drop. }
  rewrite Hat. unfold class_end. destruct (t <? length l - k)%nat eqn:E; [apply Nat.ltb_lt in E|apply Nat.ltb_ge in E].
  - replace (S (length p + k + t) - 1)%nat with (length p + k + t)%nat by lia. rewrite Hat. split_and!; [|  |lia].
    + rewrite drop_app_ge, drop_drop by lia. f_equal. lia.
    + replace (length p + k + t - length p)%nat with (k + t)%nat by lia. by rewrite take_take_drop.
  - assert (Hl : at_is (p ++ l) (length p + k + t - 1) 93 = false).
    { destruct (decide (t = O)) as [Ht0|].
      - assert (k = length l) by lia. destruct Hend as [?|(-> & Hp & Hl)]; [lia|]. unfold at_is in *. rewrite lookup_app_l by lia. by replace (length p + 0 + t - 1)%nat with (length p - 1)%nat by lia.
      - replace (length p + k + t - 1)%nat with (length p + (k + (t - 1)))%nat by lia. rewrite at_is_app.
        pose proof (to_close_before (drop k l) (t - 1) ltac:(fold t; lia)) as Hb. unfold at_is in *. by rewrite lookup_drop in Hb. }
    rewrite Hl. split_and!; [| |lia].
    + rewrite !drop_ge; [done| |]; rewrite ?length_drop, ?length_app; lia.
    + replace (length p + k + t - length p)%nat with (k + t)%nat by lia. by rewrite take_take_drop.
Qed.

(** [at_is] of the text's first character says whether it is skipped. *)
Lemma read_members_spec p l : (0 < length p)%nat -> at_is p (length p - 1) 93 = false ->
  let k := if at_is l 0 93 then 1%nat else O in let alen := class_len p l k in
  read_members l = (members_of (take (class_end (p ++ l) alen - length p) l), drop alen (p ++ l)) /\ (length p <= class_end (p ++ l) alen)%nat.
Proof.
  intros Hp Hl. cbn zeta. destruct (at_is l 0 93) eqn:E.
  - destruct l as [|c l]; [done|]. cbn in E. zbool. subst c. destruct l as [|c l].
    + assert (Hc : class_len p [93] 1 = S (length p)).
      { unfold class_len. cbn [drop to_close]. replace (length p + 1 + 0)%nat with (length p + 1)%nat by lia. rewrite at_is_app. cbn. lia. }
      rewrite Hc. assert (He : class_end (p ++ [93]) (S (length p)) = length p).
      { unfold class_end. replace (S (length p) - 1)%nat with (length p + 0)%nat by lia. rewrite at_is_app. cbn. lia. }
      rewrite He, Nat.sub_diag, drop_ge by (rewrite length_app; cbn; lia). done.
    + destruct (class_text p (93 :: c :: l) 1 ltac:(cbn; lia) ltac:(left; cbn; lia)) as (Hd & Ht & Hg). rewrite Hd, Ht. split; [|done].
      change (read_members (93 :: c :: l)) with (let (x, y) := up_to_close (c :: l) in (members_of (93 :: x), y)). by rewrite up_to_close_eq.
  - destruct (class_text p l 0 ltac:(lia) ltac:(by right)) as (Hd & Ht & Hg). rewrite Hd, Ht. split; [|done]. rewrite !drop_0. cbn [take app].
    assert (Hr : read_members l = let (x, y) := up_to_close l in (members_of x, y)); [|by rewrite Hr, up_to_close_eq].
    destruct l as [|c l]; [done|]. cbn in E. zbool. cbn [read_members]. repeat (destruct c as [|c|c]; try done).
Qed.

Lemma atom_len_class p l : p = [91] /\ at_is l 0 94 = false \/ p = [91; 94] -> re_atom_len (p ++ l) = class_len p l (if at_is l 0 93 then 1 else 0).
Proof.
  intros [[-> H]| ->]; unfold re_atom_len, class_len; cbn [app].
  - change (91 =? 91) with true. change (at_is (91 :: l) 1 94) with (at_is l 0 94). rewrite H. cbn iota.
    change (at_is (91 :: l) 1 93) with (at_is l 0 93). by destruct (at_is l 0 93).
  - change (91 =? 91) with true. change (at_is (91 :: 94 :: l) 1 94) with true. cbn iota.
    change (at_is (91 :: 94 :: l) 2 93) with (at_is l 0 93). by destruct (at_is l 0 93).
Qed.

(** Every pattern but the empty one starts with an atom; the code's length is
    where it ends, the code's test whether it admits a character. *)
Lemma read_atom_spec re : re <> [] -> exists a, read_atom re = Some (a, drop (re_atom_len re) re) /\
  forall ch, re_atom_matches re (re_atom_len re) ch = Some (bool_decide (admits a ch)).
Proof.
  intros Hne. pose proof (atom_len_bounds re Hne) as Hlen.
  assert (Hm : forall ch c0 re', re = c0 :: re' -> re_atom_matches re (re_atom_len re) ch =
     if c0 =? 91 then
      let end_ := class_end re (re_atom_len re) in let neg := (1 <? end_)%nat && at_is re 1 94 in let i := (if neg then 2 else 1)%nat in
      let hit := class_hit (take (end_ - i) (drop i re)) ch false in Some (if neg then negb hit else hit)
     else if c0 =? 46 then Some true else Some (c0 =? ch)).
  { intros ch c0 re' ->. unfold re_atom_matches. destruct (re_atom_len (c0 :: re') =? 0)%nat eqn:E; [apply Nat.eqb_eq in E; lia|].
    destruct (length (c0 :: re') <? re_atom_len (c0 :: re'))%nat eqn:E2; [apply Nat.ltb_lt in E2; lia|]. done. }
  assert (Hclass : forall p l, re = p ++ l -> p = [91] /\ at_is l 0 94 = false \/ p = [91; 94] -> exists ms,
     read_members l = (ms, drop (re_atom_len re) re) /\
     forall ch, re_atom_matches re (re_atom_len re) ch = Some (bool_decide (admits (Class (length p =? 2)%nat ms) ch))).
  { intros p l -> Hp. rewrite (atom_len_class p l Hp) in *. set (alen := class_len p l _) in *.
    destruct (read_members_spec p l) as [Hr He]; [by destruct Hp as [[-> _]| ->]; cbn; lia|by destruct Hp as [[-> _]| ->]|]. fold alen in Hr, He.
    eexists. split; [exact Hr|]. intros ch.
    assert (Hneg : (1 <? class_end (p ++ l) alen)%nat && at_is (p ++ l) 1 94 = (length p =? 2)%nat).
    { destruct Hp as [[-> Hl]| ->]; cbn [length] in *; [|apply andb_true_iff; split; [apply Nat.ltb_lt; lia|done]].
      change (at_is ([91] ++ l) 1 94) with (at_is l 0 94). by rewrite Hl, andb_false_r. }
    assert (Hi : (if (length p =? 2)%nat then 2 else 1)%nat = length p) by (by destruct Hp as [[-> Hl]| ->]).
    assert (exists c q, p ++ l = c :: q /\ c = 91) as (c & q & Hcq & ->) by (destruct Hp as [[-> Hl]| ->]; by eexists _, _).
    rewrite (Hm ch 91 q Hcq). change (91 =? 91) with true. cbn zeta iota. rewrite Hneg, Hi, drop_app_length, (class_hit_spec ch _ _ false (le_n _)). cbn [orb].
    destruct (length p =? 2)%nat; cbn [admits]; [|done]. f_equal. rewrite <- bool_decide_not. apply bool_decide_ext. symmetry. apply List.Forall_Exists_neg. }
  destruct re as [|c re]; [done|]. destruct (decide (c = 91)) as [->|Hc].
  - destruct (at_is re 0 94) eqn:E.
    + destruct re as [|d re]; [done|]. cbn in E. zbool. subst d. destruct (Hclass [91; 94] re eq_refl ltac:(by right)) as (ms & Hr & Ha).
      exists (Class true ms). split; [|exact Ha]. cbn [read_atom]. by rewrite Hr.
    + destruct (Hclass [91] re eq_refl ltac:(by left)) as (ms & Hr & Ha). exists (Class false ms). split; [|exact Ha].
      rewrite <- Hr at 1 || idtac. cbn [read_atom]. destruct re as [|d re]; [by rewrite Hr|]. cbn in E. zbool.
      assert (Hd : read_atom (91 :: d :: re) = let (ms, l) := read_members (d :: re) in Some (Class false ms, l)); [|by rewrite Hr in Hd].
      cbn [read_atom]. repeat (destruct d as [|d|d]; try done).
  - rewrite (proj2 (Z.eqb_neq c 91) Hc) in Hm || idtac. assert (Hl1 : re_atom_len (c :: re) = 1%nat) by (unfold re_atom_len; by rewrite (proj2 (Z.eqb_neq c 91) Hc)).
    destruct (decide (c = 46)) as [->|Hc'].
    + exists AnyChar. rewrite Hl1. split; [done|]. intros ch. rewrite <- Hl1, (Hm ch 46 re eq_refl). done.
    + exists (Literal c). split.
      * rewrite Hl1. cbn [drop]. rewrite drop_0. cbn [read_atom]. repeat (destruct c as [|c|c]; try done).
      * intros ch. rewrite (Hm ch c re eq_refl), (proj2 (Z.eqb_neq c 91) Hc), (proj2 (Z.eqb_neq c 46) Hc'). cbn [admits]. f_equal. case_bool_decide; lia.
Qed.

(** ** Greedy runs *)

(** The run is the longest, so a count is admissible just when it is within it. *)
Lemma run_spec re x s : (forall ch, re_atom_matches re (re_atom_len re) ch = Some (bool_decide (admits x ch))) ->
  exists n, run_length re (re_atom_len re) s = Some n /\ (n <= length s)%nat /\
    forall k, (k <= length s)%nat -> (k <= n)%nat <-> Forall (admits x) (take k s).
Proof.
  intros Hf. induction s as [|ch s (n & IH & Hn & Hk)]; cbn [run_length].
  - exists O. split; [done|]. split; [done|]. intros k. cbn. intros. destruct k; [|lia]. by split.
  - rewrite Hf. cbn [mbind option_bind]. case_bool_decide as E.
    + rewrite IH. exists (S n). split; [done|]. split; [cbn; lia|]. intros [|k] Hlen; cbn in *; [split; [constructor|lia]|].
      rewrite Forall_cons, <- Hk by lia. split; [by intros; split; [|lia]|]. intros [_ ?]. lia.
    + exists O. split; [done|]. split; [lia|]. intros [|k] Hlen; cbn; [split; [constructor|lia]|].
      rewrite Forall_cons. split; [lia|]. by intros [? _].
Qed.

Lemma cost_pos n l : 0 <= n -> 1 <= cost n l.
Proof. intros. induction l as [|it l IH]; cbn; [lia|]. destruct (times it); nia. Qed.

Lemma cost_mono n m l : 0 <= n <= m -> cost n l <= cost m l.
Proof. intros. induction l as [|it l IH]; cbn; [lia|]. pose proof (cost_pos n l). destruct (times it); nia. Qed.

(** What a matcher for the items [l], [a] promises on a text of at most [n]
    characters: the right answer, or -1 when the budget is short. *)
Definition answers (l : list item) (a : bool) (n : Z) (ok : bool) (steps : Z) (s : bytes) (res : option (Z * Z)) : Prop :=
  exists r steps', res = Some (r, steps') /\ 0 <= steps' <= steps /\
    (r = 1 /\ matches l a s \/ r = 0 /\ ~ matches l a s \/ r = RE_MATCH_BUDGET) /\
    (ok = true -> cost n l <= steps -> r <> RE_MATCH_BUDGET /\ steps - steps' <= cost n l).

Lemma back_off_spec here l a ok n0 s min : 0 <= n0 ->
  (forall k steps, 0 <= steps -> answers l a n0 ok steps (drop k s) (here (drop k s) steps)) ->
  forall n steps, 0 <= steps ->
  exists r steps', back_off here n min s steps = Some (r, steps') /\ 0 <= steps' <= steps /\
    (r = 1 /\ (exists k, (min <= k <= n)%nat /\ matches l a (drop k s)) \/ r = 0 /\ (forall k, (min <= k <= n)%nat -> ~ matches l a (drop k s)) \/ r = RE_MATCH_BUDGET) /\
    (ok = true -> (Z.of_nat n + 1) * cost n0 l <= steps -> r <> RE_MATCH_BUDGET /\ steps - steps' <= (Z.of_nat n + 1) * cost n0 l).
Proof.
  intros Hn0 Hh. pose proof (cost_pos n0 l Hn0) as Hc. induction n as [|n IH]; intros steps Hs; cbn [back_off].
  - destruct (0 <? min)%nat eqn:Em.
    { apply Nat.ltb_lt in Em. exists 0, steps. split; [done|]. split; [lia|]. split; [right; left; split; [done|]; intros; lia|]. intros. unfold RE_MATCH_BUDGET. nia. }
    apply Nat.ltb_ge in Em. destruct (Hh O steps Hs) as (r & st & -> & Hst & Hr & Hb). cbn [mbind option_bind].
    destruct (r =? 0) eqn:E; zbool; cbn [negb].
    + exists 0, st. split; [done|]. split; [done|]. subst r. split; [|intros Hok Hcs; destruct (Hb Hok ltac:(lia)); split; [done|lia]].
      destruct Hr as [[? _]|[[_ Hm]|?]]; [lia| |done]. right; left. split; [done|]. intros k Hk. by replace k with O by lia.
    + exists r, st. split; [done|]. split; [done|]. split; [|intros Hok Hcs; destruct (Hb Hok ltac:(lia)); split; [done|lia]].
      destruct Hr as [[? Hm]|[[? _]|?]]; [left; split; [done|]; exists O; by split; [lia|]|lia|by right; right].
  - destruct (S n <? min)%nat eqn:Em.
    { apply Nat.ltb_lt in Em. exists 0, steps. split; [done|]. split; [lia|]. split; [right; left; split; [done|]; intros; lia|]. intros. unfold RE_MATCH_BUDGET. nia. }
    apply Nat.ltb_ge in Em. destruct (Hh (S n) steps Hs) as (r & st & -> & Hst & Hr & Hb). cbn [mbind option_bind].
    destruct (r =? 0) eqn:E; zbool; cbn [negb].
    + subst r. destruct (IH st) as (r' & st' & E' & Hst' & Hr' & Hb'); [lia|]. exists r', st'. split; [exact E'|]. split; [lia|].
      assert (Hno : ~ matches l a (drop (S n) s)) by (destruct Hr as [[? _]|[[_ Hm]|?]]; [lia|done|done]). split.
      * destruct Hr' as [[-> (k & Hk & Hm)]|[[-> Hm]| ->]]; [left; split; [done|]; exists k; split; [lia|done]| |by right; right].
        right; left. split; [done|]. intros k Hk. destruct (decide (k = S n)) as [->|]; [done|]. apply Hm. lia.
      * intros Hok Hcs. destruct (Hb Hok ltac:(nia)) as [_ Hu]. destruct (Hb' Hok ltac:(nia)). split; [done|nia].
    + exists r, st. split; [done|]. split; [lia|]. split; [|intros Hok Hcs; destruct (Hb Hok ltac:(nia)); split; [done|nia]].
      destruct Hr as [[? Hm]|[[? _]|?]]; [left; split; [done|]; exists (S n); by split; [lia|]|lia|by right; right].
Qed.


(** ** The matcher decides the meaning of the pattern *)

Lemma matches_cons it l a s : matches (it :: l) a s <->
  exists k, allowed (times it) k /\ (k <= length s)%nat /\ Forall (admits (what it)) (take k s) /\ matches l a (drop k s).
Proof.
  split.
  - intros H. inversion H as [| |? ? ? ? k]; subst. by exists k.
  - intros (k & H1 & H2 & H3 & H4). by eapply matches_item.
Qed.

Lemma read_quantifier_eq l : read_quantifier l = (quant_of (l !! O), match quant_of (l !! O) with Once => l | _ => drop 1 l end).
Proof. destruct l as [|c l]; [done|]. unfold quant_of. cbn [lookup list_lookup]. repeat case_decide; simplify_eq; try done. cbn [read_quantifier]. repeat (destruct c as [|c|c]; try done). Qed.

Lemma items_eq fuel re x : re <> [36] -> read_atom re = Some (x, drop (re_atom_len re) re) ->
  let alen := re_atom_len re in let q := quant_of (re !! alen) in let rest := drop (match q with Once => alen | _ => S alen end) re in
  items (S fuel) re = (MkItem x q :: (items fuel rest).1, (items fuel rest).2).
Proof.
  intros Hn Hx. cbn [items]. rewrite decide_False by done. rewrite Hx, read_quantifier_eq, lookup_drop, Nat.add_0_r. cbn zeta.
  assert (Hd : drop 1 (drop (re_atom_len re) re) = drop (S (re_atom_len re)) re) by (rewrite drop_drop; f_equal; lia).
  destruct (quant_of _); rewrite ?Hd; by destruct (items fuel _).
Qed.

Lemma next_matches_spec re x s : (forall ch, re_atom_matches re (re_atom_len re) ch = Some (bool_decide (admits x ch))) ->
  exists b, next_matches re (re_atom_len re) s = Some b /\ (b = true <-> (1 <= length s)%nat /\ Forall (admits x) (take 1 s)).
Proof.
  intros Hf. destruct s as [|ch s]; cbn.
  - exists false. split; [done|]. split; [done|]. lia.
  - exists (bool_decide (admits x ch)). split; [apply Hf|]. rewrite Forall_cons, bool_decide_eq_true. split; [|tauto]. intros. split; [lia|]. by split.
Qed.

Lemma answers_more l a n m ok ok' steps s res : answers l a n ok steps s res -> (ok' = true -> ok = true) -> cost n l <= cost m l -> answers l a m ok' steps s res.
Proof.
  intros (r & st & -> & H1 & H2 & H3) Hok Hc. exists r, st. split; [done|]. split; [done|]. split; [done|].
  intros Ho Hs. destruct (H3 (Hok Ho)); [lia|]. split; [done|lia].
Qed.

(** What matching one item, then the rest, promises within [c] steps. *)
Definition item_answers (it : item) (l : list item) (a : bool) (c : Z) (ok : bool) (steps : Z) (s : bytes) (res : option (Z * Z)) : Prop :=
  exists r steps', res = Some (r, steps') /\ 0 <= steps' <= steps /\
    (r = 1 /\ matches (it :: l) a s \/ r = 0 /\ ~ matches (it :: l) a s \/ r = RE_MATCH_BUDGET) /\
    (ok = true -> c <= steps -> r <> RE_MATCH_BUDGET /\ steps - steps' <= c).

Section Item.
Context (here : bytes -> Z -> option (Z * Z)) (re : bytes) (x : atom) (s : bytes) (l : list item) (a ok : bool) (n0 steps : Z).
Hypothesis Hf : forall ch, re_atom_matches re (re_atom_len re) ch = Some (bool_decide (admits x ch)).
Hypothesis Hn0 : zlen s <= n0.
Hypothesis Hs : 0 <= steps.
Hypothesis Hh : forall k steps, 0 <= steps -> answers l a n0 ok steps (drop k s) (here (drop k s) steps).

Lemma repeat_answers q min : (forall k, allowed q k <-> (min <= k)%nat) ->
  item_answers (MkItem x q) l a ((n0 + 1) * cost n0 l) ok steps s (re_match_repeat_b here re (re_atom_len re) s min steps).
Proof.
  intros Hq. unfold re_match_repeat_b. destruct (run_spec re x s Hf) as (n & -> & Hn & Hk). cbn [mbind option_bind].
  unfold zlen in Hn0. destruct (back_off_spec here l a ok n0 s min ltac:(lia) Hh n steps Hs) as (r & st & -> & Hst & Hr & Hb).
  exists r, st. split; [done|]. split; [done|]. pose proof (cost_pos n0 l ltac:(lia)). split.
  - assert (Hiff : matches (MkItem x q :: l) a s <-> exists k, (min <= k <= n)%nat /\ matches l a (drop k s)).
    { rewrite matches_cons. cbn [times what]. split.
      - intros (k & H1 & H2 & H3 & H4). exists k. split; [|done]. rewrite Hq in H1. apply (Hk k H2) in H3. lia.
      - intros (k & H1 & H2). exists k. split; [apply Hq; lia|]. split; [lia|]. split; [|done]. apply Hk; lia. }
    destruct Hr as [[-> H0]|[[-> H0]| ->]]; [left|right; left|by right; right]; (split; [done|]); rewrite Hiff; [done|].
    intros (k & H1 & H2). by eapply H0.
  - intros Hok Hcs. destruct (Hb Hok ltac:(nia)). split; [done|nia].
Qed.

Lemma once_answers : item_answers (MkItem x Once) l a (cost n0 l) ok steps s
  (b ← next_matches re (re_atom_len re) s; if b : bool then here (drop 1 s) steps else Some (0, steps)).
Proof.
  destruct (next_matches_spec re x s Hf) as (b & -> & Hb). cbn [mbind option_bind]. pose proof (cost_pos n0 l ltac:(pose proof (zlen_nonneg s); lia)).
  assert (Hiff : matches (MkItem x Once :: l) a s <-> b = true /\ matches l a (drop 1 s)).
  { rewrite matches_cons, Hb. cbn [times what allowed]. split; [by intros (k & -> & H1 & H2 & H3)|]. intros [[H1 H2] H3]. by exists 1%nat. }
  destruct b.
  - destruct (Hh 1 steps Hs) as (r & st & -> & Hst & Hr & Hc). exists r, st. split; [done|]. split; [done|]. split; [|done].
    destruct Hr as [[-> H0]|[[-> H0]| ->]]; [left|right; left|by right; right]; (split; [done|]); rewrite Hiff; [done|]. by intros [_ ?].
  - exists 0, steps. split; [done|]. split; [lia|]. split; [|unfold RE_MATCH_BUDGET; lia]. right; left. split; [done|]. rewrite Hiff. by intros [? _].
Qed.

Lemma optional_answers : item_answers (MkItem x Optional) l a (2 * cost n0 l) ok steps s
  (b ← next_matches re (re_atom_len re) s; '(r, steps) ← if b : bool then here (drop 1 s) steps else Some (0, steps);
   if r =? 0 then here s steps else Some (r, steps)).
Proof.
  destruct (next_matches_spec re x s Hf) as (b & -> & Hb). cbn [mbind option_bind]. pose proof (cost_pos n0 l ltac:(pose proof (zlen_nonneg s); lia)).
  assert (Hiff : matches (MkItem x Optional :: l) a s <-> b = true /\ matches l a (drop 1 s) \/ matches l a s).
  { rewrite matches_cons, Hb. cbn [times what allowed]. split.
    - intros ([|[|k]] & H1 & H2 & H3 & H4); [right; by rewrite drop_0 in H4|by left|lia].
    - intros [[[H1 H2] H3]|H3]; [exists 1%nat|exists O]; (split; [lia|]); [done|]. rewrite drop_0. split; [lia|]. split; [constructor|done]. }
  assert (Hlast : forall st, 0 <= st <= steps -> (ok = true -> cost n0 l <= steps -> steps - st <= cost n0 l) -> (b = true -> ~ matches l a (drop 1 s)) ->
      item_answers (MkItem x Optional) l a (2 * cost n0 l) ok steps s (here s st)).
  { intros st Hst Hu Hno. destruct (Hh O st ltac:(lia)) as (r & st' & E & Hst' & Hr & Hc). rewrite drop_0 in *.
    exists r, st'. split; [exact E|]. split; [lia|]. split.
    - destruct Hr as [[-> H0]|[[-> H0]| ->]]; [left|right; left|by right; right]; (split; [done|]); rewrite Hiff; [by right|]. intros [[? ?]|?]; [by apply Hno|done].
    - intros Hok Hcs. specialize (Hu Hok ltac:(lia)). destruct (Hc Hok ltac:(lia)). split; [done|lia]. }
  destruct b.
  2:{ cbn [mbind option_bind Z.eqb]. apply Hlast; [lia|lia|done]. }
  destruct (Hh 1 steps Hs) as (r & st & -> & Hst & Hr & Hc). cbn [mbind option_bind]. destruct (r =? 0) eqn:E; zbool.
  - destruct Hr as [[? _]|[[_ Hno]|?]]; [lia| |subst r; done]. apply Hlast; [done| |by intros _]. intros Hok Hcs. by apply Hc.
  - exists r, st. split; [done|]. split; [done|]. split; [|intros Hok Hcs; destruct (Hc Hok ltac:(lia)); split; [done|lia]].
    destruct Hr as [[-> H0]|[[-> H0]| ->]]; [left|done|by right; right]. split; [done|]. rewrite Hiff. by left.
Qed.
End Item.

Lemma item_answers_more it l a c ok ok' n steps s res : item_answers it l a c ok (steps - 1) s res -> (ok' = true -> ok = true) ->
  1 + c = cost n (it :: l) -> answers (it :: l) a n ok' steps s res.
Proof.
  intros (r & st & -> & H1 & H2 & H3) Hok Hc. exists r, st. split; [done|]. split; [lia|]. split; [done|].
  intros Ho Hs. destruct (H3 (Hok Ho)); [lia|]. split; [done|lia].
Qed.

(** The empty pattern and the lone anchor. *)
Lemma here_last depth s steps : 0 < steps ->
  answers [] false (zlen s) true steps s (re_match_here_b (S depth) [] s steps) /\ answers [] true (zlen s) true steps s (re_match_here_b (S depth) [36] s steps).
Proof.
  intros Hs. cbn [re_match_here_b]. destruct (steps =? 0) eqn:E; zbool; [lia|]. cbn [length Nat.eqb at_is lookup list_lookup Z.eqb Pos.eqb andb]. unfold RE_MATCH_BUDGET. split.
  - exists 1, (steps - 1). split; [done|]. split; [lia|]. split; [left; split; [done|constructor]|]. unfold RE_MATCH_BUDGET. cbn. lia.
  - destruct s as [|c s]; cbn [length Nat.eqb].
    + exists 1, (steps - 1). split; [done|]. split; [lia|]. split; [left; split; [done|constructor]|]. unfold RE_MATCH_BUDGET. cbn. lia.
    + exists 0, (steps - 1). split; [done|]. split; [lia|]. split; [right; left; split; [done|]; intros H; inversion H|]. unfold RE_MATCH_BUDGET. cbn. lia.
Qed.

(** One step of the matcher, on a pattern that starts with an atom. *)
Lemma here_eq depth re s steps : re <> [] -> re <> [36] -> steps <> 0 -> let alen := re_atom_len re in
  re_match_here_b (S depth) re s steps =
    match quant_of (re !! alen) with
    | Star => re_match_repeat_b (re_match_here_b depth (drop (S alen) re)) re alen s 0 (steps - 1)
    | Plus => re_match_repeat_b (re_match_here_b depth (drop (S alen) re)) re alen s 1 (steps - 1)
    | Optional =>
        b ← next_matches re alen s;
        '(r, steps) ← if b : bool then re_match_here_b depth (drop (S alen) re) (drop 1 s) (steps - 1) else Some (0, steps - 1);
        if r =? 0 then re_match_here_b depth (drop (S alen) re) s steps else Some (r, steps)
    | Once => b ← next_matches re alen s; if b : bool then re_match_here_b depth (drop alen re) (drop 1 s) (steps - 1) else Some (0, steps - 1)
    end.
Proof.
  intros Hne Hnd Hst alen. cbn [re_match_here_b]. destruct (steps =? 0) eqn:E; zbool; [done|].
  destruct (length re =? 0)%nat eqn:El; [apply Nat.eqb_eq in El; by destruct re|].
  assert (at_is re 0 36 && (length re =? 1)%nat = false) as ->.
  { destruct re as [|c [|d re]]; [done| |by rewrite andb_false_r]. cbn. destruct (c =? 36) eqn:E1; [|done]. zbool. by subst. }
  fold alen. assert (Hq : (if (alen <? length re)%nat then re !! alen else Some 0) = Some (default 0 (re !! alen))).
  { destruct (alen <? length re)%nat eqn:E1; [apply Nat.ltb_lt in E1|apply Nat.ltb_ge in E1].
    - destruct (lookup_lt_is_Some_2 re alen E1) as [x ->]. done.
    - by rewrite lookup_ge_None_2 by lia. }
  rewrite Hq. cbn [mbind option_bind]. unfold quant_of. destruct (re !! alen) as [q|]; cbn [default from_option id].
  - repeat case_decide; simplify_eq; try done. destruct (q =? 42) eqn:E1; zbool; [congruence|]. destruct (q =? 43) eqn:E2; zbool; [congruence|].
    destruct (q =? 63) eqn:E3; zbool; [congruence|]. done.
  - by repeat case_decide.
Qed.

Lemma here_spec depth : forall fuel re s steps, (length re <= fuel)%nat -> 0 <= steps ->
  let (l, a) := items fuel re in answers l a (zlen s) (bool_decide (length l < depth)%nat) steps s (re_match_here_b depth re s steps).
Proof.
  induction depth as [|depth IH]; intros fuel re s steps Hfuel Hs; destruct (items fuel re) as [l a] eqn:Ei.
  { exists RE_MATCH_BUDGET, steps. cbn. destruct (steps =? 0); (split; [done|]; split; [lia|]; split; [by right; right|]; intros ?%bool_decide_eq_true; lia). }
  pose proof (zlen_nonneg s) as Hzs. destruct (decide (steps = 0)) as [->|Hst].
  { pose proof (cost_pos (zlen s) l Hzs). exists RE_MATCH_BUDGET, 0. cbn. split; [done|]. split; [lia|]. split; [by right; right|]. lia. }
  destruct (decide (re = [])) as [->|Hne].
  { assert (l = [] /\ a = false) as [-> ->] by (destruct fuel; by injection Ei as <- <-).
    eapply answers_more; [by apply here_last; lia|done|lia]. }
  destruct fuel as [|fuel]; [destruct re; cbn in *; [done|lia]|]. destruct (decide (re = [36])) as [->|Hnd].
  { cbn [items] in Ei. rewrite decide_True in Ei by done. injection Ei as <- <-. eapply answers_more; [by apply here_last; lia|done|lia]. }
  destruct (read_atom_spec re Hne) as (x & Hx & Hf). rewrite (items_eq fuel re x Hnd Hx) in Ei. injection Ei as <- <-. rewrite here_eq by done. set (alen := re_atom_len re) in *.
  pose proof (atom_len_bounds re Hne) as Ha. fold alen in Ha, Hf.
  assert (Hrest : forall n, (1 <= n)%nat -> let (l, a) := items fuel (drop n re) in forall k steps, 0 <= steps ->
      answers l a (zlen s) (bool_decide (length l < depth)%nat) steps (drop k s) (re_match_here_b depth (drop n re) (drop k s) steps)).
  { intros n Hn. pose proof (fun k steps => IH fuel (drop n re) (drop k s) steps ltac:(rewrite length_drop; lia)) as H. destruct (items fuel (drop n re)) as [l a]. intros k st H0.
    eapply answers_more; [by apply H|done|]. apply cost_mono. unfold zlen. rewrite length_drop. lia. }
  assert (Hok : forall n, bool_decide (S n < S depth)%nat = true -> bool_decide (n < depth)%nat = true) by (intros n ?%bool_decide_eq_true; apply bool_decide_eq_true; lia).
  destruct (quant_of (re !! alen)) eqn:Eq.
  - pose proof (Hrest alen ltac:(lia)) as Hh. destruct (items fuel (drop alen re)) as [l a].
    eapply item_answers_more; [apply (once_answers _ re x s l a _ (zlen s)); [exact Hf|lia|lia|exact Hh]|apply Hok|cbn; lia].
  - pose proof (Hrest (S alen) ltac:(lia)) as Hh. destruct (items fuel (drop (S alen) re)) as [l a].
    eapply item_answers_more; [apply (optional_answers _ re x s l a _ (zlen s)); [exact Hf|lia|lia|exact Hh]|apply Hok|cbn; lia].
  - pose proof (Hrest (S alen) ltac:(lia)) as Hh. destruct (items fuel (drop (S alen) re)) as [l a].
    eapply item_answers_more; [apply (repeat_answers _ re x s l a _ (zlen s)); [exact Hf|lia|lia|exact Hh|by intros; split; [lia|]]|apply Hok|cbn; lia].
  - pose proof (Hrest (S alen) ltac:(lia)) as Hh. destruct (items fuel (drop (S alen) re)) as [l a].
    eapply item_answers_more; [apply (repeat_answers _ re x s l a _ (zlen s)); [exact Hf|lia|lia|exact Hh|done]|apply Hok|cbn; lia].
Qed.


(** ** Searching *)

Lemma search_from_spec re l a n0 p : items (length re) re = (l, a) -> forall steps, 0 <= steps -> zlen p <= n0 ->
  exists r steps', search_from re p steps = Some (r, steps') /\
    (r = 1 /\ (exists k, (k <= length p)%nat /\ matches l a (drop k p)) \/ r = 0 /\ (forall k, (k <= length p)%nat -> ~ matches l a (drop k p)) \/ r = RE_MATCH_BUDGET) /\
    ((length l < RE_BUDGET_DEPTH)%nat -> (zlen p + 1) * cost n0 l <= steps -> r <> RE_MATCH_BUDGET).
Proof.
  intros Ei. induction p as [|c p IH]; intros steps Hs Hn; cbn [search_from].
  - change (zlen (@nil Z)) with 0 in *. pose proof (cost_pos n0 l Hn).
    pose proof (here_spec RE_BUDGET_DEPTH (length re) re [] steps ltac:(lia) Hs) as H1. rewrite Ei in H1. destruct H1 as (r & st & -> & Hst & Hr & Hb). cbn [mbind option_bind].
    pose proof (cost_mono 0 n0 l ltac:(lia)) as Hm.
    assert (Hc : (length l < RE_BUDGET_DEPTH)%nat -> (0 + 1) * cost n0 l <= steps -> r <> RE_MATCH_BUDGET).
    { intros Hl Hc. apply Hb; [by apply bool_decide_eq_true|]. change (zlen (@nil Z)) with 0. lia. }
    destruct (r =? 0) eqn:E; zbool; cbn [negb]; eexists _, st; (split; [done|]); (split; [|by subst]).
    + destruct Hr as [[? _]|[[_ Hno]|?]]; [lia| |by subst]. right; left. split; [done|]. intros [|k] Hk; [done|cbn in Hk; lia].
    + destruct Hr as [[-> Hy]|[[? _]| ->]]; [left; split; [done|]; by exists O|lia|by right; right].
  - rewrite zlen_cons in Hn |- *. pose proof (zlen_nonneg p). pose proof (cost_pos n0 l ltac:(lia)).
    pose proof (here_spec RE_BUDGET_DEPTH (length re) re (c :: p) steps ltac:(lia) Hs) as H1. rewrite Ei in H1. destruct H1 as (r & st & -> & Hst & Hr & Hb). cbn [mbind option_bind].
    pose proof (cost_mono (zlen (c :: p)) n0 l ltac:(rewrite zlen_cons; lia)) as Hm.
    assert (Hc : (length l < RE_BUDGET_DEPTH)%nat -> cost n0 l <= steps -> r <> RE_MATCH_BUDGET /\ steps - st <= cost n0 l).
    { intros Hl Hc. destruct Hb as [H1 H2]; [by apply bool_decide_eq_true|lia|]. split; [done|lia]. }
    destruct (r =? 0) eqn:E; zbool; cbn [negb].
    + destruct (IH st ltac:(lia) ltac:(lia)) as (r' & st' & E' & Hr' & Hc'). exists r', st'. split; [exact E'|]. split.
      * assert (Hno : ~ matches l a (c :: p)) by (destruct Hr as [[? _]|[[_ Hno]|?]]; [lia|done|by subst]).
        destruct Hr' as [[-> (k & Hk & Hy)]|[[-> Hn']| ->]]; [left|right; left|by right; right]; (split; [done|]).
        { exists (S k). split; [cbn; lia|done]. }
        intros [|k] Hk; [done|]. apply Hn'. cbn in Hk. lia.
      * intros Hl Hcs. destruct (Hc Hl ltac:(nia)) as [_ Hu]. apply Hc'; [done|nia].
    + exists r, st. split; [done|]. split.
      * destruct Hr as [[-> Hy]|[[? _]| ->]]; [left; split; [done|]; exists O; split; [lia|done]|lia|by right; right].
      * intros Hl Hcs. apply Hc; [done|nia].
Qed.

(** What is matched: the pattern without its leading [^]. *)
Definition body (re : bytes) : bytes := if at_is re 0 94 then drop 1 re else re.

(** ** The claims *)

(** C32 The backtracking matcher is correct and safe. On every pattern and
    text it returns without reading outside either: 1 only if the pattern,
    read as atoms (a character, [.], a class of characters and ranges,
    negated or not) with their quantifiers and an anchor [$], occurs in the
    text (at its start after a leading [^]), 0 only if it does not, or -1.
    The meaning of atoms is defined apart from the code's re_atom_len and
    re_atom_matches, which are shown to implement it; in it, as in the code,
    a [']'] that is both the first member of a class and the pattern's last
    character is no member. The answer is never -1 when the pattern has
    fewer than 128 atoms and (n + 1) * cost is at most a million, n being
    the length of the text and cost, from the last atom to the first, 1 at
    the end of the pattern and for an atom 1 plus the cost of what follows,
    taken once for a plain atom, twice for [?] and n + 1 times for [*] and
    [+]. *)
Theorem search_decides re s : exists r, urbi_regexp_search (Some re) (Some s) = Some r /\
  (r = 1 /\ occurs re s \/ r = 0 /\ ~ occurs re s \/ r = RE_MATCH_BUDGET) /\
  ((length (items (length (body re)) (body re)).1 < RE_BUDGET_DEPTH)%nat ->
   (zlen s + 1) * cost (zlen s) (items (length (body re)) (body re)).1 <= RE_BUDGET_STEPS -> r <> RE_MATCH_BUDGET).
Proof.
  unfold urbi_regexp_search, occurs, body, pattern_matches. pose proof (zlen_nonneg s) as Hz. destruct (at_is re 0 94) eqn:Ea.
  - pose proof (here_spec RE_BUDGET_DEPTH (length (drop 1 re)) (drop 1 re) s RE_BUDGET_STEPS ltac:(lia) ltac:(done)) as H.
    destruct (items (length (drop 1 re)) (drop 1 re)) as [l a]. destruct H as (r & st & -> & _ & Hr & Hb). exists r. split; [done|]. split; [done|].
    cbn [fst]. intros Hl Hc. apply Hb; [by apply bool_decide_eq_true|]. pose proof (cost_pos (zlen s) l Hz). nia.
  - destruct (items (length re) re) as [l a] eqn:Ei.
    destruct (search_from_spec re l a (zlen s) s Ei RE_BUDGET_STEPS ltac:(done) ltac:(lia)) as (r & st & -> & Hr & Hb).
    exists r. split; [done|]. split; [|done]. destruct Hr as [[-> H]|[[-> H]| ->]]; [by left|right; left|by right; right].
    split; [done|]. intros (k & Hk & Hm). by eapply H.
Qed.

(** [^a[bc]*d$] on a text that needs one step of backing off. *)
Example search_backs_off : urbi_regexp_search (Some [94; 97; 91; 98; 45; 100; 93; 42; 100; 36]) (Some [97; 98; 100; 99; 100]) = Some 1.
Proof. vm_compute. reflexivity. Qed.

(** The example of the source, [a*a*a*a*b] on many a's, exhausts the budget. *)
Example search_gives_up : urbi_regexp_search (Some [97; 42; 97; 42; 97; 42; 97; 42; 98]) (Some (replicate 70 97)) = Some (-1).
Proof. vm_compute. reflexivity. Qed.

(** A negated class with a range: [^a-c] admits d and not b. *)
Example negated_class_reads : read_atom [91; 94; 97; 45; 99; 93] = Some (Class true [Range 97 99], []) /\
  admits (Class true [Range 97 99]) 100 /\ ~ admits (Class true [Range 97 99]) 98.
Proof. split; [reflexivity|]. split; [by apply (bool_decide_unpack _); vm_compute|]. by apply (bool_decide_unpack _); vm_compute. Qed.

End Regexp.
