(* ===== verification/Arena.v ===== *)
(** * The compiler's arena (src/src/util/uarena.c, uarena.h)

    A chain of chunks, each a header and a payload inside one block of the
    backing allocator, bump-allocated from the chunk called head.  The chain is
    the chunks before the head, the head, and those after it; addresses and
    sizes are 64-bit, and every [size_t] expression wraps.  [None] is a failed
    assertion, or a store outside the block a chunk was carved from. *)
From Stdlib Require Import Permutation.
From S2P Require Import Prelude.

Module Arena.

Definition ARENA_DEFAULT_CHUNK_SIZE : Z := 4096.
Definition ARENA_ALIGN : Z := 16.
(** sizeof(UArenaChunk): a pointer and two sizes. *)
Definition HEADER : Z := 24.

(** [ck_at], [ck_size]: the block the chunk lies in. *)
Record UArenaChunk := MkChunk { ck_at : Z; ck_size : Z; ck_capacity : Z; ck_used : Z }.

#[export] Instance UArenaChunk_eq_dec : EqDecision UArenaChunk.
Proof. solve_decision. Defined.

Definition with_used (n : Z) (c : UArenaChunk) : UArenaChunk := MkChunk (ck_at c) (ck_size c) (ck_capacity c) n.

(** The backing allocator, with the blocks it has handed out. *)
Class Backing (U : Type) := {
  alloc_fn : Z -> U -> option Z * U;
  free_fn : Z -> U -> U;
  blocks : U -> list (Z * Z) }.

(** Two byte ranges, an address and a size each, do not meet. *)
Definition apart (a b : Z * Z) : Prop := a.1 + a.2 <= b.1 \/ b.1 + b.2 <= a.1.

(** What malloc and free promise: a block and the address past its end are in
    the address space, it is no larger than an object can be, and apart from the blocks in use; freeing one
    takes just that one back. *)
Class BackingOk (U : Type) `{Backing U} : Prop := {
  alloc_some n u p u' : alloc_fn n u = (Some p, u') ->
    0 < p /\ p + n < 2 ^ 64 /\ n <= PTRDIFF_MAX /\ blocks u' = (p, n) :: blocks u /\ Forall (apart (p, n)) (blocks u) /\ p ∉ (blocks u).*1;
  alloc_none n u u' : alloc_fn n u = (None, u') -> blocks u' = blocks u;
  free_block p n u l : p ∉ l.*1 -> blocks u ≡ₚ (p, n) :: l -> blocks (free_fn p u) ≡ₚ l }.

Section Arena.
Context {U : Type} `{Backing U}.

Record UArena := MkArena {
  a_before : list UArenaChunk;       (* from a->first, along next *)
  a_head : option UArenaChunk;
  a_after : list UArenaChunk;
  a_chunk_size : Z;
  a_oom : bool;
  a_static : bool;
  a_ud : U;
  a_mem : Z -> Z }.

Definition chain (a : UArena) : list UArenaChunk := a_before a ++ option_list (a_head a) ++ a_after a.
Definition set_oom (b : bool) (a : UArena) : UArena := MkArena (a_before a) (a_head a) (a_after a) (a_chunk_size a) b (a_static a) (a_ud a) (a_mem a).
Definition set_ud (u : U) (a : UArena) : UArena := MkArena (a_before a) (a_head a) (a_after a) (a_chunk_size a) (a_oom a) (a_static a) u (a_mem a).
Definition set_mem (m : Z -> Z) (a : UArena) : UArena := MkArena (a_before a) (a_head a) (a_after a) (a_chunk_size a) (a_oom a) (a_static a) (a_ud a) m.
Definition set_head (pre : list UArenaChunk) (c : UArenaChunk) (post : list UArenaChunk) (a : UArena) : UArena :=
  MkArena pre (Some c) post (a_chunk_size a) (a_oom a) (a_static a) (a_ud a) (a_mem a).

(** ** The code *)

Definition chunk_payload (c : UArenaChunk) : Z :=
  let base := u64 (ck_at c + HEADER) in
  let misalign := base mod ARENA_ALIGN in
  if misalign =? 0 then base else u64 (base + (ARENA_ALIGN - misalign)).

Definition init_common (chunk_size : Z) (u : U) (m : Z -> Z) : UArena :=
  MkArena [] None [] (if chunk_size =? 0 then ARENA_DEFAULT_CHUNK_SIZE else chunk_size) false false u m.

Definition uarena_init_ex (chunk_size : Z) (u : U) (m : Z -> Z) : UArena := init_common chunk_size u m.

(** [None]: the buffer is not aligned. *)
Definition uarena_init_static (buf bufsz : Z) (u : U) (m : Z -> Z) : option UArena :=
  if negb (Z.land buf (ARENA_ALIGN - 1) =? 0) then None
  else
    let a := MkArena [] None [] 0 false true u m in
    if HEADER + ARENA_ALIGN <=? bufsz then
      let c := MkChunk buf bufsz 0 0 in
      let payload_off := u64 (chunk_payload c - buf) in
      Some (set_head [] (MkChunk buf bufsz (u64 (bufsz - payload_off)) 0) [] a)
    else Some a.

(** The new chunk, unlinked; [None] inside when the backing allocator refuses. *)
Definition new_chunk (a : UArena) (min_payload : Z) : option (option UArenaChunk * U) :=
  let want := if a_chunk_size a <? min_payload then min_payload else a_chunk_size a in
  let raw := u64 (HEADER + ARENA_ALIGN + want) in
  if negb (want <? raw) then None
  else
    let '(mem, u) := alloc_fn raw (a_ud a) in
    match mem with
    | None => Some (None, u)
    | Some p =>
        let payload_off := u64 (chunk_payload (MkChunk p raw 0 0) - p) in
        let capacity := u64 (raw - payload_off) in
        if negb (min_payload <=? capacity) then None else Some (Some (MkChunk p raw capacity 0), u)
    end.

(** [!(c->used + need > c->capacity)]. *)
Definition fits (need : Z) (c : UArenaChunk) : bool := u64 (ck_used c + need) <=? ck_capacity c.

(** The first chunk that fits, with those before and after it. *)
Fixpoint scan_fit (need : Z) (l : list UArenaChunk) : option (list UArenaChunk * UArenaChunk * list UArenaChunk) :=
  match l with
  | [] => None
  | c :: l => if fits need c then Some ([], c, l) else '(pre, d, post) ← scan_fit need l; Some (c :: pre, d, post)
  end.

(** Moves head to a chunk with room; [false] when there is none to be had. *)
Definition find_room (need : Z) (a : UArena) : option (bool * UArena) :=
  match a_head a with
  | Some c => if fits need c then Some (true, a)
      else
        match scan_fit need (a_after a) with
        | Some (pre, d, post) => Some (true, set_head (a_before a ++ c :: pre) d post a)
        | None =>
            if a_static a then Some (false, a)
            else
              '(d, u) ← new_chunk a need;
              let a := set_ud u a in
              Some (match d with None => (false, a) | Some d => (true, set_head (a_before a ++ [c]) d (a_after a) a) end)
        end
  | None =>
      if a_static a then Some (false, a)
      else
        '(d, u) ← new_chunk a need;
        let a := set_ud u a in
        Some (match d with None => (false, a) | Some d => (true, set_head [] d [] a) end)
  end.

Definition align_up (nbytes : Z) : Z :=
  if nbytes mod ARENA_ALIGN =? 0 then nbytes else u64 (nbytes + (ARENA_ALIGN - nbytes mod ARENA_ALIGN)).

(** [urbi_zero], within the block of the chunk. *)
Definition zero_range (p n : Z) (m : Z -> Z) : Z -> Z := fun k => if (p <=? k) && (k <? p + n) then 0 else m k.
Definition bump (need : Z) (a : UArena) : option (option Z * UArena) :=
  c ← a_head a;
  let p := u64 (chunk_payload c + ck_used c) in
  if (ck_at c + HEADER <=? p) && (p + need <=? ck_at c + ck_size c) then
    Some (Some p, set_mem (zero_range p need (a_mem a)) (set_head (a_before a) (with_used (u64 (ck_used c + need)) c) (a_after a) a))
  else None.

Definition uarena_alloc (nbytes : Z) (a : UArena) : option (option Z * UArena) :=
  if a_oom a then Some (None, a)
  else if SIZE_MAX - (ARENA_ALIGN - 1) <? nbytes then Some (None, set_oom true a)
  else
    let need := align_up nbytes in
    '(room, a) ← find_room need a;
    if room : bool then bump need a else Some (None, set_oom true a).

Definition uarena_reset (a : UArena) : UArena :=
  let all := with_used 0 <$> chain a in
  MkArena [] (head all) (tail all) (a_chunk_size a) false (a_static a) (a_ud a) (a_mem a).

Definition uarena_destroy (a : UArena) : UArena :=
  MkArena [] None [] (a_chunk_size a) (a_oom a) (a_static a) (if a_static a then a_ud a else fold_left (fun u c => free_fn (ck_at c) u) (chain a) (a_ud a)) (a_mem a).

(** A list of requests, in order. *)
Fixpoint allocs (ns : list Z) (a : UArena) : option (list (option Z) * UArena) :=
  match ns with
  | [] => Some ([], a)
  | n :: ns => '(p, a) ← uarena_alloc n a; '(ps, a) ← allocs ns a; Some (p :: ps, a)
  end.

(** ** Well-formed arenas *)

Record wf_chunk (c : UArenaChunk) : Prop := {
  wc_at : 0 < ck_at c;
  wc_end : ck_at c + ck_size c < 2 ^ 64;
  wc_size : ck_size c <= PTRDIFF_MAX;
  wc_payload : ck_at c + HEADER <= chunk_payload c;
  wc_align : chunk_payload c mod ARENA_ALIGN = 0;
  wc_capacity : chunk_payload c + ck_capacity c = ck_at c + ck_size c;
  wc_used : 0 <= ck_used c <= ck_capacity c;
  wc_aligned : ck_used c mod ARENA_ALIGN = 0 }.

Definition block_of (c : UArenaChunk) : Z * Z := (ck_at c, ck_size c).
(** The part of a chunk that has been handed out. *)
Definition region (c : UArenaChunk) : Z * Z := (chunk_payload c, ck_used c).

Fixpoint separate (l : list (Z * Z)) : Prop := match l with [] => True | b :: l => Forall (apart b) l /\ separate l end.

(** [others]: the blocks in use that are not this arena's. *)
Record wf (others : list (Z * Z)) (a : UArena) : Prop := {
  wa_chunks : Forall wf_chunk (chain a);
  wa_after : Forall (fun c => ck_used c = 0) (a_after a);
  wa_head : a_head a = None -> a_before a = [] /\ a_after a = [];
  wa_size : a_chunk_size a <= PTRDIFF_MAX;
  wa_apart : separate (block_of <$> chain a);
  wa_distinct : NoDup (blocks (a_ud a)).*1;
  wa_own : a_static a = false -> blocks (a_ud a) ≡ₚ (block_of <$> chain a) ++ others }.

Lemma apart_sym a b : apart a b -> apart b a.
Proof. unfold apart. lia. Qed.

#[global] Instance separate_perm : Proper ((≡ₚ) ==> iff) separate.
Proof.
  intros l l' Hp. induction Hp as [|b l l' Hp IH|b c l|l1 l2 l3 _ IH1 _ IH2]; cbn [separate]; try tauto.
  - by rewrite IH, Hp.
  - rewrite !Forall_cons. split; intros ((Hbc & Hb) & Hc & Hs); split_and!; auto using apart_sym.
Qed.

(** The payload starts at the first multiple of 16 past the header. *)
Lemma payload_spec p raw : 0 < p -> HEADER + ARENA_ALIGN <= raw -> p + raw < 2 ^ 64 ->
  let c := MkChunk p raw 0 0 in p + HEADER <= chunk_payload c < p + HEADER + ARENA_ALIGN /\ chunk_payload c mod ARENA_ALIGN = 0.
Proof.
  intros Hp Hr He. unfold chunk_payload, HEADER, ARENA_ALIGN, u64 in *. cbn [ck_at]. rewrite (Z.mod_small (p + 24)) by lia. cbv zeta.
  pose proof (Z.mod_pos_bound (p + 24) 16).
  destruct (_ =? 0) eqn:Em; zbool; [lia|]. rewrite Z.mod_small by lia. split; [lia|].
  pose proof (Z.div_mod (p + 24) 16).
  replace (p + 24 + (16 - (p + 24) mod 16)) with ((1 + (p + 24) / 16) * 16) by lia. apply Z.mod_mul. lia.
Qed.

Lemma carved_wf p raw : 0 < p -> HEADER + ARENA_ALIGN <= raw -> p + raw < 2 ^ 64 -> raw <= PTRDIFF_MAX ->
  let off := u64 (chunk_payload (MkChunk p raw 0 0) - p) in
  u64 (raw - off) = raw - off /\ raw - off >= raw - HEADER - ARENA_ALIGN /\ wf_chunk (MkChunk p raw (u64 (raw - off)) 0).
Proof.
  intros Hp Hr He Hm off. destruct (payload_spec p raw Hp Hr He) as [Hb Ha]. unfold HEADER, ARENA_ALIGN, PTRDIFF_MAX in *.
  assert (Hoff : off = chunk_payload (MkChunk p raw 0 0) - p) by (subst off; unfold u64; rewrite Z.mod_small; lia).
  assert (Hc : u64 (raw - off) = raw - off) by (unfold u64; rewrite Z.mod_small; lia). rewrite Hc. split; [done|]. split; [lia|].
  split; unfold HEADER, PTRDIFF_MAX; cbn [ck_at ck_size ck_capacity ck_used]; change (chunk_payload (MkChunk p raw (raw - off) 0)) with (chunk_payload (MkChunk p raw 0 0)); try lia; done.
Qed.

Lemma align_up_spec n : 0 <= n <= PTRDIFF_MAX -> n <= align_up n < n + ARENA_ALIGN /\ align_up n mod ARENA_ALIGN = 0 /\ align_up n <= 2 ^ 63.
Proof.
  intros Hn. unfold align_up, ARENA_ALIGN, PTRDIFF_MAX, u64 in *. pose proof (Z.mod_pos_bound n 16). destruct (_ =? 0) eqn:Em; zbool; [lia|]. rewrite Z.mod_small by lia.
  pose proof (Z.div_mod n 16).
  replace (n + (16 - n mod 16)) with ((1 + n / 16) * 16) by lia. split; [lia|]. split; [apply Z.mod_mul; lia|]. lia.
Qed.

Lemma fits_spec need c : wf_chunk c -> 0 <= need <= 2 ^ 63 -> fits need c = (ck_used c + need <=? ck_capacity c).
Proof.
  intros [] Hn. unfold fits, u64, HEADER, PTRDIFF_MAX in *. rewrite Z.mod_small; [done|lia].
Qed.

(** ** Finding room *)

Lemma scan_fit_spec need l : match scan_fit need l with
  | Some (pre, d, post) => l = pre ++ d :: post /\ fits need d = true /\ Forall (fun c => fits need c = false) pre
  | None => Forall (fun c => fits need c = false) l end.
Proof.
  induction l as [|c l IH]; cbn [scan_fit]; [done|]. destruct (fits need c) eqn:Ef; [by split_and!|].
  destruct (scan_fit need l) as [[[pre d] post]|]; cbn [mbind option_bind]; [|by constructor].
  destruct IH as (-> & Hd & Hp). split_and!; [done|done|by constructor].
Qed.

Section Safe.
Context `{!BackingOk U}.

Lemma new_chunk_ok need a : 0 <= need <= 2 ^ 63 -> a_chunk_size a <= PTRDIFF_MAX ->
  exists d u, new_chunk a need = Some (d, u) /\
    match d with
    | None => blocks u = blocks (a_ud a)
    | Some d => wf_chunk d /\ ck_used d = 0 /\ need <= ck_capacity d /\ blocks u = block_of d :: blocks (a_ud a) /\ Forall (apart (block_of d)) (blocks (a_ud a)) /\ ck_at d ∉ (blocks (a_ud a)).*1
    end.
Proof.
  intros Hn Hs. unfold new_chunk. set (want := if a_chunk_size a <? need then need else a_chunk_size a).
  assert (Hw : need <= want <= 2 ^ 63) by (unfold want, PTRDIFF_MAX in *; destruct (_ <? _) eqn:E'; zbool; lia).
  set (raw := HEADER + ARENA_ALIGN + want). assert (Hraw : u64 raw = raw) by (unfold u64, raw, HEADER, ARENA_ALIGN; rewrite Z.mod_small; lia).
  rewrite Hraw. destruct (Z.ltb_spec want raw) as [_|Hbad]; [|unfold raw, HEADER, ARENA_ALIGN in Hbad; lia]. cbn [negb].
  destruct (alloc_fn raw (a_ud a)) as [[p|] u] eqn:Ea; [|exists None, u; split; [done|]; by apply alloc_none in Ea].
  destruct (alloc_some _ _ _ _ Ea) as (Hp & He & Hm & Hb & Hap & Hnin).
  destruct (carved_wf p raw Hp ltac:(unfold raw; lia) He Hm) as (Hc & Hge & Hwf). cbv zeta in *. rewrite Hc in *.
  destruct (Z.leb_spec need (raw - u64 (chunk_payload (MkChunk p raw 0 0) - p))) as [Hle|Hlt]; [|unfold raw in *; lia]. cbn [negb].
  eexists (Some _), u. split; [done|]. by split_and!.
Qed.

Lemma chain_set_head pre c post a : chain (set_head pre c post a) = pre ++ c :: post.
Proof. done. Qed.

Lemma chain_eq a c : a_head a = Some c -> chain a = a_before a ++ c :: a_after a.
Proof. unfold chain. by intros ->. Qed.

(** Moving the head along the same chunks. *)
Lemma rehead_wf others a pre d post : wf others a -> chain a = pre ++ d :: post -> Forall (fun c => ck_used c = 0) post -> wf others (set_head pre d post a).
Proof.
  intros [H1 H2 H3 H4 H5 H7 H6] Hc Hp. split; rewrite ?chain_set_head, <- ?Hc; try done.
Qed.

(** Linking a new chunk at the head. *)
Lemma link_wf others a pre d post u : wf others a -> chain a = pre ++ post -> Forall (fun c => ck_used c = 0) post -> a_static a = false ->
  wf_chunk d -> blocks u = block_of d :: blocks (a_ud a) -> Forall (apart (block_of d)) (blocks (a_ud a)) -> ck_at d ∉ (blocks (a_ud a)).*1 -> wf others (set_head pre d post (set_ud u a)).
Proof.
  intros [H1 H2 H3 H4 H5 H7 H6] Hc Hp Hst Hd Hb Hap Hnin. rewrite Hc in *.
  assert (Hperm : block_of <$> (pre ++ d :: post) ≡ₚ block_of d :: (block_of <$> (pre ++ post))) by (rewrite <- Permutation_middle; done).
  specialize (H6 Hst). rewrite H6 in Hap. apply Forall_app in Hap as [Hap _]. split; rewrite ?chain_set_head; try done.
  - rewrite <- Permutation_middle. by constructor.
  - rewrite Hperm. by split.
  - cbn [set_head set_ud a_ud]. rewrite Hb. by constructor.
  - intros _. cbn [set_head set_ud a_ud]. rewrite Hb, H6, Hperm. done.
Qed.

Lemma refused_wf others a u : wf others a -> blocks u = blocks (a_ud a) -> wf others (set_ud u a).
Proof. intros [H1 H2 H3 H4 H5 H7 H6] Hu. split; try done; cbn [set_ud a_ud]; rewrite Hu; done. Qed.

Lemma find_room_ok others need a : wf others a -> 0 <= need <= 2 ^ 63 ->
  exists b a', find_room need a = Some (b, a') /\ wf others a' /\ a_mem a' = a_mem a /\ (forall c, c ∈ chain a -> c ∈ chain a') /\
    (b = true -> exists c, a_head a' = Some c /\ ck_used c + need <= ck_capacity c).
Proof.
  intros Hw Hn. pose proof Hw as [H1 H2 H3 H4 H5 H7 H6]. unfold find_room. destruct (a_head a) as [c|] eqn:Eh.
  - pose proof (chain_eq a c Eh) as Hc. rewrite Hc in H1. apply Forall_app in H1 as [H1 [Hwc H1a]%Forall_cons].
    destruct (fits need c) eqn:Ef.
    { exists true, a. split_and!; try done. intros _. exists c. rewrite (fits_spec _ _ Hwc Hn) in Ef. zbool. by split. }
    pose proof (scan_fit_spec need (a_after a)) as Hs. destruct (scan_fit need (a_after a)) as [[[pre d] post]|].
    + destruct Hs as (Ha & Hd & _). rewrite Ha in H1a, H2. apply Forall_app in H1a as [_ [Hwd _]%Forall_cons]. apply Forall_app in H2 as [_ [_ H2]%Forall_cons].
      assert (Hc' : chain a = (a_before a ++ c :: pre) ++ d :: post) by (rewrite Hc, Ha; by rewrite <- (assoc_L (++))).
      eexists true, _. split; [done|]. split; [by apply rehead_wf|]. split; [done|]. split; [intros x; by rewrite chain_set_head, Hc'|].
      intros _. exists d. split; [done|]. rewrite (fits_spec _ _ Hwd Hn) in Hd. by zbool.
    + destruct (a_static a) eqn:Est; [by exists false, a|]. destruct (new_chunk_ok need a Hn H4) as (d & u & -> & Hd). cbn [mbind option_bind].
      assert (Hc' : chain a = (a_before a ++ [c]) ++ a_after a) by (rewrite Hc; by rewrite <- (assoc_L (++))).
      destruct d as [d|].
      * destruct Hd as (Hwd & Hu & Hcap & Hb & Hap & Hnin). eexists true, _. split; [done|]. split; [by apply link_wf|]. split; [done|].
        split; [intros x; rewrite chain_set_head, Hc'; set_solver|]. intros _. exists d. split; [done|]. lia.
      * eexists false, _. split; [done|]. split; [by apply refused_wf|by split_and!].
  - destruct (H3 eq_refl) as [Hb Ha]. assert (Hc : chain a = []) by (unfold chain; by rewrite Eh, Hb, Ha).
    destruct (a_static a) eqn:Est; [by exists false, a|]. destruct (new_chunk_ok need a Hn H4) as (d & u & -> & Hd). cbn [mbind option_bind]. destruct d as [d|].
    + destruct Hd as (Hwd & Hu & Hcap & Hbl & Hap & Hnin). eexists true, _. split; [done|]. split; [by apply link_wf|]. split; [done|].
      split; [rewrite Hc; by intros x ?%elem_of_nil|]. intros _. exists d. split; [done|]. lia.
    + eexists false, _. split; [done|]. split; [by apply refused_wf|by split_and!].
Qed.

(** [r] lies within what one of the arena's chunks has handed out. *)
Definition given (a : UArena) (r : Z * Z) : Prop := exists c, c ∈ chain a /\ chunk_payload c <= r.1 /\ r.1 + r.2 <= chunk_payload c + ck_used c.

Lemma given_mono a a' r : (forall c, c ∈ chain a -> c ∈ chain a') -> given a r -> given a' r.
Proof. intros Hi (c & Hc & Hr). exists c. split; [by apply Hi|done]. Qed.

Lemma separate_apart l l1 x l2 y l3 : separate l -> l = l1 ++ x :: l2 ++ y :: l3 -> apart x y.
Proof.
  intros Hs ->. induction l1 as [|z l1 IH]; [|apply IH, Hs]. destruct Hs as [Hf _]. rewrite Forall_app, Forall_cons in Hf. tauto.
Qed.

(** Two chunks of the chain share no byte, unless they are the same one. *)
Lemma chunks_apart others a pre c post d : wf others a -> chain a = pre ++ c :: post -> d ∈ pre ++ post -> apart (block_of c) (block_of d).
Proof.
  intros [_ _ _ _ Ha _ _] Hc Hd. rewrite Hc in Ha. rewrite <- Permutation_middle in Ha. destruct Ha as [Hf _].
  rewrite Forall_fmap, Forall_forall in Hf. by apply Hf.
Qed.

(** The tail of the head chunk is nobody else's. *)
Lemma room_is_free others a c n r : wf others a -> a_head a = Some c -> 0 <= n -> ck_used c + n <= ck_capacity c -> 0 <= r.2 -> given a r -> apart (chunk_payload c + ck_used c, n) r.
Proof.
  intros Hw Hh Hn Hfit Hr (d & Hd & Hlo & Hhi). pose proof (chain_eq a c Hh) as Hc. pose proof (wa_chunks _ _ Hw) as Hf. rewrite Forall_forall in Hf.
  assert (Hwc : wf_chunk c) by (apply Hf; rewrite Hc; set_solver). pose proof (Hf d Hd) as Hwd.
  assert (Hcase : d = c \/ d ∈ a_before a ++ a_after a) by (rewrite Hc in Hd; set_solver). unfold apart. cbn [fst snd]. destruct Hcase as [-> |Hin]; [lia|].
  pose proof (chunks_apart others a _ c _ d Hw Hc Hin) as Hap. unfold apart, block_of in Hap. cbn [fst snd] in Hap. destruct Hwc, Hwd. unfold HEADER in *. lia.
Qed.

(** What one successful request is worth. *)
Record served (n p : Z) (a a' : UArena) : Prop := {
  sv_aligned : p mod ARENA_ALIGN = 0;
  sv_positive : 0 < p;
  sv_given : given a' (p, n);
  sv_fresh : forall r, 0 <= r.2 -> given a r -> apart (p, n) r;
  sv_zero : forall k, p <= k < p + n -> a_mem a' k = 0;
  sv_frame : forall k r, 0 <= r.2 -> given a r -> r.1 <= k < r.1 + r.2 -> a_mem a' k = a_mem a k }.

Lemma bump_ok others c n a : wf others a -> a_head a = Some c -> 0 <= n <= PTRDIFF_MAX -> ck_used c + align_up n <= ck_capacity c ->
  exists p a', bump (align_up n) a = Some (Some p, a') /\ wf others a' /\ served n p a a' /\ forall r, given a r -> given a' r.
Proof.
  intros Hw Hh Hn Hfit. destruct (align_up_spec n Hn) as (Hr1 & Hr2 & Hr3). pose proof (chain_eq a c Hh) as Hc. pose proof (wa_chunks _ _ Hw) as Hf.
  assert (Hwc : wf_chunk c) by (rewrite Hc in Hf; by apply Forall_app in Hf as [_ [? _]%Forall_cons]). pose proof Hwc as [C1 C2 C3 C4 C5 C6 C7 C8].
  unfold bump. rewrite Hh. cbn [mbind option_bind]. unfold HEADER in *.
  set (p := chunk_payload c + ck_used c). assert (Hp : u64 p = p) by (unfold u64, p; rewrite Z.mod_small; lia). rewrite Hp.
  assert (Hu : u64 (ck_used c + align_up n) = ck_used c + align_up n) by (unfold u64, PTRDIFF_MAX in *; rewrite Z.mod_small; lia). rewrite Hu.
  assert (Hin : (ck_at c + 24 <=? p) && (p + align_up n <=? ck_at c + ck_size c) = true) by (unfold p; apply andb_true_iff; split; apply Z.leb_le; lia).
  rewrite Hin. set (c' := with_used (ck_used c + align_up n) c). eexists p, _. split; [done|].
  assert (Hc' : chain (set_mem (zero_range p (align_up n) (a_mem a)) (set_head (a_before a) c' (a_after a) a)) = a_before a ++ c' :: a_after a) by done.
  assert (Hkeep : forall r, given a r -> given (set_mem (zero_range p (align_up n) (a_mem a)) (set_head (a_before a) c' (a_after a) a)) r).
  { intros r (d & Hd & Hlo & Hhi). rewrite Hc in Hd. destruct (decide (d = c)) as [-> |Hne].
    - exists c'. rewrite Hc'. split; [set_solver|]. unfold c'. cbn. change (chunk_payload (with_used _ c)) with (chunk_payload c). lia.
    - exists d. rewrite Hc'. split; [set_solver|done]. }
  split; [|split; [|done]].
  - destruct Hw as [W1 W2 W3 W4 W5 W7 W6]. rewrite Hc in *. apply Forall_app in W1 as [W1 [_ W1']%Forall_cons].
    assert (Hblk : block_of <$> (a_before a ++ c' :: a_after a) = block_of <$> (a_before a ++ c :: a_after a)) by (by rewrite !fmap_app, !fmap_cons).
    split; rewrite ?Hc', ?Hblk; try done. apply Forall_app. split; [done|]. constructor; [|done].
    split; unfold c'; cbn [with_used ck_at ck_size ck_capacity ck_used]; change (chunk_payload (MkChunk _ _ _ _)) with (chunk_payload c); unfold HEADER; try lia; try done.
    rewrite Z.add_mod, C8, Hr2 by done. done.
  - split.
    + unfold p. rewrite Z.add_mod, C5, C8 by done. done.
    + unfold p. lia.
    + exists c'. rewrite Hc'. split; [set_solver|]. unfold c', p. cbn. change (chunk_payload (with_used _ c)) with (chunk_payload c). lia.
    + intros r Hr Hg. apply (room_is_free others a c n r Hw Hh); [lia|lia|done|done].
    + intros k Hk. cbn [set_mem a_mem]. unfold zero_range. replace ((p <=? k) && (k <? p + align_up n)) with true by (symmetry; apply andb_true_iff; split; [apply Z.leb_le|apply Z.ltb_lt]; lia). done.
    + intros k r Hr Hg Hk. cbn [set_mem a_mem]. unfold zero_range.
      pose proof (room_is_free others a c (align_up n) r Hw Hh ltac:(lia) Hfit Hr Hg) as Hap. unfold apart in Hap. cbn [fst snd] in Hap. fold p in Hap.
      destruct ((p <=? k) && (k <? p + align_up n)) eqn:Ez; [|done]. apply andb_true_iff in Ez as [?%Z.leb_le ?%Z.ltb_lt]. unfold p in *. lia.
Qed.

Lemma alloc_ok others n a : wf others a -> 0 <= n <= PTRDIFF_MAX ->
  exists r a', uarena_alloc n a = Some (r, a') /\ wf others a' /\ (forall q, given a q -> given a' q) /\
    (forall k q, 0 <= q.2 -> given a q -> q.1 <= k < q.1 + q.2 -> a_mem a' k = a_mem a k) /\
    match r with Some p => served n p a a' | None => a_oom a' = true end.
Proof.
  intros Hw Hn. destruct (align_up_spec n Hn) as (Hr1 & Hr2 & Hr3). unfold uarena_alloc. destruct (a_oom a) eqn:Eo; [by exists None, a|].
  destruct (Z.ltb_spec (SIZE_MAX - (ARENA_ALIGN - 1)) n) as [Hlt|_]; [unfold SIZE_MAX, PTRDIFF_MAX, ARENA_ALIGN in *; lia|]. cbv zeta.
  destruct (find_room_ok others (align_up n) a Hw ltac:(lia)) as (b & a1 & -> & Hw1 & Hm1 & Hin & Hroom). cbn [mbind option_bind].
  pose proof (fun q => given_mono a a1 q Hin) as Hgiven. destruct b.
  - destruct (Hroom eq_refl) as (c & Hh & Hfit). destruct (bump_ok others c n a1 Hw1 Hh Hn Hfit) as (p & a2 & -> & Hw2 & [S1 S2 S3 S4 S5 S6] & Hg2).
    assert (Hframe : forall k q, 0 <= q.2 -> given a q -> q.1 <= k < q.1 + q.2 -> a_mem a2 k = a_mem a k).
    { intros k q Hq Hg Hk. rewrite <- Hm1. eapply S6; [exact Hq|by apply Hgiven|done]. }
    exists (Some p), a2. split_and!; try done; [intros q Hg; by apply Hg2, Hgiven|]. split; try done. intros q Hq Hg. by apply S4, Hgiven.
  - eexists None, _. split; [done|]. split_and!; try done.
    + destruct Hw1. by split.
    + intros k q _ _ _. cbn [set_oom a_mem]. by rewrite Hm1.
Qed.

Lemma oom_refuses ns a : a_oom a = true -> allocs ns a = Some (replicate (length ns) None, a).
Proof. intros Ho. induction ns as [|n ns IH]; [done|]. cbn [allocs]. unfold uarena_alloc. rewrite Ho. cbn [mbind option_bind]. by rewrite IH. Qed.

Lemma allocs_ok others ns : forall a, wf others a -> Forall (fun n => 0 <= n <= PTRDIFF_MAX) ns ->
  exists ps a', allocs ns a = Some (ps, a') /\ wf others a' /\ (forall q, given a q -> given a' q) /\
    (forall k q, 0 <= q.2 -> given a q -> q.1 <= k < q.1 + q.2 -> a_mem a' k = a_mem a k) /\
    (exists qs, ps = (Some <$> qs) ++ replicate (length ns - length qs) None /\ (length qs <= length ns)%nat) /\
    (forall i n p, ns !! i = Some n -> ps !! i = Some (Some p) ->
      p mod ARENA_ALIGN = 0 /\ 0 < p /\ (forall k, p <= k < p + n -> a_mem a' k = 0) /\ forall r, 0 <= r.2 -> given a r -> apart (p, n) r) /\
    (forall i j n p m q, (i < j)%nat -> ns !! i = Some n -> ps !! i = Some (Some p) -> ns !! j = Some m -> ps !! j = Some (Some q) -> apart (q, m) (p, n)).
Proof.
  induction ns as [|n ns IH]; intros a Hw Hns; cbn [allocs].
  { exists [], a. split_and!; try done. exists []. by split. }
  apply Forall_cons in Hns as [Hn Hns]. destruct (alloc_ok others n a Hw Hn) as (r & a1 & -> & Hw1 & Hg1 & Hf1 & Hr). cbn [mbind option_bind].
  destruct r as [p|].
  - destruct (IH a1 Hw1 Hns) as (ps & a2 & -> & Hw2 & Hg2 & Hf2 & (qs & Hqs & Hl) & Hall & Hpair). destruct Hr as [S1 S2 S3 S4 S5 S6].
    exists (Some p :: ps), a2. split; [done|]. split; [done|]. split; [auto|]. split.
    { intros k q Hq Hg Hk. rewrite <- (Hf1 k q Hq Hg Hk). eapply Hf2; eauto. }
    split; [exists (p :: qs); rewrite Hqs; split; [done|cbn; lia]|]. split.
    + intros [|i] m q Hm Hq; cbn in Hm, Hq.
      * injection Hm as ->. injection Hq as ->. split_and!; try done. intros k Hk. rewrite <- (S5 k Hk). apply (Hf2 k (q, m)); [cbn; lia|done|done].
      * destruct (Hall i m q Hm Hq) as (? & ? & ? & Ha). split_and!; try done. intros r Hr Hg. apply Ha; auto.
    + intros [|i] [|j] n' p' m q Hij Hn' Hp' Hm Hq; try lia; cbn in Hn', Hp', Hm, Hq; [|by eapply (Hpair i j); eauto; lia].
      injection Hn' as ->. injection Hp' as ->. destruct (Hall j m q Hm Hq) as (_ & _ & _ & Ha). apply Ha; [cbn; lia|done].
  - rewrite oom_refuses by done. cbn [mbind option_bind]. exists (None :: replicate (length ns) None), a1.
    split_and!; try done.
    + exists []. split; [done|cbn; lia].
    + intros [|i] m q _ Hq; [done|]. cbn in Hq. by apply lookup_replicate in Hq as [? _].
    + intros [|i] [|j] n' p' m q _ _ Hp'; try done; cbn in Hp'; by apply lookup_replicate in Hp' as [? _].
Qed.

(** ** Initializing, resetting, destroying *)

Lemma init_wf chunk_size u m : chunk_size <= PTRDIFF_MAX -> NoDup (blocks u).*1 -> wf (blocks u) (uarena_init_ex chunk_size u m).
Proof.
  intros Hs Hnd. unfold uarena_init_ex, init_common, PTRDIFF_MAX, ARENA_DEFAULT_CHUNK_SIZE in *. split; cbn -[Z.le]; try done. unfold PTRDIFF_MAX. destruct (chunk_size =? 0); lia.
Qed.

Lemma init_static_ok buf bufsz u m : 0 < buf -> buf mod ARENA_ALIGN = 0 -> bufsz <= PTRDIFF_MAX -> buf + bufsz < 2 ^ 64 -> NoDup (blocks u).*1 ->
  exists a, uarena_init_static buf bufsz u m = Some a /\ wf [] a /\ a_static a = true /\ forall c, c ∈ chain a -> block_of c = (buf, bufsz).
Proof.
  intros Hb Hal Hm He Hnd. unfold uarena_init_static. assert (Hland : Z.land buf (ARENA_ALIGN - 1) = 0) by (change (ARENA_ALIGN - 1) with (Z.ones 4); by rewrite Z.land_ones).
  rewrite Hland. cbn [negb Z.eqb]. destruct (Z.leb_spec (HEADER + ARENA_ALIGN) bufsz) as [Hle|Hlt].
  - destruct (carved_wf buf bufsz Hb Hle He Hm) as (_ & _ & Hwf). eexists. split; [done|]. split; [|split; [done|by intros c ->%list_elem_of_singleton]].
    split; cbn; try done. by constructor.
  - eexists. split; [done|]. split; [by split|]. split; [done|by intros c ?%elem_of_nil].
Qed.

Lemma rewound_wf c : wf_chunk c -> wf_chunk (with_used 0 c).
Proof. intros []. split; cbn in *; try done. lia. Qed.

Lemma head_tail {A} (l : list A) : option_list (head l) ++ tail l = l.
Proof. by destruct l. Qed.

Lemma reset_chain a : chain (uarena_reset a) = with_used 0 <$> chain a.
Proof. unfold chain at 1. cbn [uarena_reset a_before a_head a_after]. apply head_tail. Qed.

Lemma reset_wf others a : wf others a -> wf others (uarena_reset a) /\ forall r, 0 < r.2 -> ~ given (uarena_reset a) r.
Proof.
  intros [H1 H2 H3 H4 H5 H7 H6]. split.
  - assert (Hb : block_of <$> chain (uarena_reset a) = block_of <$> chain a) by (by rewrite reset_chain, <- list_fmap_compose).
    split; rewrite ?Hb; try done.
    + rewrite reset_chain. apply Forall_fmap. eapply Forall_impl; [exact H1|]. apply rewound_wf.
    + apply Forall_forall. intros c Hc. assert (Hin : c ∈ chain (uarena_reset a)) by (unfold chain; set_solver).
      rewrite reset_chain in Hin. by apply list_elem_of_fmap in Hin as (d & -> & _).
    + cbn [uarena_reset a_head a_before a_after]. intros Hh. split; [done|]. by destruct (with_used 0 <$> chain a).
  - intros r Hr (c & Hc & Hlo & Hhi). rewrite reset_chain in Hc. apply list_elem_of_fmap in Hc as (d & -> & _). cbn in Hlo, Hhi. lia.
Qed.

Lemma free_chain l : forall u others, NoDup (blocks u).*1 -> blocks u ≡ₚ (block_of <$> l) ++ others -> blocks (fold_left (fun u c => free_fn (ck_at c) u) l u) ≡ₚ others.
Proof.
  induction l as [|c l IH]; intros u others Hn Hb; cbn [fold_left]; [done|]. cbn [fmap list_fmap app] in Hb.
  assert (Hn' : NoDup (ck_at c :: ((block_of <$> l) ++ others).*1)) by (by rewrite Hb in Hn).
  apply NoDup_cons in Hn' as [Hin Hn']. pose proof (free_block _ (ck_size c) _ _ Hin Hb) as Hf. apply IH; [by rewrite Hf|done].
Qed.

Lemma destroy_returns others a : wf others a -> a_static a = false -> blocks (a_ud (uarena_destroy a)) ≡ₚ others.
Proof. intros [_ _ _ _ _ H7 H6] Hs. unfold uarena_destroy. cbn [a_ud]. rewrite Hs. apply free_chain; [done|]. by apply H6. Qed.
End Safe.

(** ** Running the same requests again *)

(** Where a request is served, by the chunk it is served from. *)
Lemma bump_shape need a r a' : bump need a = Some (r, a') -> exists c c' p, a_head a = Some c /\ r = Some p /\ with_used 0 c' = with_used 0 c /\
  chain a' = a_before a ++ c' :: a_after a /\ a_before a' = a_before a /\ a_head a' = Some c' /\ a_after a' = a_after a /\
  forall b, a_head b = Some c -> bump need b = Some (Some p, set_mem (zero_range p need (a_mem b)) (set_head (a_before b) c' (a_after b) b)).
Proof.
  unfold bump. destruct (a_head a) as [c|]; [|done]. cbn [mbind option_bind]. destruct (_ && _) eqn:Eb; [|done]. intros [= <- <-].
  exists c, (with_used (u64 (ck_used c + need)) c), (u64 (chunk_payload c + ck_used c)). split_and!; try done.
  intros b ->. cbn [mbind option_bind]. by rewrite Eb.
Qed.

Definition unused (c : UArenaChunk) : Prop := ck_used c = 0.

Lemma unused_same c : unused c -> with_used 0 c = c.
Proof. destruct c. unfold unused, with_used. cbn. by intros ->. Qed.

Lemma new_chunk_fits need a d u : 0 <= need -> new_chunk a need = Some (Some d, u) -> unused d /\ fits need d = true.
Proof.
  intros Hn. unfold new_chunk. destruct (negb (_ <? _)); [done|]. destruct (alloc_fn _ _) as [[p|] u']; [|done]. destruct (negb (_ <=? _)) eqn:Ec; [done|].
  intros [= <- <-]. split; [done|]. zbool. unfold fits, u64 at 1. cbn [ck_used ck_capacity]. apply Z.leb_le. pose proof (Z.mod_le need (2 ^ 64)). rewrite Z.add_0_l. lia.
Qed.

Lemma scan_finds need pre d post : Forall (fun c => fits need c = false) pre -> fits need d = true -> scan_fit need (pre ++ d :: post) = Some (pre, d, post).
Proof. induction 1 as [|c pre Hc _ IH]; intros Hd; cbn; [by rewrite Hd|]. rewrite Hc, IH by done. done. Qed.

Lemma align_up_nonneg n : 0 <= n -> 0 <= align_up n.
Proof. intros Hn. unfold align_up. destruct (_ =? 0); [done|]. unfold u64. apply Z.mod_pos_bound. lia. Qed.

(** The three ways a request is served when there is a head: in it, further
    down the chain, or in a chunk new to it. *)
Lemma alloc_cases n a h p a' : 0 <= n -> a_head a = Some h -> uarena_alloc n a = Some (Some p, a') ->
  a_oom a = false /\ (SIZE_MAX - (ARENA_ALIGN - 1) <? n) = false /\
  let need := align_up n in
  (fits need h = true /\ bump need a = Some (Some p, a')) \/
  (fits need h = false /\ exists pre d post u, bump need (set_head (a_before a ++ h :: pre) d post (set_ud u a)) = Some (Some p, a') /\
    Forall (fun c => fits need c = false) pre /\ fits need d = true /\ (a_after a = pre ++ d :: post \/ (pre = [] /\ unused d /\ post = a_after a))).
Proof.
  intros Hn Hh. unfold uarena_alloc. destruct (a_oom a); [done|]. destruct (_ <? n) eqn:Em; [done|]. cbv zeta. unfold find_room. rewrite Hh.
  intros E'. split; [done|]. split; [done|]. destruct (fits (align_up n) h) eqn:Ef; [left; by split|]. right. split; [done|].
  pose proof (scan_fit_spec (align_up n) (a_after a)) as Hs. destruct (scan_fit _ _) as [[[pre d] post]|].
  - destruct Hs as (Ha & Hd & Hp). exists pre, d, post, (a_ud a). split_and!; try done. by left.
  - destruct (a_static a); [done|]. destruct (new_chunk a (align_up n)) as [[[d|] u]|] eqn:En; [|done|done]. cbn [mbind option_bind] in E'.
    apply new_chunk_fits in En as [Hu Hd]; [|by apply align_up_nonneg]. exists [], d, (a_after a), u. split_and!; try done. by right.
Qed.

(** [b] is rewound where [a] is: the same chunks up to the head, [tail] to come. *)
Definition replays (ns : list Z) (ps : list Z) (before : list UArenaChunk) (h : UArenaChunk) (tail : list UArenaChunk) (last : list UArenaChunk) : Prop :=
  forall cs st u m, exists b, allocs ns (MkArena before (Some h) tail cs false st u m) = Some (Some <$> ps, b) /\ a_ud b = u /\ chain b = last.

Lemma replay_serve n ns p ps before h pre d tail last d' cs st u m : let need := align_up n in
  (SIZE_MAX - (ARENA_ALIGN - 1) <? n) = false ->
  (fits need h = true /\ pre = [] /\ d = h \/ fits need h = false /\ exists pre', pre = h :: pre' /\ Forall (fun c => fits need c = false) pre' /\ fits need d = true) ->
  (forall b, a_head b = Some d -> bump need b = Some (Some p, set_mem (zero_range p need (a_mem b)) (set_head (a_before b) d' (a_after b) b))) ->
  replays ns ps (before ++ pre) d' tail last ->
  exists b, allocs (n :: ns) (MkArena before (Some h) (match pre with [] => tail | _ :: pre' => pre' ++ d :: tail end) cs false st u m) = Some (Some <$> (p :: ps), b) /\ a_ud b = u /\ chain b = last.
Proof.
  intros need Hm Hcase Hbump Hrep. cbn [allocs]. unfold uarena_alloc. cbn [a_oom]. rewrite Hm. cbv zeta. unfold find_room. cbn [a_head a_after a_before].
  destruct Hcase as [(Hf & -> & ->)|(Hf & pre' & -> & Hp & Hd)]; fold need; rewrite Hf.
  - cbn [mbind option_bind]. rewrite Hbump by done. cbn [mbind option_bind]. rewrite app_nil_r in Hrep.
    destruct (Hrep cs st u (zero_range p need m)) as (b & Hb & Hu & Hl). exists b. cbn. unfold set_mem, set_head. cbn in *. by rewrite Hb.
  - rewrite scan_finds by done. cbn [mbind option_bind]. rewrite Hbump by done. cbn [mbind option_bind].
    destruct (Hrep cs st u (zero_range p need m)) as (b & Hb & Hu & Hl). exists b. unfold set_mem, set_head. cbn in *. by rewrite Hb.
Qed.

Lemma replay_from ns : forall a h ps a1, Forall (Z.le 0) ns -> a_head a = Some h -> Forall unused (a_after a) -> allocs ns a = Some (Some <$> ps, a1) ->
  exists tail, Forall unused tail /\ with_used 0 <$> chain a1 = with_used 0 <$> (a_before a ++ h :: tail) /\ replays ns ps (a_before a) h tail (chain a1).
Proof.
  induction ns as [|n ns IH]; intros a h ps a1 Hns Hh Hun Hall.
  { cbn in Hall. injection Hall as Hps <-. destruct ps; [|done]. exists (a_after a). split; [done|]. split; [by rewrite (chain_eq a h)|].
    intros cs st u m. eexists. split; [done|]. split; [done|]. by rewrite (chain_eq a h). }
  apply Forall_cons in Hns as [Hn Hns]. cbn [allocs] in Hall. destruct (uarena_alloc n a) as [[r a2]|] eqn:Ea; [|done]. cbn [mbind option_bind] in Hall.
  destruct (allocs ns a2) as [[rs a3]|] eqn:Er; [|done]. cbn [mbind option_bind] in Hall. injection Hall as Hps <-. destruct ps as [|p ps]; [done|]. injection Hps as -> ->.
  destruct (alloc_cases n a h p a2 Hn Hh Ea) as (Hoom & Hm & [(Hf & Hb)|(Hf & pre & d & post & u & Hb & Hp & Hd & Hpost)]).
  - destruct (bump_shape _ _ _ _ Hb) as (c & c' & q & Hc & [= <-] & Hz & _ & Hbef & Hhd & Haft & Hbump). rewrite Hh in Hc. injection Hc as <-.
    destruct (IH a2 c' ps a3 Hns Hhd ltac:(by rewrite Haft) Er) as (tail & Ht & Hch & Hrep). rewrite Hbef in *. exists tail. split; [done|]. split.
    + rewrite Hch, !fmap_app, !fmap_cons. by rewrite Hz.
    + intros cs st u m. apply (replay_serve n ns p ps (a_before a) h [] h tail (chain a3) c'); [done|by left|done|by rewrite app_nil_r].
  - destruct (bump_shape _ _ _ _ Hb) as (c & c' & q & [= <-] & [= <-] & Hz & _ & Hbef & Hhd & Haft & Hbump). cbn in Hbef, Haft.
    assert (Hun' : Forall unused post /\ unused d /\ Forall unused pre).
    { destruct Hpost as [Hpost|(-> & Hd' & ->)]; [|done]. rewrite Hpost in Hun. by apply Forall_app in Hun as [? [? ?]%Forall_cons]. }
    destruct Hun' as (Hu1 & Hu2 & Hu3). destruct (IH a2 c' ps a3 Hns Hhd ltac:(by rewrite Haft) Er) as (tail & Ht & Hch & Hrep). rewrite Hbef in *.
    exists (pre ++ d :: tail). split; [by apply Forall_app; split; [|constructor]|]. split.
    + rewrite Hch, <- (assoc_L (++)), <- app_comm_cons, !fmap_app, !fmap_cons, !fmap_app, !fmap_cons. by rewrite Hz.
    + intros cs st v m. apply (replay_serve n ns p ps (a_before a) h (h :: pre) d tail (chain a3) c'); [done| |done|done]. right. split; [done|]. by exists pre.
Qed.

(** C26 Every request that an arena serves, of any sequence of requests of
    at most PTRDIFF_MAX bytes each, is aligned to 16 bytes, zeroed, and
    apart from everything handed out since the last reset, whatever the
    backing allocator grants; nothing it does touches what it has handed
    out; once a request is refused all later ones are. (A request within 16
    bytes of SIZE_MAX is not guarded: [huge_request_wraps].) *)
Theorem arena_hands_out_apart `{!BackingOk U} others ns a : wf others a -> Forall (fun n => 0 <= n <= PTRDIFF_MAX) ns ->
  exists ps a', allocs ns a = Some (ps, a') /\ wf others a' /\
    (exists qs, ps = (Some <$> qs) ++ replicate (length ns - length qs) None /\ (length qs <= length ns)%nat) /\
    (forall i n p, ns !! i = Some n -> ps !! i = Some (Some p) ->
      p mod ARENA_ALIGN = 0 /\ 0 < p /\ (forall k, p <= k < p + n -> a_mem a' k = 0) /\ forall r, 0 <= r.2 -> given a r -> apart (p, n) r) /\
    (forall i j n p m q, (i < j)%nat -> ns !! i = Some n -> ps !! i = Some (Some p) -> ns !! j = Some m -> ps !! j = Some (Some q) -> apart (q, m) (p, n)) /\
    (forall k r, 0 <= r.2 -> given a r -> r.1 <= k < r.1 + r.2 -> a_mem a' k = a_mem a k).
Proof.
  intros Hw Hns. destruct (allocs_ok others ns a Hw Hns) as (ps & a' & E' & Hw' & _ & Hf & Hq & Hall & Hpair). exists ps, a'. by split_and!.
Qed.

Lemma zeroed_unused l : Forall unused l -> with_used 0 <$> l = l.
Proof. induction 1 as [|c l Hc _ IH]; [done|]. rewrite fmap_cons, IH. by rewrite unused_same. Qed.

Lemma replay_head ns a h ps a1 : Forall (Z.le 0) ns -> a_before a = [] -> a_head a = Some h -> Forall unused (h :: a_after a) ->
  allocs ns a = Some (Some <$> ps, a1) -> exists a2, allocs ns (uarena_reset a1) = Some (Some <$> ps, a2) /\ a_ud a2 = a_ud a1 /\ chain a2 = chain a1.
Proof.
  intros Hns Hb Hh [Hu Hun]%Forall_cons Hall. destruct (replay_from ns a h ps a1 Hns Hh Hun Hall) as (rest & Ht & Hch & Hrep). rewrite Hb in *.
  cbn [app] in Hch. rewrite (zeroed_unused (h :: rest)) in Hch by (by constructor). unfold uarena_reset. rewrite Hch. apply Hrep.
Qed.

(** The first request of an arena with no chunk is served as if its chunk had been there. *)
Lemma first_chunk n a p a2 : 0 <= n -> a_before a = [] -> a_head a = None -> uarena_alloc n a = Some (Some p, a2) ->
  exists d u, unused d /\ uarena_alloc n (set_head [] d [] (set_ud u a)) = Some (Some p, a2).
Proof.
  intros Hn Hb Hh. unfold uarena_alloc. cbn [set_head set_ud a_oom]. destruct (a_oom a); [done|]. destruct (_ <? n); [done|]. cbv zeta. unfold find_room at 1. rewrite Hh.
  destruct (a_static a) eqn:Est; [done|]. destruct (new_chunk a (align_up n)) as [[[d|] u]|] eqn:En; [|done|done]. cbn [mbind option_bind]. intros E'.
  apply new_chunk_fits in En as [Hu Hd]; [|by apply align_up_nonneg]. exists d, u. split; [done|]. unfold find_room. cbn [set_head a_head]. rewrite Hd. done.
Qed.

(** Compiling the same thing again costs no memory: when every one of a
    list of requests was served from a freshly reset arena, the same list after
    the next reset gets the same addresses from the same chunks, and the
    backing allocator is not asked. *)
Theorem arena_replay ns a ps a1 : Forall (Z.le 0) ns -> a_before a = [] -> (a_head a = None -> a_after a = []) -> Forall unused (chain a) ->
  allocs ns a = Some (Some <$> ps, a1) ->
  exists a2, allocs ns (uarena_reset a1) = Some (Some <$> ps, a2) /\ a_ud a2 = a_ud a1 /\ chain a2 = chain a1.
Proof.
  intros Hns Hb Hn Hun Hall. destruct (a_head a) as [h|] eqn:Eh.
  { apply (replay_head ns a h); try done. rewrite (chain_eq a h Eh), Hb in Hun. exact Hun. }
  specialize (Hn eq_refl). destruct ns as [|n ns].
  { injection Hall as Hps <-. destruct ps; [|done]. exists (uarena_reset a). split; [done|]. split; [done|]. unfold chain, uarena_reset. cbn. unfold chain. by rewrite Eh, Hb, Hn. }
  cbn [allocs] in Hall. destruct (uarena_alloc n a) as [[r a2]|] eqn:Ea; [|done]. cbn [mbind option_bind] in Hall.
  destruct (allocs ns a2) as [[rs a3]|] eqn:Er; [|done]. cbn [mbind option_bind] in Hall. injection Hall as Hps <-. destruct ps as [|p ps]; [done|]. injection Hps as -> ->.
  apply Forall_cons in Hns as [Hn0 Hns]. destruct (first_chunk n a p a2 Hn0 Hb Eh Ea) as (d & u & Hd & Ea').
  apply (replay_head (n :: ns) (set_head [] d [] (set_ud u a)) d); try done; [by constructor|by constructor|].
  cbn [allocs]. rewrite Ea'. cbn [mbind option_bind]. rewrite Er. done.
Qed.

(** Statement after statement: a reset, then its requests. *)
Fixpoint statements (rounds : list (list Z)) (a : UArena) : option UArena :=
  match rounds with [] => Some a | ns :: rounds => '(_, a) ← allocs ns (uarena_reset a); statements rounds a end.

Lemma statements_ok `{!BackingOk U} others rounds : forall a, wf others a -> Forall (Forall (fun n => 0 <= n <= PTRDIFF_MAX)) rounds -> exists a', statements rounds a = Some a' /\ wf others a'.
Proof.
  induction rounds as [|ns rounds IH]; intros a Hw Hr; cbn [statements]; [by exists a|]. apply Forall_cons in Hr as [Hns Hr].
  destruct (allocs_ok others ns (uarena_reset a)) as (ps & a1 & -> & Hw1 & _); [by apply reset_wf|done|]. cbn [mbind option_bind]. by apply IH.
Qed.

(** Nothing after initialization makes an arena a static one. *)
Lemma alloc_static n a r a' : uarena_alloc n a = Some (r, a') -> a_static a' = a_static a.
Proof.
  unfold uarena_alloc, find_room, bump. intros E'. repeat (case_match; simplify_option_eq; try done).
Qed.

Lemma allocs_static ns : forall a rs a', allocs ns a = Some (rs, a') -> a_static a' = a_static a.
Proof.
  induction ns as [|n ns IH]; intros a rs a' E'; cbn [allocs] in E'; [by injection E' as _ <-|]. destruct (uarena_alloc n a) as [[r a1]|] eqn:Ea; [|done]. cbn [mbind option_bind] in E'.
  destruct (allocs ns a1) as [[rs1 a2]|] eqn:Er; [|done]. injection E' as _ <-. rewrite (IH _ _ _ Er). by eapply alloc_static.
Qed.

Lemma statements_static rounds : forall a a', statements rounds a = Some a' -> a_static a' = a_static a.
Proof.
  induction rounds as [|ns rounds IH]; intros a a' E'; cbn [statements] in E'; [by injection E' as <-|]. destruct (allocs ns (uarena_reset a)) as [[rs a1]|] eqn:Ea; [|done].
  cbn [mbind option_bind] in E'. rewrite (IH _ _ E'). by rewrite (allocs_static _ _ _ _ Ea).
Qed.

(** What an arena took it gives back: whatever was requested of it, with
    resets in between, the blocks in use after it is destroyed are those in use
    before it was set up. *)
Theorem arena_returns_everything `{!BackingOk U} chunk_size rounds u m : chunk_size <= PTRDIFF_MAX -> NoDup (blocks u).*1 -> Forall (Forall (fun n => 0 <= n <= PTRDIFF_MAX)) rounds ->
  exists a, statements rounds (uarena_init_ex chunk_size u m) = Some a /\ blocks (a_ud (uarena_destroy a)) ≡ₚ blocks u.
Proof.
  intros Hs Hnd Hr. destruct (statements_ok _ rounds _ (init_wf chunk_size u m Hs Hnd) Hr) as (a & E' & Hw). exists a. split; [done|]. apply destroy_returns; [done|].
  by rewrite (statements_static _ _ _ E').
Qed.
End Arena.

(** ** A backing allocator for the instances *)

Definition top (l : list (Z * Z)) : Z := foldr (fun b k => Z.max (Z.max (b.1 + 1) (b.1 + b.2)) k) 16 l.
Fixpoint take_back (p : Z) (l : list (Z * Z)) : list (Z * Z) :=
  match l with [] => [] | b :: l => if decide (b.1 = p) then l else b :: take_back p l end.

#[global] Instance upward : Backing (list (Z * Z)) := {|
  alloc_fn n l := if (n <=? 2 ^ 40) && (top l + n <? 2 ^ 50) then (Some (top l), (top l, n) :: l) else (None, l);
  free_fn := take_back;
  blocks l := l |}.

Lemma top_cons b l : top (b :: l) = Z.max (Z.max (b.1 + 1) (b.1 + b.2)) (top l).
Proof. done. Qed.

Lemma top_above l : 16 <= top l /\ Forall (fun b => b.1 < top l /\ b.1 + b.2 <= top l) l.
Proof.
  induction l as [|b l [IH1 IH2]]; [done|]. rewrite top_cons. split; [lia|]. constructor; [lia|]. eapply Forall_impl; [exact IH2|]. cbn. intros c Hc. lia.
Qed.

#[global] Instance upward_ok : BackingOk (list (Z * Z)).
Proof.
  split; unfold alloc_fn, blocks, free_fn, upward; cbn [fst snd].
  - intros n l p l'. destruct (_ && _) eqn:Ec; [|done]. intros [= <- <-]. zbool. destruct (top_above l) as [H1 H2]. unfold PTRDIFF_MAX. split_and!; try lia; try done.
    + eapply Forall_impl; [exact H2|]. unfold apart. cbn. intros b Hb. lia.
    + intros (b & Hb & Hin)%list_elem_of_fmap. rewrite Forall_forall in H2. specialize (H2 b Hin). lia.
  - intros n l l'. destruct (_ && _); [done|]. by intros [= <-].
  - intros p n u. induction u as [|b u IH]; intros l Hn Hp; [by apply Permutation_nil_cons in Hp|]. cbn [take_back]. destruct (decide (b.1 = p)) as [Hb|Hb].
    + assert (Hin : b ∈ (p, n) :: l) by (rewrite <- Hp; by left). apply elem_of_cons in Hin as [-> |Hin]; [by apply Permutation_cons_inv in Hp|].
      destruct Hn. rewrite <- Hb. apply list_elem_of_fmap. by exists b.
    + assert (Hin : b ∈ (p, n) :: l) by (rewrite <- Hp; by left). apply elem_of_cons in Hin as [-> |Hin]; [done|].
      apply elem_of_Permutation in Hin as [l' Hl]. rewrite Hl. constructor. apply IH.
      * intros Hq. apply Hn. rewrite Hl. by right.
      * rewrite Hl in Hp. rewrite (Permutation_swap b (p, n) l') in Hp. by apply Permutation_cons_inv in Hp.
Qed.

Definition demo_mem : Z -> Z := fun _ => 255.
Definition demo_arena : UArena := uarena_init_ex 64 [(7, 100)] demo_mem.
Definition demo_requests : list Z := [24; 3; 80; 0; 16; 200; 1].

Lemma demo_arena_wf : wf [(7, 100)] demo_arena.
Proof. exact (init_wf 64 [(7, 100)] demo_mem ltac:(done) (NoDup_singleton _)). Qed.

Lemma demo_sizes : (fun r => (r.1, length (chain r.2), length (blocks (a_ud r.2)))) <$> allocs demo_requests demo_arena =
  Some ([Some 144; Some 176; Some 240; Some 320; Some 368; Some 464; Some 720], 5%nat, 6%nat).
Proof. vm_compute. reflexivity. Qed.

Lemma arena_hands_out_apart_witness : exists ps a', allocs demo_requests demo_arena = Some (ps, a') /\ length (chain a') = 5%nat /\
  (forall i j n p m q, (i < j)%nat -> demo_requests !! i = Some n -> ps !! i = Some (Some p) -> demo_requests !! j = Some m -> ps !! j = Some (Some q) -> apart (q, m) (p, n)).
Proof.
  destruct (arena_hands_out_apart [(7, 100)] demo_requests demo_arena demo_arena_wf) as (ps & a' & E' & _ & _ & _ & Hp & _).
  - unfold demo_requests, PTRDIFF_MAX. repeat constructor; discriminate.
  - exists ps, a'. split; [exact E'|]. split; [|exact Hp]. pose proof demo_sizes as Hd. rewrite E' in Hd. by injection Hd as _ Hd _.
Defined.

Lemma arena_replay_witness : exists ps a1 a2, allocs demo_requests demo_arena = Some (Some <$> ps, a1) /\ length (blocks (a_ud a1)) = 6%nat /\
  allocs demo_requests (uarena_reset a1) = Some (Some <$> ps, a2) /\ a_ud a2 = a_ud a1.
Proof.
  destruct (arena_hands_out_apart [(7, 100)] demo_requests demo_arena demo_arena_wf) as (ps & a1 & E' & _).
  { unfold demo_requests, PTRDIFF_MAX. repeat constructor; discriminate. }
  pose proof demo_sizes as Hd. rewrite E' in Hd. cbn [fmap option_fmap option_map] in Hd. injection Hd as Hps _ Hb.
  assert (Hid : ps = Some <$> omap id ps) by (by rewrite Hps). rewrite Hid in E'.
  destruct (arena_replay demo_requests demo_arena (omap id ps) a1) as (a2 & E2 & Hu & _); [unfold demo_requests; repeat constructor; discriminate|done|done|by constructor|exact E'|].
  exists (omap id ps), a1, a2. split; [exact E'|]. by split_and!.
Defined.

Lemma arena_returns_everything_witness : exists a, statements [demo_requests; [5000]; demo_requests] demo_arena = Some a /\ blocks (a_ud (uarena_destroy a)) ≡ₚ [(7, 100)].
Proof.
  assert (Hr : Forall (Forall (fun n => 0 <= n <= PTRDIFF_MAX)) [demo_requests; [5000]; demo_requests]) by (unfold demo_requests, PTRDIFF_MAX; repeat constructor; discriminate).
  exact (arena_returns_everything 64 [demo_requests; [5000]; demo_requests] [(7, 100)] demo_mem ltac:(discriminate) (NoDup_singleton _) Hr).
Defined.

(** The guard against wrapping only bounds the round-up: with 16 bytes in use,
    a request of SIZE_MAX - 15 bytes passes the test for room and is zeroed. *)
Example huge_request_wraps : (allocs [16] demo_arena ≫= fun p => uarena_alloc (SIZE_MAX - 15) p.2) = None.
Proof. vm_compute. reflexivity. Qed.

End Arena.
