(* ===== verification/Lex.v ===== *)
(** * The lexer (src/src/lex/ulex.c, ulex.h)

    A pointer into the source is its offset with the list of the bytes from it
    to the end, so [cur >= end] is the empty list and a guarded read
    [cur + k < end && cur[k] == c] one lookup.  [int] arithmetic wraps at 32
    bits, which is where the C leaves it undefined.  [strtod] is the C
    library's; doubles are the binary64 data of [SpecFloat].  Token names and
    error messages (text) are left out. *)
From Stdlib Require Import Ascii String SpecFloat.
From S2P Require Import Prelude Text.

Module Lex.

Definition URBI_SYNCLINE_STACK_MAX : Z := 4.
Definition URBI_SYNCLINE_NAME_MAX : Z := 256.
Definition LEX_RADIX_PREFIX_LEN : Z := 2.
Definition INT64_MAX : Z := 2 ^ 63 - 1.

Inductive UTokenType :=
  | TOK_EOF | TOK_INT | TOK_FLOAT | TOK_STRING | TOK_IDENT | TOK_PLUS | TOK_MINUS | TOK_STAR | TOK_SLASH | TOK_LPAREN | TOK_RPAREN
  | TOK_PIPE | TOK_SEMI | TOK_COMMA | TOK_AMP | TOK_LBRACE | TOK_RBRACE | TOK_EQ | TOK_EQEQ | TOK_NEQ | TOK_LT | TOK_LE | TOK_GT | TOK_GE
  | TOK_KW_VAR | TOK_KW_FUNCTION | TOK_KW_RETURN | TOK_KW_IF | TOK_KW_ELSE | TOK_KW_WHILE | TOK_KW_LAZY | TOK_KW_CLOSURE | TOK_KW_TRUE
  | TOK_KW_FALSE | TOK_KW_NIL | TOK_COLON | TOK_DOT | TOK_ARROW | TOK_KW_TRY | TOK_KW_CATCH | TOK_KW_FINALLY | TOK_KW_THROW | TOK_KW_AT
  | TOK_KW_WHENEVER | TOK_KW_WAITUNTIL | TOK_KW_EVERY | TOK_KW_ONLEAVE | TOK_KW_SYNC | TOK_KW_ASYNC | TOK_KW_DETACH | TOK_KW_DISOWN
  | TOK_QUESTION | TOK_BANG | TOK_KW_CLASS | TOK_KW_PUBLIC | TOK_KW_THIS | TOK_KW_ASSERT | TOK_KW_FOR | TOK_KW_BREAK | TOK_KW_CONTINUE
  | TOK_KW_SWITCH | TOK_KW_CASE | TOK_KW_DEFAULT | TOK_LBRACKET | TOK_RBRACKET | TOK_FAT_ARROW | TOK_PLUS_EQ | TOK_LSHIFT | TOK_PERCENT
  | TOK_AMPAMP | TOK_PIPEPIPE | TOK_ERROR.
#[export] Instance UTokenType_eq_dec : EqDecision UTokenType.
Proof. solve_decision. Defined.

Inductive ULexError :=
  | LEX_OK | LEX_UNKNOWN_CHAR | LEX_UNTERMINATED_BLOCK_COMMENT | LEX_AMBIGUOUS_LEADING_ZERO | LEX_EMPTY_RADIX | LEX_MALFORMED_HEX
  | LEX_MALFORMED_BIN | LEX_MALFORMED_OCT | LEX_LEADING_UNDERSCORE | LEX_TRAILING_UNDERSCORE | LEX_ADJACENT_UNDERSCORES | LEX_INT_OVERFLOW
  | LEX_UNTERMINATED_STRING | LEX_INVALID_ESCAPE | LEX_UNICODE_ESCAPE_TOO_SHORT | LEX_UNICODE_ESCAPE_OUT_OF_RANGE | LEX_LONE_SURROGATE
  | LEX_FLOAT_TRAILING_DOT | LEX_FLOAT_EXPONENT_NO_DIGITS | LEX_FLOAT_OVERFLOW | LEX_UNTERMINATED_QUOTED_IDENT | LEX_EMPTY_QUOTED_IDENT.
#[export] Instance ULexError_eq_dec : EqDecision ULexError.
Proof. solve_decision. Defined.

Record ptr := Ptr { p_off : Z; p_bytes : bytes }.

(** The union of a token. *)
Inductive payload := PNone | PInt (i : Z) | PFloat (f : spec_float) | PStr (start : ptr) (len : Z) | PErr (code : ULexError).
Record UToken := MkTok { t_type : UTokenType; t_line : Z; t_col : Z; t_len : Z; t_u : payload }.

(** The static default name, or a slot of the name pool. *)
Inductive fname := FStdin | FSlot (i : Z).
#[export] Instance fname_eq_dec : EqDecision fname.
Proof. solve_decision. Defined.

(** [l_stack] holds the [syncline_depth] entries in use, oldest first; [col] is always 0. *)
Record ULexer := MkLexer {
  l_cur : ptr; l_line : Z; l_line_start : Z; l_source : fname;
  l_stack : list (fname * Z); l_pool : list bytes; l_pool_idx : Z }.

Definition i32 (x : Z) : Z := let y := u32 x in if y <? 2 ^ 31 then y else y - 2 ^ 32.

Definition set_cur (p : ptr) (l : ULexer) : ULexer := MkLexer p (l_line l) (l_line_start l) (l_source l) (l_stack l) (l_pool l) (l_pool_idx l).
Definition set_lines (line start : Z) (l : ULexer) : ULexer := MkLexer (l_cur l) line start (l_source l) (l_stack l) (l_pool l) (l_pool_idx l).
Definition set_source (line : Z) (src : fname) (st : list (fname * Z)) (l : ULexer) : ULexer :=
  MkLexer (l_cur l) line (l_line_start l) src st (l_pool l) (l_pool_idx l).
Definition set_pool (pool : list bytes) (idx : Z) (l : ULexer) : ULexer := MkLexer (l_cur l) (l_line l) (l_line_start l) (l_source l) (l_stack l) pool idx.

Definition rest (l : ULexer) : bytes := p_bytes (l_cur l).
Definition off (l : ULexer) : Z := p_off (l_cur l).
Definition p_adv (n : nat) (p : ptr) : ptr := Ptr (p_off p + Z.of_nat n) (drop n (p_bytes p)).
Definition adv (n : nat) (l : ULexer) : ULexer := set_cur (p_adv n (l_cur l)) l.

(** [cur + k < end && cur[k] == c]. *)
Definition peek (k : nat) (c : Z) (l : ULexer) : bool := match rest l !! k with Some x => x =? c | None => false end.
(** [(int)(p - start)], and the column of a pointer. *)
Definition dist (l : ULexer) (start : ptr) : Z := i32 (off l - p_off start).
Definition column (l : ULexer) : Z := i32 (i32 (off l - l_line_start l) + 1).
(** [lex->line++; lex->line_start = lex->cur + k]. *)
Definition new_line (k : Z) (l : ULexer) : ULexer := set_lines (i32 (l_line l + 1)) (off l + k) l.

(** ** Tokens *)

Definition make_tok_base (type : UTokenType) (line col : Z) : UToken := MkTok type line col 0 PNone.
Definition make_error (code : ULexError) (line col len : Z) : UToken := MkTok TOK_ERROR line col len (PErr code).
(** [l] is the state at the token's start, which all callers leave on the same line. *)
Definition make_tok (l : ULexer) (type : UTokenType) (len : Z) : UToken := MkTok type (l_line l) (column l) len PNone.
Definition make_eof (l : ULexer) : UToken := make_tok_base TOK_EOF (l_line l) (column l).

(** ** Digits *)

(** [while (cur < end && p( *cur)) cur++]: how far it goes. *)
Fixpoint run (p : Z -> bool) (s : bytes) : nat := match s with c :: s => if p c then S (run p s) else O | [] => O end.

Definition is_dec_digit (c : Z) : bool := (48 <=? c) && (c <=? 57).

(** [None]: -1. *)
Definition digit_value (c base : Z) : option Z :=
  v ← (if is_dec_digit c then Some (c - 48) else if (97 <=? c) && (c <=? 102) then Some (c - 97 + 10)
       else if (65 <=? c) && (c <=? 70) then Some (c - 65 + 10) else None);
  if v <? base then Some v else None.

Definition acc_digit (acc digit base : Z) : option Z :=
  if (INT64_MAX - digit) / base <? acc then None else Some (acc * base + digit).

(** How many digits or underscores follow. *)
Definition digit_run (base : Z) : bytes -> nat := run (fun c => bool_decide (is_Some (digit_value c base)) || (c =? 95)).

Inductive acc_result := AccOk (value : Z) | AccErr (code : ULexError) (extra : Z).

(** The bytes consumed, and the value or an error whose span ends [extra]
    bytes after them; [prev] says whether the byte before is an underscore. *)
Fixpoint acc_loop (base : Z) (s : bytes) (value : Z) (prev : bool) : nat * acc_result :=
  match s with
  | c :: s' =>
      if c =? 95 then
        if prev then (O, AccErr LEX_ADJACENT_UNDERSCORES 1)
        else let (n, r) := acc_loop base s' value true in (S n, r)
      else
        match digit_value c base with
        | None => (O, if prev then AccErr LEX_TRAILING_UNDERSCORE 0 else AccOk value)
        | Some d =>
            match acc_digit value d base with
            | None => (digit_run base s, AccErr LEX_INT_OVERFLOW 0)
            | Some value => let (n, r) := acc_loop base s' value false in (S n, r)
            end
        end
  | [] => (O, if prev then AccErr LEX_TRAILING_UNDERSCORE 0 else AccOk value)
  end.

Definition accumulate_digits (lex : ULexer) (start : ptr) (start_line start_col base : Z) : (Z + UToken) * ULexer :=
  let (n, r) := acc_loop base (rest lex) 0 false in
  let lex := adv n lex in
  match r with
  | AccOk v => (inl v, lex)
  | AccErr code extra => (inr (make_error code start_line start_col (i32 (dist lex start + extra))), lex)
  end.

Definition is_alpha (c : Z) : bool := ((97 <=? c) && (c <=? 122)) || ((65 <=? c) && (c <=? 90)).

(** [start_col] and [start_line] are those of [start], as every caller has them. *)
Definition scan_radix (lex : ULexer) (start : ptr) (start_line start_col base : Z) (malformed_code : ULexError) : UToken * ULexer :=
  match rest lex with
  | [] => (make_error LEX_EMPTY_RADIX start_line start_col LEX_RADIX_PREFIX_LEN, lex)
  | c0 :: _ =>
      if c0 =? 95 then
        let lex := adv (digit_run base (rest lex)) lex in
        (make_error LEX_LEADING_UNDERSCORE start_line start_col (dist lex start), lex)
      else
        match digit_value c0 base with
        | None =>
            if is_dec_digit c0 || is_alpha c0 then (make_error malformed_code start_line start_col (LEX_RADIX_PREFIX_LEN + 1), adv 1 lex)
            else (make_error LEX_EMPTY_RADIX start_line start_col LEX_RADIX_PREFIX_LEN, lex)
        | Some _ =>
            let (r, lex) := accumulate_digits lex start start_line start_col base in
            match r with
            | inr err => (err, lex)
            | inl v => (MkTok TOK_INT start_line start_col (dist lex start) (PInt v), lex)
            end
        end
  end.

Definition is_ident_start (c : Z) : bool := is_alpha c || (c =? 95).
Definition is_ident_cont (c : Z) : bool := is_ident_start c || is_dec_digit c.


(** ** Unit suffixes *)

(** The first entry that is there and does not run on into an identifier. *)
Fixpoint find_suffix {A} (table : list (bytes * A)) (s : bytes) : option (bytes * A) :=
  match table with
  | [] => None
  | (suffix, a) :: table =>
      if negb (bool_decide (take (length suffix) s = suffix)) then find_suffix table s
      else if match s !! length suffix with Some c => is_ident_cont c | None => false end then find_suffix table s
      else Some (suffix, a)
  end.

Definition kDurationSuffixes : list (bytes * Z) :=
  [(lit "ms", 1000); (lit "us", 1); (lit "ns", -1000); (lit "s", 1000000); (lit "m", 60000000); (lit "h", 3600000000); (lit "d", 86400000000)].

Definition double_of (i : Z) : spec_float := binary_normalize 53 1024 i 0 false.
(** The double nearest to pi: 7074237752028440 * 2^-51. *)
Definition URBI_PI_D : spec_float := S754_finite false 7074237752028440 (-51).

Definition kAngleSuffixes : list (bytes * (spec_float * spec_float)) :=
  [(lit "grad", (double_of 200, URBI_PI_D)); (lit "deg", (double_of 180, URBI_PI_D)); (lit "rad", (double_of 1, double_of 1))].

Definition apply_angle_suffix (lex : ULexer) (in_value : spec_float) : option spec_float * ULexer :=
  match find_suffix kAngleSuffixes (rest lex) with
  | Some (suffix, (from, to)) => (Some (SFmul 53 1024 (SFdiv 53 1024 in_value from) to), adv (length suffix) lex)
  | None => (None, lex)
  end.

(** [None]: the value does not fit once scaled. *)
Definition apply_duration_suffix (lex : ULexer) (value : Z) : option Z * ULexer :=
  match find_suffix kDurationSuffixes (rest lex) with
  | Some (suffix, mul) =>
      let lex := adv (length suffix) lex in
      if 0 <=? mul then if (0 <? mul) && (INT64_MAX / mul <? value) then (None, lex) else (Some (value * mul), lex)
      else (Some (Z.quot value (- mul)), lex)
  | None => (Some value, lex)
  end.

(** [(int64_t)d], toward zero; the caller has excluded what does not fit. *)
Definition trunc (d : spec_float) : Z :=
  match d with
  | S754_finite s m e => let v := if 0 <=? e then Z.pos m * 2 ^ e else Z.pos m / 2 ^ (- e) in if s then - v else v
  | _ => 0
  end.

Definition two63 : spec_float := S754_finite false 4503599627370496 11.
Definition half : spec_float := S754_finite false 4503599627370496 (-53).

Inductive duration_rc := NoSuffix | Micros (us : Z) | Overflow.
Definition apply_duration_suffix_float (lex : ULexer) (value : spec_float) : duration_rc * ULexer :=
  match find_suffix kDurationSuffixes (rest lex) with
  | Some (suffix, mul) =>
      let lex := adv (length suffix) lex in
      let scaled := if 0 <=? mul then SFmul 53 1024 value (double_of mul) else SFdiv 53 1024 value (double_of (- mul)) in
      if negb (SFltb scaled two63) then (Overflow, lex) else (Micros (trunc (SFadd 53 1024 scaled half)), lex)
  | None => (NoSuffix, lex)
  end.

(** ** Numbers *)

Definition decimals : bytes -> nat := run is_dec_digit.

Section Strtod.
Context (strtod : bytes -> spec_float).

(** The fraction and exponent: the lexer after them, or the error. *)
Definition scan_fraction (lex : ULexer) (start : ptr) (start_line start_col : Z) : option UToken * ULexer :=
  if peek 0 46 lex then
    if negb (match rest lex !! 1%nat with Some c => is_dec_digit c | None => false end) then
      let lex := adv 1 lex in (Some (make_error LEX_FLOAT_TRAILING_DOT start_line start_col (dist lex start)), lex)
    else let lex := adv 1 lex in (None, adv (decimals (rest lex)) lex)
  else (None, lex).

Definition scan_exponent (lex : ULexer) (start : ptr) (start_line start_col : Z) : option UToken * ULexer :=
  if peek 0 101 lex || peek 0 69 lex then
    let lex := adv 1 lex in
    let lex := if peek 0 43 lex || peek 0 45 lex then adv 1 lex else lex in
    if negb (match rest lex !! 0%nat with Some c => is_dec_digit c | None => false end) then
      (Some (make_error LEX_FLOAT_EXPONENT_NO_DIGITS start_line start_col (dist lex start)), lex)
    else (None, adv (decimals (rest lex)) lex)
  else (None, lex).

(** What follows the digits of a float: [val], then a unit. *)
Definition float_token (lex : ULexer) (start : ptr) (start_line start_col : Z) : UToken * ULexer :=
  let span := dist lex start in
  let copy_len := if span <? 63 then span else 63 in
  let val := strtod (take (Z.to_nat copy_len) (p_bytes start)) in
  if negb (SFeqb val (S754_zero false)) && negb (SFeqb (SFsub 53 1024 val val) (S754_zero false)) then
    (make_error LEX_FLOAT_OVERFLOW start_line start_col span, lex)
  else
    let (drc, lex) := apply_duration_suffix_float lex val in
    match drc with
    | Overflow => (make_error LEX_INT_OVERFLOW start_line start_col (dist lex start), lex)
    | Micros us => (MkTok TOK_INT start_line start_col (dist lex start) (PInt us), lex)
    | NoSuffix =>
        let (rad, lex) := apply_angle_suffix lex val in
        match rad with
        | Some r => (MkTok TOK_FLOAT start_line start_col (dist lex start) (PFloat r), lex)
        | None => (MkTok TOK_FLOAT start_line start_col span (PFloat val), lex)
        end
    end.

Definition scan_float_body (lex : ULexer) (start : ptr) (start_line start_col : Z) : UToken * ULexer :=
  let (err, lex) := scan_fraction lex start start_line start_col in
  match err with
  | Some err => (err, lex)
  | None =>
      let (err, lex) := scan_exponent lex start start_line start_col in
      match err with Some err => (err, lex) | None => float_token lex start start_line start_col end
  end.

Definition scan_float_leading_dot (lex : ULexer) : UToken * ULexer := scan_float_body lex (l_cur lex) (l_line lex) (column lex).

(** The digits or underscores after a leading zero. *)
Definition zero_run : bytes -> nat := run (fun c => is_dec_digit c || (c =? 95)).

(** [None]: not handled here. *)
Definition dispatch_radix_prefix (lex : ULexer) (start : ptr) (start_line start_col : Z) : option (UToken * ULexer) :=
  if negb (peek 0 48 lex) then None
  else
    c2 ← rest lex !! 1%nat;
    if (c2 =? 120) || (c2 =? 88) then Some (scan_radix (adv 2 lex) start start_line start_col 16 LEX_MALFORMED_HEX)
    else if (c2 =? 98) || (c2 =? 66) then Some (scan_radix (adv 2 lex) start start_line start_col 2 LEX_MALFORMED_BIN)
    else if (c2 =? 111) || (c2 =? 79) then Some (scan_radix (adv 2 lex) start start_line start_col 8 LEX_MALFORMED_OCT)
    else if is_dec_digit c2 || (c2 =? 95) then
      let lex := adv 1 lex in
      let lex := adv (zero_run (rest lex)) lex in
      Some (make_error LEX_AMBIGUOUS_LEADING_ZERO start_line start_col (dist lex start), lex)
    else None.

(** Whether what follows the integer part makes it a float. *)
Definition float_follows (lex : ULexer) : bool :=
  match rest lex with
  | 46 :: r => match r with [] => true | after_dot :: _ => is_dec_digit after_dot end
  | c :: _ => (c =? 101) || (c =? 69)
  | [] => false
  end.

Definition int_token (lex : ULexer) (value : Z) (start : ptr) (start_line start_col : Z) : UToken * ULexer :=
  let (r, lex) := apply_duration_suffix lex value in
  match r with
  | None => (make_error LEX_INT_OVERFLOW start_line start_col (dist lex start), lex)
  | Some value =>
      let (rad, lex) := apply_angle_suffix lex (double_of value) in
      match rad with
      | Some r => (MkTok TOK_FLOAT start_line start_col (dist lex start) (PFloat r), lex)
      | None => (MkTok TOK_INT start_line start_col (dist lex start) (PInt value), lex)
      end
  end.

Definition scan_number (lex : ULexer) : UToken * ULexer :=
  let start := l_cur lex in
  let start_line := l_line lex in
  let start_col := column lex in
  match dispatch_radix_prefix lex start start_line start_col with
  | Some r => r
  | None =>
      let (r, lex) := accumulate_digits lex start start_line start_col 10 in
      match r with
      | inr err => (err, lex)
      | inl value =>
          if float_follows lex then scan_float_body lex start start_line start_col
          else int_token lex value start start_line start_col
      end
  end.
End Strtod.

(** ** Identifiers *)

Definition KEYWORDS : list (bytes * UTokenType) :=
  [(lit "assert", TOK_KW_ASSERT); (lit "async", TOK_KW_ASYNC); (lit "at", TOK_KW_AT); (lit "break", TOK_KW_BREAK); (lit "case", TOK_KW_CASE);
   (lit "catch", TOK_KW_CATCH); (lit "class", TOK_KW_CLASS); (lit "closure", TOK_KW_CLOSURE); (lit "continue", TOK_KW_CONTINUE);
   (lit "default", TOK_KW_DEFAULT); (lit "detach", TOK_KW_DETACH); (lit "disown", TOK_KW_DISOWN); (lit "else", TOK_KW_ELSE);
   (lit "every", TOK_KW_EVERY); (lit "false", TOK_KW_FALSE); (lit "finally", TOK_KW_FINALLY); (lit "for", TOK_KW_FOR);
   (lit "function", TOK_KW_FUNCTION); (lit "if", TOK_KW_IF); (lit "lazy", TOK_KW_LAZY); (lit "nil", TOK_KW_NIL); (lit "onleave", TOK_KW_ONLEAVE);
   (lit "public", TOK_KW_PUBLIC); (lit "return", TOK_KW_RETURN); (lit "switch", TOK_KW_SWITCH); (lit "sync", TOK_KW_SYNC); (lit "this", TOK_KW_THIS);
   (lit "throw", TOK_KW_THROW); (lit "true", TOK_KW_TRUE); (lit "try", TOK_KW_TRY); (lit "var", TOK_KW_VAR); (lit "waituntil", TOK_KW_WAITUNTIL);
   (lit "whenever", TOK_KW_WHENEVER); (lit "while", TOK_KW_WHILE)].

Fixpoint keyword_find (table : list (bytes * UTokenType)) (word : bytes) : UTokenType :=
  match table with [] => TOK_IDENT | (name, type) :: table => if decide (name = word) then type else keyword_find table word end.
Definition keyword_lookup (word : bytes) : UTokenType := keyword_find KEYWORDS word.

Definition ident_run : bytes -> nat := run is_ident_cont.

Definition scan_ident (lex : ULexer) : UToken * ULexer :=
  let start := l_cur lex in
  let n := ident_run (rest lex) in
  let len := dist (adv n lex) start in
  (MkTok (keyword_lookup (take n (p_bytes start))) (l_line lex) (column lex) len (PStr start len), adv n lex).

(** The bytes before the closing quote, a newline or the end. *)
Definition quoted_run : bytes -> nat := run (fun c => negb ((c =? 39) || (c =? 10))).

Definition scan_quoted_ident (lex : ULexer) : UToken * ULexer :=
  let outer_start := l_cur lex in
  let start_line := l_line lex in
  let start_col := column lex in
  let lex := adv 1 lex in
  let body_start := l_cur lex in
  let lex := adv (quoted_run (rest lex)) lex in
  if peek 0 39 lex then
    let body_len := dist lex body_start in
    let lex := adv 1 lex in
    let span := dist lex outer_start in
    if body_len =? 0 then (make_error LEX_EMPTY_QUOTED_IDENT start_line start_col span, lex)
    else (MkTok TOK_IDENT start_line start_col span (PStr body_start body_len), lex)
  else (make_error LEX_UNTERMINATED_QUOTED_IDENT start_line start_col (dist lex outer_start), lex).


(** ** Strings *)

Definition urbi_encode_utf8 (cp : Z) : bytes :=
  if cp <=? 127 then [u8 cp]
  else if cp <=? 2047 then [u8 (Z.lor 192 (Z.shiftr cp 6)); u8 (Z.lor 128 (Z.land cp 63))]
  else if cp <=? 65535 then
    [u8 (Z.lor 224 (Z.shiftr cp 12)); u8 (Z.lor 128 (Z.land (Z.shiftr cp 6) 63)); u8 (Z.lor 128 (Z.land cp 63))]
  else
    [u8 (Z.lor 240 (Z.shiftr cp 18)); u8 (Z.lor 128 (Z.land (Z.shiftr cp 12) 63)); u8 (Z.lor 128 (Z.land (Z.shiftr cp 6) 63)); u8 (Z.lor 128 (Z.land cp 63))].

(** At most [max] hexadecimal digits: how many, and their value. *)
Fixpoint hex_digits (max : nat) (s : bytes) (cp : Z) : nat * Z :=
  match max, s with
  | S max, c :: s => match digit_value c 16 with Some d => let (n, v) := hex_digits max s (u32 (Z.lor (Z.shiftl cp 4) d)) in (S n, v) | None => (O, cp) end
  | _, _ => (O, cp)
  end.

Definition validate_unicode_escape (lex : ULexer) : ULexError * ULexer :=
  let lex := adv 1 lex in
  if peek 0 123 lex then
    let lex := adv 1 lex in
    let (hex_count, cp) := hex_digits 6 (rest lex) 0 in
    let lex := adv hex_count lex in
    if (hex_count =? 0)%nat then (LEX_UNICODE_ESCAPE_TOO_SHORT, lex)
    else if negb (peek 0 125 lex) then (LEX_UNICODE_ESCAPE_TOO_SHORT, lex)
    else
      let lex := adv 1 lex in
      if 1114111 <? cp then (LEX_UNICODE_ESCAPE_OUT_OF_RANGE, lex)
      else if (55296 <=? cp) && (cp <=? 57343) then (LEX_LONE_SURROGATE, lex)
      else (LEX_OK, lex)
  else
    let (hex_count, cp) := hex_digits 4 (rest lex) 0 in
    let lex := adv hex_count lex in
    if (hex_count <? 4)%nat then (LEX_UNICODE_ESCAPE_TOO_SHORT, lex)
    else if (55296 <=? cp) && (cp <=? 57343) then (LEX_LONE_SURROGATE, lex)
    else (LEX_OK, lex).

(** The body up to the closing quote or the end; [None] is a loop that does not end. *)
Fixpoint string_body (fuel : nat) (lex : ULexer) (body_start : ptr) (start_line start_col : Z) : option (option UToken * ULexer) :=
  match rest lex with
  | [] => Some (None, lex)
  | c :: _ =>
      if c =? 34 then Some (None, lex)
      else
        match fuel with
        | O => None
        | S fuel =>
            if c =? 92 then
              let lex := adv 1 lex in
              match rest lex with
              | [] => string_body fuel lex body_start start_line start_col
              | c :: _ =>
                  if (c =? 110) || (c =? 116) || (c =? 92) || (c =? 34) then string_body fuel (adv 1 lex) body_start start_line start_col
                  else if c =? 117 then
                    let (uerr, lex) := validate_unicode_escape lex in
                    if decide (uerr = LEX_OK) then string_body fuel lex body_start start_line start_col
                    else Some (Some (make_error uerr start_line start_col (i32 (dist lex body_start + 1))), lex)
                  else
                    let lex := adv 1 lex in
                    Some (Some (make_error LEX_INVALID_ESCAPE start_line start_col (i32 (dist lex body_start + 1))), lex)
              end
            else
              let lex := if c =? 10 then new_line 1 lex else lex in
              string_body fuel (adv 1 lex) body_start start_line start_col
        end
  end.

Definition lex_string (lex : ULexer) (start_line start_col : Z) : option (UToken * ULexer) :=
  let lex := adv 1 lex in
  let body_start := l_cur lex in
  '(err, lex) ← string_body (length (rest lex)) lex body_start start_line start_col;
  match err with
  | Some err => Some (err, lex)
  | None =>
      match rest lex with
      | [] => Some (make_error LEX_UNTERMINATED_STRING start_line start_col (i32 (dist lex body_start + 1)), lex)
      | _ :: _ => Some (MkTok TOK_STRING start_line start_col (i32 (dist lex body_start + 2)) (PStr body_start (dist lex body_start)), adv 1 lex)
      end
  end.

(** ** Source directives *)

Definition lower_run : bytes -> nat := run (fun c => (97 <=? c) && (c <=? 122)).
Definition blank_run : bytes -> nat := run (fun c => (c =? 32) || (c =? 9)).
Definition line_run : bytes -> nat := run (fun c => negb (c =? 10)).
Definition file_run : bytes -> nat := run (fun c => negb ((c =? 34) || (c =? 10))).

(** Only white space to the end of the line: the way to it. *)
Fixpoint to_line_end (s : bytes) : option nat :=
  match s with
  | c :: s => if c =? 10 then Some O else if (c =? 32) || (c =? 9) || (c =? 13) then S <$> to_line_end s else None
  | [] => Some O
  end.

(** The line number: [None] past the guard. *)
Fixpoint line_number (s : bytes) (n : Z) : option (nat * Z) :=
  match s with
  | c :: s =>
      if is_dec_digit c then
        if UINT32_MAX / 10 <? n then None else '(k, n) ← line_number s (u32 (n * 10 + (c - 48))); Some (S k, n)
      else Some (O, n)
  | [] => Some (O, n)
  end.

Definition pop_source (l : ULexer) : ULexer :=
  match last (l_stack l) with
  | Some (file, line) => set_source (i32 line) file (take (length (l_stack l) - 1) (l_stack l)) l
  | None => l
  end.

(** [None]: not a directive. *)
Definition try_parse_syncline (l : ULexer) : option ULexer :=
  if negb (peek 0 35 l) then None
  else
    let l := adv 1 l in
    let name := take (lower_run (rest l)) (rest l) in
    let l := adv (lower_run (rest l)) l in
    let l := adv (blank_run (rest l)) l in
    if decide (name = lit "pop") then n ← to_line_end (rest l); Some (pop_source (adv n l))
    else
      let is_push := bool_decide (name = lit "push") in
      if negb is_push && negb (bool_decide (name = lit "line")) then None
      else if negb (match rest l !! 0%nat with Some c => is_dec_digit c | None => false end) then None
      else
        '(k, n) ← line_number (rest l) 0;
        let l := adv k l in
        let l := adv (blank_run (rest l)) l in
        if negb (peek 0 34 l) then None
        else
          let l := adv 1 l in
          let file_len := file_run (rest l) in
          let file := take file_len (rest l) in
          let l := adv file_len l in
          if negb (peek 0 34 l) then None
          else
            let l := adv 1 l in
            k ← to_line_end (rest l);
            let l := adv k l in
            let slot := l_pool_idx l in
            let copy_len := if zlen file <? URBI_SYNCLINE_NAME_MAX - 1 then zlen file else URBI_SYNCLINE_NAME_MAX - 1 in
            pool ← store (l_pool l) slot (take (Z.to_nat copy_len) file);
            let l := set_pool pool (u8 ((slot + 1) mod (URBI_SYNCLINE_STACK_MAX + 1))) l in
            let stack := if is_push && (zlen (l_stack l) <? URBI_SYNCLINE_STACK_MAX) then l_stack l ++ [(l_source l, u32 (l_line l))] else l_stack l in
            Some (set_source (i32 (i32 n - 1)) (FSlot slot) stack l).

(** The name the host sees, [ulex_current_source]. *)
Definition ulex_current_source (l : ULexer) : option bytes :=
  match l_source l with FStdin => Some (lit "<stdin>") | FSlot i => read (l_pool l) i end.

(** ** White space and comments *)

(** The inside of a block comment: whether it was closed. *)
Fixpoint block_comment (s : bytes) (l : ULexer) : bool * ULexer :=
  match s with
  | a :: s' =>
      match s' with
      | b :: _ =>
          if (a =? 42) && (b =? 47) then (true, adv 2 l)
          else block_comment s' (adv 1 (if a =? 10 then new_line 1 l else l))
      | [] => (false, l)
      end
  | [] => (false, l)
  end.

Record UTriviaResult := MkTrivia { tr_code : ULexError; tr_line : Z; tr_col : Z; tr_len : Z }.

(** [None] is a loop that does not end. *)
Fixpoint skip_trivia (fuel : nat) (l : ULexer) : option (UTriviaResult * ULexer) :=
  let done := Some (MkTrivia LEX_OK 1 1 2, l) in
  match rest l with
  | [] => done
  | c :: _ =>
      match fuel with
      | O => None
      | S fuel =>
          if (c =? 32) || (c =? 9) then skip_trivia fuel (adv 1 l)
          else if c =? 10 then skip_trivia fuel (new_line 0 (adv 1 l))
          else if c =? 13 then
            if peek 1 10 l then skip_trivia fuel (new_line 0 (adv 2 l)) else done
          else if (c =? 47) && peek 1 47 l then
            let l := adv 2 l in
            let l := if peek 0 35 l then default l (try_parse_syncline l) else l in
            skip_trivia fuel (adv (line_run (rest l)) l)
          else if (c =? 47) && peek 1 42 l then
            let start_line := l_line l in
            let start_col := column l in
            let start := l_cur l in
            let l := adv 2 l in
            let (closed, l) := block_comment (rest l) l in
            if closed : bool then skip_trivia fuel l
            else
              let l := adv (length (rest l)) l in
              Some (MkTrivia LEX_UNTERMINATED_BLOCK_COMMENT start_line start_col (dist l start), l)
          else done
      end
  end.

(** ** The next token *)

Definition kPunctTable (c : Z) : option UTokenType :=
  if c =? 42 then Some TOK_STAR else if c =? 47 then Some TOK_SLASH else if c =? 40 then Some TOK_LPAREN else if c =? 41 then Some TOK_RPAREN
  else if c =? 59 then Some TOK_SEMI else if c =? 44 then Some TOK_COMMA else if c =? 123 then Some TOK_LBRACE else if c =? 125 then Some TOK_RBRACE
  else if c =? 58 then Some TOK_COLON else if c =? 46 then Some TOK_DOT else if c =? 63 then Some TOK_QUESTION else if c =? 91 then Some TOK_LBRACKET
  else if c =? 93 then Some TOK_RBRACKET else None.

(** The operators of the [switch]: the two-byte forms first, then the one-byte one. *)
Definition operator (lex : ULexer) (c : Z) : option (UTokenType * nat) :=
  if c =? 43 then Some (if peek 1 61 lex then (TOK_PLUS_EQ, 2%nat) else (TOK_PLUS, 1%nat))
  else if c =? 45 then Some (if peek 1 62 lex then (TOK_ARROW, 2%nat) else (TOK_MINUS, 1%nat))
  else if c =? 61 then Some (if peek 1 61 lex then (TOK_EQEQ, 2%nat) else if peek 1 62 lex then (TOK_FAT_ARROW, 2%nat) else (TOK_EQ, 1%nat))
  else if c =? 33 then Some (if peek 1 61 lex then (TOK_NEQ, 2%nat) else (TOK_BANG, 1%nat))
  else if c =? 60 then Some (if peek 1 61 lex then (TOK_LE, 2%nat) else if peek 1 60 lex then (TOK_LSHIFT, 2%nat) else (TOK_LT, 1%nat))
  else if c =? 38 then Some (if peek 1 38 lex then (TOK_AMPAMP, 2%nat) else (TOK_AMP, 1%nat))
  else if c =? 124 then Some (if peek 1 124 lex then (TOK_PIPEPIPE, 2%nat) else (TOK_PIPE, 1%nat))
  else if c =? 37 then Some (TOK_PERCENT, 1%nat)
  else if c =? 62 then Some (if peek 1 61 lex then (TOK_GE, 2%nat) else (TOK_GT, 1%nat))
  else None.

(** After white space, at a byte [c]. *)
Definition next_token (strtod : bytes -> spec_float) (lex : ULexer) (c : Z) : option (UToken * ULexer) :=
  if c =? 34 then lex_string lex (l_line lex) (column lex)
  else if c =? 39 then Some (scan_quoted_ident lex)
  else if (c =? 46) && match rest lex !! 1%nat with Some d => is_dec_digit d | None => false end then Some (scan_float_leading_dot strtod lex)
  else
    match kPunctTable c with
    | Some pt => Some (make_tok lex pt 1, adv 1 lex)
    | None =>
        match operator lex c with
        | Some (type, len) => Some (make_tok lex type (Z.of_nat len), adv len lex)
        | None =>
            if is_dec_digit c then Some (scan_number strtod lex)
            else if is_ident_start c then Some (scan_ident lex)
            else Some (make_error LEX_UNKNOWN_CHAR (l_line lex) (column lex) 1, adv 1 lex)
        end
    end.

Definition ulex_next (strtod : bytes -> spec_float) (lex : ULexer) : option (UToken * ULexer) :=
  '(tr, lex) ← skip_trivia (length (rest lex)) lex;
  if negb (bool_decide (tr_code tr = LEX_OK)) then Some (make_error (tr_code tr) (tr_line tr) (tr_col tr) (tr_len tr), lex)
  else match rest lex with [] => Some (make_eof lex, lex) | c :: _ => next_token strtod lex c end.

Definition ulex_init (src : bytes) : ULexer := MkLexer (Ptr 0 src) 1 0 FStdin [] (replicate 5 []) 0.

(** The tokens up to the end of the source, one call after another. *)
Fixpoint ulex_all (strtod : bytes -> spec_float) (fuel : nat) (lex : ULexer) : option (list UToken) :=
  match fuel with
  | O => None
  | S fuel =>
      '(t, lex) ← ulex_next strtod lex;
      if decide (t_type t = TOK_EOF) then Some [t] else l ← ulex_all strtod fuel lex; Some (t :: l)
  end.

End Lex.
