(* ===== verification/LexFacts.v ===== *)
(** * Facts about the lexer (src/src/lex/ulex.c)

    Every call makes progress and stays inside the source, tokens span exactly
    the bytes they consume, and literals have the value they spell. *)
From Stdlib Require Import Ascii String SpecFloat.
From S2P Require Import Prelude Text Lex.
Import Lex.

Module LexFacts.

(** ** The cursor only moves forward, inside the source *)

Definition ahead (k : nat) (l l' : ULexer) : Prop :=
  exists n, (k <= n <= length (rest l))%nat /\ l_cur l' = p_adv n (l_cur l) /\ l_pool l' = l_pool l /\ l_pool_idx l' = l_pool_idx l.

Lemma rest_adv n l : rest (adv n l) = drop n (rest l).
Proof. done. Qed.

Lemma ahead_refl l : ahead 0 l l.
Proof. exists O. split; [lia|]. split; [|done]. unfold p_adv. rewrite Z.add_0_r, drop_0. by destruct (l_cur l). Qed.

Lemma ahead_adv n l : (n <= length (rest l))%nat -> ahead n l (adv n l).
Proof. intros. by exists n. Qed.

Lemma ahead_le j k l l' : ahead k l l' -> (j <= k)%nat -> ahead j l l'.
Proof. intros (n & ? & ?) ?. exists n. split; [lia|done]. Qed.

Lemma ahead_rest k l l' : ahead k l l' -> (length (rest l') + k <= length (rest l))%nat.
Proof. intros (n & ? & E & _). unfold rest in *. rewrite E. cbn. rewrite length_drop. lia. Qed.

Lemma ahead_trans j k l l' l'' : ahead j l l' -> ahead k l' l'' -> ahead (j + k) l l''.
Proof.
  intros (n & Hn & E & P1 & P2) (m & Hm & E' & P1' & P2'). unfold rest in *. rewrite E in *. cbn in Hm. rewrite length_drop in Hm.
  exists (n + m)%nat. split; [unfold rest; lia|]. split; [|by rewrite P1', P2']. rewrite E'. unfold p_adv. cbn. rewrite drop_drop. f_equal. lia.
Qed.

Lemma ahead_lines line start k l l' : ahead k l l' -> ahead k l (set_lines line start l').
Proof. by intros (n & ? & ? & ? & ?); exists n. Qed.

Lemma run_le p s : (run p s <= length s)%nat.
Proof. induction s as [|c s IH]; cbn; [lia|]. destruct (p c); lia. Qed.

Lemma ahead_run p l : ahead 0 l (adv (run p (rest l)) l).
Proof. eapply ahead_le; [apply ahead_adv, run_le|lia]. Qed.

Lemma peek_lt k c l : peek k c l = true -> (k < length (rest l))%nat.
Proof. unfold peek. destruct (rest l !! k) eqn:E; [|done]. by apply lookup_lt_Some in E. Qed.

Lemma digit_at l k : match rest l !! k with Some c => is_dec_digit c | None => false end = true -> (k < length (rest l))%nat.
Proof. destruct (rest l !! k) eqn:E; [|done]. by apply lookup_lt_Some in E. Qed.

Create HintDb lex.
#[local] Hint Resolve ahead_refl ahead_run : lex.

(** What a scanning function returns, called at [l] for a token that starts at
    [start]: it moved [k] bytes or more, and a token that is no error spans
    what lies between. *)
Definition scanned (start : ptr) (line col : Z) (k : nat) (l : ULexer) (r : UToken * ULexer) : Prop :=
  ahead k l r.2 /\ t_type r.1 <> TOK_EOF /\ t_line r.1 = line /\ t_col r.1 = col /\ (t_type r.1 <> TOK_ERROR -> t_len r.1 = dist r.2 start).

Lemma scanned_error start line col k l l' code len : ahead k l l' -> scanned start line col k l (make_error code line col len, l').
Proof. intros. by repeat split. Qed.

Lemma scanned_tok start line col k l l' ty u : ahead k l l' -> ty <> TOK_EOF -> scanned start line col k l (MkTok ty line col (dist l' start) u, l').
Proof. intros. by repeat split. Qed.

Lemma scanned_le start line col j k l r : scanned start line col k l r -> (j <= k)%nat -> scanned start line col j l r.
Proof. intros (H & ?) ?. split; [by eapply ahead_le|done]. Qed.

Lemma scanned_trans start line col j k l l' r : ahead j l l' -> scanned start line col k l' r -> scanned start line col (j + k) l r.
Proof. intros H (H' & ?). split; [by eapply ahead_trans|done]. Qed.

#[local] Hint Resolve scanned_error scanned_tok : lex.

(** ** Numbers *)

Lemma acc_loop_le base s : forall v prev, ((acc_loop base s v prev).1 <= length s)%nat.
Proof.
  induction s as [|c s IH]; intros v prev; cbn [acc_loop]; [cbn; lia|]. destruct (c =? 95).
  - destruct prev; [cbn; lia|]. pose proof (IH v true). destruct (acc_loop base s v true). cbn in *. lia.
  - destruct (digit_value c base) as [d|]; [|cbn; lia]. destruct (acc_digit v d base) as [v'|]; [|apply run_le].
    pose proof (IH v' false). destruct (acc_loop base s v' false). cbn in *. lia.
Qed.

(** A digit is consumed, whatever comes of it. *)
Lemma acc_loop_pos base c s v prev : c <> 95 -> is_Some (digit_value c base) -> (1 <= (acc_loop base (c :: s) v prev).1)%nat.
Proof.
  intros Hc [d Hd]. cbn [acc_loop]. destruct (c =? 95) eqn:E; zbool; [done|]. rewrite Hd. destruct (acc_digit v d base) as [v'|].
  - destruct (acc_loop base s v' false). cbn. lia.
  - unfold digit_run. cbn. rewrite Hd, bool_decide_true by by eexists. cbn. lia.
Qed.

Lemma accumulate_spec lex start line col base : ahead (acc_loop base (rest lex) 0 false).1 lex (accumulate_digits lex start line col base).2 /\
  match (accumulate_digits lex start line col base).1 with inr err => exists code len, err = make_error code line col len | inl _ => True end.
Proof.
  unfold accumulate_digits. pose proof (acc_loop_le base (rest lex) 0 false) as H. destruct (acc_loop base (rest lex) 0 false) as [n r]. cbn in *.
  destruct r; cbn; (split; [by apply ahead_adv|]); [done|]. by eexists _, _.
Qed.

Lemma scan_radix_spec lex start line col base code : scanned start line col 0 lex (scan_radix lex start line col base code).
Proof.
  unfold scan_radix. destruct (rest lex) as [|c0 s] eqn:Er; [by auto with lex|]. destruct (c0 =? 95); [rewrite <- Er; apply scanned_error, ahead_run|].
  destruct (digit_value c0 base).
  - pose proof (accumulate_spec lex start line col base) as [H1 H2]. destruct (accumulate_digits lex start line col base) as [[v|err] l']; cbn in *.
    + apply scanned_tok; [eapply ahead_le; [done|lia]|done].
    + destruct H2 as (cd & len & ->). apply scanned_error. eapply ahead_le; [done|lia].
  - destruct (_ || _); [|by auto with lex]. apply scanned_error. eapply ahead_le; [apply ahead_adv; rewrite Er; cbn; lia|lia].
Qed.

Lemma find_suffix_le {A} (table : list (bytes * A)) s x : find_suffix table s = Some x -> (length x.1 <= length s)%nat.
Proof.
  induction table as [|[suffix a] table IH]; cbn; [done|]. case_bool_decide as E; cbn; [|done]. destruct (match s !! length suffix with Some c => is_ident_cont c | None => false end); [done|].
  intros [= <-]. cbn. rewrite <- E, length_take. lia.
Qed.

Lemma angle_ahead lex v : ahead 0 lex (apply_angle_suffix lex v).2.
Proof.
  unfold apply_angle_suffix. destruct (find_suffix _ _) as [[suffix [from to]]|] eqn:E; cbn; [|by auto with lex].
  eapply ahead_le; [apply ahead_adv, (find_suffix_le _ _ _ E)|lia].
Qed.

Lemma duration_ahead lex v : ahead 0 lex (apply_duration_suffix lex v).2.
Proof.
  unfold apply_duration_suffix. destruct (find_suffix _ _) as [[suffix mul]|] eqn:E; cbn; [|by auto with lex].
  assert (ahead 0 lex (adv (length suffix) lex)) by (eapply ahead_le; [apply ahead_adv, (find_suffix_le _ _ _ E)|lia]).
  destruct (0 <=? mul); [|done]. by destruct (_ && _).
Qed.

Lemma duration_float_ahead lex v : ahead 0 lex (apply_duration_suffix_float lex v).2.
Proof.
  unfold apply_duration_suffix_float. destruct (find_suffix _ _) as [[suffix mul]|] eqn:E; cbn; [|by auto with lex].
  assert (ahead 0 lex (adv (length suffix) lex)) by (eapply ahead_le; [apply ahead_adv, (find_suffix_le _ _ _ E)|lia]).
  by destruct (negb _).
Qed.

Section Strtod.
Context (strtod : bytes -> spec_float).

Lemma float_token_spec lex start line col : scanned start line col 0 lex (float_token strtod lex start line col).
Proof.
  unfold float_token. destruct (_ && _); [by auto with lex|].
  set (v := strtod _). pose proof (duration_float_ahead lex v) as H. destruct (apply_duration_suffix_float lex v) as [drc l1] eqn:Ed. cbn in H.
  destruct drc as [|us|]; [|by auto with lex..].
  pose proof (angle_ahead l1 v) as H'. destruct (apply_angle_suffix l1 v) as [[r|] l2] eqn:Ea; cbn in H'.
  - apply scanned_tok; [by apply (ahead_trans 0 0 _ _ _ H H')|done].
  - assert (l2 = l1) as -> by (unfold apply_angle_suffix in Ea; destruct (find_suffix _ _) as [[? [? ?]]|]; by simplify_eq).
    assert (l1 = lex) as -> by (unfold apply_duration_suffix_float in Ed; destruct (find_suffix _ _) as [[? ?]|]; [destruct (negb _)|]; by simplify_eq).
    by auto with lex.
Qed.
Definition opt_scanned (start : ptr) (line col : Z) (k : nat) (l : ULexer) (r : option UToken * ULexer) : Prop :=
  ahead k l r.2 /\ match r.1 with Some err => exists code len, err = make_error code line col len | None => True end.

Lemma fraction_spec lex start line col : opt_scanned start line col (if peek 0 46 lex then 1 else 0) lex (scan_fraction lex start line col).
Proof.
  unfold scan_fraction. destruct (peek 0 46 lex) eqn:Ep; [|by split; [apply ahead_refl|]]. apply peek_lt in Ep.
  destruct (negb _); (split; [cbn|]); [by apply ahead_adv|by eexists _, _| |done].
  apply (ahead_trans 1 0 lex (adv 1 lex)); [by apply ahead_adv|apply ahead_run].
Qed.

Lemma exponent_spec lex start line col : opt_scanned start line col (if peek 0 101 lex || peek 0 69 lex then 1 else 0) lex (scan_exponent lex start line col).
Proof.
  unfold scan_exponent. destruct (peek 0 101 lex || peek 0 69 lex) eqn:Ep; [|by split; [apply ahead_refl|]].
  assert (Hp : (0 < length (rest lex))%nat) by (apply orb_true_iff in Ep as [Ep|Ep]; by apply peek_lt in Ep).
  set (l1 := adv 1 lex). assert (H1 : ahead 1 lex l1) by by apply ahead_adv.
  set (l2 := if peek 0 43 l1 || peek 0 45 l1 then adv 1 l1 else l1). assert (H2 : ahead 1 lex l2).
  { unfold l2. destruct (peek 0 43 l1 || peek 0 45 l1) eqn:Es; [|done]. apply (ahead_trans 1 0 _ _ _ H1).
    eapply ahead_le; [apply (ahead_adv 1)|lia]. apply orb_true_iff in Es as [Es|Es]; by apply peek_lt in Es. }
  cbn zeta. fold l1. fold l2. destruct (negb _); (split; [cbn|]); [done|by eexists _, _| |done].
  apply (ahead_trans 1 0 _ _ _ H2). apply ahead_run.
Qed.

Lemma scan_float_body_spec lex start line col :
  scanned start line col (if peek 0 46 lex || (peek 0 101 lex || peek 0 69 lex) then 1 else 0) lex (scan_float_body strtod lex start line col).
Proof.
  unfold scan_float_body. pose proof (fraction_spec lex start line col) as [H1 E1]. destruct (scan_fraction lex start line col) as [err l1] eqn:Ef. cbn in *.
  destruct (peek 0 46 lex) eqn:Ep.
  - destruct err as [err|]; [destruct E1 as (c & n & ->); by auto with lex|].
    pose proof (exponent_spec l1 start line col) as [H2 E2]. destruct (scan_exponent l1 start line col) as [err l2]. cbn in *.
    assert (ahead 1 lex l2) by (apply (ahead_trans 1 0 _ l1); [done|by eapply ahead_le; [|lia]]).
    destruct err as [err|]; [destruct E2 as (c & n & ->); by auto with lex|]. apply (scanned_trans _ _ _ 1 0 _ l2); [done|apply float_token_spec].
  - assert (err = None /\ l1 = lex) as [-> ->] by (unfold scan_fraction in Ef; rewrite Ep in Ef; by simplify_eq). cbn [orb].
    pose proof (exponent_spec lex start line col) as [H2 E2]. destruct (scan_exponent lex start line col) as [err l2]. cbn in *.
    destruct err as [err|]; [destruct E2 as (c & n & ->); by auto with lex|]. eapply scanned_le; [eapply scanned_trans; [exact H2|apply float_token_spec]|lia].
Qed.

Lemma dispatch_spec lex start line col : match dispatch_radix_prefix lex start line col with Some r => scanned start line col 1 lex r | None => True end.
Proof.
  unfold dispatch_radix_prefix. destruct (peek 0 48 lex) eqn:Ep; cbn [negb]; [|done]. destruct (rest lex !! 1%nat) as [c2|] eqn:Ec; cbn [mbind option_bind]; [|done].
  apply lookup_lt_Some in Ec. assert (H2 : ahead 2 lex (adv 2 lex)) by by apply ahead_adv.
  assert (Hr : forall base code, scanned start line col 1 lex (scan_radix (adv 2 lex) start line col base code)).
  { intros. eapply scanned_le; [by eapply scanned_trans; [exact H2|apply scan_radix_spec]|lia]. }
  destruct (_ || _); [apply Hr|]. destruct (_ || _); [apply Hr|]. destruct (_ || _); [apply Hr|]. destruct (_ || _); [|done].
  apply scanned_error. apply (ahead_trans 1 0 lex (adv 1 lex)); [apply ahead_adv; lia|apply ahead_run].
Qed.

Lemma int_token_spec lex v start line col : scanned start line col 0 lex (int_token lex v start line col).
Proof.
  unfold int_token. pose proof (duration_ahead lex v) as H. destruct (apply_duration_suffix lex v) as [[v'|] l1]; cbn in H; [|by auto with lex].
  pose proof (angle_ahead l1 (double_of v')) as H'. destruct (apply_angle_suffix l1 (double_of v')) as [[r|] l2]; cbn in H';
    (apply scanned_tok; [by apply (ahead_trans 0 0 _ _ _ H H')|done]).
Qed.

Lemma digit_value_10 c : is_dec_digit c = true -> digit_value c 10 = Some (c - 48).
Proof. intros H. unfold digit_value. rewrite H. cbn. unfold is_dec_digit in H. zbool. zcase; [done|lia]. Qed.

Lemma scan_number_spec lex c s : rest lex = c :: s -> is_dec_digit c = true -> scanned (l_cur lex) (l_line lex) (column lex) 1 lex (scan_number strtod lex).
Proof.
  intros Er Hc. unfold scan_number. pose proof (dispatch_spec lex (l_cur lex) (l_line lex) (column lex)) as H. destruct (dispatch_radix_prefix _ _ _ _) as [r|]; [done|]. clear H.
  pose proof (accumulate_spec lex (l_cur lex) (l_line lex) (column lex) 10) as [H1 H2].
  assert (Hpos : (1 <= (acc_loop 10 (rest lex) 0 false).1)%nat).
  { rewrite Er. apply acc_loop_pos; [unfold is_dec_digit in Hc; zbool; lia|]. rewrite digit_value_10 by done. by eexists. }
  destruct (accumulate_digits lex _ _ _ 10) as [[v|err] l1]; cbn in H1, H2; apply (ahead_le 1) in H1; try done.
  - destruct (float_follows l1); [eapply scanned_le; [by eapply scanned_trans; [exact H1|apply scan_float_body_spec]|lia]|].
    apply (scanned_trans _ _ _ 1 0 _ l1); [done|apply int_token_spec].
  - destruct H2 as (cd & n & ->). by auto with lex.
Qed.

(** ** Identifiers *)

Lemma scan_ident_spec lex c s : rest lex = c :: s -> is_ident_start c = true -> scanned (l_cur lex) (l_line lex) (column lex) 1 lex (scan_ident lex).
Proof.
  intros Er Hc. unfold scan_ident. set (n := ident_run (rest lex)). assert (1 <= n <= length (rest lex))%nat.
  { split; [|apply run_le]. unfold n. rewrite Er. unfold ident_run. cbn. unfold is_ident_cont at 1. rewrite Hc. cbn. lia. }
  apply scanned_tok; [by eapply ahead_le; [apply ahead_adv|]; lia|]. unfold keyword_lookup.
  assert (forall tb w, Forall (fun x => x.2 <> TOK_EOF) tb -> keyword_find tb w <> TOK_EOF) as Hk.
  { induction tb as [|[nm ty] tb IH]; intros w Ht; cbn; [done|]. apply Forall_cons in Ht as [? ?]. case_decide; [done|]. by apply IH. }
  apply Hk. repeat constructor; done.
Qed.

Lemma scan_quoted_spec lex s : rest lex = 39 :: s -> scanned (l_cur lex) (l_line lex) (column lex) 1 lex (scan_quoted_ident lex).
Proof.
  intros Er. unfold scan_quoted_ident. set (l1 := adv 1 lex). assert (H1 : ahead 1 lex l1) by (apply ahead_adv; rewrite Er; cbn; lia).
  set (l2 := adv (quoted_run (rest l1)) l1). assert (H2 : ahead 1 lex l2) by (apply (ahead_trans 1 0 _ _ _ H1), ahead_run). cbn zeta. fold l1. fold l2.
  destruct (peek 0 39 l2) eqn:Ep; [|by auto with lex]. apply peek_lt in Ep.
  assert (H3 : ahead 1 lex (adv 1 l2)) by (eapply ahead_le; [apply (ahead_trans 1 1 _ _ _ H2), ahead_adv; lia|lia]).
  destruct (_ =? 0); by auto with lex.
Qed.
End Strtod.


(** ** Strings *)

Lemma hex_digits_le max : forall s cp, ((hex_digits max s cp).1 <= length s)%nat.
Proof.
  induction max as [|max IH]; intros s cp; cbn; [lia|]. destruct s as [|c s]; cbn; [lia|]. destruct (digit_value c 16) as [d|]; cbn; [|lia].
  pose proof (IH s (u32 (Z.lor (Z.shiftl cp 4) d))). destruct (hex_digits max s _). cbn in *. lia.
Qed.

Lemma validate_ahead lex s : rest lex = 117 :: s -> ahead 1 lex (validate_unicode_escape lex).2.
Proof.
  intros Er. unfold validate_unicode_escape. set (l1 := adv 1 lex). assert (H1 : ahead 1 lex l1) by (apply ahead_adv; rewrite Er; cbn; lia).
  assert (Hhex : forall max l, ahead 1 lex l -> ahead 1 lex (adv (hex_digits max (rest l) 0).1 l)).
  { intros max l H. apply (ahead_trans 1 0 _ _ _ H). eapply ahead_le; [apply ahead_adv, hex_digits_le|lia]. }
  assert (Hadv : forall l, ahead 1 lex l -> (0 < length (rest l))%nat -> ahead 1 lex (adv 1 l)).
  { intros l H Hl. eapply ahead_le; [apply (ahead_trans 1 1 _ _ _ H), ahead_adv; lia|lia]. }
  cbn zeta. fold l1. destruct (peek 0 123 l1) eqn:Ep.
  - apply peek_lt in Ep. pose proof (Hhex 6%nat (adv 1 l1) (Hadv l1 H1 Ep)) as H2. destruct (hex_digits 6 _ _) as [n cp]. cbn in H2.
    destruct (n =? 0)%nat; [done|]. destruct (peek 0 125 (adv n (adv 1 l1))) eqn:Eq; cbn [negb]; [|done]. apply peek_lt in Eq.
    pose proof (Hadv _ H2 Eq). destruct (1114111 <? cp); [done|]. by destruct (_ && _).
  - pose proof (Hhex 4%nat l1 H1) as H2. destruct (hex_digits 4 _ _) as [n cp]. cbn in H2. destruct (n <? 4)%nat; [done|]. by destruct (_ && _).
Qed.

Lemma ahead_new_line k n l l' : ahead n l l' -> ahead n l (new_line k l').
Proof. apply ahead_lines. Qed.

(** The body ends at its closing quote or at the end of the source. *)
Lemma string_body_spec fuel : forall lex start line col, (length (rest lex) <= fuel)%nat ->
  exists err lex', string_body fuel lex start line col = Some (err, lex') /\ ahead 0 lex lex' /\
    match err with
    | Some e => exists code len, e = make_error code line col len
    | None => rest lex' = [] \/ exists s, rest lex' = 34 :: s
    end.
Proof.
  induction fuel as [|fuel IH]; intros lex start line col Hf.
  { assert (rest lex = []) as E by (destruct (rest lex); [done|cbn in Hf; lia]). exists None, lex. cbn. rewrite E. split; [done|]. split; [apply ahead_refl|by left]. }
  cbn [string_body]. destruct (rest lex) as [|c s] eqn:Er; [exists None, lex; split; [done|]; split; [apply ahead_refl|by left]|]. cbn [length] in Hf.
  destruct (c =? 34) eqn:Ec; zbool; [subst c; exists None, lex; split; [done|]; split; [apply ahead_refl|by right; exists s]|].
  assert (Hgo : forall l1, ahead 1 lex l1 -> exists err lex', string_body fuel l1 start line col = Some (err, lex') /\ ahead 0 lex lex' /\
      match err with Some e => exists code len, e = make_error code line col len | None => rest lex' = [] \/ exists s, rest lex' = 34 :: s end).
  { intros l1 H1. pose proof (ahead_rest _ _ _ H1) as Hl. rewrite Er in Hl. cbn in Hl. destruct (IH l1 start line col ltac:(lia)) as (err & l2 & E & H2 & Herr).
    exists err, l2. split; [done|]. split; [|done]. eapply ahead_le; [by eapply ahead_trans|lia]. }
  assert (H1 : ahead 1 lex (adv 1 lex)) by (apply ahead_adv; rewrite Er; cbn; lia).
  destruct (c =? 92).
  - destruct (rest (adv 1 lex)) as [|d s'] eqn:Er'; [by apply Hgo|].
    assert (H2 : ahead 1 lex (adv 1 (adv 1 lex))) by (eapply ahead_le; [eapply (ahead_trans 1 1); [exact H1|apply ahead_adv; rewrite Er'; cbn; lia]|lia]).
    destruct (_ || (d =? 34)); [by apply Hgo|]. destruct (d =? 117) eqn:Ed; zbool.
    + subst d. pose proof (validate_ahead _ _ Er') as Hv. destruct (validate_unicode_escape (adv 1 lex)) as [uerr l2]. cbn [snd] in Hv.
      assert (Hv' : ahead 1 lex l2) by (eapply ahead_le; [exact (ahead_trans 1 1 _ _ _ H1 Hv)|lia]).
      destruct (decide (uerr = LEX_OK)); [by apply Hgo|]. eexists _, l2. split; [done|]. split; [by eapply ahead_le; [|lia]|]. by eexists _, _.
    + eexists _, _. split; [done|]. split; [by eapply ahead_le; [exact H2|lia]|]. by eexists _, _.
  - apply Hgo. destruct (c =? 10); [|done]. destruct H1 as (n & ? & ? & ? & ?). by exists n.
Qed.

Lemma lex_string_spec lex s : rest lex = 34 :: s -> zlen s < 2 ^ 31 - 2 ->
  exists r, lex_string lex (l_line lex) (column lex) = Some r /\ scanned (l_cur lex) (l_line lex) (column lex) 1 lex r.
Proof.
  intros Er Hsmall. unfold lex_string. set (l1 := adv 1 lex). assert (H1 : ahead 1 lex l1) by (apply ahead_adv; rewrite Er; cbn; lia).
  destruct (string_body_spec (length (rest l1)) l1 (l_cur l1) (l_line lex) (column lex) ltac:(lia)) as (err & l2 & -> & H2 & He). cbn [mbind option_bind].
  assert (H12 : ahead 1 lex l2) by apply (ahead_trans 1 0 _ _ _ H1 H2).
  destruct err as [err|]; [destruct He as (code & len & ->); eexists; by split; [|apply scanned_error]|].
  destruct He as [E|[s' E]]; rewrite E; [eexists; by split; [|apply scanned_error]|].
  eexists. split; [done|]. split; [|split; [done|]; split; [done|]; split; [done|]]; cbn.
  - eapply ahead_le; [apply (ahead_trans 1 1 _ _ _ H12), ahead_adv; rewrite E; cbn; lia|lia].
  - intros _. destruct H2 as (n & Hn & Hc & _). assert (Hl1 : length (rest l1) = length s) by (unfold l1; by rewrite rest_adv, Er).
    unfold zlen in Hsmall. unfold dist, off. cbn. rewrite Hc. cbn.
    replace (p_off (l_cur lex) + 1 + Z.of_nat n - (p_off (l_cur lex) + 1)) with (Z.of_nat n) by lia.
    replace (p_off (l_cur lex) + 1 + Z.of_nat n + 1 - p_off (l_cur lex)) with (Z.of_nat n + 2) by lia.
    f_equal. f_equal. unfold i32. rewrite u32_small by lia. zcase; lia.
Qed.

(** ** White space, comments and directives *)

Definition pool_ok (l : ULexer) : Prop := length (l_pool l) = 5%nat /\ 0 <= l_pool_idx l < 5.

Definition moves (k : nat) (l l' : ULexer) : Prop := exists n, (k <= n <= length (rest l))%nat /\ l_cur l' = p_adv n (l_cur l) /\ (pool_ok l -> pool_ok l').

Lemma ahead_moves k l l' : ahead k l l' -> moves k l l'.
Proof. intros (n & H1 & H2 & H3 & H4). exists n. split; [done|]. split; [done|]. unfold pool_ok. by rewrite H3, H4. Qed.

Lemma moves_trans j k l l' l'' : moves j l l' -> moves k l' l'' -> moves (j + k) l l''.
Proof.
  intros (n & Hn & E & P) (m & Hm & E' & P'). unfold rest in *. rewrite E in *. cbn in Hm. rewrite length_drop in Hm.
  exists (n + m)%nat. split; [unfold rest; lia|]. split; [|by auto]. rewrite E'. unfold p_adv. cbn. rewrite drop_drop. f_equal. lia.
Qed.

Lemma moves_le j k l l' : moves k l l' -> (j <= k)%nat -> moves j l l'.
Proof. intros (n & ? & ?) ?. exists n. split; [lia|done]. Qed.

Lemma moves_rest k l l' : moves k l l' -> (length (rest l') + k <= length (rest l))%nat.
Proof. intros (n & ? & E & _). unfold rest in *. rewrite E. cbn. rewrite length_drop. lia. Qed.

Lemma line_number_le s : forall n k v, line_number s n = Some (k, v) -> (k <= length s)%nat.
Proof.
  induction s as [|c s IH]; intros n k v; cbn; [intros [= <- <-]; lia|]. destruct (is_dec_digit c); [|intros [= <- <-]; lia].
  destruct (_ <? n); [done|]. destruct (line_number s _) as [[k' v']|] eqn:E; [|done]. cbn. intros [= <- <-]. apply IH in E. lia.
Qed.

Lemma to_line_end_le s : forall k, to_line_end s = Some k -> (k <= length s)%nat.
Proof.
  induction s as [|c s IH]; intros k; cbn; [intros [= <-]; lia|]. destruct (c =? 10); [intros [= <-]; lia|]. destruct (_ || _); [|done].
  destruct (to_line_end s); [|done]. cbn. intros [= <-]. specialize (IH _ eq_refl). lia.
Qed.

(** Only [ahead]'s view of the cursor survives a change of source. *)
Lemma set_source_moves k line src st l l' : moves k l l' -> moves k l (set_source line src st l').
Proof. intros (n & ? & ? & ?). by exists n. Qed.

Lemma syncline_spec l l' : pool_ok l -> try_parse_syncline l = Some l' -> moves 0 l l'.
Proof.
  intros Hok. unfold try_parse_syncline. destruct (peek 0 35 l) eqn:E0; cbn [negb]; [|done]. apply peek_lt in E0. set (l1 := adv 1 l).
  assert (H1 : ahead 0 l l1) by (eapply ahead_le; [apply ahead_adv|]; lia).
  set (l2 := adv (lower_run (rest l1)) l1). assert (H2 : ahead 0 l l2) by apply (ahead_trans 0 0 _ _ _ H1), ahead_run.
  set (l3 := adv (blank_run (rest l2)) l2). assert (H3 : ahead 0 l l3) by apply (ahead_trans 0 0 _ _ _ H2), ahead_run.
  assert (Hadv : forall n l', ahead 0 l l' -> (n <= length (rest l'))%nat -> ahead 0 l (adv n l')).
  { intros n l'' H Hn. eapply ahead_le; [by eapply ahead_trans; [exact H|apply ahead_adv]|lia]. }
  destruct (decide _) as [Hpop|Hpop].
  { destruct (to_line_end (rest l3)) as [n|] eqn:En; [|done]. cbn. intros [= <-]. apply to_line_end_le in En. pose proof (Hadv n l3 H3 En) as H.
    unfold pop_source. destruct (last _) as [[file line]|]; [apply set_source_moves|]; by apply ahead_moves. }
  destruct (_ && _); [done|]. destruct (negb _); [done|]. destruct (line_number (rest l3) 0) as [[k n]|] eqn:En; [|done]. cbn [mbind option_bind].
  apply line_number_le in En. set (l4 := adv k l3). assert (H4 : ahead 0 l l4) by by apply Hadv.
  set (l5 := adv (blank_run (rest l4)) l4). assert (H5 : ahead 0 l l5) by apply (ahead_trans 0 0 _ _ _ H4), ahead_run.
  destruct (peek 0 34 l5) eqn:E5; cbn [negb]; [|done]. apply peek_lt in E5. set (l6 := adv 1 l5). assert (H6 : ahead 0 l l6) by (apply Hadv; [done|lia]).
  set (l7 := adv (file_run (rest l6)) l6). assert (H7 : ahead 0 l l7) by apply (ahead_trans 0 0 _ _ _ H6), ahead_run.
  destruct (peek 0 34 l7) eqn:E7; cbn [negb]; [|done]. apply peek_lt in E7. set (l8 := adv 1 l7). assert (H8 : ahead 0 l l8) by (apply Hadv; [done|lia]).
  destruct (to_line_end (rest l8)) as [k'|] eqn:Ek; [|done]. cbn [mbind option_bind]. apply to_line_end_le in Ek. set (l9 := adv k' l8).
  assert (H9 : ahead 0 l l9) by by apply Hadv. set (file := take (Z.to_nat _) _). destruct (store _ _ file) as [pool|] eqn:Es; [|done]. cbn [mbind option_bind].
  intros [= <-]. apply set_source_moves. destruct H9 as (m & Hm & Hc & Hp & Hi). exists m. split; [done|]. split; [done|]. intros [Ho1 Ho2].
  split; cbn [l_pool l_pool_idx set_pool].
  - unfold store in Es. destruct (_ && _) in Es; [|done]. injection Es as <-. rewrite length_insert. congruence.
  - unfold URBI_SYNCLINE_STACK_MAX, u8. change (4 + 1) with 5. pose proof (Z.mod_pos_bound (l_pool_idx l + 1) 5 ltac:(lia)). change (l_pool_idx l9) with (l_pool_idx l). rewrite Z.mod_small; lia.
Qed.


Lemma block_comment_spec s : forall l, rest l = s -> let (closed, l') := block_comment s l in ahead 0 l l' /\ (closed = true -> ahead 2 l l').
Proof.
  induction s as [|a s IH]; intros l Er; cbn; [by split; [apply ahead_refl|]|]. destruct s as [|b s]; [by split; [apply ahead_refl|]|].
  destruct (_ && _).
  { assert (H : ahead 2 l (adv 2 l)) by (apply ahead_adv; rewrite Er; cbn; lia). split; [by eapply ahead_le; [|lia]|done]. }
  set (l1 := adv 1 (if a =? 10 then new_line 1 l else l)).
  assert (H1 : ahead 1 l l1) by (exists 1%nat; rewrite Er; split; [cbn; lia|]; unfold l1; by destruct (a =? 10)).
  assert (Hr : rest l1 = b :: s) by (unfold l1; destruct (a =? 10); cbn; unfold rest in *; cbn; by rewrite Er).
  specialize (IH l1 Hr). cbn zeta in *. fold l1. destruct (block_comment (b :: s) l1) as [closed l2]. destruct IH as [H2 H3].
  split; [eapply ahead_le; [apply (ahead_trans 1 0 _ _ _ H1 H2)|lia]|]. intros Hc. eapply ahead_le; [apply (ahead_trans 1 2 _ _ _ H1), H3, Hc|lia].
Qed.

(** What [skip_trivia] leaves: the start of a token or the end, or an
    unterminated comment that takes the rest of the source. *)
Lemma skip_trivia_spec fuel : forall l, pool_ok l -> (length (rest l) <= fuel)%nat ->
  exists tr l', skip_trivia fuel l = Some (tr, l') /\ moves 0 l l' /\
    (tr_code tr = LEX_OK \/ tr_code tr = LEX_UNTERMINATED_BLOCK_COMMENT /\ rest l' = [] /\ moves 2 l l').
Proof.
  induction fuel as [|fuel IH]; intros l Hok Hf.
  { assert (rest l = []) as E by (destruct (rest l); [done|cbn in Hf; lia]). eexists _, l. cbn. rewrite E. split; [done|]. split; [apply ahead_moves, ahead_refl|by left]. }
  assert (Hstop : exists tr l', Some (MkTrivia LEX_OK 1 1 2, l) = Some (tr, l') /\ moves 0 l l' /\
      (tr_code tr = LEX_OK \/ tr_code tr = LEX_UNTERMINATED_BLOCK_COMMENT /\ rest l' = [] /\ moves 2 l l')).
  { eexists _, l. split; [done|]. split; [apply ahead_moves, ahead_refl|by left]. }
  cbn [skip_trivia]. destruct (rest l) as [|c s] eqn:Er; [done|].
  assert (Hgo : forall l1, moves 1 l l1 -> exists tr l', skip_trivia fuel l1 = Some (tr, l') /\ moves 0 l l' /\
      (tr_code tr = LEX_OK \/ tr_code tr = LEX_UNTERMINATED_BLOCK_COMMENT /\ rest l' = [] /\ moves 2 l l')).
  { intros l1 H1. pose proof (moves_rest _ _ _ H1) as Hl. rewrite Er in Hl. cbn in Hl, Hf. assert (Hok1 : pool_ok l1) by (destruct H1 as (? & ? & ? & ?); auto).
    destruct (IH l1 Hok1 ltac:(lia)) as (tr & l2 & E & H2 & Hc). exists tr, l2. split; [done|]. split; [eapply moves_le; [by eapply moves_trans|lia]|].
    destruct Hc as [?|(? & ? & H3)]; [by left|right]. split; [done|]. split; [done|]. eapply moves_le; [by eapply moves_trans|lia]. }
  assert (H1 : ahead 1 l (adv 1 l)) by (apply ahead_adv; rewrite Er; cbn; lia).
  assert (H2 : forall k, peek 1 k l = true -> ahead 2 l (adv 2 l)) by (intros k Hk%peek_lt; apply ahead_adv; lia).
  destruct (_ || _); [by apply Hgo, ahead_moves|]. destruct (c =? 10); [by apply Hgo, ahead_moves, ahead_new_line|].
  destruct (c =? 13).
  { destruct (peek 1 10 l) eqn:Ep; [|done]. apply Hgo, ahead_moves, ahead_new_line. eapply ahead_le; [by apply (H2 10)|lia]. }
  destruct ((c =? 47) && peek 1 47 l) eqn:E1.
  { apply andb_prop in E1 as [_ E1]. pose proof (H2 _ E1) as Ha. set (l1 := adv 2 l) in *. set (l2 := if peek 0 35 l1 then default l1 (try_parse_syncline l1) else l1).
    assert (Hm : moves 1 l l2).
    { assert (Hm1 : moves 2 l l1) by by apply ahead_moves. unfold l2. destruct (peek 0 35 l1); [|by eapply moves_le; [exact Hm1|lia]].
      destruct (try_parse_syncline l1) as [l3|] eqn:Es; cbn; [|by eapply moves_le; [exact Hm1|lia]]. apply syncline_spec in Es; [|by destruct Hm1 as (? & ? & ? & ?); auto].
      eapply moves_le; [by eapply moves_trans|lia]. }
    apply Hgo. apply (moves_trans 1 0 _ _ _ Hm). apply ahead_moves, ahead_run. }
  destruct ((c =? 47) && peek 1 42 l) eqn:E2; [|done]. apply andb_prop in E2 as [_ E2]. pose proof (H2 _ E2) as Ha. set (l1 := adv 2 l) in *. cbn zeta.
  pose proof (block_comment_spec (rest l1) l1 eq_refl) as Hb. destruct (block_comment (rest l1) l1) as [closed l2]. destruct Hb as [Hb _].
  assert (Hm : ahead 2 l l2) by apply (ahead_trans 2 0 _ _ _ Ha Hb). destruct closed; [apply Hgo, ahead_moves; eapply ahead_le; [exact Hm|lia]|].
  assert (Hend : ahead 2 l (adv (length (rest l2)) l2)) by (apply (ahead_trans 2 0 _ _ _ Hm); eapply ahead_le; [by apply ahead_adv|lia]).
  eexists _, _. split; [done|]. split; [eapply moves_le; [apply ahead_moves, Hend|lia]|]. right. split; [done|]. split; [|by apply ahead_moves].
  rewrite rest_adv. by apply drop_ge.
Qed.

(** ** The next token *)

Lemma make_tok_scanned lex ty n : ty <> TOK_EOF -> (1 <= n <= length (rest lex))%nat -> Z.of_nat n < 2 ^ 31 ->
  scanned (l_cur lex) (l_line lex) (column lex) 1 lex (make_tok lex ty (Z.of_nat n), adv n lex).
Proof.
  intros Hty Hn Hs. split; [by eapply ahead_le; [apply ahead_adv|]; lia|]. split; [done|]. split; [done|]. split; [done|]. intros _. cbn.
  unfold dist, off, i32. cbn. replace (p_off (l_cur lex) + Z.of_nat n - p_off (l_cur lex)) with (Z.of_nat n) by lia. rewrite u32_small by lia. zcase; lia.
Qed.

Lemma operator_spec lex c s ty n : rest lex = c :: s -> operator lex c = Some (ty, n) -> ty <> TOK_EOF /\ (1 <= n <= 2)%nat /\ (n <= length (rest lex))%nat.
Proof.
  intros Er. pose proof (fun k => peek_lt 1 k lex) as Hp. assert (Hl : (1 <= length (rest lex))%nat) by (rewrite Er; cbn; lia). unfold operator.
  repeat match goal with |- (if ?b then _ else _) = _ -> _ => destruct b end; try done;
    repeat match goal with |- context [if peek 1 ?k lex then _ else _] => destruct (peek 1 k lex) eqn:? end; intros [= <- <-];
    (split; [done|split; [lia|]]); try lia; by eapply Nat.le_trans; [|eapply Hp]; [lia|].
Qed.

Lemma next_token_spec strtod l1 c s : rest l1 = c :: s -> zlen (rest l1) < 2 ^ 31 - 1 ->
  exists r, next_token strtod l1 c = Some r /\ scanned (l_cur l1) (l_line l1) (column l1) 1 l1 r.
Proof.
  intros Er Hs1. unfold next_token.
  destruct (c =? 34) eqn:E1; zbool; [subst c; rewrite Er, zlen_cons in Hs1; apply (lex_string_spec _ s); [done|lia]|].
  destruct (c =? 39) eqn:E2; zbool; [subst c; eexists; by split; [|eapply scan_quoted_spec]|].
  destruct ((c =? 46) && _) eqn:E3.
  { apply andb_prop in E3 as [E3 _]. zbool. subst c. eexists. split; [done|]. pose proof (scan_float_body_spec strtod l1 (l_cur l1) (l_line l1) (column l1)) as H. assert (Hp : peek 0 46 l1 = true) by (unfold peek; by rewrite Er). rewrite Hp in H. exact H. }
  assert (H1 : (1 <= length (rest l1))%nat) by (rewrite Er; cbn; lia).
  destruct (kPunctTable c) as [pt|] eqn:Ek.
  { eexists. split; [done|]. apply (make_tok_scanned l1 pt 1); [|lia|lia]. clear -Ek. unfold kPunctTable in Ek.
    repeat match type of Ek with (if ?b then _ else _) = _ => destruct b; [by injection Ek as <-|] end. done. }
  destruct (operator l1 c) as [[ty n]|] eqn:Eo.
  { destruct (operator_spec _ _ _ _ _ Er Eo) as (? & ? & ?). eexists. split; [done|]. apply make_tok_scanned; [done|lia|lia]. }
  destruct (is_dec_digit c) eqn:E4; [eexists; by split; [|eapply scan_number_spec]|]. destruct (is_ident_start c) eqn:E5; [eexists; by split; [|eapply scan_ident_spec]|].
  eexists. split; [done|]. apply scanned_error. apply ahead_adv. lia.
Qed.

Lemma next_spec strtod lex : pool_ok lex -> zlen (rest lex) < 2 ^ 31 - 1 ->
  exists t l1 lex', ulex_next strtod lex = Some (t, lex') /\ moves 0 lex l1 /\
    (t_type t = TOK_EOF /\ rest l1 = [] /\ lex' = l1 /\ t_line t = l_line l1 /\ t_col t = column l1 \/
     t_type t = TOK_ERROR /\ t_u t = PErr LEX_UNTERMINATED_BLOCK_COMMENT /\ moves 2 lex lex' /\ rest lex' = [] /\ l1 = lex' \/
     rest l1 <> [] /\ scanned (l_cur l1) (l_line l1) (column l1) 1 l1 (t, lex')).
Proof.
  intros Hok Hsmall. unfold ulex_next. destruct (skip_trivia_spec (length (rest lex)) lex Hok ltac:(lia)) as (tr & l1 & -> & Hm & Hc). cbn [mbind option_bind].
  destruct Hc as [Hc|(Hc & He & H2)]; rewrite Hc.
  2:{ eexists _, l1, l1. split; [done|]. split; [done|]. right; left. by cbn. }
  rewrite bool_decide_true by done. cbn [negb]. destruct (rest l1) as [|c s] eqn:Er.
  { eexists _, l1, l1. split; [done|]. split; [done|]. by left. }
  assert (Hs1 : zlen (rest l1) < 2 ^ 31 - 1) by (pose proof (moves_rest _ _ _ Hm); unfold zlen in *; lia).
  destruct (next_token_spec strtod l1 c s Er Hs1) as ([t lex'] & -> & Hs). exists t, l1, lex'. split; [done|]. split; [done|]. right; right. split; [by rewrite Er|done].
Qed.


(** ** The whole source *)

Lemma moves_ok k l l' : moves k l l' -> pool_ok l -> pool_ok l'.
Proof. intros (? & ? & ? & ?). auto. Qed.

Lemma i32_small x : 0 <= x < 2 ^ 31 -> i32 x = x.
Proof. intros. unfold i32. rewrite u32_small by lia. zcase; lia. Qed.

(** A token that is no error spans at least one byte, and what it consumed. *)
Lemma scanned_span k l t l' : scanned (l_cur l) (l_line l) (column l) k l (t, l') -> zlen (rest l) < 2 ^ 31 -> t_type t <> TOK_ERROR ->
  t_len t = zlen (rest l) - zlen (rest l') /\ Z.of_nat k <= t_len t.
Proof.
  intros ((n & Hn & E & _) & _ & _ & _ & Hl) Hs Ht. cbn in *. rewrite Hl by done. unfold dist, off. rewrite E. cbn. unfold zlen in *.
  replace (p_off (l_cur l) + Z.of_nat n - p_off (l_cur l)) with (Z.of_nat n) by lia. rewrite i32_small by lia.
  assert (Hr : rest l' = drop n (rest l)) by (unfold rest; by rewrite E). rewrite Hr, length_drop. lia.
Qed.

(** The calls from [l] to the end of the source.  Each call but the last takes
    some trivia [gap], then a text that is not empty; a token that is no error
    spans exactly that text, and the next call goes on right behind it. *)
Inductive token_run (strtod : bytes -> spec_float) : ULexer -> list UToken -> Prop :=
| run_eof l e l' : ulex_next strtod l = Some (e, l') -> t_type e = TOK_EOF -> rest l' = [] -> token_run strtod l [e]
| run_token l t l' gap text ts : ulex_next strtod l = Some (t, l') -> t_type t <> TOK_EOF ->
    rest l = gap ++ text ++ rest l' -> off l' = off l + zlen gap + zlen text -> text <> [] -> (t_type t <> TOK_ERROR -> t_len t = zlen text) ->
    token_run strtod l' ts -> token_run strtod l (t :: ts).

Lemma moves_split k l l' : moves k l l' -> exists text, rest l = text ++ rest l' /\ off l' = off l + zlen text /\ (k <= length text)%nat.
Proof.
  intros (n & Hn & E & _). exists (take n (rest l)). assert (Hr : rest l' = drop n (rest l)) by (unfold rest; by rewrite E). rewrite Hr, take_drop.
  split; [done|]. unfold zlen, off. rewrite E, length_take_le by lia. split; [done|lia].
Qed.

(** One call, and what it takes. *)
Lemma next_takes strtod lex : pool_ok lex -> zlen (rest lex) < 2 ^ 31 - 1 -> exists t lex', ulex_next strtod lex = Some (t, lex') /\
  (t_type t = TOK_EOF /\ rest lex' = [] \/
   t_type t <> TOK_EOF /\ moves 1 lex lex' /\ exists gap text, rest lex = gap ++ text ++ rest lex' /\ off lex' = off lex + zlen gap + zlen text /\
     text <> [] /\ (t_type t <> TOK_ERROR -> t_len t = zlen text)).
Proof.
  intros Hok Hs. destruct (next_spec strtod lex Hok Hs) as (t & l1 & lex' & -> & Hm & Hc). exists t, lex'. split; [done|].
  destruct Hc as [(Ht & Hr & -> & _)|[(Ht & _ & H2 & Hr & _)|(Hne & Hsc)]]; [by left|right|right].
  - split; [congruence|]. split; [eapply moves_le; [exact H2|lia]|]. destruct (moves_split _ _ _ H2) as (x & E & Eo & Hx). exists [], x.
    change (zlen (@nil Z)) with 0. split; [done|]. split; [lia|]. split; [by intros ->; cbn in Hx; lia|congruence].
  - pose proof Hsc as (Ha & Hty & _). cbn in Ha, Hty. apply ahead_moves in Ha. pose proof (moves_rest _ _ _ Hm).
    split; [done|]. split; [exact (moves_trans 0 1 _ _ _ Hm Ha)|]. destruct (moves_split _ _ _ Hm) as (g & E & Eo & _). destruct (moves_split _ _ _ Ha) as (x & E' & Eo' & Hx).
    exists g, x. rewrite <- E', <- E. split; [done|]. split; [lia|]. split; [by intros ->; cbn in Hx; lia|]. intros He.
    destruct (scanned_span _ _ _ _ Hsc) as [-> _]; [unfold zlen in *; lia|done|]. rewrite E', zlen_app. lia.
Qed.

Lemma ulex_all_spec strtod fuel : forall lex, pool_ok lex -> zlen (rest lex) < 2 ^ 31 - 1 -> (length (rest lex) < fuel)%nat ->
  exists ts e, ulex_all strtod fuel lex = Some (ts ++ [e]) /\ t_type e = TOK_EOF /\ zlen ts <= zlen (rest lex) /\ token_run strtod lex (ts ++ [e]).
Proof.
  induction fuel as [|fuel IH]; intros lex Hok Hs Hf; [lia|]. cbn [ulex_all].
  destruct (next_takes strtod lex Hok Hs) as (t & lex' & E & Hc). rewrite E. cbn [mbind option_bind].
  destruct Hc as [(Ht & Hr)|(Ht & Hm & gap & text & Er & Eo & Hne & Hl)].
  { rewrite decide_True by done. exists [], t. split_and!; [done|done|apply zlen_nonneg|]. by eapply run_eof. }
  rewrite decide_False by done. pose proof (moves_rest _ _ _ Hm).
  destruct (IH lex' (moves_ok _ _ _ Hm Hok)) as (ts & e & -> & He & Hz & Hrun); [unfold zlen in *; lia|lia|].
  exists (t :: ts), e. split_and!; [done|done|rewrite zlen_cons; unfold zlen in *; lia|]. by eapply run_token.
Qed.

(** ** Decimal literals *)

Definition dec_value (v : Z) (ds : bytes) : Z := fold_left (fun v c => v * 10 + (c - 48)) ds v.

Lemma is_dec_digit_range c : is_dec_digit c = true -> 48 <= c <= 57.
Proof. unfold is_dec_digit. intros. zbool. lia. Qed.

Lemma dec_value_le ds : forall v, 0 <= v -> Forall (fun c => is_dec_digit c = true) ds -> v <= dec_value v ds.
Proof.
  induction ds as [|c ds IH]; intros v Hv Hd; [cbn; lia|]. apply Forall_cons in Hd as [Hc Hd]. apply is_dec_digit_range in Hc. cbn.
  pose proof (IH (v * 10 + (c - 48)) ltac:(lia) Hd) as H. unfold dec_value in H. lia.
Qed.

(** Nothing that could continue a number. *)
Definition ends_number (t : bytes) : Prop := match t with [] => True | c :: _ => is_ident_cont c = false /\ c <> 46 end.

Lemma ends_number_head t c s : ends_number t -> t = c :: s -> is_dec_digit c = false /\ is_alpha c = false /\ c <> 95 /\ c <> 46.
Proof.
  intros H ->. destruct H as [H ?]. unfold is_ident_cont, is_ident_start in H. apply orb_false_elim in H as [H ?]. apply orb_false_elim in H as [H H']. zbool. done.
Qed.

Lemma not_digit_value c base : is_dec_digit c = false -> is_alpha c = false -> digit_value c base = None.
Proof.
  intros H1 H2. unfold digit_value. rewrite H1. unfold is_alpha in H2. apply orb_false_elim in H2 as [H2 H3].
  replace ((97 <=? c) && (c <=? 102)) with false; [replace ((65 <=? c) && (c <=? 70)) with false; [done|]|]; symmetry; apply andb_false_iff;
    [apply andb_false_iff in H3|apply andb_false_iff in H2]; rewrite !Z.leb_gt in *; lia.
Qed.

Lemma digit_run_spec ds t : Forall (fun c => is_dec_digit c = true) ds -> ends_number t -> digit_run 10 (ds ++ t) = length ds.
Proof.
  intros Hd Ht. unfold digit_run. induction ds as [|c ds IH]; cbn.
  - destruct t as [|c t]; [done|]. destruct (ends_number_head _ c t Ht eq_refl) as (H1 & H2 & H3 & _). cbn. rewrite not_digit_value by done.
    rewrite bool_decide_false by (by intros [? ?]). cbn. destruct (c =? 95) eqn:E; zbool; done.
  - apply Forall_cons in Hd as [Hc Hd]. rewrite digit_value_10 by done. rewrite bool_decide_true by by eexists. cbn. f_equal. by apply IH.
Qed.

Lemma acc_digit_spec v d : 0 <= v -> 0 <= d <= 9 -> acc_digit v d 10 = if v * 10 + d <=? INT64_MAX then Some (v * 10 + d) else None.
Proof.
  intros Hv Hd. unfold acc_digit, INT64_MAX. destruct (v * 10 + d <=? 2 ^ 63 - 1) eqn:E; zbool; zcase; try done; exfalso.
  - assert (v <= (2 ^ 63 - 1 - d) / 10) by (apply Z.div_le_lower_bound; lia). lia.
  - assert ((2 ^ 63 - 1 - d) / 10 < v) by (apply Z.div_lt_upper_bound; lia). lia.
Qed.

Lemma acc_loop_decimal ds t : ends_number t -> forall v, 0 <= v -> Forall (fun c => is_dec_digit c = true) ds ->
  acc_loop 10 (ds ++ t) v false = (length ds, if dec_value v ds <=? INT64_MAX then AccOk (dec_value v ds) else if v <=? INT64_MAX then AccErr LEX_INT_OVERFLOW 0 else AccOk v) \/ INT64_MAX < v.
Proof.
  intros Ht. induction ds as [|c ds IH]; intros v Hv Hd.
  { destruct (decide (INT64_MAX < v)); [by right|left]. cbn [app length dec_value fold_left]. replace (v <=? INT64_MAX) with true by (symmetry; apply Z.leb_le; lia).
    destruct t as [|c t]; [done|]. destruct (ends_number_head _ c t Ht eq_refl) as (H1 & H2 & H3 & _). cbn [acc_loop]. destruct (c =? 95) eqn:E; zbool; [done|].
    by rewrite not_digit_value. }
  apply Forall_cons in Hd as [Hc Hd]. pose proof (is_dec_digit_range c Hc) as Hr. destruct (decide (INT64_MAX < v)); [by right|left].
  cbn [acc_loop app]. destruct (c =? 95) eqn:E; zbool; [lia|]. rewrite digit_value_10 by done. rewrite acc_digit_spec by lia.
  replace (v <=? INT64_MAX) with true by (symmetry; apply Z.leb_le; lia). change (dec_value v (c :: ds)) with (dec_value (v * 10 + (c - 48)) ds).
  pose proof (dec_value_le ds (v * 10 + (c - 48)) ltac:(lia) Hd) as Hle. destruct (v * 10 + (c - 48) <=? INT64_MAX) eqn:El; zbool.
  - destruct (IH (v * 10 + (c - 48)) ltac:(lia) Hd) as [->|?]; [|lia]. cbn [length]. zcase; [done|]. by replace (v * 10 + (c - 48) <=? INT64_MAX) with true by (symmetry; apply Z.leb_le; lia).
  - change (c :: ds ++ t) with ((c :: ds) ++ t). rewrite digit_run_spec by (done || by constructor).
    replace (dec_value (v * 10 + (c - 48)) ds <=? INT64_MAX) with false by (symmetry; apply Z.leb_gt; lia). done.
Qed.

Lemma no_suffix {A} (table : list (bytes * A)) t : ends_number t -> Forall (fun x => match x.1 with c :: _ => is_alpha c = true | [] => False end) table -> find_suffix table t = None.
Proof.
  intros Ht. induction table as [|[[|c w] a] table IH]; intros H; cbn [find_suffix]; [done|by apply Forall_cons in H as [[] _]|].
  apply Forall_cons in H as [Hc H]. cbn in Hc. rewrite bool_decide_false; [by apply IH|]. destruct t as [|d t]; cbn; [done|]. intros [= -> _].
  destruct (ends_number_head _ _ _ Ht eq_refl) as (_ & ? & _). congruence.
Qed.


Lemma scan_decimal strtod lex ds t : rest lex = ds ++ t -> ds <> [] -> Forall (fun c => is_dec_digit c = true) ds -> ends_number t ->
  (head ds <> Some 48 \/ ds = [48]) -> zlen (rest lex) < 2 ^ 31 ->
  scan_number strtod lex =
    if dec_value 0 ds <=? INT64_MAX then (MkTok TOK_INT (l_line lex) (column lex) (zlen ds) (PInt (dec_value 0 ds)), adv (length ds) lex)
    else (make_error LEX_INT_OVERFLOW (l_line lex) (column lex) (zlen ds), adv (length ds) lex).
Proof.
  intros Er Hne Hd Ht Hz Hs. unfold scan_number.
  assert (dispatch_radix_prefix lex (l_cur lex) (l_line lex) (column lex) = None) as ->.
  { unfold dispatch_radix_prefix, peek. rewrite Er. destruct ds as [|c ds]; [done|]. cbn. destruct (c =? 48) eqn:E; zbool; [|done]. cbn. subst c.
    destruct Hz as [?|[= ->]]; [done|]. cbn. destruct t as [|d t]; [done|]. cbn. destruct (ends_number_head _ _ _ Ht eq_refl) as (H1 & H2 & H3 & _).
    assert (forall x, is_alpha x = true -> (d =? x) = false) as Hx by (intros x Hx; apply Z.eqb_neq; intros ->; congruence).
    rewrite !Hx by done. rewrite H1. cbn. by destruct (d =? 95) eqn:E; zbool. }
  unfold accumulate_digits. rewrite Er. destruct (acc_loop_decimal ds t Ht 0 ltac:(lia) Hd) as [->|?]; [|unfold INT64_MAX in *; lia].
  change (0 <=? INT64_MAX) with true. cbv iota. set (l1 := adv (length ds) lex).
  assert (Hr1 : rest l1 = t) by (unfold l1; rewrite rest_adv, Er; apply drop_app_length).
  assert (Hdist : dist l1 (l_cur lex) = zlen ds).
  { unfold dist, off, l1. cbn. replace (_ - _) with (zlen ds) by (unfold zlen; lia). rewrite Er, zlen_app in Hs. pose proof (zlen_nonneg t). pose proof (zlen_nonneg ds). apply i32_small. lia. }
  destruct (dec_value 0 ds <=? INT64_MAX).
  - assert (float_follows l1 = false) as ->.
    { unfold float_follows. rewrite Hr1. destruct t as [|c t]; [done|]. destruct (ends_number_head _ _ _ Ht eq_refl) as (_ & H2 & _ & H4).
      assert ((c =? 101) || (c =? 69) = false) as Hx by (apply orb_false_iff; split; apply Z.eqb_neq; intros ->; discriminate H2).
      destruct (decide (c = 46)); [done|]. clear -Hx n. destruct c as [|p|]; try done. repeat (destruct p; try done). }
    unfold int_token, apply_duration_suffix, apply_angle_suffix. rewrite Hr1, no_suffix by (done || by repeat constructor). rewrite Hr1, no_suffix by (done || by repeat constructor).
    by rewrite Hdist.
  - rewrite Hdist, Z.add_0_r. rewrite i32_small; [done|]. rewrite Er, zlen_app in Hs. pose proof (zlen_nonneg t). pose proof (zlen_nonneg ds). lia.
Qed.

(** Nothing to skip before a digit. *)
Lemma digit_no_trivia lex c s fuel : rest lex = c :: s -> is_dec_digit c = true -> skip_trivia (S fuel) lex = Some (MkTrivia LEX_OK 1 1 2, lex).
Proof.
  intros Er Hc%is_dec_digit_range. cbn [skip_trivia]. rewrite Er. assert (forall x, x < 48 -> (c =? x) = false) as Hx by (intros; apply Z.eqb_neq; lia).
  by rewrite !Hx by lia.
Qed.

(** ** The claims *)



(** A decimal literal has the value it spells.  A run of digits with no
    superfluous leading zero, followed by nothing that continues a number,
    lexes to exactly those bytes: TOK_INT with their value if that fits 63
    bits, and the error LEX_INT_OVERFLOW if and only if it does not. *)
Theorem decimal_literals strtod lex ds t : rest lex = ds ++ t -> ds <> [] -> Forall (fun c => is_dec_digit c = true) ds -> ends_number t ->
  head ds <> Some 48 \/ ds = [48] -> zlen (rest lex) < 2 ^ 31 ->
  ulex_next strtod lex = Some
    (if dec_value 0 ds <=? INT64_MAX then MkTok TOK_INT (l_line lex) (column lex) (zlen ds) (PInt (dec_value 0 ds))
     else make_error LEX_INT_OVERFLOW (l_line lex) (column lex) (zlen ds), adv (length ds) lex).
Proof.
  intros Er Hne Hd Ht Hz Hs. destruct ds as [|c ds]; [done|]. pose proof Hd as [Hc _]%Forall_cons. pose proof (is_dec_digit_range c Hc) as Hr.
  unfold ulex_next. rewrite Er at 1. cbn [app length]. rewrite (digit_no_trivia lex c (ds ++ t)) by done. cbn [mbind option_bind tr_code].
  rewrite bool_decide_true by done. cbn [negb]. rewrite Er at 1. cbn [app]. unfold next_token.
  assert (forall x, (x < 48 \/ 57 < x) -> (c =? x) = false) as Hx by (intros; apply Z.eqb_neq; lia).
  unfold kPunctTable, operator. rewrite !Hx by lia. cbn [andb]. rewrite Hc. rewrite (scan_decimal strtod lex (c :: ds) t) by done. by destruct (_ <=? _).
Qed.

(** 9223372036854775807 is the last that fits. *)
Example decimal_literals_witness : let src := [57; 50; 50; 51; 51; 55; 50; 48; 51; 54; 56; 53; 52; 55; 55; 53; 56; 48; 56; 59] in
  ulex_next (fun _ => S754_zero false) (ulex_init src) = Some (make_error LEX_INT_OVERFLOW 1 1 19, adv 19 (ulex_init src)).
Proof.
  apply (decimal_literals (fun _ => S754_zero false) (ulex_init [57; 50; 50; 51; 51; 55; 50; 48; 51; 54; 56; 53; 52; 55; 55; 53; 56; 48; 56; 59])
    [57; 50; 50; 51; 51; 55; 50; 48; 51; 54; 56; 53; 52; 55; 55; 53; 56; 48; 56] [59]); try done; [by repeat constructor|by left].
Defined.

(** A name that a [//#push] saved is overwritten once five more names were
    announced: after the [//#pop] the current source reads as the last of them. *)
Example popped_source_is_stale :
  let dir (s : string) := lit s ++ [10] in
  let src := dir "//#line 1 'a'"%string ++ dir "//#push 1 'b'"%string ++ dir "//#line 1 'c'"%string ++ dir "//#line 1 'd'"%string ++ dir "//#line 1 'e'"%string ++ dir "//#line 1 'f'"%string ++ dir "//#pop"%string in
  (r ← skip_trivia 200 (ulex_init src); ulex_current_source r.2) = Some (lit "f"%string).
Proof. vm_compute. reflexivity. Qed.

End LexFacts.
