(* ===== verification/ParseStr.v ===== *)
(** * String literals, from the lexer to their bytes (src/src/parse/uparse_expr.c, uparse.c)

    The parser's token queue over the lexer, and the resolution of escapes
    that turns a run of adjacent TOK_STRING tokens into bytes.  A buffer of the
    arena is a zeroed list of its capacity, a store past it a fault; [grants]
    answers the arena's allocations in order.  The making of the syntax node
    from the buffer is left out. *)
From Stdlib Require Import Ascii String SpecFloat.
From S2P Require Import Prelude Text Lex LexFacts.
Import Lex LexFacts.

Module ParseStr.

(** ** The token queue *)

Record UParser := MkParser { p_lex : ULexer; p_peek : option UToken; p_peek2 : option UToken; p_calls : nat }.

Section Parser.
Context (strtod : bytes -> spec_float) (grants : nat -> bool).

Definition urbi_parse_peek (p : UParser) : option (UToken * UParser) :=
  match p_peek p with
  | Some t => Some (t, p)
  | None => '(t, lex) ← ulex_next strtod (p_lex p); Some (t, MkParser lex (Some t) (p_peek2 p) (p_calls p))
  end.

Definition urbi_parse_peek2 (p : UParser) : option (UToken * UParser) :=
  '(_, p) ← urbi_parse_peek p;
  match p_peek2 p with
  | Some t => Some (t, p)
  | None => '(t, lex) ← ulex_next strtod (p_lex p); Some (t, MkParser lex (p_peek p) (Some t) (p_calls p))
  end.

Definition urbi_parse_consume (p : UParser) : option (UToken * UParser) :=
  '(t, p) ← urbi_parse_peek p; Some (t, MkParser (p_lex p) (p_peek2 p) None (p_calls p)).

(** ** Escapes *)

Definition hex_digit_unchecked (c : Z) : Z :=
  if (48 <=? c) && (c <=? 57) then c - 48 else if (97 <=? c) && (c <=? 102) then c - 97 + 10 else c - 65 + 10.

Definition add_hex (cp c : Z) : Z := u32 (Z.lor (Z.shiftl cp 4) (u32 (hex_digit_unchecked c))).

(** Up to the closing brace, which is skipped. *)
Fixpoint brace_hex (s : bytes) (cp : Z) : Z * bytes :=
  match s with c :: s => if c =? 125 then (cp, s) else brace_hex s (add_hex cp c) | [] => (cp, []) end.

Fixpoint some_hex (n : nat) (s : bytes) (cp : Z) : Z * bytes :=
  match n, s with S n, c :: s => some_hex n s (add_hex cp c) | _, _ => (cp, s) end.

Definition code_point (s : bytes) : Z * bytes :=
  match s with
  | c :: s' => if c =? 123 then brace_hex s' 0 else some_hex 4 s 0
  | [] => (0, [])
  end.

(** [buf[len++] = ch], one byte after another. *)
Fixpoint put_all (bs : bytes) (buf : bytes) (len : Z) : option (bytes * Z) :=
  match bs with b :: bs => buf ← store buf len b; put_all bs buf (len + 1) | [] => Some (buf, len) end.

Definition simple_escape (e : Z) : Z := if e =? 110 then 10 else if e =? 116 then 9 else e.

(** The source bytes of one token; [None] is a fault, or a loop that does not end. *)
Fixpoint resolve (fuel : nat) (s : bytes) (buf : bytes) (len : Z) : option (bytes * Z) :=
  match s with
  | [] => Some (buf, len)
  | c :: s =>
      match fuel with
      | O => None
      | S fuel =>
          if c =? 92 then
            match s with
            | [] => Some (buf, len)
            | e :: s =>
                if e =? 117 then
                  let (cp, s) := code_point s in
                  '(buf, len) ← put_all (urbi_encode_utf8 cp) buf len; resolve fuel s buf len
                else '(buf, len) ← put_all [simple_escape e] buf len; resolve fuel s buf len
            end
          else '(buf, len) ← put_all [c] buf len; resolve fuel s buf len
      end
  end.

(** What a TOK_STRING token spells, as source bytes. *)
Definition body_of (t : UToken) : bytes := match t_u t with PStr start n => take (Z.to_nat n) (p_bytes start) | _ => [] end.
Definition str_len (t : UToken) : Z := match t_u t with PStr _ n => n | _ => 0 end.

Definition arena_alloc (n : Z) (p : UParser) : option bytes * UParser :=
  let p' := MkParser (p_lex p) (p_peek p) (p_peek2 p) (S (p_calls p)) in
  if grants (p_calls p) then (Some (replicate (Z.to_nat n) 0), p') else (None, p').

(** The outer loop, at a token [cur] of the run; [Some None] is NULL. *)
Fixpoint string_loop (fuel : nat) (cur : UToken) (buf : bytes) (cap len : Z) (p : UParser) : option (option (bytes * Z) * UParser) :=
  match fuel with
  | O => None
  | S fuel =>
      '(buf, len) ← resolve (length (body_of cur)) (body_of cur) buf len;
      '(nxt, p) ← urbi_parse_peek p;
      if negb (bool_decide (t_type nxt = TOK_STRING)) then Some (Some (buf, len), p)
      else
        '(cur, p) ← urbi_parse_consume p;
        if cap <? len + str_len cur then
          let new_cap := cap + str_len cur in
          let (new_buf, p) := arena_alloc new_cap p in
          match new_buf with
          | None => Some (None, p)
          | Some new_buf =>
              '(new_buf, _) ← put_all (take (Z.to_nat len) buf) new_buf 0;
              string_loop fuel cur new_buf new_cap len p
          end
        else string_loop fuel cur buf cap len p
  end.

(** The bytes of the literal and how many are in use. *)
Definition parse_string_literal (fuel : nat) (p : UParser) : option (option (bytes * Z) * UParser) :=
  '(first, p) ← urbi_parse_consume p;
  let cap := if 0 <? str_len first then str_len first else 1 in
  let (buf, p) := arena_alloc cap p in
  match buf with
  | None => Some (None, p)
  | Some buf => string_loop fuel first buf cap 0 p
  end.
End Parser.

(** ** What a literal means *)

Definition hexadecimal (c : Z) : Prop := is_Some (digit_value c 16).
Definition hex_value (h : bytes) : Z := fold_left (fun v c => v * 16 + hex_digit_unchecked c) h 0.

Inductive uescape : bytes -> Z -> Prop :=
| uescape_4 h : length h = 4%nat -> Forall hexadecimal h -> uescape h (hex_value h)
| uescape_brace h : (1 <= length h <= 6)%nat -> Forall hexadecimal h -> uescape (123 :: h ++ [125]) (hex_value h).

(** A Unicode scalar value. *)
Definition scalar (cp : Z) : Prop := 0 <= cp <= 1114111 /\ ~ 55296 <= cp <= 57343.

Inductive spells : bytes -> bytes -> Prop :=
| spells_nil : spells [] []
| spells_char c s v : c <> 34 -> c <> 92 -> spells s v -> spells (c :: s) (c :: v)
| spells_esc e s v : e = 110 \/ e = 116 \/ e = 92 \/ e = 34 -> spells s v -> spells (92 :: e :: s) (simple_escape e :: v)
| spells_u u cp s v : uescape u cp -> scalar cp -> spells s v -> spells (92 :: 117 :: u ++ s) (urbi_encode_utf8 cp ++ v).


(** ** Hexadecimal *)

Lemma digit_value_16 c d : digit_value c 16 = Some d -> hex_digit_unchecked c = d /\ 0 <= d <= 15.
Proof.
  unfold digit_value, hex_digit_unchecked, is_dec_digit. destruct ((48 <=? c) && (c <=? 57)) eqn:E1; cbn.
  - zcase; [|done]. intros [= <-]. split; [done|]. zbool. lia.
  - destruct ((97 <=? c) && (c <=? 102)) eqn:E2; cbn; [zcase; [|done]; intros [= <-]; split; [done|]; zbool; lia|].
    destruct ((65 <=? c) && (c <=? 70)) eqn:E3; cbn; [|done]. zcase; [|done]. intros [= <-]. split; [done|]. zbool. lia.
Qed.

Lemma hex_range c : hexadecimal c -> 0 <= hex_digit_unchecked c <= 15.
Proof. intros [d Hd]. by destruct (digit_value_16 c d Hd) as [-> ?]. Qed.

Lemma hex_not c : hexadecimal c -> c <> 123 /\ c <> 125.
Proof. intros [d Hd]. split; intros ->; discriminate Hd. Qed.

Definition hex_from (v : Z) (h : bytes) : Z := fold_left (fun v c => v * 16 + hex_digit_unchecked c) h v.

Lemma hex_from_bound h : forall v, 0 <= v -> Forall hexadecimal h -> 0 <= hex_from v h < (v + 1) * 16 ^ zlen h.
Proof.
  induction h as [|c h IH]; intros v Hv Hh; [cbn; unfold zlen; cbn; lia|]. apply Forall_cons in Hh as [Hc Hh]. pose proof (hex_range c Hc) as Hr.
  cbn [hex_from fold_left]. destruct (IH (v * 16 + hex_digit_unchecked c) ltac:(lia) Hh) as [H1 H2]. split; [done|]. eapply Z.lt_le_trans; [exact H2|].
  rewrite zlen_cons, Z.pow_add_r by (pose proof (zlen_nonneg h); lia). pose proof (Z.pow_pos_nonneg 16 (zlen h) ltac:(lia) (zlen_nonneg h)). nia.
Qed.

Lemma shift_digit v d : 0 <= v < 2 ^ 28 -> 0 <= d <= 15 -> u32 (Z.lor (Z.shiftl v 4) d) = v * 16 + d.
Proof. intros. rewrite Z.lor_comm, lor_shiftl by lia. rewrite u32_small; lia. Qed.

Lemma add_hex_spec v c : 0 <= v < 2 ^ 28 -> hexadecimal c -> add_hex v c = v * 16 + hex_digit_unchecked c.
Proof. intros Hv Hc. pose proof (hex_range c Hc). unfold add_hex. rewrite (u32_small (hex_digit_unchecked c)) by lia. by apply shift_digit. Qed.

(** Small enough for [n] more digits to fit 28 bits. *)
Definition room (v n : Z) : Prop := 0 <= v /\ (v + 1) * 16 ^ n <= 2 ^ 28.

Lemma room_step v n d : room v (1 + n) -> 0 <= n -> 0 <= d <= 15 -> 0 <= v < 2 ^ 28 /\ room (v * 16 + d) n.
Proof.
  intros [Hv Hr] Hn Hd. rewrite Z.pow_add_r in Hr by lia. pose proof (Z.pow_pos_nonneg 16 n ltac:(lia) Hn). split; [nia|]. split; [lia|]. nia.
Qed.

(** The lexer reads the digits there are, at most [max]. *)
Lemma hex_digits_spec max : forall s v, room v (Z.of_nat max) ->
  exists h t, s = h ++ t /\ Forall hexadecimal h /\ (length h <= max)%nat /\ hex_digits max s v = (length h, hex_from v h) /\
    (length h = max \/ match t with c :: _ => ~ hexadecimal c | [] => True end).
Proof.
  induction max as [|max IH]; intros s v Hr.
  { exists [], s. split; [done|]. split; [constructor|]. split; [done|]. split; [by destruct s|by left]. }
  destruct s as [|c s]; [exists [], []; split; [done|]; split; [constructor|]; split; [cbn; lia|]; split; [done|by right]|]. cbn [hex_digits].
  destruct (digit_value c 16) as [d|] eqn:Ed.
  - destruct (digit_value_16 c d Ed) as [Hd Hd']. destruct (room_step v (Z.of_nat max) d) as [Hv Hr']; [by replace (1 + Z.of_nat max) with (Z.of_nat (S max)) by lia|lia|done|].
    rewrite shift_digit by done. destruct (IH s (v * 16 + d) Hr') as (h & t & -> & Hh & Hl & E & Hmax). exists (c :: h), t. split; [done|].
    split; [constructor; [by exists d|done]|]. split; [cbn; lia|]. split; [rewrite E; cbn; by rewrite Hd|]. destruct Hmax as [<-|?]; [by left|by right].
  - exists [], (c :: s). split; [done|]. split; [constructor|]. split; [cbn; lia|]. split; [done|]. right. intros [d ?]. congruence.
Qed.

Lemma some_hex_spec h : forall n t v, n = length h -> room v (Z.of_nat n) -> Forall hexadecimal h -> some_hex n (h ++ t) v = (hex_from v h, t).
Proof.
  induction h as [|c h IH]; intros n t v -> Hr Hh; [by destruct t|]. apply Forall_cons in Hh as [Hc Hh]. pose proof (hex_range c Hc) as Hd.
  destruct (room_step v (Z.of_nat (length h)) (hex_digit_unchecked c)) as [Hv Hr']; [by replace (1 + _) with (Z.of_nat (length (c :: h))) by (cbn; lia)|lia|done|].
  cbn [length app some_hex]. rewrite add_hex_spec by done. by apply IH.
Qed.

Lemma brace_hex_spec h : forall t v, room v (zlen h) -> Forall hexadecimal h -> brace_hex (h ++ 125 :: t) v = (hex_from v h, t).
Proof.
  induction h as [|c h IH]; intros t v Hr Hh; [done|]. apply Forall_cons in Hh as [Hc Hh]. pose proof (hex_range c Hc) as Hd. rewrite zlen_cons in Hr.
  destruct (room_step v (zlen h) (hex_digit_unchecked c)) as [Hv Hr']; [done|apply zlen_nonneg|done|].
  cbn [app brace_hex]. destruct (hex_not c Hc) as [_ Hn]. destruct (c =? 125) eqn:E; zbool; [done|]. rewrite add_hex_spec by done. by apply IH.
Qed.

Lemma room_0 n : 0 <= n <= 6 -> room 0 n.
Proof. intros Hn. split; [lia|]. assert (16 ^ n <= 16 ^ 6) by (apply Z.pow_le_mono_r; lia). change (16 ^ 6) with 16777216 in *. lia. Qed.

(** The parser reads from a well-formed escape the code point the lexer checked. *)
Lemma code_point_spec u cp t : uescape u cp -> code_point (u ++ t) = (cp, t).
Proof.
  intros [h Hl Hh|h Hl Hh].
  - destruct h as [|c h]; [done|]. pose proof Hh as [Hc _]%Forall_cons. destruct (hex_not c Hc) as [Hn _]. unfold code_point. cbn [app].
    destruct (c =? 123) eqn:E; zbool; [done|]. change (c :: h ++ t) with ((c :: h) ++ t). apply some_hex_spec; [done|by apply room_0; lia|done].
  - cbn [app code_point]. change (123 =? 123) with true. cbv iota. rewrite <- app_assoc. cbn [app]. apply brace_hex_spec; [apply room_0; unfold zlen; lia|done].
Qed.

(** What the lexer accepts after [\u] is an escape of a scalar value. *)
Lemma validate_spec lex s lex' : rest lex = 117 :: s -> validate_unicode_escape lex = (LEX_OK, lex') ->
  exists u cp, s = u ++ rest lex' /\ uescape u cp /\ scalar cp.
Proof.
  intros Er. unfold validate_unicode_escape. assert (Hr1 : rest (adv 1 lex) = s) by (by rewrite rest_adv, Er). set (l1 := adv 1 lex) in *. cbn zeta.
  assert (Hneg : forall cp, (55296 <=? cp) && (cp <=? 57343) = false -> ~ 55296 <= cp <= 57343) by (intros cp H [? ?]; apply andb_false_iff in H as [H|H]; zbool; lia).
  destruct (peek 0 123 l1) eqn:Ep.
  - assert (Hs : exists s', s = 123 :: s') by (unfold peek in Ep; rewrite Hr1 in Ep; destruct s as [|c s']; [done|]; cbn in Ep; zbool; subst; by exists s').
    destruct Hs as [s' ->]. assert (Hr2 : rest (adv 1 l1) = s') by (by rewrite rest_adv, Hr1). set (l2 := adv 1 l1) in *.
    destruct (hex_digits_spec 6 (rest l2) 0 (room_0 6 ltac:(lia))) as (h & t & Es & Hh & Hlen & E & _). rewrite E. cbn zeta.
    destruct (length h =? 0)%nat eqn:E0; [done|]. apply Nat.eqb_neq in E0. set (l3 := adv (length h) l2).
    assert (Hr3 : rest l3 = t) by (unfold l3; rewrite rest_adv, Es; apply drop_app_length).
    destruct (peek 0 125 l3) eqn:Eq; cbn [negb]; [|done].
    assert (Ht : exists t', t = 125 :: t') by (unfold peek in Eq; rewrite Hr3 in Eq; destruct t as [|c t']; [done|]; cbn in Eq; zbool; subst; by exists t').
    destruct Ht as [t' ->]. assert (Hr4 : rest (adv 1 l3) = t') by (by rewrite rest_adv, Hr3).
    destruct (1114111 <? hex_from 0 h) eqn:El; [done|]. zbool. destruct ((55296 <=? hex_from 0 h) && _) eqn:Esur; [done|]. intros [= <-].
    exists (123 :: h ++ [125]), (hex_from 0 h). rewrite Hr4. split; [rewrite <- Hr2, Es; cbn; by rewrite <- app_assoc|].
    split; [by apply uescape_brace; [lia|]|]. split; [pose proof (hex_from_bound h 0 ltac:(lia) Hh); lia|by apply Hneg].
  - destruct (hex_digits_spec 4 (rest l1) 0 (room_0 4 ltac:(lia))) as (h & t & Es & Hh & Hlen & E & _). rewrite E. cbn zeta.
    destruct (length h <? 4)%nat eqn:E0; [done|]. apply Nat.ltb_ge in E0. set (l3 := adv (length h) l1).
    assert (Hr3 : rest l3 = t) by (unfold l3; rewrite rest_adv, Es; apply drop_app_length).
    destruct ((55296 <=? hex_from 0 h) && _) eqn:Esur; [done|]. intros [= <-]. exists h, (hex_from 0 h). rewrite Hr3. split; [by rewrite <- Hr1|].
    split; [apply uescape_4; [lia|done]|]. split; [|by apply Hneg]. pose proof (hex_from_bound h 0 ltac:(lia) Hh) as Hb. unfold zlen in Hb. replace (length h) with 4%nat in Hb by lia.
    change ((0 + 1) * 16 ^ Z.of_nat 4) with 65536 in Hb. lia.
Qed.

(** ** What the lexer accepts *)

Lemma string_body_spells fuel : forall lex start line col lex' s, string_body fuel lex start line col = Some (None, lex') -> rest lex' = 34 :: s ->
  exists body v, rest lex = body ++ 34 :: s /\ spells body v.
Proof.
  induction fuel as [|fuel IH]; intros lex start line col lex' s.
  { cbn. destruct (rest lex) as [|c s0] eqn:Er; [intros [= <-]; congruence|]. destruct (c =? 34) eqn:Ec; [|done]. zbool. subst c. intros [= <-] E. exists [], []. by split; [rewrite <- E, Er|constructor]. }
  cbn [string_body]. destruct (rest lex) as [|c s0] eqn:Er; [intros [= <-]; congruence|].
  destruct (c =? 34) eqn:Ec; zbool; [intros [= <-] E; exists [], []; split; [by rewrite <- E, Er|constructor]|].
  assert (Hr1 : rest (adv 1 lex) = s0) by (by rewrite rest_adv, Er).
  destruct (c =? 92) eqn:Eb; zbool.
  - subst c. rewrite Hr1. destruct s0 as [|e s1]; [intros Hrun Hrest; destruct (IH _ _ _ _ _ _ Hrun Hrest) as (b & v & Hb & _); rewrite Hr1 in Hb; by destruct b|].
    assert (Hr2 : rest (adv 1 (adv 1 lex)) = s1) by (by rewrite rest_adv, Hr1).
    destruct ((e =? 110) || (e =? 116) || (e =? 92) || (e =? 34)) eqn:Ee.
    + intros Hrun Hrest. destruct (IH _ _ _ _ _ _ Hrun Hrest) as (b & v & Hb & Hv). rewrite Hr2 in Hb. exists (92 :: e :: b), (simple_escape e :: v). split; [by rewrite Hb|].
      constructor; [|done]. rewrite !orb_true_iff in Ee. zbool. destruct Ee as [[[?|?]|?]|?]; zbool; tauto.
    + destruct (e =? 117) eqn:Eu; zbool; [|done]. subst e. destruct (validate_unicode_escape (adv 1 lex)) as [uerr l2] eqn:Ev.
      destruct (decide (uerr = LEX_OK)) as [->|]; [|done]. intros Hrun Hrest. destruct (IH _ _ _ _ _ _ Hrun Hrest) as (b & v & Hb & Hv).
      destruct (validate_spec _ _ _ Hr1 Ev) as (u & cp & -> & Hu & Hcp). exists (92 :: 117 :: u ++ b), (urbi_encode_utf8 cp ++ v).
      split; [cbn; rewrite Hb; by rewrite <- app_assoc|]. by constructor.
  - intros Hrun Hrest. destruct (IH _ _ _ _ _ _ Hrun Hrest) as (b & v & Hb & Hv). exists (c :: b), (c :: v). split; [|by constructor].
    cbn. rewrite <- Hb. destruct (c =? 10); unfold rest in *; cbn in *; by rewrite Er.
Qed.


(** ** Resolution *)

Lemma put_all_spec bs : forall buf len, 0 <= len -> len + zlen bs <= zlen buf -> put_all bs buf len = Some (splice buf len bs, len + zlen bs).
Proof.
  induction bs as [|b bs IH]; intros buf len H0 Hl; cbn [put_all].
  - rewrite splice_nil. change (zlen (@nil Z)) with 0. by rewrite Z.add_0_r.
  - rewrite zlen_cons in *. pose proof (zlen_nonneg bs). unfold zlen in Hl, H. rewrite store_splice by lia. cbn [mbind option_bind].
    rewrite IH; [|lia|unfold zlen; rewrite length_splice by (cbn; lia); lia]. f_equal. f_equal; [|lia].
    apply (splice_app buf len [b] bs); cbn; lia.
Qed.

Lemma utf8_width cp : 1 <= zlen (urbi_encode_utf8 cp) <= 4.
Proof. unfold urbi_encode_utf8. zcases; vm_compute; split; discriminate. Qed.

Lemma uescape_length u cp : uescape u cp -> 3 <= zlen u.
Proof. intros [h Hl _|h Hl _]; rewrite ?zlen_cons, ?zlen_app; unfold zlen; cbn; lia. Qed.

(** Resolution never needs more room than the source has bytes. *)
Lemma spells_length body v : spells body v -> zlen v <= zlen body.
Proof.
  induction 1 as [|c s v _ _ _ IH|e s v _ _ IH|u cp s v Hu _ _ IH]; rewrite ?zlen_cons, ?zlen_app; [done|lia..|].
  pose proof (utf8_width cp). pose proof (uescape_length u cp Hu). lia.
Qed.

Lemma put_then (f : bytes -> Z -> option (bytes * Z)) bs v buf len n : 0 <= len -> zlen bs + zlen v <= n -> len + n <= zlen buf -> zlen bs <= n ->
  (forall buf' len', 0 <= len' -> zlen buf' = zlen buf -> len' + (n - zlen bs) <= zlen buf' -> f buf' len' = Some (splice buf' len' v, len' + zlen v)) ->
  ('(buf, len) ← put_all bs buf len; f buf len) = Some (splice buf len (bs ++ v), len + zlen (bs ++ v)).
Proof.
  intros H0 Hv Hl Hb Hf. pose proof (zlen_nonneg bs). pose proof (zlen_nonneg v). rewrite put_all_spec by lia. cbn [mbind option_bind].
  assert (Hz : zlen (splice buf len bs) = zlen buf) by (unfold zlen in *; rewrite length_splice; lia).
  rewrite Hf by (rewrite ?Hz; lia). rewrite zlen_app. f_equal. f_equal; [|lia]. unfold zlen at 1. apply splice_app; unfold zlen in *; lia.
Qed.

Lemma resolve_spelled body v : spells body v -> forall fuel buf len, (length body <= fuel)%nat -> 0 <= len -> len + zlen body <= zlen buf ->
  resolve fuel body buf len = Some (splice buf len v, len + zlen v).
Proof.
  induction 1 as [|c s v H34 H92 Hs IH|e s v He Hs IH|u cp s v Hu Hcp Hs IH]; intros fuel buf len Hf H0 Hl.
  - destruct fuel; cbn; rewrite splice_nil; change (zlen (@nil Z)) with 0; by rewrite Z.add_0_r.
  - destruct fuel as [|fuel]; [cbn in Hf; lia|]. cbn [resolve]. destruct (c =? 92) eqn:E; zbool; [done|]. rewrite zlen_cons in Hl. pose proof (spells_length _ _ Hs).
    apply (put_then (fun buf len => resolve fuel s buf len) [c] v buf len (1 + zlen s)); try (change (zlen [c]) with 1); [done|lia|lia|pose proof (zlen_nonneg s); lia|].
    intros buf' len' ? Hz ?. apply IH; [cbn in Hf; lia|done|lia].
  - destruct fuel as [|fuel]; [cbn in Hf; lia|]. cbn [resolve]. change (92 =? 92) with true. cbv iota. assert (e =? 117 = false) as -> by (apply Z.eqb_neq; lia).
    rewrite !zlen_cons in Hl. pose proof (spells_length _ _ Hs). pose proof (zlen_nonneg s).
    apply (put_then (fun buf len => resolve fuel s buf len) [simple_escape e] v buf len (2 + zlen s)); try (change (zlen [simple_escape e]) with 1); [done|lia|lia|lia|].
    intros buf' len' ? Hz ?. apply IH; [cbn in Hf; lia|done|lia].
  - destruct fuel as [|fuel]; [cbn in Hf; lia|]. cbn [resolve]. change (92 =? 92) with true. change (117 =? 117) with true. cbv iota. rewrite (code_point_spec u cp s Hu).
    rewrite !zlen_cons, zlen_app in Hl. pose proof (spells_length _ _ Hs). pose proof (zlen_nonneg s). pose proof (utf8_width cp). pose proof (uescape_length u cp Hu).
    apply (put_then (fun buf len => resolve fuel s buf len) (urbi_encode_utf8 cp) v buf len (2 + zlen u + zlen s)); [done|lia|lia|lia|].
    intros buf' len' ? Hz ?. apply IH; [cbn in Hf; rewrite length_app in Hf; lia|done|lia].
Qed.

(** ** Accepted just when it spells something *)

Lemma hex_digits_all max h : forall s v, length h = max -> room v (Z.of_nat max) -> Forall hexadecimal h -> hex_digits max (h ++ s) v = (max, hex_from v h).
Proof.
  revert h. induction max as [|max IH]; intros [|c h] s v Hl Hr Hh; try done. apply Forall_cons in Hh as [[d Hd] Hh]. destruct (digit_value_16 c d Hd) as [He Hd'].
  cbn [app hex_digits]. rewrite Hd. destruct (room_step v (Z.of_nat max) d) as [Hv Hr']; [by replace (1 + Z.of_nat max) with (Z.of_nat (S max)) by lia|lia|done|].
  rewrite shift_digit by done. rewrite IH; [|cbn in Hl; lia|done|done]. cbn. by rewrite He.
Qed.

Lemma hex_digits_brace max : forall h s v, (length h <= max)%nat -> room v (Z.of_nat max) -> Forall hexadecimal h -> hex_digits max (h ++ 125 :: s) v = (length h, hex_from v h).
Proof.
  induction max as [|max IH]; intros [|c h] s v Hl Hr Hh; [done|cbn in Hl; lia|done|]. apply Forall_cons in Hh as [[d Hd] Hh]. destruct (digit_value_16 c d Hd) as [He Hd'].
  cbn [app hex_digits]. rewrite Hd. destruct (room_step v (Z.of_nat max) d) as [Hv Hr']; [by replace (1 + Z.of_nat max) with (Z.of_nat (S max)) by lia|lia|done|].
  rewrite shift_digit by done. rewrite IH; [|cbn in Hl; lia|done|done]. cbn. by rewrite He.
Qed.

Lemma validate_accepts lex u cp s : rest lex = 117 :: u ++ s -> uescape u cp -> scalar cp -> exists lex', validate_unicode_escape lex = (LEX_OK, lex') /\ rest lex' = s.
Proof.
  intros Er Hu [Hcp Hns]. assert (Hsur : (55296 <=? cp) && (cp <=? 57343) = false) by (apply andb_false_iff; rewrite !Z.leb_gt; lia).
  unfold validate_unicode_escape. assert (Hr1 : rest (adv 1 lex) = u ++ s) by (by rewrite rest_adv, Er). set (l1 := adv 1 lex) in *. cbn zeta.
  destruct Hu as [h Hl Hh|h Hl Hh].
  - assert (peek 0 123 l1 = false) as ->.
    { unfold peek. rewrite Hr1. destruct h as [|c h]; [done|]. cbn. apply Forall_cons in Hh as [Hc _]. destruct (hex_not c Hc). by apply Z.eqb_neq. }
    rewrite Hr1, (hex_digits_all 4) by first [done | lia | apply room_0; lia]. cbn [Nat.ltb Nat.leb]. change (hex_from 0 h) with (hex_value h). rewrite Hsur. eexists. split; [done|].
    rewrite rest_adv, Hr1. rewrite <- Hl. apply drop_app_length.
  - assert (peek 0 123 l1 = true) as -> by (unfold peek; by rewrite Hr1). assert (Hr2 : rest (adv 1 l1) = h ++ 125 :: s) by (by rewrite rest_adv, Hr1; cbn; rewrite <- app_assoc).
    set (l2 := adv 1 l1) in *. rewrite Hr2, (hex_digits_brace 6) by first [done | lia | apply room_0; lia]. destruct (length h =? 0)%nat eqn:E; [apply Nat.eqb_eq in E; lia|].
    assert (Hr3 : rest (adv (length h) l2) = 125 :: s) by (rewrite rest_adv, Hr2; apply drop_app_length).
    assert (peek 0 125 (adv (length h) l2) = true) as -> by (unfold peek; by rewrite Hr3). cbn [negb]. change (hex_from 0 h) with (hex_value h).
    replace (1114111 <? hex_value h) with false by (symmetry; apply Z.ltb_ge; lia). rewrite Hsur. eexists. split; [done|]. by rewrite rest_adv, Hr3.
Qed.

Lemma string_body_accepts body v s : spells body v -> forall fuel lex start line col, rest lex = body ++ 34 :: s -> (length body <= fuel)%nat ->
  exists lex', string_body fuel lex start line col = Some (None, lex') /\ rest lex' = 34 :: s.
Proof.
  induction 1 as [|c b v H34 H92 Hs IH|e b v He Hs IH|u cp b v Hu Hcp Hs IH]; intros fuel lex start line col Er Hf; cbn [app] in Er.
  - exists lex. destruct fuel; cbn; by rewrite Er.
  - destruct fuel as [|fuel]; [cbn in Hf; lia|]. cbn [string_body]. rewrite Er. destruct (c =? 34) eqn:E1; zbool; [done|]. destruct (c =? 92) eqn:E2; zbool; [done|].
    apply IH; [|cbn in Hf; lia]. destruct (c =? 10); unfold rest in *; cbn in *; by rewrite Er.
  - destruct fuel as [|fuel]; [cbn in Hf; lia|]. cbn [string_body]. rewrite Er. change (92 =? 34) with false. change (92 =? 92) with true. cbv iota.
    assert (Hr1 : rest (adv 1 lex) = e :: b ++ 34 :: s) by (by rewrite rest_adv, Er). rewrite Hr1.
    assert ((e =? 110) || (e =? 116) || (e =? 92) || (e =? 34) = true) as -> by (rewrite !orb_true_iff, !Z.eqb_eq; tauto).
    apply IH; [by rewrite rest_adv, Hr1|cbn in Hf; lia].
  - destruct fuel as [|fuel]; [cbn in Hf; lia|]. cbn [string_body]. rewrite Er. change (92 =? 34) with false. change (92 =? 92) with true. cbv iota.
    assert (Hr1 : rest (adv 1 lex) = 117 :: u ++ (b ++ 34 :: s)) by (rewrite rest_adv, Er; cbn; by rewrite <- app_assoc). rewrite Hr1.
    change ((117 =? 110) || (117 =? 116) || (117 =? 92) || (117 =? 34)) with false. change (117 =? 117) with true. cbv iota.
    destruct (validate_accepts _ u cp _ Hr1 Hu Hcp) as (l2 & -> & Hr2). rewrite decide_True by done. apply IH; [done|]. cbn in Hf. rewrite length_app in Hf. lia.
Qed.

Lemma string_body_stop fuel lex start line col lex' : string_body fuel lex start line col = Some (None, lex') -> rest lex' = [] \/ exists s, rest lex' = 34 :: s.
Proof.
  revert lex. induction fuel as [|fuel IH]; intros lex; cbn [string_body]; destruct (rest lex) as [|c s] eqn:Er; [intros [= <-]; by left| |intros [= <-]; by left|].
  - destruct (c =? 34) eqn:E; [|done]. zbool. subst c. intros [= <-]. right. by exists s.
  - destruct (c =? 34) eqn:E; zbool; [subst c; intros [= <-]; right; by exists s|]. destruct (c =? 92); [|apply IH].
    destruct (rest (adv 1 lex)) as [|e s'] eqn:E'; [apply IH|]. destruct (_ || _); [apply IH|]. destruct (e =? 117); [|done].
    destruct (validate_unicode_escape _) as [u l2]. destruct (decide _); [apply IH|done].
Qed.


(** ** Only a quotation mark starts a string *)

Definition no_string (r : UToken * ULexer) : Prop := t_type r.1 <> TOK_STRING.

Lemma accumulate_no_string lex start line col base err : (accumulate_digits lex start line col base).1 = inr err -> t_type err = TOK_ERROR.
Proof. unfold accumulate_digits. destruct (acc_loop _ _ _ _) as [n [v|c e]]; cbn; [done|]. by intros [= <-]. Qed.

Lemma radix_no_string lex start line col base code : no_string (scan_radix lex start line col base code).
Proof.
  unfold scan_radix. destruct (rest lex) as [|c0 s]; [done|]. destruct (c0 =? 95); [done|]. destruct (digit_value c0 base); [|by destruct (_ || _)].
  pose proof (accumulate_no_string lex start line col base) as H. destruct (accumulate_digits _ _ _ _ _) as [[v|err] l]; [done|].
  unfold no_string. cbn in *. by rewrite (H err).
Qed.

Lemma float_no_string strtod lex start line col : no_string (scan_float_body strtod lex start line col).
Proof.
  unfold scan_float_body. pose proof (fraction_spec lex start line col) as [_ H1]. destruct (scan_fraction _ _ _ _) as [[err|] l1]; cbn in H1.
  { by destruct H1 as (c & n & ->). }
  pose proof (exponent_spec l1 start line col) as [_ H2]. destruct (scan_exponent _ _ _ _) as [[err|] l2]; cbn in H2.
  { by destruct H2 as (c & n & ->). }
  unfold float_token. destruct (_ && _); [done|]. destruct (apply_duration_suffix_float _ _) as [[| |] l3]; [|done..]. by destruct (apply_angle_suffix _ _) as [[?|] ?].
Qed.

Lemma number_no_string strtod lex : no_string (scan_number strtod lex).
Proof.
  unfold scan_number. destruct (dispatch_radix_prefix _ _ _ _) as [r|] eqn:E.
  - unfold dispatch_radix_prefix in E. destruct (negb _); [done|]. destruct (rest lex !! 1%nat) as [c2|]; [|done]. cbn in E.
    repeat match type of E with (if ?b then _ else _) = _ => destruct b; [injection E as <-; try apply radix_no_string; done|] end. done.
  - pose proof (accumulate_no_string lex (l_cur lex) (l_line lex) (column lex) 10) as H. destruct (accumulate_digits _ _ _ _ _) as [[v|err] l].
    + destruct (float_follows l); [apply float_no_string|]. unfold int_token. destruct (apply_duration_suffix _ _) as [[?|] ?]; [|done]. by destruct (apply_angle_suffix _ _) as [[?|] ?].
    + unfold no_string. cbn in *. by rewrite (H err).
Qed.

Lemma keyword_no_string w : keyword_lookup w <> TOK_STRING.
Proof.
  unfold keyword_lookup. assert (forall tb, Forall (fun x => x.2 <> TOK_STRING) tb -> keyword_find tb w <> TOK_STRING) as Hk; [|apply Hk; repeat constructor; done].
  induction tb as [|[nm ty] tb IH]; intros Ht; cbn; [done|]. apply Forall_cons in Ht as [? ?]. case_decide; [done|]. by apply IH.
Qed.

(** A string token spells something, and its length is that of its body. *)
Definition string_token (t : UToken) : Prop := t_type t = TOK_STRING -> (exists v, spells (body_of t) v) /\ str_len t = zlen (body_of t).

Lemma lex_string_token lex line col s t lex' : rest lex = 34 :: s -> zlen s < 2 ^ 31 -> lex_string lex line col = Some (t, lex') -> string_token t.
Proof.
  intros Er Hs. unfold lex_string. assert (Hr1 : rest (adv 1 lex) = s) by (by rewrite rest_adv, Er). set (l1 := adv 1 lex) in *.
  destruct (string_body_spec (length (rest l1)) l1 (l_cur l1) line col ltac:(lia)) as (err & l2 & E & H2 & He). cbn zeta. rewrite E. cbn [mbind option_bind].
  destruct err as [err|]; [destruct He as (c & n & ->); by intros [= <- <-]|]. destruct He as [Hr|[s' Hr]]; rewrite Hr; [by intros [= <- <-]|]. intros Hret _.
  assert (Ht : t_u t = PStr (l_cur l1) (dist l2 (l_cur l1))) by (injection Hret as <- _; done).
  destruct (string_body_spells _ _ _ _ _ _ _ E Hr) as (body & v & Hb & Hv). destruct H2 as (n & Hn & Hc & _).
  assert (Hdist : dist l2 (l_cur l1) = zlen body).
  { unfold dist, off. rewrite Hc. cbn. assert (Hd : rest l2 = drop n (rest l1)) by (unfold rest; by rewrite Hc). rewrite Hr, Hb in Hd. apply (f_equal length) in Hd.
    rewrite length_drop, !length_app in Hd. cbn in Hd. rewrite Hb in Hn. rewrite length_app in Hn. cbn in Hn. rewrite <- Hr1, Hb, zlen_app, zlen_cons in Hs. unfold zlen in *.
    replace (_ - _) with (Z.of_nat n) by lia. rewrite i32_small by lia. lia. }
  unfold body_of, str_len. rewrite Ht, Hdist. assert (Hbody : take (Z.to_nat (zlen body)) (rest l1) = body) by (rewrite Hb; unfold zlen; rewrite Nat2Z.id; apply take_app_length).
  unfold rest in Hbody. rewrite Hbody. split; [by exists v|done].
Qed.

Lemma next_string strtod lex t lex' : pool_ok lex -> zlen (rest lex) < 2 ^ 31 - 1 -> ulex_next strtod lex = Some (t, lex') -> string_token t.
Proof.
  intros Hok Hs. unfold ulex_next. destruct (skip_trivia_spec (length (rest lex)) lex Hok ltac:(lia)) as (tr & l1 & -> & Hm & _). cbn [mbind option_bind].
  destruct (negb _); [by intros [= <- _]|]. destruct (rest l1) as [|c s] eqn:Er; [by intros [= <- _]|].
  assert (Hs1 : zlen (rest l1) < 2 ^ 31 - 1) by (pose proof (moves_rest _ _ _ Hm); unfold zlen in *; lia). rewrite Er, zlen_cons in Hs1.
  unfold next_token. destruct (c =? 34) eqn:E; zbool; [subst c; by apply (lex_string_token _ _ _ s); [|lia]|].
  destruct (c =? 39); [unfold scan_quoted_ident; cbn zeta; destruct (peek 0 39 _); [destruct (_ =? 0)|]; by intros [= <- _]|].
  destruct (_ && _); [intros [= Ht]; pose proof (float_no_string strtod l1 (l_cur l1) (l_line l1) (column l1)) as H; unfold scan_float_leading_dot in Ht; unfold no_string in H; rewrite Ht in H; by intros ?|].
  destruct (kPunctTable c) as [pt|] eqn:Ek.
  { intros [= <- _]. intros Ht. cbn in Ht. subst pt. unfold kPunctTable in Ek. repeat match type of Ek with (if ?b then _ else _) = _ => destruct b; [done|] end. done. }
  destruct (operator l1 c) as [[ty n]|] eqn:Eo.
  { intros [= <- _]. intros Ht. cbn in Ht. subst ty. unfold operator in Eo.
    repeat match type of Eo with (if ?b then _ else _) = _ => destruct b; [by repeat match type of Eo with context [if ?b then _ else _] => destruct b end|] end. done. }
  destruct (is_dec_digit c); [intros [= Ht]; pose proof (number_no_string strtod l1) as H; unfold no_string in H; rewrite Ht in H; by intros ?|].
  destruct (is_ident_start c); [|by intros [= <- _]]. intros [= <- _] Ht. by apply keyword_no_string in Ht.
Qed.


(** ** The queue, and a run of literals *)

Record pok (p : UParser) : Prop := {
  pok_pool : pool_ok (p_lex p);
  pok_size : zlen (rest (p_lex p)) < 2 ^ 31 - 1;
  pok_peek : forall t, p_peek p = Some t -> string_token t;
  pok_peek2 : forall t, p_peek2 p = Some t -> string_token t }.

(** Source bytes and tokens still to come. *)
Definition ahead_of (p : UParser) : nat :=
  (length (rest (p_lex p)) + (if p_peek p then 1 else 0) + (if p_peek2 p then 1 else 0))%nat.

Lemma next_moves strtod lex t lex' : pool_ok lex -> zlen (rest lex) < 2 ^ 31 - 1 -> ulex_next strtod lex = Some (t, lex') ->
  moves 0 lex lex' /\ (t_type t <> TOK_EOF -> moves 1 lex lex').
Proof.
  intros Hok Hs E. destruct (next_spec strtod lex Hok Hs) as (t' & l1 & l2 & E' & Hm & Hc). rewrite E in E'. injection E' as <- <-.
  destruct Hc as [(He & _ & -> & _)|[(_ & _ & H2 & _)|(_ & Hsc)]]; [by split| |].
  - split; [|intros _]; (eapply moves_le; [exact H2|lia]).
  - destruct Hsc as (Ha & _). cbn in Ha. apply ahead_moves in Ha. split; [eapply moves_le; [by eapply moves_trans|lia]|]. intros _. by apply (moves_trans 0 1 _ _ _ Hm).
Qed.

Section Run.
Context (strtod : bytes -> spec_float) (grants : nat -> bool).

Lemma peek_spec p : pok p -> exists t p', urbi_parse_peek strtod p = Some (t, p') /\ pok p' /\ p_peek p' = Some t /\ string_token t /\ (t_type t = TOK_STRING -> (ahead_of p' <= ahead_of p)%nat).
Proof.
  intros [H1 H2 H3 H4]. unfold urbi_parse_peek. destruct (p_peek p) as [t|] eqn:Ep.
  { exists t, p. split; [done|]. split; [by split; [..|intros ? E; apply H3; congruence|]|]. split; [done|]. split; [by apply H3|done]. }
  destruct (next_spec strtod (p_lex p) H1 H2) as (t & _ & lex' & E & _). rewrite E. cbn [mbind option_bind].
  destruct (next_moves _ _ _ _ H1 H2 E) as [M0 M1]. pose proof (moves_rest _ _ _ M0). pose proof (next_string _ _ _ _ H1 H2 E) as Ht.
  eexists t, _. split; [done|]. split; [|split; [done|]; split; [done|]].
  - split; cbn; [by eapply moves_ok|unfold zlen in *; lia|by intros ? [= <-]|done].
  - intros Hty. pose proof (moves_rest _ _ _ (M1 ltac:(congruence))). unfold ahead_of. cbn. rewrite Ep. lia.
Qed.

Lemma consume_spec p : pok p -> exists t p0 p', urbi_parse_peek strtod p = Some (t, p0) /\ urbi_parse_consume strtod p = Some (t, p') /\ pok p' /\ string_token t /\
  (t_type t = TOK_STRING -> (ahead_of p' < ahead_of p)%nat).
Proof.
  intros Hp. destruct (peek_spec p Hp) as (t & p1 & E & [H1 H2 H3 H4] & Ht & Hst & Hsz). unfold urbi_parse_consume. rewrite E. cbn [mbind option_bind].
  eexists t, p1, _. split; [done|]. split; [done|]. split; [by split|]. split; [done|]. intros Hty. specialize (Hsz Hty). unfold ahead_of in *. cbn. rewrite Ht in Hsz. cbn in Hsz. destruct (p_peek2 p1); cbn in *; lia.
Qed.

Lemma take_splice {A} (buf : list A) len v : 0 <= len -> len + zlen v <= zlen buf -> take (Z.to_nat (len + zlen v)) (splice buf len v) = take (Z.to_nat len) buf ++ v.
Proof.
  intros H0 Hl. unfold splice, zlen in *. rewrite (assoc_L (++)). rewrite take_app_le by (rewrite length_app, length_take; lia). apply take_ge. rewrite length_app, length_take. lia.
Qed.

Definition spelled (t : UToken) (v : bytes) : Prop := t_type t = TOK_STRING /\ spells (body_of t) v.

(** What the literal holds: the values of the tokens of the run, one after another. *)
Definition holds (pre : bytes) (cur : UToken) (res : option (bytes * Z)) : Prop :=
  match res with
  | None => True
  | Some (buf, len) => exists ts vs, Forall2 spelled (cur :: ts) vs /\ len = zlen (pre ++ concat vs) /\ len <= zlen buf /\ take (Z.to_nat len) buf = pre ++ concat vs
  end.

Lemma holds_more pre cur v nxt res : spelled cur v -> holds (pre ++ v) nxt res -> holds pre cur res.
Proof.
  intros Hv. destruct res as [[buf len]|]; [|done]. intros (ts & vs & Hf & E1 & E2 & E3). exists (nxt :: ts), (v :: vs). split; [by constructor|]. cbn [concat].
  by rewrite (assoc_L (++)).
Qed.

Lemma string_loop_spec fuel : forall cur buf cap len p, pok p -> t_type cur = TOK_STRING -> string_token cur -> zlen buf = cap -> 0 <= len -> len + str_len cur <= cap ->
  (ahead_of p < fuel)%nat ->
  exists res p', string_loop strtod grants fuel cur buf cap len p = Some (res, p') /\ holds (take (Z.to_nat len) buf) cur res.
Proof.
  induction fuel as [|fuel IH]; intros cur buf cap len p Hp Hty Hst Hb H0 Hl Hf; [lia|]. cbn [string_loop].
  destruct (Hst Hty) as [[v Hv] Hsl]. rewrite Hsl in Hl. pose proof (spells_length _ _ Hv) as Hvl. pose proof (zlen_nonneg v).
  rewrite (resolve_spelled _ _ Hv) by (done || lia). cbn [mbind option_bind]. set (buf' := splice buf len v). set (len' := len + zlen v).
  assert (Hb' : zlen buf' = cap) by (unfold buf', zlen in *; rewrite length_splice; lia).
  assert (Hpre : take (Z.to_nat len') buf' = take (Z.to_nat len) buf ++ v) by (apply take_splice; lia).
  assert (Hlp : zlen (take (Z.to_nat len) buf) = len) by (unfold zlen in *; rewrite length_take; lia).
  destruct (consume_spec p Hp) as (nxt & p1 & p2 & E1 & E2 & Hp2 & Hnst & Hsz).
  destruct (peek_spec p Hp) as (nxt' & p1' & E1' & Hp1 & Hpk & _ & Hsz1). rewrite E1 in E1'. injection E1' as <- <-. rewrite E1. cbn [mbind option_bind].
  case_bool_decide as Hnt; cbn [negb].
  2:{ eexists _, _. split; [done|]. exists [], [v]. split; [by repeat constructor|]. cbn [concat]. rewrite app_nil_r, zlen_app, Hlp. split; [done|]. split; [lia|exact Hpre]. }
  destruct (consume_spec p1 Hp1) as (nxt2 & q1 & q2 & F1 & F2 & Hq2 & Hqst & Hqsz). assert (nxt2 = nxt) as ->.
  { unfold urbi_parse_peek in F1. rewrite Hpk in F1. congruence. }
  rewrite F2. cbn [mbind option_bind]. specialize (Hqsz Hnt). specialize (Hsz1 Hnt). pose proof (Hnst Hnt) as [_ Hnl]. pose proof (zlen_nonneg (body_of nxt)).
  destruct (cap <? len' + str_len nxt) eqn:Ec; zbool.
  - unfold arena_alloc. destruct (grants (p_calls q2)); [|by eexists None, _; split; [|done]]. set (q3 := MkParser _ _ _ _).
    set (fresh := replicate (Z.to_nat (cap + str_len nxt)) 0). assert (Hfr : zlen fresh = cap + str_len nxt) by (unfold fresh, zlen; rewrite length_replicate; lia).
    assert (Hlt : zlen (take (Z.to_nat len') buf') = len') by (rewrite Hpre, zlen_app, Hlp; done).
    rewrite put_all_spec by lia. cbn [mbind option_bind].
    destruct (IH nxt (splice fresh 0 (take (Z.to_nat len') buf')) (cap + str_len nxt) len' q3) as (res & p' & E & Hh); try done; try lia.
    + destruct Hq2 as [? ? ? ?]. by split.
    + unfold zlen in *. rewrite length_splice; lia.
    + change (ahead_of q3) with (ahead_of q2). lia.
    + exists res, p'. split; [exact E|]. eapply holds_more; [by split|]. rewrite <- Hpre.
      assert (Ht0 : take (Z.to_nat len') (splice fresh 0 (take (Z.to_nat len') buf')) = take (Z.to_nat len') buf').
      { pose proof (take_splice fresh 0 (take (Z.to_nat len') buf') ltac:(lia) ltac:(lia)) as Ht. rewrite Hlt in Ht. exact Ht. }
      by rewrite Ht0 in Hh.
  - destruct (IH nxt buf' cap len' q2) as (res & p' & E & Hh); try done; try lia. exists res, p'. split; [exact E|]. eapply holds_more; [by split|]. by rewrite <- Hpre.
Qed.
End Run.


(** A body has one meaning. *)
Lemma spells_unique body v v' : spells body v -> spells body v' -> v = v'.
Proof.
  intros H H'. pose proof (spells_length _ _ H). pose proof (spells_length _ _ H'). set (buf := replicate (length body) 0).
  assert (Hz : zlen buf = zlen body) by (unfold zlen, buf; by rewrite length_replicate).
  pose proof (resolve_spelled _ _ H (length body) buf 0 ltac:(lia) ltac:(lia) ltac:(lia)) as E. rewrite (resolve_spelled _ _ H' (length body) buf 0) in E by lia.
  injection E as Hs Hl. pose proof (take_splice buf 0 v ltac:(lia) ltac:(lia)) as T. pose proof (take_splice buf 0 v' ltac:(lia) ltac:(lia)) as T'.
  rewrite Hs, Hl, T in T'. exact T'.
Qed.

(** ** The claims *)

(** String literals resolve without a fault.  At a TOK_STRING token the
    parser's resolution of it and of the adjacent literals after it returns;
    no byte is written outside the buffer, though its capacity is only the
    length of the source text; and unless the arena refuses memory the buffer
    holds exactly the values of the literals of the run, one after another,
    every escape replaced by what it stands for, [\u] escapes by UTF-8. *)
Theorem string_literals_resolve strtod grants fuel p t p1 : pok p -> urbi_parse_peek strtod p = Some (t, p1) -> t_type t = TOK_STRING -> (ahead_of p < fuel)%nat ->
  exists res p', parse_string_literal strtod grants fuel p = Some (res, p') /\ holds [] t res.
Proof.
  intros Hp Hpk Hty Hf. unfold parse_string_literal. destruct (consume_spec strtod p Hp) as (t' & p0 & p2 & E1 & E2 & Hp2 & Hst & Hsz).
  rewrite Hpk in E1. injection E1 as <- <-. rewrite E2. cbn [mbind option_bind]. specialize (Hsz Hty). set (cap := if 0 <? str_len t then str_len t else 1).
  unfold arena_alloc. destruct (grants (p_calls p2)); [|by eexists None, _]. set (q := MkParser _ _ _ _).
  assert (Hcap : 0 <= str_len t <= cap) by (destruct (Hst Hty) as [_ ->]; unfold cap; pose proof (zlen_nonneg (body_of t)); zcase; destruct (Hst Hty) as [_ E]; lia).
  apply (string_loop_spec strtod grants fuel t (replicate (Z.to_nat cap) 0) cap 0 q); try done; try lia.
  - destruct Hp2 as [? ? ? ?]. by split.
  - unfold zlen. rewrite length_replicate. lia.
  - change (ahead_of q) with (ahead_of p2). lia.
Qed.

(** ["a\u{e9}"] followed by ["b"]: a, e with an acute accent in UTF-8, b. *)
Definition two_literals : UParser :=
  MkParser (ulex_init [34; 97; 92; 117; 123; 101; 57; 125; 34; 32; 34; 98; 34]) None None 0.

Example string_literals_resolve_witness : exists t p1 res p', urbi_parse_peek (fun _ => S754_zero false) two_literals = Some (t, p1) /\
  parse_string_literal (fun _ => S754_zero false) (fun _ => true) 20 two_literals = Some (res, p') /\ holds [] t res /\
  (exists buf len, res = Some (buf, len) /\ take (Z.to_nat len) buf = [97; 195; 169; 98]).
Proof.
  assert (Hp : pok two_literals) by (split; [by split|done|done|done]).
  destruct (urbi_parse_peek (fun _ => S754_zero false) two_literals) as [[t p1]|] eqn:E; [|by vm_compute in E].
  assert (Ht : t_type t = TOK_STRING) by (vm_compute in E; injection E as <- _; done).
  destruct (string_literals_resolve (fun _ => S754_zero false) (fun _ => true) 20 two_literals t p1 Hp E Ht ltac:(vm_compute; lia)) as (res & p' & Er & Hh).
  exists t, p1, res, p'. split; [done|]. split; [exact Er|]. split; [exact Hh|]. vm_compute in Er. injection Er as <- _. eexists _, _. split; [done|]. reflexivity.
Defined.

(** C33 The lexer accepts exactly the string literals that mean something.  At
    a quotation mark the next token is a TOK_STRING with the body [b] if and
    only if the text goes on with [b] and a closing quotation mark and [b]
    spells a value, one only: plain bytes, the four simple escapes, and [\u]
    escapes of Unicode scalar values, lone surrogates and code points past
    U+10FFFF excluded. *)
Theorem string_literals_exact strtod lex s0 b : rest lex = 34 :: s0 -> pool_ok lex -> zlen (rest lex) < 2 ^ 31 - 1 ->
  ((exists t lex', ulex_next strtod lex = Some (t, lex') /\ t_type t = TOK_STRING /\ body_of t = b) <-> (exists s v, s0 = b ++ 34 :: s /\ spells b v)) /\
  (forall v v', spells b v -> spells b v' -> v = v').
Proof.
  intros Er Hok Hs. split; [|by apply spells_unique]. rewrite Er, zlen_cons in Hs.
  assert (Hnext : ulex_next strtod lex = lex_string lex (l_line lex) (column lex)).
  { unfold ulex_next. rewrite Er. cbn [length]. cbn [skip_trivia]. rewrite Er. cbn. by rewrite Er. }
  rewrite Hnext. unfold lex_string. assert (Hr1 : rest (adv 1 lex) = s0) by (by rewrite rest_adv, Er). set (l1 := adv 1 lex) in *. cbn zeta.
  destruct (string_body_spec (length (rest l1)) l1 (l_cur l1) (l_line lex) (column lex) ltac:(lia)) as (err & l2 & E & H2 & He). rewrite E. cbn [mbind option_bind].
  assert (Hbody : forall b s, rest l1 = b ++ 34 :: s -> rest l2 = 34 :: s -> take (Z.to_nat (dist l2 (l_cur l1))) (p_bytes (l_cur l1)) = b).
  { intros b' s' Hb Hr. destruct H2 as (n & Hn & Hc & _). assert (Hd : rest l2 = drop n (rest l1)) by (unfold rest; by rewrite Hc).
    rewrite Hr, Hb in Hd. apply (f_equal length) in Hd. rewrite length_drop, !length_app in Hd. cbn in Hd. rewrite Hb, length_app in Hn. cbn in Hn.
    unfold zlen in Hs. rewrite <- Hr1, Hb, length_app in Hs. cbn in Hs. unfold dist, off. rewrite Hc. cbn [p_adv p_off]. replace (_ - _) with (Z.of_nat n) by lia. rewrite i32_small by lia.
    change (p_bytes (l_cur l1)) with (rest l1). rewrite Hb, Nat2Z.id. replace n with (length b') by lia. apply take_app_length. }
  split.
  - intros (t & lex' & Hret & Hty & <-). destruct err as [err|]; [destruct He as (c & n & ->); injection Hret as <- _; done|].
    destruct He as [Hr|[s Hr]]; rewrite Hr in Hret; [injection Hret as <- _; done|]. destruct (string_body_spells _ _ _ _ _ _ _ E Hr) as (b' & v & Hb & Hv).
    assert (Ht : t_u t = PStr (l_cur l1) (dist l2 (l_cur l1))) by (injection Hret as <- _; done). unfold body_of. rewrite Ht, (Hbody _ _ Hb Hr). exists s, v. split; [by rewrite <- Hr1, Hb|done].
  - intros (s & v & -> & Hv). destruct (string_body_accepts _ _ s Hv (length (rest l1)) l1 (l_cur l1) (l_line lex) (column lex) Hr1) as (l2' & E' & Hr).
    { rewrite Hr1, length_app. lia. }
    rewrite E in E'. injection E' as -> <-. rewrite Hr. eexists _, _. split; [done|]. split; [done|]. unfold body_of. cbn [t_u]. by eapply Hbody.
Qed.

Example string_literals_exact_witness : exists t lex', ulex_next (fun _ => S754_zero false) (ulex_init [34; 92; 110; 97; 34; 59]) = Some (t, lex') /\ t_type t = TOK_STRING /\ body_of t = [92; 110; 97].
Proof.
  apply (proj1 (string_literals_exact (fun _ => S754_zero false) (ulex_init [34; 92; 110; 97; 34; 59]) [92; 110; 97; 34; 59] [92; 110; 97] eq_refl ltac:(by split) eq_refl)).
  exists [59], [10; 97]. split; [done|]. apply (spells_esc 110); [by left|]. by repeat constructor.
Defined.

End ParseStr.
