(* ===== verification/Ast.v ===== *)
(** * The syntax tree (src/src/parse/uast.h)

    A node is immutable once it is built, so the tree is a value; an arena
    array of nodes is a list, a view into the source the bytes it spells.  An
    AST_ERROR never sits inside a tree: it is an outcome of the parser
    ([Parse.res]).  AST_NOOP is built nowhere.  [size] counts nodes and
    [jumps_ok] says where break and continue may stand. *)
From Stdlib Require Import Ascii String SpecFloat.
From S2P Require Import Prelude Text Lex.

Import Lex.

Module Ast.

Definition pos : Type := Z * Z.

Inductive watch_mode := UWATCHER_AT | UWATCHER_WHENEVER | UWATCHER_AT_SYNC | UWATCHER_WAITUNTIL.
Inductive UAstMethodKind := UAST_METHOD_PLAIN | UAST_METHOD_GETTER | UAST_METHOD_SETTER.
Inductive UAstUnaryOp := UOP_NEG | UOP_NOT.
Inductive UAstBinaryOp := BOP_ADD | BOP_SUB | BOP_MUL | BOP_DIV.
Inductive UAstSeparator := SEP_PIPE | SEP_AMP | SEP_SEMI | SEP_COMMA.
Inductive UAstCompareOp := CMP_EQ | CMP_NEQ | CMP_LT | CMP_LE | CMP_GT | CMP_GE.
#[export] Instance UAstSeparator_eq_dec : EqDecision UAstSeparator.
Proof. solve_decision. Defined.
#[export] Instance watch_mode_eq_dec : EqDecision watch_mode.
Proof. solve_decision. Defined.

(** UAstWatchSource; a slot change carries the name of its slot. *)
Inductive UAstWatchSource := UWSRC_COND | UWSRC_EVENT | UWSRC_SLOT_CHANGE (slot_name : bytes).

Inductive UAstNode :=
  | AST_INT (at_ : pos) (i : Z)
  | AST_FLOAT_LIT (at_ : pos) (f : spec_float)
  | AST_STR (at_ : pos) (s : bytes)
  | AST_BOOL (at_ : pos) (b : bool)
  | AST_NIL (at_ : pos)
  | AST_THIS (at_ : pos)
  | AST_IDENT (at_ : pos) (name : bytes)
  | AST_UNARY (at_ : pos) (op : UAstUnaryOp) (operand : UAstNode)
  | AST_BINARY (at_ : pos) (op : UAstBinaryOp) (lhs rhs : UAstNode)
  | AST_LOGICAL (at_ : pos) (lhs rhs : UAstNode) (is_or : bool)
  | AST_COMPARE (at_ : pos) (op : UAstCompareOp) (lhs rhs : UAstNode)
  | AST_SEQ (at_ : pos) (separator : UAstSeparator) (children : list UAstNode)
  | AST_VAR_DECL (at_ : pos) (name : bytes) (init : UAstNode)
  | AST_ASSIGN (at_ : pos) (name : bytes) (value : UAstNode)
  | AST_BLOCK (at_ : pos) (stmts : list UAstNode)
  | AST_IF (at_ : pos) (cond then_block : UAstNode) (else_block : option UAstNode)
  | AST_WHILE (at_ : pos) (cond body : UAstNode)
  | AST_FUNCTION (at_ : pos) (params : list UAstNode) (body : UAstNode)
  | AST_PARAM (at_ : pos) (name : bytes) (default_expr : option UAstNode) (is_lazy : bool)
  | AST_CALL (at_ : pos) (callee : UAstNode) (args : list UAstNode)
  | AST_RETURN (at_ : pos) (value : option UAstNode)
  | AST_THROW (at_ : pos) (value : UAstNode)
  | AST_TRY (at_ : pos) (body : UAstNode) (catch_var : option bytes) (catch_body catch_guard else_body finally_body : option UAstNode)
  | AST_TAG_PREFIX (at_ : pos) (tag_expr body : UAstNode)
  | AST_MEMBER_GET (at_ : pos) (recv : UAstNode) (name : bytes)
  | AST_MEMBER_SET (at_ : pos) (recv : UAstNode) (name : bytes) (value : UAstNode)
  | AST_WATCHER (at_ : pos) (mode : watch_mode) (source : UAstWatchSource) (cond : UAstNode) (body else_body onleave : option UAstNode) (payload_var : option bytes)
  | AST_BREAK (at_ : pos)
  | AST_CONTINUE (at_ : pos)
  | AST_SWITCH (at_ : pos) (expr : UAstNode) (case_vals case_bodies : list UAstNode) (default_body : option UAstNode).

(** [n->line], [n->col]. *)
Definition pos_of (n : UAstNode) : pos :=
  match n with
  | AST_INT l _ | AST_FLOAT_LIT l _ | AST_STR l _ | AST_BOOL l _ | AST_NIL l | AST_THIS l | AST_IDENT l _ | AST_UNARY l _ _ | AST_BINARY l _ _ _
  | AST_LOGICAL l _ _ _ | AST_COMPARE l _ _ _ | AST_SEQ l _ _ | AST_VAR_DECL l _ _ | AST_ASSIGN l _ _ | AST_BLOCK l _ | AST_IF l _ _ _ | AST_WHILE l _ _
  | AST_FUNCTION l _ _ | AST_PARAM l _ _ _ | AST_CALL l _ _ | AST_RETURN l _ | AST_THROW l _ | AST_TRY l _ _ _ _ _ _ | AST_TAG_PREFIX l _ _
  | AST_MEMBER_GET l _ _ | AST_MEMBER_SET l _ _ _ | AST_WATCHER l _ _ _ _ _ _ _ | AST_BREAK l | AST_CONTINUE l | AST_SWITCH l _ _ _ _ => l
  end.

(** ** Counting nodes *)

Section Sums.
Context {A : Type} (f : A -> Z).
Fixpoint sum_over (l : list A) : Z := match l with [] => 0 | x :: l => f x + sum_over l end.
Definition sum_opt (o : option A) : Z := match o with None => 0 | Some x => f x end.
End Sums.

Fixpoint size (n : UAstNode) : Z :=
  1 + match n with
  | AST_INT _ _ | AST_FLOAT_LIT _ _ | AST_STR _ _ | AST_BOOL _ _ | AST_NIL _ | AST_THIS _ | AST_IDENT _ _ | AST_BREAK _ | AST_CONTINUE _ => 0
  | AST_UNARY _ _ a | AST_VAR_DECL _ _ a | AST_ASSIGN _ _ a | AST_THROW _ a | AST_MEMBER_GET _ a _ => size a
  | AST_BINARY _ _ a b | AST_LOGICAL _ a b _ | AST_COMPARE _ _ a b | AST_WHILE _ a b | AST_TAG_PREFIX _ a b | AST_MEMBER_SET _ a _ b => size a + size b
  | AST_SEQ _ _ l | AST_BLOCK _ l => sum_over size l
  | AST_IF _ a b o => size a + size b + sum_opt size o
  | AST_FUNCTION _ l b => sum_over size l + size b
  | AST_PARAM _ _ o _ | AST_RETURN _ o => sum_opt size o
  | AST_CALL _ a l => size a + sum_over size l
  | AST_TRY _ a _ b c d e => size a + sum_opt size b + sum_opt size c + sum_opt size d + sum_opt size e
  | AST_WATCHER _ _ _ a b c d _ => size a + sum_opt size b + sum_opt size c + sum_opt size d
  | AST_SWITCH _ a l m o => size a + sum_over size l + sum_over size m + sum_opt size o
  end.

(** ** Where jumps stand

    [lo]: inside a loop of the function around; [sw]: inside a switch of it.
    The body of a function and the arms of a watcher start afresh; the
    condition of a watcher and the default of a parameter do not. *)

Definition all_opt {A} (f : A -> bool) (o : option A) : bool := match o with None => true | Some x => f x end.

Fixpoint jumps_ok (lo sw : bool) (n : UAstNode) : bool :=
  match n with
  | AST_INT _ _ | AST_FLOAT_LIT _ _ | AST_STR _ _ | AST_BOOL _ _ | AST_NIL _ | AST_THIS _ | AST_IDENT _ _ => true
  | AST_BREAK _ => lo || sw
  | AST_CONTINUE _ => lo
  | AST_UNARY _ _ a | AST_VAR_DECL _ _ a | AST_ASSIGN _ _ a | AST_THROW _ a | AST_MEMBER_GET _ a _ => jumps_ok lo sw a
  | AST_BINARY _ _ a b | AST_LOGICAL _ a b _ | AST_COMPARE _ _ a b | AST_TAG_PREFIX _ a b | AST_MEMBER_SET _ a _ b => jumps_ok lo sw a && jumps_ok lo sw b
  | AST_WHILE _ a b => jumps_ok lo sw a && jumps_ok true sw b
  | AST_SEQ _ _ l | AST_BLOCK _ l => forallb (jumps_ok lo sw) l
  | AST_IF _ a b o => jumps_ok lo sw a && jumps_ok lo sw b && all_opt (jumps_ok lo sw) o
  | AST_FUNCTION _ l b => forallb (jumps_ok lo sw) l && jumps_ok false false b
  | AST_PARAM _ _ o _ | AST_RETURN _ o => all_opt (jumps_ok lo sw) o
  | AST_CALL _ a l => jumps_ok lo sw a && forallb (jumps_ok lo sw) l
  | AST_TRY _ a _ b c d e => jumps_ok lo sw a && all_opt (jumps_ok lo sw) b && all_opt (jumps_ok lo sw) c && all_opt (jumps_ok lo sw) d && all_opt (jumps_ok lo sw) e
  | AST_WATCHER _ _ _ a b c d _ => jumps_ok lo sw a && all_opt (jumps_ok false false) b && all_opt (jumps_ok false false) c && all_opt (jumps_ok false false) d
  | AST_SWITCH _ a l m o => jumps_ok lo sw a && forallb (jumps_ok lo true) l && forallb (jumps_ok lo true) m && all_opt (jumps_ok lo true) o
  end.

(** ** Errors *)

Inductive UParseError :=
  | PARSE_OK | PARSE_UNEXPECTED_TOKEN | PARSE_UNEXPECTED_EOF | PARSE_EXPECTED_EXPRESSION | PARSE_EXPECTED_RPAREN | PARSE_LEX_ERROR | PARSE_OOM
  | PARSE_EXPECTED_RBRACE | PARSE_EXPECTED_LBRACE | PARSE_EXPECTED_LPAREN | PARSE_EXPECTED_IDENT | PARSE_EXPECTED_EQ | PARSE_EXPECTED_SEMI_OR_PIPE
  | PARSE_BARE_FUNCTION | PARSE_CLOSURE_KEYWORD | PARSE_TRAILING_AMP | PARSE_LAZY_OUT_OF_PARAM_LIST | PARSE_TRY_NEEDS_CATCH_OR_FINALLY
  | PARSE_RESERVED_KEYWORD_AS_IDENT | PARSE_QUESTION_OUTSIDE_AT | PARSE_EMIT_MULTI_ARG_V1 | PARSE_SLOT_CHANGED_BARE_V1 | PARSE_SLOT_CHANGED_EMIT_V1
  | PARSE_NAMED_FUNCTION_NOT_SUPPORTED | PARSE_AT_SYNC_DOES_NOT_SUPPORT_ONLEAVE | PARSE_TOPLEVEL_GETSET_NOT_SUPPORTED | PARSE_EXPECTED_RBRACKET
  | PARSE_DICT_EXPECTED_FAT_ARROW | PARSE_SUBSCRIPT_EXPECTED_RBRACKET | PARSE_VAR_OBJ_SLOT_NO_INIT | PARSE_SUBSCRIPT_COMPOUND_OP_V1X
  | PARSE_FOR_EXPECTED_VAR | PARSE_FOR_EXPECTED_COLON_OR_IN | PARSE_BREAK_OUTSIDE_LOOP | PARSE_CONTINUE_OUTSIDE_LOOP | PARSE_SWITCH_EXPECTED_CASE
  | PARSE_SWITCH_EXPECTED_COLON | PARSE_SWITCH_DUPLICATE_DEFAULT | PARSE_EVENT_PAYLOAD_BIND_EXPECTED_VAR | PARSE_EVENT_PAYLOAD_BIND_EXPECTED_IDENT
  | PARSE_EVENT_PAYLOAD_BIND_EXPECTED_RPAREN | PARSE_CLASS_BODY_STATEMENT.
#[export] Instance UParseError_eq_dec : EqDecision UParseError.
Proof. solve_decision. Defined.

(** The text of an error node: the table entry of its code, a text of its own,
    or the lexer's. *)
Inductive message := MTable | MText (s : bytes) | MLex (code : ULexError).
Record perror := MkErr { e_code : UParseError; e_pos : pos; e_message : message }.

(** [uparser_oom_sentinel]. *)
Definition uparser_oom_sentinel : perror := MkErr PARSE_OOM (0, 0) MTable.

End Ast.
