(* ===== verification/Parse.v ===== *)
(** * The parser (src/src/parse/)

    Recursive descent over the token queue of [ParseStr].  A function of the C
    answers a node, NULL (out of memory or over budget) or an AST_ERROR node:
    the outcomes of [res], threaded by the monad [M], whose bind returns early
    as [if (!x) return NULL; if (x->kind == AST_ERROR) return x;] does;
    [oomed] is the variant that turns NULL into the sentinel.  [fault] is
    undefined behaviour, or a loop out of fuel.

    The functions of a level take the recursive ones as a record [knot] and
    [parser] ties it: a call made after a token has been consumed is one level
    down, so a level per byte of source is enough ([ParseFacts]).

    The depth, loop and switch counters are raised at most twice per byte of
    source, the node count is read only under a budget, which stops it below
    2^32: none of them wraps.  The texts of messages in the error table are
    left out. *)
From Stdlib Require Import Ascii String SpecFloat.
From S2P Require Import Prelude Text Lex ParseStr Ast.
Import Lex Ast.

Module Parse.

(** ** State *)

Record UCompileBudget := MkBudget { max_parser_depth : Z; max_ast_nodes : Z }.
Inductive budget_error := URBI_ERR_COMPILE_BUDGET_DEPTH | URBI_ERR_COMPILE_BUDGET_NODES.

(** The fields that describe where the parser is; each is put back on the way out. *)
Record context := MkCtx {
  at_event_cond : bool; class_body_depth : Z; class_body_name : bytes; loop_depth : Z; switch_depth : Z; cur_depth : Z }.

Record UParser := MkP {
  q_tok : ParseStr.UParser; q_ctx : context; hidden_serial : Z;
  budget : option UCompileBudget; node_count : Z; budget_err : option budget_error }.

Definition set_tok (t : ParseStr.UParser) (p : UParser) : UParser := MkP t (q_ctx p) (hidden_serial p) (budget p) (node_count p) (budget_err p).
Definition set_ctx (c : context) (p : UParser) : UParser := MkP (q_tok p) c (hidden_serial p) (budget p) (node_count p) (budget_err p).
Definition set_serial (n : Z) (p : UParser) : UParser := MkP (q_tok p) (q_ctx p) n (budget p) (node_count p) (budget_err p).
Definition set_nodes (n : Z) (p : UParser) : UParser := MkP (q_tok p) (q_ctx p) (hidden_serial p) (budget p) n (budget_err p).
Definition set_err (e : budget_error) (p : UParser) : UParser := MkP (q_tok p) (q_ctx p) (hidden_serial p) (budget p) (node_count p) (Some e).

Definition with_at (b : bool) (c : context) : context := MkCtx b (class_body_depth c) (class_body_name c) (loop_depth c) (switch_depth c) (cur_depth c).
Definition with_class (d : Z) (n : bytes) (c : context) : context := MkCtx (at_event_cond c) d n (loop_depth c) (switch_depth c) (cur_depth c).
Definition with_loops (l s : Z) (c : context) : context := MkCtx (at_event_cond c) (class_body_depth c) (class_body_name c) l s (cur_depth c).
Definition with_depth (d : Z) (c : context) : context := MkCtx (at_event_cond c) (class_body_depth c) (class_body_name c) (loop_depth c) (switch_depth c) d.

(** [budget_exceeded]: the latch is set together with its reason. *)
Definition budget_exceeded (p : UParser) : bool := bool_decide (is_Some (budget_err p)).

(** [uparse_init], [uparse_set_budget]. *)
Definition uparse_init (lex : ULexer) (b : option UCompileBudget) : UParser :=
  MkP (ParseStr.MkParser lex None None 0) (MkCtx false 0 [] 0 0 0) 0 b 0 None.

(** ** Outcomes *)

Inductive res (A : Type) := Val (a : A) | Null | Err (e : perror).
Arguments Val {A} a.
Arguments Null {A}.
Arguments Err {A} e.

Definition M (A : Type) : Type := UParser -> option (res A * UParser).
#[export] Instance M_ret : MRet M := fun A a p => Some (Val a, p).
#[export] Instance M_bind : MBind M := fun A B f m p =>
  match m p with
  | Some (Val a, p) => f a p
  | Some (Null, p) => Some (Null, p)
  | Some (Err e, p) => Some (Err e, p)
  | None => None
  end.

Definition fault {A} : M A := fun _ => None.
Definition raise {A} (e : perror) : M A := fun p => Some (Err e, p).
Definition gets {A} (f : UParser -> A) : M A := fun p => Some (Val (f p), p).
Definition modify (f : UParser -> UParser) : M unit := fun p => Some (Val tt, f p).

(** [if (!x) return &uparser_oom_sentinel]. *)
Definition oomed {A} (m : M A) : M A := fun p => match m p with Some (Null, p) => Some (Err uparser_oom_sentinel, p) | r => r end.
(** Two calls in a row, the results tested after both. *)
Definition both {A B} (m : M A) (m' : M B) : M (A * B) := fun p =>
  match m p with
  | Some (Val a, p) => (b ← m'; mret (a, b)) p
  | Some (Null, p) => match m' p with Some (_, p) => Some (Null, p) | None => None end
  | Some (Err e, p) => Some (Err e, p)
  | None => None
  end.
(** [if (err) return err;] where a NULL error node reads as no error, with the answer [a]. *)
Definition returned {A} (a : A) (m : M A) : M A := fun p => match m p with Some (Null, p) => Some (Val a, p) | r => r end.
(** [c] while [m] runs, and back whatever it answers. *)
Definition within {A} (enter leave : context -> context) (m : M A) : M A := fun p =>
  '(r, p) ← m (set_ctx (enter (q_ctx p)) p); Some (r, set_ctx (leave (q_ctx p)) p).

Section Grammar.
Context (strtod : bytes -> spec_float) (grants : nat -> bool).

(** ** The arena *)

(** [uarena_alloc] refuses everything after its first refusal. *)
Definition sticky (k : nat) : bool := forallb grants (seq 0 (S k)).
Definition arena_oom (p : UParser) : bool := negb (forallb grants (seq 0 (ParseStr.p_calls (q_tok p)))).
Definition alloc : M unit := fun p =>
  let q := q_tok p in
  let p' := set_tok (ParseStr.MkParser (ParseStr.p_lex q) (ParseStr.p_peek q) (ParseStr.p_peek2 q) (S (ParseStr.p_calls q))) p in
  Some (if sticky (ParseStr.p_calls q) then Val tt else Null, p').

(** An array and its capacity. *)
Definition new_array {A} (cap : Z) : M (Z * list A) := _ ← oomed alloc; mret (cap, []).
Definition push {A} (arr : Z * list A) (x : A) : M (Z * list A) :=
  if zlen arr.2 =? arr.1 then _ ← oomed alloc; mret (arr.1 * 2, arr.2 ++ [x]) else mret (arr.1, arr.2 ++ [x]).

(** ** Tokens *)

Definition on_tokens (f : ParseStr.UParser -> option (UToken * ParseStr.UParser)) : M UToken := fun p =>
  '(t, q) ← f (q_tok p); Some (Val t, set_tok q p).
Definition peek_token : M UToken := on_tokens (ParseStr.urbi_parse_peek strtod).
Definition peek2_token : M UToken := on_tokens (ParseStr.urbi_parse_peek2 strtod).
Definition consume : M UToken := on_tokens (ParseStr.urbi_parse_consume strtod).

Definition tok_is (ty : UTokenType) (t : UToken) : bool := bool_decide (t_type t = ty).
Definition next_is (ty : UTokenType) : M bool := t ← peek_token; mret (tok_is ty t).
Definition at_tok (t : UToken) : pos := (t_line t, t_col t).

(** [t.u.str], a fault for a token of another kind. *)
Definition name_of (t : UToken) : M bytes := match t_u t with PStr s n => mret (take (Z.to_nat n) (p_bytes s)) | _ => fault end.
(** [urbi_parse_ident_equals]. *)
Definition urbi_parse_ident_equals (name literal : bytes) : bool := bool_decide (name = literal).

(** ** The budget, and nodes *)

Definition budget_enter : M unit := fun p =>
  if budget_exceeded p then Some (Null, p)
  else
    if match budget p with Some b => (0 <? max_parser_depth b) && (max_parser_depth b <=? cur_depth (q_ctx p)) | None => false end
    then Some (Null, set_err URBI_ERR_COMPILE_BUDGET_DEPTH p)
    else Some (Val tt, set_ctx (with_depth (cur_depth (q_ctx p) + 1) (q_ctx p)) p).
Definition budget_leave (c : context) : context := if 0 <? cur_depth c then with_depth (cur_depth c - 1) c else c.
(** [if (!uparse_budget_enter(p)) return NULL; r = ...; uparse_budget_leave(p)]. *)
Definition budgeted {A} (m : M A) : M A := _ ← budget_enter; within id budget_leave m.

Definition make_node : M unit := fun p =>
  if budget_exceeded p then Some (Null, p)
  else
    if match budget p with Some b => (0 <? max_ast_nodes b) && (max_ast_nodes b <=? node_count p) | None => false end
    then Some (Null, set_err URBI_ERR_COMPILE_BUDGET_NODES p)
    else (_ ← alloc; modify (fun p => set_nodes (node_count p + 1) p)) p.
Definition make (n : UAstNode) : M UAstNode := _ ← make_node; mret n.
Definition error_at {A} (code : UParseError) (msg : message) (at_ : pos) : M A := _ ← make_node; raise (MkErr code at_ msg).
Definition make_error {A} (code : UParseError) (at_ : pos) : M A := error_at code MTable at_.

Definition expect (ty : UTokenType) (code : UParseError) : M unit :=
  t ← peek_token; if tok_is ty t then _ ← consume; mret tt else make_error code (at_tok t).

(** ** Function boundaries *)

Definition in_function {A} (m : M A) : M A := fun p =>
  let c := q_ctx p in within (with_loops 0 0) (with_loops (loop_depth c) (switch_depth c)) m p.
Definition in_loop {A} (m : M A) : M A :=
  within (fun c => with_loops (loop_depth c + 1) (switch_depth c) c) (fun c => with_loops (loop_depth c - 1) (switch_depth c) c) m.
Definition in_switch {A} (m : M A) : M A :=
  within (fun c => with_loops (loop_depth c) (switch_depth c + 1) c) (fun c => with_loops (loop_depth c) (switch_depth c - 1) c) m.
Definition in_event_cond {A} (m : M A) : M A := fun p => within (with_at true) (with_at (at_event_cond (q_ctx p))) m p.
Definition in_class {A} (name : bytes) (m : M A) : M A := fun p =>
  within (fun c => with_class (class_body_depth c + 1) name c) (fun c => with_class (class_body_depth c - 1) (class_body_name (q_ctx p)) c) m p.

(** ** Desugaring *)

Fixpoint decimal (fuel : nat) (n : Z) : bytes :=
  match fuel with O => [] | S fuel => (if n / 10 =? 0 then [] else decimal fuel (n / 10)) ++ [48 + n mod 10] end.
(** Byte 1, the tag and a serial number, in a fresh piece of the arena. *)
Definition hidden_name (tag : bytes) : M bytes :=
  serial ← gets hidden_serial;
  _ ← modify (set_serial (u32 (serial + 1)));
  _ ← alloc;
  mret (1 :: take 11 tag ++ decimal 10 serial).

Definition desugar_ident (name : bytes) (l : pos) : M UAstNode := make (AST_IDENT l name).
Definition desugar_str (s : bytes) (l : pos) : M UAstNode := make (AST_STR l s).
Definition desugar_member_get (recv : UAstNode) (name : bytes) (l : pos) : M UAstNode := make (AST_MEMBER_GET l recv name).
Definition desugar_member_set (recv : UAstNode) (name : bytes) (value : UAstNode) (l : pos) : M UAstNode := make (AST_MEMBER_SET l recv name value).
Definition desugar_call (callee : UAstNode) (args : list UAstNode) (l : pos) : M UAstNode := make (AST_CALL l callee args).
Definition desugar_var_decl (name : bytes) (init : UAstNode) (l : pos) : M UAstNode := make (AST_VAR_DECL l name init).
Definition desugar_block (stmts : list UAstNode) (l : pos) : M UAstNode := make (AST_BLOCK l stmts).
(** A method call with its array of arguments, allocated between the two nodes. *)
Definition method_call (recv : UAstNode) (name : bytes) (args : list UAstNode) (l : pos) : M UAstNode :=
  mg ← desugar_member_get recv name l;
  _ ← (match args with [] => mret tt | _ => oomed alloc end);
  desugar_call mg args l.

(** ** The recursive functions *)

Record knot := MkKnot {
  k_expression : Z -> M UAstNode; k_prefix : M UAstNode; k_inner_tier : M UAstNode; k_outer_tier : M UAstNode; k_block : M UAstNode;
  k_if : M UAstNode; k_while : M UAstNode; k_statement : M UAstNode; k_arm : M UAstNode }.

Section Level.
Context (n : nat) (k : knot).

(** [while (peek != stop && peek != EOF) { item; if (peek != ',') break; }]. *)
Fixpoint comma_loop {A} (fuel : nat) (stop : UTokenType) (item : M A) (arr : Z * list A) : M (list A) :=
  match fuel with
  | O => fault
  | S fuel =>
      t ← peek_token;
      if tok_is stop t || tok_is TOK_EOF t then mret arr.2
      else
        x ← item;
        arr ← push arr x;
        c ← next_is TOK_COMMA;
        if c : bool then _ ← consume; comma_loop fuel stop item arr else mret arr.2
  end.

(** ** Pieces of statements that are also atoms (uparse_stmt.c, uparse_react.c) *)

(** [if (!uparse_budget_enter(p)) return &uparser_oom_sentinel; ...]. *)
Definition nested {A} (m : M A) : M A := _ ← oomed budget_enter; within id budget_leave m.

Definition reject_bare_function_forms : M (option UAstNode) :=
  next ← peek_token;
  match t_type next with
  | TOK_LBRACE => error_at PARSE_BARE_FUNCTION (MText (lit "bare 'function { body }' is retired at v1.0")) (at_tok next)
  | TOK_IDENT =>
      name ← consume;
      brace ← next_is TOK_LBRACE;
      if brace : bool then error_at PARSE_BARE_FUNCTION (MText (lit "bare 'function name { body }' is retired at v1.0")) (at_tok name)
      else make_error PARSE_NAMED_FUNCTION_NOT_SUPPORTED (at_tok name)
  | _ => mret None
  end.

(** [pn->u.param.default_expr]; out of memory for the error node reads as no default. *)
Definition parse_optional_param_default (is_lazy : bool) : M (option UAstNode) :=
  eq ← next_is TOK_EQ;
  if negb eq then mret None
  else
    eq ← consume;
    if is_lazy then returned None (error_at PARSE_UNEXPECTED_TOKEN (MText (lit "default value not supported on a lazy parameter")) (at_tok eq))
    else def ← oomed (k_expression k 0); mret (Some def).

(** The node is allocated before its default is parsed. *)
Definition parse_param : M UAstNode :=
  lazy ← next_is TOK_KW_LAZY;
  _ ← (if lazy : bool then _ ← consume; mret tt else mret tt);
  name ← peek_token;
  _ ← expect TOK_IDENT PARSE_EXPECTED_IDENT;
  _ ← oomed make_node;
  id ← name_of name;
  def ← parse_optional_param_default lazy;
  mret (AST_PARAM (at_tok name) id def lazy).

(** [( params ) { body }], shared by functions and properties. *)
Definition params_and_body : M (list UAstNode * UAstNode) :=
  _ ← expect TOK_LPAREN PARSE_EXPECTED_LPAREN;
  arr ← new_array 4;
  params ← comma_loop (S n) TOK_RPAREN parse_param arr;
  _ ← expect TOK_RPAREN PARSE_EXPECTED_RPAREN;
  body ← oomed (in_function (k_block k));
  mret (params, body).

Definition urbi_parse_function : M UAstNode :=
  kw ← consume;
  _ ← returned None reject_bare_function_forms;
  '(params, body) ← params_and_body;
  oomed (make (AST_FUNCTION (at_tok kw) params body)).

(** [recv] is [None] for the implicit receiver of a class body. *)
Definition urbi_parse_property_decl (recv : option UAstNode) (name : UToken) (kind : UAstMethodKind) (l : pos) : M UAstNode :=
  '(params, body) ← params_and_body;
  func ← oomed (make (AST_FUNCTION l params body));
  recv ← (match recv with Some r => mret r | None => cls ← gets (fun p => class_body_name (q_ctx p)); desugar_ident cls l end);
  slot ← name_of name;
  name_str ← desugar_str slot l;
  kind_str ← desugar_str (lit (match kind with UAST_METHOD_GETTER => "oget" | _ => "oset" end)) l;
  mg ← desugar_member_get recv (lit "setProperty") l;
  _ ← oomed alloc;
  desugar_call mg [name_str; kind_str; func] l.

Definition urbi_parse_throw : M UAstNode :=
  kw ← consume;
  value ← oomed (k_expression k 0);
  oomed (make (AST_THROW (at_tok kw) value)).

Definition finally_clause : M (option UAstNode) :=
  fin ← next_is TOK_KW_FINALLY;
  if fin : bool then _ ← consume; b ← oomed (k_block k); mret (Some b) else mret None.

Definition try_node (kw : UToken) (body : UAstNode) (var : option bytes) (catch guard els fin : option UAstNode) : M UAstNode :=
  oomed (make (AST_TRY (at_tok kw) body var catch guard els fin)).

Definition urbi_parse_try : M UAstNode :=
  kw ← consume;
  body ← oomed (k_block k);
  catch ← next_is TOK_KW_CATCH;
  if catch : bool then
    _ ← consume;
    _ ← expect TOK_LPAREN PARSE_EXPECTED_LPAREN;
    var ← next_is TOK_KW_VAR;
    _ ← (if var : bool then _ ← consume; mret tt else mret tt);
    var ← peek_token;
    _ ← expect TOK_IDENT PARSE_EXPECTED_IDENT;
    name ← name_of var;
    guard ← next_is TOK_KW_IF;
    guard ← (if guard : bool then _ ← consume; g ← oomed (k_expression k 0); mret (Some g) else mret None);
    _ ← expect TOK_RPAREN PARSE_EXPECTED_RPAREN;
    handler ← oomed (k_block k);
    els ← next_is TOK_KW_ELSE;
    els ← (if els : bool then _ ← consume; b ← oomed (k_block k); mret (Some b) else mret None);
    fin ← finally_clause;
    try_node kw body (Some name) (Some handler) guard els fin
  else
    fin ← finally_clause;
    match fin with
    | None => make_error PARSE_TRY_NEEDS_CATCH_OR_FINALLY (at_tok kw)
    | Some _ => try_node kw body None None None None fin
    end.

(** [(var x)] after a [?]. *)
Definition parse_event_payload_binding : M (option bytes) :=
  paren ← next_is TOK_LPAREN;
  if negb paren then mret None
  else
    _ ← consume;
    v ← peek_token;
    if negb (tok_is TOK_KW_VAR v) then returned None (make_error PARSE_EVENT_PAYLOAD_BIND_EXPECTED_VAR (at_tok v))
    else
      _ ← consume;
      i ← peek_token;
      if negb (tok_is TOK_IDENT i) then returned None (make_error PARSE_EVENT_PAYLOAD_BIND_EXPECTED_IDENT (at_tok i))
      else
        i ← consume;
        name ← name_of i;
        c ← peek_token;
        if negb (tok_is TOK_RPAREN c) then returned (Some name) (make_error PARSE_EVENT_PAYLOAD_BIND_EXPECTED_RPAREN (at_tok c))
        else _ ← consume; mret (Some name).

Definition urbi_parse_waituntil : M UAstNode :=
  kw ← consume;
  _ ← expect TOK_LPAREN PARSE_EXPECTED_LPAREN;
  cond ← oomed (in_event_cond (k_inner_tier k));
  q ← next_is TOK_QUESTION;
  '(source, payload) ← (if q : bool then _ ← consume; b ← parse_event_payload_binding; mret (UWSRC_EVENT, b) else mret (UWSRC_COND, None));
  _ ← expect TOK_RPAREN PARSE_EXPECTED_RPAREN;
  oomed (make (AST_WATCHER (at_tok kw) UWATCHER_WAITUNTIL source cond None None None payload)).

(** ** Expressions (uparse_expr.c) *)

Definition PARSE_PREC_POSTFIX : Z := 9.
Definition kLShiftSelector : bytes := lit "<<".
Definition kModSelector : bytes := lit "%".
Definition urbi_parse_kEmitMethodName : bytes := lit "emit".

Definition infix_prec (t : UTokenType) : Z :=
  match t with
  | TOK_PIPEPIPE => 1 | TOK_AMPAMP => 2 | TOK_LSHIFT => 3 | TOK_EQEQ | TOK_NEQ => 4 | TOK_LT | TOK_LE | TOK_GT | TOK_GE => 5
  | TOK_PLUS | TOK_MINUS => 6 | TOK_STAR | TOK_SLASH | TOK_PERCENT => 7 | _ => 0
  end.
Definition infix_binop (t : UTokenType) : UAstBinaryOp :=
  match t with TOK_PLUS => BOP_ADD | TOK_MINUS => BOP_SUB | TOK_STAR => BOP_MUL | TOK_SLASH => BOP_DIV | _ => BOP_ADD end.
(** [is_compare_token] and [compare_op]. *)
Definition compare_op (t : UTokenType) : option UAstCompareOp :=
  match t with
  | TOK_EQEQ => Some CMP_EQ | TOK_NEQ => Some CMP_NEQ | TOK_LT => Some CMP_LT | TOK_LE => Some CMP_LE | TOK_GT => Some CMP_GT | TOK_GE => Some CMP_GE | _ => None
  end.

Definition string_bytes (fuel : nat) : M bytes := fun p =>
  '(r, q) ← ParseStr.parse_string_literal strtod sticky fuel (q_tok p);
  Some (match r with Some (buf, len) => Val (take (Z.to_nat len) buf) | None => Null end, set_tok q p).
Definition parse_string_literal : M UAstNode :=
  first ← peek_token; s ← string_bytes (S n); make (AST_STR (at_tok first) s).

(** [( expr )] or a block, run in a strand of its own. *)
Definition parse_detach_or_disown (strand_name : bytes) : M UAstNode :=
  kw ← consume;
  let l := at_tok kw in
  body ← in_function (
    paren ← next_is TOK_LPAREN;
    if paren : bool then _ ← consume; body ← oomed (k_expression k 0); _ ← expect TOK_RPAREN PARSE_EXPECTED_RPAREN; mret body
    else oomed (k_block k));
  fn ← oomed (make (AST_FUNCTION l [] body));
  callee ← oomed (make (AST_IDENT l strand_name));
  _ ← oomed alloc;
  oomed (make (AST_CALL l callee [fn])).
Definition urbi_parse_detach : M UAstNode := parse_detach_or_disown (lit "__detach_strand").
Definition urbi_parse_disown : M UAstNode := parse_detach_or_disown (lit "__disown_strand").

(** [recv.new(args)]; the array of arguments is there already. *)
Definition desugar_new_call (recv_name : bytes) (args : list UAstNode) (l : pos) : M UAstNode :=
  recv ← desugar_ident recv_name l; mg ← desugar_member_get recv (lit "new") l; desugar_call mg args l.

(** Each [k => v] of a dictionary literal as a [set] on what the others built. *)
Fixpoint dict_sets (result : UAstNode) (pairs : list (UAstNode * UAstNode)) (l : pos) : M UAstNode :=
  match pairs with [] => mret result | (key, val) :: pairs => result ← method_call result (lit "set") [key; val] l; dict_sets result pairs l end.

(** After the first element has decided: the elements, or the keys and values. *)
Fixpoint list_loop (fuel : nat) (arr : Z * list UAstNode) : M (list UAstNode) :=
  match fuel with
  | O => fault
  | S fuel =>
      c ← next_is TOK_COMMA;
      if negb c then mret arr.2
      else
        _ ← consume;
        t ← peek_token;
        if tok_is TOK_RBRACKET t || tok_is TOK_EOF t then mret arr.2
        else x ← oomed (k_expression k 0); arr ← push arr x; list_loop fuel arr
  end.

Definition dict_value : M UAstNode := _ ← expect TOK_FAT_ARROW PARSE_DICT_EXPECTED_FAT_ARROW; oomed (k_expression k 0).
(** Both arrays grow when the one of the keys is full. *)
Definition push_pair (arr : Z * list (UAstNode * UAstNode)) (x : UAstNode * UAstNode) : M (Z * list (UAstNode * UAstNode)) :=
  if zlen arr.2 =? arr.1 then _ ← oomed alloc; _ ← oomed alloc; mret (arr.1 * 2, arr.2 ++ [x]) else mret (arr.1, arr.2 ++ [x]).
Fixpoint dict_loop (fuel : nat) (arr : Z * list (UAstNode * UAstNode)) : M (list (UAstNode * UAstNode)) :=
  match fuel with
  | O => fault
  | S fuel =>
      c ← next_is TOK_COMMA;
      if negb c then mret arr.2
      else
        _ ← consume;
        t ← peek_token;
        if tok_is TOK_RBRACKET t || tok_is TOK_EOF t then mret arr.2
        else key ← oomed (k_expression k 0); val ← dict_value; arr ← push_pair arr (key, val); dict_loop fuel arr
  end.

Definition parse_bracket_literal : M UAstNode :=
  lbr ← consume;
  let l := at_tok lbr in
  _ ← oomed alloc;
  t ← peek_token;
  if tok_is TOK_RBRACKET t then _ ← consume; desugar_new_call (lit "List") [] l
  else if tok_is TOK_EOF t then _ ← expect TOK_RBRACKET PARSE_EXPECTED_RBRACKET; desugar_new_call (lit "List") [] l
  else
    first ← oomed (k_expression k 0);
    is_dict ← next_is TOK_FAT_ARROW;
    if is_dict : bool then
      _ ← oomed (both alloc alloc);
      val ← dict_value;
      pairs ← dict_loop (S n) (4, [(first, val)]);
      _ ← expect TOK_RBRACKET PARSE_EXPECTED_RBRACKET;
      result ← desugar_new_call (lit "Dict") [] l;
      dict_sets result pairs l
    else
      elems ← list_loop (S n) (4, [first]);
      _ ← expect TOK_RBRACKET PARSE_EXPECTED_RBRACKET;
      desugar_new_call (lit "List") elems l.

Definition urbi_parse_atom : M UAstNode :=
  t ← peek_token;
  let l := at_tok t in
  match t_type t with
  | TOK_INT => _ ← consume; match t_u t with PInt i => make (AST_INT l i) | _ => fault end
  | TOK_FLOAT => _ ← consume; match t_u t with PFloat f => make (AST_FLOAT_LIT l f) | _ => fault end
  | TOK_STRING => parse_string_literal
  | TOK_IDENT => _ ← consume; id ← name_of t; make (AST_IDENT l id)
  | TOK_KW_TRUE => _ ← consume; make (AST_BOOL l true)
  | TOK_KW_FALSE => _ ← consume; make (AST_BOOL l false)
  | TOK_KW_NIL => _ ← consume; make (AST_NIL l)
  | TOK_KW_THIS => _ ← consume; make (AST_THIS l)
  | TOK_LPAREN => _ ← consume; inner ← k_expression k 0; _ ← expect TOK_RPAREN PARSE_EXPECTED_RPAREN; mret inner
  | TOK_KW_FUNCTION => urbi_parse_function
  | TOK_KW_TRY => urbi_parse_try
  | TOK_KW_THROW => urbi_parse_throw
  | TOK_KW_WAITUNTIL => urbi_parse_waituntil
  | TOK_KW_DETACH => urbi_parse_detach
  | TOK_KW_DISOWN => urbi_parse_disown
  | TOK_KW_CLOSURE => _ ← consume; make_error PARSE_CLOSURE_KEYWORD l
  | TOK_LBRACKET => parse_bracket_literal
  | TOK_EOF => make_error PARSE_UNEXPECTED_EOF l
  | TOK_ERROR => match t_u t with PErr code => error_at PARSE_LEX_ERROR (MLex code) l | _ => fault end
  | _ => make_error PARSE_EXPECTED_EXPRESSION l
  end.

Definition parse_call_args (callee : UAstNode) : M UAstNode :=
  lparen ← consume;
  arr ← new_array 4;
  args ← comma_loop (S n) TOK_RPAREN (oomed (k_inner_tier k)) arr;
  _ ← expect TOK_RPAREN PARSE_EXPECTED_RPAREN;
  oomed (make (AST_CALL (at_tok lparen) callee args)).

Definition get_or_set (name : bytes) : bool := urbi_parse_ident_equals name (lit "get") || urbi_parse_ident_equals name (lit "set").
Definition method_kind (name : bytes) : UAstMethodKind := if urbi_parse_ident_equals name (lit "get") then UAST_METHOD_GETTER else UAST_METHOD_SETTER.
(** [get NAME (] or [set NAME (] ahead; the second token is only asked for when the first fits. *)
Definition property_ahead (name : bytes) : M bool :=
  if negb (get_or_set name) then mret false
  else i ← next_is TOK_IDENT; if negb i then mret false else t ← peek2_token; mret (tok_is TOK_LPAREN t).

(** The flag says that the node is an assignment, which ends the chain. *)
Definition parse_member_access (recv : UAstNode) : M (UAstNode * bool) :=
  op ← consume;
  let l := at_tok op in
  if tok_is TOK_ARROW op then error_at PARSE_UNEXPECTED_TOKEN (MText (lit "arrow access is not supported")) l
  else
    name ← peek_token;
    _ ← expect TOK_IDENT PARSE_EXPECTED_IDENT;
    id ← name_of name;
    prop ← property_ahead id;
    if prop : bool then
      slot ← consume;
      pd ← urbi_parse_property_decl (Some recv) slot (method_kind id) l;
      mret (pd, true)
    else
      eq ← next_is TOK_EQ;
      if eq : bool then
        _ ← consume;
        value ← k_expression k 0;
        node ← desugar_member_set recv id value l;
        mret (node, true)
      else
        node ← desugar_member_get recv id l;
        mret (node, false).

(** [e!], [e!(x)]. *)
Definition urbi_parse_desugar_postfix_emit (recv : UAstNode) (bang : UToken) : M UAstNode :=
  let l := at_tok bang in
  member ← make (AST_MEMBER_GET l recv urbi_parse_kEmitMethodName);
  paren ← next_is TOK_LPAREN;
  if paren : bool then
    _ ← consume;
    t ← peek_token;
    arg ← (if tok_is TOK_RPAREN t || tok_is TOK_EOF t then mret None
           else
             a ← k_inner_tier k;
             c ← next_is TOK_COMMA;
             if c : bool then comma ← consume; make_error PARSE_EMIT_MULTI_ARG_V1 (at_tok comma) else mret (Some a));
    _ ← expect TOK_RPAREN PARSE_EXPECTED_RPAREN;
    _ ← (match arg with Some _ => oomed alloc | None => mret tt end);
    make (AST_CALL l member (match arg with Some a => [a] | None => [] end))
  else make (AST_CALL l member []).

(** [recv[index] += rhs], receiver and index evaluated once. *)
Definition subscript_add (recv index rhs : UAstNode) (l : pos) : M UAstNode :=
  '(rname, iname) ← oomed (both (hidden_name (lit "r")) (hidden_name (lit "idx")));
  '(var_r, var_i) ← both (desugar_var_decl rname recv l) (desugar_var_decl iname index l);
  '(r1, i1) ← both (desugar_ident rname l) (desugar_ident iname l);
  get_call ← method_call r1 (lit "get") [i1] l;
  add ← make (AST_BINARY l BOP_ADD get_call rhs);
  '(r2, i2) ← both (desugar_ident rname l) (desugar_ident iname l);
  set_call ← method_call r2 (lit "set") [i2; add] l;
  _ ← oomed alloc;
  desugar_block [var_r; var_i; set_call] l.

(** After the bracket: [recv[index]], [recv[index] = v], [recv[index] += v]. *)
Definition subscript (recv : UAstNode) (l : pos) : M (UAstNode * bool) :=
  index ← k_expression k 0;
  _ ← expect TOK_RBRACKET PARSE_SUBSCRIPT_EXPECTED_RBRACKET;
  nxt ← peek_token;
  match t_type nxt with
  | TOK_EQ => _ ← consume; val ← k_expression k 0; r ← method_call recv (lit "set") [index; val] l; mret (r, true)
  | TOK_PLUS_EQ => _ ← consume; rhs ← k_expression k 0; r ← subscript_add recv index rhs l; mret (r, true)
  | _ => r ← method_call recv (lit "get") [index] l; mret (r, false)
  end.

(** The node of an infix operator. *)
Definition infix_node (op : UToken) (lhs rhs : UAstNode) : M UAstNode :=
  let l := at_tok op in
  match t_type op with
  | TOK_LSHIFT => method_call lhs kLShiftSelector [rhs] l
  | TOK_PERCENT => method_call lhs kModSelector [rhs] l
  | TOK_AMPAMP => make (AST_LOGICAL l lhs rhs false)
  | TOK_PIPEPIPE => make (AST_LOGICAL l lhs rhs true)
  | ty => match compare_op ty with Some c => make (AST_COMPARE l c lhs rhs) | None => make (AST_BINARY l (infix_binop ty) lhs rhs) end
  end.

Definition is_changed (e : UAstNode) : bool :=
  match e with AST_MEMBER_GET _ _ name => urbi_parse_ident_equals name (lit "changed") | _ => false end.
(** [.changed] read or emitted outside an event condition. *)
Definition reject_bare_changed (e : UAstNode) : M unit :=
  at_ ← gets (fun p => at_event_cond (q_ctx p));
  if negb at_ && is_changed e then
    nxt ← peek_token;
    if tok_is TOK_BANG nxt then make_error PARSE_SLOT_CHANGED_EMIT_V1 (at_tok nxt) else make_error PARSE_SLOT_CHANGED_BARE_V1 (pos_of e)
  else mret tt.

(** One turn of the loop of [urbi_parse_expression_cont]; the flag says go on. *)
Definition cont_turn (lhs : UAstNode) (min_prec : Z) : M (UAstNode * bool) :=
  op ← peek_token;
  let ty := t_type op in
  let infix :=
    let prec := infix_prec ty in
    if (prec <? min_prec) || (prec =? 0) then mret (lhs, false)
    else _ ← consume; right ← k_expression k (prec + 1); node ← infix_node op lhs right; mret (node, true) in
  if negb (min_prec <=? PARSE_PREC_POSTFIX) then infix
  else
    match ty with
    | TOK_LPAREN => node ← parse_call_args lhs; mret (node, true)
    | TOK_DOT | TOK_ARROW =>
        '(node, is_assign) ← parse_member_access lhs;
        if is_assign : bool then mret (node, false) else _ ← reject_bare_changed node; mret (node, true)
    | TOK_BANG => _ ← consume; node ← urbi_parse_desugar_postfix_emit lhs op; mret (node, true)
    | TOK_LBRACKET => _ ← consume; '(node, is_assign) ← subscript lhs (at_tok op); mret (node, negb is_assign)
    | TOK_QUESTION =>
        at_ ← gets (fun p => at_event_cond (q_ctx p));
        if at_ : bool then mret (lhs, false) else _ ← consume; make_error PARSE_QUESTION_OUTSIDE_AT (at_tok op)
    | _ => infix
    end.

Fixpoint urbi_parse_expression_cont (fuel : nat) (lhs : UAstNode) (min_prec : Z) : M UAstNode :=
  match fuel with
  | O => fault
  | S fuel => '(lhs, go) ← cont_turn lhs min_prec; if go : bool then urbi_parse_expression_cont fuel lhs min_prec else mret lhs
  end.

(** A prefix operator and its operand, which takes the postfix operators. *)
Definition unary (op : UAstUnaryOp) (t : UToken) : M UAstNode :=
  _ ← consume;
  operand ← k_prefix k;
  operand ← urbi_parse_expression_cont (S n) operand PARSE_PREC_POSTFIX;
  make (AST_UNARY (at_tok t) op operand).
Definition urbi_parse_prefix : M UAstNode :=
  t ← peek_token;
  match t_type t with
  | TOK_PLUS => _ ← consume; k_prefix k
  | TOK_MINUS => unary UOP_NEG t
  | TOK_BANG => unary UOP_NOT t
  | _ => urbi_parse_atom
  end.

Definition urbi_parse_expression (min_prec : Z) : M UAstNode :=
  budgeted (lhs ← urbi_parse_prefix; urbi_parse_expression_cont (S n) lhs min_prec).

(** ** Separators (uparse_separators.c) *)

Definition at_statement_end : M bool :=
  t ← peek_token; mret (tok_is TOK_EOF t || tok_is TOK_RBRACE t || tok_is TOK_RPAREN t || tok_is TOK_PIPE t).

Definition parse_sep_operand : M UAstNode :=
  t ← peek_token;
  match t_type t with TOK_LBRACE => k_block k | TOK_KW_IF => k_if k | TOK_KW_WHILE => k_while k | _ => k_expression k 0 end.

(** [run]: the separator and the array of the AST_SEQ being built, whose
    position is [l]; [lhs] is that node. *)
Fixpoint fold_loop (fuel : nat) (lhs : UAstNode) (run : option (UAstSeparator * pos * (Z * list UAstNode))) : M UAstNode :=
  match fuel with
  | O => fault
  | S fuel =>
      sep ← peek_token;
      if negb (tok_is TOK_PIPE sep || tok_is TOK_AMP sep) then mret lhs
      else
        _ ← consume;
        let s := if tok_is TOK_PIPE sep then SEP_PIPE else SEP_AMP in
        e ← at_statement_end;
        t ← peek_token;
        if e || tok_is TOK_SEMI t || tok_is TOK_COMMA t || tok_is TOK_PIPE t then
          match s with SEP_PIPE => mret lhs | _ => make_error PARSE_TRAILING_AMP (at_tok sep) end
        else
          rhs ← parse_sep_operand;
          let fresh :=
            _ ← oomed alloc;
            node ← make (AST_SEQ (at_tok sep) s [lhs; rhs]);
            fold_loop fuel node (Some (s, at_tok sep, (4, [lhs; rhs]))) in
          match run with
          | Some (cur_sep, l, arr) =>
              if decide (cur_sep = s) then arr ← push arr rhs; fold_loop fuel (AST_SEQ l s arr.2) (Some (s, l, arr))
              else fresh
          | None => fresh
          end
  end.
Definition urbi_parse_pipe_amp_fold (lhs : UAstNode) : M UAstNode := fold_loop (S n) lhs None.
Definition urbi_parse_inner_tier : M UAstNode := lhs ← urbi_parse_expression 0; urbi_parse_pipe_amp_fold lhs.

(** ** Blocks and arms (uparse_stmt.c) *)

(** [while (peek != '}' && peek != EOF) { outer tier; separator or break }]. *)
Fixpoint block_loop (fuel : nat) (arr : Z * list UAstNode) : M (list UAstNode) :=
  match fuel with
  | O => fault
  | S fuel =>
      t ← peek_token;
      if tok_is TOK_RBRACE t || tok_is TOK_EOF t then mret arr.2
      else
        s ← oomed (k_outer_tier k);
        arr ← push arr s;
        sep ← peek_token;
        if tok_is TOK_SEMI sep || tok_is TOK_PIPE sep then _ ← consume; block_loop fuel arr else mret arr.2
  end.
Definition parse_block_body : M UAstNode :=
  lbrace ← peek_token;
  _ ← expect TOK_LBRACE PARSE_EXPECTED_LBRACE;
  arr ← new_array 4;
  stmts ← block_loop (S n) arr;
  _ ← expect TOK_RBRACE PARSE_EXPECTED_RBRACE;
  oomed (make (AST_BLOCK (at_tok lbrace) stmts)).
Definition urbi_parse_block : M UAstNode := nested parse_block_body.

(** A single statement as a block. *)
Definition parse_single_stmt_body : M UAstNode :=
  t ← peek_token;
  stmt ← oomed (k_arm k);
  _ ← oomed alloc;
  oomed (make (AST_BLOCK (at_tok t) [stmt])).
Definition parse_single_stmt_as_block : M UAstNode := nested parse_single_stmt_body.

Definition parse_arm : M UAstNode := brace ← next_is TOK_LBRACE; if brace : bool then k_block k else parse_single_stmt_as_block.

Definition paren_inner : M UAstNode :=
  _ ← expect TOK_LPAREN PARSE_EXPECTED_LPAREN; cond ← oomed (k_inner_tier k); _ ← expect TOK_RPAREN PARSE_EXPECTED_RPAREN; mret cond.

Definition urbi_parse_while : M UAstNode :=
  kw ← consume;
  cond ← paren_inner;
  body ← oomed (in_loop parse_arm);
  oomed (make (AST_WHILE (at_tok kw) cond body)).

Definition urbi_parse_if : M UAstNode :=
  kw ← consume;
  cond ← paren_inner;
  then_block ← oomed parse_arm;
  els ← next_is TOK_KW_ELSE;
  els ← (if els : bool then _ ← consume; b ← oomed parse_arm; mret (Some b) else mret None);
  oomed (make (AST_IF (at_tok kw) cond then_block els)).

(** ** Reactive statements (uparse_react.c) *)

Definition parse_reactive_body : M UAstNode :=
  t ← peek_token;
  if tok_is TOK_LBRACE t then k_block k
  else
    stmt ← oomed (nested (k_arm k));
    _ ← oomed alloc;
    oomed (make (AST_BLOCK (at_tok t) [stmt])).

(** The clause after keyword [kw], if it is there. *)
Definition reactive_clause (kw : UTokenType) : M (option UAstNode) :=
  c ← next_is kw;
  if c : bool then _ ← consume; b ← oomed parse_reactive_body; mret (Some b) else mret None.

(** [obj.x.changed]: the object and the name of the slot. *)
Definition slot_change (cond : UAstNode) : option (UAstNode * bytes) :=
  match cond with
  | AST_MEMBER_GET _ (AST_MEMBER_GET _ recv slot) name => if urbi_parse_ident_equals name (lit "changed") then Some (recv, slot) else None
  | _ => None
  end.

Definition parse_event_form (kw : UToken) (cond : UAstNode) (mode : watch_mode) (allow_slot_change : bool) : M UAstNode :=
  payload ← parse_event_payload_binding;
  _ ← expect TOK_RPAREN PARSE_EXPECTED_RPAREN;
  '(body, onleave) ← in_function (body ← oomed parse_reactive_body; onleave ← reactive_clause TOK_KW_ONLEAVE; mret (body, onleave));
  match (if allow_slot_change then slot_change cond else None) with
  | Some (recv, slot) => oomed (make (AST_WATCHER (at_tok kw) mode (UWSRC_SLOT_CHANGE slot) recv (Some body) None onleave payload))
  | None => oomed (make (AST_WATCHER (at_tok kw) mode UWSRC_EVENT cond (Some body) None onleave payload))
  end.

Definition parse_at_cond_form (kw : UToken) (cond : UAstNode) (mode : watch_mode) : M UAstNode :=
  _ ← expect TOK_RPAREN PARSE_EXPECTED_RPAREN;
  '(body, onleave) ← in_function (
    body ← oomed parse_reactive_body;
    c ← next_is TOK_KW_ONLEAVE;
    if c && bool_decide (mode = UWATCHER_AT_SYNC) then ol ← consume; make_error PARSE_AT_SYNC_DOES_NOT_SUPPORT_ONLEAVE (at_tok ol)
    else onleave ← reactive_clause TOK_KW_ONLEAVE; mret (body, onleave));
  oomed (make (AST_WATCHER (at_tok kw) mode UWSRC_COND cond (Some body) None onleave None)).

Definition urbi_parse_at : M UAstNode :=
  kw ← consume;
  md ← peek_token;
  mode ← (match t_type md with TOK_KW_SYNC => _ ← consume; mret UWATCHER_AT_SYNC | TOK_KW_ASYNC => _ ← consume; mret UWATCHER_AT | _ => mret UWATCHER_AT end);
  _ ← expect TOK_LPAREN PARSE_EXPECTED_LPAREN;
  cond ← oomed (in_event_cond (k_inner_tier k));
  q ← next_is TOK_QUESTION;
  if q : bool then _ ← consume; parse_event_form kw cond mode true else parse_at_cond_form kw cond mode.

Definition urbi_parse_whenever : M UAstNode :=
  kw ← consume;
  _ ← expect TOK_LPAREN PARSE_EXPECTED_LPAREN;
  cond ← oomed (in_event_cond (k_inner_tier k));
  q ← next_is TOK_QUESTION;
  if q : bool then _ ← consume; parse_event_form kw cond UWATCHER_WHENEVER false
  else
    _ ← expect TOK_RPAREN PARSE_EXPECTED_RPAREN;
    '(body, onleave, els) ← in_function (
      body ← oomed parse_reactive_body; onleave ← reactive_clause TOK_KW_ONLEAVE; els ← reactive_clause TOK_KW_ELSE; mret (body, onleave, els));
    oomed (make (AST_WATCHER (at_tok kw) UWATCHER_WHENEVER UWSRC_COND cond (Some body) els onleave None)).

(** [every (period) body] is the call [every(period, function () body)]. *)
Definition urbi_parse_every : M UAstNode :=
  kw ← consume;
  let l := at_tok kw in
  period ← paren_inner;
  body ← oomed (in_function parse_reactive_body);
  fn ← oomed (make (AST_FUNCTION l [] body));
  callee ← oomed (make (AST_IDENT l (lit "every")));
  _ ← oomed alloc;
  oomed (make (AST_CALL l callee [period; fn])).

(** After the colon of [tag: body]. *)
Definition parse_tag_prefix_body (tag_expr : UAstNode) (l : pos) : M UAstNode :=
  brace ← next_is TOK_LBRACE;
  body ← (if brace : bool then oomed (k_block k)
          else
            stmt ← oomed (nested (k_statement k));
            _ ← oomed make_node;
            _ ← oomed alloc;
            mret (AST_BLOCK l [stmt]));
  oomed (make (AST_TAG_PREFIX l tag_expr body)).
Definition urbi_parse_tag_prefix (name : UToken) : M UAstNode :=
  _ ← consume; id ← name_of name; tag_expr ← oomed (make (AST_IDENT (at_tok name) id)); parse_tag_prefix_body tag_expr (at_tok name).
Definition urbi_parse_tag_prefix_from_expr (tag_expr : UAstNode) : M UAstNode := _ ← consume; parse_tag_prefix_body tag_expr (pos_of tag_expr).

(** ** Statements (uparse_stmt.c) *)

Definition reserved_name (t : UTokenType) : bool :=
  match t with TOK_KW_AT | TOK_KW_WHENEVER | TOK_KW_WAITUNTIL | TOK_KW_ONLEAVE | TOK_KW_SYNC | TOK_KW_ASYNC => true | _ => false end.

(** At the dot of [var a.b.c = v]. *)
Fixpoint slot_decl_loop (fuel : nat) (recv : UAstNode) : M UAstNode :=
  match fuel with
  | O => fault
  | S fuel =>
      _ ← consume;
      slot ← peek_token;
      _ ← expect TOK_IDENT PARSE_EXPECTED_IDENT;
      name ← name_of slot;
      dot ← next_is TOK_DOT;
      if dot : bool then mg ← make (AST_MEMBER_GET (at_tok slot) recv name); slot_decl_loop fuel mg
      else
        _ ← expect TOK_EQ PARSE_VAR_OBJ_SLOT_NO_INIT;
        val ← k_expression k 0;
        make (AST_MEMBER_SET (at_tok slot) recv name val)
  end.

Definition parse_var_decl : M UAstNode :=
  kw ← consume;
  name ← peek_token;
  if reserved_name (t_type name) then make_error PARSE_RESERVED_KEYWORD_AS_IDENT (at_tok name)
  else
    _ ← expect TOK_IDENT PARSE_EXPECTED_IDENT;
    id ← name_of name;
    dot ← next_is TOK_DOT;
    if dot : bool then recv ← make (AST_IDENT (at_tok name) id); slot_decl_loop (S n) recv
    else
      eq ← next_is TOK_EQ;
      init ← (if eq : bool then _ ← consume; k_expression k 0 else make (AST_NIL (at_tok name)));
      make (AST_VAR_DECL (at_tok kw) id init).

Definition parse_assign_after_eq_peek (name : UToken) : M UAstNode :=
  _ ← consume; value ← k_expression k 0; id ← name_of name; make (AST_ASSIGN (at_tok name) id value).

(** [fold]: whether a trailing [|] or [&] belongs to the statement. *)
Definition parse_assign_or_expr_impl (name : UToken) (fold : bool) : M UAstNode :=
  id ← name_of name;
  prop ← property_ahead id;
  if prop : bool then
    depth ← gets (fun p => class_body_depth (q_ctx p));
    if depth =? 0 then make_error PARSE_TOPLEVEL_GETSET_NOT_SUPPORTED (at_tok name)
    else slot ← consume; urbi_parse_property_decl None slot (method_kind id) (at_tok name)
  else
    t ← peek_token;
    match t_type t with
    | TOK_EQ => parse_assign_after_eq_peek name
    | TOK_COLON => urbi_parse_tag_prefix name
    | _ =>
        lhs ← make (AST_IDENT (at_tok name) id);
        lhs ← urbi_parse_expression_cont (S n) lhs 0;
        colon ← next_is TOK_COLON;
        if colon : bool then urbi_parse_tag_prefix_from_expr lhs
        else if fold then urbi_parse_pipe_amp_fold lhs else mret lhs
    end.

(** The leaves of a class body, whatever separators join them. *)
Fixpoint flatten_class_body_stmt (stmt : UAstNode) (arr : Z * list UAstNode) : M (Z * list UAstNode) :=
  match stmt with
  | AST_SEQ _ _ children => (fix go l arr : M (Z * list UAstNode) := match l with [] => mret arr | s :: l => arr ← flatten_class_body_stmt s arr; go l arr end) children arr
  | _ => push arr stmt
  end.
Fixpoint flatten_all (stmts : list UAstNode) (arr : Z * list UAstNode) : M (Z * list UAstNode) :=
  match stmts with [] => mret arr | s :: stmts => arr ← flatten_class_body_stmt s arr; flatten_all stmts arr end.

Definition is_setproperty_call (e : UAstNode) : bool :=
  match e with AST_CALL _ (AST_MEMBER_GET _ _ name) [_; _; _] => urbi_parse_ident_equals name (lit "setProperty") | _ => false end.

Fixpoint proto_loop (fuel : nat) (arr : Z * list UAstNode) : M (list UAstNode) :=
  match fuel with
  | O => fault
  | S fuel =>
      proto ← k_prefix k;
      arr ← push arr proto;
      c ← next_is TOK_COMMA;
      if c : bool then _ ← consume; proto_loop fuel arr else mret arr.2
  end.

(** [: public P1, P2]. *)
Definition class_protos : M (list UAstNode) :=
  colon ← next_is TOK_COLON;
  if negb colon then mret []
  else
    _ ← consume;
    pub ← peek_token;
    if negb (tok_is TOK_KW_PUBLIC pub) then error_at PARSE_UNEXPECTED_TOKEN (MText (lit "expected 'public' after ':' in class declaration")) (at_tok pub)
    else _ ← consume; arr ← new_array 4; proto_loop (S n) arr.

(** [cls.protos().insertFront(P)], the last of them first. *)
Fixpoint insert_protos (cls : bytes) (l : pos) (protos : list UAstNode) : M (list UAstNode) :=
  match protos with
  | [] => mret []
  | proto :: protos =>
      self ← desugar_ident cls l;
      chain ← method_call self (lit "protos") [] l;
      call ← method_call chain (lit "insertFront") [proto] l;
      calls ← insert_protos cls l protos;
      mret (call :: calls)
  end.

Fixpoint class_statements (cls : bytes) (leaves : list UAstNode) : M (list UAstNode) :=
  match leaves with
  | [] => mret []
  | leaf :: leaves =>
      s ← (match leaf with
           | AST_VAR_DECL l name init => self ← desugar_ident cls l; desugar_member_set self name init l
           | _ => if is_setproperty_call leaf then mret leaf else make_error PARSE_CLASS_BODY_STATEMENT (pos_of leaf)
           end);
      rest ← class_statements cls leaves;
      mret (s :: rest)
  end.

Definition parse_class_declaration : M UAstNode :=
  kw ← consume;
  let l := at_tok kw in
  name ← peek_token;
  _ ← expect TOK_IDENT PARSE_EXPECTED_IDENT;
  id ← name_of name;
  protos ← class_protos;
  brace ← peek_token;
  if negb (tok_is TOK_LBRACE brace) then make_error PARSE_EXPECTED_LBRACE (at_tok brace)
  else
    cls ← oomed (hidden_name (lit "cls"));
    body ← in_class cls (k_block k);
    match body with
    | AST_BLOCK _ stmts =>
        arr ← new_array 8;
        arr ← flatten_all stmts arr;
        _ ← oomed alloc;
        obj ← desugar_ident (lit "Object") l;
        clone ← method_call obj (lit "clone") [] l;
        var_cls ← desugar_var_decl cls clone l;
        calls ← insert_protos cls l (rev protos);
        slots ← class_statements cls arr.2;
        self ← desugar_ident cls l;
        inner ← desugar_block (var_cls :: calls ++ slots ++ [self]) l;
        desugar_var_decl id inner l
    | _ => fault
    end.

Definition parse_return : M UAstNode :=
  kw ← consume;
  t ← peek_token;
  value ← (match t_type t with
           | TOK_EOF | TOK_RBRACE | TOK_RPAREN | TOK_PIPE | TOK_SEMI | TOK_COMMA => mret None
           | _ => v ← oomed (k_expression k 0); mret (Some v)
           end);
  oomed (make (AST_RETURN (at_tok kw) value)).

Definition is_blank (c : Z) : bool := (c =? 32) || (c =? 9) || (c =? 13) || (c =? 10).
(** Without the blanks at its end. *)
Definition trim_end (s : bytes) : bytes := rev (drop (run is_blank (rev s)) (rev s)).
(** The lexer's cursor past the blanks. *)
Definition span_start : M ptr := gets (fun p => let cur := l_cur (ParseStr.p_lex (q_tok p)) in p_adv (run is_blank (p_bytes cur)) cur).
(** The offset where the peeked token starts, or the cursor's. *)
Definition span_end : M Z := gets (fun p =>
  let cur := p_off (l_cur (ParseStr.p_lex (q_tok p))) in match ParseStr.p_peek (q_tok p) with Some t => cur - t_len t | None => cur end).
(** The source between the two; a fault when they are the wrong way round. *)
Definition span (start : ptr) (end_ : Z) : M bytes :=
  if end_ <? p_off start then fault else mret (trim_end (take (Z.to_nat (end_ - p_off start)) (p_bytes start))).

(** [if (!cond) throw msg]. *)
Definition assert_node (cond : UAstNode) (msg : bytes) (l : pos) : M UAstNode :=
  cond ← make (AST_UNARY l UOP_NOT cond);
  m ← desugar_str msg l;
  throw ← make (AST_THROW l m);
  _ ← oomed alloc;
  then_block ← desugar_block [throw] l;
  make (AST_IF l cond then_block None).

Definition urbi_parse_assert : M UAstNode :=
  kw ← consume;
  brace ← next_is TOK_LBRACE;
  if brace : bool then block ← oomed (k_block k); assert_node block (lit "assertion failed") (at_tok kw)
  else
    _ ← expect TOK_LPAREN PARSE_EXPECTED_LPAREN;
    start ← span_start;
    expr ← oomed (k_inner_tier k);
    end_ ← span_end;
    _ ← expect TOK_RPAREN PARSE_EXPECTED_RPAREN;
    text ← span start end_;
    _ ← oomed alloc;
    assert_node expr (lit "assertion failed: " ++ text) (at_tok kw).

Definition for_separator (t : UToken) : M bool :=
  match t_type t with TOK_COLON => mret true | TOK_IDENT => name ← name_of t; mret (urbi_parse_ident_equals name (lit "in")) | _ => mret false end.

(** The loop [for (var name : iter) body] stands for. *)
Definition for_block (l : pos) (var : UToken) (iter body : UAstNode) : M UAstNode :=
  '(it, nm, i) ← oomed (both (both (hidden_name (lit "it")) (hidden_name (lit "n"))) (hidden_name (lit "i")));
  var_it ← desugar_var_decl it iter l;
  it1 ← desugar_ident it l;
  len ← method_call it1 (lit "length") [] l;
  var_n ← desugar_var_decl nm len l;
  zero ← make (AST_INT l 0);
  var_i ← desugar_var_decl i zero l;
  '(i1, n1) ← both (desugar_ident i l) (desugar_ident nm l);
  cond ← make (AST_COMPARE l CMP_LT i1 n1);
  '(it2, i2) ← both (desugar_ident it l) (desugar_ident i l);
  get_call ← method_call it2 (lit "get") [i2] l;
  x ← name_of var;
  var_x ← desugar_var_decl x get_call (at_tok var);
  i3 ← desugar_ident i l;
  one ← make (AST_INT l 1);
  inc ← make (AST_BINARY l BOP_ADD i3 one);
  assign_i ← make (AST_ASSIGN l i inc);
  _ ← oomed alloc;
  while_body ← desugar_block [var_x; assign_i; body] l;
  while_node ← make (AST_WHILE l cond while_body);
  _ ← oomed alloc;
  desugar_block [var_it; var_n; var_i; while_node] l.

Definition parse_for : M UAstNode :=
  kw ← consume;
  _ ← expect TOK_LPAREN PARSE_EXPECTED_LPAREN;
  _ ← expect TOK_KW_VAR PARSE_FOR_EXPECTED_VAR;
  var ← peek_token;
  _ ← expect TOK_IDENT PARSE_EXPECTED_IDENT;
  sep ← peek_token;
  ok ← for_separator sep;
  if negb ok then make_error PARSE_FOR_EXPECTED_COLON_OR_IN (at_tok sep)
  else
    _ ← consume;
    iter ← oomed (k_inner_tier k);
    _ ← expect TOK_RPAREN PARSE_EXPECTED_RPAREN;
    body ← oomed (in_loop (k_block k));
    for_block (at_tok kw) var iter body.

Definition parse_break : M UAstNode :=
  kw ← consume;
  c ← gets q_ctx;
  if (loop_depth c =? 0) && (switch_depth c =? 0) then make_error PARSE_BREAK_OUTSIDE_LOOP (at_tok kw) else oomed (make (AST_BREAK (at_tok kw))).
Definition parse_continue : M UAstNode :=
  kw ← consume;
  c ← gets q_ctx;
  if loop_depth c =? 0 then make_error PARSE_CONTINUE_OUTSIDE_LOOP (at_tok kw) else oomed (make (AST_CONTINUE (at_tok kw))).

(** *** switch *)

Fixpoint skip_separators (fuel : nat) : M unit :=
  match fuel with
  | O => fault
  | S fuel => t ← peek_token; if tok_is TOK_SEMI t || tok_is TOK_PIPE t then _ ← consume; skip_separators fuel else mret tt
  end.

(** The statements of an arm; separators between them may be missing. *)
Fixpoint arm_loop (fuel : nat) (arr : Z * list UAstNode) : M (list UAstNode) :=
  match fuel with
  | O => fault
  | S fuel =>
      t ← peek_token;
      match t_type t with
      | TOK_KW_CASE | TOK_KW_DEFAULT | TOK_RBRACE | TOK_EOF => mret arr.2
      | _ =>
          s ← oomed (k_statement k);
          arr ← push arr s;
          sep ← peek_token;
          _ ← (if tok_is TOK_SEMI sep || tok_is TOK_PIPE sep then _ ← consume; mret tt else mret tt);
          arm_loop fuel arr
      end
  end.
Definition switch_arm (l : pos) : M UAstNode :=
  arr ← new_array 4; stmts ← arm_loop (S n) arr; oomed (make (AST_BLOCK l stmts)).
Definition switch_colon : M unit :=
  colon ← peek_token; if tok_is TOK_COLON colon then _ ← consume; mret tt else make_error PARSE_SWITCH_EXPECTED_COLON (at_tok colon).

Fixpoint switch_loop (fuel : nat) (cases : Z * list (UAstNode * UAstNode)) (dflt : option UAstNode) : M (list (UAstNode * UAstNode) * option UAstNode) :=
  match fuel with
  | O => fault
  | S fuel =>
      t ← peek_token;
      if tok_is TOK_RBRACE t || tok_is TOK_EOF t then mret (cases.2, dflt)
      else
        _ ← skip_separators (S n);
        t ← peek_token;
        match t_type t with
        | TOK_RBRACE | TOK_EOF => mret (cases.2, dflt)
        | TOK_KW_DEFAULT =>
            match dflt with
            | Some _ => make_error PARSE_SWITCH_DUPLICATE_DEFAULT (at_tok t)
            | None => _ ← consume; _ ← switch_colon; body ← switch_arm (at_tok t); switch_loop fuel cases (Some body)
            end
        | TOK_KW_CASE =>
            _ ← consume;
            val ← oomed (k_expression k 0);
            _ ← switch_colon;
            body ← switch_arm (at_tok t);
            cases ← push_pair cases (val, body);
            switch_loop fuel cases dflt
        | _ => make_error PARSE_SWITCH_EXPECTED_CASE (at_tok t)
        end
  end.

Definition parse_switch : M UAstNode :=
  kw ← consume;
  expr ← paren_inner;
  _ ← expect TOK_LBRACE PARSE_EXPECTED_LBRACE;
  _ ← oomed (both alloc alloc);
  '(cases, dflt) ← in_switch (switch_loop (S n) (4, []) None);
  _ ← expect TOK_RBRACE PARSE_EXPECTED_RBRACE;
  oomed (make (AST_SWITCH (at_tok kw) expr cases.*1 cases.*2 dflt)).

(** *** Dispatch *)

(** [m], and the [|] and [&] after it. *)
Definition folded (m : M UAstNode) : M UAstNode := node ← m; urbi_parse_pipe_amp_fold node.

Definition urbi_parse_statement_or_expr : M UAstNode :=
  t ← peek_token;
  match t_type t with
  | TOK_KW_WHILE => folded urbi_parse_while
  | TOK_KW_IF => folded urbi_parse_if
  | TOK_KW_VAR => parse_var_decl
  | TOK_KW_RETURN => parse_return
  | TOK_KW_TRY => urbi_parse_try
  | TOK_KW_THROW => urbi_parse_throw
  | TOK_KW_AT => folded urbi_parse_at
  | TOK_KW_WHENEVER => folded urbi_parse_whenever
  | TOK_KW_WAITUNTIL => urbi_parse_waituntil
  | TOK_KW_EVERY => folded urbi_parse_every
  | TOK_KW_CLASS => parse_class_declaration
  | TOK_KW_ASSERT => urbi_parse_assert
  | TOK_KW_FOR => parse_for
  | TOK_KW_BREAK => parse_break
  | TOK_KW_CONTINUE => parse_continue
  | TOK_KW_SWITCH => parse_switch
  | TOK_KW_DETACH => urbi_parse_detach
  | TOK_KW_DISOWN => urbi_parse_disown
  | TOK_LBRACE => folded urbi_parse_block
  | TOK_IDENT => name ← consume; parse_assign_or_expr_impl name true
  | _ => urbi_parse_inner_tier
  end.

Definition urbi_parse_arm_stmt : M UAstNode :=
  t ← peek_token;
  match t_type t with
  | TOK_KW_WHILE => urbi_parse_while
  | TOK_KW_IF => urbi_parse_if
  | TOK_KW_VAR => parse_var_decl
  | TOK_KW_RETURN => parse_return
  | TOK_KW_TRY => urbi_parse_try
  | TOK_KW_THROW => urbi_parse_throw
  | TOK_KW_AT => urbi_parse_at
  | TOK_KW_WHENEVER => urbi_parse_whenever
  | TOK_KW_WAITUNTIL => urbi_parse_waituntil
  | TOK_KW_EVERY => urbi_parse_every
  | TOK_KW_CLASS => parse_class_declaration
  | TOK_KW_ASSERT => urbi_parse_assert
  | TOK_KW_FOR => parse_for
  | TOK_KW_BREAK => parse_break
  | TOK_KW_CONTINUE => parse_continue
  | TOK_KW_SWITCH => parse_switch
  | TOK_KW_DETACH => urbi_parse_detach
  | TOK_KW_DISOWN => urbi_parse_disown
  | TOK_LBRACE => urbi_parse_block
  | TOK_IDENT => name ← consume; parse_assign_or_expr_impl name false
  | _ => urbi_parse_expression 0
  end.

(** ** Sequences of statements (uparse_separators.c) *)

Definition separator (t : UToken) : option UAstSeparator :=
  match t_type t with TOK_SEMI => Some SEP_SEMI | TOK_COMMA => Some SEP_COMMA | _ => None end.

Fixpoint outer_loop (fuel : nat) (sep_kind : UAstSeparator) (arr : Z * list UAstNode) : M (list UAstNode) :=
  match fuel with
  | O => fault
  | S fuel =>
      child ← urbi_parse_statement_or_expr;
      arr ← push arr child;
      s ← peek_token;
      match separator s with
      | None => mret arr.2
      | Some s_kind =>
          if decide (s_kind = sep_kind) then
            _ ← consume; e ← at_statement_end; if e : bool then mret arr.2 else outer_loop fuel sep_kind arr
          else _ ← consume; error_at PARSE_UNEXPECTED_TOKEN (MText (lit "mixing ';' and ',' in same group is ambiguous; group with parens")) (at_tok s)
      end
  end.

Definition urbi_parse_outer_tier : M UAstNode :=
  first ← urbi_parse_statement_or_expr;
  sep ← peek_token;
  match separator sep with
  | None => mret first
  | Some kind =>
      _ ← consume;
      e ← at_statement_end;
      if e : bool then mret first
      else
        _ ← oomed alloc;
        children ← outer_loop (S n) kind (8, [first]);
        make (AST_SEQ (pos_of first) kind children)
  end.
End Level.

Fixpoint parser (fuel : nat) : knot :=
  match fuel with
  | O => MkKnot (fun _ => fault) fault fault fault fault fault fault fault fault
  | S n =>
      let k := parser n in
      MkKnot (urbi_parse_expression n k) (urbi_parse_prefix n k) (urbi_parse_inner_tier n k) (urbi_parse_outer_tier n k) (urbi_parse_block n k)
        (urbi_parse_if k) (urbi_parse_while k) (urbi_parse_statement_or_expr n k) (urbi_parse_arm_stmt n k)
  end.

(** ** The entry point (uparse_top.c) *)

Fixpoint sync_to_statement_boundary (fuel : nat) : M unit :=
  match fuel with
  | O => fault
  | S fuel =>
      t ← peek_token;
      match t_type t with TOK_PIPE => _ ← consume; mret tt | TOK_EOF => mret tt | _ => _ ← consume; sync_to_statement_boundary fuel end
  end.

(** NULL at the end of the source, a statement, or an error node. *)
Inductive statement := End_of_source | Statement (s : UAstNode) | Bad (e : perror).

Definition uparse_next_statement (fuel : nat) (p : UParser) : option (statement * UParser) :=
  let sentinel p := Some (Bad uparser_oom_sentinel, p) in
  let synced e p := '(_, p) ← sync_to_statement_boundary (S (S fuel)) p; Some (Bad e, p) in
  if arena_oom p then sentinel p
  else
    '(t, p) ← peek_token p;
    match t with
    | Val t =>
        if tok_is TOK_EOF t then Some (End_of_source, p)
        else
          '(r, p) ← k_outer_tier (parser (S fuel)) p;
          if arena_oom p then sentinel p
          else
            match r with
            | Null => sentinel p
            | Err e => synced e p
            | Val s =>
                '(t, p) ← peek_token p;
                match t with
                | Val t =>
                    match t_type t with
                    | TOK_PIPE => '(_, p) ← consume p; Some (Statement s, p)
                    | TOK_EOF => Some (Statement s, p)
                    | _ =>
                        '(r, p) ← @make_error UAstNode PARSE_UNEXPECTED_TOKEN (at_tok t) p;
                        if arena_oom p then sentinel p else match r with Err e => synced e p | _ => sentinel p end
                    end
                | _ => None
                end
            end
    | _ => None
    end.
End Grammar.

End Parse.
