(* ===== verification/ParseFacts.v ===== *)
(** * Facts about the parser

    Every function of [Parse], at a state that is well formed and with a level
    of the knot per byte ahead, comes back; whatever it answers it has moved
    forward only and has put back the counters it raised; a node it answers
    has no more nodes than it allocated and its jumps stand inside loops
    ([runs]).  The specifications are proved function by function and tied by
    induction over the levels. *)
From Stdlib Require Import Ascii String SpecFloat.
From S2P Require Import Prelude Text Lex LexFacts ParseStr Ast Parse.
Import Lex LexFacts Ast Parse.

Module ParseFacts.

(** ** What the lexer puts into a token *)

Definition payload_ok (t : UToken) : Prop :=
  match t_type t with
  | TOK_INT => exists i, t_u t = PInt i
  | TOK_FLOAT => exists f, t_u t = PFloat f
  | TOK_IDENT => exists s n, t_u t = PStr s n
  | TOK_ERROR => exists c, t_u t = PErr c
  | _ => True
  end.
Definition payloaded (r : UToken * ULexer) : Prop := payload_ok r.1.

Lemma payload_error code line col len : payload_ok (Lex.make_error code line col len).
Proof. by exists code. Qed.

Lemma accumulate_payload lex start line col base err : (accumulate_digits lex start line col base).1 = inr err -> payload_ok err.
Proof. unfold accumulate_digits. destruct (acc_loop _ _ _ _) as [n [v|c e]]; cbn; [done|]. intros [= <-]. apply payload_error. Qed.

Lemma radix_payload lex start line col base code : payloaded (scan_radix lex start line col base code).
Proof.
  unfold scan_radix. destruct (rest lex) as [|c0 s]; [apply payload_error|]. destruct (c0 =? 95); [apply payload_error|].
  destruct (digit_value c0 base); [|destruct (_ || _); apply payload_error].
  pose proof (accumulate_payload lex start line col base) as H. destruct (accumulate_digits _ _ _ _ _) as [[v|err] l]; [by exists v|]. by apply H.
Qed.

Lemma float_payload strtod lex start line col : payloaded (scan_float_body strtod lex start line col).
Proof.
  unfold scan_float_body. pose proof (fraction_spec lex start line col) as [_ H1]. destruct (scan_fraction _ _ _ _) as [[err|] l1]; cbn in H1.
  { destruct H1 as (c & n & ->). apply payload_error. }
  pose proof (exponent_spec l1 start line col) as [_ H2]. destruct (scan_exponent _ _ _ _) as [[err|] l2]; cbn in H2.
  { destruct H2 as (c & n & ->). apply payload_error. }
  unfold float_token. destruct (_ && _); [apply payload_error|]. destruct (apply_duration_suffix_float _ _) as [[| |] l3];
    first [apply payload_error|by eexists|idtac].
  destruct (apply_angle_suffix _ _) as [[?|] ?]; by eexists.
Qed.

Lemma number_payload strtod lex : payloaded (scan_number strtod lex).
Proof.
  unfold scan_number. destruct (dispatch_radix_prefix _ _ _ _) as [r|] eqn:E.
  - unfold dispatch_radix_prefix in E. destruct (negb _); [done|]. destruct (rest lex !! 1%nat) as [c2|]; [|done]. cbn in E.
    repeat match type of E with (if ?b then _ else _) = _ => destruct b; [injection E as <-; first [apply radix_payload|apply payload_error]|] end. done.
  - pose proof (accumulate_payload lex (l_cur lex) (l_line lex) (column lex) 10) as H. destruct (accumulate_digits _ _ _ _ _) as [[v|err] l]; [|by apply H].
    destruct (float_follows l); [apply float_payload|]. unfold int_token. destruct (apply_duration_suffix _ _) as [[?|] ?]; [|apply payload_error].
    destruct (apply_angle_suffix _ _) as [[?|] ?]; by eexists.
Qed.

(** A word is an identifier or a keyword. *)
Definition no_word (ty : UTokenType) : bool := match ty with TOK_INT | TOK_FLOAT | TOK_ERROR | TOK_STRING | TOK_EOF => true | _ => false end.
Lemma keyword_word w : no_word (keyword_lookup w) = false.
Proof.
  unfold keyword_lookup. assert (forall tb, Forall (fun x => no_word x.2 = false) tb -> no_word (keyword_find tb w) = false) as Hk; [|apply Hk; repeat constructor].
  induction tb as [|[nm ty] tb IH]; intros Ht; cbn; [done|]. apply Forall_cons in Ht as [? ?]. case_decide; [done|]. by apply IH.
Qed.

Lemma next_payload strtod lex t lex' : pool_ok lex -> zlen (rest lex) < 2 ^ 31 - 1 -> ulex_next strtod lex = Some (t, lex') -> payload_ok t.
Proof.
  intros Hok Hs. unfold ulex_next. destruct (skip_trivia_spec (length (rest lex)) lex Hok ltac:(lia)) as (tr & l1 & -> & Hm & _). cbn [mbind option_bind].
  destruct (negb _); [intros [= <- _]; apply payload_error|]. destruct (rest l1) as [|c s] eqn:Er; [by intros [= <- _]|].
  unfold next_token. destruct (c =? 34).
  { unfold lex_string. cbn zeta. destruct (string_body_spec (length (rest (adv 1 l1))) (adv 1 l1) (l_cur (adv 1 l1)) (l_line l1) (column l1) ltac:(lia)) as (err & l2 & -> & H2 & He). cbn [mbind option_bind].
    destruct err as [err|]; [destruct He as (c' & n & ->); intros [= <- <-]; apply payload_error|]. destruct He as [Hr|[s' Hr]]; rewrite Hr; intros [= <- <-]; [apply payload_error|done]. }
  destruct (c =? 39); [unfold scan_quoted_ident; cbn zeta; destruct (peek 0 39 _); [destruct (_ =? 0)|]; intros [= <- _]; first [apply payload_error|by eexists _, _]|].
  destruct (_ && _); [intros [= Ht]; pose proof (float_payload strtod l1 (l_cur l1) (l_line l1) (column l1)) as H; unfold scan_float_leading_dot in Ht; unfold payloaded in H; by rewrite Ht in H|].
  destruct (kPunctTable c) as [pt|] eqn:Ek.
  { intros [= <- _]. unfold kPunctTable in Ek. repeat match type of Ek with (if ?b then _ else _) = _ => destruct b; [by injection Ek as <-|] end. done. }
  destruct (operator l1 c) as [[ty n]|] eqn:Eo.
  { intros [= <- _]. unfold operator in Eo.
    repeat match type of Eo with (if ?b then _ else _) = _ => destruct b; [by repeat match type of Eo with context [if ?b then _ else _] => destruct b end; injection Eo as <- <-|] end. done. }
  destruct (is_dec_digit c); [intros [= Ht]; pose proof (number_payload strtod l1) as H; unfold payloaded in H; by rewrite Ht in H|].
  destruct (is_ident_start c); [|intros [= <- _]; apply payload_error]. unfold scan_ident. cbn zeta. intros [= <- _]. unfold payload_ok. cbn [t_type t_u].
  match goal with |- context [keyword_lookup ?w] => pose proof (keyword_word w) as Hw; destruct (keyword_lookup w) end; try done; by eexists _, _.
Qed.

(** ** Where the next token is *)

(** A token the grammar can take. *)
Definition valid (t : UToken) : Prop := t_type t <> TOK_EOF /\ t_type t <> TOK_ERROR.
#[global] Instance valid_dec t : Decision (valid t).
Proof. unfold valid. apply _. Defined.

Record tok_ok (t : UToken) : Prop := {
  tok_payload : payload_ok t;
  tok_string : ParseStr.string_token t;
  tok_len : valid t -> 1 <= t_len t }.

(** The bytes from the start of [t] to the end, [r] after it; none if [t] ends the parse. *)
Definition from (t : UToken) (r : Z) : Z := if decide (valid t) then r + t_len t else 0.

Section Tokens.
Context (strtod : bytes -> spec_float).

Lemma next_token_facts lex : pool_ok lex -> zlen (rest lex) < 2 ^ 31 - 1 ->
  exists t lex', ulex_next strtod lex = Some (t, lex') /\ moves 0 lex lex' /\ tok_ok t /\ 0 <= from t (zlen (rest lex')) <= zlen (rest lex).
Proof.
  intros Hok Hs. destruct (next_spec strtod lex Hok Hs) as (t & l1 & lex' & E & Hm & Hc). exists t, lex'. split; [done|].
  pose proof (next_payload _ _ _ _ Hok Hs E) as Hp. pose proof (ParseStr.next_string _ _ _ _ Hok Hs E) as Hst. pose proof (zlen_nonneg (rest lex)).
  destruct (ParseStr.next_moves _ _ _ _ Hok Hs E) as [M0 _]. split; [done|].
  destruct Hc as [(Ht & _)|[(Ht & _)|(Hr & Hsc)]].
  - split; [split; [done|done|by intros []]|]. unfold from. rewrite decide_False by (intros []; congruence). lia.
  - split; [split; [done|done|by intros []]|]. unfold from. rewrite decide_False by (intros []; congruence). lia.
  - pose proof (moves_rest _ _ _ Hm). assert (Hs1 : zlen (rest l1) < 2 ^ 31) by (unfold zlen in *; lia). split.
    + split; [done|done|]. intros [_ Hne]. destruct (scanned_span _ _ _ _ Hsc Hs1 Hne). lia.
    + unfold from. case_decide as Hv; [|lia]. destruct Hv as [_ Hne]. destruct (scanned_span _ _ _ _ Hsc Hs1 Hne). pose proof (zlen_nonneg (rest lex')). unfold zlen in *. lia.
Qed.

(** From the start of the next token to the end of the source. *)
Definition tahead (q : ParseStr.UParser) : Z :=
  let r := zlen (rest (ParseStr.p_lex q)) in
  match ParseStr.p_peek q, ParseStr.p_peek2 q with
  | Some t, None => from t r
  | Some t, Some t2 => from t (from t2 r)
  | None, _ => match ulex_next strtod (ParseStr.p_lex q) with Some (t, lex) => from t (zlen (rest lex)) | None => 0 end
  end.

(** Bytes not yet lexed and tokens not yet taken: each of these was a byte at least. *)
Definition pend (o : option UToken) : Z := match o with Some t => if decide (t_type t = TOK_EOF) then 0 else 1 | None => 0 end.
Definition work (q : ParseStr.UParser) : Z := zlen (rest (ParseStr.p_lex q)) + pend (ParseStr.p_peek q) + pend (ParseStr.p_peek2 q).

Lemma pend_range o : 0 <= pend o <= 1.
Proof. unfold pend. destruct o; [case_decide|]; lia. Qed.
Lemma work_nonneg q : 0 <= work q.
Proof. unfold work. pose proof (zlen_nonneg (rest (ParseStr.p_lex q))). pose proof (pend_range (ParseStr.p_peek q)). pose proof (pend_range (ParseStr.p_peek2 q)). lia. Qed.

Lemma next_work lex t lex' : pool_ok lex -> zlen (rest lex) < 2 ^ 31 - 1 -> ulex_next strtod lex = Some (t, lex') ->
  zlen (rest lex') + pend (Some t) <= zlen (rest lex) /\ (t_type t = TOK_EOF -> rest lex' = []).
Proof.
  intros Hok Hs E. destruct (next_spec strtod lex Hok Hs) as (t0 & l1 & lex0 & E0 & Hm & Hc). rewrite E in E0. injection E0 as <- <-. pose proof (moves_rest _ _ _ Hm).
  cbn [pend]. destruct Hc as [(Ht & Hr & -> & _)|[(Ht & _ & H2 & Hr & _)|(Hr & (n & Hn & En & _) & Hne & _)]].
  - rewrite decide_True by done. split; [unfold zlen; lia|done].
  - rewrite decide_False by congruence. pose proof (moves_rest _ _ _ H2). split; [unfold zlen; lia|congruence].
  - cbn in En. assert (length (rest lex') + 1 <= length (rest l1))%nat by (unfold rest in *; rewrite En; cbn; rewrite length_drop; lia).
    case_decide as Ht; [|split; [unfold zlen; lia|done]]. done.
Qed.

(** The second token is looked at behind an identifier only. *)
Record tinv (q : ParseStr.UParser) : Prop := {
  t_pool : pool_ok (ParseStr.p_lex q);
  t_size : zlen (rest (ParseStr.p_lex q)) < 2 ^ 31 - 1;
  t_peek : forall t, ParseStr.p_peek q = Some t -> tok_ok t;
  t_peek2 : forall t, ParseStr.p_peek2 q = Some t -> tok_ok t /\ exists t1, ParseStr.p_peek q = Some t1 /\ t_type t1 = TOK_IDENT;
  t_eof : forall t, ParseStr.p_peek q = Some t \/ ParseStr.p_peek2 q = Some t -> t_type t = TOK_EOF -> rest (ParseStr.p_lex q) = [] }.

(** The end of the source, which does not move. *)
Definition source_end (q : ParseStr.UParser) : Z := off (ParseStr.p_lex q) + zlen (rest (ParseStr.p_lex q)).

Lemma moves_end k l l' : moves k l l' -> off l' + zlen (rest l') = off l + zlen (rest l) /\ zlen (rest l') <= zlen (rest l).
Proof.
  intros (m & Hm & E & _). unfold off, rest, zlen in *. rewrite E. cbn. rewrite length_drop. lia.
Qed.

Lemma from_nonneg t r : tok_ok t -> 0 <= r -> 0 <= from t r.
Proof. intros H Hr. unfold from. case_decide as Hv; [|done]. pose proof (tok_len _ H Hv). lia. Qed.
Lemma from_mono t r r' : r' <= r -> from t r' <= from t r.
Proof. intros. unfold from. case_decide; lia. Qed.

Lemma tahead_bound q : tinv q -> 0 <= tahead q.
Proof.
  intros [H1 H2 H3 H4]. unfold tahead. destruct (ParseStr.p_peek q) as [t|] eqn:E.
  - pose proof (zlen_nonneg (rest (ParseStr.p_lex q))). destruct (ParseStr.p_peek2 q) as [t2|] eqn:E2; apply from_nonneg; auto. apply from_nonneg; [|done]. by apply H4.
  - destruct (next_token_facts _ H1 H2) as (t & l & -> & _ & _ & ?). lia.
Qed.

Lemma peek_facts q : tinv q -> exists t q', ParseStr.urbi_parse_peek strtod q = Some (t, q') /\ tinv q' /\ ParseStr.p_peek q' = Some t /\ tok_ok t /\
  tahead q' = tahead q /\ source_end q' = source_end q /\ ParseStr.p_calls q' = ParseStr.p_calls q /\ (ParseStr.p_peek q = Some t -> q' = q) /\ work q' <= work q.
Proof.
  intros Hq. pose proof Hq as [H1 H2 H3 H4 H5]. unfold ParseStr.urbi_parse_peek. destruct (ParseStr.p_peek q) as [t|] eqn:E.
  { exists t, q. repeat (split; [by auto|]). lia. }
  destruct (next_token_facts _ H1 H2) as (t & l & Hn & Hm & Ht & Hf). rewrite Hn. cbn [mbind option_bind]. eexists t, _. split; [done|].
  assert (E2 : ParseStr.p_peek2 q = None) by (destruct (ParseStr.p_peek2 q) as [t2|]; [destruct (H4 t2 eq_refl) as (_ & t1 & ? & _); congruence|done]).
  destruct (moves_end _ _ _ Hm) as [He Hl]. destruct (next_work _ _ _ H1 H2 Hn) as [Hw Hz]. split; [|repeat (split; [done|])].
  - split; cbn; [by eapply moves_ok|lia|by intros ? [= <-]|by rewrite E2|]. intros ? [[= <-]|?]; [done|congruence].
  - split; [unfold tahead; cbn; by rewrite E, E2, Hn|]. split; [exact He|]. split; [done|]. split; [done|]. unfold work. rewrite E, E2. cbn [ParseStr.p_lex ParseStr.p_peek ParseStr.p_peek2]. cbn [pend] in *. lia.
Qed.

Lemma peek2_facts q t : tinv q -> ParseStr.p_peek q = Some t -> t_type t = TOK_IDENT -> exists t2 q', ParseStr.urbi_parse_peek2 strtod q = Some (t2, q') /\ tinv q' /\
  ParseStr.p_peek q' = Some t /\ tahead q' <= tahead q /\ source_end q' = source_end q /\ work q' <= work q.
Proof.
  intros Hq Hp Ht. pose proof Hq as [H1 H2 H3 H4 H5]. unfold ParseStr.urbi_parse_peek2, ParseStr.urbi_parse_peek. rewrite Hp. cbn [mbind option_bind].
  destruct (ParseStr.p_peek2 q) as [t2|] eqn:E2; [by exists t2, q; repeat (split; [done|])|].
  destruct (next_token_facts _ H1 H2) as (t2 & l & Hn & Hm & Ht2 & Hf). rewrite Hn. cbn [mbind option_bind]. destruct (moves_end _ _ _ Hm) as [He Hl].
  destruct (next_work _ _ _ H1 H2 Hn) as [Hw Hz]. eexists t2, _. split; [done|]. split; [|split; [done|]; split; [|split; [exact He|]]].
  - split; cbn; [by eapply moves_ok|lia|exact H3| |].
    + intros ? [= <-]. split; [done|]. by exists t.
    + intros ? [H|[= <-]]; [|done]. rewrite Hp in H. injection H as <-. congruence.
  - unfold tahead. cbn. rewrite Hp, E2. apply from_mono. lia.
  - unfold work. rewrite E2. cbn [ParseStr.p_lex ParseStr.p_peek ParseStr.p_peek2]. cbn [pend] in *. lia.
Qed.

(** Any token may be taken; what is left of it is the end of the source. *)
Lemma take_facts q t : tinv q -> ParseStr.p_peek q = Some t -> exists q', ParseStr.urbi_parse_consume strtod q = Some (t, q') /\ tinv q' /\
  source_end q' = source_end q /\ (t_type t <> TOK_IDENT -> ParseStr.p_peek q' = None) /\ ParseStr.p_lex q' = ParseStr.p_lex q /\
  ParseStr.p_peek q' = ParseStr.p_peek2 q /\ ParseStr.p_peek2 q' = None /\ work q' + pend (Some t) <= work q.
Proof.
  intros Hq Hp. pose proof Hq as [H1 H2 H3 H4 H5]. unfold ParseStr.urbi_parse_consume, ParseStr.urbi_parse_peek. rewrite Hp. cbn [mbind option_bind].
  eexists. split; [done|]. split; [|split; [done|split; [|repeat (split; [done|])]]].
  - split; cbn; [done|done| |done|]; [intros t2 E; by apply H4|]. intros t2 [E|?]; [|done]. apply H5. by right.
  - intros Hni. cbn. destruct (ParseStr.p_peek2 q) as [t2|] eqn:E2; [|done]. destruct (H4 t2 eq_refl) as (_ & t1 & Ht1 & ?). rewrite Hp in Ht1. injection Ht1 as <-. done.
  - unfold work. rewrite Hp. cbn [ParseStr.p_lex ParseStr.p_peek ParseStr.p_peek2]. change (pend None) with 0. lia.
Qed.

Lemma consume_facts q t : tinv q -> ParseStr.p_peek q = Some t -> valid t -> exists q', ParseStr.urbi_parse_consume strtod q = Some (t, q') /\ tinv q' /\
  tahead q' + t_len t <= tahead q /\ source_end q' = source_end q /\ (t_type t <> TOK_IDENT -> ParseStr.p_peek q' = None) /\ ParseStr.p_lex q' = ParseStr.p_lex q /\ work q' <= work q.
Proof.
  intros Hq Hp Hv. destruct (take_facts q t Hq Hp) as (q' & E & Hq' & He & Hn & Hl & Hp1 & Hp2 & Hw). pose proof (pend_range (Some t)).
  exists q'. split; [done|]. split; [done|]. split; [|repeat (split; [done|]); lia]. unfold tahead. rewrite Hp1, Hp2, Hl, Hp. destruct (ParseStr.p_peek2 q) as [t2|].
  - unfold from at 2. rewrite decide_True by done. lia.
  - destruct (next_token_facts _ (t_pool _ Hq) (t_size _ Hq)) as (t2 & l & -> & _ & _ & Hf). unfold from at 2. rewrite decide_True by done. lia.
Qed.
(** Blanks are skipped, or a lone carriage return stops the lexer for good. *)
Lemma skip_blanks fuel : forall l, pool_ok l -> (length (rest l) <= fuel)%nat -> forall tr l', skip_trivia fuel l = Some (tr, l') ->
  (length (rest l') + run is_blank (rest l) <= length (rest l))%nat \/ exists s, rest l' = 13 :: s.
Proof.
  induction fuel as [|fuel IH]; intros l Hok Hf tr l' E.
  { destruct (rest l) eqn:Er; [|cbn in Hf; lia]. cbn in E. rewrite Er in E. injection E as _ <-. left. rewrite Er. cbn. lia. }
  assert (Hother : run is_blank (rest l) = O -> (length (rest l') + run is_blank (rest l) <= length (rest l))%nat \/ exists s, rest l' = 13 :: s).
  { intros ->. destruct (skip_trivia_spec (S fuel) l Hok Hf) as (tr2 & l2 & E2 & Hm & _). rewrite E in E2. injection E2 as <- <-. left. pose proof (moves_rest _ _ _ Hm). lia. }
  destruct (rest l) as [|c s] eqn:Er; [by apply Hother|].
  assert (Hgo : forall m l1, rest l1 = drop m s -> pool_ok l1 -> skip_trivia fuel l1 = Some (tr, l') -> run is_blank (c :: s) = (S m + run is_blank (drop m s))%nat -> (m <= length s)%nat ->
    (length (rest l') + run is_blank (c :: s) <= length (c :: s))%nat \/ exists s, rest l' = 13 :: s).
  { intros m l1 Er1 Hok1 E1 Hr Hm. assert (Hf1 : (length (rest l1) <= fuel)%nat) by (rewrite Er1, length_drop; cbn in Hf; lia). destruct (IH l1 Hok1 Hf1 tr l' E1) as [H|H]; [|by right].
    rewrite Er1 in H. rewrite Hr. left. rewrite length_drop in H. cbn. lia. }
  cbn [skip_trivia] in E. rewrite Er in E. destruct ((c =? 32) || (c =? 9)) eqn:E1.
  { eapply (Hgo O (adv 1 l)); [transitivity (drop 1 (rest l)); [done|by rewrite Er, drop_0]|exact Hok|exact E| |lia]. rewrite drop_0. cbn. unfold is_blank at 1. by rewrite E1. }
  destruct (c =? 10) eqn:E2.
  { eapply (Hgo O (new_line 0 (adv 1 l))); [transitivity (drop 1 (rest l)); [done|by rewrite Er, drop_0]|exact Hok|exact E| |lia]. rewrite drop_0. cbn. unfold is_blank at 1. by rewrite E2, orb_true_r. }
  destruct (c =? 13) eqn:E3.
  { destruct (peek 1 10 l) eqn:Ep; [|right; injection E as _ <-; exists s; rewrite Er; f_equal; zbool; lia].
    unfold peek in Ep. rewrite Er in Ep. destruct s as [|c2 s]; [done|]. cbn in Ep. eapply (Hgo 1%nat (new_line 0 (adv 2 l))); [transitivity (drop 2 (rest l)); [done|by rewrite Er]|exact Hok|exact E| |cbn; lia].
    cbn. unfold is_blank at 1 2. by rewrite E3, Ep, !orb_true_r, drop_0. }
  apply Hother. cbn. unfold is_blank. by rewrite E1, E2, E3.
Qed.

Lemma blanks_ahead lex t lex' : pool_ok lex -> zlen (rest lex) < 2 ^ 31 - 1 -> ulex_next strtod lex = Some (t, lex') ->
  from t (zlen (rest lex')) <= zlen (rest lex) - Z.of_nat (run is_blank (rest lex)).
Proof.
  intros Hok Hs E. assert (H0 : 0 <= zlen (rest lex) - Z.of_nat (run is_blank (rest lex))) by (pose proof (run_le is_blank (rest lex)); unfold zlen; lia).
  unfold from. case_decide as Hv; [|done]. destruct Hv as [H1 H2]. unfold ulex_next in E.
  destruct (skip_trivia_spec (length (rest lex)) lex Hok ltac:(lia)) as (tr & l1 & Et & Hm & _). rewrite Et in E. cbn [mbind option_bind] in E.
  case_bool_decide as Hc; cbn [negb] in E; [|destruct H2; by injection E as <- _]. destruct (rest l1) as [|c s] eqn:Er; [destruct H1; by injection E as <- _|].
  destruct (skip_blanks _ _ Hok ltac:(done) _ _ Et) as [Hb|(s' & Hb)].
  - pose proof (moves_rest _ _ _ Hm). destruct (next_token_spec strtod l1 c s Er ltac:(unfold zlen in *; lia)) as ([t0 lex0] & E0 & Hsc). rewrite E in E0. injection E0 as <- <-.
    destruct (scanned_span _ _ _ _ Hsc ltac:(unfold zlen in *; lia) H2). unfold zlen in *. lia.
  - rewrite Er in Hb. injection Hb as -> ->. destruct H2. by injection E as <- _.
Qed.

Lemma tahead_blanks q : tinv q -> ParseStr.p_peek q = None -> tahead q <= zlen (rest (ParseStr.p_lex q)) - Z.of_nat (run is_blank (rest (ParseStr.p_lex q))).
Proof.
  intros [H1 H2 _ _] Hp. unfold tahead. rewrite Hp. destruct (next_token_facts _ H1 H2) as (t & l & E & _). rewrite E. by apply blanks_ahead.
Qed.
End Tokens.

(** ** A run of string literals leaves the queue well formed *)

Section Strings.
Context (strtod : bytes -> spec_float) (grants : nat -> bool).

(** Forward, to a state that is well formed. *)
Record onward (q q' : ParseStr.UParser) : Prop := { o_inv : tinv q'; o_ahead : tahead strtod q' <= tahead strtod q; o_end : source_end q' = source_end q; o_work : work q' <= work q }.

Lemma onward_trans q q1 q2 : onward q q1 -> onward q1 q2 -> onward q q2.
Proof. intros [? ? ? ?] [? ? ? ?]. split; [done|lia|congruence|lia]. Qed.

Lemma tinv_calls q n : tinv q -> onward q (ParseStr.MkParser (ParseStr.p_lex q) (ParseStr.p_peek q) (ParseStr.p_peek2 q) n).
Proof. intros [? ? ? ? ?]. by split; [split|..]. Qed.

Lemma string_loop_onward fuel : forall cur buf cap len q res q', tinv q -> ParseStr.string_loop strtod grants fuel cur buf cap len q = Some (res, q') -> onward q q'.
Proof.
  induction fuel as [|fuel IH]; intros cur buf cap len q res q' Hq; [done|]. cbn [ParseStr.string_loop].
  destruct (ParseStr.resolve _ _ _ _) as [[buf1 len1]|]; [|done]. cbn [mbind option_bind].
  destruct (peek_facts strtod q Hq) as (nxt & q1 & -> & Hq1 & Hp1 & _ & Ha1 & He1 & _ & _ & Hw1). cbn [mbind option_bind]. assert (O1 : onward q q1) by (split; [done|lia|done|done]).
  case_bool_decide as Hn; cbn [negb]; [|by intros [= _ <-]].
  destruct (consume_facts strtod q1 nxt Hq1 Hp1) as (q2 & -> & Hq2 & Ha2 & He2 & _ & _ & Hw2); [by split; congruence|]. cbn [mbind option_bind].
  pose proof (tok_len _ (t_peek _ Hq1 _ Hp1) ltac:(split; congruence)). assert (O2 : onward q q2) by (split; [done|lia|congruence|lia]).
  destruct (_ <? _).
  - unfold ParseStr.arena_alloc. pose proof (tinv_calls q2 (S (ParseStr.p_calls q2)) Hq2) as O3. destruct (grants _).
    + destruct (ParseStr.put_all _ _ _) as [[? ?]|]; [|done]. cbn [mbind option_bind]. intros E. eapply onward_trans; [exact O2|]. eapply onward_trans; [exact O3|]. eapply IH; [apply (o_inv _ _ O3)|exact E].
    + intros [= _ <-]. by eapply onward_trans.
  - intros E. eapply onward_trans; [exact O2|]. by eapply IH.
Qed.

Lemma string_literal_runs fuel q t : tinv q -> ParseStr.p_peek q = Some t -> t_type t = TOK_STRING -> (tahead strtod q < Z.of_nat fuel) ->
  exists res q', ParseStr.parse_string_literal strtod grants fuel q = Some (res, q') /\ onward q q' /\ tahead strtod q' + 1 <= tahead strtod q.
Proof.
  intros Hq Hp Hty Hf. unfold ParseStr.parse_string_literal. assert (Hv : valid t) by (split; congruence). pose proof (t_peek _ Hq _ Hp) as Ht.
  destruct (consume_facts strtod q t Hq Hp Hv) as (q1 & -> & Hq1 & Ha1 & He1 & Hn1 & Hl1 & Hw1). cbn [mbind option_bind]. specialize (Hn1 ltac:(congruence)). pose proof (tok_len _ Ht Hv).
  destruct (tok_string _ Ht Hty) as [_ Hlen]. pose proof (zlen_nonneg (ParseStr.body_of t)). unfold ParseStr.arena_alloc. set (q2 := ParseStr.MkParser _ _ _ _).
  assert (O2 : onward q1 q2) by by apply tinv_calls. assert (O : onward q q2) by (eapply onward_trans; [|exact O2]; split; [done|lia|done|done]).
  assert (Hlt : tahead strtod q2 + 1 <= tahead strtod q) by (pose proof (o_ahead _ _ O2); lia).
  destruct (grants _); [|by eexists None, _].
  assert (E2 : ParseStr.p_peek2 q2 = None).
  { destruct (ParseStr.p_peek2 q2) as [t2|] eqn:E; [|done]. destruct (t_peek2 _ (o_inv _ _ O2) t2 E) as (_ & t1 & Ht1 & _). cbn in Ht1. congruence. }
  set (cap := if 0 <? ParseStr.str_len t then ParseStr.str_len t else 1).
  destruct (ParseStr.string_loop_spec strtod grants fuel t (replicate (Z.to_nat cap) 0) cap 0 q2) as (res & q' & E & _).
  - destruct (o_inv _ _ O2) as [? ? Hp1 Hp2]. split; [done|done|intros ? ?; by apply tok_string, Hp1|]. intros ? ?. by apply tok_string, (Hp2 t0).
  - done.
  - by apply tok_string.
  - unfold zlen, cap. rewrite length_replicate. zcase; lia.
  - lia.
  - unfold cap. zcase; lia.
  - unfold ParseStr.ahead_of. rewrite E2. cbn [ParseStr.p_peek q2]. rewrite Hn1. unfold tahead in Hf. rewrite Hp in Hf.
    assert (Eq2 : ParseStr.p_peek2 q = None).
    { destruct (ParseStr.p_peek2 q) as [t2|] eqn:E; [|done]. destruct (t_peek2 _ Hq t2 E) as (_ & t1 & Ht1 & ?). rewrite Hp in Ht1. injection Ht1 as <-. congruence. }
    rewrite Eq2 in Hf. unfold from in Hf. rewrite decide_True in Hf by done. cbn [ParseStr.p_lex q2]. rewrite Hl1. unfold zlen in Hf. lia.
  - exists res, q'. split; [exact E|]. pose proof (string_loop_onward _ _ _ _ _ _ _ _ (o_inv _ _ O2) E) as O3. split; [by eapply onward_trans|]. pose proof (o_ahead _ _ O3). lia.
Qed.
End Strings.

(** ** States and runs *)

Definition within_budget (b : option UCompileBudget) (nodes depth : Z) : Prop :=
  match b with Some b => (0 < max_ast_nodes b -> nodes <= max_ast_nodes b) /\ (0 < max_parser_depth b -> depth <= max_parser_depth b) | None => True end.

Record inv (p : UParser) : Prop := {
  i_tok : tinv (q_tok p);
  i_loop : 0 <= loop_depth (q_ctx p);
  i_switch : 0 <= switch_depth (q_ctx p);
  i_depth : 0 <= cur_depth (q_ctx p);
  i_nodes : 0 <= node_count p;
  i_budget : within_budget (budget p) (node_count p) (cur_depth (q_ctx p)) }.

(** Where jumps may stand at a state, and the number of nodes of a list. *)
Definition lo (c : context) : bool := 0 <? loop_depth c.
Definition sw (c : context) : bool := 0 <? switch_depth c.
Abbreviation sizes := (sum_over size).
Abbreviation size_opt := (sum_opt size).

Section Runs.
Context (strtod : bytes -> spec_float) (grants : nat -> bool).

Definition ahead (p : UParser) : Z := tahead strtod (q_tok p).

(** How any state of a run relates to where it started. *)
Record fine (p p' : UParser) : Prop := {
  f_inv : inv p';
  f_ctx : q_ctx p' = q_ctx p;
  f_ahead : ahead p' <= ahead p;
  f_end : source_end (q_tok p') = source_end (q_tok p);
  f_work : work (q_tok p') <= work (q_tok p);
  f_nodes : node_count p <= node_count p';
  f_budget : budget p' = budget p }.

Lemma fine_refl p : inv p -> fine p p.
Proof. by split. Qed.
Lemma fine_trans p p1 p2 : fine p p1 -> fine p1 p2 -> fine p p2.
Proof. intros [] []. split; [done|congruence|lia|congruence|lia|lia|congruence]. Qed.

(** [m] comes back from [p]; a value it answers has the property [Q]. *)
Definition runs {A} (m : M A) (p : UParser) (Q : A -> UParser -> Prop) : Prop :=
  exists r p', m p = Some (r, p') /\ fine p p' /\ match r with Val a => Q a p' | _ => True end.

Lemma runs_bind {A B} (m : M A) (k : A -> M B) p (Q : A -> UParser -> Prop) (R : B -> UParser -> Prop) :
  runs m p Q -> (forall a p1, fine p p1 -> Q a p1 -> runs (k a) p1 R) -> runs (m ≫= k) p R.
Proof.
  intros (r & p1 & E & F & HQ) Hk. unfold runs, mbind, M_bind. rewrite E. destruct r as [a| |e].
  - destruct (Hk a p1 F HQ) as (r & p2 & E2 & F2 & HR). exists r, p2. split; [done|]. split; [by eapply fine_trans|done].
  - by exists Null, p1.
  - by exists (Err e), p1.
Qed.
Lemma runs_ret {A} (a : A) p (Q : A -> UParser -> Prop) : inv p -> Q a p -> runs (mret a) p Q.
Proof. intros Hp HQ. exists (Val a), p. split; [done|]. split; [by apply fine_refl|done]. Qed.
Lemma runs_ret_bind {A B} (a : A) (k : A -> M B) p R : runs (k a) p R -> runs (mret a ≫= k) p R.
Proof. done. Qed.
Lemma runs_mono {A} (m : M A) p (Q R : A -> UParser -> Prop) : runs m p Q -> (forall a p', fine p p' -> Q a p' -> R a p') -> runs m p R.
Proof. intros (r & p1 & E & F & HQ) HR. exists r, p1. split; [done|]. split; [done|]. destruct r; try done. by apply HR. Qed.
Lemma runs_oomed {A} (m : M A) p Q : runs m p Q -> runs (oomed m) p Q.
Proof. intros (r & p1 & E & F & HQ). unfold runs, oomed. rewrite E. destruct r; [by eexists (Val a), _|by eexists (Err _), _|by eexists (Err _), _]. Qed.
Lemma runs_returned {A} (a : A) (m : M A) p (Q : A -> UParser -> Prop) : runs m p Q -> (forall p', fine p p' -> Q a p') -> runs (returned a m) p Q.
Proof.
  intros (r & p1 & E & F & HQ) Ha. unfold runs, returned. rewrite E. destruct r as [b| |e].
  - by exists (Val b), p1.
  - exists (Val a), p1. split; [done|]. split; [done|]. by apply Ha.
  - by exists (Err e), p1.
Qed.
Lemma runs_both {A B} (m : M A) (m' : M B) p (Q : A -> UParser -> Prop) (R : A * B -> UParser -> Prop) :
  runs m p Q -> (forall p1, fine p p1 -> runs m' p1 (fun _ _ => True)) -> (forall a p1, fine p p1 -> Q a p1 -> runs m' p1 (fun b p2 => R (a, b) p2)) -> runs (both m m') p R.
Proof.
  intros (r & p1 & E & F & HQ) Hn Hk. unfold runs, both. rewrite E. destruct r as [a| |e].
  - destruct (Hk a p1 F HQ) as (r & p2 & E2 & F2 & HR). unfold mbind, M_bind. rewrite E2. destruct r as [b| |e].
    + exists (Val (a, b)), p2. split; [done|]. split; [by eapply fine_trans|done].
    + exists Null, p2. split; [done|]. split; [by eapply fine_trans|done].
    + exists (Err e), p2. split; [done|]. split; [by eapply fine_trans|done].
  - destruct (Hn p1 F) as (r & p2 & E2 & F2 & _). rewrite E2. exists Null, p2. split; [done|]. split; [by eapply fine_trans|done].
  - by exists (Err e), p1.
Qed.

(** Inside a changed context, put back at the end. *)
Lemma runs_within {A} (enter leave : context -> context) (m : M A) p (Q : A -> UParser -> Prop) (R : A -> UParser -> Prop) :
  inv p -> inv (set_ctx (enter (q_ctx p)) p) -> leave (enter (q_ctx p)) = q_ctx p -> runs m (set_ctx (enter (q_ctx p)) p) Q ->
  (forall a p1, fine (set_ctx (enter (q_ctx p)) p) p1 -> Q a p1 -> R a (set_ctx (q_ctx p) p1)) -> runs (within enter leave m) p R.
Proof.
  intros Hp Hi Hl (r & p1 & E & F & HQ) HR. unfold runs, within. rewrite E. cbn [mbind option_bind]. exists r, (set_ctx (leave (q_ctx p1)) p1).
  assert (Hc : leave (q_ctx p1) = q_ctx p) by (rewrite (f_ctx _ _ F); exact Hl). rewrite Hc. split; [done|]. split.
  - destruct F as [[? ? ? ? ? ?] ? ? ? ? ? ?]. destruct Hp as [? ? ? ? ? Hb]. split; [split|..]; cbn in *; try done. unfold within_budget in *. cbn in *.
    rewrite f_budget0 in *. destruct (budget p) as [b|]; [|done]. destruct i_budget0 as [H1 _]. split; [done|apply Hb].
  - destruct r; try done. by apply HR.
Qed.

(** ** Primitive steps *)

Lemma fine_tok p q : inv p -> onward strtod (q_tok p) q -> fine p (set_tok q p).
Proof. intros [? ? ? ? ? ?] [? ? ?]. split; [split|..]; done. Qed.

(** The peeked token, what is ahead and the count of [p'] are those of [p], the count [k] more. *)
Definition same (k : Z) (p p' : UParser) : Prop := ParseStr.p_peek (q_tok p') = ParseStr.p_peek (q_tok p) /\ ahead p' = ahead p /\ node_count p' = node_count p + k.

Lemma alloc_runs p : inv p -> runs (alloc grants) p (fun _ => same 0 p).
Proof.
  intros Hi. unfold alloc, runs. eexists _, _. split; [done|]. split; [apply fine_tok, tinv_calls, Hi; done|]. destruct (sticky _ _); [|done]. split_and!; [done|done|cbn; lia].
Qed.

Lemma gets_runs {A} (f : UParser -> A) p : inv p -> runs (gets f) p (fun a p' => a = f p /\ p' = p).
Proof. intros Hi. exists (Val (f p)), p. split; [done|]. by split; [apply fine_refl|]. Qed.

Lemma hidden_runs tag p : inv p -> runs (hidden_name grants tag) p (fun _ => same 0 p).
Proof.
  intros Hi. unfold hidden_name. eapply runs_bind; [by apply gets_runs|]. intros s p1 _ [_ ->]. eapply (runs_bind _ _ _ (fun _ p' => q_tok p' = q_tok p /\ node_count p' = node_count p)).
  { eexists (Val tt), _. split; [done|]. split; [|done]. destruct Hi as [? ? ? ? ? ?]. by split; [split|..]. }
  cbn. intros ? p2 F [Ht Hn]. eapply runs_bind; [apply alloc_runs, F|]. intros ? p3 F3 (H1 & H2 & H3). apply runs_ret; [apply F3|].
  unfold same, ahead in *. rewrite H1, H2, H3, Ht, Hn. split_and!; [done|done|lia].
Qed.

Lemma peek_runs p : inv p -> runs (peek_token strtod) p (fun t p' => ParseStr.p_peek (q_tok p') = Some t /\ tok_ok t /\ ahead p' = ahead p /\ node_count p' = node_count p /\
  (forall t0, ParseStr.p_peek (q_tok p) = Some t0 -> t = t0)).
Proof.
  intros Hi. destruct (peek_facts strtod (q_tok p) (i_tok _ Hi)) as (t & q & E & Hq & Hp & Ht & Ha & He & _ & Hs & Hw). unfold peek_token, on_tokens, runs. rewrite E. cbn [mbind option_bind].
  eexists _, _. split; [done|]. split; [apply fine_tok; [done|]; split; [done|lia|done|done]|]. split_and!; try done. intros t0 H0.
  unfold ParseStr.urbi_parse_peek in E. rewrite H0 in E. by injection E.
Qed.

Lemma next_is_runs ty p : inv p -> runs (next_is strtod ty) p (fun b p' => exists t, ParseStr.p_peek (q_tok p') = Some t /\ tok_ok t /\ ahead p' = ahead p /\ node_count p' = node_count p /\
  (forall t0, ParseStr.p_peek (q_tok p) = Some t0 -> t = t0) /\ if b : bool then t_type t = ty else t_type t <> ty).
Proof.
  intros Hi. unfold next_is. eapply runs_bind; [by apply peek_runs|]. cbn. intros t p1 F (H1 & H2 & H3 & H4 & H5). apply runs_ret; [apply F|].
  exists t. unfold tok_is. split_and!; try done. by case_bool_decide.
Qed.

Lemma peek2_runs p t : inv p -> ParseStr.p_peek (q_tok p) = Some t -> t_type t = TOK_IDENT ->
  runs (peek2_token strtod) p (fun _ p' => ParseStr.p_peek (q_tok p') = Some t /\ node_count p' = node_count p).
Proof.
  intros Hi Hp Ht. destruct (peek2_facts strtod (q_tok p) t (i_tok _ Hi) Hp Ht) as (t2 & q & E & Hq & Hp' & Ha & He & Hw). unfold peek2_token, on_tokens, runs. rewrite E. cbn [mbind option_bind].
  eexists _, _. split; [done|]. split; [apply fine_tok; [done|]; by split|]. done.
Qed.

Lemma consume_runs p t : inv p -> ParseStr.p_peek (q_tok p) = Some t -> valid t ->
  runs (consume strtod) p (fun a p' => a = t /\ ahead p' + 1 <= ahead p /\ node_count p' = node_count p /\ (t_type t <> TOK_IDENT -> ParseStr.p_peek (q_tok p') = None)).
Proof.
  intros Hi Hp Hv. pose proof (tok_len _ (t_peek _ (i_tok _ Hi) _ Hp) Hv). destruct (consume_facts strtod (q_tok p) t (i_tok _ Hi) Hp Hv) as (q & E & Hq & Ha & He & Hn & _ & Hw).
  unfold consume, on_tokens, runs. rewrite E. cbn [mbind option_bind]. eexists _, _. split; [done|]. split; [apply fine_tok; [done|]; split; [done|lia|done|done]|].
  split_and!; [done| |done|done]. unfold ahead. cbn. lia.
Qed.

Lemma name_runs t p : inv p -> tok_ok t -> t_type t = TOK_IDENT -> runs (name_of t) p (fun _ p' => p' = p).
Proof.
  intros Hi Ht Hty. unfold name_of. pose proof (tok_payload _ Ht) as Hp. unfold payload_ok in Hp. rewrite Hty in Hp. destruct Hp as (s & m & ->). by apply runs_ret.
Qed.

Lemma make_node_runs p : inv p -> runs (make_node grants) p (fun _ => same 1 p).
Proof.
  intros Hi. unfold make_node, runs. destruct (budget_exceeded p); [exists Null, p; split; [done|]; by split; [apply fine_refl|]|].
  assert (Hgo : (match budget p with Some b => 0 < max_ast_nodes b -> node_count p + 1 <= max_ast_nodes b | None => True end) ->
    exists r p', (_ ← alloc grants; modify (fun p => set_nodes (node_count p + 1) p)) p = Some (r, p') /\ fine p p' /\ match r with Val a => same 1 p p' | _ => True end).
  { intros Hb. destruct (alloc_runs p Hi) as (r & p1 & E & F & HQ). unfold mbind, M_bind. rewrite E. destruct r as [[]| |e]; [|by exists Null, p1|by exists (Err e), p1].
    destruct HQ as (H1 & H2 & H3). eexists _, _. split; [done|]. destruct F as [[? ? ? ? ? Hbb] ? ? ? ? ? Hb1]. split; [split; [split|..]|]; cbn in *; try done; try lia.
    - rewrite Hb1 in *. unfold within_budget in *. destruct (budget p); [|done]. split; [|apply Hbb]. rewrite H3, Z.add_0_r. exact Hb.
    - unfold same. cbn. rewrite H3. split_and!; [exact H1|exact H2|lia]. }
  destruct (budget p) as [b|] eqn:Eb; [|by apply Hgo]. destruct (_ && _) eqn:Ec; [|apply Hgo; intros; apply andb_false_iff in Ec as [Ec|Ec]; zbool; lia].
  eexists Null, _. split; [done|]. split; [|done]. destruct Hi as [? ? ? ? ? ?]. by split; [split|..].
Qed.

Lemma make_runs a p : inv p -> runs (make grants a) p (fun b p' => b = a /\ same 1 p p').
Proof. intros Hi. unfold make. eapply runs_bind; [by apply make_node_runs|]. intros ? p1 F H. by apply runs_ret; [apply F|]. Qed.

Lemma error_runs {A} code msg l p (Q : A -> UParser -> Prop) : inv p -> runs (error_at grants code msg l) p Q.
Proof.
  intros Hi. unfold error_at. eapply runs_bind; [by apply make_node_runs|]. intros ? p1 F H. eexists (Err _), p1. split; [done|]. split; [apply fine_refl, F|done].
Qed.

Lemma expect_runs ty code p : inv p -> ty <> TOK_EOF -> ty <> TOK_ERROR ->
  runs (expect strtod grants ty code) p (fun _ p' => ahead p' + 1 <= ahead p /\ node_count p' = node_count p /\ (ty <> TOK_IDENT -> ParseStr.p_peek (q_tok p') = None) /\
    forall t, ParseStr.p_peek (q_tok p) = Some t -> t_type t = ty).
Proof.
  intros Hi H1 H2. unfold expect. eapply runs_bind; [by apply peek_runs|]. cbn. intros t p1 F (Hp & Ht & Ha & Hn & Hs). unfold tok_is. case_bool_decide as Hty; [|apply error_runs, F].
  eapply runs_bind; [apply (consume_runs p1 t); [apply F|done|split; congruence]|]. cbn. intros ? p2 F2 (_ & Ha2 & Hn2 & Hx). apply runs_ret; [apply F2|].
  split_and!; [lia|lia|intros; apply Hx; congruence|]. intros t0 H0. by rewrite <- (Hs t0 H0).
Qed.

(** ** Contexts *)

Lemma inv_ctx c p : inv p -> 0 <= loop_depth c -> 0 <= switch_depth c -> cur_depth c = cur_depth (q_ctx p) -> inv (set_ctx c p).
Proof. intros [? ? ? ? ? ?] ? ? Hd. split; cbn; rewrite ?Hd; done. Qed.

Lemma context_eq c : MkCtx (at_event_cond c) (class_body_depth c) (class_body_name c) (loop_depth c) (switch_depth c) (cur_depth c) = c.
Proof. by destruct c. Qed.

Lemma in_function_runs {A} (m : M A) p (Q R : A -> UParser -> Prop) : inv p -> runs m (set_ctx (with_loops 0 0 (q_ctx p)) p) Q ->
  (forall a p1, fine (set_ctx (with_loops 0 0 (q_ctx p)) p) p1 -> Q a p1 -> R a (set_ctx (q_ctx p) p1)) -> runs (in_function m) p R.
Proof. intros Hi Hm HR. unfold in_function. apply (runs_within (with_loops 0 0) _ m p Q R); [done|by apply inv_ctx| |done|done]. unfold with_loops. cbn. apply context_eq. Qed.

Lemma in_loop_runs {A} (m : M A) p (Q R : A -> UParser -> Prop) : inv p -> runs m (set_ctx (with_loops (loop_depth (q_ctx p) + 1) (switch_depth (q_ctx p)) (q_ctx p)) p) Q ->
  (forall a p1, fine (set_ctx (with_loops (loop_depth (q_ctx p) + 1) (switch_depth (q_ctx p)) (q_ctx p)) p) p1 -> Q a p1 -> R a (set_ctx (q_ctx p) p1)) -> runs (in_loop m) p R.
Proof.
  intros Hi Hm HR. unfold in_loop. pose proof (i_loop _ Hi). apply (runs_within (fun c => with_loops (loop_depth c + 1) (switch_depth c) c) _ m p Q R); [done|apply inv_ctx; cbn; try done; try lia; apply Hi| |done|done].
  unfold with_loops. cbn. rewrite Z.add_simpl_r. apply context_eq.
Qed.

Lemma in_switch_runs {A} (m : M A) p (Q R : A -> UParser -> Prop) : inv p -> runs m (set_ctx (with_loops (loop_depth (q_ctx p)) (switch_depth (q_ctx p) + 1) (q_ctx p)) p) Q ->
  (forall a p1, fine (set_ctx (with_loops (loop_depth (q_ctx p)) (switch_depth (q_ctx p) + 1) (q_ctx p)) p) p1 -> Q a p1 -> R a (set_ctx (q_ctx p) p1)) -> runs (in_switch m) p R.
Proof.
  intros Hi Hm HR. unfold in_switch. pose proof (i_switch _ Hi). apply (runs_within (fun c => with_loops (loop_depth c) (switch_depth c + 1) c) _ m p Q R); [done|apply inv_ctx; cbn; try done; try lia; apply Hi| |done|done].
  unfold with_loops. cbn. rewrite Z.add_simpl_r. apply context_eq.
Qed.

Lemma in_event_runs {A} (m : M A) p (Q R : A -> UParser -> Prop) : inv p -> runs m (set_ctx (with_at true (q_ctx p)) p) Q ->
  (forall a p1, fine (set_ctx (with_at true (q_ctx p)) p) p1 -> Q a p1 -> R a (set_ctx (q_ctx p) p1)) -> runs (in_event_cond m) p R.
Proof. intros Hi Hm HR. unfold in_event_cond. apply (runs_within (with_at true) _ m p Q R); [done|apply inv_ctx; cbn; try done; apply Hi| |done|done]. unfold with_at. cbn. apply context_eq. Qed.

Lemma in_class_runs {A} nm (m : M A) p (Q R : A -> UParser -> Prop) : inv p -> runs m (set_ctx (with_class (class_body_depth (q_ctx p) + 1) nm (q_ctx p)) p) Q ->
  (forall a p1, fine (set_ctx (with_class (class_body_depth (q_ctx p) + 1) nm (q_ctx p)) p) p1 -> Q a p1 -> R a (set_ctx (q_ctx p) p1)) -> runs (in_class nm m) p R.
Proof.
  intros Hi Hm HR. unfold in_class. apply (runs_within (fun c => with_class (class_body_depth c + 1) nm c) _ m p Q R); [done|apply inv_ctx; cbn; try done; apply Hi| |done|done].
  unfold with_class. cbn. rewrite Z.add_simpl_r. apply context_eq.
Qed.

(** A level of the depth budget around [m]. *)
Lemma budgeted_runs {A} (m : M A) p (Q R : A -> UParser -> Prop) : inv p ->
  let d := with_depth (cur_depth (q_ctx p) + 1) (q_ctx p) in
  (inv (set_ctx d p) -> runs m (set_ctx d p) Q) -> (forall a p1, fine (set_ctx d p) p1 -> Q a p1 -> R a (set_ctx (q_ctx p) p1)) ->
  runs (_ ← budget_enter; within id budget_leave m) p R.
Proof.
  intros Hi d Hm HR. unfold runs, mbind, M_bind, budget_enter. destruct (budget_exceeded p); [exists Null, p; split; [done|]; by split; [apply fine_refl|]|].
  pose proof (i_depth _ Hi) as Hd.
  assert (Hgo : (match budget p with Some b => 0 < max_parser_depth b -> cur_depth (q_ctx p) + 1 <= max_parser_depth b | None => True end) ->
    exists r p', within id budget_leave m (set_ctx d p) = Some (r, p') /\ fine p p' /\ match r with Val a => R a p' | _ => True end).
  { intros Hb. assert (Hi' : inv (set_ctx d p)).
    { destruct Hi as [? ? ? ? ? Hbb]. split; cbn; try done; [lia|]. unfold within_budget in *. destruct (budget p); [|done]. split; [apply Hbb|done]. }
    destruct (Hm Hi') as (r & p1 & E & F & HQ). unfold within. change (set_ctx (id (q_ctx (set_ctx d p))) (set_ctx d p)) with (set_ctx d p). rewrite E. cbn [mbind option_bind].
    assert (Hc : budget_leave (q_ctx p1) = q_ctx p).
    { rewrite (f_ctx _ _ F). unfold budget_leave. cbn. rewrite (proj2 (Z.ltb_lt _ _)) by lia. unfold with_depth. cbn. rewrite Z.add_simpl_r. apply context_eq. }
    rewrite Hc. eexists _, _. split; [done|]. split; [|by destruct r; [apply HR|..]].
    destruct F as [[? ? ? ? ? Hb1] ? ? ? ? ? Hbu]. destruct Hi as [? ? ? ? ? Hbb]. split; [split|..]; cbn in *; try done.
    rewrite Hbu in *. unfold within_budget in *. destruct (budget p); [|done]. split; [apply Hb1|apply Hbb]. }
  destruct (budget p) as [b|] eqn:Eb; [|by apply Hgo]. destruct (_ && _) eqn:Ec; [|apply Hgo; intros; apply andb_false_iff in Ec as [Ec|Ec]; zbool; lia].
  eexists Null, _. split; [done|]. split; [|done]. destruct Hi as [? ? ? ? ? ?]. by split; [split|..].
Qed.

Lemma nested_runs {A} (m : M A) p (Q R : A -> UParser -> Prop) : inv p ->
  let d := with_depth (cur_depth (q_ctx p) + 1) (q_ctx p) in
  (inv (set_ctx d p) -> runs m (set_ctx d p) Q) -> (forall a p1, fine (set_ctx d p) p1 -> Q a p1 -> R a (set_ctx (q_ctx p) p1)) -> runs (nested m) p R.
Proof.
  intros Hi d Hm HR. destruct (budgeted_runs m p Q R Hi Hm HR) as (r & p' & E & F & H). unfold runs, nested. revert E. unfold mbind, M_bind, oomed.
  destruct (budget_enter p) as [[[[]| |e] p1]|]; intros E; try done; [by exists r, p'|injection E as <- <-; by eexists (Err _), _|injection E as <- <-; by eexists (Err _), _].
Qed.

Lemma new_array_runs {A} cap p : inv p -> runs (@new_array grants A cap) p (fun arr p' => arr = (cap, []) /\ same 0 p p').
Proof. intros Hi. unfold new_array. eapply runs_bind; [by apply runs_oomed, alloc_runs|]. intros ? p1 F H. by apply runs_ret; [apply F|]. Qed.

Lemma push_runs {A} (arr : Z * list A) x p : inv p -> runs (push grants arr x) p (fun r p' => r.2 = arr.2 ++ [x] /\ same 0 p p').
Proof.
  intros Hi. unfold push. case_match.
  - eapply runs_bind; [by apply runs_oomed, alloc_runs|]. intros ? p1 F H1. by apply runs_ret; [apply F|].
  - apply runs_ret; [done|]. split; [done|]. split_and!; [done|done|lia].
Qed.

Lemma push_pair_runs arr x p : inv p -> runs (push_pair grants arr x) p (fun r p' => r.2 = arr.2 ++ [x] /\ same 0 p p').
Proof.
  intros Hi. unfold push_pair. case_match.
  - eapply runs_bind; [by apply runs_oomed, alloc_runs|]. intros ? p1 F H1. eapply runs_bind; [apply runs_oomed, alloc_runs, F|]. intros ? p2 F2 H2. apply runs_ret; [apply F2|].
    split; [done|]. destruct H1 as (? & ? & ?), H2 as (? & ? & ?). split_and!; [congruence|congruence|lia].
  - apply runs_ret; [done|]. split; [done|]. split_and!; [done|done|lia].
Qed.

Lemma two_allocs_runs p : inv p -> runs (both (alloc grants) (alloc grants)) p (fun _ => same 0 p).
Proof.
  intros Hi. eapply runs_both; [by apply alloc_runs| |].
  - intros p1 F. eapply runs_mono; [apply alloc_runs, F|done].
  - intros ? p1 F H1. eapply runs_mono; [apply alloc_runs, F|]. intros ? p2 _ H2. destruct H1 as (? & ? & ?), H2 as (? & ? & ?). split_and!; [congruence|congruence|lia].
Qed.

(** ** Specifications *)

(** A node: [w] bytes consumed, no more nodes than were allocated beside [b], jumps in place. *)
Definition node_post (w b : Z) (c : context) (p : UParser) (a : UAstNode) (p' : UParser) : Prop :=
  ahead p' + w <= ahead p /\ size a <= b + (node_count p' - node_count p) /\ jumps_ok (lo c) (sw c) a = true.
Definition opt_post (c : context) (p : UParser) (o : option UAstNode) (p' : UParser) : Prop :=
  ahead p' <= ahead p /\ size_opt o <= node_count p' - node_count p /\ all_opt (jumps_ok (lo c) (sw c)) o = true.
Definition list_post (b : Z) (c : context) (p : UParser) (l : list UAstNode) (p' : UParser) : Prop :=
  ahead p' <= ahead p /\ sizes l <= b + (node_count p' - node_count p) /\ forallb (jumps_ok (lo c) (sw c)) l = true.

(** With fewer than [n] bytes ahead [m] parses a node. *)
Definition parses (n : nat) (m : M UAstNode) : Prop :=
  forall p c, inv p -> q_ctx p = c -> ahead p < Z.of_nat n -> runs m p (node_post 1 0 c p).
(** The same at a token that is known. *)
Definition parses_at (n : nat) (m : M UAstNode) : Prop :=
  forall p c t, inv p -> q_ctx p = c -> ParseStr.p_peek (q_tok p) = Some t -> valid t -> ahead p < Z.of_nat n -> runs m p (node_post 1 0 c p).

Record level (n : nat) (k : knot) : Prop := {
  l_expression : forall m, parses n (k_expression k m);
  l_prefix : parses n (k_prefix k);
  l_inner_tier : parses n (k_inner_tier k);
  l_inner_peeked : forall p a p', k_inner_tier k p = Some (Val a, p') -> exists t, ParseStr.p_peek (q_tok p') = Some t;
  l_outer_tier : parses n (k_outer_tier k);
  l_block : parses n (k_block k);
  l_block_node : forall p b p', k_block k p = Some (Val b, p') -> exists l stmts, b = AST_BLOCK l stmts;
  l_if : parses_at n (k_if k);
  l_while : parses_at n (k_while k);
  l_statement : parses n (k_statement k);
  l_arm : parses n (k_arm k) }.

Lemma sum_over_app {A} (f : A -> Z) l l' : sum_over f (l ++ l') = sum_over f l + sum_over f l'.
Proof. induction l as [|x l IH]; cbn; [done|]. rewrite IH. lia. Qed.

(** Takes apart what a step has shown and carries the context along. *)
Ltac settle F H :=
  unfold same, node_post, opt_post, list_post in H;
  lazymatch type of F with fine ?p ?p1 =>
    let Hc := fresh "Hc" in let Hi := fresh "Hi" in let Ha := fresh "Ha" in let Hn := fresh "Hn" in
    match goal with
    | E : q_ctx p = ?c |- _ => assert (Hc : q_ctx p1 = c) by (transitivity (q_ctx p); [exact (f_ctx _ _ F)|exact E])
    | _ => pose proof (f_ctx _ _ F) as Hc
    end;
    pose proof (f_inv _ _ F) as Hi; pose proof (f_ahead _ _ F) as Ha; pose proof (f_nodes _ _ F) as Hn
  end;
  repeat match goal with
  | E : _ /\ _ |- _ => destruct E
  | E : exists _, _ |- _ => destruct E
  | E : forall t, ParseStr.p_peek (q_tok ?p) = Some t -> _, E' : ParseStr.p_peek (q_tok ?p) = Some ?x |- _ => specialize (E x E')
  end.
Ltac after :=
  let a := fresh "x" in let p1 := fresh "p" in let F := fresh "F" in let H := fresh "H" in
  cbn beta; intros a p1 F H; settle F H; try subst a.

Ltac side :=
  first [ assumption | eassumption | lia | split; congruence | congruence | by (unfold tok_is in *; rewrite ?orb_true_iff, ?bool_decide_eq_true in *; split; intuition congruence) ].

(** One step of a sequence, by a specification. *)
Tactic Notation "step" uconstr(lem) := eapply runs_bind; [first [eapply lem|apply runs_oomed; eapply lem]; try side|after].
Ltac unpair := repeat match goal with x : (_ * _)%type |- _ => destruct x end; cbn beta iota in *.
Ltac peek := step peek_runs.
Ltac next := step next_is_runs.
Ltac take := step consume_runs.
Ltac need := step expect_runs; [done..|].

Ltac jumps :=
  cbn [jumps_ok forallb all_opt andb] in *;
  repeat match goal with
  | H : ?b = true |- context [?b] => lazymatch b with true => fail | _ => rewrite H end
  end; cbn [andb]; try done.
Ltac sizes := cbn [size sum_over sum_opt] in *; rewrite ?sum_over_app; cbn [sum_over sum_opt]; lia.
Ltac finish := unfold node_post, opt_post, list_post; split_and!; [lia|sizes|jumps].
(** The last step: a value, a node, an error. *)
Ltac last_node :=
  first [ apply error_runs; assumption
        | apply runs_ret; [assumption|finish]
        | first [eapply runs_mono; [apply runs_oomed; apply make_runs; assumption|] | eapply runs_mono; [apply make_runs; assumption|]]; after; finish ].

Section Level.
Context (n : nat) (k : knot) (Hk : level n k).

Abbreviation N := (Z.of_nat n).

Lemma comma_runs {A} (sz : A -> Z) (ok : A -> bool) stop (item : M A) c :
  (forall p, inv p -> q_ctx p = c -> ahead p < N -> runs item p (fun a p' => ahead p' + 1 <= ahead p /\ sz a <= node_count p' - node_count p /\ ok a = true)) ->
  forall fuel arr p, inv p -> q_ctx p = c -> ahead p < N -> ahead p < Z.of_nat fuel -> forallb ok arr.2 = true ->
  runs (comma_loop strtod grants fuel stop item arr) p (fun l p' => ahead p' <= ahead p /\ sum_over sz l <= sum_over sz arr.2 + (node_count p' - node_count p) /\ forallb ok l = true).
Proof.
  intros Hitem. induction fuel as [|fuel IH]; intros arr p Hi Hc Hn Hf Hok; [pose proof (tahead_bound strtod _ (i_tok _ Hi)); unfold ahead in *; lia|]. cbn [comma_loop].
  peek. destruct (_ || _); [apply runs_ret; [done|]; split_and!; [lia|lia|done]|]. step Hitem. step push_runs.
  match goal with E : x1.2 = _ |- _ => rename E into Ex end.
  assert (Hok' : forallb ok x1.2 = true) by (rewrite Ex, forallb_app; cbn; by rewrite Hok, andb_true_r).
  assert (Hsz : sum_over sz x1.2 = sum_over sz arr.2 + sz x0) by (rewrite Ex, sum_over_app; cbn; lia). next. destruct x2.
  - take. eapply runs_mono; [apply IH; [assumption|assumption|lia|lia|done]|]. cbn beta. intros l p6 F6 (? & Hs & ?). split_and!; [lia|lia|done].
  - apply runs_ret; [done|]. split_and!; [lia|lia|done].
Qed.

(** *** Pieces of statements *)

Lemma inv_no_loops p : inv p -> inv (set_ctx (with_loops 0 0 (q_ctx p)) p).
Proof. intros. by apply inv_ctx. Qed.

Lemma in_function_parses m p c : parses n m -> inv p -> q_ctx p = c -> ahead p < N ->
  runs (in_function m) p (fun a p' => ahead p' + 1 <= ahead p /\ size a <= node_count p' - node_count p /\ jumps_ok false false a = true).
Proof.
  intros Hm Hi Hc Ha. eapply in_function_runs; [done|apply (Hm _ (with_loops 0 0 (q_ctx p))); [by apply inv_no_loops|done|exact Ha]|].
  intros a p1 F (H1 & H2 & H3). cbn. split_and!; [exact H1|exact H2|exact H3].
Qed.

(** A token that is taken if it is there. *)
Lemma skip_if_runs (b : bool) p t ty : inv p -> ParseStr.p_peek (q_tok p) = Some t -> (if b then t_type t = ty else t_type t <> ty) -> ty <> TOK_EOF -> ty <> TOK_ERROR ->
  runs (if b then _ ← consume strtod; mret tt else mret tt) p (fun _ p' => ahead p' <= ahead p /\ node_count p' = node_count p).
Proof.
  intros Hi Hp Hv H1 H2. destruct b; [|by apply runs_ret]. eapply runs_bind; [eapply consume_runs; side|]. after. apply runs_ret; [done|]. split; lia.
Qed.

(** Errors out of a piece that may be no error, and values left as they are. *)
Lemma returned_error {A} (a : A) (m : M A) p (Q : A -> UParser -> Prop) : inv p -> runs m p (fun _ _ => False) ->
  (forall p', fine p p' -> Q a p') -> runs (returned a m) p Q.
Proof. intros Hi Hm HQ. apply runs_returned; [|done]. eapply runs_mono; [done|]. by intros. Qed.

Lemma reject_runs p : inv p -> runs (reject_bare_function_forms strtod grants) p (fun _ p' => ahead p' <= ahead p /\ node_count p <= node_count p').
Proof.
  intros Hi. unfold reject_bare_function_forms. peek. destruct (t_type x) eqn:Ht; try (apply runs_ret; [done|split; lia]); [|by apply error_runs].
  take. next. destruct x0; by apply error_runs.
Qed.

Lemma param_default_runs lazy p c : inv p -> q_ctx p = c -> ahead p < N -> runs (parse_optional_param_default strtod grants k lazy) p (opt_post c p).
Proof.
  intros Hi Hc Ha. unfold parse_optional_param_default. next. destruct x; cbn [negb].
  - take. destruct lazy.
    + apply returned_error; [done|by apply error_runs|]. intros p' Fx. pose proof (f_ahead _ _ Fx). pose proof (f_nodes _ _ Fx). cbn. split_and!; [lia|cbn; lia|done].
    + step (l_expression _ _ Hk). apply runs_ret; [done|]. finish.
  - apply runs_ret; [done|]. finish.
Qed.

Lemma param_runs p c : inv p -> q_ctx p = c -> ahead p < N ->
  runs (parse_param strtod grants k) p (fun a p' => ahead p' + 1 <= ahead p /\ size a <= node_count p' - node_count p /\ jumps_ok (lo c) (sw c) a = true).
Proof.
  intros Hi Hc Ha. unfold parse_param. next. step skip_if_runs.
  peek. need. step make_node_runs. step name_runs. step param_default_runs. apply runs_ret; [done|]. finish.
Qed.

Lemma params_and_body_runs p c : inv p -> q_ctx p = c -> ahead p < Z.of_nat (S n) ->
  runs (params_and_body strtod grants n k) p (fun '(l, b) p' => ahead p' + 1 <= ahead p /\ sizes l + size b <= node_count p' - node_count p /\
    forallb (jumps_ok (lo c) (sw c)) l = true /\ jumps_ok false false b = true).
Proof.
  intros Hi Hc Ha. unfold params_and_body. need. step (@new_array_runs UAstNode).
  eapply runs_bind; [eapply (comma_runs size (jumps_ok (lo c) (sw c)) _ _ c); [intros; by apply param_runs|side..|done]|after].
  need. eapply runs_bind; [eapply runs_oomed, in_function_parses; [apply Hk|side..]|after]. apply runs_ret; [done|]. cbn in *. split_and!; [lia|lia|done|done].
Qed.

Lemma function_parses : parses_at (S n) (urbi_parse_function strtod grants n k).
Proof.
  intros p c t Hi Hc Hp Hv Ha. unfold urbi_parse_function. take.
  eapply runs_bind; [eapply runs_returned; [by apply reject_runs|intros p' Fx; exact (conj (f_ahead _ _ Fx) (f_nodes _ _ Fx))]|after].
  step params_and_body_runs. destruct x0 as [l b]. destruct_and!. last_node.
Qed.

Lemma property_parses recv nm kind l p c : inv p -> q_ctx p = c -> ahead p < Z.of_nat (S n) -> tok_ok nm -> t_type nm = TOK_IDENT ->
  all_opt (jumps_ok (lo c) (sw c)) recv = true ->
  runs (urbi_parse_property_decl strtod grants n k recv nm kind l) p (node_post 1 (size_opt recv) c p).
Proof.
  intros Hi Hc Ha Hnm Hty Hj. unfold urbi_parse_property_decl. step params_and_body_runs. destruct x as [ps b]. destruct_and!. step make_runs.
  eapply (runs_bind _ _ _ (fun r p' => size r <= size_opt recv + (node_count p' - node_count p1) /\ jumps_ok (lo c) (sw c) r = true)).
  { destruct recv as [r|]; [apply runs_ret; [done|]; cbn in *; split; [lia|done]|]. step gets_runs. eapply runs_mono; [by apply make_runs|]. after. cbn. split; [lia|done]. }
  after. step name_runs. step make_runs. step make_runs. step make_runs. step alloc_runs. last_node.
Qed.

Lemma throw_parses : parses_at (S n) (urbi_parse_throw strtod grants k).
Proof. intros p c t Hi Hc Hp Hv Ha. unfold urbi_parse_throw. take. step (l_expression _ _ Hk). last_node. Qed.

(** An optional clause behind a keyword. *)
Lemma clause_runs (b : bool) (m : M UAstNode) p c t ty : inv p -> q_ctx p = c -> ParseStr.p_peek (q_tok p) = Some t -> (if b then t_type t = ty else t_type t <> ty) ->
  ty <> TOK_EOF -> ty <> TOK_ERROR -> ahead p < Z.of_nat (S n) -> parses n m -> runs (if b then _ ← consume strtod; x ← oomed m; mret (Some x) else mret None) p (opt_post c p).
Proof.
  intros Hi Hc Hp Hv H1 H2 Ha Hm. destruct b; [|apply runs_ret; [done|finish]]. take. step Hm. apply runs_ret; [done|]. finish.
Qed.

Lemma finally_runs p c : inv p -> q_ctx p = c -> ahead p < Z.of_nat (S n) -> runs (finally_clause strtod k) p (opt_post c p).
Proof.
  intros Hi Hc Ha. unfold finally_clause. next. eapply runs_mono; [eapply clause_runs; try side; apply Hk|]. after. finish.
Qed.

Lemma try_parses : parses_at (S n) (urbi_parse_try strtod grants k).
Proof.
  intros p c t Hi Hc Hp Hv Ha. unfold urbi_parse_try. take. step (l_block _ _ Hk). next. destruct x0.
  - take. need. next. step skip_if_runs. peek. need. step name_runs. next.
    step clause_runs; [apply Hk|]. need. step (l_block _ _ Hk). next. step clause_runs; [apply Hk|].
    step finally_runs. unfold try_node. last_node.
  - step finally_runs. match goal with |- context [match ?o with Some _ => _ | None => _ end] => destruct o end; unfold try_node; last_node.
Qed.

Lemma payload_binding_runs p : inv p -> runs (parse_event_payload_binding strtod grants) p (fun _ p' => ahead p' <= ahead p /\ node_count p <= node_count p').
Proof.
  intros Hi. unfold parse_event_payload_binding. next.
  assert (Hr : forall q (a : option bytes) l code, inv q -> ahead q <= ahead p -> node_count p <= node_count q ->
    runs (returned a (make_error grants code l)) q (fun _ p' => ahead p' <= ahead p /\ node_count p <= node_count p')).
  { intros q a l code Hq H1' H2'. apply returned_error; [done|by apply error_runs|]. intros p' Fx. pose proof (f_ahead _ _ Fx). pose proof (f_nodes _ _ Fx). split; lia. }
  destruct x; cbn [negb]; [|apply runs_ret; [done|split; lia]]. take. peek.
  unfold tok_is. case_bool_decide as E1; cbn [negb]; [|apply Hr; side]. take. peek. case_bool_decide as E2; cbn [negb]; [|apply Hr; side].
  take. step name_runs. peek. case_bool_decide as E3; cbn [negb]; [|apply Hr; side]. take. apply runs_ret; [done|]. split; lia.
Qed.

Lemma event_cond_parses m p c : parses n m -> inv p -> q_ctx p = c -> ahead p < N -> runs (in_event_cond m) p (node_post 1 0 c p).
Proof.
  intros Hm Hi Hc Ha. eapply in_event_runs; [done|apply (Hm _ (with_at true (q_ctx p))); [apply inv_ctx; try done; apply Hi|done|exact Ha]|].
  intros a p1 F (H1 & H2 & H3). subst c. split_and!; [exact H1|exact H2|exact H3].
Qed.

Lemma waituntil_parses : parses_at (S n) (urbi_parse_waituntil strtod grants k).
Proof.
  intros p c t Hi Hc Hp Hv Ha. unfold urbi_parse_waituntil. take. need. eapply runs_bind; [eapply runs_oomed, event_cond_parses; [apply Hk|side..]|after]. next.
  eapply (runs_bind _ _ _ (fun _ p' => ahead p' <= ahead p3 /\ node_count p3 <= node_count p')).
  { destruct x1; [|apply runs_ret; [done|split; lia]]. take. step payload_binding_runs. apply runs_ret; [done|]. split; lia. }
  after. unpair. need. last_node.
Qed.

(** *** Expressions *)

Lemma string_runs t p : inv p -> ParseStr.p_peek (q_tok p) = Some t -> t_type t = TOK_STRING -> ahead p < Z.of_nat (S n) ->
  runs (string_bytes strtod grants (S n)) p (fun _ p' => ahead p' + 1 <= ahead p /\ node_count p' = node_count p).
Proof.
  intros Hi Hp Ht Ha. destruct (string_literal_runs strtod (sticky grants) (S n) (q_tok p) t (i_tok _ Hi) Hp Ht Ha) as (res & q & E & O & Hlt).
  unfold string_bytes, runs. rewrite E. cbn [mbind option_bind]. eexists _, _. split; [done|]. split; [by apply fine_tok|]. by destruct res as [[? ?]|].
Qed.

Lemma string_literal_parses p c t : inv p -> q_ctx p = c -> ParseStr.p_peek (q_tok p) = Some t -> t_type t = TOK_STRING -> ahead p < Z.of_nat (S n) ->
  runs (parse_string_literal strtod grants n) p (node_post 1 0 c p).
Proof. intros Hi Hc Hp Ht Ha. unfold parse_string_literal. peek. subst. step string_runs. last_node. Qed.

Lemma detach_parses nm : parses_at (S n) (parse_detach_or_disown strtod grants k nm).
Proof.
  intros p c t Hi Hc Hp Hv Ha. unfold parse_detach_or_disown. take.
  set (post := fun (b : UAstNode) p' => ahead p' <= ahead p0 /\ size b <= node_count p' - node_count p0 /\ jumps_ok false false b = true).
  eapply (runs_bind _ _ _ post).
  { eapply (in_function_runs _ _ post); [done| |intros a p1 Fx Hx; exact Hx]. set (q := set_ctx _ _). assert (Hq : inv q) by by apply inv_no_loops.
    assert (Hqc : q_ctx q = with_loops 0 0 (q_ctx p0)) by done. assert (Eqa : ahead q = ahead p0) by done. assert (Eqn : node_count q = node_count p0) by done.
    clearbody q. next. destruct x.
    - take. step (l_expression _ _ Hk). need. apply runs_ret; [done|]. split_and!; [lia|lia|assumption].
    - eapply runs_mono; [eapply runs_oomed, (l_block _ _ Hk); side|]. after. split_and!; [lia|lia|assumption]. }
  unfold post.
  after. step make_runs. step make_runs. step alloc_runs. last_node.
Qed.

Lemma new_call_runs nm args l p c b : inv p -> q_ctx p = c -> sizes args <= b -> forallb (jumps_ok (lo c) (sw c)) args = true ->
  runs (desugar_new_call grants nm args l) p (fun a p' => ahead p' = ahead p /\ size a <= b + (node_count p' - node_count p) /\ jumps_ok (lo c) (sw c) a = true).
Proof.
  intros Hi Hc Hs Hj. unfold desugar_new_call. step make_runs. step make_runs. eapply runs_mono; [by apply make_runs|]. after. split_and!; [lia|sizes|jumps].
Qed.

Lemma method_call_nests l1 s1 recv nm args l p b : inv p -> size recv + sizes args <= b -> jumps_ok l1 s1 recv = true -> forallb (jumps_ok l1 s1) args = true ->
  runs (method_call grants recv nm args l) p (fun a p' => ahead p' = ahead p /\ size a <= b + (node_count p' - node_count p) /\ jumps_ok l1 s1 a = true).
Proof.
  intros Hi Hs Hj Hl. unfold method_call. step make_runs.
  eapply (runs_bind _ _ _ (fun _ p' => ahead p' = ahead p0 /\ node_count p' = node_count p0)).
  { destruct args; [by apply runs_ret|]. eapply runs_mono; [by apply runs_oomed, alloc_runs|]. after. split; lia. }
  after. eapply runs_mono; [by apply make_runs|]. after. split_and!; [lia|sizes|jumps].
Qed.

Lemma method_call_runs recv nm args l p c b : inv p -> q_ctx p = c -> size recv + sizes args <= b -> jumps_ok (lo c) (sw c) recv = true -> forallb (jumps_ok (lo c) (sw c)) args = true ->
  runs (method_call grants recv nm args l) p (fun a p' => ahead p' = ahead p /\ size a <= b + (node_count p' - node_count p) /\ jumps_ok (lo c) (sw c) a = true).
Proof. intros Hi _. by apply method_call_nests. Qed.

(** Keys and values. *)
Definition pair_size (x : UAstNode * UAstNode) : Z := size x.1 + size x.2.
Definition pair_ok (c : context) (x : UAstNode * UAstNode) : bool := jumps_ok (lo c) (sw c) x.1 && jumps_ok (lo c) (sw c) x.2.

Lemma dict_sets_runs pairs l c : forall result p b, inv p -> q_ctx p = c -> size result + sum_over pair_size pairs <= b -> jumps_ok (lo c) (sw c) result = true -> forallb (pair_ok c) pairs = true ->
  runs (dict_sets grants result pairs l) p (fun a p' => ahead p' = ahead p /\ size a <= b + (node_count p' - node_count p) /\ jumps_ok (lo c) (sw c) a = true).
Proof.
  induction pairs as [|[key val] pairs IH]; intros result p b Hi Hc Hs Hj Hp; cbn [dict_sets]; cbn [sum_over forallb] in *.
  { apply runs_ret; [done|]. split_and!; [done|lia|done]. }
  unfold pair_size in Hs at 1. cbn in Hs. apply andb_true_iff in Hp as [Hkv Hp]. unfold pair_ok in Hkv. cbn in Hkv. apply andb_true_iff in Hkv as [Hkk Hvv].
  eapply runs_bind; [eapply (method_call_runs _ _ _ _ _ c (size result + size key + size val)); [done|done|cbn; lia|done|cbn; by rewrite Hkk, Hvv]|after].
  eapply runs_mono; [eapply (IH _ _ (b + (node_count p0 - node_count p))); [done|done|lia|done|done]|]. after. split_and!; [lia|lia|done].
Qed.

Lemma list_loop_runs c : forall fuel arr p, inv p -> q_ctx p = c -> ahead p < N -> ahead p < Z.of_nat fuel -> forallb (jumps_ok (lo c) (sw c)) arr.2 = true ->
  runs (list_loop strtod grants k fuel arr) p (list_post (sizes arr.2) c p).
Proof.
  induction fuel as [|fuel IH]; intros arr p Hi Hc Hn Hf Hok; [pose proof (tahead_bound strtod _ (i_tok _ Hi)); unfold ahead in *; lia|]. cbn [list_loop].
  next. destruct x; cbn [negb]; [|apply runs_ret; [done|finish]]. take. peek. destruct (_ || _); [apply runs_ret; [done|finish]|].
  step (l_expression _ _ Hk). step push_runs. match goal with E : _.2 = arr.2 ++ _ |- _ => rename E into Ex end.
  eapply runs_mono; [apply IH; [done|done|lia|lia|rewrite Ex, forallb_app; cbn; by rewrite Hok, andb_true_r]|]. after. rewrite Ex, sum_over_app in *. finish.
Qed.

Lemma dict_value_runs : forall p c, inv p -> q_ctx p = c -> ahead p < N -> runs (dict_value strtod grants k) p (node_post 1 0 c p).
Proof. intros p c Hi Hc Ha. unfold dict_value. need. eapply runs_mono; [eapply runs_oomed, (l_expression _ _ Hk); side|]. after. finish. Qed.

Lemma dict_loop_runs c : forall fuel arr p, inv p -> q_ctx p = c -> ahead p < N -> ahead p < Z.of_nat fuel -> forallb (pair_ok c) arr.2 = true ->
  runs (dict_loop strtod grants k fuel arr) p (fun l p' => ahead p' <= ahead p /\ sum_over pair_size l <= sum_over pair_size arr.2 + (node_count p' - node_count p) /\ forallb (pair_ok c) l = true).
Proof.
  induction fuel as [|fuel IH]; intros arr p Hi Hc Hn Hf Hok; [pose proof (tahead_bound strtod _ (i_tok _ Hi)); unfold ahead in *; lia|]. cbn [dict_loop].
  next. destruct x; cbn [negb]; [|apply runs_ret; [done|split_and!; [lia|lia|done]]]. take. peek. destruct (_ || _); [apply runs_ret; [done|split_and!; [lia|lia|done]]|].
  step (l_expression _ _ Hk). step dict_value_runs. step push_pair_runs. match goal with E : _.2 = arr.2 ++ [(?a, ?b)] |- _ => rename E into Ex; assert (Hp : pair_ok c (a, b) = true) by (unfold pair_ok; cbn [fst snd]; jumps); assert (Hz : pair_size (a, b) = size a + size b) by done end.
  eapply runs_mono; [apply IH; [done|done|lia|lia|rewrite Ex, forallb_app; cbn [forallb]; by rewrite Hok, Hp]|]. after. rewrite Ex, sum_over_app in *. cbn [sum_over] in *. split_and!; [lia|lia|done].
Qed.

Lemma bracket_parses : parses_at (S n) (parse_bracket_literal strtod grants n k).
Proof.
  intros p c t Hi Hc Hp Hv Ha. unfold parse_bracket_literal. take. step alloc_runs. peek. unfold tok_is. case_bool_decide as E1.
  { take. eapply runs_mono; [eapply (new_call_runs _ _ _ _ c 0); [done|done|done|done]|]. after. finish. }
  case_bool_decide as E2.
  { need. eapply runs_mono; [eapply (new_call_runs _ _ _ _ c 0); [done|done|done|done]|]. after. finish. }
  step (l_expression _ _ Hk). next. match goal with |- context [if ?b then _ else _] => is_var b; destruct b end.
  - step two_allocs_runs. step dict_value_runs.
    match goal with |- context [(4, [(?a, ?b)])] => assert (Hp0 : pair_ok c (a, b) = true) by (unfold pair_ok; cbn [fst snd]; jumps); assert (Hz : pair_size (a, b) = size a + size b) by done end.
    eapply runs_bind; [eapply (dict_loop_runs c); [done|done|lia|lia|cbn; by rewrite Hp0]|after]. cbn [snd sum_over] in *. need.
    eapply runs_bind; [eapply (new_call_runs _ _ _ _ c 0); [done|done|done|done]|after].
    eapply runs_mono; [eapply dict_sets_runs; [done|done|reflexivity|done|done]|]. after. finish.
  - eapply runs_bind; [eapply (list_loop_runs c); [done|done|lia|lia|cbn [snd]; jumps]|after]. cbn [snd sum_over] in *. need.
    eapply runs_mono; [eapply new_call_runs; [done|done|reflexivity|done]|]. after. finish.
Qed.

Lemma atom_parses p c : inv p -> q_ctx p = c -> ahead p < Z.of_nat (S n) -> runs (urbi_parse_atom strtod grants n k) p (node_post 1 0 c p).
Proof.
  intros Hi Hc Ha. unfold urbi_parse_atom. peek. match goal with H : tok_ok x |- _ => pose proof (tok_payload _ H) as Hpay; unfold payload_ok in Hpay end.
  assert (Hat : forall m, parses_at (S n) m -> valid x -> runs m p0 (node_post 1 0 c p)).
  { intros m Hm Hv. eapply runs_mono; [eapply Hm; [done|done|eassumption|done|lia]|]. after. finish. }
  destruct (t_type x) eqn:Hty; try (apply error_runs; assumption); try (take; last_node).
  - destruct Hpay as [i Hu]. rewrite Hu. take. last_node.
  - destruct Hpay as [f Hu]. rewrite Hu. take. last_node.
  - eapply runs_mono; [eapply string_literal_parses; side|]. after. finish.
  - take. step name_runs. last_node.
  - take. step (l_expression _ _ Hk). need. last_node.
  - apply Hat; [apply function_parses|side].
  - apply Hat; [apply try_parses|side].
  - apply Hat; [apply throw_parses|side].
  - apply Hat; [apply waituntil_parses|side].
  - apply Hat; [apply detach_parses|side].
  - apply Hat; [apply detach_parses|side].
  - apply Hat; [apply bracket_parses|side].
  - destruct Hpay as [code Hu]. rewrite Hu. by apply error_runs.
Qed.

(** A step that goes on from a node already parsed. *)
Definition extends (m : M UAstNode) (lhs : UAstNode) : Prop := forall p c t, inv p -> q_ctx p = c -> ParseStr.p_peek (q_tok p) = Some t -> valid t -> ahead p < Z.of_nat (S n) ->
  jumps_ok (lo c) (sw c) lhs = true -> runs m p (node_post 1 (size lhs) c p).

Lemma call_args_extends lhs : extends (parse_call_args strtod grants n k lhs) lhs.
Proof.
  intros p c t Hi Hc Hp Hv Ha Hj. unfold parse_call_args. take. step (@new_array_runs UAstNode).
  eapply runs_bind; [eapply (comma_runs size (jumps_ok (lo c) (sw c)) _ _ c); [|side..|done]|after].
  { intros q Hq Hqc Hqa. eapply runs_mono; [eapply runs_oomed, (l_inner_tier _ _ Hk); side|]. after. split_and!; [lia|lia|done]. }
  need. cbn [snd sum_over] in *. last_node.
Qed.

Lemma property_ahead_runs nm p : inv p -> runs (property_ahead strtod nm) p (fun b p' => node_count p' = node_count p /\
  if b : bool then exists t, ParseStr.p_peek (q_tok p') = Some t /\ t_type t = TOK_IDENT else True).
Proof.
  intros Hi. unfold property_ahead. destruct (negb _); [by apply runs_ret|]. next. destruct x; cbn [negb]; [|by apply runs_ret]. step peek2_runs.
  apply runs_ret; [done|]. split; [lia|]. destruct (tok_is _ _); [by eexists|done].
Qed.

Lemma peeked_ok p t : inv p -> ParseStr.p_peek (q_tok p) = Some t -> tok_ok t.
Proof. intros Hi. by apply (t_peek _ (i_tok _ Hi)). Qed.

Lemma member_extends lhs p c t : inv p -> q_ctx p = c -> ParseStr.p_peek (q_tok p) = Some t -> valid t -> ahead p < Z.of_nat (S n) -> jumps_ok (lo c) (sw c) lhs = true ->
  runs (parse_member_access strtod grants n k lhs) p (fun '(a, _) => node_post 1 (size lhs) c p a).
Proof.
  intros Hi Hc Hp Hv Ha Hj. unfold parse_member_access. take. destruct (tok_is _ _); [by apply error_runs|]. peek. need. step name_runs. step property_ahead_runs.
  match goal with H : if ?b then _ else _ |- _ => destruct b end.
  - destruct_and?. match goal with H : exists _, _ |- _ => destruct H as (t1 & Hp1 & Ht1) end. pose proof (peeked_ok _ _ ltac:(eassumption) Hp1). take.
    eapply runs_bind; [eapply (property_parses (Some lhs)); [done|done|lia|done|done|done]|after]. apply runs_ret; [done|]. finish.
  - next. match goal with H : if ?b then _ else _ |- _ => destruct b end.
    + take. step (l_expression _ _ Hk). step make_runs. apply runs_ret; [done|]. finish.
    + step make_runs. apply runs_ret; [done|]. finish.
Qed.

Lemma emit_runs lhs bang p c : inv p -> q_ctx p = c -> ahead p < N -> jumps_ok (lo c) (sw c) lhs = true ->
  runs (urbi_parse_desugar_postfix_emit strtod grants k lhs bang) p (node_post 0 (size lhs) c p).
Proof.
  intros Hi Hc Ha Hj. unfold urbi_parse_desugar_postfix_emit. step make_runs. next. match goal with H : if ?b then _ else _ |- _ => destruct b end; [|last_node].
  take. peek. eapply (runs_bind _ _ _ (fun o p' => ahead p' <= ahead p3 /\ size_opt o <= node_count p' - node_count p3 /\ all_opt (jumps_ok (lo c) (sw c)) o = true)).
  { destruct (_ || _); [apply runs_ret; [done|]; split_and!; [lia|cbn; lia|done]|]. step (l_inner_tier _ _ Hk). next. match goal with H : if ?b then _ else _ |- _ => destruct b end.
    - take. by apply error_runs.
    - apply runs_ret; [done|]. finish. }
  after. need. match goal with |- context [match ?o with Some _ => _ | None => _ end] => destruct o end; cbn [sum_opt all_opt] in *.
  - step alloc_runs. last_node.
  - apply runs_ret_bind. last_node.
Qed.

Lemma make_two_runs a b p : inv p -> runs (both (make grants a) (make grants b)) p (fun '(x, y) p' => x = a /\ y = b /\ same 2 p p').
Proof.
  intros Hi. eapply runs_both; [by apply make_runs| |].
  - intros p1 F. eapply runs_mono; [apply make_runs, F|done].
  - intros ? p1 F H1. eapply runs_mono; [apply make_runs, F|]. intros ? p2 _ H2. destruct H1 as (? & ? & ? & ?), H2 as (? & ? & ? & ?). unfold same. split_and!; [done|done|congruence|congruence|lia].
Qed.

Lemma hidden_two_runs s s' p : inv p -> runs (both (hidden_name grants s) (hidden_name grants s')) p (fun _ => same 0 p).
Proof.
  intros Hi. eapply runs_both; [by apply hidden_runs| |].
  - intros p1 F. eapply runs_mono; [apply hidden_runs, F|done].
  - intros ? p1 F H1. eapply runs_mono; [apply hidden_runs, F|]. intros ? p2 _ H2. destruct H1 as (? & ? & ?), H2 as (? & ? & ?). unfold same. split_and!; [congruence|congruence|lia].
Qed.

Lemma subscript_add_runs recv index rhs l p c : inv p -> q_ctx p = c -> jumps_ok (lo c) (sw c) recv = true -> jumps_ok (lo c) (sw c) index = true -> jumps_ok (lo c) (sw c) rhs = true ->
  runs (subscript_add grants recv index rhs l) p (node_post 0 (size recv + size index + size rhs) c p).
Proof.
  intros Hi Hc H1 H2 H3. unfold subscript_add. step hidden_two_runs. unpair. step make_two_runs. unpair. destruct_and!. subst. step make_two_runs. unpair. destruct_and!. subst.
  eapply runs_bind; [eapply method_call_runs; [done|done|reflexivity|done|done]|after]. step make_runs. step make_two_runs. unpair. destruct_and!. subst.
  eapply runs_bind; [eapply method_call_runs; [done|done|reflexivity|done|jumps]|after]. step alloc_runs. last_node.
Qed.

Ltac cases := match goal with H : if ?b then _ else _ |- _ => is_var b; destruct b end.

Lemma subscript_runs lhs l p c : inv p -> q_ctx p = c -> ahead p < N -> jumps_ok (lo c) (sw c) lhs = true ->
  runs (subscript strtod grants k lhs l) p (fun '(a, _) => node_post 0 (size lhs) c p a).
Proof.
  intros Hi Hc Ha Hj. unfold subscript. step (l_expression _ _ Hk). need. peek.
  assert (Hget : runs (r ← method_call grants lhs (lit "get") [x] l; mret (r, false)) p2 (fun '(a, _) => node_post 0 (size lhs) c p a)).
  { eapply runs_bind; [eapply method_call_runs; [done|done|reflexivity|done|jumps]|after]. apply runs_ret; [done|]. finish. }
  destruct (t_type x1) eqn:Ht; try exact Hget; clear Hget.
  - take. step (l_expression _ _ Hk). eapply runs_bind; [eapply method_call_runs; [done|done|reflexivity|done|jumps]|after]. apply runs_ret; [done|]. finish.
  - take. step (l_expression _ _ Hk). step subscript_add_runs. apply runs_ret; [done|]. finish.
Qed.

Lemma infix_node_runs op lhs rhs p c : inv p -> q_ctx p = c -> jumps_ok (lo c) (sw c) lhs = true -> jumps_ok (lo c) (sw c) rhs = true ->
  runs (infix_node grants op lhs rhs) p (node_post 0 (size lhs + size rhs) c p).
Proof.
  intros Hi Hc H1 H2. unfold infix_node.
  assert (Hcall : forall nm, runs (method_call grants lhs nm [rhs] (at_tok op)) p (node_post 0 (size lhs + size rhs) c p)).
  { intros nm. eapply runs_mono; [eapply method_call_runs; [done|done|reflexivity|done|jumps]|]. after. finish. }
  destruct (t_type op); first [apply Hcall|cbn [compare_op]; last_node].
Qed.

Lemma reject_changed_runs e p : inv p -> runs (reject_bare_changed strtod grants e) p (fun _ p' => ahead p' = ahead p /\ node_count p' = node_count p).
Proof.
  intros Hi. unfold reject_bare_changed. step gets_runs. subst. destruct (_ && _); [|by apply runs_ret]. peek. destruct (tok_is _ _); by apply error_runs.
Qed.

(** One turn of the loop; a turn that goes on has consumed a token. *)
Definition turn_post (lhs : UAstNode) (c : context) (p : UParser) (r : UAstNode * bool) (p' : UParser) : Prop :=
  node_post (if r.2 then 1 else 0) (size lhs) c p r.1 p'.

Lemma cont_turn_runs lhs m p c : inv p -> q_ctx p = c -> ahead p < Z.of_nat (S n) -> jumps_ok (lo c) (sw c) lhs = true ->
  runs (cont_turn strtod grants n k lhs m) p (turn_post lhs c p).
Proof.
  intros Hi Hc Ha Hj. unfold cont_turn. peek. match goal with |- context [if ?b then mret (lhs, false) else ?e] => set (infix := if b then mret (lhs, false) else e) end.
  assert (Hinfix : runs infix p0 (turn_post lhs c p)).
  { unfold infix. destruct (_ || _) eqn:E; [apply runs_ret; [done|]; unfold turn_post; cbn; finish|]. apply orb_false_elim in E as [_ E]. zbool.
    assert (Hv : valid x) by (split; intros Ht; by rewrite Ht in E). take. step (l_expression _ _ Hk). step infix_node_runs. apply runs_ret; [done|]. unfold turn_post; cbn; finish. }
  clearbody infix. destruct (negb _); [done|]. destruct (t_type x) eqn:Ht; try exact Hinfix; clear Hinfix.
  - step call_args_extends. apply runs_ret; [done|]. unfold turn_post; cbn; finish.
  - step member_extends. destruct x0 as [node asg]. destruct_and!. destruct asg; [apply runs_ret; [done|]; unfold turn_post; cbn; finish|].
    step reject_changed_runs. apply runs_ret; [done|]. unfold turn_post; cbn; finish.
  - step member_extends. destruct x0 as [node asg]. destruct_and!. destruct asg; [apply runs_ret; [done|]; unfold turn_post; cbn; finish|].
    step reject_changed_runs. apply runs_ret; [done|]. unfold turn_post; cbn; finish.
  - step gets_runs. subst. destruct (at_event_cond _); [apply runs_ret; [done|]; unfold turn_post; cbn; finish|]. take. by apply error_runs.
  - take. step emit_runs. apply runs_ret; [done|]. unfold turn_post; cbn; finish.
  - take. step subscript_runs. destruct x0 as [node asg]. destruct_and!. apply runs_ret; [done|]. unfold turn_post; cbn. destruct asg; cbn; finish.
Qed.

Lemma cont_runs m c : forall fuel lhs p, inv p -> q_ctx p = c -> ahead p < Z.of_nat (S n) -> ahead p < Z.of_nat fuel -> jumps_ok (lo c) (sw c) lhs = true ->
  runs (urbi_parse_expression_cont strtod grants n k fuel lhs m) p (node_post 0 (size lhs) c p).
Proof.
  induction fuel as [|fuel IH]; intros lhs p Hi Hc Hn Hf Hj; [pose proof (tahead_bound strtod _ (i_tok _ Hi)); unfold ahead in *; lia|]. cbn [urbi_parse_expression_cont].
  step cont_turn_runs. unfold turn_post in *. destruct x as [node go]. cbn in *. unfold node_post in *. destruct_and!. destruct go.
  - eapply runs_mono; [apply IH; [done|done|lia|lia|done]|]. after. finish.
  - apply runs_ret; [done|]. finish.
Qed.

Lemma unary_parses op t p c : inv p -> q_ctx p = c -> ParseStr.p_peek (q_tok p) = Some t -> valid t -> ahead p < Z.of_nat (S n) ->
  runs (unary strtod grants n k op t) p (node_post 1 0 c p).
Proof. intros Hi Hc Hp Hv Ha. unfold unary. take. step (l_prefix _ _ Hk). step cont_runs. last_node. Qed.

Lemma prefix_parses : parses (S n) (urbi_parse_prefix strtod grants n k).
Proof.
  intros p c Hi Hc Ha. unfold urbi_parse_prefix. peek.
  assert (Hatom : runs (urbi_parse_atom strtod grants n k) p0 (node_post 1 0 c p)).
  { eapply runs_mono; [eapply atom_parses; side|]. after. finish. }
  destruct (t_type x) eqn:Ht; try exact Hatom; clear Hatom.
  - take. eapply runs_mono; [eapply (l_prefix _ _ Hk); side|]. after. finish.
  - eapply runs_mono; [eapply unary_parses; side|]. after. finish.
  - eapply runs_mono; [eapply unary_parses; side|]. after. finish.
Qed.

Lemma expression_parses m : parses (S n) (urbi_parse_expression strtod grants n k m).
Proof.
  intros p c Hi Hc Ha. unfold urbi_parse_expression, budgeted. eapply (budgeted_runs _ _ (node_post 1 0 c p)); [done| |].
  - set (q := set_ctx _ _). intros Hq. set (cq := q_ctx q). assert (Hqc : q_ctx q = cq) by done. assert (Eqa : ahead q = ahead p) by done. assert (Eqn : node_count q = node_count p) by done.
    assert (El : lo cq = lo c) by (by subst c). assert (Es : sw cq = sw c) by (by subst c). clearbody q. step prefix_parses. eapply runs_mono; [eapply cont_runs; side|]. after.
    rewrite El, Es in *. finish.
  - intros a p1 F Hx. exact Hx.
Qed.

(** *** Separators *)

Lemma statement_end_runs p : inv p -> runs (at_statement_end strtod) p (fun _ p' => ahead p' = ahead p /\ node_count p' = node_count p).
Proof. intros Hi. unfold at_statement_end. peek. apply runs_ret; [done|]. split; lia. Qed.

Lemma sep_operand_runs p c : inv p -> q_ctx p = c -> ahead p < N -> runs (parse_sep_operand strtod k) p (node_post 1 0 c p).
Proof.
  intros Hi Hc Ha. unfold parse_sep_operand. peek.
  assert (He : runs (k_expression k 0) p0 (node_post 1 0 c p)) by (eapply runs_mono; [eapply (l_expression _ _ Hk); side|]; after; finish).
  destruct (t_type x) eqn:Ht; try exact He; clear He.
  - eapply runs_mono; [eapply (l_block _ _ Hk); side|]. after. finish.
  - eapply runs_mono; [eapply (l_if _ _ Hk); side|]. after. finish.
  - eapply runs_mono; [eapply (l_while _ _ Hk); side|]. after. finish.
Qed.

Lemma fold_runs c : forall fuel lhs run p, inv p -> q_ctx p = c -> ahead p < Z.of_nat (S n) -> ahead p < Z.of_nat fuel -> jumps_ok (lo c) (sw c) lhs = true ->
  (match run with Some (s, l, arr) => lhs = AST_SEQ l s arr.2 | None => True end) ->
  runs (fold_loop strtod grants k fuel lhs run) p (node_post 0 (size lhs) c p).
Proof.
  induction fuel as [|fuel IH]; intros lhs run p Hi Hc Hn Hf Hj Hr; [pose proof (tahead_bound strtod _ (i_tok _ Hi)); unfold ahead in *; lia|]. cbn [fold_loop].
  peek. destruct (tok_is TOK_PIPE x || tok_is TOK_AMP x) eqn:Esep; cbn [negb]; [|apply runs_ret; [done|finish]]. take. step statement_end_runs. peek.
  set (s := if tok_is TOK_PIPE x then SEP_PIPE else SEP_AMP). destruct (_ || _ || _ || _).
  { destruct s; [apply runs_ret; [done|finish]|by apply error_runs..]. }
  step sep_operand_runs. match goal with |- runs (match run with Some _ => _ | None => ?f end) _ _ => set (fresh := f) end.
  assert (Hfresh : runs fresh p4 (node_post 0 (size lhs) c p)).
  { unfold fresh. step alloc_runs. step make_runs. eapply runs_mono; [apply IH; [done|done|lia|lia|jumps|done]|]. after. finish. }
  clearbody fresh. destruct run as [[[cur l] arr]|]; [|done]. case_decide as Es; [|done]. clear Hfresh. step push_runs.
  subst lhs. cbn [jumps_ok] in Hj.
  match goal with E : ?r.2 = arr.2 ++ [?y] |- _ =>
    assert (Hja : forallb (jumps_ok (lo c) (sw c)) r.2 = true) by (rewrite E, forallb_app; cbn [forallb]; by rewrite Hj, andb_true_r);
    assert (Hsz : sizes r.2 = sizes arr.2 + size y) by (rewrite E, sum_over_app; cbn; lia) end.
  eapply runs_mono; [eapply IH; [done|done|lia|lia|done|done]|]. after. finish.
Qed.

Lemma pipe_amp_runs lhs p c : inv p -> q_ctx p = c -> ahead p < Z.of_nat (S n) -> jumps_ok (lo c) (sw c) lhs = true ->
  runs (urbi_parse_pipe_amp_fold strtod grants n k lhs) p (node_post 0 (size lhs) c p).
Proof. intros. unfold urbi_parse_pipe_amp_fold. by apply fold_runs. Qed.

Lemma inner_tier_parses : parses (S n) (urbi_parse_inner_tier strtod grants n k).
Proof. intros p c Hi Hc Ha. unfold urbi_parse_inner_tier. step expression_parses. eapply runs_mono; [eapply pipe_amp_runs; side|]. after. finish. Qed.

(** *** Blocks, arms and reactive statements *)

Lemma block_loop_runs c : forall fuel arr p, inv p -> q_ctx p = c -> ahead p < N -> ahead p < Z.of_nat fuel -> forallb (jumps_ok (lo c) (sw c)) arr.2 = true ->
  runs (block_loop strtod grants k fuel arr) p (list_post (sizes arr.2) c p).
Proof.
  induction fuel as [|fuel IH]; intros arr p Hi Hc Hn Hf Hok; [pose proof (tahead_bound strtod _ (i_tok _ Hi)); unfold ahead in *; lia|]. cbn [block_loop].
  peek. destruct (_ || _); [apply runs_ret; [done|finish]|]. step (l_outer_tier _ _ Hk). step push_runs.
  match goal with E : ?r.2 = arr.2 ++ [?y] |- _ =>
    assert (Hja : forallb (jumps_ok (lo c) (sw c)) r.2 = true) by (rewrite E, forallb_app; cbn [forallb]; jumps);
    assert (Hsz : sizes r.2 = sizes arr.2 + size y) by (rewrite E, sum_over_app; cbn; lia) end.
  peek. match goal with |- context [tok_is TOK_SEMI ?t] => destruct (tok_is TOK_SEMI t || tok_is TOK_PIPE t) eqn:Esep end; [|apply runs_ret; [done|finish]].
  take. eapply runs_mono; [apply IH; [done|done|lia|lia|done]|]. after. finish.
Qed.

(** A level of depth changes nothing else. *)
Lemma nested_step m w b p c : inv p -> q_ctx p = c -> (forall q c', inv q -> q_ctx q = c' -> lo c' = lo c -> sw c' = sw c -> q_tok q = q_tok p -> node_count q = node_count p -> runs m q (node_post w b c' q)) ->
  runs (nested m) p (node_post w b c p).
Proof.
  intros Hi Hc Hm. eapply (nested_runs _ _ (node_post w b c p)); [done| |by intros].
  set (q := set_ctx _ _). intros Hq. assert (Hqt : q_tok q = q_tok p) by done. assert (Eqn : node_count q = node_count p) by done.
  assert (El : lo (q_ctx q) = lo c) by (by subst c). assert (Es : sw (q_ctx q) = sw c) by (by subst c). clearbody q.
  eapply runs_mono; [apply (Hm q (q_ctx q)); done|]. after. unfold node_post. rewrite El, Es in *. unfold ahead in *. rewrite Hqt in *. split_and!; [lia|lia|done].
Qed.

Lemma block_parses : parses (S n) (urbi_parse_block strtod grants n k).
Proof.
  intros p c Hi Hc Ha. unfold urbi_parse_block. apply nested_step; [done|done|]. intros q c' Hq Hqc _ _ Ht Hn. assert (ahead q = ahead p) by (unfold ahead; by rewrite Ht).
  unfold parse_block_body. peek. need. step (@new_array_runs UAstNode). eapply runs_bind; [eapply (block_loop_runs c'); [done|done|lia|lia|done]|after]. cbn [snd sum_over] in *. need. last_node.
Qed.

(** Where a value came from. *)
Lemma bind_val {A B} (m : M A) (f : A -> M B) p b p' : (m ≫= f) p = Some (Val b, p') -> exists a p1, m p = Some (Val a, p1) /\ f a p1 = Some (Val b, p').
Proof. unfold mbind, M_bind. destruct (m p) as [[[a| |e] p1]|]; try done. intros E. by exists a, p1. Qed.

Lemma block_is_block p b p' : urbi_parse_block strtod grants n k p = Some (Val b, p') -> exists l stmts, b = AST_BLOCK l stmts.
Proof.
  unfold urbi_parse_block, nested. intros (a0 & p0 & _ & E)%bind_val. unfold within in E. destruct (parse_block_body _ _ _ _ _) as [[r p1]|] eqn:Eb; [|done]. cbn in E. injection E as -> _.
  unfold parse_block_body in Eb. apply bind_val in Eb as (t & p2 & _ & Eb). apply bind_val in Eb as (u & p3 & _ & Eb). apply bind_val in Eb as (arr & p4 & _ & Eb).
  apply bind_val in Eb as (stmts & p5 & _ & Eb). apply bind_val in Eb as (u' & p6 & _ & Eb). unfold oomed in Eb.
  destruct (make _ _ _) as [[[x| |e] p7]|] eqn:Em; try done. injection Eb as -> ->. apply bind_val in Em as (v & p8 & _ & Em). cbn in Em. injection Em as <- _. by eexists _, _.
Qed.

Lemma arm_parses : parses n (parse_arm strtod grants k).
Proof.
  intros p c Hi Hc Ha. unfold parse_arm. next. cases; [eapply runs_mono; [eapply (l_block _ _ Hk); side|]; after; finish|].
  eapply (runs_mono _ _ (node_post 1 0 c p0)); [|after; finish]. unfold parse_single_stmt_as_block. apply nested_step; [done|done|]. intros q c' Hq Hqc _ _ Ht Hqn.
  assert (ahead q = ahead p0) by (unfold ahead; by rewrite Ht). unfold parse_single_stmt_body. peek. step (l_arm _ _ Hk). step alloc_runs. last_node.
Qed.

Lemma paren_inner_runs p c : inv p -> q_ctx p = c -> ahead p < Z.of_nat (S n) -> runs (paren_inner strtod grants k) p (node_post 1 0 c p).
Proof. intros Hi Hc Ha. unfold paren_inner. need. step (l_inner_tier _ _ Hk). need. apply runs_ret; [done|]. finish. Qed.

Lemma lo_more c : 0 <= loop_depth c -> lo (with_loops (loop_depth c + 1) (switch_depth c) c) = true.
Proof. intros. unfold lo. cbn. apply Z.ltb_lt. lia. Qed.
Lemma sw_more c : 0 <= switch_depth c -> sw (with_loops (loop_depth c) (switch_depth c + 1) c) = true.
Proof. intros. unfold sw. cbn. apply Z.ltb_lt. lia. Qed.

Lemma loop_body_runs m p c : parses n m -> inv p -> q_ctx p = c -> ahead p < N ->
  runs (in_loop m) p (fun a p' => ahead p' + 1 <= ahead p /\ size a <= node_count p' - node_count p /\ jumps_ok true (sw c) a = true).
Proof.
  intros Hm Hi Hc Ha. pose proof (i_loop _ Hi) as Hl. eapply (in_loop_runs _ _ (fun a p' => ahead p' + 1 <= ahead p /\ size a <= node_count p' - node_count p /\ jumps_ok true (sw c) a = true)); [done| |by intros].
  eapply runs_mono; [apply (Hm _ (with_loops (loop_depth (q_ctx p) + 1) (switch_depth (q_ctx p)) (q_ctx p))); [|done|exact Ha]|].
  - apply inv_ctx; cbn; [done|lia|apply Hi|done].
  - intros a p1 F (H1 & H2 & H3). rewrite lo_more in H3 by done. subst c. split_and!; [exact H1|exact H2|exact H3].
Qed.

Lemma while_parses : parses_at (S n) (urbi_parse_while strtod grants k).
Proof.
  intros p c t Hi Hc Hp Hv Ha. unfold urbi_parse_while. take. step paren_inner_runs. eapply runs_bind; [eapply runs_oomed, loop_body_runs; [apply arm_parses|side..]|after]. last_node.
Qed.

Lemma if_parses : parses_at (S n) (urbi_parse_if strtod grants k).
Proof.
  intros p c t Hi Hc Hp Hv Ha. unfold urbi_parse_if. take. step paren_inner_runs. step arm_parses. next. step clause_runs; [apply arm_parses|]. last_node.
Qed.

Lemma reactive_body_parses : parses n (parse_reactive_body strtod grants k).
Proof.
  intros p c Hi Hc Ha. unfold parse_reactive_body. peek. destruct (tok_is _ _); [eapply runs_mono; [eapply (l_block _ _ Hk); side|]; after; finish|].
  eapply (runs_bind _ _ _ (node_post 1 0 c p0)).
  { apply runs_oomed, nested_step; [done|done|]. intros q c' Hq Hqc _ _ Ht Hqn. assert (ahead q = ahead p0) by (unfold ahead; by rewrite Ht).
    eapply runs_mono; [eapply (l_arm _ _ Hk); side|]. after. finish. }
  after. step alloc_runs. last_node.
Qed.

Lemma reactive_clause_runs kw p c : kw <> TOK_EOF -> kw <> TOK_ERROR -> inv p -> q_ctx p = c -> ahead p < Z.of_nat (S n) -> runs (reactive_clause strtod grants k kw) p (opt_post c p).
Proof.
  intros H1 H2 Hi Hc Ha. unfold reactive_clause. next. eapply runs_mono; [eapply clause_runs; try side; apply reactive_body_parses|]. after. finish.
Qed.

(** The arms of a watcher, in a function of their own. *)
Lemma arms_runs {A} (m : M A) (Q : A -> UParser -> Prop) p : inv p -> (forall q, inv q -> q_ctx q = with_loops 0 0 (q_ctx p) -> ahead q = ahead p -> node_count q = node_count p -> runs m q Q) ->
  (forall a p', Q a p' -> Q a (set_ctx (q_ctx p) p')) -> runs (in_function m) p Q.
Proof. intros Hi Hm HQ. eapply (in_function_runs _ _ Q); [done|apply Hm; [by apply inv_no_loops|done..]|]. intros a p1 _ Hx. by apply HQ. Qed.

Lemma event_form_runs kw cond mode allow p c : inv p -> q_ctx p = c -> ahead p < Z.of_nat (S n) -> jumps_ok (lo c) (sw c) cond = true ->
  runs (parse_event_form strtod grants k kw cond mode allow) p (node_post 1 (size cond) c p).
Proof.
  intros Hi Hc Ha Hj. unfold parse_event_form. step payload_binding_runs. need.
  set (Q := fun (r : UAstNode * option UAstNode) p' => ahead p' <= ahead p1 /\ size r.1 + size_opt r.2 <= node_count p' - node_count p1 /\ jumps_ok false false r.1 = true /\ all_opt (jumps_ok false false) r.2 = true).
  eapply (runs_bind _ _ _ Q).
  { eapply arms_runs; [done| |by intros]. intros q Hq Hqc Hqa Hqn. step reactive_body_parses. step reactive_clause_runs. apply runs_ret; [done|]. unfold Q. cbn [fst snd]. split_and!; [lia|lia|assumption..]. }
  unfold Q. after. unpair. cbn [fst snd] in *.
  assert (Hlast : forall l src e, size e <= size cond -> jumps_ok (lo c) (sw c) e = true -> forall pl b ol, jumps_ok false false b = true -> all_opt (jumps_ok false false) ol = true -> size b + size_opt ol <= node_count p2 - node_count p1 ->
    runs (oomed (make grants (AST_WATCHER l mode src e (Some b) None ol pl))) p2 (node_post 1 (size cond) c p)).
  { intros. last_node. }
  match goal with |- runs (match ?o with Some _ => _ | None => _ end) _ _ => destruct o as [[recv slot]|] eqn:Eo end; [|by apply Hlast].
  assert (size recv <= size cond /\ jumps_ok (lo c) (sw c) recv = true) as [? ?]; [|by apply Hlast].
  destruct allow; [|done]. destruct cond; try done. destruct cond; try done. cbn in Eo. destruct (urbi_parse_ident_equals _ _); [|done]. injection Eo as -> ->. cbn in *. split; [lia|done].
Qed.

Ltac keep H := match goal with E : ParseStr.p_peek (q_tok ?a) = ParseStr.p_peek (q_tok ?b), E' : ParseStr.p_peek (q_tok ?b) = Some ?x |- _ => assert (H : ParseStr.p_peek (q_tok a) = Some x) by congruence end.

Lemma at_cond_form_runs kw cond mode p c : inv p -> q_ctx p = c -> ahead p < Z.of_nat (S n) -> jumps_ok (lo c) (sw c) cond = true ->
  runs (parse_at_cond_form strtod grants k kw cond mode) p (node_post 1 (size cond) c p).
Proof.
  intros Hi Hc Ha Hj. unfold parse_at_cond_form. need.
  set (Q := fun (r : UAstNode * option UAstNode) p' => ahead p' <= ahead p0 /\ size r.1 + size_opt r.2 <= node_count p' - node_count p0 /\ jumps_ok false false r.1 = true /\ all_opt (jumps_ok false false) r.2 = true).
  eapply (runs_bind _ _ _ Q).
  { eapply arms_runs; [done| |by intros]. intros q Hq Hqc Hqa Hqn. step reactive_body_parses. next. destruct (_ && _) eqn:E.
    - apply andb_true_iff in E as [-> _]. take. by apply error_runs.
    - step reactive_clause_runs. apply runs_ret; [done|]. unfold Q. cbn [fst snd]. split_and!; [lia|lia|assumption..]. }
  unfold Q. after. unpair. cbn [fst snd] in *. last_node.
Qed.

Lemma at_parses : parses_at (S n) (urbi_parse_at strtod grants k).
Proof.
  intros p c t Hi Hc Hp Hv Ha. unfold urbi_parse_at. take. peek.
  eapply (runs_bind _ _ _ (fun _ p' => ahead p' <= ahead p0 /\ node_count p' = node_count p0)).
  { assert (Hr : forall m : watch_mode, runs (mret m) p1 (fun _ p' => ahead p' <= ahead p0 /\ node_count p' = node_count p0)) by (intros; apply runs_ret; [done|]; split; lia).
    match goal with |- context [match t_type ?t with _ => _ end] => destruct (t_type t) eqn:Ht end; try apply Hr; clear Hr; take; (apply runs_ret; [done|]; split; lia). }
  after. need. eapply runs_bind; [eapply runs_oomed, event_cond_parses; [apply Hk|side..]|after]. next. cases.
  - take. eapply runs_mono; [eapply event_form_runs; side|]. after. finish.
  - eapply runs_mono; [eapply at_cond_form_runs; side|]. after. finish.
Qed.

Lemma whenever_parses : parses_at (S n) (urbi_parse_whenever strtod grants k).
Proof.
  intros p c t Hi Hc Hp Hv Ha. unfold urbi_parse_whenever. take. need. eapply runs_bind; [eapply runs_oomed, event_cond_parses; [apply Hk|side..]|after]. next. cases.
  { take. eapply runs_mono; [eapply event_form_runs; side|]. after. finish. }
  need. rename p4 into q0.
  set (Q := fun (r : UAstNode * option UAstNode * option UAstNode) p' => ahead p' <= ahead q0 /\ size r.1.1 + size_opt r.1.2 + size_opt r.2 <= node_count p' - node_count q0 /\
    jumps_ok false false r.1.1 = true /\ all_opt (jumps_ok false false) r.1.2 = true /\ all_opt (jumps_ok false false) r.2 = true).
  eapply (runs_bind _ _ _ Q).
  { eapply arms_runs; [done| |by intros]. intros q Hq Hqc Hqa Hqn. step reactive_body_parses. step reactive_clause_runs. step reactive_clause_runs. apply runs_ret; [done|].
    unfold Q. cbn [fst snd]. split_and!; [lia|lia|assumption..]. }
  unfold Q. after. unpair. cbn [fst snd] in *. last_node.
Qed.

Lemma every_parses : parses_at (S n) (urbi_parse_every strtod grants k).
Proof.
  intros p c t Hi Hc Hp Hv Ha. unfold urbi_parse_every. take. step paren_inner_runs. eapply runs_bind; [eapply runs_oomed, in_function_parses; [apply reactive_body_parses|side..]|after].
  step make_runs. step make_runs. step alloc_runs. last_node.
Qed.

Lemma tag_body_runs tag l p c : inv p -> q_ctx p = c -> ahead p < N -> jumps_ok (lo c) (sw c) tag = true ->
  runs (parse_tag_prefix_body strtod grants k tag l) p (node_post 1 (size tag) c p).
Proof.
  intros Hi Hc Ha Hj. unfold parse_tag_prefix_body. next. eapply (runs_bind _ _ _ (node_post 1 0 c p)); [|after; last_node].
  cases; [eapply runs_mono; [eapply runs_oomed, (l_block _ _ Hk); side|]; after; finish|]. eapply (runs_bind _ _ _ (node_post 1 0 c p0)).
  { apply runs_oomed, nested_step; [done|done|]. intros q c' Hq Hqc _ _ Ht Hqn. assert (ahead q = ahead p0) by (unfold ahead; by rewrite Ht).
    eapply runs_mono; [eapply (l_statement _ _ Hk); side|]. after. finish. }
  after. step make_node_runs. step alloc_runs. apply runs_ret; [done|]. finish.
Qed.

Lemma tag_prefix_runs name p c t : inv p -> q_ctx p = c -> ParseStr.p_peek (q_tok p) = Some t -> valid t -> ahead p < Z.of_nat (S n) -> tok_ok name -> t_type name = TOK_IDENT ->
  runs (urbi_parse_tag_prefix strtod grants k name) p (node_post 1 0 c p).
Proof.
  intros Hi Hc Hp Hv Ha Hnm Hty. unfold urbi_parse_tag_prefix. take. step name_runs. step make_runs. eapply runs_mono; [eapply tag_body_runs; [done|done|lia|done]|]. after. finish.
Qed.

Lemma tag_expr_runs tag p c t : inv p -> q_ctx p = c -> ParseStr.p_peek (q_tok p) = Some t -> valid t -> ahead p < Z.of_nat (S n) -> jumps_ok (lo c) (sw c) tag = true ->
  runs (urbi_parse_tag_prefix_from_expr strtod grants k tag) p (node_post 1 (size tag) c p).
Proof.
  intros Hi Hc Hp Hv Ha Hj. unfold urbi_parse_tag_prefix_from_expr. take. eapply runs_mono; [eapply tag_body_runs; [done|done|lia|done]|]. after. finish.
Qed.

(** *** Statements *)

Lemma slot_decl_runs c : forall fuel recv p t, inv p -> q_ctx p = c -> ParseStr.p_peek (q_tok p) = Some t -> valid t -> ahead p < Z.of_nat (S n) -> ahead p < Z.of_nat fuel -> jumps_ok (lo c) (sw c) recv = true ->
  runs (slot_decl_loop strtod grants k fuel recv) p (node_post 1 (size recv) c p).
Proof.
  induction fuel as [|fuel IH]; intros recv p t Hi Hc Hp Hv Hn Hf Hj; [pose proof (tahead_bound strtod _ (i_tok _ Hi)); unfold ahead in *; lia|]. cbn [slot_decl_loop].
  take. peek. need. step name_runs. next. cases.
  - step make_runs. keep Hk1.
    eapply runs_mono; [eapply IH; [done|done|exact Hk1|side|lia|lia|done]|]. after. finish.
  - need. step (l_expression _ _ Hk). last_node.
Qed.

Lemma var_decl_parses : parses_at (S n) (parse_var_decl strtod grants n k).
Proof.
  intros p c t Hi Hc Hp Hv Ha. unfold parse_var_decl. take. peek. destruct (reserved_name _); [by apply error_runs|]. need. step name_runs. next. cases.
  - step make_runs. keep Hk1.
    eapply runs_mono; [eapply slot_decl_runs; [done|done|exact Hk1|side|lia|lia|done]|]. after. finish.
  - next. match goal with |- runs _ ?q _ => eapply (runs_bind _ _ _ (node_post 0 0 c q)) end.
    { cases; [take; eapply runs_mono; [eapply (l_expression _ _ Hk); side|]; after; finish|last_node]. }
    after. last_node.
Qed.

Lemma assign_runs name p c t : inv p -> q_ctx p = c -> ParseStr.p_peek (q_tok p) = Some t -> valid t -> ahead p < Z.of_nat (S n) -> tok_ok name -> t_type name = TOK_IDENT ->
  runs (parse_assign_after_eq_peek strtod grants k name) p (node_post 1 0 c p).
Proof. intros Hi Hc Hp Hv Ha Hnm Hty. unfold parse_assign_after_eq_peek. take. step (l_expression _ _ Hk). step name_runs. last_node. Qed.

Lemma ident_statement_runs name fold p c : inv p -> q_ctx p = c -> ahead p < N -> tok_ok name -> t_type name = TOK_IDENT ->
  runs (parse_assign_or_expr_impl strtod grants n k name fold) p (node_post 0 0 c p).
Proof.
  intros Hi Hc Ha Hnm Hty. unfold parse_assign_or_expr_impl. step name_runs. step property_ahead_runs. match goal with H : if ?b then _ else _ |- _ => destruct b end.
  - match goal with H : exists _, _ |- _ => destruct H as (t1 & Hp1 & Ht1) | _ => idtac end. step gets_runs. destruct (_ =? 0); [by apply error_runs|]. subst.
    match goal with H : ParseStr.p_peek (q_tok ?q) = Some ?t, H' : t_type ?t = TOK_IDENT |- runs (_ ≫= _) ?q _ => pose proof (peeked_ok _ _ ltac:(eassumption) H) end. take.
    eapply runs_mono; [eapply (property_parses None); [done|done|lia|done|done|done]|]. after. cbn in *. finish.
  - peek.
    assert (Hexpr : runs (lhs ← make grants (AST_IDENT (at_tok name) x); lhs ← urbi_parse_expression_cont strtod grants n k (S n) lhs 0; colon ← next_is strtod TOK_COLON;
      if colon : bool then urbi_parse_tag_prefix_from_expr strtod grants k lhs else if fold then urbi_parse_pipe_amp_fold strtod grants n k lhs else mret lhs) p2 (node_post 0 0 c p)).
    { step make_runs. step cont_runs. next. cases.
      - eapply runs_mono; [eapply tag_expr_runs; side|]. after. finish.
      - destruct fold; [eapply runs_mono; [eapply pipe_amp_runs; side|]; after; finish|apply runs_ret; [done|]; finish]. }
    match goal with |- context [match t_type ?t with _ => _ end] => destruct (t_type t) eqn:Ht end; try exact Hexpr; clear Hexpr.
    + eapply runs_mono; [eapply assign_runs; side|]. after. finish.
    + eapply runs_mono; [eapply tag_prefix_runs; side|]. after. finish.
Qed.

(** *** Classes *)

Lemma flatten_runs c : forall stmt arr p, inv p -> q_ctx p = c -> jumps_ok (lo c) (sw c) stmt = true -> forallb (jumps_ok (lo c) (sw c)) arr.2 = true ->
  runs (flatten_class_body_stmt grants stmt arr) p (fun r p' => same 0 p p' /\ sizes r.2 <= sizes arr.2 + size stmt /\ forallb (jumps_ok (lo c) (sw c)) r.2 = true).
Proof.
  fix IH 1. intros stmt arr p Hi Hc Hj Ha.
  assert (Hleaf : runs (push grants arr stmt) p (fun r p' => same 0 p p' /\ sizes r.2 <= sizes arr.2 + size stmt /\ forallb (jumps_ok (lo c) (sw c)) r.2 = true)).
  { eapply runs_mono; [by apply push_runs|]. cbn beta. intros r p1 _ [E Hs]. split; [done|]. rewrite E, sum_over_app, forallb_app. cbn. rewrite Ha, Hj. split; [lia|done]. }
  destruct stmt; try exact Hleaf. clear Hleaf. cbn [flatten_class_body_stmt jumps_ok size] in *. revert arr p Hi Hc Ha.
  assert (Hgo : forall arr p, inv p -> q_ctx p = c -> forallb (jumps_ok (lo c) (sw c)) arr.2 = true ->
    runs ((fix go l arr : M (Z * list UAstNode) := match l with [] => mret arr | s :: l => arr ← flatten_class_body_stmt grants s arr; go l arr end) children arr) p
      (fun r p' => same 0 p p' /\ sizes r.2 <= sizes arr.2 + sizes children /\ forallb (jumps_ok (lo c) (sw c)) r.2 = true)).
  2:{ intros arr p Hi Hc Ha. eapply runs_mono; [by apply Hgo|]. cbn beta. intros r p1 _ (? & ? & ?). split_and!; [done|lia|done]. }
  induction children as [|s l IHl]; intros arr p Hi Hc Ha.
  - apply runs_ret; [done|]. split_and!; [split_and!; [done|done|lia]|cbn; lia|done].
  - cbn [forallb] in Hj. apply andb_true_iff in Hj as [Hs Hl]. eapply runs_bind; [by apply IH|]. cbn beta. intros r p1 F ((S1 & S2 & S3) & Hz & Hr).
    eapply runs_mono; [apply IHl; [done|apply F|rewrite (f_ctx _ _ F); done|done]|]. cbn beta. intros r2 p2 _ ((? & ? & ?) & ? & ?). cbn [sum_over]. split_and!; [split_and!; [congruence|congruence|lia]|lia|done].
Qed.

Lemma flatten_all_runs c stmts : forall arr p, inv p -> q_ctx p = c -> forallb (jumps_ok (lo c) (sw c)) stmts = true -> forallb (jumps_ok (lo c) (sw c)) arr.2 = true ->
  runs (flatten_all grants stmts arr) p (fun r p' => same 0 p p' /\ sizes r.2 <= sizes arr.2 + sizes stmts /\ forallb (jumps_ok (lo c) (sw c)) r.2 = true).
Proof.
  induction stmts as [|s stmts IH]; intros arr p Hi Hc Hj Ha; cbn [flatten_all].
  { apply runs_ret; [done|]. split_and!; [split_and!; [done|done|lia]|cbn; lia|done]. }
  cbn [forallb] in Hj. apply andb_true_iff in Hj as [Hs Hl]. eapply runs_bind; [by apply flatten_runs|]. cbn beta. intros r p1 F ((S1 & S2 & S3) & Hz & Hr).
  eapply runs_mono; [apply IH; [apply F|rewrite (f_ctx _ _ F); done|done|done]|]. cbn beta. intros r2 p2 _ ((? & ? & ?) & ? & ?). cbn [sum_over]. split_and!; [split_and!; [congruence|congruence|lia]|lia|done].
Qed.

Lemma proto_loop_runs c : forall fuel arr p, inv p -> q_ctx p = c -> ahead p < N -> ahead p < Z.of_nat fuel -> forallb (jumps_ok (lo c) (sw c)) arr.2 = true ->
  runs (proto_loop strtod grants k fuel arr) p (list_post (sizes arr.2) c p).
Proof.
  induction fuel as [|fuel IH]; intros arr p Hi Hc Hn Hf Hok; [pose proof (tahead_bound strtod _ (i_tok _ Hi)); unfold ahead in *; lia|]. cbn [proto_loop].
  step (l_prefix _ _ Hk). step push_runs.
  match goal with E : ?r.2 = arr.2 ++ [?y] |- _ =>
    assert (Hja : forallb (jumps_ok (lo c) (sw c)) r.2 = true) by (rewrite E, forallb_app; cbn [forallb]; jumps);
    assert (Hsz : sizes r.2 = sizes arr.2 + size y) by (rewrite E, sum_over_app; cbn; lia) end.
  next. cases; [|apply runs_ret; [done|finish]]. take. eapply runs_mono; [apply IH; [done|done|lia|lia|done]|]. after. finish.
Qed.

Lemma protos_runs p c : inv p -> q_ctx p = c -> ahead p < Z.of_nat (S n) -> runs (class_protos strtod grants n k) p (list_post 0 c p).
Proof.
  intros Hi Hc Ha. unfold class_protos. next. cases; cbn [negb]; [|apply runs_ret; [done|finish]]. take. peek.
  unfold tok_is. case_bool_decide as Hpub; cbn [negb]; [|by apply error_runs]. take. step (@new_array_runs UAstNode).
  eapply runs_mono; [eapply proto_loop_runs; [done|done|lia|lia|done]|]. after. cbn [snd sum_over] in *. finish.
Qed.

Lemma insert_protos_runs cls l c protos : forall p, inv p -> q_ctx p = c -> forallb (jumps_ok (lo c) (sw c)) protos = true ->
  runs (insert_protos grants cls l protos) p (list_post (sizes protos) c p).
Proof.
  induction protos as [|proto protos IH]; intros p Hi Hc Hj; cbn [insert_protos]; [apply runs_ret; [done|finish]|]. cbn [forallb] in Hj. apply andb_true_iff in Hj as [Hp Hl].
  step make_runs. eapply runs_bind; [eapply method_call_runs; [done|done|reflexivity|done|done]|after].
  eapply runs_bind; [eapply method_call_runs; [done|done|reflexivity|done|jumps]|after]. step IH. apply runs_ret; [done|]. finish.
Qed.

Lemma class_statements_runs cls c leaves : forall p, inv p -> q_ctx p = c -> forallb (jumps_ok (lo c) (sw c)) leaves = true ->
  runs (class_statements grants cls leaves) p (list_post (sizes leaves) c p).
Proof.
  induction leaves as [|leaf leaves IH]; intros p Hi Hc Hj; cbn [class_statements]; [apply runs_ret; [done|finish]|]. cbn [forallb] in Hj. apply andb_true_iff in Hj as [Hp Hl].
  eapply (runs_bind _ _ _ (node_post 0 (size leaf) c p)); [|after; step IH; apply runs_ret; [done|]; finish].
  assert (Hother : runs (if is_setproperty_call leaf then mret leaf else make_error grants PARSE_CLASS_BODY_STATEMENT (pos_of leaf)) p (node_post 0 (size leaf) c p)).
  { destruct (is_setproperty_call leaf); [apply runs_ret; [done|finish]|by apply error_runs]. }
  destruct leaf; try exact Hother. clear Hother. step make_runs. last_node.
Qed.

Lemma class_body_runs m nm p c : parses n m -> inv p -> q_ctx p = c -> ahead p < N -> runs (in_class nm m) p (node_post 1 0 c p).
Proof.
  intros Hm Hi Hc Ha. eapply (in_class_runs _ _ _ (node_post 1 0 c p)); [done| |by intros].
  eapply runs_mono; [apply (Hm _ (with_class (class_body_depth (q_ctx p) + 1) nm (q_ctx p))); [apply inv_ctx; try done; apply Hi|done|exact Ha]|].
  intros a p1 F (H1 & H2 & H3). subst c. split_and!; [exact H1|exact H2|exact H3].
Qed.

Lemma block_body nm p r p' : in_class nm (k_block k) p = Some (Val r, p') -> exists l stmts, r = AST_BLOCK l stmts.
Proof.
  unfold in_class, within. destruct (k_block k _) as [[x p1]|] eqn:E; [|done]. cbn. intros [= -> _]. by eapply (l_block_node _ _ Hk).
Qed.

Lemma rev_jumps f (l : list UAstNode) : forallb f (rev l) = forallb f l.
Proof. induction l as [|x l IH]; cbn; [done|]. rewrite forallb_app, IH. cbn. rewrite andb_true_r. apply andb_comm. Qed.
Lemma rev_sizes (l : list UAstNode) : sizes (rev l) = sizes l.
Proof. induction l as [|x l IH]; cbn; [done|]. rewrite sum_over_app, IH. cbn. lia. Qed.

Lemma runs_bind_val {A B} (m : M A) (f : A -> M B) p (Q : A -> UParser -> Prop) (R : B -> UParser -> Prop) :
  runs m p Q -> (forall a p1, m p = Some (Val a, p1) -> fine p p1 -> Q a p1 -> runs (f a) p1 R) -> runs (m ≫= f) p R.
Proof.
  intros (r & p1 & E & F & HQ) Hf. unfold runs, mbind, M_bind. rewrite E. destruct r as [a| |e].
  - destruct (Hf a p1 E F HQ) as (r & p2 & E2 & F2 & HR). exists r, p2. split; [done|]. split; [by eapply fine_trans|done].
  - by exists Null, p1.
  - by exists (Err e), p1.
Qed.

Lemma class_parses : parses_at (S n) (parse_class_declaration strtod grants n k).
Proof.
  intros p c t Hi Hc Hp Hv Ha. unfold parse_class_declaration. take. peek. need. step name_runs. step protos_runs. rename x1 into protos. peek.
  destruct (negb _); [by apply error_runs|]. step hidden_runs.
  eapply runs_bind_val; [eapply class_body_runs; [apply Hk|side..]|]. intros b q Eb. destruct (block_body _ _ _ _ Eb) as (bl & stmts & ->). clear Eb. intros Fb Hb. settle Fb Hb.
  match goal with H : jumps_ok _ _ (AST_BLOCK _ stmts) = true |- _ => cbn [jumps_ok] in H end. match goal with H : size (AST_BLOCK _ stmts) <= _ |- _ => cbn [size] in H end.
  step (@new_array_runs UAstNode). step flatten_all_runs. step alloc_runs. step make_runs. eapply runs_bind; [eapply method_call_runs; [done|done|reflexivity|done|done]|after]. step make_runs.
  eapply runs_bind; [eapply insert_protos_runs; [done|done|rewrite rev_jumps; assumption]|after]. rewrite rev_sizes in *. step class_statements_runs. step make_runs. step make_runs.
  eapply runs_mono; [by apply make_runs|]. after. unfold node_post. cbn [size snd sum_over] in *. rewrite !sum_over_app. cbn [sum_over size]. split_and!; [lia|lia|].
  cbn [jumps_ok forallb]. rewrite !forallb_app. jumps.
Qed.

(** *** Returns and assertions *)

Lemma return_parses : parses_at (S n) (parse_return strtod grants k).
Proof.
  intros p c t Hi Hc Hp Hv Ha. unfold parse_return. take. peek. eapply (runs_bind _ _ _ (opt_post c p1)); [|after; last_node].
  assert (Hnone : runs (mret None) p1 (opt_post c p1)) by (apply runs_ret; [done|finish]).
  assert (Hsome : runs (v ← oomed (k_expression k 0); mret (Some v)) p1 (opt_post c p1)) by (step (l_expression _ _ Hk); apply runs_ret; [done|finish]).
  match goal with |- runs (match ?x with _ => _ end) _ _ => destruct x end; first [exact Hnone|exact Hsome].
Qed.

Lemma assert_node_runs cond msg l p c : inv p -> q_ctx p = c -> jumps_ok (lo c) (sw c) cond = true -> runs (assert_node grants cond msg l) p (node_post 0 (size cond) c p).
Proof. intros Hi Hc Hj. unfold assert_node. step make_runs. step make_runs. step make_runs. step alloc_runs. step make_runs. last_node. Qed.

(** The [|] and [&] after an expression are looked for last. *)
Lemma peek_token_val p t p' : peek_token strtod p = Some (Val t, p') -> exists t, ParseStr.p_peek (q_tok p') = Some t.
Proof.
  unfold peek_token, on_tokens, ParseStr.urbi_parse_peek. destruct (ParseStr.p_peek (q_tok p)) as [t0|] eqn:E; cbn [mbind option_bind]; [intros [= _ <-]; cbn; eauto|].
  destruct (ulex_next _ _) as [[t0 lex]|]; [|done]. cbn. intros [= _ <-]. cbn. eauto.
Qed.

Lemma fold_peeked fuel : forall lhs run p a p', fold_loop strtod grants k fuel lhs run p = Some (Val a, p') -> exists t, ParseStr.p_peek (q_tok p') = Some t.
Proof.
  induction fuel as [|fuel IH]; intros lhs run p a p' E; [done|]. cbn [fold_loop] in E. apply bind_val in E as (sep & p1 & E1 & E).
  destruct (negb _); [injection E as _ <-; by eapply peek_token_val|]. apply bind_val in E as (? & p2 & _ & E). apply bind_val in E as (e & p3 & _ & E). apply bind_val in E as (t & p4 & E4 & E).
  destruct (_ || _ || _ || _).
  { destruct (tok_is TOK_PIPE sep); [injection E as _ <-; by eapply peek_token_val|]. apply bind_val in E as (? & ? & _ & E). done. }
  apply bind_val in E as (rhs & p5 & _ & E).
  assert (Hfresh : forall s l arr, (_ ← oomed (alloc grants); node ← make grants (AST_SEQ l s [lhs; rhs]); fold_loop strtod grants k fuel node (Some (s, l, arr))) p5 = Some (Val a, p') ->
    exists t, ParseStr.p_peek (q_tok p') = Some t).
  { intros s l arr E'. apply bind_val in E' as (? & p6 & _ & E'). apply bind_val in E' as (node & p7 & _ & E'). by eapply IH. }
  destruct run as [[[cur l] arr]|]; [case_decide|]; try by eapply Hfresh. apply bind_val in E as (arr' & p6 & _ & E). by eapply IH.
Qed.

Lemma inner_tier_peeked p a p' : urbi_parse_inner_tier strtod grants n k p = Some (Val a, p') -> exists t, ParseStr.p_peek (q_tok p') = Some t.
Proof. unfold urbi_parse_inner_tier. intros (? & ? & _ & E)%bind_val. by eapply fold_peeked. Qed.

(** The text between the parentheses: the expression ends after it starts. *)
Lemma span_runs (q q' : UParser) start end_ : inv q -> ParseStr.p_peek (q_tok q) = None -> span_start q = Some (Val start, q) -> forall p c, inv p -> q_ctx p = c ->
  forall t, inv q' -> ParseStr.p_peek (q_tok q') = Some t -> t_type t = TOK_RPAREN -> ahead q' <= ahead q -> source_end (q_tok q') = source_end (q_tok q) -> span_end q' = Some (Val end_, q') ->
  runs (span start end_) p (fun _ p' => p' = p).
Proof.
  intros Hq Hqp [= Es] p c Hi Hc t Hq' Hp' Ht Ha He [= Ee]. rewrite Hp' in Ee. unfold span. pose proof (tahead_blanks strtod _ (i_tok _ Hq) Hqp) as Hb.
  assert (Hn2 : ParseStr.p_peek2 (q_tok q') = None).
  { destruct (ParseStr.p_peek2 (q_tok q')) as [t2|] eqn:E; [|done]. destruct (t_peek2 _ (i_tok _ Hq') _ E) as (_ & t1 & E1 & ?). rewrite Hp' in E1. injection E1 as <-. congruence. }
  assert (E1 : ahead q' = zlen (rest (ParseStr.p_lex (q_tok q'))) + t_len t) by (unfold ahead, tahead, from; rewrite Hp', Hn2, decide_True by (split; congruence); done).
  rewrite E1 in Ha. unfold source_end in He. change (tahead strtod (q_tok q)) with (ahead q) in Hb.
  subst start end_. cbn [p_off p_adv]. unfold off, rest in *. zcase; [|by apply runs_ret]. lia.
Qed.

Lemma oomed_val {A} (m : M A) p a p' : oomed m p = Some (Val a, p') -> m p = Some (Val a, p').
Proof. unfold oomed. by destruct (m p) as [[[]]|]. Qed.

Lemma assert_parses : parses_at (S n) (urbi_parse_assert strtod grants k).
Proof.
  intros p c t Hi Hc Hp Hv Ha. unfold urbi_parse_assert. take. next. cases.
  { step (l_block _ _ Hk). eapply runs_mono; [by apply assert_node_runs|]. after. finish. }
  need. match goal with H : ?a <> ?b -> ParseStr.p_peek (q_tok ?q) = None |- _ => specialize (H ltac:(done)); rename H into Hnone end.
eapply runs_bind; [by apply gets_runs|]. intros start q _ [Es ->].
  eapply runs_bind_val; [eapply runs_oomed, (l_inner_tier _ _ Hk); side|]. intros expr q' Ev%oomed_val Fe He. destruct (l_inner_peeked _ _ Hk _ _ _ Ev) as (t' & Ht').
  pose proof (f_end _ _ Fe) as Hend. settle Fe He. eapply runs_bind; [by apply gets_runs|]. intros end_ q2 _ [Ee ->]. need.
  match goal with H : t_type t' = TOK_RPAREN |- _ => rename H into Hty end.
  eapply runs_bind; [eapply (span_runs p2 q'); try eassumption; [by rewrite Es|by rewrite Ee]|]. intros text q2 _ ->. step alloc_runs.
  eapply runs_mono; [by apply assert_node_runs|]. after. finish.
Qed.

(** *** Loops and jumps *)

Lemma for_separator_runs t p : inv p -> tok_ok t -> runs (for_separator t) p (fun b p' => p' = p /\ if b : bool then valid t else True).
Proof.
  intros Hi Ht. unfold for_separator. destruct (t_type t) eqn:E; try (apply runs_ret; [done|]; split; [done|]; try done; split; congruence).
  eapply runs_bind; [by apply name_runs|]. intros nm q F ->. apply runs_ret; [done|]. split; [done|]. destruct (urbi_parse_ident_equals _ _); [split; congruence|done].
Qed.

Lemma hidden_three_runs s s' s'' p : inv p -> runs (both (both (hidden_name grants s) (hidden_name grants s')) (hidden_name grants s'')) p (fun _ => same 0 p).
Proof.
  intros Hi. eapply runs_both; [by apply hidden_two_runs| |].
  - intros p1 F. eapply runs_mono; [apply hidden_runs, F|done].
  - intros ? p1 F H1. eapply runs_mono; [apply hidden_runs, F|]. intros ? p2 _ H2. destruct H1 as (? & ? & ?), H2 as (? & ? & ?). unfold same. split_and!; [congruence|congruence|lia].
Qed.

Ltac two := step make_two_runs; unpair; destruct_and!; subst.
Ltac call_step := eapply runs_bind; [eapply method_call_runs; [done|done|reflexivity|jumps|jumps]|after].

Lemma for_block_runs l var iter body p c : inv p -> q_ctx p = c -> tok_ok var -> t_type var = TOK_IDENT -> jumps_ok (lo c) (sw c) iter = true -> jumps_ok true (sw c) body = true ->
  runs (for_block grants l var iter body) p (node_post 0 (size iter + size body) c p).
Proof.
  intros Hi Hc Hnm Hty H1 H2. unfold for_block. step hidden_three_runs. unpair. step make_runs. step make_runs. call_step. step make_runs. step make_runs. step make_runs.
  two. step make_runs. two. eapply runs_bind; [eapply (method_call_nests true (sw (q_ctx p))); [done|reflexivity|done|done]|after]. step name_runs.
  step make_runs. step make_runs. step make_runs. step make_runs. step make_runs. step alloc_runs. step make_runs. step make_runs. step alloc_runs. last_node.
Qed.

Lemma for_parses : parses_at (S n) (parse_for strtod grants k).
Proof.
  intros p c t Hi Hc Hp Hv Ha. unfold parse_for. take. need. need. peek. need. peek. step for_separator_runs. subst. cases; cbn [negb]; [|by apply error_runs]. take.
  step (l_inner_tier _ _ Hk). need. eapply runs_bind; [eapply runs_oomed, loop_body_runs; [apply Hk|side..]|after].
  eapply runs_mono; [by eapply for_block_runs|]. after. finish.
Qed.

Lemma depths p c : inv p -> q_ctx p = c -> 0 <= loop_depth c /\ 0 <= switch_depth c.
Proof. intros [] <-. by split. Qed.

Lemma break_parses : parses_at (S n) (parse_break strtod grants).
Proof.
  intros p c t Hi Hc Hp Hv Ha. destruct (depths _ _ Hi Hc). unfold parse_break. take. step gets_runs. subst p1.
  replace (q_ctx p0) with c by congruence. destruct (_ && _) eqn:E; [by apply error_runs|].
  assert (Hj : lo c || sw c = true) by (unfold lo, sw; apply andb_false_iff in E as [E|E]; apply Z.eqb_neq in E; apply orb_true_iff; [left|right]; apply Z.ltb_lt; lia).
  last_node.
Qed.

Lemma continue_parses : parses_at (S n) (parse_continue strtod grants).
Proof.
  intros p c t Hi Hc Hp Hv Ha. destruct (depths _ _ Hi Hc). unfold parse_continue. take. step gets_runs. subst p1.
  replace (q_ctx p0) with c by congruence. destruct (_ =? _) eqn:E; [by apply error_runs|].
  assert (Hj : lo c = true) by (unfold lo; apply Z.eqb_neq in E; apply Z.ltb_lt; lia). last_node.
Qed.

(** *** Switches *)

Lemma skip_separators_runs fuel : forall p, inv p -> ahead p < Z.of_nat fuel ->
  runs (skip_separators strtod fuel) p (fun _ p' => ahead p' <= ahead p /\ node_count p' = node_count p).
Proof.
  induction fuel as [|fuel IH]; intros p Hi Hf; [pose proof (tahead_bound strtod _ (i_tok _ Hi)); unfold ahead in *; lia|]. cbn [skip_separators].
  peek. match goal with |- context [tok_is TOK_SEMI ?t] => destruct (tok_is TOK_SEMI t || tok_is TOK_PIPE t) eqn:E end; [|apply runs_ret; [done|split; lia]].
  take. eapply runs_mono; [apply IH; [done|lia]|]. after. split; lia.
Qed.

Lemma arm_loop_runs c : forall fuel arr p, inv p -> q_ctx p = c -> ahead p < N -> ahead p < Z.of_nat fuel -> forallb (jumps_ok (lo c) (sw c)) arr.2 = true ->
  runs (arm_loop strtod grants k fuel arr) p (list_post (sizes arr.2) c p).
Proof.
  induction fuel as [|fuel IH]; intros arr p Hi Hc Hn Hf Hok; [pose proof (tahead_bound strtod _ (i_tok _ Hi)); unfold ahead in *; lia|]. cbn [arm_loop]. peek.
  match goal with |- runs (match _ with TOK_INT => ?f | _ => _ end) _ _ => assert (Hgo : runs f p0 (list_post (sizes arr.2) c p)) end.
  { step (l_statement _ _ Hk). step push_runs. peek.
    match goal with E : ?r.2 = arr.2 ++ [?y] |- _ =>
      assert (Hja : forallb (jumps_ok (lo c) (sw c)) r.2 = true) by (rewrite E, forallb_app; cbn [forallb]; jumps);
      assert (Hsz : sizes r.2 = sizes arr.2 + size y) by (rewrite E, sum_over_app; cbn; lia) end.
    match goal with |- runs ((if ?b then _ else _) ≫= _) ?q _ => eapply (runs_bind _ _ _ (fun _ p' => ahead p' <= ahead q /\ node_count p' = node_count q)); [destruct b eqn:Esep|] end.
    { take. apply runs_ret; [done|]. split; lia. } { apply runs_ret; [done|]. split; lia. }
    after. eapply runs_mono; [apply IH; [done|done|lia|lia|done]|]. after. finish. }
  assert (Hdone : runs (mret arr.2) p0 (list_post (sizes arr.2) c p)) by (apply runs_ret; [done|finish]).
  match goal with |- runs (match ?x with _ => _ end) _ _ => destruct x end; first [exact Hgo|exact Hdone].
Qed.

Lemma switch_arm_runs l p c : inv p -> q_ctx p = c -> ahead p < N -> runs (switch_arm strtod grants n k l) p (node_post 0 0 c p).
Proof.
  intros Hi Hc Ha. unfold switch_arm. step (@new_array_runs UAstNode). eapply runs_bind; [eapply (arm_loop_runs c); [done|done|lia|lia|done]|after]. cbn [snd sum_over] in *. last_node.
Qed.

Lemma switch_colon_runs p : inv p -> runs (switch_colon strtod grants) p (fun _ p' => ahead p' + 1 <= ahead p /\ node_count p' = node_count p).
Proof.
  intros Hi. unfold switch_colon. peek. unfold tok_is. case_bool_decide; [|by apply error_runs]. take. apply runs_ret; [done|]. split; lia.
Qed.

(** The cases and the default of a switch. *)
Definition cases_post (b : Z) (c : context) (p : UParser) (r : list (UAstNode * UAstNode) * option UAstNode) (p' : UParser) : Prop :=
  ahead p' <= ahead p /\ sum_over pair_size r.1 + size_opt r.2 <= b + (node_count p' - node_count p) /\ forallb (pair_ok c) r.1 = true /\ all_opt (jumps_ok (lo c) (sw c)) r.2 = true.

Lemma switch_loop_runs c : forall fuel cases dflt p, inv p -> q_ctx p = c -> ahead p < Z.of_nat (S n) -> ahead p < Z.of_nat fuel ->
  forallb (pair_ok c) cases.2 = true -> all_opt (jumps_ok (lo c) (sw c)) dflt = true ->
  runs (switch_loop strtod grants n k fuel cases dflt) p (cases_post (sum_over pair_size cases.2 + size_opt dflt) c p).
Proof.
  induction fuel as [|fuel IH]; intros cases dflt p Hi Hc Hn Hf Hok Hd; [pose proof (tahead_bound strtod _ (i_tok _ Hi)); unfold ahead in *; lia|]. cbn [switch_loop].
  peek. destruct (_ || _); [apply runs_ret; [done|]; unfold cases_post; cbn [fst snd]; split_and!; [lia|lia|done..]|].
  step skip_separators_runs. peek. match goal with |- runs (match t_type ?t with _ => _ end) ?q _ => rename t into t0; rename q into q0 end.
  assert (Hdone : runs (mret (cases.2, dflt)) q0 (cases_post (sum_over pair_size cases.2 + size_opt dflt) c p)).
  { apply runs_ret; [done|]. unfold cases_post. cbn [fst snd]. split_and!; [lia|lia|done..]. }
  assert (Hbad : forall A code l (Q : A -> UParser -> Prop), runs (make_error grants code l) q0 Q) by (intros; by apply error_runs).
  destruct (t_type t0) eqn:Ht; first [exact Hdone|apply Hbad|idtac].
  - take. step (l_expression _ _ Hk). step switch_colon_runs. step switch_arm_runs. step push_pair_runs.
    match goal with E : _.2 = cases.2 ++ [(?a, ?b)] |- _ => rename E into Ex; assert (Hp : pair_ok c (a, b) = true) by (unfold pair_ok; cbn [fst snd]; jumps); assert (Hz : pair_size (a, b) = size a + size b) by done end.
    eapply runs_mono; [apply IH; [done|done|lia|lia|rewrite Ex, forallb_app; cbn [forallb]; by rewrite Hok, Hp|done]|]. unfold cases_post. after.
    rewrite Ex, sum_over_app in *. cbn [sum_over] in *. split_and!; [lia|lia|done..].
  - destruct dflt as [d|]; [apply Hbad|]. take. step switch_colon_runs. step switch_arm_runs.
    eapply runs_mono; [apply IH; [done|done|lia|lia|done|done]|]. unfold cases_post. after. cbn [sum_opt] in *. split_and!; [lia|lia|done..].
Qed.

Lemma pairs_split c cs : sum_over pair_size cs = sizes cs.*1 + sizes cs.*2 /\
  (forallb (pair_ok c) cs = true -> forallb (jumps_ok (lo c) (sw c)) cs.*1 = true /\ forallb (jumps_ok (lo c) (sw c)) cs.*2 = true).
Proof.
  induction cs as [|[a b] cs [IH1 IH2]]; [done|]. cbn. split; [unfold pair_size at 1; cbn; lia|]. unfold pair_ok at 1. cbn.
  intros [[Ha Hb]%andb_true_iff H]%andb_true_iff. apply IH2 in H as [H1 H2]. by rewrite Ha, Hb, H1, H2.
Qed.

Lemma switch_parses : parses_at (S n) (parse_switch strtod grants n k).
Proof.
  intros p c t Hi Hc Hp Hv Ha. unfold parse_switch. take. step paren_inner_runs. need. step two_allocs_runs.
  match goal with |- runs _ ?q _ => rename q into q0 end. destruct (depths _ _ Hi Hc).
  set (cs := with_loops (loop_depth c) (switch_depth c + 1) c). assert (Hl : lo cs = lo c) by done. assert (Haq : ahead q0 < Z.of_nat (S n)) by lia. assert (Hs : sw cs = true) by by apply sw_more.
  eapply (runs_bind _ _ _ (cases_post 0 cs q0)).
  { eapply (in_switch_runs _ _ (cases_post 0 cs q0)); [done| |by intros]. replace (q_ctx q0) with c by congruence. fold cs.
    eapply runs_mono; [eapply (switch_loop_runs cs); [apply inv_ctx; cbn; try lia; congruence|done|exact Haq..|done|done]|]. by intros. }
  unfold cases_post. after. unpair. cbn [fst snd] in *. need. rewrite Hl, Hs in *.
  match goal with H : forallb (pair_ok cs) ?l = true |- _ => destruct (pairs_split cs l) as [Hsz Hpo]; apply Hpo in H as [Hpv Hpb]; rewrite Hl, Hs in * end. last_node.
Qed.

(** *** Statements and sequences *)

Lemma folded_parses m : parses_at (S n) m -> parses_at (S n) (folded strtod grants n k m).
Proof.
  intros Hm p c t Hi Hc Hp Hv Ha. unfold folded. eapply runs_bind; [by eapply Hm|after]. eapply runs_mono; [eapply pipe_amp_runs; side|]. after. finish.
Qed.
Lemma anywhere m : parses (S n) m -> parses_at (S n) m.
Proof. intros Hm p c t Hi Hc _ _ Ha. by apply Hm. Qed.

Lemma ident_parses fold : forall p c t, inv p -> q_ctx p = c -> ParseStr.p_peek (q_tok p) = Some t -> t_type t = TOK_IDENT -> ahead p < Z.of_nat (S n) ->
  runs (name ← consume strtod; parse_assign_or_expr_impl strtod grants n k name fold) p (node_post 1 0 c p).
Proof.
  intros p c t Hi Hc Hp Ht Ha. pose proof (peeked_ok _ _ Hi Hp). take. eapply runs_mono; [eapply ident_statement_runs; side|]. after. finish.
Qed.

(** One of the statements above. *)
Ltac statement_form :=
  first [apply while_parses|apply if_parses|apply var_decl_parses|apply return_parses|apply try_parses|apply throw_parses|apply at_parses|apply whenever_parses|apply waituntil_parses
    |apply every_parses|apply class_parses|apply assert_parses|apply for_parses|apply break_parses|apply continue_parses|apply switch_parses|apply detach_parses|apply anywhere, block_parses].

Lemma statement_parses : parses (S n) (urbi_parse_statement_or_expr strtod grants n k).
Proof.
  intros p c Hi Hc Ha. unfold urbi_parse_statement_or_expr. peek.
  assert (Hat : forall m, parses_at (S n) m -> valid x -> runs m p0 (node_post 1 0 c p)).
  { intros m Hm Hv. eapply runs_mono; [eapply Hm; side|]. after. finish. }
  assert (Hexpr : runs (urbi_parse_inner_tier strtod grants n k) p0 (node_post 1 0 c p)) by (eapply runs_mono; [eapply inner_tier_parses; side|]; after; finish).
  assert (Hident : t_type x = TOK_IDENT -> runs (name ← consume strtod; parse_assign_or_expr_impl strtod grants n k name true) p0 (node_post 1 0 c p)).
  { intros Ht. eapply runs_mono; [eapply ident_parses; side|]. after. finish. }
  destruct (t_type x) eqn:Ht; try exact Hexpr; try exact (Hident eq_refl); (apply Hat; [|split; congruence]).
  all: first [apply folded_parses; statement_form|statement_form].
Qed.

Lemma arm_stmt_parses : parses (S n) (urbi_parse_arm_stmt strtod grants n k).
Proof.
  intros p c Hi Hc Ha. unfold urbi_parse_arm_stmt. peek.
  assert (Hat : forall m, parses_at (S n) m -> valid x -> runs m p0 (node_post 1 0 c p)).
  { intros m Hm Hv. eapply runs_mono; [eapply Hm; side|]. after. finish. }
  assert (Hexpr : runs (urbi_parse_expression strtod grants n k 0) p0 (node_post 1 0 c p)) by (eapply runs_mono; [eapply expression_parses; side|]; after; finish).
  assert (Hident : t_type x = TOK_IDENT -> runs (name ← consume strtod; parse_assign_or_expr_impl strtod grants n k name false) p0 (node_post 1 0 c p)).
  { intros Ht. eapply runs_mono; [eapply ident_parses; side|]. after. finish. }
  destruct (t_type x) eqn:Ht; try exact Hexpr; try exact (Hident eq_refl); (apply Hat; [|split; congruence]).
  all: statement_form.
Qed.

Lemma separator_valid t s : separator t = Some s -> valid t.
Proof. unfold separator. by destruct (t_type t) eqn:E; intros [= _]; split; congruence. Qed.

Lemma outer_loop_runs sep_kind c : forall fuel arr p, inv p -> q_ctx p = c -> ahead p < Z.of_nat (S n) -> ahead p < Z.of_nat fuel -> forallb (jumps_ok (lo c) (sw c)) arr.2 = true ->
  runs (outer_loop strtod grants n k fuel sep_kind arr) p (list_post (sizes arr.2) c p).
Proof.
  induction fuel as [|fuel IH]; intros arr p Hi Hc Hn Hf Hok; [pose proof (tahead_bound strtod _ (i_tok _ Hi)); unfold ahead in *; lia|]. cbn [outer_loop].
  step statement_parses. step push_runs. peek.
  match goal with E : ?r.2 = arr.2 ++ [?y] |- _ =>
    assert (Hja : forallb (jumps_ok (lo c) (sw c)) r.2 = true) by (rewrite E, forallb_app; cbn [forallb]; jumps);
    assert (Hsz : sizes r.2 = sizes arr.2 + size y) by (rewrite E, sum_over_app; cbn; lia) end.
  match goal with |- context [separator ?t] => destruct (separator t) as [s_kind|] eqn:Es; [apply separator_valid in Es|apply runs_ret; [done|finish]] end.
  case_decide; [|take; by apply error_runs]. take. step statement_end_runs. match goal with |- context [if ?b then _ else _] => destruct b end; [apply runs_ret; [done|finish]|].
  eapply runs_mono; [apply IH; [done|done|lia|lia|done]|]. after. finish.
Qed.

Lemma outer_tier_parses : parses (S n) (urbi_parse_outer_tier strtod grants n k).
Proof.
  intros p c Hi Hc Ha. unfold urbi_parse_outer_tier. step statement_parses. peek.
  match goal with |- context [separator ?t] => destruct (separator t) as [kind|] eqn:Es; [apply separator_valid in Es|apply runs_ret; [done|finish]] end.
  take. step statement_end_runs. match goal with |- context [if ?b then _ else _] => destruct b end; [apply runs_ret; [done|finish]|]. step alloc_runs.
  eapply runs_bind; [eapply (outer_loop_runs _ c); [done|done|lia|lia|cbn [snd]; jumps]|after]. cbn [snd sum_over] in *. last_node.
Qed.
End Level.

(** ** A level per byte *)

Lemma parser_level n : level n (parser strtod grants n).
Proof.
  induction n as [|n IH].
  - assert (Hno : forall m : M UAstNode, parses 0 m) by (intros m p c Hi _ Ha; pose proof (tahead_bound strtod _ (i_tok _ Hi)); unfold ahead in *; lia).
    split; try done; try apply Hno; intros p c t Hi _ _ _ Ha; pose proof (tahead_bound strtod _ (i_tok _ Hi)); unfold ahead in *; lia.
  - pose proof (if_parses n _ IH). pose proof (while_parses n _ IH). split; cbn [parser k_expression k_prefix k_inner_tier k_outer_tier k_block k_if k_while k_statement k_arm]; try done.
    + by apply expression_parses.
    + by apply prefix_parses.
    + by apply inner_tier_parses.
    + apply inner_tier_peeked.
    + by apply outer_tier_parses.
    + by apply block_parses.
    + apply block_is_block.
    + by apply statement_parses.
    + by apply arm_stmt_parses.
Qed.

(** ** A call of the entry point *)

(** Between two calls: what [fine] says, except that skipping over an error
    token may uncover bytes that did not count as ahead. *)
Record step_to (p p' : UParser) : Prop := {
  s_inv : inv p';
  s_ctx : q_ctx p' = q_ctx p;
  s_end : source_end (q_tok p') = source_end (q_tok p);
  s_work : work (q_tok p') <= work (q_tok p);
  s_nodes : node_count p <= node_count p';
  s_budget : budget p' = budget p }.

Lemma step_to_trans p p1 p2 : step_to p p1 -> step_to p1 p2 -> step_to p p2.
Proof. intros [] []. split; [done|congruence|congruence|lia|lia|congruence]. Qed.
Lemma fine_step p p' : fine p p' -> step_to p p'.
Proof. by intros []. Qed.

Lemma peek_val p : inv p -> exists t p', peek_token strtod p = Some (Val t, p') /\ fine p p' /\ ParseStr.p_peek (q_tok p') = Some t /\ node_count p' = node_count p.
Proof.
  intros Hi. destruct (peek_facts strtod (q_tok p) (i_tok _ Hi)) as (t & q & E & Hq & Hp & Ht & Ha & He & _ & Hs & Hw). unfold peek_token, on_tokens. rewrite E. cbn [mbind option_bind].
  eexists _, _. split; [done|]. split; [apply fine_tok; [done|]; split; [done|lia|done|done]|]. done.
Qed.

Lemma take_val p t : inv p -> ParseStr.p_peek (q_tok p) = Some t -> exists p', consume strtod p = Some (Val t, p') /\ step_to p p' /\
  (t_type t <> TOK_IDENT -> ParseStr.p_peek (q_tok p') = None) /\ node_count p' = node_count p /\ work (q_tok p') + pend (Some t) <= work (q_tok p).
Proof.
  intros Hi Hp. destruct (take_facts strtod (q_tok p) t (i_tok _ Hi) Hp) as (q & E & Hq & He & Hn & _ & _ & _ & Hw). unfold consume, on_tokens. rewrite E. cbn [mbind option_bind].
  pose proof (pend_range (Some t)). eexists. split; [done|]. split; [|done]. destruct Hi as [? ? ? ? ? ?]. split; [by split|done|done|cbn; lia|done|done].
Qed.

Lemma peeked_work p t : inv p -> ParseStr.p_peek (q_tok p) = Some t -> (t_type t = TOK_EOF -> work (q_tok p) = 0 /\ ahead p = 0) /\ (t_type t <> TOK_EOF -> 1 <= work (q_tok p)).
Proof.
  intros Hi Hp. pose proof (i_tok _ Hi) as Hq. pose proof (zlen_nonneg (rest (ParseStr.p_lex (q_tok p)))). pose proof (pend_range (ParseStr.p_peek2 (q_tok p))).
  unfold work, ahead, tahead. rewrite Hp. cbn [pend]. split; intros Ht; [|rewrite decide_False by done; lia].
  assert (E2 : ParseStr.p_peek2 (q_tok p) = None).
  { destruct (ParseStr.p_peek2 (q_tok p)) as [t2|] eqn:E; [|done]. destruct (t_peek2 _ Hq _ E) as (_ & t1 & Hp1 & ?). congruence. }
  rewrite E2, (t_eof _ Hq t (or_introl Hp) Ht), decide_True by done. unfold from. rewrite decide_False by (intros []; congruence). done.
Qed.

Lemma unpeeked_ahead p : inv p -> ParseStr.p_peek (q_tok p) = None -> ahead p <= work (q_tok p).
Proof.
  intros Hi Hp. pose proof (i_tok _ Hi) as Hq. pose proof (pend_range (ParseStr.p_peek2 (q_tok p))). unfold ahead, tahead, work. rewrite Hp. cbn [pend].
  destruct (next_token_facts strtod _ (t_pool _ Hq) (t_size _ Hq)) as (t & l & -> & _ & _ & ?). lia.
Qed.

(** After an error everything is skipped up to a bar or the end. *)
Lemma sync_spec fuel : forall p, inv p -> work (q_tok p) < Z.of_nat fuel ->
  exists p', sync_to_statement_boundary strtod fuel p = Some (Val tt, p') /\ step_to p p' /\ ahead p' <= work (q_tok p') /\ node_count p' = node_count p /\
    (work (q_tok p') = 0 \/ work (q_tok p') < work (q_tok p)).
Proof.
  induction fuel as [|fuel IH]; intros p Hi Hf; [pose proof (work_nonneg (q_tok p)); lia|]. cbn [sync_to_statement_boundary].
  destruct (peek_val p Hi) as (t & p1 & E1 & F1 & Hp1 & Hn1). unfold mbind, M_bind. rewrite E1. destruct (peeked_work _ _ (f_inv _ _ F1) Hp1) as [Heof Hother]. pose proof (f_work _ _ F1).
  destruct (take_val p1 t (f_inv _ _ F1) Hp1) as (p2 & E2 & S2 & Hn2 & Hk2 & Hw2). pose proof (step_to_trans _ _ _ (fine_step _ _ F1) S2) as S12.
  destruct (decide (t_type t = TOK_EOF)) as [Ht|Ht]; [rewrite Ht; exists p1; destruct (Heof Ht); split; [done|]; split; [by apply fine_step|]; split; [lia|]; split; [done|by left]|].
  cbn [pend] in Hw2. rewrite decide_False in Hw2 by done.
  assert (Hgo : exists p', match consume strtod p1 with Some (Val _, q) => sync_to_statement_boundary strtod fuel q | Some (Null, q) => Some (Null, q) | Some (Err e, q) => Some (Err e, q) | None => None end
    = Some (Val tt, p') /\ step_to p p' /\ ahead p' <= work (q_tok p') /\ node_count p' = node_count p /\ (work (q_tok p') = 0 \/ work (q_tok p') < work (q_tok p))).
  { rewrite E2. destruct (IH p2 (s_inv _ _ S2)) as (p3 & E3 & S3 & Ha3 & Hn3 & Hw3); [lia|]. exists p3. split; [done|]. split; [by eapply step_to_trans|]. split; [done|]. split; [congruence|]. pose proof (s_work _ _ S3). destruct Hw3; [by left|right; lia]. }
  destruct (t_type t) eqn:Ety; try exact Hgo; try done. rewrite E2. exists p2. split; [done|]. split; [done|].
  split; [apply unpeeked_ahead; [apply S2|by apply Hn2]|]. split; [congruence|right; lia].
Qed.

(** What a call promises from a state with the bound [L] on the source. *)
Record ready (L : Z) (p : UParser) : Prop := { y_inv : inv p; y_ahead : ahead p <= L; y_work : work (q_tok p) <= L }.

Definition call_post (p : UParser) (r : statement) (p' : UParser) : Prop :=
  match r with
  | End_of_source => work (q_tok p') = 0
  | Statement s => work (q_tok p') < work (q_tok p) /\ size s <= node_count p' - node_count p /\ jumps_ok (lo (q_ctx p)) (sw (q_ctx p)) s = true
  | Bad e => e_code e <> PARSE_OOM -> work (q_tok p') < work (q_tok p)
  end.

Lemma next_statement_spec L fuel p : ready L p -> L <= Z.of_nat fuel ->
  exists r p', uparse_next_statement strtod grants fuel p = Some (r, p') /\ ready L p' /\ step_to p p' /\ call_post p r p'.
Proof.
  intros [Hi Ha Hw] Hf. unfold uparse_next_statement. pose proof (fine_step _ _ (fine_refl _ Hi)) as S0.
  destruct (arena_oom grants p).
  { exists (Bad uparser_oom_sentinel), p. split; [done|]. split; [by split|]. split; [exact S0|]. by intros []. }
  destruct (peek_val p Hi) as (t & p1 & -> & F1 & Hp1 & Hn1). cbn [mbind option_bind]. destruct (peeked_work _ _ (f_inv _ _ F1) Hp1) as [Heof Hother]. pose proof (f_work _ _ F1). pose proof (f_ahead _ _ F1).
  assert (Hready : forall q, fine p1 q -> ready L q) by (intros q []; split; [done|lia|lia]).
  unfold tok_is at 1. case_bool_decide as Ht.
  { destruct (Heof Ht). exists End_of_source, p1. split; [done|]. split; [apply Hready, fine_refl, F1|]. split; [by apply fine_step|done]. }
  specialize (Hother Ht).
  assert (Hsent : forall q, fine p1 q -> exists r p', Some (Bad uparser_oom_sentinel, q) = Some (r, p') /\ ready L p' /\ step_to p p' /\ call_post p r p').
  { intros q Fq. exists (Bad uparser_oom_sentinel), q. split; [done|]. split; [by apply Hready|]. split; [eapply step_to_trans; [apply fine_step, F1|by apply fine_step]|]. by intros []. }
  assert (Hsync : forall e q, fine p1 q -> exists r p', ('(_, p) ← sync_to_statement_boundary strtod (S (S fuel)) q; Some (Bad e, p)) = Some (r, p') /\ ready L p' /\ step_to p p' /\ call_post p r p').
  { intros e q Fq. pose proof (f_work _ _ Fq). destruct (sync_spec (S (S fuel)) q (f_inv _ _ Fq)) as (p3 & -> & S3 & Ha3 & Hn3 & Hw3); [lia|]. cbn [mbind option_bind].
    exists (Bad e), p3. pose proof (s_work _ _ S3). split; [done|]. split; [split; [apply S3|lia|lia]|]. split; [eapply step_to_trans; [apply fine_step, F1|]; eapply step_to_trans; [by apply fine_step|done]|].
    intros _. destruct Hw3; lia. }
  destruct (l_outer_tier _ _ (parser_level (S fuel)) p1 (q_ctx p1) (f_inv _ _ F1) eq_refl) as (r & p2 & -> & F2 & HQ); [lia|]. cbn [mbind option_bind].
  destruct (arena_oom grants p2); [by apply Hsent|]. destruct r as [s| |e]; [|by apply Hsent|by apply Hsync].
  destruct HQ as (_ & Hsz & Hj). destruct (peek_val p2 (f_inv _ _ F2)) as (t2 & p3 & -> & F3 & Hp3 & Hn3). cbn [mbind option_bind]. pose proof (fine_trans _ _ _ F2 F3) as F13. rewrite (f_ctx _ _ F1) in Hj.
  destruct (peeked_work _ _ (f_inv _ _ F3) Hp3) as [Heof3 Hother3]. pose proof (f_work _ _ F13).
  assert (Herr : exists r p', ('(r, p) ← @make_error grants UAstNode PARSE_UNEXPECTED_TOKEN (at_tok t2) p3;
    if arena_oom grants p then Some (Bad uparser_oom_sentinel, p) else match r with Err e => '(_, p) ← sync_to_statement_boundary strtod (S (S fuel)) p; Some (Bad e, p) | _ => Some (Bad uparser_oom_sentinel, p) end)
    = Some (r, p') /\ ready L p' /\ step_to p p' /\ call_post p r p').
  { destruct (error_runs PARSE_UNEXPECTED_TOKEN MTable (at_tok t2) p3 (fun (_ : UAstNode) _ => True) (f_inv _ _ F3)) as (r & p4 & E4 & F4 & _). unfold make_error. rewrite E4. cbn [mbind option_bind].
    pose proof (fine_trans _ _ _ F13 F4) as F14. destruct (arena_oom grants p4); [by apply Hsent|]. destruct r; [by apply Hsent|by apply Hsent|by apply Hsync]. }
  destruct (t_type t2) eqn:Ety; try exact Herr; clear Herr.
  - destruct (Heof3 eq_refl). exists (Statement s), p3. split; [done|]. split; [by apply Hready|]. split; [eapply step_to_trans; [apply fine_step, F1|by apply fine_step]|]. split; [lia|]. split; [lia|done].
  - destruct (take_val p3 t2 (f_inv _ _ F3) Hp3) as (p4 & -> & S4 & Hn4 & Hk4 & Hw4). cbn [mbind option_bind]. cbn [pend] in Hw4. rewrite decide_False in Hw4 by congruence.
    exists (Statement s), p4. split; [done|]. split; [|split; [eapply step_to_trans; [apply fine_step, F1|]; eapply step_to_trans; [apply fine_step, F13|done]|]].
    + split; [apply S4| |lia]. etransitivity; [apply unpeeked_ahead; [apply S4|apply Hn4; congruence]|lia].
    + split; [lia|]. split; [lia|done].
Qed.
End Runs.
End ParseFacts.
