(* ===== verification/ParseTop.v ===== *)
(** * A source, statement by statement

    What a client of the parser sees: it starts on a source and asks for a
    statement, again and again ([session]).  A call always comes back, every
    answer that is not out of memory uses up source, the counters are as at the
    start between calls, a jump stands inside its loop or switch, and the nodes
    handed out stay within the budget. *)
From Stdlib Require Import Ascii String SpecFloat.
From S2P Require Import Prelude Text Lex LexFacts ParseStr Ast Parse ParseFacts.
Import Lex LexFacts Ast Parse ParseFacts.

Module ParseTop.

Lemma all_read p : work (q_tok p) = 0 -> rest (ParseStr.p_lex (q_tok p)) = [].
Proof.
  unfold work. pose proof (pend_range (ParseStr.p_peek (q_tok p))). pose proof (pend_range (ParseStr.p_peek2 (q_tok p))). unfold zlen. intros. destruct (rest _); [done|cbn in *; lia].
Qed.

Section Sessions.
Context (strtod : bytes -> spec_float) (grants : nat -> bool) (b : option UCompileBudget) (src : bytes) (fuel : nat).

(** The answers so far, the last one first, and the state after them. *)
Inductive session : list statement -> UParser -> Prop :=
  | session_start : session [] (uparse_init (ulex_init src) b)
  | session_call rs p r p' : session rs p -> uparse_next_statement strtod grants fuel p = Some (r, p') -> session (r :: rs) p'.

(** A statement or an error of the source, rather than its end or no memory. *)
Definition of_source (r : statement) : bool :=
  match r with Statement _ => true | Bad e => negb (bool_decide (e_code e = PARSE_OOM)) | End_of_source => false end.
Definition nodes_of (r : statement) : Z := match r with Statement s => size s | _ => 0 end.

Definition jumps_inside (r : statement) : Prop := match r with Statement s => jumps_ok false false s = true | _ => True end.

Record sound (rs : list statement) (p : UParser) : Prop := {
  d_ready : ready strtod (zlen src) p;
  d_ctx : q_ctx p = q_ctx (uparse_init (ulex_init src) b);
  d_budget : budget p = b;
  d_work : work (q_tok p) + zlen (filter (fun r => of_source r = true) rs) <= zlen src;
  d_nodes : sum_over nodes_of rs <= node_count p;
  d_jumps : Forall jumps_inside rs }.

Hypothesis Hsize : zlen src < 2 ^ 31 - 1.
Hypothesis Hfuel : zlen src <= Z.of_nat fuel.

Lemma session_sound rs p : session rs p -> sound rs p.
Proof.
  induction 1 as [|rs p r p' _ [Hr Hc Hb Hw Hn Hj] E].
  - assert (Hi : inv (uparse_init (ulex_init src) b)).
    { split; cbn; try done; [split; cbn; [by split|done|done|done|by intros ? [?|?]]|]. destruct b as [[d m]|]; cbn; [lia|done]. }
    assert (Hw : work (q_tok (uparse_init (ulex_init src) b)) = zlen src) by (unfold work; cbn; lia).
    split; [split; [done|rewrite <- Hw; by apply unpeeked_ahead|lia]|done|done|rewrite Hw, filter_nil; change (zlen (@nil statement)) with 0; lia|done|done].
  - destruct (next_statement_spec strtod grants (zlen src) fuel p Hr Hfuel) as (r0 & p0 & E0 & Hr' & S & HP). rewrite E in E0. injection E0 as <- <-.
    pose proof (s_work _ _ S). pose proof (s_nodes _ _ S). split; [done|rewrite (s_ctx _ _ S); done|rewrite (s_budget _ _ S); done| | |].
    + rewrite filter_cons. unfold zlen in *. destruct r as [|s|e]; cbn [call_post of_source] in *; case_decide as Ho; cbn [length] in *; try done; try lia.
      apply negb_true_iff, bool_decide_eq_false in Ho. specialize (HP Ho). lia.
    + cbn [sum_over]. destruct r as [|s|e]; cbn [nodes_of call_post] in *; lia.
    + constructor; [|done]. destruct r as [|s|e]; try done. destruct HP as (_ & _ & HP). by rewrite Hc in HP.
Qed.
End Sessions.

(** C12 A call on the parser always comes back: for any source that an int
    can measure, any allocations refused, any budget and any conversion of
    floats, after any calls before it, a level of recursion per byte of source
    is enough, and nothing undefined is met. *)
Theorem every_call_answers strtod grants b src fuel rs p :
  zlen src < 2 ^ 31 - 1 -> zlen src <= Z.of_nat fuel -> session strtod grants b src fuel rs p ->
  exists r p', uparse_next_statement strtod grants fuel p = Some (r, p') /\ session strtod grants b src fuel (r :: rs) p'.
Proof.
  intros Hs Hf H. destruct (next_statement_spec strtod grants (zlen src) fuel p (d_ready _ _ _ _ _ (session_sound _ _ _ _ _ Hs Hf _ _ H)) Hf) as (r & p' & E & _).
  exists r, p'. split; [done|]. by eapply session_call.
Qed.

(** C14 A source gives no more statements and errors than it has bytes, and
    its end is answered when all of it has been read. *)
Theorem source_is_used_up strtod grants b src fuel rs p :
  zlen src < 2 ^ 31 - 1 -> zlen src <= Z.of_nat fuel -> session strtod grants b src fuel rs p ->
  zlen (filter (fun r => of_source r = true) rs) <= zlen src /\ (head rs = Some End_of_source -> rest (ParseStr.p_lex (q_tok p)) = []).
Proof.
  intros Hs Hf H. split.
  - pose proof (d_work _ _ _ _ _ (session_sound _ _ _ _ _ Hs Hf _ _ H)). pose proof (work_nonneg (q_tok p)). lia.
  - destruct H as [|rs p r p' H E]; [done|]. intros [= ->]. apply (all_read p').
    destruct (next_statement_spec strtod grants (zlen src) fuel p (d_ready _ _ _ _ _ (session_sound _ _ _ _ _ Hs Hf _ _ H)) Hf) as (r0 & p0 & E0 & _ & _ & HP).
    rewrite E in E0. injection E0 as <- <-. exact HP.
Qed.

(** C15 Whatever a call answers, an error from deep inside included, the loop,
    switch, class and depth counters and the event-condition flag are back at
    their starting values. *)
Theorem counters_are_put_back strtod grants b src fuel rs p :
  zlen src < 2 ^ 31 - 1 -> zlen src <= Z.of_nat fuel -> session strtod grants b src fuel rs p -> q_ctx p = MkCtx false 0 [] 0 0 0.
Proof. intros Hs Hf H. exact (d_ctx _ _ _ _ _ (session_sound _ _ _ _ _ Hs Hf _ _ H)). Qed.

(** C13 In every statement a [break] stands in a loop or a switch and a
    [continue] in a loop, and the body of a function, the body, else arm and
    [onleave] of a watcher start with none around them. The defaults of
    parameters and the conditions of watchers do not: they are parsed with
    the loops and switches around the function or the watcher, so a jump in
    one of those may have only such a one. *)
Theorem jumps_have_targets strtod grants b src fuel rs p :
  zlen src < 2 ^ 31 - 1 -> zlen src <= Z.of_nat fuel -> session strtod grants b src fuel rs p -> Forall jumps_inside rs.
Proof. intros Hs Hf H. exact (d_jumps _ _ _ _ _ (session_sound _ _ _ _ _ Hs Hf _ _ H)). Qed.

(** C16 The nodes of the statements handed out, hidden ones of desugared forms
    included, are no more than those counted, and the count never passes the
    budget. *)
Theorem nodes_within_budget strtod grants b src fuel rs p :
  zlen src < 2 ^ 31 - 1 -> zlen src <= Z.of_nat fuel -> session strtod grants b src fuel rs p ->
  sum_over nodes_of rs <= node_count p /\ match b with Some b => 0 < max_ast_nodes b -> node_count p <= max_ast_nodes b | None => True end.
Proof.
  intros Hs Hf H. destruct (session_sound _ _ _ _ _ Hs Hf _ _ H) as [[Hi _ _] _ Hb _ Hn _]. split; [done|]. pose proof (i_budget _ Hi) as Hw. rewrite Hb in Hw. by destruct b; [apply Hw|].
Qed.

(** ** Witnesses *)

Definition sample : bytes := lit "while (a < 3) { if (b) break; a = a + 1 }; a = 1 | break | f(1)".
Definition sample_budget : option UCompileBudget := Some (MkBudget 20 40).
Definition zero_float (_ : bytes) : spec_float := S754_zero false.
Definition granted (_ : nat) : bool := true.

(** A [break] in the condition of an [at] inside a loop is a statement. *)
Example break_in_a_condition : exists a p,
  uparse_next_statement zero_float granted 80 (uparse_init (ulex_init (lit "while (1) { at (try { break } finally { }) f() }")) None) = Some (Statement a, p).
Proof. eexists _, _. vm_compute. reflexivity. Qed.

(** The answers and the state after [m] calls. *)
Fixpoint calls (m : nat) : option (list statement * UParser) :=
  match m with
  | O => Some ([], uparse_init (ulex_init sample) sample_budget)
  | S m => '(rs, p) ← calls m; '(r, p) ← uparse_next_statement zero_float granted 80 p; Some (r :: rs, p)
  end.
Lemma calls_session m : forall rs p, calls m = Some (rs, p) -> session zero_float granted sample_budget sample 80 rs p.
Proof.
  induction m as [|m IH]; intros rs p E; cbn in E; [injection E as <- <-; constructor|]. destruct (calls m) as [[rs0 p0]|]; [|done]. cbn in E.
  destruct (uparse_next_statement _ _ _ p0) as [[r p1]|] eqn:E1; [|done]. injection E as <- <-. econstructor; [by apply IH|done].
Qed.

Definition sampled : Prop := zlen sample < 2 ^ 31 - 1 /\ zlen sample <= Z.of_nat 80 /\ exists rs p, calls 5 = Some (rs, p) /\ session zero_float granted sample_budget sample 80 rs p.
Lemma sample_session : sampled.
Proof. split; [vm_compute; done|]. split; [vm_compute; done|]. destruct (calls 5) as [[rs p]|] eqn:E; [exists rs, p; split; [done|exact (calls_session 5 _ _ E)]|by vm_compute in E]. Qed.

Lemma every_call_answers_witness : exists rs p r p', calls 5 = Some (rs, p) /\ uparse_next_statement zero_float granted 80 p = Some (r, p').
Proof.
  destruct sample_session as (Hs & Hf & rs & p & E & H). destruct (every_call_answers _ _ _ _ _ _ _ Hs Hf H) as (r & p' & E1 & _). exists rs, p, r, p'. split; [exact E|exact E1].
Defined.

(** Five calls: a loop and an assignment, an error at [break], a call, the end twice. *)
Lemma source_is_used_up_witness : exists rs p, calls 5 = Some (rs, p) /\ map of_source rs = [false; false; true; true; true] /\
  zlen (filter (fun r => of_source r = true) rs) <= zlen sample /\ rest (ParseStr.p_lex (q_tok p)) = [].
Proof.
  destruct sample_session as (Hs & Hf & rs & p & E & H). destruct (source_is_used_up _ _ _ _ _ _ _ Hs Hf H) as [H1 H2]. exists rs, p. split; [exact E|].
  assert (Ers : (of_source <$> rs) = [false; false; true; true; true] /\ head rs = Some End_of_source) by (vm_compute in E; injection E as <- <-; done).
  destruct Ers as [Ho Hh]. split; [exact Ho|]. split; [exact H1|by apply H2].
Defined.

Lemma counters_are_put_back_witness : exists rs p, calls 5 = Some (rs, p) /\ q_ctx p = MkCtx false 0 [] 0 0 0.
Proof.
  destruct sample_session as (Hs & Hf & rs & p & E & H). exists rs, p. split; [exact E|]. exact (counters_are_put_back _ _ _ _ _ _ _ Hs Hf H).
Defined.

Lemma jumps_have_targets_witness : exists rs p, calls 5 = Some (rs, p) /\ Forall jumps_inside rs.
Proof.
  destruct sample_session as (Hs & Hf & rs & p & E & H). exists rs, p. split; [exact E|]. exact (jumps_have_targets _ _ _ _ _ _ _ Hs Hf H).
Defined.

Lemma nodes_within_budget_witness : exists rs p, calls 5 = Some (rs, p) /\ sum_over nodes_of rs <= node_count p /\ node_count p <= 40.
Proof.
  destruct sample_session as (Hs & Hf & rs & p & E & H). exists rs, p. split; [exact E|]. destruct (nodes_within_budget _ _ _ _ _ _ _ Hs Hf H) as [H1 H2]. split; [exact H1|by apply H2].
Defined.
End ParseTop.
