(* ===== verification/Emit.v ===== *)
(** * The emitter (src/src/emit/uemit.c, uemit_expr.c, uemit_ctrl.c, uemit_scope.c, uemit_react.c)

    From a syntax tree to a prototype, on the registers, blocks, upvalues and
    streams of [EmitReg].  An action answers a value and the new state, or is
    a fault: an access outside an array or a failed assertion.  An error is
    latched in the state and the code runs on, as in the C.  [want] is a
    register, or -1 for anywhere.  Every arm takes [rec], the compiler of its
    subtrees; [uexpr_want] ties the knot, with fuel.

    Left out: diagnostics, the source name, and branches for nodes the parser
    never builds (AST_NOOP, AST_ERROR inside a tree, a declaration without an
    initializer, a tag prefix without a tag or with an onleave).  A child
    prototype joins its parent's array when it is finished. *)
From Stdlib Require Import Ascii String SpecFloat.
From S2P Require Import Prelude Text Instr Chunk EmitReg Ast.
#[local] Open Scope Z_scope.

Import Ast.
Import EmitReg.

Module Emit.

(** ** Actions *)

Definition M (A : Type) : Type := UEmitter -> option (A * UEmitter).
#[export] Instance M_ret : MRet M := fun A a e => Some (a, e).
#[export] Instance M_bind : MBind M := fun A B f m e => '(a, e) ← m e; f a e.

Definition lift {A} (f : UEmitter -> option (A * UEmitter)) : M A := f.
Definition act (f : UEmitter -> option UEmitter) : M unit := fun e => e ← f e; Some (tt, e).
Definition pure {A} (f : UEmitter -> A * UEmitter) : M A := fun e => Some (f e).
Definition gets {A} (f : UEmitter -> A) : M A := fun e => Some (f e, e).
Definition some {A} (o : option A) : M A := fun e => a ← o; Some (a, e).
(** [uemit_fail] and the answer [a]. *)
Definition failing {A} (code : UEmitError) (a : A) : M A := fun e => Some (a, uemit_fail code e).

(** [e->error == EMIT_OK]. *)
Definition error_ok : M bool := gets is_ok.
(** [e->fs], and an assignment to its fields. *)
Definition cur : M UFuncState := fun e => fs ← head (e_fs e); Some (fs, e).
Definition upd (f : UFuncState -> UFuncState) : M unit := fun e => fs ← head (e_fs e); Some (tt, put_fs (f fs) e).
Definition freereg : M Z := fs ← cur; mret (fs_freereg fs).
(** [e->fs->parent == NULL]. *)
Definition at_root : M bool := gets (fun e => (length (e_fs e) <=? 1)%nat).
Definition upd_ses (f : session -> session) : M unit := fun e => Some (tt, set_ses (f (e_ses e)) e).
Definition local_at (li : nat) : M ULocal := fs ← cur; some (fs_locals fs !! li).

Definition set_lazy_ctx (b : bool) (s : session) : session := MkSession (s_serial s) (s_free s) (s_lazy_globals s) b (s_any_stmt s) (s_last_result s).
Definition set_lazy_globals (l : list (sym * Z)) (s : session) : session := MkSession (s_serial s) (s_free s) l (s_lazy_arg_ctx s) (s_any_stmt s) (s_last_result s).
Definition set_serial (n : Z) (s : session) : session := MkSession n (s_free s) (s_lazy_globals s) (s_lazy_arg_ctx s) (s_any_stmt s) (s_last_result s).
Definition set_last (r : Z) (s : session) : session := MkSession (s_serial s) (s_free s) (s_lazy_globals s) (s_lazy_arg_ctx s) true r.

(** [n->line], a C int, when positive. *)
Definition as_int (x : Z) : Z := if u32 x <? 2 ^ 31 then u32 x else u32 x - 2 ^ 32.
Definition line_at (l : pos) : Z := let x := as_int l.1 in if 0 <? x then x else 0.
Definition line_of (n : UAstNode) : Z := line_at (pos_of n).

(** The bits of a double. *)
Definition float_bits (f : spec_float) : Z :=
  let sign (s : bool) := if s then 2 ^ 63 else 0 in
  match f with
  | S754_zero s => sign s
  | S754_infinity s => sign s + 2047 * 2 ^ 52
  | S754_nan => 2047 * 2 ^ 52 + 2 ^ 51
  | S754_finite s m e => if Zpos m <? 2 ^ 52 then sign s + Zpos m else sign s + (e + 1075) * 2 ^ 52 + (Zpos m - 2 ^ 52)
  end.

(** ** Lazy parameters *)

Definition param_is_lazy (p : UAstNode) : bool := match p with AST_PARAM _ _ _ b => b | _ => false end.
Definition param_name (p : UAstNode) : option bytes := match p with AST_PARAM _ name _ _ => Some name | _ => None end.
Definition param_default (p : UAstNode) : option UAstNode := match p with AST_PARAM _ _ d _ => d | _ => None end.

Fixpoint lazy_bits (i : Z) (params : list UAstNode) : Z :=
  match params with
  | [] => 0
  | p :: l => if 16 <=? i then 0 else Z.lor (if param_is_lazy p then Z.shiftl 1 i else 0) (lazy_bits (i + 1) l)
  end.
Definition ufunc_lazy_mask (params : list UAstNode) : Z := lazy_bits 0 params.
Definition init_mask (init : UAstNode) : Z := match init with AST_FUNCTION _ params _ => ufunc_lazy_mask params | _ => 0 end.
Definition func_has_lazy (params : list UAstNode) : bool := existsb param_is_lazy params.

(** [lazy_globals]: the record of that name gets the mask. *)
Fixpoint note_mask (name : sym) (mask : Z) (l : list (sym * Z)) : option (list (sym * Z)) :=
  match l with
  | [] => None
  | x :: l => if decide (x.1 = name) then Some ((name, mask) :: l) else cons x <$> note_mask name mask l
  end.
Fixpoint mask_of (name : sym) (l : list (sym * Z)) : Z :=
  match l with [] => 0 | x :: l => if decide (x.1 = name) then x.2 else mask_of name l end.

Definition is_lazy_local (x : ULocal) : bool := negb (Z.land (lo_flags x) ULOCAL_LAZY_PARAM =? 0).

(** The innermost function that declares [name], and the local. *)
Fixpoint lookup_local (name : sym) (l : list UFuncState) : option ULocal :=
  match l with
  | [] => None
  | fs :: l => match ulocal_find fs name with Some li => fs_locals fs !! li | None => lookup_local name l end
  end.

Definition callee_lazy_mask (name : sym) : M Z :=
  gets (fun e => match lookup_local name (e_fs e) with Some x => lo_mask x | None => mask_of name (s_lazy_globals (e_ses e)) end).

Definition lazy_global_note (name : sym) (mask : Z) : M unit :=
  l ← gets (fun e => s_lazy_globals (e_ses e));
  match note_mask name mask l with
  | Some l => upd_ses (set_lazy_globals l)
  | None =>
      if mask =? 0 then mret tt
      else if UEMIT_LAZY_GLOBALS_MAX <=? zlen l then failing EMIT_REG_EXHAUSTED tt
      else upd_ses (set_lazy_globals (l ++ [(name, mask)]))
  end.

Definition set_mask (li : nat) (mask : Z) : M unit :=
  upd (fun fs => set_locals (alter (fun x => MkLocal (lo_name x) (lo_reg x) (lo_flags x) mask) li (fs_locals fs)) fs).
Definition set_lazy_flag (li : nat) : M unit :=
  upd (fun fs => set_locals (alter (fun x => MkLocal (lo_name x) (lo_reg x) (Z.lor (lo_flags x) ULOCAL_LAZY_PARAM) (lo_mask x)) li (fs_locals fs)) fs).

Definition ustr_eq (name : bytes) (literal : bytes) : bool := bool_decide (name = literal).

Section Emit.
Context (grants : nat -> bool).

#[local] Abbreviation ureg_alloc := (lift EmitReg.ureg_alloc).
#[local] Abbreviation ureg_free_to r := (act (EmitReg.ureg_free_to r)).
#[local] Abbreviation ulocal_declare name := (lift (EmitReg.ulocal_declare name)).
#[local] Abbreviation upin := (lift EmitReg.upin).
#[local] Abbreviation uunpin r := (act (EmitReg.uunpin r)).
#[local] Abbreviation ublock_open l := (lift (EmitReg.ublock_open l)).
#[local] Abbreviation ublock_close := (lift (EmitReg.ublock_close grants)).
#[local] Abbreviation ujmp_emit line := (lift (EmitReg.ujmp_emit grants line)).
#[local] Abbreviation ujmp_patch_here pc := (act (EmitReg.ujmp_patch_here pc)).
#[local] Abbreviation ujmp_patch_to pc t := (act (EmitReg.ujmp_patch_to pc t)).
#[local] Abbreviation ujmp_back t line := (act (EmitReg.ujmp_back grants t line)).
#[local] Abbreviation uinstr_patch pc ins := (act (EmitReg.uinstr_patch pc ins)).
#[local] Abbreviation usite name := (lift (EmitReg.usite grants name)).
#[local] Abbreviation uslot_emit op a b s line := (act (EmitReg.uslot_emit grants op a b s line)).
#[local] Abbreviation const_add v := (lift (EmitReg.const_add grants v)).

(** Emitting for effect. *)
#[local] Abbreviation emit ins line := (lift (EmitReg.uinstr_emit grants ins line)) (only parsing).
Definition uinstr_pc : M Z := fun e => pc ← EmitReg.uinstr_pc e; Some (pc, e).
Definition asked : M bool := pure (ask grants).

(** An interned name; [None] is NULL, with EMIT_OOM latched. *)
Definition uemit_intern (s : bytes) : M (option sym) := ok ← asked; if ok : bool then mret (Some s) else failing EMIT_OOM None.
(** The rest of a function with the interned name, or its answer [a] for NULL. *)
Definition interning {A} (s : bytes) (a : A) (k : sym -> M A) : M A :=
  name ← uemit_intern s; match name with Some name => k name | None => mret a end.

Definition uupval (name : sym) : M (option nat) := fun e =>
  '(r, l, err) ← uupval_find_or_install (e_fs e) name (e_error e); Some (r, MkEmitter l err (e_calls e) (e_ses e)).

Definition uemit_target (want : Z) : M Z := if 0 <=? want then mret (u8 want) else ureg_alloc.
Definition settle (r want line : Z) : M Z :=
  if (want <? 0) || (u8 want =? r) then mret r else _ ← emit (uinstr_enc_abc OP_MOVE (u8 want) r 0) line; mret (u8 want).
Definition result_reg (want a b : Z) : M Z :=
  if 0 <=? want then mret (u8 want)
  else fs ← cur; let top := ureg_top fs in if top <=? a then mret a else if top <=? b then mret b else ureg_alloc.

(** A fresh instruction into [want] or a new register. *)
Definition ex_loadk (k want line : Z) : M Z := d ← uemit_target want; _ ← emit (uinstr_enc_abx OP_LOADK d k) line; mret d.
Definition ex_simple (op : UOpcode) (b want line : Z) : M Z := d ← uemit_target want; _ ← emit (uinstr_enc_abc op d b 0) line; mret d.
Definition load_nil (want line : Z) : M Z := ex_simple OP_LOADNIL 0 want line.
Definition load_void (want line : Z) : M Z := ex_simple OP_LOADVOID 0 want line.

(** [uslot_emit(e, op, a, b, usite(e, name), line)]. *)
Definition slot_access (op : UOpcode) (a b : Z) (name : sym) (line : Z) : M unit := s ← usite name; uslot_emit op a b s line.

Definition ex_this (l : pos) (want : Z) : M Z :=
  root ← at_root;
  if root : bool then failing EMIT_NO_THIS_OUTSIDE_METHOD 0 else ex_simple OP_LOAD_RECV 0 want (line_at l).

Definition ex_ident (l : pos) (text : bytes) (want : Z) : M Z :=
  interning text 0 (fun name =>
    fs ← cur;
    let line := line_at l in
    match ulocal_find fs name with
    | Some li =>
        x ← local_at li;
        ctx ← gets (fun e => s_lazy_arg_ctx (e_ses e));
        if is_lazy_local x && negb ctx then
          t ← ureg_alloc;
          _ ← emit (uinstr_enc_abc OP_MOVE t (lo_reg x) 0) line;
          _ ← emit (uinstr_enc_abc OP_CALL t 1 2) line;
          settle t want line
        else settle (lo_reg x) want line
    | None =>
        ui ← uupval name;
        ok ← error_ok;
        if negb ok then mret 0
        else
          d ← uemit_target want;
          match ui with
          | Some ui => _ ← emit (uinstr_enc_abc OP_GETUPVAL d (u8 (Z.of_nat ui)) 0) line; mret d
          | None => fs ← cur; _ ← slot_access OP_GETSLOT d (fs_r_globals fs) name line; mret d
          end
    end).

(** Whether compiling the node can run user code. *)
Definition expr_is_pure (n : UAstNode) : M bool :=
  match n with
  | AST_INT _ _ | AST_FLOAT_LIT _ _ | AST_STR _ _ | AST_BOOL _ _ | AST_NIL _ => mret true
  | AST_IDENT _ text =>
      interning text false (fun name =>
        x ← gets (fun e => lookup_local name (e_fs e));
        mret (match x with Some x => negb (is_lazy_local x) | None => false end))
  | _ => mret false
  end.

Definition snapshot_if_local (r : Z) (next : UAstNode) (line : Z) : M Z :=
  fs ← cur;
  if ureg_top fs <=? r then mret r
  else
    p ← expr_is_pure next;
    if p : bool then mret r else t ← ureg_alloc; _ ← emit (uinstr_enc_abc OP_MOVE t r 0) line; mret t.

(** A method with a lazy parameter is refused. *)
Definition reject_lazy_method (value : UAstNode) : M bool :=
  match value with
  | AST_FUNCTION _ params _ => if func_has_lazy params then failing EMIT_LAZY_ON_METHOD true else mret false
  | _ => mret false
  end.

(** ** The loop and scope records *)

Definition loop_push (is_switch : bool) : M bool :=
  fs ← cur;
  if UEMIT_LOOP_MAX <=? zlen (fs_loops fs) then failing EMIT_NESTING_TOO_DEEP false
  else _ ← upd (set_loops (fs_loops fs ++ [MkLoop [] [] is_switch (zlen (fs_scopes fs))])); mret true.
Definition loop_pop : M unit := upd (fun fs => set_loops (take (length (fs_loops fs) - 1) (fs_loops fs)) fs).
(** [fs->loops[i]]. *)
Definition loop_at (i : nat) : M ULoop := fs ← cur; some (fs_loops fs !! i).

Definition sites_of (is_break : bool) (lp : ULoop) : list (Z * bool) := if is_break then lp_breaks lp else lp_continues lp.
Definition add_site (is_break : bool) (x : Z * bool) (lp : ULoop) : ULoop :=
  if is_break then MkLoop (lp_breaks lp ++ [x]) (lp_continues lp) (lp_is_switch lp) (lp_scope_depth lp)
  else MkLoop (lp_breaks lp) (lp_continues lp ++ [x]) (lp_is_switch lp) (lp_scope_depth lp).

Fixpoint patch_list (l : list (Z * bool)) (target : Z) : M unit :=
  match l with
  | [] => mret tt
  | (pc, is_unwind) :: l =>
      ok ← error_ok;
      if negb ok then mret tt
      else if is_unwind : bool then
        if UINT16_MAX <? target then failing EMIT_JUMP_TOO_FAR tt
        else
          fs ← cur;
          w ← some (read (p_instrs (fs_proto fs)) pc);
          _ ← uinstr_patch pc (uinstr_enc_abx OP_UNWIND_TO (uinstr_a w) (u16 target));
          patch_list l target
      else _ ← ujmp_patch_to pc target; patch_list l target
  end.

(** A break or continue site of loop [i]. *)
Definition jump_out (i : nat) (is_break : bool) (line : Z) : M unit :=
  ok ← error_ok;
  if negb ok then mret tt
  else
    fs ← cur;
    lp ← loop_at i;
    if UEMIT_PATCH_MAX <=? zlen (sites_of is_break lp) then failing EMIT_PATCH_LIST_FULL tt
    else
      let depth := zlen (fs_scopes fs) - lp_scope_depth lp in
      pc ← (if 0 <? depth then emit (uinstr_enc_abx OP_UNWIND_TO (u8 depth) 0) line else ujmp_emit line);
      upd (fun fs => set_loops (alter (add_site is_break (pc, 0 <? depth)) i (fs_loops fs)) fs).

(** The innermost loop that is not a switch. *)
Fixpoint continue_loop (l : list ULoop) : option nat :=
  match l with
  | [] => None
  | x :: l => match continue_loop l with Some i => Some (S i) | None => if lp_is_switch x then None else Some O end
  end.

Definition uctrl_break (l : pos) (want : Z) : M Z :=
  fs ← cur;
  match length (fs_loops fs) with
  | O => failing EMIT_UNSUPPORTED_AST 0
  | S i => _ ← jump_out i true (line_at l); uemit_target want
  end.
Definition uctrl_continue (l : pos) (want : Z) : M Z :=
  fs ← cur;
  match continue_loop (fs_loops fs) with
  | None => failing EMIT_UNSUPPORTED_AST 0
  | Some i => _ ← jump_out i false (line_at l); uemit_target want
  end.

Definition UEMIT_SCOPE_TRY : Z := 1.
Definition UEMIT_SCOPE_TAG : Z := 2.
Definition UEMIT_SCOPE_FINALLY : Z := 3.

Definition scope_push (kind tag_reg : Z) : M bool :=
  fs ← cur;
  if UEMIT_SCOPE_MAX <=? zlen (fs_scopes fs) then failing EMIT_NESTING_TOO_DEEP false
  else _ ← upd (set_scopes (fs_scopes fs ++ [MkScope kind tag_reg])); mret true.
Definition scope_pop : M unit := upd (fun fs => set_scopes (take (length (fs_scopes fs) - 1) (fs_scopes fs)) fs).

Definition patch_handler (pc : Z) (op : UOpcode) (a target : Z) : M unit :=
  ok ← error_ok;
  if negb ok then mret tt
  else if UINT16_MAX <? target then failing EMIT_JUMP_TOO_FAR tt
  else uinstr_patch pc (uinstr_enc_abx op a (u16 target)).
Definition patch_handler_here (pc : Z) (op : UOpcode) (a : Z) : M unit := here ← uinstr_pc; patch_handler pc op a here.

Definition close_abandoned (captured : bool) (base line : Z) : M unit :=
  if captured then _ ← emit (uinstr_enc_abc OP_CLOSE base 0 0) line; mret tt else mret tt.
Definition deliver (rd want line : Z) : M Z :=
  d ← uemit_target want;
  if d =? rd then mret d else _ ← emit (uinstr_enc_abc OP_MOVE d rd 0) line; mret d.
Definition ncaptures : M Z := fs ← cur; mret (fs_ncaptures fs).

(** ** Prototypes *)

(** Linking a new child: room in the parent's array, the struct, its serial. *)
Definition uproto_alloc_nested : M bool :=
  fs ← cur;
  room ← (if fs_nested_cap fs <=? zlen (fs_nested fs) then
            ok ← asked;
            if ok : bool then _ ← upd (fun fs => set_nested (fs_nested fs) (if fs_nested_cap fs =? 0 then 4 else fs_nested_cap fs * 2) fs); mret true else mret false
          else mret true);
  if negb room then mret false
  else
    ok ← asked;
    if ok : bool then _ ← upd_ses (fun s => set_serial (u16 (s_serial s + 1)) s); mret true else mret false.

(** One allocation per site name; [false] at the first refusal. *)
Fixpoint dup_sites (l : list sym) : M bool :=
  match l with [] => mret true | _ :: l => ok ← asked; if ok : bool then dup_sites l else mret false end.
Definition sites_to_proto : M unit :=
  fs ← cur;
  if zlen (fs_sites fs) =? 0 then mret tt
  else
    ok ← asked;
    if negb ok then failing EMIT_OOM tt else ok ← dup_sites (fs_sites fs); if ok : bool then mret tt else failing EMIT_OOM tt.

(** The finished prototype of the current function, which is popped. *)
Definition ufunc_close : M eproto :=
  ok ← error_ok;
  _ ← (if ok : bool then sites_to_proto else mret tt);
  fs ← cur;
  _ ← upd_ses (fun s => MkSession (s_serial s) (S (s_free s)) (s_lazy_globals s) (s_lazy_arg_ctx s) (s_any_stmt s) (s_last_result s));
  _ ← pure (fun e => (tt, MkEmitter (tail (e_fs e)) (e_error e) (e_calls e) (e_ses e)));
  mret (MkEProto (fs_proto fs) (fs_max_reg fs) (u8 (zlen (fs_upvals fs))) (fs_nparams fs) (fs_sites fs) (fs_nested fs)).
Definition link_child (p : eproto) : M unit := upd (fun fs => set_nested (fs_nested fs ++ [p]) (fs_nested_cap fs) fs).

(** ** Expressions and statements *)

Section Arms.
Context (rec : UAstNode -> Z -> M Z).

Definition uexpr_any (n : UAstNode) : M Z := rec n (-1).
Definition uexpr_to (n : UAstNode) (dst : Z) : M unit := _ ← rec n dst; mret tt.
Definition uexpr_next (n : UAstNode) : M Z := t ← ureg_alloc; _ ← rec n t; mret t.
Definition ustmt (n : UAstNode) : M unit := entry ← freereg; _ ← rec n (-1); ureg_free_to entry.
Definition value_of (n : UAstNode) (want : Z) : M Z :=
  if want <? 0 then uexpr_any n else _ ← uexpr_to n (u8 want); mret (u8 want).
Fixpoint ustmts (l : list UAstNode) : M unit := match l with [] => mret tt | n :: l => _ ← ustmt n; ustmts l end.

Definition ex_var_decl (l : pos) (text : bytes) (init : UAstNode) (want : Z) : M Z :=
  interning text 0 (fun name =>
    fs ← cur;
    root ← at_root;
    let line := line_at l in
    if root && (zlen (fs_blocks fs) =? 0) then
      v ← uexpr_next init;
      fs ← cur;
      _ ← slot_access OP_SETSLOT v (fs_r_globals fs) name line;
      _ ← lazy_global_note name (init_mask init);
      settle v want line
    else
      let from := match last (fs_blocks fs) with Some b => b_nactvar b | None => O end in
      if existsb (named name) (drop from (fs_locals fs)) then failing EMIT_LOCAL_REDECLARE 0
      else
        t ← uexpr_next init;
        _ ← ureg_free_to t;
        li ← ulocal_declare name;
        match li with
        | None => mret 0
        | Some li =>
            x ← local_at li;
            _ ← (if lo_reg x =? t then mret tt else _ ← emit (uinstr_enc_abc OP_MOVE (lo_reg x) t 0) line; mret tt);
            _ ← set_mask li (init_mask init);
            settle (lo_reg x) want line
        end).

Definition ex_assign (l : pos) (text : bytes) (value : UAstNode) (want : Z) : M Z :=
  interning text 0 (fun name =>
    fs ← cur;
    let line := line_at l in
    match ulocal_find fs name with
    | Some li =>
        x ← local_at li;
        if is_lazy_local x then failing EMIT_LAZY_PARAM_ASSIGN 0
        else
          _ ← uexpr_to value (lo_reg x);
          _ ← set_mask li (init_mask value);
          settle (lo_reg x) want line
    | None =>
        ui ← uupval name;
        ok ← error_ok;
        if negb ok then mret 0
        else
          v ← uexpr_any value;
          match ui with
          | Some ui => _ ← emit (uinstr_enc_abc OP_SETUPVAL v (u8 (Z.of_nat ui)) 0) line; settle v want line
          | None =>
              fs ← cur;
              _ ← slot_access OP_SETSLOT_UPDATE v (fs_r_globals fs) name line;
              root ← at_root;
              _ ← (if root : bool then lazy_global_note name (init_mask value) else mret tt);
              settle v want line
          end
    end).

Definition ex_member_get (l : pos) (recv : UAstNode) (text : bytes) (want : Z) : M Z :=
  r ← uexpr_any recv;
  interning text 0 (fun name =>
    d ← result_reg want r r;
    _ ← slot_access OP_GETSLOT d r name (line_at l);
    mret d).

Definition ex_member_set (l : pos) (recv : UAstNode) (text : bytes) (value : UAstNode) (want : Z) : M Z :=
  bad ← reject_lazy_method value;
  if bad : bool then mret 0
  else
    r ← uexpr_any recv;
    r ← snapshot_if_local r value (line_at l);
    v ← uexpr_any value;
    interning text 0 (fun name =>
      _ ← slot_access OP_SETSLOT v r name (line_at l);
      settle v want (line_at l)).

(** TEST or a comparison skips the jump to the second LOADBOOL. *)
Definition bool_result (d line : Z) : M Z :=
  _ ← emit (jmp_word (UEMIT_JMP_BIAS + 1)) line;
  _ ← emit (uinstr_enc_abc OP_LOADBOOL d 1 1) line;
  _ ← emit (uinstr_enc_abc OP_LOADBOOL d 0 0) line;
  mret d.

Definition ex_unary (l : pos) (op : UAstUnaryOp) (operand : UAstNode) (want : Z) : M Z :=
  r ← uexpr_any operand;
  d ← result_reg want r r;
  match op with
  | UOP_NOT => _ ← emit (uinstr_enc_abc OP_TEST r 0 0) (line_at l); bool_result d (line_at l)
  | UOP_NEG => _ ← emit (uinstr_enc_abc OP_NEG d r 0) (line_at l); mret d
  end.

(** Both operands, the left one kept from what the right one may run. *)
Definition operands (l : pos) (lhs rhs : UAstNode) (want : Z) : M (Z * Z * Z) :=
  x ← uexpr_any lhs;
  x ← snapshot_if_local x rhs (line_at l);
  y ← uexpr_any rhs;
  d ← result_reg want x y;
  mret (x, y, d).

Definition binary_op (op : UAstBinaryOp) : UOpcode :=
  match op with BOP_SUB => OP_SUB | BOP_MUL => OP_MUL | BOP_DIV => OP_DIV | BOP_ADD => OP_ADD end.
Definition ex_binary (l : pos) (op : UAstBinaryOp) (lhs rhs : UAstNode) (want : Z) : M Z :=
  '(x, y, d) ← operands l lhs rhs want;
  _ ← emit (uinstr_enc_abc (binary_op op) d x y) (line_at l);
  mret d.

Definition compare_word (op : UAstCompareOp) (x y : Z) : Z :=
  match op with
  | CMP_EQ => uinstr_enc_abc OP_EQ 0 x y
  | CMP_NEQ => uinstr_enc_abc OP_EQ 1 x y
  | CMP_LT => uinstr_enc_abc OP_LT 0 x y
  | CMP_LE => uinstr_enc_abc OP_LE 0 x y
  | CMP_GT => uinstr_enc_abc OP_LT 0 y x
  | CMP_GE => uinstr_enc_abc OP_LE 0 y x
  end.
Definition ex_compare (l : pos) (op : UAstCompareOp) (lhs rhs : UAstNode) (want : Z) : M Z :=
  '(x, y, d) ← operands l lhs rhs want;
  _ ← emit (compare_word op x y) (line_at l);
  bool_result d (line_at l).

Definition ex_logical (l : pos) (lhs rhs : UAstNode) (is_or : bool) (want : Z) : M Z :=
  d ← uemit_target want;
  base ← freereg;
  x ← uexpr_any lhs;
  _ ← emit (uinstr_enc_abc OP_TESTSET d x (if is_or then 0 else 1)) (line_at l);
  skip ← ujmp_emit (line_at l);
  _ ← ureg_free_to base;
  _ ← uexpr_to rhs d;
  _ ← ujmp_patch_here skip;
  mret d.

(** ** Function literals *)

Fixpoint digits (fuel : nat) (v : Z) : bytes :=
  match fuel with O => [] | S fuel => (if v / 10 =? 0 then [] else digits fuel (v / 10)) ++ [48 + v mod 10] end.

(** Into [msg[64]] and [dig[4]]; a write past either is a fault. *)
Definition arity_message (min_arity nparams : Z) : option bytes :=
  let dig := digits 20 min_arity in
  let msg := lit "function call: wrong argument count (expected " ++ (if min_arity <? nparams then lit "at least " else []) ++ dig ++ lit ")" in
  if (zlen dig <=? 4) && (zlen msg <=? 64) then Some msg else None.

Fixpoint min_arity_from (i : Z) (params : list UAstNode) : Z :=
  match params with
  | [] => 0
  | p :: l => Z.max (match param_default p with None => i + 1 | Some _ => 0 end) (min_arity_from (i + 1) l)
  end.

(** The default fills of the parameters [l], the first of them the [i]th. *)
Fixpoint default_fills (i : Z) (l : list UAstNode) : M unit :=
  match l with
  | [] => mret tt
  | p :: l =>
      let line := line_of p in
      ki ← const_add (KInt i);
      t ← ureg_alloc;
      _ ← emit (uinstr_enc_abx OP_LOADK t ki) line;
      fs ← cur;
      _ ← emit (uinstr_enc_abc OP_LE 0 (fs_r_nargs fs) t) line;
      skip ← ujmp_emit line;
      _ ← ureg_free_to t;
      default ← some (param_default p);
      _ ← uexpr_to default (u8 i);
      _ ← ujmp_patch_here skip;
      default_fills (i + 1) l
  end.

Definition arity_prologue (params : list UAstNode) : M unit :=
  let min_arity := min_arity_from 0 params in
  first ← some (head params);
  let line := line_of first in
  let fills := default_fills min_arity (drop (Z.to_nat min_arity) params) in
  if 0 <? min_arity then
    text ← some (arity_message min_arity (zlen params));
    interning text tt (fun text =>
      kmin ← const_add (KInt min_arity);
      kmsg ← const_add (KStr text);
      t ← ureg_alloc;
      _ ← emit (uinstr_enc_abx OP_LOADK t kmin) line;
      fs ← cur;
      _ ← emit (uinstr_enc_abc OP_LT 0 (fs_r_nargs fs) t) line;
      ok ← ujmp_emit line;
      _ ← emit (uinstr_enc_abx OP_LOADK t kmsg) line;
      _ ← emit (uinstr_enc_abc OP_THROW t 0 0) line;
      _ ← ujmp_patch_here ok;
      _ ← ureg_free_to t;
      fills)
  else fills.

(** The value of the last statement, when it is asked for. *)
Fixpoint body_stmts (as_expression : bool) (l : list UAstNode) : M (option Z) :=
  match l with
  | [] => mret None
  | [n] => if as_expression then r ← uexpr_any n; mret (Some r) else _ ← ustmt n; mret None
  | n :: l => _ ← ustmt n; body_stmts as_expression l
  end.

Definition stmts_of (body : UAstNode) : list UAstNode := match body with AST_BLOCK _ l => l | _ => [body] end.

Definition function_body (body : UAstNode) (as_expression : bool) : M unit :=
  let line := line_of body in
  opened ← ublock_open false;
  if negb opened then mret tt
  else
    v ← body_stmts as_expression (stmts_of body);
    _ ← ublock_close;
    r ← (match v with Some r => mret r | None => load_nil (-1) line end);
    _ ← emit (uinstr_enc_abc OP_RET r 0 0) line;
    mret tt.

Fixpoint intern_names (params : list UAstNode) : M (option (list sym)) :=
  match params with
  | [] => mret (Some [])
  | p :: l =>
      text ← some (param_name p);
      interning text None (fun name => names ← intern_names l; mret (cons name <$> names))
  end.

Fixpoint declare_params (names : list sym) (params : list UAstNode) : M unit :=
  match names, params with
  | name :: names, p :: params =>
      ok ← error_ok;
      if negb ok then mret tt
      else
        li ← ulocal_declare name;
        _ ← (match li with Some li => if param_is_lazy p then set_lazy_flag li else mret tt | None => mret tt end);
        declare_params names params
  | _, _ => mret tt
  end.

Fixpoint emit_captures (ups : list UUpvalDesc) (line : Z) : M unit :=
  match ups with
  | [] => mret tt
  | u :: ups => _ ← emit (uinstr_enc_abc OP_MOVE 0 (if uv_in_stack u then 1 else 0) (uv_idx u)) line; emit_captures ups line
  end.

(** Between opening and closing the child. *)
Definition func_code (names : list sym) (params : list UAstNode) (body : UAstNode) (as_expression : bool) : M unit :=
  _ ← declare_params names params;
  _ ← (if 0 <? zlen params then r ← upin; upd (fun fs => set_entry (fs_r_globals fs) r fs) else mret tt);
  r ← upin;
  _ ← upd (fun fs => set_entry r (fs_r_nargs fs) fs);
  _ ← emit (uinstr_enc_abc OP_LOAD_REALM_GLOBAL r 0 0) (line_of body);
  _ ← (if 0 <? zlen params then arity_prologue params else mret tt);
  function_body body as_expression.

Definition func_literal (params : list UAstNode) (body : UAstNode) (as_expression : bool) (dst : Z) : M unit :=
  if UFS_MAX_LOCALS <? zlen params then failing EMIT_REG_EXHAUSTED tt
  else
    names ← intern_names params;
    match names with
    | None => mret tt
    | Some names =>
        linked ← uproto_alloc_nested;
        if negb linked then failing EMIT_OOM tt
        else
          fs ← cur;
          let idx := u16 (zlen (fs_nested fs)) in
          opened ← pure (ufunc_open grants (u8 (zlen params)));
          if negb opened then mret tt
          else
            saved ← gets (fun e => s_lazy_arg_ctx (e_ses e));
            _ ← upd_ses (set_lazy_ctx false);
            _ ← func_code names params body as_expression;
            fs ← cur;
            let ups := fs_upvals fs in
            child ← ufunc_close;
            _ ← link_child child;
            _ ← upd_ses (set_lazy_ctx saved);
            _ ← emit (uinstr_enc_abx OP_CLOSURE dst idx) (line_of body);
            emit_captures ups (line_of body)
    end.

Definition uexpr_function (params : list UAstNode) (body : UAstNode) (as_expression : bool) : M Z :=
  t ← ureg_alloc; _ ← func_literal params body as_expression t; mret t.
Definition uexpr_function_to (params : list UAstNode) (body : UAstNode) (as_expression : bool) (dst : Z) : M unit :=
  func_literal params body as_expression dst.

(** ** Calls *)

Definition is_lazy_param (a : UAstNode) : M bool :=
  match a with
  | AST_IDENT _ text =>
      interning text false (fun name =>
        fs ← cur;
        match ulocal_find fs name with None => mret false | Some li => x ← local_at li; mret (is_lazy_local x) end)
  | _ => mret false
  end.

Definition call_arg (a : UAstNode) (is_lazy : bool) : M Z :=
  thunk ← is_lazy_param a;
  if thunk : bool then
    saved ← gets (fun e => s_lazy_arg_ctx (e_ses e));
    _ ← upd_ses (set_lazy_ctx true);
    t ← uexpr_next a;
    _ ← upd_ses (set_lazy_ctx saved);
    mret t
  else if negb is_lazy then uexpr_next a
  else uexpr_function [] (AST_BLOCK (pos_of a) [a]) true.

(** The arguments [l], the first of them the [i]th, which goes to [first + i]. *)
Fixpoint call_args (mask first i : Z) (l : list UAstNode) : M unit :=
  match l with
  | [] => mret tt
  | a :: l =>
      ok ← error_ok;
      if negb ok then mret tt
      else
        t ← call_arg a ((i <? 16) && Z.testbit mask i);
        ok ← error_ok;
        _ ← (if ok && negb (t =? u8 (first + i)) then failing EMIT_UNSUPPORTED_AST tt else mret tt);
        call_args mask first (i + 1) l
  end.

Definition call_base (want : Z) : M Z :=
  fs ← cur;
  if (0 <=? want) && (fs_freereg fs =? want + 1) && (ureg_top fs <=? want) then mret (u8 want) else ureg_alloc.

Definition call_tail (base argbase mask : Z) (method : bool) (args : list UAstNode) (want line : Z) : M Z :=
  _ ← call_args mask (base + argbase) 0 args;
  _ ← emit (uinstr_enc_abc OP_CALL base (u8 (zlen args + argbase)) (if method then Z.lor UCALL_C_METHOD 2 else 2)) line;
  _ ← ureg_free_to (u8 (base + 1));
  settle base want line.

Definition ex_call (l : pos) (callee : UAstNode) (args : list UAstNode) (want : Z) : M Z :=
  let line := line_at l in
  if 252 <? zlen args then failing EMIT_TOO_MANY_ARGS 0
  else
    match callee with
    | AST_MEMBER_GET _ recv text =>
        bad ← (if (3 <=? zlen args) && ustr_eq text (lit "setProperty") then a ← some (args !! 2%nat); reject_lazy_method a else mret false);
        if bad : bool then mret 0
        else
          base ← call_base want;
          _ ← ureg_alloc;
          r ← uexpr_any recv;
          interning text 0 (fun name =>
            _ ← slot_access OP_SELF base r name line;
            _ ← ureg_free_to (u8 (base + 2));
            call_tail base 2 0 true args want line)
    | _ =>
        base ← call_base want;
        mask ← (match callee with
                | AST_IDENT _ text => interning text None (fun name => m ← callee_lazy_mask name; mret (Some m))
                | _ => mret (Some 0)
                end);
        match mask with
        | None => mret 0
        | Some mask => _ ← uexpr_to callee base; call_tail base 1 mask false args want line
        end
    end.

(** ** Sequences and control flow *)

(** All children but the last, each [;] a sequence point. *)
Fixpoint seq_heads (yields : bool) (l : list UAstNode) : M unit :=
  match l with
  | [] => mret tt
  | n :: l =>
      _ ← ustmt n;
      fs ← cur;
      _ ← (if yields then _ ← emit (uinstr_enc_abc OP_YIELD 0 0 0) (fs_prev_line fs); mret tt else mret tt);
      seq_heads yields l
  end.

(** [a, b, c]: a detached strand per child but the last. *)
Fixpoint comma_forks (l : list UAstNode) : M unit :=
  match l with
  | [] => mret tt
  | c :: l =>
      ok ← error_ok;
      if negb ok then mret tt
      else
        base ← freereg;
        t ← uexpr_function [] c false;
        _ ← emit (uinstr_enc_abc OP_FORK t 255 UFORK_DETACH) (line_of c);
        _ ← ureg_free_to base;
        comma_forks l
  end.
Definition useq_comma (children : list UAstNode) (want : Z) : M Z :=
  _ ← comma_forks (removelast children);
  c ← some (last children);
  value_of c want.

(** A pinned closure per child, the last child first; the answer is in the order of [l]. *)
Fixpoint amp_pins (l : list UAstNode) : M (list (Z * Z)) :=
  match l with
  | [] => mret []
  | c :: l =>
      pins ← amp_pins l;
      ok ← error_ok;
      if negb ok then mret pins
      else p ← upin; _ ← uexpr_function_to [] c false p; mret ((p, line_of c) :: pins)
  end.
Fixpoint amp_joins (pins : list (Z * Z)) : M unit :=
  match pins with
  | [] => mret tt
  | (p, line) :: pins =>
      ok ← error_ok;
      if negb ok then mret tt
      else
        h ← ureg_alloc;
        _ ← emit (uinstr_enc_abc OP_FORK p h UFORK_JOIN) line;
        _ ← emit (uinstr_enc_abc OP_JOIN_WAIT h 0 0) line;
        _ ← uunpin p;
        amp_joins pins
  end.
Definition useq_amp (l : pos) (children : list UAstNode) (want : Z) : M Z :=
  room ← asked;
  if negb room then failing EMIT_OOM 0
  else
    pins ← amp_pins (tail children);
    c ← some (head children);
    _ ← ustmt c;
    _ ← amp_joins pins;
    load_void want (line_at l).

Definition uctrl_seq (l : pos) (sep : UAstSeparator) (children : list UAstNode) (want : Z) : M Z :=
  match sep with
  | SEP_COMMA => useq_comma children want
  | SEP_AMP => useq_amp l children want
  | _ =>
      _ ← seq_heads (bool_decide (sep = SEP_SEMI)) (removelast children);
      match last children with None => load_nil want (line_at l) | Some n => value_of n want end
  end.

Definition uctrl_block (l : pos) (stmts : list UAstNode) (want : Z) : M Z :=
  entry ← freereg;
  opened ← ublock_open false;
  if negb opened then mret 0
  else
    _ ← ustmts (removelast stmts);
    match last stmts with
    | None => _ ← ublock_close; load_nil want (line_at l)
    | Some n =>
        if 0 <=? want then _ ← uexpr_to n (u8 want); _ ← ublock_close; mret (u8 want)
        else
          r ← uexpr_any n;
          _ ← ublock_close;
          if r <? entry then mret r
          else
            d ← ureg_alloc;
            _ ← (if r =? d then mret tt else _ ← emit (uinstr_enc_abc OP_MOVE d r 0) (line_at l); mret tt);
            mret d
    end.

Definition body_statements (body : UAstNode) (is_loop : bool) : M unit :=
  opened ← ublock_open is_loop;
  if negb opened then mret tt else ustmts (stmts_of body).

(** Skip to the answered jump unless the condition holds. *)
Definition test_cond (cond : UAstNode) (line : Z) : M Z :=
  base ← freereg;
  c ← uexpr_any cond;
  _ ← emit (uinstr_enc_abc OP_TEST c 0 1) line;
  j ← ujmp_emit line;
  _ ← ureg_free_to base;
  mret j.

Definition uctrl_if (l : pos) (cond then_block : UAstNode) (else_block : option UAstNode) (want : Z) : M Z :=
  let line := line_at l in
  d ← uemit_target want;
  to_else ← test_cond cond line;
  _ ← uexpr_to then_block d;
  to_end ← ujmp_emit line;
  _ ← ujmp_patch_here to_else;
  _ ← (match else_block with Some n => uexpr_to n d | None => _ ← emit (uinstr_enc_abc OP_LOADNIL d 0 0) line; mret tt end);
  _ ← ujmp_patch_here to_end;
  mret d.

Definition uctrl_while (l : pos) (cond body : UAstNode) (want : Z) : M Z :=
  let line := line_at l in
  d ← uemit_target want;
  fs ← cur;
  let i := length (fs_loops fs) in
  pushed ← loop_push false;
  if negb pushed then mret d
  else
    top ← uinstr_pc;
    to_exit ← test_cond cond line;
    _ ← body_statements body true;
    ok ← error_ok;
    if negb ok then mret d
    else
      lp ← loop_at i;
      here ← uinstr_pc;
      _ ← patch_list (lp_continues lp) here;
      fs ← cur;
      b ← some (last (fs_blocks fs));
      _ ← close_abandoned (b_captured b) (b_freereg b) line;
      _ ← ujmp_back top line;
      exit ← uinstr_pc;
      _ ← ublock_close;
      _ ← ujmp_patch_to to_exit exit;
      _ ← patch_list (lp_breaks lp) exit;
      _ ← loop_pop;
      _ ← emit (uinstr_enc_abc OP_LOADNIL d 0 0) line;
      mret d.

(** The arms of a switch on register [s]: the jump each ends with. *)
Fixpoint switch_arms (s line : Z) (vals bodies : list UAstNode) : M (list Z) :=
  match vals, bodies with
  | v :: vals, body :: bodies =>
      ok ← error_ok;
      if negb ok then mret []
      else
        base ← freereg;
        r ← uexpr_any v;
        _ ← emit (uinstr_enc_abc OP_EQ 0 s r) line;
        to_next ← ujmp_emit line;
        _ ← ureg_free_to base;
        _ ← body_statements body false;
        _ ← ublock_close;
        x ← ujmp_emit line;
        _ ← ujmp_patch_here to_next;
        exits ← switch_arms s line vals bodies;
        mret (x :: exits)
  | [], _ => mret []
  | _, [] => some None
  end.
Fixpoint patch_jumps (l : list Z) (target : Z) : M unit :=
  match l with [] => mret tt | pc :: l => _ ← ujmp_patch_to pc target; patch_jumps l target end.

Definition uctrl_switch (l : pos) (expr : UAstNode) (vals bodies : list UAstNode) (default_body : option UAstNode) (want : Z) : M Z :=
  let line := line_at l in
  d ← uemit_target want;
  room ← asked;
  if negb room then failing EMIT_OOM d
  else
    s ← upin;
    _ ← uexpr_to expr s;
    fs ← cur;
    let i := length (fs_loops fs) in
    pushed ← loop_push true;
    if negb pushed then mret d
    else
      opened ← ublock_open false;
      if negb opened then mret d
      else
        exits ← switch_arms s line vals bodies;
        ok ← error_ok;
        _ ← (match default_body with
             | Some b => if ok : bool then _ ← body_statements b false; _ ← ublock_close; mret tt else mret tt
             | None => mret tt
             end);
        ok ← error_ok;
        if negb ok then mret d
        else
          lp ← loop_at i;
          exit ← uinstr_pc;
          _ ← ublock_close;
          _ ← patch_jumps exits exit;
          _ ← patch_list (lp_breaks lp) exit;
          _ ← loop_pop;
          _ ← uunpin s;
          _ ← emit (uinstr_enc_abc OP_LOADNIL d 0 0) line;
          mret d.

Definition uctrl_return (l : pos) (value : option UAstNode) (want : Z) : M Z :=
  r ← (match value with Some n => uexpr_any n | None => load_nil (-1) (line_at l) end);
  _ ← emit (uinstr_enc_abc OP_RET r 0 0) (line_at l);
  mret (if 0 <=? want then u8 want else r).
Definition uctrl_throw (l : pos) (value : UAstNode) (want : Z) : M Z :=
  r ← uexpr_any value;
  _ ← emit (uinstr_enc_abc OP_THROW r 0 0) (line_at l);
  mret (if 0 <=? want then u8 want else r).

(** ** Scopes *)

Definition catch_handler (line : Z) (catch_var : option bytes) (guard : option UAstNode) (body : UAstNode) (rd : Z) (captured : bool) : M unit :=
  base ← freereg;
  _ ← close_abandoned captured base line;
  opened ← ublock_open false;
  if negb opened then mret tt
  else
    x ← (match catch_var with
         | Some text =>
             interning text None (fun name =>
               li ← ulocal_declare name;
               match li with None => mret None | Some li => x ← local_at li; mret (Some (lo_reg x)) end)
         | None => x ← upin; mret (Some x)
         end);
    match x with
    | None => mret tt
    | Some x =>
        _ ← emit (uinstr_enc_abc OP_LOAD_CATCH_VALUE x 0 0) line;
        to_rethrow ← (match guard with None => mret None | Some g => j ← test_cond g line; mret (Some j) end);
        _ ← uexpr_to body rd;
        _ ← (match to_rethrow with
             | None => mret tt
             | Some j =>
                 over ← ujmp_emit line;
                 _ ← ujmp_patch_here j;
                 _ ← emit (uinstr_enc_abc OP_THROW x 0 0) line;
                 ujmp_patch_here over
             end);
        _ ← ublock_close;
        mret tt
    end.

(** SCOPE_TRY and the record that mirrors it; [None] past the limit. *)
Definition open_try (flag line : Z) : M (option Z) :=
  pc ← emit (uinstr_enc_abx OP_SCOPE_TRY flag 0) line;
  pushed ← scope_push UEMIT_SCOPE_TRY 0;
  mret (if pushed : bool then Some pc else None).
Definition pop_scope (a line : Z) : M unit := _ ← emit (uinstr_enc_abc OP_SCOPE_POP a 0 0) line; scope_pop.

(** The guarded body, its [else] and its handler. *)
Definition try_guarded (line : Z) (body : UAstNode) (catch_var : option bytes) (catch_body guard else_body : option UAstNode) (rd : Z) (catch_open : option Z) : M unit :=
  entry ← ncaptures;
  _ ← uexpr_to body rd;
  now ← ncaptures;
  _ ← (match catch_body with Some _ => pop_scope USCOPE_POP_TRY line | None => mret tt end);
  _ ← (match else_body with Some n => ustmt n | None => mret tt end);
  match catch_body, catch_open with
  | Some handler, Some catch_open =>
      past ← ujmp_emit line;
      _ ← patch_handler_here catch_open OP_SCOPE_TRY USCOPE_F_HAS_CATCH;
      _ ← catch_handler line catch_var guard handler rd (negb (now =? entry));
      ujmp_patch_here past
  | _, _ => mret tt
  end.

Definition try_finally (line base : Z) (fin_open : Z) (guarded_captured : bool) (finally_body : UAstNode) : M bool :=
  _ ← pop_scope (Z.lor USCOPE_POP_TRY USCOPE_POP_RUN_FINALLY) line;
  to_end ← ujmp_emit line;
  _ ← patch_handler_here fin_open OP_SCOPE_TRY USCOPE_F_HAS_FINALLY;
  _ ← close_abandoned guarded_captured base line;
  pushed ← scope_push UEMIT_SCOPE_FINALLY 0;
  if negb pushed then mret false
  else
    _ ← ustmt finally_body;
    _ ← scope_pop;
    _ ← emit (uinstr_enc_abc OP_RESUME 0 0 0) line;
    _ ← ujmp_patch_here to_end;
    mret true.

Definition uscope_try (l : pos) (body : UAstNode) (catch_var : option bytes) (catch_body guard else_body finally_body : option UAstNode) (want : Z) : M Z :=
  let line := line_at l in
  rd ← upin;
  base ← freereg;
  _ ← emit (uinstr_enc_abc OP_LOADNIL rd 0 0) line;
  fin_open ← (match finally_body with Some _ => open_try USCOPE_F_HAS_FINALLY line | None => mret (Some 0) end);
  match fin_open with
  | None => mret rd
  | Some fin_open =>
      catch_open ← (match catch_body with Some _ => open_try USCOPE_F_HAS_CATCH line | None => mret (Some 0) end);
      match catch_open with
      | None => mret rd
      | Some catch_open =>
          entry ← ncaptures;
          _ ← try_guarded line body catch_var catch_body guard else_body rd (Some catch_open);
          now ← ncaptures;
          done ← (match finally_body with Some f => try_finally line base fin_open (negb (now =? entry)) f | None => mret true end);
          if negb done then mret rd else _ ← uunpin rd; deliver rd want line
      end
  end.

Definition uscope_tag (l : pos) (tag_expr body : UAstNode) (want : Z) : M Z :=
  let line := line_at l in
  rd ← upin;
  _ ← emit (uinstr_enc_abc OP_LOADNIL rd 0 0) line;
  rt ← upin;
  _ ← uexpr_to tag_expr rt;
  base ← freereg;
  open ← emit (uinstr_enc_abx OP_SCOPE_TAG rt 0) line;
  pushed ← scope_push UEMIT_SCOPE_TAG rt;
  if negb pushed then mret rd
  else
    entry ← ncaptures;
    _ ← uexpr_to body rd;
    now ← ncaptures;
    _ ← pop_scope USCOPE_POP_TAG line;
    _ ← patch_handler_here open OP_SCOPE_TAG rt;
    _ ← close_abandoned (negb (now =? entry)) base line;
    _ ← uunpin rt;
    _ ← uunpin rd;
    deliver rd want line.

(** ** Watchers *)

Definition on_cond (source : UAstWatchSource) : bool := match source with UWSRC_COND => true | _ => false end.

Definition install_mode (mode : watch_mode) (source : UAstWatchSource) : Z :=
  let cond := on_cond source in
  match mode with
  | UWATCHER_AT_SYNC => if cond then UINSTALL_AT_SYNC_COND else UINSTALL_AT_SYNC_EVENT
  | UWATCHER_WHENEVER => if cond then UINSTALL_WHENEVER_COND else UINSTALL_WHENEVER_EVENT
  | UWATCHER_WAITUNTIL => UINSTALL_WAITUNTIL
  | UWATCHER_AT => if cond then UINSTALL_AT_COND else UINSTALL_AT_EVENT
  end.

(** [e.waituntil()]. *)
Definition wait_event (l : pos) (cond : UAstNode) (want : Z) : M Z :=
  value_of (AST_CALL l (AST_MEMBER_GET l cond (lit "waituntil")) []) want.

Definition body_closure (source : UAstWatchSource) (body : UAstNode) (payload_var : option bytes) (dst : Z) : M unit :=
  match source with
  | UWSRC_COND => uexpr_function_to [] body false dst
  | _ => uexpr_function_to [AST_PARAM ((pos_of body).1, 1) (default (lit "__payload") payload_var) None false] body false dst
  end.

(** The source into [base]; [false] is an early return. *)
Definition watch_source (l : pos) (source : UAstWatchSource) (cond : UAstNode) (base : Z) : M bool :=
  match source with
  | UWSRC_COND => _ ← uexpr_function_to [] cond true base; mret true
  | UWSRC_EVENT => _ ← uexpr_to cond base; mret true
  | UWSRC_SLOT_CHANGE slot =>
      r ← uexpr_any cond;
      interning slot false (fun name =>
        _ ← slot_access OP_GETSLOT_CHANGE_EVENT base r name (line_at l);
        _ ← ureg_free_to (u8 (base + 3));
        mret true)
  end.

(** The closures the watcher runs, and the flags that announce them. *)
Definition watch_closures (mode : watch_mode) (source : UAstWatchSource) (body else_body onleave : option UAstNode) (payload_var : option bytes) (base : Z) : M Z :=
  if decide (mode = UWATCHER_WAITUNTIL) then mret 0
  else
    f ← (match body with Some b => _ ← body_closure source b payload_var (u8 (base + 1)); mret UINSTALL_F_HAS_BODY | None => mret 0 end);
    let alt := match mode, else_body with UWATCHER_WHENEVER, Some b => Some b | _, _ => onleave end in
    match alt with
    | Some b => _ ← uexpr_function_to [] b false (u8 (base + 2)); mret (Z.lor f UINSTALL_F_HAS_ALT)
    | None => mret f
    end.

Definition uwatch_install_node (l : pos) (mode : watch_mode) (source : UAstWatchSource) (cond : UAstNode) (body else_body onleave : option UAstNode) (payload_var : option bytes) (want : Z) : M Z :=
  let line := line_at l in
  if bool_decide (mode = UWATCHER_WAITUNTIL) && negb (on_cond source) then wait_event l cond want
  else
    base ← ureg_alloc;
    _ ← ureg_alloc;
    _ ← ureg_alloc;
    go ← watch_source l source cond base;
    if negb go then mret 0
    else
      flags ← watch_closures mode source body else_body onleave payload_var base;
      _ ← emit (uinstr_enc_abc OP_INSTALL base (install_mode mode source) flags) line;
      _ ← ureg_free_to base;
      load_nil want line.

(** ** Dispatch *)

Definition dispatch (n : UAstNode) (want : Z) : M Z :=
  match n with
  | AST_INT l i => k ← const_add (KInt i); ex_loadk k want (line_at l)
  | AST_FLOAT_LIT l f => k ← const_add (KFloat (float_bits f)); ex_loadk k want (line_at l)
  | AST_STR l s => interning s 0 (fun s => k ← const_add (KStr s); ex_loadk k want (line_at l))
  | AST_BOOL l b => ex_simple OP_LOADBOOL (if b then 1 else 0) want (line_at l)
  | AST_NIL l => ex_simple OP_LOADNIL 0 want (line_at l)
  | AST_THIS l => ex_this l want
  | AST_IDENT l name => ex_ident l name want
  | AST_VAR_DECL l name init => ex_var_decl l name init want
  | AST_ASSIGN l name value => ex_assign l name value want
  | AST_MEMBER_GET l recv name => ex_member_get l recv name want
  | AST_MEMBER_SET l recv name value => ex_member_set l recv name value want
  | AST_UNARY l op a => ex_unary l op a want
  | AST_BINARY l op a b => ex_binary l op a b want
  | AST_COMPARE l op a b => ex_compare l op a b want
  | AST_LOGICAL l a b is_or => ex_logical l a b is_or want
  | AST_CALL l callee args => ex_call l callee args want
  | AST_FUNCTION l params body => d ← uemit_target want; _ ← func_literal params body true d; mret d
  | AST_SEQ l sep children => uctrl_seq l sep children want
  | AST_BLOCK l stmts => uctrl_block l stmts want
  | AST_IF l c t e => uctrl_if l c t e want
  | AST_WHILE l c b => uctrl_while l c b want
  | AST_SWITCH l e vals bodies d => uctrl_switch l e vals bodies d want
  | AST_BREAK l => uctrl_break l want
  | AST_CONTINUE l => uctrl_continue l want
  | AST_RETURN l v => uctrl_return l v want
  | AST_THROW l v => uctrl_throw l v want
  | AST_TRY l b v c g e f => uscope_try l b v c g e f want
  | AST_TAG_PREFIX l t b => uscope_tag l t b want
  | AST_WATCHER l m s c b e o p => uwatch_install_node l m s c b e o p want
  | AST_PARAM _ _ _ _ => failing EMIT_UNSUPPORTED_AST 0
  end.

(** An error: the answer of the early returns. *)
Definition no_value (want : Z) : Z := if 0 <=? want then u8 want else 0.

(** One node: its arm, and the registers the arm used given back. *)
Definition want_step (n : UAstNode) (want : Z) : M Z :=
  ok ← error_ok;
  if negb ok then mret (no_value want)
  else
    entry ← freereg;
    r ← dispatch n want;
    ok ← error_ok;
    if negb ok then mret (no_value want)
    else
      fs ← cur;
      _ ← (if (want <? 0) && (ureg_top fs <=? r) then ureg_free_to (u8 (r + 1)) else ureg_free_to entry);
      mret r.
End Arms.

Fixpoint uexpr_want (fuel : nat) (n : UAstNode) (want : Z) : M Z :=
  match fuel with O => fun _ => None | S fuel => want_step (uexpr_want fuel) n want end.

(** ** The driver *)

(** The emitter on a fresh root; NULL when it cannot be allocated. *)
Definition uemit_new (has_name : bool) : option (option UEmitter) :=
  let '(ok, e) := ask grants (MkEmitter [] EMIT_OK 0 new_session) in
  if negb ok then Some None
  else
    e ← (_ ← (if has_name then ok ← asked; if ok : bool then mret tt else failing EMIT_OOM tt else mret tt);
         opened ← pure (ufunc_open grants 0);
         if negb opened then mret tt
         else
           r ← upin;
           _ ← upd (fun fs => set_entry r (fs_r_nargs fs) fs);
           _ ← emit (uinstr_enc_abc OP_LOAD_REALM_GLOBAL r 0 0) 0;
           mret tt) e;
    Some (Some e.2).

Definition uemit_statement (fuel : nat) (n : UAstNode) : M UEmitError :=
  ok ← error_ok;
  if negb ok then gets e_error
  else
    r ← uexpr_want fuel n (-1);
    ok ← error_ok;
    if negb ok then gets e_error
    else
      _ ← upd_ses (set_last r);
      fs ← cur;
      _ ← ureg_free_to (ureg_top fs);
      mret EMIT_OK.

(** The error, and without one the root and its prototype count. *)
Definition uemit_finish : M (UEmitError * option (eproto * Z)) :=
  ok ← error_ok;
  if negb ok then err ← gets e_error; mret (err, None)
  else
    any ← gets (fun e => s_any_stmt (e_ses e));
    fs ← cur;
    r ← (if any : bool then gets (fun e => s_last_result (e_ses e)) else load_nil (-1) (fs_prev_line fs));
    fs ← cur;
    _ ← emit (uinstr_enc_abc OP_RET r 0 0) (fs_prev_line fs);
    root ← ufunc_close;
    err ← gets e_error;
    n ← gets (fun e => s_serial (e_ses e));
    mret (err, if decide (err = EMIT_OK) then Some (root, u16 (n + 1)) else None).

(** A whole program: the statements in order, up to the first error. *)
Fixpoint emit_statements (fuel : nat) (l : list UAstNode) : M UEmitError :=
  match l with
  | [] => mret EMIT_OK
  | n :: l => err ← uemit_statement fuel n; if decide (err = EMIT_OK) then emit_statements fuel l else mret err
  end.
End Emit.
End Emit.
