(* ===== verification/EmitExamples.v ===== *)
(** * The code generator at work

    Sources run through the lexer, the parser and the code generator, and the
    prototypes that come out put before the loader's verifier. *)
From Stdlib Require Import Ascii String SpecFloat.
From S2P Require Import Prelude Text Lex Ast Parse ParseTop Instr Chunk Verify Load ChunkExamples EmitReg Emit.
Import Lex Ast Parse EmitReg.

Module EmitExamples.

Definition granted (_ : nat) : bool := true.

(** The statements of a source, up to the first answer that is none. *)
Fixpoint statements (n : nat) (p : UParser) : list UAstNode :=
  match n with
  | O => []
  | S n => match uparse_next_statement ParseTop.zero_float granted 400 p with Some (Statement s, p) => s :: statements n p | _ => [] end
  end.
Definition parsed (src : bytes) : list UAstNode := statements 20 (uparse_init (ulex_init src) None).

(** The error, and the root if there is one. *)
Definition compiled (src : bytes) : option (UEmitError * option eproto) :=
  match Emit.uemit_new granted true with
  | Some (Some e) =>
      match Emit.emit_statements granted 3000 (parsed src) e with
      | Some (_, e) => match Emit.uemit_finish granted e with Some ((err, root), _) => Some (err, fst <$> root) | None => None end
      | None => None
      end
  | _ => None
  end.

(** What the verifier reads of a prototype: all but the line table and the
    contents of the constants. *)
Definition as_const (k : kconst) : UConst := match k with KInt i => K_INT i | KFloat _ => K_FLOAT [] | KStr s => K_STR (Some (O, s)) end.
Fixpoint as_proto (p : eproto) : UProto :=
  let '(MkEProto c mr nu np sites children) := p in
  MkProto (MkPData 0 mr nu np 0 (Vec None (as_const <$> p_consts c) 0) false (Vec None (p_instrs c) 0) None vnil (zlen sites) None None 0 0 false)
    (map (fun x => Some (as_proto x)) children).

(** The verdicts of the two passes (the loader runs the second only if the
    first finds nothing). *)
Definition verdict (p : UProto) : option (UChunkLoadError * option UChunkLoadError) :=
  rc ← urbi_chunk_decode_verify p;
  Some (rc, fst <$> urbi_chunk_verify_bounds (A := stdlib_alloc) p empty_heap).

(** The error of the compilation and the verdicts on its result. *)
Definition outcome (src : bytes) : option (UEmitError * option (UChunkLoadError * option UChunkLoadError)) :=
  match compiled src with Some (err, Some root) => Some (err, verdict (as_proto root)) | _ => None end.

(** The lines and counts aside, the loader takes what the code generator makes
    of a loop, functions that capture, a switch, a try and a watcher. *)
Definition good : bytes :=
  lit "var f = function(a, b = 2) { var x = a; while (x < b) { if (x) break; x = x + 1 }; function() { x } } | switch (f(1)) { case 1: 2; default: 3 } | try { throw 1 } catch (var e) { e } | at (f) f(2) onleave 3 |".
Example good_is_accepted : outcome good = Some (EMIT_OK, Some (OK, Some OK)).
Proof. vm_compute. reflexivity. Qed.

(** A function whose scope of a tag captures a local: at the end of the scope
    the OP_CLOSE names the free register, which the scope never used and the
    function may not have, and the first pass of the verifier refuses the word. *)
Definition closing_scope : bytes := lit "var f = function() { var x = 1; t: { function() { x } } } |".
Example closing_scope_is_refused : outcome closing_scope = Some (EMIT_OK, Some (UCHUNK_LOAD_CORRUPT, Some OK)).
Proof. vm_compute. reflexivity. Qed.

End EmitExamples.
